(* ===== verification/_CoqProject ===== *)
-Q . S2P
Prelude.v
MultiMap.v
SortedVec.v
Str.v
Paths.v
Kinds.v
DependencyGraph.v
GraphSort.v
GraphSearch.v
IndexState.v
EntityDiff.v
EdgeSet.v
EntityIndex.v
SymbolIndex.v
RelationIndex.v
DeltaDiff.v
DeltaApply.v
DeltaReplay.v
DeltaEntities.v
RelationQuery.v
TransitiveDeps.v
Layered.v
LayeredQuery.v
LayeredReplay.v
BaseCache.v
Compact.v
FsPath.v
Glob.v
Ignore.v
PatternMatcher.v
ExcludeRules.v
Languages.v
BuildSystem.v
FileTypes.v
TestMarks.v
TextBudget.v
CircuitBreaker.v
RetryQueue.v
QueryCache.v
PointIds.v
RelationEpochs.v
Manifests.v
GenerationTables.v
Generations.v
GenerationSessions.v
GenerationGc.v
Debounce.v
WatchQueue.v
ModeSwitch.v
Watcher.v
StateTracker.v
CheckpointStore.v
CheckpointManager.v
OperationQueue.v
Coordinator.v
Admission.v
