(* ===== verification/Prelude.v ===== *)
(** * A verified model of the core of code-context-engine

    Code-context-engine indexes source trees into a graph of entities and
    relations and keeps the index current while files change. This library
    models the parts of it that decide: what the graph holds and how it
    changes, what is retried, when an update runs, what is remembered across a
    restart, which operation may run, and which request is admitted. Parsing,
    search, storage engines and transport are the code's surroundings and are
    not modelled.

    ** Files and the code they model (paths under crates/)

    Shared:

    - [Prelude]: machine integers, time, [result], [Vec]/[VecDeque]
      operations, reachability of transition systems, shared tactics.
    - [MultiMap]: maps of sets and the interface [SetIter] of the iteration
      order of hash maps. [SortedVec]: binary search, insertion and removal in
      sorted vectors. [Str]: the operations of [str].

    The code graph:

    - [Paths]: core/cce-types/src/path.rs. A normalised path leads where the
      path led; group ids of
      distinct paths collide.
    - [Kinds]: the classifications of core/cce-types/src/types/entity/kind.rs
      and types/relation/.
    - [DependencyGraph], [GraphSort], [GraphSearch]: parser/cce-codegraph/src/
      dependency_graph.rs. The two edge maps mirror each other, removal, the
      processing order (C38), agreement of the three cycle
      checks, impact analysis.
    - [EdgeSet]: parser/cce-codegraph/src/index/core/edge_set.rs.
    - [EntityIndex]: the entity maps of index/core.rs and index/
      entity_index.rs. Consistency under every kind of registration
      (C23), range
      queries, fresh identifiers.
    - [SymbolIndex]: stable symbol keys (types/relation/canonical.rs of
      cce-types) and their registry in index/core.rs. Consistency
      (C20), first-wins registration.
    - [RelationIndex]: the relations and the file operations of index/core.rs
      and index/file_index.rs on top of the three stores and the dependency
      graph. The maintained reverse indexes equal rebuilt ones
      except for entities removed while others lead to them
      (C19), validation is exact
      (C32), removing a file is local
      (C11) but leaves the edges that lead into it
      (C10).
    - [DeltaDiff], [DeltaApply], [DeltaReplay], [DeltaEntities]:
      index/delta.rs and index/delta/, the views of index/view.rs. The delta
      between two indexes and its application to the old one. The edges of the
      scope are those of the new index afterwards (C6),
      and so are the entities (C29) and the dependencies; every entity is accounted for. The application blocks for ever when
      it visits an entry in a shard whose lock it holds, which happens
      (C27), entities read again can be swapped
      (C17), and file-level edges outside of the
      scope can dangle.
    - [RelationQuery], [TransitiveDeps]: index/relation_query.rs, the query
      traits of index/snapshot_query.rs and their implementations for the index
      and its snapshot, index/snapshot_index/query_optimized.rs. Callers are
      listed up to a limit, and below it the reverse queries mirror the forward
      ones; the precomputed transitive
      dependencies are the files reached.
    - [Layered], [LayeredQuery], [LayeredReplay]: the snapshot that answers from
      a base and a chain of pending deltas (index/snapshot_index.rs,
      snapshot_view/, snapshot_query/layered_impls.rs). It shows
      the entities no delta renames (C7) and, over quiet
      chains of fitting deltas, the edges (C8) of the
      index its deltas lead to; renames do not reach it, and a caller with a
      second edge is lost.
    - [BaseCache]: app/cce-orchestrator/src/index/relation_base_cache.rs. The
      view handed out for an epoch shows its dependencies and the entities no
      pending delta renames (C18).
    - [Compact]: index/compact.rs. The round trip, with what it
      loses (C36).
    - [EntityDiff]: app/cce-orchestrator/src/hot_update/change/. The entity
      changes patch the old entities into the new ones
      (C33).
    Files (paths under core/ unless they name another directory):

    - [FsPath]: the operations of std::path the models below use.
    - [Glob]: cce-utils/src/glob.rs. What a pattern compiles to and matches.
    - [Ignore], [PatternMatcher]: ignore.rs, pattern_matcher.rs and filter.rs
      of infra/cce-scanner/src/. Patterns of ignore files, the stack of nested
      ignore files, whose deepest opinion decides (C39),
      and the decisions of a scan (C14).
    - [ExcludeRules]: app/cce-orchestrator/src/hot_update/exclude_rules.rs.
    - [Languages], [BuildSystem]: cce-types/src/types/language.rs (names,
      extensions, the registry of plugin languages) and
      cce-types/src/build_system.rs (manifests, package names of imports).
    - [FileTypes], [TestMarks]: the detection of the rest of language.rs,
      the categories of types/ast_to_nl/, and types/test_info.rs; a chunk is
      marked as a test exactly by its file or its entities.
    - [TextBudget]: cce-text/src/budget.rs. Split (C35)
      and truncation to a token budget, with
      termination and alignment.

    Updates (paths under app/cce-orchestrator/src/ unless they name a crate):

    - [CircuitBreaker], module [Breaker]: infra/cce-circuit-breaker/src/lib.rs.
      A breaker, its timeout state machine, [execute] around a call, and
      metrics shared by several breakers. The invariant of the reachable states
      (C30), shielding and recovery.
    - [RetryQueue]: query/retry_queue.rs. The bound.
    - [QueryCache]: query/cache.rs. Concurrent lookups of one key run one
      computation (C26), answers are computed for their key and every request is answered
      (C37); what a failed leader lets happen.
    - [Debounce]: hot_update/debounce.rs. The lock-free fast path agrees with
      the full check.
    - [WatchQueue]: hot_update/watch_change_queue.rs,
      hot_update/coordinator/change_merger.rs and the consumer in
      hot_update/operation_runtime.rs. The bounded queue refines the event
      history (C24).
    - [ModeSwitch]: hot_update/mode_switch.rs, hot_update/state.rs. Degradation
      exactly on a sustained storm.
    - [Watcher]: hot_update/watcher/config.rs, event.rs and coordinator.rs.
      Events are forwarded in order, or a full rescan is demanded
      (C25).
    - [IndexState]: index_state.rs. The retry schedule of a module.
    - [StateTracker]: index_state_tracker/. The in-memory states of the files
      and their durable projection. Restoring after a restart
      (C3), superseding updates.
    - [CheckpointStore]: infra/cce-storage-metadb-sqlite/src/repo/
      checkpoint_repo.rs and schema/checkpoint.rs, the records of
      cce-storage-common, [OperationKind] of cce-types. What the
      tables hold for an operation is changed only by statements about it, and
      by maintenance that selects it (C13).
    - [CheckpointManager]: operation/checkpoint/mod.rs. Terminal operations are
      not replayed.
    - [OperationQueue]: operation/queue.rs. The exact effect of enqueueing
      (C28), order, deduplication and bound of
      the pending queue.
    - [Coordinator]: operation/coordinator.rs, the phases of
      operation/context.rs, two operations of operation/recovery.rs. Recovery
      replays exactly the fresh operations (C4).

    Storage generations (paths under app/cce-orchestrator/src/index/ unless
    they name a crate):

    - [PointIds]: the ids of vector points and their change of epoch, in
      storage_coordinator/mapping.rs.
    - [RelationEpochs]: the manifests, deltas and snapshots of relation epochs
      (infra/cce-storage-metadb-sqlite/src/repo/relation_snapshot_repo.rs),
      their store and the loading of a chain of deltas onto its base. The
      tables hold whatever is written (C15); what is loaded is linked up to its
      epoch (C12), a delta that was written but not
      published is replayed (C22), and every walk
      to the base ends.
    - [Manifests]: the publication manifests of an index, their activation
      (repo/project_index_manifest_repo.rs, generation_override_repo.rs of the
      same crate), and what of them is garbage.
    - [GenerationTables]: storage_coordinator/candidate/ and generation/, the
      statements on the tables of chunks, files and
      hashes, and the compaction of overlays into their base, which
      overloaded entities block (C16).
    - [Generations]: storage_coordinator.rs, candidate/, generation/
      lifecycle.rs, query/filter.rs. A candidate generation from its preparation to its
      publication, adoption by a running process, and the recovery of an
      interrupted one. A published candidate is what searches see
      (C9).
    - [GenerationSessions]: a hot update as a sequence of steps on a candidate,
      against the specification that changes a map of files in one step: what
      was published is that map with the changes (C2),
      and an update that fails anywhere before its publication changes nothing
      (C21).
    - [GenerationGc]: storage_coordinator/generation/gc.rs. The plan of a collection of old generations and its
      application. What is published survives with all it is read through
      (C5), and what no list names is never collected
      (C34).

    Requests:

    - [Admission]: app/cce-admission/src/. What is passed on is authorised
      (C1), except behind a valueless query
      parameter; the rate limit lets a
      token in again and bounds it
      (C40); loading the configuration.

    Theorems without an identifier settle further behaviour of the same files:
    the failures of interleaved, interrupted and failing operations in
    [OperationQueue], [StateTracker] and [WatchQueue], what is not durable, and
    the functional behaviour of the smaller operations.

    ** How the parts interact

    A file that is indexed puts its entities, keys, relations and dependencies
    into the [RelationIndex], whose parts are the records of [EntityIndex],
    [SymbolIndex], [EdgeSet] and [DependencyGraph]; [Paths] gives the keys.
    A scan asks [PatternMatcher], which stacks [Ignore] on [Glob], for the files
    to take, and [FileTypes] for their parsers, with the tables of [Languages]
    and [BuildSystem]; [Watcher] filters by [Glob] what the system reports.
    Watch events enter [WatchQueue]; [Debounce] and [ModeSwitch] decide when an
    update runs; [EntityDiff] computes what changed; [StateTracker] records the
    progress of every file with the retry rules of [IndexState]. An update is
    an operation: [Coordinator] enqueues it in [OperationQueue], which keeps
    the flag of the active one in the tables of [CheckpointStore], and
    completes or recovers it through [CheckpointManager]. The rows an update
    stores go into a candidate of [Generations], whose relations are an epoch of
    [RelationEpochs] and whose publication is a manifest of [Manifests] over the
    tables of [GenerationTables]; [GenerationGc] removes what no manifest reads
    any more. [Admission] stands in front of the server.

    ** Conventions

    A state is a record; an operation takes it and returns it changed. Every
    clock reading is an argument, one per reading of the source. The outcome of
    a transaction or query is a boolean argument, and a failed transaction
    leaves its tables as they were. A file system is a record of its readings, and
    text is a list of characters; Unicode lower-casing is an argument. Lock-protected sections that the source
    keeps apart are separate definitions, and the theorems about interleavings
    compose them explicitly; operations of the code graph on several concurrent
    maps are modelled as one thread runs them; in [DeltaApply], where one thread
    takes two locks of one map, the shard of a key is an argument and [None] a
    thread that waits for itself. Where the source iterates over a
    hash map or set the order is an instance of [SetIter], so a theorem holds
    for every order. Counters keep their width by [wrap32] and [wrap64]. Code
    outside of the repository is an argument or an interface: the token
    estimator of [TextBudget], the query options of [RetryQueue], SHA-256 and
    hexadecimal text in [SymbolIndex] and [Admission], the HTTP body and the
    JSON parser in [Admission], the text of timestamps ([Rfc3339] with its
    laws) in the checkpoint files, and the JSON text of lists of ids in the
    generation tables, instantiated in the witnesses.

    Loops follow the lists they traverse. The binary search of [TextBudget] and
    its splitting loop, and the searches and the sort of the dependency graph,
    carry fuel bounded by the text or by the number of files and edges, and
    the theorems show that this fuel is enough for every input. The polling
    loop of [Coordinator] reads one observation per turn. The walks along base
    and parent epochs of [RelationEpochs] and [GenerationGc] have the number of
    deltas as their fuel, which is enough in tables that hold.

    ** Not modelled

    Tracing, the text of driver errors, and floating-point figures (progress
    percentages, quality scores). In [IndexState] the batch progress, and in
    [Coordinator] the resume plan of the recovery manager, which reads the file
    indexer. Of the code graph the resolution of names per language, the
    serialised snapshots, and metrics. In [Watcher] the life cycle of the
    watcher of the operating system.
    Of the generations, the contents of the vector and text stores (their
    outcomes are arguments). The
    events and listeners of operations and change detection, whose state is
    that of the channels and directories they watch; parsers, extractors and
    type inference, which work on syntax trees of grammars outside of the
    repository; retrieval and ranking, which compute on floating point. *)

From Stdlib Require Import ZArith Lia Sorted.
From stdpp Require Export base tactics numbers list option gmap strings sorting relations.

#[global] Open Scope Z_scope.

(** ** Machine integers

    A Rust unsigned integer is a [Z] kept in range by the operation that
    produced it. [+] in a release build wraps (the workspace profiles leave
    [overflow-checks] at its default). *)
Definition u32_max : Z := 2 ^ 32 - 1.
Definition u64_max : Z := 2 ^ 64 - 1.
Definition usize_max : Z := u64_max.

Definition wrap32 (z : Z) : Z := z mod 2 ^ 32.
Definition wrap64 (z : Z) : Z := z mod 2 ^ 64.
Definition sat_add32 (a b : Z) : Z := Z.min (a + b) u32_max.
Definition sat_sub (a b : Z) : Z := Z.max 0 (a - b).

(** ** Time

    [std::time::Instant], [std::time::Duration] and [chrono::DateTime<Utc>]
    are nanosecond counts. A clock reading is always an argument of the model:
    one argument per [Instant::now()] or [Utc::now()] of the source. *)
Abbreviation Instant := Z (only parsing).
Abbreviation Duration := Z (only parsing).
Abbreviation DateTime := Z (only parsing).

Definition nanos_per_sec : Z := 1000000000.
Definition from_secs (s : Z) : Duration := s * nanos_per_sec.

(** [Duration::MAX]: [u64::MAX] seconds and 999_999_999 nanoseconds. *)
Definition duration_max : Duration := u64_max * nanos_per_sec + 999999999.

(** [Instant::duration_since] saturates to zero when the clock ran backwards. *)
Definition duration_since (later earlier : Instant) : Duration :=
  sat_sub later earlier.

(** ** Fallible computations *)
Inductive result (A E : Type) : Type :=
| Ok (a : A)
| Err (e : E).
Arguments Ok {A E} a.
Arguments Err {A E} e.

Definition result_bind {A B E} (r : result A E) (k : A → result B E) : result B E :=
  match r with
  | Ok a => k a
  | Err e => Err e
  end.

Definition is_ok {A E} (r : result A E) : bool :=
  match r with
  | Ok _ => true
  | Err _ => false
  end.

Declare Scope result_scope.
Delimit Scope result_scope with result.
Notation "x '<-?' r ; k" := (result_bind r (λ x, k))
  (at level 100, r at next level, right associativity, only parsing) : result_scope.

(** ** [Vec] and [VecDeque] operations *)

(** [iter().position(p)] *)
Fixpoint position {A} (p : A → bool) (l : list A) : option nat :=
  match l with
  | [] => None
  | x :: l' => if p x then Some 0%nat else S <$> position p l'
  end.

(** [retain(p)] keeps the elements satisfying [p], in order. *)
Fixpoint retain {A} (p : A → bool) (l : list A) : list A :=
  match l with
  | [] => []
  | x :: l' => if p x then x :: retain p l' else retain p l'
  end.

(** [remove(i)] for an index in range; out of range it leaves the list alone
    ([VecDeque::remove] returns [None] there). *)
Fixpoint remove_at {A} (i : nat) (l : list A) : list A :=
  match l, i with
  | [], _ => []
  | _ :: l', O => l'
  | x :: l', S i' => x :: remove_at i' l'
  end.

(** [insert(i, x)] for [i] at most the length. *)
Fixpoint insert_at {A} (i : nat) (x : A) (l : list A) : list A :=
  match i, l with
  | O, _ => x :: l
  | S i', y :: l' => y :: insert_at i' x l'
  | S _, [] => [x]
  end.

(** The number of elements satisfying a predicate, as the source counts them. *)
Fixpoint count_if {A} (p : A → bool) (l : list A) : Z :=
  match l with
  | [] => 0
  | x :: l' => (if p x then 1 else 0) + count_if p l'
  end.

Lemma elem_of_retain {A} (p : A → bool) (l : list A) x :
  x ∈ retain p l ↔ x ∈ l ∧ p x = true.
Proof.
  induction l as [|y l IH]; simpl; [set_solver|].
  rewrite !elem_of_cons. destruct (p y) eqn:E; rewrite ?elem_of_cons, IH;
    intuition (subst; congruence || eauto).
Qed.

Lemma retain_length {A} (p : A → bool) (l : list A) :
  (length (retain p l) ≤ length l)%nat.
Proof. induction l as [|y l IH]; simpl; [done|]. destruct (p y); simpl; lia. Qed.

Lemma retain_sublist {A} (p : A → bool) (l : list A) : retain p l `sublist_of` l.
Proof.
  induction l as [|y l IH]; simpl; [constructor|]. by destruct (p y); constructor.
Qed.

Lemma sublist_map {A B} (f : A → B) (l k : list A) :
  l `sublist_of` k → map f l `sublist_of` map f k.
Proof. induction 1; simpl; by constructor. Qed.

Lemma retain_all {A} (p : A → bool) (l : list A) :
  (∀ x, x ∈ l → p x = true) → retain p l = l.
Proof.
  induction l as [|y l IH]; simpl; intros H; [done|].
  rewrite H by set_solver. f_equal. apply IH. set_solver.
Qed.

Lemma retain_none {A} (p : A → bool) (l : list A) :
  (∀ x, x ∈ l → p x = false) → retain p l = [].
Proof.
  induction l as [|y l IH]; simpl; intros H; [done|].
  rewrite H by set_solver. apply IH. set_solver.
Qed.

Lemma retain_app {A} (p : A → bool) (l k : list A) :
  retain p (l ++ k) = retain p l ++ retain p k.
Proof. induction l as [|y l IH]; simpl; [done|]. by destruct (p y); rewrite IH. Qed.

Lemma position_Some {A} (p : A → bool) (l : list A) i :
  position p l = Some i →
  ∃ l1 x l2, l = l1 ++ x :: l2 ∧ length l1 = i ∧ p x = true ∧
             ∀ y, y ∈ l1 → p y = false.
Proof.
  revert i. induction l as [|y l IH]; intros i; simpl; [done|].
  destruct (p y) eqn:E.
  - intros [= <-]. exists [], y, l. set_solver.
  - destruct (position p l) as [j|] eqn:Ej; [|done]. intros [= <-].
    destruct (IH j eq_refl) as (l1 & x & l2 & -> & <- & Hx & Hall).
    exists (y :: l1), x, l2. repeat split; [done|]. set_solver.
Qed.

Lemma position_None {A} (p : A → bool) (l : list A) :
  position p l = None → ∀ y, y ∈ l → p y = false.
Proof.
  induction l as [|z l IH]; simpl; [set_solver|].
  destruct (p z) eqn:E; [done|]. destruct (position p l); [done|]. set_solver.
Qed.

Lemma remove_at_app {A} (l1 l2 : list A) x :
  remove_at (length l1) (l1 ++ x :: l2) = l1 ++ l2.
Proof. induction l1 as [|y l1 IH]; simpl; [done|]. by rewrite IH. Qed.

Lemma insert_at_app {A} (l1 l2 : list A) x :
  insert_at (length l1) x (l1 ++ l2) = l1 ++ x :: l2.
Proof. induction l1 as [|y l1 IH]; simpl; [by destruct l2|]. by rewrite IH. Qed.

Lemma count_if_app {A} (p : A → bool) (l k : list A) :
  count_if p (l ++ k) = count_if p l + count_if p k.
Proof. induction l as [|y l IH]; simpl; [lia|]. rewrite IH. lia. Qed.

Lemma count_if_nonneg {A} (p : A → bool) (l : list A) : 0 ≤ count_if p l.
Proof. induction l as [|y l IH]; simpl; [lia|]. destruct (p y); lia. Qed.

Lemma count_if_zero {A} (p : A → bool) (l : list A) :
  count_if p l = 0 → ∀ x, x ∈ l → p x = false.
Proof.
  induction l as [|y l IH]; simpl; [set_solver|].
  pose proof (count_if_nonneg p l). destruct (p y) eqn:E; [lia|].
  intros Hc x [->|Hx]%elem_of_cons; [done|]. apply IH; [lia|done].
Qed.

Lemma wrap64_small z : 0 ≤ z ≤ u64_max → wrap64 z = z.
Proof. unfold wrap64, u64_max. intros. apply Z.mod_small. lia. Qed.

Lemma wrap32_small z : 0 ≤ z ≤ u32_max → wrap32 z = z.
Proof. unfold wrap32, u32_max. intros. apply Z.mod_small. lia. Qed.

Lemma wrap64_add_l a b : wrap64 (wrap64 a + b) = wrap64 (a + b).
Proof. unfold wrap64. apply Zplus_mod_idemp_l. Qed.

(** ** Reachability

    A component is a transition system; an invariant of it is established by
    the initial states and kept by every step, and then holds of every
    reachable state. *)
Class StepInvariant {S} (init : S → Prop) (step : S → S → Prop) (I : S → Prop) : Prop := {
  invariant_init : ∀ s, init s → I s;
  invariant_step : ∀ s s', I s → step s s' → I s';
}.

Definition reachable {S} (init : S → Prop) (step : S → S → Prop) (s : S) : Prop :=
  ∃ s0, init s0 ∧ rtc step s0 s.

Lemma invariant_reachable {S} (init : S → Prop) (step : S → S → Prop) (I : S → Prop)
    `{!StepInvariant init step I} s :
  reachable init step s → I s.
Proof.
  intros (s0 & Hinit & Hrtc). apply invariant_init in Hinit.
  induction Hrtc as [|x y z Hxy _ IH]; [done|].
  apply IH. by eapply invariant_step.
Qed.

(** ** Automation *)

Create HintDb cce discriminated.
#[export] Hint Rewrite @length_app @length_map @remove_at_app @insert_at_app
  @retain_app @count_if_app : cce.
#[export] Hint Resolve list_elem_of_here list_elem_of_further : cce.

(** Split every conditional and match of the goal, discharging the arithmetic
    and contradictory branches on the way. *)
Ltac split_cases :=
  repeat (case_match; simplify_eq/=; try done).

(** Turn boolean comparisons on [Z] into propositions. *)
Ltac bool_to_prop :=
  repeat match goal with
  | H : andb _ _ = true |- _ => apply andb_true_iff in H as [? ?]
  | H : orb _ _ = false |- _ => apply orb_false_iff in H as [? ?]
  | H : negb _ = true |- _ => apply negb_true_iff in H
  | H : negb _ = false |- _ => apply negb_false_iff in H
  | H : (_ <=? _) = true |- _ => apply Z.leb_le in H
  | H : (_ <=? _) = false |- _ => apply Z.leb_gt in H
  | H : (_ <? _) = true |- _ => apply Z.ltb_lt in H
  | H : (_ <? _) = false |- _ => apply Z.ltb_ge in H
  | H : (_ =? _) = true |- _ => apply Z.eqb_eq in H
  | H : (_ =? _) = false |- _ => apply Z.eqb_neq in H
  | H : bool_decide _ = true |- _ => apply bool_decide_eq_true in H
  | H : bool_decide _ = false |- _ => apply bool_decide_eq_false in H
  end.
