(* ===== verification/MultiMap.v ===== *)
(** * Maps of sets

    The code graph keeps its indexes as maps from a key to a set of values,
    where an absent key and an empty set mean the same to a reader. This file
    has the two updates the source uses on such a map (insert into the set of
    a key; remove from it and drop the key when its set became empty), their
    effect on what a reader sees, and the interface for the iteration order of
    a hash set, which the standard library leaves unspecified. *)

From S2P Require Import Prelude.
From stdpp Require Import fin_sets.

(** ** Iteration order

    Iterating over a [HashSet], a [DashMap] or their keys visits every element
    once, in an order the caller cannot rely on. A definition that iterates
    takes the order as an instance of this interface, so a theorem about it
    holds for every order. *)
Class SetIter (A : Type) `{Countable A} := {
  set_iter : gset A → list A;
  set_iter_perm : ∀ X : gset A, set_iter X ≡ₚ elements X;
}.

(** One admissible order, for concrete evaluations. *)
Definition elements_iter {A : Type} `{Countable A} : SetIter A :=
  {| set_iter := elements; set_iter_perm := λ X, Permutation_refl (elements X) |}.

Lemma elem_of_set_iter {A} `{SetIter A} (X : gset A) (x : A) : x ∈ set_iter X ↔ x ∈ X.
Proof. by rewrite set_iter_perm, elem_of_elements. Qed.

Lemma NoDup_set_iter {A} `{SetIter A} (X : gset A) : NoDup (set_iter X).
Proof. rewrite set_iter_perm. apply NoDup_elements. Qed.

Lemma length_set_iter {A} `{SetIter A} (X : gset A) : length (set_iter X) = size X.
Proof. by rewrite set_iter_perm. Qed.

(** ** The two updates *)
Section multimap.
Context {K V : Type} `{Countable K, Countable V}.
Implicit Types m : gmap K (gset V).

(** What a reader sees at a key. *)
Definition values_at m (k : K) : gset V := default ∅ (m !! k).

(** [entry(k).or_default().insert(v)] *)
Definition add_value (k : K) (v : V) m : gmap K (gset V) :=
  <[k := {[v]} ∪ values_at m k]> m.

(** [get_mut(k)], [remove(v)], and [remove(k)] when nothing is left. *)
Definition drop_value (k : K) (v : V) m : gmap K (gset V) :=
  match m !! k with
  | None => m
  | Some s =>
      let s' := s ∖ {[v]} in
      if decide (s' = ∅) then delete k m else <[k := s']> m
  end.

(** No key is kept with an empty set. *)
Definition no_empty m : Prop := map_Forall (λ _ s, s ≠ ∅) m.

Lemma values_at_empty (k : K) : values_at ∅ k = ∅.
Proof. unfold values_at. by rewrite lookup_empty. Qed.

Lemma values_at_insert m k k' s :
  values_at (<[k := s]> m) k' = if decide (k = k') then s else values_at m k'.
Proof.
  unfold values_at. destruct (decide (k = k')) as [->|];
    [by rewrite lookup_insert_eq | by rewrite lookup_insert_ne].
Qed.

Lemma values_at_delete m k k' :
  values_at (delete k m) k' = if decide (k = k') then ∅ else values_at m k'.
Proof.
  unfold values_at. destruct (decide (k = k')) as [->|];
    [by rewrite lookup_delete_eq | by rewrite lookup_delete_ne].
Qed.

Lemma elem_of_add_value m k v k' v' :
  v' ∈ values_at (add_value k v m) k' ↔ v' ∈ values_at m k' ∨ (k' = k ∧ v' = v).
Proof.
  unfold add_value. rewrite values_at_insert. destruct (decide (k = k')); set_solver.
Qed.

Lemma elem_of_drop_value m k v k' v' :
  v' ∈ values_at (drop_value k v m) k' ↔ v' ∈ values_at m k' ∧ ¬ (k' = k ∧ v' = v).
Proof.
  unfold drop_value. destruct (m !! k) as [s|] eqn:E.
  - assert (values_at m k = s) as Hs by (unfold values_at; by rewrite E).
    destruct (decide _) as [Ee|_]; rewrite ?values_at_delete, ?values_at_insert;
      destruct (decide (k = k')) as [<-|]; set_solver.
  - assert (values_at m k = ∅) as Hs by (unfold values_at; by rewrite E).
    split; [|tauto]. intros Hv. split; [done|]. intros [-> ->]. set_solver.
Qed.

Lemma no_empty_empty : no_empty ∅.
Proof. apply map_Forall_empty. Qed.

Lemma no_empty_add m k v : no_empty m → no_empty (add_value k v m).
Proof. intros Hm. apply map_Forall_insert_2; [set_solver|done]. Qed.

Lemma no_empty_delete m k : no_empty m → no_empty (delete k m).
Proof. by apply map_Forall_delete. Qed.

Lemma no_empty_drop m k v : no_empty m → no_empty (drop_value k v m).
Proof.
  intros Hm. unfold drop_value. destruct (m !! k) as [s|]; [|done].
  destruct (decide _); [by apply map_Forall_delete | by apply map_Forall_insert_2].
Qed.

Lemma no_empty_lookup m k : no_empty m → is_Some (m !! k) ↔ ∃ v, v ∈ values_at m k.
Proof.
  intros Hm. unfold values_at. destruct (m !! k) as [s|] eqn:E; simpl.
  - split; [|by eauto]. intros _. apply set_choose_L. by apply (Hm k).
  - split; [by intros [? ?] | set_solver].
Qed.

(** Without empty sets, maps with the same values are equal. *)
Lemma no_empty_ext m m' :
  no_empty m → no_empty m' → (∀ k v, v ∈ values_at m k ↔ v ∈ values_at m' k) → m = m'.
Proof.
  intros Hm Hm' Hv. apply map_eq. intros k.
  assert (values_at m k = values_at m' k) as Hk by (apply set_eq; intros v; apply Hv).
  unfold values_at in Hk. destruct (m !! k) as [s|] eqn:E, (m' !! k) as [s'|] eqn:E'; simpl in Hk.
  - by rewrite Hk.
  - by destruct (Hm k s E).
  - by destruct (Hm' k s' E').
  - done.
Qed.

(** Dropping one value at several keys, in any order. *)
Definition drop_at_keys (ks : list K) (v : V) m : gmap K (gset V) :=
  foldl (λ m k, drop_value k v m) m ks.

Lemma elem_of_drop_at_keys ks v m k' v' :
  v' ∈ values_at (drop_at_keys ks v m) k' ↔ v' ∈ values_at m k' ∧ ¬ (k' ∈ ks ∧ v' = v).
Proof.
  unfold drop_at_keys. revert m. induction ks as [|k ks IH]; intros m; simpl; [set_solver|].
  rewrite IH, elem_of_drop_value. set_solver.
Qed.

Lemma no_empty_drop_at_keys ks v m : no_empty m → no_empty (drop_at_keys ks v m).
Proof.
  unfold drop_at_keys. revert m. induction ks as [|k ks IH]; intros m Hm; simpl; [done|].
  apply IH. by apply no_empty_drop.
Qed.
End multimap.

#[export] Hint Resolve no_empty_empty no_empty_add no_empty_delete no_empty_drop
  no_empty_drop_at_keys : cce.
