(* ===== verification/SortedVec.v ===== *)
(** * Sorted vectors

    [binary_search] and the insertions and removals at its result, as the code
    graph uses them to keep vectors sorted and without duplicates. On a sorted
    vector the search has one possible result, which is what is modelled. *)

From S2P Require Import Prelude.
From Stdlib Require Import ZArith Lia Sorted.
#[local] Open Scope Z_scope.

(** A decidable strict total order. *)
Class StrictOrder_b {A : Type} (lt : A → A → bool) : Prop := {
  lt_irrefl : ∀ x, lt x x = false;
  lt_trans : ∀ x y z, lt x y = true → lt y z = true → lt x z = true;
  lt_total : ∀ x y, lt x y = true ∨ x = y ∨ lt y x = true;
}.

#[export] Instance Z_ltb_order : StrictOrder_b Z.ltb.
Proof. split; intros *; rewrite ?Z.ltb_lt, ?Z.ltb_ge; lia. Qed.

(** [cmp().then_with(..)] on pairs. *)
Definition pair_ltb (x y : Z * Z) : bool := (x.1 <? y.1) || ((x.1 =? y.1) && (x.2 <? y.2)).

#[export] Instance pair_ltb_order : StrictOrder_b pair_ltb.
Proof.
  split; unfold pair_ltb.
  - intros [a b]. simpl. by rewrite !Z.ltb_irrefl, andb_false_r.
  - intros [a b] [c d] [e f]. simpl. rewrite !orb_true_iff, !andb_true_iff, !Z.ltb_lt, !Z.eqb_eq. lia.
  - intros [a b] [c d]. simpl. rewrite !orb_true_iff, !andb_true_iff, !Z.ltb_lt, !Z.eqb_eq.
    destruct (Z.lt_trichotomy a c) as [|[->|]]; [by left; left| |by right; right; left].
    destruct (Z.lt_trichotomy b d) as [|[->|]]; [by left; right| |by right; right; right].
    by right; left.
Qed.

Inductive search := Found (i : nat) | InsertAt (i : nat).

Section sorted.
Context {A : Type} (lt : A → A → bool).

Definition binary_search (x : A) (l : list A) : search :=
  match position (λ y, negb (lt y x)) l with
  | Some i =>
      match l !! i with
      | Some y => if lt x y then InsertAt i else Found i
      | None => InsertAt i
      end
  | None => InsertAt (length l)
  end.

Definition sorted_insert (x : A) (l : list A) : list A :=
  match binary_search x l with Found _ => l | InsertAt i => insert_at i x l end.

Definition sorted_remove (x : A) (l : list A) : list A :=
  match binary_search x l with Found i => remove_at i l | InsertAt _ => l end.

Definition sorted (l : list A) : Prop := StronglySorted (λ x y, lt x y = true) l.

Lemma sorted_vec_app l k :
  sorted (l ++ k) ↔ sorted l ∧ sorted k ∧ ∀ x y, x ∈ l → y ∈ k → lt x y = true.
Proof.
  unfold sorted. induction l as [|z l IH]; simpl.
  - split; [|naive_solver]. intros Hk. split_and!; [constructor|done|set_solver].
  - split.
    + intros [Hs Hz]%StronglySorted_inv. apply IH in Hs as (H1 & H2 & H3).
      apply Forall_app in Hz as [Hz1 Hz2]. rewrite Forall_forall in Hz2.
      split_and!; [by constructor|done|]. intros x y [->|Hx]%elem_of_cons Hy; auto.
    + intros ([Hs Hz]%StronglySorted_inv & H2 & H3). constructor.
      * apply IH. split_and!; [done..|]. intros x y Hx. apply H3. by right.
      * apply Forall_app. split; [done|]. apply Forall_forall. intros y Hy. apply H3; [by left|done].
Qed.

Lemma sorted_vec_cons x l : sorted (x :: l) ↔ sorted l ∧ ∀ y, y ∈ l → lt x y = true.
Proof.
  unfold sorted. split.
  - intros [Hs Hx]%StronglySorted_inv. by rewrite Forall_forall in Hx.
  - intros [Hs Hx]. constructor; [done|]. by apply Forall_forall.
Qed.

Context `{!StrictOrder_b lt}.

Lemma sorted_NoDup l : sorted l → NoDup l.
Proof.
  induction 1 as [|x l Hs IH Hx]; constructor; [|done].
  rewrite Forall_forall in Hx. intros Hin. specialize (Hx x Hin). by rewrite lt_irrefl in Hx.
Qed.

(** The search splits the vector at the place of the element. *)
Lemma binary_search_spec x l :
  sorted l →
  ∃ l1 l2, (∀ y, y ∈ l1 → lt y x = true) ∧ (∀ y, y ∈ l2 → lt x y = true) ∧
    ((binary_search x l = Found (length l1) ∧ l = l1 ++ x :: l2) ∨
     (binary_search x l = InsertAt (length l1) ∧ l = l1 ++ l2)).
Proof.
  intros Hl. unfold binary_search.
  destruct (position (λ y, negb (lt y x)) l) as [i|] eqn:E.
  - apply position_Some in E as (l1 & z & l2 & -> & <- & Hz & H1).
    rewrite list_lookup_middle by done. apply negb_true_iff in Hz.
    apply sorted_vec_app in Hl as (_ & [Hl2 Hz2]%sorted_vec_cons & _).
    assert (∀ y, y ∈ l1 → lt y x = true) as H1'.
    { intros y Hy. by apply negb_false_iff, H1. }
    destruct (lt x z) eqn:Exz.
    + exists l1, (z :: l2). split_and!; [done| |by right]. intros y [->|Hy]%elem_of_cons; [done|].
      by eapply lt_trans; [|apply Hz2].
    + destruct (lt_total x z) as [?|[->|?]]; [congruence| |congruence].
      exists l1, l2. split_and!; [done|done|by left].
  - exists l, []. rewrite app_nil_r. split_and!; [|set_solver|by right].
    intros y Hy. pose proof (position_None _ _ E y Hy). by apply negb_false_iff.
Qed.

Lemma sorted_insert_spec x l :
  sorted l → sorted (sorted_insert x l) ∧ ∀ y, y ∈ sorted_insert x l ↔ y = x ∨ y ∈ l.
Proof.
  intros Hl. destruct (binary_search_spec x l Hl) as (l1 & l2 & H1 & H2 & [[Hs ->]|[Hs ->]]);
    unfold sorted_insert; rewrite Hs.
  - split; [done|]. set_solver.
  - rewrite insert_at_app. apply sorted_vec_app in Hl as (Hl1 & Hl2 & H12). split; [|set_solver].
    apply sorted_vec_app. split_and!; [done|by apply sorted_vec_cons|].
    intros a b Ha [->|Hb]%elem_of_cons; auto.
Qed.

Lemma sorted_remove_spec x l :
  sorted l → sorted (sorted_remove x l) ∧ ∀ y, y ∈ sorted_remove x l ↔ y ≠ x ∧ y ∈ l.
Proof.
  intros Hl. destruct (binary_search_spec x l Hl) as (l1 & l2 & H1 & H2 & [[Hs ->]|[Hs ->]]);
    unfold sorted_remove; rewrite Hs.
  - rewrite remove_at_app. apply sorted_vec_app in Hl as (Hl1 & [Hl2 Hx2]%sorted_vec_cons & H12). split.
    + apply sorted_vec_app. split_and!; [done..|]. intros a b Ha Hb. apply H12; [done|by right].
    + intros y. rewrite !elem_of_app, elem_of_cons. split; [|naive_solver].
      intros Hy. split; [|naive_solver]. intros ->.
      destruct Hy as [Hy|Hy]; [apply H1 in Hy|apply H2 in Hy]; by rewrite lt_irrefl in Hy.
  - split; [done|]. intros y. split; [|naive_solver]. intros Hy. split; [|done]. intros ->.
    apply elem_of_app in Hy as [Hy|Hy]; [apply H1 in Hy|apply H2 in Hy]; by rewrite lt_irrefl in Hy.
Qed.

(** Two sorted vectors with the same elements are equal. *)
Lemma sorted_ext l k : sorted l → sorted k → (∀ x, x ∈ l ↔ x ∈ k) → l = k.
Proof.
  revert k. induction l as [|x l IH]; intros [|y k] Hl Hk Hlk.
  - done.
  - exfalso. specialize (Hlk y). set_solver.
  - exfalso. specialize (Hlk x). set_solver.
  - apply sorted_vec_cons in Hl as [Hl Hx]. apply sorted_vec_cons in Hk as [Hk Hy].
    assert (x = y) as ->.
    { assert (x ∈ y :: k) as [->|Hxk]%elem_of_cons by (apply Hlk; by left); [done|].
      assert (y ∈ x :: l) as [->|Hyl]%elem_of_cons by (apply Hlk; by left); [done|].
      specialize (Hx y Hyl). specialize (Hy x Hxk).
      pose proof (lt_trans _ _ _ Hx Hy) as Hc. by rewrite lt_irrefl in Hc. }
    f_equal. apply IH; [done..|]. intros z. specialize (Hlk z). rewrite !elem_of_cons in Hlk.
    split; intros Hz.
    + destruct Hlk as [[->|] _]; [by right| |done]. specialize (Hx y Hz). by rewrite lt_irrefl in Hx.
    + destruct Hlk as [_ [->|]]; [by right| |done]. specialize (Hy y Hz). by rewrite lt_irrefl in Hy.
Qed.
End sorted.
