(* ===== verification/Str.v ===== *)
(** * Strings

    The operations of [str] the modelled components use. A [&str] is its
    sequence of Unicode scalar values; the separators and markers the code
    looks for are ASCII, so splitting, searching and replacing by them is the
    same on the scalar values as on the UTF-8 bytes. *)

From S2P Require Import Prelude.
From Stdlib Require Import ZArith Lia Ascii.
#[local] Open Scope Z_scope.

Module Str.

Abbreviation char := Z.
Abbreviation str := (list Z).

(** A literal of the source. *)
Definition lit (s : string) : str := map (λ a, Z.of_nat (nat_of_ascii a)) (String.list_ascii_of_string s).

(** The text of a sequence of ASCII characters. *)
Definition text_of (s : str) : string := String.string_of_list_ascii (map (λ c, ascii_of_nat (Z.to_nat c)) s).

(** [starts_with], [contains] and [strip_prefix] *)
Fixpoint starts_with (p s : str) : bool :=
  match p, s with
  | [], _ => true
  | c :: p, d :: s => (c =? d) && starts_with p s
  | _ :: _, [] => false
  end.

Fixpoint contains (p s : str) : bool :=
  starts_with p s || match s with [] => false | _ :: s => contains p s end.

Fixpoint strip_prefix (p s : str) : option str :=
  match p, s with
  | [], _ => Some s
  | c :: p, d :: s => if c =? d then strip_prefix p s else None
  | _ :: _, [] => None
  end.

Definition ends_with (p s : str) : bool := starts_with (reverse p) (reverse s).

(** [find(p)]: where [p] first occurs, counted in characters. *)
Fixpoint find (p s : str) : option nat :=
  if starts_with p s then Some 0%nat
  else match s with [] => None | _ :: s => S <$> find p s end.

(** [split(pred)]: the pieces between the separators, one more than there are
    separators. *)
Fixpoint split_on (sep : char → bool) (s : str) : list str :=
  match s with
  | [] => [[]]
  | c :: s =>
      if sep c then [] :: split_on sep s
      else match split_on sep s with
           | piece :: pieces => (c :: piece) :: pieces
           | [] => [[c]]
           end
  end.

(** [join(sep)] *)
Fixpoint join (sep : str) (pieces : list str) : str :=
  match pieces with
  | [] => []
  | [p] => p
  | p :: pieces => p ++ sep ++ join sep pieces
  end.

(** [replace(c, r)] for a character. *)
Definition replace (sep : char → bool) (r s : str) : str :=
  s ≫= λ c, if sep c then r else [c].

(** [lines()]: the text between the line feeds, without a carriage
    return at the end and without an empty last line. *)
Definition strip_cr (l : str) : str :=
  if bool_decide (last l = Some 13) then removelast l else l.
Definition lines (content : str) : list str :=
  let pieces := split_on (λ c, c =? 10) content in
  map strip_cr (if bool_decide (last pieces = Some []) then removelast pieces else pieces).

Fixpoint trim_start_matches (p : char → bool) (s : str) : str :=
  match s with
  | c :: s' => if p c then trim_start_matches p s' else s
  | [] => []
  end.

Definition trim_end_matches (p : char → bool) (s : str) : str :=
  reverse (trim_start_matches p (reverse s)).

(** [char::is_whitespace], the White_Space property. *)
Definition is_whitespace (c : char) : bool :=
  ((9 <=? c) && (c <=? 13)) || (c =? 32) || (c =? 133) || (c =? 160) || (c =? 5760)
  || ((8192 <=? c) && (c <=? 8202)) || (c =? 8232) || (c =? 8233) || (c =? 8239)
  || (c =? 8287) || (c =? 12288).

Definition trim (s : str) : str := trim_end_matches is_whitespace (trim_start_matches is_whitespace s).

(** [split_once(c)] *)
Fixpoint split_once (sep : char → bool) (s : str) : option (str * str) :=
  match s with
  | [] => None
  | c :: s =>
      if sep c then Some ([], s)
      else match split_once sep s with Some (a, b) => Some (c :: a, b) | None => None end
  end.

(** [as_bytes()]: the UTF-8 encoding. *)
Definition encode_utf8 (c : char) : list Z :=
  if c <? 128 then [c]
  else if c <? 2048 then [192 + c / 64; 128 + c mod 64]
  else if c <? 65536 then [224 + c / 4096; 128 + (c / 64) mod 64; 128 + c mod 64]
  else [240 + c / 262144; 128 + (c / 4096) mod 64; 128 + (c / 64) mod 64; 128 + c mod 64].

Definition as_bytes (s : str) : list Z := s ≫= encode_utf8.

(** [eq_ignore_ascii_case] *)
Definition to_ascii_lowercase (c : char) : char := if (65 <=? c) && (c <=? 90) then c + 32 else c.
Definition eq_ignore_ascii_case (s t : str) : bool :=
  bool_decide (map to_ascii_lowercase s = map to_ascii_lowercase t).

(** [parse()] for integers: an optional sign, digits, and a value in range. *)
Fixpoint digits_value (acc : Z) (s : str) : option Z :=
  match s with
  | [] => Some acc
  | c :: s => if (48 <=? c) && (c <=? 57) then digits_value (10 * acc + (c - 48)) s else None
  end.

Definition parse_digits (s : str) : option Z :=
  match s with [] => None | _ => digits_value 0 s end.

Definition in_range (lo hi z : Z) : option Z :=
  if (lo <=? z) && (z <=? hi) then Some z else None.

Definition parse_unsigned (hi : Z) (s : str) : option Z :=
  parse_digits (default s (strip_prefix (lit "+") s)) ≫= in_range 0 hi.

Definition parse_signed (lo hi : Z) (s : str) : option Z :=
  match strip_prefix (lit "-") s with
  | Some s => parse_digits s ≫= λ n, in_range lo hi (- n)
  | None => parse_digits (default s (strip_prefix (lit "+") s)) ≫= in_range lo hi
  end.

(** ** Facts *)

Lemma lit_inj a b : lit a = lit b → a = b.
Proof.
  unfold lit. intros He.
  assert (String.list_ascii_of_string a = String.list_ascii_of_string b) as Hl.
  { revert He. generalize (String.list_ascii_of_string a) (String.list_ascii_of_string b).
    induction l as [|x l IH]; intros [|y k]; simpl; try done. intros [= Hxy Hlk].
    apply IH in Hlk as ->. f_equal. apply Nat2Z.inj in Hxy.
    by rewrite <- (ascii_nat_embedding x), Hxy, ascii_nat_embedding. }
  by rewrite <- (String.string_of_list_ascii_of_string a), Hl, String.string_of_list_ascii_of_string.
Qed.

Lemma starts_with_spec p s : starts_with p s = true ↔ ∃ t, s = p ++ t.
Proof.
  revert s. induction p as [|c p IH]; intros s; simpl; [naive_solver|].
  destruct s as [|d s]; [split; [done|]; by intros [t ?]|].
  rewrite andb_true_iff, Z.eqb_eq, IH. naive_solver.
Qed.

Lemma ends_with_spec p s : ends_with p s = true ↔ ∃ a, s = a ++ p.
Proof.
  unfold ends_with. rewrite starts_with_spec. split; intros [t Ht].
  - exists (reverse t). apply (f_equal reverse) in Ht.
    by rewrite reverse_involutive, reverse_app, reverse_involutive in Ht.
  - exists (reverse t). by rewrite Ht, reverse_app.
Qed.

Lemma find_Some p s i :
  find p s = Some i →
  starts_with p (drop i s) = true ∧ (i ≤ length s)%nat ∧ ∀ j, (j < i)%nat → starts_with p (drop j s) = false.
Proof.
  revert i. induction s as [|c s IH]; intros i; cbn [find].
  - destruct (starts_with p []) eqn:E; [|done]. intros [= <-]. split_and!; [done|done|lia].
  - destruct (starts_with p (c :: s)) eqn:E; [intros [= <-]; split_and!; [done|simpl; lia|lia]|].
    intros (k & Hk & ->)%fmap_Some. destruct (IH k Hk) as (H1 & H2 & H3).
    split_and!; [done|simpl; lia|]. intros [|j] Hj; [done|]. apply H3. lia.
Qed.

Lemma find_None p s : find p s = None ↔ contains p s = false.
Proof.
  induction s as [|c s IH]; cbn [find contains].
  - by destruct (starts_with p []).
  - destruct (starts_with p (c :: s)); [done|]. simpl. rewrite <- IH. by destruct (find p s).
Qed.

Lemma contains_spec p s : contains p s = true ↔ ∃ l r, s = l ++ p ++ r.
Proof.
  induction s as [|c s IH]; cbn [contains]; rewrite orb_true_iff, starts_with_spec.
  - split; [intros [[t Ht]|]; [|done]; by exists [], t|].
    intros ([|? l] & r & Hs); [|done]. left. by exists r.
  - rewrite IH. split.
    + intros [[t ->]|(l & r & ->)]; [by exists [], t|by exists (c :: l), r].
    + intros ([|d l] & r & Hs); simplify_eq/=; [left; by exists r|right; by exists l, r].
Qed.

Lemma in_range_spec lo hi z n : in_range lo hi z = Some n → n = z ∧ lo ≤ n ≤ hi.
Proof.
  unfold in_range. destruct (Z.leb_spec lo z), (Z.leb_spec z hi); simpl; try done.
  by intros [= <-].
Qed.

Lemma parse_unsigned_range hi s n : parse_unsigned hi s = Some n → 0 ≤ n ≤ hi.
Proof.
  unfold parse_unsigned. intros (m & _ & Hr)%bind_Some. by apply in_range_spec in Hr as [_ Hr].
Qed.

Lemma split_once_none sep s : Forall (λ c, sep c = false) s → split_once sep s = None.
Proof. induction 1 as [|c s Hc Hs IH]; simpl; [done|]. by rewrite Hc, IH. Qed.

Lemma split_on_nonempty sep s : split_on sep s ≠ [].
Proof. destruct s as [|c s]; simpl; [done|]. destruct (sep c); [done|]. by destruct (split_on sep s). Qed.

Lemma split_on_app_sep sep a c b :
  Forall (λ x, sep x = false) a → sep c = true →
  split_on sep (a ++ c :: b) = a :: split_on sep b.
Proof.
  intros Ha Hc. induction Ha as [|x a Hx Ha IH]; simpl; [by rewrite Hc|]. by rewrite Hx, IH.
Qed.

Lemma split_on_none sep a : Forall (λ x, sep x = false) a → split_on sep a = [a].
Proof. induction 1 as [|x a Hx Ha IH]; simpl; [done|]. by rewrite Hx, IH. Qed.

(** Splitting a joined list gives the list back. *)
Lemma split_on_join sep c pieces :
  sep c = true → Forall (Forall (λ x, sep x = false)) pieces → pieces ≠ [] →
  split_on sep (join [c] pieces) = pieces.
Proof.
  intros Hc Hp. induction Hp as [|p ps Hx Hp IH]; [done|]. intros _.
  destruct ps as [|q ps]; simpl; [by apply split_on_none|].
  rewrite split_on_app_sep by done. f_equal. by apply IH.
Qed.

Lemma split_on_pieces sep s : Forall (Forall (λ x, sep x = false)) (split_on sep s).
Proof.
  induction s as [|c s IH]; simpl; [by repeat constructor|].
  destruct (sep c) eqn:E; [by constructor|].
  destruct (split_on sep s) as [|p ps]; [by repeat constructor|].
  apply Forall_cons in IH as [Hp Hps]. by repeat constructor.
Qed.

End Str.
