(* ===== verification/Paths.v ===== *)
(** * Project paths

    Models crates/core/cce-types/src/path.rs: the one textual form of a path
    every storage and identity boundary uses, equality of paths, identifiers
    derived from paths, and the markers of generated and third-party files. *)

From S2P Require Import Prelude Str.
From Stdlib Require Import ZArith Lia.
#[local] Open Scope Z_scope.

Module Paths.
Import Str.

Definition slash : char := 47.
Definition backslash : char := 92.
Definition underscore : char := 95.
Definition dot : char := 46.

Definition is_slash (c : char) : bool := c =? slash.
Definition is_backslash (c : char) : bool := c =? backslash.
Definition is_separator (c : char) : bool := is_slash c || is_backslash c.

(** ** Normal form *)

(** One turn of the loop; the vector of components is kept last first. *)
Definition push_component (components : list str) (component : str) : list str :=
  if decide (component = [] ∨ component = [dot]) then components
  else if decide (component = [dot; dot]) then
    match components with
    | part :: rest => if decide (part ≠ [dot; dot]) then rest else component :: components
    | [] => [component]
    end
  else component :: components.

Definition normalize_project_path (path : str) : str :=
  let replaced := replace is_backslash [slash] path in
  let is_absolute := starts_with [slash] replaced in
  let components := foldl push_component [] (split_on is_slash replaced) in
  let normalized := join [slash] (reverse components) in
  if is_absolute then slash :: normalized else normalized.

(** [relativize] after [Path::strip_prefix], whose result is an argument: the
    rest of the path under the root, or nothing when it is outside. *)
Definition relativize (stripped : option str) (path : str) : str :=
  normalize_project_path (default path stripped).

Definition file_name_str (path : str) : str :=
  List.last (split_on is_separator path) [].

Definition segments (path : str) : list str :=
  retain (λ s, negb (bool_decide (s = []))) (split_on is_separator path).

(** Unicode lower-casing is the standard library's. *)
Definition extension_lower (to_lowercase : str → str) (path : str) : option str :=
  match reverse (split_on (λ c, c =? dot) (file_name_str path)) with
  | ext :: _ :: _ => if decide (ext = []) then None else Some (to_lowercase ext)
  | _ => None
  end.

Definition normalized_equals (left right : str) : bool :=
  let normalized_left := normalize_project_path left in
  let normalized_right := normalize_project_path right in
  bool_decide (normalized_left = normalized_right)
  || bool_decide (trim_start_matches is_slash normalized_left = normalized_right)
  || bool_decide (normalized_left = trim_start_matches is_slash normalized_right).

(** ** Identifiers and markers *)

Definition group_id_base (path : str) : str :=
  let escaped := replace (λ c, c =? underscore) [underscore; underscore] path in
  replace is_separator [underscore] escaped.

Definition normalize_logical_path (raw : str) : str :=
  let logical := trim raw in
  if decide (logical = []) then []
  else
    let trimmed := trim_end_matches is_backslash (trim_end_matches is_slash logical) in
    if decide (trimmed = []) then [slash] else trimmed.

Definition EXTENSIONLESS_DOC_NAMES : list str :=
  map lit ["readme"; "changelog"; "contributing"; "copying"; "license"; "authors"; "notice"].

Definition is_extensionless_doc_name (lower_name : str) : bool :=
  bool_decide (lower_name ∈ EXTENSIONLESS_DOC_NAMES).

Definition generated_dir_markers : list str :=
  map lit ["target/"; "build/"; "dist/"; "out/"; "generated/"; ".next/"; "__pycache__/"].
Definition generated_suffix_markers : list str :=
  map lit [".generated."; ".pb."; ".min.js"; ".bundle.js"; ".lock"; ".rkyv"].

Definition is_generated_path (path : str) : bool :=
  if existsb (λ m, contains m path) generated_dir_markers then true
  else if starts_with (lit "target/") path || starts_with (lit "build/") path
          || starts_with (lit "dist/") path then true
  else existsb (λ m, contains m path) generated_suffix_markers.

Definition dependency_dir_markers : list str :=
  map lit ["node_modules/"; "vendor/"; "third_party/"; "third-party/"; ".cargo/"; ".venv/";
           "site-packages/"].

Definition is_dependency_path (path : str) : bool :=
  if existsb (λ m, contains m path) dependency_dir_markers then true
  else starts_with (lit "vendor/") path || starts_with (lit "third_party/") path.

(** The tests of the source. *)
Example normalize_examples :
  map normalize_project_path (map lit ["./src//main.rs"; "src/../lib.rs"; "src\main.rs";
    "/a/../b"; "../../x"; "/.."; ""]) =
  map lit ["src/main.rs"; "lib.rs"; "src/main.rs"; "/b"; "../../x"; "/.."; ""].
Proof. vm_compute. reflexivity. Qed.

Example extension_examples :
  map (extension_lower id) (map lit ["src/main.rs"; "noext"; "trailing."; "a.b/c"]) =
  [Some (lit "rs"); None; None; None].
Proof. vm_compute. reflexivity. Qed.

(** Trailing separators of both kinds are trimmed in one order only. *)
Example logical_examples :
  map normalize_logical_path (map lit [" a/b/ "; "//"; ""; "a\/"; "a/\"]) =
  map lit ["a/b"; "/"; ""; "a"; "a/"].
Proof. vm_compute. reflexivity. Qed.

Example file_name_examples :
  map file_name_str (map lit ["src/main.rs"; "src\main.rs"; "main.rs"; "src/"]) =
  map lit ["main.rs"; "main.rs"; "main.rs"; ""].
Proof. vm_compute. reflexivity. Qed.

(** ** Components of a path *)

(** The directory a component leads to, as the names from it to the root; from
    the root [..] leads nowhere. *)
Definition enter (dir : list str) (component : str) : list str :=
  if decide (component = [] ∨ component = [dot]) then dir
  else if decide (component = [dot; dot]) then tail dir
  else component :: dir.

(** Where a path leads from a directory. *)
Definition resolve (dir : list str) (path : str) : list str :=
  let start := match path with c :: _ => if is_separator c then [] else dir | [] => dir end in
  foldl enter start (split_on is_separator path).

Definition is_absolute (path : str) : bool :=
  match path with c :: _ => is_separator c | [] => false end.

(** The components the loop ends with, first to last. *)
Definition components (path : str) : list str :=
  reverse (foldl push_component [] (split_on is_separator path)).

Definition proper (c : str) : Prop :=
  c ≠ [] ∧ c ≠ [dot] ∧ Forall (λ x, is_separator x = false) c.

(** Components as the loop keeps them: names, below them the [..] that could
    not be resolved. *)
Definition normal (rev_components : list str) : Prop :=
  Forall proper rev_components ∧
  ∃ names k, rev_components = names ++ replicate k [dot; dot] ∧ Forall (λ c, c ≠ [dot; dot]) names.

Lemma replace_cons sep r c path :
  replace sep r (c :: path) = (if sep c then r else [c]) ++ replace sep r path.
Proof. unfold replace. by rewrite bind_cons. Qed.

Lemma split_replaced path :
  split_on is_slash (replace is_backslash [slash] path) = split_on is_separator path.
Proof.
  induction path as [|c path IH]; [done|]. rewrite replace_cons. cbn [split_on].
  unfold is_separator at 1. destruct (is_backslash c) eqn:E; simpl.
  - by rewrite orb_true_r, IH.
  - by rewrite orb_false_r, IH.
Qed.

Lemma absolute_replaced path :
  starts_with [slash] (replace is_backslash [slash] path) = is_absolute path.
Proof.
  destruct path as [|c path]; [done|]. rewrite replace_cons. unfold is_absolute, is_separator.
  destruct (is_backslash c) eqn:E; [by rewrite orb_true_r|].
  cbn [starts_with app]. unfold is_slash. by rewrite orb_false_r, andb_true_r, Z.eqb_sym.
Qed.

Lemma normalize_unfold path :
  normalize_project_path path =
  if is_absolute path then slash :: join [slash] (components path)
  else join [slash] (components path).
Proof.
  unfold normalize_project_path. rewrite absolute_replaced, split_replaced. done.
Qed.

Lemma push_normal comps c :
  Forall (λ x, is_separator x = false) c → normal comps → normal (push_component comps c).
Proof.
  intros Hc [Hp (names & k & -> & Hn)]. unfold push_component.
  destruct (decide (c = [] ∨ c = [dot])) as [|Hne]; [by split; [|exists names, k]|].
  assert (proper c) as Hpc by (unfold proper; tauto).
  destruct (decide (c = [dot; dot])) as [->|Hdd].
  - destruct names as [|n names]; simpl in *.
    + destruct k as [|k]; simpl in *.
      * split; [by repeat constructor|]. by exists [], 1%nat.
      * split; [by constructor|]. by exists [], (S (S k)).
    + apply Forall_cons in Hn as [Hn Hns]. rewrite decide_True by done.
      apply Forall_cons in Hp as [_ Hp]. split; [done|]. by exists names, k.
  - split; [by constructor|]. exists (c :: names), k. split; [done|]. by constructor.
Qed.

Lemma components_normal path : normal (reverse (components path)).
Proof.
  unfold components. rewrite reverse_involutive.
  assert (∀ ps acc, Forall (Forall (λ x, is_separator x = false)) ps → normal acc →
    normal (foldl push_component acc ps)) as Hgen.
  { induction ps as [|p ps IH]; intros acc Hps Hacc; simpl; [done|].
    apply Forall_cons in Hps as [Hp Hps]. apply IH; [done|]. by apply push_normal. }
  apply Hgen; [apply split_on_pieces|]. split; [constructor|]. by exists [], 0%nat.
Qed.

(** Components in normal form are left alone. *)
Lemma push_all_normal comps : normal comps → foldl push_component [] (reverse comps) = comps.
Proof.
  intros [Hp (names & k & Heq & Hn)]. revert names k Heq Hn.
  induction Hp as [|c comps [Hne [Hnd Hsep]] Hp IH]; intros names k Heq Hn; [done|].
  rewrite reverse_cons, foldl_snoc. destruct names as [|n names]; simplify_eq/=.
  - destruct k as [|k]; simplify_eq/=. rewrite (IH [] k) by done.
    unfold push_component. rewrite decide_False by naive_solver. rewrite decide_True by done.
    by destruct k.
  - apply Forall_cons in Hn as [Hn Hns]. rewrite (IH names k) by done.
    unfold push_component. rewrite decide_False by naive_solver. by rewrite decide_False.
Qed.

Lemma split_joined comps :
  Forall proper comps →
  split_on is_separator (join [slash] comps) = match comps with [] => [[]] | _ => comps end.
Proof.
  intros Hp. destruct comps as [|c comps]; [done|]. apply split_on_join; [done| |done].
  eapply Forall_impl; [exact Hp|]. by intros ? (? & ? & ?).
Qed.

Lemma joined_relative comps : Forall proper comps → is_absolute (join [slash] comps) = false.
Proof.
  intros Hp. destruct comps as [|c comps]; [done|]. apply Forall_cons in Hp as [(Hc & _ & Hs) _].
  destruct c as [|x c]; [done|]. apply Forall_cons in Hs as [Hx _]. by destruct comps.
Qed.

Lemma components_proper path : Forall proper (components path).
Proof.
  destruct (components_normal path) as [Hp _]. by rewrite Forall_reverse in Hp.
Qed.

Lemma normalize_absolute path : is_absolute (normalize_project_path path) = is_absolute path.
Proof.
  rewrite normalize_unfold. destruct (is_absolute path); [done|].
  apply joined_relative, components_proper.
Qed.

(** The pieces of a normalized path are its components and empty ones. *)
Lemma split_normalized {A} (f : A → str → A) (a : A) path :
  (∀ a, f a [] = a) →
  foldl f a (split_on is_separator (normalize_project_path path)) = foldl f a (components path).
Proof.
  intros Hf. rewrite normalize_unfold.
  assert (foldl f a (split_on is_separator (join [slash] (components path))) =
          foldl f a (components path)) as Hj.
  { rewrite split_joined by apply components_proper. destruct (components path); [|done].
    simpl. apply Hf. }
  destruct (is_absolute path); [|done]. cbn [split_on]. simpl. by rewrite Hf.
Qed.

Lemma components_normalize path : components (normalize_project_path path) = components path.
Proof.
  unfold components at 1. rewrite split_normalized.
  - rewrite <- (reverse_involutive (components path)) at 1.
    rewrite push_all_normal by apply components_normal. apply reverse_involutive.
  - intros comps. done.
Qed.

Lemma segments_normalize path : segments (normalize_project_path path) = components path.
Proof.
  unfold segments. rewrite normalize_unfold.
  assert (retain (λ s : str, negb (bool_decide (s = [])))
    (split_on is_separator (join [slash] (components path))) = components path) as Hj.
  { rewrite split_joined by apply components_proper.
    destruct (components path) as [|c comps] eqn:E; [done|]. apply retain_all. intros x Hx.
    apply negb_true_iff, bool_decide_eq_false. pose proof (components_proper path) as Hp.
    rewrite E, Forall_forall in Hp. by apply Hp. }
  destruct (is_absolute path); [|done]. cbn [split_on]. simpl. exact Hj.
Qed.

(** Entering the components one by one is resolving the pieces. *)
Lemma enter_name dir c : c ≠ [] → c ≠ [dot] → c ≠ [dot; dot] → enter dir c = c :: dir.
Proof. intros. unfold enter. rewrite decide_False by tauto. by rewrite decide_False. Qed.

Lemma enter_push comps c dir :
  Forall proper comps →
  foldr (λ c d, enter d c) dir (push_component comps c) =
  enter (foldr (λ c d, enter d c) dir comps) c.
Proof.
  intros Hp. unfold push_component.
  destruct (decide (c = [] ∨ c = [dot])) as [Hc|Hc]; [by unfold enter at 2; rewrite decide_True|].
  destruct (decide (c = [dot; dot])) as [->|Hdd]; [|done].
  destruct comps as [|part rest]; [done|]. apply Forall_cons in Hp as [(Hp1 & Hp2 & _) _].
  destruct (decide (part ≠ [dot; dot])) as [Hn|Hn]; [|done]. simpl.
  by rewrite (enter_name _ part).
Qed.

Lemma foldl_reverse {A B} (f : A → B → A) (a : A) (l : list B) :
  foldl f a (reverse l) = foldr (λ b a, f a b) a l.
Proof. induction l as [|b l IH]; [done|]. rewrite reverse_cons, foldl_snoc, IH. done. Qed.

Lemma resolve_components dir path :
  foldl enter dir (components path) = foldl enter dir (split_on is_separator path).
Proof.
  unfold components. rewrite foldl_reverse.
  assert (∀ ps acc, Forall (Forall (λ x, is_separator x = false)) ps → normal acc →
    foldr (λ c d, enter d c) dir (foldl push_component acc ps) =
    foldl enter (foldr (λ c d, enter d c) dir acc) ps) as Hgen.
  { induction ps as [|p ps IH]; intros acc Hps Hacc; simpl; [done|].
    apply Forall_cons in Hps as [Hp Hps].
    rewrite IH by (done || by apply push_normal). f_equal. apply enter_push, Hacc. }
  apply (Hgen _ []); [apply split_on_pieces|]. split; [constructor|]. by exists [], 0%nat.
Qed.

Lemma join_inj ps qs :
  Forall proper ps → Forall proper qs → join [slash] ps = join [slash] qs → ps = qs.
Proof.
  intros Hp Hq He. pose proof (split_joined ps Hp) as H1. rewrite He, split_joined in H1 by done.
  destruct ps as [|p ps], qs as [|q qs]; try done; simplify_eq/=;
    [apply Forall_cons in Hq as [(? & _) _]|apply Forall_cons in Hp as [(? & _) _]]; done.
Qed.

Lemma joined_not_slash path s : join [slash] (components path) ≠ slash :: s.
Proof.
  intros He. pose proof (joined_relative _ (components_proper path)) as Hj. by rewrite He in Hj.
Qed.

Lemma trim_normalized path :
  trim_start_matches is_slash (normalize_project_path path) = join [slash] (components path).
Proof.
  rewrite normalize_unfold. pose proof (joined_not_slash path) as Hj.
  assert (trim_start_matches is_slash (join [slash] (components path)) =
          join [slash] (components path)) as Ht.
  { destruct (join [slash] (components path)) as [|x j] eqn:E; [done|]. simpl.
    unfold is_slash. destruct (Z.eqb_spec x slash) as [->|]; [|done]. by destruct (Hj j). }
  destruct (is_absolute path); [|done]. exact Ht.
Qed.

(** ** Theorems *)

(** The normal form of a path leads to the same place as the
    path from every directory, stays absolute or relative, and is the only
    normal form: normalizing again changes nothing. Its segments are names
    after the parent steps that could not be resolved. *)
Theorem normalized_path_leads_to_the_same_place (path : str) :
  let n := normalize_project_path path in
  (∀ dir, resolve dir n = resolve dir path) ∧
  is_absolute n = is_absolute path ∧
  normalize_project_path n = n ∧
  ∃ k names, segments n = replicate k [dot; dot] ++ names ∧
    Forall (λ c, proper c ∧ c ≠ [dot; dot]) names.
Proof.
  intros n. subst n. split_and!.
  - intros dir. pose proof (normalize_absolute path) as Ha.
    assert (∀ p, resolve dir p =
      foldl enter (if is_absolute p then [] else dir) (split_on is_separator p)) as Hr
      by (by intros [|c p]).
    rewrite !Hr, Ha, split_normalized by done. apply resolve_components.
  - apply normalize_absolute.
  - rewrite (normalize_unfold (normalize_project_path path)).
    rewrite normalize_absolute, components_normalize. symmetry. apply normalize_unfold.
  - rewrite segments_normalize. destruct (components_normal path) as (Hp & names & k & Heq & Hn).
    exists k, (reverse names). split.
    + rewrite <- (reverse_involutive (components path)), Heq, reverse_app.
      by rewrite reverse_replicate.
    + rewrite Heq in Hp. apply Forall_app in Hp as [Hp _]. by apply Forall_reverse, Forall_and.
Qed.

(** Equality of paths ignores the spelling and whether the path is absolute,
    and nothing else: it compares the segments of the normal forms. *)
Theorem normalized_equals_compares_segments (left right : str) :
  normalized_equals left right = true ↔
  segments (normalize_project_path left) = segments (normalize_project_path right).
Proof.
  unfold normalized_equals. rewrite !orb_true_iff, !bool_decide_eq_true, !trim_normalized.
  split.
  - intros [[He|He]|He]; [by rewrite He| |]; rewrite normalize_unfold in He;
      rewrite !segments_normalize; destruct (is_absolute _);
      try (by destruct (joined_not_slash _ _ He));
      try (by destruct (joined_not_slash _ _ (eq_sym He)));
      by apply join_inj; try apply components_proper.
  - rewrite !segments_normalize, !normalize_unfold. intros ->.
    destruct (is_absolute left), (is_absolute right); auto.
Qed.

(** ** Identifiers *)

(** No separator is followed by an underscore or another separator, and all
    separators are slashes. *)
Fixpoint separated (path : str) : bool :=
  match path with
  | [] => true
  | c :: path' =>
      negb (is_backslash c)
      && (if is_slash c
          then match path' with d :: _ => negb (is_separator d || (d =? underscore)) | [] => true end
          else true)
      && separated path'
  end.

Lemma group_id_base_cons c path :
  group_id_base (c :: path) =
  (if c =? underscore then [underscore; underscore]
   else if is_separator c then [underscore] else [c]) ++ group_id_base path.
Proof.
  unfold group_id_base. rewrite replace_cons. unfold replace. rewrite bind_app. f_equal.
  destruct (Z.eqb_spec c underscore) as [->|]; [done|]. simpl. by rewrite app_nil_r.
Qed.

Lemma group_id_base_app a b : group_id_base (a ++ b) = group_id_base a ++ group_id_base b.
Proof. unfold group_id_base, replace. by rewrite !bind_app. Qed.

(** After a separator of a separated path the identifier does not go on with an
    underscore. *)
Lemma group_id_after_slash path x :
  separated (slash :: path) = true → group_id_base path ≠ underscore :: x.
Proof.
  destruct path as [|d path]; [done|]. rewrite group_id_base_cons. cbn [separated].
  change (is_slash slash) with true. rewrite !andb_true_iff, !negb_true_iff, orb_false_iff.
  intros [[_ [Hd Hu]] _].
  rewrite Hu, Hd. intros [= Hd' _]. subst d. by rewrite Z.eqb_refl in Hu.
Qed.

Lemma separated_tail c path : separated (c :: path) = true → separated path = true.
Proof. cbn [separated]. rewrite !andb_true_iff. tauto. Qed.

Lemma separated_head c path :
  separated (c :: path) = true → is_separator c = true → c = slash.
Proof.
  cbn [separated]. rewrite !andb_true_iff, negb_true_iff. unfold is_separator. intros [[-> _] _].
  rewrite orb_false_r. apply Z.eqb_eq.
Qed.

Lemma same_first_character c d p q :
  separated (c :: p) = true → separated (d :: q) = true →
  group_id_base (c :: p) = group_id_base (d :: q) →
  c = d ∧ group_id_base p = group_id_base q.
Proof.
  intros Hp Hq. rewrite !group_id_base_cons.
  destruct (Z.eqb_spec c underscore) as [->|Hcu], (Z.eqb_spec d underscore) as [->|Hdu].
  - intros [= He]. done.
  - destruct (is_separator d) eqn:Ed; [|intros [= He _]; congruence].
    pose proof (separated_head _ _ Hq Ed) as ->. intros [= He].
    by destruct (group_id_after_slash q (group_id_base p) Hq).
  - destruct (is_separator c) eqn:Ec; [|intros [= He _]; congruence].
    pose proof (separated_head _ _ Hp Ec) as ->. intros [= He].
    by destruct (group_id_after_slash p (group_id_base q) Hp).
  - destruct (is_separator c) eqn:Ec, (is_separator d) eqn:Ed; intros He; simplify_eq/=.
    + by rewrite (separated_head _ _ Hp Ec), (separated_head _ _ Hq Ed).
    + done.
Qed.

Lemma group_id_base_inj p q :
  separated p = true → separated q = true → group_id_base p = group_id_base q → p = q.
Proof.
  revert q. induction p as [|c p IH]; intros [|d q] Hp Hq He.
  - done.
  - rewrite group_id_base_cons in He. by destruct (d =? _), (is_separator d).
  - rewrite group_id_base_cons in He. by destruct (c =? _), (is_separator c).
  - destruct (same_first_character c d p q Hp Hq He) as [-> He'].
    f_equal. apply IH; [| |done]; by apply (separated_tail d).
Qed.

(** Paths in which no separator is followed by an underscore
    or another separator get distinct identifiers. *)
Theorem group_ids_of_separated_paths_differ (p q : str) :
  separated p = true → separated q = true → p ≠ q → group_id_base p ≠ group_id_base q.
Proof. intros Hp Hq Hne He. by apply Hne, group_id_base_inj. Qed.

Theorem group_ids_of_separated_paths_differ_witness :
  separated (lit "a_b.c") = true ∧ group_id_base (lit "a/b.c") ≠ group_id_base (lit "a_b.c").
Proof.
  split; [reflexivity|].
  apply (group_ids_of_separated_paths_differ (lit "a/b.c") (lit "a_b.c"));
    [reflexivity|reflexivity|vm_compute; discriminate].
Defined.

(** Two directories whose names end and begin with an
    underscore on the two sides of a separator collide: [x_/y] and [x/_y] have
    the same identifier, for all [x] and [y]. *)
Theorem group_ids_collide (x y : str) :
  group_id_base (x ++ [underscore; slash] ++ y) = group_id_base (x ++ [slash; underscore] ++ y).
Proof. by rewrite !group_id_base_app. Qed.

(** A path is marked as generated exactly when one of the
    markers occurs anywhere in it: the directory markers also match the end of
    a longer directory name, so a source file of a checkout directory is marked. *)
Theorem generated_markers_match_anywhere (path : str) :
  (is_generated_path path = true ↔
   ∃ m l r, m ∈ generated_dir_markers ++ generated_suffix_markers ∧ path = l ++ m ++ r) ∧
  is_generated_path (lit "src/checkout/cart.ts") = true.
Proof.
  split; [|reflexivity].
  assert (∀ ms, existsb (λ m, contains m path) ms = true ↔
    ∃ m l r, m ∈ ms ∧ path = l ++ m ++ r) as Hex.
  { intros ms. rewrite existsb_exists. setoid_rewrite contains_spec.
    setoid_rewrite <- list_elem_of_In. naive_solver. }
  unfold is_generated_path. setoid_rewrite elem_of_app.
  destruct (existsb _ generated_dir_markers) eqn:E1.
  { split; [intros _|done]. apply Hex in E1 as (m & l & r & Hm & ->). exists m, l, r. auto. }
  destruct (starts_with (lit "target/") path || _ || _) eqn:E2.
  { exfalso. apply not_true_iff_false in E1. apply E1, Hex.
    rewrite !orb_true_iff, !starts_with_spec in E2.
    destruct E2 as [[[t ->]|[t ->]]|[t ->]]; eexists _, [], t; (split; [|reflexivity]);
      unfold generated_dir_markers; set_solver. }
  rewrite Hex. apply not_true_iff_false in E1. rewrite Hex in E1. naive_solver.
Qed.

End Paths.
