(* ===== verification/Kinds.v ===== *)
(** * Kinds of entities and of relations

    Models the classification types of crates/core/cce-types/src/types/:
    [EntityKind] with its categories (entity/kind.rs), [StdlibCategory]
    (stdlib_category.rs), [RelationType] with its
    wire names and domains, and the classes of external references
    (relation/classification.rs). A constructor of [EntityKind] carries the
    prefix [Kind], of [EntityDomain] [Domain], of [StdlibCategory] [Std]. *)

From S2P Require Import Prelude.

Module Kinds.

(** ** Entity kinds *)

Inductive EntityKind :=
| KindUnknown | KindClass | KindStruct | KindEnum | KindInterface | KindTrait
| KindTraitImpl | KindInherentImpl | KindTypeAlias | KindUnion | KindEnumVariant
| KindAnnotation | KindMacro | KindFunction | KindMethod | KindConstructor | KindAccessor
| KindDestructor | KindOperator | KindField | KindProperty | KindVariable | KindConstant
| KindModule | KindNamespace | KindPackage | KindImport | KindRequire | KindInclude
| KindExport | KindStyleRule | KindStyleSelector | KindStyleProperty | KindKeyframe
| KindElement | KindAttribute | KindExpression | KindComponent | KindTemplate
| KindDirective | KindControlFlow | KindAnimation | KindBinding | KindAction | KindAtRule
| KindEventHandler | KindScriptContent | KindStyleContent | KindEmbeddedBlock
| KindTestSuite | KindTestCase | KindTestHook | KindAssertion | KindMock.

#[export] Instance EntityKind_eq_dec : EqDecision EntityKind.
Proof. solve_decision. Defined.

Definition kind_str (k : EntityKind) : string :=
  match k with
  | KindUnknown => "unknown" | KindClass => "class" | KindStruct => "struct"
  | KindEnum => "enum" | KindInterface => "interface" | KindTrait => "trait"
  | KindTraitImpl => "trait_impl" | KindInherentImpl => "inherent_impl"
  | KindTypeAlias => "type_alias" | KindUnion => "union"
  | KindEnumVariant => "enum_variant" | KindAnnotation => "annotation"
  | KindMacro => "macro" | KindFunction => "function" | KindMethod => "method"
  | KindConstructor => "constructor" | KindAccessor => "accessor"
  | KindDestructor => "destructor" | KindOperator => "operator" | KindField => "field"
  | KindProperty => "property" | KindVariable => "variable" | KindConstant => "constant"
  | KindModule => "module" | KindNamespace => "namespace" | KindPackage => "package"
  | KindImport => "import" | KindRequire => "require" | KindInclude => "include"
  | KindExport => "export" | KindStyleRule => "style_rule"
  | KindStyleSelector => "style_selector" | KindStyleProperty => "style_property"
  | KindKeyframe => "keyframe" | KindElement => "element" | KindAttribute => "attribute"
  | KindExpression => "expression" | KindComponent => "component"
  | KindTemplate => "template" | KindDirective => "directive"
  | KindControlFlow => "control_flow" | KindAnimation => "animation"
  | KindBinding => "binding" | KindAction => "action" | KindAtRule => "at_rule"
  | KindEventHandler => "event_handler" | KindScriptContent => "script_content"
  | KindStyleContent => "style_content" | KindEmbeddedBlock => "embedded_block"
  | KindTestSuite => "test_suite" | KindTestCase => "test_case"
  | KindTestHook => "test_hook" | KindAssertion => "assertion" | KindMock => "mock"
  end.

Definition is_type_definition (k : EntityKind) : bool :=
  match k with
  | KindClass | KindStruct | KindEnum | KindInterface | KindTrait | KindTraitImpl
  | KindInherentImpl | KindTypeAlias | KindUnion => true
  | _ => false
  end.

Definition is_macro_like (k : EntityKind) : bool :=
  match k with
  | KindMacro => true
  | _ => false
  end.

Definition is_annotation_like (k : EntityKind) : bool :=
  match k with
  | KindAnnotation => true
  | _ => false
  end.

Definition is_function_like (k : EntityKind) : bool :=
  match k with
  | KindFunction | KindMethod | KindAccessor | KindConstructor | KindDestructor
  | KindOperator => true
  | _ => false
  end.

Definition is_callable_target (k : EntityKind) : bool :=
  match k with
  | KindFunction | KindMethod | KindConstructor | KindDestructor | KindOperator => true
  | _ => false
  end.

Definition is_variable_like (k : EntityKind) : bool :=
  match k with
  | KindField | KindProperty | KindVariable | KindConstant | KindEnumVariant => true
  | _ => false
  end.

Definition is_module_like (k : EntityKind) : bool :=
  match k with
  | KindModule | KindNamespace | KindPackage => true
  | _ => false
  end.

Definition is_namespace (k : EntityKind) : bool :=
  match k with
  | KindNamespace => true
  | _ => false
  end.

Definition is_import_like (k : EntityKind) : bool :=
  match k with
  | KindImport | KindRequire | KindInclude | KindExport => true
  | _ => false
  end.

Definition is_template_entity (k : EntityKind) : bool :=
  match k with
  | KindElement | KindAttribute | KindExpression | KindComponent | KindTemplate
  | KindDirective | KindControlFlow | KindBinding | KindAction | KindEventHandler => true
  | _ => false
  end.

Definition is_style_related (k : EntityKind) : bool :=
  match k with
  | KindStyleRule | KindStyleSelector | KindStyleProperty | KindKeyframe => true
  | _ => false
  end.

Definition is_element_like (k : EntityKind) : bool :=
  match k with
  | KindElement | KindClass => true
  | _ => false
  end.

Definition is_test_entity (k : EntityKind) : bool :=
  match k with
  | KindTestSuite | KindTestCase | KindTestHook => true
  | _ => false
  end.

Definition is_constructible_type (k : EntityKind) : bool :=
  match k with
  | KindStruct | KindClass | KindEnum | KindEnumVariant | KindUnion => true
  | _ => false
  end.

Definition is_test_related (k : EntityKind) : bool :=
  match k with
  | KindTestSuite | KindTestCase | KindTestHook | KindAssertion | KindMock => true
  | _ => false
  end.

Definition is_impl_block (k : EntityKind) : bool :=
  match k with
  | KindTraitImpl | KindInherentImpl => true
  | _ => false
  end.

Definition kind_label (k : EntityKind) : string :=
  match k with
  | KindModule => "module" | KindNamespace => "namespace" | KindPackage => "package"
  | KindClass => "class" | KindStruct => "struct" | KindEnum => "enum"
  | KindEnumVariant => "variant" | KindUnion => "union" | KindTrait => "trait"
  | KindInterface => "interface" | KindTraitImpl => "trait implementation"
  | KindInherentImpl => "inherent implementation" | KindTypeAlias => "type alias"
  | KindFunction => "function" | KindMethod => "method"
  | KindConstructor => "constructor" | KindAccessor => "accessor"
  | KindDestructor => "destructor" | KindOperator => "operator" | KindField => "field"
  | KindProperty => "property" | KindVariable => "variable" | KindConstant => "constant"
  | KindImport => "import" | KindRequire => "require" | KindInclude => "include"
  | KindExport => "export" | KindAnnotation => "annotation" | KindMacro => "macro"
  | KindStyleRule => "style rule" | KindStyleSelector => "style selector"
  | KindStyleProperty => "style property" | KindKeyframe => "keyframe"
  | KindElement => "element" | KindAttribute => "attribute"
  | KindExpression => "expression" | KindComponent => "component"
  | KindTemplate => "template" | KindDirective => "directive"
  | KindControlFlow => "control flow" | KindAnimation => "animation"
  | KindBinding => "binding" | KindAction => "action" | KindAtRule => "at-rule"
  | KindEventHandler => "event handler" | KindScriptContent => "script content"
  | KindStyleContent => "style content" | KindEmbeddedBlock => "embedded block"
  | KindTestSuite => "test suite" | KindTestCase => "test case"
  | KindTestHook => "test hook" | KindAssertion => "assertion" | KindMock => "mock"
  | KindUnknown => "unknown"
  end.

Definition is_named_semantic_entity (k : EntityKind) : bool :=
  match k with
  | KindClass | KindStruct | KindEnum | KindInterface | KindTrait | KindTypeAlias
  | KindUnion | KindFunction | KindMethod | KindConstructor | KindDestructor
  | KindOperator | KindConstant | KindModule | KindNamespace | KindPackage
  | KindComponent | KindTestSuite | KindTestCase => true
  | _ => false
  end.

Definition is_position_scoped (k : EntityKind) : bool :=
  is_variable_like k || is_annotation_like k.

Inductive EntityDomain :=
| DomainCode | DomainModule | DomainStyle | DomainTemplate | DomainTest | DomainUnknown.

#[export] Instance EntityDomain_eq_dec : EqDecision EntityDomain.
Proof. solve_decision. Defined.

Definition domain (k : EntityKind) : EntityDomain :=
  if is_style_related k then DomainStyle
  else if is_template_entity k then DomainTemplate
  else if is_test_related k then DomainTest
  else if is_module_like k || is_import_like k then DomainModule
  else match k with KindUnknown => DomainUnknown | _ => DomainCode end.

Definition is_code_domain (k : EntityKind) : bool := bool_decide (domain k = DomainCode).

Definition can_have_children (k : EntityKind) : bool :=
  is_type_definition k || is_module_like k ||
  match k with
  | KindElement | KindStyleRule | KindComponent | KindTemplate | KindControlFlow => true
  | _ => false
  end.

Definition can_be_caller (k : EntityKind) : bool := is_code_domain k && is_function_like k.

(** ** Relation types *)

Inductive RelationType :=
| DirectCall | InstanceMethodCall | StaticMethodCall | ChainedMethodCall
| ConstructorCall | PointerCall | CallbackCall | GenericCall | MacroCall | GoroutineCall
| DeferredCall | AsyncCall | HigherOrderCall | IncludeLocal | ImportStandard
| ImportNamed | ImportDefault | ImportNamespace | ImportDynamic | Use | Using
| MacroDependency | ModuleDependency | Inheritance | Implementation | TraitBound
| Contains | ImplAssociation | Embedding | Mixin | TraitInheritance
| ProtocolImplementation | TypeReference | FieldAccess | FunctionReference
| ElementContains | TemplateReference | ParameterBinding | EventCallback.

#[export] Instance RelationType_eq_dec : EqDecision RelationType.
Proof. solve_decision. Defined.

Definition type_str (k : RelationType) : string :=
  match k with
  | DirectCall => "call.direct" | InstanceMethodCall => "call.method"
  | StaticMethodCall => "call.method.static" | ChainedMethodCall => "call.method.chained"
  | ConstructorCall => "call.constructor" | PointerCall => "call.pointer"
  | CallbackCall => "call.callback" | GenericCall => "call.generic"
  | MacroCall => "call.macro" | GoroutineCall => "call.goroutine"
  | DeferredCall => "call.deferred" | AsyncCall => "call.async"
  | HigherOrderCall => "call.higher_order" | IncludeLocal => "dependency.include"
  | ImportStandard => "dependency.import.standard"
  | ImportNamed => "dependency.import.named"
  | ImportDefault => "dependency.import.default"
  | ImportNamespace => "dependency.import.namespace"
  | ImportDynamic => "dependency.import.dynamic" | Use => "dependency.use"
  | Using => "dependency.using" | MacroDependency => "dependency.macro"
  | ModuleDependency => "dependency.module" | Inheritance => "inheritance"
  | Implementation => "implementation" | TraitBound => "trait_bound"
  | Contains => "contains" | ImplAssociation => "impl_association"
  | Embedding => "embedding" | Mixin => "mixin" | TraitInheritance => "trait_inheritance"
  | ProtocolImplementation => "protocol_implementation"
  | TypeReference => "type_reference" | FieldAccess => "field_access"
  | FunctionReference => "reference.function" | ElementContains => "contains.element"
  | TemplateReference => "reference.template" | ParameterBinding => "parameter.binding"
  | EventCallback => "callback.event"
  end.

Definition type_from_str (s : string) : option RelationType :=
  if String.eqb s "call.direct" then Some DirectCall
  else if String.eqb s "call.method" then Some InstanceMethodCall
  else if String.eqb s "call.method.static" then Some StaticMethodCall
  else if String.eqb s "call.method.chained" then Some ChainedMethodCall
  else if String.eqb s "call.constructor" then Some ConstructorCall
  else if String.eqb s "call.pointer" then Some PointerCall
  else if String.eqb s "call.callback" then Some CallbackCall
  else if String.eqb s "call.generic" then Some GenericCall
  else if String.eqb s "call.macro" then Some MacroCall
  else if String.eqb s "call.goroutine" then Some GoroutineCall
  else if String.eqb s "call.deferred" then Some DeferredCall
  else if String.eqb s "call.async" then Some AsyncCall
  else if String.eqb s "call.higher_order" then Some HigherOrderCall
  else if String.eqb s "dependency.include" then Some IncludeLocal
  else if String.eqb s "dependency.import.standard" then Some ImportStandard
  else if String.eqb s "dependency.import.named" then Some ImportNamed
  else if String.eqb s "dependency.import.default" then Some ImportDefault
  else if String.eqb s "dependency.import.namespace" then Some ImportNamespace
  else if String.eqb s "dependency.import.dynamic" then Some ImportDynamic
  else if String.eqb s "dependency.use" then Some Use
  else if String.eqb s "dependency.using" then Some Using
  else if String.eqb s "dependency.macro" then Some MacroDependency
  else if String.eqb s "dependency.module" then Some ModuleDependency
  else if String.eqb s "inheritance" then Some Inheritance
  else if String.eqb s "implementation" then Some Implementation
  else if String.eqb s "trait_bound" then Some TraitBound
  else if String.eqb s "contains" then Some Contains
  else if String.eqb s "impl_association" then Some ImplAssociation
  else if String.eqb s "embedding" then Some Embedding
  else if String.eqb s "mixin" then Some Mixin
  else if String.eqb s "trait_inheritance" then Some TraitInheritance
  else if String.eqb s "protocol_implementation" then Some ProtocolImplementation
  else if String.eqb s "type_reference" then Some TypeReference
  else if String.eqb s "field_access" then Some FieldAccess
  else if String.eqb s "reference.function" then Some FunctionReference
  else if String.eqb s "contains.element" then Some ElementContains
  else if String.eqb s "reference.template" then Some TemplateReference
  else if String.eqb s "parameter.binding" then Some ParameterBinding
  else if String.eqb s "callback.event" then Some EventCallback
  else None.

Definition is_call (k : RelationType) : bool :=
  match k with
  | DirectCall | InstanceMethodCall | StaticMethodCall | ChainedMethodCall
  | ConstructorCall | PointerCall | CallbackCall | GenericCall | MacroCall
  | GoroutineCall | DeferredCall | AsyncCall | HigherOrderCall => true
  | _ => false
  end.

Definition is_dependency (k : RelationType) : bool :=
  match k with
  | IncludeLocal | ImportStandard | ImportNamed | ImportDefault | ImportNamespace
  | ImportDynamic | Use | Using | MacroDependency | ModuleDependency => true
  | _ => false
  end.

Definition is_structural (k : RelationType) : bool :=
  match k with
  | Inheritance | Implementation | TraitBound | Contains | ImplAssociation | Embedding
  | Mixin | TraitInheritance | ProtocolImplementation => true
  | _ => false
  end.

Definition is_reference (k : RelationType) : bool :=
  match k with
  | TypeReference | FieldAccess | FunctionReference => true
  | _ => false
  end.

Definition is_method_call (k : RelationType) : bool :=
  match k with
  | InstanceMethodCall | StaticMethodCall | ChainedMethodCall => true
  | _ => false
  end.

Definition is_import (k : RelationType) : bool :=
  match k with
  | ImportStandard | ImportNamed | ImportDefault | ImportNamespace | ImportDynamic => true
  | _ => false
  end.

Definition is_include (k : RelationType) : bool :=
  match k with
  | IncludeLocal => true
  | _ => false
  end.

Definition is_template_relation (k : RelationType) : bool :=
  match k with
  | ElementContains | TemplateReference | ParameterBinding | EventCallback => true
  | _ => false
  end.

Definition is_constructor_call (k : RelationType) : bool :=
  match k with
  | ConstructorCall => true
  | _ => false
  end.

Definition type_domain (k : RelationType) : string :=
  if is_call k then "call"
  else if is_dependency k then "dependency"
  else if is_structural k then "structural"
  else if is_template_relation k then "template"
  else if is_reference k then "reference"
  else "other".

(** ** Levels and external references *)

Inductive RelationLevel := LevelFile | LevelEntity.

Definition level_str (l : RelationLevel) : string :=
  match l with LevelFile => "file" | LevelEntity => "entity" end.

Definition level_from_str (s : string) : option RelationLevel :=
  if String.eqb s "file" then Some LevelFile
  else if String.eqb s "entity" then Some LevelEntity
  else None.

Inductive ExternalCallType :=
| StandardLibrary (library : string)
| ExternalLibrary (package : string)
| DevDependency (package : string)
| LocalDependency (package : string)
| UnknownExternal (raw_target : string).

#[export] Instance ExternalCallType_eq_dec : EqDecision ExternalCallType.
Proof. solve_decision. Defined.

Definition is_standard_library (e : ExternalCallType) : bool :=
  match e with StandardLibrary _ => true | _ => false end.
Definition is_external_library (e : ExternalCallType) : bool :=
  match e with ExternalLibrary _ => true | _ => false end.
Definition is_dev_dependency (e : ExternalCallType) : bool :=
  match e with DevDependency _ => true | _ => false end.
Definition is_local_dependency (e : ExternalCallType) : bool :=
  match e with LocalDependency _ => true | _ => false end.

Definition library_name (e : ExternalCallType) : option string :=
  match e with
  | StandardLibrary n | ExternalLibrary n | DevDependency n | LocalDependency n => Some n
  | UnknownExternal _ => None
  end.

(** ** Standard-library categories *)

Inductive StdlibCategory :=
| StdCollection | StdIo | StdConcurrency | StdUtility | StdString | StdNumeric | StdError
| StdMacro | StdTrait | StdOther.

#[export] Instance StdlibCategory_eq_dec : EqDecision StdlibCategory.
Proof. solve_decision. Defined.

Definition category_str (c : StdlibCategory) : string :=
  match c with
  | StdCollection => "collections" | StdIo => "io" | StdConcurrency => "concurrency"
  | StdUtility => "utilities" | StdString => "strings" | StdNumeric => "numerics"
  | StdError => "errors" | StdMacro => "macros" | StdTrait => "traits"
  | StdOther => "other_stdlib"
  end.

Definition description_label (c : StdlibCategory) : string :=
  match c with
  | StdCollection => "collection type" | StdIo => "I/O utility"
  | StdConcurrency => "concurrency primitive" | StdUtility => "utility type"
  | StdString => "string type" | StdNumeric => "numeric type"
  | StdError => "error handling type" | StdMacro => "macro" | StdTrait => "trait"
  | StdOther => "standard library entity"
  end.

(** Categories a relation type may be in, as [type_domain] tests them. *)
Definition categories (k : RelationType) : list bool :=
  [is_call k; is_dependency k; is_structural k; is_template_relation k; is_reference k].

(** ** Theorems *)

Lemma type_from_str_type_str k : type_from_str (type_str k) = Some k.
Proof. by destruct k. Qed.

Lemma type_from_str_Some s k : type_from_str s = Some k → s = type_str k.
Proof.
  unfold type_from_str.
  repeat match goal with
  | |- context [String.eqb s ?t] =>
      destruct (String.eqb_spec s t) as [->|_]; [by intros [= <-]|]
  end.
  done.
Qed.

(** The wire name of a relation type parses back to it and no
    other text parses to it; every relation type is in exactly one of the five
    domains, so the fallback domain is never reported, and the narrower
    predicates (method call, constructor call, import, include) refine their
    domain. *)
Theorem relation_types_classified (k : RelationType) :
  (∀ s, type_from_str s = Some k ↔ s = type_str k) ∧
  count_if id (categories k) = 1%Z ∧
  type_domain k ≠ "other" ∧
  implb (is_method_call k || is_constructor_call k) (is_call k) = true ∧
  implb (is_import k || is_include k) (is_dependency k) = true.
Proof.
  split; [|by destruct k].
  intros s. split; [apply type_from_str_Some|]. intros ->. apply type_from_str_type_str.
Qed.

Lemma kind_str_inj k k' : kind_str k = kind_str k' → k = k'.
Proof. destruct k; destruct k'; done. Qed.

End Kinds.
