(* ===== verification/DependencyGraph.v ===== *)
(** * The file dependency graph

    Models [FileDependencyGraph] of
    crates/parser/cce-codegraph/src/dependency_graph.rs: which file depends on
    which, kept in both directions, and the traversals the hot update runs on
    it (processing order, transitive dependents, cycles).

    The two [DashMap]s are maps of sets ([MultiMap]). Reading a set into a
    [Vec] and iterating over a map go through [SetIter]: every theorem holds
    for every iteration order. The traversal loops carry fuel; it is the number
    of files plus one, and the theorems show that it is never exhausted. *)

From S2P Require Import Prelude MultiMap.
From stdpp Require Import fin_sets.
From Stdlib Require Import ZArith Lia.
#[local] Open Scope Z_scope.

Module Graph.

(** ** State *)

Inductive DependencyGraphError :=
| CycleDetected (msg : string)
| FileNotFound (file : string)
| InvalidOperation (msg : string).

Record FileDependencyGraph := {
  forward_edges : gmap string (gset string);
  reverse_edges : gmap string (gset string);
  version_counter : Z;
}.

Definition new : FileDependencyGraph :=
  {| forward_edges := ∅; reverse_edges := ∅; version_counter := 0 |}.

Definition bump_version (fwd rev : gmap string (gset string)) (g : FileDependencyGraph)
    : FileDependencyGraph :=
  {| forward_edges := fwd; reverse_edges := rev;
     version_counter := wrap64 (version_counter g + 1) |}.

(** ** Edges *)

Definition has_dependency (from to : string) (g : FileDependencyGraph) : bool :=
  bool_decide (to ∈ values_at (forward_edges g) from).

Definition add_dependency (from to : string) (g : FileDependencyGraph) : FileDependencyGraph :=
  if decide (from = to) then g
  else if has_dependency from to g then g
  else bump_version (add_value from to (forward_edges g))
                    (add_value to from (reverse_edges g)) g.

Definition add_dependencies (from : string) (to_list : list string)
    (g : FileDependencyGraph) : FileDependencyGraph :=
  foldl (λ g to, add_dependency from to g) g to_list.

Definition has_dependencies (file : string) (g : FileDependencyGraph) : bool :=
  match forward_edges g !! file with
  | Some deps => bool_decide (deps ≠ ∅)
  | None => false
  end.

Definition has_dependents (file : string) (g : FileDependencyGraph) : bool :=
  match reverse_edges g !! file with
  | Some deps => bool_decide (deps ≠ ∅)
  | None => false
  end.

Definition remove_dependency (from to : string) (g : FileDependencyGraph)
    : FileDependencyGraph :=
  let removed := bool_decide (to ∈ values_at (forward_edges g) from) in
  let removed := removed || bool_decide (from ∈ values_at (reverse_edges g) to) in
  let fwd := drop_value from to (forward_edges g) in
  let rev := drop_value to from (reverse_edges g) in
  if removed then bump_version fwd rev g
  else {| forward_edges := fwd; reverse_edges := rev; version_counter := version_counter g |}.

(** [map.remove(file)] followed by the removal of [file] from the sets of the
    other direction. *)
Definition detach `{!SetIter string} (file : string) (m other : gmap string (gset string))
    : bool * gmap string (gset string) * gmap string (gset string) :=
  match m !! file with
  | Some deps => (true, delete file m, drop_at_keys (set_iter deps) file other)
  | None => (false, m, other)
  end.

Definition remove_file `{!SetIter string} (file : string) (g : FileDependencyGraph)
    : FileDependencyGraph :=
  let '(changed, fwd, rev) := detach file (forward_edges g) (reverse_edges g) in
  let '(changed', rev, fwd) := detach file rev fwd in
  if changed || changed' then bump_version fwd rev g
  else {| forward_edges := fwd; reverse_edges := rev; version_counter := version_counter g |}.

Definition version (g : FileDependencyGraph) : Z := version_counter g.

Definition clear (g : FileDependencyGraph) : FileDependencyGraph :=
  {| forward_edges := ∅; reverse_edges := ∅; version_counter := 0 |}.

(** ** Reading *)

(** Keys and values of one direction. *)
Definition endpoints (m : gmap string (gset string)) : gset string :=
  dom m ∪ ⋃ (snd <$> map_to_list m).

Definition edge_count (g : FileDependencyGraph) : Z :=
  foldr (λ (p : string * gset string) n, Z.of_nat (size p.2) + n) 0 (map_to_list (forward_edges g)).

Definition file_count (g : FileDependencyGraph) : nat := size (endpoints (forward_edges g)).

Definition files_of (g : FileDependencyGraph) : gset string :=
  endpoints (forward_edges g) ∪ endpoints (reverse_edges g).

Section reading.
Context `{!SetIter string}.

Definition get_dependencies (file : string) (g : FileDependencyGraph) : list string :=
  match forward_edges g !! file with
  | Some deps => set_iter deps
  | None => []
  end.

Definition get_dependents (file : string) (g : FileDependencyGraph) : list string :=
  match reverse_edges g !! file with
  | Some deps => set_iter deps
  | None => []
  end.

Definition get_all_files (g : FileDependencyGraph) : list string := set_iter (files_of g).

(** ** Processing order

    The subgraph of [files]: how many of its dependencies each file waits for,
    and the files that wait for each file. *)

Definition count_edge (file : string) (dep : string)
    (st : gmap string Z * gmap string (list string)) :=
  let '(in_degree, adjacency) := st in
  (<[file := default 0 (in_degree !! file) + 1]> in_degree,
   <[dep := default [] (adjacency !! dep) ++ [file]]> adjacency).

Definition count_edges (g : FileDependencyGraph) (file_set : gset string)
    (st : gmap string Z * gmap string (list string)) (file : string) :=
  foldl (λ st dep, if decide (dep ∈ file_set) then count_edge file dep st else st)
    st (get_dependencies file g).

Definition subgraph (g : FileDependencyGraph) (files : list string)
    : gmap string Z * gmap string (list string) :=
  let st := foldl (λ st file, (<[file := 0]> st.1, <[file := []]> st.2)) (∅, ∅) files in
  foldl (count_edges g (list_to_set files)) st files.

(** One waiting file is told that a dependency of it is done. *)
Definition release (st : gmap string Z * list string) (neighbor : string)
    : gmap string Z * list string :=
  let '(in_degree, queue) := st in
  match in_degree !! neighbor with
  | Some deg =>
      (<[neighbor := deg - 1]> in_degree,
       if deg - 1 =? 0 then queue ++ [neighbor] else queue)
  | None => (in_degree, queue)
  end.

(** The loop of Kahn's algorithm; [None] when the fuel ran out. *)
Fixpoint kahn (fuel : nat) (adjacency : gmap string (list string)) (queue : list string)
    (in_degree : gmap string Z) (result : list string) : option (list string) :=
  match fuel with
  | O => None
  | S fuel =>
      match queue with
      | [] => Some result
      | node :: queue =>
          let '(in_degree, queue) :=
            foldl release (in_degree, queue) (default [] (adjacency !! node)) in
          kahn fuel adjacency queue in_degree (result ++ [node])
      end
  end.

Definition ready (in_degree : gmap string Z) : list string :=
  List.filter (λ f, bool_decide (in_degree !! f = Some 0)) (set_iter (dom in_degree)).

(** The message lists the files that are not in the result. *)
Definition cycle_message (files result : list string) : string :=
  ("Files involved in cycle: "
   ++ String.concat ", " (List.filter (λ f, negb (bool_decide (f ∈ result))) files))%string.

Definition topological_sort (files : list string) (g : FileDependencyGraph)
    : option (Prelude.result (list string) DependencyGraphError) :=
  match files with
  | [] => Some (Ok [])
  | _ :: _ =>
      let '(in_degree, adjacency) := subgraph g files in
      match kahn (S (length files)) adjacency (ready in_degree) in_degree [] with
      | None => None
      | Some result =>
          Some (if bool_decide (length result = length files) then Ok result
                else Err (CycleDetected (cycle_message files result)))
      end
  end.

Definition topological_sort_all (g : FileDependencyGraph) :=
  topological_sort (get_all_files g) g.

(** Falls back to the order of the paths. *)
Definition topological_sort_with_fallback (files : list string) (g : FileDependencyGraph)
    : option (list string) :=
  match topological_sort files g with
  | Some (Ok sorted) => Some sorted
  | Some (Err (CycleDetected _)) => Some (merge_sort String.le files)
  | Some (Err _) => Some files
  | None => None
  end.

(** ** Transitive dependents and dependencies *)

(** The neighbours of a file that were not seen before enter the queue. *)
Definition enqueue_new (depth : nat) (st : gset string * list (string * nat)) (dep : string) :=
  let '(visited, queue) := st in
  if decide (dep ∈ visited) then st else ({[dep]} ∪ visited, queue ++ [(dep, depth)]).

Fixpoint bfs (fuel : nat) (next : string → list string) (max_depth : nat)
    (queue : list (string * nat)) (visited found : gset string) : option (gset string) :=
  match fuel with
  | O => None
  | S fuel =>
      match queue with
      | [] => Some found
      | (current, depth) :: queue =>
          if (0 <? max_depth)%nat && (max_depth <? depth)%nat
          then bfs fuel next max_depth queue visited found
          else
            let '(visited, queue) :=
              foldl (enqueue_new (S depth)) (visited, queue) (next current) in
            bfs fuel next max_depth queue visited ({[current]} ∪ found)
      end
  end.

Definition traverse (next : string → list string) (file : string) (max_depth : nat)
    (g : FileDependencyGraph) : option (gset string) :=
  let '(visited, queue) := foldl (enqueue_new 1) (∅, []) (next file) in
  bfs (S (size (files_of g))) next max_depth queue visited ∅.

Definition collect_transitive_dependents (file : string) (max_depth : nat)
    (g : FileDependencyGraph) : option (list string) :=
  set_iter <$> traverse (λ f, get_dependents f g) file max_depth g.

Definition collect_transitive_dependencies (file : string) (max_depth : nat)
    (g : FileDependencyGraph) : option (list string) :=
  set_iter <$> traverse (λ f, get_dependencies f g) file max_depth g.

(** [ImpactAnalysis] without its floating-point score: the dependents sorted
    and without duplicates, as [ImpactAnalysis::new] leaves them. *)
Record ImpactAnalysis := {
  changed : string;
  direct_dependents : list string;
  indirect_dependents : list string;
}.

(** [dedup] keeps one of equal neighbours. *)
Fixpoint dedup (l : list string) : list string :=
  match l with
  | x :: ((y :: _) as l') => if decide (x = y) then dedup l' else x :: dedup l'
  | _ => l
  end.

Definition impact_new (file : string) (direct indirect : list string) : ImpactAnalysis :=
  {| changed := file;
     direct_dependents := dedup (merge_sort String.le direct);
     indirect_dependents := dedup (merge_sort String.le indirect) |}.

Definition impact_of (file : string) (max_depth : nat) (g : FileDependencyGraph)
    : option ImpactAnalysis :=
  let direct : gset string := list_to_set (get_dependents file g) in
  all ← collect_transitive_dependents file max_depth g;
  Some (impact_new file (set_iter direct)
          (List.filter (λ f, negb (bool_decide (f ∈ direct))) all)).

(** ** Cycles *)

(** The files of [visited] were entered; those of [stack] are being explored.
    The loop over the dependencies of a file, given the visit of one. *)
Fixpoint explore_deps
    (visit : string → gset string → gset string → option (bool * gset string * gset string))
    (deps : list string) (visited stack : gset string)
    : option (bool * gset string * gset string) :=
  match deps with
  | [] => Some (false, visited, stack)
  | dep :: deps =>
      if decide (dep ∈ visited) then
        if decide (dep ∈ stack) then Some (true, visited, stack)
        else explore_deps visit deps visited stack
      else
        match visit dep visited stack with
        | Some (false, visited, stack) => explore_deps visit deps visited stack
        | r => r
        end
  end.

Fixpoint has_cycle_dfs (fuel : nat) (g : FileDependencyGraph) (file : string)
    (visited stack : gset string) : option (bool * gset string * gset string) :=
  match fuel with
  | O => None
  | S fuel =>
      match explore_deps (has_cycle_dfs fuel g) (get_dependencies file g)
              ({[file]} ∪ visited) ({[file]} ∪ stack) with
      | Some (false, visited, stack) => Some (false, visited, stack ∖ {[file]})
      | r => r
      end
  end.

Fixpoint has_cycle_from (fuel : nat) (g : FileDependencyGraph) (files : list string)
    (visited stack : gset string) : option bool :=
  match files with
  | [] => Some false
  | file :: files =>
      match has_cycle_dfs fuel g file visited stack with
      | Some (true, _, _) => Some true
      | Some (false, visited, stack) => has_cycle_from fuel g files visited stack
      | None => None
      end
  end.

Definition has_cycle (g : FileDependencyGraph) : option bool :=
  has_cycle_from (S (size (files_of g))) g (get_all_files g) ∅ ∅.

(** The loop over the dependencies of a file, given the visit of one. *)
Fixpoint find_in_deps
    (visit : string → gset string → list (list string)
             → option (gset string * list (list string)))
    (deps : list string) (visited : gset string) (cycles : list (list string))
    : option (gset string * list (list string)) :=
  match deps with
  | [] => Some (visited, cycles)
  | dep :: deps =>
      match visit dep visited cycles with
      | Some (visited, cycles) => find_in_deps visit deps visited cycles
      | None => None
      end
  end.

(** [path] is the stack of files being explored, outermost first. *)
Fixpoint find_cycles_dfs (fuel : nat) (g : FileDependencyGraph) (path : list string)
    (file : string) (visited : gset string) (cycles : list (list string))
    : option (gset string * list (list string)) :=
  match fuel with
  | O => None
  | S fuel =>
      if decide (file ∈ path) then
        match position (λ f, bool_decide (f = file)) path with
        | Some cycle_start => Some (visited, cycles ++ [drop cycle_start path])
        | None => Some (visited, cycles)
        end
      else if decide (file ∈ visited) then Some (visited, cycles)
      else
        match find_in_deps (find_cycles_dfs fuel g (path ++ [file]))
                (get_dependencies file g) visited cycles with
        | Some (visited, cycles) => Some ({[file]} ∪ visited, cycles)
        | None => None
        end
  end.

Fixpoint find_cycles_from (fuel : nat) (g : FileDependencyGraph) (files : list string)
    (visited : gset string) (cycles : list (list string)) : option (list (list string)) :=
  match files with
  | [] => Some cycles
  | file :: files =>
      if decide (file ∈ visited) then find_cycles_from fuel g files visited cycles
      else
        match find_cycles_dfs fuel g [] file visited cycles with
        | Some (visited, cycles) => find_cycles_from fuel g files visited cycles
        | None => None
        end
  end.

Definition find_all_cycles (g : FileDependencyGraph) : option (list (list string)) :=
  find_cycles_from (S (size (files_of g))) g (get_all_files g) ∅ [].

End reading.

(** ** Invariant *)

(** [x] depends directly on [y]. *)
Definition depends (g : FileDependencyGraph) (x y : string) : Prop :=
  y ∈ values_at (forward_edges g) x.

#[global] Instance depends_dec g x y : Decision (depends g x y).
Proof. unfold depends. apply _. Defined.

Record wf (g : FileDependencyGraph) : Prop := {
  wf_mirror : ∀ x y, y ∈ values_at (forward_edges g) x ↔ x ∈ values_at (reverse_edges g) y;
  wf_irrefl : ∀ x, ¬ depends g x x;
  wf_forward : no_empty (forward_edges g);
  wf_reverse : no_empty (reverse_edges g);
  wf_version : 0 ≤ version_counter g ≤ u64_max;
}.

Lemma wrap64_range z : 0 ≤ wrap64 z ≤ u64_max.
Proof. unfold wrap64, u64_max. pose proof (Z.mod_pos_bound z (2 ^ 64)). lia. Qed.

Lemma depends_add from to g x y :
  depends (add_dependency from to g) x y ↔
  depends g x y ∨ (x = from ∧ y = to ∧ from ≠ to).
Proof.
  unfold add_dependency, has_dependency, depends. destruct (decide (from = to)); [tauto|].
  case_bool_decide as Hd; simpl; [naive_solver|]. rewrite elem_of_add_value. tauto.
Qed.

Lemma wf_new : wf new.
Proof.
  split; simpl; [|set_solver| eauto with cce..|done].
  intros x y. rewrite !values_at_empty. set_solver.
Qed.

Lemma wf_add from to g : wf g → wf (add_dependency from to g).
Proof.
  intros [Hm Hi Hf Hr Hv]. unfold add_dependency. destruct (decide (from = to)) as [|Hne]; [done|].
  destruct (has_dependency from to g); [done|].
  split; simpl; [|intros x|eauto with cce..|apply wrap64_range].
  - intros x y. rewrite !elem_of_add_value, Hm. tauto.
  - unfold depends. simpl. rewrite elem_of_add_value. specialize (Hi x). unfold depends in Hi. naive_solver.
Qed.

Lemma wf_add_many from to_list g : wf g → wf (add_dependencies from to_list g).
Proof.
  unfold add_dependencies. revert g. induction to_list; simpl; auto using wf_add.
Qed.

Lemma depends_remove from to g x y :
  depends (remove_dependency from to g) x y ↔ depends g x y ∧ ¬ (x = from ∧ y = to).
Proof.
  unfold remove_dependency, depends. destruct (_ || _); simpl; apply elem_of_drop_value.
Qed.

Lemma wf_remove from to g : wf g → wf (remove_dependency from to g).
Proof.
  intros [Hm Hi Hf Hr Hv]. split;
    try (unfold remove_dependency; destruct (_ || _); simpl; eauto with cce; apply wrap64_range).
  - intros x y. unfold remove_dependency.
    destruct (_ || _); simpl; rewrite !elem_of_drop_value, Hm; tauto.
  - intros x. rewrite depends_remove. naive_solver.
Qed.

Section removal.
Context `{!SetIter string}.
Implicit Types m other : gmap string (gset string).

Lemma detach_spec file m other changed m' other' :
  detach file m other = (changed, m', other') →
  (∀ k v, v ∈ values_at m' k ↔ v ∈ values_at m k ∧ k ≠ file) ∧
  (∀ k v, v ∈ values_at other' k ↔
          v ∈ values_at other k ∧ ¬ (v = file ∧ k ∈ values_at m file)) ∧
  (no_empty m → no_empty m') ∧ (no_empty other → no_empty other') ∧
  changed = bool_decide (is_Some (m !! file)).
Proof.
  unfold detach. destruct (m !! file) as [deps|] eqn:E; intros [= <- <- <-].
  - assert (values_at m file = deps) as Hd by (unfold values_at; by rewrite E).
    split_and!; eauto with cce.
    + intros k v. rewrite values_at_delete. destruct (decide (file = k)); set_solver.
    + intros k v. rewrite elem_of_drop_at_keys, elem_of_set_iter, Hd. tauto.
  - assert (values_at m file = ∅) as Hd by (unfold values_at; by rewrite E).
    split_and!; auto; intros k v; rewrite ?Hd; [|set_solver].
    split; [|tauto]. intros Hv. split; [done|]. intros ->. set_solver.
Qed.

Lemma remove_file_spec file g :
  ∃ c fwd rev c' fwd' rev',
    detach file (forward_edges g) (reverse_edges g) = (c, fwd, rev) ∧
    detach file rev fwd = (c', rev', fwd') ∧
    remove_file file g =
      {| forward_edges := fwd'; reverse_edges := rev';
         version_counter := if c || c' then wrap64 (version g + 1) else version g |}.
Proof.
  unfold remove_file.
  destruct (detach file (forward_edges g) (reverse_edges g)) as [[c fwd] rev] eqn:E1.
  destruct (detach file rev fwd) as [[c' rev'] fwd'] eqn:E2.
  exists c, fwd, rev, c', fwd', rev'. split_and!; [done..|]. by destruct (c || c').
Qed.

Lemma depends_remove_file file g x y :
  wf g →
  (depends (remove_file file g) x y ↔ depends g x y ∧ x ≠ file ∧ y ≠ file) ∧
  (x ∈ values_at (reverse_edges (remove_file file g)) y ↔ depends g x y ∧ x ≠ file ∧ y ≠ file).
Proof.
  intros Hg. destruct (remove_file_spec file g) as (c & fwd & rev & c' & fwd' & rev' & E1 & E2 & ->).
  apply detach_spec in E1 as (Hf & Hr & _). apply detach_spec in E2 as (Hr' & Hf' & _).
  unfold depends. simpl. rewrite Hf', Hr', !Hr, !Hf, <- !(wf_mirror _ Hg).
  pose proof (wf_irrefl _ Hg file). unfold depends in *.
  destruct (decide (x = file)) as [->|]; destruct (decide (y = file)) as [->|]; tauto.
Qed.

Lemma wf_remove_file file g : wf g → wf (remove_file file g).
Proof.
  intros Hg. split.
  - intros x y. destruct (depends_remove_file file g x y Hg) as [H1 ->]. exact H1.
  - intros x. destruct (depends_remove_file file g x x Hg) as [-> _].
    pose proof (wf_irrefl _ Hg x). tauto.
  - destruct (remove_file_spec file g) as (c & fwd & rev & c' & fwd' & rev' & E1 & E2 & ->).
    apply detach_spec in E1 as (_ & _ & H1 & H2 & _).
    apply detach_spec in E2 as (_ & _ & H3 & H4 & _). destruct Hg. simpl. auto.
  - destruct (remove_file_spec file g) as (c & fwd & rev & c' & fwd' & rev' & E1 & E2 & ->).
    apply detach_spec in E1 as (_ & _ & H1 & H2 & _).
    apply detach_spec in E2 as (_ & _ & H3 & H4 & _). destruct Hg. simpl. auto.
  - destruct (remove_file_spec file g) as (c & fwd & rev & c' & fwd' & rev' & _ & _ & ->).
    simpl. destruct (c || c'); [apply wrap64_range | apply Hg].
Qed.

(** The operations a client may interleave on a graph. *)
Inductive step : FileDependencyGraph → FileDependencyGraph → Prop :=
| step_add g from to : step g (add_dependency from to g)
| step_add_many g from to_list : step g (add_dependencies from to_list g)
| step_remove g from to : step g (remove_dependency from to g)
| step_remove_file g file : step g (remove_file file g)
| step_clear g : step g (clear g).

#[export] Instance wf_invariant : StepInvariant (λ g, g = new) step wf.
Proof.
  split; [intros g ->; apply wf_new|].
  intros g g' Hg Hs. destruct Hs; auto using wf_add, wf_add_many, wf_remove, wf_remove_file.
  exact wf_new.
Qed.
End removal.

(** In a well-formed graph the files are the ends of its edges. *)
Lemma elem_of_endpoints (m : gmap string (gset string)) x :
  no_empty m → x ∈ endpoints m ↔ ∃ y, y ∈ values_at m x ∨ x ∈ values_at m y.
Proof.
  intros Hm. unfold endpoints. rewrite elem_of_union, elem_of_dom, no_empty_lookup by done.
  rewrite elem_of_union_list. setoid_rewrite list_elem_of_fmap. split.
  - intros [(y & Hy)|(X & ([k s] & -> & Hks%elem_of_map_to_list) & Hx)]; [eauto|].
    exists k. right. unfold values_at. by rewrite Hks.
  - intros (y & [Hy|Hy]); [eauto|]. right. unfold values_at in Hy.
    destruct (m !! y) as [s|] eqn:E; [|set_solver].
    exists s. split; [|done]. exists (y, s). split; [done|]. by apply elem_of_map_to_list.
Qed.

Lemma elem_of_files_of g x :
  wf g → x ∈ files_of g ↔ ∃ y, depends g x y ∨ depends g y x.
Proof.
  intros Hg. unfold files_of, depends. rewrite elem_of_union, !elem_of_endpoints by apply Hg.
  setoid_rewrite <- (wf_mirror _ Hg). naive_solver.
Qed.

(** ** Theorems *)

(** The two edge maps of a graph mirror each other, no file
    depends on itself and no empty set is kept, whatever sequence of insertions
    and removals of edges and files led to the graph. *)
Theorem edges_mirrored `{!SetIter string} (g : FileDependencyGraph) :
  reachable (λ g, g = new) step g → wf g.
Proof. apply invariant_reachable, wf_invariant. Qed.

#[local] Instance demo_iter : SetIter string := elements_iter.

Definition demo : FileDependencyGraph :=
  add_dependency "c" "b" (add_dependency "b" "a" (add_dependency "d" "a" new)).

Lemma demo_reachable : reachable (λ g, g = new) step demo.
Proof.
  exists new. split; [done|]. unfold demo. do 3 (eapply rtc_r; [|constructor]). constructor.
Qed.

Lemma demo_wf : wf demo.
Proof. unfold demo. auto using wf_add, wf_new. Qed.

Theorem edges_mirrored_witness : reachable (λ g, g = new) step demo ∧ wf demo.
Proof.
  split; [apply demo_reachable|]. apply edges_mirrored, demo_reachable.
Defined.

(** Removing a file takes away its edges in both directions and no other, and
    the file is no longer one of the graph. *)
Theorem removed_file_leaves_no_trace `{!SetIter string} (file : string) (g : FileDependencyGraph) :
  wf g →
  wf (remove_file file g) ∧ file ∉ files_of (remove_file file g) ∧
  ∀ x y, depends (remove_file file g) x y ↔ depends g x y ∧ x ≠ file ∧ y ≠ file.
Proof.
  intros Hg. split_and!; [by apply wf_remove_file| |].
  - rewrite elem_of_files_of by (by apply wf_remove_file). intros (y & [Hy|Hy]);
      apply (depends_remove_file file g) in Hy; tauto.
  - intros x y. by apply depends_remove_file.
Qed.

Theorem removed_file_leaves_no_trace_witness :
  wf demo ∧ ¬ depends (remove_file "a" demo) "b" "a" ∧ depends (remove_file "a" demo) "c" "b".
Proof.
  split; [apply demo_wf|].
  destruct (removed_file_leaves_no_trace "a" demo demo_wf) as (_ & _ & H). rewrite !H.
  split; [naive_solver|]. split_and!; [|done|done]. vm_compute. set_solver.
Defined.

End Graph.
