(* ===== verification/GraphSort.v ===== *)
(** * The processing order of files

    Correctness of [topological_sort] of [DependencyGraph]: Kahn's algorithm on
    the subgraph of the given files. The loop keeps, for every file, the number
    of dependencies that are not placed yet; the theorem states when the sort
    succeeds, what it returns and that it ends. *)

From S2P Require Import Prelude MultiMap DependencyGraph.
From stdpp Require Import fin_sets.
From Stdlib Require Import ZArith Lia.
#[local] Open Scope Z_scope.

Module GraphSort.
Import Graph.

(** ** Processing order *)

(** The dependencies the sort of [files] respects. *)
Definition depends_in (files : list string) (g : FileDependencyGraph) (f d : string) : Prop :=
  f ∈ files ∧ d ∈ files ∧ depends g f d.

(** How often [f] occurs in a list, and how often it waits for [d]. *)
Definition occurrences (f : string) (l : list string) : Z :=
  count_if (λ y, bool_decide (y = f)) l.

Definition waits (adjacency : gmap string (list string)) (f d : string) : Z :=
  occurrences f (default [] (adjacency !! d)).

Definition total (h : string → Z) (l : list string) : Z := foldr (λ d n, h d + n) 0 l.

Lemma occurrences_pos f l : 0 < occurrences f l ↔ f ∈ l.
Proof.
  unfold occurrences. induction l as [|y l IH]; simpl; [set_solver by lia|].
  pose proof (count_if_nonneg (λ y, bool_decide (y = f)) l).
  rewrite elem_of_cons, <- IH. case_bool_decide; split; intros; subst; [by left|lia|right; lia|].
  destruct H1; [congruence|lia].
Qed.

Lemma occurrences_zero f l : f ∉ l → occurrences f l = 0.
Proof.
  intros Hf. pose proof (count_if_nonneg (λ y, bool_decide (y = f)) l) as Hn.
  rewrite <- occurrences_pos in Hf. unfold occurrences in *. lia.
Qed.

Lemma occurrences_nonneg f l : 0 ≤ occurrences f l.
Proof. apply count_if_nonneg. Qed.

Lemma waits_nonneg adj f d : 0 ≤ waits adj f d.
Proof. apply count_if_nonneg. Qed.

Lemma total_ext h h' l : (∀ d, d ∈ l → h d = h' d) → total h l = total h' l.
Proof.
  induction l as [|d l IH]; simpl; intros Hh; [done|].
  rewrite (Hh d), IH by set_solver. done.
Qed.

Lemma total_point h h' d l :
  NoDup l → d ∈ l → (∀ e, e ≠ d → h e = h' e) → total h l - total h' l = h d - h' d.
Proof.
  intros Hnd Hd He. induction Hnd as [|e l Hel Hnd IH]; [set_solver|]. simpl.
  apply elem_of_cons in Hd as [->|Hd].
  - rewrite (total_ext h h' l); [lia|]. intros e' He'. apply He. set_solver.
  - rewrite (He e) by set_solver. specialize (IH Hd). lia.
Qed.

Lemma total_nonneg h l : (∀ d, 0 ≤ h d) → 0 ≤ total h l.
Proof. intros Hh. induction l as [|d l IH]; simpl; [done|]. specialize (Hh d). lia. Qed.

Lemma total_ge h l d : (∀ e, 0 ≤ h e) → d ∈ l → h d ≤ total h l.
Proof.
  intros Hh. induction l as [|e l IH]; simpl; [set_solver|].
  pose proof (total_nonneg h l Hh). specialize (Hh e).
  intros [->|Hd]%elem_of_cons; [lia|]. specialize (IH Hd). lia.
Qed.

Lemma total_zero h l : (∀ d, d ∈ l → h d = 0) → total h l = 0.
Proof.
  induction l as [|d l IH]; simpl; intros Hh; [done|]. rewrite (Hh d), IH by set_solver. done.
Qed.

(** *** The subgraph *)
Section subgraph.
Context `{!SetIter string} (g : FileDependencyGraph) (F : gset string).
Implicit Types st : gmap string Z * gmap string (list string).

(** In-degrees add up the waiting files, over the files of [F]. *)
Record counted (st : gmap string Z * gmap string (list string)) : Prop := {
  counted_dom : dom st.1 = F;
  counted_total : ∀ f, f ∈ F →
    st.1 !! f = Some (total (waits st.2 f) (elements F));
}.

Lemma waits_count_edge st file dep f d :
  waits (count_edge file dep st).2 f d =
  waits st.2 f d + (if decide (f = file ∧ d = dep) then 1 else 0).
Proof.
  destruct st as [deg adj]. unfold waits, count_edge, occurrences. simpl.
  destruct (decide (d = dep)) as [->|Hd].
  - rewrite lookup_insert_eq. simpl. rewrite count_if_app. simpl.
    destruct (decide (f = file)) as [->|Hf].
    + rewrite bool_decide_true, decide_True by done. lia.
    + rewrite bool_decide_false, decide_False by naive_solver. lia.
  - rewrite lookup_insert_ne by done. destruct (decide _); [tauto|lia].
Qed.

Lemma counted_count_edge st file dep :
  file ∈ F → dep ∈ F → counted st → counted (count_edge file dep st).
Proof.
  intros Hf Hd [Hdom Ht]. split.
  - destruct st as [deg adj]. simpl in *. set_solver.
  - intros f Hf'.
    assert (∀ e, e ≠ dep →
      waits (count_edge file dep st).2 f e = waits st.2 f e) as Hother.
    { intros e He. rewrite waits_count_edge. destruct (decide _); [tauto|lia]. }
    pose proof (total_point _ _ dep (elements F) (NoDup_elements F)
      ltac:(by apply elem_of_elements) Hother) as Hp.
    rewrite waits_count_edge in Hp. specialize (Ht f Hf').
    destruct st as [deg adj]. simpl in *. unfold count_edge. simpl.
    destruct (decide (f = file)) as [->|Hne].
    + rewrite lookup_insert_eq, Ht. simpl. f_equal. destruct (decide _); [lia|tauto].
    + rewrite lookup_insert_ne, Ht by done. f_equal. destruct (decide _); [tauto|lia].
Qed.

Lemma counted_count_edges st file :
  file ∈ F → counted st → counted (count_edges g F st file).
Proof.
  intros Hf. unfold count_edges. generalize (get_dependencies file g). intros deps.
  revert st. induction deps as [|dep deps IH]; intros st Hst; simpl; [done|].
  destruct (decide (dep ∈ F)); auto using counted_count_edge.
Qed.

Lemma elem_of_get_dependencies file dep :
  dep ∈ get_dependencies file g ↔ depends g file dep.
Proof.
  unfold get_dependencies, depends, values_at.
  destruct (forward_edges g !! file); simpl; [apply elem_of_set_iter | set_solver].
Qed.

Lemma waits_count_edges st file f d :
  0 < waits (count_edges g F st file).2 f d ↔
  0 < waits st.2 f d ∨ (f = file ∧ d ∈ F ∧ depends g file d).
Proof.
  rewrite <- elem_of_get_dependencies. unfold count_edges.
  generalize (get_dependencies file g). intros deps. revert st.
  induction deps as [|dep deps IH]; intros st; simpl; [set_solver|].
  rewrite IH, elem_of_cons. destruct (decide (dep ∈ F)) as [Hd|Hd].
  - rewrite waits_count_edge. pose proof (waits_nonneg st.2 f d).
    destruct (decide (f = file ∧ d = dep)) as [[-> ->]|]; [|intuition (try lia; tauto)].
    split; [|intros _; left; lia]. intros _. right. tauto.
  - intuition (subst; tauto).
Qed.
End subgraph.

Lemma subgraph_spec `{!SetIter string} (g : FileDependencyGraph) (files : list string) :
  counted (list_to_set files) (subgraph g files) ∧
  ∀ f d, 0 < waits (subgraph g files).2 f d ↔ depends_in files g f d.
Proof.
  unfold subgraph, depends_in. set (F := list_to_set files : gset string).
  set (st0 := foldl _ (∅, ∅) files).
  assert (dom st0.1 = F ∧ (∀ f k, st0.1 !! f = Some k → k = 0) ∧
          ∀ f l, st0.2 !! f = Some l → l = []) as (Hdom & Hdeg & Hadj).
  { subst st0 F. induction files as [|x l IH] using rev_ind; simpl; [set_solver|].
    rewrite foldl_snoc. simpl. destruct IH as (IH1 & IH2 & IH3). split_and!.
    - rewrite dom_insert_L, IH1, list_to_set_app_L. set_solver.
    - intros f k. rewrite lookup_insert_Some. naive_solver.
    - intros f k. rewrite lookup_insert_Some. naive_solver. }
  assert (∀ f d, waits st0.2 f d = 0) as Hw.
  { intros f d. unfold waits. destruct (st0.2 !! d) eqn:E; [|done]. by rewrite (Hadj _ _ E). }
  assert (∀ done st, (∀ f, f ∈ done → f ∈ F) → counted F st →
    counted F (foldl (count_edges g F) st done) ∧
    ∀ f d, 0 < waits (foldl (count_edges g F) st done).2 f d ↔
           0 < waits st.2 f d ∨ (f ∈ done ∧ d ∈ F ∧ depends g f d)) as Hgen.
  { induction done as [|x l IH]; intros st Hl Hst; simpl; [set_solver|].
    destruct (IH (count_edges g F st x)) as [H1 H2];
      [set_solver | apply counted_count_edges; set_solver |].
    split; [done|]. intros f d. rewrite H2, waits_count_edges. set_solver. }
  destruct (Hgen files st0) as [H1 H2]; [set_solver| |].
  - split; [done|]. intros f Hf. rewrite total_zero by auto.
    rewrite <- Hdom in Hf. apply elem_of_dom in Hf as [k Hk]. by rewrite Hk, (Hdeg _ _ Hk).
  - split; [done|]. intros f d. rewrite H2, Hw. subst F. rewrite elem_of_list_to_set. intuition lia.
Qed.

(** *** The loop *)

Lemma occurrences_cons f n l :
  occurrences f (n :: l) = (if decide (n = f) then 1 else 0) + occurrences f l.
Proof. unfold occurrences. simpl. by case_bool_decide; destruct (decide _). Qed.

(** Releasing a list of files subtracts their occurrences and enqueues those
    that wait for nothing any more. *)
Lemma release_spec ns deg q :
  (∀ f k, deg !! f = Some k → occurrences f ns ≤ k) →
  (∀ f, f ∈ ns → is_Some (deg !! f)) →
  ∃ freed deg',
    foldl release (deg, q) ns = (deg', q ++ freed) ∧ NoDup freed ∧
    (∀ f, deg' !! f = (λ k, k - occurrences f ns) <$> deg !! f) ∧
    (∀ f, f ∈ freed ↔ f ∈ ns ∧ deg !! f = Some (occurrences f ns)).
Proof.
  revert deg q. induction ns as [|n ns IH]; intros deg q Hle Hin.
  { exists [], deg. rewrite app_nil_r. split_and!; [done|constructor| |set_solver].
    intros f. destruct (deg !! f); simpl; [f_equal; unfold occurrences; simpl; lia|done]. }
  destruct (Hin n) as [k Hk]; [set_solver|].
  pose proof (Hle n k Hk) as Hkn. rewrite occurrences_cons, decide_True in Hkn by done.
  assert (Ho : ∀ f, occurrences f ns ≤ occurrences f (n :: ns))
    by (intros f; rewrite occurrences_cons; destruct (decide _); lia).
  simpl. rewrite Hk.
  destruct (IH (<[n := k - 1]> deg) (if k - 1 =? 0 then q ++ [n] else q))
    as (freed & deg' & -> & Hnd & Hdeg & Hfreed).
  - intros f j. rewrite lookup_insert_Some. intros [[<- <-]|[_ Hj]]; [lia|].
    specialize (Hle f j Hj). specialize (Ho f). lia.
  - intros f Hf. rewrite lookup_insert_is_Some'. right. apply Hin. set_solver.
  - assert (Hdeg' : ∀ f, deg' !! f = (λ k, k - occurrences f (n :: ns)) <$> deg !! f).
    { intros f. rewrite Hdeg, occurrences_cons. destruct (decide (n = f)) as [<-|Hne].
      - rewrite lookup_insert_eq, Hk. simpl. f_equal. lia.
      - by rewrite lookup_insert_ne. }
    destruct (Z.eqb_spec (k - 1) 0) as [H0|H0].
    + exists (n :: freed), deg'. split_and!; [by rewrite <- app_assoc| |done|].
      * constructor; [|done]. rewrite Hfreed. intros [Hn%occurrences_pos _].
        lia.
      * intros f. rewrite elem_of_cons, Hfreed, elem_of_cons, occurrences_cons.
        destruct (decide (n = f)) as [<-|Hne].
        { rewrite Hk. split; [intros _|naive_solver]. split; [by left|].
          pose proof (occurrences_nonneg n ns). f_equal. lia. }
        rewrite lookup_insert_ne by done. naive_solver.
    + exists freed, deg'. split_and!; [done..|].
      intros f. rewrite Hfreed, elem_of_cons, occurrences_cons.
      destruct (decide (n = f)) as [<-|Hne].
      * rewrite lookup_insert_eq, Hk. split.
        { intros [Hn [= He]]. split; [by right|]. f_equal. lia. }
        intros [_ [= He]]. split; [|f_equal; lia]. apply occurrences_pos.
        pose proof (occurrences_nonneg n ns). lia.
      * rewrite lookup_insert_ne by done. naive_solver.
Qed.

Section kahn.
Context (F : gset string) (adj : gmap string (list string)).

Definition pending (out : list string) (f : string) : Z :=
  total (λ d, if decide (d ∈ out) then 0 else waits adj f d) (elements F).

(** Every file of the list waits only for files before it. *)
Definition in_order (l : list string) : Prop :=
  ∀ l1 f l2, l = l1 ++ f :: l2 → ∀ d, 0 < waits adj f d → d ∈ l1.

Record kahn_inv (queue : list string) (deg : gmap string Z) (out : list string) : Prop := {
  kahn_nodup : NoDup (out ++ queue);
  kahn_in : ∀ f, f ∈ out ++ queue → f ∈ F;
  kahn_dom : dom deg = F;
  kahn_deg : ∀ f, f ∈ F → deg !! f = Some (pending out f);
  kahn_ready : ∀ f, f ∈ F → (f ∈ out ++ queue ↔ pending out f = 0);
  kahn_order : in_order (out ++ queue);
}.

Hypothesis adj_in : ∀ f d, 0 < waits adj f d → f ∈ F ∧ d ∈ F.

Lemma pending_zero out f :
  pending out f = 0 ↔ ∀ d, 0 < waits adj f d → d ∈ out.
Proof.
  unfold pending. split.
  - intros H0 d Hd. destruct (decide (d ∈ out)) as [|Hn]; [done|]. exfalso.
    pose proof (total_ge (λ d, if decide (d ∈ out) then 0 else waits adj f d) (elements F) d) as Hge.
    simpl in Hge. rewrite (decide_False (P := d ∈ out)) in Hge by done.
    assert (waits adj f d ≤ 0); [|lia]. rewrite <- H0. apply Hge.
    + intros e. pose proof (waits_nonneg adj f e). by destruct (decide _).
    + apply elem_of_elements. by apply (adj_in f d).
  - intros H. apply total_zero. intros d _. destruct (decide _) as [|Hn]; [done|].
    pose proof (waits_nonneg adj f d). destruct (decide (0 < waits adj f d)); [naive_solver|lia].
Qed.

Lemma pending_snoc out f node :
  node ∈ F → node ∉ out → pending (out ++ [node]) f = pending out f - waits adj f node.
Proof.
  intros Hin Hout. unfold pending.
  match goal with |- total ?h _ = total ?h' _ - _ =>
    pose proof (total_point h' h node (elements F) (NoDup_elements F)) as Hp end.
  simpl in Hp. rewrite (decide_False (P := node ∈ out)), decide_True in Hp by set_solver.
  enough (total (λ d, if decide (d ∈ out) then 0 else waits adj f d) (elements F) -
    total (λ d, if decide (d ∈ out ++ [node]) then 0 else waits adj f d) (elements F) =
    waits adj f node - 0) by lia.
  apply Hp; [by apply elem_of_elements|]. intros e He.
  destruct (decide (e ∈ out)), (decide (e ∈ out ++ [node])); set_solver.
Qed.

Lemma kahn_step node queue deg out :
  kahn_inv (node :: queue) deg out →
  ∃ deg' freed,
    foldl release (deg, queue) (default [] (adj !! node)) = (deg', queue ++ freed) ∧
    kahn_inv (queue ++ freed) deg' (out ++ [node]).
Proof.
  intros [Hnd Hin Hdom Hdeg Hready Hord].
  assert (Hnode : node ∈ F) by (apply Hin; set_solver).
  assert (Hnout : node ∉ out).
  { apply NoDup_app in Hnd as (_ & Hd & _). intros Ho. apply (Hd _ Ho). by left. }
  assert (Happ : ∀ f : list string, (out ++ [node]) ++ queue ++ f = (out ++ node :: queue) ++ f)
    by (intros f; by rewrite <- !app_assoc).
  destruct (release_spec (default [] (adj !! node)) deg queue) as (freed & deg' & -> & Hndf & Hdeg' & Hfreed).
  - intros f k Hk. rewrite Hdeg in Hk by (rewrite <- Hdom; by eapply elem_of_dom_2).
    injection Hk as <-. change (occurrences f (default [] (adj !! node))) with (waits adj f node).
    pose proof (total_ge (λ d, if decide (d ∈ out) then 0 else waits adj f d) (elements F) node) as Hge.
    simpl in Hge. rewrite (decide_False (P := node ∈ out)) in Hge by done. apply Hge.
    + intros e. pose proof (waits_nonneg adj f e). by destruct (decide _).
    + by apply elem_of_elements.
  - intros f Hf. apply elem_of_dom. rewrite Hdom. apply (adj_in f node). by apply occurrences_pos.
  - assert (Hfreed' : ∀ f, f ∈ freed ↔ 0 < waits adj f node ∧ pending (out ++ [node]) f = 0).
    { intros f. rewrite Hfreed, <- occurrences_pos.
      change (occurrences f (default [] (adj !! node))) with (waits adj f node).
      split; intros [Hw Hp]; (split; [done|]); destruct (adj_in f node Hw) as [HfF _].
      - rewrite Hdeg in Hp by done. injection Hp. rewrite pending_snoc by done. lia.
      - rewrite Hdeg by done. rewrite pending_snoc in Hp by done. f_equal. lia. }
    assert (Hold : ∀ f, f ∈ freed → f ∉ out ++ node :: queue).
    { intros f [Hw _]%Hfreed' Hf. apply (Hready f) in Hf; [|by apply (adj_in f node)].
      rewrite pending_zero in Hf. naive_solver. }
    exists deg', freed. split; [done|]. split.
    + rewrite Happ. apply NoDup_app. split_and!; [done| |done]. intros f Hf Hf'. by apply (Hold f).
    + intros f. rewrite Happ, elem_of_app. intros [Hf|Hf]; [by apply Hin|].
      apply Hfreed' in Hf as [Hw _]. by apply (adj_in f node).
    + apply set_eq. intros f. rewrite <- Hdom, !elem_of_dom, Hdeg', fmap_is_Some. done.
    + intros f Hf. rewrite Hdeg', Hdeg, pending_snoc by done. done.
    + intros f Hf. rewrite Happ, elem_of_app, Hready, Hfreed', pending_snoc by done.
      pose proof (waits_nonneg adj f node). pose proof (Hready f Hf).
      destruct (decide (waits adj f node = 0)) as [->|Hne]; [split; [|left]; lia|].
      split; [intros [Hp|Hp]; [|lia]|right; lia].
      rewrite pending_zero in Hp. exfalso. apply Hnout, Hp. lia.
    + rewrite Happ. intros l1 f l2 Hl d Hd.
      apply app_eq_inv in Hl as [(k & Hl & Hk)|(k & -> & Hk)].
      * destruct k as [|f' k]; simplify_eq/=; [|by apply (Hord l1 f' k)].
        rewrite app_nil_r in Hl. subst l1.
        assert (f ∈ f :: l2) as [_ Hf]%Hfreed' by set_solver.
        rewrite pending_zero in Hf. specialize (Hf d Hd). set_solver.
      * assert (f ∈ freed) as [_ Hf]%Hfreed' by (rewrite Hk; set_solver).
        rewrite pending_zero in Hf. specialize (Hf d Hd). set_solver.
Qed.

Lemma kahn_spec fuel queue deg out :
  kahn_inv queue deg out → (size F < fuel + length out)%nat →
  ∃ res deg', kahn fuel adj queue deg out = Some res ∧ kahn_inv [] deg' res.
Proof.
  revert queue deg out. induction fuel as [|fuel IH]; intros queue deg out Hinv Hfuel.
  - destruct Hinv. exfalso. apply NoDup_app in kahn_nodup0 as (Hnd & _ & _).
    assert (length out ≤ size F)%nat; [|lia].
    rewrite <- (size_list_to_set (C := gset string) out Hnd). apply subseteq_size. set_solver.
  - destruct queue as [|node queue]; [by eauto|]. simpl.
    destruct (kahn_step _ _ _ _ Hinv) as (deg' & freed & -> & Hinv').
    apply (IH _ _ _ Hinv'). rewrite length_app. simpl. lia.
Qed.
End kahn.

(** *** Acyclic relations *)

Definition acyclic (R : relation string) : Prop := ∀ x, ¬ tc R x x.

Lemma sn_irreflexive (R : relation string) x : sn R x → ¬ tc R x x.
Proof.
  induction 1 as [x _ IH]. intros Hx.
  assert (∃ y, R x y ∧ rtc R y x) as (y & Hxy & Hyx).
  { inversion Hx; subst; [exists x | eexists]; split; eauto using rtc_refl, tc_rtc. }
  apply (IH y Hxy). by eapply tc_rtc_l, tc_once.
Qed.

Lemma acyclic_sn (R : relation string) (l : list string) x :
  (∀ y z, R y z → z ∈ l) → acyclic R → sn R x.
Proof.
  intros Hl Ha. apply tc_finite_sn; [exact Ha|]. exists l. intros y Hy.
  induction Hy; eauto.
Qed.

(** A list in which the successors of an element come before it. *)
Lemma ordered_sn (R : relation string) (l : list string) :
  (∀ l1 f l2, l = l1 ++ f :: l2 → ∀ d, R f d → d ∈ l1) → ∀ f, f ∈ l → sn R f.
Proof.
  induction l as [|x l IH] using rev_ind; intros Hl f Hf; [set_solver|].
  assert (∀ f, f ∈ l → sn R f) as IH'.
  { apply IH. intros l1 f' l2 -> d Hd. apply (Hl l1 f' (l2 ++ [x])); [|done].
    by rewrite <- app_assoc. }
  apply elem_of_app in Hf as [Hf|Hf%list_elem_of_singleton]; [by apply IH'|]. subst f.
  constructor. intros d Hd. apply IH'. by apply (Hl l x []).
Qed.

(** *** What the sort returns *)
Section sorting.
Context `{!SetIter string}.
Implicit Types g : FileDependencyGraph.

Lemma ready_spec (deg : gmap string Z) :
  NoDup (ready deg) ∧ ∀ f, f ∈ ready deg ↔ deg !! f = Some 0.
Proof.
  unfold ready. split.
  - apply NoDup_ListNoDup, List.NoDup_filter, NoDup_ListNoDup, NoDup_set_iter.
  - intros f. rewrite list_elem_of_In, filter_In, <- list_elem_of_In, elem_of_set_iter.
    rewrite bool_decide_eq_true, elem_of_dom. split; [tauto|]. intros ->. eauto.
Qed.

Lemma kahn_init g files :
  kahn_inv (list_to_set files) (subgraph g files).2 (ready (subgraph g files).1)
    (subgraph g files).1 [].
Proof.
  destruct (subgraph_spec g files) as [[Hdom Htot] Hw].
  remember (subgraph g files) as st eqn:Est. clear Est. destruct st as [deg adj]. simpl in *.
  destruct (ready_spec deg) as [Hnd Hr].
  assert (HF : ∀ f, f ∈ ready deg → f ∈ (list_to_set files : gset string)).
  { intros f Hf%Hr. rewrite <- Hdom. by eapply elem_of_dom_2. }
  split; simpl; [done|done|done| | |].
  - intros f Hf. by rewrite Htot.
  - intros f Hf. rewrite Hr, Htot by done.
    split; [intros [= Hp]; exact Hp | intros Hp; f_equal; exact Hp].
  - intros l1 f l2 Hl d Hd. exfalso.
    assert (f ∈ ready deg) as Hf by (rewrite Hl; set_solver).
    pose proof (HF f Hf) as HfF. apply Hr in Hf. rewrite Htot in Hf by done. injection Hf as Hf.
    pose proof (total_ge (waits adj f) (elements (list_to_set files : gset string)) d
      (waits_nonneg _ f)) as Hge.
    assert (Hel : d ∈ elements (list_to_set files : gset string)).
    { apply Hw in Hd. unfold depends_in in Hd. set_solver. }
    specialize (Hge Hel). lia.
Qed.

Lemma size_list_to_set_le (l : list string) :
  (size (list_to_set l : gset string) ≤ length l)%nat.
Proof.
  induction l as [|x l IH]; [done|].
  rewrite list_to_set_cons, size_union_alt, size_singleton.
  pose proof (subseteq_size (list_to_set l ∖ {[x]} : gset string) (list_to_set l) ltac:(set_solver)).
  cbn [length]. lia.
Qed.

Lemma topological_sort_result g files :
  ∃ res, topological_sort files g =
      Some (if bool_decide (length res = length files) then Ok res
            else Err (CycleDetected (cycle_message files res))) ∧
    NoDup res ∧ (∀ f, f ∈ res → f ∈ files) ∧
    (∀ f, f ∈ files → f ∈ res ↔ ∀ d, depends_in files g f d → d ∈ res) ∧
    (∀ l1 f l2, res = l1 ++ f :: l2 → ∀ d, depends_in files g f d → d ∈ l1).
Proof.
  destruct (subgraph_spec g files) as [_ Hw].
  assert (Hin : ∀ f d, 0 < waits (subgraph g files).2 f d →
    f ∈ (list_to_set files : gset string) ∧ d ∈ (list_to_set files : gset string)).
  { intros f d Hd%Hw. unfold depends_in in Hd. set_solver. }
  destruct (kahn_spec (list_to_set files) (subgraph g files).2 Hin (S (length files))
    _ _ _ (kahn_init g files)) as (res & deg' & Hk & [Hnd HF _ _ Hready Hord]).
  { pose proof (size_list_to_set_le files). simpl. lia. }
  rewrite app_nil_r in *. exists (if files then [] else res). destruct files as [|file files'].
  { split_and!; [done|constructor|set_solver|set_solver|]. by intros [] ? ? ?. }
  unfold topological_sort. destruct (subgraph g (file :: files')) as [deg adj] eqn:E. simpl in *.
  rewrite Hk. split_and!; [done|done| | |].
  - intros f Hf%HF. set_solver.
  - intros f Hf. rewrite (Hready f) by set_solver.
    rewrite (pending_zero (list_to_set (file :: files')) adj Hin). by setoid_rewrite Hw.
  - intros l1 f l2 Hl d Hd. apply (Hord l1 f l2 Hl). by apply Hw.
Qed.
End sorting.

(** ** Theorems *)

Section facts.
Context `{!SetIter string}.
Implicit Types g : FileDependencyGraph.

(** The sort places every file exactly when nothing prevents an order. *)
Lemma sort_complete_iff g files res :
  NoDup res → (∀ f, f ∈ res → f ∈ files) →
  (∀ f, f ∈ files → f ∈ res ↔ ∀ d, depends_in files g f d → d ∈ res) →
  (∀ l1 f l2, res = l1 ++ f :: l2 → ∀ d, depends_in files g f d → d ∈ l1) →
  length res = length files ↔ NoDup files ∧ acyclic (depends_in files g).
Proof.
  intros Hnd Hin Hready Hord. split.
  - intros Hlen. assert (res ≡ₚ files) as Hperm.
    { apply submseteq_length_Permutation; [|lia]. apply NoDup_submseteq; [done|exact Hin]. }
    split; [by rewrite <- Hperm|]. intros x Hx. apply (sn_irreflexive (depends_in files g) x); [|done].
    apply (ordered_sn (depends_in files g) res Hord). rewrite Hperm.
    inversion Hx as [? ? [? _]|? ? ? [? _]]; done.
  - intros [Hndf Hac]. apply Permutation_length, NoDup_Permutation; [done..|].
    intros f. split; [apply Hin|]. intros Hf.
    assert (sn (depends_in files g) f) as Hsn.
    { apply (acyclic_sn (depends_in files g) files); [|done]. by intros y z (_ & ? & _). }
    induction Hsn as [f _ IH]. apply Hready; [done|]. intros d Hd.
    apply IH; [done|]. by destruct Hd as (_ & ? & _).
Qed.
End facts.

(** C38. The sort of a set of files always ends. It returns an order exactly when
    no file is listed twice and the dependencies among the listed files have no
    cycle; the order has the listed files, each after the listed files it
    depends on. Otherwise the error is the one for cycles, and the sort with
    fallback returns the files in the order of their paths. *)
Theorem processing_order `{!SetIter string} (files : list string) (g : FileDependencyGraph) :
  ∃ r, topological_sort files g = Some r ∧
    (is_ok r = true ↔ NoDup files ∧ acyclic (depends_in files g)) ∧
    match r with
    | Ok order =>
        order ≡ₚ files ∧ topological_sort_with_fallback files g = Some order ∧
        ∀ l1 f l2, order = l1 ++ f :: l2 → ∀ d, depends_in files g f d → d ∈ l1
    | Err e =>
        (∃ msg, e = CycleDetected msg) ∧
        ∃ sorted, topological_sort_with_fallback files g = Some sorted ∧
          sorted ≡ₚ files ∧ StronglySorted String.le sorted
    end.
Proof.
  destruct (topological_sort_result g files) as (res & Hsort & Hnd & Hin & Hready & Hord).
  unfold topological_sort_with_fallback. rewrite Hsort.
  eexists; split; [reflexivity|]. case_bool_decide as Hlen; simpl.
  - assert (res ≡ₚ files) as Hperm.
    { apply submseteq_length_Permutation; [|lia]. apply NoDup_submseteq; [done|exact Hin]. }
    split_and!; [|done..]. split; [|done]. intros _. by apply (sort_complete_iff g files res).
  - split_and!; [|by eauto|].
    + split; [done|]. intros Hac. exfalso. apply Hlen. by apply (sort_complete_iff g files res).
    + exists (merge_sort String.le files). split_and!; [done|apply merge_sort_Permutation|].
      apply (StronglySorted_merge_sort String.le).
Qed.

#[local] Instance demo_iter : SetIter string := elements_iter.

(** The orders of the example graph. *)
Example demo_sorted : topological_sort ["c"; "b"; "a"] demo = Some (Ok ["a"; "b"; "c"]).
Proof. vm_compute. reflexivity. Qed.

Example duplicate_is_a_cycle :
  topological_sort ["a"; "a"] demo = Some (Err (CycleDetected "Files involved in cycle: ")).
Proof. vm_compute. reflexivity. Qed.

End GraphSort.
