(* ===== verification/GraphSearch.v ===== *)
(** * Traversals of the file dependency graph

    Correctness of the breadth-first collection of transitive dependents and of
    the two depth-first searches for cycles of [DependencyGraph]. *)

From S2P Require Import Prelude MultiMap DependencyGraph GraphSort.
From stdpp Require Import fin_sets.
From Stdlib Require Import ZArith Lia.
#[local] Open Scope Z_scope.

Module GraphSearch.
Import Graph GraphSort.

(** ** Breadth-first traversal *)

Lemma enqueue_new_spec depth deps visited queue :
  ∃ fresh, foldl (enqueue_new depth) (visited, queue) deps =
      (visited ∪ list_to_set deps, queue ++ map (λ x, (x, depth)) fresh) ∧
    NoDup fresh ∧ ∀ x, x ∈ fresh ↔ x ∈ deps ∧ x ∉ visited.
Proof.
  revert visited queue. induction deps as [|dep deps IH]; intros visited queue; simpl.
  - exists []. rewrite app_nil_r. split_and!; [f_equal; set_solver|constructor|set_solver].
  - destruct (decide (dep ∈ visited)) as [Hd|Hd].
    + destruct (IH visited queue) as (fresh & -> & Hnd & Hf). exists fresh.
      split_and!; [f_equal; set_solver|done|set_solver].
    + destruct (IH ({[dep]} ∪ visited) (queue ++ [(dep, depth)])) as (fresh & -> & Hnd & Hf).
      exists (dep :: fresh). split_and!.
      * rewrite <- app_assoc. f_equal; set_solver.
      * constructor; [rewrite Hf; set_solver|done].
      * intros x. rewrite elem_of_cons, Hf. destruct (decide (x = dep)); set_solver.
Qed.

Section traversal.
Context (next : string → list string) (N : gset string) (file : string) (max_depth : nat).
Hypothesis next_in : ∀ x z, z ∈ next x → z ∈ N.

Definition edge (x z : string) : Prop := z ∈ next x.
Definition within (d : nat) : Prop := max_depth = 0%nat ∨ (d ≤ max_depth)%nat.

(** [P] are the pairs taken from the queue so far; the queue holds files of
    depth [k], then files of depth [k + 1]. *)
Record bfs_inv (P : list (string * nat)) (k : nat) (a b : list string)
    (visited found : gset string) : Prop := {
  bfs_nodup : NoDup (P.*1 ++ a ++ b);
  bfs_visited : visited = list_to_set (P.*1 ++ a ++ b);
  bfs_in : ∀ x, x ∈ visited → x ∈ N;
  bfs_popped : ∀ x d, (x, d) ∈ P → (1 ≤ d ≤ k)%nat ∧ nsteps edge d file x;
  bfs_queued : (1 ≤ k)%nat ∧ (∀ x, x ∈ a → nsteps edge k file x) ∧
               ∀ x, x ∈ b → nsteps edge (S k) file x;
  bfs_first : ∀ z, edge file z → (z, 1%nat) ∈ P ∨ (z ∈ a ∧ k = 1%nat);
  bfs_closed : ∀ x d z, (x, d) ∈ P → within d → edge x z →
    (∃ d', (z, d') ∈ P ∧ (d' ≤ S d)%nat) ∨ (z ∈ a ∧ (k ≤ S d)%nat) ∨ (z ∈ b ∧ (k ≤ d)%nat);
  bfs_found : ∀ x, x ∈ found ↔ ∃ d, (x, d) ∈ P ∧ within d;
}.

Abbreviation queue_of k a b := (map (λ x, (x, k)) a ++ map (λ x, (x, S k)) b).

Lemma bfs_turn P k b visited found :
  bfs_inv P k [] b visited found → bfs_inv P (S k) b [] visited found.
Proof.
  intros [Hnd Hv Hin Hp Hq Hf Hc Hd]. split; rewrite ?app_nil_r in *; try done.
  - intros x d Hx. destruct (Hp x d Hx). split; [lia|done].
  - split_and!; [lia|naive_solver|set_solver].
  - intros z Hz. destruct (Hf z Hz) as [|[? _]]; [by left|set_solver].
  - intros x d z Hx Hw Hz. destruct (Hc x d z Hx Hw Hz) as [|[[? _]|[? ?]]];
      [by left|set_solver|right; left; split; [done|lia]].
Qed.

Lemma bfs_skip P k x a b visited found :
  bfs_inv P k (x :: a) b visited found → ¬ within k →
  bfs_inv (P ++ [(x, k)]) k a b visited found.
Proof.
  intros [Hnd Hv Hin Hp (Hk & Ha & Hb) Hf Hc Hd] Hw.
  assert (Happ : (P ++ [(x, k)]).*1 ++ a ++ b = P.*1 ++ (x :: a) ++ b)
    by (rewrite fmap_app, <- app_assoc; done).
  split; rewrite ?Happ; try done.
  - intros y d [Hy|[= -> ->]%list_elem_of_singleton]%elem_of_app; [by apply Hp|].
    split; [lia|]. apply Ha. by left.
  - split_and!; [done|set_solver|done].
  - intros z Hz. destruct (Hf z Hz) as [|[[->|?]%elem_of_cons ->]]; set_solver.
  - intros y d z [Hy|[= -> ->]%list_elem_of_singleton]%elem_of_app Hwd Hz; [|done].
    destruct (Hc y d z Hy Hwd Hz) as [(d' & ? & ?)|[[[->|?]%elem_of_cons ?]|?]]; [| |by auto|by auto].
    + left. exists d'. set_solver.
    + left. exists k. set_solver.
  - intros y. rewrite Hd. split; [set_solver|].
    intros (d & [Hy|[= -> ->]%list_elem_of_singleton]%elem_of_app & Hwd); [eauto|done].
Qed.

Lemma bfs_visit P k x a b visited found fresh :
  bfs_inv P k (x :: a) b visited found → within k →
  NoDup fresh → (∀ z, z ∈ fresh ↔ z ∈ next x ∧ z ∉ visited) →
  bfs_inv (P ++ [(x, k)]) k a (b ++ fresh) (visited ∪ list_to_set (next x)) ({[x]} ∪ found).
Proof.
  intros [Hnd Hv Hin Hp (Hk & Ha & Hb) Hf Hc Hd] Hwk Hndf Hfresh.
  assert (Happ : (P ++ [(x, k)]).*1 ++ a ++ b ++ fresh = (P.*1 ++ (x :: a) ++ b) ++ fresh)
    by (rewrite fmap_app, <- !app_assoc; done).
  assert (Hx : nsteps edge k file x) by (apply Ha; by left).
  split; rewrite ?Happ.
  - apply NoDup_app. split_and!; [done| |done]. intros z Hz Hz'.
    apply Hfresh in Hz' as [_ Hz']. apply Hz'. rewrite Hv. by apply elem_of_list_to_set.
  - rewrite list_to_set_app_L, <- Hv. apply set_eq. intros z.
    rewrite !elem_of_union, !elem_of_list_to_set, Hfresh. destruct (decide (z ∈ visited)); tauto.
  - intros z [Hz|Hz%elem_of_list_to_set]%elem_of_union; [by apply Hin|by apply (next_in x)].
  - intros y d [Hy|[= -> ->]%list_elem_of_singleton]%elem_of_app; [by apply Hp|]. split; [lia|done].
  - split_and!; [done|set_solver|]. intros z [Hz|Hz]%elem_of_app; [by apply Hb|].
    apply Hfresh in Hz as [Hz _]. by eapply nsteps_r.
  - intros z Hz. destruct (Hf z Hz) as [|[[->|?]%elem_of_cons ->]]; set_solver.
  - intros y d z [Hy|[= -> ->]%list_elem_of_singleton]%elem_of_app Hwd Hz.
    + destruct (Hc y d z Hy Hwd Hz) as [(d' & ? & ?)|[[[->|?]%elem_of_cons ?]|[? ?]]].
      * left. exists d'. set_solver.
      * left. exists k. set_solver.
      * right; left. done.
      * right; right. set_solver.
    + destruct (decide (z ∈ visited)) as [Hzv|Hzv].
      * rewrite Hv, elem_of_list_to_set, !elem_of_app, elem_of_cons in Hzv.
        destruct Hzv as [([z' d'] & -> & Hz')%list_elem_of_fmap|[[->|Hz']|Hz']].
        { left. exists d'. simpl. destruct (Hp _ _ Hz'). split; [set_solver|lia]. }
        { left. exists k. split; [set_solver|lia]. }
        { right; left. split; [done|lia]. }
        { right; right. split; [set_solver|lia]. }
      * right; right. split; [|lia]. apply elem_of_app. right. by apply Hfresh.
  - intros y. rewrite elem_of_union, Hd, elem_of_singleton. split.
    + intros [->|(d & ? & ?)]; [exists k|exists d]; set_solver.
    + intros (d & [Hy|[= -> ->]%list_elem_of_singleton]%elem_of_app & Hwd); [eauto|by left].
Qed.

Lemma skip_iff k : ((0 <? max_depth)%nat && (max_depth <? k)%nat) = true ↔ ¬ within k.
Proof.
  unfold within. rewrite andb_true_iff, !Nat.ltb_lt. lia.
Qed.

Lemma bfs_inv_bound P k a b visited found :
  bfs_inv P k a b visited found → (length P + length a + length b ≤ size N)%nat.
Proof.
  intros Hinv. pose proof (bfs_nodup _ _ _ _ _ _ Hinv) as Hnd.
  apply (size_list_to_set (C := gset string)) in Hnd.
  rewrite <- (bfs_visited _ _ _ _ _ _ Hinv), !length_app, length_fmap in Hnd.
  rewrite <- Nat.add_assoc, <- Hnd. apply subseteq_size.
  intros x. by apply (bfs_in _ _ _ _ _ _ Hinv).
Qed.

Lemma bfs_spec fuel P k a b visited found :
  bfs_inv P k a b visited found → (size N < fuel + length P)%nat →
  ∃ out P' k' visited', bfs fuel next max_depth (queue_of k a b) visited found = Some out ∧
    bfs_inv P' k' [] [] visited' out.
Proof.
  revert P k a b visited found. induction fuel as [|fuel IH]; intros P k a b visited found Hinv Hfuel.
  { pose proof (bfs_inv_bound _ _ _ _ _ _ Hinv). lia. }
  assert (Hstep : ∀ P k x a b, bfs_inv P k (x :: a) b visited found → (size N < S fuel + length P)%nat →
    ∃ out P' k' visited', bfs (S fuel) next max_depth (queue_of k (x :: a) b) visited found = Some out ∧
    bfs_inv P' k' [] [] visited' out).
  { clear P k a b Hinv Hfuel. intros P k x a b Hinv Hfuel. simpl.
    destruct ((0 <? max_depth)%nat && (max_depth <? k)%nat) eqn:Hs.
    - apply (IH (P ++ [(x, k)])); [|rewrite length_app; simpl; lia].
      by apply bfs_skip; [|apply skip_iff].
    - assert (within k) as Hw.
      { destruct (decide (max_depth = 0%nat ∨ (k ≤ max_depth)%nat)) as [|Hn]; [done|].
        apply skip_iff in Hn. congruence. }
      destruct (enqueue_new_spec (S k) (next x) visited (queue_of k a b)) as (fresh & -> & Hnd & Hf).
      rewrite <- app_assoc, <- map_app.
      apply (IH (P ++ [(x, k)])); [|rewrite length_app; simpl; lia]. by apply bfs_visit. }
  destruct a as [|x a]; [|by apply (Hstep P)]. destruct b as [|x b].
  - exists found, P, k, visited. done.
  - apply bfs_turn in Hinv. specialize (Hstep P (S k) x b [] Hinv Hfuel).
    simpl map in *. by rewrite app_nil_r in Hstep.
Qed.

Lemma bfs_complete P k visited found n y :
  bfs_inv P k [] [] visited found → (1 ≤ n)%nat → within n → nsteps edge n file y →
  ∃ d, (y, d) ∈ P ∧ (d ≤ n)%nat.
Proof.
  intros Hinv Hn. revert y. destruct n as [|n]; [lia|]. clear Hn.
  induction n as [|n IH]; intros y Hw Hy.
  - apply nsteps_once_inv in Hy.
    destruct (bfs_first _ _ _ _ _ _ Hinv y Hy) as [|[? _]]; [eauto|set_solver].
  - apply nsteps_inv_r in Hy as (z & Hz & Hzy).
    destruct (IH z) as (d & Hd & Hle); [unfold within in *; lia|done|].
    destruct (bfs_closed _ _ _ _ _ _ Hinv z d y Hd) as [(d' & ? & ?)|[[? _]|[? _]]];
      [unfold within in *; lia|done| |set_solver|set_solver].
    exists d'. split; [done|lia].
Qed.

(** Breadth-first search finds the files at a distance within the limit. *)
Lemma bfs_reaches fuel fresh :
  (size N < fuel)%nat → NoDup fresh → (∀ z, z ∈ fresh ↔ edge file z) →
  ∃ out, bfs fuel next max_depth (map (λ x, (x, 1%nat)) fresh) (list_to_set fresh) ∅ = Some out ∧
    ∀ y, y ∈ out ↔ ∃ n, (1 ≤ n)%nat ∧ within n ∧ nsteps edge n file y.
Proof.
  intros Hfuel Hnd Hfresh.
  assert (Hinv : bfs_inv [] 1 fresh [] (list_to_set fresh) ∅).
  { split; simpl; rewrite ?app_nil_r; try done; try set_solver.
    split_and!; [lia| |set_solver]. intros x Hx%Hfresh. by apply nsteps_once. }
  destruct (bfs_spec fuel _ _ _ _ _ _ Hinv) as (out & P & k & visited & Hb & Hinv'); [simpl; lia|].
  simpl in Hb. rewrite app_nil_r in Hb. exists out. split; [done|]. intros y.
  rewrite (bfs_found _ _ _ _ _ _ Hinv'). split.
  - intros (d & Hd & Hw). destruct (bfs_popped _ _ _ _ _ _ Hinv' _ _ Hd) as [? ?].
    exists d. split; [lia|done].
  - intros (n & Hn & Hw & Hy).
    destruct (bfs_complete _ _ _ _ n y Hinv' Hn Hw Hy) as (d & Hd & Hle).
    exists d. split; [done|]. unfold within in *. lia.
Qed.
End traversal.

(** ** Depth-first searches *)
Section searches.
Context `{!SetIter string} (g : FileDependencyGraph).
Abbreviation R := (depends g).
Abbreviation N := (files_of g).

Lemma depends_in_files x y : R x y → x ∈ N ∧ y ∈ N.
Proof.
  unfold depends, files_of, endpoints, values_at. intros Hy.
  destruct (forward_edges g !! x) as [s|] eqn:E; [|set_solver]. simpl in Hy. split.
  - apply elem_of_union_l, elem_of_union_l. by eapply elem_of_dom_2.
  - apply elem_of_union_l, elem_of_union_r, elem_of_union_list. exists s. split; [|done].
    apply list_elem_of_fmap. exists (x, s). split; [done|]. by apply elem_of_map_to_list.
Qed.

(** What has been explored and left is well-founded. *)
Definition explored (visited stack : gset string) : Prop :=
  stack ⊆ visited ∧ ∀ x, x ∈ visited → x ∉ stack → sn R x.

(** What a visit promises: a cycle, or the file and all it entered explored. *)
Definition visited_ok (file : string) (visited stack : gset string)
    (o : option (bool * gset string * gset string)) : Prop :=
  ∃ r visited' stack', o = Some (r, visited', stack') ∧
    (r = true → ∃ x, tc R x x) ∧
    (r = false → stack' = stack ∧ visited ∪ {[file]} ⊆ visited' ∧ explored visited' stack).

Lemma explore_deps_spec visit file deps visited stack :
  (∀ dep visited', R file dep → visited ⊆ visited' → dep ∉ visited' → explored visited' stack →
     visited_ok dep visited' stack (visit dep visited' stack)) →
  (∀ x, x ∈ stack → rtc R x file) → (∀ d, d ∈ deps → R file d) → explored visited stack →
  ∃ r visited' stack', explore_deps visit deps visited stack = Some (r, visited', stack') ∧
    (r = true → ∃ x, tc R x x) ∧
    (r = false → stack' = stack ∧ visited ⊆ visited' ∧ explored visited' stack ∧
                 ∀ d, d ∈ deps → sn R d).
Proof.
  intros Hvisit Hpath. revert visited Hvisit.
  induction deps as [|dep deps IH]; intros V Hvisit Hdeps Hexp; simpl.
  { exists false, V, stack. split_and!; [done|done|]. intros _. split_and!; [done..|set_solver]. }
  assert (Hdep : R file dep) by (apply Hdeps; by left).
  destruct (decide (dep ∈ V)) as [Hv|Hv]; [destruct (decide (dep ∈ stack)) as [Hs|Hs]|].
  - exists true, V, stack. split_and!; [done| |done]. intros _. exists dep.
    eapply tc_rtc_l; [by apply Hpath|]. by apply tc_once.
  - destruct (IH V) as (r & V' & S' & -> & H1 & H2); [done|set_solver|done|].
    exists r, V', S'. split_and!; [done..|]. intros Hr. destruct (H2 Hr) as (-> & HV & He & Hd).
    split_and!; [done..|]. intros d [->|?]%elem_of_cons; [by apply Hexp|by apply Hd].
  - destruct (Hvisit dep V Hdep ltac:(done) Hv Hexp) as (r1 & V1 & S1 & -> & Hr1 & Hr2).
    destruct r1; [exists true, V1, S1; by split_and!|].
    destruct (Hr2 eq_refl) as (-> & HV1 & Hexp1).
    assert (HVV : V ⊆ V1) by (clear -HV1; set_solver).
    destruct (IH V1) as (r & V' & S' & -> & H1 & H2); [|set_solver|done|].
    { intros d V' Hd HV'. apply Hvisit; [done|by transitivity V1]. }
    exists r, V', S'. split_and!; [done..|]. intros Hr. destruct (H2 Hr) as (-> & HV & He & Hd).
    split_and!; [done|set_solver|done|]. intros d [->|?]%elem_of_cons; [|by apply Hd].
    apply Hexp1; [set_solver|]. intros Hs. by apply Hv, Hexp.
Qed.

Lemma has_cycle_dfs_spec fuel file visited stack :
  (size (N ∖ (visited ∪ {[file]})) < fuel)%nat → file ∉ stack →
  explored visited stack → (∀ x, x ∈ stack → rtc R x file) →
  visited_ok file visited stack (has_cycle_dfs fuel g file visited stack).
Proof.
  revert file visited stack.
  induction fuel as [|fuel IH]; intros file V S Hfuel HfS Hexp Hpath; [lia|].
  assert (Hpath' : ∀ x, x ∈ {[file]} ∪ S → rtc R x file).
  { intros x [->%elem_of_singleton|Hx]%elem_of_union; [done|by apply Hpath]. }
  destruct (explore_deps_spec (has_cycle_dfs fuel g) file (get_dependencies file g)
    ({[file]} ∪ V) ({[file]} ∪ S)) as (r & V' & S' & Hr & H1 & H2).
  - intros dep V1 Hdep HV1 Hn Hexp1. apply IH; [| |done|].
    + assert (Hin : dep ∈ N) by (by apply (depends_in_files file)).
      assert (size (N ∖ (V1 ∪ {[dep]})) < size (N ∖ (V ∪ {[file]})))%nat; [|lia].
      apply subset_size. split; [set_solver|]. intros Hsub. specialize (Hsub dep). set_solver.
    + intros Hs. by apply Hn, Hexp1.
    + intros x Hx. eapply rtc_r; [by apply Hpath'|done].
  - done.
  - intros d. apply elem_of_get_dependencies.
  - destruct Hexp as [He1 He2]. split; [set_solver|]. intros x Hx HxS. apply He2; set_solver.
  - unfold visited_ok. cbn [has_cycle_dfs]. rewrite Hr. destruct r.
    { exists true, V', S'. by split_and!. }
    destruct (H2 eq_refl) as (-> & HV & [He1 He2] & Hd). clear Hpath Hpath' IH H1 H2 Hr Hexp.
    exists false, V', (({[file]} ∪ S) ∖ {[file]}). split_and!; [done|done|]. intros _.
    split_and!; [set_solver|set_solver|]. split; [set_solver|]. intros x Hx HxS.
    destruct (decide (x = file)) as [->|Hne]; [|apply He2; set_solver].
    constructor. intros d Hd'. by apply Hd, elem_of_get_dependencies.
Qed.

Lemma has_cycle_from_spec fuel files visited :
  (size N < fuel)%nat → explored visited ∅ →
  ∃ r, has_cycle_from fuel g files visited ∅ = Some r ∧
    (r = true → ∃ x, tc R x x) ∧ (r = false → ∀ x, x ∈ files → sn R x).
Proof.
  intros Hfuel. revert visited. induction files as [|file files IH]; intros V Hexp; simpl.
  { exists false. split_and!; [done|done|set_solver]. }
  destruct (has_cycle_dfs_spec fuel file V ∅) as (r & V' & S' & -> & Hr1 & Hr2).
  - eapply Nat.le_lt_trans; [|exact Hfuel]. apply subseteq_size. set_solver.
  - set_solver.
  - done.
  - set_solver.
  - destruct r; [exists true; by split_and!|].
    destruct (Hr2 eq_refl) as (-> & HV & Hexp'). destruct (IH V' Hexp') as (r & -> & Hr3 & Hr4).
    exists r. split_and!; [done|done|]. intros Hr x [->|Hx]%elem_of_cons; [|by apply Hr4].
    apply Hexp'; set_solver.
Qed.

Lemma has_cycle_spec :
  ∃ r, has_cycle g = Some r ∧ (r = true ↔ ∃ x, tc R x x).
Proof.
  unfold has_cycle.
  destruct (has_cycle_from_spec (S (size N)) (get_all_files g) ∅) as (r & Hr & H1 & H2);
    [lia|by split; set_solver|].
  exists r. split; [done|]. split; [done|]. intros [x Hx]. destruct r; [done|]. exfalso.
  apply (sn_irreflexive R x); [|done]. apply H2; [done|]. apply elem_of_set_iter.
  assert (∃ y, R x y) as [y Hy] by (inversion Hx; eauto). by apply (depends_in_files x y).
Qed.

(** *** Cycles as lists *)

(** Every element depends on the next. *)
Definition linked (l : list string) : Prop :=
  ∀ l1 x y l2, l = l1 ++ x :: y :: l2 → R x y.

(** Distinct files, each depending on the next and the last on the first. *)
Definition is_cycle (c : list string) : Prop :=
  ∃ x l, c = x :: l ∧ NoDup c ∧ linked (c ++ [x]).

Lemma linked_suffix l1 l2 : linked (l1 ++ l2) → linked l2.
Proof. intros Hl k x y k' ->. apply (Hl (l1 ++ k) x y k'). by rewrite <- app_assoc. Qed.

Lemma linked_tc x l y : linked (x :: l ++ [y]) → tc R x y.
Proof.
  revert x. induction l as [|z l IH]; intros x Hl.
  - apply tc_once. by apply (Hl [] x y []).
  - eapply tc_l; [by apply (Hl [] x z (l ++ [y]))|]. apply IH. by apply (linked_suffix [x]).
Qed.

Lemma linked_snoc l x y : linked (l ++ [x]) → R x y → linked ((l ++ [x]) ++ [y]).
Proof.
  intros Hl Hxy l1 a b l2 Heq.
  destruct l2 as [|c l2 _] using rev_ind.
  - replace (l1 ++ [a; b]) with ((l1 ++ [a]) ++ [b]) in Heq by (by rewrite <- app_assoc).
    apply app_inj_tail in Heq as [Heq <-]. by apply app_inj_tail in Heq as [_ <-].
  - replace (l1 ++ a :: b :: l2 ++ [c]) with ((l1 ++ a :: b :: l2) ++ [c]) in Heq
      by (by rewrite <- app_assoc).
    apply app_inj_tail in Heq as [Heq _]. by apply (Hl l1 a b l2).
Qed.

(** What a visit promises: the cycles it adds are cycles, and without any the
    file and all it entered is well-founded. *)
Definition found_ok (visited : gset string) (cycles : list (list string)) (targets : list string)
    (o : option (gset string * list (list string))) : Prop :=
  ∃ visited' new_cycles, o = Some (visited', cycles ++ new_cycles) ∧
    visited ⊆ visited' ∧ Forall is_cycle new_cycles ∧
    (new_cycles = [] → (∀ x, x ∈ visited → sn R x) →
     (∀ d, d ∈ targets → sn R d) ∧ ∀ x, x ∈ visited' → sn R x).

Lemma find_in_deps_spec visit file deps visited cycles :
  (∀ dep visited cycles, R file dep → found_ok visited cycles [dep] (visit dep visited cycles)) →
  (∀ d, d ∈ deps → R file d) →
  found_ok visited cycles deps (find_in_deps visit deps visited cycles).
Proof.
  intros Hvisit. revert visited cycles.
  induction deps as [|dep deps IH]; intros V cycles Hdeps; simpl.
  - exists V, []. rewrite app_nil_r. split_and!; [done..|constructor|]. set_solver.
  - destruct (Hvisit dep V cycles) as (V1 & new1 & -> & HV1 & Hc1 & Hs1); [set_solver|].
    destruct (IH V1 (cycles ++ new1)) as (V2 & new2 & -> & HV2 & Hc2 & Hs2); [set_solver|].
    exists V2, (new1 ++ new2). rewrite <- app_assoc.
    split_and!; [done|set_solver|by apply Forall_app|].
    intros [-> ->]%app_nil HV. destruct (Hs1 eq_refl HV) as [Hd1 HV1'].
    destruct (Hs2 eq_refl HV1') as [Hd2 HV2']. split; [|done].
    intros d [->|?]%elem_of_cons; [apply Hd1; by left|by apply Hd2].
Qed.

(** A file met again on the path closes a cycle. *)
Lemma path_cycle file path i :
  file ∈ path → NoDup path → linked (path ++ [file]) →
  position (λ f, bool_decide (f = file)) path = i →
  ∃ n, i = Some n ∧ is_cycle (drop n path).
Proof.
  intros Hin Hnd Hlink <-.
  destruct (position (λ f, bool_decide (f = file)) path) as [i|] eqn:E.
  - apply position_Some in E as (l1 & x & l2 & -> & <- & ->%bool_decide_eq_true & _).
    exists (length l1). split; [done|]. rewrite drop_app_length.
    exists file, l2. split_and!; [done|by apply NoDup_app in Hnd as (_ & _ & ?)|].
    apply (linked_suffix l1). by rewrite app_assoc.
  - pose proof (position_None _ _ E file Hin) as Hf. by apply bool_decide_eq_false in Hf.
Qed.

Lemma find_cycles_dfs_spec fuel file visited path cycles :
  (size N < fuel + length path)%nat → NoDup path → (∀ x, x ∈ path → x ∈ N) →
  linked (path ++ [file]) →
  found_ok visited cycles [file] (find_cycles_dfs fuel g path file visited cycles).
Proof.
  revert file visited path cycles.
  induction fuel as [|fuel IH]; intros file V path cycles Hfuel Hnd Hin Hlink.
  { exfalso. pose proof (size_list_to_set (C := gset string) path Hnd) as Hs.
    pose proof (subseteq_size (list_to_set path : gset string) N ltac:(set_solver)). lia. }
  cbn [find_cycles_dfs]. destruct (decide (file ∈ path)) as [Hfp|Hfp].
  { destruct (path_cycle file path _ Hfp Hnd Hlink eq_refl) as (n & -> & Hc).
    exists V, [drop n path]. split_and!; [done|done|by apply Forall_singleton|done]. }
  destruct (decide (file ∈ V)) as [HV|HV].
  { exists V, []. rewrite app_nil_r. split_and!; [done|done|constructor|].
    intros _ HVs. split; [|done]. intros d ->%list_elem_of_singleton. by apply HVs. }
  destruct (find_in_deps_spec (find_cycles_dfs fuel g (path ++ [file])) file
    (get_dependencies file g) V cycles) as (V' & new & -> & HV' & Hc & Hs).
  - intros dep V1 cycles1 Hdep. apply IH; [rewrite length_app; simpl; lia| | |by apply linked_snoc].
    + apply NoDup_app. split_and!; [done|set_solver|apply NoDup_singleton].
    + intros x [Hx| ->%list_elem_of_singleton]%elem_of_app; [by apply Hin|].
      by apply (depends_in_files file dep).
  - intros d. apply elem_of_get_dependencies.
  - exists ({[file]} ∪ V'), new. split_and!; [done|set_solver|done|]. intros Hnew HVs.
    destruct (Hs Hnew HVs) as [Hd HVs'].
    assert (sn R file) as Hsn.
    { constructor. intros d Hd'. by apply Hd, elem_of_get_dependencies. }
    split; [by intros d ->%list_elem_of_singleton|].
    intros x [->%elem_of_singleton|Hx]%elem_of_union; [done|by apply HVs'].
Qed.

Lemma is_cycle_tc c : is_cycle c → ∃ x, tc R x x.
Proof. intros (x & l & -> & _ & Hl). exists x. by apply (linked_tc x l). Qed.

Lemma find_cycles_from_spec files visited cycles :
  ∃ new_cycles, find_cycles_from (S (size N)) g files visited cycles = Some (cycles ++ new_cycles) ∧
    Forall is_cycle new_cycles ∧
    (new_cycles = [] → (∀ x, x ∈ visited → sn R x) → ∀ x, x ∈ files → sn R x).
Proof.
  revert visited cycles. induction files as [|file files IH]; intros V cycles; cbn [find_cycles_from].
  { exists []. rewrite app_nil_r. split_and!; [done|constructor|set_solver]. }
  destruct (decide (file ∈ V)) as [HV|HV].
  - destruct (IH V cycles) as (new & -> & Hc & Hs). exists new. split_and!; [done..|].
    intros Hnew Hsn x [->|Hx]%elem_of_cons; auto.
  - destruct (find_cycles_dfs_spec (S (size N)) file V [] cycles) as (V1 & new1 & -> & HV1 & Hc1 & Hs1).
    + simpl. lia.
    + constructor.
    + set_solver.
    + intros [|? [|? ?]] ? ? ? ?; simplify_eq/=.
    + destruct (IH V1 (cycles ++ new1)) as (new2 & -> & Hc2 & Hs2).
      exists (new1 ++ new2). rewrite <- app_assoc. split_and!; [done|by apply Forall_app|].
      intros [-> ->]%app_nil Hsn. destruct (Hs1 eq_refl Hsn) as [Hf HV1'].
      intros x [->|Hx]%elem_of_cons; [apply Hf; by left|by apply Hs2].
Qed.

Lemma find_all_cycles_spec :
  ∃ cycles, find_all_cycles g = Some cycles ∧ Forall is_cycle cycles ∧
    (cycles = [] ↔ acyclic R).
Proof.
  unfold find_all_cycles.
  destruct (find_cycles_from_spec (get_all_files g) ∅ []) as (cycles & Hf & Hc & Hs).
  exists cycles. split_and!; [done|done|]. split.
  - intros Hnil x Hx. apply (sn_irreflexive R x); [|done].
    apply (Hs Hnil); [set_solver|]. apply elem_of_set_iter.
    assert (∃ y, R x y) as [y Hy] by (inversion Hx; eauto). by apply (depends_in_files x y).
  - intros Ha. destruct cycles as [|c cycles]; [done|].
    apply Forall_cons in Hc as [[x Hx]%is_cycle_tc _]. by destruct (Ha x).
Qed.
End searches.

(** ** Theorems *)

Section facts.
Context `{!SetIter string}.
Implicit Types g : FileDependencyGraph.

Lemma elem_of_get_dependents g file x :
  wf g → x ∈ get_dependents file g ↔ depends g x file.
Proof.
  intros Hg. unfold get_dependents, depends. rewrite (wf_mirror _ Hg). unfold values_at.
  destruct (reverse_edges g !! file); simpl; [apply elem_of_set_iter | set_solver].
Qed.

Lemma traverse_spec g next file max_depth :
  (∀ x z, z ∈ next x → z ∈ files_of g) →
  ∃ out, traverse next file max_depth g = Some out ∧
    ∀ y, y ∈ out ↔ ∃ n, (1 ≤ n)%nat ∧ within max_depth n ∧ nsteps (edge next) n file y.
Proof.
  intros Hin. unfold traverse.
  destruct (enqueue_new_spec 1 (next file) ∅ []) as (fresh & -> & Hf & Hfresh).
  replace (∅ ∪ list_to_set (next file)) with (list_to_set fresh : gset string) by set_solver.
  apply (bfs_reaches next (files_of g) file max_depth Hin); [lia|done|].
  intros z. rewrite Hfresh. unfold edge. set_solver.
Qed.

Lemma nsteps_flip (R R' : relation string) n x y :
  (∀ x y, R x y ↔ R' y x) → nsteps R n x y → nsteps R' n y x.
Proof.
  intros HR. induction 1 as [|n x y z Hxy _ IH]; [constructor|].
  eapply nsteps_r; [done|]. by apply HR.
Qed.

Lemma NoDup_filter_bool {A} (p : A → bool) (l : list A) : NoDup l → NoDup (List.filter p l).
Proof. rewrite !NoDup_ListNoDup. apply List.NoDup_filter. Qed.

Lemma dedup_NoDup (l : list string) : NoDup l → dedup l = l.
Proof.
  induction 1 as [|x l Hx Hl IH]; [done|]. destruct l as [|y l]; [done|].
  cbn [dedup] in *. rewrite decide_False by set_solver. by rewrite IH.
Qed.

Lemma sorted_list_spec (l : list string) :
  NoDup l → dedup (merge_sort String.le l) ≡ₚ l ∧
            StronglySorted String.le (dedup (merge_sort String.le l)).
Proof.
  intros Hl. rewrite dedup_NoDup by (by rewrite merge_sort_Permutation).
  split; [apply merge_sort_Permutation|]. apply (StronglySorted_merge_sort String.le).
Qed.

Lemma depends_in_all g x y : depends_in (get_all_files g) g x y ↔ depends g x y.
Proof.
  unfold depends_in, get_all_files. rewrite !elem_of_set_iter.
  split; [tauto|]. intros Hd. pose proof (depends_in_files g x y Hd). tauto.
Qed.

Lemma acyclic_all g : acyclic (depends_in (get_all_files g) g) ↔ acyclic (depends g).
Proof.
  split; intros Ha x Hx; apply (Ha x); revert Hx; apply (tc_congruence id);
    intros ? ?; apply depends_in_all.
Qed.
End facts.

(** The three detectors of cycles agree, and each of them ends: the
    depth-first test says yes, the enumeration returns a cycle and the sort of
    all files fails, if and only if some file depends on itself through others;
    and every list the enumeration returns is a cycle. *)
Theorem cycle_checks_agree `{!SetIter string} (g : FileDependencyGraph) :
  ∃ b cycles r, has_cycle g = Some b ∧ find_all_cycles g = Some cycles ∧
    topological_sort_all g = Some r ∧
    Forall (is_cycle g) cycles ∧
    (b = true ↔ ∃ x, tc (depends g) x x) ∧
    (b = true ↔ cycles ≠ []) ∧
    (b = true ↔ is_ok r = false).
Proof.
  destruct (has_cycle_spec g) as (b & Hb & Hcyc).
  destruct (find_all_cycles_spec g) as (cycles & Hf & Hall & Hnil).
  destruct (topological_sort_result g (get_all_files g)) as (res & Hsort & Hnd & Hin & Hready & Hord).
  exists b, cycles, (if bool_decide (length res = length (get_all_files g)) then Ok res
            else Err (CycleDetected (cycle_message (get_all_files g) res))).
  assert (Hb' : b = true ↔ ¬ acyclic (depends g)).
  { rewrite Hcyc. split; [intros [x Hx] Ha; by apply (Ha x)|]. rewrite <- Hnil.
    intros Hne. destruct cycles as [|c cycles]; [done|]. apply Forall_cons in Hall as [Hc _].
    by apply (is_cycle_tc g c). }
  split_and!; [done..| |].
  - by rewrite Hb', Hnil.
  - rewrite Hb'. rewrite <- acyclic_all.
    pose proof (sort_complete_iff g _ res Hnd Hin Hready Hord) as Hlen.
    pose proof (NoDup_set_iter (files_of g)) as Hnda. fold (get_all_files g) in Hnda.
    case_bool_decide; simpl; intuition congruence.
Qed.

(** The impact of a change lists, in the order of the paths and without
    repetition, the files that depend on the changed file directly, and apart
    from them those that do so through others, over at most [max_depth] steps
    (0 is no limit). The traversal always ends. *)
Theorem impact_partitions_dependents `{!SetIter string} (file : string) (max_depth : nat)
    (g : FileDependencyGraph) :
  wf g →
  ∃ r, impact_of file max_depth g = Some r ∧ changed r = file ∧
    NoDup (direct_dependents r ++ indirect_dependents r) ∧
    StronglySorted String.le (direct_dependents r) ∧
    StronglySorted String.le (indirect_dependents r) ∧
    (∀ x, x ∈ direct_dependents r ↔ depends g x file) ∧
    (∀ x, x ∈ indirect_dependents r ↔ ¬ depends g x file ∧
       ∃ n, (2 ≤ n)%nat ∧ within max_depth n ∧ nsteps (depends g) n x file).
Proof.
  intros Hg. unfold impact_of, collect_transitive_dependents.
  assert (Hedge : ∀ x y, edge (λ f, get_dependents f g) x y ↔ depends g y x).
  { intros x y. unfold edge. by apply elem_of_get_dependents. }
  destruct (traverse_spec g (λ f, get_dependents f g) file max_depth) as (out & -> & Hout).
  { intros x z Hz. apply (depends_in_files g z x), elem_of_get_dependents, Hz; done. }
  simpl. set (direct := set_iter (list_to_set (get_dependents file g))).
  set (indirect := List.filter _ (set_iter out)).
  assert (Hd : ∀ x, x ∈ direct ↔ depends g x file).
  { intros x. unfold direct. rewrite elem_of_set_iter, elem_of_list_to_set.
    by apply elem_of_get_dependents. }
  assert (Hi : ∀ x, x ∈ indirect ↔ ¬ depends g x file ∧
    ∃ n, (2 ≤ n)%nat ∧ within max_depth n ∧ nsteps (depends g) n x file).
  { intros x. unfold indirect. rewrite list_elem_of_In, filter_In, <- list_elem_of_In.
    rewrite elem_of_set_iter, Hout, negb_true_iff, bool_decide_eq_false, elem_of_list_to_set,
      elem_of_get_dependents by done. unfold within.
    split.
    - intros [(n & Hn & Hw & Hs) Hnd]. split; [done|]. exists n.
      apply (nsteps_flip _ (depends g)) in Hs; [|done]. split_and!; [|done|done].
      destruct (decide (n = 1%nat)) as [->|]; [|lia]. by apply nsteps_once_inv in Hs.
    - intros [Hnd (n & Hn & Hw & Hs)]. split; [|done]. exists n. split_and!; [lia|done|].
      by apply (nsteps_flip (depends g)). }
  assert (Hndd : NoDup direct) by apply NoDup_set_iter.
  assert (Hndi : NoDup indirect) by apply NoDup_filter_bool, NoDup_set_iter.
  destruct (sorted_list_spec direct Hndd) as [Hpd Hsd].
  destruct (sorted_list_spec indirect Hndi) as [Hpi Hsi].
  eexists; split; [reflexivity|]. simpl. split_and!; [done| |done|done| |].
  - rewrite Hpd, Hpi. apply NoDup_app. split_and!; [done| |done].
    intros x Hx%Hd Hx'%Hi. tauto.
  - intros x. by rewrite Hpd.
  - intros x. by rewrite Hpi.
Qed.

#[local] Instance demo_iter : SetIter string := elements_iter.

Theorem impact_partitions_dependents_witness :
  wf demo ∧ ∃ r, impact_of "a" 0 demo = Some r ∧ "c" ∈ indirect_dependents r.
Proof.
  split; [apply demo_wf|].
  destruct (impact_partitions_dependents "a" 0 demo demo_wf) as (r & Hr & _ & _ & _ & _ & _ & Hi).
  exists r. split; [done|]. apply Hi. split.
  - vm_compute. set_solver.
  - exists 2%nat. split_and!; [lia|by left|].
    apply (nsteps_l _ 1 _ "b"); [vm_compute; set_solver|].
    apply nsteps_once. vm_compute. set_solver.
Defined.

End GraphSearch.
