(* ===== verification/IndexState.v ===== *)
(** File-level update state (crates/app/cce-orchestrator/src/index_state.rs):
    the modules of a file, their update records with retry schedule and dead
    letters, the checkpoint of a resumable file, and the per-file status
    summary. *)

From S2P Require Import Prelude.

Module IndexState.

(** ** Modules and operations *)

Inductive ModuleType := Relation | Summary | Embedding | Bm25 | Export.

#[export] Instance ModuleType_eq_dec : EqDecision ModuleType.
Proof. solve_decision. Defined.

Definition module_index (m : ModuleType) : nat :=
  match m with Relation => 0 | Summary => 1 | Embedding => 2 | Bm25 => 3 | Export => 4 end.

Definition module_of_index (n : nat) : ModuleType :=
  match n with 0 => Relation | 1 => Summary | 2 => Embedding | 3 => Bm25 | _ => Export end%nat.

#[export] Instance ModuleType_countable : Countable ModuleType.
Proof. refine (inj_countable' module_index module_of_index _). by intros []. Defined.

Definition module_as_str (m : ModuleType) : string :=
  match m with
  | Relation => "relation" | Summary => "summary" | Embedding => "embedding"
  | Bm25 => "bm25" | Export => "export"
  end.

Definition module_all : list ModuleType := [Relation; Summary; Embedding; Bm25; Export].

Inductive FileChangeType := Added | Modified | Deleted | Renamed.

Definition file_change_str (c : FileChangeType) : string :=
  match c with
  | Added => "added" | Modified => "modified" | Deleted => "deleted" | Renamed => "renamed"
  end.

Inductive ChangeTrigger := FileSystem | Manual | Scheduled | Api.

Definition trigger_str (t : ChangeTrigger) : string :=
  match t with
  | FileSystem => "filesystem" | Manual => "manual" | Scheduled => "scheduled" | Api => "api"
  end.

Inductive IndexOperationType :=
| Full (total_batches batch_size : Z) (root_dir : string)
| Hot (trigger : ChangeTrigger)
| Incremental (base_version : Z).

Inductive IndexPhase :=
| Scanning | Parsing | RelationBuilding | SummaryGenerating | PhaseEmbedding | Storing
| PhaseCompleted | PhaseFailed.

#[export] Instance IndexPhase_eq_dec : EqDecision IndexPhase.
Proof. solve_decision. Defined.

Definition phase_index (p : IndexPhase) : nat :=
  match p with
  | Scanning => 0 | Parsing => 1 | RelationBuilding => 2 | SummaryGenerating => 3
  | PhaseEmbedding => 4 | Storing => 5 | PhaseCompleted => 6 | PhaseFailed => 7
  end.

Definition phase_of_index (n : nat) : IndexPhase :=
  match n with
  | 0 => Scanning | 1 => Parsing | 2 => RelationBuilding | 3 => SummaryGenerating
  | 4 => PhaseEmbedding | 5 => Storing | 6 => PhaseCompleted | _ => PhaseFailed
  end%nat.

#[export] Instance IndexPhase_countable : Countable IndexPhase.
Proof. refine (inj_countable' phase_index phase_of_index _). by intros []. Defined.

Definition phase_str (p : IndexPhase) : string :=
  match p with
  | Scanning => "scanning" | Parsing => "parsing"
  | RelationBuilding => "relation_building" | SummaryGenerating => "summary_generating"
  | PhaseEmbedding => "embedding" | Storing => "storing"
  | PhaseCompleted => "completed" | PhaseFailed => "failed"
  end.

(** ** Checkpoints *)

Record Checkpoint := {
  batch_index : Z;
  file_offset : Z;
  completed_modules : list ModuleType;
  phase : IndexPhase;
  timestamp : DateTime;
}.

Definition checkpoint_new (now : DateTime) (b o : Z) (p : IndexPhase) : Checkpoint :=
  {| batch_index := b; file_offset := o; completed_modules := []; phase := p;
     timestamp := now |}.

Definition is_module_complete (c : Checkpoint) (m : ModuleType) : bool :=
  bool_decide (m ∈ completed_modules c).

Definition mark_module_complete (m : ModuleType) (c : Checkpoint) : Checkpoint :=
  if negb (is_module_complete c m) then
    {| batch_index := batch_index c; file_offset := file_offset c;
       completed_modules := completed_modules c ++ [m]; phase := phase c;
       timestamp := timestamp c |}
  else c.

Definition checkpoint_set_batch (b : Z) (c : Checkpoint) : Checkpoint :=
  {| batch_index := b; file_offset := file_offset c;
     completed_modules := completed_modules c; phase := phase c; timestamp := timestamp c |}.

Definition checkpoint_set_phase (p : IndexPhase) (now : DateTime) (c : Checkpoint)
    : Checkpoint :=
  {| batch_index := batch_index c; file_offset := file_offset c;
     completed_modules := completed_modules c; phase := p; timestamp := now |}.

(** ** Module update records *)

Inductive ModuleUpdateState :=
| Pending
| Updating
| Success
| Failed
| Retrying (next_attempt : DateTime)
| DeadLetter.

#[export] Instance ModuleUpdateState_eq_dec : EqDecision ModuleUpdateState.
Proof. solve_decision. Defined.

Definition is_terminal (s : ModuleUpdateState) : bool :=
  match s with Success | DeadLetter => true | _ => false end.

Definition should_retry (s : ModuleUpdateState) : bool :=
  match s with Failed | Retrying _ => true | _ => false end.

Definition state_is_queryable (s : ModuleUpdateState) : bool :=
  match s with Success | Failed | Retrying _ => true | _ => false end.

Definition state_is_updating (s : ModuleUpdateState) : bool :=
  match s with Updating => true | _ => false end.

Definition is_success (s : ModuleUpdateState) : bool :=
  match s with Success => true | _ => false end.

Definition is_dead_letter (s : ModuleUpdateState) : bool :=
  match s with DeadLetter => true | _ => false end.

Definition TOKEN_LIMIT_ERROR_CODE : string := "LLM_TOKEN_LIMIT_EXCEEDED_ERROR".

Record TrackerFailure := {
  message : string;
  code : option string;
  retryable : bool;
}.

Definition transient (msg : string) : TrackerFailure :=
  {| message := msg; code := None; retryable := true |}.

Definition permanent (msg : string) : TrackerFailure :=
  {| message := msg; code := None; retryable := false |}.

Record ModuleUpdateRecord := {
  state : ModuleUpdateState;
  last_attempt : option DateTime;
  retry_count : Z;
  error_message : option string;
  error_code : option string;
  truncated : bool;
  acknowledged : bool;
}.

Definition record_default : ModuleUpdateRecord :=
  {| state := Pending; last_attempt := None; retry_count := 0; error_message := None;
     error_code := None; truncated := false; acknowledged := false |}.

Definition is_truncate_candidate (r : ModuleUpdateRecord) : bool :=
  is_dead_letter (state r) && negb (truncated r) &&
  bool_decide (error_code r = Some TOKEN_LIMIT_ERROR_CODE).

(** ** Retry schedule *)

Definition MAX_RETRY_COUNT : Z := 3.
Definition BASE_RETRY_DELAY_SECS : Z := 5.

(** [2_u32.pow(n)] wraps in a release build; the multiplication saturates at
    [Duration::MAX], which five seconds times a [u32] cannot reach. *)
Definition calculate_retry_delay (retries : Z) : Duration :=
  let base_delay := from_secs BASE_RETRY_DELAY_SECS in
  let multiplier := wrap32 (2 ^ sat_sub retries 1) in
  Z.min (base_delay * multiplier) duration_max.

(** The clock readings of one record update, in the order of the source. *)
Record readings := { first_now : DateTime; attempt_now : DateTime; update_now : DateTime }.

Definition record_success (now : DateTime) (r : ModuleUpdateRecord) : ModuleUpdateRecord :=
  {| state := Success; last_attempt := Some now; retry_count := retry_count r;
     error_message := None; error_code := error_code r; truncated := truncated r;
     acknowledged := acknowledged r |}.

Definition record_set_state (s : ModuleUpdateState) (now : DateTime)
    (r : ModuleUpdateRecord) : ModuleUpdateRecord :=
  {| state := s; last_attempt := Some now; retry_count := retry_count r;
     error_message := error_message r; error_code := error_code r;
     truncated := truncated r; acknowledged := acknowledged r |}.

Definition record_failed (t : readings) (f : TrackerFailure) (r : ModuleUpdateRecord)
    : ModuleUpdateRecord :=
  let count := wrap32 (retry_count r + 1) in
  {| state := if negb (retryable f) || (MAX_RETRY_COUNT <=? count) then DeadLetter
              else Retrying (first_now t +
                from_secs (calculate_retry_delay count / nanos_per_sec));
     last_attempt := Some (attempt_now t); retry_count := count;
     error_message := Some (message f); error_code := code f;
     truncated := truncated r; acknowledged := acknowledged r |}.

Definition record_truncated (r : ModuleUpdateRecord) : ModuleUpdateRecord :=
  {| state := state r; last_attempt := last_attempt r; retry_count := retry_count r;
     error_message := error_message r; error_code := error_code r;
     truncated := true; acknowledged := acknowledged r |}.

Definition record_acknowledged (r : ModuleUpdateRecord) : ModuleUpdateRecord :=
  {| state := state r; last_attempt := last_attempt r; retry_count := retry_count r;
     error_message := error_message r; error_code := error_code r;
     truncated := truncated r; acknowledged := true |}.

(** The two assignments of [reset_dead_letter]. *)
Definition record_reset (r : ModuleUpdateRecord) : ModuleUpdateRecord :=
  {| state := Failed; last_attempt := last_attempt r; retry_count := retry_count r;
     error_message := error_message r; error_code := error_code r;
     truncated := truncated r; acknowledged := false |}.

(** ** Files *)

Record FileUpdateState := {
  file_path : string;
  project_id : Z;
  version : Z;
  change_type : FileChangeType;
  operation_type : IndexOperationType;
  module_states : gmap ModuleType ModuleUpdateRecord;
  checkpoint : option Checkpoint;
  created_at : DateTime;
  updated_at : DateTime;
}.

Definition all_pending : gmap ModuleType ModuleUpdateRecord :=
  foldl (λ ms m, <[m := record_default]> ms) ∅ module_all.

Definition with_operation_type (now : DateTime) (path : string) (v : Z)
    (c : FileChangeType) (project : Z) (o : IndexOperationType) : FileUpdateState :=
  {| file_path := path; project_id := project; version := v; change_type := c;
     operation_type := o; module_states := all_pending; checkpoint := None;
     created_at := now; updated_at := now |}.

Definition new (now : DateTime) (path : string) (v : Z) (c : FileChangeType) (project : Z)
    : FileUpdateState :=
  with_operation_type now path v c project (Hot Manual).

(** Field assignments. *)
Definition set_checkpoint (c : option Checkpoint) (s : FileUpdateState) : FileUpdateState :=
  {| file_path := file_path s; project_id := project_id s; version := version s;
     change_type := change_type s; operation_type := operation_type s;
     module_states := module_states s; checkpoint := c;
     created_at := created_at s; updated_at := updated_at s |}.

Definition set_updated (now : DateTime) (s : FileUpdateState) : FileUpdateState :=
  {| file_path := file_path s; project_id := project_id s; version := version s;
     change_type := change_type s; operation_type := operation_type s;
     module_states := module_states s; checkpoint := checkpoint s;
     created_at := created_at s; updated_at := now |}.

Definition set_modules (ms : gmap ModuleType ModuleUpdateRecord) (s : FileUpdateState)
    : FileUpdateState :=
  {| file_path := file_path s; project_id := project_id s; version := version s;
     change_type := change_type s; operation_type := operation_type s;
     module_states := ms; checkpoint := checkpoint s;
     created_at := created_at s; updated_at := updated_at s |}.

(** [if let Some(record) = self.module_states.get_mut(&module) { .. }] with the
    update time set at its end. *)
Definition with_module (m : ModuleType) (now : DateTime)
    (f : ModuleUpdateRecord → ModuleUpdateRecord) (s : FileUpdateState) : FileUpdateState :=
  match module_states s !! m with
  | Some r => set_updated now (set_modules (<[m := f r]> (module_states s)) s)
  | None => s
  end.

Definition for_full_index (now now' : DateTime) (path : string) (v project : Z)
    (total_batches batch_size : Z) (root_dir : string) : FileUpdateState :=
  let s := with_operation_type now path v Added project
             (Full total_batches batch_size root_dir) in
  set_checkpoint (Some (checkpoint_new now' 0 0 Scanning)) s.

Definition update_checkpoint (now : DateTime) (c : Checkpoint) (s : FileUpdateState)
    : FileUpdateState := set_updated now (set_checkpoint (Some c) s).

Definition is_full_index (s : FileUpdateState) : bool :=
  match operation_type s with Full _ _ _ => true | _ => false end.

Definition is_hot_update (s : FileUpdateState) : bool :=
  match operation_type s with Hot _ => true | _ => false end.

Definition batch_info (s : FileUpdateState) : option (Z * Z) :=
  match operation_type s with Full t b _ => Some (t, b) | _ => None end.

Definition get_module_state (s : FileUpdateState) (m : ModuleType) : ModuleUpdateRecord :=
  default record_default (module_states s !! m).

Definition update_module_state (t : readings) (m : ModuleType) (st : ModuleUpdateState)
    (s : FileUpdateState) : FileUpdateState :=
  with_module m (update_now t) (record_set_state st (attempt_now t)) s.

Definition mark_module_success (t : readings) (m : ModuleType) (s : FileUpdateState)
    : FileUpdateState :=
  with_module m (update_now t) (record_success (attempt_now t)) s.

Definition mark_module_failed (t : readings) (m : ModuleType) (f : TrackerFailure)
    (s : FileUpdateState) : FileUpdateState :=
  with_module m (update_now t) (record_failed t f) s.

Definition set_module_truncated (now : DateTime) (m : ModuleType) (s : FileUpdateState)
    : FileUpdateState := with_module m now record_truncated s.

(** [module_states.values()] *)
Definition values (s : FileUpdateState) : list ModuleUpdateRecord :=
  (map_to_list (module_states s)).*2.

Definition all_success (s : FileUpdateState) : bool :=
  forallb (λ r, is_success (state r)) (values s).

Definition is_failure (st : ModuleUpdateState) : bool :=
  match st with Failed | Retrying _ | DeadLetter => true | _ => false end.

Definition has_failures (s : FileUpdateState) : bool :=
  existsb (λ r, is_failure (state r)) (values s).

Definition is_updating (s : FileUpdateState) : bool :=
  existsb (λ r, state_is_updating (state r)) (values s).

Definition get_modules_to_retry (s : FileUpdateState) : list (ModuleType * DateTime) :=
  omap (λ '(m, r), match state r with
                   | Retrying next => Some (m, next)
                   | _ => None
                   end) (map_to_list (module_states s)).

Definition is_queryable (s : FileUpdateState) : bool :=
  existsb (λ r, state_is_queryable (state r)) (values s).

(** ** Status summary *)

Record FileUpdateStatusSummary := {
  total_modules : Z;
  success_count : Z;
  failed_count : Z;
  pending_count : Z;
  updating_count : Z;
  dead_letter_count : Z;
  is_complete : bool;
  summary_has_failures : bool;
}.

(** One round of the counting loop: (success, failed, pending, updating, dead). *)
Definition count_record (acc : Z * Z * Z * Z * Z) (r : ModuleUpdateRecord)
    : Z * Z * Z * Z * Z :=
  let '(su, fa, pe, up, de) := acc in
  match state r with
  | Success => (su + 1, fa, pe, up, de)
  | Failed | Retrying _ => (su, fa + 1, pe, up, de)
  | Pending => (su, fa, pe + 1, up, de)
  | Updating => (su, fa, pe, up + 1, de)
  | DeadLetter => (su, fa, pe, up, de + 1)
  end.

Definition get_status_summary (s : FileUpdateState) : FileUpdateStatusSummary :=
  let '(su, fa, pe, up, de) := foldl count_record (0, 0, 0, 0, 0) (values s) in
  {| total_modules := Z.of_nat (size (module_states s)); success_count := su;
     failed_count := fa; pending_count := pe; updating_count := up; dead_letter_count := de;
     is_complete := all_success s; summary_has_failures := has_failures s |}.

(** ** Every module of a file is tracked *)

Definition complete_modules (s : FileUpdateState) : Prop :=
  ∀ m, is_Some (module_states s !! m).

Lemma all_pending_lookup m : all_pending !! m = Some record_default.
Proof. by destruct m. Qed.

Lemma with_operation_type_complete now path v c project o :
  complete_modules (with_operation_type now path v c project o).
Proof. intros m. exists record_default. apply all_pending_lookup. Qed.

Lemma with_module_lookup m now f s m' :
  module_states (with_module m now f s) !! m' =
  if decide (m' = m) then f <$> module_states s !! m else module_states s !! m'.
Proof.
  unfold with_module. destruct (module_states s !! m) as [r|] eqn:E; simpl; case_decide; subst.
  - by rewrite lookup_insert_eq.
  - by rewrite lookup_insert_ne.
  - done.
  - done.
Qed.

Lemma with_module_complete m now f s :
  complete_modules s → complete_modules (with_module m now f s).
Proof.
  intros H m'. rewrite with_module_lookup. case_decide; [|apply H].
  destruct (H m) as [r ->]. by eexists.
Qed.

Lemma with_module_frame m now f s :
  file_path (with_module m now f s) = file_path s ∧
  project_id (with_module m now f s) = project_id s ∧
  version (with_module m now f s) = version s ∧
  checkpoint (with_module m now f s) = checkpoint s ∧
  operation_type (with_module m now f s) = operation_type s.
Proof. unfold with_module. by destruct (module_states s !! m). Qed.

Lemma values_elem s r : r ∈ values s ↔ ∃ m, module_states s !! m = Some r.
Proof.
  unfold values. rewrite list_elem_of_fmap. split.
  - intros ([m r'] & -> & Hin%elem_of_map_to_list). by exists m.
  - intros [m Hm]. exists (m, r). split; [done|]. by apply elem_of_map_to_list.
Qed.

(** ** Retries *)

(** The documented schedule: the delay doubles from five seconds. *)
Lemma retry_delay_doubles k :
  1 ≤ k ≤ 32 → calculate_retry_delay k = from_secs (BASE_RETRY_DELAY_SECS * 2 ^ (k - 1)).
Proof.
  intros Hk. unfold calculate_retry_delay, sat_sub. rewrite Z.max_r by lia.
  assert (0 < 2 ^ (k - 1) ≤ 2 ^ 31) as Hp.
  { split; [apply Z.pow_pos_nonneg; lia|]. apply Z.pow_le_mono_r; lia. }
  rewrite wrap32_small by (unfold u32_max; lia).
  unfold from_secs, BASE_RETRY_DELAY_SECS, duration_max, nanos_per_sec, u64_max. lia.
Qed.

(** From the 33rd retry on the power wraps to zero and so does the delay. *)
Lemma retry_delay_wraps k : 33 ≤ k → calculate_retry_delay k = 0.
Proof.
  intros Hk. unfold calculate_retry_delay, sat_sub, wrap32. rewrite Z.max_r by lia.
  replace (2 ^ (k - 1)) with (2 ^ (k - 33) * 2 ^ 32) by (rewrite <- Z.pow_add_r by lia; f_equal; lia).
  rewrite Z.mod_mul by lia. by vm_compute.
Qed.

Lemma retry_delay_secs k :
  1 ≤ k ≤ 32 → calculate_retry_delay k / nanos_per_sec = BASE_RETRY_DELAY_SECS * 2 ^ (k - 1).
Proof.
  intros Hk. rewrite retry_delay_doubles by done. unfold from_secs.
  apply Z.div_mul. unfold nanos_per_sec. lia.
Qed.

(** Report a sequence of failures of one module. *)
Definition fail_all (m : ModuleType) (fs : list (readings * TrackerFailure))
    (s : FileUpdateState) : FileUpdateState :=
  foldl (λ s '(t, f), mark_module_failed t m f s) s fs.

Lemma fail_all_snoc m fs t f s :
  fail_all m (fs ++ [(t, f)]) s = mark_module_failed t m f (fail_all m fs s).
Proof. unfold fail_all. by rewrite foldl_app. Qed.

Lemma fail_all_count m fs s r :
  module_states s !! m = Some r → retry_count r = 0 → Z.of_nat (length fs) ≤ u32_max →
  ∃ r', module_states (fail_all m fs s) !! m = Some r' ∧
        retry_count r' = Z.of_nat (length fs).
Proof.
  intros Hr H0. induction fs as [|[t f] fs IH] using rev_ind; intros Hl; [by exists r|].
  rewrite length_app in *; simpl in *. destruct IH as (r' & Hr' & Hc); [lia|].
  rewrite fail_all_snoc. unfold mark_module_failed.
  rewrite with_module_lookup, decide_True by done. rewrite Hr'. simpl.
  eexists. split; [done|]. simpl. rewrite Hc, wrap32_small; lia.
Qed.

Lemma fail_all_other m fs s m' :
  m' ≠ m → module_states (fail_all m fs s) !! m' = module_states s !! m'.
Proof.
  intros Hne. induction fs as [|[t f] fs IH] using rev_ind; [done|].
  rewrite fail_all_snoc. unfold mark_module_failed.
  by rewrite with_module_lookup, decide_False.
Qed.

(** The retry schedule of a module that has never failed: the n-th
    consecutive failure schedules a retry after 5 * 2^(n-1) seconds when it is
    retryable and one of the first two, and dead-letters the module otherwise;
    the module counts its failures and the other modules of the file are
    untouched. *)
Theorem retry_schedule m fs t f s r (Hr : module_states s !! m = Some r)
    (Hnew : retry_count r = 0) (Hlen : Z.of_nat (length (fs ++ [(t, f)])) ≤ u32_max) :
  let n := Z.of_nat (length (fs ++ [(t, f)])) in
  let s' := fail_all m (fs ++ [(t, f)]) s in
  state (get_module_state s' m) =
    (if retryable f && (n <? 3) then Retrying (first_now t + from_secs (5 * 2 ^ (n - 1)))
     else DeadLetter) ∧
  retry_count (get_module_state s' m) = n ∧
  error_message (get_module_state s' m) = Some (message f) ∧
  ∀ m', m' ≠ m → module_states s' !! m' = module_states s !! m'.
Proof.
  intros n s'. subst s'. destruct (fail_all_count m fs s r) as (r' & Hr' & Hc); try done.
  { rewrite length_app in Hlen; simpl in Hlen; lia. }
  assert (get_module_state (fail_all m (fs ++ [(t, f)]) s) m = record_failed t f r') as ->.
  { unfold get_module_state. rewrite fail_all_snoc. unfold mark_module_failed.
    rewrite with_module_lookup, decide_True by done. by rewrite Hr'. }
  assert (wrap32 (retry_count r' + 1) = n) as Hn.
  { subst n. rewrite length_app in *; simpl in *. rewrite Hc, wrap32_small; lia. }
  split; [|split; [done|split; [done|]]]; [|intros; by apply fail_all_other].
  unfold record_failed; cbn [state]. rewrite Hn. unfold MAX_RETRY_COUNT.
  destruct (retryable f); simpl; [|done].
  destruct (3 <=? n) eqn:E3, (n <? 3) eqn:E3'; bool_to_prop; try lia; [done|].
  assert (1 ≤ n) by (subst n; rewrite length_app; simpl; lia).
  by rewrite retry_delay_secs by lia.
Qed.

Definition sample_file : FileUpdateState := new 0 "src/lib.rs" 1 Modified 7.
Definition at_time (t : DateTime) : readings :=
  {| first_now := t; attempt_now := t; update_now := t |}.

Lemma retry_schedule_witness :
  let s' := fail_all Bm25 ([(at_time 0, transient "locked")] ++
              [(at_time (from_secs 5), transient "locked")]) sample_file in
  state (get_module_state s' Bm25) = Retrying (from_secs 15) ∧
  retry_count (get_module_state s' Bm25) = 2 ∧
  error_message (get_module_state s' Bm25) = Some "locked" ∧
  ∀ m', m' ≠ Bm25 → module_states s' !! m' = module_states sample_file !! m'.
Proof.
  apply (retry_schedule Bm25 [(at_time 0, transient "locked")] (at_time (from_secs 5))
           (transient "locked") sample_file record_default).
  - reflexivity.
  - reflexivity.
  - vm_compute. discriminate.
Defined.

(** ** The summary's counters *)

Definition is_pending (s : ModuleUpdateState) : bool :=
  match s with Pending => true | _ => false end.

Lemma count_records l a b c d e :
  foldl count_record (a, b, c, d, e) l =
  (a + count_if (λ r, is_success (state r)) l,
   b + count_if (λ r, should_retry (state r)) l,
   c + count_if (λ r, is_pending (state r)) l,
   d + count_if (λ r, state_is_updating (state r)) l,
   e + count_if (λ r, is_dead_letter (state r)) l).
Proof.
  revert a b c d e. induction l as [|r l IH]; intros; simpl; [rewrite !pair_equal_spec; lia|].
  destruct (state r) eqn:E; rewrite IH; simpl; rewrite !pair_equal_spec; lia.
Qed.

Lemma count_by_state l :
  count_if (λ r, is_success (state r)) l + count_if (λ r, should_retry (state r)) l +
  count_if (λ r, is_pending (state r)) l +
  count_if (λ r, state_is_updating (state r)) l +
  count_if (λ r, is_dead_letter (state r)) l = Z.of_nat (length l).
Proof. induction l as [|r l IH]; [done|]. cbn -[Z.of_nat Z.add]. destruct (state r) eqn:E; cbn -[Z.of_nat Z.add]; lia. Qed.

Lemma count_if_forallb {A} (p : A → bool) l :
  forallb p l = true ↔ count_if p l = Z.of_nat (length l).
Proof.
  induction l as [|x l IH]; [done|]. cbn -[Z.of_nat Z.add]. rewrite andb_true_iff, IH.
  assert (count_if p l ≤ Z.of_nat (length l)).
  { clear. induction l as [|y l IH]; cbn -[Z.of_nat Z.add]; [lia|]. destruct (p y); lia. }
  destruct (p x); split; intros; [lia| |lia|lia]. split; [done|lia].
Qed.

Lemma count_if_existsb {A} (p : A → bool) l : existsb p l = true ↔ 0 < count_if p l.
Proof.
  induction l as [|x l IH]; simpl; [done|]. rewrite orb_true_iff, IH.
  pose proof (count_if_nonneg p l). destruct (p x); split; intros; try lia; auto.
Qed.

Lemma count_failures l :
  count_if (λ r, is_failure (state r)) l =
  count_if (λ r, should_retry (state r)) l + count_if (λ r, is_dead_letter (state r)) l.
Proof. induction l as [|r l IH]; simpl; [done|]. rewrite IH. destruct (state r); simpl; lia. Qed.

(** The status summary partitions the modules of the file: the five
    counters add up to the number of modules, the file is complete exactly when
    all of them count as successes, and it has failures exactly when a module
    is waiting for a retry or dead-lettered. *)
Theorem status_summary_partitions s :
  let q := get_status_summary s in
  success_count q + failed_count q + pending_count q + updating_count q +
    dead_letter_count q = total_modules q ∧
  (is_complete q = true ↔ success_count q = total_modules q) ∧
  (summary_has_failures q = true ↔ 0 < failed_count q + dead_letter_count q).
Proof.
  unfold get_status_summary. rewrite count_records. cbn -[Z.add Z.of_nat].
  assert (Z.of_nat (size (module_states s)) = Z.of_nat (length (values s))) as ->.
  { unfold values. by rewrite length_fmap, length_map_to_list. }
  pose proof (count_by_state (values s)) as Hsum. split; [lia|].
  unfold all_success, has_failures. rewrite count_if_forallb, count_if_existsb, count_failures.
  split; [|done]. by rewrite Z.add_0_l.
Qed.

(** ** Checkpoints *)

Lemma mark_module_complete_nodup m c :
  NoDup (completed_modules c) → NoDup (completed_modules (mark_module_complete m c)).
Proof.
  unfold mark_module_complete, is_module_complete. intros Hn.
  case_bool_decide as E; simpl; [done|]. apply NoDup_app. repeat split; [done| |].
  - intros x Hx ->%list_elem_of_singleton. done.
  - apply NoDup_singleton.
Qed.

Lemma mark_module_complete_spec m m' c :
  is_module_complete (mark_module_complete m c) m' = true ↔
  m' = m ∨ is_module_complete c m' = true.
Proof.
  unfold mark_module_complete, is_module_complete. rewrite !bool_decide_eq_true.
  case_bool_decide as E; simpl.
  - split; [by right|]. by intros [->|].
  - rewrite elem_of_app, list_elem_of_singleton. tauto.
Qed.

End IndexState.
