(* ===== verification/EntityDiff.v ===== *)
(** File and entity changes of a hot update
    (crates/app/cce-orchestrator/src/hot_update/change/types.rs and compute.rs):
    the change records, the parse results that carry them, the batch they are
    collected in, and the comparison of two entity lists. *)

From S2P Require Import Prelude IndexState.

Module EntityDiff.
Import IndexState (FileChangeType, Added, Modified, Deleted, Renamed).

(** ** Entities (core/cce-types/src/types/entity/full.rs, types/position.rs) *)

Record Position := { row : Z; column : Z }.

Record Span := {
  start_byte : Z;
  end_byte : Z;
  start_position : Position;
  end_position : Position;
}.

#[export] Instance Position_eq_dec : EqDecision Position.
Proof. solve_decision. Defined.
#[export] Instance Span_eq_dec : EqDecision Span.
Proof. solve_decision. Defined.

Section entities.
(** Entity kinds and standard-library categories are only compared for
    equality, parsed files, summaries and content routes only stored. *)
Context {EntityKind StdlibCategory ParsedFile FileSummary ContentRoute : Type}.
Context `{!EqDecision EntityKind}.
Context (detect_from_path : string → ContentRoute).

Record Entity := {
  id : Z;
  kind : EntityKind;
  name : string;
  signature : string;
  parameters : list (string * option string);
  return_type : option string;
  span : Span;
  depth : Z;
  parent : option Z;
  children : list Z;
  doc_comment : option string;
  modifiers : list string;
  attributes : gmap string string;
  metadata : gmap string string;
  is_stdlib : bool;
  stdlib_category : option StdlibCategory;
  subtype : option string;
}.

(** ** File changes *)

Record FileChange := {
  path : string;
  change_type : FileChangeType;
  previous_path : option string;
  content_hash : string;
  size : Z;
  modified : DateTime;
}.

Definition file_change_new (p : string) (c : FileChangeType) (h : string) (s : Z)
    (m : DateTime) : FileChange :=
  {| path := p; change_type := c; previous_path := None; content_hash := h; size := s;
     modified := m |}.

Definition with_previous_path (c : FileChange) (p : string) : FileChange :=
  {| path := path c; change_type := change_type c; previous_path := Some p;
     content_hash := content_hash c; size := size c; modified := modified c |}.

Definition file_is_added (c : FileChange) : bool :=
  match change_type c with Added => true | _ => false end.
Definition file_is_modified (c : FileChange) : bool :=
  match change_type c with Modified => true | _ => false end.
Definition file_is_deleted (c : FileChange) : bool :=
  match change_type c with Deleted => true | _ => false end.
Definition file_is_renamed (c : FileChange) : bool :=
  match change_type c with Renamed => true | _ => false end.

(** ** Entity changes *)

Inductive EntityChangeType := EntityAdded | EntityModified | EntityDeleted | EntityUnchanged.

Definition entity_change_str (c : EntityChangeType) : string :=
  match c with
  | EntityAdded => "added" | EntityModified => "modified"
  | EntityDeleted => "deleted" | EntityUnchanged => "unchanged"
  end.

Record EntityChange := {
  entity_id : Z;
  entity_name : string;
  entity_change_type : EntityChangeType;
  entity : option Entity;
  previous_entity : option Entity;
}.

Definition entity_change_new (i : Z) (n : string) (c : EntityChangeType) : EntityChange :=
  {| entity_id := i; entity_name := n; entity_change_type := c; entity := None;
     previous_entity := None |}.

Definition with_entity (c : EntityChange) (e : Entity) : EntityChange :=
  {| entity_id := entity_id c; entity_name := entity_name c;
     entity_change_type := entity_change_type c; entity := Some e;
     previous_entity := previous_entity c |}.

Definition with_previous_entity (c : EntityChange) (e : Entity) : EntityChange :=
  {| entity_id := entity_id c; entity_name := entity_name c;
     entity_change_type := entity_change_type c; entity := entity c;
     previous_entity := Some e |}.

Definition is_added (c : EntityChange) : bool :=
  match entity_change_type c with EntityAdded => true | _ => false end.
Definition is_modified (c : EntityChange) : bool :=
  match entity_change_type c with EntityModified => true | _ => false end.
Definition is_deleted (c : EntityChange) : bool :=
  match entity_change_type c with EntityDeleted => true | _ => false end.
Definition is_unchanged (c : EntityChange) : bool :=
  match entity_change_type c with EntityUnchanged => true | _ => false end.

(** ** Comparing two entity lists (compute.rs) *)

Definition entities_differ (old new : Entity) : bool :=
  if negb (bool_decide (name old = name new)) then true
  else if negb (bool_decide (kind old = kind new)) then true
  else if negb (bool_decide (signature old = signature new)) then true
  else if negb (bool_decide (return_type old = return_type new)) then true
  else if negb (length (parameters old) =? length (parameters new))%nat then true
  else if existsb (λ '(p, q), negb (bool_decide (p = q))) (zip (parameters old) (parameters new))
  then true
  else negb (bool_decide (span old = span new)).

(** [iter().map(|e| (e.id, e)).collect::<HashMap<_, _>>()]: the last entity of
    an id wins. *)
Definition id_map (l : list Entity) : gmap Z Entity :=
  foldl (λ m e, <[id e := e]> m) ∅ l.

Definition change_of_new (old_map : gmap Z Entity) (e : Entity) : EntityChange :=
  match old_map !! id e with
  | None => with_entity (entity_change_new (id e) (name e) EntityAdded) e
  | Some old =>
      if entities_differ old e then
        with_previous_entity
          (with_entity (entity_change_new (id e) (name e) EntityModified) e) old
      else entity_change_new (id e) (name e) EntityUnchanged
  end.

Definition deletion_of_old (new_map : gmap Z Entity) (e : Entity) : list EntityChange :=
  match new_map !! id e with
  | Some _ => []
  | None => [with_previous_entity (entity_change_new (id e) (name e) EntityDeleted) e]
  end.

Definition compute_entity_changes (old_entities new_entities : list Entity)
    : list EntityChange :=
  let old_map := id_map old_entities in
  let new_map := id_map new_entities in
  map (change_of_new old_map) new_entities ++
  concat (map (deletion_of_old new_map) old_entities).

(** ** Parse results and batches *)

Record ParseResultWithChanges := {
  file_path : string;
  parsed_file : ParsedFile;
  content_route : ContentRoute;
  file_change_type : FileChangeType;
  entity_changes : list EntityChange;
  is_new_file : bool;
  result_content_hash : option string;
  file_summary : option FileSummary;
  already_exported : bool;
  stored_render_fingerprint : option string;
  stored_summary_fingerprint : option string;
  stored_content_hash : option string;
  summary_fingerprint : option string;
  module_progress : gmap string string;
}.

Definition parse_result_new (p : string) (f : ParsedFile) (c : FileChangeType) (new : bool)
    : ParseResultWithChanges :=
  {| file_path := p; parsed_file := f; content_route := detect_from_path p;
     file_change_type := c; entity_changes := []; is_new_file := new;
     result_content_hash := None; file_summary := None; already_exported := false;
     stored_render_fingerprint := None; stored_summary_fingerprint := None;
     stored_content_hash := None; summary_fingerprint := None; module_progress := ∅ |}.

(** The builder methods, as one assignment of the recovery fields. *)
Definition set_recovered (exported : bool) (render summary hash : option string)
    (fs : option FileSummary) (r : ParseResultWithChanges) : ParseResultWithChanges :=
  {| file_path := file_path r; parsed_file := parsed_file r;
     content_route := content_route r; file_change_type := file_change_type r;
     entity_changes := entity_changes r; is_new_file := is_new_file r;
     result_content_hash := result_content_hash r; file_summary := fs;
     already_exported := exported; stored_render_fingerprint := render;
     stored_summary_fingerprint := summary; stored_content_hash := hash;
     summary_fingerprint := summary_fingerprint r; module_progress := module_progress r |}.

Definition with_already_exported (r : ParseResultWithChanges) : ParseResultWithChanges :=
  set_recovered true (stored_render_fingerprint r) (stored_summary_fingerprint r)
    (stored_content_hash r) (file_summary r) r.
Definition with_stored_render_fingerprint (r : ParseResultWithChanges)
    (f : option string) : ParseResultWithChanges :=
  set_recovered (already_exported r) f (stored_summary_fingerprint r)
    (stored_content_hash r) (file_summary r) r.
Definition with_stored_summary_fingerprint (r : ParseResultWithChanges)
    (f : option string) : ParseResultWithChanges :=
  set_recovered (already_exported r) (stored_render_fingerprint r) f
    (stored_content_hash r) (file_summary r) r.
Definition with_stored_content_hash (r : ParseResultWithChanges)
    (h : option string) : ParseResultWithChanges :=
  set_recovered (already_exported r) (stored_render_fingerprint r)
    (stored_summary_fingerprint r) h (file_summary r) r.
Definition with_file_summary (r : ParseResultWithChanges)
    (s : option FileSummary) : ParseResultWithChanges :=
  set_recovered (already_exported r) (stored_render_fingerprint r)
    (stored_summary_fingerprint r) (stored_content_hash r) s r.

Definition set_entity_changes (l : list EntityChange) (r : ParseResultWithChanges)
    : ParseResultWithChanges :=
  {| file_path := file_path r; parsed_file := parsed_file r;
     content_route := content_route r; file_change_type := file_change_type r;
     entity_changes := l; is_new_file := is_new_file r;
     result_content_hash := result_content_hash r; file_summary := file_summary r;
     already_exported := already_exported r;
     stored_render_fingerprint := stored_render_fingerprint r;
     stored_summary_fingerprint := stored_summary_fingerprint r;
     stored_content_hash := stored_content_hash r;
     summary_fingerprint := summary_fingerprint r; module_progress := module_progress r |}.

Definition add_entity_change (c : EntityChange) (r : ParseResultWithChanges)
    : ParseResultWithChanges := set_entity_changes (entity_changes r ++ [c]) r.

Definition added_entities (r : ParseResultWithChanges) : list EntityChange :=
  retain is_added (entity_changes r).
Definition modified_entities (r : ParseResultWithChanges) : list EntityChange :=
  retain is_modified (entity_changes r).
Definition deleted_entities (r : ParseResultWithChanges) : list EntityChange :=
  retain is_deleted (entity_changes r).

Definition has_entity_changes (r : ParseResultWithChanges) : bool :=
  existsb (λ c, negb (is_unchanged c)) (entity_changes r).

Record BatchChangeResult := {
  file_changes : list FileChange;
  parse_results : list ParseResultWithChanges;
  failed_files : list (string * string);
  rename_mappings : list (string * string);
}.

Definition batch_new : BatchChangeResult :=
  {| file_changes := []; parse_results := []; failed_files := []; rename_mappings := [] |}.

Definition add_file_change (c : FileChange) (b : BatchChangeResult) : BatchChangeResult :=
  {| file_changes := file_changes b ++ [c]; parse_results := parse_results b;
     failed_files := failed_files b; rename_mappings := rename_mappings b |}.
Definition add_parse_result (r : ParseResultWithChanges) (b : BatchChangeResult)
    : BatchChangeResult :=
  {| file_changes := file_changes b; parse_results := parse_results b ++ [r];
     failed_files := failed_files b; rename_mappings := rename_mappings b |}.
Definition add_failed (p err : string) (b : BatchChangeResult) : BatchChangeResult :=
  {| file_changes := file_changes b; parse_results := parse_results b;
     failed_files := failed_files b ++ [(p, err)]; rename_mappings := rename_mappings b |}.
Definition add_rename_mapping (from to : string) (b : BatchChangeResult) : BatchChangeResult :=
  {| file_changes := file_changes b; parse_results := parse_results b;
     failed_files := failed_files b; rename_mappings := rename_mappings b ++ [(from, to)] |}.

Definition changed_file_count (b : BatchChangeResult) : nat := length (file_changes b).
Definition processed_count (b : BatchChangeResult) : nat := length (parse_results b).
Definition failed_count (b : BatchChangeResult) : nat := length (failed_files b).
Definition is_empty (b : BatchChangeResult) : bool :=
  match file_changes b, parse_results b with [], [] => true | _, _ => false end.
Definition has_changes (b : BatchChangeResult) : bool := negb (is_empty b).
Definition all_entity_changes (b : BatchChangeResult) : list EntityChange :=
  concat (map entity_changes (parse_results b)).
Definition has_rename_mappings (b : BatchChangeResult) : bool :=
  match rename_mappings b with [] => false | _ => true end.

(** ** What a comparison reports *)

(** The fields the comparison looks at. *)
Definition agree (a b : Entity) : Prop :=
  name a = name b ∧ kind a = kind b ∧ signature a = signature b ∧
  return_type a = return_type b ∧ parameters a = parameters b ∧ span a = span b.

Lemma zip_differ_false (l k : list (string * option string)) :
  length l = length k →
  existsb (λ '(p, q), negb (bool_decide (p = q))) (zip l k) = false ↔ l = k.
Proof.
  revert k. induction l as [|x l IH]; intros [|y k]; try done. intros [= Hl]. cbn.
  rewrite orb_false_iff, negb_false_iff, bool_decide_eq_true, IH by done. naive_solver.
Qed.

Lemma entities_differ_false a b : entities_differ a b = false ↔ agree a b.
Proof.
  unfold entities_differ, agree. split.
  - intros H. repeat (case_match; [done|]). bool_to_prop.
    match goal with E : (_ =? _)%nat = true |- _ => apply Nat.eqb_eq in E as Hl end.
    rewrite <- zip_differ_false by done. naive_solver.
  - intros (-> & -> & -> & -> & Hp & ->). rewrite !bool_decide_true by done. simpl.
    rewrite Hp, Nat.eqb_refl. simpl.
    by rewrite (proj2 (zip_differ_false (parameters b) (parameters b) eq_refl) eq_refl).
Qed.

Lemma id_map_snoc l e : id_map (l ++ [e]) = <[id e := e]> (id_map l).
Proof. unfold id_map. by rewrite foldl_app. Qed.

Lemma id_map_Some l i e :
  NoDup (map id l) → id_map l !! i = Some e ↔ e ∈ l ∧ id e = i.
Proof.
  induction l as [|x l IH] using rev_ind; intros Hn.
  { unfold id_map; simpl. rewrite lookup_empty. split; [done|]. by intros [[]%not_elem_of_nil _]. }
  rewrite id_map_snoc. rewrite map_app, NoDup_app in Hn. destruct Hn as (Hn & Hdis & _).
  specialize (IH Hn). rewrite elem_of_app, list_elem_of_singleton.
  destruct (decide (id x = i)) as [<-|Hne].
  - rewrite lookup_insert_eq. split; [intros [= <-]; auto|].
    intros [[Hin| ->] Hid]; [|done]. destruct (Hdis (id x)); [|by left].
    rewrite <- Hid. by apply list_elem_of_fmap_2.
  - rewrite lookup_insert_ne, IH by done. naive_solver.
Qed.

Lemma id_map_None l i : id_map l !! i = None ↔ i ∉ map id l.
Proof.
  induction l as [|x l IH] using rev_ind; simpl; [set_solver|].
  rewrite id_map_snoc, map_app, not_elem_of_app. simpl. rewrite list_elem_of_singleton.
  destruct (decide (id x = i)) as [<-|Hne].
  - rewrite lookup_insert_eq. naive_solver.
  - rewrite lookup_insert_ne by done. naive_solver.
Qed.

(** Applying a change list to the entities of the old version. *)
Definition apply_change (m : gmap Z Entity) (c : EntityChange) : gmap Z Entity :=
  match entity_change_type c, entity c with
  | EntityAdded, Some e | EntityModified, Some e => <[entity_id c := e]> m
  | EntityDeleted, _ => delete (entity_id c) m
  | _, _ => m
  end.

Definition patch (m : gmap Z Entity) (cs : list EntityChange) : gmap Z Entity :=
  foldl apply_change m cs.

(** Every entity of [new] is in the patched map, up to the compared fields,
    and the ids that are not in [new] are as before. *)
Lemma patch_new old_map new m i :
  NoDup (map id new) → (∀ j, j ∈ map id new → m !! j = old_map !! j) →
  match id_map new !! i with
  | Some e => ∃ e', patch m (map (change_of_new old_map) new) !! i = Some e' ∧ agree e' e
  | None => patch m (map (change_of_new old_map) new) !! i = m !! i
  end.
Proof.
  induction new as [|x new IH] using rev_ind; intros Hn Hm; [done|].
  rewrite map_app, NoDup_app in Hn. destruct Hn as (Hn & Hdis & _).
  rewrite map_app. unfold patch in *. rewrite foldl_app, id_map_snoc. cbn [foldl map].
  set (m' := foldl apply_change m (map (change_of_new old_map) new)) in *.
  assert (∀ j, j ∈ map id new → m !! j = old_map !! j) as Hm0.
  { intros j Hj. apply Hm. rewrite map_app, elem_of_app. by left. }
  specialize (IH Hn Hm0). destruct (decide (id x = i)) as [<-|Hne].
  - rewrite lookup_insert_eq.
    assert (id_map new !! id x = None) as Hnone.
    { apply id_map_None. intros Hin. apply (Hdis _ Hin). by left. }
    rewrite Hnone in IH. unfold change_of_new, apply_change.
    destruct (old_map !! id x) as [o|] eqn:Eo; [|exists x; simpl; by rewrite lookup_insert_eq].
    destruct (entities_differ o x) eqn:Ed; simpl; [exists x; by rewrite lookup_insert_eq|].
    exists o. rewrite IH, Hm, Eo by (rewrite map_app, elem_of_app; right; by left).
    split; [done|]. by apply entities_differ_false.
  - rewrite lookup_insert_ne by done.
    assert (apply_change m' (change_of_new old_map x) !! i = m' !! i) as ->; [|done].
    unfold change_of_new, apply_change.
    destruct (old_map !! id x) as [o|]; [destruct (entities_differ o x)|]; simpl; try done;
      by rewrite lookup_insert_ne.
Qed.

Lemma patch_deletions new_map old m i :
  patch m (concat (map (deletion_of_old new_map) old)) !! i =
  if decide (i ∈ map id old ∧ new_map !! i = None) then None else m !! i.
Proof.
  revert m. induction old as [|x old IH]; intros m; cbn [map concat].
  { rewrite decide_False; [done|]. by intros [[]%not_elem_of_nil _]. }
  unfold patch in *. rewrite foldl_app, IH. unfold deletion_of_old.
  destruct (decide (id x = i)) as [<-|Hne].
  - destruct (new_map !! id x) as [e|] eqn:E; cbn [foldl apply_change].
    + rewrite !decide_False; [done| |]; by intros [_ ?].
    + rewrite (decide_True (P := id x ∈ id x :: map id old ∧ None = None)) by (split; [by left|done]).
      case_decide; [done|]. unfold apply_change; simpl. by rewrite lookup_delete_eq.
  - assert (foldl apply_change m (match new_map !! id x with Some _ => [] | None =>
      [with_previous_entity (entity_change_new (id x) (name x) EntityDeleted) x] end) !! i = m !! i)
      as ->.
    { destruct (new_map !! id x); [done|]. unfold apply_change; simpl.
      by rewrite lookup_delete_ne. }
    apply decide_ext. rewrite elem_of_cons. naive_solver.
Qed.

(** C33. The reported changes are a patch: applied to the entities of the old
    version they give exactly the ids of the new version, each with an entity
    that agrees with the new one on every compared field. *)
Theorem entity_changes_patch old new (Ho : NoDup (map id old)) (Hn : NoDup (map id new)) :
  let patched := patch (id_map old) (compute_entity_changes old new) in
  ∀ i, match id_map new !! i with
       | Some e => ∃ e', patched !! i = Some e' ∧ agree e' e
       | None => patched !! i = None
       end.
Proof.
  intros patched i. subst patched. unfold compute_entity_changes.
  pose proof (patch_new (id_map old) new (id_map old) i Hn (λ _ _, eq_refl)) as Hp.
  unfold patch at 1 2. rewrite foldl_app. fold (patch (id_map old) (map (change_of_new (id_map old)) new)).
  fold (patch (patch (id_map old) (map (change_of_new (id_map old)) new))
          (concat (map (deletion_of_old (id_map new)) old))).
  destruct (id_map new !! i) as [e|] eqn:E.
  - destruct Hp as (e' & Hp & Ha). exists e'. split; [|done].
    rewrite patch_deletions, decide_False; [done|]. intros [_ ?]. congruence.
  - rewrite patch_deletions. case_decide as Hd; [done|]. rewrite Hp.
    apply id_map_None. intros Hin. by apply Hd.
Qed.

Lemma change_of_new_unchanged old_map e :
  is_unchanged (change_of_new old_map e) = true ↔
  ∃ o, old_map !! id e = Some o ∧ agree o e.
Proof.
  unfold change_of_new. destruct (old_map !! id e) as [o|]; [|split; [done|by intros (? & ? & _)]].
  destruct (entities_differ o e) eqn:E.
  - split; [done|]. intros (o' & [= <-] & Ha%entities_differ_false). congruence.
  - split; [|done]. intros _. exists o. by rewrite <- entities_differ_false.
Qed.

Lemma existsb_false {A} (p : A → bool) l : existsb p l = false ↔ ∀ x, x ∈ l → p x = false.
Proof.
  induction l as [|x l IH]; simpl; [split; [by intros _ ? []%not_elem_of_nil|done]|].
  rewrite orb_false_iff, IH. split.
  - intros [Hx Hl] y [->|Hy]%elem_of_cons; auto.
  - intros H. split; [apply H; left|]. intros y Hy. apply H. by right.
Qed.

(** A comparison reports no change at all exactly when the two versions
    have the same ids and agree on the compared fields. Documentation,
    modifiers, nesting and the text of the body are not among them: an edit
    that keeps an entity's span and only touches those is reported as
    unchanged. *)
Theorem no_entity_changes_iff r old new (Ho : NoDup (map id old)) (Hn : NoDup (map id new)) :
  has_entity_changes (set_entity_changes (compute_entity_changes old new) r) = false ↔
  (∀ i, i ∈ map id old ↔ i ∈ map id new) ∧
  (∀ a b, a ∈ old → b ∈ new → id a = id b → agree a b).
Proof.
  unfold has_entity_changes. simpl. rewrite existsb_false. unfold compute_entity_changes.
  split.
  - intros H.
    assert (∀ e, e ∈ new → ∃ o, o ∈ old ∧ id o = id e ∧ agree o e) as Hnew.
    { intros e He. assert (is_unchanged (change_of_new (id_map old) e) = true) as Hu.
      { apply negb_false_iff, H, elem_of_app. left. by apply list_elem_of_fmap_2. }
      apply change_of_new_unchanged in Hu as (o & [Hin Hid]%id_map_Some & Ha); [|done].
      by exists o. }
    split.
    + intros i. split.
      * intros (o & -> & Hin)%list_elem_of_fmap.
        destruct (id_map new !! id o) as [e|] eqn:E.
        { apply id_map_Some in E as [He <-]; [|done]. by apply list_elem_of_fmap_2. }
        assert (negb (is_unchanged (with_previous_entity
          (entity_change_new (id o) (name o) EntityDeleted) o)) = false) as Hf; [|done].
        apply H, elem_of_app. right. apply list_elem_of_In, in_concat.
        exists (deletion_of_old (id_map new) o). split.
        { apply list_elem_of_In. by apply list_elem_of_fmap_2. }
        unfold deletion_of_old. rewrite E. by left.
      * intros (e & -> & (o & Hin & <- & _)%Hnew)%list_elem_of_fmap. by apply list_elem_of_fmap_2.
    + intros a b Ha (o & Hin & Hid & Hab)%Hnew Heq.
      assert (Some o = Some a) as [= ->]; [|done].
      trans (id_map old !! id b); [symmetry|]; by apply id_map_Some.
  - intros [Hids Hag] c [Hc|Hc]%elem_of_app; apply negb_false_iff.
    + apply list_elem_of_fmap in Hc as (e & -> & He). apply change_of_new_unchanged.
      assert (id e ∈ map id old) as (o & Hid & Hin)%list_elem_of_fmap
        by (apply Hids; by apply list_elem_of_fmap_2).
      exists o. split; [by apply id_map_Some|]. by apply Hag.
    + apply list_elem_of_In, in_concat in Hc as (l & Hl & Hc).
      apply list_elem_of_In in Hc. apply list_elem_of_In, list_elem_of_fmap in Hl as (o & -> & Ho').
      assert (id o ∈ map id new) as (e & Hid & Hin)%list_elem_of_fmap
        by (apply Hids; by apply list_elem_of_fmap_2).
      unfold deletion_of_old in Hc. rewrite (proj2 (id_map_Some new (id o) e Hn)) in Hc by done.
      by apply not_elem_of_nil in Hc.
Qed.

End entities.

(** ** Witnesses *)

Definition at_line (n : Z) : Span :=
  {| start_byte := 0; end_byte := 10; start_position := {| row := n; column := 0 |};
     end_position := {| row := n; column := 10 |} |}.

Definition function (i : Z) (n doc : string) : Entity (EntityKind := bool) (StdlibCategory := unit) :=
  {| id := i; kind := true; name := n; signature := "fn " +:+ n; parameters := [];
     return_type := None; span := at_line i; depth := 0; parent := None; children := [];
     doc_comment := Some doc; modifiers := []; attributes := ∅; metadata := ∅;
     is_stdlib := false; stdlib_category := None; subtype := None |}.

Lemma entity_changes_patch_witness :
  let old := [function 1 "f" "old doc"; function 2 "g" ""] in
  let new := [function 1 "f" "new doc"; function 3 "h" ""] in
  let patched := patch (id_map old) (compute_entity_changes old new) in
  (NoDup (map id old) ∧ NoDup (map id new)) ∧
  ∀ i, match id_map new !! i with
       | Some e => ∃ e', patched !! i = Some e' ∧ agree e' e
       | None => patched !! i = None
       end.
Proof.
  assert (NoDup (map id [function 1 "f" "old doc"; function 2 "g" ""])) as Ho
    by (apply (bool_decide_unpack _); vm_compute; exact I).
  assert (NoDup (map id [function 1 "f" "new doc"; function 3 "h" ""])) as Hn
    by (apply (bool_decide_unpack _); vm_compute; exact I).
  split; [by split|].
  exact (entity_changes_patch [function 1 "f" "old doc"; function 2 "g" ""]
           [function 1 "f" "new doc"; function 3 "h" ""] Ho Hn).
Defined.

Lemma no_entity_changes_iff_witness :
  let old := [function 1 "f" "old doc"] in
  let new := [function 1 "f" "new doc"] in
  let r := parse_result_new (ParsedFile := unit) (FileSummary := unit) (λ _, tt) "a.rs" tt
             Modified false in
  has_entity_changes (set_entity_changes (compute_entity_changes old new) r) = false ↔
  (∀ i, i ∈ map id old ↔ i ∈ map id new) ∧
  (∀ a b, a ∈ old → b ∈ new → id a = id b → agree a b).
Proof.
  apply (no_entity_changes_iff (parse_result_new (ParsedFile := unit) (FileSummary := unit)
           (λ _, tt) "a.rs" tt Modified false) [function 1 "f" "old doc"]
           [function 1 "f" "new doc"]);
    apply (bool_decide_unpack _); vm_compute; exact I.
Defined.

End EntityDiff.
