(* ===== verification/EdgeSet.v ===== *)
(** * Relation edges and edge sets

    Models crates/parser/cce-codegraph/src/index/core/edge_set.rs: the
    identity of a resolved relation, and the ordered set of edges of one caller
    with a hash set of their identities beside it. The relation record and its
    predicates are those of crates/core/cce-types/src/types/relation/resolved.rs
    and relation.rs. *)

From S2P Require Import Prelude SortedVec EntityDiff Kinds.
From Stdlib Require Import ZArith Lia.
#[local] Open Scope Z_scope.

Module EdgeSet.
Import Kinds.

(** [EntityId] wraps a [u64]. *)
Abbreviation EntityId := Z.
Abbreviation Span := EntityDiff.Span.

(** ** Resolved relations *)

Inductive CallContext :=
| ContextDirect
| InstanceMethod (receiver_type : string)
| StaticMethod (owner : string)
| ConstructorOf (owner : string)
| VirtualDispatch (receiver_type : string).

Record RelationSymbolLocation := {
  location_file_path : string;
  package_path : option string;
  module_path : option string;
  location_span : Span;
}.

Record RelationSymbolRecord := {
  symbol_id : Z;
  symbol_entity_id : option EntityId;
  symbol_name : string;
  symbol_kind : EntityKind;
  location : RelationSymbolLocation;
  source_module : option string;
}.

Record ResolvedRelation := {
  caller : EntityId;
  callee_id : option EntityId;
  callee_name : string;
  relation_type : RelationType;
  relation_span : Span;
  is_external : bool;
  external_type : option ExternalCallType;
  callee_symbol : option RelationSymbolRecord;
  stdlib_category : option StdlibCategory;
  owner_type : option string;
  call_context : CallContext;
  overload_signature : option string;
  call_frequency : Z;
  cfg_condition : option string;
}.

Definition is_internal (r : ResolvedRelation) : bool := bool_decide (is_Some (callee_id r)).
Definition is_external_inferred (r : ResolvedRelation) : bool := bool_decide (callee_id r = None).
Definition is_consistent (r : ResolvedRelation) : bool :=
  Bool.eqb (is_external r) (is_external_inferred r).

Definition callee_name_from_index (lookup : EntityId → option string) (r : ResolvedRelation)
    : option string :=
  match callee_id r with
  | Some i => lookup i
  | None => Some (callee_name r)
  end.

Definition is_stdlib (r : ResolvedRelation) : bool :=
  match external_type r with Some (StandardLibrary _) => true | _ => false end.

Definition has_stdlib_info (r : ResolvedRelation) : bool :=
  bool_decide (is_Some (stdlib_category r)) || is_stdlib r.

(** ** Identities *)

Inductive RelationEdgeKind :=
| Internal (callee : EntityId) (type : RelationType)
| External (type : RelationType) (classification : option ExternalCallType) (name : string)
| Unresolved (type : RelationType) (raw_target : string).

Record RelationEdgeIdentity := {
  identity_caller : EntityId;
  identity_kind : RelationEdgeKind;
  callsite : option Span;
}.

#[local] Existing Instance EntityDiff.Span_eq_dec.

#[export] Instance RelationEdgeKind_eq_dec : EqDecision RelationEdgeKind.
Proof. solve_decision. Defined.
#[export] Instance RelationEdgeIdentity_eq_dec : EqDecision RelationEdgeIdentity.
Proof. solve_decision. Defined.

Definition relation_identity (r : ResolvedRelation) : RelationEdgeIdentity :=
  {| identity_caller := caller r;
     identity_kind :=
       match callee_id r with
       | Some i => Internal i (relation_type r)
       | None =>
           if is_external r
           then External (relation_type r) (external_type r) (callee_name r)
           else Unresolved (relation_type r) (callee_name r)
       end;
     callsite := if is_call (relation_type r) then Some (relation_span r) else None |}.

(** ** Edge sets

    The hash set of identities is a list without duplicates. *)
Record RelationEdgeSet := {
  edges : list ResolvedRelation;
  identities : list RelationEdgeIdentity;
  callers : list EntityId;
}.

Definition empty_edge_set : RelationEdgeSet :=
  {| edges := []; identities := []; callers := [] |}.

Definition len (s : RelationEdgeSet) : nat := length (edges s).
Definition is_empty (s : RelationEdgeSet) : bool := bool_decide (edges s = []).
Definition contains_identity (i : RelationEdgeIdentity) (s : RelationEdgeSet) : bool :=
  bool_decide (i ∈ identities s).

(** [HashSet::remove] *)
Definition remove_identity (i : RelationEdgeIdentity) (l : list RelationEdgeIdentity) :=
  retain (λ j, negb (bool_decide (j = i))) l.

Definition insert (r : ResolvedRelation) (s : RelationEdgeSet) : bool * RelationEdgeSet :=
  let identity := relation_identity r in
  if contains_identity identity s then (false, s)
  else (true, {| edges := edges s ++ [r]; identities := identity :: identities s;
                 callers := callers s |}).

Definition remove_by_identity (i : RelationEdgeIdentity) (s : RelationEdgeSet)
    : bool * RelationEdgeSet :=
  if contains_identity i s
  then (true, {| edges := Prelude.retain (λ e, negb (bool_decide (relation_identity e = i))) (edges s);
                 identities := remove_identity i (identities s); callers := callers s |})
  else (false, s).

(** The loop over the index: an edge that fails the predicate is removed
    together with its identity. *)
Fixpoint retain_edges (f : ResolvedRelation → bool) (es : list ResolvedRelation)
    (ids : list RelationEdgeIdentity) : list ResolvedRelation * list RelationEdgeIdentity :=
  match es with
  | [] => ([], ids)
  | e :: es =>
      if f e then let '(es', ids') := retain_edges f es ids in (e :: es', ids')
      else retain_edges f es (remove_identity (relation_identity e) ids)
  end.

Definition retain (f : ResolvedRelation → bool) (s : RelationEdgeSet) : RelationEdgeSet :=
  let '(es, ids) := retain_edges f (edges s) (identities s) in
  {| edges := es; identities := ids; callers := callers s |}.

Definition add_caller (c : EntityId) (s : RelationEdgeSet) : RelationEdgeSet :=
  {| edges := edges s; identities := identities s;
     callers := sorted_insert Z.ltb c (callers s) |}.

Definition remove_caller (c : EntityId) (s : RelationEdgeSet) : bool * RelationEdgeSet :=
  (match binary_search Z.ltb c (callers s) with Found _ => true | InsertAt _ => false end,
   {| edges := edges s; identities := identities s;
      callers := sorted_remove Z.ltb c (callers s) |}).

Definition is_callers_empty (s : RelationEdgeSet) : bool := bool_decide (callers s = []).

(** ** Well-formedness *)

(** The identity set is the set of the identities of the edges, no identity
    occurs twice, and the callers are sorted without duplicates. *)
Record edge_set_ok (s : RelationEdgeSet) : Prop := {
  ok_identities : ∀ i, i ∈ identities s ↔ i ∈ map relation_identity (edges s);
  ok_distinct : NoDup (map relation_identity (edges s));
  ok_callers : sorted Z.ltb (callers s);
}.

(** The values an edge set can take. *)
Inductive edge_set_step : RelationEdgeSet → RelationEdgeSet → Prop :=
| step_insert r s : edge_set_step s (insert r s).2
| step_remove i s : edge_set_step s (remove_by_identity i s).2
| step_retain f s : edge_set_step s (retain f s)
| step_add_caller c s : edge_set_step s (add_caller c s)
| step_remove_caller c s : edge_set_step s (remove_caller c s).2.

Lemma elem_of_remove_identity i j l : j ∈ remove_identity i l ↔ j ≠ i ∧ j ∈ l.
Proof.
  unfold remove_identity. rewrite elem_of_retain, negb_true_iff, bool_decide_eq_false. tauto.
Qed.

Lemma map_retain_NoDup {A B} (f : A → B) (p : A → bool) (l : list A) :
  NoDup (map f l) → NoDup (map f (Prelude.retain p l)).
Proof. intros Hnd. eapply sublist_NoDup; [exact Hnd|]. apply sublist_map, retain_sublist. Qed.

Lemma insert_ok r s : edge_set_ok s → edge_set_ok (insert r s).2.
Proof.
  intros [Hi Hd Hc]. unfold insert, contains_identity.
  case_bool_decide as Hin; simpl; [by split|]. rewrite Hi in Hin.
  split; simpl; [|rewrite map_app|done].
  - intros i. rewrite elem_of_cons, Hi, map_app, elem_of_app. cbn [map]. rewrite list_elem_of_singleton. tauto.
  - apply NoDup_app. split_and!; [done| |apply NoDup_singleton].
    intros i Hi' ->%list_elem_of_singleton. done.
Qed.

Lemma remove_by_identity_ok i s : edge_set_ok s → edge_set_ok (remove_by_identity i s).2.
Proof.
  intros [Hi Hd Hc]. unfold remove_by_identity. destruct (contains_identity i s); [|done].
  split; simpl; [|by apply map_retain_NoDup|done].
  intros j. rewrite elem_of_remove_identity, Hi, !list_elem_of_fmap.
  setoid_rewrite elem_of_retain. setoid_rewrite negb_true_iff. setoid_rewrite bool_decide_eq_false.
  naive_solver.
Qed.

Lemma retain_edges_spec f es ids :
  NoDup (map relation_identity es) → (∀ e, e ∈ es → relation_identity e ∈ ids) →
  (retain_edges f es ids).1 = Prelude.retain f es ∧
  ∀ i, i ∈ (retain_edges f es ids).2 ↔
    i ∈ ids ∧ (i ∈ map relation_identity es → i ∈ map relation_identity (Prelude.retain f es)).
Proof.
  revert ids. induction es as [|e es IH]; intros ids Hnd Hin; [set_solver|].
  apply NoDup_cons in Hnd as [He Hnd]. simpl. destruct (f e) eqn:Ef.
  - destruct (IH ids Hnd) as [H1 H2]; [set_solver|].
    destruct (retain_edges f es ids) as [es' ids']. simpl in *. subst es'.
    split; [done|]. intros i. rewrite H2. cbn [map]. rewrite !elem_of_cons. split.
    + intros [Hi Hr]. split; [done|]. intros [->|Hi']; [by left|right; by apply Hr].
    + intros [Hi Hr]. split; [done|]. intros Hi'.
      destruct (Hr (or_intror Hi')) as [->|]; [by destruct He|done].
  - destruct (IH (remove_identity (relation_identity e) ids) Hnd) as [H1 H2].
    { intros e' He'. apply elem_of_remove_identity. split; [|set_solver]. intros Heq. apply He.
      rewrite <- Heq. by apply list_elem_of_fmap_2. }
    split; [done|]. intros i. rewrite H2, elem_of_remove_identity, elem_of_cons.
    assert (relation_identity e ∉ map relation_identity (Prelude.retain f es)) as Hn.
    { intros Hr. apply He. eapply elem_of_submseteq; [exact Hr|].
      apply sublist_submseteq, sublist_map, retain_sublist. }
    split.
    + intros [[Hne Hi] Hr]. split; [done|]. intros [->|Hi']; [done|by apply Hr].
    + intros [Hi Hr]. split; [split; [|done]|by auto]. intros ->. apply Hn, Hr. by left.
Qed.

Lemma retain_ok f s : edge_set_ok s → edge_set_ok (retain f s) ∧
  edges (retain f s) = Prelude.retain f (edges s).
Proof.
  intros [Hi Hd Hc]. unfold retain.
  destruct (retain_edges_spec f (edges s) (identities s) Hd) as [H1 H2].
  { intros e He. apply Hi. by apply list_elem_of_fmap_2. }
  destruct (retain_edges f (edges s) (identities s)) as [es ids]. simpl in *. subst es.
  split; [|done]. split; simpl; [|by apply map_retain_NoDup|done].
  intros i. rewrite H2, Hi. split; [tauto|]. intros Hr.
  assert (i ∈ map relation_identity (edges s)); [|done].
  eapply elem_of_submseteq; [exact Hr|]. apply sublist_submseteq, sublist_map, retain_sublist.
Qed.

Lemma add_caller_ok c s : edge_set_ok s → edge_set_ok (add_caller c s).
Proof. intros [Hi Hd Hc]. split; [done..|]. apply sorted_insert_spec; [apply _|done]. Qed.

Lemma remove_caller_ok c s : edge_set_ok s → edge_set_ok (remove_caller c s).2.
Proof. intros [Hi Hd Hc]. split; [done..|]. apply sorted_remove_spec; [apply _|done]. Qed.

Lemma empty_ok : edge_set_ok empty_edge_set.
Proof. split; [done|constructor|constructor]. Qed.

#[export] Instance edge_set_invariant :
  StepInvariant (λ s, s = empty_edge_set) edge_set_step edge_set_ok.
Proof.
  split; [intros s ->; apply empty_ok|]. intros s s' Hs Hstep.
  destruct Hstep; auto using insert_ok, remove_by_identity_ok, add_caller_ok, remove_caller_ok.
  by apply retain_ok.
Qed.

(** Which edges a removal keeps. *)
Lemma remove_by_identity_edges i s :
  edge_set_ok s →
  edges (remove_by_identity i s).2 =
  Prelude.retain (λ e, negb (bool_decide (relation_identity e = i))) (edges s).
Proof.
  intros Hs. unfold remove_by_identity, contains_identity.
  rewrite (bool_decide_ext _ _ (ok_identities _ Hs i)). case_bool_decide as Hin; simpl; [done|].
  symmetry. apply retain_all. intros e He. apply negb_true_iff, bool_decide_eq_false.
  intros Heq. apply Hin. rewrite <- Heq. by apply list_elem_of_fmap_2.
Qed.

Lemma remove_by_identity_callers i s : callers (remove_by_identity i s).2 = callers s.
Proof. unfold remove_by_identity. by destruct (contains_identity i s). Qed.

(** What an insertion does to a well-formed set. *)
Lemma insert_spec r s :
  edge_set_ok s →
  ((insert r s).1 = false ∧ (insert r s).2 = s ∧ relation_identity r ∈ map relation_identity (edges s))
  ∨ ((insert r s).1 = true ∧ edges (insert r s).2 = edges s ++ [r] ∧
     relation_identity r ∉ map relation_identity (edges s)).
Proof.
  intros [Hi Hd Hc]. unfold insert, contains_identity.
  case_bool_decide as Hin; rewrite Hi in Hin; [by left|by right].
Qed.

(** ** Theorems *)

(** Whatever operations are applied to an edge set, its hash
    set holds the identities of its edges and nothing else, two edges never
    share an identity, and its callers are strictly increasing. *)
Theorem edge_set_well_formed (s : RelationEdgeSet) :
  reachable (λ s, s = empty_edge_set) edge_set_step s → edge_set_ok s.
Proof. apply invariant_reachable, edge_set_invariant. Qed.

(** On a well-formed set, [insert] appends an edge exactly when no edge has its
    identity; [remove_by_identity] and [retain] drop exactly the edges meant,
    keeping the order of the others, and report whether there was one. *)
Theorem edge_set_operations (s : RelationEdgeSet) (r : ResolvedRelation) :
  edge_set_ok s →
  edges (insert r s).2 =
    (if decide (relation_identity r ∈ map relation_identity (edges s))
     then edges s else edges s ++ [r]) ∧
  (∀ i, edges (remove_by_identity i s).2 =
        Prelude.retain (λ e, negb (bool_decide (relation_identity e = i))) (edges s) ∧
        (remove_by_identity i s).1 = bool_decide (i ∈ map relation_identity (edges s))) ∧
  (∀ f, edges (retain f s) = Prelude.retain f (edges s)) ∧
  (∀ c d, d ∈ callers (add_caller c s) ↔ d = c ∨ d ∈ callers s) ∧
  (∀ c d, d ∈ callers (remove_caller c s).2 ↔ d ≠ c ∧ d ∈ callers s).
Proof.
  intros Hs. split_and!.
  - destruct (insert_spec r s Hs) as [(_ & -> & H)|(_ & -> & H)]; by destruct (decide _).
  - intros i. split; [by apply remove_by_identity_edges|]. unfold remove_by_identity, contains_identity.
    rewrite (bool_decide_ext _ _ (ok_identities _ Hs i)). by case_bool_decide.
  - intros f. by apply retain_ok.
  - intros c d. apply sorted_insert_spec; [apply _|apply Hs].
  - intros c d. apply sorted_remove_spec; [apply _|apply Hs].
Qed.
Definition span_at (n : Z) : Span :=
  {| EntityDiff.start_byte := n; EntityDiff.end_byte := n + 10;
     EntityDiff.start_position := {| EntityDiff.row := 0; EntityDiff.column := n |};
     EntityDiff.end_position := {| EntityDiff.row := 0; EntityDiff.column := n + 10 |} |}.

Definition call_edge (from to : EntityId) (type : RelationType) (n : Z) : ResolvedRelation :=
  {| caller := from; callee_id := Some to; callee_name := "combine"; relation_type := type;
     relation_span := span_at n; is_external := false; external_type := None;
     callee_symbol := None; stdlib_category := None; owner_type := None;
     call_context := ContextDirect; overload_signature := None; call_frequency := 1;
     cfg_condition := None |}.

Definition demo_set : RelationEdgeSet :=
  (insert (call_edge 1 2 DirectCall 120) (insert (call_edge 1 2 DirectCall 100) empty_edge_set).2).2.

Lemma demo_set_reachable : reachable (λ s, s = empty_edge_set) edge_set_step demo_set.
Proof.
  exists empty_edge_set. split; [done|].
  eapply rtc_l; [apply (step_insert (call_edge 1 2 DirectCall 100))|].
  eapply rtc_l; [apply (step_insert (call_edge 1 2 DirectCall 120))|]. constructor.
Qed.

Theorem edge_set_well_formed_witness :
  reachable (λ s, s = empty_edge_set) edge_set_step demo_set ∧ edge_set_ok demo_set.
Proof. split; [|apply edge_set_well_formed]; apply demo_set_reachable. Defined.

Theorem edge_set_operations_witness :
  edge_set_ok demo_set ∧ length (edges (insert (call_edge 1 2 DirectCall 140) demo_set).2) = 3%nat.
Proof.
  assert (H : edge_set_ok demo_set) by (do 2 apply insert_ok; apply empty_ok). split; [exact H|].
  destruct (edge_set_operations demo_set (call_edge 1 2 DirectCall 140) H) as [-> _].
  vm_compute. reflexivity.
Defined.

(** The tests of the source: calls are distinct per call site, other relations
    are not. *)
Example inheritance_collapses :
  length (edges (insert (call_edge 1 2 Inheritance 500)
    (insert (call_edge 1 2 Inheritance 100) empty_edge_set).2).2) = 1%nat.
Proof. reflexivity. Qed.

End EdgeSet.
