(* ===== verification/EntityIndex.v ===== *)
(** * The entity store of the code graph

    Models the entity maps of [RelationIndex] (crates/parser/cce-codegraph/
    src/index/core.rs), grouped as in stores/entity_store.rs, with the
    operations of core.rs and entity_index.rs on them: entities by id, the
    inverted index by name, the file of an entity, and for every file its
    entities ordered by the row they start in, which answers line-range
    queries. *)

From S2P Require Import Prelude MultiMap SortedVec EntityDiff Kinds.
From stdpp Require Import fin_sets.
From Stdlib Require Import ZArith Lia.
#[local] Open Scope Z_scope.

Module EntityIndex.
Import Kinds.

Abbreviation EntityId := Z.
Abbreviation Entity := (@EntityDiff.Entity EntityKind StdlibCategory).
Abbreviation entity_name := EntityDiff.name.

Definition start_row (e : Entity) : Z :=
  EntityDiff.row (EntityDiff.start_position (EntityDiff.span e)).
Definition end_row (e : Entity) : Z :=
  EntityDiff.row (EntityDiff.end_position (EntityDiff.span e)).

Record EntityStore := {
  function_index : gmap EntityId Entity;
  name_index : gmap string (list EntityId);
  entity_file_index : gmap EntityId string;
  file_entities_by_start : gmap string (list (Z * EntityId));
  entity_id_counter : Z;
  entity_id_remaps : gmap string (gmap EntityId EntityId);
}.

Definition new : EntityStore :=
  {| function_index := ∅; name_index := ∅; entity_file_index := ∅;
     file_entities_by_start := ∅; entity_id_counter := 0; entity_id_remaps := ∅ |}.

Definition new_with_entity_id_start (start : Z) : EntityStore :=
  {| function_index := ∅; name_index := ∅; entity_file_index := ∅;
     file_entities_by_start := ∅; entity_id_counter := start; entity_id_remaps := ∅ |}.

Definition set_counter (n : Z) (s : EntityStore) : EntityStore :=
  {| function_index := function_index s; name_index := name_index s;
     entity_file_index := entity_file_index s;
     file_entities_by_start := file_entities_by_start s; entity_id_counter := n;
     entity_id_remaps := entity_id_remaps s |}.

Definition set_functions (f : gmap EntityId Entity) (n : gmap string (list EntityId))
    (s : EntityStore) : EntityStore :=
  {| function_index := f; name_index := n; entity_file_index := entity_file_index s;
     file_entities_by_start := file_entities_by_start s;
     entity_id_counter := entity_id_counter s; entity_id_remaps := entity_id_remaps s |}.

Definition set_files (f : gmap EntityId string) (s : EntityStore) : EntityStore :=
  {| function_index := function_index s; name_index := name_index s; entity_file_index := f;
     file_entities_by_start := file_entities_by_start s;
     entity_id_counter := entity_id_counter s; entity_id_remaps := entity_id_remaps s |}.

Definition set_starts (m : gmap string (list (Z * EntityId))) (s : EntityStore) : EntityStore :=
  {| function_index := function_index s; name_index := name_index s;
     entity_file_index := entity_file_index s; file_entities_by_start := m;
     entity_id_counter := entity_id_counter s; entity_id_remaps := entity_id_remaps s |}.

Definition set_remaps (m : gmap string (gmap EntityId EntityId)) (s : EntityStore) : EntityStore :=
  {| function_index := function_index s; name_index := name_index s;
     entity_file_index := entity_file_index s;
     file_entities_by_start := file_entities_by_start s;
     entity_id_counter := entity_id_counter s; entity_id_remaps := m |}.

(** ** Identifiers *)

Definition SYNTHETIC_MARK : Z := Z.shiftl 1 63.
Definition is_synthetic_id (i : EntityId) : bool := negb (Z.land i SYNTHETIC_MARK =? 0).
(** [id & !MARK] on 64 bits. *)
Definition synthetic_counter (i : EntityId) : Z := Z.land i (Z.lxor u64_max SYNTHETIC_MARK).

Definition allocate_entity_id (s : EntityStore) : EntityId * EntityStore :=
  (entity_id_counter s, set_counter (wrap64 (entity_id_counter s + 1)) s).

(** The compare-and-swap loop of one thread raises the counter to [next]. *)
Definition ensure_counter_at_least (next : Z) (s : EntityStore) : EntityStore :=
  if entity_id_counter s <? next then set_counter next s else s.

Definition scanned_max (s : EntityStore) : Z :=
  foldr (λ p m, Z.max p.1 m) 0 (map_to_list (function_index s)).

Definition max_entity_id (s : EntityStore) : Z * EntityStore :=
  if decide (function_index s = ∅) then (0, s)
  else
    let counter := entity_id_counter s in
    let max_id := scanned_max s in
    if 0 <? counter then
      if counter <? wrap64 (max_id + 1) then
        (max_id, ensure_counter_at_least (wrap64 (max_id + 1)) s)
      else (sat_sub counter 1, s)
    else (max_id, ensure_counter_at_least (wrap64 (max_id + 1)) s).

(** ** Rows of a file *)

(** Insert at the result of the search, unless the entry there is of the same
    entity. *)
Definition insert_row (row : Z) (i : EntityId) (vec : list (Z * EntityId)) :=
  let pos := match binary_search pair_ltb (row, i) vec with Found p => p | InsertAt p => p end in
  match vec !! pos with
  | Some (_, j) => if decide (j = i) then vec else insert_at pos (row, i) vec
  | None => insert_at pos (row, i) vec
  end.

Definition track_file_entity (file_path : string) (row : Z) (i : EntityId) (s : EntityStore)
    : EntityStore :=
  let vec := default [] (file_entities_by_start s !! file_path) in
  set_starts (<[file_path := insert_row row i vec]> (file_entities_by_start s)) s.

Definition remove_row (i : EntityId) (vec : list (Z * EntityId)) :=
  match position (λ p, bool_decide (p.2 = i)) vec with
  | Some pos => remove_at pos vec
  | None => vec
  end.

Definition untrack_file_entity (file_path : string) (i : EntityId) (s : EntityStore)
    : EntityStore :=
  match file_entities_by_start s !! file_path with
  | None => s
  | Some vec =>
      let vec' := remove_row i vec in
      set_starts (if decide (vec' = []) then delete file_path (file_entities_by_start s)
                  else <[file_path := vec']> (file_entities_by_start s)) s
  end.

(** ** Names *)

Definition bucket (n : string) (m : gmap string (list EntityId)) : list EntityId :=
  default [] (m !! n).

Definition drop_name (n : string) (i : EntityId) (m : gmap string (list EntityId)) :=
  match m !! n with
  | None => m
  | Some b =>
      let b' := retain (λ j, negb (bool_decide (j = i))) b in
      if decide (b' = []) then delete n m else <[n := b']> m
  end.

Definition add_name (n : string) (i : EntityId) (m : gmap string (list EntityId)) :=
  let b := bucket n m in
  <[n := if decide (i ∈ b) then b else b ++ [i]]> m.

(** ** Entities *)

(** The inverted index without the stale name of a registered entity. *)
Definition drop_stale_name (i : EntityId) (e : Entity) (s : EntityStore) :=
  match function_index s !! i with
  | Some existing =>
      if decide (entity_name existing = entity_name e) then name_index s
      else drop_name (entity_name existing) i (name_index s)
  | None => name_index s
  end.

Definition insert_function (i : EntityId) (e : Entity) (s : EntityStore) : EntityStore :=
  ensure_counter_at_least (wrap64 (i + 1))
    (set_functions (<[i := e]> (function_index s))
       (add_name (entity_name e) i (drop_stale_name i e s)) s).

Definition add_function := insert_function.

(** The row of an entity that is registered again. *)
Definition untrack_existing (i : EntityId) (s : EntityStore) : EntityStore :=
  match function_index s !! i with
  | Some _ =>
      match entity_file_index s !! i with
      | Some old_file => untrack_file_entity old_file i s
      | None => s
      end
  | None => s
  end.

Definition add_function_with_path (i : EntityId) (e : Entity) (file_path : string)
    (s : EntityStore) : EntityStore :=
  let row := wrap32 (start_row e) in
  let s := add_function i e (untrack_existing i s) in
  let s := set_files (<[i := file_path]> (entity_file_index s)) s in
  track_file_entity file_path row i s.

Definition add_functions (fs : list (EntityId * Entity)) (s : EntityStore) : EntityStore :=
  foldl (λ s p, add_function p.1 p.2 s) s fs.

Definition add_functions_with_paths (fs : list (EntityId * Entity * string)) (s : EntityStore)
    : EntityStore :=
  foldl (λ s p, add_function_with_path p.1.1 p.1.2 p.2 s) s fs.

(** The part of [remove_function] on these maps. *)
Definition remove_function (i : EntityId) (s : EntityStore) : option Entity * EntityStore :=
  let file_path := entity_file_index s !! i in
  match function_index s !! i with
  | None => (None, s)
  | Some e =>
      let s := set_functions (delete i (function_index s))
                 (drop_name (entity_name e) i (name_index s)) s in
      (Some e, match file_path with Some f => untrack_file_entity f i s | None => s end)
  end.

(** [entity_file_index.remove], which follows [remove_function] in every
    caller. *)
Definition remove_membership (i : EntityId) (s : EntityStore) : EntityStore :=
  set_files (delete i (entity_file_index s)) s.

Definition register_external_entity_name (n : string) (i : EntityId) (file_path : string)
    (s : EntityStore) : EntityStore :=
  set_files (<[i := file_path]> (entity_file_index s))
    (set_functions (function_index s) (add_name n i (name_index s)) s).

(** ** Queries *)

Definition get_function_ids_by_name (n : string) (s : EntityStore) : list EntityId :=
  bucket n (name_index s).
Definition contains_function (i : EntityId) (s : EntityStore) : bool :=
  bool_decide (is_Some (function_index s !! i)).
Definition function_count (s : EntityStore) : nat := size (function_index s).
Definition get_file_path_by_entity (i : EntityId) (s : EntityStore) : option string :=
  entity_file_index s !! i.

Definition overlaps (start_line end_line : Z) (i : EntityId) (s : EntityStore) : bool :=
  match function_index s !! i with
  | Some e => (start_row e <=? end_line) && (start_line <=? end_row e)
  | None => false
  end.

(** [partition_point] of a vector on which the predicate holds for a prefix. *)
Fixpoint partition_point {A} (p : A → bool) (l : list A) : nat :=
  match l with
  | x :: l => if p x then S (partition_point p l) else 0
  | [] => 0
  end.

Section queries.
Context `{!SetIter EntityId}.

Definition get_entity_ids_by_file (file : string) (s : EntityStore) : list EntityId :=
  retain (λ i, bool_decide (entity_file_index s !! i = Some file))
    (set_iter (dom (entity_file_index s))).

Definition get_entities_by_file (file : string) (s : EntityStore) : list (EntityId * Entity) :=
  omap (λ i, pair i <$> function_index s !! i) (get_entity_ids_by_file file s).

(** The scan over all entities. *)
Definition scan_line_range (file : string) (start_line end_line : Z) (s : EntityStore)
    : list EntityId :=
  retain (λ i, overlaps start_line end_line i s) (get_entity_ids_by_file file s).

Definition get_entities_in_line_range (file : string) (start_line end_line : Z)
    (s : EntityStore) : list EntityId :=
  match file_entities_by_start s !! file with
  | Some (p :: vec) =>
      let vec := p :: vec in
      let upper := partition_point (λ q, q.1 <=? end_line) vec in
      retain (λ i, overlaps start_line end_line i s) (map snd (take upper vec))
  | _ => scan_line_range file start_line end_line s
  end.
End queries.

(** ** The indexes by name *)

Definition buckets_ok (m : gmap string (list EntityId)) : Prop :=
  map_Forall (λ _ b, b ≠ [] ∧ NoDup b) m.

Lemma bucket_insert n b m n' :
  bucket n' (<[n := b]> m) = if decide (n = n') then b else bucket n' m.
Proof.
  unfold bucket. destruct (decide (n = n')) as [->|];
    [by rewrite lookup_insert_eq | by rewrite lookup_insert_ne].
Qed.

Lemma bucket_delete n m n' :
  bucket n' (delete n m) = if decide (n = n') then [] else bucket n' m.
Proof.
  unfold bucket. destruct (decide (n = n')) as [->|];
    [by rewrite lookup_delete_eq | by rewrite lookup_delete_ne].
Qed.

Lemma drop_name_spec n i m n' j :
  j ∈ bucket n' (drop_name n i m) ↔ j ∈ bucket n' m ∧ ¬ (n' = n ∧ j = i).
Proof.
  unfold drop_name. destruct (m !! n) as [b|] eqn:E.
  - assert (bucket n m = b) as Hb by (unfold bucket; by rewrite E).
    assert (∀ j, j ∈ retain (λ j, negb (bool_decide (j = i))) b ↔ j ∈ b ∧ j ≠ i) as Hr.
    { intros k. by rewrite elem_of_retain, negb_true_iff, bool_decide_eq_false. }
    destruct (decide _) as [He|He]; rewrite ?bucket_delete, ?bucket_insert;
      destruct (decide (n = n')) as [<-|Hn]; rewrite ?Hb; [|naive_solver| |naive_solver].
    + rewrite He in Hr. specialize (Hr j). set_solver.
    + rewrite Hr. naive_solver.
  - assert (bucket n m = []) as Hb by (unfold bucket; by rewrite E).
    split; [|tauto]. intros Hj. split; [done|]. intros [-> ->]. rewrite Hb in Hj. set_solver.
Qed.

Lemma drop_name_ok n i m : buckets_ok m → buckets_ok (drop_name n i m).
Proof.
  intros Hm. unfold drop_name. destruct (m !! n) as [b|] eqn:E; [|done].
  destruct (decide _); [by apply map_Forall_delete|]. apply map_Forall_insert_2; [|done].
  split; [done|]. eapply sublist_NoDup; [|apply retain_sublist]. by apply (Hm n b).
Qed.

Lemma add_name_spec n i m n' j :
  j ∈ bucket n' (add_name n i m) ↔ j ∈ bucket n' m ∨ (n' = n ∧ j = i).
Proof.
  unfold add_name. rewrite bucket_insert. destruct (decide (n = n')) as [<-|]; [|naive_solver].
  destruct (decide (i ∈ bucket n m)); set_solver.
Qed.

Lemma add_name_ok n i m : buckets_ok m → buckets_ok (add_name n i m).
Proof.
  intros Hm. unfold add_name. apply map_Forall_insert_2; [|done].
  assert (NoDup (bucket n m)) as Hnd.
  { unfold bucket. destruct (m !! n) as [b|] eqn:E; simpl; [by apply (Hm n b)|constructor]. }
  destruct (decide (i ∈ bucket n m)) as [Hi|Hi].
  { split; [|done]. intros He. rewrite He in Hi. by apply elem_of_nil in Hi. }
  split; [destruct (bucket n m); done|]. apply NoDup_app. split_and!; [done| |].
  - by intros x Hx ->%list_elem_of_singleton.
  - apply NoDup_singleton.
Qed.

(** ** The rows of a file *)

Abbreviation starts := (gmap string (list (Z * EntityId))).

Definition row_in (m : starts) (f : string) (r : Z) (i : EntityId) : Prop :=
  (r, i) ∈ default [] (m !! f).

Definition rows_ok (m : starts) : Prop :=
  map_Forall (λ _ vec, vec ≠ [] ∧ sorted pair_ltb vec) m.

Lemma rows_sorted m f : rows_ok m → sorted pair_ltb (default [] (m !! f)).
Proof.
  intros Hm. destruct (m !! f) as [vec|] eqn:E; simpl; [by apply (Hm f vec)|constructor].
Qed.

Lemma insert_row_sorted row i vec :
  sorted pair_ltb vec → (∀ r, (r, i) ∉ vec) → insert_row row i vec = sorted_insert pair_ltb (row, i) vec.
Proof.
  intros Hvec Hfresh. unfold insert_row, sorted_insert.
  destruct (binary_search_spec pair_ltb (row, i) vec Hvec) as
    (l1 & l2 & H1 & H2 & [[-> Hl]|[-> Hl]]).
  - exfalso. apply (Hfresh row). rewrite Hl. apply elem_of_app. right. by left.
  - destruct (vec !! length l1) as [[r j]|] eqn:E; [|done].
    destruct (decide (j = i)) as [->|]; [|done]. exfalso. apply (Hfresh r).
    by eapply list_elem_of_lookup_2.
Qed.

Lemma remove_row_spec i vec :
  sorted pair_ltb vec → (∀ r r', (r, i) ∈ vec → (r', i) ∈ vec → r = r') →
  sorted pair_ltb (remove_row i vec) ∧
  ∀ r j, (r, j) ∈ remove_row i vec ↔ (r, j) ∈ vec ∧ j ≠ i.
Proof.
  intros Hs Huniq. unfold remove_row. destruct (position _ vec) as [pos|] eqn:Ep.
  - apply position_Some in Ep as (l1 & [r0 j0] & l2 & -> & <- & Hj & _).
    apply bool_decide_eq_true in Hj. simpl in Hj. subst j0. rewrite remove_at_app.
    pose proof (sorted_NoDup pair_ltb _ Hs) as Hnd.
    apply sorted_vec_app in Hs as (H1 & [H2 H3]%sorted_vec_cons & H4). split.
    { apply sorted_vec_app. split_and!; [done..|]. intros x y Hx Hy. apply H4; [done|by right]. }
    intros r j. rewrite !elem_of_app, elem_of_cons. split; [|naive_solver]. intros Hr.
    split; [naive_solver|]. intros ->.
    assert (r = r0) as ->.
    { apply Huniq; rewrite elem_of_app, elem_of_cons; tauto. }
    apply NoDup_app in Hnd as (_ & Hd & Hnd2). apply NoDup_cons in Hnd2 as [Hnd2 _].
    destruct Hr as [Hr|Hr]; [apply (Hd _ Hr); by left|done].
  - split; [done|]. intros r j. split; [|tauto]. intros Hr. split; [done|]. intros ->.
    pose proof (position_None _ _ Ep _ Hr) as Hc. by apply bool_decide_eq_false in Hc.
Qed.

Lemma track_spec f row i s :
  rows_ok (file_entities_by_start s) →
  (∀ r, ¬ row_in (file_entities_by_start s) f r i) →
  let m := file_entities_by_start (track_file_entity f row i s) in
  rows_ok m ∧ ∀ f' r j,
    row_in m f' r j ↔ row_in (file_entities_by_start s) f' r j ∨ (f' = f ∧ r = row ∧ j = i).
Proof.
  intros Hok Hfresh. simpl. pose proof (rows_sorted _ f Hok) as Hvec.
  rewrite insert_row_sorted by done.
  destruct (sorted_insert_spec pair_ltb (row, i) _ Hvec) as [Hs Hin]. split.
  - apply map_Forall_insert_2; [|done]. split; [|done]. intros He.
    assert ((row, i) ∈ ([] : list (Z * Z))) as Hx; [|by apply elem_of_nil in Hx].
    rewrite <- He. apply Hin. by left.
  - intros f' r j. unfold row_in. destruct (decide (f' = f)) as [->|Hne].
    + rewrite lookup_insert_eq. simpl. rewrite Hin. split; [|intuition congruence].
      intros [[= -> ->]|]; auto.
    + rewrite lookup_insert_ne by done. naive_solver.
Qed.

Lemma untrack_spec f i s :
  rows_ok (file_entities_by_start s) →
  (∀ r r', row_in (file_entities_by_start s) f r i → row_in (file_entities_by_start s) f r' i → r = r') →
  let m := file_entities_by_start (untrack_file_entity f i s) in
  rows_ok m ∧ ∀ f' r j,
    row_in m f' r j ↔ row_in (file_entities_by_start s) f' r j ∧ ¬ (f' = f ∧ j = i).
Proof.
  intros Hok Huniq. unfold untrack_file_entity, row_in in *.
  destruct (file_entities_by_start s !! f) as [vec|] eqn:E; simpl in *.
  2:{ split; [done|]. intros f' r j. split; [|tauto]. intros Hr. split; [done|]. intros [-> ->].
      rewrite E in Hr. by apply elem_of_nil in Hr. }
  assert (Hs : sorted pair_ltb vec) by (by apply (Hok f vec)).
  destruct (remove_row_spec i vec Hs Huniq) as [Hs' Hin]. split.
  - destruct (decide (remove_row i vec = [])); [by apply map_Forall_delete|].
    by apply map_Forall_insert_2.
  - intros f' r j. destruct (decide (f' = f)) as [->|Hne].
    + rewrite E. simpl. destruct (decide (remove_row i vec = [])) as [He|].
      * rewrite lookup_delete_eq. simpl. rewrite He in Hin. specialize (Hin r j).
        rewrite elem_of_nil in *. tauto.
      * rewrite lookup_insert_eq. simpl. rewrite Hin. naive_solver.
    + destruct (decide (remove_row i vec = []));
        rewrite ?lookup_delete_ne, ?lookup_insert_ne by done; naive_solver.
Qed.

(** ** Invariant *)

Record wf (s : EntityStore) : Prop := {
  wf_buckets : buckets_ok (name_index s);
  wf_names : ∀ n i, i ∈ bucket n (name_index s) ↔
    ∃ e, function_index s !! i = Some e ∧ entity_name e = n;
  wf_member : ∀ i, is_Some (function_index s !! i) ↔ is_Some (entity_file_index s !! i);
  wf_rows_ok : rows_ok (file_entities_by_start s);
  wf_rows : ∀ f r i, row_in (file_entities_by_start s) f r i ↔
    ∃ e, function_index s !! i = Some e ∧ entity_file_index s !! i = Some f ∧
         r = wrap32 (start_row e);
  wf_ids : ∀ i, is_Some (function_index s !! i) → 0 ≤ i < entity_id_counter s;
  wf_counter : 0 ≤ entity_id_counter s ≤ u64_max;
}.

Lemma ensure_counter_spec n s :
  entity_id_counter (ensure_counter_at_least n s) = Z.max n (entity_id_counter s) ∧
  function_index (ensure_counter_at_least n s) = function_index s ∧
  name_index (ensure_counter_at_least n s) = name_index s ∧
  entity_file_index (ensure_counter_at_least n s) = entity_file_index s ∧
  file_entities_by_start (ensure_counter_at_least n s) = file_entities_by_start s.
Proof.
  unfold ensure_counter_at_least. destruct (Z.ltb_spec (entity_id_counter s) n); simpl;
    split_and!; try done; lia.
Qed.

Lemma wf_set_counter n s : wf s → entity_id_counter s ≤ n ≤ u64_max → wf (set_counter n s).
Proof.
  intros [] Hn. split; simpl; try done; [|lia]. intros i Hi. specialize (wf_ids0 i Hi). lia.
Qed.

Lemma wf_ensure n s : wf s → n ≤ u64_max → wf (ensure_counter_at_least n s).
Proof.
  intros Hs Hn. unfold ensure_counter_at_least. destruct (Z.ltb_spec (entity_id_counter s) n); [|done].
  apply wf_set_counter; [done|lia].
Qed.

Lemma untrack_fields f i s :
  function_index (untrack_file_entity f i s) = function_index s ∧
  name_index (untrack_file_entity f i s) = name_index s ∧
  entity_file_index (untrack_file_entity f i s) = entity_file_index s ∧
  entity_id_counter (untrack_file_entity f i s) = entity_id_counter s.
Proof. unfold untrack_file_entity. by destruct (file_entities_by_start s !! f). Qed.

(** Untracking an entity under the file it belongs to removes its only row. *)
Lemma untrack_own f i s :
  wf s → entity_file_index s !! i = Some f →
  let m := file_entities_by_start (untrack_file_entity f i s) in
  rows_ok m ∧ ∀ f' r j, row_in m f' r j ↔ row_in (file_entities_by_start s) f' r j ∧ j ≠ i.
Proof.
  intros Hs Hf. destruct (untrack_spec f i s) as [Hok Hin]; [apply Hs| |].
  { intros r r' Hr Hr'. apply (wf_rows _ Hs) in Hr as (e & He & _ & ->).
    apply (wf_rows _ Hs) in Hr' as (e' & He' & _ & ->). congruence. }
  split; [done|]. intros f' r j. rewrite Hin. split; [|naive_solver].
  intros [Hr Hn]. split; [done|]. intros ->. apply Hn. split; [|done].
  apply (wf_rows _ Hs) in Hr as (e & _ & Hf' & _). congruence.
Qed.

(** The entity map and the rows while an entity is being replaced. *)
Lemma add_prepared i s :
  wf s →
  let s1 := untrack_existing i s in
  function_index s1 = function_index s ∧ name_index s1 = name_index s ∧
  entity_file_index s1 = entity_file_index s ∧ entity_id_counter s1 = entity_id_counter s ∧
  rows_ok (file_entities_by_start s1) ∧
  ∀ f r j, row_in (file_entities_by_start s1) f r j ↔
           row_in (file_entities_by_start s) f r j ∧ j ≠ i.
Proof.
  intros Hs. unfold untrack_existing. cbv zeta.
  destruct (function_index s !! i) as [e|] eqn:Ee.
  - destruct (entity_file_index s !! i) as [f|] eqn:Ef.
    + destruct (untrack_fields f i s) as (-> & -> & -> & ->).
      split_and!; [done..| |]; by apply untrack_own.
    + assert (is_Some (entity_file_index s !! i)) as [? ?]; [|congruence].
      apply (wf_member _ Hs). by rewrite Ee.
  - split_and!; [done..|apply Hs|]. intros f r j. split; [|tauto]. intros Hr. split; [done|].
    intros ->. apply (wf_rows _ Hs) in Hr as (e & He & _). congruence.
Qed.

Lemma names_after_insert i e s :
  wf s →
  let names := drop_stale_name i e s in
  buckets_ok (add_name (entity_name e) i names) ∧
  ∀ n j, j ∈ bucket n (add_name (entity_name e) i names) ↔
    ∃ e', <[i := e]> (function_index s) !! j = Some e' ∧ entity_name e' = n.
Proof.
  intros Hs names.
  assert (buckets_ok names ∧ ∀ n j, j ∈ bucket n names → j = i → n = entity_name e) as [Hok Hi].
  { subst names. unfold drop_stale_name. destruct (function_index s !! i) as [old|] eqn:E.
    - destruct (decide _) as [Heq|Hne].
      + split; [apply Hs|]. intros n j Hj ->. apply (wf_names _ Hs) in Hj as (e' & He' & <-). congruence.
      + split; [apply drop_name_ok, Hs|]. intros n j Hj ->. apply drop_name_spec in Hj as [Hj Hn].
        apply (wf_names _ Hs) in Hj as (e' & He' & <-). destruct Hn. split; congruence.
    - split; [apply Hs|]. intros n j Hj ->. apply (wf_names _ Hs) in Hj as (e' & He' & _). congruence. }
  assert (∀ n j, j ≠ i → j ∈ bucket n names ↔ j ∈ bucket n (name_index s)) as Ho.
  { intros n j Hj. subst names. unfold drop_stale_name. destruct (function_index s !! i); [|done].
    destruct (decide _); [done|]. rewrite drop_name_spec. naive_solver. }
  split; [by apply add_name_ok|]. intros n j. rewrite add_name_spec.
  destruct (decide (j = i)) as [->|Hj].
  - rewrite lookup_insert_eq. split.
    + intros [Hb|[-> _]]; [|by eauto]. by rewrite (Hi n i Hb eq_refl); eauto.
    + intros (e' & [= <-] & <-). by right.
  - rewrite lookup_insert_ne, Ho, (wf_names _ Hs) by done. naive_solver.
Qed.

Lemma wf_add_entity i e f s : 0 ≤ i < u64_max → wf s → wf (add_function_with_path i e f s).
Proof.
  intros Hi Hs. unfold add_function_with_path, add_function, insert_function.
  destruct (add_prepared i s Hs) as (HF & HN & HM & HC & Hok & Hrow).
  set (s1 := untrack_existing i s) in *.
  assert (drop_stale_name i e s1 = drop_stale_name i e s) as ->
    by (unfold drop_stale_name; by rewrite HF, HN).
  rewrite HF. destruct (names_after_insert i e s Hs) as [Hbok Hbin].
  pose proof (ensure_counter_spec (wrap64 (i + 1)) (set_functions (<[i := e]> (function_index s))
    (add_name (entity_name e) i (drop_stale_name i e s)) s1)) as (HC2 & HF2 & HN2 & HM2 & HS2).
  set (s2 := ensure_counter_at_least _ _) in *. simpl in *. clearbody s2 s1.
  rewrite wrap64_small in HC2 by (unfold u64_max in *; lia).
  destruct (track_spec f (wrap32 (start_row e)) i (set_files (<[i := f]> (entity_file_index s2)) s2))
    as [Hok3 Hrow3]; simpl in *.
  { by rewrite HS2. }
  { intros r Hr. rewrite HS2 in Hr. apply Hrow in Hr as [_ []]. done. }
  split; simpl.
  - by rewrite HN2.
  - intros n j. by rewrite HN2, HF2.
  - intros j. rewrite HF2, HM2, HM. destruct (decide (i = j)) as [<-|Hj].
    + rewrite !lookup_insert_eq. by split; eauto.
    + rewrite !lookup_insert_ne by done. apply Hs.
  - done.
  - intros f' r j. rewrite Hrow3, HS2, Hrow, (wf_rows _ Hs), HF2, HM2, HM.
    destruct (decide (i = j)) as [<-|Hj].
    + rewrite !lookup_insert_eq. naive_solver.
    + rewrite !lookup_insert_ne by done. naive_solver.
  - intros j. rewrite HF2, HC2, HC. destruct (decide (i = j)) as [<-|Hj].
    + intros _. lia.
    + rewrite lookup_insert_ne by done. intros Hj'. pose proof (wf_ids _ Hs j Hj'). lia.
  - rewrite HC2, HC. pose proof (wf_counter _ Hs). lia.
Qed.

Definition remove_entity (i : EntityId) (s : EntityStore) : EntityStore :=
  remove_membership i (remove_function i s).2.

Lemma wf_remove_entity i s : wf s → wf (remove_entity i s).
Proof.
  intros Hs. unfold remove_entity, remove_function.
  destruct (function_index s !! i) as [e|] eqn:Ee; simpl.
  2:{ assert (delete i (entity_file_index s) = entity_file_index s) as Hd.
      { apply delete_id. destruct (entity_file_index s !! i) eqn:E; [|done].
        assert (is_Some (function_index s !! i)) as [? ?]; [|congruence].
        apply (wf_member _ Hs). by rewrite E. }
      unfold remove_membership. rewrite Hd. by destruct s. }
  assert (is_Some (entity_file_index s !! i)) as [f Hf] by (apply (wf_member _ Hs); by rewrite Ee).
  rewrite Hf. set (s1 := set_functions _ _ s).
  destruct (untrack_fields f i s1) as (HF & HN & HM & HC).
  destruct (untrack_own f i s Hs Hf) as [Hok Hrow].
  assert (file_entities_by_start (untrack_file_entity f i s1) =
          file_entities_by_start (untrack_file_entity f i s)) as HS.
  { unfold untrack_file_entity. simpl. by destruct (file_entities_by_start s !! f). }
  split; simpl; rewrite ?HF, ?HN, ?HM, ?HC, ?HS; simpl.
  - apply drop_name_ok, Hs.
  - intros n j. rewrite drop_name_spec, (wf_names _ Hs). destruct (decide (i = j)) as [<-|Hj].
    + rewrite lookup_delete_eq. naive_solver.
    + rewrite lookup_delete_ne by done. naive_solver.
  - intros j. destruct (decide (i = j)) as [<-|Hj].
    + by rewrite !lookup_delete_eq.
    + rewrite !lookup_delete_ne by done. apply Hs.
  - done.
  - intros f' r j. rewrite Hrow, (wf_rows _ Hs). destruct (decide (i = j)) as [<-|Hj].
    + rewrite !lookup_delete_eq. naive_solver.
    + rewrite !lookup_delete_ne by done. naive_solver.
  - intros j. destruct (decide (i = j)) as [<-|Hj].
    + rewrite lookup_delete_eq. by intros [].
    + rewrite lookup_delete_ne by done. apply Hs.
  - apply Hs.
Qed.

Lemma remove_entity_fields i s :
  wf s →
  function_index (remove_entity i s) = delete i (function_index s) ∧
  entity_file_index (remove_entity i s) = delete i (entity_file_index s).
Proof.
  intros Hs. unfold remove_entity, remove_function.
  destruct (function_index s !! i) as [e|] eqn:Ee; simpl; [|by rewrite delete_id].
  destruct (entity_file_index s !! i) as [f|]; simpl; [|done].
  set (s1 := set_functions _ _ s). by destruct (untrack_fields f i s1) as (-> & _ & -> & _).
Qed.

(** Removing several entities: first from the maps, then their files. *)
Definition remove_entities (ids : list EntityId) (s : EntityStore) : EntityStore :=
  foldl (λ s i, remove_entity i s) s ids.

Lemma remove_function_membership i j s :
  i ≠ j →
  remove_function j (remove_membership i s) =
    ((remove_function j s).1, remove_membership i (remove_function j s).2).
Proof.
  intros Hij. unfold remove_function. simpl. rewrite lookup_delete_ne by done.
  destruct (function_index s !! j); [|done]. destruct (entity_file_index s !! j) as [f|]; [|done].
  unfold untrack_file_entity. simpl. by destruct (file_entities_by_start s !! f).
Qed.

Lemma remove_functions_membership i ids s :
  i ∉ ids →
  foldl (λ s j, (remove_function j s).2) (remove_membership i s) ids =
    remove_membership i (foldl (λ s j, (remove_function j s).2) s ids).
Proof.
  revert s. induction ids as [|j ids IH]; intros s Hi; simpl; [done|].
  apply not_elem_of_cons in Hi as [Hij Hi]. rewrite remove_function_membership by done. by apply IH.
Qed.

Lemma remove_in_two_passes ids s :
  NoDup ids →
  foldl (λ s i, remove_membership i s) (foldl (λ s i, (remove_function i s).2) s ids) ids =
    remove_entities ids s.
Proof.
  unfold remove_entities. intros Hnd. revert s. induction Hnd as [|i ids Hi _ IH]; intros s; simpl; [done|].
  rewrite <- IH. unfold remove_entity. by rewrite remove_functions_membership.
Qed.

Lemma removed_entities_spec ids s :
  wf s →
  let s' := remove_entities ids s in
  wf s' ∧
  (∀ i, function_index s' !! i = if decide (i ∈ ids) then None else function_index s !! i) ∧
  (∀ i, entity_file_index s' !! i = if decide (i ∈ ids) then None else entity_file_index s !! i).
Proof.
  cbv zeta. unfold remove_entities. revert s. induction ids as [|j ids IH]; intros s Hs; cbn [foldl].
  { split_and!; [done|..]; intros i; by rewrite decide_False by apply not_elem_of_nil. }
  destruct (IH _ (wf_remove_entity j s Hs)) as (H1 & H2 & H3). split; [done|].
  destruct (remove_entity_fields j s Hs) as [HF HM].
  assert (Hd : ∀ {A} (m : gmap EntityId A) i,
    (if decide (i ∈ ids) then None else delete j m !! i) =
    if decide (i ∈ j :: ids) then None else m !! i).
  { intros A m i. destruct (decide (i = j)) as [->|Hne].
    - rewrite lookup_delete_eq. destruct (decide (j ∈ j :: ids)) as [|[]]; [|by left].
      by destruct (decide (j ∈ ids)).
    - rewrite lookup_delete_ne by done. apply decide_ext. rewrite elem_of_cons. naive_solver. }
  split; intros i; [rewrite H2, HF | rewrite H3, HM]; apply Hd.
Qed.

Lemma wf_new_store : wf new.
Proof.
  split; simpl.
  - intros n b Hb. by rewrite lookup_empty in Hb.
  - intros n i. unfold bucket. rewrite lookup_empty, elem_of_nil. split; [done|].
    intros (e & He & _). by rewrite lookup_empty in He.
  - intros i. split; intros [x Hx]; by rewrite lookup_empty in Hx.
  - intros n b Hb. by rewrite lookup_empty in Hb.
  - intros f r i. unfold row_in. rewrite lookup_empty, elem_of_nil. split; [done|].
    intros (e & He & _). by rewrite lookup_empty in He.
  - intros i [e He]. by rewrite lookup_empty in He.
  - done.
Qed.

(** ** All registrations

    Entities are also registered without a file ([add_function]) and names and
    files of entities of another index are registered without an entity
    ([register_external_entity_name]).  An operation on one entity leaves the
    others as they are. *)

Record same_at (j : EntityId) (s s' : EntityStore) : Prop := {
  same_function : function_index s' !! j = function_index s !! j;
  same_file : entity_file_index s' !! j = entity_file_index s !! j;
  same_names : ∀ n, j ∈ bucket n (name_index s') ↔ j ∈ bucket n (name_index s);
  same_rows : ∀ f r, row_in (file_entities_by_start s') f r j ↔
                     row_in (file_entities_by_start s) f r j;
}.

Lemma same_at_trans j s1 s2 s3 : same_at j s1 s2 → same_at j s2 s3 → same_at j s1 s3.
Proof.
  intros [F1 M1 N1 R1] [F2 M2 N2 R2]. split; [congruence|congruence| |].
  - intros n. by rewrite N2.
  - intros f r. by rewrite R2.
Qed.

Lemma same_at_refl j s : same_at j s s.
Proof. by split. Qed.

(** The row vectors stay sorted whatever entity is tracked or untracked. *)
Lemma insert_row_any row i vec :
  sorted pair_ltb vec →
  sorted pair_ltb (insert_row row i vec) ∧ insert_row row i vec ≠ [] ∧
  ∀ r j, j ≠ i → (r, j) ∈ insert_row row i vec ↔ (r, j) ∈ vec.
Proof.
  intros Hvec. unfold insert_row.
  destruct (binary_search_spec pair_ltb (row, i) vec Hvec) as
    (l1 & l2 & H1 & H2 & [[Hb Hl]|[Hb Hl]]).
  - rewrite Hb, Hl, lookup_app_r, Nat.sub_diag by done. simpl. rewrite decide_True by done.
    rewrite <- Hl. split_and!; [done|rewrite Hl; by destruct l1|done].
  - rewrite Hb.
    destruct (sorted_insert_spec pair_ltb (row, i) vec Hvec) as [Hs Hin].
    unfold sorted_insert in Hs, Hin. rewrite Hb in Hs, Hin.
    assert (Hins : sorted pair_ltb (insert_at (length l1) (row, i) vec) ∧
      insert_at (length l1) (row, i) vec ≠ [] ∧
      ∀ r j, j ≠ i → (r, j) ∈ insert_at (length l1) (row, i) vec ↔ (r, j) ∈ vec).
    { split_and!; [done| |].
      - intros He. assert ((row, i) ∈ ([] : list (Z * Z))) as Hx; [|by apply elem_of_nil in Hx].
        rewrite <- He. apply Hin. by left.
      - intros r j Hj. rewrite Hin. split; [|tauto]. intros [[= -> ->]|]; done. }
    destruct (vec !! length l1) as [[r0 j0]|] eqn:Ev; [|done].
    destruct (decide (j0 = i)); [|done]. split_and!; [done|by destruct vec|done].
Qed.

Lemma remove_row_any i vec :
  sorted pair_ltb vec →
  sorted pair_ltb (remove_row i vec) ∧
  ∀ r j, j ≠ i → (r, j) ∈ remove_row i vec ↔ (r, j) ∈ vec.
Proof.
  intros Hs. unfold remove_row. destruct (position _ vec) as [pos|] eqn:Ep; [|done].
  apply position_Some in Ep as (l1 & [r0 j0] & l2 & -> & <- & Hj & _).
  apply bool_decide_eq_true in Hj. simpl in Hj. subst j0. rewrite remove_at_app.
  apply sorted_vec_app in Hs as (H1 & [H2 H3]%sorted_vec_cons & H4). split.
  { apply sorted_vec_app. split_and!; [done..|]. intros x y Hx Hy. apply H4; [done|by right]. }
  intros r j Hj. rewrite !elem_of_app, elem_of_cons. split; [tauto|].
  intros [|[[= -> ->]|]]; [tauto|done|tauto].
Qed.

Lemma track_any f row i s :
  rows_ok (file_entities_by_start s) →
  rows_ok (file_entities_by_start (track_file_entity f row i s)) ∧
  ∀ j, j ≠ i → same_at j s (track_file_entity f row i s).
Proof.
  intros Hok. destruct (insert_row_any row i _ (rows_sorted _ f Hok)) as (Hs & Hne & Hin). split.
  - simpl. by apply map_Forall_insert_2.
  - intros j Hj. split; [done..|]. intros f' r. unfold row_in. simpl.
    destruct (decide (f' = f)) as [->|Hf].
    + rewrite lookup_insert_eq. by apply Hin.
    + by rewrite lookup_insert_ne.
Qed.

Lemma untrack_any f i s :
  rows_ok (file_entities_by_start s) →
  rows_ok (file_entities_by_start (untrack_file_entity f i s)) ∧
  ∀ j, j ≠ i → same_at j s (untrack_file_entity f i s).
Proof.
  intros Hok. unfold untrack_file_entity.
  destruct (file_entities_by_start s !! f) as [vec|] eqn:E; [|by split].
  destruct (remove_row_any i vec) as [Hs Hin]; [by apply (Hok f vec)|]. split.
  - simpl. destruct (decide _); [by apply map_Forall_delete|]. by apply map_Forall_insert_2.
  - intros j Hj. split; [done..|]. intros f' r. unfold row_in. simpl.
    destruct (decide (f' = f)) as [->|Hf].
    + rewrite E. simpl. rewrite <- (Hin r j Hj). destruct (decide (remove_row i vec = [])) as [->|].
      * by rewrite lookup_delete_eq.
      * by rewrite lookup_insert_eq.
    + destruct (decide _); by rewrite ?lookup_delete_ne, ?lookup_insert_ne.
Qed.

(** The name entries of an entity: its own name, and names it was registered
    under from outside. *)
Definition named (X : gset (string * EntityId)) (i : EntityId) (s : EntityStore) : Prop :=
  ∀ n, ((∃ e, function_index s !! i = Some e ∧ entity_name e = n) → i ∈ bucket n (name_index s)) ∧
       (i ∈ bucket n (name_index s) →
        (∃ e, function_index s !! i = Some e ∧ entity_name e = n) ∨ (n, i) ∈ X).

(** The file of an entity and its only row. *)
Definition placed (i : EntityId) (s : EntityStore) : Prop :=
  (is_Some (function_index s !! i) ↔ is_Some (entity_file_index s !! i)) ∧
  ∀ f r, row_in (file_entities_by_start s) f r i ↔
    ∃ e, function_index s !! i = Some e ∧ entity_file_index s !! i = Some f ∧
         r = wrap32 (start_row e).

Lemma named_same X j s s' : same_at j s s' → named X j s → named X j s'.
Proof. intros [HF _ HN _] H n. rewrite HF, HN. apply H. Qed.

Lemma placed_same j s s' : same_at j s s' → placed j s → placed j s'.
Proof. intros [HF HM _ HR] H. unfold placed. rewrite HF, HM. setoid_rewrite HR. apply H. Qed.

Lemma named_weaken X X' i s : X ⊆ X' → named X i s → named X' i s.
Proof. intros HX H n. destruct (H n). split; set_solver. Qed.

Lemma insert_fields i e s :
  function_index (insert_function i e s) = <[i := e]> (function_index s) ∧
  name_index (insert_function i e s) = add_name (entity_name e) i (drop_stale_name i e s) ∧
  entity_file_index (insert_function i e s) = entity_file_index s ∧
  file_entities_by_start (insert_function i e s) = file_entities_by_start s ∧
  entity_id_counter (insert_function i e s) = Z.max (wrap64 (i + 1)) (entity_id_counter s).
Proof.
  unfold insert_function.
  pose proof (ensure_counter_spec (wrap64 (i + 1)) (set_functions (<[i := e]> (function_index s))
    (add_name (entity_name e) i (drop_stale_name i e s)) s)) as (H1 & H2 & H3 & H4 & H5).
  by rewrite H1, H2, H3, H4, H5.
Qed.

Lemma stale_spec i e s n j :
  j ∈ bucket n (drop_stale_name i e s) ↔
  j ∈ bucket n (name_index s) ∧
  ¬ (j = i ∧ ∃ old, function_index s !! i = Some old ∧ entity_name old = n ∧ n ≠ entity_name e).
Proof.
  unfold drop_stale_name. destruct (function_index s !! i) as [old|]; [|naive_solver].
  destruct (decide (entity_name old = entity_name e)) as [He|He].
  - split; [|tauto]. intros Hj. split; [done|]. intros (_ & ? & [= <-] & <- & ?). done.
  - rewrite drop_name_spec. split; intros [Hj Hn]; (split; [done|]).
    + intros (-> & ? & [= <-] & <- & _). by apply Hn.
    + intros [-> ->]. apply Hn. split; [done|]. by exists old.
Qed.

Lemma insert_any i e s :
  buckets_ok (name_index s) →
  buckets_ok (name_index (insert_function i e s)) ∧
  (∀ j, j ≠ i → same_at j s (insert_function i e s)) ∧
  ∀ X, named X i s → named X i (insert_function i e s).
Proof.
  intros Hok. destruct (insert_fields i e s) as (HF & HN & HM & HS & _). split_and!.
  - rewrite HN. apply add_name_ok. unfold drop_stale_name.
    destruct (function_index s !! i); [|done]. destruct (decide _); [done|by apply drop_name_ok].
  - intros j Hj. split; rewrite ?HF, ?HM, ?HN, ?HS; [by apply lookup_insert_ne|done| |done].
    intros n. rewrite add_name_spec, stale_spec. naive_solver.
  - intros X Hi n. rewrite HF, HN, add_name_spec, stale_spec, lookup_insert_eq.
    destruct (Hi n) as [_ Hn]. split.
    + intros (? & [= <-] & <-). by right.
    + intros [[Hb Hs]|[-> _]]; [|by left; exists e].
      destruct (Hn Hb) as [(old & Ho & Hname)|]; [|by right]. left. exists e. split; [done|].
      destruct (decide (n = entity_name e)) as [|Hne]; [done|]. destruct Hs. by eauto.
Qed.

Lemma untrack_existing_any i s :
  rows_ok (file_entities_by_start s) →
  rows_ok (file_entities_by_start (untrack_existing i s)) ∧
  (∀ j, j ≠ i → same_at j s (untrack_existing i s)) ∧
  function_index (untrack_existing i s) = function_index s ∧
  name_index (untrack_existing i s) = name_index s ∧
  entity_file_index (untrack_existing i s) = entity_file_index s ∧
  entity_id_counter (untrack_existing i s) = entity_id_counter s ∧
  (placed i s → ∀ f r, ¬ row_in (file_entities_by_start (untrack_existing i s)) f r i).
Proof.
  intros Hok. unfold untrack_existing.
  destruct (function_index s !! i) as [e|] eqn:Ee.
  - destruct (entity_file_index s !! i) as [f|] eqn:Ef.
    + destruct (untrack_any f i s Hok) as [Hok' Hs].
      destruct (untrack_fields f i s) as (HF & HN & HM & HC). split_and!; [done..|].
      intros [_ Hr] f' r. destruct (untrack_spec f i s Hok) as [_ Hin].
      { intros r1 r2 (e1 & He1 & _ & ->)%Hr (e2 & He2 & _ & ->)%Hr. congruence. }
      rewrite Hin. intros [(_ & _ & Hf & _)%Hr Hn]. apply Hn. split; congruence.
    + split_and!; [done..|]. intros [Hm _]. rewrite Ee, Ef in Hm.
      destruct Hm as [[? ?] _]; [by eauto|done].
  - split_and!; [done..|]. intros [_ Hr] f r (e & He & _)%Hr. congruence.
Qed.

Lemma add_entity_any i e f s :
  buckets_ok (name_index s) → rows_ok (file_entities_by_start s) →
  let s' := add_function_with_path i e f s in
  buckets_ok (name_index s') ∧ rows_ok (file_entities_by_start s') ∧
  (∀ j, j ≠ i → same_at j s s') ∧ (∀ X, named X i s → named X i s') ∧
  (placed i s → placed i s') ∧
  function_index s' = <[i := e]> (function_index s) ∧
  entity_id_counter s' = Z.max (wrap64 (i + 1)) (entity_id_counter s).
Proof.
  intros Hb Hr. unfold add_function_with_path, add_function. cbv zeta.
  destruct (untrack_existing_any i s Hr) as (Hr1 & Hs1 & HF1 & HN1 & HM1 & HC1 & Hp1).
  set (s1 := untrack_existing i s) in *.
  assert (Hb1 : buckets_ok (name_index s1)) by (by rewrite HN1).
  destruct (insert_any i e s1 Hb1) as (Hb2 & Hs2 & Hn2).
  destruct (insert_fields i e s1) as (HF2 & _ & HM2 & HS2 & HC2).
  set (s2 := insert_function i e s1) in *. clearbody s2.
  set (s3 := set_files (<[i := f]> (entity_file_index s2)) s2).
  assert (Hr3 : rows_ok (file_entities_by_start s3)) by (simpl; by rewrite HS2).
  destruct (track_any f (wrap32 (start_row e)) i s3 Hr3) as [Hr4 Hs4]. split_and!.
  - done.
  - done.
  - intros j Hj. apply (same_at_trans _ _ s1); [by apply Hs1|].
    apply (same_at_trans _ _ s2); [by apply Hs2|]. apply (same_at_trans _ _ s3); [|by apply Hs4].
    split; [done| |done..]. simpl. by apply lookup_insert_ne.
  - intros X HX. apply (Hn2 X). intros n. rewrite HF1, HN1. apply HX.
  - intros Hp. destruct (track_spec f (wrap32 (start_row e)) i s3 Hr3) as [_ Hin].
    { intros r. simpl. rewrite HS2. by apply Hp1. }
    split; [simpl; rewrite HF2, !lookup_insert_eq; by split; eauto|].
    intros f' r. rewrite Hin. simpl. rewrite HF2, HS2, !lookup_insert_eq.
    pose proof (Hp1 Hp f' r). naive_solver.
  - simpl. by rewrite HF2, HF1.
  - simpl. by rewrite HC2, HC1.
Qed.

Lemma remove_entity_any i s :
  buckets_ok (name_index s) → rows_ok (file_entities_by_start s) →
  let s' := remove_entity i s in
  buckets_ok (name_index s') ∧ rows_ok (file_entities_by_start s') ∧
  (∀ j, j ≠ i → same_at j s s') ∧ (∀ X, named X i s → named X i s') ∧
  (placed i s → placed i s') ∧
  function_index s' = delete i (function_index s) ∧
  entity_id_counter s' = entity_id_counter s.
Proof.
  intros Hb Hr. unfold remove_entity, remove_function. cbv zeta.
  destruct (function_index s !! i) as [e|] eqn:Ee; simpl.
  2:{ split_and!; [done|done| |done| |by rewrite delete_id|done].
      - intros j Hj. split; [done| |done..]. by apply lookup_delete_ne.
      - intros [_ Hp]. split; simpl; rewrite Ee, ?lookup_delete_eq; [done|].
        intros f r. rewrite Hp, Ee. naive_solver. }
  set (s1 := set_functions (delete i (function_index s))
               (drop_name (entity_name e) i (name_index s)) s).
  assert (Hs1 : ∀ j, j ≠ i → same_at j s s1).
  { intros j Hj. split; [by apply lookup_delete_ne|done| |done].
    intros n. simpl. rewrite drop_name_spec. naive_solver. }
  assert (H1 : ∀ X, named X i s → named X i s1).
  { intros X HX n. simpl. rewrite drop_name_spec, lookup_delete_eq. split; [naive_solver|].
    intros [Hin Hn]. destruct (HX n) as [_ Ho]. destruct (Ho Hin) as [(? & ? & <-)|]; [|by right].
    simplify_eq. by destruct Hn. }
  set (s2 := match entity_file_index s !! i with
             | Some f => untrack_file_entity f i s1 | None => s1 end).
  assert (rows_ok (file_entities_by_start s2) ∧ (∀ j, j ≠ i → same_at j s1 s2) ∧
    function_index s2 = function_index s1 ∧ name_index s2 = name_index s1 ∧
    entity_id_counter s2 = entity_id_counter s1) as (Hr2 & Hs2 & HF2 & HN2 & HC2).
  { subst s2. destruct (entity_file_index s !! i) as [f|]; [|by split_and!].
    destruct (untrack_any f i s1 Hr) as [Hr2 Hs2].
    by destruct (untrack_fields f i s1) as (HF & HN & _ & HC). }
  split_and!.
  - rewrite HN2. by apply drop_name_ok.
  - done.
  - intros j Hj. apply (same_at_trans _ _ s1); [by apply Hs1|].
    apply (same_at_trans _ _ s2); [by apply Hs2|]. split; [done| |done..]. by apply lookup_delete_ne.
  - intros X HX n. simpl. rewrite HF2, HN2. by apply H1.
  - intros [Hm Hp]. split; simpl; rewrite HF2, ?lookup_delete_eq; simpl; rewrite ?lookup_delete_eq; [done|].
    intros f r. split; [|naive_solver]. intros Hin. exfalso. subst s2.
    assert (is_Some (entity_file_index s !! i)) as [f0 Hf0] by (apply Hm; by rewrite Ee).
    rewrite Hf0 in Hin. destruct (untrack_spec f0 i s1 Hr) as [_ Hu].
    { intros r1 r2 (e1 & He1 & _ & ->)%Hp (e2 & He2 & _ & ->)%Hp. congruence. }
    apply Hu in Hin as [(e1 & _ & Hf1 & _)%Hp Hn]. apply Hn. split; congruence.
  - done.
  - done.
Qed.

(** What every sequence of operations keeps: [X] holds the names registered from
    outside, [U] the entities whose file was registered without a row or that
    were registered without a file. *)
Record kept (X : gset (string * EntityId)) (U : gset EntityId) (s : EntityStore) : Prop := {
  kept_buckets : buckets_ok (name_index s);
  kept_named : ∀ i, named X i s;
  kept_rows : rows_ok (file_entities_by_start s);
  kept_placed : ∀ i, i ∉ U → placed i s;
  kept_ids : ∀ i, is_Some (function_index s !! i) →
    0 ≤ i ≤ u64_max ∧ (i < entity_id_counter s ∨ i = u64_max);
  kept_counter : 0 ≤ entity_id_counter s ≤ u64_max;
}.

Lemma kept_one X X' U U' i s s' :
  kept X U s → X ⊆ X' → U ⊆ U' →
  buckets_ok (name_index s') → rows_ok (file_entities_by_start s') →
  (∀ j, j ≠ i → same_at j s s') → named X' i s' → (i ∈ U' ∨ placed i s') →
  (is_Some (function_index s' !! i) →
     0 ≤ i ≤ u64_max ∧ (i < entity_id_counter s' ∨ i = u64_max)) →
  entity_id_counter s ≤ entity_id_counter s' ≤ u64_max →
  kept X' U' s'.
Proof.
  intros [] HX HU Hb Hr Hs Hn Hp Hi Hc. split; [done| |done| | |lia].
  - intros j. destruct (decide (j = i)) as [->|Hj]; [done|].
    apply (named_weaken X); [done|]. eapply named_same; eauto.
  - intros j HjU. destruct (decide (j = i)) as [->|Hj]; [by destruct Hp|].
    eapply placed_same; [by apply Hs|]. set_solver.
  - intros j. destruct (decide (j = i)) as [->|Hj]; [done|].
    rewrite (same_function _ _ _ (Hs j Hj)). intros Hj'. specialize (kept_ids0 j Hj'). lia.
Qed.

Lemma kept_raise X U n s : kept X U s → n ≤ u64_max → kept X U (ensure_counter_at_least n s).
Proof.
  intros Hs Hn. unfold ensure_counter_at_least.
  destruct (Z.ltb_spec (entity_id_counter s) n); [|done].
  destruct Hs. split; simpl; [done..| |lia]. intros i Hi. specialize (kept_ids0 i Hi). lia.
Qed.

(** Registrations with a file, without a file, and of outside names; removals;
    and the operations on the counter, before it wraps. *)
Inductive step : EntityStore * gset (string * EntityId) * gset EntityId →
    EntityStore * gset (string * EntityId) * gset EntityId → Prop :=
| step_add i e f s X U : 0 ≤ i ≤ u64_max → step (s, X, U) (add_function_with_path i e f s, X, U)
| step_add_plain i e s X U : 0 ≤ i ≤ u64_max → step (s, X, U) (add_function i e s, X, {[i]} ∪ U)
| step_external n i f s X U :
    step (s, X, U) (register_external_entity_name n i f s, {[(n, i)]} ∪ X, {[i]} ∪ U)
| step_remove i s X U : step (s, X, U) (remove_entity i s, X, U)
| step_allocate s X U : entity_id_counter s < u64_max → step (s, X, U) ((allocate_entity_id s).2, X, U)
| step_max s X U : step (s, X, U) ((max_entity_id s).2, X, U).

Lemma wrap64_le z : 0 ≤ wrap64 z ≤ u64_max.
Proof. unfold wrap64, u64_max. pose proof (Z.mod_pos_bound z (2 ^ 64)). lia. Qed.

Lemma next_id i : 0 ≤ i ≤ u64_max → i < wrap64 (i + 1) ∨ i = u64_max.
Proof.
  intros Hi. destruct (decide (i = u64_max)) as [|Hne]; [by right|]. left.
  rewrite wrap64_small; lia.
Qed.

Lemma kept_add_plain X U i e s :
  0 ≤ i ≤ u64_max → kept X U s → kept X ({[i]} ∪ U) (add_function i e s).
Proof.
  intros Hi Hs. unfold add_function. destruct (insert_any i e s (kept_buckets _ _ _ Hs)) as (H1 & H2 & H3).
  destruct (insert_fields i e s) as (HF & _ & _ & HS & HC).
  pose proof (wrap64_le (i + 1)). pose proof (next_id i Hi). pose proof (kept_counter _ _ _ Hs).
  apply (kept_one X X U _ i s); [done..|set_solver|done| |done|apply H3, Hs| | |lia].
  - rewrite HS. apply Hs.
  - left. set_solver.
  - intros _. lia.
Qed.

Lemma kept_external X U n i f s :
  kept X U s → kept ({[(n, i)]} ∪ X) ({[i]} ∪ U) (register_external_entity_name n i f s).
Proof.
  intros Hs.
  apply (kept_one X _ U _ i s); simpl; [done|set_solver|set_solver| |apply Hs| | | | |].
  - apply add_name_ok, Hs.
  - intros j Hj. split; [done|by apply lookup_insert_ne| |done]. intros n'. simpl.
    rewrite add_name_spec. naive_solver.
  - intros n'. simpl. rewrite add_name_spec. destruct (kept_named _ _ _ Hs i n') as [H1 H2].
    split; [auto|]. intros [Hb|[-> _]]; [|right; set_solver].
    destruct (H2 Hb); [by left|right; set_solver].
  - left. set_solver.
  - apply Hs.
  - pose proof (kept_counter _ _ _ Hs). lia.
Qed.

Definition kept_state (x : EntityStore * gset (string * EntityId) * gset EntityId) : Prop :=
  kept x.1.2 x.2 x.1.1.

Lemma kept_new : kept ∅ ∅ new.
Proof.
  destruct wf_new_store as [H1 H2 H3 H4 H5 H6 H7]. split; [done| |done| | |done].
  - intros i n. rewrite H2. tauto.
  - intros i _. split; [apply H3|]. intros f r. apply H5.
  - intros i Hi. specialize (H6 i Hi). simpl in *. lia.
Qed.

#[export] Instance kept_invariant : StepInvariant (λ x, x = (new, ∅, ∅)) step kept_state.
Proof.
  split; [intros x ->; apply kept_new|]. unfold kept_state.
  intros x x' Hs Hstep. destruct Hstep as [i e f s X U Hi|i e s X U Hi|n i f s X U|i s X U|s X U Hc|s X U]; simpl in *.
  - destruct (add_entity_any i e f s (kept_buckets _ _ _ Hs) (kept_rows _ _ _ Hs))
      as (H1 & H2 & H3 & H4 & H5 & HF & HC).
    pose proof (wrap64_le (i + 1)). pose proof (next_id i Hi). pose proof (kept_counter _ _ _ Hs).
    apply (kept_one X X U U i s); [done..|apply H4, Hs| |intros _; lia|lia].
    destruct (decide (i ∈ U)) as [|Hu]; [by left|]. right. apply H5. by apply (kept_placed _ _ _ Hs).
  - by apply kept_add_plain.
  - by apply kept_external.
  - destruct (remove_entity_any i s (kept_buckets _ _ _ Hs) (kept_rows _ _ _ Hs))
      as (H1 & H2 & H3 & H4 & H5 & HF & HC).
    pose proof (kept_counter _ _ _ Hs).
    apply (kept_one X X U U i s); [done..|apply H4, Hs| | |lia].
    + destruct (decide (i ∈ U)) as [|Hu]; [by left|]. right. apply H5. by apply (kept_placed _ _ _ Hs).
    + rewrite HF, lookup_delete_eq. by intros [].
  - pose proof (kept_counter _ _ _ Hs). rewrite wrap64_small by (unfold u64_max in *; lia).
    destruct Hs. split; simpl; [done..| |lia]. intros i Hi. specialize (kept_ids0 i Hi). lia.
  - unfold max_entity_id. destruct (decide _); [done|].
    pose proof (proj2 (wrap64_le (scanned_max s + 1))).
    destruct (_ <? _); [destruct (_ <? _)|]; simpl; try done; by apply kept_raise.
Qed.

(** ** The two bounds of a range query *)

Lemma take_partition_point (b : Z) (vec : list (Z * EntityId)) p :
  sorted pair_ltb vec →
  p ∈ take (partition_point (λ q, q.1 <=? b) vec) vec ↔ p ∈ vec ∧ p.1 ≤ b.
Proof.
  induction vec as [|q vec IH]; simpl; [rewrite elem_of_nil; tauto|].
  intros [Hs Hq]%sorted_vec_cons. destruct (Z.leb_spec q.1 b) as [Hle|Hgt]; simpl.
  - rewrite !elem_of_cons, IH by done. split; [intuition (subst; done)|tauto].
  - rewrite elem_of_nil, elem_of_cons. split; [done|]. intros [[->|Hp] Hb]; [lia|].
    specialize (Hq p Hp). unfold pair_ltb in Hq. apply orb_true_iff in Hq.
    rewrite andb_true_iff, !Z.ltb_lt, Z.eqb_eq in Hq. lia.
Qed.

Lemma take_sublist {A} n (l : list A) : take n l `sublist_of` l.
Proof. rewrite <- (take_drop n l) at 2. apply sublist_inserts_r. done. Qed.

(** In the rows of a file an entity occurs once. *)
Lemma rows_NoDup s f : wf s → NoDup (map snd (default [] (file_entities_by_start s !! f))).
Proof.
  intros Hs. assert (Hrow : ∀ r i, (r, i) ∈ default [] (file_entities_by_start s !! f) →
    ∃ e, function_index s !! i = Some e ∧ r = wrap32 (start_row e)).
  { intros r i Hr. apply (wf_rows _ Hs f r i) in Hr as (e & ? & _ & ?). eauto. }
  pose proof (sorted_NoDup pair_ltb _ (rows_sorted _ f (wf_rows_ok _ Hs))) as Hnd.
  revert Hrow Hnd. generalize (default [] (file_entities_by_start s !! f)).
  induction l as [|[r i] l IH]; simpl; intros Hrow Hnd; [constructor|].
  apply NoDup_cons in Hnd as [Hn Hnd]. constructor; [|apply IH; [|done]].
  - intros ([r' i'] & -> & Hin)%list_elem_of_fmap. simpl in *. apply Hn.
    destruct (Hrow r i') as (e & He & ->); [by left|].
    destruct (Hrow r' i') as (e' & He' & ->); [by right|]. by simplify_eq.
  - intros r' i' Hin. apply Hrow. by right.
Qed.

Section range.
Context `{!SetIter EntityId}.

Lemma elem_of_ids_by_file s f i :
  i ∈ get_entity_ids_by_file f s ↔ entity_file_index s !! i = Some f.
Proof.
  unfold get_entity_ids_by_file. rewrite elem_of_retain, elem_of_set_iter, bool_decide_eq_true, elem_of_dom.
  split; [tauto|]. intros Hf. split; [by rewrite Hf|done].
Qed.

Lemma elem_of_range f a b s i :
  wf s → (∀ j e, function_index s !! j = Some e → 0 ≤ start_row e < 2 ^ 32) →
  i ∈ get_entities_in_line_range f a b s ↔ i ∈ scan_line_range f a b s.
Proof.
  intros Hs Hrows. unfold get_entities_in_line_range.
  destruct (file_entities_by_start s !! f) as [[|p vec]|] eqn:E; [done| |done].
  unfold scan_line_range. rewrite !elem_of_retain, elem_of_ids_by_file, list_elem_of_fmap.
  pose proof (rows_sorted _ f (wf_rows_ok _ Hs)) as Hsort.
  assert (Hin : ∀ r j, (r, j) ∈ p :: vec ↔ row_in (file_entities_by_start s) f r j)
    by (intros r j; unfold row_in; by rewrite E).
  rewrite E in Hsort. simpl in Hsort. unfold overlaps.
  assert (Hrow : ∀ e, function_index s !! i = Some e → wrap32 (start_row e) = start_row e).
  { intros e He. apply wrap32_small. specialize (Hrows i e He). unfold u32_max. lia. }
  split.
  - intros [([r j] & -> & Hr) Ho]. apply take_partition_point in Hr as [Hr _]; [|done].
    apply Hin, (wf_rows _ Hs) in Hr as (e & He & Hf & _). done.
  - intros [Hf Ho]. split; [|done]. destruct (function_index s !! i) as [e|] eqn:He; [|done].
    exists (start_row e, i). split; [done|]. apply take_partition_point; [done|].
    apply andb_true_iff in Ho as [Ho%Z.leb_le _]. split; [|done].
    apply Hin, (wf_rows _ Hs). exists e. rewrite Hrow; done.
Qed.

Lemma NoDup_retain {A} (q : A → bool) (l : list A) : NoDup l → NoDup (retain q l).
Proof. intros Hl. eapply sublist_NoDup; [exact Hl|apply retain_sublist]. Qed.
End range.

(** ** Theorems *)

(** C23. After any sequence of registrations (with a file, without a file, or of
    the name and file of an outside entity), removals and counter operations
    before the counter wraps: every entity is found under its name, and a name
    lists, each once, only entities with that name and identifiers registered
    under it from outside; every entity whose file was always registered with it
    has a file and exactly one row, in that file; the rows of a file are in the
    order of (row, id); every identifier but the largest 64-bit one is below the
    counter.  Without outside names and registrations lacking a file, and with
    identifiers below the largest, the indexes are exact ([wf]). *)
Theorem entity_indexes_consistent (s : EntityStore) (X : gset (string * EntityId))
    (U : gset EntityId) :
  reachable (λ x, x = (new, ∅, ∅)) step (s, X, U) →
  kept X U s ∧
  (X = ∅ → U = ∅ → function_index s !! u64_max = None → wf s).
Proof.
  intros Hs. pose proof (invariant_reachable _ step kept_state _ Hs) as Hk. split; [exact Hk|].
  intros -> -> Hmax. destruct Hk as [Hb Hn Hr Hp Hi Hc]; simpl in *. split; try done.
  - intros n i. destruct (Hn i n) as [H1 H2]. split; [|done]. intros [|]%H2; [done|set_solver].
  - intros i. by apply Hp.
  - intros f r i. by apply Hp.
  - intros i Hf. destruct (Hi i Hf) as [? [?|Heq]]; [lia|]. rewrite Heq, Hmax in Hf. by destruct Hf.
Qed.

Definition demo_span (a b : Z) : EntityDiff.Span :=
  {| EntityDiff.start_byte := a; EntityDiff.end_byte := b;
     EntityDiff.start_position := {| EntityDiff.row := a; EntityDiff.column := 0 |};
     EntityDiff.end_position := {| EntityDiff.row := b; EntityDiff.column := 0 |} |}.

Definition demo_entity (n : string) (a b : Z) : Entity :=
  {| EntityDiff.id := 0; EntityDiff.kind := KindFunction; EntityDiff.name := n;
     EntityDiff.signature := ""; EntityDiff.parameters := []; EntityDiff.return_type := None;
     EntityDiff.span := demo_span a b; EntityDiff.depth := 0; EntityDiff.parent := None;
     EntityDiff.children := []; EntityDiff.doc_comment := None; EntityDiff.modifiers := [];
     EntityDiff.attributes := ∅; EntityDiff.metadata := ∅; EntityDiff.is_stdlib := false;
     EntityDiff.stdlib_category := None; EntityDiff.subtype := None |}.

(** Entity 0 moves from row 5 to row 1 of its file; entity 1 stays. *)
Definition demo : EntityStore :=
  add_function_with_path 0 (demo_entity "g" 1 3) "a.rs"
    (add_function_with_path 1 (demo_entity "f" 4 9) "a.rs"
      (add_function_with_path 0 (demo_entity "f" 5 6) "a.rs" new)).

Lemma store_demo_wf : wf demo.
Proof. unfold demo. do 3 (apply wf_add_entity; [unfold u64_max; lia|]). apply wf_new_store. Qed.

(** Entity 2 is registered without a file, entity 7 of another index by name. *)
Definition mixed_demo : EntityStore :=
  register_external_entity_name "f" 7 "b.rs" (add_function 2 (demo_entity "h" 1 2) demo).

Lemma mixed_demo_reachable :
  reachable (λ x, x = (new, ∅, ∅)) step (mixed_demo, {[("f", 7)]} ∪ ∅, {[7]} ∪ ({[2]} ∪ ∅)).
Proof.
  exists (new, ∅, ∅). split; [done|]. unfold mixed_demo, demo.
  do 5 (eapply rtc_r; [|by constructor; unfold u64_max; lia]). constructor.
Qed.

Theorem entity_indexes_consistent_witness :
  kept ({[("f", 7)]} ∪ ∅) ({[7]} ∪ ({[2]} ∪ ∅)) mixed_demo ∧
  get_function_ids_by_name "f" mixed_demo = [1; 7].
Proof.
  split; [|by vm_compute]. apply (entity_indexes_consistent _ _ _ mixed_demo_reachable).
Defined.

(** The range query over the ordered rows returns the entities
    the scan over the whole store returns, each once and in the order of their
    rows, as long as rows fit the 32 bits they are stored in. *)
Theorem line_range_agrees_with_scan `{!SetIter EntityId} (file : string)
    (start_line end_line : Z) (s : EntityStore) :
  wf s → (∀ j e, function_index s !! j = Some e → 0 ≤ start_row e < 2 ^ 32) →
  get_entities_in_line_range file start_line end_line s
    ≡ₚ scan_line_range file start_line end_line s ∧
  (is_Some (file_entities_by_start s !! file) →
   get_entities_in_line_range file start_line end_line s `sublist_of`
   map snd (default [] (file_entities_by_start s !! file))).
Proof.
  intros Hs Hrows.
  assert (Hsub : is_Some (file_entities_by_start s !! file) →
    get_entities_in_line_range file start_line end_line s `sublist_of`
    map snd (default [] (file_entities_by_start s !! file))).
  { intros [vec E]. unfold get_entities_in_line_range. rewrite E. simpl.
    destruct vec as [|p vec]; [by destruct (wf_rows_ok _ Hs file [] E)|].
    etransitivity; [apply retain_sublist|]. apply sublist_map, take_sublist. }
  split; [|done]. apply NoDup_Permutation; [| |intros i; by apply elem_of_range].
  - destruct (file_entities_by_start s !! file) as [vec|] eqn:E.
    + eapply sublist_NoDup; [|by apply Hsub]. rewrite <- E. by apply rows_NoDup.
    + unfold get_entities_in_line_range. rewrite E. by apply NoDup_retain, NoDup_retain, NoDup_set_iter.
  - by apply NoDup_retain, NoDup_retain, NoDup_set_iter.
Qed.

#[local] Instance demo_iter : SetIter EntityId := elements_iter.

Theorem line_range_agrees_with_scan_witness :
  wf demo ∧ get_entities_in_line_range "a.rs" 2 4 demo ≡ₚ scan_line_range "a.rs" 2 4 demo.
Proof.
  split; [apply store_demo_wf|]. apply line_range_agrees_with_scan; [apply store_demo_wf|].
  intros j e Hj. vm_compute in Hj.
  destruct j as [|p|p]; [injection Hj as <-; vm_compute; split; congruence| |done].
  destruct p; try discriminate Hj. injection Hj as <-; vm_compute; split; congruence.
Defined.

Example demo_range : get_entities_in_line_range "a.rs" 2 4 demo = [0; 1].
Proof. vm_compute. reflexivity. Qed.

(** An allocated identifier is new, and [max_entity_id] is an upper bound of the
    identifiers in use; it changes nothing as the counter is up to date. *)
Theorem identifiers_are_fresh (s : EntityStore) :
  wf s →
  function_index s !! (allocate_entity_id s).1 = None ∧
  (max_entity_id s).2 = s ∧
  ∀ i, is_Some (function_index s !! i) → i ≤ (max_entity_id s).1.
Proof.
  intros Hs. split.
  - simpl. destruct (function_index s !! entity_id_counter s) eqn:E; [|done].
    assert (0 ≤ entity_id_counter s < entity_id_counter s); [|lia].
    apply (wf_ids _ Hs). by rewrite E.
  - unfold max_entity_id. destruct (decide (function_index s = ∅)) as [He|He].
    { split; [done|]. intros i. rewrite He, lookup_empty. by intros []. }
    assert (Hmax : 0 ≤ scanned_max s < entity_id_counter s).
    { unfold scanned_max.
      assert (∀ p, p ∈ map_to_list (function_index s) → 0 ≤ p.1 < entity_id_counter s) as Hp.
      { intros [i e] Hi%elem_of_map_to_list. apply (wf_ids _ Hs). simpl. by rewrite Hi. }
      assert (map_to_list (function_index s) ≠ []) as Hne by (by rewrite map_to_list_empty_iff).
      revert Hp Hne. generalize (map_to_list (function_index s)).
      induction l as [|p l IH]; [done|]. intros Hp _. simpl.
      pose proof (Hp p ltac:(by left)). destruct l as [|q l]; [simpl; lia|].
      specialize (IH (λ x Hx, Hp x (list_elem_of_further _ _ _ Hx)) ltac:(done)). lia. }
    pose proof (wf_counter _ Hs). rewrite (proj2 (Z.ltb_lt 0 _)) by lia.
    rewrite wrap64_small by (unfold u64_max in *; lia).
    rewrite (proj2 (Z.ltb_ge _ _)) by lia. split; [done|]. simpl. intros i Hi.
    pose proof (wf_ids _ Hs i Hi). unfold sat_sub. lia.
Qed.

Theorem identifiers_are_fresh_witness : wf demo ∧ function_index demo !! 2 = None.
Proof. split; [apply store_demo_wf|]. apply (identifiers_are_fresh demo store_demo_wf). Defined.

End EntityIndex.
