(* ===== verification/SymbolIndex.v ===== *)
(** * The symbol registry of the code graph

    Models the stable symbol keys (StableSymbolKey of
    crates/core/cce-types/src/types/relation/canonical.rs) and the registry of
    [RelationIndex] that maps them to entities (index/core.rs, stores/
    relation_store.rs): first-wins registration with span-scoped addresses for
    duplicates, the record of conflicts, removal, and the part of
    [validate_snapshot] about it. *)

From S2P Require Import Prelude Str Paths EntityDiff Kinds EntityIndex.
From stdpp Require Import finite countable pretty.
From Stdlib Require Import ZArith Lia Ascii.
#[local] Open Scope Z_scope.

Module SymbolIndex.
Import Kinds.

Abbreviation EntityId := Z.
Abbreviation Entity := EntityIndex.Entity.

(** ** Keys *)

Record SymbolKey := {
  file_path : string;
  scoped_name : string;
  key_kind : EntityKind;
  overload_discriminator : string;
}.

#[export] Instance SymbolKey_eq_dec : EqDecision SymbolKey.
Proof. solve_decision. Defined.

Definition all_kinds : list EntityKind :=
  [KindUnknown; KindClass; KindStruct; KindEnum; KindInterface; KindTrait; KindTraitImpl;
   KindInherentImpl; KindTypeAlias; KindUnion; KindEnumVariant; KindAnnotation; KindMacro;
   KindFunction; KindMethod; KindConstructor; KindAccessor; KindDestructor; KindOperator;
   KindField; KindProperty; KindVariable; KindConstant; KindModule; KindNamespace;
   KindPackage; KindImport; KindRequire; KindInclude; KindExport; KindStyleRule;
   KindStyleSelector; KindStyleProperty; KindKeyframe; KindElement; KindAttribute;
   KindExpression; KindComponent; KindTemplate; KindDirective; KindControlFlow;
   KindAnimation; KindBinding; KindAction; KindAtRule; KindEventHandler; KindScriptContent;
   KindStyleContent; KindEmbeddedBlock; KindTestSuite; KindTestCase; KindTestHook;
   KindAssertion; KindMock].

#[export] Instance EntityKind_finite : Finite EntityKind.
Proof.
  refine {| enum := all_kinds |}.
  - apply (bool_decide_unpack _). vm_compute. exact I.
  - intros k. apply (bool_decide_unpack _). by destruct k.
Defined.

#[export] Instance SymbolKey_countable : Countable SymbolKey.
Proof.
  apply (inj_countable'
    (λ k, (file_path k, scoped_name k, key_kind k, overload_discriminator k))
    (λ t, {| file_path := t.1.1.1; scoped_name := t.1.1.2; key_kind := t.1.2;
             overload_discriminator := t.2 |})).
  by intros [].
Defined.

(** The bytes of a literal and back. *)
Definition of_bytes (s : Str.str) : string :=
  String.string_of_list_ascii (map (λ z, ascii_of_nat (Z.to_nat z)) s).

Definition normalize (path : string) : string :=
  of_bytes (Paths.normalize_project_path (Str.lit path)).

(** [usize::to_le_bytes] *)
Fixpoint le_bytes (n : nat) (z : Z) : list Z :=
  match n with O => [] | S n => z mod 256 :: le_bytes n (z / 256) end.

Section keys.
(** SHA-256 is a library: it takes the bytes fed to the hasher to the
    hexadecimal digest. *)
Context (sha256_hex : list Z → string).

Definition discriminator (kind : EntityKind) (cfg_predicate ordinal : string)
    (span_start span_end : Z) (fold_span : bool) : string :=
  sha256_hex (Str.lit (kind_str kind) ++ Str.lit cfg_predicate ++ Str.lit ordinal ++
    if fold_span then le_bytes 8 span_start ++ le_bytes 8 span_end else []).

Definition CFG_PREDICATE : string := "cfg_predicate".
Definition DUPLICATE_SIBLING_ORDINAL : string := "duplicate_sibling_ordinal".

Definition for_entity (path name : string) (e : Entity) : SymbolKey :=
  let cfg_predicate := default "" (EntityDiff.metadata e !! CFG_PREDICATE) in
  let sibling_ordinal := default "" (EntityDiff.metadata e !! DUPLICATE_SIBLING_ORDINAL) in
  let fold_span := is_position_scoped (EntityDiff.kind e) in
  {| file_path := normalize path; scoped_name := name; key_kind := EntityDiff.kind e;
     overload_discriminator :=
       discriminator (EntityDiff.kind e) cfg_predicate sibling_ordinal
         (EntityDiff.start_byte (EntityDiff.span e)) (EntityDiff.end_byte (EntityDiff.span e))
         fold_span |}.

Definition sort_key (k : SymbolKey) : list Z :=
  Str.lit (file_path k) ++ [0] ++ Str.lit (scoped_name k) ++ [0] ++ Str.lit (kind_str (key_kind k))
  ++ [0] ++ Str.lit (overload_discriminator k).

Definition RELATION_SNAPSHOT_SCHEMA_VERSION : Z := 1.

(** A component goes into the hasher behind its length. *)
Definition hash_component (c : string) : list Z :=
  le_bytes 8 (Z.of_nat (String.length c)) ++ Str.lit c.

Definition stable_id_input (k : SymbolKey) : list Z :=
  le_bytes 4 RELATION_SNAPSHOT_SCHEMA_VERSION ++
  hash_component (file_path k) ++ hash_component (scoped_name k) ++
  hash_component (kind_str (key_kind k)) ++ hash_component (overload_discriminator k).

Definition stable_id (k : SymbolKey) : string := ("sym_" ++ sha256_hex (stable_id_input k))%string.

Definition is_file_placeholder (k : SymbolKey) : bool :=
  bool_decide (scoped_name k = "<file>") && bool_decide (key_kind k = KindModule).

(** ** Registry *)

Record SymbolKeyConflictRecord := {
  conflict_file_path : string;
  conflict_scoped_name : string;
  conflict_kind : EntityKind;
  kept_entity : EntityId;
  rejected_entity : EntityId;
}.

Definition SYMBOL_KEY_CONFLICT_SAMPLE_CAP : nat := 64.

Record SymbolRegistry := {
  symbol_key_to_entity : gmap SymbolKey EntityId;
  entity_to_symbol_key : gmap EntityId SymbolKey;
  stable_id_to_entity : gmap string EntityId;
  file_symbol_keys : gmap string (list SymbolKey);
  symbol_key_conflict_count : Z;
  symbol_key_conflict_samples : list SymbolKeyConflictRecord;
}.

Definition new_registry : SymbolRegistry :=
  {| symbol_key_to_entity := ∅; entity_to_symbol_key := ∅; stable_id_to_entity := ∅;
     file_symbol_keys := ∅; symbol_key_conflict_count := 0; symbol_key_conflict_samples := [] |}.

Definition keys_of (f : string) (s : SymbolRegistry) : list SymbolKey :=
  default [] (file_symbol_keys s !! f).

(** The four insertions of a registration. *)
Definition record_key (key : SymbolKey) (i : EntityId) (s : SymbolRegistry) : SymbolRegistry :=
  {| symbol_key_to_entity := <[key := i]> (symbol_key_to_entity s);
     entity_to_symbol_key := <[i := key]> (entity_to_symbol_key s);
     stable_id_to_entity := <[stable_id key := i]> (stable_id_to_entity s);
     file_symbol_keys :=
       <[file_path key := keys_of (file_path key) s ++ [key]]> (file_symbol_keys s);
     symbol_key_conflict_count := symbol_key_conflict_count s;
     symbol_key_conflict_samples := symbol_key_conflict_samples s |}.

Definition record_symbol_key_conflict (key : SymbolKey) (kept rejected : EntityId)
    (s : SymbolRegistry) : SymbolRegistry :=
  let samples := symbol_key_conflict_samples s in
  let samples :=
    if (SYMBOL_KEY_CONFLICT_SAMPLE_CAP <=? length samples)%nat then tail samples else samples in
  {| symbol_key_to_entity := symbol_key_to_entity s;
     entity_to_symbol_key := entity_to_symbol_key s;
     stable_id_to_entity := stable_id_to_entity s; file_symbol_keys := file_symbol_keys s;
     symbol_key_conflict_count := wrap64 (symbol_key_conflict_count s + 1);
     symbol_key_conflict_samples := samples ++
       [{| conflict_file_path := file_path key; conflict_scoped_name := scoped_name key;
           conflict_kind := key_kind key; kept_entity := kept; rejected_entity := rejected |}] |}.

Definition span_scoped (name : string) (e : Entity) : string :=
  (name ++ "#" ++ pretty (EntityDiff.start_byte (EntityDiff.span e))
        ++ "-" ++ pretty (EntityDiff.end_byte (EntityDiff.span e)))%string.

(** Whether the registered owner provably is another symbol. *)
Definition owner_differs (functions : gmap EntityId Entity) (owner : EntityId) (e : Entity) : bool :=
  match functions !! owner with
  | Some o =>
      negb (EntityDiff.start_byte (EntityDiff.span o) =? EntityDiff.start_byte (EntityDiff.span e))
      || negb (EntityDiff.end_byte (EntityDiff.span o) =? EntityDiff.end_byte (EntityDiff.span e))
  | None => false
  end.

Definition register_symbol_key (functions : gmap EntityId Entity) (path name : string)
    (e : Entity) (i : EntityId) (s : SymbolRegistry) : bool * SymbolRegistry :=
  let key := for_entity path name e in
  match symbol_key_to_entity s !! key with
  | Some existing =>
      if decide (existing = i) then (true, s)
      else
        let span_key := for_entity path (span_scoped name e) e in
        let span_taken :=
          match symbol_key_to_entity s !! span_key with
          | Some j => negb (bool_decide (j = i))
          | None => false
          end in
        if negb (owner_differs functions existing e) || span_taken
        then (false, record_symbol_key_conflict key existing i s)
        else (true, record_key span_key i s)
  | None => (true, record_key key i s)
  end.

Definition get_entity_id_by_symbol_key (key : SymbolKey) (s : SymbolRegistry) : option EntityId :=
  symbol_key_to_entity s !! key.
Definition get_entity_id_by_stable_symbol_id (sid : string) (s : SymbolRegistry)
    : option EntityId := stable_id_to_entity s !! sid.
Definition get_symbol_key_by_entity_id (i : EntityId) (s : SymbolRegistry) : option SymbolKey :=
  entity_to_symbol_key s !! i.

(** The part of [remove_function]: the key of the entity leaves the keys of
    its file. *)
Definition unlist_key (key : SymbolKey) (m : gmap string (list SymbolKey)) :=
  match m !! file_path key with
  | None => m
  | Some keys =>
      let keys' := retain (λ k, negb (bool_decide (k = key))) keys in
      if decide (keys' = []) then delete (file_path key) m else <[file_path key := keys']> m
  end.

Definition unlist_entity (i : EntityId) (s : SymbolRegistry) : SymbolRegistry :=
  match entity_to_symbol_key s !! i with
  | None => s
  | Some key =>
      {| symbol_key_to_entity := symbol_key_to_entity s;
         entity_to_symbol_key := entity_to_symbol_key s;
         stable_id_to_entity := stable_id_to_entity s;
         file_symbol_keys := unlist_key key (file_symbol_keys s);
         symbol_key_conflict_count := symbol_key_conflict_count s;
         symbol_key_conflict_samples := symbol_key_conflict_samples s |}
  end.

(** Step 3.5 of [remove_file]. *)
Definition forget_entity (i : EntityId) (s : SymbolRegistry) : SymbolRegistry :=
  match entity_to_symbol_key s !! i with
  | None => s
  | Some key =>
      {| symbol_key_to_entity := delete key (symbol_key_to_entity s);
         entity_to_symbol_key := delete i (entity_to_symbol_key s);
         stable_id_to_entity := delete (stable_id key) (stable_id_to_entity s);
         file_symbol_keys := file_symbol_keys s;
         symbol_key_conflict_count := symbol_key_conflict_count s;
         symbol_key_conflict_samples := symbol_key_conflict_samples s |}
  end.

(** The checks of [validate_snapshot] on the registry: every key is listed
    under its file, every listed key is registered and belongs to the file. *)
Definition registry_valid (s : SymbolRegistry) : bool :=
  forallb (λ p : SymbolKey * EntityId, bool_decide (p.1 ∈ keys_of (file_path p.1) s))
    (map_to_list (symbol_key_to_entity s))
  && forallb (λ p : string * list SymbolKey,
       forallb (λ k, bool_decide (is_Some (symbol_key_to_entity s !! k))
                     && bool_decide (file_path k = p.1)) p.2)
       (map_to_list (file_symbol_keys s)).

(** The removals of [remove_file], which first unlists the keys of all the
    entities and then forgets them. *)
Definition remove_entities (ids : list EntityId) (s : SymbolRegistry) : SymbolRegistry :=
  foldl (λ s i, forget_entity i s) (foldl (λ s i, unlist_entity i s) s ids) ids.

(** ** Invariant *)

Record registry_ok (s : SymbolRegistry) : Prop := {
  ok_back : ∀ i k, entity_to_symbol_key s !! i = Some k → symbol_key_to_entity s !! k = Some i;
  ok_listed : ∀ k, is_Some (symbol_key_to_entity s !! k) ↔ k ∈ keys_of (file_path k) s;
  ok_filed : ∀ f k, k ∈ keys_of f s → file_path k = f;
  ok_samples : (length (symbol_key_conflict_samples s) ≤ SYMBOL_KEY_CONFLICT_SAMPLE_CAP)%nat;
}.

Lemma keys_of_record f k i s :
  keys_of f (record_key k i s) = keys_of f s ++ (if decide (f = file_path k) then [k] else []).
Proof.
  unfold keys_of. simpl. destruct (decide (f = file_path k)) as [->|Hne].
  - by rewrite lookup_insert_eq.
  - by rewrite lookup_insert_ne, app_nil_r.
Qed.

Lemma record_key_ok k i s :
  registry_ok s → (∀ j, symbol_key_to_entity s !! k = Some j → j = i) →
  registry_ok (record_key k i s).
Proof.
  intros Hs Hk. split.
  - intros j k'. simpl. rewrite lookup_insert_Some. intros [[<- <-]|[Hj Hk']].
    + by rewrite lookup_insert_eq.
    + pose proof (ok_back _ Hs _ _ Hk') as Hb. rewrite lookup_insert_ne; [done|].
      intros <-. apply Hj. symmetry. by apply Hk.
  - intros k'. rewrite keys_of_record, elem_of_app, <- (ok_listed _ Hs). simpl.
    rewrite lookup_insert_is_Some. destruct (decide (k = k')) as [<-|Hne].
    + rewrite decide_True by done. split; [right; by left|by left].
    + split; [intros [|[_ ?]]; [done|by left]|]. intros [?|Hin]; [by right|].
      destruct (decide _); [|by apply elem_of_nil in Hin].
      apply list_elem_of_singleton in Hin. congruence.
  - intros f k'. rewrite keys_of_record, elem_of_app. intros [Hin|Hin]; [by apply (ok_filed _ Hs)|].
    destruct (decide _) as [->|]; [|by apply elem_of_nil in Hin].
    by apply list_elem_of_singleton in Hin as ->.
  - apply Hs.
Qed.

Lemma record_conflict_ok k j i s :
  registry_ok s → registry_ok (record_symbol_key_conflict k j i s).
Proof.
  intros [Hb Hl Hf Hc]. split; try done.
  unfold record_symbol_key_conflict, SYMBOL_KEY_CONFLICT_SAMPLE_CAP in *.
  cbn [symbol_key_conflict_samples]. rewrite length_app. cbn [length].
  destruct (Nat.leb_spec 64 (length (symbol_key_conflict_samples s))); [|lia].
  destruct (symbol_key_conflict_samples s); cbn [length tail] in *; lia.
Qed.

Lemma register_ok functions path name e i s :
  registry_ok s → registry_ok (register_symbol_key functions path name e i s).2.
Proof.
  intros Hs. unfold register_symbol_key.
  destruct (symbol_key_to_entity s !! for_entity path name e) as [j|] eqn:Ej.
  2:{ apply record_key_ok; [done|]. congruence. }
  destruct (decide (j = i)); [done|].
  destruct (_ || _) eqn:Eb; [by apply record_conflict_ok|].
  apply orb_false_iff in Eb as [_ Ht]. apply record_key_ok; [done|]. intros j' Hj'.
  rewrite Hj' in Ht. by apply negb_false_iff, bool_decide_eq_true in Ht.
Qed.

(** *** Removal *)

Definition key_among (ids : list EntityId) (s : SymbolRegistry) (k : SymbolKey) : Prop :=
  ∃ i, i ∈ ids ∧ entity_to_symbol_key s !! i = Some k.

Lemma unlist_entity_spec i s :
  registry_ok s ∨ (∀ f k, k ∈ keys_of f s → file_path k = f) →
  symbol_key_to_entity (unlist_entity i s) = symbol_key_to_entity s ∧
  entity_to_symbol_key (unlist_entity i s) = entity_to_symbol_key s ∧
  symbol_key_conflict_samples (unlist_entity i s) = symbol_key_conflict_samples s ∧
  ∀ f k, k ∈ keys_of f (unlist_entity i s) ↔
         k ∈ keys_of f s ∧ entity_to_symbol_key s !! i ≠ Some k.
Proof.
  intros Hs. assert (Hf : ∀ f k, k ∈ keys_of f s → file_path k = f)
    by (destruct Hs as [Hs|Hs]; [apply Hs|done]).
  unfold unlist_entity. destruct (entity_to_symbol_key s !! i) as [key|] eqn:E.
  2:{ split_and!; [done..|]. naive_solver. }
  simpl. split_and!; [done..|]. intros f k. unfold keys_of, unlist_key. simpl.
  assert (Hr : ∀ l k, k ∈ retain (λ k', negb (bool_decide (k' = key))) l ↔ k ∈ l ∧ k ≠ key).
  { intros l k'. by rewrite elem_of_retain, negb_true_iff, bool_decide_eq_false. }
  destruct (file_symbol_keys s !! file_path key) as [keys|] eqn:Ek.
  - destruct (decide (f = file_path key)) as [->|Hne].
    + rewrite Ek. simpl. specialize (Hr keys k). destruct (decide _) as [He|He].
      * rewrite lookup_delete_eq. simpl. rewrite He in Hr. naive_solver.
      * rewrite lookup_insert_eq. simpl. rewrite Hr. naive_solver.
    + assert (Hneq : k ∈ default [] (file_symbol_keys s !! f) → k ≠ key).
      { intros Hk ->. apply Hne. symmetry. by apply Hf. }
      destruct (decide _); rewrite ?lookup_delete_ne, ?lookup_insert_ne by done; naive_solver.
  - split; [|tauto]. intros Hk. split; [done|]. intros [= ->].
    pose proof (Hf _ _ Hk) as <-. rewrite Ek in Hk. by apply elem_of_nil in Hk.
Qed.

Lemma unlist_all_spec ids s :
  (∀ f k, k ∈ keys_of f s → file_path k = f) →
  let s' := foldl (λ s i, unlist_entity i s) s ids in
  symbol_key_to_entity s' = symbol_key_to_entity s ∧
  entity_to_symbol_key s' = entity_to_symbol_key s ∧
  symbol_key_conflict_samples s' = symbol_key_conflict_samples s ∧
  ∀ f k, k ∈ keys_of f s' ↔ k ∈ keys_of f s ∧ ¬ key_among ids s k.
Proof.
  revert s. induction ids as [|i ids IH]; intros s Hf; simpl.
  - split_and!; [done..|]. unfold key_among. setoid_rewrite elem_of_nil. naive_solver.
  - destruct (unlist_entity_spec i s (or_intror Hf)) as (H1 & H2 & H3 & H4).
    destruct (IH (unlist_entity i s)) as (-> & -> & -> & H8).
    { intros f k [Hk _]%H4. by apply Hf. }
    split_and!; [done..|]. intros f k. rewrite H8, H4. unfold key_among. rewrite H2.
    setoid_rewrite elem_of_cons. naive_solver.
Qed.

Lemma forget_all_spec ids s :
  (∀ i k, entity_to_symbol_key s !! i = Some k → symbol_key_to_entity s !! k = Some i) →
  let s' := foldl (λ s i, forget_entity i s) s ids in
  file_symbol_keys s' = file_symbol_keys s ∧
  symbol_key_conflict_samples s' = symbol_key_conflict_samples s ∧
  (∀ j k, entity_to_symbol_key s' !! j = Some k ↔ entity_to_symbol_key s !! j = Some k ∧ j ∉ ids) ∧
  (∀ k j, symbol_key_to_entity s' !! k = Some j ↔
          symbol_key_to_entity s !! k = Some j ∧ ¬ key_among ids s k).
Proof.
  revert s. induction ids as [|i ids IH]; intros s Hb; simpl.
  - unfold key_among. setoid_rewrite elem_of_nil. split_and!; [done..| |]; naive_solver.
  - unfold forget_entity at 2 4 6 8. destruct (entity_to_symbol_key s !! i) as [key|] eqn:E.
    + match goal with |- context [foldl _ ?s1 _] => set (s1' := s1) end.
      destruct (IH s1') as (-> & -> & H3 & H4).
      { intros j k. simpl. rewrite lookup_delete_Some. intros [Hji Hj].
        rewrite lookup_delete_ne; [by apply Hb|]. intros ->.
        pose proof (Hb _ _ Hj). pose proof (Hb _ _ E). congruence. }
      split_and!; [done..| |].
      * intros j k. rewrite H3. simpl. rewrite lookup_delete_Some, elem_of_cons. naive_solver.
      * intros k j. rewrite H4. unfold key_among. simpl. rewrite lookup_delete_Some.
        setoid_rewrite lookup_delete_Some. setoid_rewrite elem_of_cons.
        destruct (decide (key = k)) as [<-|Hne]; [naive_solver|].
        split; [|naive_solver]. intros [[_ Hk] Hn]. split; [done|].
        intros (i' & [->|Hi'] & He); [congruence|]. apply Hn. exists i'. split; [done|].
        split; [congruence|done].
    + destruct (IH s Hb) as (-> & -> & H3 & H4). split_and!; [done..| |].
      * intros j k. rewrite H3, elem_of_cons. naive_solver.
      * intros k j. rewrite H4. unfold key_among. setoid_rewrite elem_of_cons. naive_solver.
Qed.

(** The stable ids of the keys of the given entities. *)
Definition stable_among (ids : list EntityId) (s : SymbolRegistry) (sid : string) : Prop :=
  ∃ i k, i ∈ ids ∧ entity_to_symbol_key s !! i = Some k ∧ stable_id k = sid.

Lemma forget_all_stable ids s sid :
  let s' := foldl (λ s i, forget_entity i s) s ids in
  (stable_among ids s sid → stable_id_to_entity s' !! sid = None) ∧
  (¬ stable_among ids s sid → stable_id_to_entity s' !! sid = stable_id_to_entity s !! sid) ∧
  (stable_id_to_entity s !! sid = None → stable_id_to_entity s' !! sid = None).
Proof.
  cbv zeta. revert s. induction ids as [|i ids IH]; intros s; cbn [foldl].
  { split_and!; [|done..]. by intros (i & k & Hi%elem_of_nil & _). }
  destruct (IH (forget_entity i s)) as (H1 & H2 & H3).
  unfold forget_entity in *. destruct (entity_to_symbol_key s !! i) as [key|] eqn:Ei.
  - set (s1 := {| symbol_key_to_entity := _ |}) in *.
    assert (Hs : ∀ j, j ≠ i → entity_to_symbol_key s1 !! j = entity_to_symbol_key s !! j)
      by (intros j Hj; by apply lookup_delete_ne).
    split_and!.
    + intros (j & k & [->|Hj]%elem_of_cons & Hk & <-).
      * apply H3. rewrite Ei in Hk. injection Hk as ->. apply lookup_delete_eq.
      * destruct (decide (j = i)) as [->|Hne].
        { apply H3. rewrite Ei in Hk. injection Hk as ->. apply lookup_delete_eq. }
        apply H1. exists j, k. by rewrite Hs.
    + intros Hn. rewrite H2.
      * apply lookup_delete_ne. intros <-. apply Hn. exists i, key. split_and!; [by left|done..].
      * intros (j & k & Hj & Hk & He). apply Hn. exists j, k. split_and!; [by right| |done].
        destruct (decide (j = i)) as [->|Hne]; [|by rewrite <- Hs].
        unfold s1 in Hk. simpl in Hk. by rewrite lookup_delete_eq in Hk.
    + intros Hn. apply H3. unfold s1. simpl. by apply lookup_delete_None; right.
  - split_and!; [| |done].
    + intros (j & k & [->|Hj]%elem_of_cons & Hk & He); [congruence|]. apply H1. by exists j, k.
    + intros Hn. apply H2. intros (j & k & Hj & Hk & He). apply Hn. exists j, k. split_and!; [by right|done..].
Qed.

Lemma remove_entities_stable ids s sid :
  registry_ok s →
  let s' := remove_entities ids s in
  (stable_among ids s sid → stable_id_to_entity s' !! sid = None) ∧
  (¬ stable_among ids s sid → stable_id_to_entity s' !! sid = stable_id_to_entity s !! sid).
Proof.
  intros Hs. unfold remove_entities. cbv zeta.
  destruct (unlist_all_spec ids s (ok_filed _ Hs)) as (_ & U2 & _).
  assert (stable_id_to_entity (foldl (λ s i, unlist_entity i s) s ids) = stable_id_to_entity s) as U5.
  { clear. revert s. induction ids as [|i ids IH]; intros s; [done|]. cbn [foldl]. rewrite IH.
    unfold unlist_entity. by destruct (entity_to_symbol_key s !! i). }
  set (s1 := foldl (λ s i, unlist_entity i s) s ids) in *.
  destruct (forget_all_stable ids s1 sid) as (H1 & H2 & _). unfold stable_among in *. rewrite U2 in H1, H2.
  rewrite U5 in H2. done.
Qed.

Lemma remove_entities_spec ids s :
  registry_ok s →
  let s' := remove_entities ids s in
  registry_ok s' ∧
  (∀ j k, entity_to_symbol_key s' !! j = Some k ↔ entity_to_symbol_key s !! j = Some k ∧ j ∉ ids) ∧
  (∀ k j, symbol_key_to_entity s' !! k = Some j ↔
          symbol_key_to_entity s !! k = Some j ∧ ¬ key_among ids s k).
Proof.
  intros Hs. unfold remove_entities. cbv zeta.
  destruct (unlist_all_spec ids s (ok_filed _ Hs)) as (U1 & U2 & U3 & U4).
  set (s1 := foldl (λ s i, unlist_entity i s) s ids) in *.
  destruct (forget_all_spec ids s1) as (F1 & F2 & F3 & F4).
  { rewrite U1, U2. apply Hs. }
  set (s2 := foldl (λ s i, forget_entity i s) s1 ids) in *.
  assert (Hka : ∀ k, key_among ids s1 k ↔ key_among ids s k) by (unfold key_among; by rewrite U2).
  assert (F4' : ∀ k j, symbol_key_to_entity s2 !! k = Some j ↔
    symbol_key_to_entity s !! k = Some j ∧ ¬ key_among ids s k).
  { intros k j. by rewrite F4, U1, Hka. }
  assert (F3' : ∀ j k, entity_to_symbol_key s2 !! j = Some k ↔
    entity_to_symbol_key s !! j = Some k ∧ j ∉ ids) by (intros j k; by rewrite F3, U2).
  assert (Hkeys : ∀ f k, k ∈ keys_of f s2 ↔ k ∈ keys_of f s ∧ ¬ key_among ids s k).
  { intros f k. rewrite <- U4. unfold keys_of. by rewrite F1. }
  split_and!; [|done|done]. split.
  - intros i k [Hi Hn]%F3'. apply F4'. split; [by apply Hs|]. intros (j & Hj & Hjk).
    pose proof (ok_back _ Hs _ _ Hi). pose proof (ok_back _ Hs _ _ Hjk). congruence.
  - intros k. rewrite Hkeys, <- (ok_listed _ Hs). unfold is_Some. setoid_rewrite F4'. naive_solver.
  - intros f k [Hk _]%Hkeys. by apply (ok_filed _ Hs).
  - rewrite F2, U3. apply Hs.
Qed.

Lemma new_registry_ok : registry_ok new_registry.
Proof.
  split; simpl.
  - intros i k Hk. by rewrite lookup_empty in Hk.
  - intros k. unfold keys_of. simpl. rewrite !lookup_empty, elem_of_nil. split; [by intros []|done].
  - intros f k. unfold keys_of. simpl. by rewrite lookup_empty, elem_of_nil.
  - unfold SYMBOL_KEY_CONFLICT_SAMPLE_CAP. lia.
Qed.

Inductive registry_step : SymbolRegistry → SymbolRegistry → Prop :=
| step_register functions path name e i s :
    registry_step s (register_symbol_key functions path name e i s).2
| step_remove_entities ids s : registry_step s (remove_entities ids s).

#[export] Instance registry_invariant :
  StepInvariant (λ s, s = new_registry) registry_step registry_ok.
Proof.
  split; [intros s ->; apply new_registry_ok|]. intros s s' Hs Hstep. destruct Hstep.
  - by apply register_ok.
  - by apply remove_entities_spec.
Qed.

Lemma registry_valid_spec s :
  registry_valid s = true ↔
  (∀ k, is_Some (symbol_key_to_entity s !! k) → k ∈ keys_of (file_path k) s) ∧
  (∀ f k, k ∈ keys_of f s → is_Some (symbol_key_to_entity s !! k) ∧ file_path k = f).
Proof.
  unfold registry_valid. rewrite andb_true_iff, !forallb_forall. setoid_rewrite <- list_elem_of_In.
  split.
  - intros [H1 H2]. split.
    + intros k [i Hi]. specialize (H1 (k, i)). rewrite elem_of_map_to_list, bool_decide_eq_true in H1. auto.
    + intros f k Hk. unfold keys_of in Hk. destruct (file_symbol_keys s !! f) as [ks|] eqn:E;
        [|by apply elem_of_nil in Hk].
      specialize (H2 (f, ks)). rewrite elem_of_map_to_list, forallb_forall in H2.
      specialize (H2 E k). rewrite <- list_elem_of_In, andb_true_iff, !bool_decide_eq_true in H2. auto.
  - intros [H1 H2]. split.
    + intros [k i] Hk%elem_of_map_to_list. apply bool_decide_eq_true. apply H1. simpl. by rewrite Hk.
    + intros [f ks] Hf%elem_of_map_to_list. apply forallb_forall. intros k Hk. simpl in *.
      rewrite <- list_elem_of_In in Hk. destruct (H2 f k) as [H3 H4].
      { unfold keys_of. by rewrite Hf. }
      by rewrite !bool_decide_true.
Qed.

(** ** Encoded components *)

Lemma length_le_bytes n z : length (le_bytes n z) = n.
Proof. revert z. induction n as [|n IH]; intros z; simpl; [done|]. by rewrite IH. Qed.

Lemma le_bytes_inj n z z' :
  0 ≤ z < 256 ^ Z.of_nat n → 0 ≤ z' < 256 ^ Z.of_nat n → le_bytes n z = le_bytes n z' → z = z'.
Proof.
  revert z z'. induction n as [|n IH]; intros z z' Hz Hz'; [change (256 ^ Z.of_nat 0) with 1 in *; lia|].
  rewrite Nat2Z.inj_succ, Z.pow_succ_r in Hz, Hz' by lia. intros [= Hm Hd].
  assert (z / 256 = z' / 256) as Hq.
  { apply IH; [| |done].
    - split; [apply Z.div_pos; lia|apply Z.div_lt_upper_bound; lia].
    - split; [apply Z.div_pos; lia|apply Z.div_lt_upper_bound; lia]. }
  rewrite (Z.div_mod z 256), (Z.div_mod z' 256) by lia. by rewrite Hm, Hq.
Qed.

Lemma length_lit a : length (Str.lit a) = String.length a.
Proof. unfold Str.lit. rewrite length_map. induction a as [|c a IH]; simpl; [done|]. by rewrite IH. Qed.

Lemma hash_component_inj a b r r' :
  Z.of_nat (String.length a) < 2 ^ 64 → Z.of_nat (String.length b) < 2 ^ 64 →
  hash_component a ++ r = hash_component b ++ r' → a = b ∧ r = r'.
Proof.
  intros Ha Hb. unfold hash_component. rewrite <- !app_assoc. intros He.
  apply app_inj_1 in He as [Hlen He]; [|by rewrite !length_le_bytes].
  apply le_bytes_inj in Hlen; [|change (256 ^ Z.of_nat 8) with (2 ^ 64); lia..].
  apply Nat2Z.inj in Hlen. apply app_inj_1 in He as [Hl ->]; [|by rewrite !length_lit].
  split; [by apply Str.lit_inj|done].
Qed.

(** ** Theorems *)

(** C20. After any sequence of registrations and removals every
    entity's key leads back to the entity, the keys listed under a file are
    exactly the registered keys of that file, so the registry passes the checks
    of the snapshot validation, and at most 64 conflicts are kept. *)
Theorem symbol_registry_consistent (s : SymbolRegistry) :
  reachable (λ s, s = new_registry) registry_step s →
  registry_ok s ∧ registry_valid s = true.
Proof.
  intros Hr. assert (Hs : registry_ok s) by (revert Hr; apply invariant_reachable, registry_invariant).
  split; [done|]. apply registry_valid_spec. split.
  - intros k Hk. by apply (ok_listed _ Hs).
  - intros f k Hk. pose proof (ok_filed _ Hs _ _ Hk) as <-. split; [by apply (ok_listed _ Hs)|done].
Qed.

(** Registration never takes a key away from an entity. When it
    returns true, the plain or the span-scoped key of the entity leads to it;
    when it returns false, the plain key belongs to another entity that it does
    not provably differ from (or whose span-scoped key is taken), nothing but
    the conflict record changes, and that keeps the newest conflict. *)
Theorem registration_is_first_wins (functions : gmap EntityId Entity) (path name : string)
    (e : Entity) (i : EntityId) (s : SymbolRegistry) :
  let key := for_entity path name e in
  let span_key := for_entity path (span_scoped name e) e in
  let '(registered, s') := register_symbol_key functions path name e i s in
  (∀ k j, symbol_key_to_entity s !! k = Some j → symbol_key_to_entity s' !! k = Some j) ∧
  if registered
  then symbol_key_to_entity s' !! key = Some i ∨ symbol_key_to_entity s' !! span_key = Some i
  else ∃ j, j ≠ i ∧ symbol_key_to_entity s !! key = Some j ∧
    (owner_differs functions j e = false ∨
     ∃ j', j' ≠ i ∧ symbol_key_to_entity s !! span_key = Some j') ∧
    symbol_key_to_entity s' = symbol_key_to_entity s ∧
    entity_to_symbol_key s' = entity_to_symbol_key s ∧
    stable_id_to_entity s' = stable_id_to_entity s ∧ file_symbol_keys s' = file_symbol_keys s ∧
    symbol_key_conflict_count s' = wrap64 (symbol_key_conflict_count s + 1) ∧
    rejected_entity <$> last (symbol_key_conflict_samples s') = Some i.
Proof.
  cbv zeta. unfold register_symbol_key.
  destruct (symbol_key_to_entity s !! for_entity path name e) as [j|] eqn:Ej.
  2:{ simpl. split; [|left; by rewrite lookup_insert_eq]. intros k j' Hk.
      rewrite lookup_insert_ne; [done|congruence]. }
  destruct (decide (j = i)) as [->|Hji]; [split; [done|by left]|].
  destruct (negb (owner_differs functions j e) || _) eqn:Eb.
  - split; [done|]. exists j. split_and!; try done.
    + apply orb_true_iff in Eb as [Ho%negb_true_iff|Ht]; [by left|right].
      destruct (symbol_key_to_entity s !! for_entity path (span_scoped name e) e) as [j'|]; [|done].
      apply negb_true_iff, bool_decide_eq_false in Ht. by exists j'.
    + unfold record_symbol_key_conflict. cbn [symbol_key_conflict_samples]. by rewrite last_snoc.
  - apply orb_false_iff in Eb as [_ Ht]. simpl. split; [|right; by rewrite lookup_insert_eq].
    intros k j' Hk. destruct (decide (for_entity path (span_scoped name e) e = k)) as [<-|Hne].
    + rewrite Hk in Ht. apply negb_false_iff, bool_decide_eq_true in Ht as ->.
      by rewrite lookup_insert_eq.
    + by rewrite lookup_insert_ne.
Qed.

(** A duplicate that is registered again, with the same key and for the same
    entity, is listed a second time under its file. *)
Lemma duplicate_registered_again_is_listed_again functions path name e i j s :
  symbol_key_to_entity s !! for_entity path name e = Some j → j ≠ i →
  owner_differs functions j e = true →
  symbol_key_to_entity s !! for_entity path (span_scoped name e) e = Some i →
  let f := normalize path in
  let s' := (register_symbol_key functions path name e i s).2 in
  keys_of f s' = keys_of f s ++ [for_entity path (span_scoped name e) e].
Proof.
  intros Hj Hji Ho Hi. unfold register_symbol_key. cbv zeta. rewrite Hj, Hi.
  rewrite decide_False, Ho, bool_decide_true by done. cbn [negb orb snd].
  rewrite keys_of_record. by rewrite decide_True.
Qed.

(** The text hashed for a stable identifier determines the key,
    so two keys share an identifier only when SHA-256 collides. *)
Theorem stable_id_input_determines_key (k k' : SymbolKey) :
  (∀ c, c ∈ [file_path k; scoped_name k; overload_discriminator k;
             file_path k'; scoped_name k'; overload_discriminator k'] →
        Z.of_nat (String.length c) < 2 ^ 64) →
  stable_id_input k = stable_id_input k' → k = k'.
Proof.
  intros Hlen He. unfold stable_id_input in He. apply app_inv_head in He.
  assert (Hk : ∀ q, Z.of_nat (String.length (kind_str q)) < 2 ^ 64) by (by intros []).
  apply hash_component_inj in He as [H1 He]; [|apply Hlen; set_solver..].
  apply hash_component_inj in He as [H2 He]; [|apply Hlen; set_solver..].
  apply hash_component_inj in He as [H3 He]; [|apply Hk..].
  rewrite <- (app_nil_r (hash_component (overload_discriminator k))),
    <- (app_nil_r (hash_component (overload_discriminator k'))) in He.
  apply hash_component_inj in He as [H4 _]; [|apply Hlen; set_solver..].
  apply kind_str_inj in H3. destruct k, k'; simpl in *. congruence.
Qed.

(** The text hashed for the discriminator of a key does not separate the
    predicate from the ordinal. *)
Lemma discriminator_is_ambiguous kind a b c st en fold :
  discriminator kind (a ++ b)%string c st en fold = discriminator kind a (b ++ c)%string st en fold.
Proof.
  unfold discriminator. f_equal. f_equal.
  assert (∀ x y, Str.lit (x ++ y)%string = Str.lit x ++ Str.lit y) as Happ.
  { intros x y. unfold Str.lit. rewrite <- map_app. f_equal.
    induction x as [|ch x IH]; simpl; [done|]. by rewrite IH. }
  by rewrite !Happ, <- !app_assoc.
Qed.

End keys.

(** *** Examples *)

Definition demo_hash (bytes : list Z) : string := of_bytes bytes.

Definition demo_key (f n : string) : SymbolKey :=
  {| file_path := f; scoped_name := n; key_kind := KindFunction; overload_discriminator := "d" |}.

Theorem stable_id_input_determines_key_witness :
  stable_id_input (demo_key "a" "bc") ≠ stable_id_input (demo_key "ab" "c").
Proof.
  intros H.
  assert (demo_key "a" "bc" = demo_key "ab" "c") as Hk; [|discriminate Hk].
  apply (stable_id_input_determines_key (demo_key "a" "bc") (demo_key "ab" "c")); [|exact H].
  intros c Hc. simpl in Hc. repeat (apply elem_of_cons in Hc as [->|Hc]; [reflexivity|]).
  by apply elem_of_nil in Hc.
Defined.

Definition demo_entity (a b : Z) : Entity := EntityIndex.demo_entity "f" a b.

Definition demo_functions : gmap EntityId Entity := {[ 0 := demo_entity 1 2; 1 := demo_entity 5 6 ]}.

Definition demo_registry : SymbolRegistry :=
  (register_symbol_key demo_hash demo_functions "./a.rs" "f" (demo_entity 5 6) 1
    (register_symbol_key demo_hash demo_functions "a.rs" "f" (demo_entity 1 2) 0 new_registry).2).2.

Theorem symbol_registry_consistent_witness :
  reachable (λ s, s = new_registry) (registry_step demo_hash) demo_registry ∧
  registry_valid demo_registry = true.
Proof.
  assert (H : reachable (λ s, s = new_registry) (registry_step demo_hash) demo_registry).
  { exists new_registry. split; [done|]. unfold demo_registry.
    do 2 (eapply rtc_r; [|apply step_register]). constructor. }
  split; [exact H|]. apply (symbol_registry_consistent demo_hash demo_registry H).
Defined.

(** The second function of the same name gets a span-scoped key, a third one
    with the span of the first is rejected. *)
Example demo_registrations :
  get_symbol_key_by_entity_id 1 demo_registry =
    Some (for_entity demo_hash "a.rs" "f#5-6" (demo_entity 5 6)) ∧
  (register_symbol_key demo_hash demo_functions "a.rs" "f" (demo_entity 1 2) 2 demo_registry).1 = false.
Proof. vm_compute. done. Qed.

End SymbolIndex.
