(* ===== verification/RelationIndex.v ===== *)
(** * The relation index of the code graph

    Models [RelationIndex] of crates/parser/cce-codegraph/src/index/core.rs
    with its file operations (index/file_index.rs): resolved relations of
    entities and of files with the two reverse indexes derived from them, file
    records, removal of a file, and the validation of a snapshot. The entity
    maps and the symbol registry are those of [EntityIndex] and [SymbolIndex];
    the file dependency graph is that of [DependencyGraph]. The grouping into
    stores follows index/stores.rs. *)

From S2P Require Import Prelude MultiMap SortedVec EntityDiff Kinds DependencyGraph EdgeSet.
From S2P Require Import EntityIndex SymbolIndex.
From stdpp Require Import fin_sets.
From Stdlib Require Import ZArith Lia.
#[local] Open Scope Z_scope.

Module RelationIndex.
Import EdgeSet.

Abbreviation SymbolKey := SymbolIndex.SymbolKey.
#[local] Existing Instances SymbolIndex.SymbolKey_eq_dec SymbolIndex.SymbolKey_countable.

(** ** Relations *)

Record RelationStore := {
  resolved_relation_index : gmap EntityId RelationEdgeSet;
  reverse_callee_index : gmap EntityId (list EntityId);
  file_relation_index : gmap string RelationEdgeSet;
  file_callers_by_callee : gmap EntityId (gset string);
}.

Definition new_relations : RelationStore :=
  {| resolved_relation_index := ∅; reverse_callee_index := ∅; file_relation_index := ∅;
     file_callers_by_callee := ∅ |}.

Definition set_resolved (m : gmap EntityId RelationEdgeSet) (s : RelationStore) : RelationStore :=
  {| resolved_relation_index := m; reverse_callee_index := reverse_callee_index s;
     file_relation_index := file_relation_index s;
     file_callers_by_callee := file_callers_by_callee s |}.

Definition set_reverse (m : gmap EntityId (list EntityId)) (s : RelationStore) : RelationStore :=
  {| resolved_relation_index := resolved_relation_index s; reverse_callee_index := m;
     file_relation_index := file_relation_index s;
     file_callers_by_callee := file_callers_by_callee s |}.

Definition set_file_relations (m : gmap string RelationEdgeSet) (c : gmap EntityId (gset string))
    (s : RelationStore) : RelationStore :=
  {| resolved_relation_index := resolved_relation_index s;
     reverse_callee_index := reverse_callee_index s; file_relation_index := m;
     file_callers_by_callee := c |}.

Definition callers_of (callee : EntityId) (s : RelationStore) : list EntityId :=
  default [] (reverse_callee_index s !! callee).

Definition track_reverse_caller (callee caller : EntityId) (s : RelationStore) : RelationStore :=
  set_reverse (<[callee := sorted_insert Z.ltb caller (callers_of callee s)]>
                 (reverse_callee_index s)) s.

Definition untrack_reverse_caller (callee caller : EntityId) (s : RelationStore) : RelationStore :=
  match reverse_callee_index s !! callee with
  | None => s
  | Some entry =>
      match binary_search Z.ltb caller entry with
      | Found _ =>
          let entry' := sorted_remove Z.ltb caller entry in
          set_reverse (if decide (entry' = []) then delete callee (reverse_callee_index s)
                       else <[callee := entry']> (reverse_callee_index s)) s
      | InsertAt _ => s
      end
  end.

Definition edges_of (c : EntityId) (s : RelationStore) : list ResolvedRelation :=
  match resolved_relation_index s !! c with Some es => edges es | None => [] end.

Definition maybe_untrack_reverse_caller (callee caller : EntityId) (s : RelationStore)
    : RelationStore :=
  if existsb (λ r, bool_decide (callee_id r = Some callee)) (edges_of caller s) then s
  else untrack_reverse_caller callee caller s.

Definition add_resolved_relation (r : ResolvedRelation) (s : RelationStore) : RelationStore :=
  let '(inserted, es) :=
    insert r (default empty_edge_set (resolved_relation_index s !! caller r)) in
  let s := set_resolved (<[caller r := es]> (resolved_relation_index s)) s in
  if inserted then
    match callee_id r with
    | Some callee => track_reverse_caller callee (caller r) s
    | None => s
    end
  else s.

Definition add_resolved_relations (rs : list ResolvedRelation) (s : RelationStore)
    : RelationStore :=
  foldl (λ s r, add_resolved_relation r s) s rs.

(** *** File-level relations *)

Definition track_file_caller (callee : option EntityId) (file_path : string)
    (m : gmap EntityId (gset string)) : gmap EntityId (gset string) :=
  match callee with Some i => add_value i file_path m | None => m end.

Definition untrack_file_caller (callee : option EntityId) (file_path : string)
    (m : gmap EntityId (gset string)) : gmap EntityId (gset string) :=
  match callee with Some i => drop_value i file_path m | None => m end.

Definition add_file_relation (file_path : string) (r : ResolvedRelation) (s : RelationStore)
    : RelationStore :=
  let '(inserted, es) :=
    insert r (default empty_edge_set (file_relation_index s !! file_path)) in
  set_file_relations (<[file_path := es]> (file_relation_index s))
    (if inserted then track_file_caller (callee_id r) file_path (file_callers_by_callee s)
     else file_callers_by_callee s) s.

Definition take_file_relations (file_path : string) (s : RelationStore)
    : option RelationEdgeSet * RelationStore :=
  match file_relation_index s !! file_path with
  | None => (None, s)
  | Some es =>
      (Some es, set_file_relations (delete file_path (file_relation_index s))
        (foldl (λ m r, untrack_file_caller (callee_id r) file_path m)
           (file_callers_by_callee s) (edges es)) s)
  end.

Definition file_relations (file_path : string) (s : RelationStore)
    : option (list ResolvedRelation) :=
  edges <$> file_relation_index s !! file_path.

Section rebuild.
Context `{!SetIter EntityId, !SetIter string}.

Definition rebuild_reverse_callee_index (s : RelationStore) : RelationStore :=
  foldl (λ s' c,
      foldl (λ s' r, match callee_id r with
                     | Some callee => track_reverse_caller callee c s'
                     | None => s'
                     end) s' (edges_of c s))
    (set_reverse ∅ s) (set_iter (dom (resolved_relation_index s))).

Definition file_edges_of (f : string) (s : RelationStore) : list ResolvedRelation :=
  match file_relation_index s !! f with Some es => edges es | None => [] end.

Definition rebuild_file_caller_index (s : RelationStore) : RelationStore :=
  set_file_relations (file_relation_index s)
    (foldl (λ m f, foldl (λ m r, track_file_caller (callee_id r) f m) m (file_edges_of f s))
       ∅ (set_iter (dom (file_relation_index s)))) s.
End rebuild.

(** ** Files *)

Inductive ParseStatus := Pending | Parsing | ParseSuccess | ParseFailed | Partial.

Record FileInfo := {
  file_id : string;
  info_path : string;
  language : string;
  file_hash : string;
  file_size : Z;
  modified_time : Z;
  parse_status : ParseStatus;
  parse_errors : list string;
  parse_version : Z;
  entity_count : Z;
  relation_count : Z;
  export_count : Z;
  import_count : Z;
  depends_on : list string;
}.

Definition default_info : FileInfo :=
  {| file_id := ""; info_path := ""; language := ""; file_hash := ""; file_size := 0;
     modified_time := 0; parse_status := Pending; parse_errors := []; parse_version := 0;
     entity_count := 0; relation_count := 0; export_count := 0; import_count := 0;
     depends_on := [] |}.

Inductive ExportType := Named | DefaultExport | Wildcard.

Record ExportInfo := {
  function_id : EntityId;
  function_name : string;
  export_type : ExportType;
}.

Section index.
(** Standardized imports are only stored. *)
Context {StandardizedImport : Type}.
Context (sha256_hex : list Z → string).

Record ImportTable := {
  table_file_id : string;
  standardized_imports : list StandardizedImport;
}.

Record FileRecord := {
  info : FileInfo;
  imports : ImportTable;
  exports : list ExportInfo;
}.

Definition default_record : FileRecord :=
  {| info := default_info;
     imports := {| table_file_id := ""; standardized_imports := [] |}; exports := [] |}.

Record RelationIndex := {
  entities : EntityIndex.EntityStore;
  relations : RelationStore;
  symbols : SymbolIndex.SymbolRegistry;
  file_records : gmap string FileRecord;
  dependency_graph : Graph.FileDependencyGraph;
}.

Definition new : RelationIndex :=
  {| entities := EntityIndex.new; relations := new_relations;
     symbols := SymbolIndex.new_registry; file_records := ∅; dependency_graph := Graph.new |}.

Definition set_records (m : gmap string FileRecord) (x : RelationIndex) : RelationIndex :=
  {| entities := entities x; relations := relations x; symbols := symbols x;
     file_records := m; dependency_graph := dependency_graph x |}.

Definition record_of (f : string) (x : RelationIndex) : FileRecord :=
  default default_record (file_records x !! f).

Definition add_file (file : FileInfo) (x : RelationIndex) : RelationIndex :=
  let r := record_of (file_id file) x in
  set_records (<[file_id file := {| info := file; imports := imports r; exports := exports r |}]>
                 (file_records x)) x.

Definition get_file (f : string) (x : RelationIndex) : option FileInfo :=
  info <$> file_records x !! f.
Definition contains_file (f : string) (x : RelationIndex) : bool :=
  bool_decide (is_Some (file_records x !! f)).
Definition file_count (x : RelationIndex) : nat := size (file_records x).

Definition add_import_table (f : string) (t : ImportTable) (x : RelationIndex) : RelationIndex :=
  let r := record_of f x in
  set_records (<[f := {| info := info r; imports := t; exports := exports r |}]> (file_records x)) x.

Definition get_import_table (f : string) (x : RelationIndex) : option ImportTable :=
  imports <$> file_records x !! f.
Definition has_imports (f : string) (x : RelationIndex) : bool :=
  bool_decide (is_Some (file_records x !! f)).
Definition import_count_of (x : RelationIndex) : nat := size (file_records x).

Definition add_exports (f : string) (es : list ExportInfo) (x : RelationIndex) : RelationIndex :=
  let r := record_of f x in
  set_records (<[f := {| info := info r; imports := imports r; exports := es |}]> (file_records x)) x.

Definition add_export (f : string) (e : ExportInfo) (x : RelationIndex) : RelationIndex :=
  let r := record_of f x in
  set_records (<[f := {| info := info r; imports := imports r; exports := exports r ++ [e] |}]>
                 (file_records x)) x.

Definition get_exports (f : string) (x : RelationIndex) : option (list ExportInfo) :=
  exports <$> file_records x !! f.

Definition find_export_by_name (f n : string) (x : RelationIndex) : option ExportInfo :=
  r ← file_records x !! f;
  head (Prelude.retain (λ e, bool_decide (function_name e = n)) (exports r)).

(** ** Removing a file *)

(** Step 4a for one callee of the removed entity. *)
Definition detach_callee (i : EntityId) (s : RelationStore) (callee : EntityId) : RelationStore :=
  let s := untrack_reverse_caller callee i s in
  match resolved_relation_index s !! callee with
  | None => s
  | Some entry =>
      let entry := (remove_caller i entry).2 in
      set_resolved (if is_empty entry && is_callers_empty entry
                    then delete callee (resolved_relation_index s)
                    else <[callee := entry]> (resolved_relation_index s)) s
  end.

(** Step 4b for one caller listed in the entry of the removed entity. *)
Definition detach_caller (i : EntityId) (s : RelationStore) (c : EntityId) : RelationStore :=
  let s := untrack_reverse_caller i c s in
  match resolved_relation_index s !! c with
  | None => s
  | Some rs =>
      let rs := EdgeSet.retain (λ r, negb (bool_decide (callee_id r = Some i))) rs in
      let s := set_resolved (if is_empty rs && is_callers_empty rs
                             then delete c (resolved_relation_index s)
                             else <[c := rs]> (resolved_relation_index s)) s in
      maybe_untrack_reverse_caller i c s
  end.

Definition remove_relations_of (s : RelationStore) (i : EntityId) : RelationStore :=
  let callee_ids := omap callee_id (edges_of i s) in
  let s := set_resolved (delete i (resolved_relation_index s)) s in
  let s := foldl (detach_callee i) s callee_ids in
  let s := set_reverse (delete i (reverse_callee_index s)) s in
  match resolved_relation_index s !! i with
  | None => s
  | Some entry =>
      foldl (detach_caller i) (set_resolved (delete i (resolved_relation_index s)) s)
        (callers entry)
  end.

(** [remove_function] on the entity maps and the keys of the file. *)
Definition remove_function (x : EntityIndex.EntityStore * SymbolIndex.SymbolRegistry) (i : EntityId)
    : EntityIndex.EntityStore * SymbolIndex.SymbolRegistry :=
  match EntityIndex.remove_function i x.1 with
  | (Some _, es) => (es, SymbolIndex.unlist_entity i x.2)
  | (None, es) => (es, x.2)
  end.

Definition drop_remap (f : string) (s : EntityIndex.EntityStore) : EntityIndex.EntityStore :=
  EntityIndex.set_remaps (delete f (EntityIndex.entity_id_remaps s)) s.

Section iteration.
Context `{!SetIter EntityId, !SetIter string, !SetIter SymbolKey}.

Definition remove_file (f : string) (x : RelationIndex) : RelationIndex :=
  let ids := EntityIndex.get_entity_ids_by_file f (entities x) in
  let '(es, syms) := foldl remove_function (entities x, symbols x) ids in
  let es := foldl (λ es i, EntityIndex.remove_membership i es) es ids in
  let syms := foldl (λ s i, SymbolIndex.forget_entity sha256_hex i s) syms ids in
  let rels := foldl remove_relations_of (relations x) ids in
  {| entities := drop_remap f es;
     relations := (take_file_relations f rels).2;
     symbols := syms;
     file_records := delete f (file_records x);
     dependency_graph := Graph.remove_file f (dependency_graph x) |}.

Definition update_file := remove_file.

Definition get_resolved_relations_by_file (f : string) (x : RelationIndex)
    : list (EntityId * list ResolvedRelation) :=
  omap (λ i, (λ es, (i, edges es)) <$> resolved_relation_index (relations x) !! i)
    (EntityIndex.get_entity_ids_by_file f (entities x)).

(** ** Validation *)

Inductive SnapshotError :=
| CallerHasNoEntity (c : EntityId)
| MissingInternalTarget (c callee : EntityId)
| MissingFileTarget (f : string) (callee : EntityId)
| NoFileMembership (i : EntityId)
| KeyNotListed (k : SymbolKey)
| StaleKey (f : string) (k : SymbolKey)
| MisfiledKey (f : string) (k : SymbolKey).

Definition missing (x : RelationIndex) (i : EntityId) : bool :=
  negb (EntityIndex.contains_function i (entities x)).

(** Every violation, in the order the checks meet them. *)
Definition snapshot_errors (x : RelationIndex) : list SnapshotError :=
  (set_iter (dom (resolved_relation_index (relations x))) ≫= λ c,
     if missing x c then [CallerHasNoEntity c]
     else edges_of c (relations x) ≫= λ r,
       match callee_id r with
       | Some callee => if missing x callee then [MissingInternalTarget c callee] else []
       | None => []
       end)
  ++ (set_iter (dom (file_relation_index (relations x))) ≫= λ f,
     file_edges_of f (relations x) ≫= λ r,
       match callee_id r with
       | Some callee => if missing x callee then [MissingFileTarget f callee] else []
       | None => []
       end)
  ++ (set_iter (dom (EntityIndex.function_index (entities x))) ≫= λ i,
     match EntityIndex.entity_file_index (entities x) !! i with
     | Some _ => [] | None => [NoFileMembership i] end)
  ++ (set_iter (dom (SymbolIndex.symbol_key_to_entity (symbols x))) ≫= λ k,
     if decide (k ∈ SymbolIndex.keys_of (SymbolIndex.file_path k) (symbols x)) then []
     else [KeyNotListed k])
  ++ (set_iter (dom (SymbolIndex.file_symbol_keys (symbols x))) ≫= λ f,
     SymbolIndex.keys_of f (symbols x) ≫= λ k,
       match SymbolIndex.symbol_key_to_entity (symbols x) !! k with
       | None => [StaleKey f k]
       | Some _ => if decide (SymbolIndex.file_path k = f) then [] else [MisfiledKey f k]
       end).

(** The first violation ends the validation. *)
Definition validate_snapshot (x : RelationIndex) : result unit SnapshotError :=
  match snapshot_errors x with [] => Ok tt | e :: _ => Err e end.
End iteration.

(** [snapshot_take]: the contents, and the emptied source. *)
Definition snapshot_take (x : RelationIndex) : RelationIndex * RelationIndex := (x, new).

End index.

(** ** Invariant of the relations *)

Definition mentions (es : list ResolvedRelation) (i : EntityId) : Prop :=
  ∃ r, r ∈ es ∧ callee_id r = Some i.

Record entry_ok (c : EntityId) (es : RelationEdgeSet) : Prop := {
  entry_set : edge_set_ok es;
  entry_callers : callers es = [];
  entry_nonempty : edges es ≠ [];
  entry_caller : ∀ r, r ∈ edges es → caller r = c;
}.

Definition entries_ok (s : RelationStore) : Prop :=
  ∀ c es, resolved_relation_index s !! c = Some es → entry_ok c es.

Definition lists_ok (s : RelationStore) : Prop :=
  ∀ i l, reverse_callee_index s !! i = Some l → l ≠ [] ∧ sorted Z.ltb l.

Record files_ok (s : RelationStore) : Prop := {
  ok_file_entries : ∀ f es, file_relation_index s !! f = Some es → edge_set_ok es ∧ edges es ≠ [];
  ok_file_no_empty : no_empty (file_callers_by_callee s);
  ok_file_callers : ∀ i f,
    f ∈ values_at (file_callers_by_callee s) i ↔ mentions (file_edges_of f s) i;
}.

Record relations_ok (s : RelationStore) : Prop := {
  ok_entries : entries_ok s;
  ok_lists : lists_ok s;
  ok_reverse : ∀ callee c, c ∈ callers_of callee s ↔ mentions (edges_of c s) callee;
  ok_files : files_ok s;
}.

Lemma mentions_nil i : ¬ mentions [] i.
Proof. intros (r & Hr & _). by apply elem_of_nil in Hr. Qed.

Lemma mentions_snoc es r i : mentions (es ++ [r]) i ↔ mentions es i ∨ callee_id r = Some i.
Proof.
  unfold mentions. setoid_rewrite elem_of_app. setoid_rewrite list_elem_of_singleton. naive_solver.
Qed.

Lemma files_ok_eq s s' :
  file_relation_index s' = file_relation_index s →
  file_callers_by_callee s' = file_callers_by_callee s → files_ok s → files_ok s'.
Proof.
  intros H1 H2 [He Hne Hc]. split; unfold file_edges_of; rewrite ?H1, ?H2; done.
Qed.

(** *** One list of callers *)

Lemma callers_of_reverse s i l c :
  callers_of c (set_reverse (<[i := l]> (reverse_callee_index s)) s) =
  if decide (i = c) then l else callers_of c s.
Proof.
  unfold callers_of. simpl. destruct (decide (i = c)) as [->|];
    [by rewrite lookup_insert_eq | by rewrite lookup_insert_ne].
Qed.

Lemma callers_of_dropped s i c :
  callers_of c (set_reverse (delete i (reverse_callee_index s)) s) =
  if decide (i = c) then [] else callers_of c s.
Proof.
  unfold callers_of. simpl. destruct (decide (i = c)) as [->|];
    [by rewrite lookup_delete_eq | by rewrite lookup_delete_ne].
Qed.

Lemma callers_sorted s i : lists_ok s → sorted Z.ltb (callers_of i s).
Proof.
  intros Hs. unfold callers_of. destruct (reverse_callee_index s !! i) as [l|] eqn:E; simpl;
    [by apply (Hs i l)|constructor].
Qed.

Lemma track_reverse_spec callee c s :
  lists_ok s →
  lists_ok (track_reverse_caller callee c s) ∧
  ∀ i d, d ∈ callers_of i (track_reverse_caller callee c s) ↔
         d ∈ callers_of i s ∨ (i = callee ∧ d = c).
Proof.
  intros Hs. pose proof (callers_sorted s callee Hs) as Hl.
  destruct (sorted_insert_spec Z.ltb c _ Hl) as [Hsort Hin]. split.
  - intros i l. simpl. rewrite lookup_insert_Some. intros [[_ <-]|[_ Hi]]; [|by apply (Hs i)].
    split; [|done]. intros He. assert (c ∈ ([] : list Z)) as Hc; [|by apply elem_of_nil in Hc].
    rewrite <- He. apply Hin. by left.
  - intros i d. unfold track_reverse_caller. rewrite callers_of_reverse.
    destruct (decide (callee = i)) as [<-|Hne]; [rewrite Hin|]; naive_solver.
Qed.

Lemma untrack_reverse_spec callee c s :
  lists_ok s →
  lists_ok (untrack_reverse_caller callee c s) ∧
  ∀ i d, d ∈ callers_of i (untrack_reverse_caller callee c s) ↔
         d ∈ callers_of i s ∧ ¬ (i = callee ∧ d = c).
Proof.
  intros Hs. unfold untrack_reverse_caller.
  destruct (reverse_callee_index s !! callee) as [l|] eqn:E.
  2:{ split; [done|]. intros i d. split; [|tauto]. intros Hd. split; [done|]. intros [-> ->].
      unfold callers_of in Hd. rewrite E in Hd. by apply elem_of_nil in Hd. }
  assert (Hl : callers_of callee s = l) by (unfold callers_of; by rewrite E).
  pose proof (proj2 (Hs _ _ E)) as Hsort.
  destruct (sorted_remove_spec Z.ltb c l Hsort) as [Hsort' Hin].
  destruct (binary_search Z.ltb c l) as [p|p] eqn:Ep.
  - split.
    + intros i l'. simpl. destruct (decide (sorted_remove Z.ltb c l = [])).
      * rewrite lookup_delete_Some. intros [_ Hi]. by apply (Hs i).
      * rewrite lookup_insert_Some. intros [[_ <-]|[_ Hi]]; [done|by apply (Hs i)].
    + intros i d. destruct (decide (sorted_remove Z.ltb c l = [])) as [He|He].
      * rewrite callers_of_dropped. destruct (decide (callee = i)) as [<-|Hne]; [|naive_solver].
        rewrite Hl, <- He, Hin. naive_solver.
      * rewrite callers_of_reverse. destruct (decide (callee = i)) as [<-|Hne]; [|naive_solver].
        rewrite Hin, Hl. naive_solver.
  - split; [done|]. intros i d. split; [|tauto]. intros Hd. split; [done|]. intros [-> ->].
    rewrite Hl in Hd. unfold sorted_remove in Hin. rewrite Ep in Hin. apply Hin in Hd. tauto.
Qed.

Lemma track_reverse_fields callee c s :
  resolved_relation_index (track_reverse_caller callee c s) = resolved_relation_index s ∧
  file_relation_index (track_reverse_caller callee c s) = file_relation_index s ∧
  file_callers_by_callee (track_reverse_caller callee c s) = file_callers_by_callee s.
Proof. done. Qed.

Lemma untrack_reverse_fields callee c s :
  resolved_relation_index (untrack_reverse_caller callee c s) = resolved_relation_index s ∧
  file_relation_index (untrack_reverse_caller callee c s) = file_relation_index s ∧
  file_callers_by_callee (untrack_reverse_caller callee c s) = file_callers_by_callee s.
Proof. unfold untrack_reverse_caller. split_cases. Qed.

(** *** Additions *)

Lemma insert_entry r c es :
  entry_ok c es ∨ es = empty_edge_set → caller r = c → entry_ok c (insert r es).2.
Proof.
  intros Hes Hc.
  assert (edge_set_ok es) as Hok by (destruct Hes as [[]| ->]; [done|apply empty_ok]).
  assert (callers es = [] ∧ ∀ r, r ∈ edges es → caller r = c) as [Hcs Hcl].
  { destruct Hes as [[]| ->]; [done|]. split; [done|]. intros r' Hr'. by apply elem_of_nil in Hr'. }
  destruct (insert_spec r es Hok) as [(_ & -> & Hin)|(_ & He & _)].
  - split; [done..| |done]. intros Hn. rewrite Hn in Hin. by apply elem_of_nil in Hin.
  - split.
    + by apply insert_ok.
    + unfold insert. by case_match.
    + rewrite He. by destruct (edges es).
    + rewrite He. intros r' [Hr'|Hr'%list_elem_of_singleton]%elem_of_app; [by apply Hcl|by subst].
Qed.

(** What an insertion adds to the callees of a set. *)
Lemma insert_mentions r es i :
  edge_set_ok es →
  mentions (edges (insert r es).2) i ↔ mentions (edges es) i ∨ callee_id r = Some i.
Proof.
  intros Hes. destruct (insert_spec r es Hes) as [(_ & -> & Hin)|(_ & -> & _)]; [|apply mentions_snoc].
  split; [by left|]. intros [|Hr]; [done|]. apply list_elem_of_fmap in Hin as (r' & Heq & Hr').
  exists r'. split; [done|]. unfold relation_identity in Heq. rewrite Hr in Heq.
  destruct (callee_id r') as [j|]; [congruence|]. destruct (is_external r'); congruence.
Qed.

Lemma insert_new r es i :
  edge_set_ok es → (insert r es).1 = false → callee_id r = Some i → mentions (edges es) i.
Proof.
  intros Hes Hf Hr. destruct (insert_spec r es Hes) as [(_ & He & _)|(Ht & _)]; [|congruence].
  pose proof (proj2 (insert_mentions r es i Hes) (or_intror Hr)) as Hm. by rewrite He in Hm.
Qed.

Lemma edges_of_insert c es s d :
  edges_of d (set_resolved (<[c := es]> (resolved_relation_index s)) s) =
  if decide (c = d) then edges es else edges_of d s.
Proof.
  unfold edges_of. simpl. destruct (decide (c = d)) as [->|];
    [by rewrite lookup_insert_eq | by rewrite lookup_insert_ne].
Qed.

Lemma edges_of_drop c s d :
  edges_of d (set_resolved (delete c (resolved_relation_index s)) s) =
  if decide (c = d) then [] else edges_of d s.
Proof.
  unfold edges_of. simpl. destruct (decide (c = d)) as [->|];
    [by rewrite lookup_delete_eq | by rewrite lookup_delete_ne].
Qed.

(** The set an operation starts from. *)
Lemma entry_default c s :
  entries_ok s →
  let es := default empty_edge_set (resolved_relation_index s !! c) in
  (entry_ok c es ∨ es = empty_edge_set) ∧ edge_set_ok es ∧ edges es = edges_of c s.
Proof.
  intros Hs. unfold edges_of. destruct (resolved_relation_index s !! c) as [es|] eqn:E; simpl.
  - pose proof (Hs c es E) as He. split_and!; [by left|apply He|done].
  - split_and!; [by right|apply empty_ok|done].
Qed.

(** The reverse index lists callers only, and misses those of [U] at most. *)
Record tracked (U : EntityId → Prop) (s : RelationStore) : Prop := {
  tracked_entries : entries_ok s;
  tracked_lists : lists_ok s;
  tracked_sound : ∀ i c, c ∈ callers_of i s → mentions (edges_of c s) i;
  tracked_complete : ∀ i c, ¬ U i → mentions (edges_of c s) i → c ∈ callers_of i s;
}.

Lemma relations_tracked s : relations_ok s → tracked (λ _, False) s.
Proof. intros [He Hl Hr _]. split; [done..| |]; intros i c; rewrite Hr; tauto. Qed.

Lemma tracked_weaken (U U' : EntityId → Prop) s :
  (∀ i, U i → U' i) → tracked U s → tracked U' s.
Proof. intros HU [He Hl Hs Hc]. split; auto. Qed.

(** Without edges to the entities of [U] nothing is missed. *)
Lemma tracked_relations (U : EntityId → Prop) s :
  tracked U s → files_ok s → (∀ i c, U i → ¬ mentions (edges_of c s) i) → relations_ok s.
Proof.
  intros [He Hl Hs Hc] Hf HU. split; [done..| |done]. intros i c. split; [by apply Hs|]. intros Hm.
  apply Hc; [|done]. intros Hi. by apply (HU i c).
Qed.

Lemma add_resolved_files_ok r s : files_ok s → files_ok (add_resolved_relation r s).
Proof.
  apply files_ok_eq; unfold add_resolved_relation; destruct (insert r _) as [[] es];
    destruct (callee_id r); done.
Qed.

(** Additions list their caller, also where others are missed. *)
Lemma add_resolved_tracked (U : EntityId → Prop) r s : tracked U s → tracked U (add_resolved_relation r s).
Proof.
  intros [He Hl Hs Hc]. unfold add_resolved_relation.
  destruct (entry_default (caller r) s He) as (Hd & Hset & Hedges). cbv zeta in *.
  set (es := default empty_edge_set _) in *.
  pose proof (insert_entry r (caller r) es Hd eq_refl) as Hentry.
  pose proof (λ i, insert_mentions r es i Hset) as Hm.
  pose proof (λ i, insert_new r es i Hset) as Hnew.
  destruct (insert r es) as [inserted es']. simpl in *.
  set (s1 := set_resolved _ _).
  assert (Hentries : entries_ok s1).
  { intros c es0. simpl. rewrite lookup_insert_Some. intros [[<- <-]|[_ Hx]]; [done|by apply He]. }
  assert (Hrev : ∀ callee c, mentions (edges_of c s1) callee ↔
    mentions (edges_of c s) callee ∨ (c = caller r ∧ callee_id r = Some callee)).
  { intros callee c. subst s1. rewrite edges_of_insert.
    destruct (decide (caller r = c)) as [<-|Hne]; [rewrite Hm, Hedges|]; naive_solver. }
  assert (Hsame : (∀ callee, callee_id r = Some callee → mentions (edges es) callee) → tracked U s1).
  { intros Hold. split; [done|done|..]; intros i c; rewrite Hrev; change (callers_of i s1) with (callers_of i s).
    - intros Hi. left. by apply Hs.
    - intros Hi [Hx|[-> Hr]]; [by apply Hc|]. apply Hc; [done|]. rewrite <- Hedges. auto. }
  destruct inserted; [|apply Hsame; auto].
  destruct (callee_id r) as [callee|] eqn:Er; [|by apply Hsame].
  destruct (track_reverse_spec callee (caller r) s1 Hl) as [Hl' Ht].
  split; [done|done|..]; intros i c; rewrite Ht;
    change (edges_of c (track_reverse_caller callee (caller r) s1)) with (edges_of c s1);
    rewrite Hrev; change (callers_of i s1) with (callers_of i s).
  - intros [Hi|[-> ->]]; [left; by apply Hs|by right].
  - intros Hi [Hx|[-> [= ->]]]; [left; by apply Hc|by right].
Qed.

Lemma add_resolved_ok r s : relations_ok s → relations_ok (add_resolved_relation r s).
Proof.
  intros Hs. apply (tracked_relations (λ _, False)); [|by apply add_resolved_files_ok, Hs|done].
  by apply add_resolved_tracked, relations_tracked.
Qed.

Lemma add_resolved_all_ok rs s : relations_ok s → relations_ok (add_resolved_relations rs s).
Proof.
  unfold add_resolved_relations. revert s. induction rs as [|r rs IH]; intros s Hs; simpl; [done|].
  apply IH. by apply add_resolved_ok.
Qed.

(** *** Relations of files *)

Lemma file_edges_insert f es m s g :
  file_edges_of g (set_file_relations (<[f := es]> (file_relation_index s)) m s) =
  if decide (f = g) then edges es else file_edges_of g s.
Proof.
  unfold file_edges_of. simpl. destruct (decide (f = g)) as [->|];
    [by rewrite lookup_insert_eq | by rewrite lookup_insert_ne].
Qed.

Lemma file_edges_drop f m s g :
  file_edges_of g (set_file_relations (delete f (file_relation_index s)) m s) =
  if decide (f = g) then [] else file_edges_of g s.
Proof.
  unfold file_edges_of. simpl. destruct (decide (f = g)) as [->|];
    [by rewrite lookup_delete_eq | by rewrite lookup_delete_ne].
Qed.

Lemma track_file_spec o f m i g :
  g ∈ values_at (track_file_caller o f m) i ↔ g ∈ values_at m i ∨ (o = Some i ∧ g = f).
Proof. destruct o as [j|]; simpl; rewrite ?elem_of_add_value; naive_solver. Qed.

Lemma untrack_all_files f es m :
  no_empty m →
  let m' := foldl (λ m r, untrack_file_caller (callee_id r) f m) m es in
  no_empty m' ∧
  ∀ i g, g ∈ values_at m' i ↔ g ∈ values_at m i ∧ ¬ (g = f ∧ mentions es i).
Proof.
  revert m. induction es as [|r es IH]; intros m Hm; simpl.
  { split; [done|]. intros i g. split; [|tauto]. intros Hg. split; [done|].
    intros [_ Hn]. by apply mentions_nil in Hn. }
  assert (no_empty (untrack_file_caller (callee_id r) f m)) as Hm1
    by (destruct (callee_id r); simpl; [by apply no_empty_drop|done]).
  destruct (IH _ Hm1) as [H1 H2]. split; [done|]. intros i g. rewrite H2.
  assert (mentions (r :: es) i ↔ callee_id r = Some i ∨ mentions es i) as ->.
  { unfold mentions. setoid_rewrite elem_of_cons. naive_solver. }
  destruct (callee_id r) as [j|]; simpl; rewrite ?elem_of_drop_value; naive_solver.
Qed.

Lemma add_file_ok f r s : files_ok s → files_ok (add_file_relation f r s).
Proof.
  intros [He Hne Hc]. unfold add_file_relation.
  assert (edge_set_ok (default empty_edge_set (file_relation_index s !! f)) ∧
    edges (default empty_edge_set (file_relation_index s !! f)) = file_edges_of f s) as [Hset Hedges].
  { unfold file_edges_of. destruct (file_relation_index s !! f) as [es|] eqn:E; simpl;
      [split; [by apply (He f es)|done]|split; [apply empty_ok|done]]. }
  set (es := default empty_edge_set _) in *.
  pose proof (insert_ok r es Hset) as Hset'.
  pose proof (λ i, insert_mentions r es i Hset) as Hm.
  pose proof (λ i, insert_new r es i Hset) as Hnew.
  assert (edges (insert r es).2 ≠ []) as Hnonempty.
  { destruct (insert_spec r es Hset) as [(_ & -> & Hin)|(_ & -> & _)].
    - intros Hn. rewrite Hn in Hin. by apply elem_of_nil in Hin.
    - by destruct (edges es). }
  destruct (insert r es) as [inserted es']. simpl in *. split; simpl.
  - intros g es0. rewrite lookup_insert_Some. intros [[_ <-]|[_ Hg]]; [done|by apply (He g)].
  - destruct inserted; [|done]. destruct (callee_id r); simpl; [by apply no_empty_add|done].
  - intros i g. rewrite file_edges_insert. destruct inserted; rewrite ?track_file_spec, Hc;
      destruct (decide (f = g)) as [<-|Hg]; rewrite ?Hm, ?Hedges in *; naive_solver.
Qed.

Lemma take_file_ok f s : files_ok s → files_ok (take_file_relations f s).2.
Proof.
  intros [He Hne Hc]. unfold take_file_relations.
  destruct (file_relation_index s !! f) as [es|] eqn:E; [|done]. simpl.
  destruct (untrack_all_files f (edges es) (file_callers_by_callee s) Hne) as [H1 H2]. split; simpl.
  - intros g es0. rewrite lookup_delete_Some. intros [_ Hg]. by apply (He g).
  - done.
  - intros i g. rewrite H2, Hc, file_edges_drop.
    assert (file_edges_of f s = edges es) as Hf by (unfold file_edges_of; by rewrite E).
    destruct (decide (f = g)) as [<-|Hg]; [|naive_solver]. rewrite Hf.
    split; [tauto|]. intros Hm. by apply mentions_nil in Hm.
Qed.

Lemma new_relations_ok : relations_ok new_relations.
Proof.
  split; [| | |split]; unfold entries_ok, lists_ok, callers_of, edges_of, file_edges_of; simpl.
  - intros c es. by rewrite lookup_empty.
  - intros i l. by rewrite lookup_empty.
  - intros i c. rewrite !lookup_empty, elem_of_nil. split; [done|apply mentions_nil].
  - intros f es. by rewrite lookup_empty.
  - apply no_empty_empty.
  - intros i f. rewrite values_at_empty, lookup_empty, elem_of_empty. split; [done|apply mentions_nil].
Qed.

Lemma add_file_relations_ok f r s : relations_ok s → relations_ok (add_file_relation f r s).
Proof.
  intros Hs. pose proof (add_file_ok f r s (ok_files _ Hs)) as Hf. revert Hf.
  unfold add_file_relation. destruct (insert r _) as [inserted es]. intros Hf.
  split; [apply Hs..|done].
Qed.

Lemma take_file_relations_ok f s : relations_ok s → relations_ok (take_file_relations f s).2.
Proof.
  intros Hs. pose proof (take_file_ok f s (ok_files _ Hs)) as Hf. revert Hf.
  unfold take_file_relations. destruct (file_relation_index s !! f); [|done]. intros Hf.
  split; [apply Hs..|done].
Qed.

(** *** Rebuilding *)

Lemma reverse_ext s s' :
  lists_ok s → lists_ok s' → (∀ i c, c ∈ callers_of i s ↔ c ∈ callers_of i s') →
  reverse_callee_index s = reverse_callee_index s'.
Proof.
  intros Hs Hs' Hc. apply map_eq. intros i.
  pose proof (sorted_ext Z.ltb _ _ (callers_sorted s i Hs) (callers_sorted s' i Hs') (Hc i)) as He.
  unfold callers_of in He. destruct (reverse_callee_index s !! i) as [l|] eqn:E,
    (reverse_callee_index s' !! i) as [l'|] eqn:E'; simpl in He; [by rewrite He|..|done].
  - by destruct (Hs i l E) as [[] _].
  - by destruct (Hs' i l' E') as [[] _].
Qed.

Lemma set_reverse_id s : set_reverse (reverse_callee_index s) s = s.
Proof. by destruct s. Qed.

(** Two states that differ in the reverse index only. *)
Lemma set_reverse_trans s s1 s2 :
  set_reverse (reverse_callee_index s1) s2 = s1 → set_reverse (reverse_callee_index s) s1 = s →
  set_reverse (reverse_callee_index s) s2 = s.
Proof. intros <- <-. done. Qed.

Definition track_edges (c : EntityId) (s : RelationStore) (es : list ResolvedRelation) :=
  foldl (λ s r, match callee_id r with
                | Some callee => track_reverse_caller callee c s
                | None => s
                end) s es.

Lemma track_edges_spec c es s :
  lists_ok s →
  let s' := track_edges c s es in
  lists_ok s' ∧ set_reverse (reverse_callee_index s) s' = s ∧
  ∀ i d, d ∈ callers_of i s' ↔ d ∈ callers_of i s ∨ (d = c ∧ mentions es i).
Proof.
  cbv zeta. unfold track_edges. revert s. induction es as [|r es IH]; intros s Hs; simpl.
  { split_and!; [done|by destruct s|]. intros i d. split; [by left|]. intros [|[_ Hn]]; [done|].
    by apply mentions_nil in Hn. }
  assert (Hm : ∀ i, mentions (r :: es) i ↔ callee_id r = Some i ∨ mentions es i).
  { intros i. unfold mentions. setoid_rewrite elem_of_cons. naive_solver. }
  destruct (callee_id r) as [callee|] eqn:Er.
  - destruct (track_reverse_spec callee c s Hs) as [Hl Ht].
    destruct (IH _ Hl) as (H1 & H2 & H3). split_and!; [done| |].
    + eapply set_reverse_trans; [exact H2|by destruct s].
    + intros i d. rewrite H3, Ht, Hm. naive_solver.
  - destruct (IH _ Hs) as (H1 & H2 & H3). split_and!; [done..|].
    intros i d. rewrite H3, Hm. naive_solver.
Qed.

Lemma track_all_spec s0 cs s :
  lists_ok s →
  let s' := foldl (λ s c, track_edges c s (edges_of c s0)) s cs in
  lists_ok s' ∧ set_reverse (reverse_callee_index s) s' = s ∧
  ∀ i d, d ∈ callers_of i s' ↔ d ∈ callers_of i s ∨ (d ∈ cs ∧ mentions (edges_of d s0) i).
Proof.
  cbv zeta. revert s. induction cs as [|c cs IH]; intros s Hs; simpl.
  { split_and!; [done|by destruct s|]. intros i d. rewrite elem_of_nil. tauto. }
  destruct (track_edges_spec c (edges_of c s0) s Hs) as (H1 & H2 & H3).
  destruct (IH _ H1) as (H4 & H5 & H6). split_and!; [done| |].
  - by eapply set_reverse_trans.
  - intros i d. rewrite H6, H3, elem_of_cons. naive_solver.
Qed.

Section rebuilt.
Context `{!SetIter EntityId, !SetIter string}.

Lemma edges_of_dom s c i : mentions (edges_of c s) i → c ∈ dom (resolved_relation_index s).
Proof.
  unfold edges_of. destruct (resolved_relation_index s !! c) as [es|] eqn:E.
  - intros _. apply elem_of_dom. by rewrite E.
  - intros Hm. by apply mentions_nil in Hm.
Qed.

(** Rebuilding derives the reverse index from the edges alone. *)
Lemma rebuild_reverse_spec s :
  let s' := rebuild_reverse_callee_index s in
  lists_ok s' ∧ set_reverse (reverse_callee_index s) s' = s ∧
  ∀ i c, c ∈ callers_of i s' ↔ mentions (edges_of c s) i.
Proof.
  cbv zeta. unfold rebuild_reverse_callee_index.
  assert (Hnil : lists_ok (set_reverse ∅ s)) by (intros i l; simpl; by rewrite lookup_empty).
  destruct (track_all_spec s (set_iter (dom (resolved_relation_index s))) _ Hnil) as (H1 & H2 & H3).
  unfold track_edges in *. set (s' := foldl _ _ _) in *. clearbody s'. split_and!; [done| |].
  - apply (set_reverse_trans s (set_reverse ∅ s)); [done|]. apply (set_reverse_id s).
  - intros i c. rewrite H3, elem_of_set_iter. unfold callers_of at 1. simpl.
    rewrite lookup_empty. simpl. rewrite elem_of_nil. pose proof (edges_of_dom s c i). tauto.
Qed.

Lemma rebuild_reverse_id s : relations_ok s → rebuild_reverse_callee_index s = s.
Proof.
  intros Hs. destruct (rebuild_reverse_spec s) as (H1 & H2 & H3).
  set (s' := rebuild_reverse_callee_index s) in *. clearbody s'.
  assert (reverse_callee_index s' = reverse_callee_index s) as Hr.
  { apply reverse_ext; [done|apply Hs|]. intros i c. by rewrite H3, (ok_reverse _ Hs). }
  rewrite <- (set_reverse_id s'), Hr. exact H2.
Qed.

Lemma track_file_edges es f m i g :
  g ∈ values_at (foldl (λ m r, track_file_caller (callee_id r) f m) m es) i ↔
  g ∈ values_at m i ∨ (g = f ∧ mentions es i).
Proof.
  revert m. induction es as [|r es IH]; intros m; simpl.
  - split; [by left|]. intros [|[_ Hn]]; [done|]. by apply mentions_nil in Hn.
  - rewrite IH, track_file_spec. unfold mentions. setoid_rewrite elem_of_cons. naive_solver.
Qed.

Lemma no_empty_track_file es f m :
  no_empty m → no_empty (foldl (λ m r, track_file_caller (callee_id r) f m) m es).
Proof.
  revert m. induction es as [|r es IH]; intros m Hm; simpl; [done|]. apply IH.
  destruct (callee_id r); simpl; [by apply no_empty_add|done].
Qed.

Lemma track_files_spec s fs m :
  no_empty m →
  let m' := foldl (λ m f, foldl (λ m r, track_file_caller (callee_id r) f m) m (file_edges_of f s)) m fs in
  no_empty m' ∧
  ∀ i g, g ∈ values_at m' i ↔ g ∈ values_at m i ∨ (g ∈ fs ∧ mentions (file_edges_of g s) i).
Proof.
  cbv zeta. revert m. induction fs as [|f fs IH]; intros m Hm; simpl.
  { split; [done|]. intros i g. rewrite elem_of_nil. tauto. }
  destruct (IH _ (no_empty_track_file (file_edges_of f s) f m Hm)) as [H1 H2]. split; [done|].
  intros i g. rewrite H2, track_file_edges, elem_of_cons. naive_solver.
Qed.

Lemma rebuild_file_id s : files_ok s → rebuild_file_caller_index s = s.
Proof.
  intros Hs. unfold rebuild_file_caller_index.
  destruct (track_files_spec s (set_iter (dom (file_relation_index s))) ∅ no_empty_empty) as [H1 H2].
  assert (∀ m, m = file_callers_by_callee s →
    set_file_relations (file_relation_index s) m s = s) as Hs' by (intros m ->; by destruct s).
  apply Hs', no_empty_ext; [done|apply Hs|]. intros i f.
  rewrite H2, elem_of_set_iter, (ok_file_callers _ Hs), values_at_empty, elem_of_empty.
  assert (mentions (file_edges_of f s) i → f ∈ dom (file_relation_index s)); [|tauto].
  unfold file_edges_of. destruct (file_relation_index s !! f) as [es|] eqn:E.
  - intros _. apply elem_of_dom. by rewrite E.
  - intros Hm. by apply mentions_nil in Hm.
Qed.
End rebuilt.

(** *** Removing entities *)

Lemma remove_caller_absent i es : callers es = [] → (remove_caller i es).2 = es.
Proof. destruct es as [e ids c]. simpl. by intros ->. Qed.

(** The entry of a callee lists no callers, so only the reverse index changes. *)
Lemma detach_callee_eq i s callee :
  entries_ok s → detach_callee i s callee = untrack_reverse_caller callee i s.
Proof.
  intros Hs. unfold detach_callee. destruct (untrack_reverse_fields callee i s) as (HR & _ & _).
  set (s1 := untrack_reverse_caller callee i s) in *. rewrite HR.
  destruct (resolved_relation_index s !! callee) as [es|] eqn:E; [|done].
  destruct (Hs callee es E) as [_ Hc Hn _]. rewrite remove_caller_absent by done.
  unfold is_empty. rewrite bool_decide_false by done. simpl.
  rewrite insert_id by done. rewrite <- HR. by destruct s1.
Qed.

Lemma detach_callees_spec i cs s :
  entries_ok s → lists_ok s →
  let s' := foldl (detach_callee i) s cs in
  lists_ok s' ∧ set_reverse (reverse_callee_index s) s' = s ∧
  ∀ j d, d ∈ callers_of j s' ↔ d ∈ callers_of j s ∧ ¬ (j ∈ cs ∧ d = i).
Proof.
  cbv zeta. revert s. induction cs as [|c cs IH]; intros s He Hl; simpl.
  { split_and!; [done|apply set_reverse_id|]. intros j d. rewrite elem_of_nil. tauto. }
  rewrite detach_callee_eq by done.
  destruct (untrack_reverse_spec c i s Hl) as [Hl1 Hd].
  destruct (untrack_reverse_fields c i s) as (HR & HF & HC).
  assert (entries_ok (untrack_reverse_caller c i s)) as He1
    by (intros d es; rewrite HR; apply He).
  destruct (IH _ He1 Hl1) as (H1 & H2 & H3). split_and!; [done| |].
  - eapply set_reverse_trans; [exact H2|].
    destruct s, (untrack_reverse_caller c i _); unfold set_reverse; simpl in *. congruence.
  - intros j d. rewrite H3, Hd, elem_of_cons. naive_solver.
Qed.

Lemma mentions_omap es j : mentions es j ↔ j ∈ omap callee_id es.
Proof. rewrite list_elem_of_omap. done. Qed.

(** Removing the relations of an entity takes its edges, its list of callers and
    its listing under others, and nothing else. *)
Lemma remove_relations_spec i (U : EntityId → Prop) s :
  tracked U s →
  let s' := remove_relations_of s i in
  entries_ok s' ∧ lists_ok s' ∧
  (∀ c, resolved_relation_index s' !! c = if decide (c = i) then None else resolved_relation_index s !! c) ∧
  (∀ j d, d ∈ callers_of j s' ↔ j ≠ i ∧ d ≠ i ∧ d ∈ callers_of j s) ∧
  file_relation_index s' = file_relation_index s ∧ file_callers_by_callee s' = file_callers_by_callee s.
Proof.
  intros [He Hl Hs _]. unfold remove_relations_of. cbv zeta.
  set (s1 := set_resolved (delete i (resolved_relation_index s)) s).
  assert (He1 : entries_ok s1).
  { intros c es. simpl. rewrite lookup_delete_Some. intros [_ Hc]. by apply He. }
  destruct (detach_callees_spec i (omap callee_id (edges_of i s)) s1 He1 Hl) as (H1 & H2 & H3).
  set (s2 := foldl (detach_callee i) s1 _) in *.
  assert (HR2 : resolved_relation_index s2 = delete i (resolved_relation_index s) ∧
    file_relation_index s2 = file_relation_index s ∧
    file_callers_by_callee s2 = file_callers_by_callee s).
  { clearbody s2. unfold set_reverse in H2. injection H2 as Ha Hb Hc. done. }
  destruct HR2 as (HR2 & HF2 & HC2). clearbody s2. cbn [resolved_relation_index set_reverse].
  rewrite HR2, lookup_delete_eq. split_and!; [| | | |exact HF2|exact HC2].
  - intros c es. simpl. rewrite HR2. apply He1.
  - intros j l. simpl. rewrite lookup_delete_Some. intros [_ Hj]. by apply (H1 j).
  - intros c. simpl. rewrite HR2. destruct (decide (c = i)) as [->|Hne]; [apply lookup_delete_eq|by rewrite lookup_delete_ne].
  - intros j d. rewrite callers_of_dropped. destruct (decide (i = j)) as [<-|Hij].
    { rewrite elem_of_nil. naive_solver. }
    rewrite H3, <- mentions_omap. change (callers_of j s1) with (callers_of j s). split.
    + intros [Hd Hn]. split_and!; [done| |done]. intros ->. apply Hn. split; [by apply Hs|done].
    + intros (_ & Hd & Hj). split; [done|]. by intros [_ ->].
Qed.

Lemma edges_of_lookup c s s' (P : Prop) `{!Decision P} :
  resolved_relation_index s' !! c = (if decide P then None else resolved_relation_index s !! c) →
  edges_of c s' = if decide P then [] else edges_of c s.
Proof. unfold edges_of. intros ->. by destruct (decide P). Qed.

(** Afterwards only the callers of the entity itself are missed. *)
Lemma remove_relations_tracked i (U : EntityId → Prop) s :
  tracked U s → tracked (λ j, U j ∨ j = i) (remove_relations_of s i).
Proof.
  intros Ht. destruct (remove_relations_spec i U s Ht) as (H1 & H2 & H3 & H4 & _).
  assert (He : ∀ c, edges_of c (remove_relations_of s i) = if decide (c = i) then [] else edges_of c s)
    by (intros c; by apply edges_of_lookup).
  split; [done|done|..]; intros j c; rewrite H4, He.
  - intros (Hj & Hc & Hin). rewrite decide_False by done. by apply Ht.
  - intros Hj. destruct (decide (c = i)) as [|Hc]; [by intros []%mentions_nil|]. intros Hm.
    split_and!; [naive_solver|done|]. apply Ht; naive_solver.
Qed.

(** The relations of the entities of a file. *)
Lemma remove_all_relations_spec ids (U : EntityId → Prop) s :
  tracked U s →
  let s' := foldl remove_relations_of s ids in
  (∀ c, edges_of c s' = if decide (c ∈ ids) then [] else edges_of c s) ∧
  (∀ j d, d ∈ callers_of j s' ↔ j ∉ ids ∧ d ∉ ids ∧ d ∈ callers_of j s) ∧
  entries_ok s' ∧ lists_ok s' ∧
  file_relation_index s' = file_relation_index s ∧ file_callers_by_callee s' = file_callers_by_callee s.
Proof.
  cbv zeta. revert U s. induction ids as [|i ids IH]; intros U s Ht; cbn [foldl].
  { split_and!; [| |by apply Ht|by apply Ht|done|done].
    - intros c. by rewrite decide_False by apply not_elem_of_nil.
    - intros j d. rewrite !elem_of_nil. tauto. }
  destruct (remove_relations_spec i U s Ht) as (_ & _ & H3 & H4 & H5 & H6).
  destruct (IH _ _ (remove_relations_tracked i U s Ht)) as (H7 & H8 & H9 & H10 & H11 & H12).
  split_and!; [| |done|done|congruence|congruence].
  - intros c. rewrite H7, (edges_of_lookup c s (remove_relations_of s i) (c = i) (H3 c)).
    repeat case_decide; rewrite ?elem_of_cons in *; naive_solver.
  - intros j d. rewrite H8, H4, !elem_of_cons. naive_solver.
Qed.

(** *** The relations over time

    A state of the store and the entities that were removed while an entity that
    stayed had an edge to them. *)
Inductive relations_step : RelationStore * gset EntityId → RelationStore * gset EntityId → Prop :=
| step_add r s U : relations_step (s, U) (add_resolved_relation r s, U)
| step_add_all rs s U : relations_step (s, U) (add_resolved_relations rs s, U)
| step_add_file f r s U : relations_step (s, U) (add_file_relation f r s, U)
| step_take_file f s U : relations_step (s, U) ((take_file_relations f s).2, U)
| step_remove ids left_behind s U :
    (∀ i, i ∈ left_behind ↔ i ∈ ids ∧ ∃ c, c ∉ ids ∧ mentions (edges_of c s) i) →
    relations_step (s, U) (foldl remove_relations_of s ids, U ∪ left_behind).

Definition partly_indexed (p : RelationStore * gset EntityId) : Prop :=
  tracked (λ i, i ∈ p.2) p.1 ∧ files_ok p.1.

Lemma tracked_same_resolved (U : EntityId → Prop) s s' :
  resolved_relation_index s' = resolved_relation_index s → reverse_callee_index s' = reverse_callee_index s →
  tracked U s → tracked U s'.
Proof.
  intros HR HV [He Hl Hs Hc]. unfold callers_of, edges_of in *.
  split; unfold entries_ok, lists_ok, callers_of, edges_of; by rewrite ?HR, ?HV.
Qed.

#[export] Instance relations_invariant :
  StepInvariant (λ p, p = (new_relations, ∅)) relations_step partly_indexed.
Proof.
  split.
  { intros p ->. split; [|apply new_relations_ok]. apply (tracked_weaken (λ _, False)); [done|].
    apply relations_tracked, new_relations_ok. }
  intros p p' [Ht Hf] Hstep. destruct Hstep as [r s U|rs s U|f r s U|f s U|ids left s U Hleft]; cbn [fst snd] in *.
  - split; [by apply add_resolved_tracked|by apply add_resolved_files_ok].
  - unfold add_resolved_relations. revert s Ht Hf. induction rs as [|r rs IH]; intros s Ht Hf; [done|]. cbn [foldl].
    apply IH; [by apply add_resolved_tracked|by apply add_resolved_files_ok].
  - split; [|by apply add_file_ok]. apply (tracked_same_resolved _ s); [..|done];
      unfold add_file_relation; by destruct (insert r _).
  - split; [|by apply take_file_ok]. apply (tracked_same_resolved _ s); [..|done];
      unfold take_file_relations; by destruct (file_relation_index s !! f).
  - destruct (remove_all_relations_spec ids _ s Ht) as (H1 & H2 & H3 & H4 & H5 & H6).
    split; [|by apply (files_ok_eq s)]. split; [done|done|..]; cbn [fst snd]; intros i c; rewrite H1, H2.
    + intros (_ & Hc & Hin). rewrite decide_False by done. by apply Ht.
    + rewrite elem_of_union, Hleft. intros Hi. destruct (decide (c ∈ ids)) as [|Hc]; [by intros []%mentions_nil|].
      intros Hm. assert (i ∉ ids) by naive_solver. split_and!; [done|done|]. apply Ht; [naive_solver|done].
Qed.

(** After the relations of the entities [D] of [s0] were removed. *)
Record removed_ok (D : list EntityId) (s0 s : RelationStore) : Prop := {
  removed_entries : entries_ok s;
  removed_lists : lists_ok s;
  removed_resolved : ∀ c, resolved_relation_index s !! c =
    if decide (c ∈ D) then None else resolved_relation_index s0 !! c;
  removed_reverse : ∀ j d, d ∈ callers_of j s ↔ j ∉ D ∧ mentions (edges_of d s) j;
  removed_files : file_relation_index s = file_relation_index s0 ∧
    file_callers_by_callee s = file_callers_by_callee s0;
}.

Lemma remove_relations_step D s0 s i :
  removed_ok D s0 s → removed_ok (D ++ [i]) s0 (remove_relations_of s i).
Proof.
  intros [He Hl HR Hrev [HF HC]].
  assert (Ht : tracked (λ j, j ∈ D) s) by (split; [done..| |]; intros j c; rewrite Hrev; tauto).
  destruct (remove_relations_spec i _ s Ht) as (H1 & H2 & H3 & H4 & H5 & H6).
  split; [done|done| | |split; congruence].
  - intros c. rewrite H3, HR. destruct (decide (c = i)) as [->|Hne].
    + by rewrite decide_True by set_solver.
    + apply decide_ext. rewrite elem_of_app, list_elem_of_singleton. naive_solver.
  - intros j d. rewrite H4, Hrev, (edges_of_lookup d s (remove_relations_of s i) (d = i) (H3 d)), elem_of_app, list_elem_of_singleton.
    destruct (decide (d = i)) as [->|Hd]; [|naive_solver]. split; [naive_solver|]. by intros [_ []%mentions_nil].
Qed.

Lemma remove_relations_all D ids s0 s :
  removed_ok D s0 s → removed_ok (D ++ ids) s0 (foldl remove_relations_of s ids).
Proof.
  revert D s. induction ids as [|i ids IH]; intros D s Hs; simpl; [by rewrite app_nil_r|].
  rewrite (assoc_L (++) D [i] ids : D ++ i :: ids = (D ++ [i]) ++ ids).
  by apply IH, remove_relations_step.
Qed.

(** ** The whole index *)

Section whole.
Context {StandardizedImport : Type} (sha256_hex : list Z → string).
Context `{!SetIter EntityId, !SetIter string, !SetIter SymbolKey}.
Abbreviation Index := (@RelationIndex StandardizedImport).
Implicit Types x : Index.

Record index_ok x : Prop := {
  ok_entities : EntityIndex.wf (entities x);
  ok_relations : relations_ok (relations x);
  ok_symbols : SymbolIndex.registry_ok (symbols x);
}.

(** The removal of the entities of a file, with the symbol keys. *)
Lemma remove_functions_pair ids es syms :
  EntityIndex.wf es → NoDup ids → (∀ i, i ∈ ids → is_Some (EntityIndex.function_index es !! i)) →
  foldl remove_function (es, syms) ids =
    (foldl (λ s i, (EntityIndex.remove_function i s).2) es ids,
     foldl (λ s i, SymbolIndex.unlist_entity i s) syms ids).
Proof.
  intros _ Hnd. revert es syms. induction Hnd as [|i ids Hi _ IH]; intros es syms Hin; simpl; [done|].
  assert (∃ e, (EntityIndex.remove_function i es).1 = Some e ∧
    EntityIndex.function_index (EntityIndex.remove_function i es).2 =
      delete i (EntityIndex.function_index es)) as (e & He & HF).
  { destruct (Hin i) as [e He]; [by left|]. exists e. unfold EntityIndex.remove_function. rewrite He.
    split; [done|]. simpl. destruct (EntityIndex.entity_file_index es !! i); [|done].
    by rewrite (proj1 (EntityIndex.untrack_fields _ _ _)). }
  unfold remove_function at 2. cbn [fst snd].
  destruct (EntityIndex.remove_function i es) as [o es']. simpl in *. subst o.
  rewrite IH; [done|]. intros j Hj. rewrite HF, lookup_delete_ne by (intros ->; done).
  apply Hin. by right.
Qed.

Lemma drop_remap_wf f es : EntityIndex.wf es → EntityIndex.wf (drop_remap f es).
Proof. intros []. by split. Qed.

Definition file_of x (c : EntityId) : option string := EntityIndex.entity_file_index (entities x) !! c.

Definition ids_of (f : string) x : list EntityId := EntityIndex.get_entity_ids_by_file f (entities x).

Lemma elem_of_ids_of f x i : i ∈ ids_of f x ↔ file_of x i = Some f.
Proof. apply EntityIndex.elem_of_ids_by_file. Qed.

(** The parts of the index after a removal. *)
Lemma remove_file_parts f x :
  index_ok x →
  let x' := remove_file sha256_hex f x in
  entities x' = drop_remap f (EntityIndex.remove_entities (ids_of f x) (entities x)) ∧
  symbols x' = SymbolIndex.remove_entities sha256_hex (ids_of f x) (symbols x) ∧
  ∃ rels, removed_ok (ids_of f x) (relations x) rels ∧
    relations x' = (take_file_relations f rels).2.
Proof.
  intros [He Hr Hk]. cbv zeta. unfold remove_file. fold (ids_of f x).
  rewrite remove_functions_pair; [|done| |].
  - cbn [entities symbols relations]. split_and!.
    + f_equal. apply EntityIndex.remove_in_two_passes.
      apply EntityIndex.NoDup_retain, NoDup_set_iter.
    + done.
    + exists (foldl remove_relations_of (relations x) (ids_of f x)). split; [|done].
      apply (remove_relations_all []). split; [apply Hr|apply Hr| | |done].
      * intros c. by rewrite decide_False by apply not_elem_of_nil.
      * intros j d. rewrite (ok_reverse _ Hr), elem_of_nil. tauto.
  - apply EntityIndex.NoDup_retain, NoDup_set_iter.
  - intros i Hi. apply elem_of_ids_of in Hi. apply (EntityIndex.wf_member _ He).
    unfold file_of in Hi. by rewrite Hi.
Qed.

(** What is left of the relations. *)
Lemma remove_file_relations f x :
  index_ok x →
  let x' := remove_file sha256_hex f x in
  (∀ c, resolved_relation_index (relations x') !! c =
        if decide (file_of x c = Some f) then None else resolved_relation_index (relations x) !! c) ∧
  file_relation_index (relations x') = delete f (file_relation_index (relations x)) ∧
  entries_ok (relations x') ∧ lists_ok (relations x') ∧ files_ok (relations x') ∧
  (∀ j d, d ∈ callers_of j (relations x') ↔
          file_of x j ≠ Some f ∧ mentions (edges_of d (relations x')) j).
Proof.
  intros Hx. cbv zeta. destruct (remove_file_parts f x Hx) as (_ & _ & rels & [He Hl HR Hrev [HF HC]] & ->).
  assert (resolved_relation_index (take_file_relations f rels).2 = resolved_relation_index rels ∧
    reverse_callee_index (take_file_relations f rels).2 = reverse_callee_index rels ∧
    file_relation_index (take_file_relations f rels).2 = delete f (file_relation_index rels))
    as (HR' & Hrev' & HF').
  { unfold take_file_relations. destruct (file_relation_index rels !! f) eqn:E; simpl; [done|].
    by rewrite delete_id. }
  split_and!.
  - intros c. rewrite HR', HR. apply decide_ext. apply elem_of_ids_of.
  - by rewrite HF', HF.
  - intros c es. rewrite HR'. apply He.
  - intros i l. rewrite Hrev'. apply Hl.
  - apply take_file_ok. apply (files_ok_eq (relations x)); [done..|]. apply (ok_files _ (ok_relations _ Hx)).
  - intros j d. unfold callers_of, edges_of. rewrite HR', Hrev'.
    fold (callers_of j rels) (edges_of d rels). by rewrite Hrev, elem_of_ids_of.
Qed.

Lemma remove_file_entities f x :
  index_ok x →
  let x' := remove_file sha256_hex f x in
  EntityIndex.wf (entities x') ∧ SymbolIndex.registry_ok (symbols x') ∧
  (∀ i, EntityIndex.function_index (entities x') !! i =
        if decide (file_of x i = Some f) then None
        else EntityIndex.function_index (entities x) !! i) ∧
  (∀ i, file_of x' i = if decide (file_of x i = Some f) then None else file_of x i).
Proof.
  intros Hx. destruct (remove_file_parts f x Hx) as (HE & HK & _). cbv zeta.
  assert (HM' : ∀ i, file_of (remove_file sha256_hex f x) i =
    EntityIndex.entity_file_index (EntityIndex.remove_entities (ids_of f x) (entities x)) !! i).
  { intros i. unfold file_of at 1. by rewrite HE. }
  rewrite HE, HK.
  destruct (EntityIndex.removed_entities_spec (ids_of f x) _ (ok_entities _ Hx)) as (Hwf & HF & HM).
  split_and!.
  - by apply drop_remap_wf.
  - apply SymbolIndex.remove_entities_spec, Hx.
  - intros i. simpl. rewrite HF. apply decide_ext, elem_of_ids_of.
  - intros i. rewrite HM', HM. apply decide_ext, elem_of_ids_of.
Qed.

(** *** Validation *)

Lemma bind_nil {A B} (g : A → list B) (l : list A) : l ≫= g = [] ↔ ∀ a, a ∈ l → g a = [].
Proof.
  induction l as [|a l IH]; simpl; [set_solver|].
  rewrite app_nil, IH. setoid_rewrite elem_of_cons. naive_solver.
Qed.

Lemma missing_false x i : missing x i = false ↔ is_Some (EntityIndex.function_index (entities x) !! i).
Proof.
  unfold missing, EntityIndex.contains_function. by rewrite negb_false_iff, bool_decide_eq_true.
Qed.

Lemma targets_nil {E} x es (err : EntityId → E) :
  (es ≫= λ r, match callee_id r with
              | Some callee => if missing x callee then [err callee] else []
              | None => []
              end) = [] ↔
  ∀ i, mentions es i → is_Some (EntityIndex.function_index (entities x) !! i).
Proof.
  rewrite bind_nil. setoid_rewrite <- missing_false. split.
  - intros H i (r & Hr & Hi). specialize (H r Hr). rewrite Hi in H. by destruct (missing x i).
  - intros H r Hr. destruct (callee_id r) as [i|] eqn:E0; [|done]. by rewrite (H i) by (by exists r).
Qed.

Record snapshot_valid x : Prop := {
  valid_callers : ∀ c, is_Some (resolved_relation_index (relations x) !! c) →
    is_Some (EntityIndex.function_index (entities x) !! c);
  valid_targets : ∀ c i, mentions (edges_of c (relations x)) i →
    is_Some (EntityIndex.function_index (entities x) !! i);
  valid_file_targets : ∀ f i, mentions (file_edges_of f (relations x)) i →
    is_Some (EntityIndex.function_index (entities x) !! i);
  valid_members : ∀ i, is_Some (EntityIndex.function_index (entities x) !! i) →
    is_Some (file_of x i);
  valid_listed : ∀ k, is_Some (SymbolIndex.symbol_key_to_entity (symbols x) !! k) →
    k ∈ SymbolIndex.keys_of (SymbolIndex.file_path k) (symbols x);
  valid_keys : ∀ f k, k ∈ SymbolIndex.keys_of f (symbols x) →
    is_Some (SymbolIndex.symbol_key_to_entity (symbols x) !! k) ∧ SymbolIndex.file_path k = f;
}.

Lemma function_absent x i : missing x i = true ↔ EntityIndex.function_index (entities x) !! i = None.
Proof.
  unfold missing, EntityIndex.contains_function. rewrite negb_true_iff, bool_decide_eq_false.
  by rewrite eq_None_not_Some.
Qed.

Lemma errors_nil x : snapshot_errors x = [] ↔ snapshot_valid x.
Proof.
  unfold snapshot_errors. rewrite !app_nil, !bind_nil.
  assert (Hbind : ∀ {E} (b : bool) (e : E), (if b then [e] else []) = [] ↔ b = false)
    by (intros E []; done).
  split.
  - intros (H1 & H2 & H3 & H4 & H5).
    assert (Hc : ∀ c, is_Some (resolved_relation_index (relations x) !! c) → missing x c = false ∧
      ∀ i, mentions (edges_of c (relations x)) i → is_Some (EntityIndex.function_index (entities x) !! i)).
    { intros c Hc. specialize (H1 c). rewrite elem_of_set_iter, elem_of_dom in H1. specialize (H1 Hc).
      destruct (missing x c); [done|]. split; [done|].
      by apply (targets_nil x _ (MissingInternalTarget c)). }
    split.
    + intros c Hc'. apply missing_false. by apply Hc.
    + intros c i Hm. assert (is_Some (resolved_relation_index (relations x) !! c)) as Hs
        by (apply elem_of_dom; by eapply edges_of_dom). by eapply Hc.
    + intros f i Hm. specialize (H2 f). rewrite (targets_nil x _ (MissingFileTarget f)) in H2.
      apply H2; [|done]. apply elem_of_set_iter, elem_of_dom. unfold file_edges_of in Hm.
      destruct (file_relation_index (relations x) !! f); [done|]. by apply mentions_nil in Hm.
    + intros i Hi. specialize (H3 i). rewrite elem_of_set_iter, elem_of_dom in H3. specialize (H3 Hi).
      unfold file_of. by destruct (EntityIndex.entity_file_index (entities x) !! i).
    + intros k Hk. specialize (H4 k). rewrite elem_of_set_iter, elem_of_dom in H4. specialize (H4 Hk).
      by destruct (decide _).
    + intros f k Hk. specialize (H5 f). rewrite elem_of_set_iter, elem_of_dom in H5.
      rewrite bind_nil in H5. unfold SymbolIndex.keys_of in Hk, H5.
      destruct (SymbolIndex.file_symbol_keys (symbols x) !! f) as [ks|]; [|by apply elem_of_nil in Hk].
      specialize (H5 (mk_is_Some _ _ eq_refl) k Hk).
      destruct (SymbolIndex.symbol_key_to_entity (symbols x) !! k); [|done].
      by destruct (decide _).
  - intros [V1 V2 V3 V4 V5 V6]. split_and!.
    + intros c Hc%elem_of_set_iter%elem_of_dom. rewrite (proj2 (missing_false x c)) by auto.
      apply (targets_nil x _ (MissingInternalTarget c)). apply V2.
    + intros f _. apply (targets_nil x _ (MissingFileTarget f)). apply V3.
    + intros i Hi%elem_of_set_iter%elem_of_dom. destruct (V4 i Hi) as [f Hf]. unfold file_of in Hf.
      by rewrite Hf.
    + intros k Hk%elem_of_set_iter%elem_of_dom. by rewrite decide_True by auto.
    + intros f _. apply bind_nil. intros k Hk. destruct (V6 f k Hk) as [[i Hi] Hf].
      by rewrite Hi, decide_True by done.
Qed.

(** What an error of the validation says about the snapshot. *)
Definition violation x (e : SnapshotError) : Prop :=
  match e with
  | CallerHasNoEntity c =>
      is_Some (resolved_relation_index (relations x) !! c) ∧
      EntityIndex.function_index (entities x) !! c = None
  | MissingInternalTarget c i =>
      mentions (edges_of c (relations x)) i ∧ EntityIndex.function_index (entities x) !! i = None
  | MissingFileTarget f i =>
      mentions (file_edges_of f (relations x)) i ∧
      EntityIndex.function_index (entities x) !! i = None
  | NoFileMembership i =>
      is_Some (EntityIndex.function_index (entities x) !! i) ∧ file_of x i = None
  | KeyNotListed k =>
      is_Some (SymbolIndex.symbol_key_to_entity (symbols x) !! k) ∧
      k ∉ SymbolIndex.keys_of (SymbolIndex.file_path k) (symbols x)
  | StaleKey f k =>
      k ∈ SymbolIndex.keys_of f (symbols x) ∧
      SymbolIndex.symbol_key_to_entity (symbols x) !! k = None
  | MisfiledKey f k =>
      k ∈ SymbolIndex.keys_of f (symbols x) ∧ SymbolIndex.file_path k ≠ f
  end.

Lemma targets_error {E} x es (err : EntityId → E) e :
  e ∈ (es ≫= λ r, match callee_id r with
                  | Some callee => if missing x callee then [err callee] else []
                  | None => []
                  end) →
  ∃ i, e = err i ∧ mentions es i ∧ EntityIndex.function_index (entities x) !! i = None.
Proof.
  intros (r & Hr & Hin)%list_elem_of_bind. destruct (callee_id r) as [i|] eqn:Ei;
    [|by apply elem_of_nil in Hr].
  destruct (missing x i) eqn:Em; [|by apply elem_of_nil in Hr]. apply list_elem_of_singleton in Hr.
  exists i. split_and!; [done|by exists r|by apply function_absent].
Qed.

Lemma errors_are_violations x e : e ∈ snapshot_errors x → violation x e.
Proof.
  unfold snapshot_errors. rewrite !elem_of_app, !list_elem_of_bind.
  intros [(c & He & Hc)|[(f & He & Hf)|[(i & He & Hi)|[(k & He & Hk)|(f & He & Hf)]]]].
  - apply elem_of_set_iter, elem_of_dom in Hc. destruct (missing x c) eqn:Em.
    + apply list_elem_of_singleton in He as ->. split; [done|by apply function_absent].
    + by apply (targets_error x _ (MissingInternalTarget c)) in He as (i & -> & ? & ?).
  - by apply (targets_error x _ (MissingFileTarget f)) in He as (i & -> & ? & ?).
  - apply elem_of_set_iter, elem_of_dom in Hi.
    destruct (EntityIndex.entity_file_index (entities x) !! i) eqn:Ef; [by apply elem_of_nil in He|].
    by apply list_elem_of_singleton in He as ->.
  - apply elem_of_set_iter, elem_of_dom in Hk. destruct (decide _); [by apply elem_of_nil in He|].
    by apply list_elem_of_singleton in He as ->.
  - apply list_elem_of_bind in He as (k & He & Hk).
    destruct (SymbolIndex.symbol_key_to_entity (symbols x) !! k) eqn:Ek.
    + destruct (decide _); [by apply elem_of_nil in He|]. by apply list_elem_of_singleton in He as ->.
    + by apply list_elem_of_singleton in He as ->.
Qed.

Lemma validate_ok x : validate_snapshot x = Ok tt ↔ snapshot_valid x.
Proof.
  rewrite <- errors_nil. unfold validate_snapshot. by destruct (snapshot_errors x).
Qed.

(** ** Theorems *)

(** C19. After any additions of relations and removals of relations of files and of
    entities, the edge sets are well formed, the reverse index of files is the one
    rebuilt from the relations, and the reverse index of entities lists callers
    only: those the rebuilt one lists, except for entities that were removed
    while others still led to them, whose callers are lost until they are added
    again. Without such removals rebuilding changes nothing, in whatever order
    the hash maps are visited. *)
Theorem maintained_indexes_equal_rebuilt (s : RelationStore) (U : gset EntityId) :
  reachable (λ p, p = (new_relations, ∅)) relations_step (s, U) →
  entries_ok s ∧ files_ok s ∧ rebuild_file_caller_index s = s ∧
  (∀ i c, c ∈ callers_of i s → c ∈ callers_of i (rebuild_reverse_callee_index s)) ∧
  (∀ i, i ∉ U → callers_of i (rebuild_reverse_callee_index s) = callers_of i s) ∧
  (U = ∅ → relations_ok s ∧ rebuild_reverse_callee_index s = s).
Proof.
  intros Hr. assert (partly_indexed (s, U)) as [Ht Hf] by (revert Hr; apply invariant_reachable, relations_invariant).
  cbn [fst snd] in *. destruct (rebuild_reverse_spec s) as (H1 & _ & H3).
  split_and!; [apply Ht|done|by apply rebuild_file_id|..].
  - intros i c Hc. apply H3. by apply Ht.
  - intros i Hi. apply (sorted_ext Z.ltb); [by apply callers_sorted|by apply callers_sorted, Ht|].
    intros c. rewrite H3. split; [by apply Ht|by apply Ht].
  - intros ->. assert (Hs : relations_ok s)
      by (apply (tracked_relations (λ i, i ∈ (∅ : gset EntityId))); [done|done|set_solver]).
    split; [done|by apply rebuild_reverse_id].
Qed.

(** C32. The validation succeeds exactly on the snapshots that satisfy all its
    conditions, and an error it returns names a violation of the snapshot. *)
Theorem validation_is_exact x :
  (validate_snapshot x = Ok tt ↔ snapshot_valid x) ∧
  (∀ e, validate_snapshot x = Err e → violation x e).
Proof.
  split; [apply validate_ok|]. intros e He. apply errors_are_violations. unfold validate_snapshot in He.
  destruct (snapshot_errors x) as [|e' l]; [done|]. injection He as ->. by left.
Qed.

Lemma edges_of_removed f x c :
  index_ok x →
  edges_of c (relations (remove_file sha256_hex f x)) =
    if decide (file_of x c = Some f) then [] else edges_of c (relations x).
Proof.
  intros Hx. destruct (remove_file_relations f x Hx) as (HR & _). unfold edges_of. rewrite HR.
  by destruct (decide _).
Qed.

Lemma file_edges_of_removed f x g :
  index_ok x →
  file_edges_of g (relations (remove_file sha256_hex f x)) =
    if decide (g = f) then [] else file_edges_of g (relations x).
Proof.
  intros Hx. destruct (remove_file_relations f x Hx) as (_ & HF & _). unfold file_edges_of.
  rewrite HF. destruct (decide (g = f)) as [->|]; [by rewrite lookup_delete_eq | by rewrite lookup_delete_ne].
Qed.

(** No relation of another file leads into the file. *)
Definition no_incoming f x : Prop :=
  ∀ i, file_of x i = Some f →
    (∀ c, mentions (edges_of c (relations x)) i → file_of x c = Some f) ∧
    (∀ g, mentions (file_edges_of g (relations x)) i → g = f).

(** C11. Removing a file removes its entities with their names and rows, their symbol
    keys and stable ids, their relations, resolved or external, and those of
    the file itself, and leaves every other entity with its keys and relations as
    it was; the callers listed for an entity of another file are those before
    without the removed ones. When no relation of another file leads into the
    file, the index is consistent again. *)
Theorem file_removal_is_local f x :
  index_ok x →
  let x' := remove_file sha256_hex f x in
  EntityIndex.wf (entities x') ∧ SymbolIndex.registry_ok (symbols x') ∧
  file_records x' = delete f (file_records x) ∧
  (∀ i, if decide (file_of x i = Some f)
        then EntityIndex.function_index (entities x') !! i = None ∧ file_of x' i = None ∧
             SymbolIndex.entity_to_symbol_key (symbols x') !! i = None ∧ edges_of i (relations x') = []
        else EntityIndex.function_index (entities x') !! i = EntityIndex.function_index (entities x) !! i ∧
             file_of x' i = file_of x i ∧
             SymbolIndex.entity_to_symbol_key (symbols x') !! i = SymbolIndex.entity_to_symbol_key (symbols x) !! i ∧
             edges_of i (relations x') = edges_of i (relations x)) ∧
  (∀ k, SymbolIndex.key_among (ids_of f x) (symbols x) k → SymbolIndex.symbol_key_to_entity (symbols x') !! k = None) ∧
  (∀ k, ¬ SymbolIndex.key_among (ids_of f x) (symbols x) k →
        SymbolIndex.symbol_key_to_entity (symbols x') !! k = SymbolIndex.symbol_key_to_entity (symbols x) !! k) ∧
  (∀ sid, SymbolIndex.stable_among sha256_hex (ids_of f x) (symbols x) sid →
          SymbolIndex.stable_id_to_entity (symbols x') !! sid = None) ∧
  (∀ sid, ¬ SymbolIndex.stable_among sha256_hex (ids_of f x) (symbols x) sid →
          SymbolIndex.stable_id_to_entity (symbols x') !! sid = SymbolIndex.stable_id_to_entity (symbols x) !! sid) ∧
  (∀ g, file_edges_of g (relations x') = if decide (g = f) then [] else file_edges_of g (relations x)) ∧
  (∀ j d, d ∈ callers_of j (relations x') ↔
     file_of x j ≠ Some f ∧ file_of x d ≠ Some f ∧ d ∈ callers_of j (relations x)) ∧
  (no_incoming f x → index_ok x').
Proof.
  intros Hx. cbv zeta. destruct (remove_file_entities f x Hx) as (Hwf & Hreg & HF & HM).
  destruct (remove_file_relations f x Hx) as (_ & _ & He & Hl & Hfo & Hc).
  pose proof (λ c, edges_of_removed f x c Hx) as Hedges.
  destruct (remove_file_parts f x Hx) as (_ & Hsym & _).
  destruct (SymbolIndex.remove_entities_spec sha256_hex (ids_of f x) _ (ok_symbols _ Hx)) as (_ & K1 & K2).
  pose proof (λ sid, SymbolIndex.remove_entities_stable sha256_hex (ids_of f x) _ sid (ok_symbols _ Hx)) as K3.
  rewrite <- Hsym in K1, K2, K3.
  split_and!; [done..| | | | |apply K3|apply K3|by intros g; apply file_edges_of_removed| |].
  - unfold remove_file. by destruct (foldl remove_function _ _).
  - intros i. specialize (HF i). specialize (HM i). specialize (Hedges i).
    destruct (decide (file_of x i = Some f)) as [Hi|Hi]; split_and!; try done.
    + apply eq_None_not_Some. intros [k [_ Hk]%K1]. by apply Hk, elem_of_ids_of.
    + apply option_eq. intros k. rewrite K1, elem_of_ids_of. tauto.
  - intros k Hk. apply eq_None_not_Some. by intros [j [_ Hn]%K2].
  - intros k Hk. apply option_eq. intros j. rewrite K2. tauto.
  - intros j d. rewrite Hc, Hedges, (ok_reverse _ (ok_relations _ Hx)).
    destruct (decide (file_of x d = Some f)); [|naive_solver].
    split; [|naive_solver]. intros [_ Hm]. by apply mentions_nil in Hm.
  - intros Hin. split; [done| |done]. split; [done..| |done]. intros j d. rewrite Hc.
    split; [tauto|]. intros Hm. split; [|done]. intros Hj. rewrite Hedges in Hm.
    destruct (decide (file_of x d = Some f)) as [|Hd]; [by apply mentions_nil in Hm|].
    by apply Hd, (Hin j Hj).
Qed.

(** C10. Removing a file leaves the edges of the other files that lead into it:
    a snapshot that was valid stays valid exactly when there are none. *)
Theorem removal_leaves_incoming_edges f x :
  index_ok x → validate_snapshot x = Ok tt →
  let x' := remove_file sha256_hex f x in
  (∀ c, file_of x c ≠ Some f → edges_of c (relations x') = edges_of c (relations x)) ∧
  (validate_snapshot x' = Ok tt ↔ no_incoming f x).
Proof.
  intros Hx Hv%validate_ok. cbv zeta. destruct (remove_file_entities f x Hx) as (Hwf & Hreg & HF & HM).
  destruct (remove_file_relations f x Hx) as (HR & _).
  pose proof (λ c, edges_of_removed f x c Hx) as Hedges.
  pose proof (λ g, file_edges_of_removed f x g Hx) as Hfile.
  assert (Hgone : ∀ i, is_Some (EntityIndex.function_index (entities (remove_file sha256_hex f x)) !! i) ↔
    file_of x i ≠ Some f ∧ is_Some (EntityIndex.function_index (entities x) !! i)).
  { intros i. rewrite HF. destruct (decide (file_of x i = Some f)); [|tauto].
    split; [by intros []|naive_solver]. }
  split; [intros c Hc; rewrite Hedges; by rewrite decide_False|]. rewrite validate_ok. split.
  - intros [_ V2 V3 _ _ _] i Hi. split.
    + intros c Hm. destruct (decide (file_of x c = Some f)) as [|Hc]; [done|]. exfalso.
      destruct (proj1 (Hgone i)) as [Hn _]; [|done]. apply (V2 c). rewrite Hedges. by rewrite decide_False.
    + intros g Hm. destruct (decide (g = f)) as [|Hg]; [done|]. exfalso.
      destruct (proj1 (Hgone i)) as [Hn _]; [|done]. apply (V3 g). rewrite Hfile. by rewrite decide_False.
  - intros Hin. destruct Hv as [V1 V2 V3 V4 _ _]. split.
    + intros c Hc. rewrite HR in Hc. apply Hgone. destruct (decide _); [by destruct Hc|]. auto.
    + intros c i Hm. rewrite Hedges in Hm. destruct (decide _) as [|Hc]; [by apply mentions_nil in Hm|].
      apply Hgone. split; [|by eapply V2]. intros Hi. by apply Hc, (Hin i Hi).
    + intros g i Hm. rewrite Hfile in Hm. destruct (decide _) as [|Hg]; [by apply mentions_nil in Hm|].
      apply Hgone. split; [|by eapply V3]. intros Hi. by apply Hg, (Hin i Hi).
    + intros i [Hi Hs]%Hgone. rewrite HM. rewrite decide_False by done. auto.
    + intros k Hk. by apply (SymbolIndex.ok_listed _ Hreg).
    + intros g k Hk. pose proof (SymbolIndex.ok_filed _ Hreg _ _ Hk) as <-.
      split; [by apply (SymbolIndex.ok_listed _ Hreg)|done].
Qed.

(** A file recorded without any import table has imports. *)
Lemma recorded_file_has_imports (file : FileInfo) x :
  has_imports (file_id file) (add_file file x) = true.
Proof.
  unfold has_imports, add_file. simpl. rewrite lookup_insert_eq. by apply bool_decide_true.
Qed.
End whole.

(** *** Examples *)

#[local] Instance demo_iter_id : SetIter EntityId := elements_iter.
#[local] Instance demo_iter_file : SetIter string := elements_iter.
#[local] Instance demo_iter_key : SetIter SymbolKey := elements_iter.

Definition demo_relations : RelationStore :=
  add_file_relation "b.rs" (call_edge 1 0 Kinds.Inheritance 0)
    (add_resolved_relations [call_edge 1 0 Kinds.DirectCall 100; call_edge 1 0 Kinds.DirectCall 120;
       call_edge 0 0 Kinds.DirectCall 140] new_relations).

Definition demo_start (p : RelationStore * gset EntityId) : Prop := p = (new_relations, ∅).

Lemma demo_relations_reachable : reachable demo_start relations_step (demo_relations, ∅).
Proof.
  exists (new_relations, ∅). split; [reflexivity|]. unfold demo_relations.
  eapply rtc_l; [apply step_add_all|]. eapply rtc_l; [apply step_add_file|]. constructor.
Qed.

(** Then the function 0 is removed, while 1 still calls it. *)
Definition demo_orphaned : RelationStore := foldl remove_relations_of demo_relations [0].

Lemma demo_orphaned_reachable : reachable demo_start relations_step (demo_orphaned, ∅ ∪ {[0]}).
Proof.
  destruct demo_relations_reachable as (s0 & H0 & Hs). exists s0. split; [exact H0|].
  eapply rtc_r; [exact Hs|]. apply step_remove. intros i. rewrite elem_of_singleton, list_elem_of_singleton.
  split; [|tauto]. intros ->. split; [done|]. exists 1. split; [compute_done|].
  exists (call_edge 1 0 Kinds.DirectCall 100). split; [vm_compute; by left|reflexivity].
Qed.

Theorem maintained_indexes_equal_rebuilt_witness :
  (reachable demo_start relations_step (demo_relations, ∅) ∧
   callers_of 0 (rebuild_reverse_callee_index demo_relations) = [0; 1]) ∧
  (reachable demo_start relations_step (demo_orphaned, ∅ ∪ {[0]}) ∧
   rebuild_file_caller_index demo_orphaned = demo_orphaned ∧
   callers_of 0 demo_orphaned = [] ∧ callers_of 0 (rebuild_reverse_callee_index demo_orphaned) = [1]).
Proof.
  split.
  - split; [exact demo_relations_reachable|].
    destruct (maintained_indexes_equal_rebuilt demo_relations ∅ demo_relations_reachable) as (_ & _ & _ & _ & _ & H).
    destruct (H eq_refl) as [_ ->]. vm_compute. reflexivity.
  - split; [exact demo_orphaned_reachable|].
    destruct (maintained_indexes_equal_rebuilt demo_orphaned _ demo_orphaned_reachable) as (_ & _ & H & _).
    split; [exact H|]. split; vm_compute; reflexivity.
Defined.

(** The function 0 of a.rs calls itself; the function 1 of b.rs calls it twice. *)
Definition demo_index : @RelationIndex unit :=
  {| entities :=
       EntityIndex.add_function_with_path 1 (EntityIndex.demo_entity "g" 1 3) "b.rs"
         (EntityIndex.add_function_with_path 0 (EntityIndex.demo_entity "f" 1 3) "a.rs"
            EntityIndex.new);
     relations := demo_relations; symbols := SymbolIndex.new_registry;
     file_records := ∅; dependency_graph := Graph.new |}.

Lemma demo_index_ok : index_ok demo_index.
Proof.
  split; [|apply add_file_relations_ok, add_resolved_all_ok, new_relations_ok
          |apply SymbolIndex.new_registry_ok].
  do 2 (apply EntityIndex.wf_add_entity; [unfold u64_max; lia|]). apply EntityIndex.wf_new_store.
Qed.

Theorem removal_leaves_incoming_edges_witness :
  index_ok demo_index ∧ validate_snapshot demo_index = Ok tt ∧
  validate_snapshot (remove_file SymbolIndex.demo_hash "a.rs" demo_index) ≠ Ok tt.
Proof.
  assert (Hv : validate_snapshot demo_index = Ok tt) by (vm_compute; reflexivity).
  split; [apply demo_index_ok|]. split; [exact Hv|]. intros Hc.
  destruct (removal_leaves_incoming_edges SymbolIndex.demo_hash "a.rs" demo_index demo_index_ok Hv)
    as [_ [H _]].
  destruct (H Hc 0) as [H1 _]; [vm_compute; reflexivity|]. specialize (H1 1).
  assert (file_of demo_index 1 = Some "a.rs") as Hf; [|vm_compute in Hf; discriminate Hf].
  apply H1. exists (call_edge 1 0 Kinds.DirectCall 100). split; [|reflexivity].
  apply list_elem_of_In. vm_compute. tauto.
Defined.

(** Removing b.rs, which nothing refers to, keeps the index consistent. *)
Theorem file_removal_is_local_witness :
  index_ok demo_index ∧ index_ok (remove_file SymbolIndex.demo_hash "b.rs" demo_index).
Proof.
  split; [apply demo_index_ok|].
  apply (file_removal_is_local SymbolIndex.demo_hash "b.rs" demo_index demo_index_ok).
  intros i Hi.
  assert (i = 1) as ->.
  { unfold file_of in Hi.
    change (EntityIndex.entity_file_index (entities demo_index))
      with (<[1 := "b.rs"]> (<[0 := "a.rs"]> (∅ : gmap EntityId string))) in Hi.
    apply lookup_insert_Some in Hi as [[<- _]|[_ Hi]]; [done|].
    apply lookup_insert_Some in Hi as [[_ Hi]|[_ Hi]]; [discriminate Hi|].
    by rewrite lookup_empty in Hi. }
  split.
  - intros c Hm. apply (ok_reverse _ (ok_relations _ demo_index_ok)) in Hm.
    vm_compute in Hm. by apply elem_of_nil in Hm.
  - intros g Hm. apply (ok_file_callers _ (ok_files _ (ok_relations _ demo_index_ok))) in Hm.
    vm_compute in Hm. done.
Defined.

End RelationIndex.
