(* ===== verification/DeltaDiff.v ===== *)
(** * Deltas between relation indexes: what changed

    Models the computation of a [SnapshotDelta] from an old view and a new
    index: [compute_delta] of crates/parser/cce-codegraph/src/index/delta.rs
    and the three files of index/delta/. The old side is only read through the
    interface [IndexView] (the trait of index/view.rs), so the theorems about
    the computed deltas hold for a materialised index as for a layered one;
    [presents] says what a view owes to the index it shows. [DeltaApply]
    applies the deltas. *)

From S2P Require Import Prelude MultiMap SortedVec Kinds EntityDiff DependencyGraph EdgeSet.
From S2P Require Import EntityIndex SymbolIndex RelationIndex.
From stdpp Require Import fin_sets.
From Stdlib Require Import ZArith Lia.
#[local] Open Scope Z_scope.

Module DeltaDiff.
Import Kinds EdgeSet RelationIndex.

Abbreviation Entity := EntityIndex.Entity.
#[local] Existing Instances SymbolIndex.SymbolKey_eq_dec SymbolIndex.SymbolKey_countable.

(** ** Deltas *)

Record CanonicalExport := {
  export_symbol : SymbolKey;
  export_type_name : string;
}.

Record AddedEntity := {
  added_entity : Entity;
  added_key : SymbolKey;
  added_path : string;
}.

Record FileRelationDiff := {
  relation_diff_path : string;
  removed_file_relations : list ResolvedRelation;
  added_file_relations : list ResolvedRelation;
}.

Record ExportDiff := {
  export_diff_path : string;
  removed_exports : list CanonicalExport;
  added_exports : list CanonicalExport;
}.

Record DependencyDiff := {
  source_file : string;
  removed_dependencies : list string;
  added_dependencies : list string;
}.

(** The old id, the new id, the old name and the new name of a rename. *)
Record Rename := {
  old_id : EntityId;
  new_id : EntityId;
  old_name : string;
  new_name : string;
}.

Section types.
Context {StandardizedImport : Type}.

Record ImportDiff := {
  import_diff_path : string;
  removed_imports : list StandardizedImport;
  added_imports : list StandardizedImport;
}.

Record SnapshotDelta := {
  epoch : Z;
  base_epoch : Z;
  config_fingerprint : string;
  removed_files : list string;
  added_files : list FileInfo;
  removed_entities : list EntityId;
  added_entities : list AddedEntity;
  removed_relations : list ResolvedRelation;
  added_relations : list ResolvedRelation;
  file_relation_diffs : list FileRelationDiff;
  import_diffs : list ImportDiff;
  export_diffs : list ExportDiff;
  dependency_diffs : list DependencyDiff;
  relation_edges_dropped_unbounded : Z;
  renamed_entities : list Rename;
}.

Definition empty_delta (epoch base_epoch : Z) (config_fingerprint : string) : SnapshotDelta :=
  {| epoch := epoch; base_epoch := base_epoch; config_fingerprint := config_fingerprint;
     removed_files := []; added_files := []; removed_entities := []; added_entities := [];
     removed_relations := []; added_relations := []; file_relation_diffs := [];
     import_diffs := []; export_diffs := []; dependency_diffs := [];
     relation_edges_dropped_unbounded := 0; renamed_entities := [] |}.
End types.

(** ** Views

    A [for_each] method is the list of what it visits, in the order of the
    visit. *)
Class IndexView (StandardizedImport V : Type) := {
  view_file_contains : V → string → bool;
  view_files : V → list (string * FileInfo);
  view_function_contains : V → EntityId → bool;
  view_functions : V → list (EntityId * Entity);
  view_entity_file_of : V → EntityId → option string;
  view_relations_of : V → EntityId → option (list ResolvedRelation);
  view_resolved_relations : V → list (EntityId * list ResolvedRelation);
  view_callers_of : V → EntityId → list EntityId;
  view_file_relations_of : V → string → list ResolvedRelation;
  view_file_relations : V → list (string * list ResolvedRelation);
  view_imports_of : V → string → option (@ImportTable StandardizedImport);
  view_imports : V → list (string * @ImportTable StandardizedImport);
  view_exports_of : V → string → option (list ExportInfo);
  view_exports : V → list (string * list ExportInfo);
  view_symbol_key_of : V → EntityId → option SymbolKey;
  view_dependency_files : V → list string;
  view_dependencies_of : V → string → list string;
}.

(** The entries of a map, in the order its keys are visited. *)
Definition entries {K A : Type} `{SetIter K} (m : gmap K A) : list (K * A) :=
  omap (λ k, pair k <$> m !! k) (set_iter (dom m)).

Lemma elem_of_entries {K A : Type} `{SetIter K} (m : gmap K A) k a :
  (k, a) ∈ entries m ↔ m !! k = Some a.
Proof.
  unfold entries. rewrite list_elem_of_omap. split.
  - intros (k' & _ & Hk). destruct (m !! k') eqn:E; simpl in Hk; [|done]. by simplify_eq.
  - intros Hk. exists k. rewrite elem_of_set_iter, elem_of_dom, Hk. eauto.
Qed.

(** [sort] then [dedup] on a vector of ids. *)
Definition sort_dedup (l : list EntityId) : list EntityId :=
  foldl (λ acc c, sorted_insert Z.ltb c acc) [] l.

Definition index_view {StandardizedImport} `{!SetIter EntityId, !SetIter string}
    : IndexView StandardizedImport (@RelationIndex StandardizedImport) :=
  {| view_file_contains x f := contains_file f x;
     view_files x := prod_map id info <$> entries (file_records x);
     view_function_contains x i := EntityIndex.contains_function i (entities x);
     view_functions x := entries (EntityIndex.function_index (entities x));
     view_entity_file_of x i := EntityIndex.get_file_path_by_entity i (entities x);
     view_relations_of x c := edges <$> resolved_relation_index (relations x) !! c;
     view_resolved_relations x := prod_map id edges <$> entries (resolved_relation_index (relations x));
     view_callers_of x i := sort_dedup (callers_of i (relations x));
     view_file_relations_of x f := default [] (file_relations f (relations x));
     view_file_relations x := prod_map id edges <$> entries (file_relation_index (relations x));
     view_imports_of x f := get_import_table f x;
     view_imports x := prod_map id imports <$> entries (file_records x);
     view_exports_of x f := get_exports f x;
     view_exports x := prod_map id exports <$> entries (file_records x);
     view_symbol_key_of x i := SymbolIndex.get_symbol_key_by_entity_id i (symbols x);
     view_dependency_files x := Graph.get_all_files (dependency_graph x);
     view_dependencies_of x f := Graph.get_dependencies f (dependency_graph x) |}.

(** ** The content of an edge *)

(** What the identity of an edge leaves out and the diff compares. *)
Abbreviation EdgeContent := (Z * option string)%type.

Definition edge_content (r : ResolvedRelation) : EdgeContent := (call_frequency r, cfg_condition r).

(** The hash map from identities to contents, latest insertion first. *)
Abbreviation EdgeMap := (list (RelationEdgeIdentity * EdgeContent)).

Definition edge_entry (r : ResolvedRelation) : RelationEdgeIdentity * EdgeContent :=
  (relation_identity r, edge_content r).

Definition extend (m : EdgeMap) (rs : list ResolvedRelation) : EdgeMap :=
  reverse (map edge_entry rs) ++ m.

Fixpoint edge_get (i : RelationEdgeIdentity) (m : EdgeMap) : option EdgeContent :=
  match m with
  | [] => None
  | (j, c) :: m => if decide (j = i) then Some c else edge_get i m
  end.

Definition edge_survives (m : EdgeMap) (r : ResolvedRelation) : bool :=
  match edge_get (relation_identity r) m with
  | Some content => bool_decide (content = edge_content r)
  | None => false
  end.

(** The scope of a comparison: [None] is the whole project. *)
Abbreviation Scope := (option (gset string)).

Definition file_in_scope (scope : Scope) (f : string) : bool :=
  match scope with None => true | Some files => bool_decide (f ∈ files) end.

Definition member_in_scope (scope : Scope) (file : option string) : bool :=
  match scope with
  | None => true
  | Some files => match file with Some f => bool_decide (f ∈ files) | None => false end
  end.

(** [row as i64], a difference of such numbers, its absolute value. *)
Definition to_i64 (z : Z) : Z := (z + 2 ^ 63) mod 2 ^ 64 - 2 ^ 63.
Definition line_of (e : Entity) : Z := to_i64 (EntityIndex.start_row e).
Definition line_distance (a b : Z) : Z := to_i64 (Z.abs (to_i64 (a - b))).

(** What the entity diff remembers of a removed entity. *)
Record RemovedMeta := {
  meta_id : EntityId;
  meta_name : string;
  meta_kind : EntityKind;
  meta_file : string;
  meta_line : Z;
}.

Definition is_rename (m : RemovedMeta) (a : AddedEntity) : bool :=
  bool_decide (meta_file m = added_path a)
  && bool_decide (meta_kind m = EntityDiff.kind (added_entity a))
  && (line_distance (meta_line m) (line_of (added_entity a)) <=? 2)
  && negb (bool_decide (meta_name m = EntityIndex.entity_name (added_entity a))).

(** The first added entity that is not matched yet and looks like the removed
    one under a new name. *)
Fixpoint find_rename (matched : list nat) (m : RemovedMeta) (ai : nat) (added : list AddedEntity)
    : option (nat * AddedEntity) :=
  match added with
  | [] => None
  | a :: added =>
      if negb (bool_decide (ai ∈ matched)) && is_rename m a then Some (ai, a)
      else find_rename matched m (S ai) added
  end.

(** The removed entities in order, each with its partner. *)
Fixpoint match_renames (metas : list RemovedMeta) (added : list AddedEntity)
    (pairs : list (RemovedMeta * AddedEntity)) (matched : list nat)
    : list (RemovedMeta * AddedEntity) * list nat :=
  match metas with
  | [] => (pairs, matched)
  | m :: metas =>
      match find_rename matched m 0 added with
      | Some (ai, a) => match_renames metas added (pairs ++ [(m, a)]) (matched ++ [ai])
      | None => match_renames metas added pairs matched
      end
  end.

(** The elements whose index is not listed. *)
Fixpoint drop_indices {A} (ixs : list nat) (i : nat) (l : list A) : list A :=
  match l with
  | [] => []
  | x :: l =>
      if decide (i ∈ ixs) then drop_indices ixs (S i) l else x :: drop_indices ixs (S i) l
  end.

Definition rename_of (p : RemovedMeta * AddedEntity) : Rename :=
  {| old_id := meta_id p.1; new_id := EntityDiff.id (added_entity p.2);
     old_name := meta_name p.1; new_name := EntityIndex.entity_name (added_entity p.2) |}.

(** [format!("{:?}", ..).to_lowercase()] *)
Definition export_type_text (t : ExportType) : string :=
  match t with Named => "named" | DefaultExport => "default" | Wildcard => "wildcard" end.

Section compute.
Context {StandardizedImport : Type} `{!EqDecision StandardizedImport}.
Context (sha256_hex : list Z → string).
Context `{!SetIter EntityId, !SetIter string}.
Context {V : Type} `{!IndexView StandardizedImport V}.
Abbreviation Index := (@RelationIndex StandardizedImport).

(** ** Entities *)

(** [StableSymbolKey::new] *)
Definition plain_key (path name : string) (kind : EntityKind) : SymbolKey :=
  {| SymbolIndex.file_path := SymbolIndex.normalize path; SymbolIndex.scoped_name := name;
     SymbolIndex.key_kind := kind;
     SymbolIndex.overload_discriminator :=
       SymbolIndex.discriminator sha256_hex kind "" "" 0 0 false |}.

Definition entity_in_scope (old : V) (i : EntityId) (scope : Scope) : bool :=
  member_in_scope scope (view_entity_file_of old i).

Definition entity_in_scope_new (x : Index) (i : EntityId) (scope : Scope) : bool :=
  member_in_scope scope (EntityIndex.entity_file_index (entities x) !! i).

Definition removed_metas (x : Index) (old : V) (scope : Scope) : list RemovedMeta :=
  omap (λ p : EntityId * Entity,
      if entity_in_scope old p.1 scope && negb (EntityIndex.contains_function p.1 (entities x))
      then Some {| meta_id := p.1; meta_name := EntityIndex.entity_name p.2;
                   meta_kind := EntityDiff.kind p.2;
                   meta_file := default "" (view_entity_file_of old p.1);
                   meta_line := line_of p.2 |}
      else None)
    (view_functions old).

Definition to_added (x : Index) (i : EntityId) (e : Entity) : AddedEntity :=
  match SymbolIndex.get_symbol_key_by_entity_id i (symbols x),
        EntityIndex.entity_file_index (entities x) !! i with
  | Some key, Some path => {| added_entity := e; added_key := key; added_path := path |}
  | _, _ =>
      let path := default "" (EntityIndex.entity_file_index (entities x) !! i) in
      {| added_entity := e;
         added_key := SymbolIndex.for_entity sha256_hex path (EntityIndex.entity_name e) e;
         added_path := path |}
  end.

Definition all_added (x : Index) (old : V) (scope : Scope) : list AddedEntity :=
  omap (λ p : EntityId * Entity,
      if entity_in_scope_new x p.1 scope && negb (view_function_contains old p.1)
      then Some (to_added x p.1 p.2) else None)
    (entries (EntityIndex.function_index (entities x))).

(** The removed ids, the added entities and the renames. *)
Definition compute_entity_diff (x : Index) (old : V) (scope : Scope)
    : list EntityId * list AddedEntity * list Rename :=
  let metas := removed_metas x old scope in
  let added := all_added x old scope in
  let '(pairs, matched) := match_renames metas added [] [] in
  let renames := map rename_of pairs in
  let added := match matched with [] => added | _ => drop_indices matched 0 added end in
  let removed := map meta_id metas in
  let removed :=
    match renames with
    | [] => removed
    | _ => Prelude.retain (λ i, negb (bool_decide (i ∈ map old_id renames))) removed
    end in
  (removed, added, renames).

(** ** Relations *)

Definition new_edge_map (x : Index) (scope : Scope) : EdgeMap :=
  foldl (λ m p, if entity_in_scope_new x p.1 scope then extend m (edges p.2) else m) []
    (entries (resolved_relation_index (relations x))).

Definition old_edge_map (old : V) (scope : Scope) : EdgeMap :=
  foldl (λ m p, if entity_in_scope old p.1 scope then extend m p.2 else m) []
    (view_resolved_relations old).

(** The edges of the scope that are gone or changed. *)
Definition lost_edges (x : Index) (old : V) (scope : Scope) (removed : gset EntityId)
    : list ResolvedRelation :=
  let new_edges := new_edge_map x scope in
  view_resolved_relations old ≫= λ p,
    if decide (p.1 ∈ removed) then []
    else if negb (entity_in_scope old p.1 scope) then []
    else Prelude.retain (λ r, negb (edge_survives new_edges r)) p.2.

(** The edges from callers outside of the scope to removed entities. *)
Definition unbounded_edges (old : V) (scope : Scope) (removed : gset EntityId)
    : list ResolvedRelation :=
  set_iter removed ≫= λ i,
    view_callers_of old i ≫= λ c,
      if entity_in_scope old c scope then []
      else match view_relations_of old c with
           | Some rs => Prelude.retain (λ r, bool_decide (callee_id r = Some i)) rs
           | None => []
           end.

Definition gained_edges (x : Index) (old : V) (scope : Scope) : list ResolvedRelation :=
  let old_edges := old_edge_map old scope in
  entries (resolved_relation_index (relations x)) ≫= λ p,
    if negb (entity_in_scope_new x p.1 scope) then []
    else Prelude.retain (λ r, negb (edge_survives old_edges r)) (edges p.2).

Definition compute_relation_diff (x : Index) (old : V) (scope : Scope) (removed : gset EntityId)
    : list ResolvedRelation * list ResolvedRelation * Z :=
  let unbounded := unbounded_edges old scope removed in
  (lost_edges x old scope removed ++ unbounded, gained_edges x old scope,
   Z.of_nat (length unbounded)).

(** The paths of both sides in the scope, each once. *)
Definition scoped_paths (scope : Scope) (paths : gset string) : list string :=
  Prelude.retain (file_in_scope scope) (set_iter paths).

Definition file_relation_diff (x : Index) (old : V) (path : string) : FileRelationDiff :=
  let old_relations := view_file_relations_of old path in
  let old_edges := extend [] old_relations in
  let new_relations := default [] (edges <$> file_relation_index (relations x) !! path) in
  let new_edges := extend [] new_relations in
  {| relation_diff_path := path;
     removed_file_relations :=
       Prelude.retain (λ r, negb (edge_survives new_edges r)) old_relations;
     added_file_relations :=
       Prelude.retain (λ r, negb (edge_survives old_edges r)) new_relations |}.

Definition compute_file_relation_diff (x : Index) (old : V) (scope : Scope)
    : list FileRelationDiff :=
  Prelude.retain
    (λ d, negb (bool_decide (removed_file_relations d = []))
          || negb (bool_decide (added_file_relations d = [])))
    (map (file_relation_diff x old)
       (scoped_paths scope (list_to_set (view_file_relations old).*1
                            ∪ dom (file_relation_index (relations x))))).

(** ** Imports, exports, dependencies *)

Definition import_diff (x : Index) (old : V) (path : string) : ImportDiff :=
  let old_imports := default [] (standardized_imports <$> view_imports_of old path) in
  let new_imports :=
    default [] ((λ r, standardized_imports (imports r)) <$> file_records x !! path) in
  {| import_diff_path := path;
     removed_imports :=
       Prelude.retain (λ i, negb (bool_decide (i ∈ new_imports))) old_imports;
     added_imports :=
       Prelude.retain (λ i, negb (bool_decide (i ∈ old_imports))) new_imports |}.

Definition compute_import_diff (x : Index) (old : V) (scope : Scope) : list ImportDiff :=
  Prelude.retain
    (λ d, negb (bool_decide (removed_imports d = [])) || negb (bool_decide (added_imports d = [])))
    (map (import_diff x old)
       (scoped_paths scope (list_to_set (view_imports old).*1 ∪ dom (file_records x)))).

Definition canonical_export (key : option SymbolKey) (path : string) (e : ExportInfo)
    : CanonicalExport :=
  {| export_symbol := default (plain_key path (function_name e) KindFunction) key;
     export_type_name := export_type_text (export_type e) |}.

Definition export_diff (x : Index) (old : V) (path : string) : ExportDiff :=
  let old_exports := default [] (view_exports_of old path) in
  let new_exports := default [] (exports <$> file_records x !! path) in
  {| export_diff_path := path;
     removed_exports :=
       map (λ e, canonical_export (view_symbol_key_of old (function_id e)) path e)
         (Prelude.retain (λ e, negb (bool_decide (function_name e ∈ map function_name new_exports)))
            old_exports);
     added_exports :=
       map (λ e, canonical_export
                   (SymbolIndex.entity_to_symbol_key (symbols x) !! function_id e) path e)
         (Prelude.retain (λ e, negb (bool_decide (function_name e ∈ map function_name old_exports)))
            new_exports) |}.

Definition compute_export_diff (x : Index) (old : V) (scope : Scope) : list ExportDiff :=
  Prelude.retain
    (λ d, negb (bool_decide (length (removed_exports d) = 0%nat))
          || negb (bool_decide (length (added_exports d) = 0%nat)))
    (map (export_diff x old)
       (scoped_paths scope (list_to_set (view_exports old).*1 ∪ dom (file_records x)))).

Definition dependency_diff (x : Index) (old : V) (path : string) : DependencyDiff :=
  let old_deps := view_dependencies_of old path in
  let new_deps := Graph.get_dependencies path (dependency_graph x) in
  {| source_file := path;
     removed_dependencies := Prelude.retain (λ d, negb (bool_decide (d ∈ new_deps))) old_deps;
     added_dependencies := Prelude.retain (λ d, negb (bool_decide (d ∈ old_deps))) new_deps |}.

Definition compute_dependency_diff (x : Index) (old : V) (scope : Scope) : list DependencyDiff :=
  Prelude.retain
    (λ d, negb (bool_decide (removed_dependencies d = []))
          || negb (bool_decide (added_dependencies d = [])))
    (map (dependency_diff x old)
       (scoped_paths scope (list_to_set (view_dependency_files old)
                            ∪ list_to_set (Graph.get_all_files (dependency_graph x))))).

(** ** The whole delta *)

(** The comparison of the two sides. *)
Definition compare_indexes (x : Index) (old : V) (epoch base_epoch : Z)
    (config_fingerprint : string) (scope : Scope) : @SnapshotDelta StandardizedImport :=
  let diff := compute_entity_diff x old scope in
  let relation_diff := compute_relation_diff x old scope (list_to_set diff.1.1) in
  {| epoch := epoch; base_epoch := base_epoch; config_fingerprint := config_fingerprint;
     removed_files :=
       Prelude.retain (λ f, file_in_scope scope f
                            && negb (bool_decide (is_Some (file_records x !! f))))
         (view_files old).*1;
     added_files :=
       map (λ p, info p.2)
         (Prelude.retain (λ p, file_in_scope scope p.1 && negb (view_file_contains old p.1))
            (entries (file_records x)));
     removed_entities := diff.1.1; added_entities := diff.1.2;
     removed_relations := relation_diff.1.1; added_relations := relation_diff.1.2;
     file_relation_diffs := compute_file_relation_diff x old scope;
     import_diffs := compute_import_diff x old scope;
     export_diffs := compute_export_diff x old scope;
     dependency_diffs := compute_dependency_diff x old scope;
     relation_edges_dropped_unbounded := relation_diff.2; renamed_entities := diff.2 |}.

(** An empty scope is answered without looking at the indexes. *)
Definition compute_delta (x : Index) (old : V) (epoch base_epoch : Z) (config_fingerprint : string)
    (scope : Scope) : @SnapshotDelta StandardizedImport :=
  if decide (scope = Some ∅) then empty_delta epoch base_epoch config_fingerprint
  else compare_indexes x old epoch base_epoch config_fingerprint scope.
End compute.

(** ** What a view owes to the index it shows *)

Section shown.
Context {StandardizedImport : Type} {V : Type} `{!IndexView StandardizedImport V}.
Abbreviation Index := (@RelationIndex StandardizedImport).

Record relations_shown (v : V) (s : RelationStore) : Prop := {
  shown_relations : ∀ c, view_relations_of v c = edges <$> resolved_relation_index s !! c;
  shown_resolved : ∀ c rs,
    (c, rs) ∈ view_resolved_relations v ↔ view_relations_of v c = Some rs;
  shown_callers : ∀ i c, c ∈ view_callers_of v i ↔ c ∈ callers_of i s;
  shown_file_relations : ∀ f, view_file_relations_of v f = file_edges_of f s;
  shown_file_paths : ∀ f, f ∈ (view_file_relations v).*1 ↔ is_Some (file_relation_index s !! f);
}.

Record entities_shown (v : V) (es : EntityIndex.EntityStore) : Prop := {
  shown_contains : ∀ i, view_function_contains v i = EntityIndex.contains_function i es;
  shown_functions : ∀ i e,
    (i, e) ∈ view_functions v ↔ EntityIndex.function_index es !! i = Some e;
  shown_functions_once : NoDup (view_functions v).*1;
  shown_file_of : ∀ i, view_entity_file_of v i = EntityIndex.entity_file_index es !! i;
}.

Record files_shown (v : V) (x : Index) : Prop := {
  shown_file_contains : ∀ f, view_file_contains v f = contains_file f x;
  shown_files : ∀ f, f ∈ (view_files v).*1 ↔ is_Some (file_records x !! f);
  shown_imports_of : ∀ f, view_imports_of v f = get_import_table f x;
  shown_imports : ∀ f, f ∈ (view_imports v).*1 ↔ is_Some (file_records x !! f);
  shown_exports_of : ∀ f, view_exports_of v f = get_exports f x;
  shown_exports : ∀ f, f ∈ (view_exports v).*1 ↔ is_Some (file_records x !! f);
}.

Record dependencies_shown (v : V) (g : Graph.FileDependencyGraph) : Prop := {
  shown_dependency_files : ∀ f, f ∈ view_dependency_files v ↔ f ∈ Graph.files_of g;
  shown_dependencies : ∀ f d, d ∈ view_dependencies_of v f ↔ Graph.has_dependency f d g = true;
}.

Record presents (v : V) (x : Index) : Prop := {
  presents_relations : relations_shown v (relations x);
  presents_entities : entities_shown v (entities x);
  presents_files : files_shown v x;
  presents_dependencies : dependencies_shown v (dependency_graph x);
}.
End shown.

Lemma elem_of_sort_dedup c l : c ∈ sort_dedup l ↔ c ∈ l.
Proof.
  unfold sort_dedup. enough (∀ acc, sorted Z.ltb acc →
    c ∈ foldl (λ acc c, sorted_insert Z.ltb c acc) acc l ↔ c ∈ acc ∨ c ∈ l) as Hl.
  { rewrite Hl by constructor. rewrite elem_of_nil. tauto. }
  induction l as [|d l IH]; intros acc Hacc; simpl; [rewrite elem_of_nil; tauto|].
  destruct (sorted_insert_spec Z.ltb d acc Hacc) as [Hs Hi].
  rewrite (IH _ Hs), Hi, elem_of_cons. tauto.
Qed.

Lemma NoDup_entries {K A : Type} `{SetIter K} (m : gmap K A) : NoDup (entries m).*1.
Proof.
  assert ((entries m).*1 = set_iter (dom m)) as ->; [|apply NoDup_set_iter].
  unfold entries. assert (∀ l, (∀ k, k ∈ l → is_Some (m !! k)) →
    (omap (λ k, pair k <$> m !! k) l).*1 = l) as Hl.
  { induction l as [|k l IH]; intros Hin; [done|]. simpl.
    destruct (Hin k) as [a Ha]; [by left|]. rewrite Ha. simpl. f_equal. apply IH.
    intros k' Hk'. apply Hin. by right. }
  apply Hl. intros k Hk. by apply elem_of_dom, elem_of_set_iter.
Qed.

Lemma entries_keys {K A : Type} `{SetIter K} (m : gmap K A) k :
  k ∈ (entries m).*1 ↔ is_Some (m !! k).
Proof.
  rewrite list_elem_of_fmap. split.
  - intros ([k' a] & -> & Hk%elem_of_entries). eauto.
  - intros [a Ha]. exists (k, a). split; [done|]. by apply elem_of_entries.
Qed.

Lemma keys_of_map {K A B : Type} (f : A → B) (l : list (K * A)) : (prod_map id f <$> l).*1 = l.*1.
Proof. rewrite <- list_fmap_compose. by apply list_fmap_ext. Qed.

(** A materialised index shows itself. *)
Lemma index_presents_itself {StandardizedImport} `{!SetIter EntityId, !SetIter string}
    (x : @RelationIndex StandardizedImport) :
  @presents StandardizedImport _ index_view x x.
Proof.
  split; split; simpl; try done; intros *; rewrite ?keys_of_map, ?entries_keys; try done.
  - rewrite list_elem_of_fmap. split.
    + intros ([c' es] & Heq & Hc%elem_of_entries). simplify_eq/=. by rewrite Hc.
    + intros Hc. destruct (resolved_relation_index _ !! c) as [es|] eqn:E; [|done]. simplify_eq/=.
      exists (c, es). split; [done|]. by apply elem_of_entries.
  - apply elem_of_sort_dedup.
  - unfold file_relations, file_edges_of. by destruct (_ !! f).
  - apply elem_of_entries.
  - apply NoDup_entries.
  - unfold Graph.get_all_files. apply elem_of_set_iter.
  - unfold Graph.get_dependencies, Graph.has_dependency, values_at. rewrite bool_decide_eq_true.
    destruct (_ !! f); simpl; [apply elem_of_set_iter|]. set_solver.
Qed.

(** ** Edge maps *)

(** No identity has two contents. *)
Definition functional (m : EdgeMap) : Prop := ∀ i c c', (i, c) ∈ m → (i, c') ∈ m → c = c'.

Lemma edge_get_spec m i c : functional m → edge_get i m = Some c ↔ (i, c) ∈ m.
Proof.
  intros Hm. split.
  - clear Hm. induction m as [|[j d] m IH]; simpl; [done|]. rewrite elem_of_cons.
    destruct (decide (j = i)) as [->|]; [intros [= ->]; by left|right; by apply IH].
  - intros Hin. destruct (edge_get i m) as [d|] eqn:E.
    + f_equal. apply (Hm i); [|done]. clear Hm Hin. revert E.
      induction m as [|[j e] m IH]; simpl; [done|]. rewrite elem_of_cons.
      destruct (decide (j = i)) as [->|]; [intros [= ->]; by left|right; by apply IH].
    + exfalso. clear Hm. revert E Hin. induction m as [|[j e] m IH]; simpl; [set_solver|].
      rewrite elem_of_cons. destruct (decide (j = i)); [done|]. intros Hn [Heq|Hin]; [congruence|].
      by apply IH.
Qed.

Lemma survives_iff m r : functional m → edge_survives m r = true ↔ edge_entry r ∈ m.
Proof.
  intros Hm. unfold edge_survives, edge_entry. rewrite <- (edge_get_spec m _ _ Hm).
  destruct (edge_get (relation_identity r) m); [|done]. rewrite bool_decide_eq_true. naive_solver.
Qed.

Lemma elem_of_extend m rs p : p ∈ extend m rs ↔ (∃ r, r ∈ rs ∧ p = edge_entry r) ∨ p ∈ m.
Proof.
  unfold extend. rewrite elem_of_app, elem_of_reverse, list_elem_of_fmap. naive_solver.
Qed.

Lemma elem_of_scoped_map {A : Type} (f : A → bool) (g : A → list ResolvedRelation) (l : list A) m p :
  p ∈ foldl (λ m a, if f a then extend m (g a) else m) m l ↔
  p ∈ m ∨ ∃ a r, a ∈ l ∧ f a = true ∧ r ∈ g a ∧ p = edge_entry r.
Proof.
  revert m. induction l as [|a l IH]; intros m; simpl.
  { split; [by left|]. intros [|(a & r & Ha & _)]; [done|]. by apply elem_of_nil in Ha. }
  rewrite IH. destruct (f a) eqn:Ef; rewrite ?elem_of_extend; split.
  - intros [[(r & Hr & ->)|]|(b & r & Hb & Hrest)]; [right|by left|right].
    + exists a, r. split_and!; [by left|done..].
    + exists b, r. split; [by right|done].
  - intros [|(b & r & [->|Hb]%elem_of_cons & Hfb & Hr & ->)]; [left; by right|left; left; eauto 10|right; eauto 10].
  - intros [|(b & r & Hb & Hrest)]; [by left|right]. exists b, r. split; [by right|done].
  - intros [|(b & r & [->|Hb]%elem_of_cons & Hfb & Hr & ->)]; [by left|congruence|right; eauto 10].
Qed.

(** An edge is found under its caller, and its identity determines it. *)
Lemma edge_caller s c r : entries_ok s → r ∈ edges_of c s → caller r = c.
Proof.
  intros Hs. unfold edges_of. destruct (resolved_relation_index s !! c) as [es|] eqn:E.
  - by apply (entry_caller _ _ (Hs c es E)).
  - intros Hr. by apply elem_of_nil in Hr.
Qed.

Lemma edges_distinct s c : entries_ok s → NoDup (map relation_identity (edges_of c s)).
Proof.
  intros Hs. unfold edges_of. destruct (resolved_relation_index s !! c) as [es|] eqn:E.
  - apply (ok_distinct _ (entry_set _ _ (Hs c es E))).
  - constructor.
Qed.

Lemma NoDup_map_inj {A B : Type} (f : A → B) (l : list A) x y :
  NoDup (map f l) → x ∈ l → y ∈ l → f x = f y → x = y.
Proof.
  induction l as [|a l IH]; simpl; [intros _ Hx; by apply elem_of_nil in Hx|].
  intros [Ha Hnd]%NoDup_cons. rewrite !elem_of_cons.
  intros [->|Hx] [->|Hy] Hf; [done|..|by apply IH]; destruct Ha.
  - rewrite Hf. by apply list_elem_of_fmap_2.
  - rewrite <- Hf. by apply list_elem_of_fmap_2.
Qed.

Lemma identity_caller_eq r r' : relation_identity r = relation_identity r' → caller r = caller r'.
Proof. by intros [=]. Qed.

Lemma edges_identified s c c' r r' :
  entries_ok s → r ∈ edges_of c s → r' ∈ edges_of c' s →
  relation_identity r = relation_identity r' → r = r'.
Proof.
  intros Hs Hr Hr' Heq. pose proof (identity_caller_eq _ _ Heq) as Hc.
  rewrite (edge_caller s c r), (edge_caller s c' r') in Hc by done. subst c'.
  by apply (NoDup_map_inj relation_identity (edges_of c s)); [apply edges_distinct|..].
Qed.

(** A map whose entries come from one store. *)
Lemma functional_entries s m :
  entries_ok s → (∀ p, p ∈ m → ∃ c r, r ∈ edges_of c s ∧ p = edge_entry r) → functional m.
Proof.
  intros Hs Hm i c c' H1 H2. destruct (Hm _ H1) as (d & r & Hr & H3).
  destruct (Hm _ H2) as (d' & r' & Hr' & H4). apply pair_equal_spec in H3 as [H3 ->], H4 as [H4 ->].
  rewrite (edges_identified s d d' r r'); [done..|]. by rewrite <- H3.
Qed.

Lemma same_entry_edges s c c' r r' :
  entries_ok s → r ∈ edges_of c s → r' ∈ edges_of c' s → edge_entry r = edge_entry r' → r = r'.
Proof.
  intros Hs Hr Hr' [Heq _]%pair_equal_spec. by apply (edges_identified s c c').
Qed.

(** ** What the relation diff lists *)

Section relation_diff.
Context {StandardizedImport : Type}.
Context `{!SetIter EntityId, !SetIter string}.
Context {V : Type} `{!IndexView StandardizedImport V}.
Context (x : @RelationIndex StandardizedImport) (v : V) (s0 : RelationStore) (scope : Scope).
Hypothesis Hx : entries_ok (relations x).
Hypothesis Hs0 : entries_ok s0.
Hypothesis Hv : relations_shown v s0.

Abbreviation in_old c := (entity_in_scope v c scope = true).
Abbreviation in_new c := (entity_in_scope_new x c scope = true).
Abbreviation new_map := (new_edge_map x scope).
Abbreviation old_map := (old_edge_map v scope).

Lemma shown_edges c rs : (c, rs) ∈ view_resolved_relations v → rs = edges_of c s0.
Proof.
  rewrite (shown_resolved _ _ Hv), (shown_relations _ _ Hv). unfold edges_of.
  destruct (resolved_relation_index s0 !! c); simpl; congruence.
Qed.

Lemma edges_shown c r :
  r ∈ edges_of c s0 → (c, edges_of c s0) ∈ view_resolved_relations v.
Proof.
  intros Hr. apply (shown_resolved _ _ Hv). rewrite (shown_relations _ _ Hv). revert Hr.
  unfold edges_of. destruct (resolved_relation_index s0 !! c); [done|]. by intros ?%elem_of_nil.
Qed.

Lemma new_entry_edges c es : (c, es) ∈ entries (resolved_relation_index (relations x)) →
  edges es = edges_of c (relations x).
Proof. rewrite elem_of_entries. unfold edges_of. by intros ->. Qed.

Lemma edges_new_entry c r : r ∈ edges_of c (relations x) →
  ∃ es, (c, es) ∈ entries (resolved_relation_index (relations x)) ∧
        edges es = edges_of c (relations x).
Proof.
  unfold edges_of. destruct (resolved_relation_index (relations x) !! c) as [es|] eqn:E.
  - intros _. exists es. by rewrite elem_of_entries.
  - by intros ?%elem_of_nil.
Qed.

Lemma elem_of_new_map p :
  p ∈ new_map ↔ ∃ c r, in_new c ∧ r ∈ edges_of c (relations x) ∧ p = edge_entry r.
Proof.
  unfold new_edge_map.
  rewrite (elem_of_scoped_map (λ p, entity_in_scope_new x p.1 scope) (λ p, edges p.2)), elem_of_nil.
  split.
  - intros [[]|([c es] & r & Hc & Hin & Hr & ->)]. simpl in *. rewrite (new_entry_edges c es) in Hr by done.
    eauto.
  - intros (c & r & Hin & Hr & ->). right. destruct (edges_new_entry c r Hr) as (es & Hes & He).
    exists (c, es), r. simpl. by rewrite He.
Qed.

Lemma elem_of_old_map p : p ∈ old_map ↔ ∃ c r, in_old c ∧ r ∈ edges_of c s0 ∧ p = edge_entry r.
Proof.
  unfold old_edge_map.
  rewrite (elem_of_scoped_map (λ p, entity_in_scope v p.1 scope) snd), elem_of_nil. split.
  - intros [[]|([c rs] & r & Hc & Hin & Hr & ->)]. simpl in *. apply shown_edges in Hc as ->. eauto.
  - intros (c & r & Hin & Hr & ->). right. exists (c, edges_of c s0), r. simpl.
    split_and!; [by eapply edges_shown|done..].
Qed.

Lemma new_map_functional : functional new_map.
Proof.
  apply (functional_entries (relations x)); [done|]. intros p (c & r & _ & Hr & ->)%elem_of_new_map.
  eauto.
Qed.

Lemma old_map_functional : functional old_map.
Proof.
  apply (functional_entries s0); [done|]. intros p (c & r & _ & Hr & ->)%elem_of_old_map. eauto.
Qed.

Lemma not_survives m r : functional m → negb (edge_survives m r) = true ↔ edge_entry r ∉ m.
Proof.
  intros Hm. rewrite negb_true_iff, <- not_true_iff_false. by rewrite survives_iff.
Qed.

Lemma elem_of_lost removed r :
  r ∈ lost_edges x v scope removed ↔
  ∃ c, c ∉ removed ∧ in_old c ∧ r ∈ edges_of c s0 ∧ edge_entry r ∉ new_map.
Proof.
  unfold lost_edges. rewrite list_elem_of_bind. split.
  - intros ([c rs] & Hr & Hc). simpl in Hr. apply shown_edges in Hc as ->.
    destruct (decide (c ∈ removed)); [by apply elem_of_nil in Hr|].
    destruct (entity_in_scope v c scope) eqn:E; simpl in Hr; [|by apply elem_of_nil in Hr].
    apply elem_of_retain in Hr as [Hr Hn]. apply (not_survives _ _ new_map_functional) in Hn. eauto.
  - intros (c & Hc & Hin & Hr & Hn). exists (c, edges_of c s0). split; [|by eapply edges_shown]. simpl.
    rewrite decide_False, Hin by done. simpl. apply elem_of_retain. split; [done|].
    by apply (not_survives _ _ new_map_functional).
Qed.

Lemma elem_of_unbounded removed r :
  r ∈ unbounded_edges v scope removed ↔
  ∃ i c, i ∈ removed ∧ c ∈ callers_of i s0 ∧ ¬ in_old c ∧ r ∈ edges_of c s0 ∧ callee_id r = Some i.
Proof.
  unfold unbounded_edges. rewrite list_elem_of_bind. split.
  - intros (i & Hr & Hi%elem_of_set_iter). apply list_elem_of_bind in Hr as (c & Hr & Hc).
    apply (shown_callers _ _ Hv) in Hc.
    destruct (entity_in_scope v c scope) eqn:E; [by apply elem_of_nil in Hr|].
    rewrite (shown_relations _ _ Hv) in Hr. exists i, c. unfold edges_of.
    destruct (resolved_relation_index s0 !! c); simpl in Hr; [|by apply elem_of_nil in Hr].
    apply elem_of_retain in Hr as [Hr Hi'%bool_decide_eq_true]. by rewrite E.
  - intros (i & c & Hi & Hc & Hn & Hr & Hri). exists i. split; [|by apply elem_of_set_iter].
    apply list_elem_of_bind. exists c. split; [|by apply (shown_callers _ _ Hv)].
    apply not_true_is_false in Hn. rewrite Hn, (shown_relations _ _ Hv). revert Hr. unfold edges_of.
    destruct (resolved_relation_index s0 !! c); simpl; [|done]. intros Hr.
    apply elem_of_retain. by rewrite bool_decide_eq_true.
Qed.

Lemma elem_of_gained r :
  r ∈ gained_edges x v scope ↔
  ∃ c, in_new c ∧ r ∈ edges_of c (relations x) ∧ edge_entry r ∉ old_map.
Proof.
  unfold gained_edges. rewrite list_elem_of_bind. split.
  - intros ([c es] & Hr & Hc). simpl in Hr. apply new_entry_edges in Hc. rewrite Hc in Hr.
    destruct (entity_in_scope_new x c scope) eqn:E; simpl in Hr; [|by apply elem_of_nil in Hr].
    apply elem_of_retain in Hr as [Hr Hn]. apply (not_survives _ _ old_map_functional) in Hn. eauto.
  - intros (c & Hin & Hr & Hn). destruct (edges_new_entry c r Hr) as (es & Hes & He).
    exists (c, es). split; [|done]. simpl. rewrite Hin, He. simpl. apply elem_of_retain.
    split; [done|]. by apply (not_survives _ _ old_map_functional).
Qed.
(** No identity is gained twice. *)
Lemma gained_distinct : NoDup (map relation_identity (gained_edges x v scope)).
Proof.
  unfold gained_edges. set (l := entries (resolved_relation_index (relations x))).
  assert (∀ p, p ∈ l → edges p.2 = edges_of p.1 (relations x)) as Hl
    by (intros [c es] Hp; by apply new_entry_edges).
  assert (NoDup l.*1) as Hnd by apply NoDup_entries. clearbody l.
  induction l as [|[c es] l IH]; [constructor|]. apply NoDup_cons in Hnd as [Hc Hnd].
  pose proof (Hl (c, es) ltac:(by left)) as He. cbn [fst snd] in He.
  cbn [mbind list_bind]. rewrite map_app. cbn [fst snd]. rewrite He. apply NoDup_app. split_and!.
  - destruct (negb _); [constructor|].
    eapply sublist_NoDup; [by apply (edges_distinct (relations x) c)|]. apply sublist_map, retain_sublist.
  - intros i Hi Hi'. apply list_elem_of_fmap in Hi as (r & -> & Hr), Hi' as (r' & Heq & Hr').
    assert (caller r = c) as Hrc.
    { apply (edge_caller (relations x)); [done|].
      destruct (negb (entity_in_scope_new x c scope)); [by apply elem_of_nil in Hr|]. by apply elem_of_retain in Hr as [Hr _]. }
    apply list_elem_of_bind in Hr' as ([c' es'] & Hr' & Hin). cbn [fst snd] in Hr'.
    pose proof (Hl (c', es') ltac:(by right)) as He'. cbn [fst snd] in He'. rewrite He' in Hr'.
    assert (caller r' = c') as Hrc'.
    { apply (edge_caller (relations x)); [done|].
      destruct (negb (entity_in_scope_new x c' scope)); [by apply elem_of_nil in Hr'|]. by apply elem_of_retain in Hr' as [Hr' _]. }
    apply Hc. apply list_elem_of_fmap. exists (c', es'). split; [|done]. cbn [fst].
    rewrite <- Hrc, <- Hrc'. by apply identity_caller_eq.
  - apply IH; [|done]. intros p Hp. apply Hl. by right.
Qed.
End relation_diff.

(** ** What the entity diff lists *)

Lemma find_rename_spec matched m ai added i a :
  find_rename matched m ai added = Some (i, a) →
  ∃ j, i = (ai + j)%nat ∧ added !! j = Some a ∧ i ∉ matched ∧ is_rename m a = true.
Proof.
  revert ai. induction added as [|b added IH]; intros ai; simpl; [done|].
  destruct (negb (bool_decide (ai ∈ matched)) && is_rename m b) eqn:E.
  - intros [= <- <-]. apply andb_true_iff in E as [E1 E2]. apply negb_true_iff, bool_decide_eq_false in E1.
    exists 0%nat. by rewrite Nat.add_0_r.
  - intros (j & -> & Hj & Hn & Hr)%IH. exists (S j). by rewrite Nat.add_succ_r.
Qed.

Lemma find_rename_None matched m ai added :
  find_rename matched m ai added = None →
  ∀ j a, added !! j = Some a → (ai + j)%nat ∉ matched → is_rename m a = false.
Proof.
  revert ai. induction added as [|b added IH]; intros ai; simpl; [done|].
  destruct (negb (bool_decide (ai ∈ matched)) && is_rename m b) eqn:E; [done|].
  intros Hn [|j] a Ha Hj; simpl in Ha.
  - simplify_eq. rewrite Nat.add_0_r in Hj. rewrite (bool_decide_false (ai ∈ matched)) in E by done.
    exact E.
  - apply (IH (S ai) Hn j a Ha). by rewrite Nat.add_succ_r in Hj.
Qed.

(** The pairs point to distinct added entities, and take the removed ones in
    order. *)
Record matched_ok (added : list AddedEntity) (metas : list RemovedMeta)
    (pairs : list (RemovedMeta * AddedEntity)) (matched : list nat) : Prop := {
  matched_points : Forall2 (λ p ai, added !! ai = Some p.2) pairs matched;
  matched_once : NoDup matched;
  matched_renames : ∀ p, p ∈ pairs → is_rename p.1 p.2 = true;
  matched_order : pairs.*1 `sublist_of` metas;
}.

Lemma match_renames_spec done todo added pairs matched pairs' matched' :
  matched_ok added done pairs matched →
  match_renames todo added pairs matched = (pairs', matched') →
  matched_ok added (done ++ todo) pairs' matched'.
Proof.
  revert done pairs matched. induction todo as [|m todo IH]; intros done pairs matched Hok; simpl.
  { intros [= <- <-]. by rewrite app_nil_r. }
  rewrite cons_middle, app_assoc. destruct Hok as [H1 H2 H3 H4].
  destruct (find_rename matched m 0 added) as [[ai a]|] eqn:E; apply IH.
  - apply find_rename_spec in E as (j & -> & Hj & Hn & Hr). simpl in *. split.
    + apply Forall2_app; [done|]. by repeat constructor.
    + apply NoDup_app. split_and!; [done| |apply NoDup_singleton].
      intros k Hk ->%list_elem_of_singleton. done.
    + intros p [Hp| ->%list_elem_of_singleton]%elem_of_app; [by apply H3|done].
    + rewrite fmap_app. by apply sublist_app.
  - split; [done..|]. by apply sublist_inserts_r.
Qed.

(** Dropping distinct indices splits the list. *)
Lemma drop_indices_spec {A : Type} (ixs : list nat) (k : nat) (l : list A) :
  NoDup ixs → (∀ j, j ∈ ixs → (k ≤ j < k + length l)%nat) →
  l ≡ₚ drop_indices ixs k l ++ omap (λ j, l !! (j - k)%nat) ixs.
Proof.
  revert ixs k. induction l as [|y l IH]; intros ixs k Hnd Hin.
  { destruct ixs as [|j ixs]; [done|]. specialize (Hin j ltac:(by left)). simpl in Hin. lia. }
  assert (Hrest : ∀ js, NoDup js → (∀ j, j ∈ js → j ∈ ixs ∧ j ≠ k) →
    omap (λ j, (y :: l) !! (j - k)%nat) js = omap (λ j, l !! (j - S k)%nat) js).
  { induction js as [|j js IHj]; intros Hjs Hk; [done|]. csimpl.
    destruct (Hk j ltac:(by left)) as [Hj Hne]. specialize (Hin j Hj). simpl in Hin.
    replace (j - k)%nat with (S (j - S k)) by lia. csimpl. apply NoDup_cons in Hjs as [_ Hjs].
    rewrite IHj; [done..|]. intros j' Hj'. apply Hk. by right. }
  cbn [drop_indices]. destruct (decide (k ∈ ixs)) as [Hk|Hk].
  - apply elem_of_Permutation in Hk as [js Hjs].
    assert (NoDup (k :: js)) as Hnd' by (by rewrite <- Hjs).
    apply NoDup_cons in Hnd' as [Hkj Hndj].
    assert (drop_indices ixs (S k) l = drop_indices js (S k) l) as ->.
    { assert (∀ i, (k < i)%nat → drop_indices ixs i l = drop_indices js i l) as Hd; [|apply Hd; lia].
      clear - Hjs. induction l as [|z l IHl]; intros i Hi; [done|]. simpl. rewrite IHl by lia.
      assert (i ∈ ixs ↔ i ∈ js) as Hiff; [|by repeat case_decide; tauto].
      rewrite Hjs, elem_of_cons. split; [|by right]. intros [->|]; [lia|done]. }
    trans (drop_indices js (S k) l ++ omap (λ j, (y :: l) !! (j - k)%nat) (k :: js));
      [|by rewrite Hjs].
    csimpl. rewrite Nat.sub_diag. csimpl. rewrite Hrest; [|done|].
    2:{ intros j Hj. split; [rewrite Hjs; by right|]. intros Heq. by rewrite Heq in Hj. }
    rewrite <- Permutation_middle. f_equiv. apply IH; [done|]. intros j Hj.
    assert (j ∈ ixs) as Hji by (rewrite Hjs; by right). specialize (Hin j Hji). simpl in Hin.
    assert (j ≠ k) by (intros Heq; by rewrite Heq in Hj). lia.
  - rewrite Hrest; [|done|]; [|intros j Hj; split; [done|by intros ->]]. simpl. f_equiv. apply IH; [done|].
    intros j Hj. specialize (Hin j Hj). simpl in Hin. assert (j ≠ k) by (intros Heq; by rewrite Heq in Hj). lia.
Qed.

Section entity_diff.
Context {StandardizedImport : Type} (sha256_hex : list Z → string).
Context `{!SetIter EntityId, !SetIter string}.
Context {V : Type} `{!IndexView StandardizedImport V}.
Context (x : @RelationIndex StandardizedImport) (v : V) (scope : Scope).

Abbreviation metas := (removed_metas x v scope).
Abbreviation news := (all_added sha256_hex x v scope).
Abbreviation diff := (compute_entity_diff sha256_hex x v scope).

Lemma elem_of_metas m es0 :
  entities_shown v es0 →
  m ∈ metas ↔ ∃ e, EntityIndex.function_index es0 !! meta_id m = Some e ∧
    entity_in_scope v (meta_id m) scope = true ∧
    EntityIndex.function_index (entities x) !! meta_id m = None ∧
    m = {| meta_id := meta_id m; meta_name := EntityIndex.entity_name e;
           meta_kind := EntityDiff.kind e;
           meta_file := default "" (EntityIndex.entity_file_index es0 !! meta_id m);
           meta_line := line_of e |}.
Proof.
  intros Hv. unfold removed_metas. rewrite list_elem_of_omap. split.
  - intros ([i e] & Hi & Hm). apply (shown_functions _ _ Hv) in Hi. simpl in Hm.
    rewrite (shown_file_of _ _ Hv) in Hm.
    destruct (entity_in_scope v i scope) eqn:Ein; simpl in Hm; [|done].
    destruct (EntityIndex.contains_function i (entities x)) eqn:Ec; simpl in Hm; [done|].
    injection Hm as <-. simpl. exists e. split_and!; [done..| |done].
    unfold EntityIndex.contains_function in Ec. apply bool_decide_eq_false in Ec.
    by apply eq_None_not_Some.
  - intros (e & Hi & Hin & Hn & ->). exists (meta_id m, e).
    rewrite (shown_functions _ _ Hv). split; [done|]. cbn [fst snd].
    unfold EntityIndex.contains_function.
    rewrite Hin, Hn, (shown_file_of _ _ Hv), bool_decide_false by (by intros []). done.
Qed.

Lemma NoDup_meta_ids es0 : entities_shown v es0 → NoDup (map meta_id metas).
Proof.
  intros Hv. eapply sublist_NoDup; [apply (shown_functions_once _ _ Hv)|]. unfold removed_metas.
  generalize (view_functions v). induction l as [|[i e] l IH]; csimpl; [constructor|].
  destruct (_ && _); csimpl; [by apply sublist_skip|by apply sublist_cons].
Qed.

Lemma elem_of_news a :
  a ∈ news ↔ ∃ i e, EntityIndex.function_index (entities x) !! i = Some e ∧
    entity_in_scope_new x i scope = true ∧ view_function_contains v i = false ∧
    a = to_added sha256_hex x i e.
Proof.
  unfold all_added. rewrite list_elem_of_omap. split.
  - intros ([i e] & Hi & Ha). apply elem_of_entries in Hi. simpl in Ha.
    destruct (entity_in_scope_new x i scope) eqn:Ein; simpl in Ha; [|done].
    destruct (view_function_contains v i) eqn:Ec; simpl in Ha; [done|]. simplify_eq. eauto 10.
  - intros (i & e & Hi & Hin & Hn & ->). exists (i, e). rewrite elem_of_entries. split; [done|].
    simpl. by rewrite Hin, Hn.
Qed.

Lemma to_added_entity i e : added_entity (to_added sha256_hex x i e) = e.
Proof. unfold to_added. by repeat case_match. Qed.

(** The removed ids and the renames share the removed entities out, the added
    entities and the renames the added ones. *)
Lemma entity_diff_spec es0 :
  entities_shown v es0 →
  ∃ pairs,
    diff.2 = map rename_of pairs ∧ pairs.*1 `sublist_of` metas ∧
    (∀ p, p ∈ pairs → is_rename p.1 p.2 = true) ∧
    map meta_id metas ≡ₚ diff.1.1 ++ map old_id diff.2 ∧
    news ≡ₚ diff.1.2 ++ pairs.*2.
Proof.
  intros Hv. pose proof (NoDup_meta_ids es0 Hv) as Hnd. unfold compute_entity_diff.
  destruct (match_renames metas news [] []) as [pairs matched] eqn:E.
  apply (match_renames_spec [] metas) in E as [H1 H2 H3 H4].
  2:{ split; [done|constructor|by intros ? ?%elem_of_nil|done]. }
  simpl in H4. exists pairs.
  assert (Hids : map old_id (map rename_of pairs) = map meta_id pairs.*1)
    by (rewrite map_map; unfold fmap; by rewrite map_map).
  assert (Hsub : map meta_id pairs.*1 `sublist_of` map meta_id metas) by by apply sublist_map.
  assert (∀ olds, olds `sublist_of` map meta_id metas →
    map meta_id metas ≡ₚ
    Prelude.retain (λ i, negb (bool_decide (i ∈ olds))) (map meta_id metas) ++ olds) as Hsplit.
  { intros olds Ho. apply NoDup_Permutation; [done| |].
    - apply NoDup_app. split_and!; [eapply sublist_NoDup; [exact Hnd|apply retain_sublist]| |].
      + intros i Hi. apply elem_of_retain in Hi as [_ Hi]. by apply negb_true_iff, bool_decide_eq_false in Hi.
      + by eapply sublist_NoDup.
    - intros i. rewrite elem_of_app, elem_of_retain, negb_true_iff, bool_decide_eq_false.
      pose proof (elem_of_submseteq olds (map meta_id metas) i). apply sublist_submseteq in Ho.
      destruct (decide (i ∈ olds)); naive_solver. }
  split_and!; [done..| |].
  - assert (∀ rs l, match rs with
                    | [] => l
                    | _ :: _ => Prelude.retain (λ i, negb (bool_decide (i ∈ map old_id rs))) l
                    end = Prelude.retain (λ i, negb (bool_decide (i ∈ map old_id rs))) l) as Hm.
    { intros [|r rs] l; [|done]. symmetry. by apply retain_all. }
    cbn [fst snd]. rewrite Hm, Hids. by apply Hsplit.
  - simpl. assert (pairs.*2 = omap (λ j, news !! (j - 0)%nat) matched) as ->.
    { clear - H1. induction H1 as [|p ai ps ms Hp _ IH]; [done|]. csimpl.
      rewrite Nat.sub_0_r, Hp. by f_equal. }
    destruct matched as [|ai matched]; [by rewrite app_nil_r|]. apply drop_indices_spec; [done|].
    intros j Hj. split; [lia|]. simpl. apply list_elem_of_lookup in Hj as [n Hn].
    destruct (Forall2_lookup_r _ _ _ n j H1 Hn) as (p & _ & Hp).
    by apply lookup_lt_Some in Hp.
Qed.
End entity_diff.

(** ** The empty scope *)

Section early.
Context {StandardizedImport : Type} `{!EqDecision StandardizedImport}.
Context (sha256_hex : list Z → string).
Context `{!SetIter EntityId, !SetIter string}.
Context {V : Type} `{!IndexView StandardizedImport V}.
Context (x : @RelationIndex StandardizedImport) (v : V).

Lemma scoped_paths_empty ps : scoped_paths (Some ∅) ps = [].
Proof. apply retain_none. intros f _. simpl. by rewrite bool_decide_false by set_solver. Qed.

Lemma nothing_in_scope o : member_in_scope (Some ∅) o = false.
Proof. destruct o; simpl; [|done]. by rewrite bool_decide_false by set_solver. Qed.

Lemma omap_nil {A B : Type} (f : A → option B) l : (∀ a, f a = None) → omap f l = [].
Proof. intros Hf. induction l as [|a l IH]; csimpl; [done|]. by rewrite Hf. Qed.

Lemma bind_all_nil {A B : Type} (f : A → list B) l : (∀ a, f a = []) → l ≫= f = [].
Proof. intros Hf. induction l as [|a l IH]; csimpl; [done|]. by rewrite Hf. Qed.

Lemma entity_diff_empty : compute_entity_diff sha256_hex x v (Some ∅) = ([], [], []).
Proof.
  unfold compute_entity_diff, removed_metas, all_added.
  rewrite !omap_nil; [done|..]; intros [i e]; cbn [fst snd];
    unfold entity_in_scope, entity_in_scope_new; by rewrite nothing_in_scope.
Qed.

Lemma relation_diff_empty : compute_relation_diff x v (Some ∅) ∅ = ([], [], 0).
Proof.
  unfold compute_relation_diff.
  assert (unbounded_edges v (Some ∅) ∅ = []) as ->.
  { unfold unbounded_edges. assert (set_iter (∅ : gset EntityId) = []) as ->; [|done].
    apply elem_of_nil_inv. intros i. rewrite elem_of_set_iter. set_solver. }
  unfold lost_edges, gained_edges, entity_in_scope, entity_in_scope_new.
  rewrite !bind_all_nil; [done|..]; intros [c es]; cbn [fst snd]; rewrite nothing_in_scope; [done|].
  by destruct (decide _).
Qed.

(** The comparison would find nothing either. *)
Lemma compare_empty_scope e b cfg :
  compare_indexes sha256_hex x v e b cfg (Some ∅) = empty_delta e b cfg.
Proof.
  unfold compare_indexes. rewrite entity_diff_empty. cbn [fst snd list_to_set].
  rewrite relation_diff_empty. cbn [fst snd].
  unfold compute_file_relation_diff, compute_import_diff, compute_export_diff,
    compute_dependency_diff.
  rewrite !scoped_paths_empty.
  assert (∀ f, file_in_scope (Some ∅) f = false) as Hf
    by (intros f; apply (nothing_in_scope (Some f))).
  rewrite (retain_none _ (view_files v).*1) by (intros f _; by rewrite Hf).
  rewrite (retain_none _ (entries (file_records x))) by (intros p _; by rewrite Hf). done.
Qed.

Lemma compute_delta_eq e b cfg scope :
  compute_delta sha256_hex x v e b cfg scope = compare_indexes sha256_hex x v e b cfg scope.
Proof.
  unfold compute_delta. destruct (decide (scope = Some ∅)) as [->|]; [|done].
  by rewrite compare_empty_scope.
Qed.
End early.

End DeltaDiff.
