(* ===== verification/DeltaApply.v ===== *)
(** * Deltas between relation indexes: replaying one

    Models [apply_delta] of crates/parser/cce-codegraph/src/index/delta.rs and
    the applying halves of the files of index/delta/.

    The relations of the index are a [DashMap], whose entries are spread over
    shards with a lock each. [apply_removed_relations] reads one entry while it
    holds another one for writing, so it blocks for ever when both lie in the
    same shard. The assignment of entities to shards is an argument of the
    model, and [None] is the outcome of a call that never returns. The other
    operations never hold two entries of one map. *)

From S2P Require Import Prelude MultiMap SortedVec Kinds EntityDiff DependencyGraph EdgeSet.
From S2P Require Import EntityIndex SymbolIndex RelationIndex DeltaDiff.
From stdpp Require Import fin_sets.
From Stdlib Require Import ZArith Lia.
#[local] Open Scope Z_scope.

Module DeltaApply.
Import Kinds EdgeSet RelationIndex DeltaDiff.

#[local] Existing Instances SymbolIndex.SymbolKey_eq_dec SymbolIndex.SymbolKey_countable.

(** ** Relations *)

(** The entry of a caller without one edge; an entry without edges goes. *)
Definition remove_edge (r : ResolvedRelation) (s : RelationStore) : RelationStore :=
  match resolved_relation_index s !! caller r with
  | None => s
  | Some rs =>
      let rs := (remove_by_identity (relation_identity r) rs).2 in
      set_resolved (if is_empty rs then delete (caller r) (resolved_relation_index s)
                    else <[caller r := rs]> (resolved_relation_index s)) s
  end.

Definition still_calls (c i : EntityId) (s : RelationStore) : bool :=
  existsb (λ r, bool_decide (callee_id r = Some i)) (edges_of c s).

Section locks.
Context (shard : EntityId → nat).

Definition apply_removed_relation (s : RelationStore) (r : ResolvedRelation)
    : option RelationStore :=
  let s := remove_edge r s in
  match callee_id r with
  | None => Some s
  | Some i =>
      let s := maybe_untrack_reverse_caller i (caller r) s in
      match resolved_relation_index s !! i with
      | None => Some s
      | Some entry =>
          if decide (shard i = shard (caller r)) then None
          else if still_calls (caller r) i s then Some s
          else
            let entry := (remove_caller (caller r) entry).2 in
            Some (set_resolved (if is_empty entry && is_callers_empty entry
                                then delete i (resolved_relation_index s)
                                else <[i := entry]> (resolved_relation_index s)) s)
      end
  end.

Fixpoint apply_removed_relations (rs : list ResolvedRelation) (s : RelationStore)
    : option RelationStore :=
  match rs with
  | [] => Some s
  | r :: rs => s ← apply_removed_relation s r; apply_removed_relations rs s
  end.
End locks.

Definition apply_added_relations (rs : list ResolvedRelation) (s : RelationStore)
    : RelationStore := foldl (λ s r, add_resolved_relation r s) s rs.

(** *** Relations of files *)

(** The callees of the relations, each once. *)
Definition touch (touched : list EntityId) (r : ResolvedRelation) : list EntityId :=
  match callee_id r with
  | Some i => if decide (i ∈ touched) then touched else touched ++ [i]
  | None => touched
  end.

Definition retrack (path : string) (es : list ResolvedRelation) (m : gmap EntityId (gset string))
    (i : EntityId) : gmap EntityId (gset string) :=
  let m := untrack_file_caller (Some i) path m in
  if existsb (λ r, bool_decide (callee_id r = Some i)) es
  then track_file_caller (Some i) path m else m.

Definition apply_file_relation_diff (s : RelationStore) (d : FileRelationDiff) : RelationStore :=
  let path := relation_diff_path d in
  let es := default empty_edge_set (file_relation_index s !! path) in
  let es := foldl (λ es r, (remove_by_identity (relation_identity r) es).2) es
              (removed_file_relations d) in
  let es := foldl (λ es r, (insert r es).2) es (added_file_relations d) in
  let touched := foldl touch [] (removed_file_relations d ++ added_file_relations d) in
  let m := if is_empty es then delete path (file_relation_index s)
           else <[path := es]> (file_relation_index s) in
  let now := match m !! path with Some es => edges es | None => [] end in
  set_file_relations m (foldl (retrack path now) (file_callers_by_callee s) touched) s.

Definition apply_file_relation_diffs (ds : list FileRelationDiff) (s : RelationStore)
    : RelationStore := foldl apply_file_relation_diff s ds.

(** ** Entities *)

(** The three stores a change of the entities touches. *)
Abbreviation Stores :=
  (EntityIndex.EntityStore * SymbolIndex.SymbolRegistry * RelationStore)%type.

Section entities.
Context (sha256_hex : list Z → string).
Context `{!SetIter EntityId}.

(** The relations of a removed entity: its own entry, the callers it is listed
    under, the entry of its callers. *)
Definition drop_relations (i : EntityId) (s : RelationStore) : RelationStore :=
  let callee_ids := omap callee_id (edges_of i s) in
  let s := set_resolved (delete i (resolved_relation_index s)) s in
  let s := foldl (detach_callee i) s callee_ids in
  let s := set_reverse (delete i (reverse_callee_index s)) s in
  let keys :=
    (Prelude.retain (λ p, bool_decide (i ∈ callers p.2)) (entries (resolved_relation_index s))).*1 in
  let s := foldl (detach_callee i) s keys in
  let reverse_keys :=
    (Prelude.retain (λ p, bool_decide (i ∈ p.2)) (entries (reverse_callee_index s))).*1 in
  foldl (λ s j, untrack_reverse_caller j i s) s reverse_keys.

(** The keys of a removed entity, in the four maps. *)
Definition drop_keys (i : EntityId) (s : SymbolIndex.SymbolRegistry) : SymbolIndex.SymbolRegistry :=
  match SymbolIndex.entity_to_symbol_key s !! i with
  | None => s
  | Some key =>
      let s := SymbolIndex.forget_entity sha256_hex i s in
      {| SymbolIndex.symbol_key_to_entity := SymbolIndex.symbol_key_to_entity s;
         SymbolIndex.entity_to_symbol_key := SymbolIndex.entity_to_symbol_key s;
         SymbolIndex.stable_id_to_entity := SymbolIndex.stable_id_to_entity s;
         SymbolIndex.file_symbol_keys :=
           SymbolIndex.unlist_key key (SymbolIndex.file_symbol_keys s);
         SymbolIndex.symbol_key_conflict_count := SymbolIndex.symbol_key_conflict_count s;
         SymbolIndex.symbol_key_conflict_samples := SymbolIndex.symbol_key_conflict_samples s |}
  end.

Definition apply_removed_entity (x : Stores) (i : EntityId) : Stores :=
  let '(es, syms, rels) := x in
  let '(es, syms) := remove_function (es, syms) i in
  (EntityIndex.remove_membership i es, drop_keys i syms, drop_relations i rels).

Definition apply_removed_entities (ids : list EntityId) (x : Stores) : Stores :=
  foldl apply_removed_entity x ids.

(** *** Renames *)

Definition retarget (i : EntityId) (n : string) (r : ResolvedRelation) : ResolvedRelation :=
  {| caller := caller r; callee_id := Some i; callee_name := n; relation_type := relation_type r;
     relation_span := relation_span r; is_external := is_external r;
     external_type := external_type r; callee_symbol := callee_symbol r;
     stdlib_category := stdlib_category r; owner_type := owner_type r;
     call_context := call_context r; overload_signature := overload_signature r;
     call_frequency := call_frequency r; cfg_condition := cfg_condition r |}.

Definition migrate_edge (d : Rename) (es : RelationEdgeSet) (r : ResolvedRelation)
    : RelationEdgeSet :=
  (insert (retarget (new_id d) (new_name d) r) (remove_by_identity (relation_identity r) es).2).2.

Definition migrate_caller (d : Rename) (s : RelationStore) (c : EntityId) : RelationStore :=
  match resolved_relation_index s !! c with
  | None => s
  | Some es =>
      set_resolved
        (<[c := foldl (migrate_edge d) es
                  (Prelude.retain (λ r, bool_decide (callee_id r = Some (old_id d))) (edges es))]>
           (resolved_relation_index s)) s
  end.

(** The callers of an entry, from the edges in it that lead to its own key. *)
Definition reset_callers (i : EntityId) (es : RelationEdgeSet) : RelationEdgeSet :=
  foldl (λ es r, add_caller (caller r) es)
    {| edges := edges es; identities := identities es; callers := [] |}
    (Prelude.retain (λ r, bool_decide (callee_id r = Some i)) (edges es)).

Definition rename_relations (d : Rename) (s : RelationStore) : RelationStore :=
  let caller_ids :=
    match resolved_relation_index s !! old_id d with Some es => callers es | None => [] end in
  let s := foldl (migrate_caller d) s caller_ids in
  let s := set_resolved (delete (old_id d) (resolved_relation_index s)) s in
  match resolved_relation_index s !! new_id d with
  | Some es =>
      set_resolved (<[new_id d := reset_callers (new_id d) es]> (resolved_relation_index s)) s
  | None => s
  end.

(** [remove(old)] and, when there was a value, [insert(new, value)]. *)
Definition move_key {A : Type} (from to : EntityId) (m : gmap EntityId A) : gmap EntityId A :=
  match m !! from with
  | Some a => <[to := a]> (delete from m)
  | None => m
  end.

Definition rename_entity (d : Rename) (s : EntityIndex.EntityStore) : EntityIndex.EntityStore :=
  let s := EntityIndex.set_functions
             (move_key (old_id d) (new_id d) (EntityIndex.function_index s))
             (EntityIndex.name_index s) s in
  EntityIndex.set_files (move_key (old_id d) (new_id d) (EntityIndex.entity_file_index s)) s.

Definition renamed_key (n : string) (key : SymbolKey) : SymbolKey :=
  {| SymbolIndex.file_path := SymbolIndex.normalize (SymbolIndex.file_path key);
     SymbolIndex.scoped_name := n; SymbolIndex.key_kind := SymbolIndex.key_kind key;
     SymbolIndex.overload_discriminator := SymbolIndex.overload_discriminator key |}.

Definition rename_keys (d : Rename) (s : SymbolIndex.SymbolRegistry) : SymbolIndex.SymbolRegistry :=
  match SymbolIndex.entity_to_symbol_key s !! old_id d with
  | None => s
  | Some key =>
      let key' := renamed_key (new_name d) key in
      {| SymbolIndex.symbol_key_to_entity :=
           <[key' := new_id d]> (delete key (SymbolIndex.symbol_key_to_entity s));
         SymbolIndex.entity_to_symbol_key :=
           <[new_id d := key']> (delete (old_id d) (SymbolIndex.entity_to_symbol_key s));
         SymbolIndex.stable_id_to_entity :=
           <[SymbolIndex.stable_id sha256_hex key' := new_id d]>
             (delete (SymbolIndex.stable_id sha256_hex key) (SymbolIndex.stable_id_to_entity s));
         SymbolIndex.file_symbol_keys := SymbolIndex.file_symbol_keys s;
         SymbolIndex.symbol_key_conflict_count := SymbolIndex.symbol_key_conflict_count s;
         SymbolIndex.symbol_key_conflict_samples := SymbolIndex.symbol_key_conflict_samples s |}
  end.

Definition apply_renamed_entity (x : Stores) (d : Rename) : Stores :=
  let '(es, syms, rels) := x in
  (rename_entity d es, rename_keys d syms, rename_relations d rels).

Definition apply_renamed_entities (ds : list Rename) (x : Stores) : Stores :=
  let '(es, syms, rels) := foldl apply_renamed_entity x ds in
  (es, syms, match ds with [] => rels | _ => rebuild_reverse_callee_index rels end).

(** *** Additions *)

Definition apply_added_entity (x : EntityIndex.EntityStore * SymbolIndex.SymbolRegistry)
    (a : AddedEntity) : EntityIndex.EntityStore * SymbolIndex.SymbolRegistry :=
  let '(es, syms) := x in
  let e := added_entity a in
  let i := EntityDiff.id e in
  let es := EntityIndex.insert_function i e es in
  let es := EntityIndex.set_files (<[i := added_path a]> (EntityIndex.entity_file_index es)) es in
  let syms :=
    (SymbolIndex.register_symbol_key sha256_hex (EntityIndex.function_index es)
       (SymbolIndex.file_path (added_key a)) (SymbolIndex.scoped_name (added_key a)) e i syms).2 in
  (EntityIndex.track_file_entity (added_path a) (wrap32 (EntityIndex.start_row e)) i es, syms).

Definition apply_added_entities (l : list AddedEntity)
    (x : EntityIndex.EntityStore * SymbolIndex.SymbolRegistry) :=
  foldl apply_added_entity x l.
End entities.

(** ** The whole delta *)

Section index.
Context {StandardizedImport : Type} `{!EqDecision StandardizedImport}.
Context (sha256_hex : list Z → string) (shard : EntityId → nat).
Context `{!SetIter EntityId, !SetIter string}.
Abbreviation Index := (@RelationIndex StandardizedImport).

Definition set_dependencies (g : Graph.FileDependencyGraph) (x : Index) : Index :=
  {| entities := entities x; relations := relations x; symbols := symbols x;
     file_records := file_records x; dependency_graph := g |}.

Definition set_stores (es : EntityIndex.EntityStore) (syms : SymbolIndex.SymbolRegistry)
    (rels : RelationStore) (x : Index) : Index :=
  {| entities := es; relations := rels; symbols := syms; file_records := file_records x;
     dependency_graph := dependency_graph x |}.

Definition drop_listing (path : string) (s : SymbolIndex.SymbolRegistry)
    : SymbolIndex.SymbolRegistry :=
  {| SymbolIndex.symbol_key_to_entity := SymbolIndex.symbol_key_to_entity s;
     SymbolIndex.entity_to_symbol_key := SymbolIndex.entity_to_symbol_key s;
     SymbolIndex.stable_id_to_entity := SymbolIndex.stable_id_to_entity s;
     SymbolIndex.file_symbol_keys := delete path (SymbolIndex.file_symbol_keys s);
     SymbolIndex.symbol_key_conflict_count := SymbolIndex.symbol_key_conflict_count s;
     SymbolIndex.symbol_key_conflict_samples := SymbolIndex.symbol_key_conflict_samples s |}.

Definition drop_starts (path : string) (s : EntityIndex.EntityStore) : EntityIndex.EntityStore :=
  EntityIndex.set_starts (delete path (EntityIndex.file_entities_by_start s)) s.

Definition apply_removed_file (x : Index) (path : string) : Index :=
  {| entities := drop_starts path (drop_remap path (entities x));
     relations := (take_file_relations path (relations x)).2;
     symbols := drop_listing path (symbols x);
     file_records := delete path (file_records x);
     dependency_graph := Graph.remove_file path (dependency_graph x) |}.

Definition apply_added_file (x : Index) (i : FileInfo) : Index :=
  let r := record_of (info_path i) x in
  set_records (<[info_path i := {| info := i; imports := imports r; exports := exports r |}]>
                 (file_records x)) x.

(** *** Imports, exports, dependencies *)

Definition push_new {A : Type} `{!EqDecision A} (l : list A) (a : A) : list A :=
  if decide (a ∈ l) then l else l ++ [a].

Definition apply_import_diff (x : Index) (d : @ImportDiff StandardizedImport) : Index :=
  match file_records x !! import_diff_path d with
  | None => x
  | Some r =>
      let kept := Prelude.retain (λ i, negb (bool_decide (i ∈ removed_imports d)))
                    (standardized_imports (imports r)) in
      let t := {| table_file_id := table_file_id (imports r);
                  standardized_imports := foldl push_new kept (added_imports d) |} in
      set_records
        (<[import_diff_path d := {| info := info r; imports := t; exports := exports r |}]>
           (file_records x)) x
  end.

Definition export_type_of (n : string) : ExportType :=
  if String.eqb n "default" then DefaultExport
  else if String.eqb n "wildcard" then Wildcard else Named.

(** One added export: the exports so far and the count of unresolvable ones. *)
Definition push_export (syms : SymbolIndex.SymbolRegistry) (existing : list string)
    (st : list ExportInfo * Z) (e : CanonicalExport) : list ExportInfo * Z :=
  let '(exs, unresolved) := st in
  let n := SymbolIndex.scoped_name (export_symbol e) in
  if decide (n ∈ existing) then st
  else match SymbolIndex.get_entity_id_by_symbol_key (export_symbol e) syms with
       | None => (exs, wrap64 (unresolved + 1))
       | Some i =>
           (exs ++ [{| function_id := i; function_name := n;
                       export_type := export_type_of (export_type_name e) |}], unresolved)
       end.

(** The index and the diagnostics counter [delta_export_unresolved_count]. *)
Definition apply_export_diff (st : Index * Z) (d : ExportDiff) : Index * Z :=
  let '(x, unresolved) := st in
  match file_records x !! export_diff_path d with
  | None => st
  | Some r =>
      let removed := map (λ e, SymbolIndex.scoped_name (export_symbol e)) (removed_exports d) in
      let kept := Prelude.retain (λ e, negb (bool_decide (function_name e ∈ removed))) (exports r) in
      let '(exs, unresolved) :=
        foldl (push_export (symbols x) (map function_name kept)) (kept, unresolved)
          (added_exports d) in
      (set_records
         (<[export_diff_path d := {| info := info r; imports := imports r; exports := exs |}]>
            (file_records x)) x, unresolved)
  end.

Definition apply_dependency_diff (g : Graph.FileDependencyGraph) (d : DependencyDiff)
    : Graph.FileDependencyGraph :=
  let g := foldl (λ g to, Graph.remove_dependency (source_file d) to g) g
             (removed_dependencies d) in
  foldl (λ g to, Graph.add_dependency (source_file d) to g) g (added_dependencies d).

Definition apply_dependency_diffs (ds : list DependencyDiff) (x : Index) : Index :=
  set_dependencies (foldl apply_dependency_diff (dependency_graph x) ds) x.

(** [None]: the call blocks. *)
Definition apply_delta (d : @SnapshotDelta StandardizedImport) (x : Index) (unresolved : Z)
    : option (Index * Z) :=
  let x := foldl apply_removed_file x (removed_files d) in
  let x := foldl apply_added_file x (added_files d) in
  let '(es, syms, rels) :=
    apply_removed_entities sha256_hex (removed_entities d) (entities x, symbols x, relations x) in
  let '(es, syms, rels) :=
    apply_renamed_entities sha256_hex (renamed_entities d) (es, syms, rels) in
  let '(es, syms) := apply_added_entities sha256_hex (added_entities d) (es, syms) in
  rels ← apply_removed_relations shard (removed_relations d) rels;
  let rels := apply_added_relations (added_relations d) rels in
  let rels := apply_file_relation_diffs (file_relation_diffs d) rels in
  let x := set_stores es syms rels x in
  let x := foldl apply_import_diff x (import_diffs d) in
  let '(x, unresolved) := foldl apply_export_diff (x, unresolved) (export_diffs d) in
  Some (apply_dependency_diffs (dependency_diffs d) x, unresolved).
End index.

(** ** Removing edges *)

(** Two stores that differ in the relations of entities only. *)
Definition same_files (s s' : RelationStore) : Prop :=
  file_relation_index s' = file_relation_index s ∧
  file_callers_by_callee s' = file_callers_by_callee s.

(** The edges of a list after the ones with the given identities went. *)
Definition without (ids : list RelationEdgeIdentity) (es : list ResolvedRelation) :=
  Prelude.retain (λ e, negb (bool_decide (relation_identity e ∈ ids))) es.

Lemma elem_of_without ids es r : r ∈ without ids es ↔ r ∈ es ∧ relation_identity r ∉ ids.
Proof. unfold without. by rewrite elem_of_retain, negb_true_iff, bool_decide_eq_false. Qed.

Lemma without_cons i ids es : without (i :: ids) es = without ids (without [i] es).
Proof.
  unfold without. induction es as [|e es IH]; simpl; [done|]. rewrite IH.
  destruct (decide (relation_identity e = i)) as [->|Hne].
  - rewrite bool_decide_true by by left. by rewrite bool_decide_true by by left.
  - rewrite (bool_decide_false (_ ∈ [i])) by (by rewrite list_elem_of_singleton). simpl.
    assert (relation_identity e ∈ i :: ids ↔ relation_identity e ∈ ids) as Hiff
      by (rewrite elem_of_cons; tauto).
    by rewrite (bool_decide_ext _ _ Hiff).
Qed.

Lemma mentions_without ids es i : mentions (without ids es) i → mentions es i.
Proof. intros (r & [Hr _]%elem_of_without & Hi). by exists r. Qed.

Lemma mentions_add (r : ResolvedRelation) es i :
  mentions es i → callee_id r ≠ Some i → mentions (without [relation_identity r] es) i.
Proof.
  intros (e & He & Hi) Hr. exists e. split; [|done]. apply elem_of_without. split; [done|].
  rewrite list_elem_of_singleton. intros Heq. apply Hr. unfold relation_identity in Heq.
  rewrite Hi in Heq. destruct (callee_id r); [congruence|]. by destruct (is_external r).
Qed.

(** An edge of another caller has another identity. *)
Lemma without_other s c r :
  entries_ok s → c ≠ caller r → without [relation_identity r] (edges_of c s) = edges_of c s.
Proof.
  intros Hs Hc. apply retain_all. intros e He. apply negb_true_iff, bool_decide_eq_false.
  rewrite list_elem_of_singleton. intros Heq%identity_caller_eq.
  apply Hc. by rewrite <- Heq, (edge_caller s c e).
Qed.

Lemma without_one es (i : RelationEdgeIdentity) :
  Prelude.retain (λ e, negb (bool_decide (relation_identity e = i))) es = without [i] es.
Proof.
  unfold without. induction es as [|e es IH]; simpl; [done|]. rewrite IH.
  assert (relation_identity e = i ↔ relation_identity e ∈ [i]) as Hiff
    by (by rewrite list_elem_of_singleton).
  by rewrite (bool_decide_ext _ _ Hiff).
Qed.

Lemma remove_edge_spec r s :
  entries_ok s →
  entries_ok (remove_edge r s) ∧ same_files s (remove_edge r s) ∧
  reverse_callee_index (remove_edge r s) = reverse_callee_index s ∧
  ∀ c, edges_of c (remove_edge r s) = without [relation_identity r] (edges_of c s).
Proof.
  intros Hs. unfold remove_edge. destruct (resolved_relation_index s !! caller r) as [es|] eqn:E.
  2:{ split_and!; [done..|]. intros c. destruct (decide (c = caller r)) as [->|Hne].
      - unfold edges_of. by rewrite E.
      - by rewrite without_other. }
  destruct (Hs _ _ E) as [Hset Hcs Hne Hca].
  pose proof (remove_by_identity_edges (relation_identity r) es Hset) as Hedges.
  pose proof (remove_by_identity_ok (relation_identity r) es Hset) as Hset'.
  pose proof (remove_by_identity_callers (relation_identity r) es) as Hcs'.
  rewrite without_one in Hedges. set (es' := (remove_by_identity _ es).2) in *. clearbody es'.
  assert (Hof : edges_of (caller r) s = edges es) by (unfold edges_of; by rewrite E).
  split_and!; [| |done|].
  - unfold is_empty. case_bool_decide as Hempty; intros c es0; simpl.
    + rewrite lookup_delete_Some. intros [_ Hc]. by apply Hs.
    + rewrite lookup_insert_Some. intros [[<- <-]|[_ Hc]]; [|by apply Hs].
      split; [done|congruence|done|]. intros e He. rewrite Hedges in He.
      apply elem_of_without in He as [He _]. by apply Hca.
  - by unfold is_empty; case_bool_decide.
  - intros c. unfold is_empty. case_bool_decide as Hempty;
      rewrite ?edges_of_drop, ?edges_of_insert;
      (destruct (decide (caller r = c)) as [<-|Hc]; [|by rewrite without_other]); congruence.
Qed.

Lemma still_calls_iff c i s : still_calls c i s = true ↔ mentions (edges_of c s) i.
Proof.
  unfold still_calls, mentions. rewrite existsb_exists. setoid_rewrite list_elem_of_In.
  by setoid_rewrite bool_decide_eq_true.
Qed.

Lemma maybe_untrack_spec i c s :
  lists_ok s →
  let s' := maybe_untrack_reverse_caller i c s in
  lists_ok s' ∧ resolved_relation_index s' = resolved_relation_index s ∧ same_files s s' ∧
  ∀ j d, d ∈ callers_of j s' ↔
         d ∈ callers_of j s ∧ (j = i → d = c → mentions (edges_of c s) i).
Proof.
  intros Hs. cbv zeta. unfold maybe_untrack_reverse_caller.
  fold (still_calls c i s). destruct (still_calls c i s) eqn:E.
  - apply still_calls_iff in E. split_and!; [done..|]. naive_solver.
  - assert (¬ mentions (edges_of c s) i) as Hn by (rewrite <- still_calls_iff, E; done).
    destruct (untrack_reverse_spec i c s Hs) as [H1 H2].
    destruct (untrack_reverse_fields i c s) as (H3 & H4 & H5). split_and!; [done..|].
    intros j d. rewrite H2. naive_solver.
Qed.

Section removal.
Context (shard : EntityId → nat) (U : EntityId → Prop).

(** The state after [r] went, before the entry of its callee is visited. *)
Lemma removed_edge_tracked r s s' i :
  tracked U s → callee_id r = Some i →
  s' = maybe_untrack_reverse_caller i (caller r) (remove_edge r s) →
  tracked U s' ∧ same_files s s' ∧
  ∀ c, edges_of c s' = without [relation_identity r] (edges_of c s).
Proof.
  intros [He Hl Hs Hc] Hi ->. destruct (remove_edge_spec r s He) as (H1 & [H2 H3] & H4 & H5).
  set (s1 := remove_edge r s) in *. clearbody s1.
  assert (Hl1 : lists_ok s1) by (intros j l; rewrite H4; apply Hl).
  destruct (maybe_untrack_spec i (caller r) s1 Hl1) as (H6 & H7 & [H8 H9] & H10).
  set (s2 := maybe_untrack_reverse_caller i (caller r) s1) in *. clearbody s2.
  assert (Hedges : ∀ c, edges_of c s2 = without [relation_identity r] (edges_of c s)).
  { intros c. rewrite <- H5. unfold edges_of. by rewrite H7. }
  assert (Hcallers : ∀ j, callers_of j s1 = callers_of j s) by (intros j; unfold callers_of; by rewrite H4).
  split_and!; [split| |done].
  - intros c es. rewrite H7. apply H1.
  - done.
  - intros j c [Hj Hcase]%H10. rewrite Hcallers in Hj. apply Hs in Hj. rewrite Hedges.
    destruct (decide (c = caller r)) as [->|Hne]; [|by rewrite without_other].
    destruct (decide (j = i)) as [->|Hji]; [rewrite <- H5; by apply Hcase|].
    apply mentions_add; [done|congruence].
  - intros j c Hj Hm. apply H10. rewrite Hcallers. rewrite Hedges in Hm. split.
    + apply Hc; [done|]. by eapply mentions_without.
    + intros -> ->. by rewrite H5.
  - split; congruence.
Qed.

(** The entry of the callee lists no callers, so visiting it changes nothing. *)
Lemma visited_entry c i s entry :
  entries_ok s → resolved_relation_index s !! i = Some entry →
  let entry' := (remove_caller c entry).2 in
  set_resolved (if is_empty entry' && is_callers_empty entry'
                then delete i (resolved_relation_index s)
                else <[i := entry']> (resolved_relation_index s)) s = s.
Proof.
  intros Hs E. cbv zeta. destruct (Hs i entry E) as [_ Hc Hn _]. rewrite remove_caller_absent by done.
  unfold is_empty. rewrite bool_decide_false by done. simpl. rewrite insert_id by done. by destruct s.
Qed.

(** Some removal reads the entry of its callee, which still has an edge, while it
    holds the lock of the caller's shard. *)
Definition held (rs : list ResolvedRelation) (E : EntityId → list ResolvedRelation) : Prop :=
  ∃ rs1 r rs2 i e, rs = rs1 ++ r :: rs2 ∧ callee_id r = Some i ∧ shard i = shard (caller r) ∧
    e ∈ E i ∧ relation_identity e ∉ map relation_identity (rs1 ++ [r]).

Lemma held_nil E : ¬ held [] E.
Proof. intros (rs1 & r & rs2 & i & e & H & _). by destruct rs1. Qed.

Lemma held_cons r rs E :
  held (r :: rs) E ↔
  (∃ i e, callee_id r = Some i ∧ shard i = shard (caller r) ∧ e ∈ E i ∧ relation_identity e ≠ relation_identity r) ∨
  held rs (λ c, without [relation_identity r] (E c)).
Proof.
  unfold held. setoid_rewrite elem_of_without. setoid_rewrite list_elem_of_singleton. split.
  - intros ([|r1 rs1] & r' & rs2 & i & e & [= -> ->] & Hi & Hs & He & Hn); cbn [app map] in Hn.
    + left. exists i, e. rewrite list_elem_of_singleton in Hn. done.
    + right. apply not_elem_of_cons in Hn as [Hn1 Hn2]. by exists rs1, r', rs2, i, e.
  - intros [(i & e & Hi & Hs & He & Hn)|(rs1 & r' & rs2 & i & e & -> & Hi & Hs & [He Hn] & Hns)].
    + exists [], r, rs, i, e. split_and!; [done..|]. cbn. by rewrite list_elem_of_singleton.
    + exists (r :: rs1), r', rs2, i, e. split_and!; [done..|]. cbn [app map]. by rewrite not_elem_of_cons.
Qed.

Lemma held_ext rs E E' : (∀ c, E c = E' c) → held rs E → held rs E'.
Proof.
  intros HE (rs1 & r & rs2 & i & e & H). rewrite HE in H. by exists rs1, r, rs2, i, e.
Qed.

Lemma removed_relation_outcome r s :
  tracked U s →
  match apply_removed_relation shard s r with
  | Some s' => tracked U s' ∧ same_files s s' ∧ (∀ c, edges_of c s' = without [relation_identity r] (edges_of c s)) ∧
      ∀ i, callee_id r = Some i → shard i = shard (caller r) → without [relation_identity r] (edges_of i s) = []
  | None => ∃ i, callee_id r = Some i ∧ shard i = shard (caller r) ∧ without [relation_identity r] (edges_of i s) ≠ []
  end.
Proof.
  intros Ht. unfold apply_removed_relation. destruct (callee_id r) as [i|] eqn:Ei.
  - destruct (removed_edge_tracked r s _ i Ht Ei eq_refl) as (H1 & H2 & H3).
    set (s1 := maybe_untrack_reverse_caller _ _ _) in *. clearbody s1.
    destruct (resolved_relation_index s1 !! i) as [entry|] eqn:E.
    + destruct (decide (shard i = shard (caller r))) as [Hs|Hs].
      { exists i. split_and!; [done..|]. rewrite <- H3. unfold edges_of. rewrite E.
        by destruct (tracked_entries _ _ H1 i entry E). }
      destruct (still_calls _ _ _).
      * split_and!; [done..|]. by intros j [= <-].
      * rewrite (visited_entry (caller r) i s1 entry (tracked_entries _ _ H1) E).
        split_and!; [done..|]. by intros j [= <-].
    + split_and!; [done..|]. intros j [= <-] _. rewrite <- H3. unfold edges_of. by rewrite E.
  - destruct Ht as [He Hl Hs Hc]. destruct (remove_edge_spec r s He) as (H1 & H2 & H3 & H4).
    split_and!; [|done..].
    assert (Hm : ∀ c j, mentions (edges_of c (remove_edge r s)) j ↔ mentions (edges_of c s) j).
    { intros c j. rewrite H4. split; [apply mentions_without|]. intros Hm.
      apply mentions_add; [done|by rewrite Ei]. }
    assert (Hcs : ∀ j, callers_of j (remove_edge r s) = callers_of j s)
      by (intros j; unfold callers_of; by rewrite H3).
    split; [done|intros j l; rewrite H3; apply Hl|..]; intros j c; rewrite Hcs, Hm; auto.
Qed.

(** The removals go through, and then the edges are gone, unless an entry is held. *)
Lemma removed_relations_outcome rs s :
  tracked U s →
  match apply_removed_relations shard rs s with
  | Some s' => tracked U s' ∧ same_files s s' ∧
      (∀ c, edges_of c s' = without (map relation_identity rs) (edges_of c s)) ∧ ¬ held rs (λ c, edges_of c s)
  | None => held rs (λ c, edges_of c s)
  end.
Proof.
  revert s. induction rs as [|r rs IH]; intros s Ht; cbn [apply_removed_relations].
  { split_and!; [done..| |apply held_nil]. intros c. symmetry. by apply retain_all. }
  pose proof (removed_relation_outcome r s Ht) as H1.
  pose proof (held_cons r rs (λ c, edges_of c s)) as Hh.
  destruct (apply_removed_relation shard s r) as [s1|]; cbn [mbind option_bind].
  - destruct H1 as (H1 & [H2 H3] & H4 & H5). specialize (IH s1 H1).
    destruct (apply_removed_relations shard rs s1) as [s2|].
    + destruct IH as (H6 & [H7 H8] & H9 & H10). split_and!; [done|split; congruence| |].
      * intros c. rewrite H9, H4. symmetry. apply without_cons.
      * intros [(i & e & Hi & Hs & He & Hn)|Hr]%Hh.
        -- assert (e ∈ without [relation_identity r] (edges_of i s)) as Hin
             by (apply elem_of_without; by rewrite list_elem_of_singleton).
           rewrite (H5 i Hi Hs) in Hin. by apply elem_of_nil in Hin.
        -- apply H10. by eapply held_ext; [|exact Hr].
    + apply Hh. right. by eapply held_ext; [|exact IH].
  - apply Hh. left. destruct H1 as (i & Hi & Hs & Hne). destruct (without _ _) as [|e es] eqn:E; [done|].
    assert (e ∈ e :: es) as He by by left. rewrite <- E, elem_of_without, list_elem_of_singleton in He.
    exists i, e. tauto.
Qed.

Lemma removed_relations_spec rs s s' :
  tracked U s → apply_removed_relations shard rs s = Some s' →
  tracked U s' ∧ same_files s s' ∧ ∀ c, edges_of c s' = without (map relation_identity rs) (edges_of c s).
Proof. intros Ht Hs. pose proof (removed_relations_outcome rs s Ht) as H. rewrite Hs in H. tauto. Qed.

(** Removing a recursive edge of an entity that keeps an edge blocks. *)
Lemma recursive_edge_in_list rs r s :
  tracked U s → r ∈ rs → callee_id r = Some (caller r) →
  (∃ e, e ∈ edges_of (caller r) s ∧ relation_identity e ∉ map relation_identity rs) →
  apply_removed_relations shard rs s = None.
Proof.
  intros Ht (rs1 & rs2 & ->)%list_elem_of_split Hrec (e & He & Hne).
  pose proof (removed_relations_outcome (rs1 ++ r :: rs2) s Ht) as H.
  destruct (apply_removed_relations shard _ s); [|done]. destruct H as (_ & _ & _ & H). destruct H.
  exists rs1, r, rs2, (caller r), e. split_and!; [done..|].
  intros Hin. apply Hne. rewrite map_app, elem_of_app in Hin |- *. cbn [map] in *. rewrite elem_of_cons.
  destruct Hin as [Hin|Hin%list_elem_of_singleton]; [by left|by right; left].
Qed.
End removal.

(** ** Removing and renaming entities *)

Section gone.
Context `{!SetIter EntityId}.

Lemma retain_entries_nil {A : Type} (f : EntityId * A → bool) (m : gmap EntityId A) :
  (∀ k a, m !! k = Some a → f (k, a) = false) → (Prelude.retain f (entries m)).*1 = [].
Proof.
  intros Hm. rewrite retain_none; [done|]. intros [k a] Hk%elem_of_entries. by apply Hm.
Qed.

(** The sweeps over the whole index find nothing: a delta removes an entity as
    the removal of its file does. *)
Lemma drop_relations_eq D s0 s i :
  removed_ok D s0 s → drop_relations i s = remove_relations_of s i.
Proof.
  intros Hs. pose proof (remove_relations_step D s0 s i Hs) as [He Hl HR Hrev _].
  unfold drop_relations, remove_relations_of in *.
  set (s1 := foldl (detach_callee i) _ _) in *. cbn [resolved_relation_index set_reverse] in *.
  destruct (detach_callees_spec i (omap callee_id (edges_of i s))
    (set_resolved (delete i (resolved_relation_index s)) s)) as (_ & H2 & _).
  { intros c es. simpl. rewrite lookup_delete_Some. intros [_ Hc]. by apply (removed_entries _ _ _ Hs). }
  { apply (removed_lists _ _ _ Hs). }
  assert (resolved_relation_index s1 = delete i (resolved_relation_index s)) as HR1.
  { fold s1 in H2. clearbody s1. by injection H2. }
  rewrite HR1, lookup_delete_eq in *. clearbody s1.
  rewrite retain_entries_nil; simpl.
  - rewrite retain_entries_nil; [done|]. intros j l Hj. apply bool_decide_eq_false. intros Hin.
    destruct (Hrev j i) as [Hm _]. destruct Hm as [_ Hm].
    { unfold callers_of. simpl. by rewrite Hj. }
    unfold edges_of in Hm. simpl in Hm. rewrite HR1, lookup_delete_eq in Hm. by apply mentions_nil in Hm.
  - intros c es Hc. rewrite (entry_callers c es); [done|]. apply He. simpl. by rewrite HR1.
Qed.

Lemma drop_relations_all D ids s0 s :
  removed_ok D s0 s → removed_ok (D ++ ids) s0 (foldl (λ s i, drop_relations i s) s ids).
Proof.
  revert D s. induction ids as [|i ids IH]; intros D s Hs; simpl; [by rewrite app_nil_r|].
  rewrite (assoc_L (++) D [i] ids : D ++ i :: ids = (D ++ [i]) ++ ids).
  apply IH. rewrite (drop_relations_eq D s0 s i Hs). by apply remove_relations_step.
Qed.

Lemma removed_tracked D s0 s : removed_ok D s0 s → tracked (λ i, i ∈ D) s.
Proof. intros [He Hl HR Hrev _]. split; [done..| |]; intros i c; rewrite Hrev; tauto. Qed.

(** The relations after a rename whose new id has no entry yet. *)
Lemma rename_relations_fresh d s :
  entries_ok s → resolved_relation_index s !! new_id d = None →
  rename_relations d s = set_resolved (delete (old_id d) (resolved_relation_index s)) s.
Proof.
  intros Hs Hn. unfold rename_relations.
  assert (match resolved_relation_index s !! old_id d with Some es => callers es | None => [] end = [])
    as ->.
  { destruct (resolved_relation_index s !! old_id d) as [es|] eqn:E; [|done].
    by apply (entry_callers _ _ (Hs _ _ E)). }
  simpl. destruct (decide (new_id d = old_id d)) as [->|Hne]; [by rewrite lookup_delete_eq|].
  by rewrite lookup_delete_ne, Hn.
Qed.

Lemma rename_relations_all ds s :
  entries_ok s → (∀ d, d ∈ ds → resolved_relation_index s !! new_id d = None) →
  let s' := foldl (λ s d, rename_relations d s) s ds in
  entries_ok s' ∧ reverse_callee_index s' = reverse_callee_index s ∧ same_files s s' ∧
  ∀ c, edges_of c s' = if decide (c ∈ map old_id ds) then [] else edges_of c s.
Proof.
  cbv zeta. revert s. induction ds as [|d ds IH]; intros s Hs Hn.
  { split_and!; [done..|]. intros c. by rewrite decide_False by apply not_elem_of_nil. }
  cbn [foldl map]. rewrite rename_relations_fresh by (try done; apply Hn; by left).
  set (s1 := set_resolved (delete (old_id d) (resolved_relation_index s)) s).
  destruct (IH s1) as (H1 & H2 & [H3 H4] & H5).
  { intros c es. simpl. rewrite lookup_delete_Some. intros [_ Hc]. by apply Hs. }
  { intros d' Hd'. simpl. apply lookup_delete_None. right. apply Hn. by right. }
  split_and!; [done..|]. intros c. rewrite H5. subst s1. rewrite edges_of_drop.
  repeat case_decide; rewrite ?elem_of_cons in *; try done; naive_solver.
Qed.

(** The relations of the three stores after the removals and renames. *)
Lemma gone_relations sha ids ds es syms s :
  relations_ok s → (∀ d, d ∈ ds → resolved_relation_index s !! new_id d = None) →
  let s' := (apply_renamed_entities sha ds (apply_removed_entities sha ids (es, syms, s))).2 in
  tracked (λ i, i ∈ ids) s' ∧ same_files s s' ∧
  ∀ c, edges_of c s' = if decide (c ∈ ids ++ map old_id ds) then [] else edges_of c s.
Proof.
  intros Hs Hn. cbv zeta. unfold apply_removed_entities, apply_renamed_entities.
  assert (∀ x : Stores, (foldl (apply_removed_entity sha) x ids).2 =
    foldl (λ s i, drop_relations i s) x.2 ids) as Hrem.
  { clear. induction ids as [|i ids IH]; intros x; [done|]. simpl. rewrite IH.
    destruct x as [[es syms] s]. simpl. by destruct (remove_function _ _). }
  assert (∀ x : Stores, (foldl (apply_renamed_entity sha) x ds).2 =
    foldl (λ s d, rename_relations d s) x.2 ds) as Hren.
  { clear. induction ds as [|d ds IH]; intros x; [done|]. simpl. rewrite IH.
    by destruct x as [[es syms] s]. }
  assert (removed_ok [] s s) as H0.
  { split; [apply Hs|apply Hs| | |done].
    - intros c. by rewrite decide_False by apply not_elem_of_nil.
    - intros i c. rewrite (ok_reverse _ Hs), elem_of_nil. tauto. }
  pose proof (drop_relations_all [] ids s s H0) as Hd. simpl in Hd.
  specialize (Hrem (es, syms, s)). simpl in Hrem.
  set (s1 := foldl (λ s i, drop_relations i s) s ids) in *.
  assert (He1 : ∀ c, edges_of c s1 = if decide (c ∈ ids) then [] else edges_of c s).
  { intros c. unfold edges_of. rewrite (removed_resolved _ _ _ Hd). by destruct (decide _). }
  assert (Hf1 : same_files s s1) by (apply (RelationIndex.removed_files _ _ _ Hd)).
  destruct (foldl (apply_removed_entity sha) _ ids) as [[es1 syms1] s1']. simpl in Hrem. subst s1'.
  specialize (Hren (es1, syms1, s1)). simpl in Hren.
  destruct (rename_relations_all ds s1 (removed_entries _ _ _ Hd)) as (H1 & H2 & [H3 H4] & H5).
  { intros d Hin. rewrite (removed_resolved _ _ _ Hd). destruct (decide _); auto. }
  set (s2 := foldl (λ s d, rename_relations d s) s1 ds) in *.
  destruct (foldl (apply_renamed_entity sha) _ ds) as [[es2 syms2] s2']. simpl in Hren. subst s2'.
  assert (He2 : ∀ c, edges_of c s2 = if decide (c ∈ ids ++ map old_id ds) then [] else edges_of c s).
  { intros c. rewrite H5, He1. repeat destruct (decide _); try done; set_solver. }
  destruct ds as [|d ds]; simpl.
  { subst s2. split_and!; [by eapply removed_tracked|done|]. exact He2. }
  destruct (rebuild_reverse_spec s2) as (H6 & H7 & H8).
  set (s3 := rebuild_reverse_callee_index s2) in *. clearbody s3.
  assert (Hr3 : resolved_relation_index s3 = resolved_relation_index s2 ∧ same_files s2 s3)
    by (rewrite <- H7; done).
  destruct Hr3 as [Hr3 [H9 H10]].
  assert (He3 : ∀ c, edges_of c s3 = edges_of c s2) by (intros c; unfold edges_of; by rewrite Hr3).
  destruct Hf1 as [Hf1 Hf2]. split_and!; [split| |].
  - intros c es0. rewrite Hr3. apply H1.
  - done.
  - intros i c. rewrite He3. apply H8.
  - intros i c _. rewrite He3. apply H8.
  - split; congruence.
  - intros c. by rewrite He3.
Qed.
End gone.

(** ** Adding edges *)

Lemma add_resolved_edges r s c :
  entries_ok s →
  edges_of c (add_resolved_relation r s) =
  if decide (c = caller r ∧ relation_identity r ∉ map relation_identity (edges_of c s))
  then edges_of c s ++ [r] else edges_of c s.
Proof.
  intros Hs. unfold add_resolved_relation. destruct (entry_default (caller r) s Hs) as (_ & Hset & He).
  cbv zeta in *. set (es := default empty_edge_set _) in *. clearbody es.
  pose proof (insert_spec r es Hset) as Hins. destruct (insert r es) as [inserted es']. simpl in Hins.
  assert (edges_of c (set_resolved (<[caller r := es']> (resolved_relation_index s)) s) =
    if decide (c = caller r ∧ relation_identity r ∉ map relation_identity (edges_of c s))
    then edges_of c s ++ [r] else edges_of c s) as Hgoal.
  { rewrite edges_of_insert. destruct (decide (caller r = c)) as [<-|Hne].
    - rewrite <- He. destruct Hins as [(_ & -> & Hin)|(_ & -> & Hin)];
        [by rewrite decide_False by tauto|by rewrite decide_True].
    - rewrite decide_False; [done|]. naive_solver. }
  rewrite <- Hgoal. destruct inserted; [|done]. by destruct (callee_id r).
Qed.

Lemma add_resolved_files r s : same_files s (add_resolved_relation r s).
Proof.
  unfold add_resolved_relation. destruct (insert r _) as [[] es]; [|done]. by destruct (callee_id r).
Qed.

(** Edges that agree with those there on the content of a shared identity. *)
Definition agree (rs : list ResolvedRelation) (s : RelationStore) : Prop :=
  (∀ r e, r ∈ rs → e ∈ edges_of (caller r) s → relation_identity e = relation_identity r →
          edge_entry e = edge_entry r) ∧
  (∀ r r', r ∈ rs → r' ∈ rs → relation_identity r = relation_identity r' →
           edge_entry r = edge_entry r').

Lemma added_relations_spec rs s :
  relations_ok s → agree rs s →
  let s' := apply_added_relations rs s in
  relations_ok s' ∧ same_files s s' ∧
  ∀ c p, p ∈ map edge_entry (edges_of c s') ↔
    p ∈ map edge_entry (edges_of c s) ∨ ∃ r, r ∈ rs ∧ caller r = c ∧ p = edge_entry r.
Proof.
  cbv zeta. unfold apply_added_relations. revert s.
  induction rs as [|r rs IH]; intros s Hs [Ha1 Ha2]; cbn [foldl].
  { split_and!; [done..|]. intros c p. split; [by left|]. intros [|(r & Hr & _)]; [done|].
    by apply elem_of_nil in Hr. }
  pose proof (λ c, add_resolved_edges r s c (ok_entries _ Hs)) as He.
  destruct (IH (add_resolved_relation r s)) as (H1 & H2 & H3).
  - by apply add_resolved_ok.
  - split; [|intros r1 r2 Hr1 Hr2; apply Ha2; by right]. intros r1 e Hr1 Hin Heq. rewrite He in Hin.
    destruct (decide _) as [[Hc Hn]|Hn]; [|by apply Ha1; [right|..]].
    apply elem_of_app in Hin as [Hin|Hin%list_elem_of_singleton]; [by apply Ha1; [right|..]|].
    subst e. apply Ha2; [by left|by right|done].
  - split_and!; [done|..].
    + destruct H2 as [H4 H5], (add_resolved_files r s) as [H6 H7]. split; congruence.
    + intros c p. rewrite H3, He. setoid_rewrite elem_of_cons.
      destruct (decide _) as [[-> Hn]|Hn].
      * rewrite map_app, elem_of_app. simpl. rewrite list_elem_of_singleton. naive_solver.
      * split; [naive_solver|]. intros [|(r1 & [->|Hr1] & <- & ->)]; [by left| |by eauto].
        left. assert (relation_identity r ∈ map relation_identity (edges_of (caller r) s)) as Hin.
        { destruct (decide (relation_identity r ∈ map relation_identity (edges_of (caller r) s))); [done|].
          by destruct Hn. }
        apply list_elem_of_fmap in Hin as (e & Heq & He'). apply list_elem_of_fmap. exists e.
        split; [|done]. symmetry. by apply Ha1; [left|..].
Qed.

End DeltaApply.
