(* ===== verification/DeltaReplay.v ===== *)
(** * Replaying a delta restores the relations

    The theorems about [compute_delta] and [apply_delta] together (crates/
    parser/cce-codegraph/src/index/delta.rs and index/delta/): which relations
    an index has after the delta computed from a view of it was applied to it,
    and when the application never returns. *)

From S2P Require Import Prelude MultiMap SortedVec Kinds EntityDiff DependencyGraph EdgeSet.
From S2P Require Import EntityIndex SymbolIndex RelationIndex DeltaDiff DeltaApply.
From stdpp Require Import fin_sets.
From Stdlib Require Import ZArith Lia.
#[local] Open Scope Z_scope.

Module DeltaReplay.
Import Kinds EdgeSet RelationIndex DeltaDiff DeltaApply.

#[local] Existing Instances SymbolIndex.SymbolKey_eq_dec SymbolIndex.SymbolKey_countable.

(** ** The relations after a replay *)

(** The edges that do not lead to a removed entity. *)
Definition keep_edges (removed : list EntityId) (es : list ResolvedRelation) :=
  Prelude.retain (λ r, match callee_id r with
                       | Some i => negb (bool_decide (i ∈ removed))
                       | None => true
                       end) es.

Lemma elem_of_keep removed es r :
  r ∈ keep_edges removed es ↔ r ∈ es ∧ ∀ i, callee_id r = Some i → i ∉ removed.
Proof.
  unfold keep_edges. rewrite elem_of_retain. destruct (callee_id r) as [i|]; [|naive_solver].
  rewrite negb_true_iff, bool_decide_eq_false. naive_solver.
Qed.

Lemma entries_NoDup es : NoDup (map relation_identity es) → NoDup (map edge_entry es).
Proof.
  intros Hnd. apply (NoDup_fmap_1 fst). unfold fmap. rewrite <- list_fmap_compose. exact Hnd.
Qed.

Section replay.
Context {StandardizedImport : Type}.
Context `{!SetIter EntityId, !SetIter string}.
Context {V : Type} `{!IndexView StandardizedImport V}.
Context (shard : EntityId → nat) (x : @RelationIndex StandardizedImport) (v : V).
Context (s0 : RelationStore) (scope : Scope).
Context (removed : list EntityId) (gone : list EntityId).

Abbreviation in_old c := (entity_in_scope v c scope = true).
Abbreviation in_new c := (entity_in_scope_new x c scope = true).
Abbreviation lost := (lost_edges x v scope (list_to_set removed)).
Abbreviation unbounded := (unbounded_edges v scope (list_to_set removed)).
Abbreviation gained := (gained_edges x v scope).

(** The edges of a caller that the replay should lead to. *)
Definition expected (c : EntityId) : list ResolvedRelation :=
  if entity_in_scope_new x c scope then edges_of c (relations x)
  else if entity_in_scope v c scope then [] else keep_edges removed (edges_of c s0).

(** The entities that are gone were in the scope, and the new edges are neither
    theirs nor lead to a removed one; no caller with edges enters the scope. *)
Record replayable : Prop := {
  replay_gone : ∀ c, c ∈ gone → in_old c ∧ edges_of c (relations x) = [];
  replay_removed : ∀ i, i ∈ removed → i ∈ gone;
  replay_targets : ∀ c i, i ∈ removed → ¬ mentions (edges_of c (relations x)) i;
  replay_moves : ∀ c, in_new c → ¬ in_old c → edges_of c s0 = [];
}.

Context (Hx : entries_ok (relations x)) (Hs0 : relations_ok s0) (Hv : relations_shown v s0).
Context (HR : replayable).
Context (s1 : RelationStore) (Hs1 : tracked (λ i, i ∈ removed) s1) (Hf1 : files_ok s1).
Context (He1 : ∀ c, edges_of c s1 = if decide (c ∈ gone) then [] else edges_of c s0).

Lemma lost_is r :
  r ∈ lost ↔ ∃ c, c ∉ removed ∧ in_old c ∧ r ∈ edges_of c s0 ∧ edge_entry r ∉ new_edge_map x scope.
Proof.
  rewrite (elem_of_lost x v s0 scope Hx Hv). by setoid_rewrite elem_of_list_to_set.
Qed.

Lemma unbounded_is r :
  r ∈ unbounded ↔
  ∃ i c, i ∈ removed ∧ ¬ in_old c ∧ r ∈ edges_of c s0 ∧ callee_id r = Some i.
Proof.
  rewrite (elem_of_unbounded v s0 scope Hv). setoid_rewrite elem_of_list_to_set. split.
  - intros (i & c & Hi & _ & Hc & Hr & Hri). eauto 10.
  - intros (i & c & Hi & Hc & Hr & Hri). exists i, c. split_and!; [done| |done..].
    apply (ok_reverse _ Hs0). by exists r.
Qed.

(** Which edges of a caller in the scope survive the removals. *)
Lemma kept_in_scope c r :
  in_old c → c ∉ gone →
  r ∈ without (map relation_identity (lost ++ unbounded)) (edges_of c s0) ↔
  r ∈ edges_of c s0 ∧ edge_entry r ∈ new_edge_map x scope.
Proof.
  intros Hc Hg. rewrite elem_of_without. split; intros [Hr Hcase]; (split; [done|]).
  - destruct (decide (edge_entry r ∈ new_edge_map x scope)) as [|Hn]; [done|]. destruct Hcase.
    apply list_elem_of_fmap_2, elem_of_app. left. apply lost_is. exists c.
    split_and!; [|done..]. intros Hi. by apply Hg, (replay_removed HR).
  - intros Hin. apply list_elem_of_fmap in Hin as (r' & Heq & Hr').
    apply elem_of_app in Hr' as [Hr'|Hr'].
    + apply lost_is in Hr' as (c' & _ & _ & Hr' & Hn).
      by rewrite (edges_identified s0 c c' r r' (ok_entries _ Hs0)) in Hcase.
    + apply unbounded_is in Hr' as (i & c' & _ & Hc' & Hr' & _).
      apply Hc'. rewrite <- (edge_caller s0 c' r') by (done || apply Hs0).
      rewrite <- (identity_caller_eq _ _ Heq). by rewrite (edge_caller s0 c r) by (done || apply Hs0).
Qed.

Lemma kept_out_of_scope c :
  ¬ in_old c →
  without (map relation_identity (lost ++ unbounded)) (edges_of c s0) =
  keep_edges removed (edges_of c s0).
Proof.
  intros Hc.
  assert (∀ r, r ∈ edges_of c s0 →
    relation_identity r ∉ map relation_identity (lost ++ unbounded) ↔
    ∀ i, callee_id r = Some i → i ∉ removed) as Hiff.
  { intros r Hr. rewrite list_elem_of_fmap. split.
    - intros Hn i Hi Hin. apply Hn. exists r. split; [done|]. apply elem_of_app. right.
      apply unbounded_is. eauto 10.
    - intros Hall (r' & Heq & Hr'). apply elem_of_app in Hr' as [Hr'|Hr'].
      + apply lost_is in Hr' as (c' & _ & Hc' & Hr' & _). apply Hc.
        rewrite <- (edge_caller s0 c r) by (done || apply Hs0). rewrite (identity_caller_eq _ _ Heq).
        by rewrite (edge_caller s0 c' r') by (done || apply Hs0).
      + apply unbounded_is in Hr' as (i & c' & Hi & _ & Hr' & Hri). apply (Hall i); [|done].
        by rewrite (edges_identified s0 c c' r r' (ok_entries _ Hs0)). }
  unfold without, keep_edges. revert Hiff. generalize (edges_of c s0).
  induction l as [|r l IH]; intros Hiff; [done|]. simpl.
  assert (negb (bool_decide (relation_identity r ∈ map relation_identity (lost ++ unbounded))) =
    match callee_id r with Some i => negb (bool_decide (i ∈ removed)) | None => true end) as ->.
  { apply eq_true_iff_eq. rewrite negb_true_iff, bool_decide_eq_false, Hiff by by left.
    destruct (callee_id r) as [i|]; [|naive_solver].
    rewrite negb_true_iff, bool_decide_eq_false. naive_solver. }
  rewrite IH; [done|]. intros r' Hr'. apply Hiff. by right.
Qed.
(** The state between the removals and the additions. *)
Section between.
Context (s2 : RelationStore) (Hs2 : tracked (λ i, i ∈ removed) s2).
Context (He2 : ∀ c, edges_of c s2 =
                    without (map relation_identity (lost ++ unbounded)) (edges_of c s1)).

Lemma gone_edges c : c ∈ gone → edges_of c s2 = [].
Proof. intros Hc. by rewrite He2, He1, decide_True. Qed.

Lemma not_gone_edges c :
  c ∉ gone →
  edges_of c s2 = without (map relation_identity (lost ++ unbounded)) (edges_of c s0).
Proof. intros Hc. by rewrite He2, He1, decide_False. Qed.

Lemma in_scope_edges c r :
  in_old c → r ∈ edges_of c s2 → r ∈ edges_of c s0 ∧ edge_entry r ∈ new_edge_map x scope.
Proof.
  intros Hc Hr. destruct (decide (c ∈ gone)) as [Hg|Hg].
  - rewrite gone_edges in Hr by done. by apply elem_of_nil in Hr.
  - rewrite not_gone_edges in Hr by done. by apply (kept_in_scope c r).
Qed.

Lemma out_of_scope_edges c : ¬ in_old c → edges_of c s2 = keep_edges removed (edges_of c s0).
Proof.
  intros Hc. rewrite not_gone_edges; [by apply kept_out_of_scope|].
  intros Hg. by apply Hc, (replay_gone HR).
Qed.

(** A new edge whose entry is in the new map is one of its caller. *)
Lemma new_map_edge c r :
  edge_entry r ∈ new_edge_map x scope → caller r = c →
  in_new c ∧ ∃ r', r' ∈ edges_of c (relations x) ∧ edge_entry r = edge_entry r'.
Proof.
  intros (d & r' & Hd & Hr' & Heq)%elem_of_new_map Hc.
  assert (d = c) as <-; [|eauto]. pose proof (identity_caller_eq r r') as Hid.
  apply pair_equal_spec in Heq as [Heq _]. rewrite <- Hc, (Hid Heq).
  symmetry. by apply (edge_caller (relations x)).
Qed.

Lemma nothing_leads_to_removed i c : i ∈ removed → ¬ mentions (edges_of c s2) i.
Proof.
  intros Hi (r & Hr & Hri). destruct (entity_in_scope v c scope) eqn:E.
  - apply in_scope_edges in Hr as [Hr Hin]; [|done].
    apply (new_map_edge c) in Hin as [_ (r' & Hr' & Heq)]; [|by apply (edge_caller s0); [apply Hs0|]].
    apply (replay_targets HR c i Hi). exists r'. split; [done|].
    apply pair_equal_spec in Heq as [Heq _]. unfold relation_identity in Heq. rewrite Hri in Heq.
    destruct (callee_id r') as [j|]; [congruence|]. by destruct (is_external r').
  - assert (¬ in_old c) as Hn by (rewrite E; done). rewrite out_of_scope_edges in Hr by done.
    apply elem_of_keep in Hr as [_ Hk]. by apply (Hk i).
Qed.

Lemma gained_agree : agree gained s2.
Proof.
  pose proof (new_map_functional x scope Hx) as Hfun.
  assert (Hnew : ∀ r, r ∈ gained → edge_entry r ∈ new_edge_map x scope ∧ in_new (caller r)).
  { intros r (c & Hc & Hr & _)%(elem_of_gained x v s0 scope); [|apply Hs0|done].
    rewrite (edge_caller _ _ _ Hx Hr). split; [|done]. apply elem_of_new_map. eauto. }
  split.
  - intros r e Hr He Heq. destruct (Hnew r Hr) as [Hin Hc].
    destruct (entity_in_scope v (caller r) scope) eqn:E.
    + apply in_scope_edges in He as [_ He]; [|done]. unfold edge_entry in *. rewrite Heq in *.
      f_equal. by apply (Hfun (relation_identity r)).
    + assert (¬ in_old (caller r)) as Hn by (rewrite E; done).
      rewrite out_of_scope_edges, (replay_moves HR) in He by done. by apply elem_of_nil in He.
  - intros r r' [Hin _]%Hnew [Hin' _]%Hnew Heq. unfold edge_entry in *. rewrite Heq in *.
    f_equal. by apply (Hfun (relation_identity r')).
Qed.

(** The entries of a caller after the additions. *)
Lemma entries_expected c p :
  p ∈ map edge_entry (edges_of c s2) ∨ (∃ r, r ∈ gained ∧ caller r = c ∧ p = edge_entry r) ↔
  p ∈ map edge_entry (expected c).
Proof.
  assert (Hgained : ∀ r, r ∈ gained ∧ caller r = c ↔
    in_new c ∧ r ∈ edges_of c (relations x) ∧ edge_entry r ∉ old_edge_map v scope).
  { intros r. rewrite (elem_of_gained x v s0 scope); [|apply Hs0|done]. split.
    - intros [(d & Hd & Hr & Hn) <-]. by rewrite (edge_caller _ _ _ Hx Hr).
    - intros (Hin & Hr & Hn). split; [eauto|]. by apply (edge_caller (relations x)). }
  assert (Hg : (∃ r, r ∈ gained ∧ caller r = c ∧ p = edge_entry r) ↔
    ∃ r, in_new c ∧ r ∈ edges_of c (relations x) ∧ edge_entry r ∉ old_edge_map v scope ∧
         p = edge_entry r).
  { split; intros (r & H).
    - destruct H as (H1 & H2 & H3). exists r. destruct (proj1 (Hgained r) (conj H1 H2)). tauto.
    - destruct H as (H1 & H2 & H3 & H4). exists r.
      destruct (proj2 (Hgained r) (conj H1 (conj H2 H3))). tauto. }
  rewrite Hg. clear Hg Hgained. unfold expected.
  destruct (entity_in_scope_new x c scope) eqn:En.
  - split.
    + intros [Hp|(r & _ & Hr & _ & ->)]; [|by apply list_elem_of_fmap_2].
      destruct (entity_in_scope v c scope) eqn:Eo.
      * apply list_elem_of_fmap in Hp as (r & -> & Hr). apply in_scope_edges in Hr as [Hr Hin]; [|done].
        apply (new_map_edge c) in Hin as [_ (r' & Hr' & ->)]; [by apply list_elem_of_fmap_2|].
        by apply (edge_caller s0); [apply Hs0|].
      * assert (¬ in_old c) as Hn by (rewrite Eo; done).
        rewrite out_of_scope_edges, (replay_moves HR) in Hp by done.
        by apply elem_of_nil in Hp.
    + intros (r & -> & Hr)%list_elem_of_fmap.
      destruct (decide (edge_entry r ∈ old_edge_map v scope)) as [Hin|Hn]; [left|right; by eauto].
      apply (elem_of_old_map v s0 scope Hv) in Hin as (d & e & Hd & He & Heq).
      assert (caller e = c) as Hec.
      { apply pair_equal_spec in Heq as [Heq _]. rewrite <- (identity_caller_eq _ _ Heq).
        by apply (edge_caller (relations x)). }
      assert (d = c) as ->.
      { rewrite <- Hec. symmetry. apply (edge_caller s0); [apply Hs0|done]. }
      apply list_elem_of_fmap. exists e. split; [done|].
      assert (c ∉ gone) as Hc.
      { intros Hc. destruct (replay_gone HR c Hc) as [_ Hnil]. rewrite Hnil in Hr.
        by apply elem_of_nil in Hr. }
      rewrite not_gone_edges by done. apply (kept_in_scope c e Hd Hc). split; [done|].
      rewrite <- Heq. apply elem_of_new_map. eauto.
  - destruct (entity_in_scope v c scope) eqn:Eo.
    + split; [|by intros ?%elem_of_nil]. intros [Hp|(r & Hn & _)]; [|done].
      apply list_elem_of_fmap in Hp as (r & -> & Hr). apply in_scope_edges in Hr as [Hr Hin]; [|done].
      apply (new_map_edge c) in Hin as [Hin _]; [congruence|].
      by apply (edge_caller s0); [apply Hs0|].
    + rewrite out_of_scope_edges by (rewrite Eo; done). split; [|by left].
      intros [|(r & Hn & _)]; [done|discriminate].
Qed.
End between.

Lemma replayed_relations s2 :
  apply_removed_relations shard (lost ++ unbounded) s1 = Some s2 →
  let s3 := apply_added_relations gained s2 in
  relations_ok s3 ∧ same_files s1 s3 ∧
  ∀ c, map edge_entry (edges_of c s3) ≡ₚ map edge_entry (expected c).
Proof.
  intros H1. destruct (removed_relations_spec shard _ (lost ++ unbounded) s1 s2 Hs1 H1) as (H2 & [H3 H4] & H5).
  cbv zeta.
  assert (Hok : relations_ok s2).
  { apply (tracked_relations (λ i, i ∈ removed)); [done|by apply (files_ok_eq s1)|].
    intros i c Hi. by apply (nothing_leads_to_removed s2 H5). }
  destruct (added_relations_spec gained s2 Hok (gained_agree s2 H5)) as (H6 & [H7 H8] & H9).
  split_and!; [done|split; congruence|]. intros c. apply NoDup_Permutation.
  - apply entries_NoDup, edges_distinct, H6.
  - apply entries_NoDup. unfold expected.
    destruct (entity_in_scope_new x c scope); [by apply edges_distinct|].
    destruct (entity_in_scope v c scope); [constructor|].
    apply map_retain_NoDup, edges_distinct, Hs0.
  - intros p. rewrite H9. by apply entries_expected.
Qed.
End replay.

(** ** Relations of files *)

Lemma elem_of_touched rs acc i : i ∈ foldl touch acc rs ↔ i ∈ acc ∨ mentions rs i.
Proof.
  revert acc. induction rs as [|r rs IH]; intros acc; simpl.
  { split; [by left|]. by intros [|?%mentions_nil]. }
  rewrite IH. assert (i ∈ touch acc r ↔ i ∈ acc ∨ callee_id r = Some i) as ->.
  { unfold touch. destruct (callee_id r) as [j|]; [|naive_solver].
    destruct (decide (j ∈ acc)); [naive_solver|]. rewrite elem_of_app, list_elem_of_singleton. naive_solver. }
  unfold mentions. setoid_rewrite elem_of_cons. naive_solver.
Qed.

Lemma retrack_spec path es m i j g :
  g ∈ values_at (retrack path es m i) j ↔
  if decide (j = i ∧ g = path) then mentions es i else g ∈ values_at m j.
Proof.
  unfold retrack. assert (existsb (λ r, bool_decide (callee_id r = Some i)) es = true ↔ mentions es i)
    as Hm.
  { rewrite existsb_exists. unfold mentions. setoid_rewrite list_elem_of_In.
    by setoid_rewrite bool_decide_eq_true. }
  destruct (existsb _ es); simpl; rewrite ?elem_of_add_value, elem_of_drop_value;
    destruct (decide _) as [[-> ->]|Hn]; try tauto.
  split; [tauto|]. intros Hes%Hm. done.
Qed.

Lemma retrack_all path es touched m :
  no_empty m →
  let m' := foldl (retrack path es) m touched in
  no_empty m' ∧ ∀ j g, g ∈ values_at m' j ↔
    if decide (j ∈ touched ∧ g = path) then mentions es j else g ∈ values_at m j.
Proof.
  cbv zeta. revert m. induction touched as [|i touched IH]; intros m Hm; cbn [foldl].
  { split; [done|]. intros j g. rewrite decide_False; [done|]. by intros [?%elem_of_nil _]. }
  destruct (IH (retrack path es m i)) as [H1 H2].
  { unfold retrack. simpl. destruct (existsb _ es); auto with cce. }
  split; [done|]. intros j g. rewrite H2. pose proof (retrack_spec path es m i j g) as H3.
  repeat case_decide; rewrite ?elem_of_cons in *; naive_solver.
Qed.

(** One diff on the edges of its file. *)
Definition replay_set (removed added : list ResolvedRelation) (es : RelationEdgeSet)
    : RelationEdgeSet :=
  foldl (λ es r, (insert r es).2)
    (foldl (λ es r, (remove_by_identity (relation_identity r) es).2) es removed) added.

Lemma removed_set_spec removed es :
  edge_set_ok es →
  let es' := foldl (λ es r, (remove_by_identity (relation_identity r) es).2) es removed in
  edge_set_ok es' ∧ edges es' = without (map relation_identity removed) (edges es).
Proof.
  cbv zeta. revert es. induction removed as [|r removed IH]; intros es Hes; cbn [foldl map].
  { split; [done|]. symmetry. by apply retain_all. }
  destruct (IH _ (remove_by_identity_ok (relation_identity r) es Hes)) as [H1 H2]. split; [done|].
  rewrite H2, remove_by_identity_edges, without_one by done. symmetry. apply without_cons.
Qed.

Lemma added_set_spec added es :
  edge_set_ok es →
  let es' := foldl (λ es r, (insert r es).2) es added in
  edge_set_ok es' ∧ (∀ i, mentions (edges es') i ↔ mentions (edges es) i ∨ mentions added i) ∧
  ((∀ r e, r ∈ added → e ∈ edges es → relation_identity e = relation_identity r →
           edge_entry e = edge_entry r) →
   (∀ r r', r ∈ added → r' ∈ added → relation_identity r = relation_identity r' →
            edge_entry r = edge_entry r') →
   ∀ p, p ∈ map edge_entry (edges es') ↔
        p ∈ map edge_entry (edges es) ∨ p ∈ map edge_entry added).
Proof.
  cbv zeta. revert es. induction added as [|r added IH]; intros es Hes; cbn [foldl map].
  { split_and!; [done| |]; intros *; [|intros _ _ p; rewrite elem_of_nil; tauto].
    split; [by left|]. by intros [|?%mentions_nil]. }
  destruct (IH _ (insert_ok r es Hes)) as (H1 & H2 & H3). split_and!; [done|..].
  - intros i. rewrite H2, insert_mentions by done. unfold mentions. setoid_rewrite elem_of_cons.
    naive_solver.
  - intros Ha Hb p. rewrite H3.
    + rewrite elem_of_cons. destruct (insert_spec r es Hes) as [(_ & -> & Hin)|(_ & -> & _)].
      * split; [tauto|]. intros [|[->|]]; [tauto| |tauto]. left.
        apply list_elem_of_fmap in Hin as (e & Heq & He). apply list_elem_of_fmap. exists e.
        split; [|done]. symmetry. by apply Ha; [left|..].
      * rewrite map_app, elem_of_app. simpl. rewrite list_elem_of_singleton. tauto.
    + intros r1 e Hr1 He Heq.
      destruct (insert_spec r es Hes) as [(_ & Hi & _)|(_ & Hi & _)]; rewrite Hi in He;
        [by apply Ha; [right|..]|].
      apply elem_of_app in He as [He|He%list_elem_of_singleton]; [by apply Ha; [right|..]|].
      subst e. apply Hb; [by left|by right|done].
    + intros r1 r2 Hr1 Hr2. apply Hb; by right.
Qed.

Lemma apply_file_diff_spec d s :
  files_ok s →
  let s' := apply_file_relation_diff s d in
  let p := relation_diff_path d in
  files_ok s' ∧ resolved_relation_index s' = resolved_relation_index s ∧
  reverse_callee_index s' = reverse_callee_index s ∧
  (∀ g, g ≠ p → file_edges_of g s' = file_edges_of g s) ∧
  ∃ es0, edge_set_ok es0 ∧ edges es0 = file_edges_of p s ∧
    file_edges_of p s' = edges (replay_set (removed_file_relations d) (added_file_relations d) es0).
Proof.
  intros [He Hne Hc]. cbv zeta. unfold apply_file_relation_diff.
  set (p := relation_diff_path d). set (es0 := default empty_edge_set (file_relation_index s !! p)).
  assert (Hes0 : edge_set_ok es0 ∧ edges es0 = file_edges_of p s).
  { subst es0. unfold file_edges_of. destruct (file_relation_index s !! p) as [es|] eqn:E; simpl;
      [split; [by apply (He p es)|done]|split; [apply empty_ok|done]]. }
  destruct Hes0 as [Hset Hedges].
  fold (replay_set (removed_file_relations d) (added_file_relations d) es0).
  destruct (removed_set_spec (removed_file_relations d) es0 Hset) as [Hset1 Hrem].
  destruct (added_set_spec (added_file_relations d) _ Hset1) as (Hset2 & Hadd & _).
  fold (replay_set (removed_file_relations d) (added_file_relations d) es0) in Hset2, Hadd.
  set (es := replay_set _ _ es0) in *. set (m := if is_empty es then _ else _).
  assert (Hm : match m !! p with Some es => edges es | None => [] end = edges es).
  { subst m. unfold is_empty. case_bool_decide as Hnil;
      [by rewrite lookup_delete_eq, Hnil|by rewrite lookup_insert_eq]. }
  assert (Hother : ∀ g, g ≠ p → m !! g = file_relation_index s !! g).
  { intros g Hg. subst m. destruct (is_empty es); [by rewrite lookup_delete_ne|by rewrite lookup_insert_ne]. }
  rewrite Hm. set (touched := foldl touch [] _).
  destruct (retrack_all p (edges es) touched (file_callers_by_callee s) Hne) as [Hne' Hval].
  assert (Hnow : ∀ i, i ∉ touched → mentions (edges es) i ↔ mentions (file_edges_of p s) i).
  { intros i Hi. assert (Hno : ¬ mentions (removed_file_relations d ++ added_file_relations d) i).
    { intros Hn. apply Hi, elem_of_touched. by right. }
    rewrite Hadd, Hrem, <- Hedges. split.
    - intros [Hk|(r & Hr & Hri)]; [by eapply mentions_without|]. destruct Hno. exists r.
      split; [apply elem_of_app; by right|done].
    - intros (r & Hr & Hri). left. exists r. split; [|done]. apply elem_of_without. split; [done|].
      intros (r' & Heq & Hr')%list_elem_of_fmap. destruct Hno. exists r'.
      split; [apply elem_of_app; by left|]. unfold relation_identity in Heq. rewrite Hri in Heq.
      destruct (callee_id r'); [congruence|]. by destruct (is_external r'). }
  split_and!; [split|done|done| |].
  - intros g es1. simpl. destruct (decide (g = p)) as [->|Hg]; [|rewrite Hother by done; apply He].
    subst m. unfold is_empty. case_bool_decide; [by rewrite lookup_delete_eq|].
    rewrite lookup_insert_eq. by intros [= <-].
  - done.
  - intros i g. simpl. rewrite Hval. unfold file_edges_of. simpl.
    destruct (decide (g = p)) as [->|Hg].
    + rewrite Hm. destruct (decide _) as [|Hn]; [done|]. rewrite Hnow by tauto. rewrite Hc. done.
    + rewrite Hother by done. rewrite decide_False by tauto. apply Hc.
  - intros g Hg. unfold file_edges_of. simpl. by rewrite Hother.
  - exists es0. split_and!; [done..|]. unfold file_edges_of at 1. simpl. exact Hm.
Qed.

Lemma apply_file_diffs_spec ds s :
  files_ok s → NoDup (map relation_diff_path ds) →
  let s' := apply_file_relation_diffs ds s in
  files_ok s' ∧ resolved_relation_index s' = resolved_relation_index s ∧
  reverse_callee_index s' = reverse_callee_index s ∧
  (∀ g, g ∉ map relation_diff_path ds → file_edges_of g s' = file_edges_of g s) ∧
  ∀ d, d ∈ ds → ∃ es0, edge_set_ok es0 ∧ edges es0 = file_edges_of (relation_diff_path d) s ∧
    file_edges_of (relation_diff_path d) s' =
    edges (replay_set (removed_file_relations d) (added_file_relations d) es0).
Proof.
  cbv zeta. unfold apply_file_relation_diffs. revert s.
  induction ds as [|d ds IH]; intros s Hs Hnd; cbn [foldl map] in *.
  { split_and!; [done..|]. by intros d ?%elem_of_nil. }
  apply NoDup_cons in Hnd as [Hd Hnd].
  destruct (apply_file_diff_spec d s Hs) as (H1 & H2 & H3 & H4 & H5).
  destruct (IH _ H1 Hnd) as (H6 & H7 & H8 & H9 & H10). split_and!; [done|congruence|congruence| |].
  - intros g Hg. apply not_elem_of_cons in Hg as [Hne Hg]. by rewrite H9, H4.
  - intros d' [->|Hd']%elem_of_cons; [by rewrite H9|]. destruct (H10 d' Hd') as (es0 & Ha & Hb & Hc).
    exists es0. split_and!; [done| |done]. rewrite Hb. apply H4. intros Heq. apply Hd. rewrite <- Heq.
    by apply list_elem_of_fmap_2.
Qed.

Lemma single_functional es : NoDup (map relation_identity es) → functional (extend [] es).
Proof.
  intros Hnd i c c' H1 H2. apply elem_of_extend in H1 as [(r & Hr & H1)|H1]; [|by apply elem_of_nil in H1].
  apply elem_of_extend in H2 as [(r' & Hr' & H2)|H2]; [|by apply elem_of_nil in H2].
  apply pair_equal_spec in H1 as [H1 ->], H2 as [H2 ->].
  rewrite (NoDup_map_inj relation_identity es r r'); congruence.
Qed.

Lemma entries_extend es p : p ∈ extend [] es ↔ p ∈ map edge_entry es.
Proof. rewrite elem_of_extend, elem_of_nil, list_elem_of_fmap. naive_solver. Qed.

Definition lost_of (old new : list ResolvedRelation) : list ResolvedRelation :=
  Prelude.retain (λ r, negb (edge_survives (extend [] new) r)) old.

Lemma elem_of_lost_of old new r :
  NoDup (map relation_identity new) →
  r ∈ lost_of old new ↔ r ∈ old ∧ edge_entry r ∉ map edge_entry new.
Proof.
  intros Hnd. unfold lost_of. rewrite elem_of_retain, not_survives by by apply single_functional.
  by rewrite entries_extend.
Qed.

(** Replaying the difference of two edge lists leads from one to the other. *)
Lemma replay_difference old new es0 :
  NoDup (map relation_identity old) → NoDup (map relation_identity new) →
  edge_set_ok es0 → edges es0 = old →
  map edge_entry (edges (replay_set (lost_of old new) (lost_of new old) es0)) ≡ₚ map edge_entry new.
Proof.
  intros Ho Hn Hset <-. set (old := edges es0) in *.
  destruct (removed_set_spec (lost_of old new) es0 Hset) as [H1 H2]. fold old in H2.
  destruct (added_set_spec (lost_of new old) _ H1) as (H3 & _ & H4). unfold replay_set.
  assert (Hkept : ∀ r, r ∈ without (map relation_identity (lost_of old new)) old ↔
    r ∈ old ∧ edge_entry r ∈ map edge_entry new).
  { intros r. rewrite elem_of_without. split; intros [Hr Hc]; (split; [done|]).
    - destruct (decide (edge_entry r ∈ map edge_entry new)) as [|Hne]; [done|]. destruct Hc.
      by apply list_elem_of_fmap_2, elem_of_lost_of.
    - intros (r' & Heq & [Hr' Hne]%(elem_of_lost_of old new r' Hn))%list_elem_of_fmap.
      by rewrite (NoDup_map_inj relation_identity old r r') in Hc. }
  assert (Hnew : ∀ r r', r ∈ new → edge_entry r' ∈ map edge_entry new →
    relation_identity r' = relation_identity r → edge_entry r' = edge_entry r).
  { intros r r' Hr (e & Heq & He)%list_elem_of_fmap Hid. rewrite Heq.
    pose proof Heq as Heq'. apply pair_equal_spec in Heq' as [Heq' _].
    rewrite (NoDup_map_inj relation_identity new r e); congruence. }
  apply NoDup_Permutation; [apply entries_NoDup, H3|by apply entries_NoDup|]. intros p. rewrite H4.
  - rewrite H2. split.
    + intros [(r & -> & Hr%Hkept)%list_elem_of_fmap|(r & -> & Hr)%list_elem_of_fmap]; [by apply Hr|].
      apply elem_of_lost_of in Hr as [Hr _]; [|done]. by apply list_elem_of_fmap_2.
    + intros (r & -> & Hr)%list_elem_of_fmap.
      destruct (decide (edge_entry r ∈ map edge_entry old)) as [Hin|Hin].
      * left. apply list_elem_of_fmap in Hin as (e & Heq & He). apply list_elem_of_fmap. exists e.
        split; [done|]. apply Hkept. split; [done|]. rewrite <- Heq. by apply list_elem_of_fmap_2.
      * right. by apply list_elem_of_fmap_2, elem_of_lost_of.
  - intros r e [Hr _]%(elem_of_lost_of new old r Ho) He Hid. rewrite H2 in He.
    apply Hkept in He as [_ He]. by apply Hnew.
  - intros r r' [Hr _]%(elem_of_lost_of new old r Ho) [Hr' _]%(elem_of_lost_of new old r' Ho) Hid.
    by rewrite (NoDup_map_inj relation_identity new r r').
Qed.

Section file_replay.
Context {StandardizedImport : Type}.
Context `{!SetIter EntityId, !SetIter string}.
Context {V : Type} `{!IndexView StandardizedImport V}.
Context (x : @RelationIndex StandardizedImport) (v : V) (s0 s1 : RelationStore) (scope : Scope).

Abbreviation diffs := (compute_file_relation_diff x v scope).

Lemma file_edges_distinct s f : files_ok s → NoDup (map relation_identity (file_edges_of f s)).
Proof.
  intros Hs. unfold file_edges_of. destruct (file_relation_index s !! f) as [es|] eqn:E; [|constructor].
  apply (ok_distinct _ (proj1 (ok_file_entries _ Hs f es E))).
Qed.

Lemma file_diff_is f :
  relations_shown v s0 →
  file_relation_diff x v f =
  {| relation_diff_path := f;
     removed_file_relations := lost_of (file_edges_of f s0) (file_edges_of f (relations x));
     added_file_relations := lost_of (file_edges_of f (relations x)) (file_edges_of f s0) |}.
Proof.
  intros Hv. unfold file_relation_diff, lost_of. rewrite (shown_file_relations _ _ Hv).
  assert (default [] (edges <$> file_relation_index (relations x) !! f) =
    file_edges_of f (relations x)) as ->; [|done].
  unfold file_edges_of. by destruct (file_relation_index (relations x) !! f).
Qed.

Lemma elem_of_scoped_paths ps f : f ∈ scoped_paths scope ps ↔ f ∈ ps ∧ file_in_scope scope f = true.
Proof. unfold scoped_paths. by rewrite elem_of_retain, elem_of_set_iter. Qed.

Lemma map_retain_sublist {A B : Type} (g : A → B) (p : A → bool) l :
  map g (Prelude.retain p l) `sublist_of` map g l.
Proof. apply sublist_map, retain_sublist. Qed.

Lemma diff_paths_distinct : NoDup (map relation_diff_path diffs).
Proof.
  eapply sublist_NoDup; [|apply map_retain_sublist]. rewrite map_map. simpl. rewrite map_id.
  eapply sublist_NoDup; [apply NoDup_set_iter|apply retain_sublist].
Qed.

Lemma diff_path_in_scope f : f ∈ map relation_diff_path diffs → file_in_scope scope f = true.
Proof.
  intros (d & -> & Hd)%list_elem_of_fmap. apply elem_of_retain in Hd as [Hd _].
  apply list_elem_of_fmap in Hd as (f & -> & Hf). apply elem_of_scoped_paths in Hf as [_ Hf]. exact Hf.
Qed.

(** A path of the scope without a diff has the same edges on both sides. *)
Lemma no_diff_same f :
  relations_shown v s0 → files_ok s0 → files_ok (relations x) →
  file_in_scope scope f = true → f ∉ map relation_diff_path diffs →
  map edge_entry (file_edges_of f s0) ≡ₚ map edge_entry (file_edges_of f (relations x)).
Proof.
  intros Hv Ho Hn Hin Hf.
  pose proof (file_edges_distinct s0 f Ho) as Hd0. pose proof (file_edges_distinct (relations x) f Hn) as Hd1.
  assert (lost_of (file_edges_of f s0) (file_edges_of f (relations x)) = [] ∧
          lost_of (file_edges_of f (relations x)) (file_edges_of f s0) = []) as [H1 H2].
  { destruct (decide (f ∈ list_to_set (C := gset string) (view_file_relations v).*1
                          ∪ dom (file_relation_index (relations x)))) as [Hp|Hp].
    - pose proof (file_diff_is f Hv) as Hd. destruct (lost_of (file_edges_of f s0) _) eqn:E1,
        (lost_of (file_edges_of f (relations x)) _) eqn:E2; [done|..]; exfalso; apply Hf;
        (apply list_elem_of_fmap; exists (file_relation_diff x v f); split; [done|];
         apply elem_of_retain; split;
         [by apply list_elem_of_fmap_2, elem_of_scoped_paths|by rewrite Hd]).
    - apply not_elem_of_union in Hp as [Hp1 Hp2].
      assert (file_edges_of f s0 = []) as ->.
      { rewrite elem_of_list_to_set, (shown_file_paths _ _ Hv) in Hp1.
        apply eq_None_not_Some in Hp1. unfold file_edges_of. by rewrite Hp1. }
      assert (file_edges_of f (relations x) = []) as ->; [|done].
      apply not_elem_of_dom in Hp2. unfold file_edges_of. by rewrite Hp2. }
  apply NoDup_Permutation; [by apply entries_NoDup..|]. intros p. split.
  - intros (r & -> & Hr)%list_elem_of_fmap.
    destruct (decide (edge_entry r ∈ map edge_entry (file_edges_of f (relations x)))) as [|Hne]; [done|].
    assert (r ∈ ([] : list ResolvedRelation)) as ?%elem_of_nil; [|done].
    rewrite <- H1. by apply elem_of_lost_of.
  - intros (r & -> & Hr)%list_elem_of_fmap.
    destruct (decide (edge_entry r ∈ map edge_entry (file_edges_of f s0))) as [|Hne]; [done|].
    assert (r ∈ ([] : list ResolvedRelation)) as ?%elem_of_nil; [|done].
    rewrite <- H2. by apply elem_of_lost_of.
Qed.

(** Replaying the file diffs on a store where the files of [dropped] were
    emptied before. *)
Lemma replayed_files (dropped : list string) :
  relations_shown v s0 → files_ok s0 → files_ok (relations x) → files_ok s1 →
  (∀ f, file_edges_of f s1 = if decide (f ∈ dropped) then [] else file_edges_of f s0) →
  (∀ f, f ∈ dropped → file_in_scope scope f = true ∧ file_edges_of f (relations x) = []) →
  let s' := apply_file_relation_diffs diffs s1 in
  files_ok s' ∧ resolved_relation_index s' = resolved_relation_index s1 ∧
  reverse_callee_index s' = reverse_callee_index s1 ∧
  ∀ f, if file_in_scope scope f
       then map edge_entry (file_edges_of f s') ≡ₚ map edge_entry (file_edges_of f (relations x))
       else file_edges_of f s' = file_edges_of f s0.
Proof.
  intros Hv Ho Hn H1 He Hdrop. cbv zeta.
  destruct (apply_file_diffs_spec diffs s1 H1 diff_paths_distinct) as (H2 & H3 & H4 & H5 & H6).
  split_and!; [done..|]. intros f. destruct (file_in_scope scope f) eqn:Ef.
  - destruct (decide (f ∈ map relation_diff_path diffs)) as [Hf|Hf].
    + apply list_elem_of_fmap in Hf as (d & -> & Hd). destruct (H6 d Hd) as (es0 & Ha & Hb & ->).
      apply elem_of_retain in Hd as [Hd _]. apply list_elem_of_fmap in Hd as (f & -> & _).
      rewrite file_diff_is in * by done. simpl in *. rewrite He in Hb.
      destruct (decide (f ∈ dropped)) as [Hin|_].
      * destruct (Hdrop f Hin) as [_ Hnil]. rewrite Hnil.
        unfold replay_set. simpl.
        destruct (removed_set_spec (lost_of (file_edges_of f s0) []) es0 Ha) as [_ ->]. by rewrite Hb.
      * apply replay_difference; [by apply file_edges_distinct..|done|done].
    + rewrite H5, He by done. destruct (decide (f ∈ dropped)) as [Hin|_]; [|by apply no_diff_same].
      by destruct (Hdrop f Hin) as [_ ->].
  - rewrite H5, He.
    + rewrite decide_False; [done|]. intros Hin. destruct (Hdrop f Hin). congruence.
    + intros Hf%diff_path_in_scope. congruence.
Qed.
End file_replay.

(** ** The whole delta *)

Section whole.
Context {StandardizedImport : Type} `{!EqDecision StandardizedImport}.
Context (sha256_hex : list Z → string) (shard : EntityId → nat).
Context `{!SetIter EntityId, !SetIter string}.
Abbreviation Index := (@RelationIndex StandardizedImport).
Implicit Types x y : Index.

Lemma take_file_spec f s :
  let s' := (take_file_relations f s).2 in
  resolved_relation_index s' = resolved_relation_index s ∧
  ∀ g, file_edges_of g s' = if decide (g = f) then [] else file_edges_of g s.
Proof.
  cbv zeta. unfold take_file_relations. destruct (file_relation_index s !! f) as [es|] eqn:E; simpl.
  - split; [done|]. intros g. rewrite file_edges_drop. apply decide_ext. split; congruence.
  - split; [done|]. intros g. destruct (decide (g = f)) as [->|]; [|done].
    unfold file_edges_of. by rewrite E.
Qed.

Lemma removed_files_relations ps x :
  relations_ok (relations x) →
  let x' := foldl apply_removed_file x ps in
  relations_ok (relations x') ∧
  resolved_relation_index (relations x') = resolved_relation_index (relations x) ∧
  ∀ f, file_edges_of f (relations x') = if decide (f ∈ ps) then [] else file_edges_of f (relations x).
Proof.
  cbv zeta. revert x. induction ps as [|p ps IH]; intros x Hx; cbn [foldl].
  { split_and!; [done..|]. intros f. by rewrite decide_False by apply not_elem_of_nil. }
  destruct (take_file_spec p (relations x)) as [H1 H2].
  destruct (IH (apply_removed_file x p)) as (H3 & H4 & H5); [by apply take_file_relations_ok|].
  simpl in H4, H5. split_and!; [done|congruence|]. intros f. rewrite H5, H2.
  repeat case_decide; rewrite ?elem_of_cons in *; naive_solver.
Qed.

Lemma added_files_stores fs x :
  let x' := foldl apply_added_file x fs in
  entities x' = entities x ∧ relations x' = relations x ∧ symbols x' = symbols x ∧
  dependency_graph x' = dependency_graph x.
Proof. cbv zeta. revert x. induction fs as [|f fs IH]; intros x; [done|]. apply (IH (apply_added_file x f)). Qed.

Lemma import_diffs_stores ds x :
  let x' := foldl apply_import_diff x ds in
  entities x' = entities x ∧ relations x' = relations x ∧ symbols x' = symbols x ∧
  dependency_graph x' = dependency_graph x.
Proof.
  cbv zeta. revert x. induction ds as [|d ds IH]; intros x; [done|]. cbn [foldl].
  destruct (IH (apply_import_diff x d)) as (-> & -> & -> & ->). unfold apply_import_diff.
  by destruct (file_records x !! _).
Qed.

Lemma export_diffs_stores ds x u :
  let x' := (foldl apply_export_diff (x, u) ds).1 in
  entities x' = entities x ∧ relations x' = relations x ∧ symbols x' = symbols x ∧
  dependency_graph x' = dependency_graph x.
Proof.
  cbv zeta. revert x u. induction ds as [|d ds IH]; intros x u; [done|]. cbn [foldl].
  unfold apply_export_diff at 2 4 6 8. destruct (file_records x !! _) as [r|]; [|apply IH].
  destruct (foldl (push_export _ _) _ _) as [exs u']. apply (IH (set_records _ x)).
Qed.

(** The stores after the entity changes of a delta. *)
Definition changed_stores (d : @SnapshotDelta StandardizedImport) x : Stores :=
  let x := foldl apply_removed_file x (removed_files d) in
  apply_renamed_entities sha256_hex (renamed_entities d)
    (apply_removed_entities sha256_hex (removed_entities d) (entities x, symbols x, relations x)).

Lemma apply_delta_blocks d x u :
  apply_removed_relations shard (removed_relations d) (changed_stores d x).2 = None →
  apply_delta sha256_hex shard d x u = None.
Proof.
  unfold changed_stores, apply_delta. set (x1 := foldl apply_removed_file x (removed_files d)).
  destruct (added_files_stores (added_files d) x1) as (-> & -> & -> & _).
  destruct (apply_removed_entities _ _ _) as [[es1 syms1] rels1].
  destruct (apply_renamed_entities _ _ _) as [[es2 syms2] rels2].
  destruct (apply_added_entities _ _ _) as [es3 syms3]. simpl. by intros ->.
Qed.

Lemma apply_delta_parts d x u rels :
  apply_removed_relations shard (removed_relations d) (changed_stores d x).2 = Some rels →
  ∃ x' u', apply_delta sha256_hex shard d x u = Some (x', u') ∧
    relations x' = apply_file_relation_diffs (file_relation_diffs d)
                     (apply_added_relations (added_relations d) rels) ∧
    (entities x', symbols x') =
      apply_added_entities sha256_hex (added_entities d) (changed_stores d x).1 ∧
    dependency_graph x' =
      foldl apply_dependency_diff
        (dependency_graph (foldl apply_removed_file x (removed_files d))) (dependency_diffs d).
Proof.
  unfold changed_stores, apply_delta. set (x1 := foldl apply_removed_file x (removed_files d)).
  destruct (added_files_stores (added_files d) x1) as (-> & -> & -> & Hg).
  destruct (apply_removed_entities _ _ _) as [[es1 syms1] rels1].
  destruct (apply_renamed_entities _ _ _) as [[es2 syms2] rels2]. cbn [fst snd].
  destruct (apply_added_entities _ _ _) as [es3 syms3]. intros Hr. rewrite Hr. simpl.
  match goal with |- context [foldl apply_import_diff ?y0 _] => set (y := y0) end.
  destruct (import_diffs_stores (import_diffs d) y) as (H1 & H2 & H3 & H4).
  set (z := foldl apply_import_diff y (import_diffs d)) in *.
  destruct (export_diffs_stores (export_diffs d) z u) as (H5 & H6 & H7 & H8).
  destruct (foldl apply_export_diff (z, u) (export_diffs d)) as [x' u']. simpl in *.
  eexists _, _. split; [done|]. simpl. split_and!.
  - by rewrite H6, H2.
  - by rewrite H5, H7, H1, H3.
  - by rewrite H8, H4, <- Hg.
Qed.

(** *** A delta between two indexes *)

Section between_indexes.
Context {V : Type} `{!IndexView StandardizedImport V}.
Context (x y : Index) (v : V) (e b : Z) (cfg : string) (scope : Scope).

Abbreviation delta := (compute_delta sha256_hex x v e b cfg scope).

(** The callers of an index are entities of it. *)
Definition callers_exist (z : Index) : Prop :=
  ∀ c, is_Some (resolved_relation_index (relations z) !! c) →
       is_Some (EntityIndex.function_index (entities z) !! c).

Definition keyed_by_id (z : Index) : Prop :=
  ∀ i en, EntityIndex.function_index (entities z) !! i = Some en → EntityDiff.id en = i.

(** What the comparison of [x] with the view [v] of [y] relies on: the indexes
    are consistent, the relations of [x] do not lead to entities [x] no longer
    has, and no caller with relations moves into the scope. *)
Record comparable : Prop := {
  comparable_old : relations_ok (relations y);
  comparable_new : relations_ok (relations x);
  comparable_view : presents v y;
  comparable_callers : callers_exist x;
  comparable_old_callers : callers_exist y;
  comparable_ids : keyed_by_id x;
  comparable_targets : ∀ c i,
    mentions (edges_of c (relations x)) i → i ∉ removed_entities delta;
  comparable_moves : ∀ c, entity_in_scope_new x c scope = true →
    entity_in_scope v c scope ≠ true → edges_of c (relations y) = [];
  comparable_files : ∀ f,
    f ∈ removed_files delta → file_edges_of f (relations x) = [];
}.

Lemma no_entry_no_edges c s : resolved_relation_index s !! c = None → edges_of c s = [].
Proof. unfold edges_of. by intros ->. Qed.

Lemma not_entity_no_entry z c :
  callers_exist z → EntityIndex.function_index (entities z) !! c = None →
  resolved_relation_index (relations z) !! c = None.
Proof.
  intros Hz Hc. apply eq_None_not_Some. intros Hs%Hz. rewrite Hc in Hs. by destruct Hs.
Qed.

(** The ids a delta takes away. *)
Abbreviation taken := (removed_entities delta ++ map old_id (renamed_entities delta)).

Lemma taken_ids :
  comparable →
  (∀ c, c ∈ taken → entity_in_scope v c scope = true ∧
        EntityIndex.function_index (entities x) !! c = None) ∧
  (∀ d, d ∈ renamed_entities delta →
        resolved_relation_index (relations y) !! new_id d = None).
Proof.
  intros HC. pose proof (presents_entities _ _ (comparable_view HC)) as Hv.
  destruct (entity_diff_spec sha256_hex x v scope _ Hv) as (pairs & H1 & _ & _ & H4 & H5).
  rewrite compute_delta_eq. simpl. split.
  - intros c Hc. rewrite <- H4 in Hc. apply list_elem_of_fmap in Hc as (m & -> & Hm).
    apply (elem_of_metas x v scope m _ Hv) in Hm as (en & _ & Hin & Hn & _). done.
  - rewrite H1. intros d ([m a] & -> & Hp)%list_elem_of_fmap. simpl.
    assert (a ∈ all_added sha256_hex x v scope) as Ha.
    { rewrite H5. apply elem_of_app. right. apply list_elem_of_fmap. by exists (m, a). }
    apply elem_of_news in Ha as (i & en & Hi & _ & Hn & ->). rewrite to_added_entity.
    rewrite (comparable_ids HC i en Hi). apply not_entity_no_entry; [apply (comparable_old_callers HC)|].
    rewrite (shown_contains _ _ Hv) in Hn. apply bool_decide_eq_false in Hn. by apply eq_None_not_Some.
Qed.

Lemma delta_replayable :
  comparable → replayable x v (relations y) scope (removed_entities delta) taken.
Proof.
  intros HC. destruct (taken_ids HC) as [Ht _]. split.
  - intros c [Hin Hn]%Ht. split; [done|]. apply no_entry_no_edges, not_entity_no_entry; [|done].
    apply (comparable_callers HC).
  - intros i Hi. apply elem_of_app. by left.
  - intros c i Hi Hm. by apply (comparable_targets HC c i).
  - apply (comparable_moves HC).
Qed.

(** The relations between the entity changes and the edge changes. *)
Lemma changed_relations :
  comparable →
  let s := (changed_stores delta y).2 in
  tracked (λ i, i ∈ removed_entities delta) s ∧ files_ok s ∧
  (∀ c, edges_of c s = if decide (c ∈ taken) then [] else edges_of c (relations y)) ∧
  ∀ f, file_edges_of f s =
       if decide (f ∈ removed_files delta) then [] else file_edges_of f (relations y).
Proof.
  intros HC. cbv zeta. unfold changed_stores.
  destruct (removed_files_relations (removed_files delta) y (comparable_old HC)) as (H1 & H2 & H3).
  set (z := foldl apply_removed_file y (removed_files delta)) in *.
  destruct (gone_relations sha256_hex (removed_entities delta) (renamed_entities delta)
    (entities z) (symbols z) (relations z) H1) as (H4 & [H5 H6] & H7).
  { intros d Hd. rewrite H2. by apply (taken_ids HC). }
  set (s := (apply_renamed_entities _ _ _).2) in *. clearbody s. split_and!; [done|..].
  - apply (files_ok_eq (relations z)); [done..|apply H1].
  - intros c. rewrite H7. unfold edges_of. by rewrite H2.
  - intros f. rewrite <- H3. unfold file_edges_of. by rewrite H5.
Qed.

Lemma removed_file_in_scope f :
  f ∈ removed_files delta → file_in_scope scope f = true.
Proof.
  rewrite compute_delta_eq. simpl. intros [_ Hf]%elem_of_retain. by apply andb_true_iff in Hf as [Hf _].
Qed.

(** A removed edge leads to an entity that keeps an entry in the shard of the
    edge's caller, whose lock the application holds. *)
Definition blocked : Prop :=
  held shard (removed_relations delta) (λ c, if decide (c ∈ taken) then [] else edges_of c (relations y)).

(** C6. Applying the delta between two indexes to the old one, whatever view the
    delta was computed from, blocks for ever exactly when an entry it visits is in
    a shard whose lock it holds. Otherwise it leads to the relations of the new
    one: a caller in the scope has its new edges with their contents, a caller
    outside keeps its edges except those to removed entities, and files likewise.
    The reverse indexes are exact. The indexes are [comparable]: consistent, the
    new relations do not lead to removed entities, callers with relations do not
    move into the scope and removed files have no relations any more. *)
Theorem delta_restores_relations u :
  comparable →
  match apply_delta sha256_hex shard delta y u with
  | None => blocked
  | Some (y', _) =>
      ¬ blocked ∧ relations_ok (relations y') ∧
      (∀ c, map edge_entry (edges_of c (relations y')) ≡ₚ
            map edge_entry (expected x v (relations y) scope (removed_entities delta) c)) ∧
      ∀ f, if file_in_scope scope f
           then map edge_entry (file_edges_of f (relations y')) ≡ₚ
                map edge_entry (file_edges_of f (relations x))
           else file_edges_of f (relations y') = file_edges_of f (relations y)
  end.
Proof.
  intros HC. destruct (changed_relations HC) as (H1 & H2 & H3 & H4).
  pose proof (presents_relations _ _ (comparable_view HC)) as Hv.
  pose proof (ok_entries _ (comparable_new HC)) as Hx.
  assert (Hrr : removed_relations delta =
    lost_edges x v scope (list_to_set (removed_entities delta)) ++
    unbounded_edges v scope (list_to_set (removed_entities delta))) by by rewrite compute_delta_eq.
  pose proof (removed_relations_outcome shard _ (removed_relations delta) _ H1) as Hout.
  destruct (apply_removed_relations shard (removed_relations delta) _) as [rels|] eqn:H5.
  2:{ rewrite (apply_delta_blocks delta y u H5). by eapply held_ext; [|exact Hout]. }
  destruct Hout as (_ & _ & _ & Hfree). rewrite Hrr in H5.
  destruct (replayed_relations shard x v (relations y) scope _ _ Hx (comparable_old HC) Hv
    (delta_replayable HC) _ H1 H2 H3 rels H5) as (H6 & [H7 H8] & H9).
  rewrite <- Hrr in H5.
  destruct (apply_delta_parts delta y u rels H5) as (y' & u' & -> & H11 & _).
  split. { intros Hb. apply Hfree. by eapply held_ext; [|exact Hb]. }
  rewrite H11. clear H11.
  assert (added_relations delta = gained_edges x v scope) as -> by by rewrite compute_delta_eq.
  assert (file_relation_diffs delta = compute_file_relation_diff x v scope) as ->
    by by rewrite compute_delta_eq.
  set (s := apply_added_relations _ rels) in *.
  destruct (replayed_files x v (relations y) s scope (removed_files delta)) as (Hf1 & Hf2 & Hf3 & Hf4).
  - done.
  - apply (comparable_old HC).
  - apply (comparable_new HC).
  - apply H6.
  - intros f. rewrite <- H4. unfold file_edges_of. by rewrite H7.
  - intros f Hf. split; [by apply removed_file_in_scope|by apply (comparable_files HC)].
  - set (s' := apply_file_relation_diffs _ s) in *.
    assert (He : ∀ c, edges_of c s' = edges_of c s) by (intros c; unfold edges_of; by rewrite Hf2).
    split_and!; [|intros c; by rewrite He|exact Hf4]. destruct H6 as [Ha Hb Hc Hd]. split.
    + intros c es. rewrite Hf2. apply Ha.
    + intros i l. rewrite Hf3. apply Hb.
    + intros i c. unfold callers_of. rewrite Hf3, He. apply Hc.
    + done.
Qed.

(** C27. A recursive function that loses one of several edges makes the application
    block for ever, however the entities are spread over the shards. *)
Theorem recursive_edge_removal_blocks u r :
  comparable → r ∈ removed_relations delta → callee_id r = Some (caller r) →
  caller r ∉ taken →
  (∃ en, en ∈ edges_of (caller r) (relations y) ∧
         relation_identity en ∉ map relation_identity (removed_relations delta)) →
  apply_delta sha256_hex shard delta y u = None.
Proof.
  intros HC Hr Hrec Hc (en & Hen & Hne). destruct (changed_relations HC) as (H1 & _ & H3 & _).
  apply apply_delta_blocks. apply (recursive_edge_in_list shard _ _ r _ H1 Hr Hrec).
  exists en. by rewrite H3, decide_False.
Qed.
End between_indexes.
End whole.

(** ** Examples *)

(** An index with the function 0 of a.rs and the function 1 of b.rs. *)
Definition demo_function (i : EntityId) (n : string) : Entity :=
  {| EntityDiff.id := i; EntityDiff.kind := KindFunction; EntityDiff.name := n;
     EntityDiff.signature := ""; EntityDiff.parameters := []; EntityDiff.return_type := None;
     EntityDiff.span := EntityIndex.demo_span 1 3; EntityDiff.depth := 0;
     EntityDiff.parent := None; EntityDiff.children := []; EntityDiff.doc_comment := None;
     EntityDiff.modifiers := []; EntityDiff.attributes := ∅; EntityDiff.metadata := ∅;
     EntityDiff.is_stdlib := false; EntityDiff.stdlib_category := None;
     EntityDiff.subtype := None |}.

Definition demo_with (rels : list ResolvedRelation) : @RelationIndex unit :=
  {| entities :=
       EntityIndex.add_function_with_path 1 (demo_function 1 "g") "b.rs"
         (EntityIndex.add_function_with_path 0 (demo_function 0 "f") "a.rs" EntityIndex.new);
     relations := add_resolved_relations rels new_relations;
     symbols := SymbolIndex.new_registry; file_records := ∅; dependency_graph := Graph.new |}.

#[local] Instance demo_iter_id : SetIter EntityId := elements_iter.
#[local] Instance demo_iter_file : SetIter string := elements_iter.
#[local] Instance demo_view : IndexView unit (@RelationIndex unit) := index_view.

Lemma callers_exist_check (z : @RelationIndex unit) :
  dom (resolved_relation_index (relations z)) ⊆ dom (EntityIndex.function_index (entities z)) →
  callers_exist z.
Proof. intros Hz c Hc%elem_of_dom. by apply elem_of_dom, Hz. Qed.

(** Over the whole project nothing is removed when both sides have the same
    entities. *)
Lemma demo_comparable old new e b cfg :
  dom (resolved_relation_index (relations (demo_with old))) ⊆ {[0; 1]} →
  dom (resolved_relation_index (relations (demo_with new))) ⊆ {[0; 1]} →
  comparable SymbolIndex.demo_hash (demo_with new) (demo_with old) (demo_with old) e b cfg None.
Proof.
  intros Ho Hn. pose proof new_relations_ok as H0.
  assert (Hdom : ∀ rels, dom (EntityIndex.function_index (entities (demo_with rels))) = {[0; 1]})
    by (intros rels; apply (bool_decide_unpack _); vm_compute; exact I).
  split.
  - by apply add_resolved_all_ok.
  - by apply add_resolved_all_ok.
  - apply index_presents_itself.
  - apply callers_exist_check. by rewrite Hdom.
  - apply callers_exist_check. by rewrite Hdom.
  - assert (map_Forall (λ i en, EntityDiff.id en = i)
      (EntityIndex.function_index (entities (demo_with new)))) as Hall; [|exact Hall].
    apply (bool_decide_unpack _). vm_compute. exact I.
  - intros c i _ Hi.
    assert (i ∈ ([] : list EntityId)) as Hi'; [|by apply elem_of_nil in Hi'].
    revert Hi. rewrite compute_delta_eq. vm_compute. done.
  - intros c _ Hc. by destruct Hc.
  - intros f Hf. rewrite compute_delta_eq in Hf. vm_compute in Hf. by apply elem_of_nil in Hf.
Qed.

(** The function 1 calls 0 twice; later once, and more often. *)
Definition busy (r : ResolvedRelation) : ResolvedRelation :=
  {| caller := caller r; callee_id := callee_id r; callee_name := callee_name r;
     relation_type := relation_type r; relation_span := relation_span r;
     is_external := is_external r; external_type := external_type r;
     callee_symbol := callee_symbol r; stdlib_category := stdlib_category r;
     owner_type := owner_type r; call_context := call_context r;
     overload_signature := overload_signature r; call_frequency := call_frequency r + 1;
     cfg_condition := cfg_condition r |}.

Definition demo_old : @RelationIndex unit :=
  demo_with [call_edge 1 0 DirectCall 100; call_edge 1 0 DirectCall 120].
Definition demo_new : @RelationIndex unit := demo_with [busy (call_edge 1 0 DirectCall 100)].

Theorem delta_restores_relations_witness :
  ∃ y' u',
    apply_delta SymbolIndex.demo_hash Z.to_nat
      (compute_delta SymbolIndex.demo_hash demo_new demo_old 2 1 "cfg" None) demo_old 0
      = Some (y', u') ∧
    map edge_entry (edges_of 1 (relations y')) ≡ₚ
    [edge_entry (busy (call_edge 1 0 DirectCall 100))].
Proof.
  assert (HC : comparable SymbolIndex.demo_hash demo_new demo_old demo_old 2 1 "cfg" None)
    by (apply demo_comparable; apply (bool_decide_unpack _); vm_compute; exact I).
  pose proof (delta_restores_relations SymbolIndex.demo_hash Z.to_nat demo_new demo_old demo_old
    2 1 "cfg" None 0 HC) as H.
  destruct (apply_delta _ _ _ demo_old 0) as [[y' u']|] eqn:E.
  - exists y', u'. split; [reflexivity|]. destruct H as (_ & _ & H & _). apply (H 1).
  - vm_compute in E. discriminate E.
Defined.

(** The function 0 calls itself twice, later once. *)
Definition demo_recursive (calls : list Z) : @RelationIndex unit :=
  demo_with (map (call_edge 0 0 DirectCall) calls).

Theorem recursive_edge_removal_blocks_witness :
  apply_delta SymbolIndex.demo_hash Z.to_nat
    (compute_delta SymbolIndex.demo_hash (demo_recursive [100]) (demo_recursive [100; 120]) 2 1
       "cfg" None) (demo_recursive [100; 120]) 0 = None.
Proof.
  assert (HC : comparable SymbolIndex.demo_hash (demo_recursive [100]) (demo_recursive [100; 120])
    (demo_recursive [100; 120]) 2 1 "cfg" None)
    by (apply demo_comparable; apply (bool_decide_unpack _); vm_compute; exact I).
  apply (recursive_edge_removal_blocks SymbolIndex.demo_hash Z.to_nat _ _ _ 2 1 "cfg" None 0
    (call_edge 0 0 DirectCall 120) HC).
  - vm_compute. by left.
  - reflexivity.
  - vm_compute. by intros ?%elem_of_nil.
  - exists (call_edge 0 0 DirectCall 100). split; [vm_compute; by left|].
    apply (bool_decide_unpack _). vm_compute. exact I.
Defined.

End DeltaReplay.
