(* ===== verification/DeltaEntities.v ===== *)
(** * Replaying a delta on entities, files and dependencies

    What [apply_delta] (crates/parser/cce-codegraph/src/index/delta.rs and
    index/delta/) does to the entities, the symbol keys and the dependencies of
    an index, and where the result is not the index the delta was computed
    from: entities taken for renamed ones, edges of files outside of the scope,
    and details of an edge that are not compared. *)

From S2P Require Import Prelude MultiMap SortedVec Kinds EntityDiff DependencyGraph EdgeSet.
From S2P Require Import EntityIndex SymbolIndex RelationIndex DeltaDiff DeltaApply DeltaReplay.
From stdpp Require Import fin_sets.
From Stdlib Require Import ZArith Lia.
#[local] Open Scope Z_scope.

Module DeltaEntities.
Import Kinds EdgeSet RelationIndex DeltaDiff DeltaApply DeltaReplay.

#[local] Existing Instances SymbolIndex.SymbolKey_eq_dec SymbolIndex.SymbolKey_countable.

(** ** Entities *)

Lemma removed_functions ids es i :
  EntityIndex.function_index (EntityIndex.remove_entities ids es) !! i =
  if decide (i ∈ ids) then None else EntityIndex.function_index es !! i.
Proof.
  unfold EntityIndex.remove_entities. revert es. induction ids as [|j ids IH]; intros es; cbn [foldl].
  { by rewrite decide_False by apply not_elem_of_nil. }
  rewrite IH. assert (EntityIndex.function_index (EntityIndex.remove_entity j es) =
    delete j (EntityIndex.function_index es)) as ->.
  { unfold EntityIndex.remove_entity, EntityIndex.remove_function. simpl.
    destruct (EntityIndex.function_index es !! j) as [en|] eqn:E; simpl.
    - destruct (EntityIndex.entity_file_index es !! j); [|done].
      by rewrite (proj1 (EntityIndex.untrack_fields _ _ _)).
    - by rewrite delete_id. }
  repeat case_decide; rewrite ?elem_of_cons, ?lookup_delete_None in *; try naive_solver.
  rewrite lookup_delete_ne; [done|naive_solver].
Qed.

Lemma unlist_key_idemp key m :
  SymbolIndex.unlist_key key (SymbolIndex.unlist_key key m) = SymbolIndex.unlist_key key m.
Proof.
  unfold SymbolIndex.unlist_key. destruct (m !! SymbolIndex.file_path key) as [ks|] eqn:E; [|by rewrite E].
  destruct (decide _) as [Hn|Hn]; [by rewrite lookup_delete_eq|]. rewrite lookup_insert_eq.
  assert (Prelude.retain (λ k, negb (bool_decide (k = key)))
    (Prelude.retain (λ k, negb (bool_decide (k = key))) ks) =
    Prelude.retain (λ k, negb (bool_decide (k = key))) ks) as ->.
  { apply retain_all. by intros k [_ Hk]%elem_of_retain. }
  by rewrite decide_False, insert_insert_eq.
Qed.

Section stores.
Context (sha256_hex : list Z → string) `{!SetIter EntityId}.

(** The entities and the keys do not depend on the relations. *)
Lemma removed_entities_store ids es syms s :
  (apply_removed_entities sha256_hex ids (es, syms, s)).1.1 = EntityIndex.remove_entities ids es.
Proof.
  unfold apply_removed_entities, EntityIndex.remove_entities. revert es syms s.
  induction ids as [|i ids IH]; intros es syms s; [done|]. cbn [foldl].
  unfold apply_removed_entity at 2. unfold remove_function, EntityIndex.remove_entity at 2. cbn [fst snd].
  destruct (EntityIndex.remove_function i es) as [[en|] es']; apply IH.
Qed.

(** A delta removes the keys of an entity as the removal of its file does. *)
Lemma drop_keys_eq i s :
  drop_keys sha256_hex i s = SymbolIndex.remove_entities sha256_hex [i] s ∧
  drop_keys sha256_hex i (SymbolIndex.unlist_entity i s) =
    SymbolIndex.remove_entities sha256_hex [i] s.
Proof.
  unfold drop_keys, SymbolIndex.remove_entities, SymbolIndex.unlist_entity. simpl.
  unfold SymbolIndex.forget_entity.
  destruct (SymbolIndex.entity_to_symbol_key s !! i) as [key|] eqn:E; simpl; rewrite ?E; simpl.
  - by rewrite unlist_key_idemp.
  - done.
Qed.

Lemma removed_keys_ok ids es syms s :
  SymbolIndex.registry_ok syms →
  SymbolIndex.registry_ok (apply_removed_entities sha256_hex ids (es, syms, s)).1.2.
Proof.
  unfold apply_removed_entities. revert es syms s.
  induction ids as [|i ids IH]; intros es syms s Hs; [done|]. cbn [foldl].
  unfold apply_removed_entity at 2, remove_function. cbn [fst snd].
  destruct (EntityIndex.remove_function i es) as [[en|] es']; apply IH;
    [rewrite (proj2 (drop_keys_eq i syms))|rewrite (proj1 (drop_keys_eq i syms))];
    by apply SymbolIndex.remove_entities_spec.
Qed.

(** An addition under a new id is the registration of the entity in its file. *)
Lemma added_entity_eq a es syms :
  EntityIndex.function_index es !! EntityDiff.id (added_entity a) = None →
  (apply_added_entity sha256_hex (es, syms) a).1 =
  EntityIndex.add_function_with_path (EntityDiff.id (added_entity a)) (added_entity a)
    (added_path a) es.
Proof.
  intros Ha. unfold apply_added_entity, EntityIndex.add_function_with_path,
    EntityIndex.add_function, EntityIndex.untrack_existing. by rewrite Ha.
Qed.

Lemma added_function a es syms :
  EntityIndex.function_index (apply_added_entity sha256_hex (es, syms) a).1 =
  <[EntityDiff.id (added_entity a) := added_entity a]> (EntityIndex.function_index es).
Proof.
  unfold apply_added_entity, EntityIndex.insert_function. simpl.
  by destruct (EntityIndex.ensure_counter_spec (wrap64 (EntityDiff.id (added_entity a) + 1))
    (EntityIndex.set_functions
       (<[EntityDiff.id (added_entity a) := added_entity a]> (EntityIndex.function_index es))
       (EntityIndex.add_name (EntityIndex.entity_name (added_entity a))
          (EntityDiff.id (added_entity a))
          (EntityIndex.drop_stale_name (EntityDiff.id (added_entity a)) (added_entity a) es)) es))
    as (_ & -> & _).
Qed.

Definition added_ids (l : list AddedEntity) : list EntityId :=
  map (λ a, EntityDiff.id (added_entity a)) l.

Lemma added_functions l es syms :
  NoDup (added_ids l) →
  let es' := (apply_added_entities sha256_hex l (es, syms)).1 in
  (∀ a, a ∈ l → EntityIndex.function_index es' !! EntityDiff.id (added_entity a) =
                Some (added_entity a)) ∧
  ∀ i, i ∉ added_ids l → EntityIndex.function_index es' !! i = EntityIndex.function_index es !! i.
Proof.
  cbv zeta. unfold apply_added_entities, added_ids. revert es syms.
  induction l as [|a l IH]; intros es syms Hnd; cbn [foldl map] in *.
  { split; [by intros a ?%elem_of_nil|done]. }
  apply NoDup_cons in Hnd as [Ha Hnd]. pose proof (added_function a es syms) as HF.
  destruct (apply_added_entity sha256_hex (es, syms) a) as [es1 syms1]. simpl in HF.
  destruct (IH es1 syms1 Hnd) as [H1 H2]. split.
  - intros a' [->|Ha']%elem_of_cons; [|by apply H1]. rewrite H2, HF by done. apply lookup_insert_eq.
  - intros i [Hne Hi]%not_elem_of_cons. rewrite H2, HF by done. by apply lookup_insert_ne.
Qed.

Lemma added_stores_ok l es syms :
  EntityIndex.wf es → SymbolIndex.registry_ok syms → NoDup (added_ids l) →
  (∀ i, i ∈ added_ids l → 0 ≤ i < u64_max ∧ EntityIndex.function_index es !! i = None) →
  let st := apply_added_entities sha256_hex l (es, syms) in
  EntityIndex.wf st.1 ∧ SymbolIndex.registry_ok st.2.
Proof.
  cbv zeta. unfold apply_added_entities, added_ids. revert es syms.
  induction l as [|a l IH]; intros es syms He Hs Hnd Hl; cbn [foldl map] in *; [done|].
  apply NoDup_cons in Hnd as [Ha Hnd]. pose proof (added_function a es syms) as HF.
  destruct (Hl _ ltac:(by left)) as [Hrange Hfresh].
  pose proof (added_entity_eq a es syms Hfresh) as Heq.
  pose proof (EntityIndex.wf_add_entity (EntityDiff.id (added_entity a)) (added_entity a)
    (added_path a) es Hrange He) as Hwf. rewrite <- Heq in Hwf.
  assert (SymbolIndex.registry_ok (apply_added_entity sha256_hex (es, syms) a).2) as Hreg
    by (unfold apply_added_entity; simpl; by apply SymbolIndex.register_ok).
  destruct (apply_added_entity sha256_hex (es, syms) a) as [es1 syms1]. simpl in *.
  apply IH; [done..|]. intros i Hi. destruct (Hl i ltac:(by right)) as [H1 H2]. split; [done|].
  rewrite HF, lookup_insert_ne; [done|]. intros Heqi. by rewrite Heqi in Ha.
Qed.
End stores.

Section replayed.
Context {StandardizedImport : Type} `{!EqDecision StandardizedImport}.
Context (sha256_hex : list Z → string) (shard : EntityId → nat).
Context `{!SetIter EntityId, !SetIter string}.
Context {V : Type} `{!IndexView StandardizedImport V}.
Abbreviation Index := (@RelationIndex StandardizedImport).
Context (x y : Index) (v : V) (e b : Z) (cfg : string) (scope : Scope).

Abbreviation delta := (compute_delta sha256_hex x v e b cfg scope).
Abbreviation functions z := (EntityIndex.function_index (entities (z : Index))).

(** Every result of an application comes from the parts of the delta. *)
Lemma apply_delta_inv (d : @SnapshotDelta StandardizedImport) (z : Index) u (z' : Index) u' :
  apply_delta sha256_hex shard d z u = Some (z', u') →
  (entities z', symbols z') =
    apply_added_entities sha256_hex (added_entities d) (changed_stores sha256_hex d z).1.
Proof.
  intros Ha. destruct (apply_removed_relations shard (removed_relations d)
    (changed_stores sha256_hex d z).2) as [rels|] eqn:E.
  - destruct (apply_delta_parts sha256_hex shard d z u rels E) as (z1 & u1 & H1 & _ & H2 & _). congruence.
  - rewrite (apply_delta_blocks sha256_hex shard d z u E) in Ha. done.
Qed.

Lemma removed_files_functions ps (z : Index) :
  functions (foldl apply_removed_file z ps) = functions z.
Proof. revert z. induction ps as [|p ps IH]; intros z; [done|]. cbn [foldl]. by rewrite IH. Qed.

(** Without renames the entities only lose the removed ones. *)
Lemma changed_without_renames (d : @SnapshotDelta StandardizedImport) (z : Index) :
  renamed_entities d = [] →
  let st := changed_stores sha256_hex d z in
  st.1.1 = EntityIndex.remove_entities (removed_entities d)
             (entities (foldl apply_removed_file z (removed_files d))) ∧
  (SymbolIndex.registry_ok (symbols (foldl apply_removed_file z (removed_files d))) →
   SymbolIndex.registry_ok st.1.2).
Proof.
  intros Hr. cbv zeta. unfold changed_stores. rewrite Hr. cbn [apply_renamed_entities foldl].
  set (z1 := foldl apply_removed_file z (removed_files d)).
  pose proof (removed_entities_store sha256_hex (removed_entities d) (entities z1) (symbols z1)
    (relations z1)) as H1.
  pose proof (removed_keys_ok sha256_hex (removed_entities d) (entities z1) (symbols z1)
    (relations z1)) as H2.
  destruct (apply_removed_entities _ _ _) as [[es syms] s]. simpl in *. done.
Qed.

Lemma in_scope_new_ids :
  keyed_by_id x → added_ids (all_added sha256_hex x v scope) `sublist_of` (entries (functions x)).*1.
Proof.
  intros Hk. unfold all_added, added_ids.
  assert (∀ l, (∀ p, p ∈ l → functions x !! p.1 = Some p.2) →
    map (λ a, EntityDiff.id (added_entity a))
      (omap (λ p : EntityId * Entity, if entity_in_scope_new x p.1 scope &&
                  negb (view_function_contains v p.1)
                then Some (to_added sha256_hex x p.1 p.2) else None) l) `sublist_of` l.*1) as Hl.
  { induction l as [|[i en] l IH]; intros Hin; csimpl; [constructor|].
    assert (map (λ a, EntityDiff.id (added_entity a)) (omap (λ p : EntityId * Entity,
      if entity_in_scope_new x p.1 scope && negb (view_function_contains v p.1)
      then Some (to_added sha256_hex x p.1 p.2) else None) l) `sublist_of` l.*1) as IH'.
    { apply IH. intros p Hp. apply Hin. by right. }
    destruct (_ && _); csimpl; [|by apply sublist_cons]. rewrite to_added_entity.
    rewrite (Hk i en (Hin (i, en) ltac:(by left))). by apply sublist_skip. }
  apply Hl. intros [i en] Hi. by apply elem_of_entries.
Qed.

Lemma added_is_news :
  renamed_entities delta = [] → entities_shown v (entities y) →
  all_added sha256_hex x v scope ≡ₚ added_entities delta.
Proof.
  intros Hr Hv. destruct (entity_diff_spec sha256_hex x v scope _ Hv) as (pairs & H1 & _ & _ & _ & H2).
  revert Hr. rewrite compute_delta_eq. simpl. intros Hr. rewrite H1 in Hr.
  apply map_eq_nil in Hr as ->. simpl in H2. by rewrite app_nil_r in H2.
Qed.

(** The entities a delta adds, by their ids. *)
Lemma added_by_id :
  renamed_entities delta = [] → entities_shown v (entities y) → keyed_by_id x →
  NoDup (added_ids (added_entities delta)) ∧
  (∀ i, i ∈ added_ids (added_entities delta) ↔
        is_Some (functions x !! i) ∧ entity_in_scope_new x i scope = true ∧ functions y !! i = None) ∧
  ∀ a, a ∈ added_entities delta →
       functions x !! EntityDiff.id (added_entity a) = Some (added_entity a).
Proof.
  intros Hr Hv Hk. pose proof (added_is_news Hr Hv) as Hp.
  assert (Hnews : ∀ a, a ∈ added_entities delta ↔ ∃ i en, functions x !! i = Some en ∧
    entity_in_scope_new x i scope = true ∧ functions y !! i = None ∧ a = to_added sha256_hex x i en).
  { intros a. rewrite <- Hp, elem_of_news. setoid_rewrite (shown_contains _ _ Hv).
    unfold EntityIndex.contains_function. setoid_rewrite bool_decide_eq_false.
    by setoid_rewrite eq_None_not_Some. }
  split_and!.
  - unfold added_ids. rewrite <- (Permutation_map _ Hp).
    eapply sublist_NoDup; [|by apply in_scope_new_ids]. apply NoDup_entries.
  - intros i. unfold added_ids. rewrite list_elem_of_fmap. setoid_rewrite Hnews. split.
    + intros (a & -> & j & en & Hj & Hin & Hn & ->). rewrite to_added_entity, (Hk j en Hj). eauto.
    + intros ([en Hi] & Hin & Hn). exists (to_added sha256_hex x i en).
      rewrite to_added_entity, (Hk i en Hi). eauto 10.
  - intros a (i & en & Hi & _ & _ & ->)%Hnews. by rewrite to_added_entity, (Hk i en Hi).
Qed.

(** Whatever is renamed, a delta adds an entity once, and only one that the old
    index does not have and the delta does not take away. *)
Lemma computed_ids :
  entities_shown v (entities y) → keyed_by_id x →
  NoDup (added_ids (added_entities delta)) ∧
  ∀ i, i ∈ added_ids (added_entities delta) →
       i ∉ removed_entities delta ∧ functions y !! i = None.
Proof.
  intros Hv Hk. destruct (entity_diff_spec sha256_hex x v scope _ Hv) as (pairs & _ & _ & _ & H1 & H2).
  rewrite compute_delta_eq. cbn [added_entities removed_entities].
  assert (Hnd : NoDup (added_ids (all_added sha256_hex x v scope))).
  { eapply sublist_NoDup; [|by apply in_scope_new_ids]. apply NoDup_entries. }
  unfold added_ids in Hnd |- *. rewrite (Permutation_map _ H2), map_app in Hnd.
  apply NoDup_app in Hnd as (Hnd & _ & _). split; [done|].
  intros i (a & -> & Ha)%list_elem_of_fmap.
  assert (a ∈ all_added sha256_hex x v scope) as (j & en & Hj & _ & Hn & ->)%elem_of_news
    by (rewrite H2; apply elem_of_app; by left).
  rewrite to_added_entity, (Hk j en Hj). split.
  - intros Hin. assert (j ∈ map meta_id (removed_metas x v scope)) as (m & -> & Hm)%list_elem_of_fmap
      by (rewrite H1; apply elem_of_app; by left).
    apply (elem_of_metas x v scope m _ Hv) in Hm as (en' & _ & _ & Hnone & _). congruence.
  - rewrite (shown_contains _ _ Hv) in Hn. unfold EntityIndex.contains_function in Hn.
    apply bool_decide_eq_false in Hn. by apply eq_None_not_Some.
Qed.

(** C29. Without renames, and with the new entities keyed by their ids, the old
    index has afterwards the new entities of the scope beside its own, less the
    removed ones; when no file is removed its entity maps and its symbol
    registry stay consistent. *)
Theorem delta_restores_entities u y' u' :
  presents v y → keyed_by_id x → renamed_entities delta = [] →
  apply_delta sha256_hex shard delta y u = Some (y', u') →
  (∀ i, functions y' !! i =
     if decide (i ∈ removed_entities delta) then None
     else match functions y !! i with
          | Some en => Some en
          | None => if entity_in_scope_new x i scope then functions x !! i else None
          end) ∧
  (index_ok y → EntityIndex.wf (entities x) → removed_files delta = [] →
   EntityIndex.wf (entities y') ∧ SymbolIndex.registry_ok (symbols y')).
Proof.
  intros Hv Hk Hr Ha. apply apply_delta_inv in Ha. pose proof (presents_entities _ _ Hv) as Hve.
  destruct (changed_without_renames delta y Hr) as [H1 H2].
  destruct (added_by_id Hr Hve Hk) as (H3 & H4 & H5).
  destruct (changed_stores sha256_hex delta y) as [[es syms] s]. cbn [fst snd] in *. subst es.
  set (es := EntityIndex.remove_entities _ _) in *.
  assert (He : ∀ i, EntityIndex.function_index es !! i =
    if decide (i ∈ removed_entities delta) then None else functions y !! i).
  { intros i. subst es. by rewrite removed_functions, removed_files_functions. }
  assert (Hgone : ∀ i, i ∈ removed_entities delta → i ∉ added_ids (added_entities delta)).
  { intros i Hi (Hx & _)%H4.
    destruct (entity_diff_spec sha256_hex x v scope _ Hve) as (pairs & _ & _ & _ & H6 & _).
    assert (i ∈ map meta_id (removed_metas x v scope)) as Hm.
    { rewrite H6. apply elem_of_app. left. by rewrite compute_delta_eq in Hi. }
    apply list_elem_of_fmap in Hm as (m & -> & Hm).
    apply (elem_of_metas x v scope m _ Hve) in Hm as (en & _ & _ & Hn & _). rewrite Hn in Hx. by destruct Hx. }
  split.
  - intros i. destruct (added_functions sha256_hex (added_entities delta) es syms H3) as [Hin Hout].
    destruct (apply_added_entities _ _ (es, syms)) as [es' syms']. injection Ha as Hy _. rewrite Hy. simpl in *.
    destruct (decide (i ∈ added_ids (added_entities delta))) as [Hi|Hi].
    + rewrite decide_False by (intros Hd; by apply (Hgone i)).
      pose proof Hi as (_ & Hs & Hn)%H4. rewrite Hn, Hs.
      apply list_elem_of_fmap in Hi as (a & -> & Hi). by rewrite (Hin a Hi), (H5 a Hi).
    + rewrite Hout, He by done. destruct (decide _); [done|].
      destruct (functions y !! i) eqn:Ey; [done|]. destruct (entity_in_scope_new x i scope) eqn:Es; [|done].
      destruct (functions x !! i) eqn:Ex; [|done]. destruct Hi. apply H4. eauto.
  - intros [Hwf _ Hreg] Hx Hf. rewrite Hf in H2. simpl in H2.
    destruct (added_stores_ok sha256_hex (added_entities delta) es syms) as [H6 H7].
    + subst es. rewrite Hf. simpl. by apply EntityIndex.removed_entities_spec.
    + by apply H2.
    + done.
    + intros i Hi. pose proof Hi as (Hs & _ & Hn)%H4. split.
      * pose proof (EntityIndex.wf_ids _ Hx i Hs). pose proof (EntityIndex.wf_counter _ Hx). lia.
      * rewrite He. by destruct (decide _).
    + destruct (apply_added_entities _ _ (es, syms)) as [es' syms']. injection Ha as -> ->. done.
Qed.
(** Every entity of the scope that disappears is removed or renamed, once, and
    every one that appears is added or takes over a renamed one, once. *)
Theorem entity_diff_accounts :
  entities_shown v (entities y) → keyed_by_id x →
  NoDup (removed_entities delta ++ map old_id (renamed_entities delta)) ∧
  NoDup (added_ids (added_entities delta) ++ map new_id (renamed_entities delta)) ∧
  (∀ i, i ∈ removed_entities delta ++ map old_id (renamed_entities delta) ↔
        is_Some (functions y !! i) ∧ entity_in_scope v i scope = true ∧ functions x !! i = None) ∧
  (∀ i, i ∈ added_ids (added_entities delta) ++ map new_id (renamed_entities delta) ↔
        is_Some (functions x !! i) ∧ entity_in_scope_new x i scope = true ∧ functions y !! i = None).
Proof.
  intros Hv Hk. destruct (entity_diff_spec sha256_hex x v scope _ Hv) as (pairs & Hp & _ & _ & Hm & Hn).
  assert (removed_entities delta ++ map old_id (renamed_entities delta) ≡ₚ
          map meta_id (removed_metas x v scope)) as Ho by (rewrite Hm; by rewrite compute_delta_eq).
  assert (added_ids (added_entities delta) ++ map new_id (renamed_entities delta) ≡ₚ
          added_ids (all_added sha256_hex x v scope)) as Ha.
  { unfold added_ids. rewrite (Permutation_map (λ a, EntityDiff.id (added_entity a)) Hn), map_app.
    rewrite compute_delta_eq. simpl. rewrite Hp. unfold fmap. by rewrite !map_map. }
  split_and!.
  - rewrite Ho. by apply (NoDup_meta_ids x v scope (entities y)).
  - rewrite Ha. eapply sublist_NoDup; [|by apply in_scope_new_ids]. apply NoDup_entries.
  - intros i. rewrite Ho, list_elem_of_fmap. setoid_rewrite (λ m, elem_of_metas x v scope m _ Hv).
    split; [intros (m & -> & en & -> & Hin & Hnone & _); eauto|].
    intros ([en Hi] & Hin & Hnone).
    exists {| meta_id := i; meta_name := EntityIndex.entity_name en; meta_kind := EntityDiff.kind en;
              meta_file := default "" (EntityIndex.entity_file_index (entities y) !! i);
              meta_line := line_of en |}. eauto 10.
  - intros i. rewrite Ha. unfold added_ids. rewrite list_elem_of_fmap. setoid_rewrite elem_of_news.
    setoid_rewrite (shown_contains _ _ Hv). unfold EntityIndex.contains_function.
    setoid_rewrite bool_decide_eq_false. setoid_rewrite <- eq_None_not_Some. split.
    + intros (a & -> & j & en & Hj & Hin & Hnone & ->). rewrite to_added_entity, (Hk j en Hj). eauto.
    + intros ([en Hi] & Hin & Hnone). exists (to_added sha256_hex x i en).
      rewrite to_added_entity, (Hk i en Hi). eauto 10.
Qed.

(** *** Entities taken for renamed ones *)

(** The only entities of the scope that disappear are [a] and [a'], the only
    ones that appear are [c] and [c']; [a] and [c] have one name, [a'] and [c']
    another one, and all are of one kind in one file. The entities [ea] and
    [ea'] start close to each other, and so do [ec] and [ec']. *)
Record neighbours (a a' c c' : EntityId) (ea ea' ec ec' : Entity) (file : string) : Prop := {
  neighbour_ids : a ≠ a' ∧ c ≠ c';
  neighbour_old : functions y !! a = Some ea ∧ functions y !! a' = Some ea';
  neighbour_new : functions x !! c = Some ec ∧ functions x !! c' = Some ec';
  neighbour_fresh : functions y !! c = None ∧ functions y !! c' = None ∧
                    functions x !! a = None ∧ functions x !! a' = None;
  neighbour_gone : ∀ i, is_Some (functions y !! i) → entity_in_scope v i scope = true →
                        functions x !! i = None → i = a ∨ i = a';
  neighbour_come : ∀ i, is_Some (functions x !! i) → entity_in_scope_new x i scope = true →
                        functions y !! i = None → i = c ∨ i = c';
  neighbour_scope : file_in_scope scope file = true;
  neighbour_files : EntityIndex.entity_file_index (entities y) !! a = Some file ∧
                    EntityIndex.entity_file_index (entities y) !! a' = Some file ∧
                    EntityIndex.entity_file_index (entities x) !! c = Some file ∧
                    EntityIndex.entity_file_index (entities x) !! c' = Some file;
  neighbour_names : EntityIndex.entity_name ea = EntityIndex.entity_name ec ∧
                    EntityIndex.entity_name ea' = EntityIndex.entity_name ec' ∧
                    EntityIndex.entity_name ea ≠ EntityIndex.entity_name ea';
  neighbour_kinds : EntityDiff.kind ea = EntityDiff.kind ec' ∧
                    EntityDiff.kind ea' = EntityDiff.kind ec;
  neighbour_lines : line_distance (line_of ea) (line_of ec') ≤ 2 ∧
                    line_distance (line_of ea') (line_of ec) ≤ 2;
}.

Lemma member_of_scope f : file_in_scope scope f = true → member_in_scope scope (Some f) = true.
Proof. unfold file_in_scope, member_in_scope. by destruct scope. Qed.

(** The path an added entity is reported with. *)
Lemma to_added_path i en f :
  EntityIndex.entity_file_index (entities x) !! i = Some f →
  added_path (to_added sha256_hex x i en) = f.
Proof. intros Hf. unfold to_added. rewrite Hf. by case_match. Qed.

Definition meta_of (i : EntityId) (en : Entity) (f : string) : RemovedMeta :=
  {| meta_id := i; meta_name := EntityIndex.entity_name en; meta_kind := EntityDiff.kind en;
     meta_file := f; meta_line := line_of en |}.

(** Whether two entities of a file look like one renamed. *)
Lemma is_rename_in_file i en j en' f :
  EntityIndex.entity_file_index (entities x) !! j = Some f →
  is_rename (meta_of i en f) (to_added sha256_hex x j en') =
  bool_decide (EntityDiff.kind en = EntityDiff.kind en')
  && (line_distance (line_of en) (line_of en') <=? 2)
  && negb (bool_decide (EntityIndex.entity_name en = EntityIndex.entity_name en')).
Proof.
  intros Hf. unfold is_rename. rewrite (to_added_path j en' f Hf), to_added_entity.
  cbn [meta_file meta_kind meta_line meta_name meta_of]. by rewrite bool_decide_true.
Qed.

Lemma neighbours_listed a a' c c' ea ea' ec ec' file :
  presents v y → keyed_by_id x → neighbours a a' c c' ea ea' ec ec' file →
  removed_metas x v scope ≡ₚ [meta_of a ea file; meta_of a' ea' file] ∧
  all_added sha256_hex x v scope ≡ₚ [to_added sha256_hex x c ec; to_added sha256_hex x c' ec'].
Proof.
  intros Hv Hk Hn. pose proof (presents_entities _ _ Hv) as Hve.
  destruct Hn as [[Hia Hic] [Hoa Hoa'] [Hnc Hnc'] (Hfc & Hfc' & Hfa & Hfa') Hgone Hcome Hsc
    (Hf1 & Hf2 & Hf3 & Hf4) (Hname & Hname' & Hdiff) _ _].
  pose proof (member_of_scope file Hsc) as Hm. split.
  - apply NoDup_Permutation.
    + apply (NoDup_fmap_1 meta_id). apply (NoDup_meta_ids x v scope _ Hve).
    + apply NoDup_cons. split; [|apply NoDup_singleton]. rewrite list_elem_of_singleton.
      intros [=]. done.
    + intros m. rewrite (elem_of_metas x v scope m _ Hve). rewrite elem_of_cons, list_elem_of_singleton.
      split.
      * intros (en & Hi & Hin & Hx & ->). simpl in *.
        destruct (Hgone (meta_id m)) as [Heq|Heq]; [by rewrite Hi|done|done|left|right];
          rewrite Heq in *; simplify_eq; unfold meta_of; [by rewrite Hf1|by rewrite Hf2].
      * unfold entity_in_scope. rewrite !(shown_file_of _ _ Hve).
        intros [-> | ->]; simpl; [exists ea|exists ea']; rewrite ?Hf1, ?Hf2; done.
  - apply NoDup_Permutation.
    + apply (NoDup_fmap_1 (λ t, EntityDiff.id (added_entity t))).
      eapply sublist_NoDup; [|by apply in_scope_new_ids]. apply NoDup_entries.
    + apply NoDup_cons. split; [|apply NoDup_singleton]. rewrite list_elem_of_singleton.
      intros Heq%(f_equal added_entity). rewrite !to_added_entity in Heq. congruence.
    + intros t. rewrite elem_of_news, elem_of_cons, list_elem_of_singleton.
      setoid_rewrite (shown_contains _ _ Hve). unfold EntityIndex.contains_function.
      setoid_rewrite bool_decide_eq_false. setoid_rewrite <- eq_None_not_Some. split.
      * intros (i & en & Hi & Hin & Hy & ->). destruct (Hcome i) as [->| ->]; simplify_eq; eauto.
      * unfold entity_in_scope_new. intros [-> | ->]; [exists c, ec|exists c', ec'];
          rewrite ?Hf3, ?Hf4; done.
Qed.
Lemma renamed_functions ds es syms s :
  EntityIndex.function_index (apply_renamed_entities sha256_hex ds (es, syms, s)).1.1 =
  foldl (λ m d, move_key (old_id d) (new_id d) m) (EntityIndex.function_index es) ds.
Proof.
  assert (∀ st : Stores, EntityIndex.function_index (foldl (apply_renamed_entity sha256_hex) st ds).1.1 =
    foldl (λ m d, move_key (old_id d) (new_id d) m) (EntityIndex.function_index st.1.1) ds) as Hall.
  { induction ds as [|d ds IH]; intros [[es0 syms0] s0]; [done|]. cbn [foldl]. by rewrite IH. }
  unfold apply_renamed_entities. specialize (Hall (es, syms, s)). simpl in Hall. rewrite <- Hall.
  by destruct (foldl _ (es, syms, s) ds) as [[es' syms'] s'].
Qed.

(** The matching of two entities on either side that fit crosswise only. *)
Lemma match_two m m' t t' metas news :
  is_rename m t = false → is_rename m' t' = false → is_rename m t' = true → is_rename m' t = true →
  metas ≡ₚ [m; m'] → news ≡ₚ [t; t'] →
  ∃ pairs matched, match_renames metas news [] [] = (pairs, matched) ∧
    pairs ≡ₚ [(m, t'); (m', t)] ∧ matched ≠ [] ∧ drop_indices matched 0 news = [].
Proof.
  intros H1 H2 H3 H4 Hm Hn. symmetry in Hm, Hn. apply Permutation_length_2_inv in Hm as [-> | ->],
    Hn as [-> | ->]; cbn [match_renames find_rename]; rewrite ?H1, ?H2, ?H3, ?H4, ?andb_true_r,
    ?andb_false_r; simpl; rewrite ?H1, ?H2, ?H3, ?H4; simpl.
  all: eexists _, _; split; [reflexivity|]; split_and!; [|done|reflexivity]; try done; by constructor.
Qed.

(** C17. Two entities of one kind that start within two lines of each other are
    taken for renamed into each other when their file is read again unchanged,
    in whatever order the hash maps are visited: nothing is removed or added,
    and after the delta each of the two new ids holds the other entity. *)
Theorem reread_neighbours_are_swapped a a' c c' ea ea' ec ec' file u y' u' :
  presents v y → keyed_by_id x → neighbours a a' c c' ea ea' ec ec' file →
  removed_entities delta = [] ∧ added_entities delta = [] ∧
  renamed_entities delta ≡ₚ
    [rename_of (meta_of a ea file, to_added sha256_hex x c' ec');
     rename_of (meta_of a' ea' file, to_added sha256_hex x c ec)] ∧
  (apply_delta sha256_hex shard delta y u = Some (y', u') →
   functions y' !! c' = Some ea ∧ functions y' !! c = Some ea').
Proof.
  intros Hv Hk Hn. destruct (neighbours_listed a a' c c' ea ea' ec ec' file Hv Hk Hn) as [Hm Ha].
  destruct Hn as [[Hia Hic] [Hoa Hoa'] [Hnc Hnc'] (Hfc & Hfc' & Hfa & Hfa') _ _ Hsc
    (Hf1 & Hf2 & Hf3 & Hf4) (Hname & Hname' & Hdiff) [Hkind Hkind'] [Hline Hline']].
  set (m := meta_of a ea file) in *. set (m' := meta_of a' ea' file) in *.
  set (t := to_added sha256_hex x c ec) in *. set (t' := to_added sha256_hex x c' ec') in *.
  assert (is_rename m t = false ∧ is_rename m' t' = false ∧
               is_rename m t' = true ∧ is_rename m' t = true) as (Hmt & Hmt' & Hr & Hr').
  { subst m m' t t'.
    rewrite !(is_rename_in_file _ _ c _ file Hf3), !(is_rename_in_file _ _ c' _ file Hf4).
    split_and!.
    - rewrite Hname, (bool_decide_true (EntityIndex.entity_name ec = _)) by done. apply andb_false_r.
    - rewrite Hname', (bool_decide_true (EntityIndex.entity_name ec' = _)) by done. apply andb_false_r.
    - rewrite (bool_decide_true (EntityDiff.kind _ = _)), (proj2 (Z.leb_le _ _) Hline) by done.
      by rewrite bool_decide_false by congruence.
    - rewrite (bool_decide_true (EntityDiff.kind _ = _)), (proj2 (Z.leb_le _ _) Hline') by done.
      by rewrite bool_decide_false by congruence. }
  destruct (match_two m m' t t' _ _ Hmt Hmt' Hr Hr' Hm Ha) as (pairs & matched & H1 & H2 & H3 & H4).
  assert (Hd : compute_entity_diff sha256_hex x v scope = ([], [], map rename_of pairs)).
  { unfold compute_entity_diff. rewrite H1.
    assert (Hids : map meta_id (removed_metas x v scope) ⊆ map old_id (map rename_of pairs)).
    { intros i Hi. rewrite Hm in Hi. rewrite map_map. simpl. rewrite H2. set_solver. }
    destruct matched as [|k matched]; [done|]. rewrite H4.
    destruct (map rename_of pairs) as [|r rs] eqn:Er.
    - assert (length pairs = 2%nat) as Hl by (rewrite H2; done).
      rewrite <- (length_map rename_of pairs), Er in Hl. done.
    - rewrite retain_none; [done|]. intros i Hi. apply negb_false_iff, bool_decide_eq_true. auto. }
  rewrite compute_delta_eq. unfold compare_indexes. rewrite Hd. cbn [fst snd].
  split_and!; [done..| |].
  { change (map rename_of pairs ≡ₚ map rename_of [(m, t'); (m', t)]). by rewrite H2. }
  intros Hap. apply apply_delta_inv in Hap. cbn [added_entities apply_added_entities foldl] in Hap.
  unfold changed_stores in Hap. cbn [removed_entities renamed_entities apply_removed_entities foldl] in Hap.
  apply (f_equal (λ st, EntityIndex.function_index st.1)) in Hap. cbn [fst] in Hap.
  rewrite renamed_functions, removed_files_functions in Hap. rewrite Hap.
  assert (Hnew : new_id (rename_of (m, t')) = c' ∧ new_id (rename_of (m', t)) = c).
  { subst t t'. cbn. rewrite !to_added_entity. split; by apply Hk. }
  destruct Hnew as [Hn1 Hn2].
  assert (c' ≠ a' ∧ c' ≠ a ∧ c ≠ a' ∧ c ≠ a) as (Hne1 & Hne2 & Hne3 & Hne4)
    by (split_and!; congruence).
  assert (Hcross : ∀ m0 : gmap EntityId Entity, m0 !! a = Some ea → m0 !! a' = Some ea' →
    move_key a' c (move_key a c' m0) !! c' = Some ea ∧
    move_key a' c (move_key a c' m0) !! c = Some ea' ∧
    move_key a c' (move_key a' c m0) !! c' = Some ea ∧
    move_key a c' (move_key a' c m0) !! c = Some ea').
  { intros m0 Ha1 Ha2. unfold move_key. rewrite Ha1, Ha2.
    rewrite !(lookup_insert_ne _ c'), !(lookup_insert_ne _ c), !(lookup_delete_ne _ a),
      !(lookup_delete_ne _ a'), Ha1, Ha2 by done.
    by rewrite !lookup_insert_eq, !lookup_insert_ne, !lookup_delete_ne, !lookup_insert_eq by done. }
  destruct (Hcross (functions y) Hoa Hoa') as (C1 & C2 & C3 & C4).
  symmetry in H2. apply Permutation_length_2_inv in H2 as [-> | ->]; cbn [map foldl];
    rewrite Hn1, Hn2; done.
Qed.
(** *** Relations the delta does not look at *)

(** The states of the relations on the way to the result. *)
Lemma replay_states u y' u' :
  comparable sha256_hex x y v e b cfg scope →
  apply_delta sha256_hex shard delta y u = Some (y', u') →
  ∃ rels, relations_ok rels ∧ same_files (changed_stores sha256_hex delta y).2 rels ∧
    (∀ c, edges_of c rels =
          without (map relation_identity (removed_relations delta))
            (edges_of c (changed_stores sha256_hex delta y).2)) ∧
    relations y' = apply_file_relation_diffs (file_relation_diffs delta)
                     (apply_added_relations (added_relations delta) rels).
Proof.
  intros HC Ha.
  destruct (changed_relations sha256_hex x y v e b cfg scope HC) as (T1 & T2 & T3 & _).
  destruct (apply_removed_relations shard (removed_relations delta) (changed_stores sha256_hex delta y).2)
    as [rels|] eqn:H1; [|by rewrite (apply_delta_blocks _ _ _ _ _ H1) in Ha].
  destruct (removed_relations_spec shard _ _ _ _ T1 H1) as (H2 & [H3 H4] & H5).
  destruct (apply_delta_parts sha256_hex shard delta y u rels H1) as (z1 & u1 & H6 & H7 & _).
  exists rels. split_and!; [|done..|congruence].
  apply (tracked_relations (λ i, i ∈ removed_entities delta)); [done| |].
  - by apply (files_ok_eq (changed_stores sha256_hex delta y).2).
  - intros i c Hi. apply (nothing_leads_to_removed shard x v (relations y) scope _ _
      (ok_entries _ (comparable_new _ _ _ _ _ _ _ _ HC)) (comparable_old _ _ _ _ _ _ _ _ HC)
      (presents_relations _ _ (comparable_view _ _ _ _ _ _ _ _ HC))
      (delta_replayable sha256_hex x y v e b cfg scope HC) _ T3 rels); [|done].
    intros d. rewrite H5. by rewrite compute_delta_eq.
Qed.

Lemma added_relations_files rs s : same_files s (apply_added_relations rs s).
Proof.
  unfold apply_added_relations. revert s. induction rs as [|r rs IH]; intros s; [done|]. cbn [foldl].
  destruct (IH (add_resolved_relation r s)) as [H1 H2], (add_resolved_files r s) as [H3 H4].
  split; congruence.
Qed.

Lemma file_diffs_edges ds s c : edges_of c (apply_file_relation_diffs ds s) = edges_of c s.
Proof.
  unfold apply_file_relation_diffs. revert s. induction ds as [|d ds IH]; intros s; [done|].
  cbn [foldl]. by rewrite IH.
Qed.

(** The relations of the files outside of the scope. *)
Lemma outside_file_edges f u y' u' :
  comparable sha256_hex x y v e b cfg scope →
  apply_delta sha256_hex shard delta y u = Some (y', u') →
  file_in_scope scope f = false → file_edges_of f (relations y') = file_edges_of f (relations y).
Proof.
  intros HC Ha Hf. destruct (replay_states u y' u' HC Ha) as (rels & H1 & [H2 H3] & _ & ->).
  destruct (changed_relations sha256_hex x y v e b cfg scope HC) as (_ & _ & _ & T4).
  set (s := apply_added_relations _ rels).
  destruct (added_relations_files (added_relations delta) rels) as [H6 H7]. fold s in H6, H7.
  assert (file_relation_diffs delta = compute_file_relation_diff x v scope) as ->
    by by rewrite compute_delta_eq.
  destruct (replayed_files x v (relations y) s scope (removed_files delta)) as (_ & _ & _ & H8).
  - apply (presents_relations _ _ (comparable_view _ _ _ _ _ _ _ _ HC)).
  - apply (comparable_old _ _ _ _ _ _ _ _ HC).
  - apply (comparable_new _ _ _ _ _ _ _ _ HC).
  - by apply (files_ok_eq rels); [..|apply H1].
  - intros g. rewrite <- T4. unfold file_edges_of. by rewrite H6, H2.
  - intros g Hg. split; [by eapply removed_file_in_scope|].
    by apply (comparable_files _ _ _ _ _ _ _ _ HC).
  - specialize (H8 f). by rewrite Hf in H8.
Qed.

(** A removed entity is not among the entities of the result. *)
Lemma removed_entity_is_gone i u y' u' :
  comparable sha256_hex x y v e b cfg scope → renamed_entities delta = [] →
  i ∈ removed_entities delta → apply_delta sha256_hex shard delta y u = Some (y', u') →
  functions y' !! i = None.
Proof.
  intros HC Hren Hi Ha. apply apply_delta_inv in Ha.
  destruct (changed_without_renames delta y Hren) as [H6 _].
  pose proof (presents_entities _ _ (comparable_view _ _ _ _ _ _ _ _ HC)) as Hve.
  destruct (added_by_id Hren Hve (comparable_ids _ _ _ _ _ _ _ _ HC)) as (H7 & H8 & _).
  destruct (changed_stores sha256_hex delta y) as [[es syms] s]. cbn [fst snd] in *.
  destruct (added_functions sha256_hex (added_entities delta) es syms H7) as [_ H9].
  rewrite <- Ha in H9. cbn [fst] in H9. rewrite H9.
  - rewrite H6, removed_functions. by rewrite decide_True.
  - intros ([en Hx] & _)%H8. destruct (taken_ids sha256_hex x y v e b cfg scope HC) as [Ht _].
    destruct (Ht i) as [_ Hnone]; [apply elem_of_app; by left|]. congruence.
Qed.

(** A relation of a file outside of the scope stays even when the entity it
    leads to is removed: such a snapshot is not valid. *)
Theorem file_edges_outside_scope_dangle `{!SetIter SymbolKey} f i u y' u' :
  comparable sha256_hex x y v e b cfg scope → renamed_entities delta = [] →
  file_in_scope scope f = false → mentions (file_edges_of f (relations y)) i →
  i ∈ removed_entities delta → apply_delta sha256_hex shard delta y u = Some (y', u') →
  mentions (file_edges_of f (relations y')) i ∧ validate_snapshot y' ≠ Ok tt.
Proof.
  intros HC Hren Hf Hm Hi Ha. rewrite (outside_file_edges f u y' u') by done.
  split; [done|]. rewrite validate_ok. intros Hv. destruct (valid_file_targets _ Hv f i) as [en Hs].
  - by rewrite (outside_file_edges f u y' u').
  - by rewrite (removed_entity_is_gone i u y' u') in Hs.
Qed.

Lemma added_keeps rs s c r :
  relations_ok s → r ∈ edges_of c s → r ∈ edges_of c (apply_added_relations rs s).
Proof.
  unfold apply_added_relations. revert s. induction rs as [|r1 rs IH]; intros s Hs Hr; [done|].
  cbn [foldl]. apply IH; [by apply add_resolved_ok|]. rewrite add_resolved_edges by apply Hs.
  destruct (decide _); [|done]. apply elem_of_app. by left.
Qed.

(** An edge whose identity, frequency and condition stay keeps the rest of its
    old record, whatever the new one says. *)
Theorem surviving_edge_keeps_old_details c r r' u y' u' :
  comparable sha256_hex x y v e b cfg scope →
  apply_delta sha256_hex shard delta y u = Some (y', u') →
  entity_in_scope v c scope = true → entity_in_scope_new x c scope = true →
  r ∈ edges_of c (relations y) → r' ∈ edges_of c (relations x) → edge_entry r = edge_entry r' →
  r ∈ edges_of c (relations y') ∧ (r' ≠ r → r' ∉ edges_of c (relations y')).
Proof.
  intros HC Ha Hin Hin' Hr Hr' Heq.
  destruct (replay_states u y' u' HC Ha) as (rels & Hok & _ & H6 & H2).
  destruct (changed_relations sha256_hex x y v e b cfg scope HC) as (_ & _ & T3 & _).
  pose proof (delta_replayable sha256_hex x y v e b cfg scope HC) as HR.
  assert (Hrel : ∀ d, edges_of d (relations y') =
    edges_of d (apply_added_relations (added_relations delta) rels))
    by (intros d; by rewrite H2, file_diffs_edges).
  assert (Hc : c ∉ removed_entities delta ++ map old_id (renamed_entities delta)).
  { intros Hg. destruct (replay_gone _ _ _ _ _ _ HR c Hg) as [_ Hnil]. rewrite Hnil in Hr'.
    by apply elem_of_nil in Hr'. }
  assert (Hkeep : r ∈ edges_of c (relations y')).
  { rewrite Hrel. apply added_keeps; [done|]. rewrite H6, T3, decide_False by done.
    assert (removed_relations delta =
      lost_edges x v scope (list_to_set (removed_entities delta)) ++
      unbounded_edges v scope (list_to_set (removed_entities delta))) as ->
      by by rewrite compute_delta_eq.
    apply (kept_in_scope x v (relations y) scope _ _
      (ok_entries _ (comparable_new _ _ _ _ _ _ _ _ HC)) (comparable_old _ _ _ _ _ _ _ _ HC)
      (presents_relations _ _ (comparable_view _ _ _ _ _ _ _ _ HC)) HR c r Hin Hc).
    split; [done|]. rewrite Heq. apply elem_of_new_map. eauto. }
  split; [done|]. intros Hne Hc'. apply Hne. symmetry. rewrite Hrel in Hkeep, Hc'.
  exact (same_entry_edges (apply_added_relations (added_relations delta) rels) c c r r'
    (ok_entries _ (add_resolved_all_ok (added_relations delta) rels Hok)) Hkeep Hc' Heq).
Qed.

(** *** Dependencies *)

Abbreviation graph z := (dependency_graph (z : Index)).

Lemma dependency_diff_spec g d a t :
  Graph.depends (apply_dependency_diff g d) a t ↔
  if decide (a = source_file d)
  then (Graph.depends g a t ∧ t ∉ removed_dependencies d) ∨ (t ∈ added_dependencies d ∧ a ≠ t)
  else Graph.depends g a t.
Proof.
  unfold apply_dependency_diff.
  assert (Hadd : ∀ l g, Graph.depends (foldl (λ g to, Graph.add_dependency (source_file d) to g) g l) a t ↔
    Graph.depends g a t ∨ (a = source_file d ∧ t ∈ l ∧ a ≠ t)).
  { induction l as [|to l IH]; intros g0; cbn [foldl]; [rewrite elem_of_nil; tauto|].
    rewrite IH, Graph.depends_add, elem_of_cons. naive_solver. }
  assert (Hrem : ∀ l g, Graph.depends (foldl (λ g to, Graph.remove_dependency (source_file d) to g) g l) a t ↔
    Graph.depends g a t ∧ ¬ (a = source_file d ∧ t ∈ l)).
  { induction l as [|to l IH]; intros g0; cbn [foldl]; [rewrite elem_of_nil; tauto|].
    rewrite IH, Graph.depends_remove, elem_of_cons. naive_solver. }
  rewrite Hadd, Hrem. destruct (decide _); naive_solver.
Qed.

Lemma dependency_diff_wf g d : Graph.wf g → Graph.wf (apply_dependency_diff g d).
Proof.
  intros Hg. unfold apply_dependency_diff.
  assert (Hrem : ∀ l g, Graph.wf g →
    Graph.wf (foldl (λ g to, Graph.remove_dependency (source_file d) to g) g l)).
  { induction l as [|to l IH]; intros g0 Hg0; [done|]. apply IH. by apply Graph.wf_remove. }
  specialize (Hrem (removed_dependencies d) g Hg). revert Hrem.
  generalize (foldl (λ g to, Graph.remove_dependency (source_file d) to g) g (removed_dependencies d)).
  induction (added_dependencies d) as [|to l IH]; intros g0 Hg0; [done|].
  apply IH. by apply Graph.wf_add.
Qed.

Lemma dependency_diffs_spec ds g a t :
  NoDup (map source_file ds) →
  Graph.depends (foldl apply_dependency_diff g ds) a t ↔
  match list_find (λ d, source_file d = a) ds with
  | Some (_, d) => (Graph.depends g a t ∧ t ∉ removed_dependencies d) ∨
                   (t ∈ added_dependencies d ∧ a ≠ t)
  | None => Graph.depends g a t
  end.
Proof.
  revert g. induction ds as [|d ds IH]; intros g Hnd; [done|]. cbn [foldl map] in *.
  apply NoDup_cons in Hnd as [Hd Hnd]. rewrite IH by done. cbn [list_find].
  pose proof (dependency_diff_spec g d a t) as Hs.
  destruct (decide (source_file d = a)) as [Ha|Ha].
  - assert (list_find (λ d, source_file d = a) ds = None) as ->.
    { apply list_find_None. apply Forall_forall. intros d' Hd' Heq. apply Hd. rewrite Ha, <- Heq.
      by apply list_elem_of_fmap_2. }
    rewrite Hs, decide_True by done. done.
  - rewrite decide_False in Hs by done.
    destruct (list_find (λ d, source_file d = a) ds) as [[k d']|]; simpl; by rewrite Hs.
Qed.

Lemma removed_files_graph ps z :
  Graph.wf (graph z) →
  Graph.wf (graph (foldl apply_removed_file z ps)) ∧
  ∀ a t, Graph.depends (graph (foldl apply_removed_file z ps)) a t ↔
         Graph.depends (graph z) a t ∧ a ∉ ps ∧ t ∉ ps.
Proof.
  revert z. induction ps as [|p ps IH]; intros z Hz; cbn [foldl].
  { split; [done|]. intros a t. rewrite !elem_of_nil. tauto. }
  destruct (IH (apply_removed_file z p)) as [H1 H2]; [by apply Graph.wf_remove_file|].
  split; [done|]. intros a t. rewrite H2. cbn [apply_removed_file dependency_graph].
  rewrite (proj1 (Graph.depends_remove_file p (graph z) a t Hz)), !elem_of_cons. tauto.
Qed.

Lemma deps_of_new f d : d ∈ Graph.get_dependencies f (graph x) ↔ Graph.depends (graph x) f d.
Proof.
  unfold Graph.get_dependencies, Graph.depends, values_at.
  destruct (_ !! f); simpl; [apply elem_of_set_iter|set_solver].
Qed.

Lemma deps_of_old f d :
  dependencies_shown v (graph y) → d ∈ view_dependencies_of v f ↔ Graph.depends (graph y) f d.
Proof.
  intros Hv. rewrite (shown_dependencies _ _ Hv). unfold Graph.has_dependency, Graph.depends.
  by rewrite bool_decide_eq_true.
Qed.

Lemma dependency_lists a t :
  dependencies_shown v (graph y) →
  (t ∈ removed_dependencies (dependency_diff x v a) ↔
     Graph.depends (graph y) a t ∧ ¬ Graph.depends (graph x) a t) ∧
  (t ∈ added_dependencies (dependency_diff x v a) ↔
     Graph.depends (graph x) a t ∧ ¬ Graph.depends (graph y) a t).
Proof.
  intros Hv. simpl.
  by rewrite !elem_of_retain, !negb_true_iff, !bool_decide_eq_false, !deps_of_new, !deps_of_old.
Qed.

Abbreviation dependency_paths :=
  (scoped_paths scope (list_to_set (C := gset string) (view_dependency_files v)
                       ∪ list_to_set (Graph.get_all_files (graph x)))).

Lemma dependency_sources :
  map source_file (compute_dependency_diff x v scope) `sublist_of` dependency_paths.
Proof.
  unfold compute_dependency_diff. etrans; [apply map_retain_sublist|]. rewrite map_map. simpl.
  by rewrite map_id.
Qed.

Lemma NoDup_dependency_paths : NoDup dependency_paths.
Proof. eapply sublist_NoDup; [apply NoDup_set_iter|apply retain_sublist]. Qed.

(** A file of the scope without a diff has the same dependencies. *)
Lemma unlisted_dependencies a t :
  dependencies_shown v (graph y) → Graph.wf (graph y) → Graph.wf (graph x) →
  file_in_scope scope a = true →
  dependency_diff x v a ∉ compute_dependency_diff x v scope →
  Graph.depends (graph y) a t ↔ Graph.depends (graph x) a t.
Proof.
  intros Hv Hy Hx Hs Hn. destruct (dependency_lists a t Hv) as [L1 L2].
  destruct (decide (a ∈ dependency_paths)) as [Hp|Hp].
  - unfold compute_dependency_diff in Hn. rewrite elem_of_retain in Hn.
    assert (removed_dependencies (dependency_diff x v a) = [] ∧
            added_dependencies (dependency_diff x v a) = []) as [E1 E2].
    { destruct (removed_dependencies (dependency_diff x v a)) eqn:E1,
        (added_dependencies (dependency_diff x v a)) eqn:E2; [done|..];
        destruct Hn; (split; [by apply list_elem_of_fmap_2|]); by rewrite ?E1, ?E2. }
    rewrite E1, elem_of_nil in L1. rewrite E2, elem_of_nil in L2.
    destruct (decide (Graph.depends (graph y) a t)), (decide (Graph.depends (graph x) a t)); tauto.
  - assert (Hnone : a ∉ Graph.files_of (graph y) ∧ a ∉ Graph.files_of (graph x)).
    { split; intros Hf; apply Hp, elem_of_scoped_paths; (split; [|done]); apply elem_of_union.
      - left. by apply elem_of_list_to_set, (shown_dependency_files _ _ Hv).
      - right. apply elem_of_list_to_set. unfold Graph.get_all_files. by apply elem_of_set_iter. }
    destruct Hnone as [N1 N2]. split; intros Hd; exfalso.
    + apply N1, (Graph.elem_of_files_of _ _ Hy). exists t. by left.
    + apply N2, (Graph.elem_of_files_of _ _ Hx). exists t. by left.
Qed.

Lemma apply_delta_graph u y' u' :
  apply_delta sha256_hex shard delta y u = Some (y', u') →
  graph y' = foldl apply_dependency_diff
    (graph (foldl apply_removed_file y (removed_files delta))) (compute_dependency_diff x v scope).
Proof.
  intros Ha. assert (dependency_diffs delta = compute_dependency_diff x v scope) as <-
    by by rewrite compute_delta_eq.
  destruct (apply_removed_relations shard (removed_relations delta)
    (changed_stores sha256_hex delta y).2) as [rels|] eqn:E.
  - destruct (apply_delta_parts sha256_hex shard delta y u rels E) as (z1 & u1 & H1 & _ & _ & H2).
    congruence.
  - rewrite (apply_delta_blocks sha256_hex shard delta y u E) in Ha. done.
Qed.

(** The dependencies after the delta: those of the new index for the files of
    the scope, for the others the old ones without the removed files. *)
Theorem delta_restores_dependencies u y' u' :
  dependencies_shown v (graph y) → Graph.wf (graph y) → Graph.wf (graph x) →
  (∀ a t, Graph.depends (graph x) a t → a ∉ removed_files delta ∧ t ∉ removed_files delta) →
  apply_delta sha256_hex shard delta y u = Some (y', u') →
  Graph.wf (graph y') ∧
  ∀ a t, Graph.depends (graph y') a t ↔
    if file_in_scope scope a then Graph.depends (graph x) a t
    else Graph.depends (graph y) a t ∧ t ∉ removed_files delta.
Proof.
  intros Hv Hy Hx Htouch Ha. rewrite (apply_delta_graph u y' u' Ha).
  destruct (removed_files_graph (removed_files delta) y Hy) as [Hwf Hdep].
  set (g := graph (foldl apply_removed_file y (removed_files delta))) in *. split.
  { clear - Hwf. revert Hwf. generalize g. induction (compute_dependency_diff x v scope) as [|d ds IH];
      intros g0 Hg0; [done|]. apply IH. by apply dependency_diff_wf. }
  intros a t. rewrite dependency_diffs_spec.
  2:{ eapply sublist_NoDup; [|exact dependency_sources]. apply NoDup_dependency_paths. }
  pose proof (Htouch a t) as Ht. destruct (list_find _ _) as [[k d]|] eqn:Ef.
  - apply list_find_Some in Ef as (Hd & <- & _). apply list_elem_of_lookup_2 in Hd.
    assert (source_file d ∈ dependency_paths) as Hp.
    { eapply elem_of_submseteq; [by apply list_elem_of_fmap_2|].
      apply sublist_submseteq, dependency_sources. }
    apply elem_of_scoped_paths in Hp as [_ ->]. apply elem_of_retain in Hd as [Hd _].
    apply list_elem_of_fmap in Hd as (f & -> & _). destruct (dependency_lists f t Hv) as [L1 L2].
    rewrite L1, L2, Hdep. simpl in *. pose proof (Graph.wf_irrefl _ Hx f) as Hirr.
    destruct (decide (Graph.depends (graph y) f t)), (decide (Graph.depends (graph x) f t));
      [tauto|tauto| |tauto].
    split; [done|]. intros _. right. split; [done|]. by intros <-.
  - rewrite Hdep. destruct (file_in_scope scope a) eqn:Es.
    + rewrite (unlisted_dependencies a t); [tauto|done..|]. intros Hin.
      apply list_find_None in Ef. rewrite Forall_forall in Ef. by apply (Ef _ Hin).
    + assert (a ∉ removed_files delta) as Hr; [|tauto].
      intros Hin. apply (removed_file_in_scope sha256_hex x v e b cfg scope a) in Hin. congruence.
Qed.
End replayed.

(** *** Symbol keys of renamed entities *)

(** The key an entity had stays listed with its file after a rename, but is not
    registered any more: such a snapshot is not valid. *)
Theorem rename_leaves_stale_key {StandardizedImport} `{!SetIter EntityId, !SetIter string}
    `{!SetIter SymbolIndex.SymbolKey} (sha256_hex : list Z → string) d key
    (z z' : @RelationIndex StandardizedImport) :
  SymbolIndex.registry_ok (symbols z) →
  SymbolIndex.entity_to_symbol_key (symbols z) !! old_id d = Some key →
  renamed_key (new_name d) key ≠ key →
  symbols z' = (apply_renamed_entities sha256_hex [d] (entities z, symbols z, relations z)).1.2 →
  validate_snapshot z' ≠ Ok tt.
Proof.
  intros Hok Hkey Hne Hz. rewrite validate_ok. intros Hv.
  destruct (valid_keys _ Hv (SymbolIndex.file_path key) key) as [Hs _].
  - rewrite Hz. unfold SymbolIndex.keys_of. simpl. unfold rename_keys. rewrite Hkey. simpl.
    apply (SymbolIndex.ok_listed _ Hok). apply (SymbolIndex.ok_back _ Hok) in Hkey. by rewrite Hkey.
  - rewrite Hz in Hs. simpl in Hs. unfold rename_keys in Hs. rewrite Hkey in Hs. simpl in Hs.
    rewrite lookup_insert_ne, lookup_delete_eq in Hs by done. by destruct Hs.
Qed.

(** ** Examples *)

(** An index with the given functions, calls and dependencies. *)
Definition demo_index (fs : list (EntityId * string * string)) (rels : list ResolvedRelation)
    (deps : list (string * string)) : @RelationIndex unit :=
  {| entities :=
       foldl (λ es '(i, n, f), EntityIndex.add_function_with_path i (demo_function i n) f es)
         EntityIndex.new fs;
     relations := add_resolved_relations rels new_relations;
     symbols := SymbolIndex.new_registry; file_records := ∅;
     dependency_graph := foldl (λ g '(f, d), Graph.add_dependency f d g) Graph.new deps |}.

#[local] Instance demo_iter_id : SetIter EntityId := elements_iter.
#[local] Instance demo_iter_file : SetIter string := elements_iter.
#[local] Instance demo_iter_key : SetIter SymbolIndex.SymbolKey := elements_iter.
#[local] Instance demo_view : IndexView unit (@RelationIndex unit) := index_view.

Definition indexed_functions (z : @RelationIndex unit) : gmap EntityId Entity :=
  EntityIndex.function_index (entities z).

(** The two functions of a.rs keep their names and get new ids when the file is
    read again. *)
Definition reread_old : @RelationIndex unit :=
  demo_index [(0, "f", "a.rs"); (1, "g", "a.rs")] [] [].
Definition reread_new : @RelationIndex unit :=
  demo_index [(2, "f", "a.rs"); (3, "g", "a.rs")] [] [].

Lemma dom_check (m : gmap EntityId Entity) (i : EntityId) X :
  is_Some (m !! i) → dom m = X → i ∈ X.
Proof. intros Hi <-. by apply elem_of_dom. Qed.

Lemma keyed_check (z : @RelationIndex unit) :
  bool_decide (map_Forall (λ i en, EntityDiff.id en = i) (indexed_functions z)) = true →
  keyed_by_id z.
Proof. intros Hz%bool_decide_eq_true. exact Hz. Qed.

(** Without removed relations nothing can block. *)
Lemma demo_applies (d : @SnapshotDelta unit) (z : @RelationIndex unit) :
  removed_relations d = [] →
  ∃ y' u', apply_delta SymbolIndex.demo_hash Z.to_nat d z 0 = Some (y', u').
Proof.
  intros Hd. destruct (apply_delta_parts SymbolIndex.demo_hash Z.to_nat d z 0
    (changed_stores SymbolIndex.demo_hash d z).2) as (y' & u' & H & _); [by rewrite Hd|eauto].
Qed.

Lemma demo_functions_wf fs :
  Forall (λ x, 0 ≤ x.1.1 < 2 ^ 63) fs → EntityIndex.wf (entities (demo_index fs [] [])).
Proof.
  unfold demo_index. simpl. intros Hfs. pose proof EntityIndex.wf_new_store as Hw. revert Hw.
  generalize EntityIndex.new. induction Hfs as [|[[i n] f] fs Hi _ IH]; intros es Hes; [done|].
  cbn [foldl]. apply IH, EntityIndex.wf_add_entity; [|done]. simpl in Hi. unfold u64_max. lia.
Qed.

Lemma demo_stores_ok fs deps :
  Forall (λ x, 0 ≤ x.1.1 < 2 ^ 63) fs → index_ok (demo_index fs [] deps).
Proof.
  intros Hfs. split; [exact (demo_functions_wf fs Hfs)|exact new_relations_ok|].
  exact SymbolIndex.new_registry_ok.
Qed.

Lemma reread_functions :
  dom (indexed_functions reread_old) = {[0; 1]} ∧ dom (indexed_functions reread_new) = {[2; 3]}.
Proof. split; apply (bool_decide_unpack _); vm_compute; exact I. Qed.

Lemma reread_neighbours :
  neighbours reread_new reread_old reread_old None 0 1 2 3 (demo_function 0 "f") (demo_function 1 "g")
    (demo_function 2 "f") (demo_function 3 "g") "a.rs".
Proof.
  destruct reread_functions as [Ho Hn].
  split; try (split_and!; done); try (split_and!; reflexivity); try (split_and!; vm_compute; done).
  - intros i Hi _ _. pose proof (dom_check _ _ _ Hi Ho). set_solver.
  - intros i Hi _ _. pose proof (dom_check _ _ _ Hi Hn). set_solver.
  - done.
Qed.

Theorem reread_neighbours_are_swapped_witness :
  ∃ y' u',
    apply_delta SymbolIndex.demo_hash Z.to_nat
      (compute_delta SymbolIndex.demo_hash reread_new reread_old 2 1 "cfg" None) reread_old 0
      = Some (y', u') ∧
    indexed_functions y' !! 3 = Some (demo_function 0 "f") ∧
    indexed_functions y' !! 2 = Some (demo_function 1 "g").
Proof.
  assert (Hk : keyed_by_id reread_new) by (apply keyed_check; reflexivity).
  destruct (demo_applies (compute_delta SymbolIndex.demo_hash reread_new reread_old 2 1 "cfg" None)
    reread_old) as (y' & u' & E); [reflexivity|].
  exists y', u'. split; [exact E|].
  apply (reread_neighbours_are_swapped SymbolIndex.demo_hash Z.to_nat reread_new reread_old
    reread_old 2 1 "cfg" None 0 1 2 3 _ _ _ _ "a.rs" 0 y' u'
    (index_presents_itself _) Hk reread_neighbours). exact E.
Defined.

(** b.rs loses the function g, c.rs gets a function h. *)
Definition grown_old : @RelationIndex unit :=
  demo_index [(0, "f", "a.rs"); (1, "g", "b.rs")] [] [].
Definition grown_new : @RelationIndex unit :=
  demo_index [(0, "f", "a.rs"); (2, "h", "c.rs")] [] [].

Theorem delta_restores_entities_witness :
  ∃ y' u',
    apply_delta SymbolIndex.demo_hash Z.to_nat
      (compute_delta SymbolIndex.demo_hash grown_new grown_old 2 1 "cfg" None) grown_old 0
      = Some (y', u') ∧
    indexed_functions y' !! 1 = None ∧
    indexed_functions y' !! 2 = Some (demo_function 2 "h") ∧
    EntityIndex.wf (entities y').
Proof.
  assert (Hk : keyed_by_id grown_new) by (apply keyed_check; reflexivity).
  destruct (demo_applies (compute_delta SymbolIndex.demo_hash grown_new grown_old 2 1 "cfg" None)
    grown_old) as (y' & u' & E); [reflexivity|].
  exists y', u'. split; [exact E|].
  destruct (delta_restores_entities SymbolIndex.demo_hash Z.to_nat grown_new grown_old
    grown_old 2 1 "cfg" None 0 y' u' (index_presents_itself _) Hk) as [H1 H2]; [reflexivity|exact E|].
  split_and!; [apply (H1 1)|apply (H1 2)|].
  apply H2; [|apply demo_functions_wf|reflexivity]; [apply demo_stores_ok|];
    apply (bool_decide_unpack _); vm_compute; exact I.
Defined.

Theorem entity_diff_accounts_witness :
  let d := compute_delta SymbolIndex.demo_hash grown_new grown_old 2 1 "cfg" None in
  NoDup (removed_entities d ++ map old_id (renamed_entities d)) ∧
  2 ∈ added_ids (added_entities d) ++ map new_id (renamed_entities d).
Proof.
  assert (Hk : keyed_by_id grown_new) by (apply keyed_check; reflexivity).
  destruct (entity_diff_accounts SymbolIndex.demo_hash grown_new grown_old grown_old 2 1 "cfg" None
    (presents_entities _ _ (index_presents_itself grown_old)) Hk) as (H1 & _ & _ & H2).
  split; [exact H1|]. apply H2. split_and!; [eexists; reflexivity|reflexivity..].
Defined.

(** a.rs depends on c.rs instead of b.rs. *)
Definition moved_old : @RelationIndex unit := demo_index [] [] [("a.rs", "b.rs"); ("d.rs", "b.rs")].
Definition moved_new : @RelationIndex unit := demo_index [] [] [("a.rs", "c.rs")].
Definition moved_scope : Scope := Some {["a.rs"]}.

Lemma demo_graph_wf deps : Graph.wf (dependency_graph (demo_index [] [] deps)).
Proof.
  unfold demo_index. simpl. assert (Hg : Graph.wf Graph.new) by apply Graph.wf_new.
  revert Hg. generalize Graph.new. induction deps as [|[f d] deps IH]; intros g Hg; [done|].
  apply IH. by apply Graph.wf_add.
Qed.

Theorem delta_restores_dependencies_witness :
  ∃ y' u',
    apply_delta SymbolIndex.demo_hash Z.to_nat
      (compute_delta SymbolIndex.demo_hash moved_new moved_old 2 1 "cfg" moved_scope)
      moved_old 0 = Some (y', u') ∧
    Graph.depends (dependency_graph y') "a.rs" "c.rs" ∧
    ¬ Graph.depends (dependency_graph y') "a.rs" "b.rs" ∧
    Graph.depends (dependency_graph y') "d.rs" "b.rs".
Proof.
  destruct (demo_applies
    (compute_delta SymbolIndex.demo_hash moved_new moved_old 2 1 "cfg" moved_scope)
    moved_old) as (y' & u' & E); [reflexivity|].
  exists y', u'. split; [exact E|].
  destruct (delta_restores_dependencies SymbolIndex.demo_hash Z.to_nat moved_new moved_old
    moved_old 2 1 "cfg" moved_scope 0 y' u') as [_ Hd].
  - apply (presents_dependencies _ _ (index_presents_itself moved_old)).
  - apply demo_graph_wf.
  - apply demo_graph_wf.
  - intros a t _. split; vm_compute; by intros ?%elem_of_nil.
  - exact E.
  - rewrite !Hd. split_and!; apply (bool_decide_unpack _); vm_compute; exact I.
Defined.

(** c.rs lies outside of the scope and imports the function 0, which a.rs
    loses. *)
Definition with_file_edge (z : @RelationIndex unit) : @RelationIndex unit :=
  {| entities := entities z;
     relations := add_file_relation "c.rs" (call_edge 7 0 DirectCall 100) (relations z);
     symbols := symbols z; file_records := file_records z;
     dependency_graph := dependency_graph z |}.

Definition dangling_old : @RelationIndex unit :=
  with_file_edge (demo_index [(0, "f", "a.rs")] [] []).
Definition dangling_new : @RelationIndex unit := demo_index [] [] [].

Lemma dangling_comparable :
  comparable SymbolIndex.demo_hash dangling_new dangling_old dangling_old 2 1 "cfg" (Some {["a.rs"]}).
Proof.
  assert (Hnone : ∀ c, edges_of c (relations dangling_new) = []) by done.
  split.
  - apply add_file_relations_ok, new_relations_ok.
  - apply new_relations_ok.
  - apply index_presents_itself.
  - intros c Hc. by destruct Hc.
  - intros c Hc. by destruct Hc.
  - by apply keyed_check.
  - intros c i (r & Hr & _). rewrite Hnone in Hr. by apply elem_of_nil in Hr.
  - done.
  - done.
Qed.

Theorem file_edges_outside_scope_dangle_witness :
  ∃ y' u',
    apply_delta SymbolIndex.demo_hash Z.to_nat
      (compute_delta SymbolIndex.demo_hash dangling_new dangling_old 2 1 "cfg" (Some {["a.rs"]}))
      dangling_old 0 = Some (y', u') ∧
    mentions (file_edges_of "c.rs" (relations y')) 0 ∧ validate_snapshot y' ≠ Ok tt.
Proof.
  destruct (demo_applies
    (compute_delta SymbolIndex.demo_hash dangling_new dangling_old 2 1 "cfg" (Some {["a.rs"]}))
    dangling_old) as (y' & u' & E); [reflexivity|].
  exists y', u'. split; [exact E|].
  apply (file_edges_outside_scope_dangle SymbolIndex.demo_hash Z.to_nat dangling_new dangling_old
    dangling_old 2 1 "cfg" (Some {["a.rs"]}) "c.rs" 0 0 y' u' dangling_comparable).
  - reflexivity.
  - reflexivity.
  - exists (call_edge 7 0 DirectCall 100). split; [vm_compute; by left|reflexivity].
  - vm_compute. by left.
  - exact E.
Defined.

(** The call of 0 by 1 is read again with another owner type. *)
Definition detailed (r : ResolvedRelation) : ResolvedRelation :=
  {| caller := caller r; callee_id := callee_id r; callee_name := callee_name r;
     relation_type := relation_type r; relation_span := relation_span r;
     is_external := is_external r; external_type := external_type r;
     callee_symbol := callee_symbol r; stdlib_category := stdlib_category r;
     owner_type := Some "Owner"; call_context := call_context r;
     overload_signature := overload_signature r; call_frequency := call_frequency r;
     cfg_condition := cfg_condition r |}.

Definition plain_old : @RelationIndex unit := demo_with [call_edge 1 0 DirectCall 100].
Definition plain_new : @RelationIndex unit := demo_with [detailed (call_edge 1 0 DirectCall 100)].

Theorem surviving_edge_keeps_old_details_witness :
  ∃ y' u',
    apply_delta SymbolIndex.demo_hash Z.to_nat
      (compute_delta SymbolIndex.demo_hash plain_new plain_old 2 1 "cfg" None) plain_old 0
      = Some (y', u') ∧
    detailed (call_edge 1 0 DirectCall 100) ∉ edges_of 1 (relations y').
Proof.
  assert (HC : comparable SymbolIndex.demo_hash plain_new plain_old plain_old 2 1 "cfg" None)
    by (apply demo_comparable; apply (bool_decide_unpack _); vm_compute; exact I).
  destruct (demo_applies (compute_delta SymbolIndex.demo_hash plain_new plain_old 2 1 "cfg" None)
    plain_old) as (y' & u' & E); [reflexivity|].
  exists y', u'. split; [exact E|].
  apply (surviving_edge_keeps_old_details SymbolIndex.demo_hash Z.to_nat plain_new plain_old
    plain_old 2 1 "cfg" None 1 (call_edge 1 0 DirectCall 100)
    (detailed (call_edge 1 0 DirectCall 100)) 0 y' u' HC); try reflexivity.
  - exact E.
  - vm_compute. by left.
  - vm_compute. by left.
  - done.
Defined.

End DeltaEntities.
