(* ===== verification/RelationQuery.v ===== *)
(** * Queries over the relation index and its snapshots

    Models crates/parser/cce-codegraph/src/index/relation_query.rs, the query
    traits of index/snapshot_query.rs with their implementations for the
    relation index (snapshot_query/mutable_impls.rs) and for its immutable
    snapshot (snapshot_query/snapshot_impls.rs, snapshot_index.rs), and the
    precomputed maps of a snapshot (snapshot_index/query_optimized.rs). A trait
    is a class; what every implementation spells out in the same way on top of
    the other methods is defined once over the class. *)

From S2P Require Import Prelude MultiMap SortedVec Kinds EntityDiff DependencyGraph EdgeSet.
From S2P Require Import EntityIndex SymbolIndex RelationIndex DeltaDiff.
From stdpp Require Import fin_sets.
From Stdlib Require Import ZArith Lia.
#[local] Open Scope Z_scope.

Module RelationQuery.
Import Kinds EdgeSet RelationIndex DeltaDiff.

#[local] Existing Instances SymbolIndex.SymbolKey_eq_dec SymbolIndex.SymbolKey_countable.

#[export] Instance ExternalCallType_countable : Countable ExternalCallType.
Proof.
  refine (inj_countable'
    (λ e, match e with
          | StandardLibrary n => (0%nat, n) | ExternalLibrary n => (1%nat, n)
          | DevDependency n => (2%nat, n) | LocalDependency n => (3%nat, n)
          | UnknownExternal n => (4%nat, n)
          end)
    (λ p, match p.1 with
          | O => StandardLibrary p.2 | 1%nat => ExternalLibrary p.2
          | 2%nat => DevDependency p.2 | 3%nat => LocalDependency p.2
          | _ => UnknownExternal p.2
          end) _).
  by intros [].
Defined.

Inductive IndexError :=
| EntityNotFound (i : EntityId)
| FileNotFound (f : string)
| InconsistentState (msg : string)
| DuplicateEntity (i : EntityId)
| InvalidOperation (msg : string).

Definition MAX_REVERSE_FANIN : nat := Z.to_nat 10000.

(** [sort], [dedup], [truncate]. *)
Definition limited (l : list EntityId) : list EntityId := take MAX_REVERSE_FANIN (sort_dedup l).

(** ** The query traits *)

Class EntityQueries (Q : Type) := {
  get_function_by_entity_id : EntityId → Q → option Entity;
  get_function_ids_by_name : string → Q → list EntityId;
  contains_function : EntityId → Q → bool;
  function_count : Q → Z;
  get_file_path_by_entity : EntityId → Q → option string;
  get_entities_in_line_range : string → Z → Z → Q → list EntityId;
}.

Class RelationQueries (Q : Type) := {
  get_resolved_relations_by_caller : EntityId → Q → option (list ResolvedRelation);
  get_callers_by_callee_entity : EntityId → Q → list EntityId;
  get_callers_by_callee_and_type : EntityId → RelationType → Q → list EntityId;
  get_relations_to_entity : EntityId → Q → list ResolvedRelation;
  resolved_relation_count : Q → Z;
  get_relations_by_classification : ExternalCallType → Q → list ResolvedRelation;
  get_classification_stats : Q → gmap ExternalCallType nat;
}.

Class FileQueries (StandardizedImport Q : Type) := {
  get_file : string → Q → option FileInfo;
  contains_file : string → Q → bool;
  file_count : Q → Z;
  get_import_table : string → Q → option (@ImportTable StandardizedImport);
  has_imports : string → Q → bool;
  import_count : Q → Z;
  get_exports : string → Q → option (list ExportInfo);
  get_entity_ids_by_file : string → Q → list EntityId;
}.

Class SymbolQueries (Q : Type) := {
  get_entity_id_by_symbol_key : SymbolKey → Q → option EntityId;
  get_entity_id_by_stable_symbol_id : string → Q → option EntityId;
  get_symbol_key_by_entity_id : EntityId → Q → option SymbolKey;
  stable_symbol_keys : Q → list SymbolKey;
}.

(** *** Methods on top of the others *)

Definition of_type (t : RelationType) (rs : list ResolvedRelation) : list ResolvedRelation :=
  Prelude.retain (λ r, bool_decide (relation_type r = t)) rs.

Definition leading_to (i : EntityId) (rs : list ResolvedRelation) : list ResolvedRelation :=
  Prelude.retain (λ r, bool_decide (callee_id r = Some i)) rs.

(** The loop over the relations that collects every caller once, up to a cap. *)
Fixpoint distinct_callers (cap : nat) (rs : list ResolvedRelation) (acc : list EntityId)
    : list EntityId :=
  match rs with
  | [] => acc
  | r :: rs =>
      if decide (caller r ∈ acc) then distinct_callers cap rs acc
      else
        let acc := acc ++ [caller r] in
        if (cap <=? length acc)%nat then acc else distinct_callers cap rs acc
  end.

Section derived.
Context {Q : Type} `{!EntityQueries Q, !RelationQueries Q}.

Definition get_resolved_relations_by_caller_checked (c : EntityId) (q : Q)
    : result (list ResolvedRelation) IndexError :=
  if contains_function c q then Ok (default [] (get_resolved_relations_by_caller c q))
  else Err (EntityNotFound c).

Definition get_callers_by_callee_entity_checked (i : EntityId) (q : Q)
    : result (list EntityId) IndexError :=
  if contains_function i q then Ok (get_callers_by_callee_entity i q)
  else Err (EntityNotFound i).

Definition get_relations_to_entity_by_type (i : EntityId) (t : RelationType) (q : Q) :=
  of_type t (get_relations_to_entity i q).

(** A snapshot reads its shared map here, which says the same
    ([snapshot_by_caller_eq] below). *)
Definition get_relations_from_entity_by_type (c : EntityId) (t : RelationType) (q : Q) :=
  of_type t (default [] (get_resolved_relations_by_caller c q)).

Definition get_derived_classes (i : EntityId) (q : Q) :=
  get_callers_by_callee_and_type i Inheritance q.
Definition get_implementing_classes (i : EntityId) (q : Q) :=
  get_callers_by_callee_and_type i Implementation q.
Definition get_types_with_trait_bound (i : EntityId) (q : Q) :=
  get_callers_by_callee_and_type i TraitBound q.
Definition get_base_classes (c : EntityId) (q : Q) : list EntityId :=
  omap callee_id (get_relations_from_entity_by_type c Inheritance q).
Definition get_implemented_interfaces (c : EntityId) (q : Q) : list EntityId :=
  omap callee_id (get_relations_from_entity_by_type c Implementation q).

Definition get_child_elements (c : EntityId) (q : Q) : list EntityId :=
  omap callee_id (get_relations_from_entity_by_type c ElementContains q).
Definition get_parent_element (i : EntityId) (q : Q) :=
  get_callers_by_callee_and_type i ElementContains q.
Definition get_event_handlers (c : EntityId) (q : Q) :=
  get_relations_from_entity_by_type c EventCallback q.
Definition get_elements_by_handler (i : EntityId) (q : Q) :=
  get_callers_by_callee_and_type i EventCallback q.
Definition get_parameter_bindings (c : EntityId) (q : Q) :=
  get_relations_from_entity_by_type c ParameterBinding q.
Definition get_template_references (c : EntityId) (q : Q) :=
  get_relations_from_entity_by_type c TemplateReference q.
Definition get_elements_by_template_ref (i : EntityId) (q : Q) :=
  get_callers_by_callee_and_type i TemplateReference q.

Context {StandardizedImport : Type} `{!FileQueries StandardizedImport Q}.

Definition find_export_by_name (f n : string) (q : Q) : option ExportInfo :=
  es ← get_exports f q; snd <$> list_find (λ e, function_name e = n) es.

Definition get_entities_by_file (f : string) (q : Q) : list (EntityId * Entity) :=
  omap (λ i, pair i <$> get_function_by_entity_id i q) (get_entity_ids_by_file f q).

Definition get_resolved_relations_by_file (f : string) (q : Q)
    : list (EntityId * list ResolvedRelation) :=
  omap (λ i, pair i <$> get_resolved_relations_by_caller i q) (get_entity_ids_by_file f q).
End derived.

(** ** The relation index *)

Section index.
Context {StandardizedImport : Type}.
Context `{!SetIter EntityId, !SetIter string, !SetIter SymbolKey}.
Abbreviation Index := (@RelationIndex StandardizedImport).

#[export] Instance index_entities : EntityQueries Index := {|
  get_function_by_entity_id i x := EntityIndex.function_index (entities x) !! i;
  get_function_ids_by_name n x := EntityIndex.get_function_ids_by_name n (entities x);
  contains_function i x := EntityIndex.contains_function i (entities x);
  function_count x := Z.of_nat (EntityIndex.function_count (entities x));
  get_file_path_by_entity i x := EntityIndex.get_file_path_by_entity i (entities x);
  get_entities_in_line_range f a b x := EntityIndex.scan_line_range f a b (entities x);
|}.

(** The resolved relations of a map, in the order of the callers. *)
Definition all_relations (s : RelationStore) : list ResolvedRelation :=
  entries (resolved_relation_index s) ≫= λ p, edges p.2.

Definition count_classification (m : gmap ExternalCallType nat) (r : ResolvedRelation)
    : gmap ExternalCallType nat :=
  match external_type r with
  | Some e => <[e := S (default O (m !! e))]> m
  | None => m
  end.

Definition relation_total (s : RelationStore) : Z :=
  Z.of_nat (sum_list (map (λ p, length (edges p.2)) (entries (resolved_relation_index s)))).

Definition index_callers (i : EntityId) (x : Index) : list EntityId :=
  limited (callers_of i (relations x)).

Definition index_relations_to (i : EntityId) (x : Index) : list ResolvedRelation :=
  index_callers i x ≫= λ c, leading_to i (edges_of c (relations x)).

#[export] Instance index_relations : RelationQueries Index := {|
  get_resolved_relations_by_caller c x := edges <$> resolved_relation_index (relations x) !! c;
  get_callers_by_callee_entity := index_callers;
  get_callers_by_callee_and_type i t x :=
    distinct_callers MAX_REVERSE_FANIN (of_type t (index_relations_to i x)) [];
  get_relations_to_entity := index_relations_to;
  resolved_relation_count x := relation_total (relations x);
  get_relations_by_classification e x :=
    Prelude.retain (λ r, bool_decide (external_type r = Some e)) (all_relations (relations x));
  get_classification_stats x := foldl count_classification ∅ (all_relations (relations x));
|}.

#[export] Instance index_files : FileQueries StandardizedImport Index := {|
  get_file := RelationIndex.get_file;
  contains_file := RelationIndex.contains_file;
  file_count x := Z.of_nat (RelationIndex.file_count x);
  get_import_table := RelationIndex.get_import_table;
  has_imports := RelationIndex.has_imports;
  import_count x := Z.of_nat (RelationIndex.import_count_of x);
  get_exports := RelationIndex.get_exports;
  get_entity_ids_by_file f x := EntityIndex.get_entity_ids_by_file f (entities x);
|}.

#[export] Instance index_symbols : SymbolQueries Index := {|
  get_entity_id_by_symbol_key k x := SymbolIndex.get_entity_id_by_symbol_key k (symbols x);
  get_entity_id_by_stable_symbol_id sid x :=
    SymbolIndex.get_entity_id_by_stable_symbol_id sid (symbols x);
  get_symbol_key_by_entity_id i x := SymbolIndex.get_symbol_key_by_entity_id i (symbols x);
  stable_symbol_keys x := set_iter (dom (SymbolIndex.symbol_key_to_entity (symbols x)));
|}.

(** ** The precomputed maps of a snapshot *)

Record QueryOptimizedIndex := {
  callers_by_callee : gmap EntityId (list EntityId);
  callees_by_caller : gmap EntityId (list ResolvedRelation);
}.

Definition push_caller (c : EntityId) (m : gmap EntityId (list EntityId)) (r : ResolvedRelation)
    : gmap EntityId (list EntityId) :=
  match callee_id r with
  | Some i => <[i := default [] (m !! i) ++ [c]]> m
  | None => m
  end.

Definition index_entry (q : QueryOptimizedIndex) (p : EntityId * RelationEdgeSet)
    : QueryOptimizedIndex :=
  {| callers_by_callee := foldl (push_caller p.1) (callers_by_callee q) (edges p.2);
     callees_by_caller := <[p.1 := edges p.2]> (callees_by_caller q) |}.

Definition from_resolved_map (m : gmap EntityId RelationEdgeSet) : QueryOptimizedIndex :=
  let q := foldl index_entry {| callers_by_callee := ∅; callees_by_caller := ∅ |} (entries m) in
  {| callers_by_callee := sort_dedup <$> callers_by_callee q;
     callees_by_caller := callees_by_caller q |}.

Definition get_callees (c : EntityId) (q : QueryOptimizedIndex) := callees_by_caller q !! c.
Definition get_callers (i : EntityId) (q : QueryOptimizedIndex) := callers_by_callee q !! i.

(** ** Snapshots

    A snapshot shares the maps of the index it was taken from, which nobody
    changes any more, and has the precomputed maps and a cache beside them. *)
Record RelationSnapshotIndex := {
  source : Index;
  query_optimized : QueryOptimizedIndex;
  classification_stats_cache : option (gmap ExternalCallType nat);
}.

Definition from_index_shared (x : Index) : RelationSnapshotIndex :=
  {| source := x; query_optimized := from_resolved_map (resolved_relation_index (relations x));
     classification_stats_cache := None |}.

(** [snapshot_take] empties the index. *)
Definition from_index_owned (x : Index) : RelationSnapshotIndex * Index :=
  let '(taken, rest) := snapshot_take x in (from_index_shared taken, rest).

(** The stats and the snapshot with its cache filled. *)
Definition classification_stats_memoized (s : RelationSnapshotIndex)
    : gmap ExternalCallType nat * RelationSnapshotIndex :=
  match classification_stats_cache s with
  | Some stats => (stats, s)
  | None =>
      let stats := get_classification_stats (source s) in
      (stats, {| source := source s; query_optimized := query_optimized s;
                 classification_stats_cache := Some stats |})
  end.

#[export] Instance snapshot_entities : EntityQueries RelationSnapshotIndex := {|
  get_function_by_entity_id i s := get_function_by_entity_id i (source s);
  get_function_ids_by_name n s := get_function_ids_by_name n (source s);
  contains_function i s := contains_function i (source s);
  function_count s := function_count (source s);
  get_file_path_by_entity i s := get_file_path_by_entity i (source s);
  get_entities_in_line_range f a b s := get_entities_in_line_range f a b (source s);
|}.

Definition snapshot_by_caller (c : EntityId) (s : RelationSnapshotIndex)
    : option (list ResolvedRelation) :=
  match get_callees c (query_optimized s) with
  | Some rs => Some rs
  | None => edges <$> resolved_relation_index (relations (source s)) !! c
  end.

Definition snapshot_callers (i : EntityId) (s : RelationSnapshotIndex) : list EntityId :=
  match get_callers i (query_optimized s) with
  | Some cs => limited cs
  | None =>
      match reverse_callee_index (relations (source s)) !! i with
      | Some cs => limited cs
      | None => []
      end
  end.

Definition snapshot_relations_to (i : EntityId) (s : RelationSnapshotIndex)
    : list ResolvedRelation :=
  snapshot_callers i s ≫= λ c, leading_to i (default [] (snapshot_by_caller c s)).

#[export] Instance snapshot_relations : RelationQueries RelationSnapshotIndex := {|
  get_resolved_relations_by_caller := snapshot_by_caller;
  get_callers_by_callee_entity := snapshot_callers;
  get_callers_by_callee_and_type i t s :=
    distinct_callers MAX_REVERSE_FANIN (of_type t (snapshot_relations_to i s)) [];
  get_relations_to_entity := snapshot_relations_to;
  resolved_relation_count s := resolved_relation_count (source s);
  get_relations_by_classification e s := get_relations_by_classification e (source s);
  get_classification_stats s := (classification_stats_memoized s).1;
|}.

#[export] Instance snapshot_files : FileQueries StandardizedImport RelationSnapshotIndex := {|
  get_file f s := get_file f (source s);
  contains_file f s := contains_file f (source s);
  file_count s := file_count (source s);
  get_import_table f s := get_import_table f (source s);
  has_imports f s := has_imports f (source s);
  import_count s := import_count (source s);
  get_exports f s := get_exports f (source s);
  get_entity_ids_by_file f s := get_entity_ids_by_file f (source s);
|}.

#[export] Instance snapshot_symbols : SymbolQueries RelationSnapshotIndex := {|
  get_entity_id_by_symbol_key k s := get_entity_id_by_symbol_key k (source s);
  get_entity_id_by_stable_symbol_id sid s := get_entity_id_by_stable_symbol_id sid (source s);
  get_symbol_key_by_entity_id i s := get_symbol_key_by_entity_id i (source s);
  stable_symbol_keys s := stable_symbol_keys (source s);
|}.

(** The view of a snapshot is that of its maps; only the callers are not
    sorted and have a second source. *)
Definition snapshot_view_callers (i : EntityId) (s : RelationSnapshotIndex) : list EntityId :=
  match reverse_callee_index (relations (source s)) !! i with
  | Some cs => cs
  | None => default [] (get_callers i (query_optimized s))
  end.

#[export] Instance snapshot_view : IndexView StandardizedImport RelationSnapshotIndex :=
  let base := index_view in {|
  view_file_contains s := view_file_contains (source s);
  view_files s := view_files (source s);
  view_function_contains s := view_function_contains (source s);
  view_functions s := view_functions (source s);
  view_entity_file_of s := view_entity_file_of (source s);
  view_relations_of s := view_relations_of (source s);
  view_resolved_relations s := view_resolved_relations (source s);
  view_callers_of s i := snapshot_view_callers i s;
  view_file_relations_of s := view_file_relations_of (source s);
  view_file_relations s := view_file_relations (source s);
  view_imports_of s := view_imports_of (source s);
  view_imports s := view_imports (source s);
  view_exports_of s := view_exports_of (source s);
  view_exports s := view_exports (source s);
  view_symbol_key_of s := view_symbol_key_of (source s);
  view_dependency_files s := view_dependency_files (source s);
  view_dependencies_of s := view_dependencies_of (source s);
|}.
End index.

(** ** Sorted and limited lists *)

Lemma sort_dedup_sorted l : sorted Z.ltb (sort_dedup l).
Proof.
  unfold sort_dedup. assert (Hn : sorted Z.ltb []) by constructor. revert Hn.
  generalize (@nil EntityId). induction l as [|c l IH]; intros acc Hacc; [done|].
  cbn [foldl]. apply IH, sorted_insert_spec, Hacc. apply _.
Qed.

Lemma sort_dedup_ext l k : (∀ c, c ∈ l ↔ c ∈ k) → sort_dedup l = sort_dedup k.
Proof.
  intros Hlk. apply (sorted_ext Z.ltb); [apply sort_dedup_sorted..|]. intros c.
  by rewrite !elem_of_sort_dedup.
Qed.

Lemma limited_ext l k : (∀ c, c ∈ l ↔ c ∈ k) → limited l = limited k.
Proof. intros Hlk. unfold limited. by rewrite (sort_dedup_ext l k). Qed.

Lemma limited_nil : limited [] = [].
Proof. unfold limited. apply take_nil. Qed.

(** The smallest elements, in order; all of them below the limit. *)
Lemma limited_spec l :
  sorted Z.ltb (limited l) ∧ (length (limited l) ≤ MAX_REVERSE_FANIN)%nat ∧
  (∀ c, c ∈ limited l → c ∈ l) ∧
  (∀ c c', c ∈ limited l → c' ∈ l → c' < c → c' ∈ limited l) ∧
  ((length (limited l) < MAX_REVERSE_FANIN)%nat → ∀ c, c ∈ l → c ∈ limited l).
Proof.
  unfold limited. pose proof (sort_dedup_sorted l) as Hs.
  set (n := MAX_REVERSE_FANIN). clearbody n.
  pose proof (elem_of_sort_dedup) as He. rewrite <- (take_drop n (sort_dedup l)) in Hs.
  apply sorted_vec_app in Hs as (H1 & _ & H2). split_and!.
  - done.
  - rewrite length_take. lia.
  - intros c Hc. apply elem_of_sort_dedup. rewrite <- (take_drop n). apply elem_of_app. by left.
  - intros c c' Hc Hc' Hlt. apply elem_of_sort_dedup in Hc'. rewrite <- (take_drop n) in Hc'.
    apply elem_of_app in Hc' as [Hc'|Hc']; [done|]. specialize (H2 c c' Hc Hc').
    apply Z.ltb_lt in H2. lia.
  - intros Hlen c Hc. apply elem_of_sort_dedup in Hc. rewrite take_ge; [done|].
    rewrite length_take in Hlen. lia.
Qed.

(** Every caller once: all of them below the cap. *)
Lemma distinct_callers_spec cap rs acc :
  NoDup acc → (length acc < cap)%nat →
  let cs := distinct_callers cap rs acc in
  NoDup cs ∧ (length cs ≤ cap)%nat ∧
  (∀ c, c ∈ cs → c ∈ acc ∨ ∃ r, r ∈ rs ∧ caller r = c) ∧
  (∀ c, c ∈ acc → c ∈ cs) ∧
  ((length cs < cap)%nat → ∀ r, r ∈ rs → caller r ∈ cs).
Proof.
  cbv zeta. revert acc. induction rs as [|r rs IH]; intros acc Hnd Hlen; cbn [distinct_callers].
  { split_and!; [done|lia|tauto|done|]. intros _ r Hr. by apply elem_of_nil in Hr. }
  destruct (decide (caller r ∈ acc)) as [Hin|Hout].
  { destruct (IH acc Hnd Hlen) as (H1 & H2 & H3 & H4 & H5). split_and!; [done..| |done|].
    - intros c [?|(r' & ? & ?)]%H3; [by left|right]. exists r'. split; [by right|done].
    - intros Hl r' [->|Hr']%elem_of_cons; auto. }
  assert (NoDup (acc ++ [caller r])) as Hnd'.
  { apply NoDup_app. split_and!; [done| |apply NoDup_singleton].
    intros c Hc ->%list_elem_of_singleton. done. }
  assert (length (acc ++ [caller r]) = S (length acc)) as Hl by (rewrite length_app; simpl; lia).
  destruct (cap <=? _)%nat eqn:E.
  { apply Nat.leb_le in E. split_and!; [done|lia| | |lia].
    - intros c [Hc|Hc]%elem_of_app; [by left|]. apply list_elem_of_singleton in Hc as ->.
      right. exists r. split; [by left|done].
    - intros c Hc. apply elem_of_app. by left. }
  apply Nat.leb_gt in E. destruct (IH _ Hnd' E) as (H1 & H2 & H3 & H4 & H5). split_and!; [done..| | |].
  - intros c [[Hc|Hc]%elem_of_app|(r' & ? & ?)]%H3; [by left| |].
    + apply list_elem_of_singleton in Hc as ->. right. exists r. split; [by left|done].
    + right. exists r'. split; [by right|done].
  - intros c Hc. apply H4, elem_of_app. by left.
  - intros Hl' r' [->|Hr']%elem_of_cons; [|by apply H5]. apply H4, elem_of_app. right. by left.
Qed.

(** ** The precomputed maps *)

Lemma push_callers_spec c rs m i :
  (∀ d, d ∈ default [] (foldl (push_caller c) m rs !! i) ↔
        d ∈ default [] (m !! i) ∨ (d = c ∧ mentions rs i)) ∧
  (is_Some (foldl (push_caller c) m rs !! i) ↔ is_Some (m !! i) ∨ mentions rs i).
Proof.
  revert m. induction rs as [|r rs IH]; intros m; cbn [foldl].
  { pose proof (mentions_nil i). split; [|naive_solver]. intros d. naive_solver. }
  destruct (IH (push_caller c m r)) as [H1 H2].
  assert (Hm : mentions (r :: rs) i ↔ callee_id r = Some i ∨ mentions rs i).
  { unfold mentions. setoid_rewrite elem_of_cons. naive_solver. }
  assert (Hr : ∀ d, d ∈ default [] (push_caller c m r !! i) ↔
    d ∈ default [] (m !! i) ∨ (d = c ∧ callee_id r = Some i)).
  { intros d. unfold push_caller. destruct (callee_id r) as [j|]; [|naive_solver].
    destruct (decide (j = i)) as [->|Hne].
    - rewrite lookup_insert_eq. simpl. rewrite elem_of_app, list_elem_of_singleton. naive_solver.
    - rewrite lookup_insert_ne by done. naive_solver. }
  assert (Hs : is_Some (push_caller c m r !! i) ↔ is_Some (m !! i) ∨ callee_id r = Some i).
  { unfold push_caller. destruct (callee_id r) as [j|]; [|naive_solver].
    destruct (decide (j = i)) as [->|Hne].
    - rewrite lookup_insert_eq. naive_solver.
    - rewrite lookup_insert_ne by done. naive_solver. }
  split; [intros d; rewrite H1, Hr|rewrite H2, Hs]; rewrite Hm; tauto.
Qed.

Lemma index_entries_spec l q :
  let q' := foldl index_entry q l in
  (∀ i d, d ∈ default [] (callers_by_callee q' !! i) ↔
     d ∈ default [] (callers_by_callee q !! i) ∨ ∃ es, (d, es) ∈ l ∧ mentions (edges es) i) ∧
  (∀ i, is_Some (callers_by_callee q' !! i) ↔
     is_Some (callers_by_callee q !! i) ∨ ∃ p, p ∈ l ∧ mentions (edges p.2) i) ∧
  (∀ c, c ∉ l.*1 → callees_by_caller q' !! c = callees_by_caller q !! c) ∧
  (NoDup l.*1 → ∀ c es, (c, es) ∈ l → callees_by_caller q' !! c = Some (edges es)).
Proof.
  cbv zeta. revert q. induction l as [|[c es] l IH]; intros q; cbn [foldl].
  { split_and!; [| |done|].
    - intros i d. setoid_rewrite elem_of_nil. naive_solver.
    - intros i. setoid_rewrite elem_of_nil. naive_solver.
    - intros _ c es Hin. by apply elem_of_nil in Hin. }
  destruct (IH (index_entry q (c, es))) as (H1 & H2 & H3 & H4).
  pose proof (λ i, push_callers_spec c (edges es) (callers_by_callee q) i) as Hp.
  split_and!.
  - intros i d. rewrite H1. setoid_rewrite elem_of_cons. simpl. rewrite (proj1 (Hp i)). naive_solver.
  - intros i. rewrite H2. setoid_rewrite elem_of_cons. simpl. rewrite (proj2 (Hp i)). split.
    + intros [[?|?]|(p & ? & ?)]; [by left|right; eexists (c, es); eauto|right; eauto].
    + intros [?|(p & [->|?] & ?)]; eauto.
  - intros c' Hc'. rewrite fmap_cons, not_elem_of_cons in Hc'. destruct Hc' as [Hne Hc'].
    rewrite H3 by done. simpl in *. by rewrite lookup_insert_ne.
  - rewrite fmap_cons. intros [Hc Hnd]%NoDup_cons c' es' [Heq|Hin]%elem_of_cons.
    + simplify_eq. rewrite H3 by done. simpl. by rewrite lookup_insert_eq.
    + by apply H4.
Qed.

Section snapshot.
Context {StandardizedImport : Type}.
Context `{!SetIter EntityId, !SetIter string, !SetIter SymbolKey}.
Abbreviation Index := (@RelationIndex StandardizedImport).

(** The precomputed maps hold what the relations say. *)
Lemma from_resolved_spec (s : RelationStore) :
  let q := from_resolved_map (resolved_relation_index s) in
  (∀ c, get_callees c q = edges <$> resolved_relation_index s !! c) ∧
  (∀ i cs, get_callers i q = Some cs → ∀ c, c ∈ cs ↔ mentions (edges_of c s) i) ∧
  (∀ i, get_callers i q = None → ∀ c, ¬ mentions (edges_of c s) i).
Proof.
  cbv zeta. unfold get_callees, get_callers, from_resolved_map. cbn [callees_by_caller callers_by_callee].
  set (q0 := {| callers_by_callee := ∅; callees_by_caller := ∅ |}).
  destruct (index_entries_spec (entries (resolved_relation_index s)) q0) as (H1 & H2 & H3 & H4).
  set (q := foldl index_entry q0 _) in *. clearbody q. simpl in H1, H2, H3.
  assert (Hm : ∀ c i, mentions (edges_of c s) i ↔
    ∃ es, (c, es) ∈ entries (resolved_relation_index s) ∧ mentions (edges es) i).
  { intros c i. setoid_rewrite elem_of_entries. unfold edges_of.
    destruct (resolved_relation_index s !! c) as [es|]; [naive_solver|].
    pose proof (mentions_nil i). naive_solver. }
  split_and!.
  - intros c. destruct (resolved_relation_index s !! c) as [es|] eqn:E.
    + apply (H4 (NoDup_entries _)). by apply elem_of_entries.
    + rewrite H3; [by rewrite lookup_empty|]. rewrite entries_keys, E. by intros [].
  - intros i cs. rewrite lookup_fmap. destruct (callers_by_callee q !! i) as [l|] eqn:E; [|done].
    intros [= <-] c. rewrite elem_of_sort_dedup, Hm. specialize (H1 i c). rewrite E in H1. simpl in H1.
    rewrite H1, lookup_empty. simpl. rewrite elem_of_nil. naive_solver.
  - intros i. rewrite lookup_fmap. destruct (callers_by_callee q !! i) as [l|] eqn:E; [done|].
    intros _ c (es & Hes & Hi)%Hm. assert (is_Some (callers_by_callee q !! i)) as [? ?]; [|congruence].
    apply H2. right. by exists (c, es).
Qed.

Section taken.
Context (x : Index) (Hx : relations_ok (relations x)).
Abbreviation snap := (from_index_shared x).

Lemma snapshot_by_caller_eq c :
  snapshot_by_caller c snap = edges <$> resolved_relation_index (relations x) !! c.
Proof.
  unfold snapshot_by_caller. simpl. rewrite (proj1 (from_resolved_spec (relations x))).
  by destruct (resolved_relation_index (relations x) !! c).
Qed.

Lemma snapshot_callers_eq i : snapshot_callers i snap = index_callers i x.
Proof.
  unfold snapshot_callers, index_callers. destruct (from_resolved_spec (relations x)) as (_ & H2 & H3).
  cbn [query_optimized from_index_shared source]. destruct (get_callers i _) as [cs|] eqn:E.
  - apply limited_ext. intros c. by rewrite (H2 i cs E), (ok_reverse _ Hx).
  - unfold callers_of. destruct (reverse_callee_index (relations x) !! i) as [cs|]; [done|].
    symmetry. apply limited_nil.
Qed.

Lemma snapshot_relations_to_eq i : snapshot_relations_to i snap = index_relations_to i x.
Proof.
  unfold snapshot_relations_to, index_relations_to. rewrite snapshot_callers_eq.
  apply list_bind_ext; [|done]. intros c. rewrite snapshot_by_caller_eq. unfold edges_of.
  by destruct (resolved_relation_index (relations x) !! c).
Qed.

(** A snapshot answers every relation query, by caller, by callee and by type,
    exactly as the index it was taken from, through its precomputed maps. *)
Theorem snapshot_answers_as_index :
  (∀ c, get_resolved_relations_by_caller c snap = get_resolved_relations_by_caller c x) ∧
  (∀ i, get_callers_by_callee_entity i snap = get_callers_by_callee_entity i x) ∧
  (∀ i, get_relations_to_entity i snap = get_relations_to_entity i x) ∧
  (∀ i t, get_callers_by_callee_and_type i t snap = get_callers_by_callee_and_type i t x) ∧
  (∀ c t, get_relations_from_entity_by_type c t snap = get_relations_from_entity_by_type c t x) ∧
  get_classification_stats snap = get_classification_stats x.
Proof.
  split_and!; simpl.
  - apply snapshot_by_caller_eq.
  - apply snapshot_callers_eq.
  - apply snapshot_relations_to_eq.
  - intros i t. by rewrite snapshot_relations_to_eq.
  - intros c t. unfold get_relations_from_entity_by_type. simpl. by rewrite snapshot_by_caller_eq.
  - done.
Qed.

(** The cache of a snapshot changes no answer. *)
Lemma classification_stats_cached :
  let '(stats, s) := classification_stats_memoized snap in
  stats = get_classification_stats x ∧ classification_stats_memoized s = (stats, s).
Proof. done. Qed.

(** A snapshot shows the index it was taken from. *)
Lemma snapshot_presents_source : presents snap x.
Proof.
  destruct (index_presents_itself x) as [[H1 H2 H3 H4 H5] He Hf Hd].
  split; [|by destruct He as [E1 E2 E3 E4]; split|by destruct Hf; split|by destruct Hd; split].
  split; [done..| |done|done]. intros i c. cbn. unfold snapshot_view_callers. simpl.
  destruct (from_resolved_spec (relations x)) as (_ & Hq & Hn). unfold callers_of.
  destruct (reverse_callee_index (relations x) !! i) as [cs|] eqn:E; [done|]. simpl.
  rewrite elem_of_nil. split; [|done]. intros Hc.
  assert (mentions (edges_of c (relations x)) i) as Hm.
  { destruct (get_callers i _) as [cs|] eqn:Eq; [by apply (Hq i cs)|by apply elem_of_nil in Hc]. }
  apply (ok_reverse _ Hx) in Hm. unfold callers_of in Hm. rewrite E in Hm. by apply elem_of_nil in Hm.
Qed.

Lemma fan_in_is_bounded_prefix_spec i :
  let cs := get_callers_by_callee_entity i x in
  sorted Z.ltb cs ∧ (length cs ≤ MAX_REVERSE_FANIN)%nat ∧
  (∀ c, c ∈ cs → mentions (edges_of c (relations x)) i) ∧
  (∀ c c', c ∈ cs → mentions (edges_of c' (relations x)) i → c' < c → c' ∈ cs) ∧
  ((length cs < MAX_REVERSE_FANIN)%nat → ∀ c, mentions (edges_of c (relations x)) i → c ∈ cs) ∧
  (∀ r, r ∈ get_relations_to_entity i x ↔
        caller r ∈ cs ∧ r ∈ edges_of (caller r) (relations x) ∧ callee_id r = Some i).
Proof.
  cbv zeta. simpl. unfold index_relations_to, index_callers.
  destruct (limited_spec (callers_of i (relations x))) as (H1 & H2 & H3 & H4 & H5).
  setoid_rewrite <- (ok_reverse _ Hx). split_and!; [done..|]. intros r. rewrite list_elem_of_bind.
  unfold leading_to. setoid_rewrite elem_of_retain. setoid_rewrite bool_decide_eq_true. split.
  - intros (c & (Hr & Hi) & Hc). assert (caller r = c) as ->; [|done].
    unfold edges_of in Hr. destruct (resolved_relation_index (relations x) !! c) as [es|] eqn:E;
      [|by apply elem_of_nil in Hr]. apply (entry_caller c es); [by apply (ok_entries _ Hx)|done].
  - intros (Hc & Hr & Hi). eauto.
Qed.

(** The callers reported are the smallest ones in order, all of them below the
    limit, and the relations reported are exactly those of these callers. *)
Theorem fan_in_is_bounded_prefix i :
  let cs := get_callers_by_callee_entity i x in
  sorted Z.ltb cs ∧ (length cs ≤ MAX_REVERSE_FANIN)%nat ∧
  (∀ c, c ∈ cs → mentions (edges_of c (relations x)) i) ∧
  (∀ c c', c ∈ cs → mentions (edges_of c' (relations x)) i → c' < c → c' ∈ cs) ∧
  ((length cs < MAX_REVERSE_FANIN)%nat → ∀ c, mentions (edges_of c (relations x)) i → c ∈ cs) ∧
  (∀ r, r ∈ get_relations_to_entity i x ↔
        caller r ∈ cs ∧ r ∈ edges_of (caller r) (relations x) ∧ callee_id r = Some i).
Proof. apply fan_in_is_bounded_prefix_spec. Qed.

(** Below the limit the reverse queries by type mirror the forward ones: a
    class is derived from another exactly when that one is among its bases, and
    so for interfaces, trait bounds, elements, handlers and references; every
    answer is listed once. *)
Theorem reverse_queries_mirror_forward t i c :
  (length (get_callers_by_callee_entity i x) < MAX_REVERSE_FANIN)%nat →
  (c ∈ get_callers_by_callee_and_type i t x ↔
   i ∈ omap callee_id (get_relations_from_entity_by_type c t x)) ∧
  NoDup (get_callers_by_callee_and_type i t x).
Proof.
  intros Hlt. destruct (fan_in_is_bounded_prefix_spec i) as (Hs & _ & _ & _ & Hall & Hr).
  simpl in *. set (rs := of_type t (index_relations_to i x)).
  assert (Hcap : (0 < MAX_REVERSE_FANIN)%nat) by (unfold MAX_REVERSE_FANIN; lia).
  destruct (distinct_callers_spec MAX_REVERSE_FANIN rs [] (NoDup_nil_2) Hcap)
    as (H1 & H2 & H3 & _ & H5). set (cs := distinct_callers _ rs []) in *.
  assert (Hrs : ∀ r, r ∈ rs ↔ relation_type r = t ∧ caller r ∈ index_callers i x ∧
    r ∈ edges_of (caller r) (relations x) ∧ callee_id r = Some i).
  { intros r. unfold rs, of_type. rewrite elem_of_retain, bool_decide_eq_true, Hr. tauto. }
  assert (Hsub : ∀ d, d ∈ cs → d ∈ index_callers i x).
  { intros d [Hd|(r & Hin & <-)]%H3; [by apply elem_of_nil in Hd|]. by apply Hrs in Hin as (_ & ? & _). }
  assert (Hlen : (length cs < MAX_REVERSE_FANIN)%nat).
  { eapply Nat.le_lt_trans; [|exact Hlt]. by apply submseteq_length, NoDup_submseteq. }
  split; [|done]. rewrite list_elem_of_omap. unfold get_relations_from_entity_by_type, of_type. simpl.
  setoid_rewrite elem_of_retain. setoid_rewrite bool_decide_eq_true.
  assert (Hedges : default [] (edges <$> resolved_relation_index (relations x) !! c) =
    edges_of c (relations x)) by (unfold edges_of; by destruct (_ !! c)).
  rewrite Hedges. split.
  - intros [Hd|(r & Hin & <-)]%H3; [by apply elem_of_nil in Hd|].
    apply Hrs in Hin as (? & _ & ? & ?). eauto.
  - intros (r & [Hin Ht] & Hi). assert (caller r = c) as Hc.
    { unfold edges_of in Hin. destruct (resolved_relation_index (relations x) !! c) as [es|] eqn:E;
        [|by apply elem_of_nil in Hin]. apply (entry_caller c es); [by apply (ok_entries _ Hx)|done]. }
    rewrite <- Hc. apply (H5 Hlen), Hrs. rewrite Hc. split_and!; [done| |done|done].
    apply (Hall Hlt). by exists r.
Qed.
End taken.
End snapshot.

(** ** Examples *)

#[local] Instance demo_iter_id : SetIter EntityId := elements_iter.
#[local] Instance demo_iter_file : SetIter string := elements_iter.
#[local] Instance demo_iter_key : SetIter SymbolKey := elements_iter.

(** The class 2 extends 1 and calls it, 3 extends 1. *)
Definition demo_classes : @RelationIndex unit :=
  {| entities := EntityIndex.new;
     relations := add_resolved_relations
       [call_edge 2 1 Inheritance 10; call_edge 2 1 DirectCall 20; call_edge 3 1 Inheritance 30]
       new_relations;
     symbols := SymbolIndex.new_registry; file_records := ∅; dependency_graph := Graph.new |}.

Lemma demo_classes_ok : relations_ok (relations demo_classes).
Proof. apply add_resolved_all_ok, new_relations_ok. Qed.

Theorem snapshot_answers_as_index_witness :
  get_callers_by_callee_entity 1 (from_index_shared demo_classes) =
  get_callers_by_callee_entity 1 demo_classes.
Proof. apply (snapshot_answers_as_index demo_classes demo_classes_ok). Defined.

Theorem fan_in_is_bounded_prefix_witness :
  sorted Z.ltb (get_callers_by_callee_entity 1 demo_classes) ∧
  3 ∈ get_callers_by_callee_entity 1 demo_classes.
Proof.
  destruct (fan_in_is_bounded_prefix demo_classes demo_classes_ok 1) as (H1 & _ & _ & _ & H2 & _).
  split; [exact H1|]. apply H2; [vm_compute; lia|]. exists (call_edge 3 1 Inheritance 30).
  split; [vm_compute; by left|reflexivity].
Defined.

Theorem reverse_queries_mirror_forward_witness :
  3 ∈ get_derived_classes 1 demo_classes ∧ ¬ 2 ∈ get_implementing_classes 1 demo_classes.
Proof.
  assert (Hlt : (length (get_callers_by_callee_entity 1 demo_classes) < MAX_REVERSE_FANIN)%nat)
    by (vm_compute; lia).
  split.
  - apply (reverse_queries_mirror_forward demo_classes demo_classes_ok Inheritance 1 3 Hlt).
    apply (bool_decide_unpack _). vm_compute. exact I.
  - intros Hc. apply (reverse_queries_mirror_forward demo_classes demo_classes_ok Implementation 1 2 Hlt)
      in Hc. vm_compute in Hc. by apply elem_of_nil in Hc.
Defined.

End RelationQuery.
