(* ===== verification/TransitiveDeps.v ===== *)
(** * Transitive file dependencies of a snapshot

    Models [TransitiveFileDeps] of crates/parser/cce-codegraph/src/index/
    snapshot_index/query_optimized.rs: the direct dependencies between files,
    from the dependency graph and from relations that cross files, and the
    rounds that propagate them. *)

From S2P Require Import Prelude MultiMap SortedVec Kinds EntityDiff DependencyGraph EdgeSet.
From S2P Require Import GraphSort GraphSearch EntityIndex SymbolIndex RelationIndex DeltaDiff.
From stdpp Require Import fin_sets.
From Stdlib Require Import ZArith Lia.

Module TransitiveDeps.
Import EdgeSet RelationIndex DeltaDiff.

Abbreviation FileMap := (gmap string (gset string)).

Record TransitiveFileDeps := {
  transitive_dependents : FileMap;
  transitive_dependencies : FileMap;
}.

(** [entry(file).or_default()] *)
Definition ensure (f : string) (m : FileMap) : FileMap := <[f := values_at m f]> m.

Definition ensure_file (t : TransitiveFileDeps) (f : string) : TransitiveFileDeps :=
  {| transitive_dependents := ensure f (transitive_dependents t);
     transitive_dependencies := ensure f (transitive_dependencies t) |}.

(** [file] depends on [dep]. *)
Definition add_pair (t : TransitiveFileDeps) (p : string * string) : TransitiveFileDeps :=
  {| transitive_dependents := add_value p.2 p.1 (transitive_dependents t);
     transitive_dependencies := add_value p.1 p.2 (transitive_dependencies t) |}.

(** The files one relation connects. *)
Definition crossing (files : gmap EntityId string) (caller_file : string) (r : ResolvedRelation)
    : option (string * string) :=
  i ← callee_id r;
  callee_file ← files !! i;
  if decide (caller_file = callee_file) then None else Some (caller_file, callee_file).

Section order.
Context {StandardizedImport : Type} `{!SetIter EntityId, !SetIter string}.
Abbreviation Index := (@RelationIndex StandardizedImport).

(** The direct dependencies in the order they are entered. *)
Definition direct_pairs (x : Index) : list (string * string) :=
  let files := EntityIndex.entity_file_index (entities x) in
  (Graph.get_all_files (dependency_graph x) ≫= λ f,
     map (pair f) (Graph.get_dependencies f (dependency_graph x)))
  ++ (entries (file_relation_index (relations x)) ≫= λ p, omap (crossing files p.1) (edges p.2))
  ++ (entries (resolved_relation_index (relations x)) ≫= λ p,
        match files !! p.1 with
        | Some f => omap (crossing files f) (edges p.2)
        | None => []
        end).

Definition known_files (x : Index) : list string :=
  set_iter (dom (file_records x)) ++ Graph.get_all_files (dependency_graph x)
  ++ set_iter (dom (file_relation_index (relations x))).

Definition direct_deps (x : Index) : TransitiveFileDeps :=
  foldl add_pair
    (foldl ensure_file {| transitive_dependents := ∅; transitive_dependencies := ∅ |} (known_files x))
    (direct_pairs x).

(** One file of one round. *)
Definition propagate_file (st : FileMap * bool) (key : string) : FileMap * bool :=
  let '(m, changed) := st in
  let current := values_at m key in
  let new_deps := (current ∪ ⋃ (values_at m <$> elements current)) ∖ {[key]} in
  if (size current <? size new_deps)%nat then (<[key := new_deps]> m, true) else st.

Definition propagate_round (m : FileMap) : FileMap * bool :=
  foldl propagate_file (m, false) (set_iter (dom m)).

Fixpoint propagate (max_depth : nat) (m : FileMap) : FileMap :=
  match max_depth with
  | O => m
  | S max_depth =>
      let '(m, changed) := propagate_round m in
      if changed then propagate max_depth m else m
  end.

Definition from_relation_index (max_depth : nat) (x : Index) : TransitiveFileDeps :=
  let t := direct_deps x in
  {| transitive_dependents := propagate max_depth (transitive_dependents t);
     transitive_dependencies := propagate max_depth (transitive_dependencies t) |}.

(** [from_index_shared] passes this depth. *)
Definition SNAPSHOT_DEPTH : nat := 10.

Definition listed (m : FileMap) (f : string) : list string :=
  match m !! f with
  | Some s => merge_sort String.le (elements s)
  | None => []
  end.

Definition transitive_dependents_of (t : TransitiveFileDeps) := listed (transitive_dependents t).
Definition transitive_dependencies_of (t : TransitiveFileDeps) := listed (transitive_dependencies t).
End order.

(** ** The propagation *)

Definition below (m m' : FileMap) : Prop := ∀ x, values_at m x ⊆ values_at m' x.
Definition irreflexive_at (m : FileMap) : Prop := ∀ x, x ∉ values_at m x.

(** One file further at most. *)
Definition two_step (m : FileMap) (x y : string) : Prop :=
  y ∈ values_at m x ∨ ∃ d, d ∈ values_at m x ∧ y ∈ values_at m d.

#[local] Instance below_preorder : PreOrder below.
Proof.
  split; [intros m x; reflexivity|]. intros m1 m2 m3 H1 H2 x. by transitivity (values_at m2 x).
Qed.

Lemma two_step_below m m' x y : below m m' → two_step m x y → two_step m' x y.
Proof. unfold two_step, below. set_solver. Qed.

Lemma propagate_file_spec m changed key :
  irreflexive_at m →
  let '(m', changed') := propagate_file (m, changed) key in
  (∀ y, y ∈ values_at m' key ↔ y ≠ key ∧ two_step m key y) ∧
  (∀ x, x ≠ key → values_at m' x = values_at m x) ∧
  (changed' = false → m' = m ∧ changed = false).
Proof.
  intros Hm. simpl. set (new := _ ∖ {[key]}).
  assert (Hnew : ∀ y, y ∈ new ↔ y ≠ key ∧ two_step m key y).
  { intros y. unfold new, two_step. rewrite elem_of_difference, elem_of_union, elem_of_union_list,
      not_elem_of_singleton. setoid_rewrite list_elem_of_fmap. setoid_rewrite elem_of_elements.
    naive_solver. }
  assert (Hsub : values_at m key ⊆ new).
  { intros y Hy. apply Hnew. split; [by intros ->; apply (Hm key)|by left]. }
  destruct (size (values_at m key) <? size new)%nat eqn:E.
  - split_and!; [| |done].
    + intros y. rewrite values_at_insert, decide_True by done. apply Hnew.
    + intros x Hx. by rewrite values_at_insert, decide_False.
  - apply Nat.ltb_ge in E. assert (values_at m key = new) as Heq.
    { by apply set_subseteq_size_eq. }
    split_and!; [by rewrite Heq|done|done].
Qed.

Lemma propagate_file_grows m changed key :
  irreflexive_at m →
  let m' := (propagate_file (m, changed) key).1 in below m m' ∧ irreflexive_at m'.
Proof.
  intros Hm. pose proof (propagate_file_spec m changed key Hm) as Hs. cbv zeta.
  destruct (propagate_file (m, changed) key) as [m' changed']. destruct Hs as (H1 & H2 & _). simpl. split.
  - intros x y Hy. destruct (decide (x = key)) as [->|Hne]; [|by rewrite H2].
    apply H1. split; [by intros ->; apply (Hm key)|by left].
  - intros x Hx. destruct (decide (x = key)) as [->|Hne]; [by apply H1 in Hx as [? _]|].
    rewrite H2 in Hx by done. by apply (Hm x).
Qed.

(** The files of a list, one after the other: the sets grow, those of the list
    by everything one step further. *)
Lemma propagate_files_spec keys m changed :
  irreflexive_at m →
  let '(m', changed') := foldl propagate_file (m, changed) keys in
  below m m' ∧ irreflexive_at m' ∧
  (∀ x y, x ∈ keys → x ≠ y → two_step m x y → y ∈ values_at m' x) ∧
  (changed' = false → m' = m ∧ changed = false).
Proof.
  revert m changed. induction keys as [|key keys IH]; intros m changed Hm; cbn [foldl].
  { split_and!; [done|done|set_solver|done]. }
  pose proof (propagate_file_spec m changed key Hm) as Hs.
  destruct (propagate_file_grows m changed key Hm) as [Hb Hi].
  destruct (propagate_file (m, changed) key) as [m1 changed1]. destruct Hs as (H1 & H2 & H3). simpl in Hb, Hi.
  specialize (IH m1 changed1 Hi). destruct (foldl _ _ keys) as [m' changed'].
  destruct IH as (I1 & I2 & I3 & I4). split_and!; [by etrans|done| |].
  - intros x y [->|Hx]%elem_of_cons Hne Ht.
    + apply I1, H1. by split.
    + apply I3; [done..|]. by apply (two_step_below m).
  - intros Hc. destruct (I4 Hc) as [-> Hc1]. by apply H3.
Qed.

Section closure.
Context (m0 : FileMap) (Hm0 : irreflexive_at m0).

Definition edge (x y : string) : Prop := y ∈ values_at m0 x.

(** Only what is reachable is entered. *)
Definition sound (m : FileMap) : Prop := ∀ x y, y ∈ values_at m x → tc edge x y.

(** Everything within [2 ^ j] steps is. *)
Definition covers (j : nat) (m : FileMap) : Prop :=
  ∀ k x y, nsteps edge k x y → (0 < k ≤ 2 ^ j)%nat → x ≠ y → y ∈ values_at m x.

Lemma two_step_sound m x y : sound m → two_step m x y → tc edge x y.
Proof. intros Hs [Hy|(d & Hd & Hy)]; [by apply Hs|]. etrans; by apply Hs. Qed.

Lemma propagate_files_sound keys m changed :
  irreflexive_at m → sound m → sound (foldl propagate_file (m, changed) keys).1.
Proof.
  revert m changed. induction keys as [|key keys IH]; intros m changed Hm Hs; [done|]. cbn [foldl].
  pose proof (propagate_file_spec m changed key Hm) as Hsp.
  destruct (propagate_file_grows m changed key Hm) as [_ Hi].
  destruct (propagate_file (m, changed) key) as [m1 changed1]. destruct Hsp as (H1 & H2 & _). simpl in Hi.
  apply IH; [done|]. intros x y Hy. destruct (decide (x = key)) as [->|Hne].
  - apply H1 in Hy as [_ Hy]. by apply (two_step_sound m).
  - rewrite H2 in Hy by done. by apply Hs.
Qed.

Lemma covers_double j m m' :
  covers j m → (∀ x y, x ≠ y → two_step m x y → y ∈ values_at m' x) → covers (S j) m'.
Proof.
  intros Hc Hm' k x y Hxy Hk Hne. apply Hm'; [done|]. simpl in Hk.
  destruct (decide (k ≤ 2 ^ j)%nat) as [Hle|Hgt]; [left; apply (Hc k); [done|lia|done]|].
  replace k with (2 ^ j + (k - 2 ^ j))%nat in Hxy by lia.
  apply nsteps_add_inv in Hxy as (z & Hxz & Hzy).
  assert (0 < 2 ^ j)%nat by (pose proof (Nat.pow_nonzero 2 j); lia).
  destruct (decide (x = z)) as [->|Hxz']; [left; apply (Hc _ _ _ Hzy); [lia|done]|].
  destruct (decide (z = y)) as [->|Hzy']; [left; apply (Hc _ _ _ Hxz); [lia|done]|].
  right. exists z. split; [apply (Hc _ _ _ Hxz)|apply (Hc _ _ _ Hzy)]; done || lia.
Qed.

Lemma covers_weaken i j m : (i ≤ j)%nat → covers j m → covers i m.
Proof.
  intros Hij Hc k x y Hxy Hk. apply (Hc k); [done|].
  pose proof (Nat.pow_le_mono_r 2 i j ltac:(done) Hij). lia.
Qed.
End closure.

Section rounds.
Context `{!SetIter string}.
Context (m0 : FileMap) (Hm0 : irreflexive_at m0).

Lemma propagate_round_spec m :
  irreflexive_at m →
  let '(m', changed) := propagate_round m in
  irreflexive_at m' ∧ (sound m0 m → sound m0 m') ∧
  (∀ x y, x ≠ y → two_step m x y → y ∈ values_at m' x) ∧ (changed = false → m' = m).
Proof.
  intros Hm. unfold propagate_round.
  pose proof (propagate_files_spec (set_iter (dom m)) m false Hm) as Hs.
  pose proof (propagate_files_sound m0 (set_iter (dom m)) m false Hm) as Hsound.
  destruct (foldl _ _ _) as [m' changed']. destruct Hs as (_ & H1 & H2 & H3).
  split_and!; [done|done| |by intros [? _]%H3]. intros x y Hne Ht. apply H2; [|done|done].
  apply elem_of_set_iter, elem_of_dom. unfold two_step, values_at in Ht.
  destruct (m !! x); [done|]. simpl in Ht. set_solver.
Qed.

(** A round that changes nothing has nothing left to enter. *)
Lemma closed_covers j m :
  (∀ x y, x ≠ y → two_step m x y → y ∈ values_at m x) → covers m0 0 m → covers m0 j m.
Proof. intros Hc H0. induction j as [|j IH]; [done|]. by apply (covers_double m0 j m m). Qed.

Lemma propagate_spec n j m :
  irreflexive_at m → sound m0 m → covers m0 j m →
  sound m0 (propagate n m) ∧ covers m0 (j + n) (propagate n m) ∧ irreflexive_at (propagate n m).
Proof.
  revert j m. induction n as [|n IH]; intros j m Hm Hs Hc; cbn [propagate].
  { by rewrite Nat.add_0_r. }
  pose proof (propagate_round_spec m Hm) as Hr. destruct (propagate_round m) as [m' changed].
  destruct Hr as (H1 & H2 & H3 & H4). destruct changed.
  - replace (j + S n)%nat with (S j + n)%nat by lia. apply IH; [done|by apply H2|].
    by apply (covers_double m0 j m m').
  - rewrite (H4 eq_refl) in *. split_and!; [done| |done]. apply closed_covers; [done|].
    by apply (covers_weaken m0 0 j); [lia|].
Qed.
End rounds.

(** ** The dependencies of an index *)

Section index.
Context {StandardizedImport : Type} `{!SetIter EntityId, !SetIter string}.
Abbreviation Index := (@RelationIndex StandardizedImport).

(** [a] depends directly on [b]: in the dependency graph, or by a relation of
    the file or of one of its entities that leads to an entity of [b]. *)
Definition direct (x : Index) (a b : string) : Prop :=
  Graph.depends (dependency_graph x) a b ∨
  a ≠ b ∧ ∃ i, file_of x i = Some b ∧
    (mentions (file_edges_of a (relations x)) i ∨
     ∃ c, file_of x c = Some a ∧ mentions (edges_of c (relations x)) i).

Lemma crossing_Some files f r a b :
  crossing files f r = Some (a, b) ↔ a = f ∧ a ≠ b ∧ ∃ i, callee_id r = Some i ∧ files !! i = Some b.
Proof.
  unfold crossing. destruct (callee_id r) as [i|]; simpl; [|naive_solver].
  destruct (files !! i) as [g|] eqn:E; simpl; [|naive_solver].
  destruct (decide (f = g)) as [->|Hne]; naive_solver.
Qed.

Lemma crossing_edges files f es a b :
  (a, b) ∈ omap (crossing files f) es ↔
  a = f ∧ a ≠ b ∧ ∃ i, mentions es i ∧ files !! i = Some b.
Proof.
  rewrite list_elem_of_omap. setoid_rewrite crossing_Some. unfold mentions. naive_solver.
Qed.

Lemma direct_pairs_spec (x : Index) a b :
  Graph.wf (dependency_graph x) → (a, b) ∈ direct_pairs x ↔ direct x a b.
Proof.
  intros Hwf. unfold direct_pairs, direct. rewrite !elem_of_app, !list_elem_of_bind. split.
  - intros [(f & Hp & _)|[([f es] & Hp & Hf)|([c es] & Hp & Hc)]].
    + apply list_elem_of_fmap in Hp as (d & [= -> ->] & Hd). left.
      by apply GraphSort.elem_of_get_dependencies in Hd.
    + apply elem_of_entries in Hf. apply crossing_edges in Hp as (-> & Hne & i & Hm & Hi).
      right. split; [done|]. exists i. split; [done|]. left. unfold file_edges_of. simpl in *. by rewrite Hf.
    + apply elem_of_entries in Hc. simpl in Hp.
      destruct (EntityIndex.entity_file_index (entities x) !! c) as [f|] eqn:Ef; [|by apply elem_of_nil in Hp].
      apply crossing_edges in Hp as (-> & Hne & i & Hm & Hi).
      right. split; [done|]. exists i. split; [done|]. right. exists c. split; [done|].
      unfold edges_of. by rewrite Hc.
  - intros [Hd|(Hne & i & Hi & [Hm|(c & Hc & Hm)])].
    + left. exists a. split.
      * apply list_elem_of_fmap. exists b. split; [done|]. by apply GraphSort.elem_of_get_dependencies.
      * unfold Graph.get_all_files. apply elem_of_set_iter, (Graph.elem_of_files_of _ _ Hwf). exists b. by left.
    + right. left. unfold file_edges_of in Hm.
      destruct (file_relation_index (relations x) !! a) as [es|] eqn:E; [|by apply mentions_nil in Hm].
      exists (a, es). rewrite elem_of_entries. split; [|done]. apply crossing_edges. eauto.
    + right. right. unfold edges_of in Hm.
      destruct (resolved_relation_index (relations x) !! c) as [es|] eqn:E; [|by apply mentions_nil in Hm].
      exists (c, es). rewrite elem_of_entries. split; [|done]. simpl. unfold file_of in Hc. rewrite Hc.
      apply crossing_edges. eauto.
Qed.

Lemma ensure_files_spec l t f :
  values_at (transitive_dependents (foldl ensure_file t l)) f = values_at (transitive_dependents t) f ∧
  values_at (transitive_dependencies (foldl ensure_file t l)) f = values_at (transitive_dependencies t) f.
Proof.
  revert t. induction l as [|g l IH]; intros t; [done|]. cbn [foldl].
  destruct (IH (ensure_file t g)) as [-> ->]. simpl. unfold ensure. rewrite !values_at_insert.
  by destruct (decide (g = f)) as [->|].
Qed.

Lemma add_pairs_spec l t a b :
  (b ∈ values_at (transitive_dependencies (foldl add_pair t l)) a ↔
   b ∈ values_at (transitive_dependencies t) a ∨ (a, b) ∈ l) ∧
  (a ∈ values_at (transitive_dependents (foldl add_pair t l)) b ↔
   a ∈ values_at (transitive_dependents t) b ∨ (a, b) ∈ l).
Proof.
  revert t. induction l as [|[c d] l IH]; intros t; cbn [foldl]; [rewrite elem_of_nil; tauto|].
  destruct (IH (add_pair t (c, d))) as [-> ->]. simpl. rewrite !elem_of_add_value, elem_of_cons.
  split; naive_solver.
Qed.

Lemma direct_deps_spec (x : Index) a b :
  Graph.wf (dependency_graph x) →
  (b ∈ values_at (transitive_dependencies (direct_deps x)) a ↔ direct x a b) ∧
  (a ∈ values_at (transitive_dependents (direct_deps x)) b ↔ direct x a b).
Proof.
  intros Hwf. unfold direct_deps. rewrite <- (direct_pairs_spec x a b Hwf).
  set (t0 := foldl ensure_file _ _).
  assert (∀ f, values_at (transitive_dependents t0) f = ∅ ∧ values_at (transitive_dependencies t0) f = ∅)
    as H0.
  { intros f. unfold t0. destruct (ensure_files_spec (known_files x)
      {| transitive_dependents := ∅; transitive_dependencies := ∅ |} f) as [-> ->].
    simpl. by rewrite values_at_empty. }
  destruct (add_pairs_spec (direct_pairs x) t0 a b) as [-> ->].
  rewrite (proj1 (H0 b)), (proj2 (H0 a)), !elem_of_empty. tauto.
Qed.

Lemma direct_irrefl (x : Index) a : Graph.wf (dependency_graph x) → ¬ direct x a a.
Proof. intros Hwf [Hd|[Hne _]]; [by apply (Graph.wf_irrefl _ Hwf a)|done]. Qed.

Lemma elem_of_listed m f g : g ∈ listed m f ↔ g ∈ values_at m f.
Proof.
  unfold listed, values_at. destruct (m !! f) as [s|]; simpl; [|set_solver].
  by rewrite merge_sort_Permutation, elem_of_elements.
Qed.

Lemma listed_NoDup m f : NoDup (listed m f).
Proof.
  unfold listed. destruct (m !! f) as [s|]; [|constructor].
  rewrite merge_sort_Permutation. apply NoDup_elements.
Qed.

(** What one of the two maps lists after its rounds. *)
Lemma propagated_listed n m0 (D : relation string) f g :
  irreflexive_at m0 → (∀ a b, edge m0 a b ↔ D b a) →
  (g ∈ listed (propagate n m0) f → f ≠ g ∧ tc D g f) ∧
  (∀ k, nsteps D k g f → (0 < k ≤ 2 ^ n)%nat → f ≠ g → g ∈ listed (propagate n m0) f).
Proof.
  intros Hm0 HD. destruct (propagate_spec m0 Hm0 n 0 m0 Hm0) as (Hs & Hc & Hi).
  - intros x y Hy. by apply tc_once.
  - intros k x y Hxy Hk _. simpl in Hk. assert (k = 1)%nat as -> by lia.
    by apply nsteps_once_inv in Hxy.
  - setoid_rewrite elem_of_listed. split.
    + intros Hg. split; [intros ->; by apply (Hi g)|]. apply Hs, tc_nsteps in Hg as (k & Hk & Hg).
      apply tc_nsteps. exists k. split; [done|]. by apply (GraphSearch.nsteps_flip (edge m0)).
    + intros k Hk Hlen Hne. apply (Hc k); [|done..]. apply (GraphSearch.nsteps_flip D); [|done].
      intros a b. by rewrite HD.
Qed.

(** The transitive dependencies and dependents of a file list each file once,
    only files that are reached through direct dependencies and never the file
    itself, and all files within [2 ^ n] steps for [n] rounds, in whatever
    order files are visited. *)
Theorem transitive_deps_reach (x : Index) n f g :
  Graph.wf (dependency_graph x) →
  let t := from_relation_index n x in
  (g ∈ transitive_dependencies_of t f → f ≠ g ∧ tc (direct x) f g) ∧
  (f ∈ transitive_dependents_of t g → f ≠ g ∧ tc (direct x) f g) ∧
  (∀ k, nsteps (direct x) k f g → (0 < k ≤ 2 ^ n)%nat → f ≠ g →
     g ∈ transitive_dependencies_of t f ∧ f ∈ transitive_dependents_of t g) ∧
  NoDup (transitive_dependencies_of t f) ∧ NoDup (transitive_dependents_of t g).
Proof.
  intros Hwf. unfold transitive_dependencies_of, transitive_dependents_of. simpl.
  set (fwd := transitive_dependencies (direct_deps x)). set (rev := transitive_dependents (direct_deps x)).
  assert (Hf : ∀ a b, edge fwd a b ↔ direct x a b) by (intros a b; by apply direct_deps_spec).
  assert (Hr : ∀ a b, edge rev a b ↔ direct x b a) by (intros a b; by apply direct_deps_spec).
  assert (irreflexive_at fwd) as If by (intros a Ha; by apply Hf, direct_irrefl in Ha).
  assert (irreflexive_at rev) as Ir by (intros a Ha; by apply Hr, direct_irrefl in Ha).
  destruct (propagated_listed n rev (direct x) g f Ir Hr) as [R1 R2].
  destruct (propagated_listed n fwd (flip (direct x)) f g If Hf) as [F1 F2].
  split_and!; [| | |apply listed_NoDup..].
  - intros [Hne Hg]%F1. split; [done|]. apply tc_nsteps in Hg as (k & Hk & Hg).
    apply tc_nsteps. exists k. split; [done|]. by apply (GraphSearch.nsteps_flip (flip (direct x))).
  - intros [Hne Hg]%R1. done.
  - intros k Hk Hlen Hne. split; [|by apply (R2 k)]. apply (F2 k); [|done..].
    by apply (GraphSearch.nsteps_flip (direct x)).
Qed.
End index.

(** ** Examples *)

#[local] Instance demo_iter_id : SetIter EntityId := elements_iter.
#[local] Instance demo_iter_file : SetIter string := elements_iter.

(** a.rs depends on b.rs, b.rs on c.rs. *)
Definition demo_chain : @RelationIndex unit :=
  {| entities := EntityIndex.new; relations := new_relations; symbols := SymbolIndex.new_registry;
     file_records := ∅;
     dependency_graph := Graph.add_dependency "b.rs" "c.rs" (Graph.add_dependency "a.rs" "b.rs" Graph.new) |}.

Lemma demo_chain_wf : Graph.wf (dependency_graph demo_chain).
Proof. apply Graph.wf_add, Graph.wf_add, Graph.wf_new. Qed.

Theorem transitive_deps_reach_witness :
  "c.rs" ∈ transitive_dependencies_of (from_relation_index SNAPSHOT_DEPTH demo_chain) "a.rs" ∧
  "a.rs" ∈ transitive_dependents_of (from_relation_index SNAPSHOT_DEPTH demo_chain) "c.rs".
Proof.
  destruct (transitive_deps_reach demo_chain SNAPSHOT_DEPTH "a.rs" "c.rs" demo_chain_wf)
    as (_ & _ & H & _).
  apply (H 2%nat); [|unfold SNAPSHOT_DEPTH; simpl; lia|done].
  apply (nsteps_l _ 1 _ "b.rs"); [|apply nsteps_once]; left; apply (bool_decide_unpack _);
    vm_compute; exact I.
Defined.

End TransitiveDeps.
