(* ===== verification/Layered.v ===== *)
(** * Layered snapshots

    Models [LayeredSnapshotIndex] of crates/parser/cce-codegraph/src/index/
    snapshot_index.rs: an immutable snapshot with a chain of deltas on top that
    are merged while reading. Its view (index/snapshot_view/
    layered_view_impl.rs) and its queries (index/snapshot_query/
    layered_impls.rs) are two implementations of the merge. *)

From S2P Require Import Prelude MultiMap SortedVec Kinds EntityDiff DependencyGraph EdgeSet.
From S2P Require Import EntityIndex SymbolIndex RelationIndex DeltaDiff DeltaApply RelationQuery.
From S2P Require Import TransitiveDeps.
From stdpp Require Import fin_sets.
From Stdlib Require Import ZArith Lia.
#[local] Open Scope Z_scope.

Module Layered.
Import Kinds EdgeSet RelationIndex DeltaDiff RelationQuery.

#[local] Existing Instances SymbolIndex.SymbolKey_eq_dec SymbolIndex.SymbolKey_countable.

Definition LAYERED_CHAIN_COMPACTION_THRESHOLD : nat := 20.

(** A hash map filled from a list. *)
Definition to_map {K A : Type} `{Countable K} (l : list (K * A)) : gmap K A :=
  foldl (λ m p, <[p.1 := p.2]> m) ∅ l.

Definition remove_keys {K A : Type} `{Countable K} (ks : list K) (m : gmap K A) : gmap K A :=
  foldl (λ m k, delete k m) m ks.

(** The edges without those of some identities, and with those added whose
    identity is new. *)
Definition without_edges (removed : list ResolvedRelation) (rs : list ResolvedRelation)
    : list ResolvedRelation :=
  Prelude.retain
    (λ r, negb (bool_decide (relation_identity r ∈ map relation_identity removed))) rs.

Definition push_edge (rs : list ResolvedRelation) (r : ResolvedRelation) : list ResolvedRelation :=
  if existsb (λ e, bool_decide (relation_identity e = relation_identity r)) rs then rs else rs ++ [r].

Definition from_caller (c : EntityId) (rs : list ResolvedRelation) : list ResolvedRelation :=
  Prelude.retain (λ r, bool_decide (caller r = c)) rs.

(** [find] by a predicate. *)
Definition find_first {A : Type} (p : A → bool) (l : list A) : option A :=
  head (Prelude.retain p l).

Definition added_as (i : EntityId) (a : AddedEntity) : bool :=
  bool_decide (EntityDiff.id (added_entity a) = i).

Section layered.
Context {StandardizedImport : Type} `{!EqDecision StandardizedImport}.
Context `{!SetIter EntityId, !SetIter string, !SetIter SymbolKey}.
Abbreviation Snapshot := (@RelationSnapshotIndex StandardizedImport).
Abbreviation Delta := (@SnapshotDelta StandardizedImport).
Abbreviation Table := (@ImportTable StandardizedImport).

Record LayeredSnapshotIndex := { base : Snapshot; deltas : list Delta }.

Definition new (b : Snapshot) : LayeredSnapshotIndex := {| base := b; deltas := [] |}.
Definition with_delta (b : Snapshot) (d : Delta) : LayeredSnapshotIndex :=
  {| base := b; deltas := [d] |}.
Definition with_deltas (b : Snapshot) (ds : list Delta) : LayeredSnapshotIndex :=
  {| base := b; deltas := ds |}.
Definition chain_len (x : LayeredSnapshotIndex) : nat := length (deltas x).
Definition should_compact (x : LayeredSnapshotIndex) : bool :=
  (LAYERED_CHAIN_COMPACTION_THRESHOLD <? length (deltas x))%nat.
Definition empty : LayeredSnapshotIndex := new (from_index_shared RelationIndex.new).

Definition removes_entity (i : EntityId) (d : Delta) : bool :=
  bool_decide (i ∈ removed_entities d).
Definition adds_entity (i : EntityId) (d : Delta) : bool := existsb (added_as i) (added_entities d).
Definition removes_file (f : string) (d : Delta) : bool := bool_decide (f ∈ removed_files d).
Definition adds_path (f : string) (d : Delta) : bool :=
  existsb (λ i, bool_decide (info_path i = f)) (added_files d).

Definition is_removed_entity (i : EntityId) (x : LayeredSnapshotIndex) : bool :=
  existsb (removes_entity i) (deltas x).
Definition is_removed_file (f : string) (x : LayeredSnapshotIndex) : bool :=
  existsb (removes_file f) (deltas x).

Definition merged_entity_id_by_symbol_key (k : SymbolKey) (x : LayeredSnapshotIndex)
    : option EntityId :=
  match find_first (λ a, bool_decide (added_key a = k)) (deltas x ≫= added_entities) with
  | Some a => Some (EntityDiff.id (added_entity a))
  | None => get_entity_id_by_symbol_key k (base x)
  end.

(** ** The view *)

(** *** Files *)

Definition file_contains (f : string) (x : LayeredSnapshotIndex) : bool :=
  foldl (λ contains d,
      let contains := if removes_file f d then false else contains in
      if adds_path f d then true else contains)
    (view_file_contains (base x) f) (deltas x).

Definition merge_files (m : gmap string FileInfo) (d : Delta) : gmap string FileInfo :=
  foldl (λ m i, <[info_path i := i]> m) (remove_keys (removed_files d) m) (added_files d).

Definition merged_files (x : LayeredSnapshotIndex) : gmap string FileInfo :=
  foldl merge_files (to_map (view_files (base x))) (deltas x).

(** First all removals of the file, then all additions. *)
Definition merge_file_relations (f : string) (rs : list ResolvedRelation) (d : Delta)
    : list ResolvedRelation :=
  let rs := if removes_file f d then [] else rs in
  let diffs := Prelude.retain (λ fd, bool_decide (relation_diff_path fd = f)) (file_relation_diffs d) in
  let rs := foldl (λ rs fd, without_edges (removed_file_relations fd) rs) rs diffs in
  foldl (λ rs fd, foldl push_edge rs (added_file_relations fd)) rs diffs.

Definition file_relations_of (f : string) (x : LayeredSnapshotIndex) : list ResolvedRelation :=
  foldl (merge_file_relations f)
    (if is_removed_file f x then [] else view_file_relations_of (base x) f) (deltas x).

Definition merge_file_diff (m : gmap string (list ResolvedRelation)) (fd : FileRelationDiff)
    : gmap string (list ResolvedRelation) :=
  let rs := default [] (m !! relation_diff_path fd) in
  let rs := without_edges (removed_file_relations fd) rs in
  <[relation_diff_path fd := foldl push_edge rs (added_file_relations fd)]> m.

Definition merged_file_relations (x : LayeredSnapshotIndex) : gmap string (list ResolvedRelation) :=
  foldl (λ m d, foldl merge_file_diff (remove_keys (removed_files d) m) (file_relation_diffs d))
    (to_map (view_file_relations (base x))) (deltas x).

(** The entries with edges. *)
Definition nonempty_entries {K A : Type} `{SetIter K} (m : gmap K (list A)) : list (K * list A) :=
  Prelude.retain (λ p, match p.2 with [] => false | _ => true end) (entries m).

(** *** Entities *)

Definition function_contains (i : EntityId) (x : LayeredSnapshotIndex) : bool :=
  foldl (λ contains d,
      let contains := if removes_entity i d then false else contains in
      if adds_entity i d then true else contains)
    (view_function_contains (base x) i) (deltas x).

Definition merge_functions (m : gmap EntityId Entity) (d : Delta) : gmap EntityId Entity :=
  foldl (λ m a, <[EntityDiff.id (added_entity a) := added_entity a]> m)
    (remove_keys (removed_entities d) m) (added_entities d).

Definition merged_functions (x : LayeredSnapshotIndex) : gmap EntityId Entity :=
  foldl merge_functions (to_map (view_functions (base x))) (deltas x).

Definition merge_entity_file (i : EntityId) (file : option string) (d : Delta) : option string :=
  let file := if removes_entity i d then None else file in
  match find_first (added_as i) (added_entities d) with
  | Some a => Some (added_path a)
  | None => file
  end.

Definition entity_file_of (i : EntityId) (x : LayeredSnapshotIndex) : option string :=
  foldl (merge_entity_file i) (view_entity_file_of (base x) i) (deltas x).

(** *** Relations *)

Definition merge_relations (c : EntityId) (rs : list ResolvedRelation) (d : Delta)
    : list ResolvedRelation :=
  without_edges (from_caller c (removed_relations d)) rs ++ from_caller c (added_relations d).

Definition nonempty {A : Type} (l : list A) : option (list A) :=
  match l with [] => None | _ => Some l end.

Definition relations_of (c : EntityId) (x : LayeredSnapshotIndex) : option (list ResolvedRelation) :=
  nonempty
    (foldl (merge_relations c)
       (if is_removed_entity c x then [] else default [] (view_relations_of (base x) c)) (deltas x)).

Definition drop_edge (m : gmap EntityId (list ResolvedRelation)) (r : ResolvedRelation) :=
  match m !! caller r with
  | Some rs => <[caller r := without_edges [r] rs]> m
  | None => m
  end.

Definition push_relation (m : gmap EntityId (list ResolvedRelation)) (r : ResolvedRelation) :=
  <[caller r := default [] (m !! caller r) ++ [r]]> m.

Definition merge_resolved (m : gmap EntityId (list ResolvedRelation)) (d : Delta) :=
  let m := remove_keys (removed_entities d) m in
  foldl push_relation (foldl drop_edge m (removed_relations d)) (added_relations d).

Definition merged_resolved (x : LayeredSnapshotIndex) : gmap EntityId (list ResolvedRelation) :=
  foldl merge_resolved (to_map (view_resolved_relations (base x))) (deltas x).

(** The callers and the set of those seen, which starts from the callers. *)
Definition drop_seen (i : EntityId) (st : list EntityId * gset EntityId) (r : ResolvedRelation) :=
  if decide (callee_id r = Some i)
  then (Prelude.retain (λ c, negb (bool_decide (c = caller r))) st.1, st.2 ∖ {[caller r]})
  else st.

Definition push_seen (i : EntityId) (st : list EntityId * gset EntityId) (r : ResolvedRelation) :=
  if decide (callee_id r = Some i ∧ caller r ∉ st.2)
  then (st.1 ++ [caller r], {[caller r]} ∪ st.2) else st.

Definition merge_callers (i : EntityId) (st : list EntityId * gset EntityId) (d : Delta) :=
  foldl (push_seen i) (foldl (drop_seen i) st (removed_relations d)) (added_relations d).

Definition callers_of (i : EntityId) (x : LayeredSnapshotIndex) : list EntityId :=
  if is_removed_entity i x then []
  else
    let callers := Prelude.retain (λ c, negb (is_removed_entity c x)) (view_callers_of (base x) i) in
    (foldl (merge_callers i) (callers, list_to_set callers) (deltas x)).1.
(** *** Imports and exports *)

(** The first tables of the base, then every delta in order. *)
Definition merge_imports (t : Table) (d : @ImportDiff StandardizedImport) : Table :=
  let kept := Prelude.retain (λ i, negb (bool_decide (i ∈ removed_imports d)))
                (standardized_imports t) in
  {| table_file_id := table_file_id t;
     standardized_imports := foldl DeltaApply.push_new kept (added_imports d) |}.

Definition import_diffs_of (f : string) (d : Delta) : list (@ImportDiff StandardizedImport) :=
  Prelude.retain (λ i, bool_decide (import_diff_path i = f)) (import_diffs d).

Definition imports_of (f : string) (x : LayeredSnapshotIndex) : option Table :=
  if is_removed_file f x then None
  else t ← view_imports_of (base x) f;
       Some (foldl (λ t d, foldl merge_imports t (import_diffs_of f d)) t (deltas x)).

(** [if let Some(v) = map.get_mut(k) { .. }] *)
Definition update {K A : Type} `{Countable K} (k : K) (f : A → A) (m : gmap K A) : gmap K A :=
  match m !! k with Some a => <[k := f a]> m | None => m end.

Definition merged_imports (x : LayeredSnapshotIndex) : gmap string Table :=
  foldl (λ m d,
      foldl (λ m i, update (import_diff_path i) (λ t, merge_imports t i) m)
        (remove_keys (removed_files d) m) (import_diffs d))
    (to_map (view_imports (base x))) (deltas x).

(** Exports that cannot be resolved are skipped. *)
Definition add_export (resolve : SymbolKey → option EntityId) (existing : list string)
    (es : list ExportInfo) (e : CanonicalExport) : list ExportInfo :=
  let n := SymbolIndex.scoped_name (export_symbol e) in
  if decide (n ∈ existing) then es
  else match resolve (export_symbol e) with
       | None => es
       | Some i => es ++ [{| function_id := i; function_name := n;
                             export_type := DeltaApply.export_type_of (export_type_name e) |}]
       end.

Definition merge_exports (resolve : SymbolKey → option EntityId) (es : list ExportInfo)
    (d : ExportDiff) : list ExportInfo :=
  let removed := map (λ e, SymbolIndex.scoped_name (export_symbol e)) (removed_exports d) in
  let kept := Prelude.retain (λ e, negb (bool_decide (function_name e ∈ removed))) es in
  foldl (add_export resolve (map function_name kept)) kept (added_exports d).

Definition view_resolve (x : LayeredSnapshotIndex) (k : SymbolKey) : option EntityId :=
  merged_entity_id_by_symbol_key k x.

Definition export_diffs_of (f : string) (d : Delta) : list ExportDiff :=
  Prelude.retain (λ e, bool_decide (export_diff_path e = f)) (export_diffs d).

Definition exports_of (f : string) (x : LayeredSnapshotIndex) : option (list ExportInfo) :=
  if is_removed_file f x then None
  else es ← view_exports_of (base x) f;
       Some (foldl (λ es d, foldl (merge_exports (view_resolve x)) es (export_diffs_of f d)) es
               (deltas x)).

Definition merged_exports (x : LayeredSnapshotIndex) : gmap string (list ExportInfo) :=
  foldl (λ m d,
      foldl (λ m e, update (export_diff_path e) (λ es, merge_exports (view_resolve x) es e) m)
        (remove_keys (removed_files d) m) (export_diffs d))
    (to_map (view_exports (base x))) (deltas x).

Definition merge_symbol_key (i : EntityId) (key : option SymbolKey) (d : Delta)
    : option SymbolKey :=
  let key := if removes_entity i d then None else key in
  match find_first (added_as i) (added_entities d) with
  | Some a => Some (added_key a)
  | None => key
  end.

Definition symbol_key_of (i : EntityId) (x : LayeredSnapshotIndex) : option SymbolKey :=
  foldl (merge_symbol_key i) (view_symbol_key_of (base x) i) (deltas x).

(** *** Dependencies *)

Definition merge_dependency_files (files : gset string) (d : Delta) : gset string :=
  foldl (λ files dd,
      match added_dependencies dd with
      | [] => files
      | added => {[source_file dd]} ∪ (files ∪ list_to_set added)
      end)
    (files ∖ list_to_set (removed_files d)) (dependency_diffs d).

Definition dependency_files (x : LayeredSnapshotIndex) : list string :=
  set_iter (foldl merge_dependency_files (list_to_set (view_dependency_files (base x))) (deltas x)).

Definition merge_dependencies (f : string) (deps : list string) (d : Delta) : list string :=
  let deps := if removes_file f d then [] else deps in
  let deps := Prelude.retain (λ g, negb (bool_decide (g ∈ removed_files d))) deps in
  foldl (λ deps dd,
      if decide (source_file dd = f) then
        foldl DeltaApply.push_new
          (Prelude.retain (λ g, negb (bool_decide (g ∈ removed_dependencies dd))) deps)
          (added_dependencies dd)
      else deps)
    deps (dependency_diffs d).

Definition dependencies_of (f : string) (x : LayeredSnapshotIndex) : list string :=
  foldl (merge_dependencies f) (view_dependencies_of (base x) f) (deltas x).

Definition merge_dependents (f : string) (fs : list string) (d : Delta) : list string :=
  let fs := Prelude.retain (λ g, negb (bool_decide (g ∈ removed_files d))) fs in
  foldl (λ fs dd,
      let fs := if decide (f ∈ removed_dependencies dd)
                then Prelude.retain (λ g, negb (bool_decide (g = source_file dd))) fs else fs in
      if decide (f ∈ added_dependencies dd) then DeltaApply.push_new fs (source_file dd) else fs)
    fs (dependency_diffs d).

Definition dependents_of (f : string) (x : LayeredSnapshotIndex) : list string :=
  if is_removed_file f x then []
  else foldl (merge_dependents f) (Graph.get_dependents f (dependency_graph (source (base x))))
         (deltas x).

(** *** Symbol context *)

Definition in_file (f : string) (a : AddedEntity) : bool := bool_decide (added_path a = f).

Definition merge_file_entities (f : string) (es : list Entity) (d : Delta) : list Entity :=
  let es := if removes_file f d then [] else es in
  let es := Prelude.retain (λ e, negb (bool_decide (EntityDiff.id e ∈ removed_entities d))) es in
  foldl (λ es a,
      if in_file f a
         && negb (existsb (λ e, bool_decide (EntityDiff.id e = EntityDiff.id (added_entity a))) es)
      then es ++ [added_entity a] else es)
    es (added_entities d).

(** The entities of the base, which its file table lists by their first row. *)
Definition base_entities_of_file (f : string) (b : Snapshot) : list Entity :=
  omap (λ p, EntityIndex.function_index (entities (source b)) !! p.2)
    (default [] (EntityIndex.file_entities_by_start (entities (source b)) !! f)).

Definition entities_of_file (f : string) (x : LayeredSnapshotIndex) : list Entity :=
  foldl (merge_file_entities f)
    (if is_removed_file f x then [] else base_entities_of_file f (base x)) (deltas x).

Definition merge_symbol_keys (keep : AddedEntity → bool) (keys : gmap EntityId SymbolKey)
    (d : Delta) : gmap EntityId SymbolKey :=
  foldl (λ keys a,
      if keep a then <[EntityDiff.id (added_entity a) := added_key a]> keys else keys)
    (remove_keys (removed_entities d) keys) (added_entities d).

Definition base_symbol_keys (b : Snapshot) : gmap EntityId SymbolKey :=
  foldl (λ keys p,
      match view_symbol_key_of b p.1 with Some key => <[p.1 := key]> keys | None => keys end)
    ∅ (view_functions b).

Definition view_stable_symbol_keys (x : LayeredSnapshotIndex) : list SymbolKey :=
  (entries (foldl (merge_symbol_keys (λ _, true)) (base_symbol_keys (base x)) (deltas x))).*2.

Definition max_entity_id (x : LayeredSnapshotIndex) : Z :=
  foldl (λ m d, foldl (λ m a, Z.max m (EntityDiff.id (added_entity a))) m (added_entities d))
    (foldl Z.max 0 (set_iter (dom (EntityIndex.function_index (entities (source (base x)))))))
    (deltas x).

(** *** The view *)

#[export] Instance layered_view : IndexView StandardizedImport LayeredSnapshotIndex := {|
  view_file_contains x f := file_contains f x;
  view_files x := entries (merged_files x);
  view_function_contains x i := function_contains i x;
  view_functions x := entries (merged_functions x);
  view_entity_file_of x i := entity_file_of i x;
  view_relations_of x c := relations_of c x;
  view_resolved_relations x := nonempty_entries (merged_resolved x);
  view_callers_of x i := callers_of i x;
  view_file_relations_of x f := file_relations_of f x;
  view_file_relations x := nonempty_entries (merged_file_relations x);
  view_imports_of x f := imports_of f x;
  view_imports x := entries (merged_imports x);
  view_exports_of x f := exports_of f x;
  view_exports x := entries (merged_exports x);
  view_symbol_key_of x i := symbol_key_of i x;
  view_dependency_files := dependency_files;
  view_dependencies_of x f := dependencies_of f x;
|}.
End layered.

(** ** Maps from lists *)

Lemma to_map_entries {K A B : Type} `{SetIter K} (f : A → B) (m : gmap K A) :
  to_map (prod_map id f <$> entries m) = f <$> m.
Proof.
  apply map_eq. intros k. rewrite lookup_fmap. unfold to_map.
  enough (∀ (l : list (K * A)) (m0 : gmap K B), NoDup l.*1 →
    (∀ k' a, (k', a) ∈ l → foldl (λ m p, <[p.1 := p.2]> m) m0 (prod_map id f <$> l) !! k' = Some (f a)) ∧
    ∀ k', k' ∉ l.*1 → foldl (λ m p, <[p.1 := p.2]> m) m0 (prod_map id f <$> l) !! k' = m0 !! k') as Hl.
  { destruct (Hl (entries m) ∅ (NoDup_entries m)) as [H1 H2].
    destruct (m !! k) as [a|] eqn:E; [apply H1; by apply elem_of_entries|].
    rewrite H2; [done|]. rewrite entries_keys, E. by intros [? ?]. }
  clear m k. induction l as [|[k a] l IH]; intros m0 Hnd; cbn [foldl fmap list_fmap prod_map fst snd] in *.
  { split; [by intros ?? ?%elem_of_nil|done]. }
  apply NoDup_cons in Hnd as [Hk Hnd]. destruct (IH (<[k := f a]> m0) Hnd) as [H1 H2]. split.
  - intros k' a' [[= -> ->]|Hin]%elem_of_cons; [|by apply H1].
    rewrite H2 by done. apply lookup_insert_eq.
  - intros k' [Hne Hin]%not_elem_of_cons. rewrite H2 by done. by apply lookup_insert_ne.
Qed.

Lemma to_map_entries_id {K A : Type} `{SetIter K} (m : gmap K A) : to_map (entries m) = m.
Proof.
  transitivity (id <$> m); [|apply map_fmap_id]. rewrite <- (to_map_entries id m). f_equal.
  generalize (entries m). intros l. induction l as [|[k a] l IH]; [done|]. cbn [fmap list_fmap].
  unfold prod_map at 1. simpl. by f_equal.
Qed.

Lemma lookup_remove_keys {K A : Type} `{Countable K} (ks : list K) (m : gmap K A) k :
  remove_keys ks m !! k = if decide (k ∈ ks) then None else m !! k.
Proof.
  unfold remove_keys. revert m. induction ks as [|j ks IH]; intros m; cbn [foldl].
  { by rewrite decide_False by apply not_elem_of_nil. }
  rewrite IH. repeat case_decide; rewrite ?elem_of_cons in *; try done; try naive_solver.
  - assert (k = j) as -> by naive_solver. apply lookup_delete_eq.
  - apply lookup_delete_ne. naive_solver.
Qed.

End Layered.
