(* ===== verification/LayeredQuery.v ===== *)
(** * Queries over layered snapshots

    Models the query traits of [LayeredSnapshotIndex] in crates/parser/
    cce-codegraph/src/index/snapshot_query/layered_impls.rs and its methods in
    index/snapshot_index.rs: every read merges the deltas of the chain into
    what the base snapshot answers. *)

From S2P Require Import Prelude MultiMap SortedVec Kinds EntityDiff DependencyGraph EdgeSet.
From S2P Require Import EntityIndex SymbolIndex RelationIndex DeltaDiff DeltaApply RelationQuery.
From S2P Require Import TransitiveDeps Layered.
From stdpp Require Import fin_sets sorting.
From Stdlib Require Import ZArith Lia.
#[local] Open Scope Z_scope.

Module LayeredQuery.
Import Kinds EdgeSet RelationIndex DeltaDiff RelationQuery Layered.

#[local] Existing Instances SymbolIndex.SymbolKey_eq_dec SymbolIndex.SymbolKey_countable.

(** The walk from the last delta to the first: the newest one that removes or
    adds what is looked up decides. *)
Fixpoint latest {D A : Type} (removes : D → bool) (adds : D → option A) (base : option A)
    (newest_first : list D) : option A :=
  match newest_first with
  | [] => base
  | d :: ds =>
      if removes d then None
      else match adds d with Some a => Some a | None => latest removes adds base ds end
  end.

(** [count as i64], then [count.max(0)]. *)
Definition saturated (z : Z) : Z := Z.max z 0.

Section layered.
Context (sha256_hex : list Z → string).
Context {StandardizedImport : Type} `{!EqDecision StandardizedImport}.
Context `{!SetIter EntityId, !SetIter string, !SetIter SymbolKey}.
Abbreviation Snapshot := (@RelationSnapshotIndex StandardizedImport).
Abbreviation Delta := (@SnapshotDelta StandardizedImport).
Abbreviation Layer := (@LayeredSnapshotIndex StandardizedImport).

Definition walk {A : Type} (removes : Delta → bool) (adds : Delta → option A) (b : option A)
    (x : Layer) : option A := latest removes adds b (reverse (deltas x)).

Definition added_with (i : EntityId) (d : Delta) : option AddedEntity :=
  find_first (added_as i) (added_entities d).

(** ** Entities *)

Definition contains_entity (i : EntityId) (x : Layer) : bool :=
  bool_decide (is_Some
    (walk (removes_entity i) (λ d, if adds_entity i d then Some tt else None)
       (if contains_function i (base x) then Some tt else None) x)).

Definition layered_function_count (x : Layer) : Z :=
  saturated
    (foldl (λ n d, n + Z.of_nat (length (added_entities d)) - Z.of_nat (length (removed_entities d)))
       (function_count (base x)) (deltas x)).

Definition merge_ids (keep : AddedEntity → bool) (ids : list EntityId) (d : Delta)
    : list EntityId :=
  foldl (λ ids a, if keep a then DeltaApply.push_new ids (EntityDiff.id (added_entity a)) else ids)
    (Prelude.retain (λ i, negb (bool_decide (i ∈ removed_entities d))) ids) (added_entities d).

Definition in_lines (f : string) (a b : Z) (e : AddedEntity) : bool :=
  in_file f e && (EntityIndex.start_row (added_entity e) <=? b)
  && (a <=? EntityIndex.end_row (added_entity e)).

#[export] Instance layered_entities : EntityQueries Layer := {|
  get_function_by_entity_id i x :=
    walk (removes_entity i) (λ d, added_entity <$> added_with i d)
      (get_function_by_entity_id i (base x)) x;
  get_function_ids_by_name n x :=
    foldl (merge_ids (λ a, bool_decide (EntityIndex.entity_name (added_entity a) = n)))
      (get_function_ids_by_name n (base x)) (deltas x);
  contains_function := contains_entity;
  function_count := layered_function_count;
  get_file_path_by_entity i x :=
    walk (removes_entity i) (λ d, added_path <$> added_with i d)
      (get_file_path_by_entity i (base x)) x;
  get_entities_in_line_range f a b x :=
    foldl (merge_ids (in_lines f a b)) (get_entities_in_line_range f a b (base x)) (deltas x);
|}.

(** ** Relations *)

Definition layered_by_caller (c : EntityId) (x : Layer) : option (list ResolvedRelation) :=
  if is_removed_entity c x then None
  else nonempty
         (foldl (merge_relations c)
            (default [] (get_resolved_relations_by_caller c (base x))) (deltas x)).

Definition merge_callers (i : EntityId) (cs : list EntityId) (d : Delta) : list EntityId :=
  foldl (λ cs r, if decide (callee_id r = Some i) then DeltaApply.push_new cs (caller r) else cs)
    (Prelude.retain
       (λ c, negb (bool_decide (c ∈ removed_entities d))
             && negb (existsb (λ r, bool_decide (caller r = c ∧ callee_id r = Some i))
                        (removed_relations d))) cs)
    (added_relations d).

Definition layered_callers (i : EntityId) (x : Layer) : list EntityId :=
  if is_removed_entity i x then []
  else limited (foldl (merge_callers i) (get_callers_by_callee_entity i (base x)) (deltas x)).

Definition merge_relations_to (i : EntityId) (rs : list ResolvedRelation) (d : Delta)
    : list ResolvedRelation :=
  Prelude.retain
    (λ r, negb (bool_decide (caller r ∈ removed_entities d))
          && negb (bool_decide (relation_identity r ∈ map relation_identity (removed_relations d)))) rs
  ++ leading_to i (added_relations d).

Definition layered_relations_to (i : EntityId) (x : Layer) : list ResolvedRelation :=
  foldl (merge_relations_to i) (get_relations_to_entity i (base x)) (deltas x).

Definition layered_relation_count (x : Layer) : Z :=
  saturated
    (foldl (λ n d,
        n - Z.of_nat (sum_list (map (λ i, length (edges_of i (relations (source (base x)))))
                                  (removed_entities d)))
          - Z.of_nat (length (removed_relations d)) + Z.of_nat (length (added_relations d)))
       (resolved_relation_count (base x)) (deltas x)).

(** One edge for every caller and callee, added ones after those of the base. *)
Definition push_pair (st : list ResolvedRelation * gset (EntityId * option EntityId))
    (r : ResolvedRelation) :=
  if decide ((caller r, callee_id r) ∈ st.2) then st
  else (st.1 ++ [r], {[(caller r, callee_id r)]} ∪ st.2).

Definition layered_classified (e : ExternalCallType) (x : Layer) : list ResolvedRelation :=
  let found := get_relations_by_classification e (base x) in
  let added :=
    Prelude.retain (λ r, bool_decide (external_type r = Some e))
      (reverse (deltas x) ≫= added_relations) in
  (foldl push_pair (found, list_to_set (map (λ r, (caller r, callee_id r)) found)) added).1.

Definition uncount (m : gmap ExternalCallType nat) (r : ResolvedRelation)
    : gmap ExternalCallType nat :=
  match external_type r with
  | Some e => match m !! e with Some n => <[e := (n - 1)%nat]> m | None => m end
  | None => m
  end.

Definition layered_stats (x : Layer) : gmap ExternalCallType nat :=
  foldl uncount
    (foldl count_classification (get_classification_stats (base x)) (deltas x ≫= added_relations))
    (deltas x ≫= removed_relations).

#[export] Instance layered_relations : RelationQueries Layer := {|
  get_resolved_relations_by_caller := layered_by_caller;
  get_callers_by_callee_entity := layered_callers;
  get_callers_by_callee_and_type i t x :=
    foldl (λ cs r, DeltaApply.push_new cs (caller r)) [] (of_type t (layered_relations_to i x));
  get_relations_to_entity := layered_relations_to;
  resolved_relation_count := layered_relation_count;
  get_relations_by_classification := layered_classified;
  get_classification_stats := layered_stats;
|}.

(** The checked variant sorts and limits once more. *)
Definition layered_callers_checked (i : EntityId) (x : Layer) : result (list EntityId) IndexError :=
  if contains_function i x then Ok (limited (get_callers_by_callee_entity i x))
  else Err (EntityNotFound i).

(** ** Files *)

Definition is_file (f : string) (i : FileInfo) : bool :=
  bool_decide (info_path i = f) || bool_decide (file_id i = f).

Definition adds_file (f : string) (d : Delta) : bool := existsb (is_file f) (added_files d).

Definition is_file_active (f : string) (x : Layer) : bool :=
  foldl (λ active d,
      let active := if removes_file f d then false else active in
      if adds_file f d then true else active)
    (contains_file f (base x)) (deltas x).

(** [filter] and [count]. *)
Definition count_files (p : string → bool) (fs : list string) : Z :=
  Z.of_nat (length (Prelude.retain p fs)).

Definition layered_imports_of (f : string) (x : Layer) : option (@ImportTable StandardizedImport) :=
  t ← get_import_table f (base x);
  let t := foldl (λ t d,
      match find_first (λ i, bool_decide (import_diff_path i = f)) (import_diffs d) with
      | Some i => merge_imports t i
      | None => t
      end) t (deltas x) in
  if is_file_active f x then Some t else None.

(** ** Symbols *)

Definition layered_entity_by_key (k : SymbolKey) (x : Layer) : option EntityId :=
  let added d := find_first (λ a, bool_decide (added_key a = k)) (added_entities d) in
  match head (omap added (reverse (deltas x))) with
  | Some a => Some (EntityDiff.id (added_entity a))
  | None =>
      match get_entity_id_by_symbol_key k (base x) with
      | Some i => if is_removed_entity i x then None else Some i
      | None =>
          fst <$> find_first
            (λ p, bool_decide (EntityIndex.entity_name p.2 = SymbolIndex.scoped_name k)
                  && negb (is_removed_entity p.1 x))
            (entries (EntityIndex.function_index (entities (source (base x)))))
      end
  end.

Definition layered_entity_by_stable_id (sid : string) (x : Layer) : option EntityId :=
  let added d := find_first (λ a, bool_decide (SymbolIndex.stable_id sha256_hex (added_key a) = sid))
                   (added_entities d) in
  match head (omap added (reverse (deltas x))) with
  | Some a => Some (EntityDiff.id (added_entity a))
  | None =>
      i ← get_entity_id_by_stable_symbol_id sid (base x);
      if is_removed_entity i x then None else Some i
  end.

Definition layered_symbol_keys (x : Layer) : list SymbolKey :=
  let removed : gset EntityId := list_to_set (deltas x ≫= removed_entities) in
  let removed_keys := omap (λ i, get_symbol_key_by_entity_id i (base x)) (set_iter removed) in
  Prelude.retain (λ k, negb (bool_decide (k ∈ removed_keys))) (stable_symbol_keys (base x))
  ++ (deltas x ≫= λ d, map added_key (added_entities d)).

#[export] Instance layered_symbols : SymbolQueries Layer := {|
  get_entity_id_by_symbol_key := layered_entity_by_key;
  get_entity_id_by_stable_symbol_id := layered_entity_by_stable_id;
  get_symbol_key_by_entity_id i x :=
    walk (removes_entity i) (λ d, added_key <$> added_with i d)
      (get_symbol_key_by_entity_id i (base x)) x;
  stable_symbol_keys := layered_symbol_keys;
|}.

Definition layered_exports_of (f : string) (x : Layer) : option (list ExportInfo) :=
  es ← get_exports f (base x);
  let es := foldl (λ es d,
      match find_first (λ e, bool_decide (export_diff_path e = f)) (export_diffs d) with
      | Some e => merge_exports (λ k, layered_entity_by_key k x) es e
      | None => es
      end) es (deltas x) in
  if is_file_active f x then Some es else None.

#[export] Instance layered_files : FileQueries StandardizedImport Layer := {|
  get_file f x :=
    walk (removes_file f) (λ d, find_first (is_file f) (added_files d)) (get_file f (base x)) x;
  contains_file f x :=
    bool_decide (is_Some
      (walk (removes_file f) (λ d, if adds_file f d then Some tt else None)
         (if contains_file f (base x) then Some tt else None) x));
  file_count x :=
    saturated
      (foldl (λ n d, n - count_files (λ f, contains_file f (base x)) (removed_files d)
                     + Z.of_nat (length (added_files d)))
         (file_count (base x)) (deltas x));
  get_import_table := layered_imports_of;
  has_imports f x := is_file_active f x && has_imports f (base x);
  import_count x :=
    saturated
      (foldl (λ n d, n - count_files (λ f, has_imports f (base x)) (removed_files d))
         (import_count (base x)) (deltas x));
  get_exports := layered_exports_of;
  get_entity_ids_by_file f x :=
    foldl (merge_ids (in_file f)) (get_entity_ids_by_file f (base x)) (deltas x);
|}.

(** ** Transitive dependencies *)

Abbreviation DirectMap := (gmap string (list string)).

Definition push_dependent (m : DirectMap) (dd : DependencyDiff) : DirectMap :=
  foldl (λ m t, <[t := default [] (m !! t) ++ [source_file dd]]> m) m (added_dependencies dd).

Definition push_dependencies (m : DirectMap) (dd : DependencyDiff) : DirectMap :=
  <[source_file dd := default [] (m !! source_file dd) ++ added_dependencies dd]> m.

(** What a level of the search has found: the result, the files seen, the next
    level. *)
Definition visit_file (st : gset string * gset string * list string) (f : string) :=
  let '(found, visited, next) := st in
  if decide (f ∈ visited) then st
  else ({[f]} ∪ found, {[f]} ∪ visited, next ++ [f]).

Fixpoint search_files (direct : string → list string) (depth : nat)
    (found visited : gset string) (queue : list string) : gset string :=
  match depth, queue with
  | O, _ | _, [] => found
  | S depth, _ =>
      let '(found, visited, next) := foldl visit_file (found, visited, []) (queue ≫= direct) in
      search_files direct depth found visited next
  end.

Definition OVERLAY_DEPTH : nat := 10.

Definition extend_transitive (from_base : list string) (added : DirectMap)
    (direct : string → list string) (f : string) : list string :=
  let found : gset string := list_to_set from_base in
  merge_sort String.le
    (elements
       (search_files (λ g, default [] (added !! g) ++ direct g) OVERLAY_DEPTH found
          ({[f]} ∪ found) (set_iter found))).

Definition snapshot_transitive (b : Snapshot) : TransitiveDeps.TransitiveFileDeps :=
  TransitiveDeps.from_relation_index TransitiveDeps.SNAPSHOT_DEPTH (source b).

Definition layered_dependents_of (f : string) (x : Layer) : list string :=
  extend_transitive (TransitiveDeps.transitive_dependents_of (snapshot_transitive (base x)) f)
    (foldl push_dependent ∅ (deltas x ≫= dependency_diffs))
    (λ g, Graph.get_dependents g (dependency_graph (source (base x)))) f.

Definition layered_dependencies_of (f : string) (x : Layer) : list string :=
  extend_transitive (TransitiveDeps.transitive_dependencies_of (snapshot_transitive (base x)) f)
    (foldl push_dependencies ∅ (deltas x ≫= dependency_diffs))
    (λ g, Graph.get_dependencies g (dependency_graph (source (base x)))) f.
End layered.

End LayeredQuery.
