(* ===== verification/LayeredReplay.v ===== *)
(** * What a layered snapshot shows

    The theorems about [LayeredSnapshotIndex] (crates/parser/cce-codegraph/
    src/index/snapshot_index.rs, snapshot_view/layered_view_impl.rs and
    snapshot_query/layered_impls.rs): which parts of the merge on read agree
    with applying the deltas one after the other, and where the merge, the
    queries and the application differ. *)

From S2P Require Import Prelude MultiMap SortedVec Kinds EntityDiff DependencyGraph EdgeSet.
From S2P Require Import GraphSort EntityIndex SymbolIndex RelationIndex DeltaDiff DeltaApply.
From S2P Require Import DeltaReplay DeltaEntities RelationQuery TransitiveDeps Layered LayeredQuery.
From stdpp Require Import fin_sets.
From Stdlib Require Import ZArith Lia.
#[local] Open Scope Z_scope.

Module LayeredReplay.
Import Kinds EdgeSet RelationIndex DeltaDiff DeltaApply DeltaReplay RelationQuery Layered LayeredQuery.

#[local] Existing Instances SymbolIndex.SymbolKey_eq_dec SymbolIndex.SymbolKey_countable.

Abbreviation function_index := EntityIndex.function_index.

(** ** Lists *)

Lemma existsb_elem {A : Type} (p : A → bool) l : existsb p l = true ↔ ∃ a, a ∈ l ∧ p a = true.
Proof. rewrite existsb_exists. by setoid_rewrite list_elem_of_In. Qed.

(** ** Entities *)

Section replay.
Context (sha256_hex : list Z → string) (shard : EntityId → nat).
Context {StandardizedImport : Type} `{!EqDecision StandardizedImport}.
Context `{!SetIter EntityId, !SetIter string, !SetIter SymbolKey}.
Abbreviation Index := (@RelationIndex StandardizedImport).
Abbreviation Delta := (@SnapshotDelta StandardizedImport).

(** The deltas applied one after the other. *)
Fixpoint replay (ds : list Delta) (x : Index) (u : Z) : option (Index * Z) :=
  match ds with
  | [] => Some (x, u)
  | d :: ds => p ← apply_delta sha256_hex shard d x u; replay ds p.1 p.2
  end.

Definition without_renames (d : Delta) : Delta :=
  {| epoch := epoch d; base_epoch := base_epoch d; config_fingerprint := config_fingerprint d;
     removed_files := removed_files d; added_files := added_files d; removed_entities := removed_entities d;
     added_entities := added_entities d; removed_relations := removed_relations d;
     added_relations := added_relations d; file_relation_diffs := file_relation_diffs d;
     import_diffs := import_diffs d; export_diffs := export_diffs d; dependency_diffs := dependency_diffs d;
     relation_edges_dropped_unbounded := relation_edges_dropped_unbounded d; renamed_entities := [] |}.

(** No delta of the chain renames this entity, or another one into it. *)
Definition unrenamed (i : EntityId) (ds : list Delta) : Prop :=
  ∀ d q, d ∈ ds → q ∈ renamed_entities d → i ≠ old_id q ∧ i ≠ new_id q.

(** The delta adds the entity once at most, and not when it removes it. The
    deltas the program computes are of this kind for every entity. *)
Definition added_once (i : EntityId) (d : Delta) : Prop :=
  (length (Prelude.retain (added_as i) (added_entities d)) ≤ 1)%nat ∧
  (removes_entity i d = true → adds_entity i d = false).

Abbreviation functions z := (function_index (entities (z : Index))).

Lemma unrenamed_tail i d ds : unrenamed i (d :: ds) → unrenamed i ds.
Proof. intros H d' q Hd'. apply H. by right. Qed.

Lemma added_id_in a l : a ∈ l → EntityDiff.id (added_entity a) ∈ DeltaEntities.added_ids l.
Proof. intros Ha. apply list_elem_of_fmap. by exists a. Qed.

Lemma retain_added_none i (l : list AddedEntity) :
  i ∉ DeltaEntities.added_ids l → Prelude.retain (added_as i) l = [].
Proof.
  intros Hi. apply retain_none. intros a Ha. apply bool_decide_eq_false. intros <-. apply Hi.
  by apply added_id_in.
Qed.

Lemma retain_added_NoDup i (l : list AddedEntity) :
  NoDup (DeltaEntities.added_ids l) → (length (Prelude.retain (added_as i) l) ≤ 1)%nat.
Proof.
  unfold DeltaEntities.added_ids. induction l as [|a l IH]; [simpl; lia|]. cbn [map].
  intros [Ha Hl]%NoDup_cons. cbn [Prelude.retain].
  change (added_as i a) with (bool_decide (EntityDiff.id (added_entity a) = i)).
  case_bool_decide as Hi; [|by apply IH]. rewrite retain_added_none by (by rewrite <- Hi). simpl. lia.
Qed.

(** Every delta computed between two indexes adds every entity once. *)
Lemma computed_added_once `{!SetIter string} {V} `{!IndexView StandardizedImport V} (x y : Index) (v : V) e b cfg scope i :
  entities_shown v (entities y) → keyed_by_id x →
  added_once i (compute_delta sha256_hex x v e b cfg scope).
Proof.
  intros Hv Hk. destruct (DeltaEntities.computed_ids sha256_hex x y v e b cfg scope Hv Hk) as [H1 H2].
  split; [by apply retain_added_NoDup|]. intros Hr%bool_decide_eq_true_1.
  apply not_true_is_false. intros (a & Ha & <-%bool_decide_eq_true_1)%existsb_elem.
  destruct (H2 (EntityDiff.id (added_entity a))) as [H3 _]; [by apply added_id_in|done].
Qed.

(** Additions and renames change the entries they name. *)
Lemma added_lookup (l : list AddedEntity) (m m' : gmap EntityId Entity) i :
  m !! i = m' !! i →
  foldl (λ m a, <[EntityDiff.id (added_entity a) := added_entity a]> m) m l !! i =
  foldl (λ m a, <[EntityDiff.id (added_entity a) := added_entity a]> m) m' l !! i.
Proof.
  revert m m'. induction l as [|a l IH]; intros m m' Hm; [done|]. cbn [foldl]. apply IH.
  by rewrite !lookup_insert, Hm.
Qed.

Lemma added_functions_eq l es syms :
  function_index (apply_added_entities sha256_hex l (es, syms)).1 =
  foldl (λ m a, <[EntityDiff.id (added_entity a) := added_entity a]> m) (function_index es) l.
Proof.
  unfold apply_added_entities. revert es syms. induction l as [|a l IH]; intros es syms; [done|]. cbn [foldl].
  pose proof (DeltaEntities.added_function sha256_hex a es syms) as Ha.
  destruct (apply_added_entity sha256_hex (es, syms) a) as [es1 syms1]. by rewrite IH, <- Ha.
Qed.

Lemma renamed_lookup (qs : list Rename) (m : gmap EntityId Entity) i :
  (∀ q, q ∈ qs → i ≠ old_id q ∧ i ≠ new_id q) →
  foldl (λ m q, move_key (old_id q) (new_id q) m) m qs !! i = m !! i.
Proof.
  revert m. induction qs as [|q qs IH]; intros m Hq; [done|]. cbn [foldl].
  rewrite IH by (intros q' Hq'; apply Hq; by right). destruct (Hq q ltac:(by left)) as [H1 H2].
  unfold move_key. destruct (m !! old_id q); [|done].
  by rewrite lookup_insert_ne, lookup_delete_ne.
Qed.

Lemma changed_lookup (d : Delta) (x : Index) i :
  (∀ q, q ∈ renamed_entities d → i ≠ old_id q ∧ i ≠ new_id q) →
  function_index (changed_stores sha256_hex d x).1.1 !! i =
  if decide (i ∈ removed_entities d) then None else functions x !! i.
Proof.
  intros Hq. unfold changed_stores. set (z := foldl apply_removed_file x (removed_files d)).
  pose proof (DeltaEntities.removed_entities_store sha256_hex (removed_entities d) (entities z) (symbols z)
    (relations z)) as Hr.
  destruct (apply_removed_entities _ _ _) as [[es syms] s]. cbn [fst] in Hr.
  rewrite DeltaEntities.renamed_functions, renamed_lookup by done.
  subst z. by rewrite Hr, DeltaEntities.removed_functions, DeltaEntities.removed_files_functions.
Qed.

(** One delta: merging it is applying it, where it does not rename. *)
Lemma merge_functions_step d x u x' u' (m : gmap EntityId Entity) i :
  apply_delta sha256_hex shard d x u = Some (x', u') →
  (∀ q, q ∈ renamed_entities d → i ≠ old_id q ∧ i ≠ new_id q) → m !! i = functions x !! i →
  merge_functions m d !! i = functions x' !! i.
Proof.
  intros Ha Hq Hm. apply DeltaEntities.apply_delta_inv in Ha.
  pose proof (changed_lookup d x i Hq) as Hc. destruct (changed_stores sha256_hex d x).1 as [es syms].
  pose proof (added_functions_eq (added_entities d) es syms) as Hf. rewrite <- Ha in Hf. cbn [fst] in Hf, Hc.
  rewrite Hf. unfold merge_functions. apply added_lookup. by rewrite lookup_remove_keys, Hc, Hm.
Qed.

Lemma merge_functions_chain ds x u x' u' (m : gmap EntityId Entity) i :
  replay ds x u = Some (x', u') → unrenamed i ds → m !! i = functions x !! i →
  foldl merge_functions m ds !! i = functions x' !! i.
Proof.
  revert x u m. induction ds as [|d ds IH]; intros x u m Hr Hi Hm; cbn [replay foldl] in *; [by simplify_eq|].
  apply bind_Some in Hr as ([x1 u1] & Ha & Hr). apply (IH x1 u1); [done|by eapply unrenamed_tail|].
  apply (merge_functions_step d x u x1 u1); [done| |done]. intros q Hq. apply (Hi d); [by left|done].
Qed.

Lemma merge_functions_contains (d : Delta) (m : gmap EntityId Entity) i :
  bool_decide (is_Some (merge_functions m d !! i)) =
  (adds_entity i d || negb (removes_entity i d) && bool_decide (is_Some (m !! i))).
Proof.
  unfold merge_functions, adds_entity, removes_entity.
  assert (∀ (l : list AddedEntity) (m0 : gmap EntityId Entity),
    bool_decide (is_Some (foldl (λ m a, <[EntityDiff.id (added_entity a) := added_entity a]> m) m0 l !! i))
    = (existsb (added_as i) l || bool_decide (is_Some (m0 !! i)))) as Hl.
  { induction l as [|a l IH]; intros m0; [done|]. cbn [foldl existsb]. rewrite IH. change (added_as i a) with (bool_decide (EntityDiff.id (added_entity a) = i)).
    destruct (decide (EntityDiff.id (added_entity a) = i)) as [<-|Hne].
    - rewrite lookup_insert_eq, (bool_decide_eq_true_2 (is_Some (Some _))) by done.
      rewrite (bool_decide_eq_true_2 (_ = _)) by done. by rewrite orb_true_r.
    - rewrite lookup_insert_ne, (bool_decide_eq_false_2 (_ = i)) by done. done. }
  rewrite Hl, lookup_remove_keys. f_equal. destruct (decide (i ∈ removed_entities d)) as [Hi|Hi].
  - rewrite (bool_decide_eq_true_2 (i ∈ _)) by done. apply bool_decide_eq_false_2. by intros [? ?].
  - by rewrite (bool_decide_eq_false_2 (i ∈ _)).
Qed.

Lemma added_with_lookup (d : Delta) (m : gmap EntityId Entity) i :
  added_once i d →
  merge_functions m d !! i =
  if removes_entity i d then None
  else match added_with i d with Some a => Some (added_entity a) | None => m !! i end.
Proof.
  intros [Hone Hap]. unfold merge_functions, added_with, find_first.
  assert (Hl : ∀ (l : list AddedEntity) (m0 : gmap EntityId Entity), (length (Prelude.retain (added_as i) l) ≤ 1)%nat →
    foldl (λ m a, <[EntityDiff.id (added_entity a) := added_entity a]> m) m0 l !! i =
    match head (Prelude.retain (added_as i) l) with Some a => Some (added_entity a) | None => m0 !! i end).
  { induction l as [|a l IH]; intros m0 Hn; [done|]. cbn [foldl Prelude.retain] in *.
    change (added_as i a) with (bool_decide (EntityDiff.id (added_entity a) = i)) in *.
    case_bool_decide as Hi; cbn [length head] in *.
    - rewrite IH by lia. destruct (Prelude.retain (added_as i) l); [|simpl in Hn; lia]. cbn [head].
      rewrite Hi. by rewrite lookup_insert_eq.
    - rewrite IH by done. by rewrite lookup_insert_ne. }
  rewrite Hl, lookup_remove_keys by done. unfold removes_entity in *.
  destruct (decide (i ∈ removed_entities d)) as [Hi|Hi].
  - rewrite bool_decide_eq_true_2 in * by done. specialize (Hap eq_refl). unfold adds_entity in Hap.
    rewrite (retain_none (added_as i)); [done|]. intros a Ha. apply not_true_is_false. intros Ht.
    assert (existsb (added_as i) (added_entities d) = true); [|congruence]. apply existsb_elem. eauto.
  - by rewrite bool_decide_eq_false_2.
Qed.

Lemma latest_app {D A : Type} (removes : D → bool) (adds : D → option A) b l1 l2 :
  latest removes adds b (l1 ++ l2) = latest removes adds (latest removes adds b l2) l1.
Proof. induction l1 as [|d l1 IH]; simpl; [done|]. by rewrite IH. Qed.

(** The walk back finds what merging forward keeps. *)
Lemma latest_lookup (ds : list Delta) (m : gmap EntityId Entity) i :
  (∀ d, d ∈ ds → added_once i d) →
  latest (removes_entity i) (λ d, added_entity <$> added_with i d) (m !! i) (reverse ds) =
  foldl merge_functions m ds !! i.
Proof.
  revert m. induction ds as [|d ds IH]; intros m Hds; [done|]. cbn [foldl].
  rewrite reverse_cons, latest_app. cbn [latest].
  rewrite <- IH by (intros d' Hd'; apply Hds; by right). f_equal.
  rewrite added_with_lookup by (apply Hds; by left).
  destruct (removes_entity i d); [done|]. by destruct (added_with i d).
Qed.

Lemma latest_contains (ds : list Delta) (m : gmap EntityId Entity) i :
  (∀ d, d ∈ ds → added_once i d) →
  bool_decide (is_Some (latest (removes_entity i) (λ d, if adds_entity i d then Some tt else None)
    (if bool_decide (is_Some (m !! i)) then Some tt else None) (reverse ds))) =
  bool_decide (is_Some (foldl merge_functions m ds !! i)).
Proof.
  revert m. induction ds as [|d ds IH]; intros m Hds; cbn [foldl].
  { simpl. destruct (bool_decide (is_Some (m !! i))) eqn:E; [by apply bool_decide_eq_true_2|].
    apply bool_decide_eq_false_2. by intros [? ?]. }
  rewrite reverse_cons, latest_app. cbn [latest].
  rewrite <- IH by (intros d' Hd'; apply Hds; by right). do 3 f_equal.
  rewrite merge_functions_contains. destruct (removes_entity i d) eqn:Er.
  - by rewrite (proj2 (Hds d ltac:(by left)) Er).
  - by destruct (adds_entity i d).
Qed.

Lemma function_contains_chain (ds : list Delta) (m : gmap EntityId Entity) i b0 :
  b0 = bool_decide (is_Some (m !! i)) →
  foldl (λ contains d,
      let contains := if removes_entity i d then false else contains in
      if adds_entity i d then true else contains) b0 ds =
  bool_decide (is_Some (foldl merge_functions m ds !! i)).
Proof.
  revert m b0. induction ds as [|d ds IH]; intros m b0 ->; [done|]. cbn [foldl].
  apply IH. rewrite merge_functions_contains. destruct (adds_entity i d); [done|].
  by destruct (removes_entity i d).
Qed.

(** C7. For every entity that no pending delta renames, the layered snapshot and
    the index its deltas lead to when they are applied one after the other agree:
    in the merged map and the membership test of the view for any deltas, and in
    the membership test and the lookup of the queries, which walk the chain
    backwards, for deltas that add the entity once, as computed deltas do. The
    renames of the chain do not reach the view at all. *)
Theorem layered_entities_refine ds y u y' u' :
  replay ds y u = Some (y', u') →
  let x := with_deltas (from_index_shared y) ds in
  (∀ i, unrenamed i ds →
     merged_functions x !! i = functions y' !! i ∧
     function_contains i x = EntityIndex.contains_function i (entities y') ∧
     ((∀ d, d ∈ ds → added_once i d) →
      contains_entity i x = EntityIndex.contains_function i (entities y') ∧
      get_function_by_entity_id i x = functions y' !! i)) ∧
  merged_functions x = merged_functions (with_deltas (from_index_shared y) (map without_renames ds)).
Proof.
  intros Hr x. unfold x, merged_functions. simpl. rewrite to_map_entries_id. split.
  - intros i Hi. pose proof (merge_functions_chain ds y u y' u' (functions y) i Hr Hi eq_refl) as Hm.
    unfold EntityIndex.contains_function. rewrite <- Hm. split_and!; [done| |intros Hds; split].
    + unfold function_contains. simpl. by apply function_contains_chain.
    + unfold contains_entity, walk. simpl. by apply latest_contains.
    + unfold walk. simpl. by apply latest_lookup.
  - generalize (functions y). clear. induction ds as [|d ds IH]; intros m; [done|]. apply (IH (merge_functions m d)).
Qed.

(** An entity renamed by the last delta stays under its old id in the view, which
    the index has no more. *)
Theorem renamed_entity_stays_in_view ds d q y u y1 u1 y' u' :
  replay ds y u = Some (y1, u1) → apply_delta sha256_hex shard d y1 u1 = Some (y', u') →
  renamed_entities d = [q] → old_id q ≠ new_id q → unrenamed (old_id q) ds →
  removes_entity (old_id q) d = false → adds_entity (old_id q) d = false →
  is_Some (functions y1 !! old_id q) →
  merged_functions (with_deltas (from_index_shared y) (ds ++ [d])) !! old_id q = functions y1 !! old_id q ∧
  functions y' !! old_id q = None.
Proof.
  intros Hr Ha Hq Hne Hun Hrem Hadd [en Hen].
  unfold merged_functions. simpl. rewrite to_map_entries_id, foldl_app. cbn [foldl].
  pose proof (merge_functions_chain ds y u y1 u1 (functions y) (old_id q) Hr Hun eq_refl) as Hm.
  assert (Hnot : old_id q ∉ removed_entities d) by by apply bool_decide_eq_false_1 in Hrem.
  assert (Hkeep : ∀ m : gmap EntityId Entity,
    foldl (λ m a, <[EntityDiff.id (added_entity a) := added_entity a]> m) m (added_entities d) !! old_id q = m !! old_id q).
  { unfold adds_entity in Hadd. revert Hadd. induction (added_entities d) as [|a l IH]; intros Hl m; [done|].
    cbn [foldl existsb] in *. apply orb_false_iff in Hl as [Ha' Hl]. rewrite IH by done.
    apply bool_decide_eq_false_1 in Ha'. by apply lookup_insert_ne. }
  split.
  - unfold merge_functions. by rewrite Hkeep, lookup_remove_keys, decide_False.
  - apply DeltaEntities.apply_delta_inv in Ha. unfold changed_stores in Ha.
    set (z := foldl apply_removed_file y1 (removed_files d)) in *.
    pose proof (DeltaEntities.removed_entities_store sha256_hex (removed_entities d) (entities z) (symbols z)
      (relations z)) as Hs.
    destruct (apply_removed_entities _ _ _) as [[es syms] s]. cbn [fst] in Hs.
    pose proof (DeltaEntities.renamed_functions sha256_hex (renamed_entities d) es syms s) as Hf.
    destruct (apply_renamed_entities _ _ _).1 as [es1 syms1].
    pose proof (added_functions_eq (added_entities d) es1 syms1) as Hg. rewrite <- Ha in Hg.
    cbn [fst] in Hf, Hg. rewrite Hg, Hkeep, Hf, Hq. cbn [foldl]. unfold move_key.
    subst z. rewrite Hs, DeltaEntities.removed_functions, decide_False, DeltaEntities.removed_files_functions, Hen by done.
    by rewrite lookup_insert_ne, lookup_delete_eq.
Qed.

(** ** Dependencies *)

Lemma elem_of_push_all {A : Type} `{!EqDecision A} (l added : list A) (a : A) :
  a ∈ foldl push_new l added ↔ a ∈ l ∨ a ∈ added.
Proof.
  revert l. induction added as [|b added IH]; intros l; cbn [foldl]; [rewrite elem_of_nil; tauto|].
  rewrite IH, elem_of_cons. unfold push_new. destruct (decide (b ∈ l)) as [Hb|Hb].
  - split; [tauto|]. intros [?|[->|?]]; tauto.
  - rewrite elem_of_app, list_elem_of_singleton. tauto.
Qed.

(** No file of a diff is added to its own dependencies. *)
Definition no_self_dependency (d : Delta) : Prop :=
  ∀ dd, dd ∈ dependency_diffs d → source_file dd ∉ added_dependencies dd.

Lemma computed_no_self {V} `{!IndexView StandardizedImport V} (x : Index) (v : V) e b cfg scope :
  Graph.wf (dependency_graph x) → no_self_dependency (compute_delta sha256_hex x v e b cfg scope).
Proof.
  intros Hg dd. rewrite compute_delta_eq. cbn [dependency_diffs]. unfold compute_dependency_diff.
  intros [(f & -> & _)%list_elem_of_fmap _]%elem_of_retain. cbn [source_file dependency_diff added_dependencies].
  intros [Hf%GraphSort.elem_of_get_dependencies _]%elem_of_retain. by apply (Graph.wf_irrefl _ Hg f).
Qed.

Lemma merge_dependency_diffs f t (dds : list DependencyDiff) deps g :
  (∀ dd, dd ∈ dds → source_file dd ∉ added_dependencies dd) →
  (t ∈ deps ↔ Graph.depends g f t) →
  t ∈ foldl (λ deps dd,
      if decide (source_file dd = f) then
        foldl push_new
          (Prelude.retain (λ g, negb (bool_decide (g ∈ removed_dependencies dd))) deps)
          (added_dependencies dd)
      else deps) deps dds ↔
  Graph.depends (foldl apply_dependency_diff g dds) f t.
Proof.
  revert deps g. induction dds as [|dd dds IH]; intros deps g Hself Hd; [done|]. cbn [foldl].
  apply IH; [intros dd' Hdd'; apply Hself; by right|].
  rewrite (DeltaEntities.dependency_diff_spec shard 0 0 g dd f t). specialize (Hself dd ltac:(by left)).
  destruct (decide (source_file dd = f)) as [<-|Hne]; [|by rewrite decide_False].
  rewrite decide_True, elem_of_push_all, elem_of_retain, negb_true_iff, bool_decide_eq_false, Hd by done.
  split; [|tauto]. intros [?|?]; [by left|right]. split; [done|]. by intros <-.
Qed.

Lemma apply_delta_dependencies (d : Delta) x u x' u' :
  apply_delta sha256_hex shard d x u = Some (x', u') →
  dependency_graph x' = foldl apply_dependency_diff
    (dependency_graph (foldl apply_removed_file x (removed_files d))) (dependency_diffs d).
Proof.
  intros Ha. destruct (apply_removed_relations shard (removed_relations d)
    (changed_stores sha256_hex d x).2) as [rels|] eqn:E.
  - destruct (apply_delta_parts sha256_hex shard d x u rels E) as (z1 & u1 & H1 & _ & _ & H2).
    congruence.
  - rewrite (apply_delta_blocks sha256_hex shard d x u E) in Ha. done.
Qed.

Lemma dependency_diffs_wf dds g :
  Graph.wf g → Graph.wf (foldl apply_dependency_diff g dds).
Proof.
  revert g. induction dds as [|dd dds IH]; intros g Hg; [done|]. apply IH.
  by apply DeltaEntities.dependency_diff_wf.
Qed.

Lemma merge_dependencies_step (d : Delta) x u x' u' f t deps :
  no_self_dependency d → Graph.wf (dependency_graph x) →
  apply_delta sha256_hex shard d x u = Some (x', u') →
  (t ∈ deps ↔ Graph.depends (dependency_graph x) f t) →
  Graph.wf (dependency_graph x') ∧
  (t ∈ merge_dependencies f deps d ↔ Graph.depends (dependency_graph x') f t).
Proof.
  intros Hself Hx Ha Hd. rewrite (apply_delta_dependencies d x u x' u' Ha).
  destruct (DeltaEntities.removed_files_graph shard 0 (removed_files d) x Hx) as [Hwf Hg].
  split; [by apply dependency_diffs_wf|]. unfold merge_dependencies.
  apply merge_dependency_diffs; [done|]. rewrite Hg, elem_of_retain, negb_true_iff, bool_decide_eq_false.
  unfold removes_file. destruct (bool_decide (f ∈ removed_files d)) eqn:E.
  - apply bool_decide_eq_true_1 in E. rewrite elem_of_nil. tauto.
  - apply bool_decide_eq_false_1 in E. rewrite Hd. tauto.
Qed.

Lemma layered_dependencies_spec ds y u y' u' f t :
  (∀ d, d ∈ ds → no_self_dependency d) → Graph.wf (dependency_graph y) →
  replay ds y u = Some (y', u') →
  t ∈ dependencies_of f (with_deltas (from_index_shared y) ds) ↔
  Graph.depends (dependency_graph y') f t.
Proof.
  unfold dependencies_of. simpl. intros Hds Hy Hr.
  assert (t ∈ Graph.get_dependencies f (dependency_graph y) ↔ Graph.depends (dependency_graph y) f t)
    as Hb by by rewrite GraphSort.elem_of_get_dependencies.
  revert Hds Hy Hr Hb. generalize (Graph.get_dependencies f (dependency_graph y)).
  revert y u. induction ds as [|d ds IH]; intros y u deps Hds Hy Hr Hb; cbn [replay foldl] in *;
    [by simplify_eq|].
  apply bind_Some in Hr as ([x1 u1] & Ha & Hr).
  destruct (merge_dependencies_step d y u x1 u1 f t deps (Hds d ltac:(by left)) Hy Ha Hb) as [H1 H2].
  apply (IH x1 u1); [intros d' Hd'; apply Hds; by right|done..].
Qed.

(** The dependencies that a layered snapshot shows are those of the index that
    its deltas lead to. *)
Theorem layered_dependencies_refine ds y u y' u' f t :
  (∀ d, d ∈ ds → no_self_dependency d) → Graph.wf (dependency_graph y) →
  replay ds y u = Some (y', u') →
  t ∈ dependencies_of f (with_deltas (from_index_shared y) ds) ↔
  Graph.depends (dependency_graph y') f t.
Proof. apply layered_dependencies_spec. Qed.

(** ** Relations *)

Lemma add_resolved_entries r s : entries_ok s → entries_ok (add_resolved_relation r s).
Proof.
  intros Hs. unfold add_resolved_relation. destruct (entry_default (caller r) s Hs) as (He & _ & _).
  pose proof (insert_entry r (caller r) _ He eq_refl) as Hentry.
  destruct (insert r _) as [inserted es']. simpl in Hentry.
  assert (entries_ok (set_resolved (<[caller r := es']> (resolved_relation_index s)) s)) as Hgoal.
  { intros c es0. simpl. rewrite lookup_insert_Some. intros [[<- <-]|[_ Hc]]; [done|by apply Hs]. }
  destruct inserted; [|done]. by destruct (callee_id r).
Qed.

(** Added edges with new identities go behind the edges of their caller. *)
Lemma added_fresh_edges rs s c :
  entries_ok s → NoDup (map relation_identity rs) →
  (∀ r, r ∈ rs → relation_identity r ∉ map relation_identity (edges_of (caller r) s)) →
  edges_of c (apply_added_relations rs s) = edges_of c s ++ from_caller c rs.
Proof.
  unfold apply_added_relations. revert s. induction rs as [|r rs IH]; intros s Hs Hnd Hf; cbn [foldl map] in *.
  { by rewrite app_nil_r. }
  apply NoDup_cons in Hnd as [Hr Hnd].
  assert (He : ∀ d, edges_of d (add_resolved_relation r s) =
    if decide (d = caller r) then edges_of d s ++ [r] else edges_of d s).
  { intros d. rewrite add_resolved_edges by done. pose proof (Hf r ltac:(by left)) as Hr'.
    destruct (decide (d = caller r)) as [->|Hne]; [by rewrite decide_True|].
    rewrite decide_False; [done|]. naive_solver. }
  rewrite IH; [|by apply add_resolved_entries|done|].
  - rewrite He. unfold from_caller. cbn [Prelude.retain].
    destruct (decide (c = caller r)) as [->|Hne].
    + rewrite bool_decide_eq_true_2 by done. by rewrite <- app_assoc.
    + rewrite bool_decide_eq_false_2; [done|]. by intros Hc.
  - intros r' Hr'. rewrite He. pose proof (Hf r' ltac:(by right)) as Hold.
    destruct (decide (caller r' = caller r)) as [Hc|Hc]; [|done].
    rewrite map_app, elem_of_app. intros [Hin|Hin]; [by apply Hold|].
    apply list_elem_of_singleton in Hin. apply Hr. rewrite <- Hin. by apply list_elem_of_fmap_2.
Qed.

(** A delta whose relations fit the index: what it adds is not there any more, and
    what it renames into has no relations. *)
Record fitting_delta (d : Delta) (x : Index) : Prop := {
  fitting_renames : ∀ q, q ∈ renamed_entities d → resolved_relation_index (relations x) !! new_id q = None;
  fitting_once : NoDup (map relation_identity (added_relations d));
  fitting_fresh : ∀ r, r ∈ added_relations d →
    relation_identity r ∈ map relation_identity (edges_of (caller r) (relations x)) →
    caller r ∈ removed_entities d ++ map old_id (renamed_entities d) ∨
    relation_identity r ∈ map relation_identity (removed_relations d);
}.

(** The delta computed for an index fits it. *)
Lemma computed_delta_fits {V} `{!IndexView StandardizedImport V} (x y : Index) (v : V) e b cfg scope :
  comparable sha256_hex x y v e b cfg scope →
  fitting_delta (compute_delta sha256_hex x v e b cfg scope) y.
Proof.
  intros HC. pose proof (ok_entries _ (comparable_new _ _ _ _ _ _ _ _ HC)) as Hx.
  pose proof (ok_entries _ (comparable_old _ _ _ _ _ _ _ _ HC)) as Hy.
  pose proof (presents_relations _ _ (comparable_view _ _ _ _ _ _ _ _ HC)) as Hv.
  assert (Hadd : added_relations (compute_delta sha256_hex x v e b cfg scope) = gained_edges x v scope)
    by by rewrite compute_delta_eq.
  split.
  - apply (taken_ids sha256_hex x y v e b cfg scope HC).
  - rewrite Hadd. by apply gained_distinct.
  - intros r. rewrite Hadd. intros (c & Hc & Hr & Hn)%(elem_of_gained x v (relations y) scope); [|done..].
    rewrite (edge_caller (relations x) c r) by done. intros (o & Heq & Ho)%list_elem_of_fmap.
    destruct (entity_in_scope v c scope) eqn:Eo.
    2:{ rewrite (comparable_moves _ _ _ _ _ _ _ _ HC c) in Ho; [by apply elem_of_nil in Ho|done|congruence]. }
    destruct (decide (c ∈ removed_entities (compute_delta sha256_hex x v e b cfg scope))) as [Hrem|Hrem].
    { left. apply elem_of_app. by left. }
    right. apply list_elem_of_fmap. exists o. split; [done|].
    rewrite compute_delta_eq in Hrem |- *. cbn [removed_relations removed_entities] in *. apply elem_of_app. left.
    apply (elem_of_lost x v (relations y) scope); [done..|]. exists c. split_and!; [|done..|].
    { by rewrite elem_of_list_to_set. }
    intros Hin. apply Hn. assert (edge_entry r = edge_entry o) as ->.
    + pose proof (new_map_functional x scope Hx (relation_identity r)) as Hfun. unfold edge_entry in *. rewrite <- Heq in *.
      f_equal. apply Hfun; [|done]. apply (elem_of_new_map x scope). by exists c, r.
    + apply (elem_of_old_map v (relations y) scope Hv). by exists c, o.
Qed.

(** The indexes that a chain of deltas leads through. *)
Inductive replayed : list Delta → Index → Index → Prop :=
| replayed_nil y : replayed [] y y
| replayed_cons d ds y u y1 u1 y' :
    relations_ok (relations y) → fitting_delta d y →
    apply_delta sha256_hex shard d y u = Some (y1, u1) → replayed ds y1 y' →
    replayed (d :: ds) y y'.

Lemma without_from_caller c (removed es : list ResolvedRelation) :
  (∀ r, r ∈ es → caller r = c) →
  without (map relation_identity removed) es = without_edges (from_caller c removed) es.
Proof.
  unfold without, without_edges. induction es as [|r es IH]; intros Hes; [done|]. cbn [Prelude.retain].
  rewrite IH by (intros r' Hr'; apply Hes; by right).
  assert (bool_decide (relation_identity r ∈ map relation_identity removed) =
    bool_decide (relation_identity r ∈ map relation_identity (from_caller c removed))) as ->; [|done].
  apply bool_decide_ext. rewrite !list_elem_of_fmap. unfold from_caller. setoid_rewrite elem_of_retain.
  setoid_rewrite bool_decide_eq_true. split; [|intros (r' & ? & ? & _); by exists r'].
  intros (r' & Heq & Hr'). exists r'. split_and!; [done..|]. rewrite <- (identity_caller_eq _ _ Heq). apply Hes. by left.
Qed.

Lemma replayed_step (d : Delta) y u y1 u1 c :
  relations_ok (relations y) → fitting_delta d y → c ∉ map old_id (renamed_entities d) →
  apply_delta sha256_hex shard d y u = Some (y1, u1) →
  edges_of c (relations y1) =
  merge_relations c (if removes_entity c d then [] else edges_of c (relations y)) d.
Proof.
  intros Hy [Hren Hnd Hf] Hcq Ha.
  destruct (removed_files_relations (removed_files d) y Hy) as (H1 & H2 & _).
  set (z := foldl apply_removed_file y (removed_files d)) in *.
  destruct (gone_relations sha256_hex (removed_entities d) (renamed_entities d)
    (entities z) (symbols z) (relations z) H1) as (H4 & _ & H7).
  { intros q Hq. rewrite H2. by apply Hren. }
  change ((apply_renamed_entities _ _ _).2) with (changed_stores sha256_hex d y).2 in H4, H7.
  pose proof (apply_delta_parts sha256_hex shard d y u) as Hparts.
  pose proof (apply_delta_blocks sha256_hex shard d y u) as Hblocks.
  set (s := (changed_stores sha256_hex d y).2) in *. clearbody s.
  destruct (apply_removed_relations shard (removed_relations d) s) as [rels|] eqn:H8;
    [|by rewrite Hblocks in Ha].
  destruct (removed_relations_spec shard _ (removed_relations d) s rels H4 H8) as (H9 & _ & H10).
  destruct (Hparts rels eq_refl) as (y2 & u2 & H11 & H12 & _).
  rewrite Ha in H11. injection H11 as <- <-.
  rewrite H12, DeltaEntities.file_diffs_edges. rewrite added_fresh_edges.
  - rewrite H10, H7. unfold merge_relations. f_equal. unfold removes_entity.
    destruct (decide (c ∈ removed_entities d)) as [Hc|Hc].
    + rewrite bool_decide_eq_true_2 by done. by rewrite decide_True by (apply elem_of_app; by left).
    + rewrite bool_decide_eq_false_2 by done. rewrite decide_False by (rewrite elem_of_app; tauto).
      unfold edges_of at 1. rewrite H2.
      apply without_from_caller. intros r Hr. apply (edge_caller (relations y)); [apply Hy|done].
  - apply H9.
  - done.
  - intros r Hr. rewrite H10, H7. intros (r' & Heq & Hr'%elem_of_without)%list_elem_of_fmap.
    destruct Hr' as [Hr' Hout]. destruct (decide _) as [Hc|Hc]; [by apply elem_of_nil in Hr'|].
    unfold edges_of in Hr'. rewrite H2 in Hr'. destruct (Hf r Hr) as [|Hin]; [|done|].
    + rewrite Heq. by apply list_elem_of_fmap_2.
    + by rewrite <- Heq in Hout.
Qed.

(** No delta removes an entity for which an earlier one added edges. *)
Definition quiet (c : EntityId) (ds : list Delta) : Prop :=
  ∀ ds1 d ds2, ds = ds1 ++ d :: ds2 → c ∈ removed_entities d →
    from_caller c (ds1 ≫= added_relations) = [].

Lemma quiet_tail c d ds :
  quiet c (d :: ds) →
  quiet c ds ∧ (existsb (removes_entity c) ds = true → from_caller c (added_relations d) = []).
Proof.
  intros Hq.
  assert (Hsplit : ∀ ds1 d' ds2, ds = ds1 ++ d' :: ds2 → c ∈ removed_entities d' →
    from_caller c (added_relations d) = [] ∧ from_caller c (ds1 ≫= added_relations) = []).
  { intros ds1 d' ds2 -> Hd'. specialize (Hq (d :: ds1) d' ds2 eq_refl Hd'). cbn [mbind list_bind] in Hq.
    unfold from_caller in *. rewrite retain_app in Hq. by apply app_eq_nil in Hq. }
  split; [intros ds1 d' ds2 Heq Hd'; by eapply Hsplit|].
  intros (d' & Hd' & Hc)%existsb_elem. apply list_elem_of_split in Hd' as (ds1 & ds2 & Heq).
  apply bool_decide_eq_true_1 in Hc. by eapply Hsplit.
Qed.

(** C8. The relations that the view of a layered snapshot shows for an entity are
    those of the index its deltas lead to, in the same order, unless an entity
    loses its relations after the chain added some, or is renamed away. The query
    by caller agrees with the view, except that it shows nothing for an entity
    that some delta removes. The deltas fit the indexes they are applied to, as
    the deltas computed for them do. *)
Theorem layered_relations_refine ds y y' c :
  replayed ds y y' → quiet c ds → (∀ d, d ∈ ds → c ∉ map old_id (renamed_entities d)) →
  let x := with_deltas (from_index_shared y) ds in
  relations_of c x = nonempty (edges_of c (relations y')) ∧
  get_resolved_relations_by_caller c x =
    if is_removed_entity c x then None else nonempty (edges_of c (relations y')).
Proof.
  intros Hr Hq Hn x.
  assert (Hview : relations_of c x = nonempty (edges_of c (relations y'))).
  { unfold x, relations_of. f_equal. unfold is_removed_entity. simpl.
    assert (default [] (edges <$> resolved_relation_index (relations y) !! c) = edges_of c (relations y))
      as -> by (unfold edges_of; by destruct (resolved_relation_index (relations y) !! c)).
    clear x. induction Hr as [y|d ds y u y1 u1 y' Hy Hfit Ha Hr IH]; [done|]. cbn [foldl existsb].
    apply quiet_tail in Hq as [Hq Hno].
    rewrite <- IH by (done || (intros d' Hd'; apply Hn; by right)). f_equal.
    rewrite (replayed_step d y u y1 u1 c Hy Hfit (Hn d ltac:(by left)) Ha).
    destruct (existsb (removes_entity c) ds) eqn:E; [|by rewrite orb_false_r].
    rewrite orb_true_r. unfold merge_relations. by rewrite Hno. }
  split; [done|]. cbn [get_resolved_relations_by_caller layered_relations]. unfold layered_by_caller.
  destruct (is_removed_entity c x) eqn:E; [done|]. rewrite <- Hview. unfold relations_of. rewrite E. simpl.
  by rewrite snapshot_by_caller_eq.
Qed.

End replay.

(** ** Where the readers differ *)

Section readers.
Context {StandardizedImport : Type} `{!EqDecision StandardizedImport}.
Context `{!SetIter EntityId, !SetIter string, !SetIter SymbolKey}.
Abbreviation Delta := (@SnapshotDelta StandardizedImport).

Lemma merged_resolved_app (ds : list Delta) d m :
  foldl merge_resolved m (ds ++ [d]) = merge_resolved (foldl merge_resolved m ds) d.
Proof. by rewrite foldl_app. Qed.

Lemma drop_edges_none (rs : list ResolvedRelation) c (m : gmap EntityId (list ResolvedRelation)) :
  m !! c = None → foldl drop_edge m rs !! c = None.
Proof.
  revert m. induction rs as [|r rs IH]; intros m Hm; [done|]. cbn [foldl]. apply IH.
  unfold drop_edge. destruct (m !! caller r) as [es|] eqn:E; [|done].
  rewrite lookup_insert_ne; [done|]. intros Hc. by rewrite Hc, Hm in E.
Qed.

Lemma push_edges_none (rs : list ResolvedRelation) c (m : gmap EntityId (list ResolvedRelation)) :
  m !! c = None → from_caller c rs = [] → foldl push_relation m rs !! c = None.
Proof.
  revert m. unfold from_caller. induction rs as [|r rs IH]; intros m Hm Hrs; [done|].
  cbn [foldl Prelude.retain] in *. destruct (bool_decide (caller r = c)) eqn:E; [done|].
  apply bool_decide_eq_false_1 in E. apply IH; [|done]. unfold push_relation.
  by rewrite lookup_insert_ne.
Qed.

Lemma without_nothing (rs : list ResolvedRelation) : without_edges [] rs = rs.
Proof. unfold without_edges. apply retain_all. intros r _. done. Qed.

(** After an entity was removed, the view still shows, when asked for the
    entity, the relations that earlier deltas added for it; the query by caller
    and the walk over all relations show none. *)
Theorem removed_entity_keeps_added_edges b ds d c :
  c ∈ removed_entities d →
  from_caller c (removed_relations d) = [] → from_caller c (added_relations d) = [] →
  let x := with_deltas (StandardizedImport := StandardizedImport) b (ds ++ [d]) in
  relations_of c x = nonempty (foldl (merge_relations c) [] ds) ∧
  get_resolved_relations_by_caller c x = None ∧
  c ∉ (view_resolved_relations x).*1.
Proof.
  intros Hc Hr Ha x.
  assert (Hrm : is_removed_entity c x = true).
  { unfold is_removed_entity. apply existsb_elem. exists d. split; [apply elem_of_app; right; by left|].
    by apply bool_decide_eq_true_2. }
  split_and!.
  - unfold relations_of. rewrite Hrm. f_equal. unfold x. simpl. rewrite foldl_app. cbn [foldl].
    unfold merge_relations at 1. by rewrite Hr, Ha, app_nil_r, without_nothing.
  - simpl. unfold layered_by_caller. by rewrite Hrm.
  - simpl. unfold nonempty_entries. intros ([k rs] & -> & Hin)%list_elem_of_fmap.
    apply elem_of_retain in Hin as [Hin _]. apply elem_of_entries in Hin.
    unfold merged_resolved in Hin. simpl in Hin. rewrite merged_resolved_app in Hin.
    unfold merge_resolved at 1 in Hin. rewrite push_edges_none in Hin; [done| |done].
    apply drop_edges_none. rewrite lookup_remove_keys. by rewrite decide_True.
Qed.

Lemma drop_seen_spec i (rs : list ResolvedRelation) st c :
  c ∈ (foldl (drop_seen i) st rs).1 ↔
  c ∈ st.1 ∧ ∀ r, r ∈ rs → callee_id r = Some i → caller r ≠ c.
Proof.
  revert st. induction rs as [|r rs IH]; intros st; cbn [foldl].
  { split; [intros Hc; split; [done|by intros r ?%elem_of_nil]|tauto]. }
  rewrite IH. setoid_rewrite elem_of_cons. unfold drop_seen. destruct (decide (callee_id r = Some i)) as [Hi|Hi].
  - cbn [fst]. rewrite elem_of_retain, negb_true_iff, bool_decide_eq_false. split.
    + intros [[Hc Hne] Hall]. split; [done|]. intros r' [->|Hr'] Hr''; [congruence|by apply Hall].
    + intros [Hc Hall]. split_and!; [done| |intros r' Hr'; apply Hall; by right].
      intros ->. by apply (Hall r); [left|..].
  - split; intros [Hc Hall]; (split; [done|]).
    + intros r' [->|Hr'] Hr''; [done|by apply Hall].
    + intros r' Hr'. apply Hall. by right.
Qed.

Lemma push_seen_none i (rs : list ResolvedRelation) st :
  (∀ r, r ∈ rs → callee_id r ≠ Some i) → foldl (push_seen i) st rs = st.
Proof.
  revert st. induction rs as [|r rs IH]; intros st Hrs; [done|]. cbn [foldl].
  unfold push_seen at 2. rewrite decide_False by (intros [Hr _]; by apply (Hrs r); [left|]).
  apply IH. intros r' Hr'. apply Hrs. by right.
Qed.

Lemma push_callers_none i (rs : list ResolvedRelation) cs :
  (∀ r, r ∈ rs → callee_id r ≠ Some i) →
  foldl (λ cs r, if decide (callee_id r = Some i) then push_new cs (caller r) else cs) cs rs = cs.
Proof.
  revert cs. induction rs as [|r rs IH]; intros cs Hrs; [done|]. cbn [foldl].
  rewrite decide_False by (apply Hrs; by left). apply IH. intros r' Hr'. apply Hrs. by right.
Qed.

(** A caller that loses one of its edges to an entity and keeps another is no
    longer among the callers of that entity, neither for the view nor for the
    query, though its relations still show the edge. *)
Theorem caller_with_second_edge_is_lost b (d : Delta) r r' i :
  let c := caller r in
  let x := with_delta b d in
  r ∈ removed_relations d → callee_id r = Some i →
  (∀ q, q ∈ added_relations d → callee_id q ≠ Some i) →
  c ∉ removed_entities d →
  r' ∈ default [] (view_relations_of b c) → callee_id r' = Some i →
  relation_identity r' ∉ map relation_identity (removed_relations d) →
  mentions (default [] (relations_of c x)) i ∧
  c ∉ callers_of i x ∧ c ∉ get_callers_by_callee_entity i x.
Proof.
  intros c x Hr Hi Hadd Hc Hr' Hi' Hout. split_and!.
  - exists r'. split; [|done]. unfold relations_of, is_removed_entity. simpl.
    unfold removes_entity. rewrite (bool_decide_eq_false_2 _ Hc). cbn [orb].
    assert (∀ l : list ResolvedRelation, default [] (nonempty l) = l) as -> by by intros [].
    unfold merge_relations. apply elem_of_app. left. unfold without_edges. apply elem_of_retain.
    split; [done|]. rewrite negb_true_iff, bool_decide_eq_false. intros Hin. apply Hout.
    apply list_elem_of_fmap in Hin as (q & Heq & Hq%elem_of_retain).
    apply list_elem_of_fmap. exists q. split; [done|apply Hq].
  - unfold callers_of. destruct (is_removed_entity i x); [by intros ?%elem_of_nil|].
    simpl. unfold Layered.merge_callers. rewrite push_seen_none by done. rewrite drop_seen_spec.
    intros [_ Hall]. by apply (Hall r).
  - simpl. unfold layered_callers. destruct (is_removed_entity i x); [by intros ?%elem_of_nil|].
    intros Hin. apply (proj1 (proj2 (proj2 (limited_spec _)))) in Hin. simpl in Hin.
    unfold merge_callers in Hin.
    rewrite push_callers_none in Hin by done. apply elem_of_retain in Hin as [_ Hin].
    apply andb_true_iff in Hin as [_ Hin]. apply negb_true_iff in Hin.
    assert (existsb (λ r0, bool_decide (caller r0 = c ∧ callee_id r0 = Some i)) (removed_relations d)
      = true) as Hex; [|congruence].
    apply existsb_elem. exists r. split; [done|]. by apply bool_decide_eq_true_2.
Qed.

Lemma search_nothing direct n found visited :
  search_files direct n found visited [] = found.
Proof. by destruct n. Qed.

(** The search for transitive dependents starts from what the base knows: for a
    file without dependents in the base it finds none, whatever the deltas
    add, and so for dependencies. *)
Theorem overlay_search_needs_base f x :
  let t := snapshot_transitive (StandardizedImport := StandardizedImport) (base x) in
  (TransitiveDeps.transitive_dependents_of t f = [] → layered_dependents_of f x = []) ∧
  (TransitiveDeps.transitive_dependencies_of t f = [] → layered_dependencies_of f x = []).
Proof.
  cbv zeta. unfold layered_dependents_of, layered_dependencies_of, extend_transitive.
  assert (Hnil : set_iter (∅ : gset string) = []).
  { apply Permutation_nil_r. rewrite set_iter_perm. by rewrite elements_empty. }
  split; intros ->; by rewrite list_to_set_nil, Hnil, search_nothing, elements_empty.
Qed.
End readers.

(** ** Examples *)

#[local] Existing Instances DeltaEntities.demo_iter_id DeltaEntities.demo_iter_file
  DeltaEntities.demo_iter_key.

(** A delta with the given changes only. *)
Definition demo_delta (gone : list EntityId) (new : list AddedEntity)
    (lost gained : list ResolvedRelation) (deps : list DependencyDiff) : @SnapshotDelta unit :=
  {| epoch := 2; base_epoch := 1; config_fingerprint := "cfg"; removed_files := [];
     added_files := []; removed_entities := gone; added_entities := new;
     removed_relations := lost; added_relations := gained; file_relation_diffs := [];
     import_diffs := []; export_diffs := []; dependency_diffs := deps;
     relation_edges_dropped_unbounded := 0; renamed_entities := [] |}.

(** The function 1 of b.rs goes, the function 2 of c.rs comes. *)
Definition demo_added : AddedEntity :=
  {| added_entity := DeltaReplay.demo_function 2 "h";
     added_key := SymbolIndex.demo_key "c.rs" "h"; added_path := "c.rs" |}.
Definition demo_change : @SnapshotDelta unit := demo_delta [1] [demo_added] [] [] [].

Theorem layered_entities_refine_witness :
  ∃ y' u', replay SymbolIndex.demo_hash Z.to_nat [demo_change] DeltaEntities.grown_old 0 = Some (y', u') ∧
    contains_entity 2 (with_deltas (from_index_shared DeltaEntities.grown_old) [demo_change]) =
    EntityIndex.contains_function 2 (entities y').
Proof.
  destruct (DeltaEntities.demo_applies demo_change DeltaEntities.grown_old) as (y' & u' & E);
    [reflexivity|].
  assert (Hr : replay SymbolIndex.demo_hash Z.to_nat [demo_change] DeltaEntities.grown_old 0 =
    Some (y', u')) by (cbn [replay]; rewrite E; reflexivity).
  exists y', u'. split; [exact Hr|].
  destruct (layered_entities_refine SymbolIndex.demo_hash Z.to_nat [demo_change]
    DeltaEntities.grown_old 0 y' u' Hr) as [H _].
  apply (H 2).
  - intros d q Hd%list_elem_of_singleton Hq. subst d. by apply elem_of_nil in Hq.
  - intros d Hd%list_elem_of_singleton. subst d. split; [vm_compute; lia|]. vm_compute. discriminate.
Defined.

(** The function 0 of the base is renamed into 4. *)
Definition demo_rename : @SnapshotDelta unit :=
  {| epoch := 2; base_epoch := 1; config_fingerprint := "cfg"; removed_files := [];
     added_files := []; removed_entities := []; added_entities := []; removed_relations := [];
     added_relations := []; file_relation_diffs := []; import_diffs := []; export_diffs := [];
     dependency_diffs := []; relation_edges_dropped_unbounded := 0;
     renamed_entities := [{| old_id := 0; new_id := 4; old_name := "f"; new_name := "e" |}] |}.

Theorem renamed_entity_stays_in_view_witness :
  ∃ y' u', apply_delta SymbolIndex.demo_hash Z.to_nat demo_rename DeltaEntities.grown_old 0 = Some (y', u') ∧
    is_Some (merged_functions (with_deltas (from_index_shared DeltaEntities.grown_old) [demo_rename]) !! 0) ∧
    function_index (entities y') !! 0 = None.
Proof.
  destruct (DeltaEntities.demo_applies demo_rename DeltaEntities.grown_old) as (y' & u' & E); [reflexivity|].
  exists y', u'. split; [exact E|].
  assert (Hs : is_Some (function_index (entities DeltaEntities.grown_old) !! 0))
    by (apply (bool_decide_unpack _); vm_compute; exact I).
  destruct (renamed_entity_stays_in_view SymbolIndex.demo_hash Z.to_nat [] demo_rename
    {| old_id := 0; new_id := 4; old_name := "f"; new_name := "e" |} DeltaEntities.grown_old 0
    DeltaEntities.grown_old 0 y' u') as [H1 H2].
  - reflexivity.
  - exact E.
  - reflexivity.
  - discriminate.
  - intros d q Hd. by apply elem_of_nil in Hd.
  - reflexivity.
  - reflexivity.
  - exact Hs.
  - split; [|exact H2]. cbn [app old_id] in H1. rewrite H1. exact Hs.
Defined.

(** a.rs depends on c.rs instead of b.rs. *)
Definition demo_move : @SnapshotDelta unit :=
  demo_delta [] [] [] [] [{| source_file := "a.rs"; removed_dependencies := ["b.rs"];
                             added_dependencies := ["c.rs"] |}].

Theorem layered_dependencies_refine_witness :
  ∃ y' u', replay SymbolIndex.demo_hash Z.to_nat [demo_move] DeltaEntities.moved_old 0 = Some (y', u') ∧
    Graph.depends (dependency_graph y') "a.rs" "c.rs" ∧
    ¬ Graph.depends (dependency_graph y') "a.rs" "b.rs".
Proof.
  destruct (DeltaEntities.demo_applies demo_move DeltaEntities.moved_old) as (y' & u' & E);
    [reflexivity|].
  assert (Hr : replay SymbolIndex.demo_hash Z.to_nat [demo_move] DeltaEntities.moved_old 0 =
    Some (y', u')) by (cbn [replay]; rewrite E; reflexivity).
  exists y', u'. split; [exact Hr|].
  assert (Hd : ∀ t, t ∈ dependencies_of "a.rs" (with_deltas (from_index_shared DeltaEntities.moved_old)
    [demo_move]) ↔ Graph.depends (dependency_graph y') "a.rs" t).
  { intros t. apply (layered_dependencies_refine SymbolIndex.demo_hash Z.to_nat [demo_move]
      DeltaEntities.moved_old 0 y' u' "a.rs" t); [|apply DeltaEntities.demo_graph_wf|exact Hr].
    intros d Hd%list_elem_of_singleton. subst d. intros dd Hdd%list_elem_of_singleton. subst dd.
    apply (bool_decide_unpack _). vm_compute. exact I. }
  rewrite <- !Hd. split; apply (bool_decide_unpack _); vm_compute; exact I.
Defined.

(** The function 1 calls 0 twice, then once. *)
Definition call_at (n : Z) : ResolvedRelation := call_edge 1 0 DirectCall n.
Definition demo_calls : @RelationIndex unit := DeltaReplay.demo_with [call_at 100; call_at 120].
Definition demo_drop : @SnapshotDelta unit := demo_delta [] [] [call_at 120] [] [].

Lemma demo_calls_ok : relations_ok (relations demo_calls).
Proof. apply add_resolved_all_ok, new_relations_ok. Qed.

Lemma demo_drop_fits : fitting_delta demo_drop demo_calls.
Proof.
  split; [|constructor|]; intros r Hr; by apply elem_of_nil in Hr.
Qed.

Theorem layered_relations_refine_witness :
  ∃ y', replayed SymbolIndex.demo_hash Z.to_nat [demo_drop] demo_calls y' ∧
    edges_of 1 (relations y') = [call_at 100] ∧
    get_resolved_relations_by_caller 1 (with_deltas (from_index_shared demo_calls) [demo_drop]) =
      Some [call_at 100].
Proof.
  destruct (apply_delta SymbolIndex.demo_hash Z.to_nat demo_drop demo_calls 0) as [[y' u']|] eqn:E;
    [|vm_compute in E; discriminate E].
  assert (Hr : replayed SymbolIndex.demo_hash Z.to_nat [demo_drop] demo_calls y').
  { eapply replayed_cons; [apply demo_calls_ok|apply demo_drop_fits|exact E|constructor]. }
  exists y'. split; [exact Hr|].
  assert (Hq : quiet 1 [demo_drop]).
  { intros ds1 d ds2 Heq. destruct ds1 as [|d1 ds1]; [reflexivity|].
    destruct ds1; discriminate Heq. }
  assert (Hn : ∀ d : @SnapshotDelta unit, d ∈ [demo_drop] → 1 ∉ map old_id (renamed_entities d)).
  { intros d Hd%list_elem_of_singleton. subst d. apply not_elem_of_nil. }
  destruct (layered_relations_refine SymbolIndex.demo_hash Z.to_nat [demo_drop] demo_calls y' 1 Hr Hq Hn)
    as [H H'].
  assert (relations_of 1 (with_deltas (from_index_shared demo_calls) [demo_drop]) =
    Some [call_at 100]) as H0 by (vm_compute; reflexivity).
  rewrite H0 in H. destruct (edges_of 1 (relations y')) as [|r rs]; [discriminate H|].
  cbn [nonempty] in H, H'. injection H as <- <-. split; [reflexivity|]. exact H'.
Defined.

(** The delta before adds calls of the function 5, which the last one removes. *)
Definition demo_brief : list (@SnapshotDelta unit) :=
  [demo_delta [] [] [] [call_edge 5 0 DirectCall 10] []].
Definition demo_end : @SnapshotDelta unit := demo_delta [5] [] [] [] [].

Theorem removed_entity_keeps_added_edges_witness :
  let x := with_deltas (from_index_shared demo_calls) (demo_brief ++ [demo_end]) in
  relations_of 5 x = Some [call_edge 5 0 DirectCall 10] ∧
  get_resolved_relations_by_caller 5 x = None.
Proof.
  destruct (removed_entity_keeps_added_edges (from_index_shared demo_calls)
    demo_brief demo_end 5) as (H1 & H2 & _); [by left|reflexivity..|].
  split; [rewrite H1; reflexivity|exact H2].
Defined.

Theorem caller_with_second_edge_is_lost_witness :
  let x := with_delta (from_index_shared demo_calls) demo_drop in
  mentions (default [] (relations_of 1 x)) 0 ∧ 1 ∉ callers_of 0 x ∧
  1 ∉ get_callers_by_callee_entity 0 x.
Proof.
  apply (caller_with_second_edge_is_lost (from_index_shared demo_calls) demo_drop
    (call_at 120) (call_at 100) 0).
  - by left.
  - reflexivity.
  - intros q Hq. by apply elem_of_nil in Hq.
  - apply not_elem_of_nil.
  - vm_compute. by left.
  - reflexivity.
  - apply (bool_decide_unpack _). vm_compute. exact I.
Defined.

(** d.rs starts to depend on a.rs, on which no file of the base depends. *)
Definition demo_depend : @SnapshotDelta unit :=
  demo_delta [] [] [] [] [{| source_file := "d.rs"; removed_dependencies := [];
                             added_dependencies := ["a.rs"] |}].

Definition demo_dependent : @LayeredSnapshotIndex unit :=
  with_delta (from_index_shared TransitiveDeps.demo_chain) demo_depend.

Theorem overlay_search_needs_base_witness :
  "d.rs" ∈ dependents_of "a.rs" demo_dependent ∧ layered_dependents_of "a.rs" demo_dependent = [].
Proof.
  destruct (overlay_search_needs_base "a.rs" demo_dependent) as [H _].
  split; [apply (bool_decide_unpack _); vm_compute; exact I|].
  apply H. vm_compute. reflexivity.
Defined.

End LayeredReplay.
