(* ===== verification/BaseCache.v ===== *)
(** * The cache of relation bases

    Models [RelationBaseCache] of crates/app/cce-orchestrator/src/index/
    relation_base_cache.rs: per project the base snapshot of an epoch and the
    deltas published since, handed out as a layered snapshot. Loading an epoch
    from the store ([RelationSnapshotLoader::load]) is an argument. *)

From S2P Require Import Prelude MultiMap SortedVec Kinds EntityDiff DependencyGraph EdgeSet.
From S2P Require Import EntityIndex SymbolIndex RelationIndex DeltaDiff DeltaApply DeltaReplay.
From S2P Require Import DeltaEntities RelationQuery Layered LayeredQuery LayeredReplay.
From stdpp Require Import fin_sets.
From Stdlib Require Import ZArith Lia.
#[local] Open Scope Z_scope.

Module BaseCache.
Import Kinds EdgeSet RelationIndex DeltaDiff DeltaApply RelationQuery Layered LayeredReplay.

#[local] Existing Instances SymbolIndex.SymbolKey_eq_dec SymbolIndex.SymbolKey_countable.

Section cache.
Context {StandardizedImport : Type} `{!EqDecision StandardizedImport}.
Context `{!SetIter EntityId, !SetIter string, !SetIter SymbolKey}.
Context {StorageError : Type}.
Abbreviation Index := (@RelationIndex StandardizedImport).
Abbreviation Snapshot := (@RelationSnapshotIndex StandardizedImport).
Abbreviation Delta := (@SnapshotDelta StandardizedImport).
Abbreviation Layer := (@LayeredSnapshotIndex StandardizedImport).

Record CachedBase := {
  cached_epoch : Z;
  base_snapshot : Snapshot;
  chain : list Delta;
}.

Abbreviation Cache := (gmap Z CachedBase).

Definition new_cache : Cache := ∅.

(** What the store gives for a project and an epoch, when the cache has to ask. *)
Abbreviation Load := (Z → Z → result Index StorageError).

Definition get_or_load (load : Load) (project epoch : Z) (c : Cache)
    : result Layer StorageError * Cache :=
  let reload :=
    match load project epoch with
    | Err e => (Err e, c)
    | Ok loaded =>
        let b := from_index_shared loaded in
        (Ok (new b), <[project := {| cached_epoch := epoch; base_snapshot := b; chain := [] |}]> c)
    end in
  match c !! project with
  | Some cached =>
      if decide (cached_epoch cached = epoch)
      then (Ok (with_deltas (base_snapshot cached) (chain cached)), c)
      else reload
  | None => reload
  end.

(** Only the next epoch continues the chain. *)
Definition update (project epoch : Z) (d : Delta) (c : Cache) : Cache :=
  match c !! project with
  | Some cached =>
      if decide (cached_epoch cached = to_i64 (epoch - 1))
      then <[project := {| cached_epoch := epoch; base_snapshot := base_snapshot cached;
                           chain := chain cached ++ [d] |}]> c
      else delete project c
  | None => delete project c
  end.

Definition remove (project : Z) (c : Cache) : Cache := delete project c.

Definition rebuild_from_compacted (project epoch : Z) (compacted : Index) (c : Cache) : Cache :=
  <[project := {| cached_epoch := epoch; base_snapshot := from_index_shared compacted;
                  chain := [] |}]> c.

(** ** What the cache owes to the store *)

Section coherence.
Context (sha256_hex : list Z → string) (shard : EntityId → nat).

(** The index of a project at an epoch, as the store keeps it. *)
Context (state_at : Z → Z → Index).
Context (Hwf : ∀ p e, Graph.wf (dependency_graph (state_at p e))).

(** A delta was published for an epoch: it leads from the index before to the
    one of the epoch. *)
Record published (project epoch : Z) (d : Delta) : Prop := {
  published_leads : ∀ u, ∃ u',
    apply_delta sha256_hex shard d (state_at project (to_i64 (epoch - 1))) u =
    Some (state_at project epoch, u');
  published_dependencies : no_self_dependency d;
}.

(** What is done with the cache: asking for an epoch while the store answers
    truly or fails, announcing a published delta or a compacted base, removing
    a project. *)
Inductive cache_step : Cache → Cache → Prop :=
| step_load load project epoch c :
    (∀ x, load project epoch = Ok x → x = state_at project epoch) →
    cache_step c (get_or_load load project epoch c).2
| step_update project epoch d c :
    published project epoch d → cache_step c (update project epoch d c)
| step_remove project c : cache_step c (remove project c)
| step_rebuild project epoch c :
    cache_step c (rebuild_from_compacted project epoch (state_at project epoch) c).

(** The chain of an entry leads from its base to the index of its epoch. *)
Definition entry_coherent (project : Z) (cached : CachedBase) : Prop :=
  ∃ b, base_snapshot cached = from_index_shared b ∧ Graph.wf (dependency_graph b) ∧
       (∀ u, ∃ u', replay sha256_hex shard (chain cached) b u =
                   Some (state_at project (cached_epoch cached), u')) ∧
       ∀ d, d ∈ chain cached → no_self_dependency d.

Definition coherent (c : Cache) : Prop := ∀ p cached, c !! p = Some cached → entry_coherent p cached.

Lemma fresh_coherent project epoch x :
  x = state_at project epoch →
  entry_coherent project
    {| cached_epoch := epoch; base_snapshot := from_index_shared x; chain := [] |}.
Proof.
  intros ->. eexists. split_and!; [reflexivity|done|..]; simpl; [by eauto|by intros d ?%elem_of_nil].
Qed.

Lemma replay_snoc ds d (b : Index) u x1 u1 :
  replay sha256_hex shard ds b u = Some (x1, u1) →
  replay sha256_hex shard (ds ++ [d]) b u = apply_delta sha256_hex shard d x1 u1.
Proof.
  revert b u. induction ds as [|d0 ds IH]; intros b u H; cbn [replay app] in *.
  { simplify_eq. by destruct (apply_delta _ _ _ _ _) as [[x' u']|]. }
  destruct (apply_delta sha256_hex shard d0 b u) as [[x2 u2]|]; [|done]. simpl in *. by apply IH.
Qed.

Lemma update_coherent project epoch d cached :
  published project epoch d → entry_coherent project cached →
  cached_epoch cached = to_i64 (epoch - 1) →
  entry_coherent project {| cached_epoch := epoch; base_snapshot := base_snapshot cached;
                            chain := chain cached ++ [d] |}.
Proof.
  intros [Hlead Hself] (b & Hb & Hg & Hr & Hds) He. exists b. split_and!; [done|done|..]; simpl.
  - intros u. destruct (Hr u) as [u1 H1]. rewrite He in H1. destruct (Hlead u1) as [u' H2].
    exists u'. by rewrite (replay_snoc _ _ _ _ _ _ H1).
  - intros d' [Hd'|Hd'%list_elem_of_singleton]%elem_of_app; [by apply Hds|by subst].
Qed.

Lemma insert_coherent c p cached :
  coherent c → entry_coherent p cached → coherent (<[p := cached]> c).
Proof. intros Hc He p' cached'. rewrite lookup_insert_Some. intros [[<- <-]|[_ H]]; [done|by apply Hc]. Qed.

Lemma delete_coherent c p : coherent c → coherent (delete p c).
Proof. intros Hc p' cached' [_ H]%lookup_delete_Some. by apply Hc. Qed.

#[export] Instance cache_invariant : StepInvariant (λ c, c = new_cache) cache_step coherent.
Proof.
  split; [intros c -> p cached; unfold new_cache; by rewrite lookup_empty|]. intros c c' Hc Hstep.
  destruct Hstep as [load p e c Hload|p e d c Hpub|p c|p e c].
  - unfold get_or_load.
    assert (coherent (match load p e with
      | Err err => (Err err, c)
      | Ok loaded => (Ok (new (from_index_shared loaded)),
          <[p := {| cached_epoch := e; base_snapshot := from_index_shared loaded; chain := [] |}]> c)
      end).2) as Hreload.
    { destruct (load p e) as [x|err] eqn:E; [|done]. by apply insert_coherent, fresh_coherent, Hload. }
    destruct (c !! p) as [cached|]; [|done]. by destruct (decide _).
  - unfold update. destruct (c !! p) as [cached|] eqn:E; [|by apply delete_coherent].
    destruct (decide _); [|by apply delete_coherent].
    apply insert_coherent; [done|]. apply update_coherent; [done|by apply Hc|done].
  - by apply delete_coherent.
  - by apply insert_coherent, fresh_coherent.
Qed.

Lemma answer_coherent load project epoch c x c' :
  coherent c → (∀ y, load project epoch = Ok y → y = state_at project epoch) →
  get_or_load load project epoch c = (Ok x, c') →
  ∃ cached, x = with_deltas (base_snapshot cached) (chain cached) ∧
            cached_epoch cached = epoch ∧ entry_coherent project cached.
Proof.
  intros Hc Hload. unfold get_or_load. intros H.
  destruct (c !! project) as [cached|] eqn:E.
  - destruct (decide _) as [He|_].
    + simplify_eq. exists cached. split_and!; [done|done|by apply Hc].
    + destruct (load project epoch) as [y|err] eqn:El; [|done]. simplify_eq.
      eexists {| cached_epoch := epoch; base_snapshot := from_index_shared y; chain := [] |}.
      split_and!; [done|done|by apply fresh_coherent, Hload].
  - destruct (load project epoch) as [y|err] eqn:El; [|done]. simplify_eq.
    eexists {| cached_epoch := epoch; base_snapshot := from_index_shared y; chain := [] |}.
    split_and!; [done|done|by apply fresh_coherent, Hload].
Qed.

(** C18. Whatever was loaded, published, compacted and removed before, the layered
    snapshot the cache hands out for an epoch shows the dependencies of the index
    that the store has for this epoch, and its entities as far as no delta of
    the snapshot renames them: renames do not reach the view. The published deltas
    lead from the index of the epoch before to that of their own and, like every
    computed delta, let no file depend on itself. *)
Theorem cached_view_shows_epoch load project epoch c x c' :
  reachable (λ c, c = new_cache) cache_step c →
  (∀ y, load project epoch = Ok y → y = state_at project epoch) →
  get_or_load load project epoch c = (Ok x, c') →
  (∀ i, unrenamed i (deltas x) →
     merged_functions x !! i = function_index (entities (state_at project epoch)) !! i) ∧
  ∀ f t, t ∈ dependencies_of f x ↔ Graph.depends (dependency_graph (state_at project epoch)) f t.
Proof.
  intros Hc Hload Hx. apply (invariant_reachable _ _ coherent) in Hc.
  destruct (answer_coherent load project epoch c x c' Hc Hload Hx)
    as (cached & -> & <- & b & -> & Hg & Hr & Hds).
  destruct (Hr 0) as [u' H]. split.
  - intros i Hi. unfold merged_functions. simpl. rewrite to_map_entries_id.
    by apply (merge_functions_chain sha256_hex shard (chain cached) b 0 _ u').
  - intros f t. by apply (layered_dependencies_spec sha256_hex shard (chain cached) b 0 _ u' f t).
Qed.
End coherence.
End cache.

(** ** Example *)

#[local] Existing Instances DeltaEntities.demo_iter_id DeltaEntities.demo_iter_file
  DeltaEntities.demo_iter_key.

(** The diagnostics counter only counts. *)
Lemma demo_counter (d : @SnapshotDelta unit) (x : @RelationIndex unit) u :
  export_diffs d = [] →
  apply_delta SymbolIndex.demo_hash Z.to_nat d x u =
  (λ p, (p.1, u)) <$> apply_delta SymbolIndex.demo_hash Z.to_nat d x 0.
Proof.
  intros Hd. unfold apply_delta. rewrite Hd.
  destruct (apply_removed_entities _ _ _) as [[es1 syms1] rels1].
  destruct (apply_renamed_entities _ _ _) as [[es2 syms2] rels2].
  destruct (apply_added_entities _ _ _) as [es3 syms3].
  by destruct (apply_removed_relations _ _ _).
Qed.

(** The project 7: an epoch 1, on which the delta of epoch 2 is published. *)
Definition demo_before : @RelationIndex unit := DeltaEntities.grown_old.
Definition demo_after : @RelationIndex unit :=
  match apply_delta SymbolIndex.demo_hash Z.to_nat demo_change demo_before 0 with
  | Some p => p.1
  | None => demo_before
  end.
Definition demo_states (p e : Z) : @RelationIndex unit :=
  if e =? 2 then demo_after else demo_before.
Definition demo_load (p e : Z) : result (@RelationIndex unit) unit := Ok (demo_states p e).

Lemma demo_after_is u : ∃ u', apply_delta SymbolIndex.demo_hash Z.to_nat demo_change demo_before u =
  Some (demo_after, u').
Proof.
  exists u. rewrite demo_counter by reflexivity. unfold demo_after.
  destruct (DeltaEntities.demo_applies demo_change demo_before) as (y & u' & ->); [reflexivity|].
  reflexivity.
Qed.

Lemma demo_no_self : no_self_dependency demo_change.
Proof. intros dd Hdd. by apply elem_of_nil in Hdd. Qed.

Lemma demo_states_wf p e : Graph.wf (dependency_graph (demo_states p e)).
Proof.
  assert (Graph.wf (dependency_graph demo_before)) as Hb by apply DeltaEntities.demo_graph_wf.
  unfold demo_states. destruct (e =? 2); [|exact Hb]. destruct (demo_after_is 0) as [u' Ha].
  rewrite (apply_delta_dependencies SymbolIndex.demo_hash Z.to_nat _ _ _ _ _ Ha).
  apply dependency_diffs_wf, DeltaEntities.removed_files_graph; [exact Z.to_nat|exact 0|exact Hb].
Qed.

Lemma demo_published : published SymbolIndex.demo_hash Z.to_nat demo_states 7 2 demo_change.
Proof. split; [exact demo_after_is|exact demo_no_self]. Qed.

Definition demo_cache : gmap Z CachedBase :=
  update 7 2 demo_change (get_or_load demo_load 7 1 new_cache).2.

Lemma demo_cache_reachable :
  reachable (λ c, c = new_cache) 
    (cache_step (StorageError := unit) SymbolIndex.demo_hash Z.to_nat demo_states) demo_cache.
Proof.
  exists new_cache. split; [reflexivity|]. unfold demo_cache. eapply rtc_l; [|apply rtc_once].
  - apply (step_load _ _ _ demo_load 7 1). intros x Hx. unfold demo_load in Hx. congruence.
  - apply step_update, demo_published.
Qed.

Theorem cached_view_shows_epoch_witness :
  ∃ x c', get_or_load demo_load 7 2 demo_cache = (Ok x, c') ∧ chain_len x = 1%nat ∧
    merged_functions x !! 2 = function_index (entities (demo_states 7 2)) !! 2.
Proof.
  destruct (get_or_load demo_load 7 2 demo_cache) as [r c'] eqn:E.
  assert (r = Ok (with_deltas (from_index_shared demo_before) [demo_change])) as -> .
  { unfold demo_cache, get_or_load, update, demo_load, new_cache in E. rewrite lookup_empty in E. cbn [snd] in E.
    rewrite lookup_insert_eq in E. cbn [cached_epoch] in E. rewrite decide_True in E by reflexivity.
    rewrite lookup_insert_eq in E. cbn [cached_epoch] in E. rewrite decide_True in E by reflexivity.
    by injection E as <- _. }
  exists (with_deltas (from_index_shared demo_before) [demo_change]), c'.
  split; [reflexivity|]. split; [reflexivity|].
  assert (Hload : ∀ y, demo_load 7 2 = Ok y → y = demo_states 7 2)
    by (intros y Hy; unfold demo_load in Hy; congruence).
  apply (proj1 (cached_view_shows_epoch SymbolIndex.demo_hash Z.to_nat demo_states demo_states_wf
    demo_load 7 2 demo_cache _ c' demo_cache_reachable Hload E)).
  intros d q Hd%list_elem_of_singleton Hq. subst d. by apply elem_of_nil in Hq.
Defined.

End BaseCache.
