(* ===== verification/Compact.v ===== *)
(** * The compact form of the relation index

    Models [CompactRelationIndex] of crates/parser/cce-codegraph/src/index/
    compact.rs: the maps of a relation index copied out of their concurrent
    containers, the way back, and the application of a delta through it. *)

From S2P Require Import Prelude MultiMap SortedVec Kinds EntityDiff DependencyGraph EdgeSet.
From S2P Require Import GraphSort GraphSearch EntityIndex SymbolIndex RelationIndex DeltaDiff.
From S2P Require Import DeltaApply RelationQuery Layered.
From stdpp Require Import fin_sets.
From Stdlib Require Import ZArith Lia.
#[local] Open Scope Z_scope.

Module Compact.
Import Kinds EdgeSet RelationIndex DeltaDiff Layered.

#[local] Existing Instances SymbolIndex.SymbolKey_eq_dec SymbolIndex.SymbolKey_countable.

Section compact.
Context {StandardizedImport : Type} `{!EqDecision StandardizedImport}.
Context `{!SetIter EntityId, !SetIter string}.
Abbreviation Index := (@RelationIndex StandardizedImport).
Abbreviation Record' := (@FileRecord StandardizedImport).

Record CompactRelationIndex := {
  function_index : gmap EntityId Entity;
  name_index : gmap string (list EntityId);
  resolved_relation_index : gmap EntityId RelationEdgeSet;
  entity_file_index : gmap EntityId string;
  file_relation_index : gmap string RelationEdgeSet;
  file_callers_by_callee : gmap EntityId (gset string);
  file_records : gmap string Record';
  symbol_key_to_entity : gmap SymbolKey EntityId;
  entity_to_symbol_key : gmap EntityId SymbolKey;
  stable_id_to_entity : gmap string EntityId;
  file_symbol_keys : gmap string (list SymbolKey);
  file_entities_by_start : gmap string (list (Z * EntityId));
  dependency_forward : gmap string (gset string);
  dependency_reverse : gmap string (gset string);
}.

(** One direction of the dependency graph: the files with their neighbours,
    without those that have none. *)
Definition add_neighbours (neighbours : string → list string) (m : gmap string (gset string))
    (f : string) : gmap string (gset string) :=
  match neighbours f with [] => m | fs => <[f := list_to_set fs]> m end.

Definition neighbour_map (neighbours : string → list string) (files : list string)
    : gmap string (gset string) :=
  foldl (add_neighbours neighbours) ∅ files.

Definition from_relation_index (x : Index) : CompactRelationIndex :=
  let es := entities x in
  let s := relations x in
  let syms := symbols x in
  let g := dependency_graph x in
  {| function_index := to_map (entries (EntityIndex.function_index es));
     name_index := to_map (entries (EntityIndex.name_index es));
     resolved_relation_index := to_map (entries (RelationIndex.resolved_relation_index s));
     entity_file_index := to_map (entries (EntityIndex.entity_file_index es));
     file_relation_index := to_map (entries (RelationIndex.file_relation_index s));
     file_callers_by_callee := to_map (entries (RelationIndex.file_callers_by_callee s));
     file_records := RelationIndex.file_records x;
     symbol_key_to_entity := SymbolIndex.symbol_key_to_entity syms;
     entity_to_symbol_key := SymbolIndex.entity_to_symbol_key syms;
     stable_id_to_entity := SymbolIndex.stable_id_to_entity syms;
     file_symbol_keys := SymbolIndex.file_symbol_keys syms;
     file_entities_by_start := EntityIndex.file_entities_by_start es;
     dependency_forward := neighbour_map (λ f, Graph.get_dependencies f g) (Graph.get_all_files g);
     dependency_reverse := neighbour_map (λ f, Graph.get_dependents f g) (Graph.get_all_files g) |}.

Definition to_dependency_graph (c : CompactRelationIndex) : Graph.FileDependencyGraph :=
  foldl (λ g p, foldl (λ g to, Graph.add_dependency p.1 to g) g (set_iter p.2)) Graph.new
    (entries (dependency_forward c)).

Definition entity_count (c : CompactRelationIndex) : nat := size (function_index c).

Definition relation_count (c : CompactRelationIndex) : nat :=
  sum_list (map (λ p, length (edges p.2)) (entries (resolved_relation_index c))).

Definition insert_functions (l : list (EntityId * Entity)) : EntityIndex.EntityStore :=
  foldl (λ es p, EntityIndex.insert_function p.1 p.2 es) EntityIndex.new l.

Definition to_relation_index (c : CompactRelationIndex) : Index :=
  let es := insert_functions (entries (function_index c)) in
  let es := EntityIndex.set_files (to_map (entries (entity_file_index c))) es in
  let rels := rebuild_reverse_callee_index
                (set_resolved (to_map (entries (resolved_relation_index c))) new_relations) in
  {| entities := EntityIndex.set_starts (file_entities_by_start c) es;
     relations := set_file_relations (to_map (entries (file_relation_index c)))
                    (to_map (entries (file_callers_by_callee c))) rels;
     symbols :=
       {| SymbolIndex.symbol_key_to_entity := symbol_key_to_entity c;
          SymbolIndex.entity_to_symbol_key := entity_to_symbol_key c;
          SymbolIndex.stable_id_to_entity := stable_id_to_entity c;
          SymbolIndex.file_symbol_keys := file_symbol_keys c;
          SymbolIndex.symbol_key_conflict_count := 0;
          SymbolIndex.symbol_key_conflict_samples := [] |};
     RelationIndex.file_records := file_records c;
     dependency_graph := to_dependency_graph c |}.

(** Through a temporary relation index, with a diagnostics counter of its own. *)
Definition apply_delta (sha256_hex : list Z → string) (shard : EntityId → nat)
    (d : @SnapshotDelta StandardizedImport) (c : CompactRelationIndex)
    : option CompactRelationIndex :=
  p ← DeltaApply.apply_delta sha256_hex shard d (to_relation_index c) 0;
  Some (from_relation_index p.1).

(** ** Copies *)

Lemma from_index_maps (x : Index) :
  let c := from_relation_index x in
  function_index c = EntityIndex.function_index (entities x) ∧
  name_index c = EntityIndex.name_index (entities x) ∧
  resolved_relation_index c = RelationIndex.resolved_relation_index (relations x) ∧
  entity_file_index c = EntityIndex.entity_file_index (entities x) ∧
  file_relation_index c = RelationIndex.file_relation_index (relations x) ∧
  file_callers_by_callee c = RelationIndex.file_callers_by_callee (relations x).
Proof. cbv zeta. unfold from_relation_index. simpl. by rewrite !to_map_entries_id. Qed.

(** *** Entities *)

(** What inserting entities without their files keeps up. *)
Record inserted_ok (es : EntityIndex.EntityStore) : Prop := {
  inserted_buckets : EntityIndex.buckets_ok (EntityIndex.name_index es);
  inserted_names : ∀ n i, i ∈ EntityIndex.bucket n (EntityIndex.name_index es) ↔
    ∃ e, EntityIndex.function_index es !! i = Some e ∧ EntityIndex.entity_name e = n;
  inserted_ids : ∀ i, is_Some (EntityIndex.function_index es !! i) →
    0 ≤ i < EntityIndex.entity_id_counter es;
  inserted_counter : 0 ≤ EntityIndex.entity_id_counter es ≤ u64_max;
}.

Lemma insert_function_ok i e es :
  0 ≤ i < u64_max → EntityIndex.function_index es !! i = None → inserted_ok es →
  inserted_ok (EntityIndex.insert_function i e es) ∧
  EntityIndex.function_index (EntityIndex.insert_function i e es) =
    <[i := e]> (EntityIndex.function_index es).
Proof.
  intros Hi Hn [Hb Hnames Hids Hc]. unfold EntityIndex.insert_function, EntityIndex.drop_stale_name.
  rewrite Hn. set (s := EntityIndex.set_functions _ _ es).
  destruct (EntityIndex.ensure_counter_spec (wrap64 (i + 1)) s) as (H1 & H2 & H3 & _).
  rewrite wrap64_small in * by (unfold u64_max in *; lia).
  split; [|by rewrite H2]. split.
  - rewrite H3. simpl. by apply EntityIndex.add_name_ok.
  - intros n j. rewrite H3, H2. simpl. rewrite EntityIndex.add_name_spec, Hnames.
    destruct (decide (j = i)) as [->|Hj].
    + rewrite lookup_insert_eq, Hn. naive_solver.
    + rewrite lookup_insert_ne by done. naive_solver.
  - intros j. rewrite H2, H1. simpl. destruct (decide (j = i)) as [->|Hj]; [lia|].
    rewrite lookup_insert_ne by done. intros Hj'. specialize (Hids j Hj'). lia.
  - rewrite H1. simpl. lia.
Qed.

Lemma insert_functions_ok (l : list (EntityId * Entity)) es :
  NoDup l.*1 → (∀ p, p ∈ l → 0 ≤ p.1 < u64_max ∧ EntityIndex.function_index es !! p.1 = None) →
  inserted_ok es →
  let es' := foldl (λ es p, EntityIndex.insert_function p.1 p.2 es) es l in
  inserted_ok es' ∧
  EntityIndex.function_index es' = foldl (λ m p, <[p.1 := p.2]> m) (EntityIndex.function_index es) l.
Proof.
  cbv zeta. revert es. induction l as [|[i e] l IH]; intros es Hnd Hl Hes; cbn [foldl fst snd] in *;
    [done|]. apply NoDup_cons in Hnd as [Hi Hnd]. destruct (Hl (i, e) ltac:(by left)) as [H1 H2].
  destruct (insert_function_ok i e es H1 H2 Hes) as [H3 H4]. rewrite <- H4. apply IH; [done| |done].
  intros p Hp. destruct (Hl p ltac:(by right)) as [H5 H6]. split; [done|].
  rewrite H4, lookup_insert_ne; [done|]. intros ->. apply Hi, list_elem_of_fmap. by exists p.
Qed.

Lemma insert_functions_files l :
  EntityIndex.entity_file_index (insert_functions l) = ∅ ∧
  EntityIndex.file_entities_by_start (insert_functions l) = ∅.
Proof.
  unfold insert_functions.
  assert (∀ es, EntityIndex.entity_file_index (foldl (λ es p,
      EntityIndex.insert_function p.1 p.2 es) es l) = EntityIndex.entity_file_index es ∧
    EntityIndex.file_entities_by_start (foldl (λ es p,
      EntityIndex.insert_function p.1 p.2 es) es l) = EntityIndex.file_entities_by_start es) as H;
    [|exact (H EntityIndex.new)].
  induction l as [|[i e] l IH]; intros es; [done|]. cbn [foldl fst snd].
  destruct (IH (EntityIndex.insert_function i e es)) as [-> ->]. unfold EntityIndex.insert_function.
  set (s := EntityIndex.set_functions _ _ es).
  by destruct (EntityIndex.ensure_counter_spec (wrap64 (i + 1)) s) as (_ & _ & _ & -> & ->).
Qed.

(** *** Dependencies *)

Lemma neighbour_map_lookup (neighbours : string → list string) files f :
  neighbour_map neighbours files !! f =
  if decide (f ∈ files ∧ neighbours f ≠ []) then Some (list_to_set (neighbours f)) else None.
Proof.
  unfold neighbour_map.
  assert (∀ m, foldl (add_neighbours neighbours) m files !! f =
    if decide (f ∈ files ∧ neighbours f ≠ []) then Some (list_to_set (neighbours f)) else m !! f) as H.
  { induction files as [|g files IH]; intros m; cbn [foldl].
    { rewrite decide_False; [done|]. intros [Hf _]. by apply elem_of_nil in Hf. }
    rewrite IH. unfold add_neighbours. destruct (decide (f = g)) as [->|Hne].
    - destruct (neighbours g) as [|h hs] eqn:E.
      + rewrite !decide_False by tauto. done.
      + rewrite (decide_True (P := g ∈ g :: files ∧ _)) by (split; [by left|done]).
        rewrite lookup_insert_eq. by destruct (decide _).
    - assert (match neighbours g with [] => m | f0 :: l => <[g:=list_to_set (f0 :: l)]> m end !! f = m !! f)
        as -> by (destruct (neighbours g); [done|by apply lookup_insert_ne]).
      apply decide_ext. rewrite elem_of_cons. naive_solver. }
  rewrite H. by rewrite lookup_empty.
Qed.

Lemma neighbour_map_copies (m : gmap string (gset string)) (neighbours : string → list string) files :
  no_empty m → (∀ f, is_Some (m !! f) → f ∈ files) →
  (∀ f, neighbours f = match m !! f with Some fs => set_iter fs | None => [] end) →
  neighbour_map neighbours files = m.
Proof.
  intros Hm Hfiles Hn. apply map_eq. intros f. rewrite neighbour_map_lookup, Hn.
  destruct (m !! f) as [fs|] eqn:E; [|by rewrite decide_False by tauto].
  assert (set_iter fs ≠ []) as Hne.
  { intros Hnil. apply (Hm f fs E), elem_of_equiv_empty_L. intros g Hg%elem_of_set_iter.
    rewrite Hnil in Hg. by apply elem_of_nil in Hg. }
  rewrite decide_True by (split; [apply Hfiles; by rewrite E|done]). f_equal.
  apply set_eq. intros g. by rewrite elem_of_list_to_set, elem_of_set_iter.
Qed.

Lemma from_index_dependencies (x : Index) :
  Graph.wf (dependency_graph x) →
  dependency_forward (from_relation_index x) = Graph.forward_edges (dependency_graph x) ∧
  dependency_reverse (from_relation_index x) = Graph.reverse_edges (dependency_graph x).
Proof.
  intros Hg. split; apply neighbour_map_copies; try apply Hg; try done;
    intros f [fs Hf]; unfold Graph.get_all_files; rewrite elem_of_set_iter;
    apply (Graph.elem_of_files_of _ _ Hg).
  - destruct (set_choose_L fs) as [g Hfg]; [by apply (Graph.wf_forward _ Hg f)|].
    exists g. left. unfold Graph.depends, values_at. by rewrite Hf.
  - destruct (set_choose_L fs) as [g Hfg]; [by apply (Graph.wf_reverse _ Hg f)|].
    exists g. right. apply (Graph.wf_mirror _ Hg). unfold values_at. by rewrite Hf.
Qed.

Lemma add_all_spec from (tos : list string) g :
  Graph.wf g →
  let g' := foldl (λ g to, Graph.add_dependency from to g) g tos in
  Graph.wf g' ∧
  ∀ a b, Graph.depends g' a b ↔ Graph.depends g a b ∨ (a = from ∧ b ∈ tos ∧ a ≠ b).
Proof.
  cbv zeta. revert g. induction tos as [|to tos IH]; intros g Hg; cbn [foldl].
  { split; [done|]. intros a b. rewrite elem_of_nil. tauto. }
  destruct (IH (Graph.add_dependency from to g)) as [H1 H2]; [by apply Graph.wf_add|].
  split; [done|]. intros a b. rewrite H2, Graph.depends_add, elem_of_cons. naive_solver.
Qed.

Lemma add_graph_spec (l : list (string * gset string)) g :
  Graph.wf g →
  let g' := foldl (λ g p, foldl (λ g to, Graph.add_dependency p.1 to g) g (set_iter p.2)) g l in
  Graph.wf g' ∧
  ∀ a b, Graph.depends g' a b ↔ Graph.depends g a b ∨ (a ≠ b ∧ ∃ fs, (a, fs) ∈ l ∧ b ∈ fs).
Proof.
  cbv zeta. revert g. induction l as [|[f fs] l IH]; intros g Hg; cbn [foldl fst snd].
  { split; [done|]. intros a b. setoid_rewrite elem_of_nil. naive_solver. }
  destruct (add_all_spec f (set_iter fs) g Hg) as [H1 H2]. destruct (IH _ H1) as [H3 H4].
  split; [done|]. intros a b. rewrite H4, H2, elem_of_set_iter. setoid_rewrite elem_of_cons.
  naive_solver.
Qed.

Lemma to_graph_edges (c : CompactRelationIndex) g :
  dependency_forward c = Graph.forward_edges g → Graph.wf g →
  Graph.wf (to_dependency_graph c) ∧
  Graph.forward_edges (to_dependency_graph c) = Graph.forward_edges g ∧
  Graph.reverse_edges (to_dependency_graph c) = Graph.reverse_edges g.
Proof.
  intros Hc Hg. unfold to_dependency_graph. rewrite Hc.
  destruct (add_graph_spec (entries (Graph.forward_edges g)) Graph.new Graph.wf_new) as [H1 H2].
  set (g' := foldl _ Graph.new _) in *. clearbody g'.
  assert (H3 : ∀ a b, Graph.depends g' a b ↔ Graph.depends g a b).
  { intros a b. rewrite H2. setoid_rewrite elem_of_entries. unfold Graph.depends. simpl.
    rewrite values_at_empty. unfold values_at. split.
    - intros [?|(_ & fs & -> & Hb)]; [set_solver|done].
    - intros Hb. right. split.
      + intros ->. by apply (Graph.wf_irrefl _ Hg b).
      + destruct (Graph.forward_edges g !! a) as [fs|]; [by exists fs|]. simpl in Hb. set_solver. }
  unfold Graph.depends in H3. split_and!; [done|..].
  - apply no_empty_ext; [apply H1|apply Hg|]. intros a b. apply H3.
  - apply no_empty_ext; [apply H1|apply Hg|]. intros a b.
    by rewrite <- (Graph.wf_mirror _ H1), <- (Graph.wf_mirror _ Hg).
Qed.

(** *** The way there and back *)

Lemma rebuilt_relations s :
  relations_ok s →
  set_file_relations (RelationIndex.file_relation_index s) (RelationIndex.file_callers_by_callee s)
    (rebuild_reverse_callee_index
       (set_resolved (RelationIndex.resolved_relation_index s) new_relations)) = s.
Proof.
  intros Hs. set (s0 := set_resolved _ _).
  destruct (rebuild_reverse_spec s0) as (H1 & H2 & H3).
  pose proof (rebuild_reverse_id s Hs) as Hid. destruct (rebuild_reverse_spec s) as (H4 & _ & H6).
  rewrite Hid in H4, H6.
  assert (reverse_callee_index (rebuild_reverse_callee_index s0) = reverse_callee_index s) as Hr.
  { apply reverse_ext; [done..|]. intros i c. by rewrite H3, H6. }
  destruct (rebuild_reverse_callee_index s0) as [r1 r2 r3 r4] eqn:E. simpl in *.
  unfold set_file_relations. simpl. destruct s as [q1 q2 q3 q4]. simpl in *. subst r2.
  f_equal. unfold s0, set_reverse in H2. simpl in H2. by injection H2.
Qed.

Lemma rebuilt_entities (es : EntityIndex.EntityStore) :
  EntityIndex.wf es →
  let es' := EntityIndex.set_starts (EntityIndex.file_entities_by_start es)
    (EntityIndex.set_files (EntityIndex.entity_file_index es)
       (insert_functions (entries (EntityIndex.function_index es)))) in
  EntityIndex.wf es' ∧ EntityIndex.function_index es' = EntityIndex.function_index es ∧
  ∀ n i, i ∈ EntityIndex.bucket n (EntityIndex.name_index es') ↔
         i ∈ EntityIndex.bucket n (EntityIndex.name_index es).
Proof.
  intros Hes. cbv zeta. destruct (insert_functions_ok (entries (EntityIndex.function_index es))
    EntityIndex.new (NoDup_entries _)) as [H1 H2].
  - intros [i e] Hi%elem_of_entries. simpl. rewrite lookup_empty. split; [|done].
    pose proof (EntityIndex.wf_ids _ Hes i ltac:(by eauto)). pose proof (EntityIndex.wf_counter _ Hes). lia.
  - split; simpl; [apply map_Forall_empty| | |unfold u64_max; lia].
    + intros n i. unfold EntityIndex.bucket. rewrite lookup_empty. simpl.
      setoid_rewrite lookup_empty. split; [by intros ?%elem_of_nil|naive_solver].
    + intros i. rewrite lookup_empty. by intros [? ?].
  - fold (insert_functions (entries (EntityIndex.function_index es))) in H1, H2.
    change (foldl _ (EntityIndex.function_index EntityIndex.new) _)
      with (to_map (entries (EntityIndex.function_index es))) in H2.
    rewrite to_map_entries_id in H2. destruct H1 as [H3 H4 H5 H6]. rewrite H2 in H5.
    setoid_rewrite H2 in H4. split_and!; [|done|].
    + split; simpl; rewrite ?H2; try done; apply Hes.
    + intros n i. simpl. by rewrite H4, (EntityIndex.wf_names _ Hes).
Qed.

(** The counter of the rebuilt entities stays below a bound of theirs. *)
Lemma rebuilt_counter (c : Z) (l : list (EntityId * Entity)) : ∀ es,
  (∀ p, p ∈ l → 0 ≤ p.1 < c) → c ≤ u64_max → EntityIndex.entity_id_counter es ≤ c →
  EntityIndex.entity_id_counter
    (foldl (λ es p, EntityIndex.insert_function p.1 p.2 es) es l) ≤ c ∧
  EntityIndex.entity_id_remaps
    (foldl (λ es p, EntityIndex.insert_function p.1 p.2 es) es l) = EntityIndex.entity_id_remaps es.
Proof.
  induction l as [|[i e] l IH]; intros es Hl Hc Hes; [done|]. cbn [foldl].
  destruct (IH (EntityIndex.insert_function i e es)) as [H1 H2].
  - intros p Hp. apply Hl. by right.
  - done.
  - destruct (EntityIndex.insert_fields i e es) as (_ & _ & _ & _ & ->).
    pose proof (Hl (i, e) ltac:(by left)). simpl in *. rewrite wrap64_small; lia.
  - split; [exact H1|]. etransitivity; [exact H2|]. unfold EntityIndex.insert_function, EntityIndex.ensure_counter_at_least.
    by destruct (_ <? _).
Qed.

(** C36. The compact form of a consistent index leads back to an index that is
    consistent and holds the same entities with their files and rows, the same
    names with the same entities (in any order), the same relations and reverse
    relations, file records, symbol keys in both directions and by file, stable
    identifiers and file dependencies.  What is not carried over is the conflict
    statistics and the identifier remaps, which are empty afterwards, and the
    identifier counter, which is above every identifier again but may fall. *)
Theorem compact_round_trip (x : Index) :
  index_ok x → Graph.wf (dependency_graph x) →
  let x' := to_relation_index (from_relation_index x) in
  index_ok x' ∧ Graph.wf (dependency_graph x') ∧
  EntityIndex.function_index (entities x') = EntityIndex.function_index (entities x) ∧
  EntityIndex.entity_file_index (entities x') = EntityIndex.entity_file_index (entities x) ∧
  EntityIndex.file_entities_by_start (entities x') =
    EntityIndex.file_entities_by_start (entities x) ∧
  (∀ n i, i ∈ EntityIndex.bucket n (EntityIndex.name_index (entities x')) ↔
          i ∈ EntityIndex.bucket n (EntityIndex.name_index (entities x))) ∧
  relations x' = relations x ∧ RelationIndex.file_records x' = RelationIndex.file_records x ∧
  SymbolIndex.symbol_key_to_entity (symbols x') = SymbolIndex.symbol_key_to_entity (symbols x) ∧
  SymbolIndex.entity_to_symbol_key (symbols x') = SymbolIndex.entity_to_symbol_key (symbols x) ∧
  SymbolIndex.stable_id_to_entity (symbols x') = SymbolIndex.stable_id_to_entity (symbols x) ∧
  SymbolIndex.file_symbol_keys (symbols x') = SymbolIndex.file_symbol_keys (symbols x) ∧
  Graph.forward_edges (dependency_graph x') = Graph.forward_edges (dependency_graph x) ∧
  Graph.reverse_edges (dependency_graph x') = Graph.reverse_edges (dependency_graph x) ∧
  SymbolIndex.symbol_key_conflict_count (symbols x') = 0 ∧
  SymbolIndex.symbol_key_conflict_samples (symbols x') = [] ∧
  EntityIndex.entity_id_remaps (entities x') = ∅ ∧
  EntityIndex.entity_id_counter (entities x') ≤ EntityIndex.entity_id_counter (entities x).
Proof.
  intros [He Hr Hs] Hg. cbv zeta.
  destruct (from_index_maps x) as (M1 & _ & M3 & M4 & M5 & M6).
  destruct (from_index_dependencies x Hg) as [M7 _].
  unfold to_relation_index. rewrite M1, M3, M4, M5, M6, !to_map_entries_id.
  destruct (to_graph_edges (from_relation_index x) (dependency_graph x) M7 Hg) as (H1 & H2 & H3).
  destruct (rebuilt_entities (entities x) He) as (H4 & H5 & H6).
  pose proof (rebuilt_relations (relations x) Hr) as H7.
  change (file_entities_by_start (from_relation_index x)) with
    (EntityIndex.file_entities_by_start (entities x)).
  assert (Hc : EntityIndex.entity_id_counter
      (insert_functions (entries (EntityIndex.function_index (entities x)))) ≤
    EntityIndex.entity_id_counter (entities x) ∧
    EntityIndex.entity_id_remaps
      (insert_functions (entries (EntityIndex.function_index (entities x)))) = ∅).
  { pose proof (EntityIndex.wf_counter _ He).
    apply rebuilt_counter; [|lia|simpl; lia]. intros [i e] Hi%elem_of_entries.
    apply (EntityIndex.wf_ids _ He i). by exists e. }
  rewrite H7. split_and!; try done; [|apply Hc|apply Hc]. split; [exact H4|exact Hr|]. simpl.
  destruct Hs as [S1 S2 S3 S4]. split; simpl; [exact S1|exact S2|exact S3|lia].
Qed.
End compact.

(** ** Example *)

#[local] Instance demo_iter_id : SetIter EntityId := elements_iter.
#[local] Instance demo_iter_file : SetIter string := elements_iter.

(** A registry with one stable identifier. *)
Definition demo_symbols : SymbolIndex.SymbolRegistry :=
  {| SymbolIndex.symbol_key_to_entity := ∅; SymbolIndex.entity_to_symbol_key := ∅;
     SymbolIndex.stable_id_to_entity := {["sym_0" := 0]}; SymbolIndex.file_symbol_keys := ∅;
     SymbolIndex.symbol_key_conflict_count := 0; SymbolIndex.symbol_key_conflict_samples := [] |}.

(** The function 1 calls 0; b.rs depends on a.rs. *)
Definition demo_index : @RelationIndex unit :=
  {| entities := EntityIndex.new;
     relations := add_resolved_relation (call_edge 1 0 DirectCall 100) new_relations;
     symbols := demo_symbols; RelationIndex.file_records := ∅;
     dependency_graph := Graph.add_dependency "b.rs" "a.rs" Graph.new |}.

Lemma demo_compact_ok : index_ok demo_index.
Proof.
  split; [exact EntityIndex.wf_new_store|apply add_resolved_ok, new_relations_ok|].
  destruct SymbolIndex.new_registry_ok as [H1 H2 H3 H4]. by split.
Qed.

Theorem compact_round_trip_witness :
  let x' := to_relation_index (from_relation_index demo_index) in
  relations x' = relations demo_index ∧
  SymbolIndex.stable_id_to_entity (symbols x') = {["sym_0" := 0]} ∧
  Graph.forward_edges (dependency_graph x') = Graph.forward_edges (dependency_graph demo_index).
Proof.
  assert (Hg : Graph.wf (dependency_graph demo_index)) by apply Graph.wf_add, Graph.wf_new.
  destruct (compact_round_trip demo_index demo_compact_ok Hg)
    as (_ & _ & _ & _ & _ & _ & H1 & _ & _ & _ & H2 & _ & H3 & _).
  split_and!; [exact H1|exact H2|exact H3].
Defined.

End Compact.
