(* ===== verification/FsPath.v ===== *)
(** * File-system paths

    What the modelled code uses of [std::path]. A path is its components: a
    flag for the root and the names below it. The code builds its paths by
    joining names, so empty and current-directory components do not occur;
    [path_ok] says so. *)

From S2P Require Import Prelude Str.
From Stdlib Require Import ZArith Lia.
#[local] Open Scope Z_scope.

Module FsPath.
Import Str.

Record Path := { absolute : bool; names : list str }.

#[export] Instance Path_eq_dec : EqDecision Path.
Proof. solve_decision. Defined.

#[export] Instance Path_countable : Countable Path.
Proof.
  refine (inj_countable' (λ p, (absolute p, names p))
    (λ q, {| absolute := q.1; names := q.2 |}) _).
  by intros [].
Defined.

Definition slash : char := 47.
Definition is_slash (c : char) : bool := c =? slash.

(** [to_string_lossy()] of a path of Unicode names. *)
Definition to_str (p : Path) : str :=
  (if absolute p then [slash] else []) ++ join [slash] (names p).

(** [file_name()] *)
Definition file_name (p : Path) : option str :=
  match last (names p) with
  | Some n => if decide (n = lit "..") then None else Some n
  | None => None
  end.

Definition is_dot (c : char) : bool := c =? 46.

(** [Path::extension()]: what follows the last dot of the file name, unless
    the name has no other part. *)
Definition extension (p : Path) : option str :=
  match file_name p with
  | None => None
  | Some n =>
      match split_once is_dot (reverse n) with
      | Some (ext, rest) => match rest with [] => None | _ => Some (reverse ext) end
      | None => None
      end
  end.

(** [parent()] *)
Definition parent (p : Path) : option Path :=
  match names p with
  | [] => None
  | ns => Some {| absolute := absolute p; names := removelast ns |}
  end.

(** [ancestors()]: the path, its parent, and so on. *)
Fixpoint ancestors_from (fuel : nat) (p : Path) : list Path :=
  match fuel with
  | O => []
  | S fuel => p :: match parent p with Some q => ancestors_from fuel q | None => [] end
  end.
Definition ancestors (p : Path) : list Path := ancestors_from (S (length (names p))) p.

(** [join(q)] *)
Definition path_join (p q : Path) : Path :=
  if absolute q then q else {| absolute := absolute p; names := names p ++ names q |}.

(** The path of one name: [Path::new(name)]. *)
Definition of_name (n : str) : Path := {| absolute := false; names := [n] |}.

(** The names of [l] after the prefix [b]. *)
Fixpoint after_prefix (b l : list str) : option (list str) :=
  match b, l with
  | [], _ => Some l
  | n :: b, m :: l => if decide (n = m) then after_prefix b l else None
  | _ :: _, [] => None
  end.

(** [p.strip_prefix(base)] and [p.starts_with(base)] compare components. *)
Definition strip_prefix (base p : Path) : option Path :=
  if absolute base then
    if absolute p
    then (λ l, {| absolute := false; names := l |}) <$> after_prefix (names base) (names p)
    else None
  else
    match names base with
    | [] => Some p
    | _ => if absolute p then None
           else (λ l, {| absolute := false; names := l |}) <$> after_prefix (names base) (names p)
    end.

Definition path_starts_with (base p : Path) : bool := bool_decide (is_Some (strip_prefix base p)).

(** A name holds no slash, and is neither empty nor the current directory. *)
Definition name_ok (n : str) : Prop := n ≠ [] ∧ n ≠ lit "." ∧ slash ∉ n.
Definition path_ok (p : Path) : Prop := Forall name_ok (names p).

(** ** Facts *)

Lemma after_prefix_spec b l r : after_prefix b l = Some r ↔ l = b ++ r.
Proof.
  revert l. induction b as [|n b IH]; intros [|m l]; simpl; try naive_solver.
  case_decide; [subst; rewrite IH|]; naive_solver.
Qed.

Lemma strip_prefix_below base ns :
  strip_prefix base {| absolute := absolute base; names := names base ++ ns |} =
    Some {| absolute := false; names := ns |}.
Proof.
  assert (Ha : after_prefix (names base) (names base ++ ns) = Some ns)
    by (by apply after_prefix_spec).
  unfold strip_prefix. cbn [absolute names]. rewrite Ha.
  destruct (absolute base); [reflexivity|]. by destruct (names base).
Qed.

Lemma join_singleton_no_slash (ns : list str) :
  Forall name_ok ns → slash ∉ join [slash] ns → ns = [] ∨ ∃ n, ns = [n].
Proof.
  intros Hok Hs. destruct ns as [|n [|m ns]]; [by left|right; by exists n|].
  destruct Hs. simpl. rewrite elem_of_app. right. left.
Qed.

(** A path whose text has no slash has at most one name. *)
Lemma no_slash_single p :
  path_ok p → slash ∉ to_str p → absolute p = false ∧ (names p = [] ∨ names p = [to_str p]).
Proof.
  destruct p as [[] ns]; unfold to_str, path_ok; simpl; intros Hok Hs.
  - destruct Hs. by left.
  - split; [done|]. destruct (join_singleton_no_slash ns Hok Hs) as [->|[n ->]]; [by left|].
    by right.
Qed.

Lemma parent_spec p q :
  parent p = Some q ↔
  names p ≠ [] ∧ q = {| absolute := absolute p; names := removelast (names p) |}.
Proof. unfold parent. destruct (names p) as [|n ns]; naive_solver. Qed.

Lemma removelast_length {A} (l : list A) : length (removelast l) = Nat.pred (length l).
Proof.
  induction l as [|a [|b l] IH]; [done..|].
  change (removelast (a :: b :: l)) with (a :: removelast (b :: l)). cbn [length]. by rewrite IH.
Qed.

Lemma removelast_prefix {A} (l : list A) : removelast l `prefix_of` l.
Proof.
  induction l as [|a [|b l] IH]; [done|by exists [a]|].
  change (removelast (a :: b :: l)) with (a :: removelast (b :: l)). by apply prefix_cons.
Qed.

(** The ancestors of a path are the prefixes of its names. *)
Lemma ancestors_from_spec fuel p q :
  (length (names p) < fuel)%nat →
  q ∈ ancestors_from fuel p ↔ absolute q = absolute p ∧ names q `prefix_of` names p.
Proof.
  revert p. induction fuel as [|fuel IH]; intros p Hf; [lia|]. cbn [ancestors_from].
  rewrite elem_of_cons. destruct (parent p) as [q'|] eqn:E.
  - apply parent_spec in E as [Hne ->].
    rewrite IH by (cbn [names]; rewrite removelast_length; destruct (names p); [done|simpl in *; lia]).
    cbn [absolute names]. clear IH Hf. split.
    + intros [->|[Ha Hq]]; [done|]. split; [done|]. etrans; [exact Hq|apply removelast_prefix].
    + intros [Ha [k Hk]]. destruct (decide (k = [])) as [->|Hk0].
      * left. rewrite app_nil_r in Hk. destruct p, q; simpl in *; congruence.
      * right. split; [done|]. exists (removelast k). rewrite Hk. by apply removelast_app.
  - unfold parent in E. destruct (names p) as [|n ns] eqn:Hp; [|done].
    rewrite elem_of_nil. split.
    + intros [->|[]]. by rewrite Hp.
    + intros [Ha Hq]. left. apply prefix_nil_inv in Hq. destruct p, q; simpl in *; congruence.
Qed.

Lemma ancestors_spec p q :
  q ∈ ancestors p ↔ absolute q = absolute p ∧ names q `prefix_of` names p.
Proof. apply ancestors_from_spec. lia. Qed.

End FsPath.
