(* ===== verification/Glob.v ===== *)
(** * Glob patterns

    Models crates/core/cce-utils/src/glob.rs. The matcher's byte index into
    the path is the rest of the path from there: every index it computes lies
    on a character boundary, so [path.get(pi..)] never fails. *)

From S2P Require Import Prelude Str FsPath.
From Stdlib Require Import ZArith Lia.
#[local] Open Scope Z_scope.

Module Glob.
Import Str FsPath.

Inductive Token :=
| Literal (s : str)
| Wildcard
| Recursive
| SingleChar.

#[export] Instance Token_eq_dec : EqDecision Token.
Proof. solve_decision. Defined.

Record Glob := {
  tokens : list Token;
  is_recursive : bool;
  is_anchored : bool
}.

#[export] Instance Glob_eq_dec : EqDecision Glob.
Proof. solve_decision. Defined.

Definition star : char := 42.
Definition question : char := 63.
Definition backslash : char := 92.

(** [if !current_literal.is_empty() { tokens.push(..); clear() }] *)
Definition flush (current : str) : list Token :=
  match current with [] => [] | _ => [Literal current] end.

Fixpoint tokenize_loop (chars current : str) (acc : list Token) : result (list Token) str :=
  match chars with
  | [] => Ok (acc ++ flush current)
  | c :: chars =>
      if c =? star then
        let acc := acc ++ flush current in
        match chars with
        | d :: chars' =>
            if d =? star then
              match chars' with
              | [] => tokenize_loop chars' [] (acc ++ [Recursive])
              | e :: chars'' =>
                  if is_slash e then tokenize_loop chars'' [] (acc ++ [Recursive])
                  else Err (lit "Invalid use of **")
              end
            else tokenize_loop chars [] (acc ++ [Wildcard])
        | [] => tokenize_loop chars [] (acc ++ [Wildcard])
        end
      else if c =? question then tokenize_loop chars [] (acc ++ flush current ++ [SingleChar])
      else tokenize_loop chars (current ++ [c]) acc
  end.

Definition tokenize (pattern : str) : result (list Token) str := tokenize_loop pattern [] [].

Definition is_recursive_token (t : Token) : bool := match t with Recursive => true | _ => false end.

Definition glob_new (pattern : str) : result Glob str :=
  let anchored := starts_with [slash] pattern in
  let clean_pattern := if anchored then tail pattern else pattern in
  match tokenize clean_pattern with
  | Err e => Err e
  | Ok ts =>
      Ok {| tokens := ts; is_recursive := existsb is_recursive_token ts; is_anchored := anchored |}
  end.

(** The loops over [rest.char_indices()]: the match continues behind one of the
    first characters, up to the first that stops the wildcard. *)
Fixpoint match_behind (stop : char → bool) (k : str → bool) (rest : str) : bool :=
  match rest with
  | [] => false
  | c :: rest => if stop c then false else k rest || match_behind stop k rest
  end.

Fixpoint match_tokens (ts : list Token) (rest : str) : bool :=
  match ts with
  | [] => bool_decide (rest = [])
  | Literal l :: ts =>
      match Str.strip_prefix l rest with
      | Some rest => match_tokens ts rest
      | None => false
      end
  | Wildcard :: ts => match_tokens ts rest || match_behind is_slash (match_tokens ts) rest
  | Recursive :: ts => match_tokens ts rest || match_behind (λ _, false) (match_tokens ts) rest
  | SingleChar :: ts =>
      match rest with
      | c :: rest => if is_slash c then false else match_tokens ts rest
      | [] => false
      end
  end.

Definition has_slash_literal (t : Token) : bool :=
  match t with Literal s => contains [slash] s | _ => false end.

Definition path_text (p : Path) : str := replace (λ c, c =? backslash) [slash] (to_str p).

Definition is_match (g : Glob) (p : Path) : bool :=
  let path_str := path_text p in
  if is_anchored g then match_tokens (tokens g) path_str
  else if match_tokens (tokens g) path_str then true
  else if negb (is_recursive g) && negb (contains [slash] path_str)
  then match_tokens (tokens g) path_str
  else if negb (existsb has_slash_literal (tokens g)) then
    match file_name p with
    | Some file_name => match_tokens (tokens g) file_name
    | None => false
    end
  else false.

(** ** The language of a pattern *)

(** What one token stands for. *)
Definition fits (t : Token) (s : str) : Prop :=
  match t with
  | Literal l => s = l
  | Wildcard => slash ∉ s
  | Recursive => True
  | SingleChar => ∃ c, s = [c] ∧ c ≠ slash
  end.

(** A text is in the language when it can be cut into one piece per token. *)
Definition in_language (ts : list Token) (s : str) : Prop :=
  ∃ pieces, Forall2 fits ts pieces ∧ s = concat pieces.

Lemma in_language_nil s : in_language [] s ↔ s = [].
Proof.
  split; [|intros ->; by exists []]. intros (ps & H & ->). by apply Forall2_nil_inv_l in H as ->.
Qed.

Lemma in_language_cons t ts s :
  in_language (t :: ts) s ↔ ∃ a b, s = a ++ b ∧ fits t a ∧ in_language ts b.
Proof.
  split.
  - intros (ps & H & ->). apply Forall2_cons_inv_l in H as (a & ps' & Ha & H & ->).
    exists a, (concat ps'). split_and!; [done|done|by exists ps'].
  - intros (a & b & -> & Ha & ps & H & ->). exists (a :: ps). split; [by constructor|done].
Qed.

Lemma is_slash_true c : is_slash c = true ↔ c = slash.
Proof. apply Z.eqb_eq. Qed.
Lemma is_slash_false c : is_slash c = false ↔ c ≠ slash.
Proof. apply Z.eqb_neq. Qed.

Lemma strip_prefix_app p s r : Str.strip_prefix p s = Some r ↔ s = p ++ r.
Proof.
  revert s. induction p as [|c p IH]; intros [|d s]; simpl; try naive_solver.
  destruct (Z.eqb_spec c d) as [->|Hne]; [rewrite IH|]; naive_solver.
Qed.

Lemma match_behind_spec stop k s :
  match_behind stop k s = true ↔
  ∃ c a b, s = c :: a ++ b ∧ Forall (λ d, stop d = false) (c :: a) ∧ k b = true.
Proof.
  induction s as [|c s IH]; simpl; [naive_solver|].
  destruct (stop c) eqn:E.
  - split; [done|]. intros (d & a & b & [= <- _] & H & _).
    apply Forall_cons in H as [H _]. congruence.
  - rewrite orb_true_iff, IH. split.
    + intros [H|(d & a & b & -> & Ha & H)].
      * exists c, [], s. split_and!; [done|by repeat constructor|done].
      * exists c, (d :: a), b. split_and!; [done|by constructor|done].
    + intros (d & [|e a] & b & [= <- ->] & H & Hk); [by left|].
      right. exists e, a, b. split_and!; [done|by apply Forall_cons in H as [_ H]|done].
Qed.

(** A starred token: the match continues at once or behind the characters it
    takes. *)
Lemma starred_spec stop (k : str → bool) (K : str → Prop) s :
  (∀ s, k s = true ↔ K s) →
  k s || match_behind stop k s = true ↔
  ∃ a b, s = a ++ b ∧ Forall (λ d, stop d = false) a ∧ K b.
Proof.
  intros HK. rewrite orb_true_iff, match_behind_spec, HK. split.
  - intros [H|(c & a & b & -> & Ha & H)]; [by exists [], s|].
    exists (c :: a), b. by rewrite <- HK.
  - intros ([|c a] & b & -> & Ha & H); [by left|right].
    exists c, a, b. by rewrite HK.
Qed.

Lemma no_slash_forall a : Forall (λ d, is_slash d = false) a ↔ slash ∉ a.
Proof.
  rewrite Forall_forall. split.
  - intros H Hs. by apply H in Hs.
  - intros H d Hd. apply is_slash_false. by intros ->.
Qed.

Lemma match_tokens_spec ts s : match_tokens ts s = true ↔ in_language ts s.
Proof.
  revert s. induction ts as [|t ts IH]; intros s; cbn [match_tokens].
  { by rewrite bool_decide_eq_true, in_language_nil. }
  rewrite in_language_cons. destruct t as [l| | |]; cbn [fits].
  - destruct (Str.strip_prefix l s) as [r|] eqn:E.
    + apply strip_prefix_app in E as ->. rewrite IH. split; [naive_solver|].
      by intros (a & b & Hs & -> & H); apply app_inv_head in Hs as ->.
    + split; [done|]. intros (a & b & Hs & -> & _).
      by rewrite (proj2 (strip_prefix_app l s b) Hs) in E.
  - rewrite (starred_spec _ _ (in_language ts)) by done. by setoid_rewrite no_slash_forall.
  - rewrite (starred_spec _ _ (in_language ts)) by done.
    split; intros (a & b & -> & _ & H); exists a, b; split_and!; try done. by apply Forall_true.
  - destruct s as [|c s].
    + split; [done|]. by intros ([|d a] & b & ? & (c & ? & _) & _).
    + destruct (is_slash c) eqn:E.
      * split; [done|]. apply is_slash_true in E as ->.
        intros (a & b & Hs & (d & -> & Hd) & _). by simplify_eq/=.
      * rewrite IH. apply is_slash_false in E. split.
        -- intros H. exists [c], s. split_and!; [done|by exists c|done].
        -- intros (a & b & Hs & (d & -> & Hd) & H). by simplify_eq/=.
Qed.

Lemma match_tokens_false ts s : match_tokens ts s = false ↔ ¬ in_language ts s.
Proof. by rewrite <- match_tokens_spec, not_true_iff_false. Qed.

Lemma contains_char c s : contains [c] s = true ↔ c ∈ s.
Proof.
  rewrite contains_spec. split.
  - intros (l & r & ->). rewrite !elem_of_app. right; left. by left.
  - intros (l & r & ->)%list_elem_of_split. by exists l, r.
Qed.

Lemma no_slash_literals ts :
  existsb has_slash_literal ts = false ↔ ∀ l, Literal l ∈ ts → slash ∉ l.
Proof.
  rewrite <- not_true_iff_false, existsb_exists. setoid_rewrite <- list_elem_of_In. split.
  - intros H l Hl Hs. apply H. exists (Literal l). split; [done|]. by apply contains_char.
  - intros H ([l| | |] & Ht & Hs); try done. apply (H l Ht). by apply contains_char in Hs.
Qed.

Lemma replace_none (sep : char → bool) r s : Forall (λ c, sep c = false) s → replace sep r s = s.
Proof.
  induction 1 as [|c s Hc Hs IH]; [done|].
  change (replace sep r (c :: s)) with ((if sep c then r else [c]) ++ replace sep r s).
  by rewrite Hc, IH.
Qed.

Lemma replace_app (sep : char → bool) r s t : replace sep r (s ++ t) = replace sep r s ++ replace sep r t.
Proof. unfold replace. by rewrite bind_app. Qed.

(** A text without slashes after the replacement had neither of the two. *)
Lemma path_text_no_slash p : slash ∉ path_text p → path_text p = to_str p ∧ slash ∉ to_str p.
Proof.
  unfold path_text. intros Hs.
  assert (Hb : Forall (λ c, (c =? backslash) = false) (to_str p)).
  { apply Forall_forall. intros c Hc. apply Z.eqb_neq. intros ->. apply Hs. unfold replace.
    apply list_elem_of_bind. exists backslash. split; [by left|done]. }
  rewrite replace_none in Hs by done. by rewrite replace_none.
Qed.

Lemma single_file_name p n :
  path_ok p → slash ∉ path_text p → file_name p = Some n → n = path_text p.
Proof.
  intros Hok (-> & Hs)%path_text_no_slash Hn.
  apply no_slash_single in Hs as [_ [E|E]]; [| |done]; unfold file_name in Hn; rewrite E in Hn; [done|].
  simpl in Hn. case_decide; naive_solver.
Qed.

(** A path matches when its text is in the language of the pattern or, for a
    pattern that is neither anchored nor holds a slash in its literals, when
    its file name is. The step of [is_match] for patterns without [**] changes
    nothing. *)
Lemma is_match_spec g p :
  path_ok p →
  is_match g p = true ↔
  in_language (tokens g) (path_text p) ∨
  is_anchored g = false ∧ (∀ l, Literal l ∈ tokens g → slash ∉ l) ∧
  ∃ n, file_name p = Some n ∧ in_language (tokens g) n.
Proof.
  intros Hok. unfold is_match. destruct (is_anchored g); [rewrite match_tokens_spec; naive_solver|].
  destruct (match_tokens (tokens g) (path_text p)) eqn:Em.
  { apply match_tokens_spec in Em. naive_solver. }
  apply match_tokens_false in Em.
  destruct (negb (is_recursive g) && negb (contains [slash] (path_text p))) eqn:E2.
  - apply andb_true_iff in E2 as [_ Hs]. rewrite negb_true_iff, <- not_true_iff_false, contains_char in Hs.
    split; [done|]. intros [H|(_ & _ & n & Hn & H)]; [done|].
    by rewrite (single_file_name p n Hok Hs Hn) in H.
  - destruct (existsb has_slash_literal (tokens g)) eqn:E3; simpl.
    + split; [done|]. intros [H|(_ & H & _)]; [done|]. apply no_slash_literals in H. congruence.
    + pose proof (proj1 (no_slash_literals _) E3) as Hl. destruct (file_name p) as [n|] eqn:En; [|naive_solver].
      rewrite match_tokens_spec. naive_solver.
Qed.

(** ** Parsing *)

Definition plain (c : char) : Prop := c ≠ star ∧ c ≠ question.
Definition not_literal (ts : list Token) : Prop := ∀ l ts', ts ≠ Literal l :: ts'.
Definition not_starred (ts : list Token) : Prop :=
  ∀ ts', ts ≠ Wildcard :: ts' ∧ ts ≠ Recursive :: ts'.

(** How a list of tokens is written: literals are as long as they can be, a
    single star is not followed by another, and a double star takes the slash
    behind it. *)
Inductive spells : list Token → str → Prop :=
| spells_nil : spells [] []
| spells_literal l ts s :
    l ≠ [] → Forall plain l → not_literal ts → spells ts s → spells (Literal l :: ts) (l ++ s)
| spells_wildcard ts s : not_starred ts → spells ts s → spells (Wildcard :: ts) (star :: s)
| spells_single ts s : spells ts s → spells (SingleChar :: ts) (question :: s)
| spells_recursive ts s : spells ts s → spells (Recursive :: ts) (star :: star :: slash :: s)
| spells_recursive_end : spells [Recursive] [star; star].

Lemma tokenize_plain l s cur acc :
  Forall plain l → tokenize_loop (l ++ s) cur acc = tokenize_loop s (cur ++ l) acc.
Proof.
  intros H. revert cur. induction H as [|c l [H1 H2] Hl IH]; intros cur; simpl; [by rewrite app_nil_r|].
  rewrite (proj2 (Z.eqb_neq _ _) H1), (proj2 (Z.eqb_neq _ _) H2), IH. by rewrite <- app_assoc.
Qed.

(** No written list starts with a star unless its first token does. *)
Lemma spells_starred ts s c : not_starred ts → spells ts (c :: s) → c ≠ star.
Proof.
  intros Hn H. inversion H as [|l ts' s' Hne Hp _ _| | | |]; subst; try (by destruct (Hn ts') as [? ?]).
  - destruct l as [|d l]; [done|]. simplify_eq/=. by apply Forall_cons in Hp as [[? _] _].
  - by destruct (Hn ts0) as [? ?].
  - done.
  - by destruct (Hn ts0) as [? ?].
  - by destruct (Hn []) as [? ?].
Qed.

Lemma tokenize_complete ts s cur acc :
  spells ts s → (cur ≠ [] → not_literal ts) →
  tokenize_loop s cur acc = Ok (acc ++ flush cur ++ ts).
Proof.
  intros H. revert cur acc.
  induction H as [|l ts s Hne Hp Hl H IH|ts s Hs H IH|ts s H IH|ts s H IH|]; intros cur acc Hcur.
  - simpl. by rewrite app_nil_r.
  - destruct cur as [|d cur]; [|by destruct (Hcur ltac:(done) l ts)].
    rewrite tokenize_plain by done. simpl. rewrite IH by done. by destruct l.
  - simpl. assert (Hstep : tokenize_loop s [] ((acc ++ flush cur) ++ [Wildcard]) =
      Ok (acc ++ flush cur ++ Wildcard :: ts)).
    { rewrite IH by done. by rewrite <- !app_assoc. }
    destruct s as [|d s]; [done|].
    by rewrite (proj2 (Z.eqb_neq _ _) (spells_starred _ _ _ Hs H)).
  - simpl. rewrite IH by done. by rewrite <- !app_assoc.
  - simpl. rewrite IH by done. by rewrite <- !app_assoc.
  - simpl. by rewrite app_nil_r, <- app_assoc.
Qed.

Lemma spells_flush cur ts s :
  Forall plain cur → not_literal ts → spells ts s → spells (flush cur ++ ts) (cur ++ s).
Proof. intros Hc Hl H. destruct cur as [|c cur]; [done|]. simpl. by apply (spells_literal (c :: cur)). Qed.

(** A text written with a first character other than a star. *)
Lemma spells_not_starred ts c s : spells ts (c :: s) → c ≠ star → not_starred ts.
Proof. intros H Hc ts'. split; intros ->; inversion H; simplify_eq. Qed.

Lemma spells_nil_inv ts : spells ts [] → ts = [].
Proof. inversion 1 as [|l ? s Hne| | | |]; [done|]. by destruct l. Qed.

(** The tokens [tokenize_loop] adds to those it has. *)
Definition adds (n : nat) : Prop :=
  ∀ s cur acc ts, (length s < n)%nat → Forall plain cur → tokenize_loop s cur acc = Ok ts →
  ∃ ts', ts = acc ++ ts' ∧ spells ts' (cur ++ s).

Lemma adds_tokens n s cur acc ts new written :
  adds n → (length s < n)%nat → Forall plain cur →
  tokenize_loop s [] (acc ++ flush cur ++ [new]) = Ok ts →
  (∀ l, new ≠ Literal l) → (∀ ts', spells ts' s → spells (new :: ts') (written ++ s)) →
  ∃ ts', ts = acc ++ ts' ∧ spells ts' (cur ++ written ++ s).
Proof.
  intros IH Hn Hc E Hnew Hw. apply IH in E as (ts' & -> & Hs); [|done..].
  exists (flush cur ++ new :: ts'). split; [by rewrite <- !app_assoc|].
  apply spells_flush; [done| |by apply Hw]. intros l ts'' [= ->]. by destruct (Hnew l).
Qed.

Lemma tokenize_sound n : adds n.
Proof.
  induction n as [|n IH]; intros s cur acc ts Hn Hc E; [lia|].
  destruct s as [|c s]; simpl in E.
  { injection E as <-. exists (flush cur). split; [done|].
    rewrite <- (app_nil_r (flush cur)). apply spells_flush; [done|by intros ? ?|constructor]. }
  destruct (Z.eqb_spec c star) as [->|Hstar].
  - rewrite <- !app_assoc in E.
    destruct s as [|d s]; [|destruct (Z.eqb_spec d star) as [->|Hd]; [destruct s as [|e s];
      [|destruct (is_slash e) eqn:Ee; [apply is_slash_true in Ee as ->|done]]|]].
    + apply (adds_tokens n [] cur acc ts Wildcard [star] IH); [simpl in *; lia|done|done|done|].
      intros ts' ->%spells_nil_inv. constructor; [intros ?; split; done|constructor].
    + apply (adds_tokens n [] cur acc ts Recursive [star; star] IH); [simpl in *; lia|done|done|done|].
      intros ts' ->%spells_nil_inv. constructor.
    + apply (adds_tokens n s cur acc ts Recursive [star; star; slash] IH); [simpl in *; lia|done|done|done|].
      intros ts' Hs. by constructor.
    + apply (adds_tokens n (d :: s) cur acc ts Wildcard [star] IH); [simpl in *; lia|done|done|done|].
      intros ts' Hs. constructor; [by eapply spells_not_starred|done].
  - destruct (Z.eqb_spec c question) as [->|Hq].
    + apply (adds_tokens n s cur acc ts SingleChar [question] IH); [simpl in *; lia|done|done|done|].
      intros ts' Hs. by constructor.
    + apply IH in E as (ts' & -> & Hs); [|simpl in *; lia|].
      * exists ts'. split; [done|]. by rewrite <- app_assoc in Hs.
      * apply Forall_app. split; [done|]. by repeat constructor.
Qed.

(** A double star with something other than a slash behind it. *)
Definition stray (s : str) : Prop := ∃ l c r, s = l ++ star :: star :: c :: r ∧ c ≠ slash.

Lemma stray_cons c s :
  stray (c :: s) ↔ (∃ d r, c = star ∧ s = star :: d :: r ∧ d ≠ slash) ∨ stray s.
Proof.
  split.
  - intros ([|c' l] & d & r & Hs & Hd); simplify_eq/=; [left; by exists d, r|right; by exists l, d, r].
  - intros [(d & r & -> & -> & Hd)|(l & d & r & -> & Hd)]; [by exists [], d, r|by exists (c :: l), d, r].
Qed.

Lemma stray_nil : ¬ stray [].
Proof. by intros ([|? l] & c & r & ? & _). Qed.

Lemma tokenize_fails n s cur acc :
  (length s < n)%nat → (∃ e, tokenize_loop s cur acc = Err e) ↔ stray s.
Proof.
  revert s cur acc. induction n as [|n IH]; intros s cur acc Hn; [lia|].
  destruct s as [|c s]; simpl; [split; [by intros [e ?]|by intros ?%stray_nil]|].
  rewrite stray_cons. destruct (Z.eqb_spec c star) as [->|Hstar].
  - destruct s as [|d s]; [|destruct (Z.eqb_spec d star) as [->|Hd]; [destruct s as [|e s];
      [|destruct (is_slash e) eqn:Ee]|]].
    + split; [by intros [e ?]|]. intros [(? & ? & _ & ? & _)|?%stray_nil]; done.
    + rewrite stray_cons. split; [by intros [e ?]|].
      by intros [(? & ? & _ & ? & _)|[(? & ? & _ & ? & _)|?%stray_nil]].
    + apply is_slash_true in Ee as ->. rewrite IH by (simpl in *; lia). rewrite !stray_cons.
      naive_solver.
    + apply is_slash_false in Ee. split; [|by eauto]. intros _. left. by exists e, s.
    + rewrite IH by (simpl in *; lia). naive_solver.
  - destruct (c =? question); rewrite IH by (simpl in *; lia); naive_solver.
Qed.

(** Parsing gives the tokens the pattern spells, and fails exactly on a double
    star with something other than a slash behind it. *)
Lemma tokenize_spec s :
  (∀ ts, tokenize s = Ok ts ↔ spells ts s) ∧
  ((∃ e, tokenize s = Err e) ↔ stray s).
Proof.
  split.
  - intros ts. split; intros H.
    + apply (tokenize_sound (S (length s))) in H as (ts' & -> & H); [done|lia|constructor].
    + unfold tokenize. by rewrite (tokenize_complete ts).
  - apply (tokenize_fails (S (length s))). lia.
Qed.

(** Both together: what a compiled pattern matches. *)
Lemma glob_new_spec pattern g :
  glob_new pattern = Ok g ↔
  ∃ clean, pattern = (if is_anchored g then slash :: clean else clean) ∧
    (is_anchored g = false → starts_with [slash] clean = false) ∧
    spells (tokens g) clean ∧ is_recursive g = existsb is_recursive_token (tokens g).
Proof.
  unfold glob_new. destruct (starts_with [slash] pattern) eqn:E.
  - apply starts_with_spec in E as [t ->]. cbn [app tail].
    destruct (tokenize t) as [ts|e] eqn:Et.
    + apply tokenize_spec in Et. split.
      * intros [= <-]. exists t. cbn [is_anchored tokens is_recursive]. by split_and!.
      * intros (clean & Hp & Hs & Hw & Hr). destruct g as [ts' r []]; cbn in *; simplify_eq.
        -- apply tokenize_spec in Et, Hw. congruence.
        -- by specialize (Hs eq_refl).
    + split; [done|]. intros (clean & Hp & Hs & Hw & Hr).
      destruct (is_anchored g); [simplify_eq|by rewrite <- Hp in Hs; specialize (Hs eq_refl)].
      apply tokenize_spec in Hw. congruence.
  - destruct (tokenize pattern) as [ts|e] eqn:Et.
    + apply tokenize_spec in Et. split.
      * intros [= <-]. exists pattern. cbn [is_anchored tokens is_recursive]. by split_and!.
      * intros (clean & Hp & Hs & Hw & Hr). destruct g as [ts' r []]; cbn in *; simplify_eq.
        apply tokenize_spec in Et, Hw. congruence.
    + split; [done|]. intros (clean & Hp & Hs & Hw & Hr).
      destruct (is_anchored g); simplify_eq. apply tokenize_spec in Hw. congruence.
Qed.

Lemma glob_new_fails pattern : (∃ e, glob_new pattern = Err e) ↔ stray pattern.
Proof.
  unfold glob_new. destruct (starts_with [slash] pattern) eqn:E.
  - apply starts_with_spec in E as [t ->]. cbn [app tail]. rewrite stray_cons, <- (proj2 (tokenize_spec t)).
    destruct (tokenize t); [|naive_solver].
    split; [by intros [e ?]|]. by intros [(? & ? & ? & _)|[e ?]].
  - rewrite <- (proj2 (tokenize_spec pattern)). destruct (tokenize pattern); naive_solver.
Qed.

(** Compiling fails exactly on a double star with something other than a slash
    behind it. A compiled pattern consists of the tokens its text spells, behind
    the leading slash that anchors it, and matches a path exactly when they
    describe the whole path or, for an unanchored pattern whose literals have no
    slash, its last name. *)
Theorem compiled_patterns_match pattern p :
  path_ok p →
  ((∃ e, glob_new pattern = Err e) ↔ stray pattern) ∧
  (∀ g, glob_new pattern = Ok g →
     (∃ clean, pattern = (if is_anchored g then slash :: clean else clean) ∧ spells (tokens g) clean) ∧
     (is_match g p = true ↔
        in_language (tokens g) (path_text p) ∨
        is_anchored g = false ∧ (∀ l, Literal l ∈ tokens g → slash ∉ l) ∧
        ∃ n, file_name p = Some n ∧ in_language (tokens g) n)).
Proof.
  intros Hp. split; [apply glob_new_fails|]. intros g (clean & E & _ & H & _)%glob_new_spec.
  split; [by exists clean|by apply is_match_spec].
Qed.

(** ** Recursive patterns *)

Lemma in_language_suffix l s : in_language [Recursive; Literal l] s ↔ ∃ a, s = a ++ l.
Proof.
  rewrite in_language_cons. split.
  - intros (a & b & -> & _ & H). apply in_language_cons in H as (? & b' & -> & -> & H).
    apply in_language_nil in H as ->. exists a. by rewrite app_nil_r.
  - intros [a ->]. exists a, l. split_and!; [done..|]. apply in_language_cons.
    exists l, []. split_and!; [by rewrite app_nil_r|done|by apply in_language_nil].
Qed.

Lemma file_name_last p n : file_name p = Some n → last (names p) = Some n.
Proof. unfold file_name. destruct (last (names p)); [|done]. case_decide; naive_solver. Qed.

Lemma join_last ns n : last ns = Some n → ∃ a, join [slash] ns = a ++ n.
Proof.
  induction ns as [|m [|m' ns] IH]; intros H; [done|exists []; by injection H as <-|].
  destruct (IH H) as [a Ha]. exists (m ++ slash :: a).
  change (join [slash] (m :: m' :: ns)) with (m ++ [slash] ++ join [slash] (m' :: ns)).
  by rewrite Ha, <- app_assoc.
Qed.

Lemma path_text_file_name p n :
  file_name p = Some n → ∃ a, path_text p = a ++ replace (λ c, c =? backslash) [slash] n.
Proof.
  intros [a Ha]%file_name_last%join_last. unfold path_text, to_str. rewrite Ha, app_assoc, replace_app.
  by eexists.
Qed.

Lemma recursive_pattern l g :
  l ≠ [] → Forall plain l → glob_new (lit "**/" ++ l) = Ok g →
  tokens g = [Recursive; Literal l] ∧ is_anchored g = false.
Proof.
  intros Hne Hl H. assert (Hs : spells [Recursive; Literal l] (lit "**/" ++ l)).
  { apply (spells_recursive [Literal l] l). rewrite <- (app_nil_r l) at 2.
    by apply (spells_literal l); [..|constructor]. }
  apply tokenize_spec in Hs. unfold glob_new in H.
  change (starts_with [slash] (lit "**/" ++ l)) with false in H. cbn match in H.
  rewrite Hs in H. by injection H as <-.
Qed.

(** A double star swallows the slash behind it, so a pattern that starts with
    one does not stop at component boundaries: it matches every path that ends
    with the rest, in the middle of a name or not. *)
Theorem recursive_pattern_matches_suffixes l g p :
  l ≠ [] → Forall (λ c, plain c ∧ c ≠ backslash) l → path_ok p →
  glob_new (lit "**/" ++ l) = Ok g →
  is_match g p = true ↔ ∃ a, path_text p = a ++ l.
Proof.
  intros Hne Hl Hp Hg. apply recursive_pattern in Hg as [Ht Ha]; [|done|by eapply Forall_impl; [exact Hl|by intros ? [? ?]]].
  rewrite is_match_spec, Ht, in_language_suffix by done.
  split; [|by left]. intros [H|(_ & _ & n & Hn & [b ->]%in_language_suffix)]; [done|].
  apply path_text_file_name in Hn as [a Hx]. rewrite Hx, replace_app, app_assoc.
  rewrite (replace_none _ _ l); [by eexists|].
  eapply Forall_impl; [exact Hl|]. intros c [_ Hc]. by apply Z.eqb_neq.
Qed.

(** ** Examples *)

Definition path (ns : list string) : Path := {| absolute := false; names := map lit ns |}.
Definition compiled (s : string) : Glob :=
  match glob_new (lit s) with Ok g => g | Err _ => {| tokens := []; is_recursive := false; is_anchored := false |} end.

Lemma name_ok_lit s :
  bool_decide (lit s ≠ [] ∧ lit s ≠ lit "." ∧ slash ∉ lit s) = true → name_ok (lit s).
Proof. intros H. by apply bool_decide_eq_true in H. Qed.

Example glob_examples :
  is_match (compiled "*.rs") (path ["src"; "test.rs"]) = true ∧
  is_match (compiled "*.rs") (path ["test.txt"]) = false ∧
  is_match (compiled "**/*.rs") (path ["src"; "deep"; "test.rs"]) = true ∧
  is_match (compiled "src/main.rs") (path ["src"; "main.rs"]) = true ∧
  is_match (compiled "/main.rs") (path ["src"; "main.rs"]) = false ∧
  is_match (compiled "docs/*.md") (path ["docs"; "a"; "b.md"]) = false ∧
  is_match (compiled "**/build/**") (path ["rebuild"; "main.rs"]) = true.
Proof. by vm_compute. Qed.

Theorem compiled_patterns_match_witness :
  is_match (compiled "*.rs") (path ["src"; "test.rs"]) = true ∧ ∃ e, glob_new (lit "a**b") = Err e.
Proof.
  assert (Hok : path_ok (path ["src"; "test.rs"])) by (repeat constructor; by apply name_ok_lit). split.
  - apply (compiled_patterns_match (lit "*.rs") (path ["src"; "test.rs"]) Hok); [reflexivity|]. right.
    split_and!; [reflexivity| |exists (lit "test.rs"); split; [reflexivity|by apply match_tokens_spec]].
    intros l Hl. replace (tokens (compiled "*.rs")) with [Wildcard; Literal (lit ".rs")] in Hl by reflexivity.
    apply elem_of_cons in Hl as [?|Hl%list_elem_of_singleton]; [done|]. injection Hl as ->.
    apply (bool_decide_unpack _). reflexivity.
  - apply (compiled_patterns_match (lit "a**b") (path ["src"; "test.rs"]) Hok).
    exists (lit "a"), 98, []. by split.
Defined.

Theorem recursive_pattern_matches_suffixes_witness :
  is_match (compiled "**/build") (path ["src"; "rebuild"]) = true.
Proof.
  apply (recursive_pattern_matches_suffixes (lit "build") (compiled "**/build")
    (path ["src"; "rebuild"])).
  - done.
  - repeat constructor; done.
  - repeat constructor; by apply name_ok_lit.
  - reflexivity.
  - exists (lit "src/re"). reflexivity.
Defined.

End Glob.
