(* ===== verification/Ignore.v ===== *)
(** * Ignore files

    Models crates/infra/cce-scanner/src/ignore.rs: the patterns of an ignore
    file, the matcher in which the last matching pattern decides, and the stack
    of matchers of nested directories with its cache. The file system is a
    parameter. A panic of the code is an error value; it leaves the state to
    the caller. *)

From S2P Require Import Prelude Str FsPath Glob.
From Stdlib Require Import ZArith Lia.
#[local] Open Scope Z_scope.

Module Ignore.
Import Str FsPath Glob.
#[local] Open Scope result_scope.

(** What the code asks of the file system. *)
Record Fs := {
  is_dir : Path → bool;
  is_file : Path → bool;
  path_exists : Path → bool;
  read_to_string : Path → option str
}.

(** Slicing a string out of its range. *)
Inductive Panic := OutOfRange.

Record Pattern := {
  original : str;
  negated : bool;
  dir_only : bool;
  anchored : bool;
  glob : option Glob
}.

#[export] Instance Pattern_eq_dec : EqDecision Pattern.
Proof. solve_decision. Defined.

Definition bang : char := 33.
Definition hash : char := 35.
Definition ends_with_slash (s : str) : bool := bool_decide (last s = Some slash).

(** [&s[..s.len() - 1]] in front of a character of one byte. *)
Definition without_last (s : str) : result str Panic :=
  match s with [] => Err OutOfRange | _ => Ok (removelast s) end.

Definition is_comment (s : str) : bool := bool_decide (s = []) || starts_with [hash] s.

Definition parse (pattern : str) : result (option Pattern) Panic :=
  let original := trim pattern in
  if is_comment original then Ok None
  else
    let negated := starts_with [bang] original in
    let pattern_str := if negated then tail original else original in
    let anchored := starts_with [slash] pattern_str ||
      (contains [slash] pattern_str && negb (ends_with_slash pattern_str)) in
    let dir_only := ends_with_slash pattern_str in
    let pattern_str := default pattern_str (Str.strip_prefix [slash] pattern_str) in
    pattern_str <-? (if dir_only then without_last pattern_str else Ok pattern_str);
    let glob_pattern :=
      if starts_with [slash] (trim original) then slash :: pattern_str else pattern_str in
    let glob := match glob_new glob_pattern with Ok g => Some g | Err _ => None end in
    Ok (Some {| original := original; negated := negated; dir_only := dir_only;
                anchored := anchored; glob := glob |}).

(** The loop over the ancestors: directories of the path other than those named
    like the file. *)
Definition matches_ancestor (g : Glob) (file_name_of_path : option str) (ancestor : Path) : bool :=
  match file_name ancestor with
  | Some dir_name =>
      negb (bool_decide (file_name_of_path = Some dir_name)) && is_match g (of_name dir_name)
  | None => false
  end.

Definition matches_pattern (p : Path) (pattern : Pattern) : bool :=
  match glob pattern with
  | None => false
  | Some g =>
      if anchored pattern then is_match g p
      else if is_match g p then true
      else if negb (contains [slash] (original pattern)) then
        match file_name p with
        | Some name => if is_match g (of_name name) then true
                       else existsb (matches_ancestor g (Some name)) (ancestors p)
        | None => existsb (matches_ancestor g None) (ancestors p)
        end
      else false
  end.

(** ** The matcher of one directory *)

Record IgnoreMatcher := { patterns : list Pattern; base_dir : Path }.

#[export] Instance IgnoreMatcher_eq_dec : EqDecision IgnoreMatcher.
Proof. solve_decision. Defined.

Fixpoint parse_all (l : list str) : result (list Pattern) Panic :=
  match l with
  | [] => Ok []
  | p :: l =>
      let p := trim p in
      parsed <-? (if is_comment p then Ok None else parse p);
      rest <-? parse_all l;
      Ok (match parsed with Some q => q :: rest | None => rest end)
  end.

Definition matcher_new (l : list str) (base : Path) : result IgnoreMatcher Panic :=
  parsed <-? parse_all l;
  Ok {| patterns := parsed; base_dir := base |}.

(** [None] is the I/O error. A file has a parent directory. *)
Definition from_file (fs : Fs) (path : Path) : result (option IgnoreMatcher) Panic :=
  let base_dir := default {| absolute := false; names := [] |} (parent path) in
  match read_to_string fs path with
  | None => Ok None
  | Some content =>
      m <-? matcher_new (map trim (lines content)) base_dir;
      Ok (Some m)
  end.

Definition merge (self other : IgnoreMatcher) : IgnoreMatcher :=
  {| patterns := patterns self ++ patterns other;
     base_dir := if bool_decide (patterns self = []) && negb (bool_decide (patterns other = []))
                 then base_dir other else base_dir self |}.

(** The path the patterns see and whether the path is a directory. *)
Definition relative_path (self : IgnoreMatcher) (p : Path) : Path :=
  default p (strip_prefix (base_dir self) p).
Definition path_is_dir (fs : Fs) (self : IgnoreMatcher) (p : Path) : bool :=
  let abs_path := if decide (relative_path self p = p) then path_join (base_dir self) p else p in
  is_dir fs abs_path.

Definition check_pattern (p : Path) (dir : bool) (ignored : option bool) (pattern : Pattern)
    : option bool :=
  if dir_only pattern && negb dir then ignored
  else if matches_pattern p pattern then Some (negb (negated pattern))
  else ignored.

Definition check (fs : Fs) (self : IgnoreMatcher) (p : Path) : option bool :=
  foldl (check_pattern (relative_path self p) (path_is_dir fs self p)) None (patterns self).

Definition is_ignored (fs : Fs) (self : IgnoreMatcher) (p : Path) : bool :=
  default false (check fs self p).

Definition pattern_count (self : IgnoreMatcher) : nat := length (patterns self).
Definition invalid_pattern_count (self : IgnoreMatcher) : nat :=
  length (retain (λ p, bool_decide (glob p = None)) (patterns self)).

(** ** The stack *)

Abbreviation Levels := (gmap Path (option IgnoreMatcher)).

Record IgnoreStack := {
  root : Path;
  filenames : list str;
  root_matcher : IgnoreMatcher;
  levels : Levels
}.

Definition stack_new (r : Path) (m : IgnoreMatcher) (names : list str) : IgnoreStack :=
  {| root := r; filenames := names; root_matcher := m; levels := ∅ |}.

Definition set_levels (l : Levels) (s : IgnoreStack) : IgnoreStack :=
  {| root := root s; filenames := filenames s; root_matcher := root_matcher s; levels := l |}.

Definition merge_file (fs : Fs) (dir : Path) (merged : option IgnoreMatcher) (name : str)
    : result (option IgnoreMatcher) Panic :=
  let candidate := path_join dir (of_name name) in
  if negb (is_file fs candidate) then Ok merged
  else
    loaded <-? from_file fs candidate;
    Ok (match loaded, merged with
        | Some m, Some existing => Some (merge existing m)
        | Some m, None => Some m
        | None, _ => merged
        end).

Fixpoint merge_files (fs : Fs) (dir : Path) (names : list str) (merged : option IgnoreMatcher)
    : result (option IgnoreMatcher) Panic :=
  match names with
  | [] => Ok merged
  | name :: names =>
      merged <-? merge_file fs dir merged name;
      merge_files fs dir names merged
  end.

Definition level_matcher (fs : Fs) (dir : Path) (s : IgnoreStack)
    : result (option IgnoreMatcher * IgnoreStack) Panic :=
  match levels s !! dir with
  | Some entry => Ok (entry, s)
  | None =>
      merged <-? merge_files fs dir (filenames s) None;
      Ok (merged, set_levels (<[dir := merged]> (levels s)) s)
  end.

(** The loop over [current]; [fuel] is the number of directories left, and the
    names of the path are enough. *)
Fixpoint stack_loop (fs : Fs) (fuel : nat) (target : Path) (current : option Path)
    (verdict : option bool) (s : IgnoreStack) : result (option bool * IgnoreStack) Panic :=
  match fuel, current with
  | S fuel, Some dir =>
      if bool_decide (dir = root s) || negb (path_starts_with (root s) dir) then Ok (verdict, s)
      else
        r <-? level_matcher fs dir s;
        match r.1 ≫= λ m, check fs m target with
        | Some opinion => Ok (Some opinion, r.2)
        | None => stack_loop fs fuel target (parent dir) verdict r.2
        end
  | _, _ => Ok (verdict, s)
  end.

Definition stack_is_ignored (fs : Fs) (p : Path) (s : IgnoreStack)
    : result (bool * IgnoreStack) Panic :=
  let target := if absolute p then p else path_join (root s) p in
  let verdict := check fs (root_matcher s) target in
  r <-? stack_loop fs (S (length (names target))) target (parent target) verdict s;
  Ok (default false r.1, r.2).

(** ** Parsing *)

(** The only patterns that have no text left to cut the slash from. *)
Definition lone_slash (pattern : str) : Prop := trim pattern = lit "/" ∨ trim pattern = lit "!/".

Lemma ends_with_slash_spec s : ends_with_slash s = true ↔ ∃ a, s = a ++ [slash].
Proof. unfold ends_with_slash. by rewrite bool_decide_eq_true, last_Some. Qed.

Lemma default_strip_slash s :
  default s (Str.strip_prefix [slash] s) = [] ↔ s = [] ∨ s = [slash].
Proof.
  destruct s as [|c s]; [naive_solver|]. cbn [Str.strip_prefix default].
  destruct (Z.eqb_spec slash c) as [<-|Hc]; simpl; [|naive_solver]. destruct s; naive_solver.
Qed.

Lemma without_last_fails s : (∃ e, without_last s = Err e) ↔ s = [].
Proof. destruct s; simpl; split; [by eauto..|by intros [? ?]|done]. Qed.

(** Parsing a pattern panics exactly when the pattern is a slash, negated or
    not: cutting the trailing slash from what the leading one has left. *)
Lemma parse_panics pattern : (∃ e, parse pattern = Err e) ↔ lone_slash pattern.
Proof.
  unfold parse, lone_slash. set (o := trim pattern). clearbody o.
  destruct (is_comment o) eqn:Ec.
  { split; [by intros [e ?]|]. by intros [->| ->]. }
  set (ps := if starts_with [bang] o then tail o else o).
  assert (Hps : ps = [slash] ↔ o = lit "/" ∨ o = lit "!/").
  { unfold ps. change (lit "/") with [slash]. change (lit "!/") with [bang; slash].
    destruct o as [|c o]; [simpl; naive_solver|]. cbn [starts_with tail]. rewrite andb_true_r.
    destruct (Z.eqb_spec bang c) as [<-|Hc]; [split; [intros ->; by right|]|split; [by left|]];
      intros [E|E]; injection E; congruence. }
  rewrite <- Hps. clearbody ps. cbv zeta. destruct (ends_with_slash ps) eqn:Ed; cbn match.
  - destruct (without_last (default ps (Str.strip_prefix [slash] ps))) as [r|e] eqn:Ew;
      cbn [result_bind].
    + split; [by intros [e ?]|]. by intros ->.
    + assert (Hd : default ps (Str.strip_prefix [slash] ps) = []) by (apply without_last_fails; eauto).
      apply default_strip_slash in Hd as [Hd|Hd]; rewrite Hd in *; [done|]. split; eauto.
  - split; [by intros [e ?]|]. intros ->. done.
Qed.

Lemma trim_start_none s : Forall (λ c, is_whitespace c = false) s → trim_start_matches is_whitespace s = s.
Proof. intros H. destruct H as [|c s Hc H]; simpl; [done|]. by rewrite Hc. Qed.

Lemma trim_none s : Forall (λ c, is_whitespace c = false) s → trim s = s.
Proof.
  intros H. unfold trim, trim_end_matches. rewrite (trim_start_none s H).
  rewrite trim_start_none by (by apply Forall_reverse). apply reverse_involutive.
Qed.

Lemma trim_start_idem s :
  trim_start_matches is_whitespace (trim_start_matches is_whitespace s) = trim_start_matches is_whitespace s.
Proof.
  induction s as [|c s IH]; simpl; [done|]. destruct (is_whitespace c) eqn:E; [done|].
  simpl. by rewrite E.
Qed.

(** Cutting white space from the end keeps a first character that is none. *)
Lemma trim_start_app c s :
  is_whitespace c = false →
  trim_start_matches is_whitespace (s ++ [c]) = trim_start_matches is_whitespace s ++ [c].
Proof.
  intros Hc. induction s as [|d s IH]; simpl; [by rewrite Hc|]. by destruct (is_whitespace d).
Qed.

Lemma trim_end_start s :
  trim_start_matches is_whitespace (trim_end_matches is_whitespace (trim_start_matches is_whitespace s)) =
  trim_end_matches is_whitespace (trim_start_matches is_whitespace s).
Proof.
  assert (Hs := trim_start_idem s). destruct (trim_start_matches is_whitespace s) as [|c t]; [done|].
  unfold trim_end_matches. cbn [trim_start_matches] in Hs.
  destruct (is_whitespace c) eqn:E.
  { exfalso. apply (f_equal length) in Hs. simpl in Hs.
    assert (Hle : ∀ u, (length (trim_start_matches is_whitespace u) ≤ length u)%nat).
    { intros u. induction u as [|d u IH]; simpl; [done|]. destruct (is_whitespace d); simpl; lia. }
    specialize (Hle t). lia. }
  rewrite reverse_cons, (trim_start_app c) by done. rewrite reverse_app. simpl. by rewrite E.
Qed.

Lemma trim_idem s : trim (trim s) = trim s.
Proof.
  unfold trim at 1. unfold trim at 1. rewrite trim_end_start. unfold trim_end_matches.
  by rewrite reverse_involutive, trim_start_idem.
Qed.

(** A file with such a line, and no other, makes the scanner panic. *)
Theorem lone_slash_panics l base :
  (∃ e, matcher_new l base = Err e) ↔ ∃ line, line ∈ l ∧ lone_slash line.
Proof.
  unfold matcher_new. induction l as [|p l IH]; cbn [parse_all].
  { split; [by intros [e ?]|]. by intros (line & ?%elem_of_nil & _). }
  assert (Hp : (∃ e, (if is_comment (trim p) then Ok None else parse (trim p)) = Err e) ↔ lone_slash p).
  { unfold lone_slash. destruct (is_comment (trim p)) eqn:E.
    - split; [by intros [e ?]|]. by intros [Ht|Ht]; rewrite Ht in E.
    - rewrite parse_panics. unfold lone_slash. by rewrite trim_idem. }
  setoid_rewrite elem_of_cons.
  destruct (if is_comment (trim p) then _ else _) as [parsed|e]; simpl.
  - assert (Hno : ¬ lone_slash p) by (rewrite <- Hp; by intros [e ?]).
    destruct (parse_all l) as [rest|e]; simpl in *.
    + split; [by intros [e ?]|]. intros (line & [->|Hl] & Hs); [done|].
      by destruct (proj2 IH) as [e ?]; [eauto|].
    + split; [|eauto]. intros _. destruct (proj1 IH) as (line & Hl & Hs); eauto.
  - split; [|eauto]. intros _. exists p. split; [by left|]. apply Hp. eauto.
Qed.

(** ** Verdicts *)

(** The pattern has a say on the path. *)
Definition applies (p : Path) (dir : bool) (q : Pattern) : Prop :=
  (dir_only q = true → dir = true) ∧ matches_pattern p q = true.

Lemma check_pattern_spec p dir acc q :
  applies p dir q ∧ check_pattern p dir acc q = Some (negb (negated q)) ∨
  ¬ applies p dir q ∧ check_pattern p dir acc q = acc.
Proof.
  unfold check_pattern, applies. destruct (dir_only q), dir, (matches_pattern p q); simpl; intuition done.
Qed.

Lemma fold_last (p : Path) dir l acc v :
  foldl (check_pattern p dir) acc l = v ↔
  (∃ l1 q l2, l = l1 ++ q :: l2 ∧ applies p dir q ∧ v = Some (negb (negated q)) ∧
     ∀ q', q' ∈ l2 → ¬ applies p dir q') ∨
  v = acc ∧ ∀ q, q ∈ l → ¬ applies p dir q.
Proof.
  revert acc. induction l as [|q l IH]; intros acc; cbn [foldl].
  - split; [intros ->; right; split; [done|]; by intros ? ?%elem_of_nil|].
    intros [([|? ?] & ? & ? & ? & _)|[-> _]]; done.
  - rewrite IH. destruct (check_pattern_spec p dir acc q) as [[Ha ->]|[Ha ->]]; split.
    + intros [(l1 & q' & l2 & -> & H)|[-> H]]; left; [by exists (q :: l1), q', l2|by exists [], q, l].
    + intros [([|q1 l1] & q' & l2 & E & H1 & H2 & H3)|[_ H]].
      * injection E as -> ->. by right.
      * injection E as -> ->. left. by exists l1, q', l2.
      * destruct (H q); [by left|done].
    + intros [(l1 & q' & l2 & -> & H)|[-> H]]; [left; by exists (q :: l1), q', l2|right].
      split; [done|]. intros q' [->|Hq]%elem_of_cons; [done|by apply H].
    + intros [([|q1 l1] & q' & l2 & E & H1 & H2 & H3)|[-> H]].
      * by injection E as -> ->.
      * injection E as -> ->. left. by exists l1, q', l2.
      * right. split; [done|]. intros q' Hq. apply H. by right.
Qed.

(** The last pattern that has a say decides; without one there is no opinion. *)
Theorem last_match_decides fs m p :
  let r := relative_path m p in
  let dir := path_is_dir fs m p in
  (∀ v, check fs m p = Some v ↔
     ∃ l1 q l2, patterns m = l1 ++ q :: l2 ∧ applies r dir q ∧ v = negb (negated q) ∧
       ∀ q', q' ∈ l2 → ¬ applies r dir q') ∧
  (check fs m p = None ↔ ∀ q, q ∈ patterns m → ¬ applies r dir q).
Proof.
  intros r dir. split; [intros v|]; unfold check; rewrite fold_last; fold r dir; naive_solver.
Qed.

(** Merging a matcher of the same directory gives it the last word. *)
Lemma check_merge fs a b p :
  base_dir a = base_dir b →
  check fs (merge a b) p = match check fs b p with Some v => Some v | None => check fs a p end.
Proof.
  intros Hb. unfold check, relative_path, path_is_dir, relative_path, merge. cbn [patterns base_dir].
  assert (base_dir b = (if bool_decide (patterns a = []) && negb (bool_decide (patterns b = []))
    then base_dir b else base_dir a)) as <- by (rewrite Hb; by destruct (_ && _)).
  rewrite Hb, foldl_app. set (r := default p _). set (d := is_dir fs _).
  destruct (foldl (check_pattern r d) None (patterns b)) as [v|] eqn:E.
  - apply fold_last. left. apply fold_last in E as [(l1 & q & l2 & H)|[? _]]; [|done].
    by exists l1, q, l2.
  - apply fold_last. right. split; [done|]. by apply fold_last in E as [(l1 & q & l2 & _ & _ & ? & _)|[_ ?]].
Qed.

(** ** Names *)

(** A character without a meaning of its own in a pattern. *)
Definition name_char (c : char) : Prop :=
  plain c ∧ c ≠ slash ∧ c ≠ backslash ∧ c ≠ bang ∧ c ≠ hash ∧ is_whitespace c = false.
Definition plain_name (l : str) : Prop := l ≠ [] ∧ (l ≠ lit "." ∧ l ≠ lit "..") ∧ Forall name_char l.

Lemma plain_name_no_slash l : plain_name l → slash ∉ l ∧ backslash ∉ l.
Proof.
  intros (_ & _ & H). rewrite Forall_forall in H.
  split; intros Hs; apply H in Hs as (_ & ? & ? & _); done.
Qed.

Lemma plain_name_plain l : plain_name l → Forall plain l.
Proof. intros (_ & _ & H). eapply Forall_impl; [exact H|]. by intros c [? _]. Qed.

Lemma plain_name_first l : plain_name l → ∃ c l', l = c :: l' ∧ name_char c.
Proof.
  intros (Hne & _ & H). destruct l as [|c l]; [done|]. apply Forall_cons in H as [H _]. by exists c, l.
Qed.

Lemma glob_new_name (l : str) (b : bool) :
  plain_name l →
  glob_new (if b then slash :: l else l) =
    Ok {| tokens := [Literal l]; is_recursive := false; is_anchored := b |}.
Proof.
  intros Hl. apply glob_new_spec. exists l. cbn [is_anchored tokens is_recursive].
  split_and!; [by destruct b| | |done].
  - intros _. destruct (plain_name_first l Hl) as (c & l' & -> & _ & Hc & _). cbn [starts_with].
    apply andb_false_iff. left. apply Z.eqb_neq. unfold slash in *. congruence.
  - rewrite <- (app_nil_r l) at 2. apply spells_literal; [by destruct Hl|by apply plain_name_plain|done|constructor].
Qed.

Lemma in_language_literal l s : in_language [Literal l] s ↔ s = l.
Proof.
  rewrite in_language_cons. split.
  - intros (a & b & -> & -> & ->%in_language_nil). by rewrite app_nil_r.
  - intros ->. exists l, []. rewrite app_nil_r. split_and!; [done..|by apply in_language_nil].
Qed.

(** The text of a path is a plain name exactly for the path of that name. *)
Lemma path_text_name p l : path_ok p → plain_name l → path_text p = l ↔ p = of_name l.
Proof.
  intros Hp Hl. destruct (plain_name_no_slash l Hl) as [Hs Hb]. split.
  - intros E. rewrite <- E in Hs. destruct (path_text_no_slash p Hs) as [Ht Hs'].
    destruct (no_slash_single p Hp Hs') as [Ha [Hn|Hn]].
    + destruct Hl as [Hne _]. destruct Hne. rewrite <- E, Ht. destruct p as [a ns]; simpl in *.
      by subst.
    + rewrite <- Ht, E in Hn. unfold of_name. rewrite <- Hn, <- Ha. by destruct p.
  - intros ->. unfold path_text, to_str. simpl. apply replace_none. apply Forall_forall.
    intros c Hc. apply Z.eqb_neq. by intros ->.
Qed.

Lemma is_match_name g l p :
  path_ok p → plain_name l → tokens g = [Literal l] →
  is_match g p = true ↔ p = of_name l ∨ is_anchored g = false ∧ file_name p = Some l.
Proof.
  intros Hp Hl Ht. rewrite is_match_spec, Ht, in_language_literal, path_text_name by done.
  setoid_rewrite in_language_literal. split; [naive_solver|].
  intros [?|[Ha Hn]]; [by left|right]. split_and!; [done| |by exists l].
  intros l' Hl'%list_elem_of_singleton. injection Hl' as ->. by apply plain_name_no_slash.
Qed.

(** A name, with or without an exclamation mark and a slash in front of it. *)
Definition written (neg rooted : bool) (l : str) : str :=
  (if neg then [bang] else []) ++ (if rooted then [slash] else []) ++ l.

Lemma plain_name_ends l : plain_name l → ends_with_slash l = false.
Proof.
  intros Hl. apply not_true_iff_false. intros [a ->]%ends_with_slash_spec.
  destruct (plain_name_no_slash _ Hl) as [Hs _]. apply Hs, elem_of_app. right. by left.
Qed.

Lemma ends_with_slash_app a l : l ≠ [] → ends_with_slash (a ++ l) = ends_with_slash l.
Proof.
  intros Hl. unfold ends_with_slash. rewrite last_app.
  destruct (last l) eqn:E; [done|]. by apply last_None in E.
Qed.

Lemma starts_with_char c d s : starts_with [c] (d :: s) = (c =? d).
Proof. simpl. by rewrite andb_true_r. Qed.

Lemma parse_written (neg rooted : bool) l :
  plain_name l →
  parse (written neg rooted l) =
    Ok (Some {| original := written neg rooted l; negated := neg; dir_only := false;
                anchored := rooted;
                glob := Some {| tokens := [Literal l]; is_recursive := false;
                                is_anchored := rooted && negb neg |} |}).
Proof.
  intros Hl. pose proof (plain_name_ends l Hl) as He. pose proof (plain_name_no_slash l Hl) as [Hs _].
  assert (Hw : Forall (λ c, is_whitespace c = false) (written neg rooted l)).
  { destruct Hl as (_ & _ & H). unfold written. destruct neg, rooted; simpl;
      repeat (apply Forall_cons; split; [done|]); (eapply Forall_impl; [exact H|]);
      intros c Hc; apply Hc. }
  unfold parse. rewrite (trim_none _ Hw). rewrite (trim_none _ Hw). clear Hw.
  pose proof (glob_new_name l true Hl) as Ht. pose proof (glob_new_name l false Hl) as Hf. simpl in Ht, Hf.
  destruct (plain_name_first l Hl) as (c & l' & -> & (Hc1 & Hc2 & Hc3 & Hc4 & Hc5 & _)).
  assert (Hslash : contains [slash] (c :: l') = false)
    by (apply not_true_iff_false; by rewrite contains_char).
  assert (He' : ends_with_slash (slash :: c :: l') = false)
    by (rewrite <- He; by apply (ends_with_slash_app [slash])).
  assert (E1 : (bang =? c) = false) by (by apply Z.eqb_neq).
  assert (E2 : (hash =? c) = false) by (by apply Z.eqb_neq).
  assert (E3 : (slash =? c) = false) by (by apply Z.eqb_neq).
  unfold is_comment, written.
  destruct neg, rooted; cbn [app];
    repeat (progress (rewrite ?starts_with_char, ?E1, ?E2, ?E3, ?He, ?He', ?Hslash, ?Ht, ?Hf,
      ?(eq_refl : (hash =? bang) = false), ?(eq_refl : (hash =? slash) = false),
      ?(eq_refl : (bang =? bang) = true), ?(eq_refl : (bang =? slash) = false),
      ?(eq_refl : (slash =? bang) = false), ?(eq_refl : (slash =? slash) = true);
      cbn -[contains ends_with_slash glob_new Z.eqb starts_with])); reflexivity.
Qed.

Lemma written_slash neg rooted l :
  plain_name l → contains [slash] (written neg rooted l) = rooted.
Proof.
  intros Hl. pose proof (plain_name_no_slash l Hl) as [Hs _]. unfold written.
  destruct rooted; [apply contains_char|apply not_true_iff_false; rewrite contains_char];
    destruct neg; cbn [app]; rewrite ?elem_of_cons; naive_solver.
Qed.

(** The file name of an ancestor is one of the names of the path. *)
Lemma ancestor_names p l :
  lit ".." ∉ names p → (∃ a, a ∈ ancestors p ∧ file_name a = Some l) ↔ l ∈ names p.
Proof.
  intros Hd. split.
  - intros (a & (Ha & k & Hk)%ancestors_spec & Hn%file_name_last). rewrite Hk.
    apply last_Some_elem_of in Hn. apply elem_of_app. by left.
  - intros (l1 & l2 & Hp)%list_elem_of_split.
    exists {| absolute := absolute p; names := l1 ++ [l] |}. split.
    + apply ancestors_spec. simpl. split; [done|]. exists l2. by rewrite Hp, <- app_assoc.
    + unfold file_name. simpl. rewrite last_snoc. rewrite decide_False; [done|].
      intros ->. apply Hd. rewrite Hp. apply elem_of_app. right. by left.
Qed.

Lemma of_name_eq n l : of_name n = of_name l ↔ n = l.
Proof. split; [by intros [= ->]|by intros ->]. Qed.

Lemma file_name_of_name n l : file_name (of_name n) = Some l → n = l.
Proof. intros H%file_name_last. by injection H. Qed.

Lemma name_ok_of_name p n : path_ok p → n ∈ names p → path_ok (of_name n).
Proof. unfold path_ok. rewrite Forall_forall. intros H Hn. by repeat constructor; apply H. Qed.

Lemma is_match_single g l p n :
  path_ok p → n ∈ names p → plain_name l → tokens g = [Literal l] →
  is_match g (of_name n) = true → n = l.
Proof.
  intros Hp Hn Hl Ht H.
  apply (is_match_name g l (of_name n) (name_ok_of_name p n Hp Hn) Hl Ht) in H as [H|[_ H]].
  - by apply of_name_eq.
  - by apply file_name_of_name.
Qed.

(** A name written without slashes ignores the files and directories of that
    name and everything below them. *)
Theorem plain_name_matches_component l p q :
  plain_name l → path_ok p → lit ".." ∉ names p → parse l = Ok (Some q) →
  matches_pattern p q = true ↔ l ∈ names p.
Proof.
  intros Hl Hp Hd Hq. pose proof (parse_written false false l Hl) as Hw.
  unfold written in Hw. cbn [app] in Hw. rewrite Hq in Hw. injection Hw as ->.
  pose proof (written_slash false false l Hl) as Hs. unfold written in Hs. cbn [app] in Hs.
  unfold matches_pattern. cbn [glob anchored original]. rewrite Hs. cbn [negb andb].
  set (g := {| tokens := [Literal l]; is_recursive := false; is_anchored := false |}).
  assert (Hself : is_match g (of_name l) = true).
  { apply is_match_name with l; [|done|done|by left]. repeat constructor;
      [apply Hl..|by apply plain_name_no_slash]. }
  pose proof (is_match_name g l p Hp Hl eq_refl) as Hm.
  destruct (is_match g p) eqn:Em.
  { split; [intros _|done]. destruct (proj1 Hm eq_refl) as [->|[_ Hn]]; [by left|].
    by apply last_Some_elem_of, file_name_last. }
  assert (Hn : file_name p ≠ Some l) by (intros Hn; discriminate (proj2 Hm (or_intror (conj eq_refl Hn)))).
  rewrite <- (ancestor_names p l Hd).
  assert (Hex : existsb (matches_ancestor g (file_name p)) (ancestors p) = true ↔
    ∃ a, a ∈ ancestors p ∧ file_name a = Some l).
  { rewrite existsb_exists. setoid_rewrite <- list_elem_of_In. split.
    - intros (a & Ha & Hx). exists a. split; [done|]. unfold matches_ancestor in Hx.
      destruct (file_name a) as [n|] eqn:Ea; [|done]. apply andb_true_iff in Hx as [_ Hx]. f_equal.
      eapply (is_match_single g l p); try done. apply ancestors_spec in Ha as (_ & k & Hk).
      rewrite Hk. apply elem_of_app. left. by apply last_Some_elem_of, file_name_last.
    - intros (a & Ha & Hx). exists a. split; [done|]. unfold matches_ancestor. rewrite Hx, Hself.
      by rewrite bool_decide_eq_false_2. }
  rewrite <- Hex. destruct (file_name p) as [n|] eqn:En; [|done].
  destruct (is_match g (of_name n)) eqn:E; [|done]. split; [intros _|done]. exfalso.
  apply Hn. f_equal. eapply (is_match_single g l p); try done. by apply last_Some_elem_of, file_name_last.
Qed.

(** A slash in front anchors a name at the directory of the ignore file; an
    exclamation mark in front of the slash undoes the anchor, and the exception
    holds for files of that name anywhere below. *)
Theorem negated_anchor_is_lost l p q q' :
  plain_name l → path_ok p →
  parse (lit "/" ++ l) = Ok (Some q) → parse (lit "!/" ++ l) = Ok (Some q') →
  anchored q = true ∧ anchored q' = true ∧
  (matches_pattern p q = true ↔ p = of_name l) ∧
  (matches_pattern p q' = true ↔ p = of_name l ∨ file_name p = Some l).
Proof.
  intros Hl Hp Hq Hq'.
  pose proof (parse_written false true l Hl) as Hw. pose proof (parse_written true true l Hl) as Hw'.
  change (written false true l) with (lit "/" ++ l) in Hw.
  change (written true true l) with (lit "!/" ++ l) in Hw'.
  rewrite Hq in Hw. rewrite Hq' in Hw'. injection Hw as ->. injection Hw' as ->.
  split_and!; [done..| |]; unfold matches_pattern; cbn [glob anchored];
    rewrite (is_match_name _ l) by done; cbn [is_anchored andb negb]; naive_solver.
Qed.

(** ** The stack of directories *)

Section stack.
Context (fs : Fs).

(** The matcher of the ignore files in a directory, and its say on a path. *)
Definition level (s : IgnoreStack) (dir : Path) : result (option IgnoreMatcher) Panic :=
  merge_files fs dir (filenames s) None.
Definition opinion (s : IgnoreStack) (target dir : Path) : option bool :=
  match level s dir with Ok (Some m) => check fs m target | _ => None end.

(** The cache holds what loading again would give. *)
Definition coherent (s : IgnoreStack) : Prop :=
  ∀ dir m, levels s !! dir = Some m → level s dir = Ok m.

Definition same_stack (s s' : IgnoreStack) : Prop :=
  root s' = root s ∧ filenames s' = filenames s ∧ root_matcher s' = root_matcher s.

(** The directories between the root and the path. *)
Definition between (s : IgnoreStack) (target dir : Path) : Prop :=
  absolute dir = true ∧
  (∃ ns, ns ≠ [] ∧ names dir = names (root s) ++ ns) ∧
  (∃ ns, ns ≠ [] ∧ names target = names dir ++ ns).

Lemma level_matcher_spec dir s m :
  coherent s → level s dir = Ok m →
  ∃ s', level_matcher fs dir s = Ok (m, s') ∧ same_stack s s' ∧ coherent s'.
Proof.
  intros Hc Hm. unfold level_matcher. destruct (levels s !! dir) as [e|] eqn:E.
  - apply Hc in E. rewrite Hm in E. injection E as ->. by exists s.
  - unfold level in Hm. rewrite Hm. cbn [result_bind]. eexists. split; [done|]. split; [done|].
    intros d m'. unfold level. simpl. intros [[<- <-]|[_ H]]%lookup_insert_Some; [done|by apply Hc].
Qed.

(** What the loop from [dir] upwards has to find. *)
Definition decided (s : IgnoreStack) (target dir : Path) (v v' : option bool) : Prop :=
  (∀ d w, between s target d → names d `prefix_of` names dir → opinion s target d = Some w →
     (∀ d', between s target d' → names d' `prefix_of` names dir →
        (length (names d) < length (names d'))%nat → opinion s target d' = None) →
     v' = Some w) ∧
  ((∀ d, between s target d → names d `prefix_of` names dir → opinion s target d = None) → v' = v).

Lemma between_same s s' target d : same_stack s s' → between s' target d ↔ between s target d.
Proof. intros (Hr & _ & _). unfold between. by rewrite Hr. Qed.

Lemma opinion_same s s' target d : same_stack s s' → opinion s' target d = opinion s target d.
Proof. intros (_ & Hf & _). unfold opinion, level. by rewrite Hf. Qed.

Lemma starts_with_root r dir :
  absolute r = true → path_starts_with r dir = true ↔
  absolute dir = true ∧ names r `prefix_of` names dir.
Proof.
  intros Hr. unfold path_starts_with, strip_prefix. rewrite bool_decide_eq_true, Hr.
  destruct (absolute dir); [|split; [by intros [? ?]|by intros [? _]]].
  rewrite fmap_is_Some. split.
  - intros [ns Hns]. split; [done|]. exists ns. by apply after_prefix_spec.
  - intros [_ [ns Hns]]. exists ns. by apply after_prefix_spec.
Qed.

Lemma path_eq p q : absolute p = absolute q → names p = names q → p = q.
Proof. destruct p, q; simpl; congruence. Qed.

(** A proper prefix is a prefix of all but the last. *)
Lemma prefix_removelast {A} (l k : list A) :
  l `prefix_of` k → l ≠ k → l `prefix_of` removelast k.
Proof.
  intros [x ->] Hne. destruct (decide (x = [])) as [->|Hx]; [by rewrite app_nil_r in Hne|].
  exists (removelast x). by rewrite removelast_app.
Qed.

(** Where the loop stops nothing is left between. *)
Lemma nothing_between s target dir d :
  absolute (root s) = true →
  bool_decide (dir = root s) || negb (path_starts_with (root s) dir) = true →
  absolute dir = true → between s target d → ¬ names d `prefix_of` names dir.
Proof.
  intros Hr Hstop Hd (_ & (ns & Hns & E) & _) [k Hk]. rewrite E in Hk.
  apply orb_true_iff in Hstop as [H|H].
  - apply bool_decide_eq_true in H as ->. apply (f_equal length) in Hk.
    rewrite !length_app in Hk. destruct ns; [done|simpl in Hk; lia].
  - apply negb_true_iff, not_true_iff_false in H. apply H. apply starts_with_root; [done|].
    split; [done|]. exists (ns ++ k). by rewrite Hk, app_assoc.
Qed.

(** Where the loop goes on the directory lies between, and only the directories
    above it are left. *)
Lemma loop_continues s target dir :
  absolute (root s) = true → absolute dir = true →
  bool_decide (dir = root s) || negb (path_starts_with (root s) dir) = false →
  (∃ ns, ns ≠ [] ∧ names target = names dir ++ ns) →
  between s target dir ∧ names dir ≠ [].
Proof.
  intros Hr Hd (Hne & Hroot)%orb_false_iff Ht.
  apply bool_decide_eq_false in Hne. apply negb_false_iff, starts_with_root in Hroot as [_ [ns Hns]]; [|done].
  assert (ns ≠ []).
  { intros ->. apply Hne, path_eq; [congruence|]. by rewrite Hns, app_nil_r. }
  split; [by split_and!; [|exists ns|]|]. rewrite Hns. by intros [_ ?]%app_nil.
Qed.

Lemma between_above s target dir d :
  absolute dir = true → between s target d → names d `prefix_of` names dir → d ≠ dir →
  names d `prefix_of` removelast (names dir).
Proof.
  intros Hd Hbd Hp Hne. apply prefix_removelast; [done|]. intros Heq. apply Hne.
  apply path_eq; [destruct Hbd; congruence|done].
Qed.

Lemma prefix_shorter {A} (l k : list A) : l `prefix_of` k → l ≠ k → (length l < length k)%nat.
Proof.
  intros [x ->] Hne. rewrite length_app. destruct x; [by rewrite app_nil_r in Hne|simpl; lia].
Qed.

Lemma decided_here s target dir v o :
  absolute dir = true → between s target dir → opinion s target dir = Some o →
  decided s target dir v (Some o).
Proof.
  intros Hd Hb Ho. split; [|intros Hnone; by rewrite (Hnone dir Hb) in Ho].
  intros d w Hbd Hp Hw Hlast. destruct (decide (d = dir)) as [->|Hne]; [congruence|].
  rewrite (Hlast dir) in Ho; [done..|]. apply prefix_shorter; [done|].
  intros Heq. apply Hne, path_eq; [destruct Hbd; congruence|done].
Qed.

Lemma decided_above s s1 target dir v v' :
  absolute dir = true → same_stack s s1 → opinion s target dir = None →
  decided s1 target {| absolute := absolute dir; names := removelast (names dir) |} v v' →
  decided s target dir v v'.
Proof.
  intros Hd Hs Eo [H1 H2]. cbn [names] in H1, H2.
  assert (Hup : ∀ d, names d `prefix_of` removelast (names dir) → names d `prefix_of` names dir)
    by (intros d Hp; etrans; [exact Hp|apply removelast_prefix]). split.
  - intros d w Hbd Hp Hw Hlast. assert (Hne : d ≠ dir) by (intros ->; congruence).
    apply (H1 d w); [by apply (between_same s s1)|by eapply between_above|by rewrite (opinion_same s s1)|].
    intros d' Hbd' Hp' Hlen. rewrite (opinion_same s s1) by done.
    apply Hlast; [by apply (between_same s s1) in Hbd'|by apply Hup|done].
  - intros Hnone. apply H2. intros d Hbd Hp. rewrite (opinion_same s s1) by done.
    apply Hnone; [by apply (between_same s s1) in Hbd|by apply Hup].
Qed.

Lemma same_stack_trans s s1 s2 : same_stack s s1 → same_stack s1 s2 → same_stack s s2.
Proof. intros (? & ? & ?) (? & ? & ?). split_and!; congruence. Qed.

Lemma stack_loop_spec fuel target dir v s :
  absolute (root s) = true → absolute dir = true → (length (names dir) < fuel)%nat →
  (∃ ns, ns ≠ [] ∧ names target = names dir ++ ns) → coherent s →
  (∀ d, between s target d → is_ok (level s d) = true) →
  ∃ v' s', stack_loop fs fuel target (Some dir) v s = Ok (v', s') ∧ same_stack s s' ∧
    coherent s' ∧ decided s target dir v v'.
Proof.
  revert dir s. induction fuel as [|fuel IH]; intros dir s Hr Hd Hf Ht Hc Hok; [lia|].
  cbn [stack_loop]. destruct (bool_decide (dir = root s) || negb (path_starts_with (root s) dir)) eqn:E.
  { exists v, s. split_and!; [done..|]. split; [|done].
    intros d w Hb Hp. by destruct (nothing_between s target dir d Hr E Hd Hb). }
  destruct (loop_continues s target dir Hr Hd E Ht) as [Hb Hnil].
  destruct (level s dir) as [m|] eqn:El; [|by specialize (Hok dir Hb); rewrite El in Hok].
  destruct (level_matcher_spec dir s m Hc El) as (s1 & -> & Hs & Hc1). cbn [result_bind fst snd].
  assert (Ho : (m ≫= λ m, check fs m target) = opinion s target dir)
    by (unfold opinion; rewrite El; by destruct m).
  rewrite Ho. destruct (opinion s target dir) as [o|] eqn:Eo.
  { exists (Some o), s1. split_and!; [done..|]. by apply decided_here. }
  destruct (parent dir) as [up|] eqn:Eup; [|by unfold parent in Eup; destruct (names dir)].
  apply parent_spec in Eup as [_ ->].
  destruct (IH {| absolute := absolute dir; names := removelast (names dir) |} s1)
    as (v' & s' & Hl & Hs' & Hc' & Hdec); [by destruct Hs as (-> & _)|done| | |done| |].
  - cbn [names]. rewrite removelast_length. destruct (names dir); [done|simpl in *; lia].
  - cbn [names]. destruct Ht as (k & Hk & Ht), (removelast_prefix (names dir)) as [x Hx].
    exists (x ++ k). split; [by intros [_ ?]%app_nil|]. by rewrite app_assoc, <- Hx.
  - intros d Hbd. pose proof Hs as (_ & Hf' & _). unfold level. rewrite Hf'. apply Hok.
    by apply (between_same s s1).
  - exists v', s'. split; [done|]. split; [by eapply same_stack_trans|]. split; [done|].
    by eapply decided_above.
Qed.

(** C39. The deepest directory with an opinion decides, the root matcher when there
    is none. The walk ends for every path, and the cache it fills holds what
    loading again would give. *)
Theorem deepest_opinion_decides p s :
  absolute (root s) = true → coherent s →
  let target := if absolute p then p else path_join (root s) p in
  (∀ d, between s target d → is_ok (level s d) = true) →
  ∃ b s', stack_is_ignored fs p s = Ok (b, s') ∧ same_stack s s' ∧ coherent s' ∧
    (∀ d w, between s target d → opinion s target d = Some w →
       (∀ d', between s target d' → (length (names d) < length (names d'))%nat →
          opinion s target d' = None) → b = w) ∧
    ((∀ d, between s target d → opinion s target d = None) →
       b = is_ignored fs (root_matcher s) target).
Proof.
  intros Hr Hc target Hok. unfold stack_is_ignored. fold target.
  assert (Ha : absolute target = true)
    by (unfold target, path_join; destruct (absolute p) eqn:E; [|rewrite ?E]; done).
  assert (Hpre : ∀ d dir, between s target d → parent target = Some dir → names d `prefix_of` names dir).
  { intros d dir (_ & _ & ns & Hns & E) [_ ->]%parent_spec. cbn [names]. rewrite E, removelast_app by done.
    by eexists. }
  destruct (parent target) as [dir|] eqn:Ep.
  - pose proof Ep as [Hne ->]%parent_spec.
    destruct (stack_loop_spec (S (length (names target))) target
      {| absolute := absolute target; names := removelast (names target) |} (check fs (root_matcher s) target) s)
      as (v' & s' & -> & Hs & Hc' & H1 & H2); [done|done| | |done|done|].
    + cbn [names]. rewrite removelast_length. lia.
    + cbn [names]. destruct (removelast_prefix (names target)) as [x Hx]. exists x. split; [|done].
      intros ->. apply (f_equal length) in Hx. rewrite app_nil_r, removelast_length in Hx.
      destruct (names target); [done|simpl in Hx; lia].
    + cbn [result_bind fst snd]. exists (default false v'), s'. split_and!; [done..| |].
      * intros d w Hb Hw Hlast. rewrite (H1 d w); [done|done|by apply Hpre|done|].
        intros d' Hb' _. by apply Hlast.
      * intros Hnone. rewrite H2; [done|]. intros d Hb _. by apply Hnone.
  - cbn [stack_loop result_bind fst snd]. exists (is_ignored fs (root_matcher s) target), s.
    assert (Hno : ∀ d, ¬ between s target d).
    { intros d (_ & _ & ns & Hns & E). unfold parent in Ep.
      destruct (names target); [|done]. symmetry in E. by apply app_nil in E as [_ ?]. }
    split_and!; [done..|by intros d w Hb; destruct (Hno d)|done].
Qed.

(** The verdict without a cache. *)
Fixpoint uncached_loop (fuel : nat) (s : IgnoreStack) (target : Path) (current : option Path)
    (verdict : option bool) : option bool :=
  match fuel, current with
  | S fuel, Some dir =>
      if bool_decide (dir = root s) || negb (path_starts_with (root s) dir) then verdict
      else match opinion s target dir with
           | Some o => Some o
           | None => uncached_loop fuel s target (parent dir) verdict
           end
  | _, _ => verdict
  end.

Definition uncached_verdict (s : IgnoreStack) (p : Path) : bool :=
  let target := if absolute p then p else path_join (root s) p in
  default false (uncached_loop (S (length (names target))) s target (parent target)
    (check fs (root_matcher s) target)).

Lemma uncached_loop_same fuel s s' target current v :
  same_stack s s' → uncached_loop fuel s' target current v = uncached_loop fuel s target current v.
Proof.
  intros Hs. revert current. induction fuel as [|fuel IH]; intros [dir|]; simpl; try done.
  rewrite (opinion_same s s') by done. destruct Hs as (-> & _). by rewrite IH.
Qed.

Lemma stack_loop_uncached fuel s target current v :
  coherent s → (∀ d, is_ok (level s d) = true) →
  ∃ s', stack_loop fs fuel target current v s = Ok (uncached_loop fuel s target current v, s') ∧
    same_stack s s' ∧ coherent s'.
Proof.
  revert s current. induction fuel as [|fuel IH]; intros s [dir|] Hc Hok; simpl; try by exists s.
  destruct (_ || _); [by exists s|].
  destruct (level s dir) as [m|] eqn:El; [|by specialize (Hok dir); rewrite El in Hok].
  destruct (level_matcher_spec dir s m Hc El) as (s1 & -> & Hs & Hc1). cbn [result_bind fst snd].
  assert (Ho : (m ≫= λ m, check fs m target) = opinion s target dir)
    by (unfold opinion; rewrite El; by destruct m).
  rewrite Ho. destruct (opinion s target dir); [by exists s1|].
  destruct (IH s1 (parent dir) Hc1) as (s' & E & Hs' & Hc').
  { intros d. unfold level. pose proof Hs as (_ & -> & _). apply Hok. }
  exists s'. rewrite E, (uncached_loop_same fuel s s1) by done.
  split_and!; [done|by eapply same_stack_trans|done].
Qed.

Lemma stack_is_ignored_uncached s p :
  coherent s → (∀ d, is_ok (level s d) = true) →
  ∃ s', stack_is_ignored fs p s = Ok (uncached_verdict s p, s') ∧ same_stack s s' ∧ coherent s'.
Proof.
  intros Hc Hok. unfold stack_is_ignored, uncached_verdict. set (target := if absolute p then _ else _).
  destruct (stack_loop_uncached (S (length (names target))) s target (parent target)
    (check fs (root_matcher s) target) Hc Hok) as (s' & -> & H). by exists s'.
Qed.

Lemma uncached_verdict_same s s' p :
  same_stack s s' → uncached_verdict s' p = uncached_verdict s p.
Proof.
  intros Hs. unfold uncached_verdict. rewrite (uncached_loop_same _ s s') by done.
  by destruct Hs as (-> & _ & ->).
Qed.

End stack.

(** ** Examples *)

Definition at_root (ns : list string) : Path := {| absolute := true; names := map lit ns |}.

(** A project with an ignore file of its own in one directory. *)
Definition demo_fs : Fs := {|
  is_dir := λ p, bool_decide (p ∈ [at_root ["proj"]; at_root ["proj"; "sub"]]);
  is_file := λ p, bool_decide (p = at_root ["proj"; "sub"; ".gitignore"]);
  path_exists := λ p, bool_decide (p = at_root ["proj"; "sub"; ".gitignore"]);
  read_to_string := λ p, if decide (p = at_root ["proj"; "sub"; ".gitignore"])
                         then Some (lit "!keep.log") else None
|}.

Definition demo_matcher (l : list string) : IgnoreMatcher :=
  match matcher_new (map lit l) (at_root ["proj"]) with
  | Ok m => m
  | Err _ => {| patterns := []; base_dir := at_root [] |}
  end.

Definition demo_stack : IgnoreStack :=
  stack_new (at_root ["proj"]) (demo_matcher ["*.log"]) [lit ".gitignore"].

Lemma demo_plain_name s :
  bool_decide (lit s ≠ [] ∧ (lit s ≠ lit "." ∧ lit s ≠ lit "..") ∧
    Forall (λ c, (c ≠ star ∧ c ≠ question) ∧ c ≠ slash ∧ c ≠ backslash ∧ c ≠ bang ∧ c ≠ hash ∧
      is_whitespace c = false) (lit s)) = true → plain_name (lit s).
Proof. intros H. by apply bool_decide_eq_true in H. Qed.

Lemma demo_path_ok s1 s2 :
  bool_decide (lit s1 ≠ [] ∧ lit s1 ≠ lit "." ∧ slash ∉ lit s1) = true →
  bool_decide (lit s2 ≠ [] ∧ lit s2 ≠ lit "." ∧ slash ∉ lit s2) = true →
  path_ok (path [s1; s2]).
Proof.
  intros H1 H2. apply Forall_cons. split; [by apply name_ok_lit|].
  apply Forall_singleton. by apply name_ok_lit.
Qed.

(** In a directory with [/x] ignored, [!/x] also brings back [sub/x]. *)
Example exception_reaches_below :
  check demo_fs (demo_matcher ["x"; "!/x"]) (path ["sub"; "x"]) = Some false ∧
  check demo_fs (demo_matcher ["x"; "/x"]) (path ["sub"; "x"]) = Some true ∧
  is_ok (matcher_new (map lit ["*.log"; "/"]) (at_root ["proj"])) = false.
Proof. by vm_compute. Qed.

Theorem plain_name_matches_component_witness :
  ∃ q, parse (lit "target") = Ok (Some q) ∧ matches_pattern (path ["target"; "a.rs"]) q = true.
Proof.
  assert (Hl : plain_name (lit "target")) by (by apply demo_plain_name).
  pose proof (parse_written false false (lit "target") Hl) as Hq.
  eexists. split; [exact Hq|].
  apply (plain_name_matches_component (lit "target") (path ["target"; "a.rs"]) _ Hl); [| |exact Hq|by left].
  - by apply demo_path_ok.
  - apply (bool_decide_unpack _). reflexivity.
Defined.

Theorem negated_anchor_is_lost_witness :
  ∃ q', parse (lit "!/x") = Ok (Some q') ∧ matches_pattern (path ["sub"; "x"]) q' = true.
Proof.
  assert (Hl : plain_name (lit "x")) by (by apply demo_plain_name).
  pose proof (parse_written false true (lit "x") Hl) as Hq.
  pose proof (parse_written true true (lit "x") Hl) as Hq'.
  eexists. split; [exact Hq'|].
  apply (negated_anchor_is_lost (lit "x") (path ["sub"; "x"]) _ _ Hl (demo_path_ok "sub" "x" eq_refl eq_refl) Hq Hq').
  by right.
Defined.

Lemma demo_coherent : coherent demo_fs demo_stack.
Proof.
  intros d m. change (levels demo_stack) with (∅ : Levels). by rewrite lookup_empty.
Qed.

Lemma demo_level d : is_ok (level demo_fs demo_stack d) = true.
Proof.
  unfold level. change (filenames demo_stack) with [lit ".gitignore"]. cbn [merge_files].
  unfold merge_file. cbn [is_file demo_fs]. case_bool_decide as E; [rewrite E|]; reflexivity.
Qed.

Theorem deepest_opinion_decides_witness :
  ∃ s', stack_is_ignored demo_fs (path ["sub"; "keep.log"]) demo_stack = Ok (false, s').
Proof.
  destruct (deepest_opinion_decides demo_fs (path ["sub"; "keep.log"]) demo_stack eq_refl demo_coherent)
    as (b & s' & E & _ & _ & H & _); [intros d _; apply demo_level|].
  exists s'. rewrite E. f_equal. f_equal. apply (H (at_root ["proj"; "sub"])).
  - split_and!; [done|by exists [lit "sub"]|by exists [lit "keep.log"]].
  - reflexivity.
  - intros d' (_ & _ & ns & Hns & Hd) Hlen. exfalso. apply (f_equal length) in Hd.
    rewrite length_app in Hd. destruct ns; [done|]. simpl in Hd, Hlen. lia.
Defined.

End Ignore.
