(* ===== verification/PatternMatcher.v ===== *)
(** * Which files a scan takes

    Models crates/infra/cce-scanner/src/pattern_matcher.rs, the decision from
    include patterns, exclude patterns and ignore files with its memo of
    verdicts, and the helpers of filter.rs. The memo and the cache of the
    ignore stack are state that every query threads. *)

From S2P Require Import Prelude Str FsPath Glob Ignore.
From Stdlib Require Import ZArith Lia.
#[local] Open Scope Z_scope.

Module PatternMatcher.
Import Str FsPath Glob Ignore.
#[local] Open Scope result_scope.

Record PatternLoadOptions := {
  o_include_patterns : list str;
  o_exclude_patterns : list str;
  o_respect_gitignore : bool;
  o_gitignore_patterns : list str;
  o_gitignore_path : option Path
}.

(** The failure to read an ignore file; the text of the message is left out. *)
Inductive LoadError := FailedToLoad (p : Path).

Record PatternMatcher := {
  include_patterns : list Glob;
  exclude_patterns : list Glob;
  gitignore : option IgnoreMatcher;
  ignore_stack : option IgnoreStack;
  dropped_globs : list str;
  ignore_load_error : option LoadError;
  ignore_cache : gmap Path bool
}.

Fixpoint compile_globs (kind : str) (l : list str) : list Glob * list str :=
  match l with
  | [] => ([], [])
  | p :: l =>
      let '(compiled, dropped) := compile_globs kind l in
      match glob_new p with
      | Ok g => (g :: compiled, dropped)
      | Err _ => (compiled, (kind ++ lit ":" ++ p) :: dropped)
      end
  end.

Definition with_gitignore (include exclude : list str) (g : option IgnoreMatcher) : PatternMatcher :=
  let '(inc, dropped) := compile_globs (lit "include") include in
  let '(exc, dropped_exclude) := compile_globs (lit "exclude") exclude in
  {| include_patterns := inc; exclude_patterns := exc; gitignore := g; ignore_stack := None;
     dropped_globs := dropped ++ dropped_exclude; ignore_load_error := None; ignore_cache := ∅ |}.

Definition new (include exclude : list str) : PatternMatcher := with_gitignore include exclude None.

Definition load_file (fs : Fs) (opts : PatternLoadOptions) (root_path : Path)
    : result (option IgnoreMatcher * option LoadError) Panic :=
  if o_respect_gitignore opts then
    let ignore_path := match o_gitignore_path opts with
                       | Some p => p
                       | None => path_join root_path (of_name (lit ".gitignore"))
                       end in
    if path_exists fs ignore_path then
      m <-? from_file fs ignore_path;
      Ok (match m with
          | Some file_matcher => (Some file_matcher, None)
          | None => (None, Some (FailedToLoad ignore_path))
          end)
    else Ok (None, None)
  else Ok (None, None).

Definition load_ignore (fs : Fs) (opts : PatternLoadOptions) (root_path : Path)
    : result (option IgnoreMatcher * option LoadError) Panic :=
  if negb (o_respect_gitignore opts) && bool_decide (o_gitignore_patterns opts = []) then Ok (None, None)
  else
    r <-? load_file fs opts root_path;
    match o_gitignore_patterns opts with
    | [] => Ok r
    | custom =>
        custom_matcher <-? matcher_new custom root_path;
        Ok (match r.1 with
            | Some m => (Some (merge m custom_matcher), r.2)
            | None => (Some custom_matcher, r.2)
            end)
    end.

Definition from_options (fs : Fs) (opts : PatternLoadOptions) (root_path : Path)
    : result PatternMatcher Panic :=
  r <-? load_ignore fs opts root_path;
  let matcher := with_gitignore (o_include_patterns opts) (o_exclude_patterns opts) r.1 in
  stack <-? (if o_respect_gitignore opts then
               root <-? match r.1 with
                        | Some m => Ok m
                        | None => matcher_new [] root_path
                        end;
               Ok (Some (stack_new root_path root [lit ".gitignore"]))
             else Ok None);
  Ok {| include_patterns := include_patterns matcher; exclude_patterns := exclude_patterns matcher;
        gitignore := gitignore matcher; ignore_stack := stack;
        dropped_globs := dropped_globs matcher; ignore_load_error := r.2;
        ignore_cache := ignore_cache matcher |}.

(** Writing the state of the two caches. *)
Definition with_state (cache : gmap Path bool) (stack : option IgnoreStack) (m : PatternMatcher)
    : PatternMatcher :=
  {| include_patterns := include_patterns m; exclude_patterns := exclude_patterns m;
     gitignore := gitignore m; ignore_stack := stack; dropped_globs := dropped_globs m;
     ignore_load_error := ignore_load_error m; ignore_cache := cache |}.

Definition compute_verdict (fs : Fs) (p : Path) (m : PatternMatcher)
    : result (bool * option IgnoreStack) Panic :=
  match ignore_stack m with
  | Some stack => r <-? stack_is_ignored fs p stack; Ok (r.1, Some r.2)
  | None =>
      match gitignore m with
      | Some matcher => Ok (is_ignored fs matcher p, None)
      | None => Ok (false, None)
      end
  end.

Definition is_ignored_cached (fs : Fs) (p : Path) (m : PatternMatcher)
    : result (bool * PatternMatcher) Panic :=
  match ignore_cache m !! p with
  | Some verdict => Ok (verdict, m)
  | None =>
      r <-? compute_verdict fs p m;
      Ok (r.1, with_state (<[p := r.1]> (ignore_cache m)) r.2 m)
  end.

Definition match_any (p : Path) (globs : list Glob) : bool := existsb (λ g, is_match g p) globs.

Definition has_ignores (m : PatternMatcher) : bool :=
  bool_decide (is_Some (gitignore m)) || bool_decide (is_Some (ignore_stack m)).

(** The walk over the parent directories. *)
Fixpoint parents_ignored (fs : Fs) (fuel : nat) (current : option Path) (m : PatternMatcher)
    : result (bool * PatternMatcher) Panic :=
  match fuel, current with
  | S fuel, Some dir =>
      r <-? is_ignored_cached fs dir m;
      if r.1 then Ok (true, r.2) else parents_ignored fs fuel (parent dir) r.2
  | _, _ => Ok (false, m)
  end.

Definition should_include_file (fs : Fs) (p : Path) (m : PatternMatcher)
    : result (bool * PatternMatcher) Panic :=
  if negb (bool_decide (include_patterns m = [])) && negb (match_any p (include_patterns m))
  then Ok (false, m)
  else if match_any p (exclude_patterns m) then Ok (false, m)
  else if has_ignores m then
    r <-? is_ignored_cached fs p m;
    if r.1 then Ok (false, r.2)
    else
      r <-? parents_ignored fs (S (length (names p))) (parent p) r.2;
      Ok (negb r.1, r.2)
  else Ok (true, m).

Definition should_exclude_dir (fs : Fs) (p : Path) (m : PatternMatcher)
    : result (bool * PatternMatcher) Panic :=
  if match_any p (exclude_patterns m) then Ok (true, m)
  else if has_ignores m then is_ignored_cached fs p m
  else Ok (false, m).

Definition include_pattern_count (m : PatternMatcher) : nat := length (include_patterns m).
Definition exclude_pattern_count (m : PatternMatcher) : nat := length (exclude_patterns m).
Definition gitignore_pattern_count (m : PatternMatcher) : nat :=
  default O (pattern_count <$> gitignore m).
Definition invalid_gitignore_patterns (m : PatternMatcher) : nat :=
  default O (invalid_pattern_count <$> gitignore m).

(** ** filter.rs *)

Section filter.
(** [char::to_lowercase] of Unicode. *)
Context (to_lowercase : str → str).

Definition nonempty_trimmed (l : list str) : list str :=
  retain (λ s, negb (bool_decide (s = []))) (map trim l).

Definition is_comma (c : char) : bool := c =? 44.

Definition parse_extension_filter (csv : str) : list str :=
  map (λ s, to_lowercase (trim_start_matches is_dot s)) (nonempty_trimmed (split_on is_comma csv)).

Definition parse_exclude_filter (csv : str) : list str := nonempty_trimmed (split_on is_comma csv).

Definition scan_include_patterns (extensions : list str) : list str :=
  map (λ ext, lit "*." ++ to_lowercase (trim_start_matches is_dot ext)) (nonempty_trimmed extensions).

Definition scan_exclude_patterns (exclude_dirs : list str) : list str := nonempty_trimmed exclude_dirs.

Inductive ScanFileDecision := Keep | Oversize | Binary | Filtered.

Definition extension_matches (p : Path) (wanted : list str) : bool :=
  if bool_decide (wanted = []) then true
  else bool_decide (default [] (to_lowercase <$> extension p) ∈ wanted).

Definition classify_scan_file (size : Z) (is_text : bool) (p : Path) (wanted : list str) (max_bytes : Z)
    : ScanFileDecision :=
  if max_bytes <? size then Oversize
  else if negb is_text then Binary
  else if negb (extension_matches p wanted) then Filtered
  else Keep.

End filter.

(** ** Decisions *)

Section decision.
Context (fs : Fs).

(** The verdict without memo and cache. *)
Definition verdict (m : PatternMatcher) (p : Path) : bool :=
  match ignore_stack m with
  | Some stack => uncached_verdict fs stack p
  | None => match gitignore m with Some matcher => is_ignored fs matcher p | None => false end
  end.

(** No ignore file below the root holds a pattern that panics, and memo and
    cache hold what computing again would give. *)
Record matcher_ok (m : PatternMatcher) : Prop := {
  ok_memo : ∀ p b, ignore_cache m !! p = Some b → verdict m p = b;
  ok_stack : ∀ s, ignore_stack m = Some s → coherent fs s ∧ ∀ d, is_ok (level fs s d) = true
}.

(** Queries change memo and cache only. *)
Definition same_stacks (s s' : option IgnoreStack) : Prop :=
  match s, s' with
  | Some s, Some s' => same_stack s s'
  | None, None => True
  | _, _ => False
  end.
Record same_matcher (m m' : PatternMatcher) : Prop := {
  same_include : include_patterns m' = include_patterns m;
  same_exclude : exclude_patterns m' = exclude_patterns m;
  same_gitignore : gitignore m' = gitignore m;
  same_ignore_stack : same_stacks (ignore_stack m) (ignore_stack m')
}.

Lemma same_matcher_refl m : same_matcher m m.
Proof. split; try done. by destruct (ignore_stack m). Qed.

Lemma same_matcher_trans m m1 m2 : same_matcher m m1 → same_matcher m1 m2 → same_matcher m m2.
Proof.
  intros [? ? ? H1] [? ? ? H2]. split; [congruence..|].
  destruct (ignore_stack m), (ignore_stack m1), (ignore_stack m2); try done.
  by eapply same_stack_trans.
Qed.

Lemma verdict_same m m' p : same_matcher m m' → verdict m' p = verdict m p.
Proof.
  intros [_ _ Hg Hs]. unfold verdict. rewrite Hg.
  destruct (ignore_stack m), (ignore_stack m'); try done. by apply uncached_verdict_same.
Qed.

Lemma has_ignores_same m m' : same_matcher m m' → has_ignores m' = has_ignores m.
Proof.
  intros [_ _ Hg Hs]. unfold has_ignores. rewrite Hg.
  by destruct (ignore_stack m), (ignore_stack m').
Qed.

Lemma compute_verdict_spec m p :
  matcher_ok m →
  ∃ stack, compute_verdict fs p m = Ok (verdict m p, stack) ∧ same_stacks (ignore_stack m) stack ∧
    ∀ s, stack = Some s → coherent fs s ∧ ∀ d, is_ok (level fs s d) = true.
Proof.
  intros [_ Hs]. unfold compute_verdict, verdict. destruct (ignore_stack m) as [s|].
  - destruct (Hs s eq_refl) as [Hc Hok].
    destruct (stack_is_ignored_uncached fs s p Hc Hok) as (s' & -> & Hsame & Hc').
    cbn [result_bind fst snd]. exists (Some s'). split_and!; [done..|].
    intros s1 [= <-]. split; [done|]. intros d. unfold level. destruct Hsame as (_ & -> & _). apply Hok.
  - destruct (gitignore m); by exists None.
Qed.

Lemma is_ignored_cached_spec m p :
  matcher_ok m →
  ∃ m', is_ignored_cached fs p m = Ok (verdict m p, m') ∧ same_matcher m m' ∧ matcher_ok m'.
Proof.
  intros Hm. unfold is_ignored_cached. destruct (ignore_cache m !! p) as [b|] eqn:E.
  { exists m. rewrite (ok_memo m Hm p b E). split_and!; [done|by apply same_matcher_refl|done]. }
  destruct (compute_verdict_spec m p Hm) as (stack & -> & Hs & Hok). cbn [result_bind fst snd].
  eexists. split; [done|].
  assert (Hsame : same_matcher m (with_state (<[p:=verdict m p]> (ignore_cache m)) stack m)) by (by split).
  split; [done|]. split; [|done]. intros q b. rewrite (verdict_same m (with_state _ stack m)) by done.
  cbn [ignore_cache with_state]. intros [[<- <-]|[_ H]]%lookup_insert_Some; [done|by apply (ok_memo m Hm)].
Qed.

Lemma ancestors_unfold p :
  ancestors p = p :: match parent p with Some q => ancestors q | None => [] end.
Proof.
  unfold ancestors. cbn [ancestors_from]. f_equal. destruct (parent p) as [q|] eqn:E; [|done].
  apply parent_spec in E as [Hne ->]. cbn [names]. rewrite removelast_length.
  by destruct (names p).
Qed.

(** The paths the walk from [current] asks about. *)
Definition above (current : option Path) : list Path :=
  match current with Some dir => ancestors dir | None => [] end.

Lemma elem_of_ancestors p a : a ∈ ancestors p ↔ a = p ∨ a ∈ above (parent p).
Proof. rewrite ancestors_unfold, elem_of_cons. by destruct (parent p). Qed.

Lemma parents_ignored_spec fuel current m :
  matcher_ok m → (∀ dir, current = Some dir → (length (names dir) < fuel)%nat) →
  ∃ b m', parents_ignored fs fuel current m = Ok (b, m') ∧ same_matcher m m' ∧ matcher_ok m' ∧
    (b = false ↔ ∀ a, a ∈ above current → verdict m a = false).
Proof.
  revert current m. induction fuel as [|fuel IH]; intros [dir|] m Hm Hf; simpl;
    [specialize (Hf dir eq_refl); lia| | |];
    try (exists false, m; split_and!; [done|by apply same_matcher_refl|done|];
         split; [by intros _ a ?%elem_of_nil|done]).
  setoid_rewrite elem_of_ancestors.
  destruct (is_ignored_cached_spec m dir Hm) as (m1 & -> & Hs1 & Hm1). cbn [result_bind fst snd].
  destruct (verdict m dir) eqn:Ev.
  { exists true, m1. split_and!; [done..|]. split; [done|]. intros Hx.
    rewrite Hx in Ev; [done|]. by left. }
  destruct (IH (parent dir) m1 Hm1) as (b & m2 & -> & Hs2 & Hm2 & Hb).
  { intros up [Hne ->]%parent_spec. specialize (Hf dir eq_refl). cbn [names]. rewrite removelast_length.
    destruct (names dir); [done|simpl in *; lia]. }
  exists b, m2. split_and!; [done|by eapply same_matcher_trans|done|]. rewrite Hb. split.
  - intros Hx a [->|Ha]; [done|]. rewrite <- (verdict_same m m1) by done. by apply Hx.
  - intros Hx a Ha. rewrite (verdict_same m m1) by done. apply Hx. by right.
Qed.

Lemma match_any_spec p l : match_any p l = true ↔ ∃ g, g ∈ l ∧ is_match g p = true.
Proof. unfold match_any. rewrite existsb_exists. by setoid_rewrite <- list_elem_of_In. Qed.

Lemma match_any_false p l : match_any p l = false ↔ ∀ g, g ∈ l → is_match g p = false.
Proof.
  rewrite <- not_true_iff_false, match_any_spec. split.
  - intros H g Hg. apply not_true_iff_false. eauto.
  - intros H (g & Hg & Hp). by rewrite H in Hp.
Qed.

(** The include test fails when there are patterns and none matches. *)
Lemma include_test_spec p l :
  negb (bool_decide (l = [])) && negb (match_any p l) = false ↔
  l = [] ∨ ∃ g, g ∈ l ∧ is_match g p = true.
Proof.
  rewrite <- match_any_spec. destruct (match_any p l); simpl; [rewrite andb_false_r; naive_solver|].
  rewrite andb_true_r, negb_false_iff, bool_decide_eq_true. naive_solver.
Qed.

Lemma no_verdict_without_ignores m a : has_ignores m = false → verdict m a = false.
Proof.
  unfold has_ignores, verdict. intros [Hg Hs]%orb_false_iff.
  by destruct (ignore_stack m), (gitignore m).
Qed.

Lemma ignored_spec m p :
  matcher_ok m →
  ∃ b m', (r <-? is_ignored_cached fs p m;
           if r.1 then Ok (false, r.2)
           else r <-? parents_ignored fs (S (length (names p))) (parent p) r.2;
                Ok (negb r.1, r.2)) = Ok (b, m') ∧ same_matcher m m' ∧ matcher_ok m' ∧
    (b = true ↔ ∀ a, a ∈ ancestors p → verdict m a = false).
Proof.
  intros Hm. setoid_rewrite elem_of_ancestors.
  destruct (is_ignored_cached_spec m p Hm) as (m1 & -> & Hs1 & Hm1). cbn [result_bind fst snd].
  destruct (verdict m p) eqn:Ev.
  { exists false, m1. split_and!; [done..|]. split; [done|]. intros Hx. rewrite Hx in Ev; [done|by left]. }
  destruct (parents_ignored_spec (S (length (names p))) (parent p) m1 Hm1) as (b & m2 & -> & Hs2 & Hm2 & Hb).
  { intros dir [_ ->]%parent_spec. cbn [names]. rewrite removelast_length. lia. }
  exists (negb b), m2. split_and!; [done|by eapply same_matcher_trans|done|].
  rewrite negb_true_iff, Hb. split.
  - intros Hx a [->|Ha]; [done|]. rewrite <- (verdict_same m m1) by done. by apply Hx.
  - intros Hx a Ha. rewrite (verdict_same m m1) by done. apply Hx. by right.
Qed.

(** A file is taken when it matches an include pattern or there is none,
    matches no exclude pattern, and neither it nor a directory above it is
    ignored; the memo and the caches make no difference, and the answer comes
    for every path. *)
Lemma include_decision_spec m p :
  matcher_ok m →
  ∃ b m', should_include_file fs p m = Ok (b, m') ∧ same_matcher m m' ∧ matcher_ok m' ∧
    (b = true ↔
     (include_patterns m = [] ∨ ∃ g, g ∈ include_patterns m ∧ is_match g p = true) ∧
     (∀ g, g ∈ exclude_patterns m → is_match g p = false) ∧
     (∀ a, a ∈ ancestors p → verdict m a = false)).
Proof.
  intros Hm. unfold should_include_file. setoid_rewrite <- include_test_spec. setoid_rewrite <- match_any_false.
  destruct (negb _ && _) eqn:Ei.
  { exists false, m. split_and!; [done|by apply same_matcher_refl|done|]. naive_solver. }
  destruct (match_any p (exclude_patterns m)) eqn:Ee.
  { exists false, m. split_and!; [done|by apply same_matcher_refl|done|]. naive_solver. }
  destruct (has_ignores m) eqn:Eh.
  - destruct (ignored_spec m p Hm) as (b & m' & -> & Hs & Hm' & Hb).
    exists b, m'. split_and!; [done..|]. rewrite Hb. naive_solver.
  - exists true, m. split_and!; [done|by apply same_matcher_refl|done|].
    split; [|done]. intros _. split_and!; [done..|]. intros a _. by apply no_verdict_without_ignores.
Qed.

(** ** A scan *)

Inductive query_step : PatternMatcher → PatternMatcher → Prop :=
| file_query p b m m' : should_include_file fs p m = Ok (b, m') → query_step m m'
| dir_query p b m m' : should_exclude_dir fs p m = Ok (b, m') → query_step m m'.

Lemma should_exclude_dir_spec m p :
  matcher_ok m →
  ∃ b m', should_exclude_dir fs p m = Ok (b, m') ∧ same_matcher m m' ∧ matcher_ok m' ∧
    (b = true ↔ (∃ g, g ∈ exclude_patterns m ∧ is_match g p = true) ∨ verdict m p = true).
Proof.
  intros Hm. unfold should_exclude_dir. setoid_rewrite <- match_any_spec.
  destruct (match_any p (exclude_patterns m)).
  { exists true, m. split_and!; [done|by apply same_matcher_refl|done|]. naive_solver. }
  destruct (has_ignores m) eqn:E.
  - destruct (is_ignored_cached_spec m p Hm) as (m' & -> & Hs & Hm').
    exists (verdict m p), m'. split_and!; [done..|]. naive_solver.
  - exists false, m. split_and!; [done|by apply same_matcher_refl|done|].
    rewrite no_verdict_without_ignores by done. naive_solver.
Qed.

(** No directory has an ignore file that panics. *)
Definition readable_levels : Prop :=
  ∀ d, is_ok (merge_files fs d [lit ".gitignore"] None) = true.

Lemma from_options_ok opts root_path m :
  readable_levels → from_options fs opts root_path = Ok m → matcher_ok m.
Proof.
  intros Hl. unfold from_options. destruct (load_ignore fs opts root_path) as [[g e]|]; [|done].
  cbn [result_bind fst snd]. intros H.
  assert (Hm : ignore_cache m = ∅ ∧ ∀ s, ignore_stack m = Some s →
    levels s = ∅ ∧ filenames s = [lit ".gitignore"]).
  { unfold with_gitignore in H. destruct (compile_globs (lit "include") _), (compile_globs (lit "exclude") _).
    destruct (o_respect_gitignore opts), g; cbn in H; injection H as <-; cbn;
      (split; [done|]; intros s Hs; by simplify_eq). }
  destruct Hm as [Hc Hs]. split.
  - intros p b. rewrite Hc. by rewrite lookup_empty.
  - intros s Es. destruct (Hs s Es) as [El Ef]. split.
    + intros d o. rewrite El. by rewrite lookup_empty.
    + intros d. unfold level. rewrite Ef. apply Hl.
Qed.

Lemma queries_ok m m' :
  rtc query_step m m' → matcher_ok m → same_matcher m m' ∧ matcher_ok m'.
Proof.
  induction 1 as [m|m m1 m' Hstep _ IH]; intros Hm; [by split; [apply same_matcher_refl|]|].
  assert (H1 : same_matcher m m1 ∧ matcher_ok m1).
  { destruct Hstep as [p b m m1 E|p b m m1 E].
    - destruct (include_decision_spec m p Hm) as (b' & m2 & E' & Hs & Hm2 & _).
      rewrite E in E'. by injection E' as <- <-.
    - destruct (should_exclude_dir_spec m p Hm) as (b' & m2 & E' & Hs & Hm2 & _).
      rewrite E in E'. by injection E' as <- <-. }
  destruct H1 as [Hs1 Hm1]. destruct (IH Hm1) as [Hs2 Hm2]. split; [by eapply same_matcher_trans|done].
Qed.

(** C14. At any time of a scan a file is taken exactly when it matches an include
    pattern or there is none, matches no exclude pattern, and neither it nor a
    directory above it is ignored; the memo and the cache that earlier queries
    have filled make no difference, and every query is answered. *)
Theorem scan_decisions opts root_path m0 m p :
  readable_levels → from_options fs opts root_path = Ok m0 → rtc query_step m0 m →
  ∃ b m', should_include_file fs p m = Ok (b, m') ∧
    (b = true ↔
     (include_patterns m0 = [] ∨ ∃ g, g ∈ include_patterns m0 ∧ is_match g p = true) ∧
     (∀ g, g ∈ exclude_patterns m0 → is_match g p = false) ∧
     (∀ a, a ∈ ancestors p → verdict m0 a = false)).
Proof.
  intros Hl Hm0 Hq. destruct (queries_ok m0 m Hq) as [Hs Hm]; [by eapply from_options_ok|].
  destruct (include_decision_spec m p Hm) as (b & m' & E & _ & _ & Hb).
  exists b, m'. split; [done|]. rewrite Hb.
  rewrite (same_include _ _ Hs), (same_exclude _ _ Hs).
  assert (Hv : ∀ a, verdict m a = verdict m0 a) by (intros a; by apply verdict_same).
  by setoid_rewrite Hv.
Qed.

End decision.

(** ** Everything but *)

Lemma parse_star : parse (lit "*") =
  Ok (Some {| original := lit "*"; negated := false; dir_only := false; anchored := false;
              glob := Some {| tokens := [Wildcard]; is_recursive := false; is_anchored := false |} |}).
Proof. reflexivity. Qed.

Definition star_pattern : Pattern :=
  {| original := lit "*"; negated := false; dir_only := false; anchored := false;
     glob := Some {| tokens := [Wildcard]; is_recursive := false; is_anchored := false |} |}.
Definition exception (l : str) : Pattern :=
  {| original := written true false l; negated := true; dir_only := false; anchored := false;
     glob := Some {| tokens := [Literal l]; is_recursive := false; is_anchored := false |} |}.

(** The root of the project, as the scan names it. *)
Definition scan_root : Path := {| absolute := false; names := [] |}.

Lemma parse_exceptions (ls : list str) :
  Forall plain_name ls → parse_all (map (λ l, lit "!" ++ l) ls) = Ok (map exception ls).
Proof.
  induction 1 as [|l ls Hl _ IH]; [done|]. cbn [map parse_all].
  change (lit "!" ++ l) with (written true false l).
  assert (Ht : trim (written true false l) = written true false l).
  { apply trim_none. apply Forall_cons. split; [done|]. destruct Hl as (_ & _ & H).
    eapply Forall_impl; [exact H|]. intros c Hc. apply Hc. }
  rewrite Ht. change (is_comment (written true false l)) with false. cbn match.
  rewrite parse_written, IH by done. done.
Qed.

Lemma star_matcher (ls : list str) base :
  Forall plain_name ls →
  matcher_new (lit "*" :: map (λ l, lit "!" ++ l) ls) base =
    Ok {| patterns := star_pattern :: map exception ls; base_dir := base |}.
Proof.
  intros Hl. unfold matcher_new. cbn [parse_all]. change (trim (lit "*")) with (lit "*").
  change (is_comment (lit "*")) with false. cbn match. rewrite parse_star. cbn [result_bind].
  by rewrite parse_exceptions.
Qed.

Lemma exception_not_root l : plain_name l → matches_pattern scan_root (exception l) = false.
Proof.
  intros Hl. unfold matches_pattern, exception. cbn [glob anchored original].
  assert (Hm : is_match {| tokens := [Literal l]; is_recursive := false; is_anchored := false |} scan_root = false).
  { apply not_true_iff_false. rewrite (is_match_name _ l) by (done || constructor). by intros [?|[_ ?]]. }
  rewrite Hm. destruct (negb _); [|done]. reflexivity.
Qed.

Lemma exception_matches l : plain_name l → matches_pattern (of_name l) (exception l) = true.
Proof.
  intros Hl. unfold matches_pattern, exception. cbn [glob anchored original].
  assert (Hm : is_match {| tokens := [Literal l]; is_recursive := false; is_anchored := false |} (of_name l) = true).
  { apply (is_match_name _ l); [|done|done|by left]. apply Forall_singleton.
    split_and!; [apply Hl..|by apply plain_name_no_slash]. }
  by rewrite Hm.
Qed.

Lemma exceptions_fold p dir acc ls :
  foldl (check_pattern p dir) acc (map exception ls) =
  if existsb (λ l, matches_pattern p (exception l)) ls then Some false else acc.
Proof.
  revert acc. induction ls as [|l ls IH]; intros acc; [done|]. cbn [map foldl existsb]. rewrite IH.
  unfold check_pattern. cbn [dir_only exception negated andb negb].
  by destruct (matches_pattern p (exception l)), (existsb _ ls).
Qed.

(** An ignore file that ignores everything and then makes exceptions: the file
    of an exception is not ignored, but the root is, as the path above every
    file, so no file is taken. *)
Theorem exceptions_to_everything_are_lost fs (ls : list str) base g l p :
  Forall plain_name ls → l ∈ ls → absolute base = true →
  matcher_new (lit "*" :: map (λ l, lit "!" ++ l) ls) base = Ok g →
  let m := with_gitignore [] [] (Some g) in
  is_ignored fs g (of_name l) = false ∧
  (absolute p = false → ∃ m', should_include_file fs p m = Ok (false, m')).
Proof.
  intros Hls Hl Hb Hg m. rewrite star_matcher in Hg by done. injection Hg as <-.
  rewrite Forall_forall in Hls.
  assert (Hrel : ∀ ns, strip_prefix base {| absolute := false; names := ns |} = None)
    by (intros ns; unfold strip_prefix; by rewrite Hb).
  split.
  - unfold is_ignored, check, relative_path. cbn [base_dir patterns foldl].
    rewrite (Hrel [l] : strip_prefix base (of_name l) = None), exceptions_fold. cbn [default].
    assert (existsb (λ l', matches_pattern (of_name l) (exception l')) ls = true) as ->; [|done].
    apply existsb_exists. exists l. rewrite <- list_elem_of_In. split; [done|]. by apply exception_matches, Hls.
  - intros Hp. destruct (include_decision_spec fs m p) as (b & m' & E & _ & _ & Hx).
    { split; [|done]. intros q b. unfold m, with_gitignore. simpl. by rewrite lookup_empty. }
    exists m'. rewrite E. f_equal. f_equal. apply not_true_iff_false. intros ->.
    destruct (proj1 Hx eq_refl) as (_ & _ & Hv). specialize (Hv scan_root).
    rewrite <- not_true_iff_false in Hv. apply Hv.
    + apply ancestors_spec. split; [done|apply prefix_nil].
    + unfold verdict, is_ignored, check, relative_path. cbn [ignore_stack gitignore with_gitignore m
        compile_globs base_dir patterns foldl].
      rewrite (Hrel [] : strip_prefix base scan_root = None), exceptions_fold. cbn [default].
      assert (existsb (λ l', matches_pattern scan_root (exception l')) ls = false) as ->; [|done].
      apply not_true_iff_false. rewrite existsb_exists. intros (k & Hk%list_elem_of_In & Hm).
      by rewrite exception_not_root in Hm by by apply Hls.
Qed.

(** ** Examples *)

Definition demo_options : PatternLoadOptions :=
  {| o_include_patterns := []; o_exclude_patterns := [lit "*.tmp"]; o_respect_gitignore := true;
     o_gitignore_patterns := [lit "*.log"]; o_gitignore_path := None |}.

Definition demo_root : Path := at_root ["proj"].
Definition demo_pattern_matcher : PatternMatcher :=
  match from_options demo_fs demo_options demo_root with Ok m => m | Err _ => new [] [] end.

Lemma demo_levels : readable_levels demo_fs.
Proof.
  intros d. cbn [merge_files]. unfold merge_file. cbn [is_file demo_fs].
  case_bool_decide as E; [rewrite E|]; reflexivity.
Qed.

Theorem scan_decisions_witness :
  ∃ m', should_include_file demo_fs (path ["sub"; "keep.log"]) demo_pattern_matcher = Ok (true, m').
Proof.
  destruct (scan_decisions demo_fs demo_options demo_root demo_pattern_matcher demo_pattern_matcher
    (path ["sub"; "keep.log"]) demo_levels eq_refl (rtc_refl _ _)) as (b & m' & E & Hb).
  exists m'. rewrite E. f_equal. f_equal. apply Hb. split_and!; [by left| |].
  - change (exclude_patterns demo_pattern_matcher) with [compiled "*.tmp"].
    intros g ->%list_elem_of_singleton. reflexivity.
  - change (ancestors (path ["sub"; "keep.log"])) with [path ["sub"; "keep.log"]; path ["sub"]; path []].
    intros a Ha. repeat (apply elem_of_cons in Ha as [->|Ha]; [by vm_compute|]). by apply elem_of_nil in Ha.
Defined.

Theorem exceptions_to_everything_are_lost_witness :
  ∃ g m', matcher_new (map lit ["*"; "!main"]) demo_root = Ok g ∧
    is_ignored demo_fs g (of_name (lit "main")) = false ∧
    should_include_file demo_fs (of_name (lit "main")) (with_gitignore [] [] (Some g)) = Ok (false, m').
Proof.
  assert (Hl : plain_name (lit "main")) by (by apply demo_plain_name).
  eexists. destruct (exceptions_to_everything_are_lost demo_fs [lit "main"] demo_root
    {| patterns := [star_pattern; exception (lit "main")]; base_dir := demo_root |} (lit "main")
    (of_name (lit "main"))) as [H1 H2].
  - by apply Forall_singleton.
  - by left.
  - done.
  - reflexivity.
  - destruct (H2 eq_refl) as [m' E]. exists m'. split; [reflexivity|]. by split.
Defined.

End PatternMatcher.
