(* ===== verification/ExcludeRules.v ===== *)
(** * Exclusion rules of the hot update

    Models crates/app/cce-orchestrator/src/hot_update/exclude_rules.rs and the
    [FileEntry] of crates/infra/cce-scanner/src/models.rs it looks at. The name
    of a language is the text its [Debug] form prints. *)

From S2P Require Import Prelude Str FsPath Glob.
From Stdlib Require Import ZArith Lia.
#[local] Open Scope Z_scope.

Module ExcludeRules.
Import Str FsPath Glob.
#[local] Open Scope result_scope.

Record FileEntry := {
  path : Path;
  relative_path : Path;
  size : Z;
  modified : DateTime;
  content_hash : option str;
  language_info : option str
}.

Inductive ExcludeRuleType :=
| PathPattern (pattern : str)
| FileSize (max_bytes : Z)
| LanguageIs (languages : list str)
| Composite (conditions : list ExcludeRule)
with ExcludeRule := Rule (rule_type : ExcludeRuleType).

Definition path_pattern (pattern : str) : ExcludeRule := Rule (PathPattern pattern).
Definition file_size (max_bytes : Z) : ExcludeRule := Rule (FileSize max_bytes).
Definition language (languages : list str) : ExcludeRule := Rule (LanguageIs languages).
Definition composite (conditions : list ExcludeRule) : ExcludeRule := Rule (Composite conditions).

Record ExcludeRulesConfig := { enabled : bool; rules : list ExcludeRule }.
Definition default_config : ExcludeRulesConfig := {| enabled := true; rules := [] |}.

Record ExcludeRules := { config : ExcludeRulesConfig; compiled_globs : list (str * Glob) }.

Definition compile_error (pattern e : str) : str :=
  lit "Failed to compile glob pattern '" ++ pattern ++ lit "': " ++ e.

Definition compile_pattern (pattern : str) : result (str * Glob) str :=
  match glob_new pattern with
  | Ok g => Ok (pattern, g)
  | Err e => Err (compile_error pattern e)
  end.

(** The patterns in the order the loops compile them. *)
Definition condition_patterns (r : ExcludeRule) : list str :=
  match r with Rule (PathPattern p) => [p] | _ => [] end.
Definition rule_patterns (r : ExcludeRule) : list str :=
  match r with
  | Rule (PathPattern p) => [p]
  | Rule (Composite conditions) => conditions ≫= condition_patterns
  | _ => []
  end.

Fixpoint compile_all (patterns : list str) : result (list (str * Glob)) str :=
  match patterns with
  | [] => Ok []
  | p :: patterns =>
      g <-? compile_pattern p;
      rest <-? compile_all patterns;
      Ok (g :: rest)
  end.

Definition new (c : ExcludeRulesConfig) : result ExcludeRules str :=
  globs <-? compile_all (rules c ≫= rule_patterns);
  Ok {| config := c; compiled_globs := globs |}.

Fixpoint matches_rule (self : ExcludeRules) (entry : FileEntry) (rule : ExcludeRule) : bool :=
  match rule with
  | Rule (PathPattern pattern) =>
      existsb (λ pg, bool_decide (pg.1 = pattern) && is_match pg.2 (relative_path entry))
        (compiled_globs self)
  | Rule (FileSize max_bytes) => max_bytes <? size entry
  | Rule (LanguageIs languages) =>
      match language_info entry with
      | Some lang => bool_decide (lang ∈ languages)
      | None => false
      end
  | Rule (Composite conditions) => forallb (matches_rule self entry) conditions
  end.

Definition should_exclude (self : ExcludeRules) (entry : FileEntry) : bool :=
  if negb (enabled (config self)) then false
  else existsb (matches_rule self entry) (rules (config self)).

Definition rule_count (self : ExcludeRules) : nat := length (rules (config self)).
Definition is_enabled (self : ExcludeRules) : bool := enabled (config self).

(** ** What the rules mean *)

(** The rule holds for a file: a pattern by its glob, a composite rule when all
    its conditions hold. *)
Fixpoint holds (entry : FileEntry) (rule : ExcludeRule) : bool :=
  match rule with
  | Rule (PathPattern pattern) =>
      match glob_new pattern with Ok g => is_match g (relative_path entry) | Err _ => false end
  | Rule (FileSize max_bytes) => max_bytes <? size entry
  | Rule (LanguageIs languages) =>
      match language_info entry with
      | Some lang => bool_decide (lang ∈ languages)
      | None => false
      end
  | Rule (Composite conditions) => forallb (holds entry) conditions
  end.

(** No composite rule inside a composite rule. *)
Definition simple (r : ExcludeRule) : Prop :=
  match r with Rule (Composite _) => False | _ => True end.
Definition shallow (r : ExcludeRule) : Prop :=
  match r with Rule (Composite conditions) => Forall simple conditions | _ => True end.

Lemma compile_all_spec patterns :
  (∀ globs, compile_all patterns = Ok globs ↔
     Forall2 (λ p pg, pg.1 = p ∧ glob_new p = Ok pg.2) patterns globs) ∧
  ((∃ e, compile_all patterns = Err e) ↔ ∃ p e, p ∈ patterns ∧ glob_new p = Err e).
Proof.
  induction patterns as [|p patterns [IH1 IH2]]; cbn [compile_all].
  - split; [|split; [by intros [e ?]|by intros (? & ? & ?%elem_of_nil & _)]].
    intros globs. split; [intros [= <-]; constructor|]. by intros ->%Forall2_nil_inv_l.
  - unfold compile_pattern. setoid_rewrite elem_of_cons.
    destruct (glob_new p) as [g|e] eqn:E; cbn [result_bind].
    + destruct (compile_all patterns) as [rest|e] eqn:Er; cbn [result_bind]; split.
      * intros globs. split; [intros [= <-]; constructor; [done|by apply IH1]|].
        intros (pg & globs' & [Hp Hg] & H & ->)%Forall2_cons_inv_l. apply IH1 in H as [= ->].
        destruct pg; simpl in *. congruence.
      * split; [by intros [? ?]|]. intros (q & e & [->|Hq] & He); [congruence|].
        destruct (proj2 IH2) as [? ?]; [by eauto|done].
      * intros globs. split; [done|]. intros (pg & globs' & _ & H & ->)%Forall2_cons_inv_l.
        by apply IH1 in H.
      * split; [|eauto]. intros _. destruct (proj1 IH2) as (q & e' & ? & ?); [eauto|].
        exists q, e'. eauto.
    + split; [|split; [eauto|eauto]]. intros globs. split; [done|].
      intros (pg & globs' & [_ Hg] & _ & _)%Forall2_cons_inv_l. congruence.
Qed.

(** A compiled pattern is looked up by its text. *)
Lemma compiled_matches c self p entry :
  new c = Ok self →
  matches_rule self entry (Rule (PathPattern p)) =
  bool_decide (p ∈ rules c ≫= rule_patterns) && holds entry (Rule (PathPattern p)).
Proof.
  unfold new. destruct (compile_all _) as [globs|] eqn:E; [|done]. intros [= <-].
  apply compile_all_spec in E. cbn [matches_rule compiled_globs holds].
  induction E as [|q pg ps globs [<- Hg] _ IH]; cbn [existsb]; [by rewrite bool_decide_false by apply not_elem_of_nil|].
  rewrite IH. destruct (decide (pg.1 = p)) as [<-|Hne].
  - rewrite Hg, (bool_decide_true (pg.1 = pg.1)), (bool_decide_true (pg.1 ∈ pg.1 :: ps)) by (done || by left).
    simpl. destruct (is_match _ _); simpl; [done|]. by rewrite andb_false_r.
  - rewrite (bool_decide_false (pg.1 = p)) by done. simpl. f_equal. apply bool_decide_ext.
    rewrite elem_of_cons. naive_solver.
Qed.

Lemma matches_simple c self entry r :
  new c = Ok self → simple r → (∀ p, r = Rule (PathPattern p) → p ∈ rules c ≫= rule_patterns) →
  matches_rule self entry r = holds entry r.
Proof.
  intros Hc Hs Hp. destruct r as [[p| | |]]; try done.
  rewrite (compiled_matches c) by done. by rewrite bool_decide_true by by apply Hp.
Qed.

(** Rules whose composite rules are not nested mean what they say: a file is
    excluded when some rule holds for it. *)
Theorem shallow_rules_decide c self entry :
  new c = Ok self → Forall shallow (rules c) →
  should_exclude self entry = enabled c && existsb (holds entry) (rules c).
Proof.
  intros Hc Hs. assert (Hcfg : config self = c).
  { unfold new in Hc. destruct (compile_all _); [|done]. by injection Hc as <-. }
  unfold should_exclude. rewrite Hcfg. destruct (enabled c); [|done]. simpl.
  rewrite Forall_forall in Hs.
  assert (Heq : ∀ r, r ∈ rules c → matches_rule self entry r = holds entry r).
  { intros r Hr. specialize (Hs r Hr). destruct r as [t]. destruct t as [p|m|ls|conditions]; try done.
    - apply (matches_simple c); [done..|]. intros p' [= <-]. apply list_elem_of_bind.
      exists (Rule (PathPattern p)). split; [by left|done].
    - cbn [matches_rule holds]. simpl in Hs. rewrite Forall_forall in Hs.
      apply eq_true_iff_eq. rewrite !forallb_forall. setoid_rewrite <- list_elem_of_In.
      assert (Hq : ∀ q, q ∈ conditions → matches_rule self entry q = holds entry q).
      { intros q Hq. apply (matches_simple c); [done|by apply Hs|]. intros p ->.
        apply list_elem_of_bind. exists (Rule (Composite conditions)). split; [|done].
        apply list_elem_of_bind. exists (Rule (PathPattern p)). split; [by left|done]. }
      split; intros H q Hqc; [rewrite <- Hq by done|rewrite Hq by done]; by apply H. }
  clear Hs Hc Hcfg. induction (rules c) as [|r rs IH]; [done|]. simpl.
  rewrite Heq by by left. f_equal. apply IH. intros r' Hr'. apply Heq. by right.
Qed.

(** The engine is built exactly when every pattern it compiles is a glob. *)
Theorem new_fails_iff_bad_pattern c :
  (∃ e, new c = Err e) ↔
  ∃ r p e, r ∈ rules c ∧ p ∈ rule_patterns r ∧ glob_new p = Err e.
Proof.
  unfold new. pose proof (proj2 (compile_all_spec (rules c ≫= rule_patterns))) as H.
  setoid_rewrite list_elem_of_bind in H.
  destruct (compile_all _) as [globs|e]; simpl in *.
  - split; [by intros [? ?]|]. intros (r & p & e & Hr & Hp & He).
    by destruct (proj2 H) as [? ?]; [eauto 8|].
  - split; [|eauto]. intros _. destruct (proj1 H) as (p & e' & (r & Hp & Hr) & He); [eauto|]. eauto 8.
Qed.

(** A pattern below two composite rules is not compiled, so the rule never
    holds, whether the file matches or the pattern is none at all. *)
Theorem nested_patterns_never_match c self p conditions entry :
  new c = Ok self → (∀ r, r ∈ rules c → p ∉ rule_patterns r) →
  composite [path_pattern p] ∈ conditions →
  matches_rule self entry (composite conditions) = false.
Proof.
  intros Hc Hp Hin. cbn [matches_rule composite]. apply not_true_iff_false.
  rewrite forallb_forall. setoid_rewrite <- list_elem_of_In. intros H. specialize (H _ Hin).
  cbn [composite matches_rule forallb] in H. rewrite andb_true_r in H.
  change (matches_rule self entry (Rule (PathPattern p)) = true) in H.
  rewrite (compiled_matches c) in H by done. apply andb_true_iff in H as [H _].
  apply bool_decide_eq_true, list_elem_of_bind in H as (r & Hr & Hrc). by destruct (Hp r Hrc).
Qed.

(** A composite rule without conditions excludes every file. *)
Theorem empty_composite_excludes_all self entry :
  enabled (config self) = true → composite [] ∈ rules (config self) →
  should_exclude self entry = true.
Proof.
  intros He Hr. unfold should_exclude. rewrite He. apply existsb_exists. exists (composite []).
  by rewrite <- list_elem_of_In.
Qed.

(** ** Examples *)

Definition demo_entry (p : list string) (n : Z) : FileEntry :=
  {| path := Glob.path p; relative_path := Glob.path p; size := n; modified := 0; content_hash := None;
     language_info := Some (lit "Rust") |}.

Definition demo_config : ExcludeRulesConfig :=
  {| enabled := true;
     rules := [path_pattern (lit "*.pb.rs");
               composite [path_pattern (lit "src/*.rs"); file_size 1000];
               composite [composite [path_pattern (lit "gen/*.rs")]; language [lit "Rust"]]] |}.
Definition demo_rules : ExcludeRules :=
  match new demo_config with Ok r => r | Err _ => {| config := default_config; compiled_globs := [] |} end.

Example exclusion_examples :
  should_exclude demo_rules (demo_entry ["a.pb.rs"] 10) = true ∧
  should_exclude demo_rules (demo_entry ["src"; "a.rs"] 10) = false ∧
  should_exclude demo_rules (demo_entry ["src"; "a.rs"] 2000) = true ∧
  should_exclude demo_rules (demo_entry ["gen"; "a.rs"] 10) = false ∧
  existsb (holds (demo_entry ["gen"; "a.rs"] 10)) (rules demo_config) = true.
Proof. by vm_compute. Qed.

Theorem shallow_rules_decide_witness :
  ∃ self, new {| enabled := true; rules := [path_pattern (lit "*.pb.rs")] |} = Ok self ∧
    should_exclude self (demo_entry ["src"; "a.pb.rs"] 10) = true.
Proof.
  eexists. split; [reflexivity|].
  rewrite (shallow_rules_decide {| enabled := true; rules := [path_pattern (lit "*.pb.rs")] |});
    [reflexivity|reflexivity|by repeat constructor].
Defined.

Theorem nested_patterns_never_match_witness :
  matches_rule demo_rules (demo_entry ["gen"; "a.rs"] 10)
    (composite [composite [path_pattern (lit "gen/*.rs")]; language [lit "Rust"]]) = false.
Proof.
  apply (nested_patterns_never_match demo_config demo_rules (lit "gen/*.rs")).
  - reflexivity.
  - intros r Hr Hp. cbn [rules demo_config] in Hr.
    repeat (apply elem_of_cons in Hr as [->|Hr];
      [revert Hp; apply (bool_decide_unpack _); vm_compute; exact I|]). by apply elem_of_nil in Hr.
  - by left.
Defined.

Theorem empty_composite_excludes_all_witness :
  should_exclude {| config := {| enabled := true; rules := [composite []] |}; compiled_globs := [] |}
    (demo_entry ["main.rs"] 1) = true.
Proof. apply empty_composite_excludes_all; [reflexivity|by left]. Defined.

End ExcludeRules.
