(* ===== verification/Languages.v ===== *)
(** * Languages and their extensions

    Models crates/core/cce-types/src/types/language.rs: the languages with
    their names and extensions, the static table of extensions, and the table
    of languages that plugins register. The table is process-global in the
    code; here it is an argument of what reads it and a result of what writes
    it. Unicode lower-casing and SHA-256 are parameters. *)

From S2P Require Import Prelude Str.
From stdpp Require Import pretty sorting.
From Stdlib Require Import ZArith Lia.
#[local] Open Scope Z_scope.

Module Languages.
Import Str.

Inductive Language :=
| C | Cpp | CSharp
| JavaScript | TypeScript
| Html | Css | Scss | Less | Vue | Svelte | Ejs | Jsx | Tsx
| Rust | Go
| Java | Kotlin | Scala
| Python | Ruby | Php | Dart
| Bash | Lua
| Unknown
| Json | Yaml | Toml | Xml
| Custom (index : Z).

#[export] Instance Language_eq_dec : EqDecision Language.
Proof. solve_decision. Defined.

Definition ast_parsable_languages : list Language :=
  [C; Cpp; CSharp; JavaScript; TypeScript; Html; Css; Vue; Svelte; Ejs; Jsx; Tsx; Rust; Go; Java;
   Kotlin; Scala; Python; Php; Ruby; Dart; Bash; Lua].

Definition is_custom (l : Language) : bool := match l with Custom _ => true | _ => false end.

Definition is_supported_for_ast (l : Language) : bool :=
  is_custom l || bool_decide (l ∈ ast_parsable_languages).

Definition is_sfc (l : Language) : bool := match l with Vue | Svelte => true | _ => false end.

Definition has_embedded_blocks (l : Language) : bool :=
  match l with Vue | Svelte | Ejs | Html => true | _ => false end.

Definition common_extensions (l : Language) : list string :=
  match l with
  | C => ["c"; "h"]
  | Cpp => ["cpp"; "cc"; "cxx"; "hpp"; "hxx"]
  | CSharp => ["cs"]
  | JavaScript => ["js"; "mjs"; "cjs"]
  | TypeScript => ["ts"; "mts"; "cts"]
  | Html => ["html"; "htm"]
  | Css => ["css"]
  | Scss => ["scss"; "sass"]
  | Less => ["less"]
  | Vue => ["vue"]
  | Svelte => ["svelte"]
  | Ejs => ["ejs"]
  | Jsx => ["jsx"]
  | Tsx => ["tsx"]
  | Rust => ["rs"]
  | Go => ["go"]
  | Java => ["java"]
  | Kotlin => ["kt"; "kts"]
  | Scala => ["scala"; "sc"]
  | Python => ["py"; "pyi"]
  | Ruby => ["rb"]
  | Php => ["php"]
  | Dart => ["dart"]
  | Bash => ["sh"; "bash"; "bats"]
  | Lua => ["lua"]
  | Unknown => []
  | Json => ["json"]
  | Yaml => ["yaml"; "yml"]
  | Toml => ["toml"]
  | Xml => ["xml"]
  | Custom _ => []
  end.
Definition extensions (l : Language) : list string := common_extensions l.

(** A [match] on a string, arm by arm. *)
Fixpoint match_str {A : Type} (s : str) (arms : list (list string * A)) : option A :=
  match arms with
  | [] => None
  | (literals, a) :: arms => if bool_decide (s ∈ map lit literals) then Some a else match_str s arms
  end.

Definition name_arms : list (list string * Language) :=
  [(["c"], C);
   (["c++"; "cpp"; "cc"], Cpp);
   (["c#"; "csharp"; "cs"], CSharp);
   (["javascript"; "js"; "mjs"; "cjs"], JavaScript);
   (["typescript"; "ts"; "mts"; "cts"], TypeScript);
   (["html"; "htm"], Html);
   (["css"], Css);
   (["scss"; "sass"], Scss);
   (["less"], Less);
   (["vue"], Vue);
   (["svelte"], Svelte);
   (["ejs"; "embedded-template"], Ejs);
   (["jsx"], Jsx);
   (["tsx"], Tsx);
   (["rust"; "rs"], Rust);
   (["go"; "golang"], Go);
   (["java"], Java);
   (["kotlin"; "kt"], Kotlin);
   (["scala"], Scala);
   (["python"; "py"], Python);
   (["ruby"; "rb"], Ruby);
   (["php"], Php);
   (["dart"], Dart);
   (["bash"; "sh"; "shell"], Bash);
   (["lua"], Lua);
   (["json"], Json);
   (["yaml"; "yml"], Yaml);
   (["toml"], Toml);
   (["xml"], Xml)].

Inductive FileType := Source | Header | Config | Documentation | Schema | Text.

#[export] Instance FileType_eq_dec : EqDecision FileType.
Proof. solve_decision. Defined.

Definition extension_arms : list (list string * (Language * FileType)) :=
  [(["c"], (C, Source));
   (["h"], (Cpp, Header));
   (["cpp"; "cc"; "cxx"], (Cpp, Source));
   (["hpp"; "hxx"], (Cpp, Header));
   (["cs"], (CSharp, Source));
   (["js"; "mjs"; "cjs"], (JavaScript, Source));
   (["jsx"], (Jsx, Source));
   (["ts"; "mts"; "cts"], (TypeScript, Source));
   (["tsx"], (Tsx, Source));
   (["html"; "htm"], (Html, Source));
   (["vue"], (Vue, Source));
   (["svelte"], (Svelte, Source));
   (["ejs"], (Ejs, Source));
   (["css"], (Css, Source));
   (["scss"; "sass"], (Scss, Text));
   (["less"], (Less, Text));
   (["rs"], (Rust, Source));
   (["go"], (Go, Source));
   (["java"], (Java, Source));
   (["kt"; "kts"], (Kotlin, Source));
   (["scala"], (Scala, Source));
   (["sc"], (Scala, Source));
   (["py"], (Python, Source));
   (["pyi"], (Python, Header));
   (["rb"], (Ruby, Source));
   (["php"], (Php, Source));
   (["dart"], (Dart, Source));
   (["sh"; "bash"], (Bash, Source));
   (["bats"], (Bash, Source));
   (["lua"], (Lua, Source));
   (["md"; "markdown"], (Unknown, Documentation));
   (["rst"; "adoc"], (Unknown, Documentation));
   (["proto"; "graphql"; "thrift"; "avsc"], (Unknown, Schema));
   (["txt"; "log"], (Unknown, Text));
   (["toml"], (Toml, Config));
   (["yaml"; "yml"], (Yaml, Config));
   (["json"], (Json, Config));
   (["ini"], (Unknown, Config));
   (["xml"], (Xml, Config));
   (["mk"; "makefile"], (Unknown, Config));
   (["dockerfile"], (Unknown, Config))].

Definition builtin_language_for_extension (ext : str) : option (Language * FileType) :=
  match_str ext extension_arms.

Record PluginLanguageRecord := {
  name : str;
  record_extensions : list str;
  remap_grammar : option str
}.

#[export] Instance PluginLanguageRecord_eq_dec : EqDecision PluginLanguageRecord.
Proof. solve_decision. Defined.

Abbreviation Table := (list PluginLanguageRecord).

Section languages.
Context (to_lowercase : str → str).

Definition from_name (name : str) : option Language := match_str (to_lowercase (trim name)) name_arms.

(** ** The table of plugin languages *)

Definition as_index (i : nat) : Z := wrap32 (Z.of_nat i).

Definition update_record (exts : list str) (grammar : option str) (r : PluginLanguageRecord)
    : PluginLanguageRecord :=
  {| name := name r; record_extensions := exts; remap_grammar := grammar |}.

Definition register_plugin_language_with_source (n : str) (exts : list str) (grammar : option str)
    (t : Table) : Z * Table :=
  match position (λ r, eq_ignore_ascii_case (name r) n) t with
  | Some existing => (as_index existing, alter (update_record exts grammar) existing t)
  | None =>
      (as_index (length t),
       t ++ [{| name := n; record_extensions := map to_lowercase exts; remap_grammar := grammar |}])
  end.

Definition register_plugin_language (n : str) (exts : list str) (t : Table) : Z * Table :=
  register_plugin_language_with_source n exts None t.
Definition register_remap_plugin_language (n : str) (exts : list str) (builtin : str) (t : Table)
    : Z * Table :=
  register_plugin_language_with_source n exts (Some builtin) t.

Definition clear_plugin_languages (t : Table) : Table := [].

Definition plugin_language_for_extension (ext : str) (t : Table) : option Z :=
  as_index <$> position (λ r, bool_decide (to_lowercase ext ∈ record_extensions r)) t.

Definition record_at (index : Z) (t : Table) : option PluginLanguageRecord := t !! Z.to_nat index.

Definition plugin_language_name (index : Z) (t : Table) : option str := name <$> record_at index t.

Definition plugin_remap_target (index : Z) (t : Table) : option Language :=
  (record_at index t ≫= remap_grammar) ≫= from_name.

Definition effective_language (l : Language) (t : Table) : Language :=
  match l with
  | Custom index => default l (plugin_remap_target index t)
  | _ => l
  end.

Definition plugin_language_extensions (index : Z) (t : Table) : list str :=
  default [] (record_extensions <$> record_at index t).

Definition plugin_extension_conflicts (exts : list str) : list str :=
  retain (λ ext, bool_decide (is_Some (builtin_language_for_extension ext))) (map to_lowercase exts).

Definition is_plugin_language (n : str) (t : Table) : bool :=
  existsb (λ r, eq_ignore_ascii_case (name r) n) t.

Definition custom_language_extensions (l : Language) (t : Table) : list str :=
  match l with Custom index => plugin_language_extensions index t | _ => [] end.
Definition custom_language_name (l : Language) (t : Table) : option str :=
  match l with Custom index => plugin_language_name index t | _ => None end.

(** [Display] *)
Definition display_name (l : Language) (t : Table) : str :=
  match l with
  | C => lit "C" | Cpp => lit "C++" | CSharp => lit "C#"
  | JavaScript => lit "JavaScript" | TypeScript => lit "TypeScript"
  | Html => lit "HTML" | Css => lit "CSS" | Scss => lit "SCSS" | Less => lit "LESS"
  | Vue => lit "Vue" | Svelte => lit "Svelte" | Ejs => lit "EJS" | Jsx => lit "JSX" | Tsx => lit "TSX"
  | Rust => lit "Rust" | Go => lit "Go"
  | Java => lit "Java" | Kotlin => lit "Kotlin" | Scala => lit "Scala"
  | Python => lit "Python" | Ruby => lit "Ruby" | Php => lit "PHP" | Dart => lit "Dart"
  | Bash => lit "Bash" | Lua => lit "Lua"
  | Unknown => lit "Unknown"
  | Json => lit "JSON" | Yaml => lit "YAML" | Toml => lit "TOML" | Xml => lit "XML"
  | Custom index =>
      match plugin_language_name index t with
      | Some n => n
      | None => lit "custom_" ++ lit (pretty (Z.to_N index))
      end
  end.

(** Strings are ordered by their bytes, which is the order of their
    characters. *)
Fixpoint str_leb (s t : str) : bool :=
  match s, t with
  | [], _ => true
  | _ :: _, [] => false
  | c :: s, d :: t => (c <? d) || ((c =? d) && str_leb s t)
  end.
Definition str_le (s t : str) : Prop := str_leb s t = true.

#[local] Instance str_le_dec s t : Decision (str_le s t).
Proof. unfold str_le. apply _. Defined.

Definition sort_strs (l : list str) : list str := merge_sort str_le l.

Definition canonical_record (r : PluginLanguageRecord) : str :=
  name r ++ lit "=" ++ join (lit ",") (sort_strs (record_extensions r)).

Definition plugin_language_fingerprint (sha256_hex : list Z → str) (t : Table) : str :=
  sha256_hex ((sort_strs (map canonical_record t)) ≫= λ record, as_bytes record ++ as_bytes (lit ";")).

(** ** Names and extensions *)

(** Lower-casing agrees with ASCII lower-casing on ASCII text. *)
Definition ascii_lowercase : Prop :=
  ∀ s, Forall (λ c, 0 ≤ c < 128) s → to_lowercase s = map to_ascii_lowercase s.

Definition ascii_ok (s : str) : bool := forallb (λ c, (0 <=? c) && (c <? 128)) s.

Lemma ascii_ok_spec s : ascii_ok s = true → Forall (λ c, 0 ≤ c < 128) s.
Proof.
  unfold ascii_ok. rewrite forallb_forall, Forall_forall. intros H c Hc%list_elem_of_In.
  apply H in Hc. lia.
Qed.

(** The languages with a name of their own. *)
Definition named (l : Language) : bool :=
  match l with Unknown | Custom _ => false | _ => true end.

(** The name a built-in language prints leads back to it; no name leads to a
    plugin language. *)
Theorem names_round_trip l t n :
  ascii_lowercase →
  (named l = true → from_name (display_name l t) = Some l) ∧
  (from_name n = Some l → named l = true).
Proof.
  intros Ha. split.
  - intros Hl. unfold from_name.
    destruct l; try discriminate; cbn [display_name];
      (rewrite Ha; [reflexivity|by apply ascii_ok_spec]).
  - unfold from_name, name_arms. cbn [match_str].
    repeat (case_bool_decide; [by intros [= <-]|]). done.
Qed.

Lemma match_str_arm {A} s (arms : list (list string * A)) a :
  match_str (lit s) arms = Some a → ∃ lits, (lits, a) ∈ arms ∧ s ∈ lits.
Proof.
  induction arms as [|[lits b] arms IH]; simpl; [done|]. case_bool_decide as H.
  - intros [= ->]. exists lits. split; [by left|]. apply list_elem_of_fmap in H as (t & Ht & Hin).
    apply lit_inj in Ht. by subst.
  - intros (lits' & Hin & Hs)%IH. exists lits'. split; [by right|done].
Qed.

(** The two tables of extensions agree, but for [.h], which C lists and which
    is read as C++. *)
Theorem extension_tables_agree l ext ft :
  (ext ∈ extensions l → ¬ (l = C ∧ ext = "h") →
     ∃ ft, builtin_language_for_extension (lit ext) = Some (l, ft)) ∧
  (builtin_language_for_extension (lit ext) = Some (l, ft) → l ≠ Unknown →
     ext ∈ extensions l ∨ l = Cpp ∧ ext = "h").
Proof.
  split.
  - intros H Hc. destruct l; cbn [extensions common_extensions] in H;
      repeat (apply elem_of_cons in H as [->|H]; [first [by eexists|by destruct Hc]|]);
      by apply elem_of_nil in H.
  - intros (lits & Harm & Hs)%match_str_arm Hl.
    assert (Hall : Forall (λ arm, arm.2.1 = Unknown ∨
      Forall (λ e, e ∈ extensions arm.2.1 ∨ arm.2.1 = Cpp ∧ e = "h") arm.1) extension_arms)
      by (apply (bool_decide_unpack _); vm_compute; exact I).
    rewrite Forall_forall in Hall. destruct (Hall _ Harm) as [?|H]; [done|].
    rewrite Forall_forall in H. by apply H.
Qed.

(** ** Registration *)

(** No two records have the same name up to ASCII case. *)
Definition same_name (r : PluginLanguageRecord) (n : str) : bool := eq_ignore_ascii_case (name r) n.

Definition distinct_names (t : Table) : Prop :=
  ∀ i j r r', t !! i = Some r → t !! j = Some r' → same_name r (name r') = true → i = j.

Inductive table_step : Table → Table → Prop :=
| register_step n exts grammar t :
    table_step t (register_plugin_language_with_source n exts grammar t).2.

Lemma same_name_spec r n :
  same_name r n = true ↔ map to_ascii_lowercase (name r) = map to_ascii_lowercase n.
Proof. apply bool_decide_eq_true. Qed.

Lemma register_cases n exts grammar t :
  (∃ i r, t !! i = Some r ∧ same_name r n = true ∧
     register_plugin_language_with_source n exts grammar t =
       (as_index i, <[i := update_record exts grammar r]> t)) ∨
  (∀ r, r ∈ t → same_name r n = false) ∧
  register_plugin_language_with_source n exts grammar t =
    (as_index (length t),
     t ++ [{| name := n; record_extensions := map to_lowercase exts; remap_grammar := grammar |}]).
Proof.
  unfold register_plugin_language_with_source.
  destruct (position _ t) as [i|] eqn:E; [left|right].
  - apply position_Some in E as (l1 & r & l2 & -> & <- & Hr & _). exists (length l1), r.
    split_and!; [by apply list_lookup_middle|done|]. f_equal.
    rewrite insert_app_r_alt, alter_app_r_alt by lia. by rewrite Nat.sub_diag.
  - split; [|done]. intros r Hr. by apply (position_None _ _ E).
Qed.

Lemma same_name_sym r n : same_name r n = true → ∀ r', name r' = n → same_name r' (name r) = true.
Proof. rewrite same_name_spec. intros H r' <-. apply same_name_spec. by rewrite <- H. Qed.

(** Registering keeps names apart, and an index keeps its name for ever; the
    index handed out is that of the name. *)
Lemma register_spec n exts grammar t :
  distinct_names t → Z.of_nat (length t) < 2 ^ 32 →
  let '(index, t') := register_plugin_language_with_source n exts grammar t in
  distinct_names t' ∧
  (∀ i r, t !! i = Some r → ∃ r', t' !! i = Some r' ∧ name r' = name r) ∧
  (∃ r, record_at index t' = Some r ∧ same_name r n = true ∧ remap_grammar r = grammar).
Proof.
  intros Hd Hlen. destruct (register_cases n exts grammar t) as [(i & r & Hi & Hr & ->)|[Hno ->]].
  - pose proof (lookup_lt_Some _ _ _ Hi) as Hlt.
    assert (Hname : ∀ j q, <[i:=update_record exts grammar r]> t !! j = Some q →
      ∃ q', t !! j = Some q' ∧ name q' = name q).
    { intros j q [(<- & <- & _)|[_ H]]%list_lookup_insert_Some; [by exists r|by exists q]. }
    split_and!.
    + intros j k q q' (p & Hj & Ep)%Hname (p' & Hk & Ep')%Hname Hs. apply (Hd j k p p' Hj Hk).
      unfold same_name in *. by rewrite Ep, Ep'.
    + intros j q Hj. destruct (decide (i = j)) as [<-|Hne].
      * exists (update_record exts grammar r). split; [by apply list_lookup_insert_eq|]. simpl. congruence.
      * exists q. by rewrite list_lookup_insert_ne.
    + exists (update_record exts grammar r). unfold record_at, as_index, wrap32.
      rewrite Z.mod_small by lia. rewrite Nat2Z.id. by rewrite list_lookup_insert_eq.
  - split_and!.
    + intros j k q q' Hj Hk Hs. apply lookup_snoc_Some in Hj, Hk.
      destruct Hj as [[Hj1 Hj]|[-> <-]], Hk as [[Hk1 Hk]|[-> <-]]; [by eapply Hd| | |done].
      * apply list_elem_of_lookup_2 in Hj. apply Hno in Hj. simpl in Hs. congruence.
      * apply list_elem_of_lookup_2 in Hk. apply Hno in Hk.
        pose proof (same_name_sym _ _ Hs q' eq_refl) as Hs'. simpl in Hs'. congruence.
    + intros i r Hi. exists r. split; [|done]. by apply lookup_app_l_Some.
    + eexists. unfold record_at, as_index, wrap32. rewrite Z.mod_small by lia. rewrite Nat2Z.id.
      split_and!; [by apply list_lookup_middle| |done]. by apply same_name_spec.
Qed.

Lemma register_grows n exts grammar t :
  (length t ≤ length (register_plugin_language_with_source n exts grammar t).2)%nat.
Proof.
  destruct (register_cases n exts grammar t) as [(i & r & _ & _ & ->)|[_ ->]]; cbn [snd].
  - by rewrite length_insert.
  - rewrite length_app. simpl. lia.
Qed.

Lemma table_grows t t' : rtc table_step t t' → (length t ≤ length t')%nat.
Proof. induction 1 as [|t t1 t' [n exts grammar t2] _ IH]; [done|]. pose proof (register_grows n exts grammar t2). lia. Qed.

(** From an empty table on, names stay apart and an index keeps its name
    whatever is registered later, and registering a name hands out the index
    of that name with the new grammar. *)
Theorem registration_is_stable t t' n exts grammar :
  rtc table_step [] t → rtc table_step t t' → Z.of_nat (length t') < 2 ^ 32 - 1 →
  distinct_names t' ∧
  (∀ i r, t !! i = Some r → ∃ r', t' !! i = Some r' ∧ name r' = name r) ∧
  let '(index, t'') := register_plugin_language_with_source n exts grammar t' in
  ∃ r, record_at index t'' = Some r ∧ same_name r n = true ∧ remap_grammar r = grammar.
Proof.
  intros H0 H1 Hlen.
  assert (Hd : ∀ t t', rtc table_step t t' → distinct_names t → Z.of_nat (length t') < 2 ^ 32 - 1 →
    distinct_names t' ∧ ∀ i r, t !! i = Some r → ∃ r', t' !! i = Some r' ∧ name r' = name r).
  { clear. induction 1 as [t|t t1 t' Hstep Hs IH]; intros Hd Hlen; [eauto|].
    pose proof (table_grows _ _ Hs) as Hg. destruct Hstep as [m es g t].
    pose proof (register_grows m es g t) as Hg'.
    pose proof (register_spec m es g t Hd ltac:(lia)) as Hr.
    destruct (register_plugin_language_with_source m es g t) as [idx t1]. cbn [snd] in *.
    destruct Hr as (Hd1 & Hk & _). destruct (IH Hd1 Hlen) as [Hd' Hk']. split; [done|].
    intros i r (r1 & Hi & E1)%Hk. destruct (Hk' i r1 Hi) as (r2 & Hi2 & E2). exists r2. by rewrite E2. }
  pose proof (table_grows _ _ H1). assert (Hempty : distinct_names []) by (intros i j r r' Hi; by rewrite lookup_nil in Hi).
  destruct (Hd [] t H0 Hempty) as [Ht _]; [lia|]. destruct (Hd t t' H1 Ht Hlen) as [Ht' Hk].
  split; [done|]. split; [done|]. pose proof (register_spec n exts grammar t' Ht' ltac:(lia)) as Hr.
  destruct (register_plugin_language_with_source n exts grammar t') as [index t'']. by destruct Hr as (_ & _ & ?).
Qed.

(** The first registration of a language lower-cases its extensions, the next
    does not: an extension with upper-case letters is then not found any more. *)
Theorem registering_again_loses_extension n e :
  to_lowercase e ≠ e →
  let t1 := (register_plugin_language n [e] []).2 in
  let t2 := (register_plugin_language n [e] t1).2 in
  plugin_language_for_extension e t1 = Some 0 ∧ plugin_language_for_extension e t2 = None.
Proof.
  intros He. unfold register_plugin_language, register_plugin_language_with_source. simpl.
  assert (Hn : eq_ignore_ascii_case n n = true) by (by apply bool_decide_eq_true).
  rewrite Hn. unfold plugin_language_for_extension. simpl. split.
  - by rewrite bool_decide_true by by left.
  - rewrite bool_decide_false; [done|]. by intros ?%list_elem_of_singleton.
Qed.

(** ** The fingerprint *)

Lemma str_leb_refl s : str_leb s s = true.
Proof. induction s as [|c s IH]; [done|]. simpl. rewrite IH, Z.eqb_refl. by destruct (c <? c). Qed.

#[local] Instance str_le_total : Total str_le.
Proof.
  intros s. induction s as [|c s IH]; intros [|d t]; unfold str_le; simpl; auto.
  destruct (Z.lt_trichotomy c d) as [H|[->|H]].
  - left. by rewrite (proj2 (Z.ltb_lt c d) H).
  - rewrite Z.eqb_refl, Z.ltb_irrefl. simpl. apply IH.
  - right. by rewrite (proj2 (Z.ltb_lt d c) H).
Qed.

Lemma str_leb_cons c s d t : str_leb (c :: s) (d :: t) = true ↔ c < d ∨ c = d ∧ str_leb s t = true.
Proof. simpl. rewrite orb_true_iff, andb_true_iff, Z.ltb_lt, Z.eqb_eq. done. Qed.

#[local] Instance str_le_trans : Transitive str_le.
Proof.
  unfold str_le. intros s. induction s as [|c s IH]; intros [|d t] [|e u]; try done.
  rewrite !str_leb_cons. intros [H1|[-> H1]] [H2|[-> H2]]; [left; lia|by left|by left|].
  right. split; [done|]. by eapply IH.
Qed.

#[local] Instance str_le_antisymm : AntiSymm (=) str_le.
Proof.
  unfold str_le. intros s. induction s as [|c s IH]; intros [|d t]; try done.
  rewrite !str_leb_cons. intros [H1|[-> H1]] [H2|[E H2]]; try lia. f_equal. by apply IH.
Qed.

Lemma sort_strs_unique l k : l ≡ₚ k → sort_strs l = sort_strs k.
Proof.
  intros H. unfold sort_strs. apply (StronglySorted_unique str_le);
    [apply StronglySorted_merge_sort; apply _..|].
  by rewrite !merge_sort_Permutation.
Qed.

Lemma fingerprint_permutation sha256_hex t t' :
  t ≡ₚ t' → plugin_language_fingerprint sha256_hex t = plugin_language_fingerprint sha256_hex t'.
Proof.
  intros H. unfold plugin_language_fingerprint. do 2 f_equal. apply sort_strs_unique.
  by apply fmap_Permutation.
Qed.

(** The fingerprint of the registry depends on the languages only, while an
    index depends on their order: two plugins that are loaded in the other
    order after a restart leave the fingerprint as it was, and every persisted
    index names the other language. *)
Theorem fingerprint_misses_index_change sha256_hex n1 n2 es1 es2 :
  eq_ignore_ascii_case n1 n2 = false →
  let load a ea b eb := (register_plugin_language b eb (register_plugin_language a ea []).2).2 in
  let before := load n1 es1 n2 es2 in
  let after := load n2 es2 n1 es1 in
  plugin_language_fingerprint sha256_hex before = plugin_language_fingerprint sha256_hex after ∧
  plugin_language_name 0 before = Some n1 ∧ plugin_language_name 0 after = Some n2.
Proof.
  intros Hn load. assert (Hn' : eq_ignore_ascii_case n2 n1 = false).
  { apply bool_decide_eq_false in Hn. apply bool_decide_eq_false. by intros E. }
  unfold load, register_plugin_language, register_plugin_language_with_source. simpl.
  rewrite Hn, Hn'. simpl. split_and!; [|done..]. apply fingerprint_permutation. apply perm_swap.
Qed.

End languages.

(** ** Examples *)

(** Lower-casing of ASCII text. *)
Definition demo_lowercase (s : str) : str := map to_ascii_lowercase s.

Theorem names_round_trip_witness :
  from_name demo_lowercase (display_name CSharp []) = Some CSharp.
Proof. by apply (proj1 (names_round_trip demo_lowercase CSharp [] [] (λ s _, eq_refl))). Defined.

Theorem registration_is_stable_witness :
  let t := (register_plugin_language demo_lowercase (lit "Zig") [lit "zig"] []).2 in
  let t' := (register_plugin_language demo_lowercase (lit "Nim") [lit "nim"] t).2 in
  distinct_names t' ∧ ∃ r', t' !! 0%nat = Some r' ∧ name r' = lit "Zig".
Proof.
  intros t t'.
  assert (H0 : rtc (table_step demo_lowercase) [] t) by (apply rtc_once; constructor).
  assert (H1 : rtc (table_step demo_lowercase) t t') by (apply rtc_once; constructor).
  destruct (registration_is_stable demo_lowercase t t' (lit "zig") [] None H0 H1 eq_refl) as (Hd & Hk & _).
  split; [exact Hd|]. by apply (Hk 0%nat {| name := lit "Zig"; record_extensions := [lit "zig"]; remap_grammar := None |}).
Defined.

Theorem registering_again_loses_extension_witness :
  plugin_language_for_extension demo_lowercase (lit "ZIG")
    (register_plugin_language demo_lowercase (lit "Zig") [lit "ZIG"]
       (register_plugin_language demo_lowercase (lit "Zig") [lit "ZIG"] []).2).2 = None.
Proof. by apply (registering_again_loses_extension demo_lowercase (lit "Zig") (lit "ZIG")). Defined.

Theorem fingerprint_misses_index_change_witness :
  let sha256_hex := λ _ : list Z, lit "0" in
  let t := (register_plugin_language demo_lowercase (lit "Zig") [lit "zig"]
    (register_plugin_language demo_lowercase (lit "Nim") [lit "nim"] []).2).2 in
  let t' := (register_plugin_language demo_lowercase (lit "Nim") [lit "nim"]
    (register_plugin_language demo_lowercase (lit "Zig") [lit "zig"] []).2).2 in
  plugin_language_fingerprint sha256_hex t = plugin_language_fingerprint sha256_hex t' ∧
  plugin_language_name 0 t = Some (lit "Nim") ∧ plugin_language_name 0 t' = Some (lit "Zig").
Proof.
  exact (fingerprint_misses_index_change demo_lowercase (λ _ : list Z, lit "0") (lit "Nim") (lit "Zig")
    [lit "nim"] [lit "zig"] eq_refl).
Defined.

End Languages.
