(* ===== verification/BuildSystem.v ===== *)
(** * Build systems

    Models crates/core/cce-types/src/build_system.rs: the manifest files of the
    supported build systems, the extensions a manifest affects, and the
    comparison of an import with a package name. *)

From S2P Require Import Prelude Str Languages.
From Stdlib Require Import ZArith Lia.
#[local] Open Scope Z_scope.

Module BuildSystem.
Import Str Languages.

Record BuildSystemMetadata := {
  system_name : string;
  config_files : list string;
  languages : list Language;
  file_extensions : list string
}.

Definition MANIFEST_SCAN_EXCLUDED_DIRS : list string :=
  ["target"; "node_modules"; ".git"; ".svn"; ".hg"; "vendor"; "dist"; "build"; "out"; "__pycache__";
   ".venv"; "venv"; ".mypy_cache"].

Definition js_extensions : list string :=
  extensions JavaScript ++ extensions TypeScript ++ extensions Jsx ++ extensions Tsx.

Definition get_supported_build_systems : list BuildSystemMetadata :=
  [{| system_name := "Cargo"; config_files := ["Cargo.toml"]; languages := [Rust];
      file_extensions := extensions Rust |};
   {| system_name := "NPM"; config_files := ["package.json"; "package-lock.json"];
      languages := [JavaScript; TypeScript]; file_extensions := js_extensions |};
   {| system_name := "PNPM"; config_files := ["pnpm-lock.yaml"];
      languages := [JavaScript; TypeScript]; file_extensions := js_extensions |};
   {| system_name := "Yarn"; config_files := ["yarn.lock"];
      languages := [JavaScript; TypeScript]; file_extensions := js_extensions |};
   {| system_name := "PyPI";
      config_files := ["requirements.txt"; "pyproject.toml"; "Pipfile"; "setup.cfg"; "environment.yml"];
      languages := [Python]; file_extensions := extensions Python |};
   {| system_name := "Go Modules"; config_files := ["go.mod"; "go.sum"]; languages := [Go];
      file_extensions := extensions Go |};
   {| system_name := "Maven/Gradle";
      config_files := ["pom.xml"; "build.gradle"; "build.gradle.kts"; "settings.gradle";
                       "settings.gradle.kts"];
      languages := [Java; Kotlin]; file_extensions := extensions Java ++ extensions Kotlin |};
   {| system_name := "CMake"; config_files := ["CMakeLists.txt"]; languages := [C; Cpp];
      file_extensions := extensions C ++ extensions Cpp |};
   {| system_name := "Composer"; config_files := ["composer.json"]; languages := [Php];
      file_extensions := extensions Php |};
   {| system_name := ".NET"; config_files := ["*.csproj"; "*.fsproj"; "*.vbproj"]; languages := [];
      file_extensions := extensions CSharp ++ ["fs"; "vb"] |};
   {| system_name := "Bundler"; config_files := ["Gemfile"; "Gemfile.lock"]; languages := [Ruby];
      file_extensions := extensions Ruby |};
   {| system_name := "Make";
      config_files := ["Makefile"; "makefile"; "GNUmakefile"; "gnumakefile"]; languages := [C; Cpp];
      file_extensions := extensions C ++ extensions Cpp |};
   {| system_name := "Docker"; config_files := ["Dockerfile"; "dockerfile"]; languages := [];
      file_extensions := ["dockerfile"] |}].

Definition is_suffix_pattern (pattern : str) : bool := starts_with (lit "*.") pattern.

(** A config file pattern: a suffix behind a star, or a name. *)
Definition matches_config_file (name : str) (file : string) : bool :=
  let pattern := lit file in
  if is_suffix_pattern pattern then ends_with (tail pattern) name else bool_decide (pattern = name).

Definition matches_config_file_lower (lower_name : str) (file : string) : bool :=
  let pattern := lit file in
  if is_suffix_pattern pattern then ends_with (map to_ascii_lowercase (tail pattern)) lower_name
  else bool_decide (map to_ascii_lowercase pattern = lower_name).

Definition is_build_config_name (name : str) : bool :=
  existsb (λ system, existsb (matches_config_file name) (config_files system)) get_supported_build_systems.

Definition is_build_config_name_lower (lower_name : str) : bool :=
  existsb (λ system, existsb (matches_config_file_lower lower_name) (config_files system))
    get_supported_build_systems.

Definition is_build_config (filename : str) : bool := is_build_config_name filename.

Definition push_name (names : list str) (file : string) : list str :=
  if is_suffix_pattern (lit file) then names
  else if bool_decide (lit file ∈ names) then names
  else names ++ [lit file].

Definition all_build_config_file_names : list str :=
  foldl push_name [] (get_supported_build_systems ≫= config_files).

Fixpoint affected_of (name : str) (systems : list BuildSystemMetadata) : list string :=
  match systems with
  | [] => []
  | meta :: systems =>
      if existsb (matches_config_file name) (config_files meta) then file_extensions meta
      else affected_of name systems
  end.
Definition get_affected_extensions (config_filename : str) : list string :=
  affected_of config_filename get_supported_build_systems.

(** ** Package names *)

Definition dash : char := 45.
Definition is_python_separator (c : char) : bool := (c =? dash) || (c =? 95) || (c =? 46).

Fixpoint collapse (last_was_dash : bool) (s : str) : str :=
  match s with
  | [] => []
  | ch :: s =>
      if is_python_separator ch then
        if last_was_dash then collapse true s else dash :: collapse true s
      else ch :: collapse false s
  end.

Definition canonicalize_python_name (name : str) : str := collapse false (map to_ascii_lowercase name).

Definition canonicalize_package_name (name : str) (language : Language) : str :=
  match language with
  | Python => canonicalize_python_name name
  | JavaScript | TypeScript | Jsx | Tsx => map to_ascii_lowercase name
  | _ => map to_ascii_lowercase name
  end.

Definition is_js (language : Language) : bool :=
  match language with JavaScript | TypeScript | Jsx | Tsx => true | _ => false end.

Definition is_slash_char (c : char) : bool := c =? 47.

(** The smallest of the positions there are. *)
Definition min_position (idx pos : option nat) : option nat :=
  match pos with
  | None => idx
  | Some pos => Some (match idx with Some cur => Nat.min cur pos | None => pos end)
  end.

Definition extract_import_package_base (source : str) (language : Language) : str :=
  if is_js language && starts_with (lit "@") source then
    match split_on is_slash_char source with
    | scope :: name :: _ => if bool_decide (name = []) then scope else scope ++ lit "/" ++ name
    | scope :: [] => scope
    | [] => []
    end
  else
    let idx := foldl min_position None [find (lit "::") source; find (lit "/") source; find (lit ".") source] in
    match idx with
    | Some pos => take pos source
    | None => source
    end.

Definition imports_match_package (source pkg : str) (language : Language) : bool :=
  let canon_pkg := canonicalize_package_name pkg language in
  let base := extract_import_package_base source language in
  bool_decide (canonicalize_package_name base language = canon_pkg).

(** ** Manifests *)

(** A file name is a manifest exactly when it affects some extension. *)
Theorem manifests_affect_extensions name :
  is_build_config_name name = true ↔ get_affected_extensions name ≠ [].
Proof.
  unfold is_build_config_name, get_affected_extensions.
  assert (Hne : Forall (λ s, file_extensions s ≠ []) get_supported_build_systems)
    by (repeat constructor; done).
  induction Hne as [|s systems Hs _ IH]; [done|]. cbn [existsb affected_of].
  destruct (existsb (matches_config_file name) (config_files s)); [done|]. exact IH.
Qed.

(** The variant for lower-cased names recognises every spelling of a manifest. *)
Theorem lower_manifests_ignore_case name :
  is_build_config_name_lower (map to_ascii_lowercase name) = true ↔
  ∃ system file, system ∈ get_supported_build_systems ∧ file ∈ config_files system ∧
    if is_suffix_pattern (lit file)
    then ∃ a b, name = a ++ b ∧ eq_ignore_ascii_case b (tail (lit file)) = true
    else eq_ignore_ascii_case name (lit file) = true.
Proof.
  unfold is_build_config_name_lower. rewrite existsb_exists. setoid_rewrite existsb_exists.
  setoid_rewrite <- list_elem_of_In.
  assert (H : ∀ file, matches_config_file_lower (map to_ascii_lowercase name) file = true ↔
    if is_suffix_pattern (lit file)
    then ∃ a b, name = a ++ b ∧ eq_ignore_ascii_case b (tail (lit file)) = true
    else eq_ignore_ascii_case name (lit file) = true).
  { intros file. unfold matches_config_file_lower, eq_ignore_ascii_case.
    destruct (is_suffix_pattern (lit file)); [|rewrite !bool_decide_eq_true; done].
    rewrite ends_with_spec. setoid_rewrite bool_decide_eq_true. split.
    - intros [a Ha]. apply map_eq_app in Ha as (l1 & l2 & -> & _ & Hl). by exists l1, l2.
    - intros (a & b & -> & Hb). exists (map to_ascii_lowercase a). by rewrite map_app, Hb. }
  split.
  - intros (s & Hs & file & Hf & Hm). exists s, file. by rewrite <- H.
  - intros (s & file & Hs & Hf & Hm). exists s. split; [done|]. exists file. by rewrite H.
Qed.

(** ** Imports *)

(** What ends the package in an import. *)
Definition at_separator (s : str) : bool :=
  starts_with (lit "::") s || starts_with (lit "/") s || starts_with (lit ".") s.

Definition no_separator_before (n : nat) (s : str) : Prop :=
  ∀ j, (j < n)%nat → at_separator (drop j s) = false.

Lemma starts_with_app p s t : starts_with p s = true → starts_with p (s ++ t) = true.
Proof. rewrite !starts_with_spec. intros [u ->]. exists (u ++ t). by rewrite app_assoc. Qed.

Lemma at_separator_app s t : at_separator s = true → at_separator (s ++ t) = true.
Proof.
  unfold at_separator. rewrite !orb_true_iff.
  intros [[H|H]|H]; apply (starts_with_app _ _ t) in H; auto.
Qed.

Lemma find_None_drop p s j : p ≠ [] → find p s = None → starts_with p (drop j s) = false.
Proof.
  intros Hp Hf. apply find_None in Hf. apply not_true_iff_false. rewrite starts_with_spec. intros [t Ht].
  apply not_true_iff_false in Hf. apply Hf, contains_spec. exists (take j s), t. by rewrite <- Ht, take_drop.
Qed.

(** A position found by [find], and none before it. *)
Lemma find_first p s j :
  p ≠ [] → (∀ i, find p s = Some i → (j < i)%nat) → starts_with p (drop j s) = false.
Proof.
  intros Hp H. destruct (find p s) as [i|] eqn:E; [|by apply find_None_drop].
  apply find_Some in E as (_ & _ & Hno). by apply Hno, H.
Qed.

Lemma min_positions (l : list (option nat)) acc :
  match foldl min_position acc l with
  | Some k => (acc = Some k ∨ Some k ∈ l) ∧ ∀ i, acc = Some i ∨ Some i ∈ l → (k ≤ i)%nat
  | None => acc = None ∧ ∀ o, o ∈ l → o = None
  end.
Proof.
  revert acc. induction l as [|o l IH]; intros acc; cbn [foldl].
  - destruct acc as [k|]; [|by split; [|intros ? ?%elem_of_nil]].
    split; [by left|]. by intros i [[= ->]|?%elem_of_nil].
  - specialize (IH (min_position acc o)). destruct (foldl min_position (min_position acc o) l) as [k|].
    + destruct IH as [H1 H2]. split.
      * rewrite elem_of_cons. destruct o as [p|]; [|naive_solver]. cbn [min_position] in H1.
        destruct acc as [q|]; [|naive_solver].
        destruct H1 as [[= <-]|H1]; [|naive_solver]. destruct (Nat.min_dec q p) as [-> | ->]; auto.
      * intros i. rewrite elem_of_cons. destruct o as [p|], acc as [q|]; cbn [min_position] in H2.
        -- assert (Hm := H2 (Nat.min q p) (or_introl eq_refl)).
           intros [[= ->]|[[= ->]|Hi]]; [lia|lia|by apply H2; right].
        -- intros [?|[[= ->]|Hi]]; [done|by apply H2; left|by apply H2; right].
        -- intros [[= ->]|[?|Hi]]; [by apply H2; left|done|by apply H2; right].
        -- intros [?|[?|Hi]]; [done|done|by apply H2; right].
    + destruct IH as [H1 H2]. destruct o as [p|]; [done|]. cbn [min_position] in H1. split; [done|].
      intros o [->|Ho]%elem_of_cons; [done|by apply H2].
Qed.

(** The position of the first separator. *)
Definition separators : list str := [lit "::"; lit "/"; lit "."].
Definition separator_position (source : str) : option nat :=
  foldl min_position None (map (λ p, find p source) separators).

Lemma at_separator_spec s : at_separator s = true ↔ ∃ p, p ∈ separators ∧ starts_with p s = true.
Proof.
  unfold at_separator, separators. rewrite !orb_true_iff. setoid_rewrite elem_of_cons.
  setoid_rewrite elem_of_cons. setoid_rewrite list_elem_of_singleton. naive_solver.
Qed.

Lemma separator_nonempty p : p ∈ separators → p ≠ [].
Proof. unfold separators. rewrite !elem_of_cons. by intros [->|[->|[->|?%elem_of_nil]]]. Qed.

Lemma no_separator_at source j :
  (∀ p i, p ∈ separators → find p source = Some i → (j < i)%nat) → at_separator (drop j source) = false.
Proof.
  intros H. apply not_true_iff_false. intros (p & Hp & Hs)%at_separator_spec.
  rewrite find_first in Hs; [done|by apply separator_nonempty|]. intros i. by apply H.
Qed.

Lemma separator_position_spec source :
  match separator_position source with
  | Some pos => at_separator (drop pos source) = true ∧ (pos ≤ length source)%nat ∧
      no_separator_before pos source
  | None => ∀ j, at_separator (drop j source) = false
  end.
Proof.
  unfold separator_position. pose proof (min_positions (map (λ p, find p source) separators) None) as H.
  destruct (foldl min_position None _) as [pos|]; destruct H as [H1 H2].
  - destruct H1 as [?|(p & Hf & Hp)%list_elem_of_fmap]; [done|]. symmetry in Hf.
    pose proof (find_Some _ _ _ Hf) as (Hs & Hl & _). split_and!; [|done|].
    + apply at_separator_spec. by exists p.
    + intros j Hj. apply no_separator_at. intros q i Hq Hi.
      assert (pos ≤ i)%nat; [|lia]. apply H2. right. apply list_elem_of_fmap. by exists q.
  - intros j. apply no_separator_at. intros q i Hq Hi.
    assert (Some i = None); [|done]. apply H2, list_elem_of_fmap. by exists q.
Qed.

(** The package of an import ends at the first separator. *)
Lemma base_spec source language :
  is_js language && starts_with (lit "@") source = false →
  let base := extract_import_package_base source language in
  ∃ rest, source = base ++ rest ∧ no_separator_before (length base) source ∧
    (rest = [] ∨ at_separator rest = true).
Proof.
  intros Hjs. unfold extract_import_package_base. rewrite Hjs.
  pose proof (separator_position_spec source) as H.
  change (foldl min_position None _) with (separator_position source).
  destruct (separator_position source) as [pos|]; cbv zeta.
  - destruct H as (Hs & Hl & Hno). exists (drop pos source). rewrite take_drop, length_take, Nat.min_l by done.
    auto.
  - exists []. rewrite app_nil_r. split_and!; [done| |by left]. intros j _. apply H.
Qed.

Lemma lowercase_separator c d : d ∈ [46; 47; 58] → to_ascii_lowercase c = d ↔ c = d.
Proof.
  rewrite !elem_of_cons. unfold to_ascii_lowercase.
  intros Hd. destruct ((65 <=? c) && (c <=? 90)) eqn:E; [|done].
  destruct Hd as [->|[->|[->|?%elem_of_nil]]]; lia.
Qed.

Lemma at_separator_lowercase s : at_separator (map to_ascii_lowercase s) = at_separator s.
Proof.
  assert (H : ∀ c d, d ∈ [46; 47; 58] → (d =? to_ascii_lowercase c) = (d =? c)).
  { intros c d Hd. apply eq_true_iff_eq. rewrite !Z.eqb_eq. split; intros E; symmetry; symmetry in E;
      by apply lowercase_separator. }
  unfold at_separator. change (lit "::") with [58; 58]. change (lit "/") with [47]. change (lit ".") with [46].
  destruct s as [|c [|d s]]; cbn [map starts_with]; rewrite ?H by set_solver; done.
Qed.

(** The cut of an import: what precedes the first separator, and the rest. *)
Definition cut (source base rest : str) : Prop :=
  source = base ++ rest ∧ no_separator_before (length base) source ∧
  (rest = [] ∨ at_separator rest = true).

Lemma cut_unique source b r b' r' : cut source b r → cut source b' r' → b = b'.
Proof.
  assert (Hle : ∀ b r b' r', cut source b r → cut source b' r' → (length b' ≤ length b)%nat).
  { clear. intros b r b' r' (Hs & _ & Hr) (Hs' & Hno & _).
    destruct (Nat.le_gt_cases (length b') (length b)) as [?|Hlt]; [done|]. exfalso.
    specialize (Hno _ Hlt). rewrite Hs in Hno at 1. rewrite drop_app_length in Hno.
    destruct Hr as [->|Hr]; [|congruence]. rewrite app_nil_r in Hs.
    rewrite Hs' in Hs. apply (f_equal length) in Hs. rewrite length_app in Hs. lia. }
  intros H H'. assert (Hlen : length b = length b') by (apply Nat.le_antisymm; eauto).
  destruct H as (Hs & _), H' as (Hs' & _). rewrite Hs in Hs'. by apply app_inj_1 in Hs' as [? _].
Qed.

(** Comparing an import with a package name ends the import at its first
    separator, case aside; a package whose own name holds a separator, as the
    module paths of Go do, is therefore matched by no import, itself included. *)
Theorem imports_match_unseparated_packages source pkg language :
  language ≠ Python → is_js language && starts_with (lit "@") source = false →
  (imports_match_package source pkg language = true ↔
     ∃ base rest, cut source base rest ∧ eq_ignore_ascii_case base pkg = true) ∧
  (imports_match_package source pkg language = true → no_separator_before (length pkg) pkg).
Proof.
  intros Hpy Hjs. unfold imports_match_package.
  assert (Hc : ∀ n, canonicalize_package_name n language = map to_ascii_lowercase n) by (by destruct language).
  rewrite !Hc, bool_decide_eq_true. destruct (base_spec source language Hjs) as (rest & Hs & Hno & Hr).
  set (base := extract_import_package_base source language) in *.
  assert (Hcut : cut source base rest) by done. split; [split|].
  - intros E. exists base, rest. split; [done|]. by apply bool_decide_eq_true.
  - intros (b & r & Hb & E). rewrite (cut_unique _ _ _ _ _ Hcut Hb). by apply bool_decide_eq_true in E.
  - intros E j Hj. apply not_true_iff_false. intros Hsep.
    assert (Hlen : length base = length pkg) by (apply (f_equal length) in E; by rewrite !length_map in E).
    rewrite <- at_separator_lowercase, <- skipn_map, <- E, skipn_map, at_separator_lowercase in Hsep.
    apply (at_separator_app _ rest) in Hsep. rewrite <- drop_app_le in Hsep by lia. rewrite <- Hs in Hsep.
    rewrite Hno in Hsep; [done|lia].
Qed.

(** Canonical Python names are their own canonical names. *)
Theorem python_names_canonical name :
  canonicalize_python_name (canonicalize_python_name name) = canonicalize_python_name name.
Proof.
  unfold canonicalize_python_name.
  assert (Hl : ∀ s b, map to_ascii_lowercase (collapse b (map to_ascii_lowercase s)) =
    collapse b (map to_ascii_lowercase s)).
  { assert (Hi : ∀ c, to_ascii_lowercase (to_ascii_lowercase c) = to_ascii_lowercase c).
    { intros c. unfold to_ascii_lowercase. destruct ((65 <=? c) && (c <=? 90)) eqn:E; [|by rewrite E].
      assert ((65 <=? c + 32) && (c + 32 <=? 90) = false) as ->; [lia|done]. }
    induction s as [|c s IH]; intros b; [done|]. cbn [map collapse].
    destruct (is_python_separator _), b; cbn [map]; rewrite ?IH, ?Hi; done. }
  rewrite Hl. generalize (map to_ascii_lowercase name). intros s.
  assert (H : ∀ s, collapse true (collapse true s) = collapse true s ∧
    collapse false (collapse true s) = collapse true s ∧ collapse false (collapse false s) = collapse false s).
  { clear. induction s as [|c s (IH1 & IH2 & IH3)]; [done|]. cbn [collapse].
    destruct (is_python_separator c) eqn:E; [|cbn [collapse]; rewrite E, IH3; done].
    change (is_python_separator dash) with true. cbn [collapse]. rewrite IH1. done. }
  apply H.
Qed.

(** ** Examples *)

Example build_system_examples :
  is_build_config_name (lit "Foo.csproj") = true ∧ is_build_config_name (lit "cargo.toml") = false ∧
  is_build_config_name_lower (lit "cargo.toml") = true ∧
  get_affected_extensions (lit "Cargo.toml") = ["rs"] ∧
  imports_match_package (lit "serde::de") (lit "serde") Rust = true ∧
  imports_match_package (lit "@babel/core/lib") (lit "@babel/core") JavaScript = true ∧
  imports_match_package (lit "scikit_learn.svm") (lit "Scikit-Learn") Python = true.
Proof. by vm_compute. Qed.

Theorem imports_match_unseparated_packages_witness :
  imports_match_package (lit "github.com/gin-gonic/gin") (lit "github.com/gin-gonic/gin") Go = false.
Proof.
  apply not_true_iff_false. intros H.
  apply (imports_match_unseparated_packages (lit "github.com/gin-gonic/gin") (lit "github.com/gin-gonic/gin") Go)
    in H; [|done|done].
  discriminate (H 6%nat ltac:(vm_compute; lia)).
Defined.

End BuildSystem.
