(* ===== verification/FileTypes.v ===== *)
(** * What kind of file a path names

    Models the classification of files: [LanguageInfo] and [ContentRoute] of
    crates/core/cce-types/src/types/language.rs, [ChunkContentType] of types/
    ast_to_nl/chunked.rs and [FileCategory] of types/ast_to_nl/
    file_category.rs. *)

From S2P Require Import Prelude Str Paths FsPath Languages BuildSystem.
From Stdlib Require Import ZArith Lia.
#[local] Open Scope Z_scope.

Module FileTypes.
Import Str FsPath Languages BuildSystem.

Record LanguageInfo := {
  language : Language;
  file_type : FileType;
  info_extensions : list str
}.
Definition default_info : LanguageInfo :=
  {| language := Unknown; file_type := Text; info_extensions := [] |}.

Inductive ChunkContentType :=
| CodeContent (language : Language)
| DocumentContent
| ConfigContent (format : str)
| PlainTextContent.

Inductive FileCategory := CodeFile | ConfigFile | DocumentationFile | SchemaFile | OtherFile.

#[export] Instance FileCategory_eq_dec : EqDecision FileCategory.
Proof. solve_decision. Defined.

Inductive ContentRoute := RouteAst | RouteDocumentation | RouteConfig | RouteSchema | RoutePlainText.

(** ** Categories *)

Definition as_u8 (c : FileCategory) : Z :=
  match c with CodeFile => 0 | ConfigFile => 1 | DocumentationFile => 2 | SchemaFile => 3 | OtherFile => 4 end.

Definition from_u8 (code : Z) : option FileCategory :=
  if code =? 0 then Some CodeFile
  else if code =? 1 then Some ConfigFile
  else if code =? 2 then Some DocumentationFile
  else if code =? 3 then Some SchemaFile
  else if code =? 4 then Some OtherFile
  else None.

Definition from_file_type (t : FileType) : FileCategory :=
  match t with
  | Source | Header => CodeFile
  | Schema => SchemaFile
  | Config => ConfigFile
  | Documentation => DocumentationFile
  | Text => OtherFile
  end.

Definition as_str (c : FileCategory) : string :=
  match c with
  | CodeFile => "code" | ConfigFile => "config" | DocumentationFile => "documentation"
  | SchemaFile => "schema" | OtherFile => "other"
  end.

Definition category_from_name (s : str) : option FileCategory :=
  match_str s [(["code"], CodeFile); (["config"], ConfigFile); (["documentation"], DocumentationFile);
               (["schema"], SchemaFile); (["other"], OtherFile)].

(** ** Chunk payloads *)

Definition is_code (c : ChunkContentType) : bool := match c with CodeContent _ => true | _ => false end.
Definition is_document_content (c : ChunkContentType) : bool :=
  match c with DocumentContent => true | _ => false end.
Definition is_config_content (c : ChunkContentType) : bool :=
  match c with ConfigContent _ => true | _ => false end.
Definition content_language (c : ChunkContentType) : option Language :=
  match c with CodeContent l => Some l | _ => None end.

Definition content_category (c : ChunkContentType) : FileCategory :=
  match c with
  | CodeContent _ => CodeFile
  | DocumentContent => DocumentationFile
  | ConfigContent _ => ConfigFile
  | PlainTextContent => OtherFile
  end.

(** [from_file_category] in a release build. *)
Definition from_file_category (category : FileCategory) (format : str) : ChunkContentType :=
  match category with
  | SchemaFile | DocumentationFile => DocumentContent
  | ConfigFile => ConfigContent format
  | OtherFile => PlainTextContent
  | CodeFile => PlainTextContent
  end.

Definition matches_category (c : ChunkContentType) (category : FileCategory) : bool :=
  match c, category with
  | CodeContent _, CodeFile => true
  | DocumentContent, DocumentationFile => true
  | DocumentContent, SchemaFile => true
  | ConfigContent _, ConfigFile => true
  | PlainTextContent, OtherFile => true
  | _, _ => false
  end.

Section detection.
Context (to_lowercase : str → str).

Definition detect_from_extension (t : Table) (ext : str) : Language * FileType :=
  match plugin_language_for_extension to_lowercase ext t with
  | Some index => (Custom index, Source)
  | None => default (Unknown, Text) (builtin_language_for_extension ext)
  end.

(** The arms that look at the lower-cased file name. *)
Definition is_make_or_docker (lower : str) : bool :=
  bool_decide (lower ∈ [lit "makefile"; lit "gnumakefile"; lit "dockerfile"]) ||
  starts_with (lit "dockerfile.") lower || starts_with (lit "makefile.") lower.

Definition data_format (l : Language) : Language :=
  match l with Json | Yaml | Toml | Xml => l | _ => Unknown end.

Definition detect_by_extension (t : Table) (ext : str) : LanguageInfo :=
  let '(language, file_type) := detect_from_extension t ext in
  {| language := language; file_type := file_type; info_extensions := [ext] |}.

Definition detect_from_path (t : Table) (p : Path) : LanguageInfo :=
  let ext := default [] (extension p) in
  match file_name p with
  | Some file_name =>
      let lower := to_lowercase file_name in
      if bool_decide (ext = []) && Paths.is_extensionless_doc_name lower then
        {| language := Unknown; file_type := Documentation; info_extensions := [] |}
      else if is_make_or_docker lower then
        {| language := Unknown; file_type := Config; info_extensions := [] |}
      else if is_build_config_name_lower lower then
        {| language := data_format (detect_from_extension t ext).1; file_type := Config;
           info_extensions := [ext] |}
      else detect_by_extension t ext
  | None => detect_by_extension t ext
  end.

Definition is_document_like (info : LanguageInfo) : bool :=
  match file_type info with Documentation | Config | Schema | Text => true | _ => false end.

Definition file_category (info : LanguageInfo) : FileCategory := from_file_type (file_type info).

Definition payload_format (info : LanguageInfo) : str :=
  match info_extensions info with
  | ext :: _ => if bool_decide (ext = []) then lit "other" else ext
  | [] => lit "other"
  end.

Definition payload_format_from_path (file_path : str) : str :=
  match Paths.extension_lower to_lowercase file_path with
  | Some ext => ext
  | None =>
      let name := to_lowercase (Paths.file_name_str file_path) in
      if bool_decide (name = lit "makefile") || bool_decide (name = lit "gnumakefile")
         || starts_with (lit "makefile.") name then lit "make"
      else if bool_decide (name = lit "dockerfile") || starts_with (lit "dockerfile.") name then lit "docker"
      else lit "other"
  end.

Definition chunk_content_type (info : LanguageInfo) : ChunkContentType :=
  match file_type info with
  | Source | Header => CodeContent (language info)
  | Config => ConfigContent (payload_format info)
  | Documentation | Schema => DocumentContent
  | Text => PlainTextContent
  end.

Definition chunk_content_type_for_path (info : LanguageInfo) (file_path : str) : ChunkContentType :=
  match file_type info with
  | Config => ConfigContent (payload_format_from_path file_path)
  | _ => chunk_content_type info
  end.

(** ** Routes *)

Definition route_from_language_info (info : LanguageInfo) : ContentRoute :=
  match file_type info with
  | Source | Header => RouteAst
  | Documentation => RouteDocumentation
  | Config => RouteConfig
  | Schema => RouteSchema
  | Text => RoutePlainText
  end.

Definition route_from_path (t : Table) (p : Path) : ContentRoute :=
  route_from_language_info (detect_from_path t p).

Definition is_document_route (r : ContentRoute) : bool := match r with RouteAst => false | _ => true end.

Definition determine_from_path (t : Table) (p : Path) : FileCategory :=
  from_file_type (file_type (detect_from_path t p)).

(** ** Display tags *)

Definition looks_like_config (path : str) : bool :=
  let path_lower := to_lowercase path in
  let file_name := Paths.file_name_str path_lower in
  let in_config_dir := existsb (λ seg, bool_decide (seg ∈ [lit "config"; lit ".config"])) (Paths.segments path_lower) in
  let named_config :=
    bool_decide (file_name = lit "config") || starts_with (lit "config.") file_name ||
    starts_with (lit ".config.") file_name || bool_decide (file_name = lit "settings") ||
    starts_with (lit "settings.") file_name || bool_decide (file_name = lit ".env") ||
    bool_decide (file_name = lit "dockerfile") || starts_with (lit "dockerfile.") file_name ||
    bool_decide (file_name = lit "makefile") || bool_decide (file_name = lit "gnumakefile") ||
    starts_with (lit "tsconfig.") file_name || is_build_config_name_lower file_name in
  let config_ext :=
    ends_with (lit ".yaml") path_lower || ends_with (lit ".yml") path_lower ||
    ends_with (lit ".toml") path_lower in
  in_config_dir || named_config || config_ext.

Definition looks_like_documentation (path : str) : bool :=
  let path_lower := to_lowercase path in
  let file_name := Paths.file_name_str path_lower in
  let named_doc :=
    existsb (λ name, starts_with (name ++ lit ".") file_name) Paths.EXTENSIONLESS_DOC_NAMES
    || Paths.is_extensionless_doc_name file_name in
  let in_docs_dir := bool_decide (lit "docs" ∈ Paths.segments path_lower) in
  named_doc || in_docs_dir ||
  existsb (λ ext, ends_with (lit ext) path_lower) [".md"; ".rst"; ".txt"; ".adoc"].

(** [Path::file_stem()]: the file name without its extension. *)
Definition file_stem (p : Path) : option str :=
  match file_name p with
  | None => None
  | Some n =>
      match extension p with
      | Some ext => Some (take (length n - S (length ext)) n)
      | None => Some n
      end
  end.

Definition is_core_module (p : Path) : bool :=
  let stem := default [] (file_stem p) in
  bool_decide (to_lowercase stem ∈ map lit ["main"; "lib"; "mod"; "index"; "__init__"; "__main__"]).

Definition generation_markers : list string :=
  ["// code generated by"; "// generated by"; "// auto-generated"; "// do not edit"; "@generated";
   "# code generated by"; "# generated by"; "# auto-generated"; "# do not edit"; "<!-- generated by";
   "<!-- @generated"; "<!-- auto-generated"; "<!-- do not edit"].

Definition is_generated_file (source : str) : bool :=
  existsb (λ line, existsb (λ m, contains (lit m) (to_lowercase line)) generation_markers)
    (take 10 (lines source)).

(** ** Agreement of the classifications *)

(** Every entry of the classification says the same about a file: the payload
    fits the category, and code is what is not routed to the documents. *)
Lemma classifications_agree info path :
  matches_category (chunk_content_type info) (file_category info) = true ∧
  matches_category (chunk_content_type_for_path info path) (file_category info) = true ∧
  is_document_route (route_from_language_info info) = is_document_like info ∧
  is_code (chunk_content_type info) = negb (is_document_like info) ∧
  (file_type info ≠ Schema → content_category (chunk_content_type info) = file_category info).
Proof.
  unfold chunk_content_type_for_path, chunk_content_type, file_category, is_document_like,
    route_from_language_info.
  destruct (file_type info); split_and!; done.
Qed.

Lemma categories_round_trip c :
  from_u8 (as_u8 c) = Some c ∧ category_from_name (lit (as_str c)) = Some c ∧
  ∀ code, from_u8 code = Some c → code = as_u8 c.
Proof.
  split_and!; [by destruct c|by destruct c|]. intros code. unfold from_u8.
  destruct (Z.eqb_spec code 0) as [->|]; [by intros [= <-]|].
  destruct (Z.eqb_spec code 1) as [->|]; [by intros [= <-]|].
  destruct (Z.eqb_spec code 2) as [->|]; [by intros [= <-]|].
  destruct (Z.eqb_spec code 3) as [->|]; [by intros [= <-]|].
  destruct (Z.eqb_spec code 4) as [->|]; [by intros [= <-]|]. done.
Qed.

(** What an arm of the table of extensions says about its language. *)
Lemma source_extensions_have_parsers ext l ft :
  builtin_language_for_extension ext = Some (l, ft) → ft = Source ∨ ft = Header →
  is_supported_for_ast l = true.
Proof.
  unfold builtin_language_for_extension. intros H Hft.
  assert (Hall : Forall (λ arm, arm.2.2 = Source ∨ arm.2.2 = Header → is_supported_for_ast arm.2.1 = true)
    extension_arms) by (apply (bool_decide_unpack _); vm_compute; exact I).
  revert H. induction Hall as [|[lits [l' ft']] arms Ha _ IH]; [done|]. cbn [match_str].
  case_bool_decide; [|exact IH]. intros [= -> ->]. by apply Ha.
Qed.

Lemma from_extension_spec t ext l ft :
  detect_from_extension t ext = (l, ft) →
  (∃ index, plugin_language_for_extension to_lowercase ext t = Some index ∧ l = Custom index ∧ ft = Source) ∨
  plugin_language_for_extension to_lowercase ext t = None ∧
    (builtin_language_for_extension ext = Some (l, ft) ∨
     builtin_language_for_extension ext = None ∧ l = Unknown ∧ ft = Text).
Proof.
  unfold detect_from_extension. destruct (plugin_language_for_extension _ ext t) as [index|].
  - intros [= <- <-]. left. by exists index.
  - right. split; [done|]. destruct (builtin_language_for_extension ext); simpl in *; naive_solver.
Qed.

Lemma detect_cases t p :
  (file_type (detect_from_path t p) = Documentation ∨ file_type (detect_from_path t p) = Config) ∨
  detect_from_path t p = detect_by_extension t (default [] (extension p)).
Proof.
  unfold detect_from_path. destruct (file_name p); [|by right].
  destruct (_ && _); [by left; left|]. destruct (is_make_or_docker _); [by left; right|].
  destruct (is_build_config_name_lower _); [by left; right|by right].
Qed.

(** Whatever is routed to the parser has a parser. *)
Theorem routed_files_have_parsers t p :
  route_from_path t p = RouteAst →
  is_supported_for_ast (language (detect_from_path t p)) = true.
Proof.
  unfold route_from_path, route_from_language_info.
  destruct (detect_cases t p) as [[->| ->]| ->]; [done..|]. unfold detect_by_extension.
  destruct (detect_from_extension t (default [] (extension p))) as [l ft] eqn:E. cbn [file_type language].
  intros Hft. destruct (from_extension_spec t _ l ft E) as [(i & _ & -> & _)|(_ & [H|(_ & _ & ->)])]; [done| |done].
  apply source_extensions_have_parsers in H; [done|]. destruct ft; try done; auto.
Qed.

(** The manifest of a build system is configuration, whatever its extension. *)
Theorem manifests_are_configuration t p n :
  file_name p = Some n → is_build_config_name_lower (to_lowercase n) = true →
  file_type (detect_from_path t p) = Config.
Proof.
  intros Hn Hm. unfold detect_from_path. rewrite Hn.
  assert (Hd : Paths.is_extensionless_doc_name (to_lowercase n) = false).
  { apply bool_decide_eq_false_2. intros Hin.
    assert (Hall : Forall (λ d, is_build_config_name_lower d = false) Paths.EXTENSIONLESS_DOC_NAMES)
      by (apply (bool_decide_unpack _); vm_compute; exact I).
    rewrite Forall_forall in Hall. rewrite (Hall _ Hin) in Hm. done. }
  rewrite Hd, andb_false_r. destruct (is_make_or_docker _); [done|]. by rewrite Hm.
Qed.

(** The table of extensions knows lower-case letters only, and extensions are
    looked up as they are written: source files with an upper-case extension
    are text in no language. *)
Theorem upper_case_extension_is_text t p ext c :
  extension p = Some ext → c ∈ ext → 65 ≤ c ≤ 90 →
  plugin_language_for_extension to_lowercase ext t = None →
  (∀ n, file_name p = Some n → is_make_or_docker (to_lowercase n) = false ∧
     is_build_config_name_lower (to_lowercase n) = false) →
  detect_from_path t p = {| language := Unknown; file_type := Text; info_extensions := [ext] |}.
Proof.
  intros Hext Hc Hup Hplug Hname.
  assert (Hb : builtin_language_for_extension ext = None).
  { unfold builtin_language_for_extension.
    assert (Hall : Forall (λ arm, Forall (λ e, Forall (λ d, ¬ (65 ≤ d ≤ 90)) (lit e)) arm.1) extension_arms)
      by (apply (bool_decide_unpack _); vm_compute; exact I).
    induction Hall as [|[lits a] arms Ha _ IH]; [done|]. cbn [match_str].
    rewrite bool_decide_eq_false_2; [done|]. intros (e & -> & He)%list_elem_of_fmap.
    rewrite Forall_forall in Ha. specialize (Ha e He). rewrite Forall_forall in Ha. by apply (Ha c). }
  unfold detect_from_path. rewrite Hext. change (default [] (Some ext)) with ext.
  assert (Hd : detect_by_extension t ext = {| language := Unknown; file_type := Text; info_extensions := [ext] |})
    by (unfold detect_by_extension, detect_from_extension; by rewrite Hplug, Hb).
  destruct (file_name p) as [n|] eqn:En; [|done]. destruct (Hname n eq_refl) as [H1 H2].
  rewrite H1, H2, (bool_decide_eq_false_2 (ext = [])); [done|]. intros ->. by apply elem_of_nil in Hc.
Qed.

End detection.

(** ** Examples *)

Definition demo_path (ns : list string) : Path := {| absolute := false; names := map lit ns |}.

Example file_type_examples :
  map (λ ns, determine_from_path demo_lowercase [] (demo_path ns))
    [["src"; "main.rs"]; ["README"]; ["Cargo.toml"]; ["Makefile"]; ["notes.txt"]; ["api.proto"]; ["CMakeLists.txt"]] =
  [CodeFile; DocumentationFile; ConfigFile; ConfigFile; OtherFile; SchemaFile; ConfigFile] ∧
  language (detect_from_path demo_lowercase [] (demo_path ["Cargo.toml"])) = Toml ∧
  payload_format_from_path demo_lowercase (lit "Dockerfile.dev") = lit "dev".
Proof. by vm_compute. Qed.

Theorem routed_files_have_parsers_witness :
  is_supported_for_ast (language (detect_from_path demo_lowercase [] (demo_path ["inc"; "a.h"]))) = true.
Proof. by apply (routed_files_have_parsers demo_lowercase []). Defined.

Theorem manifests_are_configuration_witness :
  file_type (detect_from_path demo_lowercase [] (demo_path ["CMakeLists.txt"])) = Config.
Proof. by apply (manifests_are_configuration demo_lowercase [] _ (lit "CMakeLists.txt")). Defined.

Theorem upper_case_extension_is_text_witness :
  detect_from_path demo_lowercase [] (demo_path ["MAIN.RS"]) =
    {| language := Unknown; file_type := Text; info_extensions := [lit "RS"] |}.
Proof.
  apply (upper_case_extension_is_text demo_lowercase [] (demo_path ["MAIN.RS"]) (lit "RS") 82).
  - reflexivity.
  - by left.
  - lia.
  - reflexivity.
  - intros n [= <-]. by split.
Defined.

End FileTypes.
