(* ===== verification/TestMarks.v ===== *)
(** * Test markers

    Models crates/core/cce-types/src/types/test_info.rs: the marker that says
    whether a chunk is test code, its merge, and the rules of file paths. *)

From S2P Require Import Prelude Str Paths Languages.
From Stdlib Require Import ZArith Lia.
#[local] Open Scope Z_scope.

Module TestMarks.
Import Str Languages.

Inductive TestStatus := StatusUnknown | StatusTest.
Inductive TestSource := NoSource | PathSource | AstSource.
Inductive TestGranularity := FileLevel | EntityLevel | GroupLevel.

#[export] Instance TestStatus_eq_dec : EqDecision TestStatus.
Proof. solve_decision. Defined.
#[export] Instance TestSource_eq_dec : EqDecision TestSource.
Proof. solve_decision. Defined.
#[export] Instance TestGranularity_eq_dec : EqDecision TestGranularity.
Proof. solve_decision. Defined.

Record TestInfo := { status : TestStatus; source : TestSource; granularity : TestGranularity }.

#[export] Instance TestInfo_eq_dec : EqDecision TestInfo.
Proof. solve_decision. Defined.

Definition status_as_u8 (s : TestStatus) : Z := match s with StatusUnknown => 0 | StatusTest => 1 end.
Definition status_from_u8 (code : Z) : TestStatus := if code =? 1 then StatusTest else StatusUnknown.

Definition source_as_u8 (s : TestSource) : Z :=
  match s with NoSource => 0 | PathSource => 1 | AstSource => 2 end.
Definition source_from_u8 (code : Z) : TestSource :=
  if code =? 2 then AstSource else if code =? 1 then PathSource else NoSource.

Definition rank (s : TestSource) : Z := match s with AstSource => 3 | PathSource => 2 | NoSource => 1 end.

(** [Self::construct]; [new] asserts the legal combinations in debug builds. *)
Definition construct (st : TestStatus) (s : TestSource) (g : TestGranularity) : TestInfo :=
  {| status := st; source := s; granularity := g |}.
Definition legal (i : TestInfo) : bool :=
  match status i, source i with
  | StatusTest, (AstSource | PathSource) => true
  | StatusUnknown, NoSource => true
  | _, _ => false
  end.

Definition unknown : TestInfo := construct StatusUnknown NoSource GroupLevel.
Definition test_ast : TestInfo := construct StatusTest AstSource EntityLevel.
Definition test_ast_block : TestInfo := construct StatusTest AstSource GroupLevel.
Definition test_path : TestInfo := construct StatusTest PathSource FileLevel.

Definition is_test (i : TestInfo) : bool := bool_decide (status i = StatusTest).
Definition is_unknown (i : TestInfo) : bool := bool_decide (status i = StatusUnknown).

Definition with_group (i : TestInfo) : TestInfo := construct (status i) (source i) GroupLevel.

Definition merge (self other : TestInfo) : TestInfo :=
  match status self, status other with
  | StatusTest, StatusTest =>
      with_group (if rank (source self) <? rank (source other) then other else self)
  | StatusTest, _ => with_group self
  | _, StatusTest => with_group other
  | StatusUnknown, StatusUnknown => unknown
  end.

Definition can_merge (a b : TestInfo) : bool := Bool.eqb (is_test a) (is_test b).

Definition merge_entity (entity_infos : gmap Z TestInfo) (info : TestInfo) (entity_id : Z) : TestInfo :=
  match entity_infos !! entity_id with
  | Some entity_info => merge info entity_info
  | None => info
  end.

Definition merge_with_entities (file_info : TestInfo) (entity_infos : gmap Z TestInfo) (entity_ids : list Z)
    : TestInfo :=
  foldl (merge_entity entity_infos) file_info entity_ids.

(** ** The rules of file paths *)

Definition TEST_DIR_SEGMENTS : list string :=
  ["tests"; "test"; "__tests__"; "e2e-tests"; "integration-tests"; "testdata"].

Definition TEST_SUFFIXES : list string :=
  [".spec.js"; ".spec.ts"; ".spec.mjs"; ".spec.cjs"; ".spec.mts"; ".spec.cts"; ".spec.jsx"; ".spec.tsx";
   ".test.js"; ".test.ts"; ".test.mjs"; ".test.cjs"; ".test.mts"; ".test.cts"; ".test.jsx"; ".test.tsx"].

Definition named_like (prefix suffix : string) (file_name : str) : bool :=
  starts_with (lit prefix) file_name && ends_with (lit suffix) file_name.
Definition ends (suffix : string) (file_name : str) : bool := ends_with (lit suffix) file_name.

Definition generic_test_dir (segments : list str) : bool :=
  existsb (λ s, bool_decide (s ∈ map lit TEST_DIR_SEGMENTS)) segments.

(** The rule of each language beside the generic directories. *)
Definition language_rule (language : option Language) (file_name : str) (segments : list str) : bool :=
  match language with
  | Some Rust => ends "_test.rs" file_name
  | Some Python => named_like "test_" ".py" file_name || bool_decide (file_name = lit "conftest.py")
  | Some Go => ends "_test.go" file_name
  | Some (JavaScript | TypeScript | Jsx | Tsx) => existsb (λ suffix, ends suffix file_name) TEST_SUFFIXES
  | Some Java => ends "Test.java" file_name || ends "Tests.java" file_name
  | Some Kotlin => ends "Test.kt" file_name || ends "Tests.kt" file_name || ends "Spec.kt" file_name
  | Some CSharp => ends "Test.cs" file_name || ends "Tests.cs" file_name
  | Some Dart => named_like "test_" ".dart" file_name
  | Some Scala => false
  | Some Php => ends "Test.php" file_name
  | Some Ruby => bool_decide (lit "spec" ∈ segments)
  | Some C => ends "_test.c" file_name
  | Some Cpp => ends "_test.cpp" file_name || ends "_test.cc" file_name
  | Some Lua =>
      named_like "test_" ".lua" file_name || ends "_test.lua" file_name || ends "_spec.lua" file_name
      || bool_decide (lit "spec" ∈ segments)
  | Some Bash => ends ".bats" file_name
  | _ => false
  end.

Definition from_path (language : option Language) (path : str) : TestInfo :=
  let file_name := Paths.file_name_str path in
  let segments := Paths.segments path in
  if language_rule language file_name segments || generic_test_dir segments then test_path else unknown.

(** ** The merge *)

(** Markers up to their granularity. *)
Definition signal (i : TestInfo) : TestStatus * TestSource := (status i, source i).

Lemma merge_legal a b : legal a = true → legal b = true → legal (merge a b) = true.
Proof. destruct a as [[] [] ?], b as [[] [] ?]; done. Qed.

#[export] Instance merge_comm : Comm (=) merge.
Proof. intros [[] [] ?] [[] [] ?]; done. Qed.

#[export] Instance merge_assoc : Assoc (=) merge.
Proof. intros [[] [] ?] [[] [] ?] [[] [] ?]; done. Qed.

(** Merging is the least upper bound: a test marker wins, a stronger source
    wins among them, and nothing else gets in. *)
Lemma merge_is_test a b : is_test (merge a b) = is_test a || is_test b.
Proof. destruct a as [[] [] ?], b as [[] [] ?]; done. Qed.

Lemma merge_signal_cases a b :
  legal a = true → legal b = true →
  (signal (merge a b) = signal a ∨ signal (merge a b) = signal b) ∧
  rank (source (merge a b)) = Z.max (rank (source a)) (rank (source b)).
Proof. destruct a as [[] [] ?], b as [[] [] ?]; simpl; auto; done. Qed.

(** The markers of the entities that have one. *)
Definition known_infos (entity_infos : gmap Z TestInfo) (ids : list Z) : list TestInfo :=
  omap (λ i, entity_infos !! i) ids.

Lemma merge_with_entities_fold file_info entity_infos ids :
  merge_with_entities file_info entity_infos ids = foldl merge file_info (known_infos entity_infos ids).
Proof.
  unfold merge_with_entities. revert file_info. induction ids as [|i ids IH]; intros f; [done|].
  cbn [foldl known_infos omap list_omap]. unfold merge_entity at 2. rewrite IH. unfold known_infos.
  simpl. by destruct (entity_infos !! i).
Qed.

Lemma foldl_merge_permutation l k f : l ≡ₚ k → foldl merge f l = foldl merge f k.
Proof.
  intros H. revert f. induction H as [|a l k _ IH|a b l|l k m _ IH1 _ IH2]; intros f; simpl; [done|by apply IH| |].
  - by rewrite <- !merge_assoc, (merge_comm b a).
  - by rewrite IH1, IH2.
Qed.

Lemma foldl_merge_spec l f :
  legal f = true → Forall (λ i, legal i = true) l →
  legal (foldl merge f l) = true ∧
  is_test (foldl merge f l) = is_test f || existsb is_test l ∧
  (∀ i, i = f ∨ i ∈ l → rank (source i) ≤ rank (source (foldl merge f l))) ∧
  ∃ i, (i = f ∨ i ∈ l) ∧ signal (foldl merge f l) = signal i.
Proof.
  intros Hf Hl. revert f Hf. induction Hl as [|a l Ha Hl IH]; intros f Hf; cbn [foldl existsb].
  - split_and!; [done|by rewrite orb_false_r|by intros i [->|?%elem_of_nil]|exists f; auto].
  - destruct (IH (merge f a) (merge_legal f a Hf Ha)) as (H1 & H2 & H3 & i & Hi & Hs).
    destruct (merge_signal_cases f a Hf Ha) as [Hc Hr]. split_and!; [done| | |].
    + rewrite H2, merge_is_test. by rewrite orb_assoc.
    + intros j. rewrite elem_of_cons. intros Hj. specialize (H3 (merge f a) (or_introl eq_refl)) as Hm.
      destruct Hj as [->|[->|Hj]]; [lia|lia|]. apply H3. by right.
    + setoid_rewrite elem_of_cons. destruct Hi as [->|Hi]; [|exists i; auto].
      rewrite Hs. destruct Hc as [Hc|Hc]; rewrite Hc; [exists f; auto|exists a; auto].
Qed.

(** The marker of a chunk from those of its file and its entities: test exactly
    when one of them is, carrying the strongest of their sources, and the same
    in whatever order the entities come. *)
Theorem chunk_marker_spec file_info entity_infos ids :
  legal file_info = true → (∀ i info, entity_infos !! i = Some info → legal info = true) →
  let marker := merge_with_entities file_info entity_infos ids in
  legal marker = true ∧
  (is_test marker = true ↔
     is_test file_info = true ∨ ∃ i info, i ∈ ids ∧ entity_infos !! i = Some info ∧ is_test info = true) ∧
  (∀ i info, i ∈ ids → entity_infos !! i = Some info → rank (source info) ≤ rank (source marker)) ∧
  (∃ info, (info = file_info ∨ ∃ i, i ∈ ids ∧ entity_infos !! i = Some info) ∧ signal marker = signal info) ∧
  (∀ ids', ids ≡ₚ ids' → merge_with_entities file_info entity_infos ids' = marker).
Proof.
  intros Hf Hm marker. unfold marker. rewrite merge_with_entities_fold.
  assert (Hin : ∀ info, info ∈ known_infos entity_infos ids ↔ ∃ i, i ∈ ids ∧ entity_infos !! i = Some info)
    by (intros info; apply list_elem_of_omap).
  destruct (foldl_merge_spec (known_infos entity_infos ids) file_info Hf) as (H1 & H2 & H3 & i & Hi & Hs).
  { apply Forall_forall. intros info (i & _ & Hi)%Hin. by eapply Hm. }
  split_and!; [done| | | |].
  - rewrite H2, orb_true_iff, existsb_exists. setoid_rewrite <- list_elem_of_In. setoid_rewrite Hin. naive_solver.
  - intros j info Hj Hinfo. apply H3. right. apply Hin. eauto.
  - exists i. split; [|done]. destruct Hi as [->|Hi%Hin]; auto.
  - intros ids' Hp. rewrite merge_with_entities_fold. apply foldl_merge_permutation.
    unfold known_infos. by rewrite Hp.
Qed.

(** ** Paths *)

(** A directory of tests marks a file of any language, and the rules of a
    language only add to those of a plain file. *)
Theorem test_directories_mark_every_language language path s :
  s ∈ Paths.segments path → s ∈ map lit TEST_DIR_SEGMENTS →
  from_path language path = test_path ∧
  (∀ other, from_path None other = test_path → from_path language other = test_path).
Proof.
  intros Hs Hd. assert (Hg : ∀ p, generic_test_dir (Paths.segments p) = true → from_path language p = test_path).
  { intros p Hp. unfold from_path. by rewrite Hp, orb_true_r. }
  split.
  - apply Hg, existsb_exists. exists s. rewrite <- list_elem_of_In. split; [done|]. by apply bool_decide_eq_true.
  - intros other. unfold from_path at 1. cbn [language_rule orb].
    destruct (generic_test_dir _) eqn:E; [|done]. intros _. by apply Hg.
Qed.

Lemma codes_round_trip :
  (∀ s, status_from_u8 (status_as_u8 s) = s) ∧ (∀ s, source_from_u8 (source_as_u8 s) = s) ∧
  (∀ a b, rank a < rank b ↔ source_as_u8 a < source_as_u8 b).
Proof. split_and!; [by intros []|by intros []|]. by intros [] []. Qed.

(** ** Examples *)

Example test_path_examples :
  map (λ p, is_test (from_path (Some Rust) (lit p))) ["tests/foo.rs"; "src/foo_test.rs"; "src/contest.rs"] =
    [true; true; false] ∧
  is_test (from_path (Some Tsx) (lit "user.spec.tsx")) = true ∧
  is_test (from_path (Some Ruby) (lit "spec/a.rb")) = true ∧
  is_test (from_path None (lit "docs\tests\README.md")) = true.
Proof. by vm_compute. Qed.

Theorem chunk_marker_spec_witness :
  let infos : gmap Z TestInfo := <[1 := test_ast]> (<[2 := unknown]> ∅) in
  is_test (merge_with_entities unknown infos [2; 1; 3]) = true ∧
  merge_with_entities unknown infos [1; 2; 3] = merge_with_entities unknown infos [2; 1; 3].
Proof.
  intros infos. assert (Hl : ∀ i info, infos !! i = Some info → legal info = true).
  { intros i info. unfold infos. intros [[_ <-]|[_ [[_ <-]|[_ H]]%lookup_insert_Some]]%lookup_insert_Some;
      [done|done|]. by rewrite lookup_empty in H. }
  destruct (chunk_marker_spec unknown infos [2; 1; 3] eq_refl Hl) as (_ & H & _ & _ & Hp). split.
  - apply H. right. exists 1, test_ast. split_and!; [right; by left|reflexivity|reflexivity].
  - apply Hp. constructor.
Defined.

Theorem test_directories_mark_every_language_witness :
  from_path (Some Go) (lit "pkg/testdata/main.go") = test_path.
Proof.
  apply (test_directories_mark_every_language (Some Go) (lit "pkg/testdata/main.go") (lit "testdata"));
    apply (bool_decide_unpack _); vm_compute; exact I.
Defined.

End TestMarks.
