(* ===== verification/TextBudget.v ===== *)
(** Budgets on text (crates/core/cce-text/src/budget.rs): the cost of a text in
    a unit, the longest fitting prefix and suffix, and the split of a text into
    fitting ranges that every chunking path ends in. *)

From S2P Require Import Prelude.

#[local] Open Scope nat_scope.

Module TextBudget.

(** ** Strings

    A [&str] is its sequence of Unicode scalar values; an index into it is a
    byte offset, and slicing at an offset that is not a character boundary
    panics, which is [None] here. *)
Abbreviation char := Z.
Abbreviation str := (list Z).

Definition len_utf8 (c : char) : nat :=
  if (c <? 128)%Z then 1 else if (c <? 2048)%Z then 2 else if (c <? 65536)%Z then 3 else 4.

Fixpoint byte_len (s : str) : nat :=
  match s with [] => 0 | c :: s => len_utf8 c + byte_len s end.

(** [&s[..b]] and [&s[b..]] *)
Fixpoint slice_to (s : str) (b : nat) : option str :=
  if b =? 0 then Some []
  else match s with
       | [] => None
       | c :: s => if len_utf8 c <=? b then cons c <$> slice_to s (b - len_utf8 c) else None
       end.

Fixpoint slice_from (s : str) (b : nat) : option str :=
  if b =? 0 then Some s
  else match s with
       | [] => None
       | c :: s => if len_utf8 c <=? b then slice_from s (b - len_utf8 c) else None
       end.

(** [char_indices()] *)
Fixpoint char_indices_from (b : nat) (s : str) : list (nat * char) :=
  match s with [] => [] | c :: s => (b, c) :: char_indices_from (b + len_utf8 c) s end.

Definition char_indices : str → list (nat * char) := char_indices_from 0.

Definition byte_at_char (s : str) (char_index : nat) : nat :=
  match char_indices s !! char_index with Some (index, _) => index | None => byte_len s end.

(** ** Units *)

Inductive ChunkUnit := Tokens | Terms.

Section cost.
(** The token estimator and the dictionary segmentation (of which a token's
    position length is read) are libraries. *)
Context (estimate_tokens : str → nat) (segment_text : str → list nat).

Definition position_count (s : str) : nat :=
  length (retain (λ position_length, position_length =? 1) (segment_text s)).

Definition cost (u : ChunkUnit) (s : str) : nat :=
  match u with Tokens => estimate_tokens s | Terms => position_count s end.

Definition fits (u : ChunkUnit) (s : str) (limit : nat) : bool :=
  (limit =? 0) || (cost u s <=? limit).

(** ** The longest fitting prefix *)

(** [div_ceil(2)] *)
Definition div_ceil2 (n : nat) : nat := (n + 1) / 2.

Fixpoint search (fuel : nat) (text : str) (u : ChunkUnit) (limit lo hi : nat) : option nat :=
  match fuel with
  | O => None
  | S fuel =>
      if lo <? hi then
        let mid := lo + div_ceil2 (hi - lo) in
        prefix ← slice_to text (byte_at_char text mid);
        if cost u prefix <=? limit then search fuel text u limit mid hi
        else search fuel text u limit lo (mid - 1)
      else Some lo
  end.

Fixpoint scan (fuel : nat) (text : str) (u : ChunkUnit) (limit best : nat) : option nat :=
  match fuel with
  | O => None
  | S fuel =>
      if best <? byte_len text then
        rest ← slice_from text best;
        let next := match rest with
                    | c :: _ => best + len_utf8 c
                    | [] => byte_len text
                    end in
        prefix ← slice_to text next;
        if limit <? cost u prefix then Some best else scan fuel text u limit next
      else Some best
  end.

Definition truncate_to_cost (text : str) (u : ChunkUnit) (limit : nat) : option str :=
  if (limit =? 0) || (cost u text <=? limit) then Some text
  else
    let total_chars := length text in
    lo ← search (S total_chars) text u limit 0 total_chars;
    best ← scan (S total_chars) text u limit (byte_at_char text lo);
    slice_to text best.

(** ** The longest fitting suffix *)

Fixpoint suffix_loop (indices : list (nat * char)) (text : str) (u : ChunkUnit)
    (limit best : nat) : option nat :=
  match indices with
  | [] => Some best
  | (index, _) :: rest =>
      suffix ← slice_from text index;
      if limit <? cost u suffix then Some best else suffix_loop rest text u limit index
  end.

Definition suffix_start_for_cost (text : str) (u : ChunkUnit) (limit : nat) : option nat :=
  if limit =? 0 then Some (byte_len text)
  else suffix_loop (rev (char_indices text)) text u limit (byte_len text).

(** ** Splitting *)

Fixpoint split_loop (fuel : nat) (text : str) (u : ChunkUnit) (limit start : nat)
    (ranges : list (nat * nat)) : option (list (nat * nat)) :=
  match fuel with
  | O => None
  | S fuel =>
      if start <? byte_len text then
        remaining ← slice_from text start;
        prefix ← truncate_to_cost remaining u limit;
        let e := start + byte_len prefix in
        let e := if e <=? start then
                   match remaining with
                   | c :: _ => start + len_utf8 c
                   | [] => byte_len text
                   end
                 else e in
        let ranges := ranges ++ [(start, e)] in
        if byte_len text <=? e then Some ranges else split_loop fuel text u limit e ranges
      else Some ranges
  end.

Definition split_to_fit (text : str) (u : ChunkUnit) (limit : nat)
    : option (list (nat * nat)) :=
  if bool_decide (text = []) then Some []
  else if limit =? 0 then Some [(0, byte_len text)]
  else split_loop (S (length text)) text u limit 0 [].

(** ** Slices at character boundaries *)

Lemma len_utf8_pos c : 1 ≤ len_utf8 c.
Proof. unfold len_utf8. repeat case_match; lia. Qed.

Lemma byte_len_app s k : byte_len (s ++ k) = byte_len s + byte_len k.
Proof. induction s as [|c s IH]; simpl; [done|]. lia. Qed.

Lemma byte_len_nil s : byte_len s = 0 → s = [].
Proof. destruct s as [|c s]; [done|]. simpl. pose proof (len_utf8_pos c). lia. Qed.

Lemma byte_len_length s : length s ≤ byte_len s.
Proof. induction s as [|c s IH]; simpl; [lia|]. pose proof (len_utf8_pos c). lia. Qed.

Lemma slice_to_app s k : slice_to (s ++ k) (byte_len s) = Some s.
Proof.
  induction s as [|c s IH]; simpl; [by destruct k|].
  pose proof (len_utf8_pos c). destruct (_ =? 0) eqn:E; [apply Nat.eqb_eq in E; lia|].
  rewrite (proj2 (Nat.leb_le _ _)) by lia.
  replace (len_utf8 c + byte_len s - len_utf8 c) with (byte_len s) by lia. by rewrite IH.
Qed.

Lemma slice_from_app s k : slice_from (s ++ k) (byte_len s) = Some k.
Proof.
  induction s as [|c s IH]; simpl; [by destruct k|].
  pose proof (len_utf8_pos c). destruct (_ =? 0) eqn:E; [apply Nat.eqb_eq in E; lia|].
  rewrite (proj2 (Nat.leb_le _ _)) by lia.
  by replace (len_utf8 c + byte_len s - len_utf8 c) with (byte_len s) by lia.
Qed.

Lemma slice_to_all s : slice_to s (byte_len s) = Some s.
Proof. rewrite <- (app_nil_r s) at 1. apply slice_to_app. Qed.

Lemma char_indices_lookup b s i :
  char_indices_from b s !! i = (λ c, (b + byte_len (take i s), c)) <$> s !! i.
Proof.
  revert b i. induction s as [|c s IH]; intros b [|i]; simpl; try done.
  - by rewrite Nat.add_0_r.
  - rewrite IH. destruct (s !! i); simpl; [|done]. by rewrite Nat.add_assoc.
Qed.

Lemma byte_at_char_take s i : byte_at_char s i = byte_len (take i s).
Proof.
  unfold byte_at_char, char_indices. rewrite char_indices_lookup.
  destruct (s !! i) eqn:E; simpl; [done|]. apply lookup_ge_None in E. by rewrite take_ge.
Qed.

Lemma slice_to_take s i : slice_to s (byte_at_char s i) = Some (take i s).
Proof. rewrite byte_at_char_take. rewrite <- (take_drop i s) at 1. apply slice_to_app. Qed.

Lemma slice_from_take s i : slice_from s (byte_len (take i s)) = Some (drop i s).
Proof. rewrite <- (take_drop i s) at 1. apply slice_from_app. Qed.

Lemma byte_len_take_S s i c :
  s !! i = Some c → byte_len (take (S i) s) = byte_len (take i s) + len_utf8 c.
Proof. intros Hc. rewrite (take_S_r s i c Hc), byte_len_app. simpl. lia. Qed.

Lemma byte_len_take_lt s i : i < length s ↔ byte_len (take i s) < byte_len s.
Proof.
  rewrite <- (take_drop i s) at 3. rewrite byte_len_app.
  pose proof (byte_len_length (drop i s)). rewrite length_drop in *. split; [lia|].
  intros Hlt. destruct (decide (i < length s)); [done|]. rewrite drop_ge in Hlt by lia.
  simpl in Hlt. lia.
Qed.

(** ** Prefixes *)

Lemma search_spec fuel text u limit lo hi :
  hi - lo < fuel → lo ≤ hi ≤ length text →
  ∃ r, search fuel text u limit lo hi = Some r ∧ lo ≤ r ≤ hi ∧
       (r = lo ∨ cost u (take r text) ≤ limit).
Proof.
  revert lo hi. induction fuel as [|fuel IH]; intros lo hi Hf Hle; [lia|]. cbn [search].
  destruct (lo <? hi) eqn:E; [|exists lo; repeat split; try lia; by left].
  apply Nat.ltb_lt in E. unfold div_ceil2.
  assert (1 ≤ (hi - lo + 1) / 2 ≤ hi - lo) as Hd.
  { split; [apply Nat.div_le_lower_bound; lia|]. apply Nat.Div0.div_le_upper_bound; lia. }
  set (mid := lo + (hi - lo + 1) / 2). rewrite slice_to_take. cbn [mbind option_bind].
  destruct (cost u (take mid text) <=? limit) eqn:Ec.
  - apply Nat.leb_le in Ec. destruct (IH mid hi) as (r & Hr & ? & Hc); [lia|lia|].
    exists r. split; [done|]. split; [lia|]. right. by destruct Hc as [->|].
  - destruct (IH lo (mid - 1)) as (r & Hr & ? & Hc); [lia|lia|].
    exists r. split; [done|]. split; [lia|]. done.
Qed.

Lemma scan_spec fuel text u limit n :
  length text - n < fuel → n ≤ length text →
  ∃ r, scan fuel text u limit (byte_len (take n text)) = Some (byte_len (take r text)) ∧
       n ≤ r ≤ length text ∧ (r = n ∨ cost u (take r text) ≤ limit) ∧
       (r = length text ∨ limit < cost u (take (S r) text)).
Proof.
  revert n. induction fuel as [|fuel IH]; intros n Hf Hle; [lia|]. cbn [scan].
  destruct (decide (n = length text)) as [->|Hne].
  { rewrite take_ge by lia. rewrite (proj2 (Nat.ltb_ge _ _)) by lia.
    exists (length text). rewrite take_ge by lia. split; [done|]. split; [lia|]. by split; left. }
  destruct (lookup_lt_is_Some_2 text n) as [c Hc]; [lia|].
  rewrite (proj2 (Nat.ltb_lt _ _)) by (apply byte_len_take_lt; lia).
  rewrite slice_from_take, (drop_S text c n Hc). cbn [mbind option_bind].
  rewrite <- (byte_len_take_S text n c Hc), <- (byte_at_char_take text (S n)), slice_to_take,
    byte_at_char_take. cbn [mbind option_bind].
  destruct (limit <? cost u (take (S n) text)) eqn:Ec.
  - apply Nat.ltb_lt in Ec. exists n. split; [done|]. split; [lia|]. split; [by left|by right].
  - apply Nat.ltb_ge in Ec. destruct (IH (S n)) as (r & Hr & ? & Hcost & Hmax); [lia|lia|].
    exists r. split; [done|]. split; [lia|]. split; [|done]. right. by destruct Hcost as [->|].
Qed.

Lemma truncate_spec text u limit :
  limit ≠ 0 → limit < cost u text →
  ∃ r, truncate_to_cost text u limit = Some (take r text) ∧ r ≤ length text ∧
       (r = 0 ∨ cost u (take r text) ≤ limit) ∧
       (r = length text ∨ limit < cost u (take (S r) text)).
Proof.
  intros H0 Hc. unfold truncate_to_cost.
  rewrite (proj2 (Nat.eqb_neq _ _)) by done. rewrite (proj2 (Nat.leb_gt _ _)) by done. simpl orb.
  destruct (search_spec (S (length text)) text u limit 0 (length text)) as (lo & -> & Hlo & Hclo);
    [lia|lia|]. cbn [mbind option_bind]. rewrite byte_at_char_take.
  destruct (scan_spec (S (length text)) text u limit lo) as (r & -> & Hr & Hcr & Hmax); [lia|lia|].
  cbn [mbind option_bind]. exists r. split; [by rewrite <- byte_at_char_take, slice_to_take|].
  split; [lia|]. split; [|done]. destruct Hcr as [->|]; [|by right]. destruct Hclo; auto.
Qed.

(** [truncate_to_cost] always returns a prefix of the text that ends on a
    character boundary and is empty or fits a nonzero limit; it is the whole
    text or one more character would not fit. When the cost grows with the
    prefix it is the longest fitting prefix. *)
Theorem truncate_to_cost_spec text u limit :
  ∃ r, truncate_to_cost text u limit = Some (take r text) ∧ r ≤ length text ∧
    (r = 0 ∨ fits u (take r text) limit = true) ∧
    (r = length text ∨ fits u (take (S r) text) limit = false) ∧
    ((∀ i j, i ≤ j → cost u (take i text) ≤ cost u (take j text)) →
     ∀ k, k ≤ length text → fits u (take k text) limit = true → k ≤ r).
Proof.
  destruct (fits u text limit) eqn:E.
  - exists (length text). unfold truncate_to_cost. unfold fits in E. rewrite E, take_ge by lia.
    split; [done|]. split; [lia|]. unfold fits. rewrite E.
    split; [by right|]. split; [by left|]. intros; lia.
  - apply orb_false_iff in E as [E0 Ec]. apply Nat.eqb_neq in E0. apply Nat.leb_gt in Ec.
    destruct (truncate_spec text u limit E0 Ec) as (r & Hr & Hle & Hfit & Hmax).
    assert (∀ k, fits u (take k text) limit = true ↔ cost u (take k text) ≤ limit) as Hf.
    { intros k. unfold fits. apply Nat.eqb_neq in E0 as ->. simpl. apply Nat.leb_le. }
    exists r. split; [done|]. split; [done|]. split; [by rewrite Hf|]. split.
    + destruct Hmax as [|Hm]; [by left|]. right. apply not_true_is_false. rewrite Hf. lia.
    + intros Hmono k Hk Hkf. apply Hf in Hkf. destruct Hmax as [->|Hm]; [lia|].
      destruct (decide (k ≤ r)); [done|]. specialize (Hmono (S r) k ltac:(lia)). lia.
Qed.

(** ** Suffixes *)

Lemma slice_from_app_mid pre c suf :
  slice_from ((pre ++ [c]) ++ suf) (byte_len pre) = Some (c :: suf).
Proof. rewrite <- app_assoc. apply slice_from_app. Qed.

Lemma char_indices_app b s k :
  char_indices_from b (s ++ k) = char_indices_from b s ++ char_indices_from (b + byte_len s) k.
Proof.
  revert b. induction s as [|c s IH]; intros b; simpl; [by rewrite Nat.add_0_r|].
  by rewrite IH, Nat.add_assoc.
Qed.

Lemma suffix_loop_spec pre suf u limit :
  ∃ n, suffix_loop (rev (char_indices pre)) (pre ++ suf) u limit (byte_len pre) =
       Some (byte_len (take n pre)) ∧ n ≤ length pre ∧
       (∀ i, n ≤ i → i < length pre → cost u (drop i (pre ++ suf)) ≤ limit) ∧
       (n = 0 ∨ limit < cost u (drop (n - 1) (pre ++ suf))).
Proof.
  revert suf. induction pre as [|c pre IH] using rev_ind; intros suf.
  { exists 0. simpl. repeat split; auto; lia. }
  unfold char_indices in *. rewrite char_indices_app, rev_app_distr. simpl.
  rewrite slice_from_app_mid. cbn [mbind option_bind].
  rewrite length_app; simpl.
  destruct (limit <? cost u (c :: suf)) eqn:E.
  - apply Nat.ltb_lt in E. exists (length pre + 1).
    rewrite take_ge by (rewrite length_app; simpl; lia).
    split; [done|]. split; [lia|]. split; [lia|]. right.
    replace (length pre + 1 - 1) with (length pre) by lia.
    rewrite <- app_assoc, drop_app_length. done.
  - apply Nat.ltb_ge in E. rewrite <- app_assoc. simpl.
    destruct (IH (c :: suf)) as (n & Hn & Hle & Hfit & Hmax).
    exists n. rewrite Hn, take_app_le by lia. split; [done|]. split; [lia|]. split; [|done].
    intros i Hi Hlt. destruct (decide (i = length pre)) as [->|]; [|apply Hfit; lia].
    by rewrite drop_app_length.
Qed.

(** [suffix_start_for_cost] always returns a character boundary; every
    nonempty suffix from there on fits the limit, and a suffix longer by one
    character would not. A zero limit gives the empty suffix. *)
Theorem suffix_start_for_cost_spec text u limit :
  ∃ n, suffix_start_for_cost text u limit = Some (byte_len (take n text)) ∧ n ≤ length text ∧
    (limit = 0 → n = length text) ∧
    (∀ i, n ≤ i → i < length text → cost u (drop i text) ≤ limit) ∧
    (limit = 0 ∨ n = 0 ∨ limit < cost u (drop (n - 1) text)).
Proof.
  unfold suffix_start_for_cost. destruct (limit =? 0) eqn:E.
  - exists (length text). apply Nat.eqb_eq in E. rewrite take_ge by lia.
    repeat split; auto; lia.
  - apply Nat.eqb_neq in E. destruct (suffix_loop_spec text [] u limit) as (n & Hn & Hle & Hfit & Hmax).
    rewrite app_nil_r in *. exists n. repeat split; try done. by right.
Qed.

(** ** Splitting *)

(** Consecutive ranges from [start] to the end of the text, each a nonempty
    slice that fits or is a single character. *)
Inductive tiles (text : str) (u : ChunkUnit) (limit : nat) : nat → list (nat * nat) → Prop :=
| tiles_end : tiles text u limit (byte_len text) []
| tiles_step pre piece post ranges :
    text = pre ++ piece ++ post → piece ≠ [] →
    (cost u piece ≤ limit ∨ length piece = 1) →
    tiles text u limit (byte_len (pre ++ piece)) ranges →
    tiles text u limit (byte_len pre) ((byte_len pre, byte_len (pre ++ piece)) :: ranges).

(** The first piece of a nonempty remainder. *)
Lemma first_piece rest u limit :
  limit ≠ 0 → rest ≠ [] →
  ∃ prefix piece post, truncate_to_cost rest u limit = Some prefix ∧
    rest = piece ++ post ∧ piece ≠ [] ∧ (cost u piece ≤ limit ∨ length piece = 1) ∧
    (if byte_len prefix =? 0 then ∃ c, piece = [c] ∧ head rest = Some c else piece = prefix).
Proof.
  intros H0 Hne. destruct (truncate_to_cost_spec rest u limit) as (r & Hr & Hle & Hfit & _).
  exists (take r rest). destruct (decide (r = 0)) as [->|Hr0].
  - destruct rest as [|c rest]; [done|]. exists [c], rest. split; [done|]. split; [done|].
    split; [done|]. split; [by right|]. simpl. by exists c.
  - exists (take r rest), (drop r rest). split; [done|]. split; [by rewrite take_drop|].
    assert (take r rest ≠ []) as Hne'.
    { destruct rest; [done|]. by destruct r. }
    split; [done|]. split.
    + left. destruct Hfit as [|Hfit]; [done|]. unfold fits in Hfit.
      apply Nat.eqb_neq in H0 as Hz. rewrite Hz in Hfit. by apply Nat.leb_le in Hfit.
    + destruct (byte_len (take r rest) =? 0) eqn:E; [|done].
      apply Nat.eqb_eq, byte_len_nil in E. done.
Qed.

Lemma split_loop_spec fuel pre rest u limit ranges :
  limit ≠ 0 → rest ≠ [] → length rest < fuel →
  ∃ more, split_loop fuel (pre ++ rest) u limit (byte_len pre) ranges = Some (ranges ++ more) ∧
          tiles (pre ++ rest) u limit (byte_len pre) more.
Proof.
  intros H0. revert pre rest ranges. induction fuel as [|fuel IH]; intros pre rest ranges Hne Hf;
    [lia|].
  destruct (first_piece rest u limit H0 Hne) as (prefix & piece & post & Ht & -> & Hp & Hfit & Hpre).
  assert (0 < byte_len piece) as Hpos.
  { pose proof (byte_len_length piece). destruct piece; [done|]. simpl in *. lia. }
  cbn [split_loop]. rewrite (proj2 (Nat.ltb_lt _ _)) by (rewrite !byte_len_app; lia).
  rewrite slice_from_app. cbn [mbind option_bind]. rewrite Ht. cbn [mbind option_bind].
  set (e := if byte_len pre + byte_len prefix <=? byte_len pre then _ else _).
  assert (e = byte_len (pre ++ piece)) as ->.
  { subst e. rewrite (byte_len_app pre piece). destruct (byte_len prefix =? 0) eqn:E.
    - apply Nat.eqb_eq in E. rewrite E, (proj2 (Nat.leb_le _ _)) by lia.
      destruct Hpre as (c & -> & Hc). simpl in Hc |- *. lia.
    - apply Nat.eqb_neq in E. rewrite (proj2 (Nat.leb_gt _ _)) by lia. by subst. }
  destruct (decide (post = [])) as [->|Hpost].
  - rewrite app_nil_r, Nat.leb_refl. eexists. split; [done|].
    apply (tiles_step _ _ _ pre piece []); [by rewrite app_nil_r|done|done|constructor].
  - rewrite app_assoc. rewrite (proj2 (Nat.leb_gt _ _)).
    2: { rewrite (byte_len_app (pre ++ piece) post). destruct (byte_len post) eqn:E; [|lia].
         by apply byte_len_nil in E. }
    destruct (IH (pre ++ piece) post (ranges ++ [(byte_len pre, byte_len (pre ++ piece))]))
      as (more & -> & Hm); [done| |].
    { rewrite length_app in Hf. destruct piece; [done|]. simpl in Hf. lia. }
    eexists. split; [by rewrite <- app_assoc|].
    apply (tiles_step _ _ _ pre piece post); try done. by rewrite app_assoc.
Qed.

(** C35. [split_to_fit] terminates without panicking and tiles the text: its
    ranges are contiguous from the first byte to the last, nonempty, aligned to
    characters, and each costs at most the limit or is a single character (a
    zero limit gives the whole text as one range). *)
Theorem split_to_fit_tiles text u limit :
  ∃ ranges, split_to_fit text u limit = Some ranges ∧
    if bool_decide (text = []) then ranges = []
    else if limit =? 0 then ranges = [(0, byte_len text)]
    else tiles text u limit 0 ranges.
Proof.
  unfold split_to_fit. case_bool_decide as Hne; [by eexists|].
  destruct (limit =? 0) eqn:E; [by eexists|]. apply Nat.eqb_neq in E.
  destruct (split_loop_spec (S (length text)) [] text u limit []) as (more & Hs & Ht); [done|done|lia|].
  exists more. by split.
Qed.

End cost.
End TextBudget.
