(* ===== verification/CircuitBreaker.v ===== *)
(** The circuit breaker (crates/infra/cce-circuit-breaker/src/lib.rs).

    [Breaker] models [CircuitBreaker] and its shared [CircuitBreakerMetrics]:
    the metrics are behind an [Arc], so several breakers may hold the same
    counters; the model keeps them in a store indexed by allocation. *)

From Stdlib Require Import QArith_base.
From S2P Require Import Prelude.
#[local] Open Scope Z_scope.

Module Breaker.

(** ** Metrics, shared through a store *)

Record CircuitBreakerMetrics := {
  state_changes_total : Z;
  rejections_total : Z;
  successes_total : Z;
  failures_total : Z;
}.

(** An [Arc<CircuitBreakerMetrics>] is a location of the store. *)
Abbreviation store := (gmap positive CircuitBreakerMetrics).

Definition metrics_new : CircuitBreakerMetrics :=
  {| state_changes_total := 0; rejections_total := 0;
     successes_total := 0; failures_total := 0 |}.

(** Each [fetch_add(1, Relaxed)] on an [AtomicU64] wraps. *)
Definition metrics_state_change (m : CircuitBreakerMetrics) : CircuitBreakerMetrics :=
  {| state_changes_total := wrap64 (state_changes_total m + 1);
     rejections_total := rejections_total m;
     successes_total := successes_total m;
     failures_total := failures_total m |}.

Definition metrics_rejection (m : CircuitBreakerMetrics) : CircuitBreakerMetrics :=
  {| state_changes_total := state_changes_total m;
     rejections_total := wrap64 (rejections_total m + 1);
     successes_total := successes_total m;
     failures_total := failures_total m |}.

Definition metrics_success (m : CircuitBreakerMetrics) : CircuitBreakerMetrics :=
  {| state_changes_total := state_changes_total m;
     rejections_total := rejections_total m;
     successes_total := wrap64 (successes_total m + 1);
     failures_total := failures_total m |}.

Definition metrics_failure (m : CircuitBreakerMetrics) : CircuitBreakerMetrics :=
  {| state_changes_total := state_changes_total m;
     rejections_total := rejections_total m;
     successes_total := successes_total m;
     failures_total := wrap64 (failures_total m + 1) |}.

(** ** The breaker *)

Inductive CircuitState := Closed | Open | HalfOpen.

#[export] Instance CircuitState_eq_dec : EqDecision CircuitState.
Proof. solve_decision. Defined.

Record CircuitBreaker := {
  failure_threshold : Z;
  success_threshold : Z;
  timeout : Duration;
  state : CircuitState;
  failure_count : Z;
  success_count : Z;
  last_failure : option Instant;
  metrics : option positive;
}.

Definition new (threshold : Z) (t : Duration) : CircuitBreaker :=
  {| failure_threshold := threshold; success_threshold := 2; timeout := t;
     state := Closed; failure_count := 0; success_count := 0;
     last_failure := None; metrics := None |}.

Definition with_metrics (cb : CircuitBreaker) (l : positive) : CircuitBreaker :=
  {| failure_threshold := failure_threshold cb;
     success_threshold := success_threshold cb; timeout := timeout cb;
     state := state cb; failure_count := failure_count cb;
     success_count := success_count cb; last_failure := last_failure cb;
     metrics := Some l |}.

(** Field assignments. *)
Definition set_state (s : CircuitState) (cb : CircuitBreaker) : CircuitBreaker :=
  {| failure_threshold := failure_threshold cb;
     success_threshold := success_threshold cb; timeout := timeout cb;
     state := s; failure_count := failure_count cb;
     success_count := success_count cb; last_failure := last_failure cb;
     metrics := metrics cb |}.

Definition set_failure_count (n : Z) (cb : CircuitBreaker) : CircuitBreaker :=
  {| failure_threshold := failure_threshold cb;
     success_threshold := success_threshold cb; timeout := timeout cb;
     state := state cb; failure_count := n;
     success_count := success_count cb; last_failure := last_failure cb;
     metrics := metrics cb |}.

Definition set_success_count (n : Z) (cb : CircuitBreaker) : CircuitBreaker :=
  {| failure_threshold := failure_threshold cb;
     success_threshold := success_threshold cb; timeout := timeout cb;
     state := state cb; failure_count := failure_count cb;
     success_count := n; last_failure := last_failure cb;
     metrics := metrics cb |}.

Definition set_last_failure (t : Instant) (cb : CircuitBreaker) : CircuitBreaker :=
  {| failure_threshold := failure_threshold cb;
     success_threshold := success_threshold cb; timeout := timeout cb;
     state := state cb; failure_count := failure_count cb;
     success_count := success_count cb; last_failure := Some t;
     metrics := metrics cb |}.

(** [if let Some(ref metrics) = self.metrics { metrics.record_..() }] *)
Definition record (f : CircuitBreakerMetrics → CircuitBreakerMetrics)
    (cb : CircuitBreaker) (σ : store) : store :=
  match metrics cb with
  | Some l => alter f l σ
  | None => σ
  end.

Definition transition_to (new_state : CircuitState) (cb : CircuitBreaker) (σ : store)
    : CircuitBreaker * store :=
  if decide (state cb ≠ new_state) then
    let σ' := record metrics_state_change cb σ in
    let cb' := set_state new_state cb in
    if decide (new_state = HalfOpen) then (set_success_count 0 cb', σ') else (cb', σ')
  else (cb, σ).

Definition on_success (cb : CircuitBreaker) (σ : store) : CircuitBreaker * store :=
  let '(cb', σ') :=
    match state cb with
    | HalfOpen =>
        let cb1 := set_success_count (wrap32 (success_count cb + 1)) cb in
        if success_threshold cb1 <=? success_count cb1 then
          let '(cb2, σ2) := transition_to Closed cb1 σ in
          (set_failure_count 0 cb2, σ2)
        else (cb1, σ)
    | Closed => if 0 <? failure_count cb then (set_failure_count 0 cb, σ) else (cb, σ)
    | Open => (cb, σ)
    end in
  (cb', record metrics_success cb' σ').

Definition on_failure (now : Instant) (cb : CircuitBreaker) (σ : store)
    : CircuitBreaker * store :=
  let cb1 := set_last_failure now (set_failure_count (sat_add32 (failure_count cb) 1) cb) in
  let '(cb2, σ2) :=
    if bool_decide (state cb1 = HalfOpen) || (failure_threshold cb1 <=? failure_count cb1)
    then transition_to Open cb1 σ
    else (cb1, σ) in
  (cb2, record metrics_failure cb2 σ2).

Definition record_success := on_success.
Definition record_failure := on_failure.

(** ** Admission *)

(** The error trait: how a rejection is represented in the caller's error type. *)
Class CircuitBreakerRejected (E : Type) := circuit_open : string → E.

#[export] Instance rejected_string : CircuitBreakerRejected string := λ message, message.

Definition try_acquire {E} `{CircuitBreakerRejected E} (now : Instant)
    (cb : CircuitBreaker) (σ : store) : result unit E * CircuitBreaker * store :=
  match state cb with
  | Open =>
      match last_failure cb with
      | Some last =>
          if timeout cb <=? duration_since now last then
            let '(cb', σ') := transition_to HalfOpen cb σ in (Ok tt, cb', σ')
          else (Err (circuit_open "Circuit breaker is open"), cb,
                record metrics_rejection cb σ)
      | None => (Ok tt, cb, σ)
      end
  | HalfOpen | Closed => (Ok tt, cb, σ)
  end.

(** [execute] runs the protected future on the outside world [w] only when the
    request is admitted. [now] is read by the guard, [now'] by a failure. *)
Definition execute {T E W} `{CircuitBreakerRejected E} (now now' : Instant)
    (f : W → result T E * W) (cb : CircuitBreaker) (σ : store) (w : W)
    : result T E * CircuitBreaker * store * W :=
  let '(r, cb1, σ1) := try_acquire now cb σ in
  match r with
  | Err e => (Err e, cb1, σ1, w)
  | Ok _ =>
      let '(res, w') := f w in
      match res with
      | Ok x => let '(cb2, σ2) := on_success cb1 σ1 in (Ok x, cb2, σ2, w')
      | Err e => let '(cb2, σ2) := on_failure now' cb1 σ1 in (Err e, cb2, σ2, w')
      end
  end.

Definition state_str (cb : CircuitBreaker) : string :=
  match state cb with
  | Closed => "closed"
  | Open => "open"
  | HalfOpen => "half-open"
  end.

(** The three [f64] values are exact binary fractions. *)
Definition state_value (cb : CircuitBreaker) : Q :=
  match state cb with
  | Closed => 0
  | HalfOpen => 1 # 2
  | Open => 1
  end.

Definition is_open (cb : CircuitBreaker) : bool := bool_decide (state cb = Open).

(** ** The breaker as a transition system *)

Inductive event :=
| EAcquire (now : Instant)
| ESuccess
| EFailure (now : Instant).

Definition apply_event (e : event) (cb : CircuitBreaker) (σ : store)
    : CircuitBreaker * store :=
  match e with
  | EAcquire now => let '(_, cb', σ') := try_acquire (E := string) now cb σ in (cb', σ')
  | ESuccess => record_success cb σ
  | EFailure now => record_failure now cb σ
  end.

(** Executing a list of events on several breakers that may share metrics. *)
Fixpoint run_events (es : list (nat * event)) (bs : list CircuitBreaker) (σ : store)
    : list CircuitBreaker * store :=
  match es with
  | [] => (bs, σ)
  | (i, e) :: es' =>
      match bs !! i with
      | Some cb => let '(cb', σ') := apply_event e cb σ in run_events es' (<[i:=cb']> bs) σ'
      | None => run_events es' bs σ
      end
  end.

Definition init (cbσ : CircuitBreaker * store) : Prop :=
  ∃ threshold t, 0 ≤ threshold ≤ u32_max ∧ 0 ≤ t ≤ duration_max ∧
    (cbσ.1 = new threshold t ∨ ∃ l, cbσ.1 = with_metrics (new threshold t) l).

Definition step (s s' : CircuitBreaker * store) : Prop :=
  ∃ e, s' = apply_event e s.1 s.2.

(** ** Invariant *)

(** What every reachable breaker satisfies: the counters stay in [u32] without
    wrapping, a breaker that is not closed knows its last failure, probing has
    not yet succeeded often enough, and a closed breaker is below its
    threshold. *)
Definition inv (s : CircuitBreaker * store) : Prop :=
  let cb := s.1 in
  0 ≤ failure_count cb ≤ u32_max ∧
  0 ≤ success_count cb ≤ success_threshold cb ∧
  success_threshold cb = 2 ∧
  0 ≤ timeout cb ∧
  (state cb ≠ Closed → is_Some (last_failure cb)) ∧
  (state cb = HalfOpen → success_count cb < success_threshold cb) ∧
  (state cb = Closed → failure_count cb < failure_threshold cb ∨ failure_count cb = 0).

Ltac breaker_unfold :=
  unfold apply_event, record_success, record_failure, on_success, on_failure, try_acquire,
    transition_to, sat_add32 in *; simpl in *.

#[export] Instance breaker_invariant : StepInvariant init step inv.
Proof.
  split.
  - intros [cb σ] (th & t & Hth & Ht & Hcb). simpl in Hcb.
    destruct Hcb as [-> | [l ->]]; unfold inv, u32_max; simpl;
      repeat split; intros; try done; lia || auto.
  - intros [cb σ] s' (Hf & Hs & H2 & Ht & Hl & Hh & Hc) [e ->]. simpl in *.
    unfold u32_max in *.
    destruct cb as [fth sth tmo st fc sc lf me]; simpl in *. subst sth.
    destruct e as [now| |now]; breaker_unfold; destruct st; simpl;
      try (assert (sc < 2) by auto; unfold wrap32; rewrite Z.mod_small by lia);
      repeat (case_match; simplify_eq/=); bool_to_prop;
      unfold inv, u32_max; simpl; repeat split; intros; simplify_eq; try done; try lia;
      eauto; try (left; lia); naive_solver lia.
Qed.

(** ** Behaviour of the single operations *)

Lemma record_unaffected f cb σ : (transition_to Closed cb (record f cb σ)).1 =
  (transition_to Closed cb σ).1.
Proof. unfold transition_to. repeat case_decide; done. Qed.

(** The breaker never depends on the metrics store. *)
Lemma apply_event_store_irrel e cb σ σ' :
  (apply_event e cb σ).1 = (apply_event e cb σ').1.
Proof.
  destruct cb as [fth sth tmo st fc sc lf me], e; breaker_unfold; destruct st; simpl;
    repeat (case_match; simplify_eq/=); done.
Qed.

Lemma apply_event_metrics e cb σ : metrics (apply_event e cb σ).1 = metrics cb.
Proof.
  destruct cb as [fth sth tmo st fc sc lf me], e; breaker_unfold; destruct st; simpl;
    repeat (case_match; simplify_eq/=); done.
Qed.

Lemma on_failure_closed now cb σ :
  state cb = Closed → failure_count cb < u32_max →
  let cb' := (on_failure now cb σ).1 in
  failure_count cb' = failure_count cb + 1 ∧
  failure_threshold cb' = failure_threshold cb ∧
  state cb' = (if failure_threshold cb <=? failure_count cb + 1 then Open else Closed).
Proof.
  intros Hst Hlt. destruct cb as [fth sth tmo st fc sc lf me]; simpl in *; subst st.
  breaker_unfold. rewrite !Z.min_l by lia.
  destruct (fth <=? fc + 1) eqn:E; simpl; rewrite ?E; done.
Qed.

Lemma on_failure_open now cb σ :
  state cb = Open →
  state (on_failure now cb σ).1 = Open ∧
  failure_count (on_failure now cb σ).1 = sat_add32 (failure_count cb) 1.
Proof.
  intros Hst. destruct cb as [fth sth tmo st fc sc lf me]; simpl in *; subst st.
  breaker_unfold. repeat (case_match; simplify_eq/=); done.
Qed.

(** A burst of failures at the given times. *)
Definition fail_many (ts : list Instant) (s : CircuitBreaker * store)
    : CircuitBreaker * store :=
  foldl (λ s t, record_failure t s.1 s.2) s ts.

Lemma fail_many_cons t ts s :
  fail_many (t :: ts) s = fail_many ts (on_failure t s.1 s.2).
Proof. done. Qed.

Lemma fail_many_open ts s :
  state s.1 = Open → state (fail_many ts s).1 = Open.
Proof.
  revert s. induction ts as [|t ts IH]; intros s Hs; [done|].
  apply IH. by apply on_failure_open.
Qed.

(** The breaker trips exactly at its threshold: a closed breaker that has
    seen no failure since its last success and then records a burst of [n]
    consecutive failures is open iff [n] reaches [failure_threshold], and below
    the threshold it counts them exactly. *)
Theorem breaker_trips_at_threshold ts cb σ
    (Hclosed : state cb = Closed) (Hzero : failure_count cb = 0)
    (Hpos : 0 < failure_threshold cb ≤ u32_max) :
  (state (fail_many ts (cb, σ)).1 = Open ↔ failure_threshold cb ≤ Z.of_nat (length ts)) ∧
  (Z.of_nat (length ts) < failure_threshold cb →
   state (fail_many ts (cb, σ)).1 = Closed ∧
   failure_count (fail_many ts (cb, σ)).1 = Z.of_nat (length ts)).
Proof.
  enough (∀ k, failure_count cb = k → 0 ≤ k < failure_threshold cb →
    let s := (fail_many ts (cb, σ)).1 in
    (state s = Open ↔ failure_threshold cb ≤ k + Z.of_nat (length ts)) ∧
    (k + Z.of_nat (length ts) < failure_threshold cb →
     state s = Closed ∧ failure_count s = k + Z.of_nat (length ts))) as Hk.
  { destruct (Hk 0 Hzero) as [H1 H2]; [lia|]. split; [by rewrite H1|]. intros.
    destruct H2; [lia|]. by split. }
  clear Hzero. revert cb σ Hclosed Hpos.
  induction ts as [|t ts IH]; intros cb σ Hclosed Hpos k Hk Hlt.
  { simpl. rewrite Hclosed. split; [split; [done|lia]|]. intros; split; [done|lia]. }
  destruct (on_failure_closed t cb σ Hclosed) as (Hc & Hth & Hst); [lia|].
  rewrite fail_many_cons, length_cons. simpl fst; simpl snd. destruct (on_failure t cb σ) as [cb' σ']; simpl in *.
  destruct (failure_threshold cb <=? failure_count cb + 1) eqn:Eth; bool_to_prop.
  - rewrite (fail_many_open ts (cb', σ')) by done. split; [split; [lia|done]|]. lia.
  - destruct (IH cb' σ' Hst ltac:(lia) (k + 1) ltac:(lia) ltac:(lia)) as [H1 H2].
    rewrite Hth in *. split; [rewrite H1; lia|]. intros. destruct H2; [lia|]. split; [done|lia].
Qed.

Lemma breaker_trips_at_threshold_witness :
  state (fail_many [5; 6; 7] (new 3 1000, ∅)).1 = Open ∧
  state (fail_many [5; 6] (new 3 1000, ∅)).1 = Closed.
Proof.
  split.
  - apply (breaker_trips_at_threshold [5; 6; 7] (new 3 1000) ∅);
      [reflexivity | reflexivity | by vm_compute | by vm_compute].
  - apply (breaker_trips_at_threshold [5; 6] (new 3 1000) ∅);
      [reflexivity | reflexivity | by vm_compute | by vm_compute].
Defined.

(** C30. A breaker driven through its public operations by any sequence of
    acquisitions, successes and failures keeps its invariant: counters in range
    with no wrap-around, a remembered failure time whenever it is not closed,
    fewer probe successes than [success_threshold] while half-open, and a
    failure count below the threshold while closed. *)
Theorem breaker_invariant_reachable s (Hr : reachable init step s) : inv s.
Proof. revert s Hr. exact (invariant_reachable init step inv). Qed.

Lemma breaker_invariant_reachable_witness :
  let s := apply_event (EAcquire 2000) (fail_many [5; 6; 7] (new 3 1000, ∅)).1 ∅ in
  state s.1 = HalfOpen ∧ inv s.
Proof.
  split; [reflexivity|]. apply breaker_invariant_reachable.
  exists (new 3 1000, ∅). split.
  - exists 3, 1000. vm_compute. naive_solver.
  - eapply rtc_l; [by exists (EFailure 5)|]. eapply rtc_l; [by exists (EFailure 6)|].
    eapply rtc_l; [by exists (EFailure 7)|]. eapply rtc_l; [by exists (EAcquire 2000)|].
    apply rtc_refl.
Defined.

(** A batch of guarded calls: reading times and protected operation of each. *)
Fixpoint execute_all {T E W} `{CircuitBreakerRejected E}
    (calls : list (Instant * Instant * (W → result T E * W)))
    (cb : CircuitBreaker) (σ : store) (w : W)
    : list (result T E) * CircuitBreaker * W :=
  match calls with
  | [] => ([], cb, w)
  | (now, now', f) :: calls' =>
      let '(r, cb1, σ1, w1) := execute now now' f cb σ w in
      let '(rs, cb2, w2) := execute_all calls' cb1 σ1 w1 in
      (r :: rs, cb2, w2)
  end.

Lemma try_acquire_rejects {E} `{CircuitBreakerRejected E} now cb σ last :
  state cb = Open → last_failure cb = Some last →
  duration_since now last < timeout cb →
  try_acquire now cb σ =
    (Err (circuit_open "Circuit breaker is open"), cb, record metrics_rejection cb σ).
Proof.
  intros Hst Hl Ht. unfold try_acquire. rewrite Hst, Hl.
  by destruct (Z.leb_spec (timeout cb) (duration_since now last)); [lia|].
Qed.

(** An open breaker protects the service and then heals. In every reachable
    open state the time [last] of the last failure is known; no call issued
    before [last + timeout] runs its operation (the outside world and the
    breaker are unchanged and every caller gets the rejection), and the first
    call after it is a half-open probe: two successes close the circuit with a
    clean failure count, one failure reopens it at the new time. *)
Theorem open_breaker_shields_then_recovers {T E W} `{CircuitBreakerRejected E}
    (s : CircuitBreaker * store)
    (Hr : reachable init step s) (Hopen : state s.1 = Open) :
  ∃ last, last_failure s.1 = Some last ∧
  (∀ (calls : list (Instant * Instant * (W → result T E * W))) σ w,
     (∀ c, c ∈ calls → duration_since c.1.1 last < timeout s.1) →
     execute_all calls s.1 σ w =
       (replicate (length calls) (Err (circuit_open "Circuit breaker is open")), s.1, w)) ∧
  (∀ now now' σ, timeout s.1 ≤ duration_since now last →
     let '(r, probe, σ1) := try_acquire (E := E) now s.1 σ in
     r = Ok tt ∧ state probe = HalfOpen ∧
     (let '(once, σ2) := record_success probe σ1 in
      let closed := (record_success once σ2).1 in
      state once = HalfOpen ∧ state closed = Closed ∧ failure_count closed = 0) ∧
     (let reopened := (record_failure now' probe σ1).1 in
      state reopened = Open ∧ last_failure reopened = Some now')).
Proof.
  apply invariant_reachable with (I := inv) in Hr; [|apply _].
  destruct s as [cb σ0]; simpl in *.
  destruct Hr as (Hf & Hs & H2 & Ht & Hl & _); simpl in *.
  destruct Hl as [last Hlast]; [by rewrite Hopen|].
  exists last. split; [done|]. split.
  - induction calls as [|[[now now'] f] calls IH]; intros σ w Hcalls; [done|]. simpl.
    unfold execute. rewrite (try_acquire_rejects now cb σ last); [|done..|].
    + rewrite IH; [done|]. intros c Hc. apply Hcalls. by right.
    + apply (Hcalls (now, now', f)). by left.
  - intros now now' σ Hnow.
    destruct cb as [fth sth tmo st fc sc lf me]; simpl in *; subst st sth lf.
    breaker_unfold. apply Z.leb_le in Hnow. rewrite Hnow. simpl.
    repeat split; by case_match.
Qed.

Lemma open_breaker_shields_then_recovers_witness :
  let s := fail_many [5; 6; 7] (new 3 1000, ∅) in
  ∃ last, last_failure s.1 = Some last ∧
    execute_all [(100, 101, λ w : nat, (Ok 1%nat, S w)); (900, 901, λ w, (Ok 2%nat, S w))]
      s.1 ∅ 0%nat =
    ([Err (circuit_open "Circuit breaker is open"); Err "Circuit breaker is open"%string],
     s.1, 0%nat).
Proof.
  intros s.
  assert (Hr : reachable init step s).
  { exists (new 3 1000, ∅). split; [exists 3, 1000; vm_compute; naive_solver|].
    eapply rtc_l; [by exists (EFailure 5)|]. eapply rtc_l; [by exists (EFailure 6)|].
    eapply rtc_l; [by exists (EFailure 7)|]. apply rtc_refl. }
  destruct (open_breaker_shields_then_recovers (T := nat) (W := nat) s Hr eq_refl)
    as (last & Hlast & Hshield & _).
  exists last. split; [exact Hlast|]. vm_compute in Hlast. injection Hlast as <-.
  apply (Hshield [(100, 101, λ w : nat, (Ok 1%nat, S w)); (900, 901, λ w, (Ok 2%nat, S w))]).
  intros c Hc. repeat (apply elem_of_cons in Hc as [->|Hc]; [by vm_compute|]).
  by apply elem_of_nil in Hc.
Defined.

(** ** Shared metrics *)

(** Whether an event is a rejected acquisition. *)
Definition rejected (e : event) (cb : CircuitBreaker) : bool :=
  match e with
  | EAcquire now => negb (is_ok (try_acquire (E := string) now cb ∅).1.1)
  | _ => false
  end.

(** The rejections, successes and failures of a run, counted from outside. *)
Fixpoint tally (es : list (nat * event)) (bs : list CircuitBreaker) : Z * Z * Z :=
  match es with
  | [] => (0, 0, 0)
  | (i, e) :: es' =>
      match bs !! i with
      | Some cb =>
          let '(r, su, fa) := tally es' (<[i:=(apply_event e cb ∅).1]> bs) in
          ((if rejected e cb then 1 else 0) + r,
           (match e with ESuccess => 1 | _ => 0 end) + su,
           (match e with EFailure _ => 1 | _ => 0 end) + fa)
      | None => tally es' bs
      end
  end.

Lemma apply_event_counters e cb σ l m :
  metrics cb = Some l → σ !! l = Some m →
  ∃ m', (apply_event e cb σ).2 !! l = Some m' ∧
    rejections_total m' = (if rejected e cb then wrap64 (rejections_total m + 1)
                           else rejections_total m) ∧
    successes_total m' = (match e with ESuccess => wrap64 (successes_total m + 1)
                          | _ => successes_total m end) ∧
    failures_total m' = (match e with EFailure _ => wrap64 (failures_total m + 1)
                         | _ => failures_total m end).
Proof.
  intros Hl Hm. destruct cb as [fth sth tmo st fc sc lf me]; simpl in *; subst me.
  destruct e; unfold rejected; breaker_unfold; destruct st; simpl;
    repeat (case_match; simplify_eq/=); unfold record; simpl;
    repeat (rewrite lookup_alter_eq, ?Hm; simpl); eauto 10.
Qed.

(** Metrics shared through one [Arc] account for every breaker that holds
    it: after any interleaving of events on breakers sharing the counters at
    [l], each total is its initial value plus the number of rejected
    acquisitions, recorded successes and recorded failures over all of them,
    modulo the width of the counter. *)
Theorem shared_metrics_account es bs σ l m
    (Hshared : ∀ cb, cb ∈ bs → metrics cb = Some l) (Hm : σ !! l = Some m)
    (Hr : 0 ≤ rejections_total m ≤ u64_max) (Hs : 0 ≤ successes_total m ≤ u64_max)
    (Hf : 0 ≤ failures_total m ≤ u64_max) :
  ∃ m', (run_events es bs σ).2 !! l = Some m' ∧
    rejections_total m' = wrap64 (rejections_total m + (tally es bs).1.1) ∧
    successes_total m' = wrap64 (successes_total m + (tally es bs).1.2) ∧
    failures_total m' = wrap64 (failures_total m + (tally es bs).2).
Proof.
  enough (∀ m, σ !! l = Some m →
    wrap64 (rejections_total m) = rejections_total m →
    wrap64 (successes_total m) = successes_total m →
    wrap64 (failures_total m) = failures_total m →
    ∃ m', (run_events es bs σ).2 !! l = Some m' ∧
    rejections_total m' = wrap64 (rejections_total m + (tally es bs).1.1) ∧
    successes_total m' = wrap64 (successes_total m + (tally es bs).1.2) ∧
    failures_total m' = wrap64 (failures_total m + (tally es bs).2)) as Hgen.
  { apply Hgen; auto using wrap64_small. }
  clear m Hm Hr Hs Hf. revert bs σ Hshared.
  induction es as [|[i e] es IH]; intros bs σ Hshared m Hm Hr Hs Hf; simpl.
  { exists m. rewrite !Z.add_0_r. auto. }
  destruct (bs !! i) as [cb|] eqn:Ei; [|by apply IH].
  assert (Hcb : metrics cb = Some l).
  { apply Hshared. by eapply list_elem_of_lookup_2. }
  destruct (apply_event_counters e cb σ l m Hcb Hm) as (m1 & Hm1 & H1 & H2 & H3).
  rewrite (apply_event_store_irrel e cb ∅ σ).
  pose proof (apply_event_metrics e cb σ) as Hme.
  destruct (apply_event e cb σ) as [cb' σ']; simpl in *.
  destruct (IH (<[i:=cb']> bs) σ') with (m := m1) as (m' & Hl' & Hr' & Hs' & Hf'); [|done| | | |].
  - intros c Hc. apply list_elem_of_lookup in Hc as [j Hj].
    apply list_lookup_insert_Some in Hj as [(_ & <- & _)|[_ Hj]]; [congruence|].
    apply Hshared. by eapply list_elem_of_lookup_2.
  - rewrite H1. repeat case_match; try done; unfold wrap64; by rewrite Zmod_mod.
  - rewrite H2. repeat case_match; try done; unfold wrap64; by rewrite Zmod_mod.
  - rewrite H3. repeat case_match; try done; unfold wrap64; by rewrite Zmod_mod.
  - exists m'. split; [done|]. rewrite Hr', Hs', Hf', H1, H2, H3.
    destruct (tally es (<[i:=cb']> bs)) as [[r su] fa]; simpl.
    repeat split; repeat case_match; rewrite ?wrap64_add_l; f_equal; lia.
Qed.

Lemma shared_metrics_account_witness :
  let a := with_metrics (new 1 1000) 1 in
  let es := [(0%nat, EFailure 10); (0%nat, EAcquire 20); (1%nat, ESuccess)] in
  ∃ m', (run_events es [a; a] {[1%positive := metrics_new]}).2 !! 1%positive = Some m' ∧
    rejections_total m' = 1 ∧ successes_total m' = 1 ∧ failures_total m' = 1.
Proof.
  intros a es.
  apply (shared_metrics_account es [a; a] {[1%positive := metrics_new]} 1 metrics_new).
  - intros cb Hcb. repeat (apply elem_of_cons in Hcb as [->|Hcb]; [reflexivity|]).
    by apply elem_of_nil in Hcb.
  - reflexivity.
  - vm_compute; split; discriminate.
  - vm_compute; split; discriminate.
  - vm_compute; split; discriminate.
Defined.

End Breaker.
