(* ===== verification/RetryQueue.v ===== *)
(** The retry queue of the query coordinator
    (crates/app/cce-orchestrator/src/query/retry_queue.rs).

    [RetryQueue] models the bounded queue of failed queries and its
    dead-letter list. The inner mutex makes every method one atomic step; the
    query options are kept abstract, only their [query] text is inspected. *)

From S2P Require Import Prelude.

Module RetryQueue.

Section options.

(** [QueryOptions] and its [query] field. *)
Context {QueryOptions : Type} (query : QueryOptions → string).

Record QueuedQuery := {
  options : QueryOptions;
  enqueued_at : Instant;
  retry_count : Z;
}.

Record RetryQueue := {
  queue : list QueuedQuery;
  dead : list QueuedQuery;
  max_retries : Z;
  cooldown : Duration;
  max_queue_len : nat;
}.

Definition DEFAULT_MAX_QUEUE_LEN : nat := 1024.

Definition with_config (retries cooldown_secs : Z) : RetryQueue :=
  {| queue := []; dead := []; max_retries := retries;
     cooldown := from_secs cooldown_secs; max_queue_len := DEFAULT_MAX_QUEUE_LEN |}.

Definition new : RetryQueue :=
  {| queue := []; dead := []; max_retries := 3;
     cooldown := from_secs 30; max_queue_len := DEFAULT_MAX_QUEUE_LEN |}.

Definition set_queue (l : list QueuedQuery) (q : RetryQueue) : RetryQueue :=
  {| queue := l; dead := dead q; max_retries := max_retries q;
     cooldown := cooldown q; max_queue_len := max_queue_len q |}.

Definition set_dead (l : list QueuedQuery) (q : RetryQueue) : RetryQueue :=
  {| queue := queue q; dead := l; max_retries := max_retries q;
     cooldown := cooldown q; max_queue_len := max_queue_len q |}.

(** Push to a list bounded by [n] that forgets its oldest element: the
    [push] followed by [if len > n { remove(0) }] of both lists. *)
Definition bounded_push {A} (n : nat) (l : list A) (x : A) : list A :=
  let l' := l ++ [x] in
  if (n <? length l')%nat then remove_at 0 l' else l'.

Definition push (now : Instant) (o : QueryOptions) (q : RetryQueue) : RetryQueue :=
  if existsb (λ e, bool_decide (query (options e) = query o)) (queue q) then q
  else
    let entry := {| options := o; enqueued_at := now; retry_count := 0 |} in
    set_queue (bounded_push (max_queue_len q) (queue q) entry) q.

(** One round of the [drain_ready] loop, threading the dead-letter list, the
    options that are ready and the entries that stay. *)
Definition drain_entry (now : Instant) (q : RetryQueue)
    (acc : list QueuedQuery * list QueryOptions * list QueuedQuery) (e : QueuedQuery)
    : list QueuedQuery * list QueryOptions * list QueuedQuery :=
  let '(dead_acc, ready, remaining) := acc in
  if max_retries q <=? retry_count e then
    (bounded_push (max_queue_len q) dead_acc e, ready, remaining)
  else if cooldown q <=? duration_since now (enqueued_at e) then
    (** the retry count and time of [e] are updated and [e] is then consumed,
        so that only its options survive *)
    let e' := {| options := options e; enqueued_at := now;
                 retry_count := wrap32 (retry_count e + 1) |} in
    (dead_acc, ready ++ [options e'], remaining)
  else (dead_acc, ready, remaining ++ [e]).

Definition drain_ready (now : Instant) (q : RetryQueue) : list QueryOptions * RetryQueue :=
  let '(dead', ready, remaining) :=
    foldl (drain_entry now q) (dead q, [], []) (queue q) in
  (ready, set_queue remaining (set_dead dead' q)).

Definition len (q : RetryQueue) : nat := length (queue q).
Definition is_empty (q : RetryQueue) : bool :=
  match queue q with [] => true | _ => false end.
Definition clear (q : RetryQueue) : RetryQueue := set_queue [] q.
Definition dead_len (q : RetryQueue) : nat := length (dead q).
Definition dead_snapshot (q : RetryQueue) : list (string * Z) :=
  map (λ e, (query (options e), retry_count e)) (dead q).
Definition clear_dead (q : RetryQueue) : RetryQueue := set_dead [] q.

(** ** The queue as a transition system *)

Inductive step (q : RetryQueue) : RetryQueue → Prop :=
| step_push now o : step q (push now o q)
| step_drain now : step q (drain_ready now q).2
| step_clear : step q (clear q)
| step_clear_dead : step q (clear_dead q).

Definition init (q : RetryQueue) : Prop :=
  q = new ∨ ∃ retries secs, 0 ≤ retries ≤ u32_max ∧ 0 ≤ secs ≤ u64_max ∧
    q = with_config retries secs.

(** The queue never exceeds its bound, holds each query text once, and every
    queued query still has its initial retry count. *)
Definition inv (q : RetryQueue) : Prop :=
  max_queue_len q = DEFAULT_MAX_QUEUE_LEN ∧
  (length (queue q) ≤ max_queue_len q)%nat ∧
  (length (dead q) ≤ max_queue_len q)%nat ∧
  NoDup (map (λ e, query (options e)) (queue q)) ∧
  Forall (λ e, retry_count e = 0) (queue q) ∧
  (0 < max_retries q → dead q = []).

Lemma bounded_push_length {A} n (l : list A) x :
  (0 < n)%nat → (length l ≤ n)%nat → (length (bounded_push n l x) ≤ n)%nat.
Proof.
  intros Hn Hl. unfold bounded_push. destruct (Nat.ltb_spec n (length (l ++ [x]))).
  - destruct l; simpl in *; [lia|]. rewrite length_app in *; simpl in *. lia.
  - done.
Qed.

(** [bounded_push] is the append followed by dropping the oldest element. *)
Lemma bounded_push_suffix {A} n (l : list A) x :
  ∃ k, (k ≤ 1)%nat ∧ bounded_push n l x = drop k (l ++ [x]).
Proof.
  unfold bounded_push. case_match; [exists 1%nat|exists 0%nat].
  - split; [lia|]. destruct (l ++ [x]); by rewrite ?drop_0.
  - split; [lia|done].
Qed.

(** The loop of [drain_ready] in closed form, for entries within budget. *)
Lemma drain_fold now q l d r m :
  (∀ e, e ∈ l → retry_count e < max_retries q) →
  foldl (drain_entry now q) (d, r, m) l =
    (d,
     r ++ map options (retain (λ e, cooldown q <=? duration_since now (enqueued_at e)) l),
     m ++ retain (λ e, negb (cooldown q <=? duration_since now (enqueued_at e))) l).
Proof.
  revert r m. induction l as [|e l IH]; intros r m Hl; simpl.
  { by rewrite !app_nil_r. }
  assert (retry_count e < max_retries q) by (apply Hl; left).
  rewrite (proj2 (Z.leb_gt _ _)) by done.
  destruct (cooldown q <=? _) eqn:E; rewrite IH by (intros; apply Hl; by right); simpl;
    by rewrite <- app_assoc.
Qed.

(** Entries over budget all go to the (bounded) dead-letter list. *)
Lemma drain_fold_dead now q l d r m :
  (∀ e, e ∈ l → max_retries q ≤ retry_count e) →
  ∃ d', foldl (drain_entry now q) (d, r, m) l = (d', r, m) ∧
    ((0 < max_queue_len q)%nat → (length d ≤ max_queue_len q)%nat →
     (length d' ≤ max_queue_len q)%nat).
Proof.
  revert d. induction l as [|e l IH]; intros d Hl; simpl; [by exists d|].
  rewrite (proj2 (Z.leb_le _ _)) by (apply Hl; left).
  destruct (IH (bounded_push (max_queue_len q) d e)) as (d' & Hd' & Hlen).
  { intros; apply Hl; by right. }
  exists d'. split; [done|]. intros. apply Hlen; [done|]. by apply bounded_push_length.
Qed.

Lemma map_query_push n l (e : QueuedQuery) :
  NoDup (map (λ e, query (options e)) l) →
  (∀ x, x ∈ l → query (options x) ≠ query (options e)) →
  NoDup (map (λ e, query (options e)) (bounded_push n l e)).
Proof.
  intros Hnd Hne. destruct (bounded_push_suffix n l e) as (k & _ & ->).
  rewrite <- skipn_map. eapply sublist_NoDup; [|apply sublist_drop].
  rewrite map_app. apply NoDup_app. repeat split; [done| |apply NoDup_singleton].
  intros x Hx. apply list_elem_of_fmap in Hx as (y & -> & Hy). simpl.
  rewrite list_elem_of_singleton. by apply Hne.
Qed.

Lemma drain_ready_fresh now q :
  Forall (λ e, retry_count e = 0) (queue q) → 0 < max_retries q →
  drain_ready now q =
    (map options (retain (λ e, cooldown q <=? duration_since now (enqueued_at e)) (queue q)),
     set_queue (retain (λ e, negb (cooldown q <=? duration_since now (enqueued_at e)))
                  (queue q)) q).
Proof.
  intros Hz Hm. unfold drain_ready. rewrite drain_fold.
  - by destruct q.
  - intros e He. rewrite Forall_forall in Hz. rewrite (Hz e He). lia.
Qed.

Lemma drain_ready_exhausted now q :
  Forall (λ e, retry_count e = 0) (queue q) → max_retries q ≤ 0 →
  ∃ d', drain_ready now q = ([], set_queue [] (set_dead d' q)) ∧
    ((0 < max_queue_len q)%nat → (length (dead q) ≤ max_queue_len q)%nat →
     (length d' ≤ max_queue_len q)%nat).
Proof.
  intros Hz Hm. destruct (drain_fold_dead now q (queue q) (dead q) [] []) as (d' & Hd & Hlen).
  { intros e He. rewrite Forall_forall in Hz. rewrite (Hz e He). lia. }
  exists d'. split; [|done]. unfold drain_ready. by rewrite Hd.
Qed.

#[export] Instance retry_queue_invariant : StepInvariant init step inv.
Proof.
  split.
  - intros q [-> | (r & c & _ & _ & ->)]; unfold inv; simpl; repeat split;
      try done; try lia; constructor.
  - intros q q' (Hn & Hq & Hd & Hnd & Hz & Hdead) Hstep.
    assert (0 < max_queue_len q)%nat by (rewrite Hn; unfold DEFAULT_MAX_QUEUE_LEN; lia).
    destruct Hstep as [now o|now| |]; unfold inv.
    + unfold push. case_match eqn:Ee; simpl; [done|].
      rewrite <- not_true_iff_false, existsb_exists in Ee.
      repeat split; try done; [by apply bounded_push_length| |].
      * apply map_query_push; [done|]. intros x Hx Heq. apply Ee. exists x.
        split; [by apply list_elem_of_In|]. by apply bool_decide_eq_true.
      * destruct (bounded_push_suffix (max_queue_len q) (queue q)
          {| options := o; enqueued_at := now; retry_count := 0 |}) as (i & _ & ->).
        apply Forall_drop, Forall_app. by repeat constructor.
    + destruct (decide (0 < max_retries q)).
      * rewrite drain_ready_fresh by done. simpl. repeat split; try done.
        -- etrans; [apply retain_length|done].
        -- eapply sublist_NoDup; [exact Hnd|]. apply sublist_map, retain_sublist.
        -- apply Forall_forall. intros e [He _]%elem_of_retain.
           by apply (proj1 (Forall_forall _ _) Hz).
      * destruct (drain_ready_exhausted now q Hz) as (d' & -> & Hd'); [lia|]. simpl.
        repeat split; try done; [lia|by apply Hd'|constructor].
    + simpl. repeat split; try done; [lia|constructor].
    + simpl. repeat split; try done; lia.
Qed.

(** The retry queue is bounded and deduplicated: in every reachable state it
    holds at most [DEFAULT_MAX_QUEUE_LEN] queries, no query text twice, and the
    dead-letter list respects the same bound. *)
Theorem retry_queue_bounded q (Hr : reachable init step q) :
  (len q ≤ DEFAULT_MAX_QUEUE_LEN)%nat ∧ (dead_len q ≤ DEFAULT_MAX_QUEUE_LEN)%nat ∧
  NoDup (map (λ e, query (options e)) (queue q)).
Proof.
  apply (invariant_reachable init step inv) in Hr. destruct Hr as (-> & ? & ? & ? & _). done.
Qed.

(** The retry budget is never spent: draining forgets the count it has just
    incremented and a re-queued query starts from zero, so with any positive
    [max_retries] no reachable queue ever has a dead letter, and draining
    always hands out exactly the cooled-down queries in arrival order while
    keeping the others. *)
Theorem retry_budget_never_exhausted q now (Hr : reachable init step q)
    (Hpos : 0 < max_retries q) :
  dead q = [] ∧
  drain_ready now q =
    (map options (retain (λ e, cooldown q <=? duration_since now (enqueued_at e)) (queue q)),
     set_queue (retain (λ e, negb (cooldown q <=? duration_since now (enqueued_at e)))
                  (queue q)) q).
Proof.
  apply (invariant_reachable init step inv) in Hr.
  destruct Hr as (_ & _ & _ & _ & Hz & Hdead).
  split; [by apply Hdead|]. by apply drain_ready_fresh.
Qed.

End options.

(** A query that keeps failing: pushed, drained after the cooldown and pushed
    again by [process_retry_queue], for as many rounds as one likes. *)
Definition requeue (now : Instant) (q : RetryQueue (QueryOptions := string))
    : RetryQueue (QueryOptions := string) :=
  let '(ready, q') := drain_ready now q in
  foldl (λ q o, push id now o q) q' ready.

Lemma retry_queue_bounded_witness :
  (len (push id 5 "a"%string (push id 4 "a"%string new)) ≤ 1024)%nat.
Proof.
  apply (retry_queue_bounded id).
  exists new. split; [by left|].
  eapply rtc_l; [apply (step_push id _ 4 "a"%string)|].
  eapply rtc_l; [apply (step_push id _ 5 "a"%string)|]. apply rtc_refl.
Defined.

Lemma retry_budget_never_exhausted_witness :
  let q := requeue (from_secs 90) (requeue (from_secs 60) (requeue (from_secs 30)
    (push id 0 "a"%string new))) in
  queue q = [{| options := "a"%string; enqueued_at := from_secs 90; retry_count := 0 |}] ∧
  dead q = [].
Proof.
  intros q. split; [reflexivity|].
  apply (retry_budget_never_exhausted id q (from_secs 120)); [|reflexivity].
  exists new. split; [by left|].
  eapply rtc_l; [apply (step_push id _ 0 "a"%string)|].
  eapply rtc_l; [apply (step_drain id _ (from_secs 30))|].
  eapply rtc_l; [apply (step_push id _ (from_secs 30) "a"%string)|].
  eapply rtc_l; [apply (step_drain id _ (from_secs 60))|].
  eapply rtc_l; [apply (step_push id _ (from_secs 60) "a"%string)|].
  eapply rtc_l; [apply (step_drain id _ (from_secs 90))|].
  eapply rtc_l; [apply (step_push id _ (from_secs 90) "a"%string)|].
  apply rtc_refl.
Defined.

End RetryQueue.
