(* ===== verification/QueryCache.v ===== *)
(** * The query cache

    Models [QueryCache] of crates/app/cce-orchestrator/src/query/cache.rs: the
    results of queries and the guards by which concurrent lookups of one key
    coalesce onto one computation. Requests run concurrently; every step of one
    is an event. Keys are compared only; the cache behind the results
    (moka) may drop an entry at any time. *)

From S2P Require Import Prelude.
From stdpp Require Import base numbers countable gmap fin_maps.
From Stdlib Require Import ZArith Lia.

Module QueryCache.
Section cache.
Context {Key : Type} `{Countable Key} {Payload QueryError : Type}.

(** What a query returns beside the flag is opaque to the cache. *)
Record QueryResult := { payload : Payload; from_cache : bool }.
Abbreviation Outcome := (result QueryResult QueryError).

Record CacheConfig := { max_results : Z; result_ttl_secs : Z; enabled : bool }.
Definition default_config : CacheConfig := {| max_results := 1000; result_ttl_secs := 300; enabled := true |}.

(** A guard is the identity of the allocated mutex. *)
Abbreviation Guard := nat.
Abbreviation Task := nat.

(** Where a request stands inside of [get_or_compute], between two awaits. *)
Inductive Phase :=
| Started
| Missed
| Waiting (g : Guard)
| Holding (g : Guard)
| Computing (g : Guard)
| Computed (g : Guard) (r : Outcome)
| Published (g : Guard) (r : Outcome)
| Returning (g : Guard) (r : Outcome)
| Direct
| Done (r : Outcome)
| Cancelled.

(** The shared state, and the requests with their keys. *)
Record QueryCache := {
  config : CacheConfig;
  result_cache : gmap Key QueryResult;
  inflight : gmap Key Guard;
  locked : gset Guard;
  next_guard : Guard;
  tasks : gmap Task (Key * Phase)
}.

Definition new (c : CacheConfig) : QueryCache :=
  {| config := c; result_cache := ∅; inflight := ∅; locked := ∅; next_guard := 0; tasks := ∅ |}.

Definition disabled : QueryCache :=
  new {| max_results := max_results default_config; result_ttl_secs := result_ttl_secs default_config;
         enabled := false |}.

Definition is_enabled (s : QueryCache) : bool := enabled (config s).

Definition with_results (m : gmap Key QueryResult) (s : QueryCache) : QueryCache :=
  {| config := config s; result_cache := m; inflight := inflight s; locked := locked s;
     next_guard := next_guard s; tasks := tasks s |}.
Definition with_inflight (m : gmap Key Guard) (n : Guard) (s : QueryCache) : QueryCache :=
  {| config := config s; result_cache := result_cache s; inflight := m; locked := locked s;
     next_guard := n; tasks := tasks s |}.
Definition with_locked (l : gset Guard) (s : QueryCache) : QueryCache :=
  {| config := config s; result_cache := result_cache s; inflight := inflight s; locked := l;
     next_guard := next_guard s; tasks := tasks s |}.
Definition set_phase (t : Task) (k : Key) (ph : Phase) (s : QueryCache) : QueryCache :=
  {| config := config s; result_cache := result_cache s; inflight := inflight s; locked := locked s;
     next_guard := next_guard s; tasks := <[t := (k, ph)]> (tasks s) |}.

Definition hit (r : QueryResult) : Outcome := Ok {| payload := payload r; from_cache := true |}.

(** A hit ends the request with the entry; the flag says where it came from. *)
Definition check_cache (t : Task) (k : Key) (on_hit : Outcome → Phase) (on_miss : Phase) (s : QueryCache)
    : QueryCache :=
  match result_cache s !! k with
  | Some r => set_phase t k (on_hit (hit r)) s
  | None => set_phase t k on_miss s
  end.

(** [entry(key).or_insert_with(new guard)], one section of the map's mutex. *)
Definition clone_guard (t : Task) (k : Key) (s : QueryCache) : QueryCache :=
  match inflight s !! k with
  | Some g => set_phase t k (Waiting g) s
  | None =>
      let g := next_guard s in
      set_phase t k (Waiting g) (with_inflight (<[k := g]> (inflight s)) (S g) s)
  end.

Definition publish (t : Task) (k : Key) (g : Guard) (r : Outcome) (s : QueryCache) : QueryCache :=
  set_phase t k (Published g r)
    match r with
    | Ok value => with_results (<[k := value]> (result_cache s)) s
    | Err _ => s
    end.

Definition drop_slot (t : Task) (k : Key) (g : Guard) (r : Outcome) (s : QueryCache) : QueryCache :=
  set_phase t k (Returning g r)
    (if bool_decide (inflight s !! k = Some g) then with_inflight (delete k (inflight s)) (next_guard s) s
     else s).

Definition release (g : Guard) (s : QueryCache) : QueryCache := with_locked (locked s ∖ {[g]}) s.

(** One step of a request that does not wait for its computation. *)
Definition advance (t : Task) (s : QueryCache) : option QueryCache :=
  match tasks s !! t with
  | Some (k, Started) =>
      Some (if enabled (config s) then check_cache t k Done Missed s else set_phase t k Direct s)
  | Some (k, Missed) => Some (clone_guard t k s)
  | Some (k, Waiting g) =>
      if bool_decide (g ∈ locked s) then None
      else Some (set_phase t k (Holding g) (with_locked ({[g]} ∪ locked s) s))
  | Some (k, Holding g) => Some (check_cache t k (Returning g) (Computing g) s)
  | Some (k, Computed g r) => Some (publish t k g r s)
  | Some (k, Published g r) => Some (drop_slot t k g r s)
  | Some (k, Returning g r) => Some (set_phase t k (Done r) (release g s))
  | _ => None
  end.

(** A computation is a fresh one: its result does not carry the flag. *)
Definition computed (o : result Payload QueryError) : Outcome :=
  match o with Ok p => Ok {| payload := p; from_cache := false |} | Err e => Err e end.

Definition finish (t : Task) (o : result Payload QueryError) (s : QueryCache) : option QueryCache :=
  match tasks s !! t with
  | Some (k, Computing g) => Some (set_phase t k (Computed g (computed o)) s)
  | Some (k, Direct) => Some (set_phase t k (Done (computed o)) s)
  | _ => None
  end.

(** A request can be dropped wherever it awaits; its lock goes with it. *)
Definition cancel (t : Task) (s : QueryCache) : option QueryCache :=
  match tasks s !! t with
  | Some (k, (Started | Missed | Waiting _ | Direct)) => Some (set_phase t k Cancelled s)
  | Some (k, (Holding g | Computing g | Computed g _ | Published g _)) =>
      Some (set_phase t k Cancelled (release g s))
  | _ => None
  end.

Definition arrive (t : Task) (k : Key) (s : QueryCache) : option QueryCache :=
  match tasks s !! t with None => Some (set_phase t k Started s) | Some _ => None end.

Definition put_result (k : Key) (r : QueryResult) (s : QueryCache) : QueryCache :=
  if enabled (config s) then with_results (<[k := r]> (result_cache s)) s else s.

Definition get_result (k : Key) (s : QueryCache) : option QueryResult :=
  if enabled (config s) then result_cache s !! k else None.

Definition invalidate_all (s : QueryCache) : QueryCache := with_results ∅ s.

Inductive Event :=
| Arrive (t : Task) (k : Key)
| Advance (t : Task)
| Finish (t : Task) (o : result Payload QueryError)
| Cancel (t : Task)
| Put (k : Key) (r : QueryResult)
| Evict (k : Key)
| Invalidate.

Definition step (e : Event) (s : QueryCache) : option QueryCache :=
  match e with
  | Arrive t k => arrive t k s
  | Advance t => advance t s
  | Finish t o => finish t o s
  | Cancel t => cancel t s
  | Put k r => Some (put_result k r s)
  | Evict k => Some (with_results (delete k (result_cache s)) s)
  | Invalidate => Some (invalidate_all s)
  end.

Fixpoint run (events : list Event) (s : QueryCache) : option QueryCache :=
  match events with
  | [] => Some s
  | e :: events => s ← step e s; run events s
  end.

(** ** Guards *)

Definition guard_of (ph : Phase) : option Guard :=
  match ph with
  | Waiting g | Holding g | Computing g | Computed g _ | Published g _ | Returning g _ => Some g
  | _ => None
  end.

(** The requests between taking the lock of their guard and returning. *)
Definition holds (ph : Phase) : option Guard :=
  match ph with
  | Holding g | Computing g | Computed g _ | Published g _ | Returning g _ => Some g
  | _ => None
  end.

(** Every guard serves one key, and its lock is held by one request or none. *)
Record guards_ok (own : Guard → option Key) (s : QueryCache) : Prop := {
  slot_fresh k g : inflight s !! k = Some g → (g < next_guard s)%nat;
  task_fresh t k ph g : tasks s !! t = Some (k, ph) → guard_of ph = Some g → (g < next_guard s)%nat;
  slot_own k g : inflight s !! k = Some g → own g = Some k;
  task_own t k ph g : tasks s !! t = Some (k, ph) → guard_of ph = Some g → own g = Some k;
  lock_held g : g ∈ locked s → ∃ t k ph, tasks s !! t = Some (k, ph) ∧ holds ph = Some g;
  held_locked t k ph g : tasks s !! t = Some (k, ph) → holds ph = Some g → g ∈ locked s;
  holder_unique t t' k k' ph ph' g :
    tasks s !! t = Some (k, ph) → tasks s !! t' = Some (k', ph') →
    holds ph = Some g → holds ph' = Some g → t = t'
}.

Lemma holds_guard ph g : holds ph = Some g → guard_of ph = Some g.
Proof. by destruct ph. Qed.

Lemma guards_new c own : guards_ok own (new c).
Proof. by split; cbn; set_solver. Qed.

(** A step that changes the phase of one request, but neither what it holds nor
    the locks. *)
Lemma guards_set own t k ph ph' s :
  guards_ok own s → tasks s !! t = Some (k, ph) ∨ (tasks s !! t = None ∧ holds ph = None) →
  holds ph' = holds ph → (∀ g, guard_of ph' = Some g → (g < next_guard s)%nat ∧ own g = Some k) →
  guards_ok own (set_phase t k ph' s).
Proof.
  intros [H1 H2 H3 H4 H5 H6 H7] Ht Hh Hg.
  assert (Hold : ∀ t' k' ph'', <[t:=(k, ph')]> (tasks s) !! t' = Some (k', ph'') →
    ∀ g, holds ph'' = Some g → ∃ k0 ph0, tasks s !! t' = Some (k0, ph0) ∧ holds ph0 = Some g).
  { intros t' k' ph'' [[<- E]|[Hne E]]%lookup_insert_Some g Hph; [|eauto].
    injection E as -> <-. rewrite Hh in Hph. destruct Ht as [Ht|[Ht Hn]]; [eauto|congruence]. }
  split; cbn; try done.
  - intros t' k' ph'' g [[<- E]|[_ E]]%lookup_insert_Some Hgu; [|by eapply H2].
    injection E as <- <-. by apply Hg.
  - intros t' k' ph'' g [[<- E]|[_ E]]%lookup_insert_Some Hgu; [|by eapply H4].
    injection E as <- <-. by apply Hg.
  - intros g (t' & k' & ph'' & E & Hph)%H5. destruct (decide (t = t')) as [<-|Hne].
    + exists t, k, ph'. rewrite lookup_insert_eq. split; [done|]. destruct Ht as [Ht|[Ht _]]; congruence.
    + exists t', k', ph''. by rewrite lookup_insert_ne.
  - intros t' k' ph'' g E Hph. edestruct Hold as (k0 & ph0 & E0 & Hph0); [exact E|exact Hph|]. by eapply H6.
  - intros t1 t2 k1 k2 ph1 ph2 g E1 E2 G1 G2.
    edestruct Hold as (? & ? & E1' & G1'); [exact E1|exact G1|].
    edestruct Hold as (? & ? & E2' & G2'); [exact E2|exact G2|]. by eapply H7.
Qed.

Lemma guards_take own t k g s :
  guards_ok own s → tasks s !! t = Some (k, Waiting g) → g ∉ locked s →
  guards_ok own (set_phase t k (Holding g) (with_locked ({[g]} ∪ locked s) s)).
Proof.
  intros [H1 H2 H3 H4 H5 H6 H7] Ht Hg. split; cbn; try done.
  - intros t' k' ph' g' [[<- E]|[_ E]]%lookup_insert_Some Hgu; [|by eapply H2]. simplify_eq/=. by eapply H2.
  - intros t' k' ph' g' [[<- E]|[_ E]]%lookup_insert_Some Hgu; [|by eapply H4]. simplify_eq/=. by eapply H4.
  - intros g' [->%elem_of_singleton|Hg']%elem_of_union.
    + exists t, k, (Holding g). by rewrite lookup_insert_eq.
    + destruct (H5 g' Hg') as (t' & k' & ph' & E & Hph). exists t', k', ph'.
      rewrite lookup_insert_ne; [done|]. intros ->. simplify_eq/=.
  - intros t' k' ph' g' [[<- E]|[_ E]]%lookup_insert_Some Hph; simplify_eq/=; [set_solver|].
    apply elem_of_union. right. by eapply H6.
  - intros t1 t2 k1 k2 ph1 ph2 g'
      [[<- E1]|[N1 E1]]%lookup_insert_Some [[<- E2]|[N2 E2]]%lookup_insert_Some G1 G2; simplify_eq/=; try done.
    + destruct Hg. by eapply H6.
    + destruct Hg. by eapply H6.
    + by eapply H7.
Qed.

(** Giving the lock back: returning, or being dropped. *)
Lemma guards_release own t k ph ph' g s :
  guards_ok own s → tasks s !! t = Some (k, ph) → holds ph = Some g → guard_of ph' = None →
  guards_ok own (set_phase t k ph' (release g s)).
Proof.
  intros [H1 H2 H3 H4 H5 H6 H7] Ht Hg Hn.
  assert (Hn' : holds ph' = None) by (by destruct ph').
  split; cbn; try done.
  - intros t' k' ph'' g' [[<- E]|[_ E]]%lookup_insert_Some Hgu; [congruence|by eapply H2].
  - intros t' k' ph'' g' [[<- E]|[_ E]]%lookup_insert_Some Hgu; [congruence|by eapply H4].
  - intros g' [Hg' Hne]%elem_of_difference. destruct (H5 g' Hg') as (t' & k' & ph'' & E & Hph).
    exists t', k', ph''. rewrite lookup_insert_ne; [done|]. intros ->.
    assert (g' = g) by congruence. set_solver.
  - intros t' k' ph'' g' [[<- E]|[Hne E]]%lookup_insert_Some Hph; [congruence|].
    apply elem_of_difference. split; [by eapply H6|]. intros ->%elem_of_singleton.
    destruct Hne. by eapply H7.
  - intros t1 t2 k1 k2 ph1 ph2 g'
      [[<- E1]|[N1 E1]]%lookup_insert_Some [[<- E2]|[N2 E2]]%lookup_insert_Some G1 G2;
      [done|congruence|congruence|by eapply H7].
Qed.

Lemma guards_clone own t k s :
  guards_ok own s → tasks s !! t = Some (k, Missed) →
  ∃ own', guards_ok own' (clone_guard t k s).
Proof.
  intros Hok Ht. unfold clone_guard. destruct (inflight s !! k) as [g|] eqn:E.
  - exists own. apply (guards_set own t k Missed); [done|by left|done|]. intros g' [= <-].
    split; [by eapply slot_fresh|by eapply slot_own].
  - exists (λ g, if decide (g = next_guard s) then Some k else own g).
    apply (guards_set _ t k Missed); [|by left|done|]; cycle 1.
    { intros g' [= <-]. cbn. split; [lia|]. by rewrite decide_True. }
    destruct Hok as [H1 H2 H3 H4 H5 H6 H7].
    split; cbn; try done.
    + intros k' g [[<- <-]|[_ Hs]]%lookup_insert_Some; [lia|]. specialize (H1 _ _ Hs). lia.
    + intros t' k' ph g E' Hgu. specialize (H2 _ _ _ _ E' Hgu). lia.
    + intros k' g [[<- <-]|[_ Hs]]%lookup_insert_Some; [by rewrite decide_True|].
      specialize (H1 _ _ Hs). rewrite decide_False by lia. by apply H3.
    + intros t' k' ph g E' Hgu. specialize (H2 _ _ _ _ E' Hgu). rewrite decide_False by lia. by eapply H4.
Qed.

Lemma guards_other own s s' :
  guards_ok own s → inflight s' = inflight s → locked s' = locked s → next_guard s' = next_guard s →
  tasks s' = tasks s → guards_ok own s'.
Proof.
  intros [H1 H2 H3 H4 H5 H6 H7] E1 E2 E3 E4.
  split; rewrite ?E1, ?E2, ?E3, ?E4; done.
Qed.

Lemma guards_drop own t k g r s :
  guards_ok own s → tasks s !! t = Some (k, Published g r) → guards_ok own (drop_slot t k g r s).
Proof.
  intros Hok Ht. unfold drop_slot.
  assert (Hg : ∀ g', guard_of (Returning g r) = Some g' → (g' < next_guard s)%nat ∧ own g' = Some k).
  { intros g' [= <-]. split; [by eapply task_fresh|by eapply task_own]. }
  apply (guards_set own t k (Published g r)); try case_bool_decide; try done; try by left.
  destruct Hok as [H1 H2 H3 H4 H5 H6 H7]. split; cbn; try done.
  - intros k' g' [_ E]%lookup_delete_Some. by eapply H1.
  - intros k' g' [_ E]%lookup_delete_Some. by apply H3.
Qed.

Lemma guards_check own t k g ph on_hit s :
  guards_ok own s → tasks s !! t = Some (k, ph) →
  guard_of ph = g → holds ph = g → (∀ r, guard_of (on_hit r) = g ∧ holds (on_hit r) = g) →
  ∀ on_miss, guard_of on_miss = g → holds on_miss = g →
  guards_ok own (check_cache t k on_hit on_miss s).
Proof.
  intros Hok Ht Hg Hh Hhit on_miss Hmg Hmh. unfold check_cache.
  assert (Hgo : ∀ g', g = Some g' → (g' < next_guard s)%nat ∧ own g' = Some k).
  { intros g' Hg'. rewrite Hg' in Hg. split; [by eapply task_fresh|by eapply task_own]. }
  destruct (result_cache s !! k) as [r|]; apply (guards_set own t k ph); try done; try (by left).
  - by rewrite (proj2 (Hhit _)), Hh.
  - intros g' Hg'. apply Hgo. by rewrite <- (proj1 (Hhit (hit r))).
  - by rewrite Hmh, Hh.
  - intros g' Hg'. apply Hgo. by rewrite <- Hmg.
Qed.

(** A phase that carries the guard on. *)
Lemma guards_carry own t k ph ph' s :
  guards_ok own s → tasks s !! t = Some (k, ph) → guard_of ph' = guard_of ph → holds ph' = holds ph →
  guards_ok own (set_phase t k ph' s).
Proof.
  intros Hok Ht Hg Hh. apply (guards_set own t k ph); [done|by left|done|].
  intros g' Hg'. rewrite Hg in Hg'. split; [by eapply task_fresh|by eapply task_own].
Qed.

Lemma guards_advance own t s s' :
  guards_ok own s → advance t s = Some s' → ∃ own', guards_ok own' s'.
Proof.
  intros Hok. unfold advance. destruct (tasks s !! t) as [[k ph]|] eqn:Ht; [|done].
  destruct ph as [| |g|g|g|g r|g r|g r| |r|]; try done.
  - intros [= <-]. exists own. destruct (enabled (config s)).
    + by apply (guards_check own t k None Started).
    + by apply (guards_carry own t k Started).
  - intros [= <-]. by eapply guards_clone.
  - case_bool_decide as Hg; [done|]. intros [= <-]. exists own. by apply guards_take.
  - intros [= <-]. exists own. by apply (guards_check own t k (Some g) (Holding g)).
  - intros [= <-]. exists own. unfold publish. apply (guards_carry own t k (Computed g r)); destruct r; try done.
    by apply (guards_other own s).
  - intros [= <-]. exists own. by apply guards_drop.
  - intros [= <-]. exists own. by apply (guards_release own t k (Returning g r)).
Qed.

Lemma guards_step own e s s' :
  guards_ok own s → step e s = Some s' → ∃ own', guards_ok own' s'.
Proof.
  intros Hok. destruct e as [t k|t|t o|t|k r|k|]; cbn.
  - unfold arrive. destruct (tasks s !! t) eqn:Ht; [done|]. intros [= <-]. exists own.
    apply (guards_set own t k Started); [done|by right|done|done].
  - intros He. by eapply guards_advance.
  - unfold finish. destruct (tasks s !! t) as [[k ph]|] eqn:Ht; [|done]. destruct ph as [| | | |g| | | | | |]; try done.
    + intros [= <-]. exists own. by apply (guards_carry own t k (Computing g)).
    + intros [= <-]. exists own. by apply (guards_carry own t k Direct).
  - unfold cancel. destruct (tasks s !! t) as [[k ph]|] eqn:Ht; [|done].
    destruct ph as [| |g|g|g|g r|g r|g r| |r|]; try done; intros [= <-]; exists own;
      try (by apply (guards_release own t k _ Cancelled g s Hok Ht)).
    all: by apply (guards_set own t k _ Cancelled s Hok (or_introl Ht)).
  - intros [= <-]. exists own. unfold put_result. destruct (enabled _); by apply (guards_other own s).
  - intros [= <-]. exists own. by apply (guards_other own s).
  - intros [= <-]. exists own. by apply (guards_other own s).
Qed.

Lemma run_app l1 l2 s : run (l1 ++ l2) s = run l1 s ≫= run l2.
Proof. revert s. induction l1 as [|e l1 IH]; intros s; [done|]. cbn. by destruct (step e s); cbn. Qed.

Lemma run_snoc l e s s' : run (l ++ [e]) s = Some s' → ∃ s1, run l s = Some s1 ∧ step e s1 = Some s'.
Proof.
  rewrite run_app. destruct (run l s) as [s1|]; [|done]. cbn. destruct (step e s1) as [s2|] eqn:E; [|done].
  intros [= <-]. by exists s1.
Qed.

Lemma guards_run events c s : run events (new c) = Some s → ∃ own, guards_ok own s.
Proof.
  revert s. induction events as [|e events IH] using rev_ind; intros s.
  - intros [= <-]. exists (λ _, None). apply guards_new.
  - intros (s1 & Hr & He)%run_snoc. destruct (IH s1 Hr) as [own Hok]. by eapply guards_step.
Qed.

(** ** Single flight *)

(** Whether the request ran the computation itself. *)
Definition fresh_answer (r : Outcome) : bool :=
  match r with Ok v => negb (from_cache v) | Err _ => true end.
Definition ran (ph : Phase) : bool :=
  match ph with
  | Computing _ | Computed _ _ | Published _ _ => true
  | Returning _ r | Done r => fresh_answer r
  | _ => false
  end.

(** The answer a request has seen. *)
Definition answer (ph : Phase) : option Outcome :=
  match ph with Computed _ r | Published _ r | Returning _ r | Done r => Some r | _ => None end.

Definition settled (ph : Phase) : bool :=
  match ph with Published _ _ | Returning _ _ | Done _ => true | _ => false end.

(** Nothing fails, nobody gives up, and the cache keeps its entries. *)
Definition quiet (e : Event) : Prop :=
  match e with Arrive _ _ | Advance _ | Finish _ (Ok _) => True | _ => False end.

Record single_ok (s : QueryCache) : Prop := {
  on : enabled (config s) = true;
  no_direct t k : tasks s !! t ≠ Some (k, Direct);
  no_error t k ph r : tasks s !! t = Some (k, ph) → answer ph = Some r → is_ok r = true;
  slot_until_published t k ph g :
    result_cache s !! k = None → tasks s !! t = Some (k, ph) → guard_of ph = Some g →
    inflight s !! k = Some g;
  settled_cached t k ph :
    tasks s !! t = Some (k, ph) → settled ph = true →
    ∃ v r, result_cache s !! k = Some v ∧ answer ph = Some (Ok r) ∧ payload r = payload v;
  cached_settled t k ph v :
    result_cache s !! k = Some v → tasks s !! t = Some (k, ph) → ran ph = true → settled ph = true;
  ran_once t t' k ph ph' :
    tasks s !! t = Some (k, ph) → tasks s !! t' = Some (k, ph') → ran ph = true → ran ph' = true → t = t'
}.

Lemma single_new c : enabled c = true → single_ok (new c).
Proof. intros Hc. split; cbn; try done; intros; simplify_map_eq. Qed.

(** A request moves on without running, seeing or publishing anything. *)
Lemma single_move t k ph ph' s :
  single_ok s → tasks s !! t = Some (k, ph) ∨ tasks s !! t = None →
  ran ph' = false → settled ph' = false → answer ph' = None → ph' ≠ Direct →
  (∀ g, result_cache s !! k = None → guard_of ph' = Some g → inflight s !! k = Some g) →
  single_ok (set_phase t k ph' s).
Proof.
  intros [H1 H2 H3 H4 H5 H6 H7] Ht Hr Hs Ha Hd Hg. split; cbn; [done|..].
  - intros t' k'. rewrite lookup_insert_Some. intros [[<- E]|[_ E]]; [congruence|by eapply H2].
  - intros t' k' ph'' r [[<- E]|[_ E]]%lookup_insert_Some Han; [congruence|by eapply H3].
  - intros t' k' ph'' g Hc [[<- E]|[_ E]]%lookup_insert_Some Hgu; [|by eapply H4].
    injection E as <- <-. by apply Hg.
  - intros t' k' ph'' [[<- E]|[_ E]]%lookup_insert_Some Hse; [congruence|by eapply H5].
  - intros t' k' ph'' v Hc [[<- E]|[_ E]]%lookup_insert_Some Hra; [congruence|by eapply H6].
  - intros t1 t2 k' ph1 ph2 [[<- E1]|[_ E1]]%lookup_insert_Some [[<- E2]|[_ E2]]%lookup_insert_Some R1 R2;
      [done|congruence|congruence|by eapply H7].
Qed.

(** A request ends with the entry of the cache. *)
Lemma single_hit t k ph v ph' s :
  single_ok s → tasks s !! t = Some (k, ph) → result_cache s !! k = Some v →
  answer ph' = Some (hit v) → ran ph' = false → settled ph' = true → ph' ≠ Direct →
  single_ok (set_phase t k ph' s).
Proof.
  intros [H1 H2 H3 H4 H5 H6 H7] Ht Hc Ha Hr Hs Hd. split; cbn; [done|..].
  - intros t' k'. rewrite lookup_insert_Some. intros [[<- E]|[_ E]]; [congruence|by eapply H2].
  - intros t' k' ph'' r [[<- E]|[_ E]]%lookup_insert_Some Han; [|by eapply H3].
    injection E as <- <-. rewrite Ha in Han. by injection Han as <-.
  - intros t' k' ph'' g Hn [[<- E]|[_ E]]%lookup_insert_Some Hgu; [congruence|by eapply H4].
  - intros t' k' ph'' [[<- E]|[_ E]]%lookup_insert_Some Hse; [|by eapply H5].
    injection E as <- <-. eexists v, _. split_and!; [done|exact Ha|done].
  - intros t' k' ph'' v' Hv [[<- E]|[_ E]]%lookup_insert_Some Hra; [congruence|by eapply H6].
  - intros t1 t2 k' ph1 ph2 [[<- E1]|[_ E1]]%lookup_insert_Some [[<- E2]|[_ E2]]%lookup_insert_Some R1 R2;
      [done|congruence|congruence|by eapply H7].
Qed.

(** A request that runs goes on running. *)
Lemma single_carry t k ph ph' s :
  single_ok s → tasks s !! t = Some (k, ph) →
  ran ph = true ∨ ran ph' = false → settled ph' = settled ph → guard_of ph' = guard_of ph ∨ guard_of ph' = None →
  ph' ≠ Direct → (∀ r, answer ph' = Some r → answer ph = Some r ∨ is_ok r = true ∧ settled ph = false) →
  (settled ph = true → answer ph' = answer ph) →
  single_ok (set_phase t k ph' s).
Proof.
  intros [H1 H2 H3 H4 H5 H6 H7] Ht Hr Hs Hg Hd Ha Hsa. split; cbn; [done|..].
  - intros t' k'. rewrite lookup_insert_Some. intros [[<- E]|[_ E]]; [congruence|by eapply H2].
  - intros t' k' ph'' r [[<- E]|[_ E]]%lookup_insert_Some Han; [|by eapply H3].
    injection E as <- <-. destruct (Ha r Han) as [Hr'|[Hr' _]]; [by eapply H3|done].
  - intros t' k' ph'' g Hn [[<- E]|[_ E]]%lookup_insert_Some Hgu; [|by eapply H4].
    injection E as <- <-. destruct Hg as [Hg|Hg]; [|congruence]. eapply H4; [done..|]. by rewrite <- Hg.
  - intros t' k' ph'' [[<- E]|[_ E]]%lookup_insert_Some Hse; [|by eapply H5].
    injection E as <- <-. rewrite Hs in Hse. rewrite (Hsa Hse). by eapply H5.
  - intros t' k' ph'' v Hv [[<- E]|[_ E]]%lookup_insert_Some Hra; [|by eapply H6].
    injection E as <- <-. rewrite Hs. destruct Hr as [Hr|Hr]; [by eapply H6|congruence].
  - intros t1 t2 k' ph1 ph2 [[<- E1]|[_ E1]]%lookup_insert_Some [[<- E2]|[_ E2]]%lookup_insert_Some R1 R2;
      [done|simplify_eq|simplify_eq|by eapply H7].
    + destruct Hr as [Hr|Hr]; [by eapply H7|congruence].
    + destruct Hr as [Hr|Hr]; [by eapply H7|congruence].
Qed.

Lemma single_shared s s' :
  single_ok s → config s' = config s → tasks s' = tasks s → result_cache s' = result_cache s →
  (∀ k, result_cache s !! k = None → inflight s' !! k = inflight s !! k) → single_ok s'.
Proof.
  intros [H1 H2 H3 H4 H5 H6 H7] E1 E2 E3 E4. split; rewrite ?E1, ?E2, ?E3; try done.
  intros t k ph g Hn Ht Hg. rewrite E4 by done. by eapply H4.
Qed.

Lemma single_clone own t k s :
  guards_ok own s → single_ok s → tasks s !! t = Some (k, Missed) → single_ok (clone_guard t k s).
Proof.
  intros Hg Hs Ht. unfold clone_guard. destruct (inflight s !! k) as [g|] eqn:E.
  - apply (single_move t k Missed); try done; [by left|]. by intros g' _ [= <-].
  - apply (single_move t k Missed); try done; [|by left|].
    + destruct Hs as [H1 H2 H3 H4 H5 H6 H7]. split; try done. cbn.
      intros t' k' ph g Hn Ht' Hgu. specialize (H4 _ _ _ _ Hn Ht' Hgu).
      rewrite lookup_insert_ne; [done|]. intros <-. congruence.
    + intros g' _ [= <-]. cbn. by rewrite lookup_insert_eq.
Qed.

(** Taking the lock with nothing in the cache: nobody of the key has run. *)
Lemma single_start own t k g s :
  guards_ok own s → single_ok s → tasks s !! t = Some (k, Holding g) → result_cache s !! k = None →
  single_ok (set_phase t k (Computing g) s).
Proof.
  intros Hg [H1 H2 H3 H4 H5 H6 H7] Ht Hc.
  assert (Hnone : ∀ t' ph', tasks s !! t' = Some (k, ph') → ran ph' = true → False).
  { intros t' ph' Ht' Hr. destruct (settled ph') eqn:Hse.
    { destruct (H5 _ _ _ Ht' Hse) as (v & _ & Hv & _). congruence. }
    assert (Hh : ∃ g', holds ph' = Some g' ∧ guard_of ph' = Some g') by (destruct ph'; cbn in *; try done; eauto).
    destruct Hh as (g' & Hh & Hgu). specialize (H4 _ _ _ _ Hc Ht' Hgu) as Hi.
    specialize (H4 _ _ _ _ Hc Ht eq_refl) as Hi'. assert (g' = g) as -> by congruence.
    assert (t' = t) as -> by (by eapply (holder_unique own s Hg)). simplify_eq. }
  split; cbn; [done|..].
  - intros t' k'. rewrite lookup_insert_Some. intros [[<- E]|[_ E]]; [congruence|by eapply H2].
  - intros t' k' ph'' r [[<- E]|[_ E]]%lookup_insert_Some Han; [by simplify_eq|by eapply H3].
  - intros t' k' ph'' g' Hn [[<- E]|[_ E]]%lookup_insert_Some Hgu; [|by eapply H4].
    simplify_eq/=. by eapply H4.
  - intros t' k' ph'' [[<- E]|[_ E]]%lookup_insert_Some Hse; [by simplify_eq|by eapply H5].
  - intros t' k' ph'' v Hv [[<- E]|[_ E]]%lookup_insert_Some Hra; [congruence|by eapply H6].
  - intros t1 t2 k' ph1 ph2 [[<- E1]|[_ E1]]%lookup_insert_Some [[<- E2]|[_ E2]]%lookup_insert_Some R1 R2;
      simplify_eq; [done|destruct (Hnone _ _ E2 R2)|destruct (Hnone _ _ E1 R1)|by eapply H7].
Qed.

Lemma single_publish own t k g v s :
  guards_ok own s → single_ok s → tasks s !! t = Some (k, Computed g (Ok v)) →
  single_ok (publish t k g (Ok v) s).
Proof.
  intros Hg [H1 H2 H3 H4 H5 H6 H7] Ht.
  assert (Hc : result_cache s !! k = None).
  { destruct (result_cache s !! k) as [w|] eqn:E; [|done]. by specialize (H6 _ _ _ _ E Ht eq_refl). }
  assert (Hset : ∀ t' ph', tasks s !! t' = Some (k, ph') → settled ph' = false).
  { intros t' ph' Ht'. apply not_true_iff_false. intros Hse.
    destruct (H5 _ _ _ Ht' Hse) as (w & _ & Hw & _). congruence. }
  split; cbn; [done|..].
  - intros t' k'. rewrite lookup_insert_Some. intros [[<- E]|[_ E]]; [congruence|by eapply H2].
  - intros t' k' ph' r [[<- E]|[_ E]]%lookup_insert_Some Han; [|by eapply H3].
    by simplify_eq/=.
  - intros t' k' ph' g' [Hn Hk]%lookup_insert_None [[<- E]|[_ E]]%lookup_insert_Some Hgu; [congruence|by eapply H4].
  - intros t' k' ph' [[<- E]|[Hne E]]%lookup_insert_Some Hse.
    + simplify_eq. exists v, v. by rewrite lookup_insert_eq.
    + destruct (H5 _ _ _ E Hse) as (w & r & Hw & Ha & Hp). exists w, r.
      rewrite lookup_insert_ne; [done|]. intros <-. congruence.
  - intros t' k' ph' w [[<- E1]|[Hne E1]]%lookup_insert_Some [[<- E]|[Hnt E]]%lookup_insert_Some Hra; simplify_eq; try done.
    + destruct Hnt. by apply (H7 t t' _ _ ph' Ht E).
    + by eapply H6.
  - intros t1 t2 k' ph1 ph2 [[<- E1]|[_ E1]]%lookup_insert_Some [[<- E2]|[_ E2]]%lookup_insert_Some R1 R2;
      simplify_eq; [done|by apply (H7 t t2 _ _ ph2 Ht E2)|by apply (H7 t1 t _ ph1 _ E1 Ht)|by eapply H7].
Qed.

Lemma single_advance own t s s' :
  guards_ok own s → single_ok s → advance t s = Some s' → single_ok s'.
Proof.
  intros Hg Hs. unfold advance. destruct (tasks s !! t) as [[k ph]|] eqn:Ht; [|done].
  destruct ph as [| |g|g|g|g r|g r|g r| |r|]; try done.
  - intros [= <-]. rewrite (on s Hs). unfold check_cache.
    destruct (result_cache s !! k) as [v|] eqn:E; [by apply (single_hit t k Started v)|].
    apply (single_move t k Started); try done. by left.
  - intros [= <-]. by apply (single_clone own).
  - case_bool_decide; [done|]. intros [= <-]. apply (single_move t k (Waiting g)); try done; [|by left|].
    + by apply (single_shared s).
    + intros g' Hn [= <-]. by apply (slot_until_published s Hs t k (Waiting g)).
  - intros [= <-]. unfold check_cache. destruct (result_cache s !! k) as [v|] eqn:E.
    + by apply (single_hit t k (Holding g) v).
    + by apply (single_start own).
  - intros [= <-]. pose proof (no_error s Hs _ _ _ _ Ht eq_refl) as Hr. destruct r as [v|]; [|done].
    by apply (single_publish own).
  - intros [= <-]. destruct (settled_cached s Hs _ _ _ Ht eq_refl) as (v & w & Hv & [= ->] & _).
    unfold drop_slot. apply (single_carry t k (Published g (Ok w))); cbn; try tauto; try done.
    + case_bool_decide; [|done]. apply (single_shared s); try done. intros k' Hk'. cbn.
      apply lookup_delete_ne. congruence.
    + by case_bool_decide.
  - intros [= <-]. apply (single_carry t k (Returning g r)); cbn; try tauto; try done.
    + by apply (single_shared s).
    + destruct (fresh_answer r); auto.
Qed.

Lemma single_step own e s s' :
  quiet e → guards_ok own s → single_ok s → step e s = Some s' → single_ok s'.
Proof.
  intros Hq Hg Hs. destruct e as [t k|t|t [p|e]|t|k r|k|]; try done; cbn.
  - unfold arrive. destruct (tasks s !! t) eqn:Ht; [done|]. intros [= <-].
    apply (single_move t k Started); try done. by right.
  - by apply (single_advance own).
  - unfold finish. destruct (tasks s !! t) as [[k ph]|] eqn:Ht; [|done]. destruct ph as [| | | |g| | | | | |]; try done.
    + intros [= <-]. apply (single_carry t k (Computing g)); cbn; try tauto; try done.
      intros r [= <-]. by right.
    + by destruct (no_direct s Hs t k).
Qed.

Lemma single_run events c s :
  enabled c = true → Forall quiet events → run events (new c) = Some s → single_ok s.
Proof.
  intros Hc. revert s. induction events as [|e events IH] using rev_ind; intros s.
  - intros _ [= <-]. by apply single_new.
  - intros [Hq [Hqe _]%Forall_cons]%Forall_app (s1 & Hr & He)%run_snoc.
    destruct (guards_run _ _ _ Hr) as [own Hok]. apply (single_step own e s1 s Hqe Hok (IH s1 Hq Hr) He).
Qed.

(** C26. Without failures, cancellations and evictions the concurrent lookups of a
    key run the computation once: all answers to them are the one answer, and
    one of them at most is not marked as cached. *)
Theorem single_flight c events s k :
  enabled c = true → Forall quiet events → run events (new c) = Some s →
  (∀ t t' ph ph', tasks s !! t = Some (k, ph) → tasks s !! t' = Some (k, ph') →
     ran ph = true → ran ph' = true → t = t') ∧
  (∀ t t' r r', tasks s !! t = Some (k, Done r) → tasks s !! t' = Some (k, Done r') →
     ∃ v v', r = Ok v ∧ r' = Ok v' ∧ payload v = payload v').
Proof.
  intros Hc Hq Hr. pose proof (single_run _ _ _ Hc Hq Hr) as Hs. split.
  - intros t t' ph ph'. by apply ran_once.
  - intros t t' r r' Ht Ht'.
    destruct (settled_cached s Hs _ _ _ Ht eq_refl) as (v & w & Hv & [= ->] & Hw).
    destruct (settled_cached s Hs _ _ _ Ht' eq_refl) as (v' & w' & Hv' & [= ->] & Hw').
    exists w, w'. split_and!; [done..|]. congruence.
Qed.

(** ** Where answers come from *)

(** A request for the key computed the value, or it was put there. *)
Definition provided (events : list Event) (k : Key) (p : Payload) : Prop :=
  (∃ t, Arrive t k ∈ events ∧ Finish t (Ok p) ∈ events) ∨ ∃ r, Put k r ∈ events ∧ payload r = p.

Definition justified (events : list Event) (t : Task) (k : Key) (r : Outcome) : Prop :=
  (∃ o, Finish t o ∈ events ∧ r = computed o) ∨
  (∃ p, r = Ok {| payload := p; from_cache := true |} ∧ provided events k p).

Record sound_ok (events : list Event) (s : QueryCache) : Prop := {
  arrived t k ph : tasks s !! t = Some (k, ph) → Arrive t k ∈ events;
  entry_provided k v : result_cache s !! k = Some v → provided events k (payload v);
  answer_justified t k ph r : tasks s !! t = Some (k, ph) → answer ph = Some r → justified events t k r
}.

Lemma provided_mono events e k p : provided events k p → provided (events ++ [e]) k p.
Proof. unfold provided. set_solver. Qed.

Lemma justified_mono events e t k r : justified events t k r → justified (events ++ [e]) t k r.
Proof.
  intros [(o & Ho & ->)|(p & -> & Hp)]; [left; exists o; set_solver|].
  right. exists p. split; [done|]. by apply provided_mono.
Qed.

Lemma sound_mono events e s : sound_ok events s → sound_ok (events ++ [e]) s.
Proof.
  intros [H1 H2 H3]. split.
  - intros t k ph Ht. apply elem_of_app. left. by eapply H1.
  - intros k v Hv. by apply provided_mono, H2.
  - intros t k ph r Ht Ha. apply justified_mono. by eapply H3.
Qed.

(** The request gets an answer it may have, or keeps its own. *)
Lemma sound_set events t k ph s :
  sound_ok events s → Arrive t k ∈ events → (∀ r, answer ph = Some r → justified events t k r) →
  sound_ok events (set_phase t k ph s).
Proof.
  intros [H1 H2 H3] Ht Ha. split; cbn; [|done|].
  - intros t' k' ph' [[<- E]|[_ E]]%lookup_insert_Some; [by simplify_eq|by eapply H1].
  - intros t' k' ph' r [[<- E]|[_ E]]%lookup_insert_Some Hr; [|by eapply H3]. simplify_eq. by apply Ha.
Qed.

Lemma sound_shared events s s' :
  sound_ok events s → tasks s' = tasks s →
  (∀ k v, result_cache s' !! k = Some v → result_cache s !! k = Some v ∨ provided events k (payload v)) →
  sound_ok events s'.
Proof.
  intros [H1 H2 H3] E Hv. split; rewrite ?E; try done.
  intros k v Hk. destruct (Hv k v Hk); [by apply H2|done].
Qed.

Lemma sound_advance events t s s' : sound_ok events s → advance t s = Some s' → sound_ok events s'.
Proof.
  intros Hs. unfold advance. destruct (tasks s !! t) as [[k ph]|] eqn:Ht; [|done].
  pose proof (arrived _ _ Hs _ _ _ Ht) as Hk. pose proof (λ r, answer_justified _ _ Hs _ _ _ r Ht) as Ha.

  assert (Hhit : ∀ v, result_cache s !! k = Some v → justified events t k (hit v)).
  { intros v Hv. right. exists (payload v). split; [done|]. by eapply entry_provided. }
  destruct ph as [| |g|g|g|g r|g r|g r| |r|]; try done; cbn in Ha.
  - intros [= <-]. destruct (enabled (config s)); [|by apply sound_set]. unfold check_cache.
    destruct (result_cache s !! k) as [v|] eqn:E; apply sound_set; try done.
    intros r [= <-]. by apply Hhit.
  - intros [= <-]. unfold clone_guard. destruct (inflight s !! k); apply sound_set; try done.
    by apply (sound_shared events s); [|done|left].
  - case_bool_decide; [done|]. intros [= <-]. apply sound_set; try done.
    by apply (sound_shared events s); [|done|left].
  - intros [= <-]. unfold check_cache.
    destruct (result_cache s !! k) as [v|] eqn:E; apply sound_set; try done.
    intros r [= <-]. by apply Hhit.
  - intros [= <-]. unfold publish. apply sound_set; [|done|done].
    destruct r as [v|e]; [|done]. apply (sound_shared events s); [done..|]. cbn.
    intros k' v' [[<- <-]|[_ Hv]]%lookup_insert_Some; [|by left]. right.
    destruct (Ha (Ok v) eq_refl) as [([p|e] & Ho & E)|(p & E & Hp)]; simplify_eq/=; [|done].
    left. by exists t.
  - intros [= <-]. unfold drop_slot. apply sound_set; [|done|done].
    case_bool_decide; [|done]. by apply (sound_shared events s); [|done|left].
  - intros [= <-]. apply sound_set; [|done|done]. by apply (sound_shared events s); [|done|left].
Qed.

Lemma sound_step events e s s' : sound_ok events s → step e s = Some s' → sound_ok (events ++ [e]) s'.
Proof.
  intros Hs. pose proof (sound_mono events e s Hs) as Hm. destruct e as [t k|t|t o|t|k r|k|]; cbn.
  - unfold arrive. destruct (tasks s !! t) eqn:Ht; [done|]. intros [= <-]. apply sound_set; [done|set_solver|done].
  - by apply sound_advance.
  - unfold finish. destruct (tasks s !! t) as [[k ph]|] eqn:Ht; [|done].
    assert (Hj : justified (events ++ [Finish t o]) t k (computed o)) by (left; exists o; set_solver).
    destruct ph as [| | | |g| | | | | |]; try done; intros [= <-]; apply sound_set; try done;
      try (by eapply arrived); by intros r [= <-].
  - unfold cancel. destruct (tasks s !! t) as [[k ph]|] eqn:Ht; [|done].
    assert (Hk : Arrive t k ∈ events ++ [Cancel t]) by (by eapply arrived).
    destruct ph; try done; intros [= <-]; apply sound_set; try done;
      by apply (sound_shared _ s); [|done|left].
  - intros [= <-]. unfold put_result. destruct (enabled _); [|done]. apply (sound_shared _ s); [done..|]. cbn.
    intros k' v' [[<- <-]|[_ Hv]]%lookup_insert_Some; [|by left]. right. right. exists r. set_solver.
  - intros [= <-]. apply (sound_shared _ s); [done..|]. cbn. intros k' v' [_ Hv]%lookup_delete_Some. by left.
  - intros [= <-]. by apply (sound_shared _ s).
Qed.

(** Every answer is the outcome of the request's own computation, or carries the
    flag and a value computed by a request for the same key or put there: no
    failure reaches another request, and no key sees the value of another,
    whatever is cancelled, evicted or invalidated in between. *)
Theorem answers_are_computed c events s t k r :
  run events (new c) = Some s → tasks s !! t = Some (k, Done r) →
  (∃ o, Finish t o ∈ events ∧ r = computed o) ∨
  (∃ p, r = Ok {| payload := p; from_cache := true |} ∧ provided events k p).
Proof.
  intros Hr Ht. assert (Hs : sound_ok events s).
  { clear Ht. revert s Hr. induction events as [|e events IH] using rev_ind; intros s.
    - intros [= <-]. by split.
    - intros (s1 & Hr & He)%run_snoc. apply (sound_step events e s1); auto. }
  by apply (answer_justified _ _ Hs _ _ _ _ Ht).
Qed.

(** ** Every request is answered *)

(** How many steps a request has left at most. *)
Definition steps_left (ph : Phase) : nat :=
  match ph with
  | Started => 8 | Missed => 7 | Waiting _ => 6 | Holding _ => 5 | Computing _ => 4
  | Computed _ _ => 3 | Published _ _ => 2 | Returning _ _ | Direct => 1 | Done _ | Cancelled => 0
  end.

Definition finished (ph : Phase) : bool := match ph with Done _ | Cancelled => true | _ => false end.

Definition work (s : QueryCache) : nat := sum_list (map (λ x, steps_left x.2.2) (map_to_list (tasks s))).

(** The steps of the requests themselves. *)
Definition own_step (e : Event) : Prop := match e with Advance _ | Finish _ _ => True | _ => False end.

Lemma sum_list_permutation (l l' : list nat) : l ≡ₚ l' → sum_list l = sum_list l'.
Proof. induction 1; cbn; lia. Qed.

Lemma work_set t k k' ph ph' s :
  tasks s !! t = Some (k, ph) → (work (set_phase t k' ph' s) + steps_left ph = work s + steps_left ph')%nat.
Proof.
  intros Ht. unfold work. cbn.
  rewrite <- insert_delete_eq.
  rewrite (sum_list_permutation _ (map (λ x, steps_left x.2.2) ((t, (k', ph')) :: map_to_list (delete t (tasks s))))).
  2: { apply Permutation_map, map_to_list_insert, lookup_delete_eq. }
  rewrite (sum_list_permutation (map _ (map_to_list (tasks s)))
    (map (λ x, steps_left x.2.2) ((t, (k, ph)) :: map_to_list (delete t (tasks s))))).
  2: { apply Permutation_map. symmetry. by apply map_to_list_delete. }
  cbn. lia.
Qed.

Lemma work_tasks s s' : tasks s' = tasks s → work s' = work s.
Proof. unfold work. by intros ->. Qed.

Lemma work_decreases e s s' : own_step e → step e s = Some s' → (work s' < work s)%nat.
Proof.
  intros He. destruct e as [t k|t|t o|t|k r|k|]; try done; cbn.
  - unfold advance. destruct (tasks s !! t) as [[k ph]|] eqn:Ht; [|done].
    assert (Hset : ∀ s0 ph', tasks s0 = tasks s → (steps_left ph' < steps_left ph)%nat →
      (work (set_phase t k ph' s0) < work s)%nat).
    { intros s0 ph' E Hlt. rewrite <- E in Ht. pose proof (work_set t k k ph ph' s0 Ht).
      rewrite (work_tasks s s0 E) in *. lia. }
    destruct ph as [| |g|g|g|g r|g r|g r| |r|]; try done; cbn in Hset.
    + intros [= <-]. unfold check_cache.
      destruct (enabled _); [destruct (result_cache _ !! _)|]; apply Hset; cbn; done || lia.
    + intros [= <-]. unfold clone_guard. destruct (inflight _ !! _); apply Hset; cbn; done || lia.
    + case_bool_decide; [done|]. intros [= <-]. apply Hset; cbn; done || lia.
    + intros [= <-]. unfold check_cache. destruct (result_cache _ !! _); apply Hset; cbn; done || lia.
    + intros [= <-]. unfold publish. apply Hset; [by destruct r|cbn; lia].
    + intros [= <-]. unfold drop_slot. apply Hset; [by case_bool_decide|cbn; lia].
    + intros [= <-]. apply Hset; cbn; done || lia.
  - unfold finish. destruct (tasks s !! t) as [[k ph]|] eqn:Ht; [|done].
    destruct ph as [| | | |g| | | | | |]; try done; intros [= <-].
    + pose proof (work_set t k k (Computing g) (Computed g (computed o)) s Ht). cbn in *. lia.
    + pose proof (work_set t k k Direct (Done (computed o)) s Ht). cbn in *. lia.
Qed.

(** While a request is unfinished, some request can take a step: one that waits
    for a lock waits for a request that does not. *)
Lemma no_deadlock own s t k ph o :
  guards_ok own s → tasks s !! t = Some (k, ph) → finished ph = false →
  ∃ e s', own_step e ∧ step e s = Some s' ∧ ∀ t' o', e = Finish t' o' → o' = o.
Proof.
  intros Hg Ht Hf.
  assert (Hstep : ∀ t k ph, tasks s !! t = Some (k, ph) → finished ph = false → (∀ g, ph = Waiting g → g ∉ locked s) →
    ∃ e s', own_step e ∧ step e s = Some s' ∧ ∀ t' o', e = Finish t' o' → o' = o).
  { clear t k ph Ht Hf. intros t k ph Ht Hf Hw.
    destruct ph as [| |g|g|g|g r|g r|g r| |r|]; try done.
    all: try (exists (Advance t); cbn; unfold advance; rewrite Ht; eexists; by split_and!).
    all: try (exists (Finish t o); cbn; unfold finish; rewrite Ht; eexists; split_and!; [done..|]; by intros ? ? [= _ ->]).
    exists (Advance t). cbn. unfold advance. rewrite Ht, bool_decide_eq_false_2 by (by apply Hw).
    eexists. by split_and!. }
  assert (Hw : (∃ g, ph = Waiting g ∧ g ∈ locked s) ∨ ∀ g, ph = Waiting g → g ∉ locked s).
  { destruct ph as [| |g| | | | | | | |]; try (right; by intros ? [=]).
    destruct (decide (g ∈ locked s)); [left; eauto|right; by intros ? [= <-]]. }
  destruct Hw as [(g & -> & Hl)|Hn].
  - destruct (lock_held own s Hg g Hl) as (t' & k' & ph' & Ht' & Hh).
    apply (Hstep t' k' ph' Ht'); [by destruct ph'|]. intros g' ->. done.
  - by apply (Hstep t k ph Ht Hf).
Qed.

Lemma own_step_keeps e s s' t k ph :
  own_step e → step e s = Some s' → tasks s !! t = Some (k, ph) → ph ≠ Cancelled →
  ∃ ph', tasks s' !! t = Some (k, ph') ∧ ph' ≠ Cancelled.
Proof.
  intros He Hs Ht Hc.
  assert (Hset : ∀ t' k' ph' ph0 s0, tasks s !! t' = Some (k', ph0) → tasks s0 = tasks s → ph' ≠ Cancelled →
    ∃ ph'', tasks (set_phase t' k' ph' s0) !! t = Some (k, ph'') ∧ ph'' ≠ Cancelled).
  { intros t' k' ph' ph0 s0 Ht' E Hn. cbn. rewrite E. destruct (decide (t' = t)) as [->|Hne].
    - exists ph'. rewrite lookup_insert_eq. split; [congruence|done].
    - exists ph. by rewrite lookup_insert_ne. }
  destruct e as [t' k'|t'|t' o|t'|k' r|k'|]; try done; cbn in Hs.
  - unfold advance in Hs. destruct (tasks s !! t') as [[k' ph']|] eqn:Ht'; [|done].
    destruct ph' as [| |g|g|g|g r|g r|g r| |r|]; try done.
    + injection Hs as <-. unfold check_cache.
      destruct (enabled _); [destruct (result_cache _ !! _)|]; by eapply Hset.
    + injection Hs as <-. unfold clone_guard. destruct (inflight _ !! _); by eapply Hset.
    + case_bool_decide; [done|]. injection Hs as <-. by eapply Hset.
    + injection Hs as <-. unfold check_cache. destruct (result_cache _ !! _); by eapply Hset.
    + injection Hs as <-. eapply Hset; [exact Ht'|by destruct r|done].
    + injection Hs as <-. eapply Hset; [exact Ht'|by case_bool_decide|done].
    + injection Hs as <-. by eapply Hset.
  - unfold finish in Hs. destruct (tasks s !! t') as [[k' ph']|] eqn:Ht'; [|done].
    destruct ph'; try done; injection Hs as <-; by eapply Hset.
Qed.

Lemma own_run more s s' :
  Forall own_step more → run more s = Some s' →
  (length more + work s' ≤ work s)%nat ∧
  ∀ t k ph, tasks s !! t = Some (k, ph) → ph ≠ Cancelled → ∃ ph', tasks s' !! t = Some (k, ph') ∧ ph' ≠ Cancelled.
Proof.
  intros Hm. revert s. induction Hm as [|e more He Hm IH]; intros s.
  - intros [= <-]. split; [cbn; lia|eauto].
  - cbn. destruct (step e s) as [s1|] eqn:E; [|done]. cbn. intros Hr.
    destruct (IH s1 Hr) as [Hl Hk]. pose proof (work_decreases _ _ _ He E). split; [lia|].
    intros t k ph Ht Hc. destruct (own_step_keeps _ _ _ _ _ _ He E Ht Hc) as (ph1 & Ht1 & Hc1). by eapply Hk.
Qed.

(** C37. Whatever has happened, the requests cannot run for ever, and when none of
    them can take another step and no computation is outstanding each one that
    was not dropped has its answer: nobody waits for a guard that is never released. *)
Theorem requests_complete c events s more s' (o : result Payload QueryError) :
  run events (new c) = Some s → Forall own_step more → run more s = Some s' →
  (length more ≤ work s)%nat ∧
  ((∀ t, advance t s' = None ∧ finish t o s' = None) →
   ∀ t k ph, tasks s !! t = Some (k, ph) → ph ≠ Cancelled → ∃ r, tasks s' !! t = Some (k, Done r)).
Proof.
  intros Hr Hm Hr'. destruct (own_run more s s' Hm Hr') as [Hl Hk]. split; [lia|].
  intros Hstuck t k ph Ht Hc. destruct (Hk t k ph Ht Hc) as (ph' & Ht' & Hc').
  destruct (guards_run (events ++ more) c s') as [own Hok]; [by rewrite run_app, Hr|].
  destruct (finished ph') eqn:Hf; [destruct ph'; try done; by eexists|].
  destruct (no_deadlock own s' t k ph' o Hok Ht' Hf) as (e & s2 & He & Hs2 & Ho).
  destruct e as [|t2|t2 o2| | | |]; try done; cbn in Hs2.
  - by rewrite (proj1 (Hstuck t2)) in Hs2.
  - rewrite (Ho t2 o2 eq_refl) in Hs2. by rewrite (proj2 (Hstuck t2)) in Hs2.
Qed.

(** ** What the guards do not do *)

Lemma run_advance t s s' more r : advance t s = Some s' → run more s' = Some r → run (Advance t :: more) s = Some r.
Proof. cbn. by intros ->. Qed.

(** Runs the next step of a request whose phase is known. *)
Ltac next_step :=
  eapply run_advance;
  [unfold advance, clone_guard, check_cache, publish, drop_slot;
   do 3 (cbn; simplify_map_eq;
     try match goal with |- context [bool_decide ?P] =>
       first [rewrite (bool_decide_eq_true_2 P) by done|
              rewrite (bool_decide_eq_false_2 P) by (done || set_solver)] end);
   reflexivity|].

(** A request that missed before the result was published and asks for the guard
    after the leader has removed it installs a new one, finds the result, and
    leaves the guard behind although nobody computes. *)
Theorem late_guard_lingers s t k v :
  tasks s !! t = Some (k, Missed) → result_cache s !! k = Some v →
  inflight s !! k = None → next_guard s ∉ locked s →
  ∃ s', run [Advance t; Advance t; Advance t; Advance t] s = Some s' ∧
    tasks s' !! t = Some (k, Done (hit v)) ∧ inflight s' !! k = Some (next_guard s) ∧
    next_guard s ∉ locked s'.
Proof.
  intros Ht Hv Hi Hl. eexists. split; [do 4 next_step; reflexivity|]. cbn. rewrite !lookup_insert_eq.
  split_and!; [done..|]. set_solver.
Qed.

(** A leader that fails removes the guard its followers wait for, so a request
    that asks for the guard afterwards gets another one, and both compute the
    same key at the same time. *)
Theorem failed_leader_lets_two_compute s t0 t1 t2 k g e :
  tasks s !! t0 = Some (k, Computed g (Err e)) → tasks s !! t1 = Some (k, Waiting g) →
  tasks s !! t2 = Some (k, Missed) → t0 ≠ t1 → t0 ≠ t2 → t1 ≠ t2 →
  result_cache s !! k = None → inflight s !! k = Some g → next_guard s ∉ locked s → g ≠ next_guard s →
  ∃ s', run [Advance t0; Advance t0; Advance t0; Advance t2; Advance t2; Advance t2; Advance t1; Advance t1] s
      = Some s' ∧
    tasks s' !! t1 = Some (k, Computing g) ∧ tasks s' !! t2 = Some (k, Computing (next_guard s)).
Proof.
  intros H0 H1 H2 N01 N02 N12 Hc Hi Hl Hg. eexists. split; [do 8 next_step; reflexivity|].
  cbn. by simplify_map_eq.
Qed.
End cache.

(** ** Examples *)

#[local] Open Scope Z_scope.

Definition demo_events : list (@Event Z Z unit) :=
  [Arrive 0 7; Arrive 1 7; Advance 0; Advance 0; Advance 0; Advance 0; Advance 1; Advance 1;
   Finish 0 (Ok 42); Advance 0; Advance 0; Advance 0; Advance 1; Advance 1; Advance 1].

Definition demo_state (events : list (@Event Z Z unit)) : @QueryCache Z _ _ Z unit :=
  default (new default_config) (run events (new default_config)).

Example demo_answers :
  map (λ t, tasks (demo_state demo_events) !! t) [0%nat; 1%nat] =
  [Some (7, Done (Ok {| payload := 42; from_cache := false |}));
   Some (7, Done (Ok {| payload := 42; from_cache := true |}))] ∧
  inflight (demo_state demo_events) = ∅ ∧ locked (demo_state demo_events) = ∅.
Proof. by vm_compute. Qed.

Theorem single_flight_witness :
  let own : @Phase Z unit := Done (Ok {| payload := 42; from_cache := false |}) in
  let shared : @Phase Z unit := Done (Ok {| payload := 42; from_cache := true |}) in
  (tasks (demo_state demo_events) !! 0%nat = Some (7, own) ∧ tasks (demo_state demo_events) !! 1%nat = Some (7, shared)) ∧
  ran own = true ∧ ran shared ≠ true ∧
  (∃ v v' : @QueryResult Z, own = Done (Ok v) ∧ shared = Done (Ok v') ∧ payload v = payload v').
Proof.
  intros own shared.
  assert (H0 : tasks (demo_state demo_events) !! 0%nat = Some (7, own)) by (vm_compute; reflexivity).
  assert (H1 : tasks (demo_state demo_events) !! 1%nat = Some (7, shared)) by (vm_compute; reflexivity).
  destruct (single_flight default_config demo_events (demo_state demo_events) 7) as [Honce Hsame].
  - reflexivity.
  - repeat constructor.
  - vm_compute. reflexivity.
  - split; [exact (conj H0 H1)|]. split; [reflexivity|]. split.
    + intros Hr. discriminate (Honce _ _ _ _ H0 H1 eq_refl Hr).
    + destruct (Hsame _ _ _ _ H0 H1) as (v & v' & Hv & Hv' & Hp). exists v, v'.
      unfold own, shared. rewrite Hv, Hv'. split; [reflexivity|]. split; [reflexivity|exact Hp].
Defined.

Theorem answers_are_computed_witness :
  justified demo_events 1 7 (Ok {| payload := 42; from_cache := true |}).
Proof.
  apply (answers_are_computed default_config demo_events (demo_state demo_events) 1 7); vm_compute; reflexivity.
Defined.

Theorem requests_complete_witness :
  let early := take 8 demo_events in
  let late := drop 8 demo_events in
  (length late ≤ work (demo_state early))%nat ∧
  ∃ r, tasks (demo_state demo_events) !! 1%nat = Some (7, Done r).
Proof.
  intros early late.
  destruct (requests_complete default_config early (demo_state early) late (demo_state demo_events) (Ok 0))
    as [Hl Hd].
  - vm_compute. reflexivity.
  - repeat constructor.
  - vm_compute. reflexivity.
  - split; [exact Hl|]. apply (λ H, Hd H 1%nat 7 (Waiting 0)); [|vm_compute; reflexivity|done].
    assert (Hf : map_Forall (λ _ x, finished x.2 = true) (tasks (demo_state demo_events)))
      by (apply (bool_decide_unpack _); vm_compute; exact I).
    intros t. unfold advance, finish. destruct (tasks _ !! t) as [[k ph]|] eqn:E; [|done].
    specialize (Hf _ _ E). by destruct ph.
Defined.

(** The second request misses before the first publishes, and asks for the guard
    after the first has returned. *)
Definition late_events : list (@Event Z Z unit) :=
  [Arrive 0 7; Arrive 1 7; Advance 0; Advance 0; Advance 0; Advance 0; Advance 1;
   Finish 0 (Ok 42); Advance 0; Advance 0; Advance 0].

Theorem late_guard_lingers_witness :
  let s := demo_state (late_events ++ [Advance 1; Advance 1; Advance 1; Advance 1]) in
  tasks s !! 1%nat = Some (7, Done (Ok {| payload := 42; from_cache := true |})) ∧ inflight s !! 7 = Some 1%nat.
Proof.
  destruct (late_guard_lingers (demo_state late_events) 1 7 {| payload := 42; from_cache := false |})
    as (s' & E & Ht & Hi & _); [by vm_compute..|vm_compute; by apply (bool_decide_unpack _)|].
  assert (Hs : run (late_events ++ [Advance 1; Advance 1; Advance 1; Advance 1]) (new default_config) = Some s').
  { rewrite run_app. exact E. }
  unfold demo_state. rewrite Hs. split; [exact Ht|exact Hi].
Defined.

(** The leader fails while one request waits for its guard and another is about
    to ask for it. *)
Definition failing_events : list (@Event Z Z unit) :=
  [Arrive 0 7; Arrive 1 7; Arrive 2 7; Advance 0; Advance 0; Advance 0; Advance 0; Advance 1; Advance 1;
   Advance 2; Finish 0 (Err tt)].

Theorem failed_leader_lets_two_compute_witness :
  ∃ s', run [Advance 0; Advance 0; Advance 0; Advance 2; Advance 2; Advance 2; Advance 1; Advance 1]
    (demo_state failing_events) = Some s' ∧
  tasks s' !! 1%nat = Some (7, Computing 0) ∧ tasks s' !! 2%nat = Some (7, Computing 1).
Proof.
  apply (failed_leader_lets_two_compute (demo_state failing_events) 0 1 2 7 0 tt);
    try (by vm_compute).
Defined.

End QueryCache.
