(* ===== verification/PointIds.v ===== *)
(** * Identifiers of points

    Models [project_chunk_point_id], [replace_epoch_in_id] and
    [replace_epoch_in_id_list] of
    crates/app/cce-orchestrator/src/index/storage_coordinator/mapping.rs: the
    identifiers of vector points carry the epoch of their generation, which
    compaction rewrites. *)

From S2P Require Import Prelude Str.
From stdpp Require Import base numbers strings pretty.
From Stdlib Require Import ZArith Lia Ascii.

#[local] Open Scope Z_scope.

Module PointIds.
Import Str.

Definition colon : char := 58.
Definition colons : str := lit "::".

(** [split("::")] *)
Fixpoint split_colons (s : str) : list str :=
  match s with
  | [] => [[]]
  | a :: s' =>
      match s' with
      | b :: t =>
          if (a =? colon) && (b =? colon) then [] :: split_colons t
          else match split_colons s' with p :: ps => (a :: p) :: ps | [] => [[a]] end
      | [] => [[a]]
      end
  end.

Definition project_chunk_point_id (project_group_id : str) (epoch : Z) (chunk_id : str) : str :=
  project_group_id ++ colons ++ lit (pretty epoch) ++ colons ++ chunk_id.

Definition replace_epoch_in_id (id : str) (old_epoch new_epoch : Z) : str :=
  match split_colons id with
  | prefix :: field :: rest =>
      if bool_decide (field = lit (pretty old_epoch)) then join colons (prefix :: lit (pretty new_epoch) :: rest) else id
  | _ => id
  end.

(** The JSON text of a list of strings, by serde_json. *)
Record JsonText := { from_str : string → option (list str); to_string : list str → option string }.

Definition replace_epoch_in_id_list (json : JsonText) (l : string) (old_epoch new_epoch : Z) : string :=
  match from_str json l with
  | None => l
  | Some ids => default l (to_string json (map (λ id, replace_epoch_in_id id old_epoch new_epoch) ids))
  end.

(** ** Splitting and joining *)

Lemma split_colons_cons a b t :
  split_colons (a :: b :: t) = if (a =? colon) && (b =? colon) then [] :: split_colons t
    else match split_colons (b :: t) with p :: ps => (a :: p) :: ps | [] => [[a]] end.
Proof. done. Qed.

Lemma split_colons_nonempty s : ∃ p ps, split_colons s = p :: ps.
Proof.
  destruct s as [|a [|b t]]; [by eexists _, _..|]. rewrite split_colons_cons.
  destruct (_ && _); [by eexists _, _|]. destruct (split_colons _); by eexists _, _.
Qed.

(** No two colons follow each other in a text that ends before a colon. *)
Fixpoint apart (s : str) : bool :=
  match s with
  | [] => true
  | a :: s' => negb ((a =? colon) && match s' with b :: _ => b =? colon | [] => true end) && apart s'
  end.

Lemma split_colons_app p s : apart p = true → split_colons (p ++ colons ++ s) = p :: split_colons s.
Proof.
  induction p as [|a p IH]; [done|]. intros Hp. cbn [apart] in Hp. apply andb_true_iff in Hp as [Ha Hp].
  specialize (IH Hp). destruct p as [|b p].
  - change (([a] ++ colons ++ s)) with (a :: colon :: colon :: s). rewrite split_colons_cons.
    rewrite andb_true_r in Ha. apply negb_true_iff in Ha. rewrite Ha. cbn [andb].
    change (split_colons (colon :: colon :: s)) with ([] :: split_colons s). done.
  - change ((a :: b :: p) ++ colons ++ s) with (a :: b :: (p ++ colons ++ s)). rewrite split_colons_cons.
    apply negb_true_iff in Ha. rewrite Ha. change (b :: p ++ colons ++ s) with ((b :: p) ++ colons ++ s). by rewrite IH.
Qed.

Lemma join_split s : join colons (split_colons s) = s.
Proof.
  assert (H : ∀ n s, (length s ≤ n)%nat → join colons (split_colons s) = s); [|by apply (H (length s))].
  clear s. induction n as [|n IH]; intros [|a [|b t]] Hn; cbn in Hn; try done; try lia.
  rewrite split_colons_cons. destruct (_ && _) eqn:Hc.
  - apply andb_true_iff in Hc as [->%Z.eqb_eq ->%Z.eqb_eq]. destruct (split_colons_nonempty t) as (p & ps & Hs).
    rewrite Hs. change (join colons ([] :: p :: ps)) with (colons ++ join colons (p :: ps)). rewrite <- Hs, IH by lia. done.
  - destruct (split_colons_nonempty (b :: t)) as (p & ps & Hs). pose proof (IH (b :: t) ltac:(cbn; lia)) as Hj.
    rewrite Hs in Hj |- *. destruct ps; cbn in Hj |- *; by rewrite Hj.
Qed.


Lemma pretty_N_go_apart x s : 58 ∉ lit s → 58 ∉ lit (pretty_N_go x s).
Proof.
  revert s. induction (N.lt_wf_0 x) as [x _ IH]. intros s Hs. destruct (decide (x = 0)%N) as [->|Hx].
  - by rewrite pretty_N_go_0.
  - rewrite pretty_N_go_step by lia. apply IH; [apply N.div_lt; lia|].
    change (lit (String (pretty_N_char (x mod 10)) s)) with (Z.of_nat (nat_of_ascii (pretty_N_char (x mod 10))) :: lit s).
    apply not_elem_of_cons. split; [|done]. 
    unfold pretty_N_char. by repeat case_match.
Qed.

Lemma pretty_apart (z : Z) : 58 ∉ lit (pretty z).
Proof.
  assert (Hn : ∀ n : N, 58 ∉ lit (pretty n)).
  { intros n. unfold pretty, pretty_N. case_decide; [cbn; set_solver|]. apply pretty_N_go_apart. apply not_elem_of_nil. }
  destruct z as [|p|p]; [cbn; set_solver|apply (Hn (Npos p))|].
  change (lit (pretty (Z.neg p))) with (45 :: lit (pretty (Npos p))). apply not_elem_of_cons. split; [done|apply Hn].
Qed.

Lemma apart_no_colon s : 58 ∉ s → apart s = true.
Proof.
  induction s as [|a s IH]; [done|]. intros [Ha Hs]%not_elem_of_cons. cbn. rewrite IH by done.
  by rewrite (proj2 (Z.eqb_neq a colon)) by (unfold colon; lia).
Qed.
Lemma split_point_id g e c :
  apart g = true → split_colons (project_chunk_point_id g e c) = g :: lit (pretty e) :: split_colons c.
Proof.
  intros Hg. unfold project_chunk_point_id. rewrite split_colons_app by done.
  by rewrite split_colons_app by by apply apart_no_colon, pretty_apart.
Qed.

(** Replacing the epoch of a point's identifier gives the identifier of the same
    chunk in the other generation, whatever the chunk is called; the identifiers
    of every other epoch stay. *)
Theorem point_id_epoch_replaced g e e' c :
  apart g = true →
  replace_epoch_in_id (project_chunk_point_id g e c) e e' = project_chunk_point_id g e' c ∧
  (∀ old, old ≠ e → replace_epoch_in_id (project_chunk_point_id g e c) old e' = project_chunk_point_id g e c).
Proof.
  intros Hg. unfold replace_epoch_in_id. rewrite split_point_id by done. split.
  - rewrite bool_decide_eq_true_2 by done. destruct (split_colons_nonempty c) as (p & ps & Hs). rewrite Hs.
    unfold project_chunk_point_id. rewrite <- (join_split c) at 1. by rewrite Hs.
  - intros old Hne. rewrite bool_decide_eq_false_2; [done|]. intros He%lit_inj. by apply (inj pretty) in He.
Qed.

Theorem point_id_epoch_replaced_witness :
  replace_epoch_in_id (lit "group::11::src/a.rs::f") 11 2 = lit "group::2::src/a.rs::f" ∧
  replace_epoch_in_id (lit "group::11::src/a.rs::f") 1 2 = lit "group::11::src/a.rs::f".
Proof.
  destruct (point_id_epoch_replaced (lit "group") 11 2 (lit "src/a.rs::f") eq_refl) as [H1 H2].
  split; [exact H1|exact (H2 1 ltac:(discriminate))].
Defined.
End PointIds.
