(* ===== verification/RelationEpochs.v ===== *)
(** * Relation epochs

    Models [RelationSnapshotRepository]
    (crates/infra/cce-storage-metadb-sqlite/src/repo/relation_snapshot_repo.rs
    with its snapshot_writer.rs and snapshot_delta.rs), the state of a snapshot
    of cce-types and the loader of cce-codegraph/src/index/snapshot_loader.rs:
    the manifests of the relation snapshots of one project, the deltas between
    them, and the rows of [project_meta]. The contents of a snapshot are opaque;
    of its rows the files are kept, whose key decides whether it can be written. *)

From S2P Require Import Prelude.
From stdpp Require Import base numbers countable gmap fin_maps strings sorting.
From Stdlib Require Import ZArith Lia.

#[local] Open Scope Z_scope.

Module RelationEpochs.

Inductive RelationSnapshotState := Building | Ready | Active | Failed | Delta.

#[export] Instance RelationSnapshotState_eq_dec : EqDecision RelationSnapshotState.
Proof. solve_decision. Defined.

Inductive StorageError := Validation | Transaction | Query | Insert.

#[export] Instance StorageError_eq_dec : EqDecision StorageError.
Proof. solve_decision. Defined.

Definition as_str (s : RelationSnapshotState) : string :=
  match s with
  | Building => "building" | Ready => "ready" | Active => "active" | Failed => "failed" | Delta => "delta"
  end.

Definition parse (s : string) : result RelationSnapshotState StorageError :=
  if bool_decide (s = "building") then Ok Building
  else if bool_decide (s = "ready") then Ok Ready
  else if bool_decide (s = "active") then Ok Active
  else if bool_decide (s = "failed") then Ok Failed
  else if bool_decide (s = "delta") then Ok Delta
  else Err Query.

(** The text of a row of [project_meta]: a number, or a text that does not parse
    as one but that the database casts to one. *)
Inductive MetaText := Number (z : Z) | Garbage (cast : Z).

Definition meta_cast (m : MetaText) : Z := match m with Number z | Garbage z => z end.

Definition meta_get_int_optional (key : string) (m : gmap string MetaText) : result (option Z) StorageError :=
  match m !! key with
  | None => Ok None
  | Some (Number z) => Ok (Some z)
  | Some (Garbage _) => Err Query
  end.

Definition meta_set_int (key : string) (value : Z) (m : gmap string MetaText) : gmap string MetaText :=
  <[key := Number value]> m.

Record Counts := { file_count : Z; entity_count : Z; relation_count : Z; dependency_count : Z }.

Record RelationSnapshotManifest := {
  operation_id : string;
  state : RelationSnapshotState;
  config_fingerprint : string;
  input_fingerprint : option string;
  snapshot_fingerprint : option string;
  counts : option Counts;
  created_at : Z;
  validated_at : option Z;
  activated_at : option Z;
  failure_reason : option string;
  symbol_key_conflict_count : Z
}.

Section repository.
(** The compressed payload of a delta, and its size. *)
Context {SnapshotDelta : Type} (size_of : SnapshotDelta → Z).

Record DeltaRow := { base_epoch : Z; delta_data : SnapshotDelta; size_bytes : Z }.

(** The rows of one project: manifests by their relation epoch, deltas by their
    epoch, the files of the snapshots by epoch and path. *)
Record Store := {
  manifests : gmap Z RelationSnapshotManifest;
  deltas : gmap Z DeltaRow;
  snapshot_files : gset (Z * string);
  project_meta : gmap string MetaText
}.

Definition with_manifests (m : gmap Z RelationSnapshotManifest) (s : Store) : Store :=
  {| manifests := m; deltas := deltas s; snapshot_files := snapshot_files s; project_meta := project_meta s |}.
Definition with_deltas (d : gmap Z DeltaRow) (s : Store) : Store :=
  {| manifests := manifests s; deltas := d; snapshot_files := snapshot_files s; project_meta := project_meta s |}.
Definition with_files (f : gset (Z * string)) (s : Store) : Store :=
  {| manifests := manifests s; deltas := deltas s; snapshot_files := f; project_meta := project_meta s |}.
Definition with_meta (m : gmap string MetaText) (s : Store) : Store :=
  {| manifests := manifests s; deltas := deltas s; snapshot_files := snapshot_files s; project_meta := m |}.

(** ** Manifests *)

Definition get_manifest (epoch : Z) (s : Store) : option RelationSnapshotManifest := manifests s !! epoch.

(** The epoch an operation has allocated; operations are unique. *)
Definition epoch_of_operation (op : string) (s : Store) : option (Z * RelationSnapshotManifest) :=
  head (filter (λ x, operation_id x.2 = op) (map_to_list (manifests s))).

Definition get_manifest_by_operation (op : string) (s : Store) : option RelationSnapshotManifest :=
  x ← epoch_of_operation op s; get_manifest x.1 s.

Definition max_epoch (s : Store) : Z := foldr Z.max 0 (map_to_list (manifests s)).*1.

(** [retry_failed] and the reuse of a failed epoch: everything the failed attempt
    recorded in the manifest is cleared. *)
Definition reset_to_building (m : RelationSnapshotManifest) : RelationSnapshotManifest :=
  {| operation_id := operation_id m; state := Building; config_fingerprint := config_fingerprint m;
     input_fingerprint := None; snapshot_fingerprint := None; counts := None; created_at := created_at m;
     validated_at := None; activated_at := None; failure_reason := None; symbol_key_conflict_count := 0 |}.

Definition with_state (st : RelationSnapshotState) (m : RelationSnapshotManifest) : RelationSnapshotManifest :=
  {| operation_id := operation_id m; state := st; config_fingerprint := config_fingerprint m;
     input_fingerprint := input_fingerprint m; snapshot_fingerprint := snapshot_fingerprint m;
     counts := counts m; created_at := created_at m; validated_at := validated_at m;
     activated_at := activated_at m; failure_reason := failure_reason m;
     symbol_key_conflict_count := symbol_key_conflict_count m |}.

Definition new_manifest (op config : string) (now : Z) : RelationSnapshotManifest :=
  {| operation_id := op; state := Building; config_fingerprint := config; input_fingerprint := None;
     snapshot_fingerprint := None; counts := None; created_at := now; validated_at := None;
     activated_at := None; failure_reason := None; symbol_key_conflict_count := 0 |}.

(** One above every epoch of a manifest and above the active one. *)
Definition next_epoch (s : Store) : Z :=
  Z.max (max_epoch s) (from_option meta_cast 0 (project_meta s !! "active_relation_epoch")) + 1.

Definition allocate_building (op config : string) (now : Z) (s : Store) : Z * Store :=
  match epoch_of_operation op s with
  | Some (epoch, m) =>
      (epoch,
       if decide (state m = Failed) then with_manifests (<[epoch := reset_to_building m]> (manifests s)) s else s)
  | None =>
      let epoch := next_epoch s in
      (epoch, with_manifests (<[epoch := new_manifest op config now]> (manifests s)) s)
  end.

Definition require_state (epoch : Z) (expected : RelationSnapshotState) (s : Store) : result () StorageError :=
  match manifests s !! epoch with
  | None => Err Query
  | Some m => if decide (state m = expected) then Ok () else Err Transaction
  end.

(** ** Writing *)

(** What the writer reads of a canonical snapshot; [rest_ok] is the outcome of
    the inserts below the file rows. *)
Record Snapshot := {
  files : list string;
  snapshot_counts : Counts;
  conflicts : Z;
  rest_ok : bool
}.

Definition mark_ready (input fingerprint : string) (snap : Snapshot) (now : Z) (m : RelationSnapshotManifest) :
    RelationSnapshotManifest :=
  {| operation_id := operation_id m; state := Ready; config_fingerprint := config_fingerprint m;
     input_fingerprint := Some input; snapshot_fingerprint := Some fingerprint;
     counts := Some (snapshot_counts snap); created_at := created_at m; validated_at := Some now;
     activated_at := activated_at m; failure_reason := None; symbol_key_conflict_count := conflicts snap |}.

(** One row per file, unique by epoch and path. *)
Fixpoint insert_files (epoch : Z) (paths : list string) (rows : gset (Z * string)) :
    result (gset (Z * string)) StorageError :=
  match paths with
  | [] => Ok rows
  | p :: paths =>
      if bool_decide ((epoch, p) ∈ rows) then Err Insert else insert_files epoch paths ({[(epoch, p)]} ∪ rows)
  end.

Definition write_snapshot_and_mark_ready (epoch : Z) (snap : Snapshot) (input fingerprint : string) (now : Z)
    (s : Store) : result Store StorageError :=
  match require_state epoch Building s with
  | Err e => Err e
  | Ok _ =>
      match insert_files epoch (files snap) (snapshot_files s) with
      | Err e => Err e
      | Ok rows =>
          if rest_ok snap then
            Ok (with_manifests (alter (mark_ready input fingerprint snap now) epoch (manifests s))
                  (with_files rows s))
          else Err Insert
      end
  end.

(** The delta's base and epoch reference manifests; its epoch is a key. *)
Definition write_delta (epoch base : Z) (delta : SnapshotDelta) (s : Store) : result Store StorageError :=
  match require_state epoch Building s with
  | Err e => Err e
  | Ok _ =>
      match deltas s !! epoch, manifests s !! base with
      | None, Some _ =>
          Ok (with_deltas
                (<[epoch := {| base_epoch := base; delta_data := delta; size_bytes := size_of delta |}]> (deltas s))
                (with_manifests (alter (with_state Delta) epoch (manifests s)) s))
      | _, _ => Err Query
      end
  end.

(** The transaction of [publish_delta]: the epoch of the operation and its delta. *)
Definition allocate_and_write_delta (op config : string) (now base : Z) (delta : SnapshotDelta) (s : Store) :
    result (Z * Store) StorageError :=
  let r := allocate_building op config now s in
  match write_delta r.1 base delta r.2 with Ok s' => Ok (r.1, s') | Err e => Err e end.

(** ** State changes *)

Definition mark_active (now : Z) (m : RelationSnapshotManifest) : RelationSnapshotManifest :=
  {| operation_id := operation_id m; state := Active; config_fingerprint := config_fingerprint m;
     input_fingerprint := input_fingerprint m; snapshot_fingerprint := snapshot_fingerprint m;
     counts := counts m; created_at := created_at m; validated_at := validated_at m;
     activated_at := Some now; failure_reason := failure_reason m;
     symbol_key_conflict_count := symbol_key_conflict_count m |}.

Definition demote (m : RelationSnapshotManifest) : RelationSnapshotManifest :=
  if decide (state m = Active) then with_state Ready m else m.

(** The full snapshot that becomes active demotes the one that was; a delta stays
    one, and an active epoch returns at once, before [project_meta] is written. *)
Definition activate (epoch now : Z) (s : Store) : result Store StorageError :=
  let published := with_meta (meta_set_int "active_relation_epoch" epoch (project_meta s)) in
  match state <$> manifests s !! epoch with
  | Some Active => Ok s
  | Some Delta => Ok (published s)
  | Some Ready =>
      Ok (published (with_manifests
            (alter (mark_active now) epoch (demote <$> manifests s)) s))
  | _ => Err Transaction
  end.

Definition set_failed (reason : string) (m : RelationSnapshotManifest) : RelationSnapshotManifest :=
  if decide (state m = Active) then m else
  {| operation_id := operation_id m; state := Failed; config_fingerprint := config_fingerprint m;
     input_fingerprint := input_fingerprint m; snapshot_fingerprint := snapshot_fingerprint m;
     counts := counts m; created_at := created_at m; validated_at := validated_at m;
     activated_at := activated_at m; failure_reason := Some reason;
     symbol_key_conflict_count := symbol_key_conflict_count m |}.

Definition mark_failed (epoch : Z) (reason : string) (s : Store) : Store :=
  with_manifests (alter (set_failed reason) epoch (manifests s)) s.

Definition retry_failed (epoch : Z) (s : Store) : result Store StorageError :=
  if decide (state <$> manifests s !! epoch = Some Failed)
  then Ok (with_manifests (alter reset_to_building epoch (manifests s)) s) else Err Transaction.

(** ** Removal *)

(** Removing manifests removes, by the foreign keys, the deltas that start from
    or lead to them and the rows of their snapshots. *)
Definition cascade (s : Store) : Store :=
  with_deltas
    (filter (λ x, is_Some (manifests s !! x.1) ∧ is_Some (manifests s !! base_epoch x.2)) (deltas s))
    (with_files (filter (λ x, is_Some (manifests s !! x.1)) (snapshot_files s)) s).

Definition delete_manifests (gone : Z * RelationSnapshotManifest → Prop) `{∀ x, Decision (gone x)} (s : Store) :
    Store :=
  cascade (with_manifests (filter (λ x, ¬ gone x) (manifests s)) s).

Definition newest_ready (s : Store) : option Z :=
  let ready := (map_to_list (filter (λ x, state x.2 = Ready) (manifests s))).*1 in
  match ready with [] => None | e :: es => Some (foldr Z.max e es) end.

(** [unfinished] tells whether the checkpoint of an operation is not completed. *)
Definition collectable (unfinished : string → bool) (stale_before : Z) (s : Store)
    (x : Z * RelationSnapshotManifest) : bool :=
  negb (unfinished (operation_id x.2)) &&
  match state x.2 with
  | Failed | Building => created_at x.2 <? stale_before
  | Ready => bool_decide (newest_ready s ≠ Some x.1)
  | Active | Delta => false
  end.

Definition collect_garbage (unfinished : string → bool) (stale_before : Z) (s : Store) : Store :=
  delete_manifests (λ x, collectable unfinished stale_before s x = true) s.

Definition delete_manifests_except (keep : Z) (s : Store) : Store :=
  delete_manifests (λ x, x.1 ≠ keep) s.

(** ** Loading *)

Definition by_epoch (a b : Z * DeltaRow) : Prop := a.1 ≤ b.1.

#[local] Instance by_epoch_dec a b : Decision (by_epoch a b).
Proof. unfold by_epoch. apply _. Defined.

(** The deltas of a range of epochs, in their order. *)
Definition get_delta_chain (after_epoch up_to_epoch : Z) (s : Store) : list (Z * DeltaRow) :=
  merge_sort by_epoch
    (map_to_list (filter (λ x, after_epoch < x.1 ∧ x.1 ≤ up_to_epoch) (deltas s))).

(** The walk back to a full snapshot; [fuel] bounds its turns and [None] means
    that it is not done. *)
Fixpoint find_base_loop (fuel : nat) (current : Z) (s : Store) : option (result (option Z) StorageError) :=
  match fuel with
  | O => None
  | S fuel =>
      match state <$> manifests s !! current with
      | Some Active => Some (Ok (Some current))
      | Some Delta =>
          match deltas s !! current with
          | Some row =>
              if (base_epoch row =? current) || (base_epoch row <? 0) then Some (Err Validation)
              else find_base_loop fuel (base_epoch row) s
          | None => Some (Err Validation)
          end
      | Some _ => Some (Ok (Some current))
      | None => Some (Ok None)
      end
  end.

Definition find_base_epoch (delta_epoch : Z) (s : Store) : option (result (option Z) StorageError) :=
  find_base_loop (S (size (deltas s))) delta_epoch s.

Arguments find_base_epoch : simpl never.

(** What the loader reads for an epoch: a full snapshot, and the deltas applied
    to it in order. *)
Definition load (epoch : Z) (s : Store) : option (result (Z * list (Z * DeltaRow)) StorageError) :=
  match state <$> manifests s !! epoch with
  | Some (Ready | Active) => Some (Ok (epoch, []))
  | Some Delta =>
      found ← find_base_epoch epoch s;
      Some match found with
      | Err e => Err e
      | Ok None => Err Validation
      | Ok (Some base) =>
          if base =? epoch then Err Validation
          else if bool_decide (is_Some (manifests s !! base)) then Ok (base, get_delta_chain base epoch s)
          else Err Validation
      end
  | _ => Some (Err Validation)
  end.

(** The length and the size of the chain above its base. *)
Definition get_delta_chain_info (active_epoch : Z) (s : Store) : option (result (Z * Z) StorageError) :=
  found ← find_base_epoch active_epoch s;
  Some match found with
  | Err e => Err e
  | Ok b =>
      let base := from_option id active_epoch b in
      if active_epoch <=? base then Ok (0, 0)
      else let chain := get_delta_chain base active_epoch s in
           Ok (Z.of_nat (length chain), foldr Z.add 0 (map (λ x, size_bytes x.2) chain))
  end.

(** ** Lookups *)

Lemma epoch_of_operation_Some op s e m :
  epoch_of_operation op s = Some (e, m) → manifests s !! e = Some m ∧ operation_id m = op.
Proof.
  unfold epoch_of_operation. intros Hh. destruct (filter _ _) as [|x l] eqn:Hf; [done|].
  cbn in Hh. injection Hh as ->.
  assert (Hin : (e, m) ∈ (e, m) :: l) by left. rewrite <- Hf in Hin.
  apply list_elem_of_filter in Hin as [Ho Hm]. by apply elem_of_map_to_list in Hm.
Qed.

Lemma epoch_of_operation_None op s e m :
  epoch_of_operation op s = None → manifests s !! e = Some m → operation_id m ≠ op.
Proof.
  unfold epoch_of_operation. intros Hh Hm Ho. destruct (filter _ _) as [|x l] eqn:Hf; [|done].
  apply (filter_nil_not_elem_of _ _ (e, m) Hf Ho). by apply elem_of_map_to_list.
Qed.

Lemma foldr_max_ge b l x : x ∈ l → x ≤ foldr Z.max b l.
Proof. induction 1; cbn; lia. Qed.

Lemma foldr_max_base b l : b ≤ foldr Z.max b l.
Proof. induction l; cbn; lia. Qed.

Lemma max_epoch_ge s e m : manifests s !! e = Some m → e ≤ max_epoch s.
Proof.
  intros Hm. apply foldr_max_ge, list_elem_of_fmap. exists (e, m). split; [done|]. by apply elem_of_map_to_list.
Qed.

Lemma next_epoch_gt s e m : manifests s !! e = Some m → e < next_epoch s.
Proof. intros Hm%max_epoch_ge. unfold next_epoch. lia. Qed.

Lemma next_epoch_pos s : 0 < next_epoch s.
Proof. unfold next_epoch. pose proof (foldr_max_base 0 (map_to_list (manifests s)).*1). unfold max_epoch. lia. Qed.

(** ** The invariant of the tables *)

(** [linked_by] relates the epoch of a delta to its row. *)
Record tables_inv (linked_by : Z → DeltaRow → Prop) (s : Store) : Prop := {
  epochs_positive : ∀ e m, manifests s !! e = Some m → 0 < e;
  operations_unique : ∀ e e' m m', manifests s !! e = Some m → manifests s !! e' = Some m' →
    operation_id m = operation_id m' → e = e';
  one_active : ∀ e e' m m', manifests s !! e = Some m → manifests s !! e' = Some m' →
    state m = Active → state m' = Active → e = e';
  deltas_reference : ∀ d row, deltas s !! d = Some row →
    is_Some (manifests s !! d) ∧ is_Some (manifests s !! base_epoch row) ∧ linked_by d row;
  files_reference : ∀ e p, (e, p) ∈ snapshot_files s → is_Some (manifests s !! e)
}.
#[global] Arguments epochs_positive {_}.
#[global] Arguments operations_unique {_}.
#[global] Arguments one_active {_}.
#[global] Arguments deltas_reference {_}.
#[global] Arguments files_reference {_}.

(** Every delta starts from an epoch below its own. *)
Definition below (d : Z) (row : DeltaRow) : Prop := base_epoch row < d.
Definition store_ok (s : Store) : Prop := tables_inv below s.

Definition empty_store : Store :=
  {| manifests := ∅; deltas := ∅; snapshot_files := ∅; project_meta := ∅ |}.

Lemma store_ok_empty {R} : tables_inv R empty_store.
Proof. split; cbn; try (intros *; rewrite lookup_empty); try done. Qed.

(** Rewriting a manifest in place keeps the invariant when its operation stays
    and it does not become active. *)
Lemma store_ok_alter {R} f e s :
  (∀ m, operation_id (f m) = operation_id m) → (∀ m, state (f m) = Active → state m = Active) →
  tables_inv R s → tables_inv R (with_manifests (alter f e (manifests s)) s).
Proof.
  intros Hop Hst Hs.
  assert (Hl : ∀ e' m', alter f e (manifests s) !! e' = Some m' →
    ∃ m, manifests s !! e' = Some m ∧ operation_id m' = operation_id m ∧ (state m' = Active → state m = Active)).
  { intros e' m'. rewrite lookup_alter_Some. intros [(-> & m & Hm & ->)|[_ Hm]].
    - exists m. split_and!; [done|apply Hop|apply Hst].
    - by exists m'. }
  assert (Hi : ∀ e', is_Some (manifests s !! e') → is_Some (alter f e (manifests s) !! e')).
  { intros e'. rewrite lookup_alter_is_Some. done. }
  split; cbn.
  - intros e' m' (m & Hm & _)%Hl. by apply (epochs_positive s Hs e' m).
  - intros e1 e2 m1 m2 (n1 & H1 & Ho1 & _)%Hl (n2 & H2 & Ho2 & _)%Hl Ho.
    apply (operations_unique s Hs e1 e2 n1 n2); congruence.
  - intros e1 e2 m1 m2 (n1 & H1 & _ & Ha1)%Hl (n2 & H2 & _ & Ha2)%Hl H1' H2'.
    apply (one_active s Hs e1 e2 n1 n2); auto.
  - intros d row Hd. destruct (deltas_reference s Hs d row Hd) as (? & ? & ?). auto.
  - intros e' p Hp. apply Hi, (files_reference s Hs e' p Hp).
Qed.

Lemma store_ok_meta {R} m s : tables_inv R s → tables_inv R (with_meta m s).
Proof. intros []. by split. Qed.

Lemma store_ok_allocate {R} op config now s : tables_inv R s → tables_inv R (allocate_building op config now s).2.
Proof.
  intros Hs. unfold allocate_building. destruct (epoch_of_operation op s) as [[e m]|] eqn:He; cbn.
  - destruct (epoch_of_operation_Some op s e m He) as [Hm Ho]. destruct (decide (state m = Failed)) as [Hf|]; [|done].
    assert (Hi : <[e := reset_to_building m]> (manifests s) = alter reset_to_building e (manifests s)).
    { apply map_eq. intros i. destruct (decide (i = e)) as [->|].
      - by rewrite lookup_insert_eq, lookup_alter_eq, Hm.
      - by rewrite lookup_insert_ne, lookup_alter_ne. }
    rewrite Hi. by apply store_ok_alter.
  - pose proof (next_epoch_pos s) as Hpos.
    assert (Hnew : manifests s !! next_epoch s = None).
    { destruct (manifests s !! next_epoch s) as [m|] eqn:Hm; [|done]. pose proof (next_epoch_gt s _ m Hm). lia. }
    assert (Hi : ∀ e, is_Some (manifests s !! e) →
      is_Some (<[next_epoch s := new_manifest op config now]> (manifests s) !! e)).
    { intros e [m Hm]. destruct (decide (next_epoch s = e)) as [<-|].
      - rewrite lookup_insert_eq. by eexists. - rewrite lookup_insert_ne by done. by eexists. }
    split; cbn.
    + intros e m [[<- _]|[_ Hm]]%lookup_insert_Some; [done|]. by apply (epochs_positive s Hs e m).
    + intros e1 e2 m1 m2 [[<- <-]|[_ H1]]%lookup_insert_Some [[<- <-]|[_ H2]]%lookup_insert_Some Ho; cbn in Ho.
      * done. * by destruct (epoch_of_operation_None op s e2 m2 He H2).
      * by destruct (epoch_of_operation_None op s e1 m1 He H1).
      * by apply (operations_unique s Hs e1 e2 m1 m2).
    + intros e1 e2 m1 m2 [[<- <-]|[_ H1]]%lookup_insert_Some [[<- <-]|[_ H2]]%lookup_insert_Some; try done.
      by apply (one_active s Hs e1 e2 m1 m2).
    + intros d row Hd. destruct (deltas_reference s Hs d row Hd) as (? & ? & ?). auto.
    + intros e p Hp. apply Hi, (files_reference s Hs e p Hp).
Qed.

Lemma require_state_Ok e st s : require_state e st s = Ok () → ∃ m, manifests s !! e = Some m ∧ state m = st.
Proof. unfold require_state. destruct (manifests s !! e) as [m|]; [|done]. case_decide; [|done]. by exists m. Qed.

Lemma insert_files_Ok e paths rows rows' :
  insert_files e paths rows = Ok rows' → rows' = rows ∪ list_to_set ((λ p, (e, p)) <$> paths).
Proof.
  revert rows. induction paths as [|p paths IH]; intros rows; cbn; [intros [= <-]; set_solver|].
  case_bool_decide; [done|]. intros ->%IH. set_solver.
Qed.

Lemma insert_files_taken e p paths rows :
  p ∈ paths → (e, p) ∈ rows → insert_files e paths rows = Err Insert.
Proof.
  intros Hp. revert rows. induction Hp as [p paths|p q paths _ IH]; intros rows Hin; cbn.
  - by rewrite bool_decide_eq_true_2.
  - case_bool_decide; [done|]. apply IH. set_solver.
Qed.

Lemma store_ok_write {R} e snap input fp now s s' :
  tables_inv R s → write_snapshot_and_mark_ready e snap input fp now s = Ok s' → tables_inv R s'.
Proof.
  intros Hs. unfold write_snapshot_and_mark_ready. destruct (require_state e Building s) as [[]|] eqn:Hr; [|done].
  destruct (require_state_Ok _ _ _ Hr) as (m & Hm & Hst).
  destruct (insert_files _ _ _) as [rows|] eqn:Hi; [|done]. destruct (rest_ok snap); [|done]. intros [= <-].
  assert (Hs' : tables_inv R (with_files rows s)).
  { destruct Hs. split; cbn; try done. intros e' p. rewrite (insert_files_Ok _ _ _ _ Hi).
    intros [Hp|(p' & [= -> ->] & _)%elem_of_list_to_set%list_elem_of_fmap]%elem_of_union; [by apply (files_reference0 e' p)|].
    by eexists. }
  by apply (store_ok_alter (mark_ready input fp snap now) e (with_files rows s)).
Qed.

Definition delta_row (base : Z) (d : SnapshotDelta) : DeltaRow :=
  {| base_epoch := base; delta_data := d; size_bytes := size_of d |}.

Lemma store_ok_write_delta {R} e base d s s' :
  R e (delta_row base d) → tables_inv R s → write_delta e base d s = Ok s' → tables_inv R s'.
Proof.
  intros Hlt Hs. unfold write_delta. destruct (require_state e Building s) as [[]|] eqn:Hr; [|done].
  destruct (require_state_Ok _ _ _ Hr) as (m & Hm & Hst).
  destruct (deltas s !! e) eqn:Hd; [done|]. destruct (manifests s !! base) as [mb|] eqn:Hb; [|done].
  intros [= <-].
  pose proof (store_ok_alter (with_state Delta) e s (λ _, eq_refl) (λ m H, ltac:(done)) Hs) as [].
  split; cbn in *; try done. intros d' row [[<- <-]|[_ Hrow]]%lookup_insert_Some; cbn; [|by apply (deltas_reference0 d' row)].
  rewrite !lookup_alter_is_Some, Hm, Hb. split_and!; [by eexists..|done].
Qed.

Lemma store_ok_activate {R} e now s s' : tables_inv R s → activate e now s = Ok s' → tables_inv R s'.
Proof.
  intros Hs. unfold activate. destruct (manifests s !! e) as [m|] eqn:Hm; cbn; [|done].
  destruct (state m) eqn:Hst; try done; intros [= <-]; try done; [|by apply store_ok_meta].
  apply store_ok_meta.
  assert (Hl : ∀ e' m', alter (mark_active now) e (demote <$> manifests s) !! e' = Some m' →
    ∃ n, manifests s !! e' = Some n ∧ operation_id m' = operation_id n ∧ (state m' = Active → e' = e)).
  { intros e' m'. rewrite lookup_alter_Some, !lookup_fmap. intros [(-> & n & Hn & ->)|[Hne Hn]].
    - rewrite Hm in *. cbn in Hn. injection Hn as <-. exists m. split_and!; [done| |done]. unfold demote. by case_decide.
    - destruct (manifests s !! e') as [n|]; cbn in Hn; [|done]. injection Hn as <-. exists n.
      split_and!; [done| |]; unfold demote; case_decide; done. }
  assert (Hi : ∀ e', is_Some (manifests s !! e') → is_Some (alter (mark_active now) e (demote <$> manifests s) !! e')).
  { intros e' ?. rewrite lookup_alter_is_Some, lookup_fmap. by apply fmap_is_Some. }
  split; cbn.
  - intros e' m' (n & Hn & _)%Hl. by apply (epochs_positive s Hs e' n).
  - intros e1 e2 m1 m2 (n1 & H1 & Ho1 & _)%Hl (n2 & H2 & Ho2 & _)%Hl Ho.
    apply (operations_unique s Hs e1 e2 n1 n2); congruence.
  - intros e1 e2 m1 m2 (n1 & H1 & _ & Ha1)%Hl (n2 & H2 & _ & Ha2)%Hl H1' H2'. rewrite Ha1, Ha2; done.
  - intros d row Hd. destruct (deltas_reference s Hs d row Hd) as (? & ? & ?). auto.
  - intros e' p Hp. apply Hi, (files_reference s Hs e' p Hp).
Qed.

Lemma store_ok_delete {R} gone `{∀ x, Decision (gone x)} s : tables_inv R s → tables_inv R (delete_manifests gone s).
Proof.
  intros Hs. unfold delete_manifests, cascade. split; cbn.
  - intros e m [Hm _]%map_lookup_filter_Some. by apply (epochs_positive s Hs e m).
  - intros e1 e2 m1 m2 [H1 _]%map_lookup_filter_Some [H2 _]%map_lookup_filter_Some.
    by apply (operations_unique s Hs e1 e2 m1 m2).
  - intros e1 e2 m1 m2 [H1 _]%map_lookup_filter_Some [H2 _]%map_lookup_filter_Some.
    by apply (one_active s Hs e1 e2 m1 m2).
  - intros d row [Hd [H1 H2]]%map_lookup_filter_Some. split_and!; [done..|].
    by apply (deltas_reference s Hs d row).
  - intros e p [Hp _]%elem_of_filter. done.
Qed.

(** ** Runs *)

Inductive Event :=
| Allocate (op config : string) (now : Z)
| WriteSnapshot (epoch : Z) (snap : Snapshot) (input fingerprint : string) (now : Z)
| WriteDelta (epoch base : Z) (delta : SnapshotDelta)
| Activate (epoch now : Z)
| MarkFailed (epoch : Z) (reason : string)
| RetryFailed (epoch : Z)
| CollectGarbage (unfinished : string → bool) (stale_before : Z)
| DeleteExcept (keep : Z).

(** A transaction that fails is rolled back. *)
Definition commit (r : result Store StorageError) (s : Store) : Store :=
  match r with Ok s' => s' | Err _ => s end.

Definition step (e : Event) (s : Store) : Store :=
  match e with
  | Allocate op config now => (allocate_building op config now s).2
  | WriteSnapshot epoch snap input fp now => commit (write_snapshot_and_mark_ready epoch snap input fp now s) s
  | WriteDelta epoch base d => commit (write_delta epoch base d s) s
  | Activate epoch now => commit (activate epoch now s) s
  | MarkFailed epoch reason => mark_failed epoch reason s
  | RetryFailed epoch => commit (retry_failed epoch s) s
  | CollectGarbage unfinished cutoff => collect_garbage unfinished cutoff s
  | DeleteExcept keep => delete_manifests_except keep s
  end.

(** A delta is written to an epoch above the one it starts from. *)
Definition forward (e : Event) : Prop := match e with WriteDelta epoch base _ => base < epoch | _ => True end.

Definition run (events : list Event) (s : Store) : Store := foldl (λ s e, step e s) s events.

Lemma store_ok_step {R} e s :
  (∀ epoch base d, e = WriteDelta epoch base d → R epoch (delta_row base d)) →
  tables_inv R s → tables_inv R (step e s).
Proof.
  intros Hf Hs. destruct e as [op config now|e snap i fp now|e base d|e now|e reason|e|un cut|keep]; cbn.
  - by apply store_ok_allocate.
  - destruct (write_snapshot_and_mark_ready _ _ _ _ _ _) eqn:Hw; [|done]. by eapply store_ok_write.
  - destruct (write_delta _ _ _ _) eqn:Hw; [|done]. eapply store_ok_write_delta; [by apply Hf|done..].
  - destruct (activate _ _ _) eqn:Ha; [|done]. by eapply store_ok_activate.
  - apply store_ok_alter; [| |done]; intros m; unfold set_failed; by case_decide.
  - unfold retry_failed. case_decide; [|done]. by apply store_ok_alter.
  - by apply store_ok_delete.
  - by apply store_ok_delete.
Qed.

Lemma store_ok_run {R} events s :
  (∀ epoch base d, WriteDelta epoch base d ∈ events → R epoch (delta_row base d)) →
  tables_inv R s → tables_inv R (run events s).
Proof.
  revert s. induction events as [|e events IH]; intros s Hf Hs; cbn; [done|]. apply IH.
  - intros epoch base d Hin. apply Hf. by right.
  - apply store_ok_step; [|done]. intros epoch base d ->. apply Hf. by left.
Qed.

Lemma forward_run events s : Forall forward events → store_ok s → store_ok (run events s).
Proof.
  rewrite Forall_forall. intros Hf. apply store_ok_run. intros epoch base d Hin.
  apply (Hf _ Hin).
Qed.

(** C15. After every sequence of allocations, writes, activations, failures,
    retries and collections: an operation has one epoch, epochs are positive, at
    most one full snapshot is active, every delta and every file row refers to
    manifests that exist, and every delta row is what a write of the sequence
    wrote for that epoch and base.  A delta starts below its own epoch when the
    sequence writes deltas only so; [write_delta] does not check that. *)
Theorem relation_tables_hold events :
  let s := run events empty_store in
  tables_inv (λ d row, WriteDelta d (base_epoch row) (delta_data row) ∈ events ∧
                       size_bytes row = size_of (delta_data row)) s ∧
  (Forall forward events → store_ok s).
Proof.
  split; [|intros Hf; by apply forward_run; [|apply store_ok_empty]].
  apply store_ok_run; [|apply store_ok_empty]. intros epoch base d Hin. by split.
Qed.

(** ** Allocation *)

Lemma epoch_of_operation_unique s op e m :
  store_ok s → manifests s !! e = Some m → operation_id m = op → epoch_of_operation op s = Some (e, m).
Proof.
  intros Hs Hm Ho. destruct (epoch_of_operation op s) as [[e' m']|] eqn:He.
  - destruct (epoch_of_operation_Some _ _ _ _ He) as [Hm' Ho'].
    assert (e' = e) as -> by (apply (operations_unique s Hs e' e m' m); congruence). congruence.
  - by destruct (epoch_of_operation_None _ _ _ _ He Hm).
Qed.

Lemma allocate_building_new op config now s :
  epoch_of_operation op s = None →
  allocate_building op config now s =
    (next_epoch s, with_manifests (<[next_epoch s := new_manifest op config now]> (manifests s)) s).
Proof. intros He. unfold allocate_building. by rewrite He. Qed.

(** An operation gets one epoch, above every other and above the published one,
    and gets it again, reset, when it has failed. *)
Theorem allocation_is_fresh_and_stable op config now s :
  store_ok s →
  let r := allocate_building op config now s in
  (epoch_of_operation op s = None →
     (∀ e, is_Some (manifests s !! e) → e < r.1) ∧
     from_option meta_cast 0 (project_meta s !! "active_relation_epoch") < r.1 ∧
     manifests r.2 !! r.1 = Some (new_manifest op config now)) ∧
  (∀ config' now', (allocate_building op config' now' r.2).1 = r.1) ∧
  (∃ m, manifests r.2 !! r.1 = Some m ∧ operation_id m = op ∧ state m ≠ Failed) ∧
  (∀ e, e ≠ r.1 → manifests r.2 !! e = manifests s !! e).
Proof.
  intros Hs r. pose proof (store_ok_allocate op config now s Hs) as Hs'.
  assert (Hm : ∃ m, manifests r.2 !! r.1 = Some m ∧ operation_id m = op ∧ state m ≠ Failed).
  { subst r. unfold allocate_building. destruct (epoch_of_operation op s) as [[e m]|] eqn:He; cbn.
    - destruct (epoch_of_operation_Some _ _ _ _ He) as [Hm Ho]. destruct (decide (state m = Failed)) as [|]; cbn; [|by exists m].
      eexists. split; [apply lookup_insert_eq|done].
    - eexists. split; [apply lookup_insert_eq|done]. }
  split_and!; [| |done|].
  - intros He. subst r. rewrite allocate_building_new by done. cbn. split_and!.
    + intros e [m He']. by apply (next_epoch_gt s e m). + unfold next_epoch. lia. + by rewrite lookup_insert_eq.
  - intros config' now'. destruct Hm as (m & Hm & Ho & _).
    unfold allocate_building at 1. by rewrite (epoch_of_operation_unique r.2 op r.1 m Hs' Hm Ho).
  - intros e He. subst r. unfold allocate_building in *. destruct (epoch_of_operation op s) as [[e' m']|]; cbn in *.
    + case_decide; cbn; [|done]. by apply lookup_insert_ne.
    + by apply lookup_insert_ne.
Qed.

(** ** Chains of deltas *)

(** The deltas from a full snapshot [b] up to an epoch, along their links. *)
Inductive linked (s : Store) : Z → Z → list (Z * DeltaRow) → Prop :=
| linked_base b m : manifests s !! b = Some m → state m ≠ Delta → linked s b b []
| linked_delta d m row b path :
    manifests s !! d = Some m → state m = Delta → deltas s !! d = Some row →
    linked s (base_epoch row) b path → linked s d b (path ++ [(d, row)]).

Lemma find_base_linked fuel cur s b :
  find_base_loop fuel cur s = Some (Ok (Some b)) → ∃ path, linked s cur b path.
Proof.
  revert cur. induction fuel as [|fuel IH]; intros cur; [done|]. cbn.
  destruct (manifests s !! cur) as [m|] eqn:Hm; cbn; [|done].
  destruct (state m) eqn:Hst; try (intros [= <-]; exists []; apply (linked_base _ _ m); congruence).
  destruct (deltas s !! cur) as [row|] eqn:Hd; [|done]. case_match; [done|]. intros (path & Hp)%IH.
  exists (path ++ [(cur, row)]). by apply (linked_delta _ _ m).
Qed.

Lemma linked_range s e b path :
  store_ok s → linked s e b path →
  b ≤ e ∧ (∀ d row, (d, row) ∈ path → deltas s !! d = Some row ∧ b < d ≤ e) ∧ StronglySorted by_epoch path.
Proof.
  intros Hs. induction 1 as [b m|d m row b path Hm Hst Hd Hl (Hle & Hin & Hsort)].
  - split_and!; [done| |constructor]. intros d row Hd. by apply not_elem_of_nil in Hd.
  - destruct (deltas_reference s Hs d row Hd) as (_ & _ & Hlt). unfold below in Hlt. split_and!; [lia| |].
    + intros d' row' [[Hd' ?]%Hin|Heq%list_elem_of_singleton]%elem_of_app; [split; [done|lia]|].
      injection Heq as -> ->. split; [done|lia].
    + apply StronglySorted_app_2; [|done|by repeat constructor].
      intros [d1 r1] [d2 r2] [_ ?]%Hin Heq%list_elem_of_singleton. injection Heq as -> ->. unfold by_epoch. cbn. lia.
Qed.

Lemma elem_of_chain after up_to s d row :
  (d, row) ∈ get_delta_chain after up_to s ↔ deltas s !! d = Some row ∧ after < d ≤ up_to.
Proof.
  unfold get_delta_chain. rewrite merge_sort_Permutation, elem_of_map_to_list, map_lookup_filter_Some. done.
Qed.

#[local] Instance by_epoch_total : Total by_epoch.
Proof. intros [a ?] [b ?]. unfold by_epoch. cbn. lia. Qed.

#[local] Instance by_epoch_trans : Transitive by_epoch.
Proof. intros [a ?] [b ?] [c ?]. unfold by_epoch. cbn. lia. Qed.

Lemma NoDup_by_key {A} (l : list (Z * A)) :
  StronglySorted (λ a b, a.1 < b.1) l → NoDup l.
Proof.
  induction 1 as [|x l Hl IH Hx]; constructor; [|done]. intros Hin.
  rewrite Forall_forall in Hx. specialize (Hx x Hin). lia.
Qed.

Lemma linked_strict s e b path : store_ok s → linked s e b path → StronglySorted (λ x y, x.1 < y.1) path.
Proof.
  intros Hs. induction 1 as [b m|d m row b path Hm Hst Hd Hl IH]; [constructor|].
  destruct (deltas_reference s Hs d row Hd) as (_ & _ & Hlt). unfold below in Hlt.
  destruct (linked_range s _ _ _ Hs Hl) as (_ & Hin & _).
  apply StronglySorted_app_2; [|done|by repeat constructor].
  intros [d1 r1] [d2 r2] [_ ?]%Hin Heq%list_elem_of_singleton. injection Heq as -> ->. cbn. lia.
Qed.

Lemma chain_is_path s e b path :
  store_ok s → linked s e b path →
  ((∀ d, b < d ≤ e → is_Some (deltas s !! d) → d ∈ path.*1) ↔ get_delta_chain b e s = path).
Proof.
  intros Hs Hl. destruct (linked_range s e b path Hs Hl) as (_ & Hin & Hsort). split.
  - intros Hall. symmetry. apply (StronglySorted_unique_strong by_epoch).
    + intros [d1 r1] [d2 r2] [H1 _]%Hin [H2 _]%elem_of_chain. unfold by_epoch. cbn. intros ??.
      assert (d1 = d2) as -> by lia. congruence.
    + done.
    + apply (StronglySorted_merge_sort by_epoch).
    + apply NoDup_Permutation.
      * apply NoDup_by_key, (linked_strict s e b); done.
      * unfold get_delta_chain. rewrite merge_sort_Permutation. apply NoDup_map_to_list.
      * intros [d row]. rewrite elem_of_chain. split; [by intros ?%Hin|]. intros [Hd Hr].
        pose proof (Hall d Hr ltac:(by eexists)) as ([d' row'] & -> & Hp)%list_elem_of_fmap. cbn in *.
        destruct (Hin _ _ Hp) as [Hd' _]. congruence.
  - intros Hc d Hr [row Hd]. rewrite <- Hc. apply list_elem_of_fmap. exists (d, row). split; [done|].
    by apply elem_of_chain.
Qed.

Lemma load_Ok e s b chain :
  load e s = Some (Ok (b, chain)) →
  (∃ path, linked s e b path) ∧ (chain = get_delta_chain b e s ∨ (b = e ∧ chain = [])).
Proof.
  unfold load. destruct (manifests s !! e) as [m|] eqn:Hm; cbn; [|done].
  assert (Hfull : state m ≠ Delta → ∃ path, linked s e e path).
  { intros Hst. exists []. by apply (linked_base _ _ m). }
  destruct (state m) eqn:Hst; try done; try (intros [= <- <-]; split; [by apply Hfull|by right]).
  destruct (find_base_epoch e s) as [[[b'|]|]|] eqn:Hf; cbn; try done.
  destruct (b' =? e); [done|]. case_bool_decide; [|done]. intros [= <- <-]. split; [|by left].
  by apply (find_base_linked (S (size (deltas s)))).
Qed.

Lemma load_delta e s b chain m :
  manifests s !! e = Some m → state m = Delta → load e s = Some (Ok (b, chain)) →
  (∃ path, linked s e b path) ∧ chain = get_delta_chain b e s.
Proof.
  intros Hm Hst Hl. destruct (load_Ok _ _ _ _ Hl) as [Hp [->|[-> ->]]]; [done|].
  unfold load in Hl. rewrite Hm in Hl. cbn in Hl. rewrite Hst in Hl.
  destruct (find_base_epoch e s) as [[[b'|]|]|]; cbn in Hl; try done.
  destruct (b' =? e) eqn:Hb; [done|]. case_bool_decide; [|done]. injection Hl as -> _. lia.
Qed.

(** C12. Loading a delta reads the deltas of a range of epochs: they are the ones its
    links lead through exactly when the range holds no other delta. *)
Theorem loaded_chain_is_linked e s m b chain :
  store_ok s → manifests s !! e = Some m → state m = Delta → load e s = Some (Ok (b, chain)) →
  ∃ path, linked s e b path ∧
    ((∀ d, b < d ≤ e → is_Some (deltas s !! d) → d ∈ path.*1) ↔ chain = path).
Proof.
  intros Hs Hm Hst Hl. destruct (load_delta e s b chain m Hm Hst Hl) as [[path Hp] ->].
  exists path. split; [done|]. by apply chain_is_path.
Qed.

(** ** The walk to the base ends *)

Lemma fewer_deltas s cur row :
  store_ok s → deltas s !! cur = Some row →
  (size (filter (λ x, (x.1 ≤ base_epoch row)%Z) (deltas s)) < size (filter (λ x, (x.1 ≤ cur)%Z) (deltas s)))%nat.
Proof.
  intros Hs Hd. destruct (deltas_reference s Hs cur row Hd) as (_ & _ & Hlt). unfold below in Hlt. apply map_subset_size, map_subset_alt. split.
  - apply map_filter_subseteq_ext. intros d r _ Hle. cbn in *. lia.
  - exists cur. rewrite !map_lookup_filter, Hd. cbn. rewrite option_guard_False, option_guard_True by lia. done.
Qed.

Lemma find_base_fuel fuel cur s :
  store_ok s → (size (filter (λ x, (x.1 ≤ cur)%Z) (deltas s)) < fuel)%nat →
  ∃ r, find_base_loop fuel cur s = Some r.
Proof.
  intros Hs. revert cur. induction fuel as [|fuel IH]; intros cur Hf; [lia|]. cbn.
  destruct (manifests s !! cur) as [m|]; cbn; [|by eexists]. destruct (state m); try by eexists.
  destruct (deltas s !! cur) as [row|] eqn:Hd; [|by eexists].
  destruct ((base_epoch row =? cur) || (base_epoch row <? 0)); [by eexists|].
  apply IH. pose proof (fewer_deltas s cur row Hs Hd). lia.
Qed.

Lemma deltas_fuel s cur : (size (filter (λ x, (x.1 ≤ cur)%Z) (deltas s)) < S (size (deltas s)))%nat.
Proof. pose proof (map_subseteq_size _ _ (map_filter_subseteq (λ x, x.1 ≤ cur) (deltas s))). lia. Qed.

(** The walk from any epoch to its full snapshot ends: bases lie below. *)
Theorem base_walk_ends e s : store_ok s → ∃ r, find_base_epoch e s = Some r ∧ is_Some (load e s).
Proof.
  intros Hs. destruct (find_base_fuel (S (size (deltas s))) e s Hs) as [r Hr].
  { apply deltas_fuel. }
  exists r. split; [done|]. unfold load. destruct (manifests s !! e) as [m|]; cbn; [|by eexists].
  destruct (state m); try by eexists. unfold find_base_epoch at 1. rewrite Hr. by eexists.
Qed.

(** ** Operations that are not published *)

Lemma allocate_write_delta op config now base d s :
  store_ok s → epoch_of_operation op s = None → is_Some (manifests s !! base) →
  let e := next_epoch s in
  let s' := with_deltas (<[e := {| base_epoch := base; delta_data := d; size_bytes := size_of d |}]> (deltas s))
              (with_manifests (<[e := with_state Delta (new_manifest op config now)]> (manifests s)) s) in
  base < e ∧ deltas s !! e = None ∧ store_ok s' ∧ allocate_and_write_delta op config now base d s = Ok (e, s').
Proof.
  intros Hs He [mb Hb] e s'. pose proof (next_epoch_gt s base mb Hb) as Hlt.
  assert (Hd : deltas s !! e = None).
  { destruct (deltas s !! e) as [r|] eqn:Hd; [|done].
    destruct (deltas_reference s Hs e r Hd) as ([m Hm] & _). pose proof (next_epoch_gt s e m Hm). lia. }
  assert (Hw : write_delta e base d (allocate_building op config now s).2 = Ok s').
  { rewrite allocate_building_new by done. fold e. unfold write_delta, require_state. cbn.
    rewrite lookup_insert_eq. cbn. rewrite Hd, lookup_insert_ne by lia. rewrite Hb. f_equal.
    unfold s', with_deltas, with_manifests. cbn. f_equal. apply map_eq. intros i.
    destruct (decide (i = e)) as [->|].
    - by rewrite lookup_alter_eq, !lookup_insert_eq.
    - by rewrite lookup_alter_ne, !lookup_insert_ne. }
  pose proof (store_ok_allocate op config now s Hs) as Hs1.
  split_and!; [done|done|exact (store_ok_write_delta e base d _ s' Hlt Hs1 Hw)|].
  unfold allocate_and_write_delta. rewrite allocate_building_new in * by done. cbn [fst snd] in *. fold e in Hw |- *.
  by rewrite Hw.
Qed.

Lemma find_base_direct fuel e base row m mb s :
  manifests s !! e = Some m → state m = Delta → deltas s !! e = Some row → base_epoch row = base →
  0 ≤ base < e → manifests s !! base = Some mb → state mb = Active →
  find_base_loop (S (S fuel)) e s = Some (Ok (Some base)).
Proof.
  intros Hm Hst Hd Hbase Hr Hb Hact. cbn. rewrite Hm. cbn. rewrite Hst, Hd, Hbase.
  rewrite (proj2 (Z.eqb_neq base e)) by lia. rewrite (proj2 (Z.ltb_ge base 0)) by lia. cbn.
  rewrite Hb. cbn. by rewrite Hact.
Qed.

(** A delta on the active snapshot loads as the range of deltas above it. *)
Lemma load_direct e base row m mb s :
  manifests s !! e = Some m → state m = Delta → deltas s !! e = Some row → base_epoch row = base →
  0 ≤ base < e → manifests s !! base = Some mb → state mb = Active →
  linked s e base [(e, row)] ∧ load e s = Some (Ok (base, get_delta_chain base e s)).
Proof.
  intros Hm Hst Hd Hbase Hr Hb Hact. split.
  { apply (linked_delta s e m row base [] Hm Hst Hd). rewrite Hbase. apply (linked_base s base mb Hb). congruence. }
  unfold load. rewrite Hm. cbn. rewrite Hst. unfold find_base_epoch at 1.
  destruct (size (deltas s)) as [|n] eqn:Hsz.
  - apply map_size_empty_inv in Hsz. rewrite Hsz in Hd. by rewrite lookup_empty in Hd.
  - rewrite (find_base_direct n e base row m mb s) by done. cbn.
    rewrite (proj2 (Z.eqb_neq base e)) by lia. by rewrite bool_decide_eq_true_2 by (rewrite Hb; by eexists).
Qed.

(** The store after an operation has written its delta and has failed. *)
Lemma abandoned_delta s a ma op config now reason x :
  store_ok s → manifests s !! a = Some ma → epoch_of_operation op s = None →
  ∃ e s2, let s3 := mark_failed e reason s2 in
    allocate_and_write_delta op config now a x s = Ok (e, s2) ∧ store_ok s3 ∧ a < e ∧
    manifests s3 !! a = Some ma ∧ e < next_epoch s3 ∧
    deltas s3 !! e = Some {| base_epoch := a; delta_data := x; size_bytes := size_of x |} ∧
    (∀ op', epoch_of_operation op' s = None → op' ≠ op → epoch_of_operation op' s3 = None).
Proof.
  intros Hs Ha He.
  destruct (allocate_write_delta op config now a x s Hs He ltac:(by eexists)) as (Hlt & _ & Hs2 & Hw).
  set (e := next_epoch s) in *. eexists e, _. split; [exact Hw|].
  match goal with |- context [mark_failed e reason ?t] => set (s2 := t) in * end.
  assert (Hs3 : store_ok (mark_failed e reason s2)) by (apply (store_ok_step (MarkFailed e reason)); done).
  split_and!; [done|done| | | |].
  - cbn. rewrite lookup_alter_ne, lookup_insert_ne by lia. done.
  - apply (next_epoch_gt _ e (set_failed reason (with_state Delta (new_manifest op config now)))).
    cbn. by rewrite lookup_alter_eq, lookup_insert_eq.
  - cbn. by rewrite lookup_insert_eq.
  - intros op' He' Hne. destruct (epoch_of_operation op' (mark_failed e reason s2)) as [[i m]|] eqn:Hi; [|done].
    destruct (epoch_of_operation_Some _ _ _ _ Hi) as [Hm Ho]. cbn in Hm. destruct (decide (i = e)) as [->|].
    + rewrite lookup_alter_eq, lookup_insert_eq in Hm. by injection Hm as <-.
    + rewrite lookup_alter_ne, lookup_insert_ne in Hm by done. by destruct (epoch_of_operation_None op' s i m He' Hm).
Qed.

(** C22. A delta that an operation has written and not published lies in the range the
    next delta is loaded from: the relations of the abandoned operation are
    applied to the published snapshot. *)
Theorem unpublished_delta_is_replayed s a ma opA opB config now reason x y :
  store_ok s → manifests s !! a = Some ma → state ma = Active →
  epoch_of_operation opA s = None → epoch_of_operation opB s = None → opB ≠ opA →
  ∃ eA eB s2 s5 s6 rowA rowB chain,
    allocate_and_write_delta opA config now a x s = Ok (eA, s2) ∧
    allocate_and_write_delta opB config now a y (mark_failed eA reason s2) = Ok (eB, s5) ∧
    activate eB now s5 = Ok s6 ∧ linked s6 eB a [(eB, rowB)] ∧ delta_data rowB = y ∧
    load eB s6 = Some (Ok (a, chain)) ∧ (eA, rowA) ∈ chain ∧ delta_data rowA = x.
Proof.
  intros Hs Ha Hact HA HB Hne.
  destruct (abandoned_delta s a ma opA config now reason x Hs Ha HA)
    as (eA & s2 & HwA & Hs3 & HltA & Ha3 & HAB & HrA & Hops).
  set (s3 := mark_failed eA reason s2) in *.
  destruct (allocate_write_delta opB config now a y s3 Hs3 (Hops opB HB Hne) ltac:(by eexists)) as (HltB & _ & _ & HwB).
  set (eB := next_epoch s3) in *. pose proof (epochs_positive s Hs a ma Ha) as Hpos.
  match type of HwB with _ = Ok (_, ?t) => set (s5 := t) in * end.
  set (s6 := with_meta (meta_set_int "active_relation_epoch" eB (project_meta s5)) s5).
  assert (HB6 : manifests s6 !! eB = Some (with_state Delta (new_manifest opB config now))) by apply lookup_insert_eq.
  destruct (load_direct eB a {| base_epoch := a; delta_data := y; size_bytes := size_of y |} _ ma s6 HB6 eq_refl)
    as [Hl Hload]; [apply lookup_insert_eq|done|lia|by cbn; rewrite lookup_insert_ne by lia|done|].
  eexists eA, eB, s2, s5, s6, _, _, _. split_and!; [done|done| |exact Hl|done|exact Hload| |].
  - unfold activate. change (manifests s5) with (manifests s6). by rewrite HB6.
  - apply elem_of_chain. split; [|lia]. cbn. rewrite lookup_insert_ne by lia. exact HrA.
  - done.
Qed.

(** ** Writing twice *)

(** An operation whose delta is written and not published cannot write it again:
    when it is resumed it gets the same epoch, which is no longer building; and
    not after it has been reset either, for the row of the delta is still there. *)
Theorem written_delta_cannot_be_rewritten op config now base d s e s1 config' now' base' d' reason :
  store_ok s → base < e → allocate_and_write_delta op config now base d s = Ok (e, s1) →
  allocate_and_write_delta op config' now' base' d' s1 = Err Transaction ∧
  allocate_and_write_delta op config' now' base' d' (mark_failed e reason s1) = Err Query.
Proof.
  intros Hs Hlt Hw. unfold allocate_and_write_delta in Hw.
  destruct (write_delta _ _ _ _) as [s'|] eqn:Hd in Hw; [|done]. injection Hw as <- <-.
  pose proof (store_ok_allocate op config now s Hs) as Hs1.
  destruct (allocation_is_fresh_and_stable op config now s Hs) as (_ & _ & (m & Hm & Ho & _) & _). cbn zeta in *.
  set (e := (allocate_building op config now s).1) in *. set (s0 := (allocate_building op config now s).2) in *.
  pose proof (store_ok_write_delta e base d s0 s' Hlt Hs1 Hd) as Hs'.
  unfold write_delta in Hd. destruct (require_state e Building s0) as [[]|]; [|done].
  destruct (deltas s0 !! e); [done|]. destruct (manifests s0 !! base); [|done]. injection Hd as Hd.
  assert (Hm' : manifests s' !! e = Some (with_state Delta m)). { rewrite <- Hd. cbn. by rewrite lookup_alter_eq, Hm. }
  assert (Hr : is_Some (deltas s' !! e)). { rewrite <- Hd. cbn. rewrite lookup_insert_eq. by eexists. }
  split.
  - unfold allocate_and_write_delta, allocate_building.
    rewrite (epoch_of_operation_unique s' op e _ Hs' Hm' Ho). rewrite decide_False by done. cbn [fst snd].
    unfold write_delta, require_state. by rewrite Hm'.
  - assert (Hsf : store_ok (mark_failed e reason s')) by (apply (store_ok_step (MarkFailed e reason)); done).
    assert (Hmf : manifests (mark_failed e reason s') !! e = Some (set_failed reason (with_state Delta m))).
    { cbn. by rewrite lookup_alter_eq, Hm'. }
    unfold allocate_and_write_delta, allocate_building.
    rewrite (epoch_of_operation_unique _ op e _ Hsf Hmf Ho). rewrite decide_True by done. cbn [fst snd].
    unfold write_delta, require_state. cbn. rewrite lookup_insert_eq. cbn. destruct Hr as [row Hrow]. by rewrite Hrow.
Qed.

(** A snapshot with files that was written, has failed to become active and is
    retried cannot be written again: its file rows are still there. *)
Theorem written_snapshot_cannot_be_rewritten e snap input fp now s s1 reason s2 snap' input' fp' now' p :
  write_snapshot_and_mark_ready e snap input fp now s = Ok s1 →
  retry_failed e (mark_failed e reason s1) = Ok s2 →
  p ∈ files snap → p ∈ files snap' →
  write_snapshot_and_mark_ready e snap' input' fp' now' s2 = Err Insert.
Proof.
  intros Hw Hr Hp Hp'. unfold write_snapshot_and_mark_ready in Hw.
  destruct (require_state e Building s) as [[]|] eqn:Hq; [|done]. destruct (require_state_Ok _ _ _ Hq) as (m & Hm & _).
  destruct (insert_files _ _ _) as [rows|] eqn:Hi; [|done]. destruct (rest_ok snap); [|done]. injection Hw as <-.
  unfold retry_failed in Hr. destruct (decide _) as [_|]; [|done]. injection Hr as <-.
  unfold write_snapshot_and_mark_ready, require_state. cbn. rewrite !lookup_alter_eq, Hm. cbn.
  assert (Hin : (e, p) ∈ rows). { rewrite (insert_files_Ok _ _ _ _ Hi). set_solver. }
  by rewrite (insert_files_taken e p _ rows Hp' Hin).
Qed.

(** ** Garbage *)

(** Collecting garbage keeps every active or delta manifest, the newest snapshot
    ready for a rollback, what unfinished operations allocated, and every link
    the published snapshot needs. *)
Theorem garbage_keeps_published unfinished cutoff s :
  (∀ e m, manifests s !! e = Some m →
     state m = Active ∨ state m = Delta ∨ unfinished (operation_id m) = true ∨
     (state m = Ready ∧ newest_ready s = Some e) ∨ (state m ≠ Ready ∧ cutoff ≤ created_at m) →
     manifests (collect_garbage unfinished cutoff s) !! e = Some m) ∧
  (∀ e b path, linked s e b path → state <$> manifests s !! b = Some Active →
     linked (collect_garbage unfinished cutoff s) e b path).
Proof.
  assert (Hkeep : ∀ e m, manifests s !! e = Some m →
     state m = Active ∨ state m = Delta ∨ unfinished (operation_id m) = true ∨
     (state m = Ready ∧ newest_ready s = Some e) ∨ (state m ≠ Ready ∧ cutoff ≤ created_at m) →
     manifests (collect_garbage unfinished cutoff s) !! e = Some m).
  { intros e m Hm Hc. apply map_lookup_filter_Some. split; [done|]. unfold collectable. cbn.
    destruct Hc as [->|[->|[->|[[-> Hn]|[Hst Hcut]]]]]; cbn; rewrite ?andb_false_r; try done.
    - rewrite bool_decide_eq_false_2 by (intros Hx; by apply Hx). by rewrite andb_false_r.
    - rewrite (proj2 (Z.ltb_ge _ _)) by done. destruct (state m); rewrite ?andb_false_r; done. }
  split; [done|]. intros e b path Hl. induction Hl as [b m Hm Hst|d m row b path Hm Hst Hd Hl IH]; intros Hb.
  - apply (linked_base _ _ m); [|done]. apply Hkeep; [done|]. rewrite Hm in Hb. cbn in Hb. injection Hb as ->. by left.
  - apply (linked_delta _ _ m _ _ _); [apply Hkeep; auto|done| |by apply IH].
    assert (Hbase : is_Some (manifests (collect_garbage unfinished cutoff s) !! base_epoch row)).
    { destruct (IH Hb) as [? m' Hm' _|? m' ? ? ? Hm' _ _ _]; by eexists. }
    apply map_lookup_filter_Some. split; [done|]. split; [|exact Hbase].
    exists m. apply Hkeep; auto.
Qed.

(** Activation publishes the epoch and leaves one full snapshot active; only the
    formerly active manifest changes beside it. For an epoch that is already
    active nothing is written, not even when a delta above it is published. *)
Theorem activation_spec e now s s' :
  store_ok s → activate e now s = Ok s' →
  (state <$> manifests s !! e = Some Active ∧ s' = s) ∨
  (meta_get_int_optional "active_relation_epoch" (project_meta s') = Ok (Some e) ∧
   (state <$> manifests s !! e = Some Delta → manifests s' = manifests s) ∧
   (state <$> manifests s !! e = Some Ready →
      state <$> manifests s' !! e = Some Active ∧
      (∀ e' m', manifests s' !! e' = Some m' → state m' = Active → e' = e) ∧
      (∀ e' m, manifests s !! e' = Some m → e' ≠ e → state m ≠ Active → manifests s' !! e' = Some m))).
Proof.
  intros Hs Ha. pose proof (store_ok_activate e now s s' Hs Ha) as Hs'. revert Ha. unfold activate.
  destruct (manifests s !! e) as [m|] eqn:Hm; cbn; [|done].
  destruct (state m) eqn:Hst; try done; intros [= <-]; [|by left|].
  - right. unfold meta_get_int_optional. cbn. unfold meta_set_int. rewrite lookup_insert_eq.
    assert (He : alter (mark_active now) e (demote <$> manifests s) !! e = Some (mark_active now (demote m))).
    { by rewrite lookup_alter_eq, lookup_fmap, Hm. }
    split_and!; [done|done|]. intros _. split_and!.
    + by rewrite He.
    + intros e' m' Hm' Hact. by apply (one_active _ Hs' e' e m' _ Hm' He).
    + intros e' m' Hm' Hne Hna. rewrite lookup_alter_ne, lookup_fmap, Hm' by done. cbn. unfold demote.
      by rewrite decide_False.
  - right. unfold meta_get_int_optional. cbn. unfold meta_set_int. by rewrite lookup_insert_eq.
Qed.
End repository.

(** ** Examples *)

Definition demo_size (d : string) : Z := Z.of_nat (String.length d).

Definition demo_snapshot : Snapshot :=
  {| files := ["a.rs"; "b.rs"]; conflicts := 0; rest_ok := true;
     snapshot_counts := {| file_count := 2; entity_count := 0; relation_count := 0; dependency_count := 0 |} |}.

(** A published snapshot, a delta that was abandoned and one that was published. *)
Definition demo_events : list (@Event string) :=
  [Allocate "full" "c" 1; WriteSnapshot 1 demo_snapshot "i" "f" 2; Activate 1 3;
   Allocate "opA" "c" 4; WriteDelta 2 1 "x"; MarkFailed 2 "stopped";
   Allocate "opB" "c" 5; WriteDelta 3 1 "y"; Activate 3 6].

Definition demo_store (n : nat) : @Store string := run demo_size (take n demo_events) empty_store.

Lemma demo_store_ok n : store_ok (demo_store n).
Proof.
  apply forward_run; [|apply store_ok_empty]. apply Forall_take. by repeat constructor.
Qed.

Example demo_loads :
  (∃ rows, load 3 (demo_store 9) = Some (Ok (1, rows)) ∧ map fst rows = [2; 3]) ∧
  get_delta_chain_info 3 (demo_store 9) = Some (Ok (2, 2)).
Proof. split; [eexists; split; [vm_compute; reflexivity|reflexivity]|vm_compute; reflexivity]. Qed.

(** The epoch of a failed operation, used again for a delta over a newer epoch:
    the range of epochs above the base holds no delta, and loading the epoch
    yields its base alone. *)
Definition backward_events : list (@Event string) :=
  [Allocate "opA" "c" 1; MarkFailed 1 "stopped";
   Allocate "full" "c" 2; WriteSnapshot 2 demo_snapshot "i" "f" 3; Activate 2 4;
   Allocate "opA" "c" 5; WriteDelta 1 2 "x"; Activate 1 6].

Example backward_delta_is_not_replayed :
  let s := run demo_size backward_events empty_store in
  base_epoch <$> deltas s !! 1 = Some 2 ∧ load 1 s = Some (Ok (2, [])).
Proof. split; vm_compute; reflexivity. Qed.

Theorem relation_tables_hold_witness : Forall forward demo_events ∧ store_ok (demo_store 9).
Proof.
  split; [by repeat constructor|]. apply (relation_tables_hold demo_size demo_events). by repeat constructor.
Defined.

Theorem allocation_is_fresh_and_stable_witness :
  store_ok (demo_store 3) ∧ (allocate_building "opA" "c" 4 (demo_store 3)).1 = 2 ∧
  ∀ config' now', (allocate_building "opA" config' now' (allocate_building "opA" "c" 4 (demo_store 3)).2).1 = 2.
Proof.
  split; [apply demo_store_ok|]. split; [vm_compute; reflexivity|].
  exact (proj1 (proj2 (allocation_is_fresh_and_stable "opA" "c" 4 (demo_store 3) (demo_store_ok 3)))).
Defined.

Theorem loaded_chain_is_linked_witness :
  ∃ m b chain path, manifests (demo_store 9) !! 3 = Some m ∧ state m = Delta ∧
    load 3 (demo_store 9) = Some (Ok (b, chain)) ∧ linked (demo_store 9) 3 b path ∧
    ((∀ d, b < d ≤ 3 → is_Some (deltas (demo_store 9) !! d) → d ∈ path.*1) ↔ chain = path).
Proof.
  destruct (manifests (demo_store 9) !! 3) as [m|] eqn:Hm; [|vm_compute in Hm; discriminate Hm].
  assert (Hst : state m = Delta). { vm_compute in Hm. injection Hm as <-. reflexivity. }
  destruct (load 3 (demo_store 9)) as [[[b chain]|]|] eqn:Hl; try (vm_compute in Hl; discriminate Hl).
  destruct (loaded_chain_is_linked 3 (demo_store 9) m b chain (demo_store_ok 9) Hm Hst Hl) as (path & Hp & Hiff).
  exists m, b, chain, path. split_and!; try done; apply Hiff.
Defined.

Theorem base_walk_ends_witness :
  store_ok (demo_store 9) ∧ ∃ r, find_base_epoch 3 (demo_store 9) = Some r ∧ is_Some (load 3 (demo_store 9)).
Proof. split; [apply demo_store_ok|]. apply (base_walk_ends 3 (demo_store 9) (demo_store_ok 9)). Defined.

Lemma demo_active : ∃ ma, manifests (demo_store 3) !! 1 = Some ma ∧ state ma = Active.
Proof.
  destruct (manifests (demo_store 3) !! 1) as [m|] eqn:Hm; [|vm_compute in Hm; discriminate Hm].
  exists m. split; [done|]. vm_compute in Hm. injection Hm as <-. reflexivity.
Qed.

Theorem unpublished_delta_is_replayed_witness :
  ∃ eA eB s2 s5 s6 rowA rowB chain,
    allocate_and_write_delta demo_size "opA" "c" 4 1 "x" (demo_store 3) = Ok (eA, s2) ∧
    allocate_and_write_delta demo_size "opB" "c" 4 1 "y" (mark_failed eA "stopped" s2) = Ok (eB, s5) ∧
    activate eB 4 s5 = Ok s6 ∧ linked s6 eB 1 [(eB, rowB)] ∧ delta_data rowB = "y" ∧
    load eB s6 = Some (Ok (1, chain)) ∧ (eA, rowA) ∈ chain ∧ delta_data rowA = "x".
Proof.
  destruct demo_active as (ma & Hm & Hst).
  apply (unpublished_delta_is_replayed demo_size (demo_store 3) 1 ma "opA" "opB" "c" 4 "stopped" "x" "y");
    [apply demo_store_ok|exact Hm|exact Hst|vm_compute; reflexivity|vm_compute; reflexivity|discriminate].
Defined.

Theorem written_delta_cannot_be_rewritten_witness :
  ∃ s1, allocate_and_write_delta demo_size "opA" "c" 4 1 "x" (demo_store 3) = Ok (2, s1) ∧
    allocate_and_write_delta demo_size "opA" "c" 5 1 "x" s1 = Err Transaction.
Proof.
  destruct (allocate_and_write_delta demo_size "opA" "c" 4 1 "x" (demo_store 3)) as [[e s1]|] eqn:Hw;
    [|vm_compute in Hw; discriminate Hw].
  assert (e = 2) as ->. { vm_compute in Hw. injection Hw as <- _. reflexivity. }
  exists s1. split; [done|].
  apply (written_delta_cannot_be_rewritten demo_size "opA" "c" 4 1 "x" (demo_store 3) 2 s1 "c" 5 1 "x" "stopped");
    [apply demo_store_ok|lia|exact Hw].
Defined.

Theorem written_snapshot_cannot_be_rewritten_witness :
  ∃ s1 s2, write_snapshot_and_mark_ready 1 demo_snapshot "i" "f" 2 (demo_store 1) = Ok s1 ∧
    retry_failed 1 (mark_failed 1 "stopped" s1) = Ok s2 ∧
    write_snapshot_and_mark_ready 1 demo_snapshot "i" "f" 3 s2 = Err Insert.
Proof.
  destruct (write_snapshot_and_mark_ready 1 demo_snapshot "i" "f" 2 (demo_store 1)) as [s1|] eqn:Hw;
    [|vm_compute in Hw; discriminate Hw].
  destruct (retry_failed 1 (mark_failed 1 "stopped" s1)) as [s2|] eqn:Hr;
    [|vm_compute in Hw; injection Hw as <-; vm_compute in Hr; discriminate Hr].
  exists s1, s2. split_and!; [done|done|].
  apply (written_snapshot_cannot_be_rewritten 1 demo_snapshot "i" "f" 2 (demo_store 1) s1 "stopped" s2
           demo_snapshot "i" "f" 3 "a.rs"); [exact Hw|exact Hr|left|left].
Defined.

Theorem activation_spec_witness :
  ∃ s', activate 1 3 (demo_store 2) = Ok s' ∧ store_ok (demo_store 2) ∧
    meta_get_int_optional "active_relation_epoch" (project_meta s') = Ok (Some 1).
Proof.
  destruct (activate 1 3 (demo_store 2)) as [s'|] eqn:Ha; [|vm_compute in Ha; discriminate Ha].
  exists s'. split_and!; [done|apply demo_store_ok|].
  destruct (activation_spec 1 3 (demo_store 2) s' (demo_store_ok 2) Ha) as [[Hx _]|[Hm _]]; [|exact Hm].
  vm_compute in Hx. discriminate Hx.
Defined.
End RelationEpochs.
