(* ===== verification/Manifests.v ===== *)
(** * Publication manifests and overrides

    Models [ProjectIndexManifestRepository] without its garbage collection and
    [GenerationOverrideRepository]
    (crates/infra/cce-storage-metadb-sqlite/src/repo/project_index_manifest_repo.rs
    and generation_override_repo.rs) with the types of
    cce-storage-common/src/metadb/generation.rs: which data generation and which
    relation epoch a project shows, who is building the next one, and the files a
    generation hides of its parent. *)

From S2P Require Import Prelude RelationEpochs.
From stdpp Require Import base numbers countable gmap fin_maps strings sorting.
From Stdlib Require Import ZArith Lia.

#[local] Open Scope Z_scope.
#[local] Open Scope result_scope.

Module Manifests.

Inductive ProjectIndexManifestState := Building | Active | Failed.

#[export] Instance ProjectIndexManifestState_eq_dec : EqDecision ProjectIndexManifestState.
Proof. solve_decision. Defined.

Definition parse_state (s : string) : result ProjectIndexManifestState RelationEpochs.StorageError :=
  if bool_decide (s = "building") then Ok Building
  else if bool_decide (s = "active") then Ok Active
  else if bool_decide (s = "failed") then Ok Failed
  else Err RelationEpochs.Query.

Inductive OverrideDisposition := Replaced | Deleted.

#[export] Instance OverrideDisposition_eq_dec : EqDecision OverrideDisposition.
Proof. solve_decision. Defined.

Definition disposition_as_str (d : OverrideDisposition) : string :=
  match d with Replaced => "replaced" | Deleted => "deleted" end.

Definition disposition_parse (s : string) : result OverrideDisposition RelationEpochs.StorageError :=
  if bool_decide (s = "replaced") then Ok Replaced
  else if bool_decide (s = "deleted") then Ok Deleted
  else Err RelationEpochs.Query.

Record ProjectIndexManifest := {
  publication_epoch : Z;
  data_epoch : Z;
  relation_epoch : Z;
  operation_id : string;
  state : ProjectIndexManifestState;
  input_fingerprint : option string;
  candidate_ready : bool;
  parent_data_epoch : option Z
}.

(** A row: the manifest with the columns that are written and not read back. *)
Record Row := {
  manifest : ProjectIndexManifest;
  created_at : Z;
  activated_at : option Z;
  failure_reason : option string
}.

Section manifests.
Context {SnapshotDelta : Type}.
Abbreviation Relations := (@RelationEpochs.Store SnapshotDelta).

(** The tables of one project. The manifests are listed in the order of their
    publication epochs, which is the order they are inserted in. *)
Record Store := {
  publications : list Row;
  overrides : gmap (Z * string) OverrideDisposition;
  relations : Relations
}.

Definition with_publications (l : list Row) (s : Store) : Store :=
  {| publications := l; overrides := overrides s; relations := relations s |}.
Definition with_overrides (o : gmap (Z * string) OverrideDisposition) (s : Store) : Store :=
  {| publications := publications s; overrides := o; relations := relations s |}.
Definition with_relations (r : Relations) (s : Store) : Store :=
  {| publications := publications s; overrides := overrides s; relations := r |}.

Definition project_meta (s : Store) : gmap string RelationEpochs.MetaText := RelationEpochs.project_meta (relations s).

Definition set_meta (key : string) (value : Z) (s : Store) : Store :=
  with_relations (RelationEpochs.with_meta (RelationEpochs.meta_set_int key value (project_meta s)) (relations s)) s.

Definition of_operation (op : string) (r : Row) : bool := bool_decide (operation_id (manifest r) = op).
Definition in_state (st : ProjectIndexManifestState) (r : Row) : bool := bool_decide (state (manifest r) = st).

(** [UPDATE ... WHERE p]. *)
Definition update_rows (p : Row → bool) (f : Row → Row) (s : Store) : Store :=
  with_publications (map (λ r, if p r then f r else r) (publications s)) s.

(** ** Queries *)

(** [WHERE p ORDER BY publication_epoch DESC LIMIT 1]. *)
Definition newest (p : Row → bool) (s : Store) : option Row := last (filter (λ r, p r = true) (publications s)).

Definition find_by_operation (op : string) (s : Store) : option Row := newest (of_operation op) s.

Definition get_building_by_operation (op : string) (s : Store) : option ProjectIndexManifest :=
  manifest <$> newest (λ r, of_operation op r && in_state Building r) s.

Definition get_building_max_epoch (s : Store) : option Z :=
  match map (λ r, data_epoch (manifest r)) (filter (λ r, in_state Building r = true) (publications s)) with
  | [] => None
  | e :: es => Some (foldr Z.max e es)
  end.

Definition get_active (s : Store) : option ProjectIndexManifest := manifest <$> newest (in_state Active) s.

(** The parent recorded by the newest publication of a data epoch. *)
Definition parent_data_epoch_of (epoch : Z) (s : Store) : option Z :=
  r ← newest (λ r, data_epoch (manifest r) =? epoch) s; parent_data_epoch (manifest r).

(** ** Building *)

Definition next_publication (s : Store) : Z :=
  foldr Z.max 0 (map (λ r, publication_epoch (manifest r)) (publications s)) + 1.

Definition new_row (publication data : Z) (op : string) (fingerprint : option string) (now : Z) : Row :=
  {| manifest := {| publication_epoch := publication; data_epoch := data; relation_epoch := 0;
                    operation_id := op; state := Building; input_fingerprint := fingerprint;
                    candidate_ready := false; parent_data_epoch := None |};
     created_at := now; activated_at := None; failure_reason := None |}.

(** The update of a failed row: its parent link is not written. *)
Definition reset_row (now : Z) (r : Row) : Row :=
  let m := manifest r in
  {| manifest := {| publication_epoch := publication_epoch m; data_epoch := data_epoch m; relation_epoch := 0;
                    operation_id := operation_id m; state := Building;
                    input_fingerprint := input_fingerprint m; candidate_ready := false;
                    parent_data_epoch := parent_data_epoch m |};
     created_at := now; activated_at := None; failure_reason := None |}.

(** What is returned for a failed row that was reset. *)
Definition reset_manifest (m : ProjectIndexManifest) : ProjectIndexManifest :=
  {| publication_epoch := publication_epoch m; data_epoch := data_epoch m; relation_epoch := 0;
     operation_id := operation_id m; state := Building; input_fingerprint := input_fingerprint m;
     candidate_ready := false; parent_data_epoch := None |}.

Definition begin_building (data : Z) (op : string) (fingerprint : option string) (now : Z) (s : Store) :
    result (ProjectIndexManifest * Store) RelationEpochs.StorageError :=
  match find_by_operation op s with
  | Some existing =>
      let m := manifest existing in
      if decide (data_epoch m = data) then
        match state m with
        | Building | Active => Ok (m, s)
        | Failed => Ok (reset_manifest m, update_rows (of_operation op) (reset_row now) s)
        end
      else Err RelationEpochs.Validation
  | None =>
      let r := new_row (next_publication s) data op fingerprint now in
      Ok (manifest r, with_publications (publications s ++ [r]) s)
  end.

Definition map_manifest (f : ProjectIndexManifest → ProjectIndexManifest) (r : Row) : Row :=
  {| manifest := f (manifest r); created_at := created_at r; activated_at := activated_at r;
     failure_reason := failure_reason r |}.

Definition with_parent (parent : option Z) (m : ProjectIndexManifest) : ProjectIndexManifest :=
  {| publication_epoch := publication_epoch m; data_epoch := data_epoch m; relation_epoch := relation_epoch m;
     operation_id := operation_id m; state := state m; input_fingerprint := input_fingerprint m;
     candidate_ready := candidate_ready m; parent_data_epoch := parent |}.

Definition set_parent_data_epoch (op : string) (parent : option Z) (s : Store) : Store :=
  update_rows (of_operation op) (map_manifest (with_parent parent)) s.

Definition set_ready (m : ProjectIndexManifest) : ProjectIndexManifest :=
  {| publication_epoch := publication_epoch m; data_epoch := data_epoch m; relation_epoch := relation_epoch m;
     operation_id := operation_id m; state := state m; input_fingerprint := input_fingerprint m;
     candidate_ready := true; parent_data_epoch := parent_data_epoch m |}.

Definition mark_candidate_ready (op : string) (s : Store) : Store :=
  update_rows (λ r, of_operation op r && in_state Building r) (map_manifest set_ready) s.

Definition fail_row (reason : string) (r : Row) : Row :=
  let m := manifest r in
  {| manifest := {| publication_epoch := publication_epoch m; data_epoch := data_epoch m;
                    relation_epoch := relation_epoch m; operation_id := operation_id m; state := Failed;
                    input_fingerprint := input_fingerprint m; candidate_ready := candidate_ready m;
                    parent_data_epoch := parent_data_epoch m |};
     created_at := created_at r; activated_at := activated_at r; failure_reason := Some reason |}.

Definition mark_failed (op reason : string) (s : Store) : Store :=
  update_rows (λ r, of_operation op r && in_state Building r) (fail_row reason) s.

(** ** Activation *)

(** The relation epoch must exist and be ready, active or a delta. *)
Definition activate_relations (relation now : Z) (s : Store) : result Store RelationEpochs.StorageError :=
  if relation <=? 0 then Ok s
  else
    match RelationEpochs.state <$> RelationEpochs.manifests (relations s) !! relation with
    | Some (RelationEpochs.Ready | RelationEpochs.Active | RelationEpochs.Delta) =>
        match RelationEpochs.activate relation now (relations s) with
        | Ok r => Ok (with_relations r s)
        | Err e => Err e
        end
    | _ => Err RelationEpochs.Validation
    end.

Definition at_publication (publication : Z) (r : Row) : bool := publication_epoch (manifest r) =? publication.

(** A publication that starts without a parent takes the parent of the active
    one when it shows the same data. *)
Definition carry_parent (data : Z) (building : ProjectIndexManifest) (s : Store) : ProjectIndexManifest * Store :=
  match parent_data_epoch building, newest (in_state Active) s with
  | None, Some active =>
      match parent_data_epoch (manifest active) with
      | Some parent =>
          if (0 <? parent) && (data_epoch (manifest active) =? data)
          then (with_parent (Some parent) building,
                update_rows (at_publication (publication_epoch building)) (map_manifest (with_parent (Some parent))) s)
          else (building, s)
      | None => (building, s)
      end
  | _, _ => (building, s)
  end.

Definition publish_row (relation : Z) (fingerprint : option string) (now : Z) (r : Row) : Row :=
  let m := manifest r in
  {| manifest := {| publication_epoch := publication_epoch m; data_epoch := data_epoch m;
                    relation_epoch := relation; operation_id := operation_id m; state := Active;
                    input_fingerprint := match fingerprint with Some f => Some f | None => input_fingerprint m end;
                    candidate_ready := candidate_ready m; parent_data_epoch := parent_data_epoch m |};
     created_at := created_at r; activated_at := Some now; failure_reason := None |}.

Definition publish_meta (data relation : Z) (s : Store) : Store :=
  set_meta "epoch_ready" 1 (set_meta "active_relation_epoch" relation
    (set_meta "active_epoch" data (set_meta "epoch" data s))).

(** The activation of a building publication; exactly one row must change. *)
Definition publish_building (data relation : Z) (op : string) (fingerprint : option string) (now : Z)
    (building : ProjectIndexManifest) (s : Store) : result (ProjectIndexManifest * Store) RelationEpochs.StorageError :=
  let '(building, s1) := carry_parent data building s in
  let p := λ r, at_publication (publication_epoch building) r && in_state Building r in
  if Z.of_nat (length (filter (λ r, p r = true) (publications s1))) =? 1 then
    Ok ({| publication_epoch := publication_epoch building; data_epoch := data; relation_epoch := relation;
           operation_id := op; state := Active; input_fingerprint := fingerprint;
           candidate_ready := candidate_ready building; parent_data_epoch := parent_data_epoch building |},
        publish_meta data relation (update_rows p (publish_row relation fingerprint now) s1))
  else Err RelationEpochs.Transaction.

(** The three clock readings: of the activation, of the relation snapshot and of
    the building row. *)
Definition activate (data relation : Z) (op : string) (fingerprint : option string) (now now_relation now_row : Z)
    (s : Store) : result (ProjectIndexManifest * Store) RelationEpochs.StorageError :=
  s1 <-? activate_relations relation now_relation s;
  begun <-? begin_building data op fingerprint now_row s1;
  match state begun.1 with
  | Active => if relation_epoch begun.1 =? relation then Ok begun else Err RelationEpochs.Validation
  | _ => publish_building data relation op fingerprint now begun.1 begun.2
  end.

(** ** Overrides *)

Definition override_upsert (epoch : Z) (path : string) (d : OverrideDisposition) (s : Store) : Store :=
  with_overrides (<[(epoch, path) := d]> (overrides s)) s.

(** The rows of one generation; the text order of the paths is not modelled. *)
Definition list_for_generation (epoch : Z) (s : Store) : list (string * OverrideDisposition) :=
  map (λ x, (x.1.2, x.2)) (map_to_list (filter (λ x, x.1.1 = epoch) (overrides s))).

Definition clear_generation (epoch : Z) (s : Store) : Store :=
  with_overrides (filter (λ x, x.1.1 ≠ epoch) (overrides s)) s.

(** ** The invariant of the manifests *)

Definition publication (r : Row) : Z := publication_epoch (manifest r).
Definition operation (r : Row) : string := operation_id (manifest r).

Record rows_ok (s : Store) : Prop := {
  rows_sorted : StronglySorted (λ r r', publication r < publication r') (publications s);
  rows_positive : Forall (λ r, 0 < publication r) (publications s);
  rows_operations : NoDup (map operation (publications s))
}.

Definition empty_store (r : Relations) : Store := {| publications := []; overrides := ∅; relations := r |}.

Lemma rows_ok_empty r : rows_ok (empty_store r).
Proof. repeat constructor. Qed.

Lemma rows_ok_same s s' : publications s' = publications s → rows_ok s → rows_ok s'.
Proof. intros He []. split; by rewrite He. Qed.

Lemma rows_operation_unique s r r' :
  rows_ok s → r ∈ publications s → r' ∈ publications s → operation r = operation r' → r = r'.
Proof.
  intros Hs [i Hi]%list_elem_of_lookup [j Hj]%list_elem_of_lookup Ho.
  assert (i = j) as ->; [|congruence].
  apply (NoDup_lookup (map operation (publications s)) i j (operation r)); [apply Hs|..];
    rewrite list_lookup_fmap; [by rewrite Hi|rewrite Hj; cbn; by rewrite Ho].
Qed.

Lemma rows_publication_unique s r r' :
  rows_ok s → r ∈ publications s → r' ∈ publications s → publication r = publication r' → r = r'.
Proof.
  intros Hs Hr Hr' He. pose proof (rows_sorted s Hs) as Hsort.
  induction (publications s) as [|x l IH]; [by apply not_elem_of_nil in Hr|].
  apply StronglySorted_inv in Hsort as [Hsort Hx]. rewrite Forall_forall in Hx.
  apply elem_of_cons in Hr as [->|Hr], Hr' as [->|Hr']; [done| | |by apply IH].
  - specialize (Hx r' Hr'). lia. - specialize (Hx r Hr). lia.
Qed.

Lemma rows_ok_update p f s :
  (∀ r, publication (f r) = publication r ∧ operation (f r) = operation r) →
  rows_ok s → rows_ok (update_rows p f s).
Proof.
  intros Hf []. assert (Hpub : ∀ r, publication (if p r then f r else r) = publication r).
  { intros r. destruct (p r); [apply Hf|done]. }
  assert (Hop : ∀ r, operation (if p r then f r else r) = operation r).
  { intros r. destruct (p r); [apply Hf|done]. }
  split; cbn.
  - clear -rows_sorted0 Hpub. induction rows_sorted0 as [|r l Hl IH Hr]; cbn; constructor; [done|].
    apply Forall_map. eapply Forall_impl; [exact Hr|]. intros r'. cbn. by rewrite !Hpub.
  - apply Forall_map. eapply Forall_impl; [exact rows_positive0|]. intros r. cbn. by rewrite Hpub.
  - rewrite map_map. by rewrite (map_ext _ operation) by done.
Qed.

Lemma rows_ok_filter (P : Row → Prop) `{∀ r, Decision (P r)} s :
  rows_ok s → rows_ok (with_publications (filter P (publications s)) s).
Proof.
  intros []. assert (Hsub : filter P (publications s) `sublist_of` publications s) by apply sublist_filter. split; cbn.
  - clear -rows_sorted0. induction rows_sorted0 as [|r l Hl IH Hr]; [constructor|]. rewrite filter_cons.
    case_decide; [|done]. constructor; [done|]. rewrite Forall_forall in *. intros r' Hr'. apply Hr.
    apply list_elem_of_filter in Hr'. tauto.
  - rewrite Forall_forall in *. intros r Hr. apply rows_positive0. apply list_elem_of_filter in Hr. tauto.
  - eapply sublist_NoDup; [exact rows_operations0|]. by apply (fmap_sublist operation).
Qed.

(** ** The newest row *)

Lemma newest_spec p s r :
  rows_ok s → newest p s = Some r →
  r ∈ publications s ∧ p r = true ∧ ∀ r', r' ∈ publications s → p r' = true → publication r' ≤ publication r.
Proof.
  intros Hs Hn. unfold newest in Hn. pose proof (last_Some_elem_of _ _ Hn) as [Hp Hr]%list_elem_of_filter.
  split_and!; [done|done|]. destruct (last_filter_Some _ _ _ Hn) as (l1 & l2 & Hl & Hno). intros r' Hr' Hp'.
  pose proof (rows_sorted s Hs) as Hsort. rewrite Hl in Hsort, Hr'. rewrite Forall_forall in Hno.
  apply elem_of_app in Hr' as [Hr'|[->|Hr']%elem_of_cons]; [|done|by destruct (Hno r' Hr')].
  pose proof (StronglySorted_app_1_elem_of _ _ _ r' r Hsort Hr' ltac:(left)) as Hlt. cbn in Hlt. lia.
Qed.

Lemma newest_None p s : newest p s = None ↔ ∀ r, r ∈ publications s → p r = false.
Proof.
  unfold newest. rewrite last_None. split.
  - intros Hf r Hr. destruct (p r) eqn:Hp; [|done]. by destruct (filter_nil_not_elem_of _ _ r Hf Hp).
  - intros Hall. destruct (filter _ _) as [|r l] eqn:Hf; [done|].
    assert (Hr : r ∈ r :: l) by left. rewrite <- Hf in Hr. apply list_elem_of_filter in Hr as [Hp Hr].
    by rewrite (Hall r Hr) in Hp.
Qed.

Lemma newest_Some p s r :
  rows_ok s →
  newest p s = Some r ↔
  r ∈ publications s ∧ p r = true ∧ ∀ r', r' ∈ publications s → p r' = true → publication r' ≤ publication r.
Proof.
  intros Hs. split; [by apply newest_spec|]. intros (Hr & Hp & Hmax).
  destruct (newest p s) as [r0|] eqn:Hn.
  - destruct (newest_spec p s r0 Hs Hn) as (Hr0 & Hp0 & Hmax0).
    f_equal. apply (rows_publication_unique s); [done..|]. specialize (Hmax r0 Hr0 Hp0). specialize (Hmax0 r Hr Hp). lia.
  - pose proof (proj1 (newest_None p s) Hn r Hr). congruence.
Qed.

Lemma newest_iff p s s' :
  rows_ok s → rows_ok s' → (∀ r, p r = true → r ∈ publications s ↔ r ∈ publications s') → newest p s = newest p s'.
Proof.
  intros Hs Hs' Hiff. destruct (newest p s) as [r|] eqn:Hn; symmetry.
  - apply (newest_Some p s' r Hs'). destruct (newest_spec p s r Hs Hn) as (Hr & Hp & Hmax).
    split_and!; [by apply Hiff|done|]. intros r' Hr' Hp'. apply Hmax; [by apply Hiff|done].
  - apply newest_None. intros r Hr. destruct (p r) eqn:Hp; [|done].
    pose proof (proj1 (newest_None p s) Hn r (proj2 (Hiff r Hp) Hr)). congruence.
Qed.

Lemma find_by_operation_Some op s r :
  rows_ok s → find_by_operation op s = Some r ↔ r ∈ publications s ∧ operation r = op.
Proof.
  intros Hs. unfold find_by_operation. rewrite newest_Some by done. unfold of_operation. split.
  - intros (Hr & Ho & _). by apply bool_decide_eq_true in Ho.
  - intros [Hr Ho]. split_and!; [done|by apply bool_decide_eq_true|]. intros r' Hr' Ho'%bool_decide_eq_true.
    rewrite (rows_operation_unique s r' r); [done..|]. unfold operation in *. congruence.
Qed.

Lemma find_by_operation_None op s r :
  find_by_operation op s = None → r ∈ publications s → operation r ≠ op.
Proof. intros Hn Hr. apply (proj1 (newest_None _ s) Hn) in Hr. by apply bool_decide_eq_false in Hr. Qed.

(** ** Changing the row of one operation *)

(** After the change the rows are those of the other operations and [r]. *)
Definition replaces (op : string) (r : Row) (s s' : Store) : Prop :=
  operation r = op ∧
  ∀ r', r' ∈ publications s' ↔ (r' ∈ publications s ∧ operation r' ≠ op) ∨ r' = r.

Lemma replaces_refl op r s :
  rows_ok s → r ∈ publications s → operation r = op → replaces op r s s.
Proof.
  intros Hs Hr Ho. split; [done|]. intros r'. split.
  - intros Hr'. destruct (decide (operation r' = op)); [right|by left].
    apply (rows_operation_unique s); congruence.
  - intros [[? _]| ->]; done.
Qed.

Lemma replaces_trans op r1 r2 s1 s2 s3 : replaces op r1 s1 s2 → replaces op r2 s2 s3 → replaces op r2 s1 s3.
Proof. intros [Ho1 H1] [Ho2 H2]. split; [done|]. intros r'. rewrite H2, H1. naive_solver. Qed.

Lemma replaces_same op r s1 s2 s3 : publications s3 = publications s2 → replaces op r s1 s2 → replaces op r s1 s3.
Proof. intros He [Ho H]. split; [done|]. by rewrite He. Qed.

Lemma replaces_update op p f r s :
  rows_ok s → r ∈ publications s → operation r = op → p r = true →
  (∀ r', r' ∈ publications s → p r' = true → operation r' = op) → operation (f r) = op →
  replaces op (f r) s (update_rows p f s).
Proof.
  intros Hs Hr Ho Hp Honly Hf. split; [done|]. intros r'. cbn. rewrite list_elem_of_In, in_map_iff.
  setoid_rewrite <- list_elem_of_In. split.
  - intros (x & <- & Hx). destruct (p x) eqn:Hpx.
    + right. f_equal. apply (rows_operation_unique s); [done..|]. rewrite Ho. by apply Honly.
    + destruct (decide (operation x = op)) as [Hox|]; [|by left].
      assert (x = r) as -> by (apply (rows_operation_unique s); congruence). congruence.
  - intros [[Hr' Hne]| ->].
    + exists r'. split; [|done]. destruct (p r') eqn:Hpr; [|done]. by destruct Hne; apply Honly.
    + exists r. by rewrite Hp.
Qed.

Lemma replaces_append op r s :
  find_by_operation op s = None → operation r = op → replaces op r s (with_publications (publications s ++ [r]) s).
Proof.
  intros Hn Ho. split; [done|]. intros r'. cbn. rewrite elem_of_app, list_elem_of_singleton.
  split; [|naive_solver]. intros [Hr'|]; [|by right]. left. split; [done|]. by apply (find_by_operation_None op s).
Qed.

(** ** Building and publishing *)

Lemma next_publication_gt s r : r ∈ publications s → publication r < next_publication s.
Proof.
  intros Hr. unfold next_publication.
  assert (Hle : publication r ≤ foldr Z.max 0 (map publication (publications s))).
  { apply RelationEpochs.foldr_max_ge, list_elem_of_fmap. by exists r. }
  unfold publication in *. lia.
Qed.

Lemma rows_ok_append s data op fingerprint now :
  rows_ok s → find_by_operation op s = None →
  rows_ok (with_publications (publications s ++ [new_row (next_publication s) data op fingerprint now]) s).
Proof.
  intros Hs Hn. destruct Hs. split; cbn.
  - apply StronglySorted_app_2; [|done|by repeat constructor].
    intros r r' Hr ->%list_elem_of_singleton. by apply next_publication_gt.
  - apply Forall_app. split; [done|]. constructor; [|constructor]. unfold publication. cbn. unfold next_publication.
    pose proof ((RelationEpochs.foldr_max_base 0) (map (λ r, publication_epoch (manifest r)) (publications s))). lia.
  - rewrite map_app. apply NoDup_app. split_and!; [done| |apply NoDup_singleton]. intros o Ho.
    cbn. intros ->%list_elem_of_singleton. apply list_elem_of_fmap in Ho as (r & Ho & Hr).
    by apply (find_by_operation_None op s r Hn Hr).
Qed.

(** The row an operation builds in, after [begin_building]. *)
Record begun (data : Z) (op : string) (s : Store) (m : ProjectIndexManifest) (s' : Store) (r : Row) : Prop := {
  begun_ok : rows_ok s';
  begun_replaces : replaces op r s s';
  begun_rest : relations s' = relations s ∧ overrides s' = overrides s;
  begun_data : data_epoch (manifest r) = data;
  begun_publication : publication_epoch m = publication r;
  begun_state : state (manifest r) = state m ∧ state m ≠ Failed;
  begun_active : state m = Active → find_by_operation op s = Some r ∧ manifest r = m ∧ s' = s;
  begun_known : ∀ r0, find_by_operation op s = Some r0 →
    publication r = publication r0 ∧ parent_data_epoch (manifest r) = parent_data_epoch (manifest r0) ∧
    (state (manifest r0) = Active → state m = Active);
  begun_building : ∀ r0, find_by_operation op s = Some r0 → state (manifest r0) ≠ Failed → m = manifest r0;
  begun_fresh : find_by_operation op s = None →
    publication r = next_publication s ∧ parent_data_epoch (manifest r) = None ∧ parent_data_epoch m = None
}.

Lemma begin_building_begun data op fingerprint now s m s' :
  rows_ok s → begin_building data op fingerprint now s = Ok (m, s') → ∃ r, begun data op s m s' r.
Proof.
  intros Hs. unfold begin_building. destruct (find_by_operation op s) as [r0|] eqn:Hf.
  - destruct (decide _) as [Hd|]; [|done]. destruct (proj1 (find_by_operation_Some op s r0 Hs) Hf) as [Hr0 Ho].
    destruct (state (manifest r0)) eqn:Hst; intros [= <- <-].
    + exists r0. split; rewrite ?Hst, ?Hf; try done; [by apply replaces_refl|by intros r1 [= <-]; rewrite Hst|by intros r1 [= <-]].
    + exists r0. split; rewrite ?Hst, ?Hf; try done; [by apply replaces_refl|by intros r1 [= <-]; rewrite Hst|by intros r1 [= <-]].
    + exists (reset_row now r0). split; rewrite ?Hf; try done.
      * by apply rows_ok_update.
      * apply replaces_update; [done..|by apply bool_decide_eq_true| |done]. by intros r' _ ?%bool_decide_eq_true.
      * intros r1 [= <-]. split_and!; [done|done|congruence].
      * by intros r1 [= <-] ?.
  - intros [= <- <-]. exists (new_row (next_publication s) data op fingerprint now). split; rewrite ?Hf; try done.
    + by apply rows_ok_append. + by apply replaces_append.
Qed.

Lemma filter_only {A} (p : A → bool) (l : list A) x :
  NoDup l → x ∈ l → p x = true → (∀ y, y ∈ l → p y = true → y = x) → filter (λ y, p y = true) l = [x].
Proof.
  intros Hnd Hx Hp Honly. apply Permutation_singleton_r. symmetry. apply NoDup_Permutation.
  - apply NoDup_singleton. - by apply NoDup_filter.
  - intros y. rewrite list_elem_of_singleton, list_elem_of_filter. naive_solver.
Qed.

Lemma publications_NoDup s : rows_ok s → NoDup (publications s).
Proof. intros Hs. apply (NoDup_fmap_1 operation), Hs. Qed.

(** The published row: active, of the given relation epoch, and with the parent
    it had or the one carried over from the active publication. *)
Definition published_row (relation : Z) (parent : option Z) (r r' : Row) : Prop :=
  publication r' = publication r ∧ data_epoch (manifest r') = data_epoch (manifest r) ∧
  relation_epoch (manifest r') = relation ∧ state (manifest r') = Active ∧
  parent_data_epoch (manifest r') = parent.

(** The parent that is carried: that of the active publication of the same data. *)
Definition carried (data : Z) (s : Store) : option Z :=
  active ← newest (in_state Active) s;
  parent ← parent_data_epoch (manifest active);
  if (0 <? parent) && (data_epoch (manifest active) =? data) then Some parent else None.

Lemma carry_parent_spec data op m r s :
  rows_ok s → r ∈ publications s → operation r = op → publication_epoch m = publication r →
  let c := carry_parent data m s in
  let parent := match parent_data_epoch m, carried data s with None, Some p => Some p | _, _ => None end in
  rows_ok c.2 ∧ replaces op (match parent with Some p => map_manifest (with_parent (Some p)) r | None => r end) s c.2 ∧
  project_meta c.2 = project_meta s ∧ overrides c.2 = overrides s ∧ relations c.2 = relations s ∧
  publication_epoch c.1 = publication_epoch m.
Proof.
  intros Hs Hr Ho Hp c parent. subst c parent. unfold carry_parent, carried.
  destruct (parent_data_epoch m); [split_and!; try done; by apply replaces_refl|].
  destruct (newest (in_state Active) s) as [active|]; cbn; [|split_and!; try done; by apply replaces_refl].
  destruct (parent_data_epoch (manifest active)) as [p|]; cbn; [|split_and!; try done; by apply replaces_refl].
  destruct (_ && _); [|split_and!; try done; by apply replaces_refl]. split_and!; try done.
  - by apply rows_ok_update.
  - apply replaces_update; [done..| | |done].
    + unfold at_publication. rewrite Hp. apply Z.eqb_refl.
    + intros r' Hr' He%Z.eqb_eq. rewrite (rows_publication_unique s r' r); [done..|]. unfold publication in *. congruence.
Qed.

Definition published_meta (data relation : Z) (s : Store) : Prop :=
  project_meta s !! "epoch" = Some (RelationEpochs.Number data) ∧
  project_meta s !! "active_epoch" = Some (RelationEpochs.Number data) ∧
  project_meta s !! "active_relation_epoch" = Some (RelationEpochs.Number relation) ∧
  project_meta s !! "epoch_ready" = Some (RelationEpochs.Number 1).

Lemma publish_meta_published data relation s : published_meta data relation (publish_meta data relation s).
Proof.
  unfold published_meta, publish_meta, set_meta, RelationEpochs.meta_set_int, project_meta. cbn.
  split_and!; by simplify_map_eq.
Qed.

Lemma rows_ok_relations r s : rows_ok s → rows_ok (with_relations r s).
Proof. by apply rows_ok_same. Qed.

(** What publishing a building row does to the tables. *)
Record published (data relation : Z) (op : string) (parent : option Z) (s s' : Store) (r r' : Row) : Prop := {
  published_ok : rows_ok s';
  published_replaces : replaces op r' s s';
  published_is : published_row relation parent r r';
  published_overrides : overrides s' = overrides s;
  published_in_meta : published_meta data relation s';
  published_manifests : RelationEpochs.manifests (relations s') = RelationEpochs.manifests (relations s)
}.

Lemma publish_building_published data relation op fingerprint now m r s :
  rows_ok s → r ∈ publications s → operation r = op → publication_epoch m = publication r →
  state (manifest r) = Building →
  let parent := match parent_data_epoch m, carried data s with
                | None, Some p => Some p | _, _ => parent_data_epoch (manifest r) end in
  ∃ m' s' r', publish_building data relation op fingerprint now m s = Ok (m', s') ∧
    published data relation op parent s s' r r'.
Proof.
  intros Hs Hr Ho Hp Hst parent.
  pose proof (carry_parent_spec data op m r s Hs Hr Ho Hp) as (Hs1 & Hrep & Hmeta & Hov & Hrel & Hpub).
  unfold publish_building. destruct (carry_parent data m s) as [m1 s1]. cbn [fst snd] in *.
  set (r1 := match _ with Some p => _ | None => r end) in Hrep.
  assert (Hr1 : r1 ∈ publications s1) by (apply (proj2 Hrep); by right).
  assert (Hrow : publication r1 = publication r ∧ state (manifest r1) = Building ∧
    data_epoch (manifest r1) = data_epoch (manifest r) ∧ parent_data_epoch (manifest r1) = parent).
  { subst r1 parent. by destruct (parent_data_epoch m), (carried data s). }
  destruct Hrow as (Hpub1 & Hst1 & Hd1 & Hpar1).
  set (p := λ r0, at_publication (publication_epoch m1) r0 && in_state Building r0).
  assert (Hp1 : p r1 = true).
  { unfold p, at_publication, in_state. rewrite Hst1, bool_decide_eq_true_2 by done. rewrite Hpub, Hp, <- Hpub1.
    unfold publication. by rewrite Z.eqb_refl. }
  assert (Honly : ∀ y, y ∈ publications s1 → p y = true → y = r1).
  { intros y Hy [Hy1%Z.eqb_eq _]%andb_true_iff. apply (rows_publication_unique s1); [done..|].
    unfold publication in *. congruence. }
  match goal with |- context [filter ?P ?l] => replace (filter P l) with [r1] end;
    [|symmetry; exact (filter_only p (publications s1) r1 (publications_NoDup s1 Hs1) Hr1 Hp1 Honly)].
  cbn [length Z.of_nat Z.eqb Pos.eqb Pos.of_succ_nat].
  eexists _, _, (publish_row relation fingerprint now r1). split; [reflexivity|].
  assert (Hu : replaces op (publish_row relation fingerprint now r1) s1
                 (update_rows p (publish_row relation fingerprint now) s1)).
  { apply replaces_update; [done|done|apply Hrep|done| |apply Hrep].
    intros r' Hr' Hpr. rewrite (Honly r' Hr' Hpr). apply Hrep. }
  split.
  - apply (rows_ok_same (update_rows p (publish_row relation fingerprint now) s1)); [done|]. by apply rows_ok_update.
  - apply (replaces_trans op r1 _ s s1); [done|].
    by apply (replaces_same op _ s1 (update_rows p (publish_row relation fingerprint now) s1)).
  - split_and!; cbn; done.
  - done.
  - apply publish_meta_published.
  - cbn. by rewrite Hrel.
Qed.

(** A relation epoch is shown: it is an active full snapshot or a delta, and the
    full snapshot that was active is demoted when another one takes its place. *)
Definition relation_shown (relation : Z) (ms ms' : gmap Z RelationEpochs.RelationSnapshotManifest) : Prop :=
  (relation ≤ 0 ∧ ms' = ms) ∨
  (0 < relation ∧ RelationEpochs.state <$> ms' !! relation ∈ [Some RelationEpochs.Active; Some RelationEpochs.Delta] ∧
   ∀ e, e ≠ relation →
     (RelationEpochs.state <$> ms !! relation = Some RelationEpochs.Ready → ms' !! e = RelationEpochs.demote <$> ms !! e) ∧
     (RelationEpochs.state <$> ms !! relation ≠ Some RelationEpochs.Ready → ms' !! e = ms !! e)).

Lemma activate_relations_Ok relation now s s1 :
  activate_relations relation now s = Ok s1 →
  publications s1 = publications s ∧ overrides s1 = overrides s ∧
  relation_shown relation (RelationEpochs.manifests (relations s)) (RelationEpochs.manifests (relations s1)).
Proof.
  unfold activate_relations, relation_shown. destruct (Z.leb_spec relation 0) as [|Hpos]; [intros [= <-]; tauto|].
  destruct (RelationEpochs.manifests (relations s) !! relation) as [mr|] eqn:Hm; cbn; [|done].
  unfold RelationEpochs.activate. rewrite Hm. cbn.
  destruct (RelationEpochs.state mr) eqn:Hst; try done; intros [= <-]; cbn; split_and!; try done; right.
  - split_and!; [done|rewrite lookup_alter_eq, lookup_fmap, Hm; by left|].
    intros e He. rewrite lookup_alter_ne, lookup_fmap by done. by split.
  - split_and!; [done|rewrite Hm; cbn; rewrite Hst; by left|]. done.
  - split_and!; [done|rewrite Hm; cbn; rewrite Hst; by right; left|]. done.
Qed.

Lemma activate_published data relation op fingerprint now nr nw s m s' :
  rows_ok s → activate data relation op fingerprint now nr nw s = Ok (m, s') →
  (∀ r0, find_by_operation op s = Some r0 → state (manifest r0) ≠ Active) →
  ∃ s2 m2 r r' parent, begun data op s m2 (with_publications (publications s2) s) r ∧
    published data relation op parent s2 s' r r' ∧ replaces op r' s s' ∧ overrides s' = overrides s ∧
    parent = match parent_data_epoch m2, carried data s2 with
             | None, Some p => Some p | _, _ => parent_data_epoch (manifest r) end ∧
    relation_shown relation (RelationEpochs.manifests (relations s)) (RelationEpochs.manifests (relations s')).
Proof.
  intros Hs Ha Hna. unfold activate in Ha.
  destruct (activate_relations relation nr s) as [s1|] eqn:Hrel; cbn in Ha; [|done].
  destruct (activate_relations_Ok _ _ _ _ Hrel) as (Hpub1 & Hov1 & Hrs).
  assert (Hs1 : rows_ok s1) by by apply (rows_ok_same s).
  assert (Hf1 : find_by_operation op s1 = find_by_operation op s).
  { unfold find_by_operation, newest. by rewrite Hpub1. }
  destruct (begin_building data op fingerprint nw s1) as [[m2 s2]|] eqn:Hb; cbn in Ha; [|done].
  destruct (begin_building_begun _ _ _ _ _ _ _ Hs1 Hb) as (r & Hbeg).
  assert (Hst : state m2 = Building).
  { destruct Hbeg as [_ _ _ _ _ [Hst Hnf] Hact _ _ _]. destruct (state m2) eqn:E; [done| |done].
    destruct (Hact eq_refl) as (Hf & Hm & _). rewrite Hf1 in Hf. destruct (Hna r Hf). congruence. }
  rewrite Hst in Ha. pose proof Hbeg as [Hs2 Hrep [Hrr Hro] Hd Hp [Hrst _] _ _ _ _].
  assert (Hr : r ∈ publications s2) by (apply (proj2 Hrep); by right).
  destruct (publish_building_published data relation op fingerprint now m2 r s2 Hs2 Hr (proj1 Hrep) Hp ltac:(congruence))
    as (m' & s'' & r' & Hpb & Hpd). rewrite Hpb in Ha. injection Ha as <- <-.
  eexists s2, m2, r, r', _. split_and!; [|exact Hpd| | |reflexivity|].
  - destruct Hbeg as [? ? ? ? ? ? Hact Hk Hbd Hfr]. split; cbn; try done.
    + by apply (rows_ok_same s2).
    + destruct begun_replaces0 as [? Hx]. split; [done|]. intros x. by rewrite Hx, Hpub1.
    + intros E. congruence.
    + intros r0. rewrite <- Hf1. apply Hk.
    + intros r0. rewrite <- Hf1. apply Hbd.
    + rewrite <- Hf1. intros E. destruct (Hfr E) as (Hn & ?). split; [|done]. rewrite Hn. unfold next_publication. by rewrite Hpub1.
  - destruct (replaces_trans op r r' s1 s2 _ Hrep (published_replaces _ _ _ _ _ _ _ _ Hpd)) as [Ho Hx].
    split; [done|]. intros x. by rewrite Hx, Hpub1.
  - rewrite (published_overrides _ _ _ _ _ _ _ _ Hpd). congruence.
  - rewrite (published_manifests _ _ _ _ _ _ _ _ Hpd), Hrr. exact Hrs.
Qed.

Lemma activate_succeeds data relation op fingerprint now nr nw s s1 :
  rows_ok s → activate_relations relation nr s = Ok s1 →
  (∀ r0, find_by_operation op s = Some r0 → data_epoch (manifest r0) = data ∧ state (manifest r0) ≠ Active) →
  is_ok (activate data relation op fingerprint now nr nw s) = true.
Proof.
  intros Hs Hrel Hk. unfold activate. rewrite Hrel. cbn.
  destruct (activate_relations_Ok _ _ _ _ Hrel) as (Hpub1 & _).
  assert (Hs1 : rows_ok s1) by by apply (rows_ok_same s).
  assert (Hf1 : find_by_operation op s1 = find_by_operation op s).
  { unfold find_by_operation, newest. by rewrite Hpub1. }
  destruct (begin_building data op fingerprint nw s1) as [[m2 s2]|] eqn:Hb; cbn.
  - destruct (begin_building_begun _ _ _ _ _ _ _ Hs1 Hb) as (r & [Hs2 Hrep _ _ Hp [Hrst Hnf] Hact _ _ _]).
    assert (Hst : state m2 = Building).
    { destruct (state m2) eqn:E; [done| |done]. destruct (Hact eq_refl) as (Hf & Hm & _). rewrite Hf1 in Hf.
      destruct (Hk r Hf) as [_ Hn]. destruct Hn. congruence. }
    rewrite Hst. assert (Hr : r ∈ publications s2) by (apply (proj2 Hrep); by right).
    destruct (publish_building_published data relation op fingerprint now m2 r s2 Hs2 Hr (proj1 Hrep) Hp ltac:(congruence))
      as (m' & s'' & r' & Hpb & _). by rewrite Hpb.
  - unfold begin_building in Hb. rewrite Hf1 in Hb. destruct (find_by_operation op s) as [r0|]; [|done].
    destruct (Hk r0 eq_refl) as [Hd _]. rewrite decide_True in Hb by done. by destruct (state (manifest r0)).
Qed.

Lemma in_state_true st r : in_state st r = true ↔ state (manifest r) = st.
Proof. apply bool_decide_eq_true. Qed.

(** The newest row among those satisfying [p] when only the row of [op] changes. *)
Lemma newest_replaced p op r s s' :
  rows_ok s → rows_ok s' → replaces op r s s' → p r = true →
  (∀ r', r' ∈ publications s → p r' = true → operation r' ≠ op → publication r' < publication r) →
  newest p s' = Some r.
Proof.
  intros Hs Hs' [Ho Hrep] Hp Hmax. apply (newest_Some p s' r Hs'). split_and!; [apply Hrep; by right|done|].
  intros r' [[Hr' Hne]| ->]%Hrep Hp'; [|lia]. specialize (Hmax r' Hr' Hp' Hne). lia.
Qed.

Lemma newest_unreplaced p op r s s' r1 :
  rows_ok s → rows_ok s' → replaces op r s s' → newest p s = Some r1 → operation r1 ≠ op →
  (p r = true → publication r < publication r1) → newest p s' = Some r1.
Proof.
  intros Hs Hs' [Ho Hrep] Hn Hne Hlt. destruct (newest_spec p s r1 Hs Hn) as (Hr1 & Hp1 & Hmax).
  apply (newest_Some p s' r1 Hs'). split_and!; [apply Hrep; by left|done|].
  intros r' [[Hr' _]| ->]%Hrep Hp'; [by apply Hmax|]. specialize (Hlt Hp'). lia.
Qed.

(** The newest of the rows in the presence of the one that was replaced. *)
Lemma newest_with op r s s' :
  rows_ok s → rows_ok s' → replaces op r s s' → in_state Active r = true →
  (∀ x, in_state Active x = true → x ∈ publications s → operation x ≠ op) →
  newest (in_state Active) s' =
  Some match newest (in_state Active) s with
       | Some rB => if publication r <? publication rB then rB else r
       | None => r
       end.
Proof.
  intros Hs Hs' Hrep Ha Hno. destruct (newest (in_state Active) s) as [rB|] eqn:HB.
  - destruct (newest_spec _ _ _ Hs HB) as (HrB & HaB & Hmax). destruct (Z.ltb_spec (publication r) (publication rB)) as [Hlt|Hge].
    + apply (newest_unreplaced (in_state Active) op r s s' rB); [done..|by apply Hno|done].
    + apply (newest_replaced (in_state Active) op r s s'); [done..|]. intros x Hx Hxa Hne.
      specialize (Hmax x Hx Hxa). destruct (decide (publication x = publication r)) as [Heq|]; [|lia].
      assert (Hin : ∀ y, y ∈ publications s → operation y ≠ op → y ∈ publications s')
        by (intros y Hy Hyo; apply (proj2 Hrep); by left).
      assert (x = r) as ->; [|by destruct Hne; apply Hrep].
      apply (rows_publication_unique s'); [done|by apply Hin|apply (proj2 Hrep); by right|done].
  - apply (newest_replaced (in_state Active) op r s s'); [done..|]. intros x Hx Hxa.
    pose proof (proj1 (newest_None _ _) HB x Hx). congruence.
Qed.

Lemma carried_begun data op m2 s s2 r :
  rows_ok s → begun data op s m2 s2 r → state m2 = Building → find_by_operation op s = None →
  carried data s2 = carried data s.
Proof.
  intros Hs [Hs2 [Ho Hrep] _ _ _ [Hst _] _ _ _ _] Hb Hn. unfold carried. f_equal. symmetry.
  apply newest_iff; [done..|]. intros r' Hp. rewrite Hrep. apply in_state_true in Hp. split.
  - intros Hr'. left. split; [done|]. by apply (find_by_operation_None op s).
  - intros [[]| ->]; [done|]. congruence.
Qed.

(** A publication that is newer than every active one becomes the active one. *)
Lemma activate_active data relation op fingerprint now nr nw s m s' :
  rows_ok s → activate data relation op fingerprint now nr nw s = Ok (m, s') →
  (∀ r0, find_by_operation op s = Some r0 → state (manifest r0) ≠ Active ∧
     ∀ r', r' ∈ publications s → state (manifest r') = Active → publication r' < publication r0) →
  ∃ s2 m2 r r' parent, get_active s' = Some (manifest r') ∧
    begun data op s m2 (with_publications (publications s2) s) r ∧
    published data relation op parent s2 s' r r' ∧ replaces op r' s s' ∧ overrides s' = overrides s ∧
    parent = match parent_data_epoch m2, carried data s2 with
             | None, Some p => Some p | _, _ => parent_data_epoch (manifest r) end ∧
    relation_shown relation (RelationEpochs.manifests (relations s)) (RelationEpochs.manifests (relations s')).
Proof.
  intros Hs Ha Hk.
  destruct (activate_published _ _ _ _ _ _ _ _ _ _ Hs Ha (λ r0 Hr0, proj1 (Hk r0 Hr0)))
    as (s2 & m2 & r & r' & parent & Hbeg & Hpd & Hrep & Hrest).
  exists s2, m2, r, r', parent. split; [|done].
  pose proof Hpd as [Hs' _ (Hp1 & _ & _ & Hst1 & _) _ _ _]. destruct Hbeg as [_ _ _ _ _ _ _ Hknown _ Hfresh].
  unfold get_active. rewrite (newest_replaced (in_state Active) op r' s s'); [done..| |].
  - by apply in_state_true.
  - intros x Hx Hxa%in_state_true Hne. rewrite Hp1. destruct (find_by_operation op s) as [r0|] eqn:Hf.
    + destruct (Hknown r0 eq_refl) as [-> _]. by apply (Hk r0).
    + destruct (Hfresh eq_refl) as [-> _]. by apply next_publication_gt.
Qed.

(** C9. The activation of an operation that is not active yet publishes its data and
    relation epochs together: its row names them and the metadata agrees. Its
    manifest becomes the active one unless a newer row is active already, which
    then stays; an operation that begins now has the newest row. The relation
    epoch is shown, where a full snapshot demotes the one before. The rows of
    other operations and the overrides stay, a candidate keeps the parent it was
    registered with, and a new publication of the same data takes over the
    parent of the active one. *)
Theorem publication_becomes_visible data relation op fingerprint now nr nw s m s' :
  rows_ok s → activate data relation op fingerprint now nr nw s = Ok (m, s') →
  (∀ r0, find_by_operation op s = Some r0 → state (manifest r0) ≠ Active) →
  ∃ r, (r ∈ publications s' ∧ operation r = op ∧ state (manifest r) = Active ∧
        data_epoch (manifest r) = data ∧ relation_epoch (manifest r) = relation) ∧
    get_active s' = Some (manifest (match newest (in_state Active) s with
                                    | Some rB => if publication r <? publication rB then rB else r
                                    | None => r
                                    end)) ∧
    published_meta data relation s' ∧ overrides s' = overrides s ∧ rows_ok s' ∧
    relation_shown relation (RelationEpochs.manifests (relations s)) (RelationEpochs.manifests (relations s')) ∧
    (∀ x, operation x ≠ op → x ∈ publications s' ↔ x ∈ publications s) ∧
    (find_by_operation op s = None →
       publication r = next_publication s ∧ parent_data_epoch (manifest r) = carried data s) ∧
    (∀ r0, find_by_operation op s = Some r0 → publication r = publication r0 ∧
       (state (manifest r0) = Building → is_Some (parent_data_epoch (manifest r0)) →
        parent_data_epoch (manifest r) = parent_data_epoch (manifest r0))).
Proof.
  intros Hs Ha Hk.
  destruct (activate_published _ _ _ _ _ _ _ _ _ _ Hs Ha Hk)
    as (s2 & m2 & r & r' & parent & Hbeg & Hpd & Hrep & Hov & Hpar & Hrel).
  destruct Hpd as [Hs' _ (Hp1 & Hd1 & Hr1 & Hst1 & Hpar1) _ Hmeta _].
  exists r'. pose proof Hbeg as [_ _ _ Hdata _ [Hst Hnf] Hact Hknown Hbuild Hfresh]. split_and!; try done.
  - apply (proj2 Hrep). by right.
  - apply Hrep.
  - congruence.
  - unfold get_active. rewrite (newest_with op r' s s'); [|done..|by apply in_state_true|].
    { by destruct (newest (in_state Active) s) as [rB|]; [destruct (_ <? _)|]. }
    intros x Hx%in_state_true Hxs Ho. apply (Hk x); [|done]. by apply find_by_operation_Some.
  - intros x Hne. rewrite (proj2 Hrep). split; [|naive_solver]. intros [[? _]| ->]; [done|]. by destruct Hne; apply Hrep.
  - intros Hn. destruct (Hfresh Hn) as (Hpub & Hprow & Hpm). split; [congruence|]. rewrite Hpar1, Hpar, Hpm, Hprow.
    assert (Hb : state m2 = Building). { destruct (state m2) eqn:E; [done| |done]. destruct (Hact eq_refl). congruence. }
    rewrite <- (carried_begun data op m2 s (with_publications (publications s2) s) r Hs Hbeg Hb Hn).
    change (carried data (with_publications (publications s2) s)) with (carried data s2). by destruct (carried data s2).
  - intros r0 Hf. destruct (Hknown r0 Hf) as (Hpub & Hpr & _). split; [congruence|]. intros Hb [q Hq].
    rewrite Hpar1, Hpar, (Hbuild r0 Hf) by (rewrite Hb; done). rewrite Hq. congruence.
Qed.

(** An operation that failed, or was interrupted, and is activated after another
    one has published keeps its old place in the order: the metadata shows its
    epochs while the active manifest is still the other one. *)
Theorem retried_publication_is_shadowed data relation op fingerprint now nr nw s s1 r rB :
  rows_ok s → activate_relations relation nr s = Ok s1 →
  find_by_operation op s = Some r → state (manifest r) ≠ Active → data_epoch (manifest r) = data →
  newest (in_state Active) s = Some rB → publication r < publication rB →
  ∃ m s', activate data relation op fingerprint now nr nw s = Ok (m, s') ∧
    get_active s' = get_active s ∧ published_meta data relation s'.
Proof.
  intros Hs Hrel Hf Hna Hd HB Hlt.
  pose proof (activate_succeeds data relation op fingerprint now nr nw s s1 Hs Hrel) as Hok.
  destruct (activate data relation op fingerprint now nr nw s) as [[m s']|e] eqn:Ha.
  2:{ discriminate Hok. intros r0. rewrite Hf. by intros [= <-]. }
  exists m, s'. split; [done|].
  destruct (activate_published _ _ _ _ _ _ _ _ _ _ Hs Ha) as (s2 & m2 & r1 & r' & parent & Hbeg & Hpd & Hrep & _).
  { intros r0. rewrite Hf. by intros [= <-]. }
  destruct Hpd as [Hs' _ (Hp1 & _) _ Hmeta _]. split; [|done].
  destruct (begun_known _ _ _ _ _ _ Hbeg r Hf) as [Hp _].
  unfold get_active. rewrite HB. rewrite (newest_unreplaced (in_state Active) op r' s s' rB); try done.
  - intros Ho. destruct (newest_spec _ _ _ Hs HB) as (HrB & HaB%in_state_true & _).
    assert (find_by_operation op s = Some rB) by by apply find_by_operation_Some. congruence.
  - intros _. lia.
Qed.

(** A failed manifest that is begun again is returned without a parent, but its
    row keeps the parent of the failed attempt. *)
Theorem rebegun_row_keeps_parent data op fingerprint now s r :
  rows_ok s → find_by_operation op s = Some r → state (manifest r) = Failed → data_epoch (manifest r) = data →
  ∃ m s' r', begin_building data op fingerprint now s = Ok (m, s') ∧ find_by_operation op s' = Some r' ∧
    parent_data_epoch m = None ∧ parent_data_epoch (manifest r') = parent_data_epoch (manifest r) ∧
    state (manifest r') = Building ∧ rows_ok s'.
Proof.
  intros Hs Hf Hst Hd. destruct (begin_building data op fingerprint now s) as [[m s']|] eqn:Hb.
  - destruct (begin_building_begun _ _ _ _ _ _ _ Hs Hb) as (r' & [Hs' [Ho Hrep] _ _ _ [Hst' Hnf] Hact Hk _ _]).
    exists m, s', r'. split_and!; try done.
    + apply find_by_operation_Some; [done|]. split; [apply Hrep; by right|done].
    + unfold begin_building in Hb. rewrite Hf, decide_True in Hb by done. rewrite Hst in Hb. by injection Hb as <- _.
    + by destruct (Hk r Hf) as (_ & -> & _).
    + rewrite Hst'. unfold begin_building in Hb. rewrite Hf, decide_True in Hb by done. rewrite Hst in Hb. by injection Hb as <- _.
  - unfold begin_building in Hb. rewrite Hf, decide_True in Hb by done. by rewrite Hst in Hb.
Qed.
End manifests.

(** ** Examples *)

Definition commit (r : result (ProjectIndexManifest * @Store unit) RelationEpochs.StorageError) (s : @Store unit) : Store :=
  match r with Ok x => x.2 | Err _ => s end.

(** A published generation, and a candidate that inherits from it. *)
Definition demo_full : @Store unit :=
  commit (activate 1 0 "full" None 1 1 1 (empty_store RelationEpochs.empty_store)) (empty_store RelationEpochs.empty_store).
Definition demo_hot : @Store unit :=
  set_parent_data_epoch "hot" (Some 1) (commit (begin_building 2 "hot" None 2 demo_full) demo_full).

(** The candidate failed, and another operation published. *)
Definition demo_failed : @Store unit := mark_failed "hot" "stopped" demo_hot.
Definition demo_other : @Store unit := commit (activate 2 0 "other" None 3 3 3 demo_failed) demo_failed.

Ltac rows_ok_compute :=
  split; [vm_compute; repeat (constructor || reflexivity)|vm_compute; repeat (constructor || reflexivity)|
          apply (bool_decide_unpack _); vm_compute; exact I].

Lemma demo_rows_ok : rows_ok demo_hot ∧ rows_ok demo_failed ∧ rows_ok demo_other.
Proof. split_and!; rows_ok_compute. Qed.

Example demo_shows :
  data_epoch <$> get_active demo_hot = Some 1 ∧ data_epoch <$> get_active demo_other = Some 2.
Proof. split; vm_compute; reflexivity. Qed.

Theorem publication_becomes_visible_witness :
  ∃ m s' a, activate 2 0 "hot" None 3 3 3 demo_hot = Ok (m, s') ∧ get_active s' = Some a ∧ data_epoch a = 2 ∧
    parent_data_epoch a = Some 1.
Proof.
  destruct (activate 2 0 "hot" None 3 3 3 demo_hot) as [[m s']|] eqn:Ha; [|vm_compute in Ha; discriminate Ha].
  assert (Hk : ∀ r0, find_by_operation "hot" demo_hot = Some r0 → state (manifest r0) = Building ∧
    parent_data_epoch (manifest r0) = Some 1 ∧ publication r0 = 2).
  { intros r0 Hr0. vm_compute in Hr0. injection Hr0 as <-. done. }
  destruct (publication_becomes_visible 2 0 "hot" None 3 3 3 demo_hot m s' (proj1 demo_rows_ok) Ha) as
    (r & (_ & _ & _ & Hd & _) & Hga & _ & _ & _ & _ & _ & _ & Hpar).
  { intros r0 Hr0. destruct (Hk r0 Hr0) as [-> _]. discriminate. }
  destruct (find_by_operation "hot" demo_hot) as [r0|] eqn:Hr0; [|vm_compute in Hr0; discriminate Hr0].
  destruct (Hk r0 eq_refl) as (Hst & Hp & Hpub). destruct (Hpar r0 eq_refl) as [Hpr Hpa].
  assert (HB : publication <$> newest (in_state Active) demo_hot = Some 1) by (vm_compute; reflexivity).
  destruct (newest (in_state Active) demo_hot) as [rB|]; [|discriminate HB].
  injection HB as HB. rewrite HB, Hpr, Hpub in Hga.
  exists m, s', (manifest r). split_and!; [done|exact Hga|done|].
  rewrite (Hpa Hst) by (rewrite Hp; by eexists). done.
Defined.

Theorem retried_publication_is_shadowed_witness :
  ∃ m s', activate 2 0 "hot" None 4 4 4 demo_other = Ok (m, s') ∧ get_active s' = get_active demo_other ∧
    operation_id <$> get_active demo_other = Some "other" ∧ published_meta 2 0 s'.
Proof.
  destruct (find_by_operation "hot" demo_other) as [r|] eqn:Hr; [|vm_compute in Hr; discriminate Hr].
  destruct (newest (in_state Active) demo_other) as [rB|] eqn:HB; [|vm_compute in HB; discriminate HB].
  pose proof Hr as Hr'. vm_compute in Hr'. injection Hr' as Er. pose proof HB as HB'. vm_compute in HB'. injection HB' as EB.
  destruct (retried_publication_is_shadowed 2 0 "hot" None 4 4 4 demo_other demo_other r rB) as (m & s' & Ha & Hg & Hm);
    [apply demo_rows_ok|done|done|subst r; discriminate|by subst r|done|by subst r rB|].
  exists m, s'. split_and!; try done.
Defined.

Theorem rebegun_row_keeps_parent_witness :
  ∃ m s' r', begin_building 2 "hot" None 5 demo_failed = Ok (m, s') ∧ find_by_operation "hot" s' = Some r' ∧
    parent_data_epoch m = None ∧ parent_data_epoch (manifest r') = Some 1.
Proof.
  destruct (find_by_operation "hot" demo_failed) as [r|] eqn:Hr; [|vm_compute in Hr; discriminate Hr].
  pose proof Hr as Hr'. vm_compute in Hr'. injection Hr' as Er.
  destruct (rebegun_row_keeps_parent 2 "hot" None 5 demo_failed r) as (m & s' & r' & Hb & Hf & Hm & Hp & _);
    [apply demo_rows_ok|done|by subst r|by subst r|].
  exists m, s', r'. split_and!; try done. rewrite Hp. by subst r.
Defined.
End Manifests.
