(* ===== verification/GenerationTables.v ===== *)
(** * The data tables of the generations

    Models the tables files, entities, entity_detail_mappings and chunks of one
    project (crates/infra/cce-storage-metadb-sqlite/src/schema/tables/core_tables.rs
    and detail_tables.rs), the statements of the candidate and compaction code of
    crates/app/cce-orchestrator/src/index/storage_coordinator/ (candidate/mod.rs,
    candidate/prepare.rs, generation/sqlite_compaction.rs, generation/row_copy.rs,
    entities.rs) and the file statements of repo/file_repo.rs. *)

From S2P Require Import Prelude Str PointIds RelationEpochs.
From stdpp Require Import base numbers countable gmap fin_maps strings.
From Stdlib Require Import ZArith Lia.

#[local] Open Scope Z_scope.

Module GenerationTables.

(** ** Rows *)

Record FileData := {
  language : string;
  category : Z;
  last_modified : Z;
  created_at : Z;
  content_hash : option string;
  batch_id : Z
}.

(** A file is unique by its epoch and path. *)
Record FileRow := { file_id : Z; file_data : FileData }.

Record EntityData := {
  name : string;
  kind : string;
  signature : option string;
  span_start_row : option Z;
  span_end_row : option Z;
  span_start_column : option Z;
  span_end_column : option Z;
  span_start_byte : option Z;
  span_end_byte : option Z;
  scoped_name : option string;
  overload_discriminator : string;
  depth : option Z;
  metadata : option string;
  parameters_json : option string;
  return_type : option string;
  doc_comment : option string;
  modifiers_json : option string;
  entity_batch : Z
}.

Record EntityRow := {
  entity_id : Z;
  entity_file : Z;
  entity_epoch : Z;
  parent_id : option Z;
  entity_data : EntityData
}.

(** Mappings are unique by epoch and entity. *)
Record MappingData := {
  qdrant_point_ids : string;
  bm25_doc_ids : string;
  chunk_count : Z;
  mapping_created : Z;
  mapping_updated : Z
}.

(** Chunks are unique by epoch, file path and chunk identifier. [point] is the
    column [path], which marks the kind of point. *)
Record ChunkData := {
  content : string;
  start_line : Z;
  end_line : Z;
  entity_ids : string;
  entity_names : string;
  entity_kinds : string;
  group_title : string;
  chunk_type : string;
  test_status : Z;
  test_source : Z;
  chunk_created : Z;
  chunk_updated : Z;
  chunk_batch : Z;
  point : string;
  bm25_keywords : string;
  segment_id : string;
  truncated : Z
}.

(** The tables, with the last identifiers the database has given out. *)
Record Tables := {
  files : gmap (Z * string) FileRow;
  entities : list EntityRow;
  mappings : gmap (Z * Z) MappingData;
  chunks : gmap (Z * string * string) ChunkData;
  file_seq : Z;
  entity_seq : Z
}.

Definition empty_tables : Tables :=
  {| files := ∅; entities := []; mappings := ∅; chunks := ∅; file_seq := 0; entity_seq := 0 |}.

Definition with_files (f : gmap (Z * string) FileRow) (seq : Z) (t : Tables) : Tables :=
  {| files := f; entities := entities t; mappings := mappings t; chunks := chunks t;
     file_seq := seq; entity_seq := entity_seq t |}.
Definition with_entities (l : list EntityRow) (seq : Z) (t : Tables) : Tables :=
  {| files := files t; entities := l; mappings := mappings t; chunks := chunks t;
     file_seq := file_seq t; entity_seq := seq |}.
Definition with_mappings (m : gmap (Z * Z) MappingData) (t : Tables) : Tables :=
  {| files := files t; entities := entities t; mappings := m; chunks := chunks t;
     file_seq := file_seq t; entity_seq := entity_seq t |}.
Definition with_chunks (c : gmap (Z * string * string) ChunkData) (t : Tables) : Tables :=
  {| files := files t; entities := entities t; mappings := mappings t; chunks := c;
     file_seq := file_seq t; entity_seq := entity_seq t |}.

(** ** Foreign keys *)

Definition file_ids (t : Tables) : gset Z := list_to_set (map (λ x, file_id x.2) (map_to_list (files t))).

Definition set_parent (parent : option Z) (e : EntityRow) : EntityRow :=
  {| entity_id := entity_id e; entity_file := entity_file e; entity_epoch := entity_epoch e;
     parent_id := parent; entity_data := entity_data e |}.

(** [ON DELETE CASCADE] of entities on their file and of mappings on their
    entity, and [ON DELETE SET NULL] of the parent of an entity. *)
Definition cascade_entities (t : Tables) : Tables :=
  let ids : gset Z := list_to_set (map entity_id (entities t)) in
  with_mappings (filter (λ x, x.1.2 ∈ ids) (mappings t))
    (with_entities
       (map (λ e, match parent_id e with
                  | Some p => if bool_decide (p ∈ ids) then e else set_parent None e
                  | None => e
                  end) (entities t)) (entity_seq t) t).

Definition delete_entities (gone : EntityRow → bool) (t : Tables) : Tables :=
  cascade_entities (with_entities (filter (λ e, gone e = false) (entities t)) (entity_seq t) t).

Definition delete_files (gone : Z * string → bool) (t : Tables) : Tables :=
  let t1 := with_files (filter (λ x, gone x.1 = false) (files t)) (file_seq t) t in
  let left := file_ids t1 in
  delete_entities (λ e, bool_decide (entity_file e ∉ left)) t1.

Definition delete_mappings (gone : Z * Z → bool) (t : Tables) : Tables :=
  with_mappings (filter (λ x, gone x.1 = false) (mappings t)) t.

Definition delete_chunks (gone : Z * string * string → ChunkData → bool) (t : Tables) : Tables :=
  with_chunks (filter (λ x, gone x.1 x.2 = false) (chunks t)) t.

(** ** Whole generations *)

(** [clear_candidate_rows_tx], and the row part of [apply_generation_gc]. *)
Definition clear_candidate_rows (epoch : Z) (t : Tables) : Tables :=
  delete_files (λ k, k.1 =? epoch)
    (delete_entities (λ e, entity_epoch e =? epoch)
       (delete_chunks (λ k _, k.1.1 =? epoch)
          (delete_mappings (λ k, k.1 =? epoch) t))).

(** ** One file of a generation *)

Definition entities_of_file (epoch : Z) (path : string) (t : Tables) (e : EntityRow) : bool :=
  (entity_epoch e =? epoch) && bool_decide (Some (entity_file e) = file_id <$> files t !! (epoch, path)).

(** [clear_candidate_file_rows_tx]: the chunks and entities; the file row stays. *)
Definition clear_candidate_file_rows (epoch : Z) (path : string) (t : Tables) : Tables :=
  let t1 := delete_chunks (λ k _, bool_decide (k.1 = (epoch, path))) t in
  delete_entities (entities_of_file epoch path t1) t1.

(** The chunk rows of one kind of a file. *)
Definition clear_point_chunks (epoch : Z) (path kind : string) (t : Tables) : Tables :=
  delete_chunks (λ k c, bool_decide (k.1 = (epoch, path)) && bool_decide (point c = kind)) t.

(** [INSERT ... ON CONFLICT(project_id, epoch, path) DO UPDATE]. *)
Definition upsert_file (epoch : Z) (path : string) (inserted : FileData) (update : FileData → FileData) (t : Tables) :
    Tables :=
  match files t !! (epoch, path) with
  | Some r => with_files (<[(epoch, path) := {| file_id := file_id r; file_data := update (file_data r) |}]> (files t))
                (file_seq t) t
  | None =>
      let id := file_seq t + 1 in
      with_files (<[(epoch, path) := {| file_id := id; file_data := inserted |}]> (files t)) id t
  end.

(** [FileRepository::insert_hash_for_epoch]; category and batch take the defaults
    of their columns. *)
Definition insert_hash_for_epoch (epoch : Z) (path hash : string) (now : Z) : Tables → Tables :=
  upsert_file epoch path
    {| language := "unknown"; category := 4; last_modified := now; created_at := now;
       content_hash := Some hash; batch_id := 0 |}
    (λ d, {| language := language d; category := category d; last_modified := now;
             created_at := created_at d; content_hash := Some hash; batch_id := batch_id d |}).

(** The file row of [ensure_file_records]. *)
Definition ensure_file_record (epoch batch : Z) (path lang : string) (cat now : Z) : Tables → Tables :=
  upsert_file epoch path
    {| language := lang; category := cat; last_modified := now; created_at := now;
       content_hash := None; batch_id := batch |}
    (λ d, {| language := lang; category := cat; last_modified := now;
             created_at := created_at d; content_hash := content_hash d; batch_id := batch |}).

(** The file row of [store_parsed_files], which keeps the modification time. *)
Definition store_file_record (epoch batch : Z) (path lang : string) (cat now : Z) : Tables → Tables :=
  upsert_file epoch path
    {| language := lang; category := cat; last_modified := now; created_at := now;
       content_hash := None; batch_id := batch |}
    (λ d, {| language := lang; category := cat; last_modified := last_modified d;
             created_at := created_at d; content_hash := content_hash d; batch_id := batch |}).

Definition delete_by_path_at_epoch (epoch : Z) (path : string) : Tables → Tables :=
  delete_files (λ k, bool_decide (k = (epoch, path))).

(** ** Inserting entities *)

(** The unique key of the entities; a null scoped name is distinct from any other. *)
Definition same_symbol (epoch file : Z) (d : EntityData) (e : EntityRow) : bool :=
  (entity_epoch e =? epoch) && (entity_file e =? file) &&
  match scoped_name d, scoped_name (entity_data e) with
  | Some n, Some n' => bool_decide (n = n')
  | _, _ => false
  end && bool_decide (kind d = kind (entity_data e)) &&
  bool_decide (overload_discriminator d = overload_discriminator (entity_data e)).

Definition insert_entity (epoch file : Z) (d : EntityData) (t : Tables) : result (Z * Tables) RelationEpochs.StorageError :=
  if existsb (same_symbol epoch file d) (entities t) then Err RelationEpochs.Insert
  else
    let id := entity_seq t + 1 in
    Ok (id, with_entities (entities t ++ [{| entity_id := id; entity_file := file; entity_epoch := epoch;
                                              parent_id := None; entity_data := d |}]) id t).

Definition update_parent (id : Z) (parent : Z) (t : Tables) : Tables :=
  with_entities (map (λ e, if entity_id e =? id then set_parent (Some parent) e else e) (entities t)) (entity_seq t) t.

(** What the parser hands over for one entity: its source identifier, the one of
    its parent, and the columns. *)
Record ParsedEntity := { source_id : Z; source_parent : option Z; parsed_data : EntityData }.

Fixpoint insert_batch (epoch file : Z) (l : list ParsedEntity) (t : Tables) :
    result (list (ParsedEntity * Z) * Tables) RelationEpochs.StorageError :=
  match l with
  | [] => Ok ([], t)
  | p :: l =>
      match insert_entity epoch file (parsed_data p) t with
      | Err e => Err e
      | Ok (id, t1) =>
          match insert_batch epoch file l t1 with
          | Err e => Err e
          | Ok (ids, t2) => Ok ((p, id) :: ids, t2)
          end
      end
  end.

(** The parents are resolved among the entities just inserted. *)
Definition link_parents (ids : list (ParsedEntity * Z)) (t : Tables) : Tables :=
  let source_to_db : gmap Z Z := list_to_map (rev (map (λ x, (source_id x.1, x.2)) ids)) in
  foldl (λ t x,
    match source_parent x.1 ≫= (source_to_db !!.) with
    | Some parent => update_parent x.2 parent t
    | None => t
    end) t ids.

(** One file of [store_parsed_files]: its row, and its entities anew. *)
Definition store_parsed_file (epoch batch : Z) (path lang : string) (cat now : Z) (l : list ParsedEntity) (t : Tables) :
    result Tables RelationEpochs.StorageError :=
  let t1 := store_file_record epoch batch path lang cat now t in
  match file_id <$> files t1 !! (epoch, path) with
  | None => Err RelationEpochs.Query
  | Some id =>
      match insert_batch epoch id l (delete_entities (λ e, (entity_file e =? id) && (entity_epoch e =? epoch)) t1) with
      | Err e => Err e
      | Ok (ids, t2) => Ok (link_parents ids t2)
      end
  end.

(** ** Copying between generations *)

(** The columns a copied entity keeps: all but the overload discriminator, which
    the insert leaves to its default. *)
Definition copied_entity (d : EntityData) : EntityData :=
  {| name := name d; kind := kind d; signature := signature d; span_start_row := span_start_row d;
     span_end_row := span_end_row d; span_start_column := span_start_column d;
     span_end_column := span_end_column d; span_start_byte := span_start_byte d;
     span_end_byte := span_end_byte d; scoped_name := scoped_name d; overload_discriminator := "";
     depth := depth d; metadata := metadata d; parameters_json := parameters_json d;
     return_type := return_type d; doc_comment := doc_comment d; modifiers_json := modifiers_json d;
     entity_batch := entity_batch d |}.

(** [insert_entity_copies_tx]: first loop. *)
Fixpoint insert_copies (target : Z) (target_file : Z → option Z) (l : list EntityRow) (ids : gmap Z Z)
    (updates : list (Z * option Z)) (t : Tables) :
    result (gmap Z Z * list (Z * option Z) * Tables) RelationEpochs.StorageError :=
  match l with
  | [] => Ok (ids, updates, t)
  | e :: l =>
      match target_file (entity_file e) with
      | None => insert_copies target target_file l ids updates t
      | Some f =>
          match insert_entity target f (copied_entity (entity_data e)) t with
          | Err err => Err err
          | Ok (id, t1) =>
              insert_copies target target_file l (<[entity_id e := id]> ids) (updates ++ [(id, parent_id e)]) t1
          end
      end
  end.

(** Second loop: parents that were copied are linked. *)
Definition link_copies (ids : gmap Z Z) (updates : list (Z * option Z)) (t : Tables) : Tables :=
  foldl (λ t x,
    match x.2 ≫= (ids !!.) with Some parent => update_parent x.1 parent t | None => t end) t updates.

Definition insert_entity_copies (target : Z) (target_file : Z → option Z) (l : list EntityRow) (t : Tables) :
    result (gmap Z Z * Tables) RelationEpochs.StorageError :=
  match insert_copies target target_file l ∅ [] t with
  | Err e => Err e
  | Ok (ids, updates, t1) => Ok (ids, link_copies ids updates t1)
  end.

(** The copied files, in the order they are read, with new identifiers. *)
Fixpoint insert_file_copies (target : Z) (l : list (string * FileRow)) (ids : gmap Z Z) (t : Tables) :
    result (gmap Z Z * Tables) RelationEpochs.StorageError :=
  match l with
  | [] => Ok (ids, t)
  | (path, r) :: l =>
      match files t !! (target, path) with
      | Some _ => Err RelationEpochs.Insert
      | None =>
          let id := file_seq t + 1 in
          insert_file_copies target l (<[file_id r := id]> ids)
            (with_files (<[(target, path) := {| file_id := id; file_data := file_data r |}]> (files t)) id t)
      end
  end.

(** The columns a copied chunk keeps; the others take their defaults. *)
Definition copied_chunk (c : ChunkData) : ChunkData :=
  {| content := content c; start_line := start_line c; end_line := end_line c; entity_ids := entity_ids c;
     entity_names := entity_names c; entity_kinds := "[]"; group_title := ""; chunk_type := chunk_type c;
     test_status := 0; test_source := 0; chunk_created := chunk_created c; chunk_updated := chunk_updated c;
     chunk_batch := chunk_batch c; point := "emb"; bm25_keywords := ""; segment_id := "";
     truncated := truncated c |}.

Fixpoint insert_chunk_copies (target : Z) (l : list (string * string * ChunkData)) (t : Tables) :
    result Tables RelationEpochs.StorageError :=
  match l with
  | [] => Ok t
  | (path, id, c) :: l =>
      match chunks t !! (target, path, id) with
      | Some _ => Err RelationEpochs.Insert
      | None => insert_chunk_copies target l (with_chunks (<[(target, path, id) := copied_chunk c]> (chunks t)) t)
      end
  end.

Section copies.
Context (json : PointIds.JsonText).

Definition copied_mapping (source target : Z) (m : MappingData) : MappingData :=
  {| qdrant_point_ids := PointIds.replace_epoch_in_id_list json (qdrant_point_ids m) source target;
     bm25_doc_ids := PointIds.replace_epoch_in_id_list json (bm25_doc_ids m) source target;
     chunk_count := chunk_count m; mapping_created := mapping_created m; mapping_updated := mapping_updated m |}.

Fixpoint insert_mapping_copies (source target : Z) (ids : gmap Z Z) (l : list (Z * MappingData)) (t : Tables) :
    result Tables RelationEpochs.StorageError :=
  match l with
  | [] => Ok t
  | (entity, m) :: l =>
      match ids !! entity with
      | None => insert_mapping_copies source target ids l t
      | Some id =>
          match mappings t !! (target, id) with
          | Some _ => Err RelationEpochs.Insert
          | None =>
              insert_mapping_copies source target ids l
                (with_mappings (<[(target, id) := copied_mapping source target m]> (mappings t)) t)
          end
      end
  end.

(** The rows of a generation, as a query reads them. *)
Definition files_of (epoch : Z) (t : Tables) : list (string * FileRow) :=
  map (λ x, (x.1.2, x.2)) (map_to_list (filter (λ x, x.1.1 = epoch) (files t))).
Definition chunks_of (epoch : Z) (t : Tables) : list (string * string * ChunkData) :=
  map (λ x, (x.1.1.2, x.1.2, x.2)) (map_to_list (filter (λ x, x.1.1.1 = epoch) (chunks t))).
Definition mappings_of (epoch : Z) (t : Tables) : list (Z * MappingData) :=
  map (λ x, (x.1.2, x.2)) (map_to_list (filter (λ x, x.1.1 = epoch) (mappings t))).
Definition entities_of (epoch : Z) (t : Tables) : list EntityRow := filter (λ e, entity_epoch e = epoch) (entities t).

(** [clear_target_rows_for_paths_tx]: children before parents. *)
Definition clear_target_rows_for_paths (target : Z) (paths : gset string) (t : Tables) : Tables :=
  let of_paths := λ e : EntityRow,
    (entity_epoch e =? target) &&
    existsb (λ x, (file_id x.2 =? entity_file e) && bool_decide (x.1.1 = target ∧ x.1.2 ∈ paths)) (map_to_list (files t)) in
  let gone : gset Z := list_to_set (map entity_id (filter (λ e, of_paths e = true) (entities t))) in
  delete_files (λ k, bool_decide (k.1 = target ∧ k.2 ∈ paths))
    (delete_entities of_paths
       (delete_chunks (λ k _, bool_decide (k.1.1 = target ∧ k.1.2 ∈ paths))
          (delete_mappings (λ k, bool_decide (k.1 = target ∧ k.2 ∈ gone)) t))).

(** [materialize_sqlite_generation]: everything of the source that is not excluded
    is copied into the target, whose residue of those files is dropped first. *)
Definition materialize_sqlite_generation (source target : Z) (excluded : gset string) (t : Tables) :
    result Tables RelationEpochs.StorageError :=
  let sources := filter (λ x, x.1 ∉ excluded) (files_of source t) in
  let t1 := clear_target_rows_for_paths target (list_to_set (map fst sources)) t in
  match insert_file_copies target (filter (λ x, x.1 ∉ excluded) (files_of source t1)) ∅ t1 with
  | Err e => Err e
  | Ok (fids, t2) =>
      match insert_entity_copies target (fids !!.) (entities_of source t2) t2 with
      | Err e => Err e
      | Ok (eids, t3) =>
          match insert_mapping_copies source target eids (mappings_of source t3) t3 with
          | Err e => Err e
          | Ok t4 => insert_chunk_copies target (filter (λ x, x.1.1 ∉ excluded) (chunks_of source t4)) t4
          end
      end
  end.
End copies.

(** [copy_file_rows_between_epochs]: one file's row and entities, unless the target
    has the file; the number of copied entities is returned. *)
Definition copy_file_rows_between_epochs (source target : Z) (path : string) (t : Tables) :
    result (Z * Tables) RelationEpochs.StorageError :=
  match files t !! (target, path), files t !! (source, path) with
  | Some _, _ | None, None => Ok (0, t)
  | None, Some r =>
      let id := file_seq t + 1 in
      let t1 := with_files (<[(target, path) := {| file_id := id; file_data := file_data r |}]> (files t)) id t in
      match insert_entity_copies target (λ _, Some id)
              (filter (λ e, entity_epoch e = source ∧ entity_file e = file_id r) (entities t1)) t1 with
      | Err e => Err e
      | Ok (ids, t2) => Ok (Z.of_nat (size ids), t2)
      end
  end.

(** ** What the statements leave alone *)

Lemma delete_entities_keeps gone t :
  files (delete_entities gone t) = files t ∧ chunks (delete_entities gone t) = chunks t.
Proof. done. Qed.

Lemma delete_files_files gone t :
  files (delete_files gone t) = filter (λ x, gone x.1 = false) (files t) ∧ chunks (delete_files gone t) = chunks t.
Proof. done. Qed.

Lemma clear_candidate_rows_files epoch t k :
  files (clear_candidate_rows epoch t) !! k = if k.1 =? epoch then None else files t !! k.
Proof.
  unfold clear_candidate_rows. rewrite (proj1 (delete_files_files _ _)). cbn.
  rewrite map_lookup_filter. destruct (files t !! k) as [r|]; cbn; [|by destruct (k.1 =? epoch)].
  destruct (k.1 =? epoch); [by rewrite option_guard_False|by rewrite option_guard_True].
Qed.

Lemma clear_candidate_rows_chunks epoch t k :
  chunks (clear_candidate_rows epoch t) !! k = if k.1.1 =? epoch then None else chunks t !! k.
Proof.
  unfold clear_candidate_rows. rewrite (proj2 (delete_files_files _ _)). cbn.
  rewrite map_lookup_filter. destruct (chunks t !! k) as [r|]; cbn; [|by destruct (k.1.1 =? epoch)].
  destruct (k.1.1 =? epoch); [by rewrite option_guard_False|by rewrite option_guard_True].
Qed.

Lemma upsert_file_files epoch path d u t k :
  k ≠ (epoch, path) → files (upsert_file epoch path d u t) !! k = files t !! k.
Proof. intros Hk. unfold upsert_file. destruct (files t !! (epoch, path)); cbn; by rewrite lookup_insert_ne. Qed.

Lemma upsert_file_data epoch path d u t :
  file_data <$> files (upsert_file epoch path d u t) !! (epoch, path) =
    Some match files t !! (epoch, path) with Some r => u (file_data r) | None => d end.
Proof. unfold upsert_file. destruct (files t !! (epoch, path)); cbn; by rewrite lookup_insert_eq. Qed.

Lemma upsert_file_chunks epoch path d u t : chunks (upsert_file epoch path d u t) = chunks t.
Proof. unfold upsert_file. by destruct (files t !! (epoch, path)). Qed.

Lemma insert_entity_keeps epoch file d t id t' :
  insert_entity epoch file d t = Ok (id, t') →
  files t' = files t ∧ chunks t' = chunks t ∧ mappings t' = mappings t ∧
  entities t' = entities t ++ [{| entity_id := id; entity_file := file; entity_epoch := epoch; parent_id := None; entity_data := d |}].
Proof. unfold insert_entity. destruct (existsb _ _); [done|]. by intros [= <- <-]. Qed.

Lemma fold_keeps {A} (f : Tables → A → Tables) l t :
  (∀ t x, files (f t x) = files t ∧ chunks (f t x) = chunks t ∧ mappings (f t x) = mappings t) →
  files (foldl f t l) = files t ∧ chunks (foldl f t l) = chunks t ∧ mappings (foldl f t l) = mappings t.
Proof.
  intros Hf. revert t. induction l as [|x l IH]; intros t; cbn; [done|].
  destruct (IH (f t x)) as (-> & -> & ->). apply Hf.
Qed.

Lemma link_copies_keeps ids l t :
  files (link_copies ids l t) = files t ∧ chunks (link_copies ids l t) = chunks t ∧
  mappings (link_copies ids l t) = mappings t.
Proof. apply fold_keeps. intros t' x. by destruct (x.2 ≫= (ids !!.)). Qed.

Lemma link_parents_keeps l t :
  files (link_parents l t) = files t ∧ chunks (link_parents l t) = chunks t ∧ mappings (link_parents l t) = mappings t.
Proof. apply fold_keeps. intros t' x. by destruct (source_parent x.1 ≫= _). Qed.

Lemma insert_copies_keeps target f l ids us t ids' us' t' :
  insert_copies target f l ids us t = Ok (ids', us', t') →
  files t' = files t ∧ chunks t' = chunks t ∧ mappings t' = mappings t.
Proof.
  revert ids us t. induction l as [|e l IH]; intros ids us t; cbn; [by intros [= _ _ <-]|].
  destruct (f (entity_file e)); [|apply IH].
  destruct (insert_entity _ _ _ _) as [[id t1]|] eqn:Hi; [|done].
  destruct (insert_entity_keeps _ _ _ _ _ _ Hi) as (<- & <- & <- & _). apply IH.
Qed.

Lemma insert_entity_copies_keeps target f l t ids t' :
  insert_entity_copies target f l t = Ok (ids, t') →
  files t' = files t ∧ chunks t' = chunks t ∧ mappings t' = mappings t.
Proof.
  unfold insert_entity_copies. destruct (insert_copies _ _ _ _ _ _) as [[[ids' us] t1]|] eqn:Hi; [|done].
  intros [= <- <-]. destruct (insert_copies_keeps _ _ _ _ _ _ _ _ _ Hi) as (<- & <- & <-). apply link_copies_keeps.
Qed.

Lemma insert_batch_keeps epoch file l t ids t' :
  insert_batch epoch file l t = Ok (ids, t') → files t' = files t ∧ chunks t' = chunks t ∧ mappings t' = mappings t.
Proof.
  revert t ids. induction l as [|p l IH]; intros t ids; cbn; [by intros [= _ <-]|].
  destruct (insert_entity _ _ _ _) as [[id t1]|] eqn:Hi; [|done].
  destruct (insert_entity_keeps _ _ _ _ _ _ Hi) as (<- & <- & <- & _).
  destruct (insert_batch _ _ _ _) as [[ids' t2]|] eqn:Hb; [|done]. intros [= _ <-]. by eapply IH.
Qed.

Lemma insert_file_copies_spec target l ids t ids' t' :
  NoDup l.*1 → insert_file_copies target l ids t = Ok (ids', t') →
  chunks t' = chunks t ∧ entities t' = entities t ∧ mappings t' = mappings t ∧
  (∀ p r, (p, r) ∈ l → file_data <$> files t' !! (target, p) = Some (file_data r)) ∧
  (∀ k, (k.1 = target → k.2 ∉ l.*1) → files t' !! k = files t !! k) ∧
  (∀ i, is_Some (ids' !! i) ↔ is_Some (ids !! i) ∨ i ∈ map (λ x, file_id x.2) l).
Proof.
  revert ids t. induction l as [|[p r] l IH]; intros ids t Hnd; cbn.
  - intros [= <- <-]. split_and!; try done; [by intros p r ?%not_elem_of_nil|].
    intros i. set_solver.
  - destruct (files t !! (target, p)) as [?|] eqn:Hp; [done|]. apply NoDup_cons in Hnd as [Hnp Hnd].
    intros (Hc & He & Hm & Hin & Hout & Hids)%IH; [|done]. cbn in Hc, He, Hm. split_and!; [done..| | |].
    + intros p' r' [[= -> ->]|Hl]%elem_of_cons; [|by apply Hin].
      rewrite Hout by done. cbn. by rewrite lookup_insert_eq.
    + intros k Hk. rewrite Hout by set_solver. cbn. rewrite lookup_insert_ne; [done|]. intros <-. by apply (Hk eq_refl); left.
    + intros i. rewrite Hids. destruct (decide (i = file_id r)) as [->|].
      * rewrite lookup_insert_eq. split; intros _; [|left; by eexists]. right. left.
      * rewrite lookup_insert_ne by done. rewrite elem_of_cons. tauto.
Qed.

Lemma insert_mapping_copies_keeps json source target ids l t t' :
  insert_mapping_copies json source target ids l t = Ok t' →
  files t' = files t ∧ chunks t' = chunks t ∧ entities t' = entities t.
Proof.
  revert t. induction l as [|[e m] l IH]; intros t; cbn; [by intros [= <-]|].
  destruct (ids !! e); [|apply IH]. destruct (mappings t !! _); [done|]. intros H. apply IH in H. done.
Qed.

Lemma insert_chunk_copies_spec target l t t' :
  NoDup l.*1 → insert_chunk_copies target l t = Ok t' →
  files t' = files t ∧ entities t' = entities t ∧ mappings t' = mappings t ∧
  (∀ p i c, (p, i, c) ∈ l → chunks t' !! (target, p, i) = Some (copied_chunk c)) ∧
  (∀ k, (k.1.1 = target → (k.1.2, k.2) ∉ l.*1) → chunks t' !! k = chunks t !! k).
Proof.
  revert t. induction l as [|[[p i] c] l IH]; intros t Hnd; cbn.
  - intros [= <-]. split_and!; try done. by intros p i c ?%not_elem_of_nil.
  - destruct (chunks t !! (target, p, i)) as [?|] eqn:Hp; [done|]. apply NoDup_cons in Hnd as [Hnp Hnd].
    intros (Hf & He & Hm & Hin & Hout)%IH; [|done]. cbn in Hf, He, Hm. split_and!; [done..| |].
    + intros p' i' c' [[= -> -> ->]|Hl]%elem_of_cons; [|by apply Hin].
      rewrite Hout by done. cbn. by rewrite lookup_insert_eq.
    + intros k Hk. rewrite Hout by set_solver. cbn. rewrite lookup_insert_ne; [done|]. intros <-. by apply (Hk eq_refl); left.
Qed.

Lemma NoDup_fst_filter {A B} (P : A * B → Prop) `{∀ x, Decision (P x)} (l : list (A * B)) :
  NoDup l.*1 → NoDup (filter P l).*1.
Proof. intros Hnd. eapply sublist_NoDup; [exact Hnd|]. apply fmap_sublist, sublist_filter. Qed.

Lemma NoDup_map_keys {K A J} `{Countable K} (m : gmap K A) (f : K → J) (g : K * A → J * A) :
  (∀ x, (g x).1 = f x.1) → (∀ k k', is_Some (m !! k) → is_Some (m !! k') → f k = f k' → k = k') →
  NoDup (map g (map_to_list m)).*1.
Proof.
  intros Hg Hinj. change (map g (map_to_list m)) with (g <$> map_to_list m). rewrite <- list_fmap_compose.
  apply NoDup_fmap_2_strong; [|apply NoDup_map_to_list].
  intros [k a] [k' a'] Hx%elem_of_map_to_list Hy%elem_of_map_to_list. cbn. rewrite !Hg. cbn. intros Hf.
  assert (k = k') as -> by (apply Hinj; [by eexists..|done]). congruence.
Qed.

Lemma NoDup_files_of epoch t : NoDup (files_of epoch t).*1.
Proof.
  unfold files_of. apply (NoDup_map_keys _ snd); [done|]. intros [e p] [e' p'].
  intros [? [_ He]%map_lookup_filter_Some] [? [_ He']%map_lookup_filter_Some]. cbn in *. congruence.
Qed.

Lemma file_of_epoch epoch t p r : (p, r) ∈ files_of epoch t ↔ files t !! (epoch, p) = Some r.
Proof.
  unfold files_of. rewrite list_elem_of_In, in_map_iff. setoid_rewrite <- list_elem_of_In. split.
  - intros ([[e p'] r'] & [= <- <-] & [Hl He]%elem_of_map_to_list%map_lookup_filter_Some). cbn in *. by subst e.
  - intros Hl. exists (epoch, p, r). split; [done|]. by apply elem_of_map_to_list, map_lookup_filter_Some.
Qed.

Lemma NoDup_chunks_of epoch t : NoDup (chunks_of epoch t).*1.
Proof.
  unfold chunks_of. apply (NoDup_map_keys _ (λ k, (k.1.2, k.2))); [done|]. intros [[e p] i] [[e' p'] i'].
  intros [? [_ He]%map_lookup_filter_Some] [? [_ He']%map_lookup_filter_Some]. cbn in *. congruence.
Qed.

Lemma elem_of_chunks_of epoch t p i c : (p, i, c) ∈ chunks_of epoch t ↔ chunks t !! (epoch, p, i) = Some c.
Proof.
  unfold chunks_of. rewrite list_elem_of_In, in_map_iff. setoid_rewrite <- list_elem_of_In. split.
  - intros ([[[e p'] i'] c'] & [= <- <- <-] & [Hl He]%elem_of_map_to_list%map_lookup_filter_Some). cbn in *. by subst e.
  - intros Hl. exists (epoch, p, i, c). split; [done|]. by apply elem_of_map_to_list, map_lookup_filter_Some.
Qed.

Lemma clear_target_files target paths t k :
  files (clear_target_rows_for_paths target paths t) !! k =
    if decide (k.1 = target ∧ k.2 ∈ paths) then None else files t !! k.
Proof.
  unfold clear_target_rows_for_paths. rewrite (proj1 (delete_files_files _ _)). cbn. rewrite map_lookup_filter.
  destruct (files t !! k) as [r|]; cbn; [|by destruct (decide _)].
  destruct (decide (k.1 = target ∧ k.2 ∈ paths)) as [Hd|Hd].
  - by rewrite bool_decide_eq_true_2 by done. - by rewrite bool_decide_eq_false_2 by done.
Qed.

Lemma clear_target_chunks target paths t k :
  chunks (clear_target_rows_for_paths target paths t) !! k =
    if decide (k.1.1 = target ∧ k.1.2 ∈ paths) then None else chunks t !! k.
Proof.
  unfold clear_target_rows_for_paths. rewrite (proj2 (delete_files_files _ _)). cbn. rewrite map_lookup_filter.
  destruct (chunks t !! k) as [r|]; cbn; [|by destruct (decide _)].
  destruct (decide (k.1.1 = target ∧ k.1.2 ∈ paths)) as [Hd|Hd].
  - by rewrite bool_decide_eq_true_2 by done. - by rewrite bool_decide_eq_false_2 by done.
Qed.

(** ** Materialising a generation *)

(** The materialisation, stage by stage. *)
Lemma materialize_Ok json source target excluded t t' :
  materialize_sqlite_generation json source target excluded t = Ok t' →
  let t1 := clear_target_rows_for_paths target
              (list_to_set (map fst (filter (λ x, x.1 ∉ excluded) (files_of source t)))) t in
  ∃ fids t2 eids t3 t4,
    insert_file_copies target (filter (λ x, x.1 ∉ excluded) (files_of source t1)) ∅ t1 = Ok (fids, t2) ∧
    insert_entity_copies target (fids !!.) (entities_of source t2) t2 = Ok (eids, t3) ∧
    insert_mapping_copies json source target eids (mappings_of source t3) t3 = Ok t4 ∧
    insert_chunk_copies target (filter (λ x, x.1.1 ∉ excluded) (chunks_of source t4)) t4 = Ok t'.
Proof.
  unfold materialize_sqlite_generation. cbv zeta. intros Hm.
  destruct (insert_file_copies _ _ _ _) as [[fids t2]|] eqn:Hf; [|done].
  destruct (insert_entity_copies _ _ _ _) as [[eids t3]|] eqn:He; [|done].
  destruct (insert_mapping_copies _ _ _ _ _ _) as [t4|] eqn:Hmp; [|done].
  by exists fids, t2, eids, t3, t4.
Qed.

Lemma sources_spec source (excluded : gset string) t p :
  p ∈ (list_to_set (map fst (filter (λ x, x.1 ∉ excluded) (files_of source t))) : gset string) ↔
  p ∉ excluded ∧ is_Some (files t !! (source, p)).
Proof.
  rewrite elem_of_list_to_set, list_elem_of_In, in_map_iff. setoid_rewrite <- list_elem_of_In. split.
  - intros ([p' r] & <- & [Hp Hr%file_of_epoch]%list_elem_of_filter). split; [done|]. by eexists.
  - intros [Hp [r Hr]]. exists (p, r). split; [done|]. apply list_elem_of_filter. split; [done|]. by apply file_of_epoch.
Qed.

(** Compaction copies the file rows that are not excluded over those of the
    target, and leaves every other row and generation as it is. *)
Lemma materialize_files json source target excluded t t' :
  source ≠ target → materialize_sqlite_generation json source target excluded t = Ok t' →
  (∀ p, file_data <$> files t' !! (target, p) =
     file_data <$> (if decide (p ∉ excluded ∧ is_Some (files t !! (source, p)))
                    then files t !! (source, p) else files t !! (target, p))) ∧
  (∀ k, k.1 ≠ target → files t' !! k = files t !! k).
Proof.
  intros Hne Hm. destruct (materialize_Ok _ _ _ _ _ _ Hm) as (fids & t2 & eids & t3 & t4 & Hf & He & Hmp & Hc).
  set (paths := list_to_set _) in Hf. set (t1 := clear_target_rows_for_paths target paths t) in Hf.
  destruct (insert_file_copies_spec _ _ _ _ _ _ (NoDup_fst_filter _ _ (NoDup_files_of source t1)) Hf) as (_ & _ & _ & Hin & Hout & _).
  destruct (insert_entity_copies_keeps _ _ _ _ _ _ He) as (Hf3 & _).
  destruct (insert_mapping_copies_keeps _ _ _ _ _ _ _ Hmp) as (Hf4 & _).
  destruct (insert_chunk_copies_spec _ _ _ _ (NoDup_fst_filter _ _ (NoDup_chunks_of source t4)) Hc) as (Hf5 & _).
  rewrite Hf5, Hf4, Hf3. assert (Hsrc : ∀ p, files t1 !! (source, p) = files t !! (source, p)).
  { intros p. unfold t1. rewrite clear_target_files, decide_False; [done|]. cbn. tauto. }
  split.
  - intros p. destruct (decide _) as [[Hp [r Hr]]|Hn].
    + rewrite Hr. apply Hin, list_elem_of_filter. split; [done|]. apply file_of_epoch. by rewrite Hsrc.
    + rewrite Hout.
      * unfold t1. rewrite clear_target_files, decide_False; [done|]. cbn. unfold paths. rewrite sources_spec. tauto.
      * intros _ ([p' r] & Heq & [Hp Hr%file_of_epoch]%list_elem_of_filter)%list_elem_of_fmap. cbn in *. subst p'.
        rewrite Hsrc in Hr. apply Hn. split; [done|]. by eexists.
  - intros k Hk. rewrite Hout by done. unfold t1. by rewrite clear_target_files, decide_False by tauto.
Qed.

(** The chunks that are not excluded are copied with the columns the copy names;
    the others of them are left to their defaults. *)
Theorem compacted_chunks_lose_columns json source target excluded t t' p i c :
  source ≠ target → materialize_sqlite_generation json source target excluded t = Ok t' →
  p ∉ excluded → chunks t !! (source, p, i) = Some c →
  ∃ c', chunks t' !! (target, p, i) = Some c' ∧
    content c' = content c ∧ start_line c' = start_line c ∧ end_line c' = end_line c ∧
    chunk_type c' = chunk_type c ∧ entity_ids c' = entity_ids c ∧
    point c' = "emb" ∧ bm25_keywords c' = "" ∧ entity_kinds c' = "[]" ∧ group_title c' = "" ∧
    segment_id c' = "" ∧ test_status c' = 0 ∧ test_source c' = 0.
Proof.
  intros Hne Hm Hp Hch. destruct (materialize_Ok _ _ _ _ _ _ Hm) as (fids & t2 & eids & t3 & t4 & Hf & He & Hmp & Hc).
  set (paths := list_to_set _) in Hf. set (t1 := clear_target_rows_for_paths target paths t) in Hf.
  destruct (insert_file_copies_spec _ _ _ _ _ _ (NoDup_fst_filter _ _ (NoDup_files_of source t1)) Hf) as (Hc2 & _).
  destruct (insert_entity_copies_keeps _ _ _ _ _ _ He) as (_ & Hc3 & _).
  destruct (insert_mapping_copies_keeps _ _ _ _ _ _ _ Hmp) as (_ & Hc4 & _).
  destruct (insert_chunk_copies_spec _ _ _ _ (NoDup_fst_filter _ _ (NoDup_chunks_of source t4)) Hc) as (_ & _ & _ & Hin & _).
  exists (copied_chunk c). split; [|done]. apply Hin, list_elem_of_filter. split; [done|]. apply elem_of_chunks_of.
  rewrite Hc4, Hc3, Hc2. unfold t1. rewrite clear_target_chunks, decide_False; [done|]. cbn. tauto.
Qed.

(** ** Overloads *)

Lemma insert_copies_conflict target f l ids us t e file :
  e ∈ l → f (entity_file e) = Some file →
  existsb (same_symbol target file (copied_entity (entity_data e))) (entities t) = true →
  ∃ err, insert_copies target f l ids us t = Err err.
Proof.
  intros He Hf. revert ids us t. induction l as [|x l IH]; intros ids us t Hex; [by apply not_elem_of_nil in He|]. cbn.
  apply elem_of_cons in He as [<-|He].
  - rewrite Hf. unfold insert_entity. rewrite Hex. by eexists.
  - destruct (f (entity_file x)) as [fx|]; [|by apply IH].
    destruct (insert_entity _ _ _ _) as [[id t1]|err] eqn:Hi; [|by eexists]. apply (IH He).
    destruct (insert_entity_keeps _ _ _ _ _ _ Hi) as (_ & _ & _ & ->). rewrite existsb_app, Hex. done.
Qed.

(** Two symbols that only their discriminators tell apart. *)
Definition overload (e1 e2 : EntityRow) : Prop :=
  entity_file e1 = entity_file e2 ∧ kind (entity_data e1) = kind (entity_data e2) ∧
  scoped_name (entity_data e1) = scoped_name (entity_data e2) ∧ is_Some (scoped_name (entity_data e1)).

Lemma same_symbol_copies target file id e1 e2 :
  overload e1 e2 →
  same_symbol target file (copied_entity (entity_data e2))
    {| entity_id := id; entity_file := file; entity_epoch := target; parent_id := None;
       entity_data := copied_entity (entity_data e1) |} = true.
Proof.
  intros (_ & Hk & Hs & [n Hn]). unfold same_symbol. cbn. rewrite !Z.eqb_refl, Hk, <- Hs, Hn.
  by rewrite !bool_decide_eq_true_2.
Qed.

Lemma insert_copies_overloads target f l ids us t e1 e2 file :
  e1 ∈ l → e2 ∈ l → e1 ≠ e2 → overload e1 e2 → f (entity_file e1) = Some file →
  ∃ err, insert_copies target f l ids us t = Err err.
Proof.
  intros H1 H2 Hne Hov Hf.
  assert (Hov' : overload e2 e1).
  { destruct Hov as (? & ? & Hs & Hn). rewrite Hs in Hn. by repeat split. }
  revert ids us t. induction l as [|x l IH]; intros ids us t; [by apply not_elem_of_nil in H1|]. cbn.
  assert (Hhit : ∀ a b, a ∈ l → overload b a → f (entity_file b) = Some file → x = b →
    ∃ err, match f (entity_file x) with
      | Some fx => match insert_entity target fx (copied_entity (entity_data x)) t with
                   | Err e => Err e
                   | Ok (id, t1) => insert_copies target f l (<[entity_id x := id]> ids) (us ++ [(id, parent_id x)]) t1
                   end
      | None => insert_copies target f l ids us t end = Err err).
  { intros a b Ha Hab Hfb ->. rewrite Hfb. destruct (insert_entity _ _ _ _) as [[id t1]|err] eqn:Hi; [|by eexists].
    apply (insert_copies_conflict target f l _ _ t1 a file Ha); [rewrite <- (proj1 Hab); done|].
    destruct (insert_entity_keeps _ _ _ _ _ _ Hi) as (_ & _ & _ & ->). rewrite existsb_app. cbn.
    by rewrite same_symbol_copies, orb_true_r. }
  apply elem_of_cons in H1 as [->|H1], H2 as [->|H2]; [done|by apply (Hhit e2 x)| |].
  - apply (Hhit e1 x); [done|done| |done]. rewrite (proj1 Hov'). done.
  - destruct (f (entity_file x)) as [fx|]; [|by apply IH].
    destruct (insert_entity _ _ _ _) as [[id t1]|err]; [by apply IH|by eexists].
Qed.

(** The entities of a generation that stays keep their identity and columns when
    rows of other generations are deleted. *)
Definition keeps_entity (t t' : Tables) (e : EntityRow) : Prop :=
  ∃ e', e' ∈ entities t' ∧ entity_id e' = entity_id e ∧ entity_file e' = entity_file e ∧
    entity_epoch e' = entity_epoch e ∧ entity_data e' = entity_data e.

Lemma delete_entities_keeps_entity gone t e :
  e ∈ entities t → gone e = false → keeps_entity t (delete_entities gone t) e.
Proof.
  intros He Hg. unfold keeps_entity, delete_entities, cascade_entities. cbn.
  set (ids := list_to_set _). eexists. split.
  { apply list_elem_of_fmap. exists e. split; [reflexivity|]. by apply list_elem_of_filter. }
  destruct (parent_id e) as [p|]; [|done]. by case_bool_decide.
Qed.

Lemma keeps_entity_trans t1 t2 t3 e :
  keeps_entity t1 t2 e → (∀ e', e' ∈ entities t2 → entity_id e' = entity_id e → entity_file e' = entity_file e →
    entity_epoch e' = entity_epoch e → keeps_entity t2 t3 e') → keeps_entity t1 t3 e.
Proof.
  intros (e2 & He2 & Hi & Hf & Hep & Hd) H. destruct (H e2 He2 Hi Hf Hep) as (e3 & He3 & ? & ? & ? & ?).
  exists e3. split_and!; congruence.
Qed.

Lemma elem_of_file_ids t k r : files t !! k = Some r → file_id r ∈ file_ids t.
Proof.
  intros Hk. apply elem_of_list_to_set, list_elem_of_fmap. exists (k, r). split; [done|]. by apply elem_of_map_to_list.
Qed.

Lemma delete_files_keeps_entity gone t e k r :
  e ∈ entities t → files t !! k = Some r → gone k = false → entity_file e = file_id r →
  keeps_entity t (delete_files gone t) e.
Proof.
  intros He Hk Hg Hf. unfold delete_files. apply delete_entities_keeps_entity; [done|].
  apply bool_decide_eq_false. intros Hn. apply Hn. rewrite Hf. apply (elem_of_file_ids _ k).
  cbn. by apply map_lookup_filter_Some.
Qed.

Lemma clear_target_keeps_entity target paths t e source p r :
  source ≠ target → e ∈ entities t → entity_epoch e = source → files t !! (source, p) = Some r →
  entity_file e = file_id r → keeps_entity t (clear_target_rows_for_paths target paths t) e.
Proof.
  intros Hne He Hep Hr Hf. unfold clear_target_rows_for_paths. cbv zeta.
  match goal with |- keeps_entity t (delete_files ?g (delete_entities ?h ?t0)) e =>
    apply (keeps_entity_trans t (delete_entities h t0)) end.
  - apply (delete_entities_keeps_entity _ _ e); [done|]. rewrite (proj2 (Z.eqb_neq _ _)) by congruence. done.
  - intros e' He' _ Hf' _. apply (delete_files_keeps_entity _ _ e' (source, p) r); [done|done| |congruence].
    apply bool_decide_eq_false. cbn. tauto.
Qed.

(** C16. A generation with an overloaded symbol in a file that is not hidden cannot be
    compacted: the copies drop the discriminators and collide. *)
Theorem overloads_block_compaction json source target excluded t p r e1 e2 :
  source ≠ target → p ∉ excluded → files t !! (source, p) = Some r →
  e1 ∈ entities t → e2 ∈ entities t → entity_id e1 ≠ entity_id e2 →
  entity_epoch e1 = source → entity_epoch e2 = source → entity_file e1 = file_id r → overload e1 e2 →
  ∃ err, materialize_sqlite_generation json source target excluded t = Err err.
Proof.
  intros Hne Hp Hr H1 H2 Hid Hs1 Hs2 Hf Hov. unfold materialize_sqlite_generation. cbv zeta.
  set (paths := list_to_set _). set (t1 := clear_target_rows_for_paths target paths t).
  destruct (insert_file_copies _ _ _ _) as [[fids t2]|err] eqn:Hi; [|by eexists].
  destruct (insert_file_copies_spec _ _ _ _ _ _ (NoDup_fst_filter _ _ (NoDup_files_of source t1)) Hi)
    as (_ & He2 & _ & _ & _ & Hids).
  assert (Hr1 : files t1 !! (source, p) = Some r).
  { unfold t1. rewrite clear_target_files, decide_False; [done|]. cbn. tauto. }
  destruct (proj2 (Hids (file_id r))) as [file Hfile].
  { right. apply list_elem_of_fmap. exists (p, r). split; [done|]. apply list_elem_of_filter. split; [done|].
    by apply file_of_epoch. }
  destruct (clear_target_keeps_entity target paths t e1 source p r) as (e1' & H1' & Hi1 & Hf1 & Hp1 & Hd1); try done.
  destruct (clear_target_keeps_entity target paths t e2 source p r) as (e2' & H2' & Hi2 & Hf2 & Hp2 & Hd2); try done.
  { rewrite <- (proj1 Hov). done. }
  unfold insert_entity_copies.
  destruct (insert_copies_overloads target (fids !!.) (entities_of source t2) ∅ [] t2 e1' e2' file) as [err Herr].
  - apply list_elem_of_filter. split; [congruence|]. by rewrite He2.
  - apply list_elem_of_filter. split; [congruence|]. by rewrite He2.
  - congruence.
  - destruct Hov as (Ha & Hb & Hc & Hd). unfold overload. rewrite Hf1, Hf2, Hd1, Hd2. done.
  - rewrite Hf1, Hf. done.
  - rewrite Herr. by eexists.
Qed.

(** ** Examples *)

Definition demo_file : FileData :=
  {| language := "rust"; category := 0; last_modified := 1; created_at := 1; content_hash := Some "h"; batch_id := 0 |}.

Definition demo_chunk : ChunkData :=
  {| content := "fn f() {}"; start_line := 1; end_line := 1; entity_ids := "[1]"; entity_names := "f";
     entity_kinds := "[function]"; group_title := "f"; chunk_type := "code"; test_status := 1; test_source := 1;
     chunk_created := 1; chunk_updated := 1; chunk_batch := 0; point := "nl"; bm25_keywords := "f"; segment_id := "s";
     truncated := 0 |}.

(** A method of the given discriminator. *)
Definition demo_entity (discriminator : string) : EntityData :=
  {| name := "f"; kind := "method"; signature := None; span_start_row := None; span_end_row := None;
     span_start_column := None; span_end_column := None; span_start_byte := None; span_end_byte := None;
     scoped_name := Some "C.f"; overload_discriminator := discriminator; depth := None; metadata := None;
     parameters_json := None; return_type := None; doc_comment := None; modifiers_json := None; entity_batch := 0 |}.

Definition demo_row (id : Z) (discriminator : string) : EntityRow :=
  {| entity_id := id; entity_file := 1; entity_epoch := 1; parent_id := None; entity_data := demo_entity discriminator |}.

(** One file of generation 1 with a chunk and the given entities. *)
Definition demo_tables (l : list EntityRow) : Tables :=
  {| files := {[(1, "a.rs") := {| file_id := 1; file_data := demo_file |}]}; entities := l; mappings := ∅;
     chunks := {[(1, "a.rs", "c") := demo_chunk]}; file_seq := 1; entity_seq := Z.of_nat (length l) |}.

(** A text is a list of one string. *)
Definition demo_json : PointIds.JsonText :=
  {| PointIds.from_str := λ s, Some [Str.lit s];
     PointIds.to_string := λ l, match l with [s] => Some (Str.text_of s) | _ => None end |}.

Theorem compacted_chunks_lose_columns_witness :
  ∃ t' c', materialize_sqlite_generation demo_json 1 2 ∅ (demo_tables [demo_row 1 ""]) = Ok t' ∧
    chunks t' !! (2, "a.rs", "c") = Some c' ∧ content c' = "fn f() {}" ∧ point c' = "emb" ∧ bm25_keywords c' = "".
Proof.
  assert (Hok : is_ok (materialize_sqlite_generation demo_json 1 2 ∅ (demo_tables [demo_row 1 ""])) = true) by (vm_compute; reflexivity).
  destruct (materialize_sqlite_generation demo_json 1 2 ∅ (demo_tables [demo_row 1 ""])) as [t'|] eqn:Hm; [|discriminate Hok].
  destruct (compacted_chunks_lose_columns demo_json 1 2 ∅ (demo_tables [demo_row 1 ""]) t' "a.rs" "c" demo_chunk)
    as (c' & Hc & Hct & _ & _ & _ & _ & Hp & Hk & _); [discriminate|exact Hm|apply not_elem_of_empty|vm_compute; reflexivity|].
  exists t', c'. rewrite Hct. split_and!; [reflexivity|exact Hc|reflexivity|exact Hp|exact Hk].
Defined.

Theorem overloads_block_compaction_witness :
  ∃ err, materialize_sqlite_generation demo_json 1 2 ∅ (demo_tables [demo_row 1 "int"; demo_row 2 "str"]) = Err err.
Proof.
  apply (overloads_block_compaction demo_json 1 2 ∅ (demo_tables [demo_row 1 "int"; demo_row 2 "str"]) "a.rs"
    {| file_id := 1; file_data := demo_file |} (demo_row 1 "int") (demo_row 2 "str"));
    [discriminate|apply not_elem_of_empty|vm_compute; reflexivity|left|right; left|discriminate|reflexivity|reflexivity|reflexivity|].
  repeat split. by eexists.
Defined.
End GenerationTables.
