(* ===== verification/Generations.v ===== *)
(** * Generations

    Models the candidate and generation code of [StorageCoordinator]
    (crates/app/cce-orchestrator/src/index/storage_coordinator.rs with
    candidate/lifecycle.rs, candidate/prepare.rs, candidate/mod.rs and
    generation/lifecycle.rs), the epoch view of a query (query/filter.rs) and the
    hash cache (crates/infra/cce-storage-metadb-sqlite/src/cache.rs): a hot update
    builds a candidate generation that inherits the files of the active one, and
    publishes it. The vector and full-text stores are seen by their outcomes. *)

From S2P Require Import Prelude Str Paths PointIds RelationEpochs Manifests GenerationTables.
From stdpp Require Import base numbers countable gmap fin_maps strings.
From Stdlib Require Import ZArith Lia.

#[local] Open Scope Z_scope.
#[local] Open Scope result_scope.

Module Generations.
Import GenerationTables.

(** The normal form of a path, on the bytes of its text. *)
Definition normalize_project_path (path : string) : string := Str.text_of (Paths.normalize_project_path (Str.lit path)).

Section generations.
Context {SnapshotDelta : Type} (json : PointIds.JsonText).

(** The database of one project. *)
Record Db := { tables : Tables; manifests : @Manifests.Store SnapshotDelta }.

Definition with_tables (t : Tables) (d : Db) : Db := {| tables := t; manifests := manifests d |}.
Definition with_manifests (m : Manifests.Store) (d : Db) : Db := {| tables := tables d; manifests := m |}.

Inductive OrchestratorError := Storage (e : RelationEpochs.StorageError) | Index.

(** ** The view of a query *)

Record QueryFilter := { own_epoch : Z; parent_epoch : option Z; excluded_files : list string }.

Inductive FilterError := InvalidEpoch.

Definition inherited (own : Z) (parent : option Z) (excluded : list string) : result QueryFilter FilterError :=
  if own <? 0 then Err InvalidEpoch
  else
    match parent with
    | Some p => if (p <? 0) || (own <=? p) then Err InvalidEpoch
                else Ok {| own_epoch := own; parent_epoch := parent; excluded_files := excluded |}
    | None => Ok {| own_epoch := own; parent_epoch := parent; excluded_files := excluded |}
    end.

Definition full_view (own : Z) : result QueryFilter FilterError := inherited own None [].

Definition epochs (v : QueryFilter) : list Z := from_option (λ p, [p]) [] (parent_epoch v) ++ [own_epoch v].

Inductive QueryError := StorageFailure | ConfigError | InvalidError.

Definition map_error {A E F} (f : E → F) (r : result A E) : result A F :=
  match r with Ok a => Ok a | Err e => Err (f e) end.

Definition overridden (epoch : Z) (d : Db) : list string :=
  map fst (Manifests.list_for_generation epoch (manifests d)).

(** A missing row is epoch 0; a text that is no number is an error. *)
Definition read_legacy_active_epoch (d : Db) : result Z QueryError :=
  match Manifests.project_meta (manifests d) !! "active_epoch" with
  | Some (RelationEpochs.Number z) => Ok z
  | Some (RelationEpochs.Garbage _) => Err InvalidError
  | None => Ok 0
  end.

Definition load_active_query_filter (d : Db) : result QueryFilter QueryError :=
  match Manifests.get_active (manifests d) with
  | Some m =>
      map_error (λ _, ConfigError)
        (inherited (Manifests.data_epoch m) (Manifests.parent_data_epoch m) (overridden (Manifests.data_epoch m) d))
  | None => epoch <-? read_legacy_active_epoch d; map_error (λ _, ConfigError) (full_view epoch)
  end.

(** Two-stage resolution: the own row, or the row of the parent unless the file
    is excluded. *)
Definition visible_file (v : QueryFilter) (path : string) (t : Tables) : option FileRow :=
  match files t !! (own_epoch v, path) with
  | Some r => Some r
  | None =>
      parent ← parent_epoch v;
      if bool_decide (path ∈ excluded_files v) then None else files t !! (parent, path)
  end.

(** The file search over the index drops every excluded path, whichever
    generation its row is of. *)
Definition search_files_from_index (v : QueryFilter) (t : Tables) : list string :=
  filter (λ path, path ∉ excluded_files v) (map fst (epochs v ≫= λ e, files_of e t)).

(** ** The hash cache *)

Definition GENERATION_VIEW_DEPTH : nat := 2.

Record GenerationView := { view_own : Z; ancestors : list Z; view_excluded : list string }.

(** The chain of parents, at most two deep. *)
Fixpoint ancestor_chain (depth : nat) (current : option Z) (d : Db) : list Z :=
  match depth, current with
  | S depth, Some epoch =>
      if 0 <? epoch
      then epoch :: ancestor_chain depth (Manifests.parent_data_epoch_of epoch (manifests d)) d
      else []
  | _, _ => []
  end.

Definition resolve (d : Db) : result GenerationView RelationEpochs.StorageError :=
  match Manifests.get_active (manifests d) with
  | None =>
      own <-? RelationEpochs.meta_get_int_optional "active_epoch" (Manifests.project_meta (manifests d));
      Ok {| view_own := default 0 own; ancestors := []; view_excluded := [] |}
  | Some m =>
      let own := Manifests.data_epoch m in
      Ok {| view_own := own;
            ancestors := ancestor_chain GENERATION_VIEW_DEPTH (Manifests.parent_data_epoch m) d;
            view_excluded := overridden own d |}
  end.

Definition active_epoch (d : Db) : result (option Z) RelationEpochs.StorageError :=
  match Manifests.get_active (manifests d) with
  | Some m => Ok (Some (Manifests.data_epoch m))
  | None => RelationEpochs.meta_get_int_optional "active_epoch" (Manifests.project_meta (manifests d))
  end.

Definition write_epoch (d : Db) : result Z RelationEpochs.StorageError := v <-? resolve d; Ok (view_own v).

Definition load_hashes (epoch : Z) (t : Tables) (out : gmap string string) : gmap string string :=
  foldl (λ out x, match content_hash (file_data x.2) with Some h => <[x.1 := h]> out | None => out end)
    out (files_of epoch t).

Definition load_paths (epoch : Z) (t : Tables) (out : gset string) : gset string :=
  foldl (λ out x, {[x.1]} ∪ out) out (files_of epoch t).

(** Farthest ancestors first; the overrides; the own generation on top. *)
Definition stored_hashes (d : Db) : result (gmap string string) RelationEpochs.StorageError :=
  v <-? resolve d;
  let inherited_hashes := foldl (λ out e, load_hashes e (tables d) out) ∅ (rev (ancestors v)) in
  let kept := foldl (λ out p, delete p out) inherited_hashes (view_excluded v) in
  Ok (load_hashes (view_own v) (tables d) kept).

Definition visible_paths (d : Db) : result (gset string) RelationEpochs.StorageError :=
  v <-? resolve d;
  let inherited_paths := foldl (λ out e, load_paths e (tables d) out) ∅ (rev (ancestors v)) in
  let kept := foldl (λ out p, out ∖ {[p]}) inherited_paths (view_excluded v) in
  Ok (load_paths (view_own v) (tables d) kept).

(** [get_content_hash_by_path_at_epoch] reads the column as a text: a null is an
    error of the driver. *)
Definition get_content_hash (epoch : Z) (path : string) (t : Tables) : result (option string) RelationEpochs.StorageError :=
  match files t !! (epoch, path) with
  | None => Ok None
  | Some r => match content_hash (file_data r) with Some h => Ok (Some h) | None => Err RelationEpochs.Query end
  end.

Fixpoint first_hash (epochs : list Z) (path : string) (t : Tables) : result (option string) RelationEpochs.StorageError :=
  match epochs with
  | [] => Ok None
  | e :: epochs =>
      match get_content_hash e path t with
      | Ok None => first_hash epochs path t
      | r => r
      end
  end.

Definition stored_hash (path : string) (d : Db) : result (option string) RelationEpochs.StorageError :=
  v <-? resolve d;
  match get_content_hash (view_own v) path (tables d) with
  | Ok None => if bool_decide (path ∈ view_excluded v) then Ok None else first_hash (ancestors v) path (tables d)
  | r => r
  end.

Definition record_hashes (epoch : Z) (hashes : list (string * string)) (now : Z) (d : Db) : Db :=
  with_tables (foldl (λ t x, insert_hash_for_epoch epoch x.1 x.2 now t) (tables d) hashes) d.

Definition remove_hashes (epoch : Z) (paths : list string) (d : Db) : Db :=
  with_tables (foldl (λ t p, delete_by_path_at_epoch epoch p t) (tables d) paths) d.

(** ** The coordinator *)

(** The shared counters and the slot of the prepared candidate. *)
Record Coordinator := {
  epoch : Z;
  batch : Z;
  candidate_relation_epoch : Z;
  candidate_operation : option string
}.

Record State := { coordinator : Coordinator; db : Db }.

Definition with_db (d : Db) (s : State) : State := {| coordinator := coordinator s; db := d |}.
Definition set_epoch (e : Z) (s : State) : State :=
  let c := coordinator s in
  {| coordinator := {| epoch := e; batch := batch c; candidate_relation_epoch := candidate_relation_epoch c;
                       candidate_operation := candidate_operation c |}; db := db s |}.
Definition set_batch (b : Z) (s : State) : State :=
  let c := coordinator s in
  {| coordinator := {| epoch := epoch c; batch := b; candidate_relation_epoch := candidate_relation_epoch c;
                       candidate_operation := candidate_operation c |}; db := db s |}.
Definition set_candidate_relation_epoch (e : Z) (s : State) : State :=
  let c := coordinator s in
  {| coordinator := {| epoch := epoch c; batch := batch c; candidate_relation_epoch := e;
                       candidate_operation := candidate_operation c |}; db := db s |}.
Definition set_candidate (op : option string) (s : State) : State :=
  let c := coordinator s in
  {| coordinator := {| epoch := epoch c; batch := batch c; candidate_relation_epoch := candidate_relation_epoch c;
                       candidate_operation := op |}; db := db s |}.

Definition has_hot_update_candidate (s : State) : bool :=
  match candidate_operation (coordinator s) with Some _ => true | None => false end.

Definition i64_max : Z := 2 ^ 63 - 1.
Definition next_epoch (e : Z) : Z := Z.min (e + 1) i64_max.

(** A transaction whose body fails, or that does not commit, changes nothing. *)
Definition transaction (ok : bool) (body : Db → result Db RelationEpochs.StorageError) (s : State) :
    result () OrchestratorError * State :=
  match body (db s) with
  | Ok d => if ok then (Ok (), with_db d s) else (Err (Storage RelationEpochs.Transaction), s)
  | Err e => (Err (Storage e), s)
  end.

Definition on_manifests (f : Manifests.Store → Manifests.Store) (d : Db) : Db := with_manifests (f (manifests d)) d.

(** Which of the database and store accesses of a preparation succeed. *)
Record Faults := {
  adopt_read : bool;
  active_read : bool;
  overrides_read : bool;
  compact_rows : bool;
  compact_stores : bool;
  compact_finish : bool;
  stores_cleared : bool;
  register : bool;
  fail_manifest : bool
}.

(** *** Compaction *)

Definition compact_generation (f : Faults) (active_op : string) (active parent : Z) (s : State) :
    result () OrchestratorError * State :=
  if overrides_read f then
    let excluded : gset string := list_to_set (overridden active (db s)) in
    let '(r1, s1) := transaction (compact_rows f) (λ d,
      t <-? materialize_sqlite_generation json parent active excluded (tables d);
      Ok (with_tables t d)) s in
    match r1 with
    | Err e => (Err e, s1)
    | Ok _ =>
        if compact_stores f then
          transaction (compact_finish f) (λ d,
            Ok (on_manifests (λ m, Manifests.clear_generation active
                                (Manifests.set_parent_data_epoch active_op None m)) d)) s1
        else (Err Index, s1)
    end
  else (Err (Storage RelationEpochs.Query), s).

(** *** Adoption *)

Definition expected_parent (active : Z) : option Z := if 0 <? active then Some active else None.

Definition candidate_matches_active (m : Manifests.ProjectIndexManifest) (active : Z) : bool :=
  Manifests.candidate_ready m && (Manifests.data_epoch m =? next_epoch active) &&
  bool_decide (Manifests.parent_data_epoch m = expected_parent active).

Definition active_data_epoch (d : Db) : Z := from_option Manifests.data_epoch 0 (Manifests.get_active (manifests d)).

Definition is_candidate_adoptable (op : string) (d : Db) : bool :=
  match Manifests.get_building_by_operation op (manifests d) with
  | Some m => candidate_matches_active m (active_data_epoch d)
  | None => false
  end.

Definition try_adopt_existing_candidate (op : string) (s : State) : option Z * State :=
  match Manifests.get_building_by_operation op (manifests (db s)) with
  | Some m =>
      if candidate_matches_active m (active_data_epoch (db s))
      then (Some (Manifests.data_epoch m),
            set_candidate_relation_epoch 0 (set_epoch (Manifests.data_epoch m) s))
      else (None, s)
  | None => (None, s)
  end.

(** *** Preparation *)

(** The registration: the manifest, its parent, no residue, and the marker. *)
Definition register_candidate (candidate : Z) (op : string) (parent : option Z) (now : Z) (d : Db) :
    result Db RelationEpochs.StorageError :=
  begun <-? Manifests.begin_building candidate op None now (manifests d);
  let m1 := Manifests.set_parent_data_epoch op parent begun.2 in
  let t1 := clear_candidate_rows candidate (tables d) in
  let m2 := Manifests.clear_generation candidate m1 in
  Ok {| tables := t1; manifests := Manifests.mark_candidate_ready op m2 |}.

(** The active generation: its epoch, its parent and its operation. *)
Definition active_generation (d : Db) : result (Z * option Z * option string) RelationEpochs.StorageError :=
  match Manifests.get_active (manifests d) with
  | Some m => Ok (Manifests.data_epoch m, Manifests.parent_data_epoch m, Some (Manifests.operation_id m))
  | None =>
      e <-? RelationEpochs.meta_get_int_optional "active_epoch" (Manifests.project_meta (manifests d));
      Ok (default 0 e, None, None)
  end.

Definition prepare_candidate (f : Faults) (op : string) (now : Z) (s : State) : result Z OrchestratorError * State :=
  if active_read f then
    match active_generation (db s) with
    | Err e => (Err (Storage e), s)
    | Ok (active, parent, active_op) =>
        let candidate := Z.max (next_epoch active) 1 in
        let s1 := set_candidate_relation_epoch 0 (set_epoch candidate s) in
        let '(compacted, s2) :=
          match parent, active_op with
          | Some p, Some aop => compact_generation f aop active p s1
          | _, _ => (Ok (), s1)
          end in
        match compacted with
        | Err e => (Err e, s2)
        | Ok _ =>
            if stores_cleared f then
              let '(registered, s3) :=
                transaction (register f) (register_candidate candidate op (expected_parent active) now) s2 in
              match registered with Ok _ => (Ok candidate, s3) | Err e => (Err e, s3) end
            else (Err Index, s2)
        end
    end
  else (Err (Storage RelationEpochs.Query), s).

Definition fail_project_manifest (ok : bool) (op reason : string) (s : State) : result () OrchestratorError * State :=
  transaction ok (λ d, Ok (on_manifests (Manifests.mark_failed op reason) d)) s.

Definition begin_hot_update_candidate (f : Faults) (op : string) (resume : bool) (now : Z) (s : State) :
    result Z OrchestratorError * State :=
  match candidate_operation (coordinator s) with
  | Some current => if bool_decide (current = op) then (Ok (epoch (coordinator s)), s) else (Err Index, s)
  | None =>
      let s1 := set_candidate (Some op) s in
      if resume && negb (adopt_read f) then (Err (Storage RelationEpochs.Query), s1)
      else
        let '(adopted, s2) := if resume then try_adopt_existing_candidate op s1 else (None, s1) in
        match adopted with
        | Some e => (Ok e, s2)
        | None =>
            let '(r, s3) := prepare_candidate f op now s2 in
            match r with
            | Ok e => (Ok e, s3)
            | Err e =>
                let '(_, s4) := fail_project_manifest (fail_manifest f) op "candidate preparation failed" s3 in
                (Err e, set_candidate None s4)
            end
        end
  end.

(** *** Work inside of a candidate *)

(** Every file of one processor: the stale chunks of its kind go, and the parent
    is hidden. [store_ok] is the outcome of the external store, [ok] of the
    transaction. *)
Definition prepare_hot_update_bm25 (store_ok ok : bool) (paths : list string) (s : State) :
    result () OrchestratorError * State :=
  match paths with
  | [] => (Ok (), s)
  | _ =>
      if store_ok then
        let e := epoch (coordinator s) in
        transaction ok (λ d, Ok (foldl (λ d p,
          {| tables := clear_point_chunks e p "nl" (tables d);
             manifests := Manifests.override_upsert e p Manifests.Replaced (manifests d) |})
          d (map normalize_project_path paths))) s
      else (Err Index, s)
  end.

Definition prepare_hot_update_embedding (store_ok ok : bool) (path : string) (s : State) :
    result () OrchestratorError * State :=
  if store_ok then
    let e := epoch (coordinator s) in
    let path := normalize_project_path path in
    transaction ok (λ d, Ok
      {| tables := clear_point_chunks e path "emb" (tables d);
         manifests := Manifests.override_upsert e path Manifests.Replaced (manifests d) |}) s
  else (Err Index, s).

Definition clear_candidate_file_rows_batch (ok : bool) (paths : list string) (s : State) :
    result () OrchestratorError * State :=
  match paths with
  | [] => (Ok (), s)
  | _ =>
      let e := epoch (coordinator s) in
      transaction ok (λ d, Ok (with_tables (foldl (λ t p, clear_candidate_file_rows e p t) (tables d) paths) d)) s
  end.

Definition register_overrides (ok : bool) (paths : list string) (disposition : Manifests.OverrideDisposition) (s : State) :
    result () OrchestratorError * State :=
  match paths with
  | [] => (Ok (), s)
  | _ =>
      let e := epoch (coordinator s) in
      transaction ok (λ d, Ok (on_manifests (λ m, foldl (λ m p, Manifests.override_upsert e p disposition m) m paths) d)) s
  end.

(** The external delete, the rows and the override, one after the other. *)
Definition register_deleted (store_ok rows_ok override_ok : bool) (paths : list string) (s : State) :
    result () OrchestratorError * State :=
  if store_ok then
    let '(r, s1) := clear_candidate_file_rows_batch rows_ok paths s in
    match r with
    | Err e => (Err e, s1)
    | Ok _ => register_overrides override_ok paths Manifests.Deleted s1
    end
  else (Err Index, s).

Definition register_deleted_file (store_ok rows_ok override_ok : bool) (path : string) (s : State) :
    result () OrchestratorError * State :=
  register_deleted store_ok rows_ok override_ok [normalize_project_path path] s.

Definition register_deleted_files (store_ok rows_ok override_ok : bool) (paths : list string) (s : State) :
    result () OrchestratorError * State :=
  match paths with
  | [] => (Ok (), s)
  | _ =>
      if has_hot_update_candidate s
      then register_deleted store_ok rows_ok override_ok (map normalize_project_path paths) s
      else (Err Index, s)
  end.

(** The parsed files of a batch, in one transaction. *)
Record ParsedFile := { parsed_path : string; parsed_language : string; parsed_category : Z; parsed_entities : list ParsedEntity }.

Fixpoint store_all (epoch batch now : Z) (l : list ParsedFile) (t : Tables) : result Tables RelationEpochs.StorageError :=
  match l with
  | [] => Ok t
  | p :: l =>
      t1 <-? store_parsed_file epoch batch (parsed_path p) (parsed_language p) (parsed_category p) now
               (parsed_entities p) t;
      store_all epoch batch now l t1
  end.

Definition store_parsed_files (ok : bool) (now : Z) (l : list ParsedFile) (s : State) : result () OrchestratorError * State :=
  let c := coordinator s in
  transaction ok (λ d, t <-? store_all (epoch c) (batch c) now l (tables d); Ok (with_tables t d)) s.

Definition publish_file_hashes (ok : bool) (now : Z) (l : list (string * option string)) (s : State) :
    result () OrchestratorError * State :=
  let e := epoch (coordinator s) in
  transaction ok (λ d, Ok (with_tables
    (foldl (λ t x, match x.2 with Some h => insert_hash_for_epoch e x.1 h now t | None => t end) (tables d) l) d)) s.

(** *** Publication *)

Definition activate_project_manifest (ok : bool) (op : string) (relation now now_relation now_row : Z) (s : State) :
    result () OrchestratorError * State :=
  let e := epoch (coordinator s) in
  transaction ok (λ d,
    r <-? Manifests.activate e relation op None now now_relation now_row (manifests d);
    Ok (with_manifests r.2 d)) s.

Definition active_relation_epoch (d : Db) : result Z RelationEpochs.StorageError :=
  v <-? RelationEpochs.meta_get_int_optional "active_relation_epoch" (Manifests.project_meta (manifests d));
  Ok (default 0 v).

Definition activate_hot_update_candidate (ok : bool) (op : string) (now now_relation now_row : Z) (s : State) :
    result () OrchestratorError * State :=
  let c := candidate_relation_epoch (coordinator s) in
  match (if 0 <? c then Ok c else active_relation_epoch (db s)) with
  | Err e => (Err (Storage e), s)
  | Ok relation =>
      let '(r, s1) := activate_project_manifest ok op relation now now_relation now_row s in
      match r with Ok _ => (Ok (), set_candidate None s1) | Err e => (Err e, s1) end
  end.

Definition cleanup_failed_candidate (ok : bool) (e : Z) (s : State) : result () OrchestratorError * State :=
  transaction ok (λ d, Ok
    {| tables := clear_candidate_rows e (tables d); manifests := Manifests.clear_generation e (manifests d) |}) s.

(** A failed cleanup is logged only. *)
Definition fail_hot_update_candidate (fail_ok cleanup_ok : bool) (op reason : string) (s : State) :
    result () OrchestratorError * State :=
  let '(r, s1) := fail_project_manifest fail_ok op reason s in
  match r with
  | Err e => (Err e, s1)
  | Ok _ =>
      let '(_, s2) := cleanup_failed_candidate cleanup_ok (epoch (coordinator s1)) s1 in
      (Ok (), set_candidate None s2)
  end.

(** *** Full generations *)

Definition begin_project_manifest (ok : bool) (op : string) (now : Z) (s : State) : result () OrchestratorError * State :=
  let e := epoch (coordinator s) in
  transaction ok (λ d, r <-? Manifests.begin_building e op None now (manifests d); Ok (with_manifests r.2 d)) s.

Definition set_meta (key : string) (v : Z) (s : State) : State :=
  with_db (on_manifests (Manifests.set_meta key v) (db s)) s.

(** [incomplete] tells whether a checkpoint of a full index is in progress. *)
Definition begin_full_index (incomplete : bool) (s : State) : result Z OrchestratorError * State :=
  let meta := Manifests.project_meta (manifests (db s)) in
  match RelationEpochs.meta_get_int_optional "epoch" meta, RelationEpochs.meta_get_int_optional "epoch_ready" meta with
  | Ok current, Ok ready =>
      let current := default 0 current in
      let e := if (0 <? current) && ((default 1 ready =? 0) || incomplete) then current else current + 1 in
      (Ok e, set_meta "epoch_ready" 0 (set_meta "batch_id" 0 (set_meta "epoch" e (set_batch 0 (set_epoch e s)))))
  | Err e, _ | _, Err e => (Err (Storage e), s)
  end.

Definition begin_batch (b : Z) (s : State) : State := set_meta "batch_id" b (set_batch b s).

Definition activate_current_epoch (s : State) : State :=
  set_meta "epoch_ready" 1 (set_meta "active_epoch" (epoch (coordinator s)) s).

Definition align_epoch_to_active_generation (s : State) : result (option Z) OrchestratorError * State :=
  match active_epoch (db s) with
  | Err e => (Err (Storage e), s)
  | Ok None => (Ok None, s)
  | Ok (Some e) => (Ok (Some e), set_epoch e s)
  end.

(** ** What a generation shows *)

(** The file data a generation shows: its own rows over those of its parent that
    it does not override. *)
Definition generation_shows (own : Z) (parent : option Z) (d : Db) (path : string) : option FileData :=
  file_data <$>
    match files (tables d) !! (own, path) with
    | Some r => Some r
    | None =>
        p ← parent;
        if decide (is_Some (Manifests.overrides (manifests d) !! (own, path))) then None
        else files (tables d) !! (p, path)
    end.

(** What the queries of the published generation see. *)
Definition published (d : Db) (path : string) : option FileData :=
  match load_active_query_filter d with
  | Ok v => file_data <$> visible_file v path (tables d)
  | Err _ => None
  end.

Lemma elem_of_overridden e d path :
  path ∈ overridden e d ↔ is_Some (Manifests.overrides (manifests d) !! (e, path)).
Proof.
  unfold overridden, Manifests.list_for_generation. rewrite map_map, list_elem_of_In, in_map_iff.
  setoid_rewrite <- list_elem_of_In. split.
  - intros ([[e' p'] x] & <- & [Hx He]%elem_of_map_to_list%map_lookup_filter_Some). cbn in *. subst e'. by eexists.
  - intros [x Hx]. exists (e, path, x). split; [done|]. by apply elem_of_map_to_list, map_lookup_filter_Some.
Qed.

(** Data epochs are not negative and parents are older than their children. *)
Record gen_ok (d : Db) : Prop := {
  gen_rows : Manifests.rows_ok (manifests d);
  gen_parents : ∀ r, r ∈ Manifests.publications (manifests d) →
    0 ≤ Manifests.data_epoch (Manifests.manifest r) ∧
    (∀ p, Manifests.parent_data_epoch (Manifests.manifest r) = Some p →
       0 < p < Manifests.data_epoch (Manifests.manifest r))
}.

Lemma get_active_row m (a : Manifests.ProjectIndexManifest) :
  Manifests.rows_ok (SnapshotDelta := SnapshotDelta) m → Manifests.get_active m = Some a →
  ∃ r, Manifests.manifest r = a ∧ r ∈ Manifests.publications m ∧ Manifests.state a = Manifests.Active ∧
    Manifests.newest (Manifests.in_state Manifests.Active) m = Some r.
Proof.
  intros Hm. unfold Manifests.get_active. destruct (Manifests.newest _ m) as [r|] eqn:Hn; [|done]. intros [= <-].
  destruct (Manifests.newest_spec _ _ _ Hm Hn) as (Hr & Hst%Manifests.in_state_true & _). by exists r.
Qed.

Lemma published_active d a path :
  gen_ok d → Manifests.get_active (manifests d) = Some a →
  published d path = generation_shows (Manifests.data_epoch a) (Manifests.parent_data_epoch a) d path.
Proof.
  intros Hd Ha. destruct (get_active_row _ _ (gen_rows d Hd) Ha) as (r & Hm & Hr & _).
  destruct (gen_parents d Hd r Hr) as [Hpos Hpar]. rewrite Hm in *.
  unfold published, load_active_query_filter. rewrite Ha.
  assert (Hv : inherited (Manifests.data_epoch a) (Manifests.parent_data_epoch a) (overridden (Manifests.data_epoch a) d) =
    Ok {| own_epoch := Manifests.data_epoch a; parent_epoch := Manifests.parent_data_epoch a;
          excluded_files := overridden (Manifests.data_epoch a) d |}).
  { unfold inherited. rewrite (proj2 (Z.ltb_ge _ _)) by done. destruct (Manifests.parent_data_epoch a) as [p|]; [|done].
    specialize (Hpar p eq_refl). rewrite (proj2 (Z.ltb_ge _ _)), (proj2 (Z.leb_gt _ _)) by lia. done. }
  rewrite Hv. cbn. unfold generation_shows, visible_file. cbn. f_equal.
  destruct (files (tables d) !! (Manifests.data_epoch a, path)); [done|].
  destruct (Manifests.parent_data_epoch a) as [p|]; [cbn|done].
  destruct (decide _) as [Ho|Ho].
  - by rewrite bool_decide_eq_true_2 by by apply elem_of_overridden.
  - rewrite bool_decide_eq_false_2; [done|]. by rewrite elem_of_overridden.
Qed.

Lemma generation_shows_frame own parent d d' path :
  (∀ e, e = own ∨ parent = Some e →
     file_data <$> files (tables d') !! (e, path) = file_data <$> files (tables d) !! (e, path)) →
  Manifests.overrides (manifests d') !! (own, path) = Manifests.overrides (manifests d) !! (own, path) →
  generation_shows own parent d' path = generation_shows own parent d path.
Proof.
  intros Hf Ho. unfold generation_shows. rewrite Ho. pose proof (Hf own (or_introl eq_refl)) as Hown.
  destruct (files (tables d') !! (own, path)) as [r'|], (files (tables d) !! (own, path)) as [r|]; cbn in Hown; try done.
  destruct parent as [p|]; [cbn|done]. destruct (decide _); [done|]. apply Hf. by right.
Qed.

Lemma published_frame d d' a :
  gen_ok d → gen_ok d' → Manifests.get_active (manifests d) = Some a → Manifests.get_active (manifests d') = Some a →
  (∀ e path, e = Manifests.data_epoch a ∨ Manifests.parent_data_epoch a = Some e →
     file_data <$> files (tables d') !! (e, path) = file_data <$> files (tables d) !! (e, path)) →
  (∀ path, Manifests.overrides (manifests d') !! (Manifests.data_epoch a, path) =
     Manifests.overrides (manifests d) !! (Manifests.data_epoch a, path)) →
  ∀ path, published d' path = published d path.
Proof.
  intros Hd Hd' Ha Ha' Hf Ho path. rewrite (published_active d a), (published_active d' a) by done.
  apply generation_shows_frame; auto.
Qed.

(** ** Transactions *)

Lemma transaction_Ok ok body s s' :
  transaction ok body s = (Ok (), s') → ∃ d, body (db s) = Ok d ∧ s' = with_db d s.
Proof. unfold transaction. destruct (body (db s)) as [d|]; [|done]. destruct ok; [|done]. intros [= <-]. by exists d. Qed.

Lemma transaction_Err ok body s e s' : transaction ok body s = (Err e, s') → s' = s.
Proof. unfold transaction. destruct (body (db s)) as [d|]; [destruct ok|]; by intros [= _ <-]. Qed.

(** ** Compaction *)

Lemma gen_ok_set_parent op parent d :
  (∀ r p, r ∈ Manifests.publications (manifests d) → Manifests.operation r = op → parent = Some p →
     0 < p < Manifests.data_epoch (Manifests.manifest r)) →
  gen_ok d → gen_ok (on_manifests (Manifests.set_parent_data_epoch op parent) d).
Proof.
  intros Hp Hd. split; [by apply Manifests.rows_ok_update, Hd|]. cbn. intros r.
  rewrite list_elem_of_In, in_map_iff. setoid_rewrite <- list_elem_of_In. intros (r0 & <- & Hr0).
  destruct (Manifests.of_operation op r0) eqn:Ho; [|by apply (gen_parents d Hd)]. cbn.
  split; [by apply (gen_parents d Hd r0)|]. intros p ->. apply (Hp r0); [done| |done]. by apply bool_decide_eq_true in Ho.
Qed.

Lemma clear_generation_overrides e (m : Manifests.Store (SnapshotDelta := SnapshotDelta)) k :
  Manifests.overrides (Manifests.clear_generation e m) !! k = if decide (k.1 = e) then None else Manifests.overrides m !! k.
Proof.
  cbn. rewrite map_lookup_filter. destruct (Manifests.overrides m !! k); cbn; [|by case_decide].
  destruct (decide (k.1 = e)); [by rewrite option_guard_False by tauto|by rewrite option_guard_True].
Qed.

Lemma set_parent_active op parent m a :
  Manifests.rows_ok (SnapshotDelta := SnapshotDelta) m → Manifests.get_active m = Some a → Manifests.operation_id a = op →
  Manifests.get_active (Manifests.set_parent_data_epoch op parent m) = Some (Manifests.with_parent parent a).
Proof.
  intros Hm Ha Ho. destruct (get_active_row _ _ Hm Ha) as (r & Hra & Hr & Hst & Hn).
  unfold Manifests.get_active. subst a.
  rewrite (Manifests.newest_replaced (Manifests.in_state Manifests.Active) op
    (Manifests.map_manifest (Manifests.with_parent parent) r) m); [done|done|by apply Manifests.rows_ok_update| | |].
  - apply Manifests.replaces_update; [done..|by apply bool_decide_eq_true| |done]. by intros r' _ ?%bool_decide_eq_true.
  - by apply Manifests.in_state_true.
  - intros r' Hr' Hp' Hne. destruct (Manifests.newest_spec _ _ _ Hm Hn) as (_ & _ & Hmax). specialize (Hmax r' Hr' Hp').
    change (Manifests.publication r' < Manifests.publication r).
    destruct (decide (Manifests.publication r' = Manifests.publication r)) as [He|]; [|lia].
    destruct Hne. rewrite (Manifests.rows_publication_unique m r' r Hm Hr' Hr He). done.
Qed.

Lemma compact_generation_Ok f aop active p s s' :
  compact_generation f aop active p s = (Ok (), s') →
  ∃ t, materialize_sqlite_generation json p active (list_to_set (overridden active (db s))) (tables (db s)) = Ok t ∧
    s' = with_db {| tables := t; manifests := Manifests.clear_generation active (Manifests.set_parent_data_epoch aop None (manifests (db s))) |} s.
Proof.
  unfold compact_generation. destruct (overrides_read f); [|done].
  destruct (transaction (compact_rows f) _ s) as [[[]|] s1] eqn:H1; [|done].
  destruct (transaction_Ok _ _ _ _ H1) as (d & Hd & ->).
  destruct (compact_stores f); [|done]. intros H2. destruct (transaction_Ok _ _ _ _ H2) as (d2 & Hd2 & ->).
  destruct (materialize_sqlite_generation _ _ _ _ _) as [t|]; cbn in Hd; [|done]. injection Hd as <-.
  exists t. split; [done|]. by injection Hd2 as <-.
Qed.

(** What the active generation has of its own is overridden wherever its parent
    has it too. *)
Definition covered (own parent : Z) (d : Db) : Prop :=
  ∀ path, is_Some (files (tables d) !! (own, path)) → is_Some (files (tables d) !! (parent, path)) →
    is_Some (Manifests.overrides (manifests d) !! (own, path)).

(** After compaction a file shows the row of the parent unless the parent has none
    or it is overridden: own rows that were not registered are lost. *)
Lemma compacted_shows own parent t d path (m : Manifests.Store) :
  own ≠ parent →
  materialize_sqlite_generation json parent own (list_to_set (overridden own d)) (tables d) = Ok t →
  generation_shows own None {| tables := t; manifests := m |} path =
    file_data <$> (if decide (is_Some (Manifests.overrides (manifests d) !! (own, path)))
                   then files (tables d) !! (own, path)
                   else match files (tables d) !! (parent, path) with
                        | Some r => Some r | None => files (tables d) !! (own, path) end).
Proof.
  intros Hne Hm. destruct (materialize_files _ _ _ _ _ _ (not_eq_sym Hne) Hm) as [Hf _].
  unfold generation_shows. cbn. specialize (Hf path).
  assert (He : match files t !! (own, path) with Some r => Some r | None => None end = files t !! (own, path)).
  { by destruct (files t !! (own, path)). }
  rewrite He, Hf. f_equal. pose proof (elem_of_overridden own d path) as Hov.
  assert (Hin : path ∈ (list_to_set (overridden own d) : gset string) ↔ is_Some (Manifests.overrides (manifests d) !! (own, path))).
  { by rewrite elem_of_list_to_set. }
  destruct (decide (path ∉ _ ∧ _)) as [[Hn [r Hr]]|Hn], (decide (is_Some (Manifests.overrides (manifests d) !! (own, path)))) as [Ho|Ho].
  - tauto.
  - by rewrite Hr.
  - done.
  - destruct (files (tables d) !! (parent, path)) as [r|]; [|done]. destruct Hn. split; [tauto|by eexists].
Qed.

Lemma compaction_keeps_shows own parent t d path m :
  own ≠ parent → covered own parent d →
  materialize_sqlite_generation json parent own (list_to_set (overridden own d)) (tables d) = Ok t →
  generation_shows own None {| tables := t; manifests := m |} path = generation_shows own (Some parent) d path.
Proof.
  intros Hne Hc Hm. rewrite (compacted_shows own parent t d path m Hne Hm). unfold generation_shows. cbn. f_equal.
  specialize (Hc path). destruct (decide _) as [Ho|Ho].
  - by destruct (files (tables d) !! (own, path)).
  - destruct (files (tables d) !! (own, path)) as [r|] eqn:Hown, (files (tables d) !! (parent, path)) as [r'|] eqn:Hp; try done.
    destruct Ho. apply Hc; by eexists.
Qed.

(** A row that is not registered is replaced by the row of the parent when the
    generation is compacted. *)
Theorem compaction_reverts_unregistered_rows f aop own parent s s' path r r' :
  own ≠ parent → compact_generation f aop own parent s = (Ok (), s') →
  files (tables (db s)) !! (own, path) = Some r → files (tables (db s)) !! (parent, path) = Some r' →
  Manifests.overrides (manifests (db s)) !! (own, path) = None →
  generation_shows own (Some parent) (db s) path = Some (file_data r) ∧
  generation_shows own None (db s') path = Some (file_data r').
Proof.
  intros Hne Hc Hr Hr' Ho. destruct (compact_generation_Ok _ _ _ _ _ _ Hc) as (t & Ht & ->). split.
  - unfold generation_shows. by rewrite Hr.
  - cbn [db with_db]. rewrite (compacted_shows own parent t (db s) path _ Hne Ht), Ho, Hr'. cbn.
    destruct (decide _) as [[? H]|]; [discriminate H|done].
Qed.

(** ** The hash cache *)

Lemma foldl_insert_lookup {A B} (f : A → option B) (l : list (string * A)) (out : gmap string B) p :
  NoDup l.*1 →
  foldl (λ out x, match f x.2 with Some h => <[x.1 := h]> out | None => out end) out l !! p =
    match list_find (λ x, x.1 = p) l with
    | Some (_, x) => match f x.2 with Some h => Some h | None => out !! p end
    | None => out !! p
    end.
Proof.
  revert out. induction l as [|[q a] l IH]; intros out; cbn; [done|]. intros [Hq Hnd]%NoDup_cons.
  rewrite IH by done. case_decide as Hp.
  - subst q. rewrite (proj2 (list_find_None _ _)).
    + cbn. destruct (f a); [by rewrite lookup_insert_eq|done].
    + apply Forall_forall. intros [p' a'] Hx. cbn. intros ->. apply Hq, list_elem_of_fmap. by exists (p, a').
  - assert (Hout : match f a with Some h => <[q:=h]> out | None => out end !! p = out !! p).
    { destruct (f a); [by rewrite lookup_insert_ne|done]. }
    cbn. destruct (list_find _ l) as [[i x]|]; cbn; by rewrite ?Hout.
Qed.

Lemma load_hashes_lookup e t out p :
  load_hashes e t out !! p =
    match files t !! (e, p) ≫= (λ r, content_hash (file_data r)) with Some h => Some h | None => out !! p end.
Proof.
  unfold load_hashes.
  rewrite (foldl_insert_lookup (λ r, content_hash (file_data r))) by apply NoDup_files_of.
  destruct (list_find (λ x : string * FileRow, x.1 = p) (files_of e t)) as [[i [p' r]]|] eqn:Hf.
  - apply list_find_Some in Hf as (Hi & Hp & _). cbn in Hp. subst p'. apply list_elem_of_lookup_2, file_of_epoch in Hi.
    by rewrite Hi.
  - destruct (files t !! (e, p)) as [r|] eqn:Hr; [|done]. apply file_of_epoch in Hr. apply list_find_None in Hf.
    rewrite Forall_forall in Hf. by destruct (Hf _ Hr).
Qed.

Lemma foldl_delete_lookup (l : list string) (out : gmap string string) p :
  foldl (λ out p, delete p out) out l !! p = if decide (p ∈ l) then None else out !! p.
Proof.
  revert out. induction l as [|q l IH]; intros out; cbn; [done|]. rewrite IH.
  destruct (decide (p ∈ l)), (decide (p ∈ q :: l)) as [Hp|Hp]; try done; [by destruct Hp; right| |].
  - apply elem_of_cons in Hp as [->|]; [by rewrite lookup_delete_eq|done].
  - rewrite lookup_delete_ne; [done|]. intros ->. destruct Hp. left.
Qed.

(** The first generation with a hash for the path. *)
Fixpoint nearest (epochs : list Z) (path : string) (t : Tables) : option string :=
  match epochs with
  | [] => None
  | e :: epochs =>
      match files t !! (e, path) ≫= (λ r, content_hash (file_data r)) with
      | Some h => Some h
      | None => nearest epochs path t
      end
  end.

Lemma load_ancestors_lookup l t p :
  foldl (λ out e, load_hashes e t out) ∅ (rev l) !! p = nearest l p t.
Proof.
  induction l as [|e l IH]; cbn; [done|]. rewrite foldl_app. cbn. rewrite load_hashes_lookup, IH. done.
Qed.

(** No generation of the view has a row of the path without a hash. *)
Definition hashed (v : GenerationView) (path : string) (t : Tables) : Prop :=
  ∀ e r, e ∈ view_own v :: ancestors v → files t !! (e, path) = Some r → content_hash (file_data r) ≠ None.

Lemma get_content_hash_Ok e path t :
  (∀ r, files t !! (e, path) = Some r → content_hash (file_data r) ≠ None) →
  get_content_hash e path t = Ok (files t !! (e, path) ≫= (λ r, content_hash (file_data r))).
Proof.
  intros H. unfold get_content_hash. destruct (files t !! (e, path)) as [r|]; [|done]. cbn.
  by destruct (content_hash (file_data r)) eqn:Hh; [|destruct (H r eq_refl)].
Qed.

Lemma first_hash_nearest l path t :
  (∀ e r, e ∈ l → files t !! (e, path) = Some r → content_hash (file_data r) ≠ None) →
  first_hash l path t = Ok (nearest l path t).
Proof.
  induction l as [|e l IH]; intros H; cbn; [done|]. rewrite get_content_hash_Ok by (intros r; apply H; left).
  destruct (_ ≫= _); [done|]. apply IH. intros e' r He. apply H. by right.
Qed.

(** The single lookup of a hash and the table of all of them agree, for a path
    whose rows all have a hash. *)
Theorem hash_lookups_agree d v m path :
  resolve d = Ok v → stored_hashes d = Ok m → hashed v path (tables d) → stored_hash path d = Ok (m !! path).
Proof.
  intros Hv Hm Hh. unfold stored_hashes, stored_hash in *. rewrite Hv in *. cbn in *. injection Hm as <-.
  rewrite get_content_hash_Ok by (intros r; apply Hh; left).
  rewrite load_hashes_lookup, foldl_delete_lookup, load_ancestors_lookup.
  destruct (_ ≫= _); [done|]. case_bool_decide; destruct (decide _); try done.
  apply first_hash_nearest. intros e r He. apply Hh. by right.
Qed.

(** A row without a hash counts as absent in the table of all hashes, and makes
    the single lookup of its path fail. *)
Theorem null_hash_fails_lookup d v path r :
  resolve d = Ok v → files (tables d) !! (view_own v, path) = Some r → content_hash (file_data r) = None →
  stored_hash path d = Err RelationEpochs.Query ∧
  ∃ m, stored_hashes d = Ok m ∧
    m !! path = if decide (path ∈ view_excluded v) then None else nearest (ancestors v) path (tables d).
Proof.
  intros Hv Hr Hn. unfold stored_hash, stored_hashes. rewrite Hv. cbn. unfold get_content_hash. rewrite Hr, Hn.
  split; [done|]. eexists. split; [done|].
  rewrite load_hashes_lookup, foldl_delete_lookup, load_ancestors_lookup, Hr. cbn. by rewrite Hn.
Qed.

(** ** Other views *)

(** The file search over the index does not find a file the generation replaced,
    although the queries of the same view do. *)
Theorem replaced_files_leave_the_search v path r t :
  path ∈ excluded_files v → files t !! (own_epoch v, path) = Some r →
  visible_file v path t = Some r ∧ path ∉ search_files_from_index v t.
Proof.
  intros Hp Hr. split; [unfold visible_file; by rewrite Hr|].
  unfold search_files_from_index. intros [Hn _]%list_elem_of_filter. by apply Hn.
Qed.

(** A full index that begins while the checkpoint of an earlier one is in progress
    takes the published epoch, so its writes go to the generation the queries
    read. *)
Theorem interrupted_index_reuses_publication s data relation :
  0 < data → Manifests.published_meta data relation (manifests (db s)) →
  ∃ s', begin_full_index true s = (Ok data, s') ∧ epoch (coordinator s') = data ∧
    load_active_query_filter (db s') = load_active_query_filter (db s) ∧
    RelationEpochs.meta_get_int_optional "active_epoch" (Manifests.project_meta (manifests (db s'))) = Ok (Some data).
Proof.
  intros Hpos (He & Ha & _ & Hr). unfold begin_full_index, RelationEpochs.meta_get_int_optional. rewrite He, Hr. cbn.
  rewrite (proj2 (Z.ltb_lt _ _)) by done. cbn. eexists. split; [done|]. split; [done|]. split.
  - unfold load_active_query_filter, read_legacy_active_epoch, Manifests.get_active. cbn.
    unfold RelationEpochs.meta_set_int. by rewrite !lookup_insert_ne.
  - cbn. unfold RelationEpochs.meta_set_int. rewrite !lookup_insert_ne by done.
    unfold Manifests.project_meta in Ha |- *. by rewrite Ha.
Qed.
End generations.

(** ** Examples *)

Definition no_faults : Faults :=
  {| adopt_read := true; active_read := true; overrides_read := true; compact_rows := true; compact_stores := true;
     compact_finish := true; stores_cleared := true; register := true; fail_manifest := true |}.

Definition fresh_state : @State unit :=
  {| coordinator := {| epoch := 0; batch := 0; candidate_relation_epoch := 0; candidate_operation := None |};
     db := {| tables := empty_tables; manifests := Manifests.empty_store RelationEpochs.empty_store |} |}.

Definition demo_parsed (path lang : string) : ParsedFile :=
  {| parsed_path := path; parsed_language := lang; parsed_category := 0; parsed_entities := [] |}.

(** A full index of two files, one of them with a hash, published as generation 1. *)
Definition indexed : @State unit :=
  let s1 := (begin_full_index false fresh_state).2 in
  let s2 := (store_parsed_files true 1 [demo_parsed "a.rs" "rust"; demo_parsed "b.py" "python"] s1).2 in
  let s3 := (publish_file_hashes true 2 [("a.rs", Some "h1"); ("b.py", None)] s2).2 in
  (activate_project_manifest true "full" 0 2 2 2 s3).2.

(** An update that stores a file without registering it. *)
Definition unregistered : @State unit :=
  let s1 := (begin_hot_update_candidate demo_json no_faults "hot" false 3 indexed).2 in
  let s2 := (store_parsed_files true 4 [demo_parsed "a.rs" "rust2021"] s1).2 in
  (activate_hot_update_candidate true "hot" 5 5 5 s2).2.

Lemma demo_run {A E B} (x : result A E * B) a : x.1 = Ok a → x = (Ok a, x.2).
Proof. intros H. rewrite <- H. apply surjective_pairing. Qed.

Lemma demo_is_ok {A E} (x : result A E) : is_ok x = true → ∃ a, x = Ok a.
Proof. destruct x; [by eexists|done]. Qed.

Theorem compaction_reverts_unregistered_rows_witness :
  language <$> generation_shows 2 (Some 1) (db unregistered) "a.rs" = Some "rust2021" ∧
  language <$> generation_shows 2 None (db (compact_generation demo_json no_faults "hot" 2 1 unregistered).2) "a.rs" = Some "rust".
Proof.
  assert (Hc : compact_generation demo_json no_faults "hot" 2 1 unregistered =
    (Ok (), (compact_generation demo_json no_faults "hot" 2 1 unregistered).2)) by (apply demo_run; vm_compute; reflexivity).
  assert (Hr : (language ∘ file_data) <$> files (tables (db unregistered)) !! (2, "a.rs") = Some "rust2021") by (vm_compute; reflexivity).
  assert (Hr' : (language ∘ file_data) <$> files (tables (db unregistered)) !! (1, "a.rs") = Some "rust") by (vm_compute; reflexivity).
  apply fmap_Some in Hr as (r & Hr & Hl). apply fmap_Some in Hr' as (r' & Hr' & Hl').
  destruct (compaction_reverts_unregistered_rows demo_json no_faults "hot" 2 1 unregistered _ "a.rs" r r'
    ltac:(discriminate) Hc Hr Hr' ltac:(vm_compute; reflexivity)) as [H1 H2].
  split; [rewrite H1; exact (f_equal Some (eq_sym Hl))|rewrite H2; exact (f_equal Some (eq_sym Hl'))].
Defined.

Definition demo_view : GenerationView := {| view_own := 1; ancestors := []; view_excluded := [] |}.

Lemma demo_resolves : resolve (db indexed) = Ok demo_view.
Proof. vm_compute. reflexivity. Qed.

Theorem hash_lookups_agree_witness :
  ∃ m, stored_hashes (db indexed) = Ok m ∧ m !! "a.rs" = Some "h1" ∧ stored_hash "a.rs" (db indexed) = Ok (m !! "a.rs").
Proof.
  destruct (demo_is_ok (stored_hashes (db indexed)) ltac:(vm_compute; reflexivity)) as [m Hm]. exists m.
  assert (Hs : stored_hash "a.rs" (db indexed) = Ok (m !! "a.rs")).
  { apply (hash_lookups_agree (db indexed) demo_view m "a.rs" demo_resolves Hm).
    intros e r ->%list_elem_of_singleton Hr Hn.
    assert (Hx : (content_hash ∘ file_data) <$> files (tables (db indexed)) !! (1, "a.rs") = Some (Some "h1")) by (vm_compute; reflexivity).
    change (view_own demo_view) with 1 in Hr. rewrite Hr in Hx. injection Hx as Hx. cbn in Hx. rewrite Hx in Hn. discriminate Hn. }
  split; [exact Hm|]. split; [|exact Hs].
  assert (Hv : stored_hash "a.rs" (db indexed) = Ok (Some "h1")) by (vm_compute; reflexivity).
  rewrite Hs in Hv. by injection Hv.
Defined.

Theorem null_hash_fails_lookup_witness :
  stored_hash "b.py" (db indexed) = Err RelationEpochs.Query ∧ ∃ m, stored_hashes (db indexed) = Ok m ∧ m !! "b.py" = None.
Proof.
  assert (Hr : (content_hash ∘ file_data) <$> files (tables (db indexed)) !! (1, "b.py") = Some None) by (vm_compute; reflexivity).
  apply fmap_Some in Hr as (r & Hr & Hl).
  exact (null_hash_fails_lookup (db indexed) demo_view "b.py" r demo_resolves Hr (eq_sym Hl)).
Defined.

Theorem replaced_files_leave_the_search_witness :
  ∃ r, visible_file {| own_epoch := 1; parent_epoch := None; excluded_files := ["a.rs"] |} "a.rs" (tables (db indexed)) = Some r ∧
    "a.rs" ∉ search_files_from_index {| own_epoch := 1; parent_epoch := None; excluded_files := ["a.rs"] |} (tables (db indexed)).
Proof.
  assert (Hr : (language ∘ file_data) <$> files (tables (db indexed)) !! (1, "a.rs") = Some "rust") by (vm_compute; reflexivity).
  apply fmap_Some in Hr as (r & Hr & _). exists r.
  apply (replaced_files_leave_the_search {| own_epoch := 1; parent_epoch := None; excluded_files := ["a.rs"] |} "a.rs" r); [left|exact Hr].
Defined.

Theorem interrupted_index_reuses_publication_witness :
  ∃ s', begin_full_index true indexed = (Ok 1, s') ∧ load_active_query_filter (db s') = load_active_query_filter (db indexed).
Proof.
  destruct (interrupted_index_reuses_publication indexed 1 0) as (s' & Hb & _ & Hl & _);
    [reflexivity|split_and!; vm_compute; reflexivity|]. exists s'. split; [exact Hb|exact Hl].
Defined.
End Generations.
