(* ===== verification/GenerationSessions.v ===== *)
(** * Hot updates over a candidate generation

    A hot update as the coordinator of the generations runs it: a candidate is
    begun, the processors write files, hashes and overrides into it, and it is
    activated or failed
    (crates/app/cce-orchestrator/src/index/storage_coordinator/candidate/). The
    abstract state of the candidate is an overlay over the published generation;
    the theorems show that the tables implement it. *)

From S2P Require Import Prelude PointIds RelationEpochs Manifests GenerationTables Generations.
From stdpp Require Import base numbers countable gmap fin_maps strings.
From Stdlib Require Import ZArith Lia.

#[local] Open Scope Z_scope.
#[local] Open Scope result_scope.

Module GenerationSessions.
Import GenerationTables Generations.

Section sessions.
Context {SnapshotDelta : Type} (json : PointIds.JsonText).
Abbreviation Db := (@Generations.Db SnapshotDelta).
Abbreviation State := (@Generations.State SnapshotDelta).

(** ** Work inside of a candidate *)

(** The calls of the processors; the outcome of the external store and of each
    transaction comes with the call. *)
Inductive Work :=
  | PrepareBm25 (store_ok ok : bool) (paths : list string)
  | PrepareEmbedding (store_ok ok : bool) (path : string)
  | ClearRows (ok : bool) (paths : list string)
  | RegisterOverrides (ok : bool) (paths : list string) (disposition : Manifests.OverrideDisposition)
  | RegisterDeletedFiles (store_ok rows_ok override_ok : bool) (paths : list string)
  | StoreParsed (ok : bool) (now : Z) (l : list ParsedFile)
  | PublishHashes (ok : bool) (now : Z) (l : list (string * option string)).

Definition perform (w : Work) : State → result () OrchestratorError * State :=
  match w with
  | PrepareBm25 store_ok ok paths => prepare_hot_update_bm25 store_ok ok paths
  | PrepareEmbedding store_ok ok path => prepare_hot_update_embedding store_ok ok path
  | ClearRows ok paths => clear_candidate_file_rows_batch ok paths
  | RegisterOverrides ok paths d => register_overrides ok paths d
  | RegisterDeletedFiles store_ok rows_ok override_ok paths => register_deleted_files store_ok rows_ok override_ok paths
  | StoreParsed ok now l => store_parsed_files ok now l
  | PublishHashes ok now l => publish_file_hashes ok now l
  end.

(** Some of the calls succeed; a failed one does not stop the others. *)
Fixpoint perform_all (l : list Work) (s : State) : list Work * State :=
  match l with
  | [] => ([], s)
  | w :: l =>
      let '(r, s1) := perform w s in
      let '(done, s2) := perform_all l s1 in
      (match r with Ok _ => w :: done | Err _ => done end, s2)
  end.

(** ** The abstract candidate *)

(** The files a candidate has of its own and those it hides of its parent. *)
Record Overlay := { own : gmap string FileData; hidden : gset string }.

Definition empty_overlay : Overlay := {| own := ∅; hidden := ∅ |}.

Definition hide (paths : list string) (o : Overlay) : Overlay :=
  {| own := own o; hidden := list_to_set paths ∪ hidden o |}.

Definition put (path : string) (f : option FileData → FileData) (o : Overlay) : Overlay :=
  {| own := <[path := f (own o !! path)]> (own o); hidden := hidden o |}.

Definition parsed_row (batch now : Z) (p : ParsedFile) (old : option FileData) : FileData :=
  {| language := parsed_language p; category := parsed_category p;
     last_modified := from_option last_modified now old; created_at := from_option created_at now old;
     content_hash := old ≫= content_hash; batch_id := batch |}.

Definition hashed_row (now : Z) (hash : string) (old : option FileData) : FileData :=
  {| language := from_option language "unknown" old; category := from_option category 4 old;
     last_modified := now; created_at := from_option created_at now old;
     content_hash := Some hash; batch_id := from_option batch_id 0 old |}.

Definition put_parsed (batch now : Z) (l : list ParsedFile) (o : Overlay) : Overlay :=
  foldl (λ o p, put (parsed_path p) (parsed_row batch now p) o) o l.

Definition put_hashes (now : Z) (l : list (string * option string)) (o : Overlay) : Overlay :=
  foldl (λ o x, match x.2 with Some h => put x.1 (hashed_row now h) o | None => o end) o l.

(** What a call that succeeds does to the overlay. *)
Definition applied (batch : Z) (w : Work) (o : Overlay) : Overlay :=
  match w with
  | RegisterOverrides _ paths _ => hide paths o
  | PrepareBm25 _ _ paths | RegisterDeletedFiles _ _ _ paths => hide (map normalize_project_path paths) o
  | PrepareEmbedding _ _ path => hide [normalize_project_path path] o
  | ClearRows _ _ => o
  | StoreParsed _ now l => put_parsed batch now l o
  | PublishHashes _ now l => put_hashes now l o
  end.

(** The overlay laid over the files of the parent. *)
Definition shown (base : string → option FileData) (o : Overlay) (path : string) : option FileData :=
  match own o !! path with
  | Some d => Some d
  | None => if decide (path ∈ hidden o) then None else base path
  end.

(** ** The tables implement the overlay *)

Definition implements (e : Z) (o : Overlay) (d : Db) : Prop :=
  (∀ path, file_data <$> files (tables d) !! (e, path) = own o !! path) ∧
  (∀ path, is_Some (Manifests.overrides (manifests d) !! (e, path)) ↔ path ∈ hidden o).

(** Nothing but the generation [e] changes. *)
Definition only (e : Z) (d d' : Db) : Prop :=
  (∀ k, k.1 ≠ e → files (tables d') !! k = files (tables d) !! k) ∧
  (∀ k, k.1 ≠ e → Manifests.overrides (manifests d') !! k = Manifests.overrides (manifests d) !! k) ∧
  Manifests.publications (manifests d') = Manifests.publications (manifests d) ∧
  Manifests.relations (manifests d') = Manifests.relations (manifests d).

Lemma only_refl e d : only e d d.
Proof. done. Qed.

Lemma only_trans e d1 d2 d3 : only e d1 d2 → only e d2 d3 → only e d1 d3.
Proof.
  intros (F1 & O1 & P1 & R1) (F2 & O2 & P2 & R2). split_and!; [|intros k Hk..|congruence|congruence].
  - intros k Hk. by rewrite F2, F1. - by rewrite O2, O1.
Qed.

(** A change of the database that takes one overlay to another. *)
Definition simulates (e : Z) (f : Overlay → Overlay) (d d' : Db) : Prop :=
  only e d d' ∧ ∀ o, implements e o d → implements e (f o) d'.

Lemma simulates_refl e d : simulates e id d d.
Proof. by split. Qed.

Lemma simulates_trans e f g d1 d2 d3 :
  simulates e f d1 d2 → simulates e g d2 d3 → simulates e (λ o, g (f o)) d1 d3.
Proof. intros [O1 I1] [O2 I2]. split; [by eapply only_trans|]. auto. Qed.

Lemma simulates_foldl {A} e (f : A → Overlay → Overlay) (g : A → Db → Db) l d :
  (∀ x d, simulates e (f x) d (g x d)) →
  simulates e (λ o, foldl (λ o x, f x o) o l) d (foldl (λ d x, g x d) d l).
Proof.
  intros Hx. revert d. induction l as [|x l IH]; intros d; cbn; [apply simulates_refl|].
  exact (simulates_trans e (f x) _ d (g x d) _ (Hx x d) (IH (g x d))).
Qed.

(** A change of the rows below a file keeps the overlay. *)
Lemma simulates_same_files e t m d :
  files t = files (tables d) → Manifests.overrides m = Manifests.overrides (manifests d) →
  Manifests.publications m = Manifests.publications (manifests d) →
  Manifests.relations m = Manifests.relations (manifests d) →
  simulates e id d {| tables := t; manifests := m |}.
Proof.
  intros Hf Ho Hp Hr. split; [split_and!; cbn; try done; intros k _; by rewrite ?Hf, ?Ho|].
  intros o [Hi1 Hi2]. split; intros path; cbn; by rewrite ?Hf, ?Ho.
Qed.

Lemma simulates_override e path x d :
  simulates e (hide [path]) d (on_manifests (Manifests.override_upsert e path x) d).
Proof.
  split.
  - split_and!; cbn; try done. intros k Hk. rewrite lookup_insert_ne; [done|]. by intros <-.
  - intros o [Hi1 Hi2]. split; intros p; [done|].
    assert (Hh : p ∈ hidden (hide [path] o) ↔ p = path ∨ p ∈ hidden o) by (unfold hide; set_solver).
    rewrite Hh. cbn. destruct (decide (p = path)) as [->|].
    + rewrite lookup_insert_eq. split; [by left|by eexists].
    + rewrite lookup_insert_ne by congruence. rewrite Hi2. tauto.
Qed.

Lemma simulates_upsert e path i u f d :
  (∀ old, f old = match old with Some x => u x | None => i end) →
  simulates e (put path f) d (with_tables (upsert_file e path i u (tables d)) d).
Proof.
  intros Hf. split.
  - split_and!; cbn; try done. intros k Hk. apply upsert_file_files. by intros ->.
  - intros o [Hi1 Hi2]. split; intros p; cbn; [|done]. destruct (decide (p = path)) as [->|Hp].
    + rewrite upsert_file_data, lookup_insert_eq, Hf, <- Hi1. by destruct (files (tables d) !! (e, path)).
    + rewrite lookup_insert_ne by done. rewrite upsert_file_files by congruence. apply Hi1.
Qed.

Lemma hide_nil o : hide [] o = o.
Proof. destruct o. unfold hide. cbn. f_equal. set_solver. Qed.

Lemma hide_cons p l o : hide (p :: l) o = foldl (λ o x, hide [x] o) o (p :: l).
Proof.
  revert p o. induction l as [|q l IH]; intros p o; [done|]. cbn [foldl].
  change (foldl _ _ l) with (foldl (λ o x, hide [x] o) (hide [p] o) (q :: l)). rewrite <- IH. destruct o. unfold hide. cbn.
  f_equal. set_solver.
Qed.

Lemma hide_foldl l o : hide l o = foldl (λ o x, hide [x] o) o l.
Proof. destruct l; [by rewrite hide_nil|apply hide_cons]. Qed.

Lemma simulates_ext e f g d d' : (∀ o, f o = g o) → simulates e f d d' → simulates e g d d'.
Proof. intros Hfg [Ho Hi]. split; [done|]. intros o H. rewrite <- Hfg. auto. Qed.

(** A transaction simulates its body, or changes nothing. *)
Lemma simulates_transaction e f ok body s r s' :
  transaction ok body s = (r, s') → (∀ d, body (db s) = Ok d → simulates e f (db s) d) →
  coordinator s' = coordinator s ∧ simulates e (match r with Ok _ => f | Err _ => id end) (db s) (db s').
Proof.
  unfold transaction. destruct (body (db s)) as [d|]; [destruct ok|]; intros [= <- <-] Hs;
    (split; [done|]); [by apply Hs|apply simulates_refl..].
Qed.

Lemma store_parsed_file_files e b path lang cat now l t t' :
  store_parsed_file e b path lang cat now l t = Ok t' → files t' = files (store_file_record e b path lang cat now t).
Proof.
  unfold store_parsed_file. destruct (file_id <$> _) as [id|]; [|done].
  destruct (insert_batch _ _ _ _) as [[ids t2]|] eqn:Hb; [|done]. intros [= <-].
  rewrite (proj1 (link_parents_keeps _ _)). exact (proj1 (insert_batch_keeps _ _ _ _ _ _ Hb)).
Qed.

Lemma simulates_store_all e b now l d t :
  store_all e b now l (tables d) = Ok t →
  simulates e (put_parsed b now l) d (with_tables t d).
Proof.
  revert d. induction l as [|p l IH]; intros d; cbn.
  - intros [= <-]. destruct d. apply simulates_refl.
  - destruct (store_parsed_file _ _ _ _ _ _ _ _) as [t1|] eqn:H1; cbn; [|done]. intros H2.
    apply (simulates_trans e (put (parsed_path p) (parsed_row b now p)) (put_parsed b now l) d (with_tables t1 d));
      [|exact (IH (with_tables t1 d) H2)].
    apply (simulates_trans e (put (parsed_path p) (parsed_row b now p)) id d
      (with_tables (store_file_record e b (parsed_path p) (parsed_language p) (parsed_category p) now (tables d)) d)).
    + apply simulates_upsert. by intros [].
    + apply simulates_same_files; [|done..]. exact (store_parsed_file_files _ _ _ _ _ _ _ _ _ H1).
Qed.

(** A change of the rows below a file, and then a hidden path. *)
Lemma simulates_prepare e kind l d :
  simulates e (hide l) d
    (foldl (λ d p, {| tables := clear_point_chunks e p kind (tables d);
                      manifests := Manifests.override_upsert e p Manifests.Replaced (manifests d) |}) d l).
Proof.
  eapply simulates_ext; [symmetry; apply hide_foldl|]. apply (simulates_foldl _ (λ x, hide [x])). intros x d0.
  apply (simulates_trans _ id (hide [x]) d0 (with_tables (clear_point_chunks e x kind (tables d0)) d0)).
  - by apply (simulates_same_files e _ (manifests d0) d0).
  - exact (simulates_override e x _ (with_tables _ d0)).
Qed.

Lemma simulates_clear_rows e l d :
  simulates e id d (with_tables (foldl (λ t p, clear_candidate_file_rows e p t) (tables d) l) d).
Proof.
  apply simulates_same_files; [|done..]. generalize (tables d). induction l as [|p l IH]; intros t; cbn; [done|].
  rewrite IH. done.
Qed.

Lemma simulates_overrides e x l d :
  simulates e (hide l) d (on_manifests (λ m, foldl (λ m p, Manifests.override_upsert e p x m) m l) d).
Proof.
  assert (He : ∀ d : Db, on_manifests (λ m, foldl (λ m p, Manifests.override_upsert e p x m) m l) d =
    foldl (λ (d : Db) p, on_manifests (Manifests.override_upsert e p x) d) d l).
  { induction l as [|p l IH]; intros d0; cbn; [by destruct d0|]. by rewrite <- IH. }
  rewrite He. eapply simulates_ext; [symmetry; apply hide_foldl|].
  apply (simulates_foldl _ (λ x, hide [x])). intros y d0. apply simulates_override.
Qed.

Lemma simulates_hashes e now l d :
  simulates e (put_hashes now l) d (with_tables
    (foldl (λ t x, match x.2 with Some h => insert_hash_for_epoch e x.1 h now t | None => t end) (tables d) l) d).
Proof.
  revert d. induction l as [|[p [h|]] l IH]; intros d; cbn; [destruct d; apply simulates_refl| |apply IH].
  apply (simulates_trans e (put p (hashed_row now h)) (put_hashes now l) d (with_tables (insert_hash_for_epoch e p h now (tables d)) d)).
  - apply simulates_upsert. by intros [].
  - exact (IH (with_tables (insert_hash_for_epoch e p h now (tables d)) d)).
Qed.

Lemma register_overrides_simulates ok paths x s r s' :
  register_overrides ok paths x s = (r, s') →
  coordinator s' = coordinator s ∧
  simulates (epoch (coordinator s)) (match r with Ok _ => hide paths | Err _ => id end) (db s) (db s').
Proof.
  unfold register_overrides. destruct paths as [|p0 l0].
  - intros [= <- <-]. split; [done|]. eapply simulates_ext; [symmetry; apply hide_nil|apply simulates_refl].
  - intros Ht. apply (simulates_transaction _ _ _ _ _ _ _ Ht). intros d [= <-].
    exact (simulates_overrides _ x (p0 :: l0) (db s)).
Qed.

Lemma clear_rows_simulates ok paths s r s' :
  clear_candidate_file_rows_batch ok paths s = (r, s') →
  coordinator s' = coordinator s ∧ simulates (epoch (coordinator s)) id (db s) (db s').
Proof.
  unfold clear_candidate_file_rows_batch. destruct paths as [|p0 l0].
  - intros [= <- <-]. split; [done|apply simulates_refl].
  - intros Ht. destruct (simulates_transaction (epoch (coordinator s)) id _ _ _ _ _ Ht) as [Hc Hs].
    + intros d [= <-]. exact (simulates_clear_rows _ (p0 :: l0) (db s)).
    + split; [done|]. by destruct r.
Qed.

Lemma register_deleted_simulates store_ok rows_ok over_ok paths s r s' :
  register_deleted store_ok rows_ok over_ok paths s = (r, s') →
  coordinator s' = coordinator s ∧
  simulates (epoch (coordinator s)) (match r with Ok _ => hide paths | Err _ => id end) (db s) (db s').
Proof.
  unfold register_deleted. destruct store_ok; [|intros [= <- <-]; split; [done|apply simulates_refl]].
  destruct (clear_candidate_file_rows_batch _ _ _) as [r1 s1] eqn:H1.
  destruct (clear_rows_simulates _ _ _ _ _ H1) as [Hc1 Hs1]. destruct r1 as [[]|e]; [|by intros [= <- <-]].
  intros H2. destruct (register_overrides_simulates _ _ _ _ _ _ H2) as [Hc2 Hs2]. split; [congruence|].
  rewrite Hc1 in Hs2. destruct r; exact (simulates_trans _ id _ _ _ _ Hs1 Hs2).
Qed.

(** A call that succeeds does to the tables what it does to the overlay, one that
    fails leaves the overlay as it is, and neither touches another generation. *)
Lemma perform_simulates w s r s' :
  perform w s = (r, s') →
  coordinator s' = coordinator s ∧
  simulates (epoch (coordinator s)) (match r with Ok _ => applied (batch (coordinator s)) w | Err _ => id end) (db s) (db s').
Proof.
  destruct w as [store_ok ok paths|store_ok ok path|ok paths|ok paths x|store_ok rows_ok over_ok paths|ok now l|ok now l];
    cbn [perform applied].
  - unfold prepare_hot_update_bm25. destruct paths as [|p0 l0].
    { intros [= <- <-]. split; [done|]. eapply simulates_ext; [symmetry; apply hide_nil|apply simulates_refl]. }
    destruct store_ok; [|intros [= <- <-]; split; [done|apply simulates_refl]].
    intros Ht. apply (simulates_transaction _ _ _ _ _ _ _ Ht). intros d [= <-].
    exact (simulates_prepare _ "nl" (map normalize_project_path (p0 :: l0)) (db s)).
  - unfold prepare_hot_update_embedding. destruct store_ok; [|intros [= <- <-]; split; [done|apply simulates_refl]].
    intros Ht. apply (simulates_transaction _ _ _ _ _ _ _ Ht). intros d [= <-].
    exact (simulates_prepare _ "emb" [normalize_project_path path] (db s)).
  - intros Ht. destruct (clear_rows_simulates _ _ _ _ _ Ht) as [Hc Hs]. split; [done|]. by destruct r as [[]|].
  - apply register_overrides_simulates.
  - unfold register_deleted_files. destruct paths as [|p0 l0].
    { intros [= <- <-]. split; [done|]. eapply simulates_ext; [symmetry; apply hide_nil|apply simulates_refl]. }
    destruct (has_hot_update_candidate s); [|intros [= <- <-]; split; [done|apply simulates_refl]].
    apply register_deleted_simulates.
  - unfold store_parsed_files. intros Ht. apply (simulates_transaction _ _ _ _ _ _ _ Ht). intros d.
    destruct (store_all _ _ _ _ _) as [t|] eqn:Hs; cbn; [|done]. intros [= <-]. by apply simulates_store_all.
  - unfold publish_file_hashes. intros Ht. apply (simulates_transaction _ _ _ _ _ _ _ Ht). intros d [= <-].
    apply simulates_hashes.
Qed.

(** All of the calls, seen as the overlay they leave. *)
Lemma perform_all_simulates l s done s' :
  perform_all l s = (done, s') →
  coordinator s' = coordinator s ∧
  simulates (epoch (coordinator s)) (λ o, foldl (λ o w, applied (batch (coordinator s)) w o) o done) (db s) (db s').
Proof.
  revert s done s'. induction l as [|w l IH]; intros s done s'; cbn.
  - intros [= <- <-]. split; [auto|apply simulates_refl].
  - destruct (perform w s) as [r s1] eqn:H1, (perform_all l s1) as [done1 s2] eqn:H2. intros [= <- <-].
    destruct (perform_simulates _ _ _ _ H1) as [Hc1 Hs1]. destruct (IH _ _ _ H2) as [Hc2 Hs2]. split; [congruence|].
    rewrite Hc1 in Hs2. destruct r as [[]|].
    + exact (simulates_trans _ (applied (batch (coordinator s)) w)
        (λ o, foldl (λ o w, applied (batch (coordinator s)) w o) o done1) _ _ _ Hs1 Hs2).
    + exact (simulates_trans _ id (λ o, foldl (λ o w, applied (batch (coordinator s)) w o) o done1) _ _ _ Hs1 Hs2).
Qed.

(** ** Beginning a candidate *)

Lemma find_by_operation_update op p f (m : Manifests.Store (SnapshotDelta := SnapshotDelta)) :
  (∀ r, Manifests.operation (f r) = Manifests.operation r) →
  Manifests.find_by_operation op m = None → Manifests.find_by_operation op (Manifests.update_rows p f m) = None.
Proof.
  intros Hf Hn. apply Manifests.newest_None. intros r. cbn. rewrite list_elem_of_In, in_map_iff.
  setoid_rewrite <- list_elem_of_In. intros (x & <- & Hx). apply bool_decide_eq_false.
  pose proof (Manifests.find_by_operation_None op m x Hn Hx) as Hne. destruct (p x); [|done].
  specialize (Hf x). unfold Manifests.operation in *. congruence.
Qed.

(** The active generation is compacted into one without a parent that shows what
    was published. *)
Record compacted (de : Z) (base : string → option FileData) (c : Coordinator) (op : string) (s : State) : Prop := {
  compacted_ok : gen_ok (db s);
  compacted_active : ∃ a, Manifests.get_active (manifests (db s)) = Some a ∧ Manifests.data_epoch a = de ∧
    Manifests.parent_data_epoch a = None;
  compacted_base : ∀ path, file_data <$> files (tables (db s)) !! (de, path) = base path;
  compacted_coordinator : coordinator s = c;
  compacted_fresh : Manifests.find_by_operation op (manifests (db s)) = None
}.

Lemma compaction_compacts f op a p s s' :
  gen_ok (db s) → Manifests.get_active (manifests (db s)) = Some a → Manifests.parent_data_epoch a = Some p →
  covered (Manifests.data_epoch a) p (db s) → Manifests.find_by_operation op (manifests (db s)) = None →
  compact_generation json f (Manifests.operation_id a) (Manifests.data_epoch a) p s = (Ok (), s') →
  compacted (Manifests.data_epoch a) (published (db s)) (coordinator s) op s'.
Proof.
  intros Hd Ha Hp Hcov Hop Hc. destruct (compact_generation_Ok _ _ _ _ _ _ _ Hc) as (t & Ht & ->).
  destruct (get_active_row _ _ (gen_rows _ Hd) Ha) as (r & Hra & Hr & _).
  assert (Hlt : 0 < p < Manifests.data_epoch a).
  { rewrite <- Hra. apply (gen_parents _ Hd r Hr). by rewrite Hra. }
  pose proof (gen_ok_set_parent (Manifests.operation_id a) None (db s) ltac:(done) Hd) as [Hrows Hpar].
  split; cbn [db with_db coordinator].
  - split; [by eapply Manifests.rows_ok_same, Hrows|]. exact Hpar.
  - exists (Manifests.with_parent None a). split; [|done].
    exact (set_parent_active _ None _ a (gen_rows _ Hd) Ha eq_refl).
  - intros path. rewrite (published_active _ a path Hd Ha), Hp.
    assert (Hne : Manifests.data_epoch a ≠ p) by lia.
    rewrite <- (compaction_keeps_shows _ _ _ t (db s) path (manifests (db s)) Hne Hcov Ht).
    unfold generation_shows. cbn. by destruct (files t !! _).
  - done.
  - apply (find_by_operation_update op _ _ (manifests (db s))); done.
Qed.

Lemma compacted_without_parent op a s :
  gen_ok (db s) → Manifests.get_active (manifests (db s)) = Some a → Manifests.parent_data_epoch a = None →
  Manifests.find_by_operation op (manifests (db s)) = None →
  compacted (Manifests.data_epoch a) (published (db s)) (coordinator s) op s.
Proof.
  intros Hd Ha Hp Hop. split; [done|by exists a| |done|done]. intros path.
  rewrite (published_active _ a path Hd Ha), Hp. unfold generation_shows. cbn. by destruct (files _ !! _).
Qed.

(** What holds from the begin of a candidate to its end. *)
Record session (op : string) (de : Z) (base : string → option FileData) (o : Overlay) (s : State) : Prop := {
  session_ok : gen_ok (db s);
  session_active : ∃ a, Manifests.get_active (manifests (db s)) = Some a ∧ Manifests.data_epoch a = de ∧
    Manifests.parent_data_epoch a = None;
  session_base : ∀ path, file_data <$> files (tables (db s)) !! (de, path) = base path;
  session_epoch : epoch (coordinator s) = de + 1 ∧ 0 < de;
  session_row : ∃ r, Manifests.find_by_operation op (manifests (db s)) = Some r ∧
    Manifests.state (Manifests.manifest r) = Manifests.Building ∧
    Manifests.parent_data_epoch (Manifests.manifest r) = Some de ∧
    Manifests.data_epoch (Manifests.manifest r) = de + 1 ∧
    ∀ r', r' ∈ Manifests.publications (manifests (db s)) → Manifests.state (Manifests.manifest r') = Manifests.Active →
      Manifests.publication r' < Manifests.publication r;
  session_overlay : implements (de + 1) o (db s)
}.

Lemma session_published op de base o s path : session op de base o s → published (db s) path = base path.
Proof.
  intros [Hd (a & Ha & <- & Hp) Hb _ _ _]. rewrite (published_active _ a path Hd Ha), Hp, <- Hb.
  unfold generation_shows. cbn. by destruct (files _ !! _).
Qed.

Lemma session_only op de base o s s' :
  session op de base o s → coordinator s' = coordinator s → only (de + 1) (db s) (db s') →
  ∀ o', implements (de + 1) o' (db s') → session op de base o' s'.
Proof.
  intros [[Hrows Hpar] Ha Hb [He Hpos] Hr _] Hc (Hf & Ho & Hp & Hrel) o' Hi. split; [|..|exact Hi].
  - split; [by eapply Manifests.rows_ok_same|]. by rewrite Hp.
  - unfold Manifests.get_active, Manifests.newest. by rewrite Hp.
  - intros path. by rewrite Hf by (cbn; lia).
  - by rewrite Hc.
  - unfold Manifests.find_by_operation, Manifests.newest. by rewrite Hp.
Qed.

(** The overlay of a session follows the calls that succeed. *)
Lemma perform_all_session op de base o l s done s' :
  session op de base o s → perform_all l s = (done, s') →
  session op de base (foldl (λ o w, applied (batch (coordinator s)) w o) o done) s' ∧ coordinator s' = coordinator s.
Proof.
  intros Hs Hl. destruct (perform_all_simulates _ _ _ _ Hl) as [Hc [Ho Hi]].
  pose proof (session_epoch _ _ _ _ _ Hs) as [He _]. rewrite He in Ho, Hi. split; [|done].
  apply (session_only op de base o s s' Hs Hc Ho), Hi, Hs.
Qed.

(** The row a fresh candidate is registered with. *)
Definition candidate_row (candidate : Z) (op : string) (parent : option Z) (now : Z)
    (m : Manifests.Store (SnapshotDelta := SnapshotDelta)) : Manifests.Row :=
  Manifests.map_manifest Manifests.set_ready (Manifests.map_manifest (Manifests.with_parent parent)
    (Manifests.new_row (Manifests.next_publication m) candidate op None now)).

Lemma update_rows_last p f l r (m : Manifests.Store (SnapshotDelta := SnapshotDelta)) :
  (∀ x, x ∈ l → p x = false) → p r = true →
  Manifests.update_rows p f (Manifests.with_publications (l ++ [r]) m) = Manifests.with_publications (l ++ [f r]) m.
Proof.
  intros Hl Hr. unfold Manifests.update_rows, Manifests.with_publications. cbn. f_equal. rewrite map_app. cbn. rewrite Hr.
  f_equal. induction l as [|x l IH]; [done|]. cbn. rewrite (Hl x) by left. f_equal. apply IH. intros y Hy. apply Hl. by right.
Qed.

Lemma register_rows candidate op parent now (m : Manifests.Store (SnapshotDelta := SnapshotDelta)) :
  Manifests.find_by_operation op m = None →
  Manifests.mark_candidate_ready op (Manifests.set_parent_data_epoch op parent (Manifests.with_publications
    (Manifests.publications m ++ [Manifests.new_row (Manifests.next_publication m) candidate op None now]) m)) =
  Manifests.with_publications (Manifests.publications m ++ [candidate_row candidate op parent now m]) m.
Proof.
  intros Hf. assert (Hl : ∀ x, x ∈ Manifests.publications m → Manifests.of_operation op x = false).
  { intros x Hx. by apply bool_decide_eq_false, (Manifests.find_by_operation_None op m). }
  unfold Manifests.set_parent_data_epoch, Manifests.mark_candidate_ready.
  rewrite update_rows_last; [|done|by apply bool_decide_eq_true].
  rewrite update_rows_last; [done| |unfold Manifests.of_operation; cbn; by rewrite bool_decide_eq_true_2].
  intros x Hx. by rewrite (Hl x Hx).
Qed.

Lemma register_fresh candidate op parent now (d : Db) :
  Manifests.find_by_operation op (manifests d) = None →
  register_candidate candidate op parent now d =
    Ok {| tables := clear_candidate_rows candidate (tables d);
          manifests := Manifests.clear_generation candidate (Manifests.with_publications
            (Manifests.publications (manifests d) ++ [candidate_row candidate op parent now (manifests d)]) (manifests d)) |}.
Proof.
  intros Hf. unfold register_candidate, Manifests.begin_building. rewrite Hf. cbn [snd].
  rewrite <- (register_rows candidate op parent now (manifests d) Hf). done.
Qed.

Lemma register_rows_ok candidate op parent now (m : Manifests.Store (SnapshotDelta := SnapshotDelta)) :
  Manifests.rows_ok m → Manifests.find_by_operation op m = None →
  Manifests.rows_ok (Manifests.with_publications (Manifests.publications m ++ [candidate_row candidate op parent now m]) m).
Proof.
  intros Hm Hf. rewrite <- register_rows by done. do 2 (apply Manifests.rows_ok_update; [done|]).
  by apply Manifests.rows_ok_append.
Qed.

(** Registering a fresh operation opens the session with nothing of its own. *)
Lemma register_session op de base c now ok s s' :
  compacted de base c op s → 0 < de → epoch c = de + 1 →
  transaction ok (register_candidate (de + 1) op (Some de) now) s = (Ok (), s') →
  session op de base empty_overlay s' ∧ coordinator s' = c.
Proof.
  intros [[Hrows Hpar] (a & Ha & Hda & Hpa) Hb Hc Hf] Hpos He Ht.
  destruct (transaction_Ok _ _ _ _ Ht) as (d & Hd & ->). rewrite (register_fresh _ _ _ _ _ Hf) in Hd. injection Hd as <-.
  set (m := manifests (db s)) in *. set (row := candidate_row (de + 1) op (Some de) now m). split; [|done].
  pose proof (register_rows_ok (de + 1) op (Some de) now m Hrows Hf) as Hok. fold row in Hok.
  set (m' := Manifests.with_publications (Manifests.publications m ++ [row]) m) in *.
  assert (Hin : ∀ r, r ∈ Manifests.publications m' ↔ r ∈ Manifests.publications m ∨ r = row).
  { intros r. cbn. by rewrite elem_of_app, list_elem_of_singleton. }
  split; cbn [db with_db coordinator].
  - split; [by apply (Manifests.rows_ok_same m')|]. cbn -[row]. intros r [Hr| ->]%Hin; [by apply Hpar|]. cbn.
    split; [lia|]. intros p [= <-]. lia.
  - exists a. split_and!; [|done..]. rewrite <- Ha. unfold Manifests.get_active. f_equal.
    apply (Manifests.newest_iff _ m' m Hok Hrows). intros r Hst%Manifests.in_state_true. rewrite Hin.
    split; [|by left]. by intros [?| ->].
  - intros path. rewrite <- Hb. cbn [tables]. rewrite clear_candidate_rows_files. cbn. by rewrite (proj2 (Z.eqb_neq _ _)) by lia.
  - by rewrite Hc.
  - exists row. split_and!; try done.
    + apply (Manifests.find_by_operation_Some op m' row Hok). split; [apply Hin; by right|done].
    + cbn -[row]. intros r [Hr| ->]%Hin Hst; [|done]. by apply (Manifests.next_publication_gt m r).
  - split; intros path; cbn [tables manifests empty_overlay own hidden].
    + rewrite clear_candidate_rows_files. cbn. by rewrite Z.eqb_refl.
    + rewrite clear_generation_overrides. cbn. rewrite decide_True by done. split; [by intros []|set_solver].
Qed.

(** What an update may begin from: a published generation, every own row of which
    that its parent has too is overridden. *)
Record startable (op : string) (de : Z) (s : State) : Prop := {
  startable_ok : gen_ok (db s);
  startable_active : ∃ a, Manifests.get_active (manifests (db s)) = Some a ∧ Manifests.data_epoch a = de ∧
    ∀ p, Manifests.parent_data_epoch a = Some p → covered de p (db s);
  startable_epoch : 0 < de < i64_max;
  startable_fresh : Manifests.find_by_operation op (manifests (db s)) = None
}.

Lemma prepare_session f op now s e s' de :
  startable op de s → prepare_candidate json f op now s = (Ok e, s') →
  session op de (published (db s)) empty_overlay s' ∧ e = de + 1 ∧
  coordinator s' = coordinator (set_candidate_relation_epoch 0 (set_epoch (de + 1) s)).
Proof.
  intros [Hd (a & Ha & <- & Hcov) He Hf]. unfold prepare_candidate. destruct (active_read f); [|done].
  unfold active_generation. rewrite Ha.
  assert (Hc : Z.max (next_epoch (Manifests.data_epoch a)) 1 = Manifests.data_epoch a + 1) by (unfold next_epoch; lia).
  assert (Hx : expected_parent (Manifests.data_epoch a) = Some (Manifests.data_epoch a)).
  { unfold expected_parent. by rewrite (proj2 (Z.ltb_lt _ _)) by lia. }
  cbv zeta. rewrite Hc, Hx. set (s1 := set_candidate_relation_epoch 0 _).
  destruct (match Manifests.parent_data_epoch a with Some p => _ | None => _ end) as [[[]|] s2] eqn:Hcomp; [|done].
  assert (Hcpt : compacted (Manifests.data_epoch a) (published (db s)) (coordinator s1) op s2).
  { destruct (Manifests.parent_data_epoch a) as [p|] eqn:Hp.
    - exact (compaction_compacts f op a p s1 s2 Hd Ha Hp (Hcov p eq_refl) Hf Hcomp).
    - injection Hcomp as <-. exact (compacted_without_parent op a s1 Hd Ha Hp Hf). }
  destruct (stores_cleared f); [|done].
  destruct (transaction _ _ s2) as [[[]|] s3] eqn:Hreg; [|done]. intros [= <- <-].
  destruct (register_session op _ _ (coordinator s1) now _ s2 s3 Hcpt ltac:(lia) eq_refl Hreg) as [Hs Hc3]. done.
Qed.

Lemma adopt_fresh op (resume : bool) (s : State) :
  Manifests.find_by_operation op (manifests (db s)) = None →
  (if resume then try_adopt_existing_candidate op s else (None, s)) = (None, s).
Proof.
  intros Hf. destruct resume; [|done]. unfold try_adopt_existing_candidate, Manifests.get_building_by_operation.
  rewrite (proj2 (Manifests.newest_None _ _)); [done|]. intros r Hr.
  pose proof (Manifests.find_by_operation_None op _ r Hf Hr) as Hne.
  unfold Manifests.of_operation. by rewrite bool_decide_eq_false_2.
Qed.

Lemma begin_session f op resume now s e s' de :
  startable op de s → candidate_operation (coordinator s) = None →
  begin_hot_update_candidate json f op resume now s = (Ok e, s') →
  session op de (published (db s)) empty_overlay s' ∧ e = de + 1 ∧
  coordinator s' = {| epoch := de + 1; batch := batch (coordinator s); candidate_relation_epoch := 0;
                      candidate_operation := Some op |}.
Proof.
  intros Hs Hc. unfold begin_hot_update_candidate. rewrite Hc. destruct (resume && negb (adopt_read f)); [done|].
  rewrite (adopt_fresh op resume (set_candidate (Some op) s) (startable_fresh _ _ _ Hs)). destruct (prepare_candidate _ _ _ _ _) as [[e'|] s3] eqn:Hp.
  - intros [= <- <-].
    assert (Hs1 : startable op de (set_candidate (Some op) s)) by by destruct Hs; split.
    exact (prepare_session f op now _ _ _ de Hs1 Hp).
  - by destruct (fail_project_manifest _ _ _ _).
Qed.

(** ** Ending a candidate *)

Lemma activate_session op de base o ok now nr nw s s' :
  session op de base o s → activate_hot_update_candidate ok op now nr nw s = (Ok (), s') →
  (∀ path, published (db s') path = shown base o path) ∧
  gen_ok (db s') ∧ candidate_operation (coordinator s') = None ∧
  ∃ a, Manifests.get_active (manifests (db s')) = Some a ∧ Manifests.data_epoch a = de + 1 ∧
    Manifests.parent_data_epoch a = Some de ∧ implements (de + 1) o (db s') ∧
    (∀ path, file_data <$> files (tables (db s')) !! (de, path) = base path).
Proof.
  intros [[Hrows Hpar] _ Hb [He Hpos] (r0 & Hr0 & Hst0 & Hp0 & Hd0 & Hnew) Hi]. unfold activate_hot_update_candidate.
  destruct (if _ <? _ then _ else _) as [relation|]; [|done].
  destruct (activate_project_manifest _ _ _ _ _ _ _) as [[[]|] s1] eqn:Ha; [|done]. intros [= <-].
  unfold activate_project_manifest in Ha. destruct (transaction_Ok _ _ _ _ Ha) as (d & Hd & ->). rewrite He in Hd.
  destruct (Manifests.activate _ _ _ _ _ _ _ _) as [[m m']|] eqn:Hact; [|done]. injection Hd as <-.
  destruct (Manifests.activate_active _ _ _ _ _ _ _ _ _ _ Hrows Hact) as
    (s2 & m2 & r & r' & parent & Hga & Hbeg & Hpd & Hrep & Hov & Hparent & _).
  { intros r1. rewrite Hr0. intros [= <-]. split; [by rewrite Hst0|done]. }
  pose proof (Manifests.begun_data _ _ _ _ _ _ Hbeg) as Hda.
  pose proof (Manifests.begun_building _ _ _ _ _ _ Hbeg r0 Hr0 ltac:(by rewrite Hst0)) as ->.
  destruct (Manifests.begun_known _ _ _ _ _ _ Hbeg r0 Hr0) as (_ & Hpr & _).
  destruct (Manifests.published_is _ _ _ _ _ _ _ _ Hpd) as (_ & Hd' & _ & _ & Hp').
  rewrite Hp0, Hpr, Hp0 in Hparent. rewrite Hparent in Hp'. rewrite Hda in Hd'.
  set (s' := set_candidate None _).
  assert (Hok : gen_ok (db s')).
  { split; [exact (Manifests.published_ok _ _ _ _ _ _ _ _ Hpd)|]. cbn. intros x [[Hx _]| ->]%(proj2 Hrep); [by apply Hpar|].
    rewrite Hd', Hp'. split; [lia|]. intros p [= <-]. lia. }
  assert (Hi' : implements (de + 1) o (db s')).
  { destruct Hi as [Hi1 Hi2]. split; [done|]. intros path. rewrite <- Hi2. cbn. by rewrite Hov. }
  split_and!; [|done|done|by exists (Manifests.manifest r')].
  intros path. rewrite (published_active _ _ path Hok Hga), Hd', Hp'. destruct Hi' as [Hi1 Hi2].
  unfold generation_shows, shown. rewrite <- Hi1. destruct (files (tables (db s')) !! (de + 1, path)); [done|]. cbn.
  destruct (decide (is_Some _)) as [Hh|Hh], (decide (path ∈ hidden o)) as [Hh'|Hh']; [done| | |apply Hb].
  - by destruct Hh'; apply Hi2. - by destruct Hh; apply Hi2.
Qed.

(** The overlay of the calls that succeeded. *)
Definition overlay_of (batch : Z) (done : list Work) : Overlay := foldl (λ o w, applied batch w o) empty_overlay done.

Lemma begin_perform f op resume now s e s1 l done s2 de :
  startable op de s → candidate_operation (coordinator s) = None →
  begin_hot_update_candidate json f op resume now s = (Ok e, s1) → perform_all l s1 = (done, s2) →
  session op de (published (db s)) empty_overlay s1 ∧
  session op de (published (db s)) (overlay_of (batch (coordinator s)) done) s2 ∧ e = de + 1 ∧
  coordinator s2 = coordinator s1 ∧ batch (coordinator s1) = batch (coordinator s) ∧
  candidate_operation (coordinator s1) = Some op ∧ candidate_relation_epoch (coordinator s1) = 0.
Proof.
  intros Hs Hc Hb Hl. destruct (begin_session _ _ _ _ _ _ _ _ Hs Hc Hb) as (Hses & -> & Hcs).
  destruct (perform_all_session _ _ _ _ _ _ _ _ Hses Hl) as [Hses2 Hc2]. rewrite Hcs in Hses2 |- *. cbn in *.
  split_and!; try done. congruence.
Qed.

Lemma covered_shown own_epoch parent base o (d : Db) :
  implements own_epoch o d → (∀ path, file_data <$> files (tables d) !! (parent, path) = base path) →
  (∀ path, is_Some (own o !! path) → is_Some (base path) → path ∈ hidden o) → covered own_epoch parent d.
Proof.
  intros [Hi1 Hi2] Hb Hreg path Ho Hp. apply Hi2, Hreg; rewrite <- ?Hi1, <- ?Hb; by apply fmap_is_Some.
Qed.

(** C2. A hot update publishes its changes and nothing else. From its begin to its
    activation the queries see what they saw before; the activation shows the
    files the calls that succeeded stored, hides those they registered, and leaves
    every other file as it was, whatever the calls that failed. If every stored
    file that existed was registered, the next update can begin from the result. *)
Theorem hot_update_publishes_changes f op resume now s e s1 l done s2 ok now_a nr nw s3 de :
  startable op de s → candidate_operation (coordinator s) = None →
  begin_hot_update_candidate json f op resume now s = (Ok e, s1) →
  perform_all l s1 = (done, s2) →
  activate_hot_update_candidate ok op now_a nr nw s2 = (Ok (), s3) →
  let o := overlay_of (batch (coordinator s)) done in
  e = de + 1 ∧ candidate_operation (coordinator s3) = None ∧
  (∀ path, published (db s1) path = published (db s) path) ∧
  (∀ path, published (db s2) path = published (db s) path) ∧
  (∀ path, published (db s3) path = shown (published (db s)) o path) ∧
  ((∀ path, is_Some (own o !! path) → is_Some (published (db s) path) → path ∈ hidden o) →
   ∀ op2, Manifests.find_by_operation op2 (manifests (db s3)) = None → de + 1 < i64_max → startable op2 (de + 1) s3).
Proof.
  intros Hs Hc Hb Hl Ha o. destruct (begin_perform _ _ _ _ _ _ _ _ _ _ _ Hs Hc Hb Hl) as (Hs1 & Hs2 & -> & _).
  destruct (activate_session _ _ _ _ _ _ _ _ _ _ Hs2 Ha) as (Hp & Hok & Hc3 & a & Hga & Hda & Hpa & Hi & Hbase).
  split_and!; [done|done| | |done|].
  - intros path. by apply (session_published op de _ empty_overlay).
  - intros path. by apply (session_published op de _ o).
  - intros Hreg op2 Hf Hlt. pose proof (startable_epoch _ _ _ Hs) as Hpos. split; [done| |lia|done].
    exists a. split_and!; [done..|]. rewrite Hpa. intros p [= <-].
    by apply (covered_shown (de + 1) de (published (db s)) o).
Qed.

(** Marking an operation failed does not touch the active publication. *)
Lemma mark_failed_keeps op reason (d : Db) :
  gen_ok d →
  gen_ok (on_manifests (Manifests.mark_failed op reason) d) ∧
  Manifests.get_active (Manifests.mark_failed op reason (manifests d)) = Manifests.get_active (manifests d).
Proof.
  intros [Hrows Hpar]. assert (Hrows' : Manifests.rows_ok (Manifests.mark_failed op reason (manifests d))) by by apply Manifests.rows_ok_update.
  assert (Hin : ∀ r, r ∈ Manifests.publications (Manifests.mark_failed op reason (manifests d)) ↔
    ∃ x, r = (if Manifests.of_operation op x && Manifests.in_state Manifests.Building x then Manifests.fail_row reason x else x) ∧
      x ∈ Manifests.publications (manifests d)).
  { intros r. cbn. by rewrite list_elem_of_fmap. }
  split; [split; [done|]|].
  - intros r (x & -> & Hx)%Hin. destruct (_ && _); exact (Hpar x Hx).
  - unfold Manifests.get_active. f_equal. apply (Manifests.newest_iff _ _ _ Hrows' Hrows).
    intros r Hst%Manifests.in_state_true. rewrite Hin. split.
    + intros (x & -> & Hx). by destruct (_ && _).
    + intros Hr. exists r. split; [|done]. unfold Manifests.in_state.
      rewrite Hst, andb_comm, bool_decide_eq_false_2; [done|discriminate].
Qed.

Lemma fail_session op de base o fail_ok cleanup_ok reason s s' :
  session op de base o s → fail_hot_update_candidate fail_ok cleanup_ok op reason s = (Ok (), s') →
  gen_ok (db s') ∧ candidate_operation (coordinator s') = None ∧
  (∃ a, Manifests.get_active (manifests (db s')) = Some a ∧ Manifests.data_epoch a = de ∧ Manifests.parent_data_epoch a = None) ∧
  (∀ path, file_data <$> files (tables (db s')) !! (de, path) = base path) ∧
  (cleanup_ok = true → ∀ path, files (tables (db s')) !! (de + 1, path) = None).
Proof.
  intros [Hok (a & Ha & Hda & Hpa) Hb [He _] _ _]. unfold fail_hot_update_candidate, fail_project_manifest.
  destruct (transaction fail_ok _ s) as [[[]|] s1] eqn:H1; [|done]. destruct (transaction_Ok _ _ _ _ H1) as (d & Hd & ->).
  injection Hd as <-. destruct (mark_failed_keeps op reason (db s) Hok) as [Hok1 Hact1].
  unfold cleanup_failed_candidate, transaction. cbn [db with_db coordinator]. rewrite He.
  destruct cleanup_ok; intros [= <-]; cbn [db with_db set_candidate coordinator candidate_operation tables manifests on_manifests with_manifests].
  - split_and!; [|done| | |].
    + destruct Hok1 as [Hr1 Hp1]. split; [by eapply Manifests.rows_ok_same, Hr1|exact Hp1].
    + exists a. by rewrite <- Hact1 in Ha.
    + intros path. rewrite clear_candidate_rows_files, <- Hb. cbn. by rewrite (proj2 (Z.eqb_neq _ _)) by lia.
    + intros _ path. rewrite clear_candidate_rows_files. cbn. by rewrite Z.eqb_refl.
  - split_and!; [done|done| |done|done]. exists a. by rewrite <- Hact1 in Ha.
Qed.

(** C21. A hot update that is given up leaves the published files as they were, frees
    the slot of the candidate, and another operation can begin. *)
Theorem failed_update_changes_nothing f op resume now s e s1 l done s2 fail_ok cleanup_ok reason s3 de :
  startable op de s → candidate_operation (coordinator s) = None →
  begin_hot_update_candidate json f op resume now s = (Ok e, s1) →
  perform_all l s1 = (done, s2) →
  fail_hot_update_candidate fail_ok cleanup_ok op reason s2 = (Ok (), s3) →
  candidate_operation (coordinator s3) = None ∧
  (∀ path, published (db s3) path = published (db s) path) ∧
  (cleanup_ok = true → ∀ path, files (tables (db s3)) !! (e, path) = None) ∧
  ∀ op2, Manifests.find_by_operation op2 (manifests (db s3)) = None → startable op2 de s3.
Proof.
  intros Hs Hc Hb Hl Hf. destruct (begin_perform _ _ _ _ _ _ _ _ _ _ _ Hs Hc Hb Hl) as (_ & Hs2 & -> & _).
  destruct (fail_session _ _ _ _ _ _ _ _ _ Hs2 Hf) as (Hok & Hc3 & (a & Ha & Hda & Hpa) & Hb3 & Hclean).
  split_and!; [done| |done|].
  - intros path. rewrite (published_active _ a path Hok Ha), Hda, Hpa. unfold generation_shows. cbn. rewrite <- Hb3.
    by destruct (files _ !! _).
  - intros op2 Hf2. split; [done| |apply Hs|done]. exists a. split_and!; [done..|]. by rewrite Hpa.
Qed.

(** A file that was stored in the candidate and is registered as deleted
    afterwards is still shown after the activation: only its chunks and entities
    are removed, and its row is not hidden by the override. *)
Theorem stored_then_deleted_stays_visible f op resume now s e s1 l done s2 paths path d s3 ok now_a nr nw s4 de :
  startable op de s → candidate_operation (coordinator s) = None →
  begin_hot_update_candidate json f op resume now s = (Ok e, s1) →
  perform_all l s1 = (done, s2) → own (overlay_of (batch (coordinator s)) done) !! path = Some d →
  path ∈ map normalize_project_path paths →
  register_deleted_files true true true paths s2 = (Ok (), s3) →
  activate_hot_update_candidate ok op now_a nr nw s3 = (Ok (), s4) →
  Manifests.overrides (manifests (db s3)) !! (e, path) ≠ None ∧ published (db s4) path = Some d.
Proof.
  intros Hs Hc Hb Hl Ho Hpath Hdel Ha.
  destruct (begin_perform _ _ _ _ _ _ _ _ _ _ _ Hs Hc Hb Hl) as (_ & Hs2 & -> & _).
  destruct (perform_simulates (RegisterDeletedFiles true true true paths) s2 _ s3 Hdel) as [Hc3 [Ho3 Hi3]].
  rewrite (proj1 (session_epoch _ _ _ _ _ Hs2)) in Ho3, Hi3.
  pose proof (session_only _ _ _ _ s2 s3 Hs2 Hc3 Ho3 _ (Hi3 _ (session_overlay _ _ _ _ _ Hs2))) as Hs3.
  destruct (activate_session _ _ _ _ _ _ _ _ _ _ Hs3 Ha) as (Hp & _). split.
  - apply not_eq_None_Some, (session_overlay _ _ _ _ _ Hs3). by apply elem_of_union_l, elem_of_list_to_set.
  - rewrite Hp. unfold shown. cbn. by rewrite Ho.
Qed.

(** When the candidate to adopt cannot be read the slot stays taken by the
    operation, so its next begin returns the current epoch of the coordinator with
    nothing prepared; any other operation is refused. *)
Theorem failed_adoption_blocks_candidate f f' op op' resume' now now' (s : State) :
  candidate_operation (coordinator s) = None → adopt_read f = false → op' ≠ op →
  let begin := begin_hot_update_candidate (SnapshotDelta := SnapshotDelta) json in
  let s1 := (begin f op true now s).2 in
  (begin f op true now s).1 = Err (Storage RelationEpochs.Query) ∧ db s1 = db s ∧
  begin f' op resume' now' s1 = (Ok (epoch (coordinator s)), s1) ∧
  begin f' op' resume' now' s1 = (Err Index, s1).
Proof.
  intros Hc Ha Hne begin s1.
  assert (Hb : begin f op true now s = (Err (Storage RelationEpochs.Query), set_candidate (Some op) s)).
  { unfold begin, begin_hot_update_candidate. by rewrite Hc, Ha. }
  subst s1. rewrite Hb. split_and!; [done|done|..]; unfold begin, begin_hot_update_candidate; cbn.
  - by rewrite bool_decide_eq_true_2. - by rewrite bool_decide_eq_false_2.
Qed.

(** ** Updates without faults *)

Lemma begin_fault_free op resume now s a :
  startable op (Manifests.data_epoch a) s → candidate_operation (coordinator s) = None →
  Manifests.get_active (manifests (db s)) = Some a → Manifests.parent_data_epoch a = None →
  ∃ s1, begin_hot_update_candidate json no_faults op resume now s = (Ok (Manifests.data_epoch a + 1), s1) ∧
    Manifests.relations (manifests (db s1)) = Manifests.relations (manifests (db s)).
Proof.
  intros Hs Hc Ha Hp. destruct Hs as [Hok _ He Hf]. unfold begin_hot_update_candidate. rewrite Hc.
  rewrite (adopt_fresh op resume (set_candidate (Some op) s) Hf), andb_false_r. unfold prepare_candidate, active_generation. cbn [active_read no_faults db set_candidate].
  rewrite Ha, Hp. cbn [stores_cleared no_faults].
  assert (Hcand : Z.max (next_epoch (Manifests.data_epoch a)) 1 = Manifests.data_epoch a + 1) by (unfold next_epoch; lia).
  rewrite Hcand. unfold transaction. cbn [db set_candidate_relation_epoch set_epoch set_candidate].
  rewrite (register_fresh _ _ _ _ _ Hf). cbn. by eexists.
Qed.

Lemma activate_relations_same relation now (m m' : Manifests.Store (SnapshotDelta := SnapshotDelta)) m1 :
  Manifests.relations m' = Manifests.relations m → Manifests.activate_relations relation now m = Ok m1 →
  ∃ m2, Manifests.activate_relations relation now m' = Ok m2.
Proof.
  intros Hr. unfold Manifests.activate_relations. rewrite Hr. destruct (relation <=? 0); [by eexists|].
  destruct (RelationEpochs.state <$> _) as [[]|]; try done; (destruct (RelationEpochs.activate _ _ _); [by eexists|done]).
Qed.

(** C31. When nothing fails, an update of a generation without a parent runs to its
    end: the candidate of the next epoch begins, and whatever its calls do the
    activation of the relation epoch that is published succeeds. *)
Theorem fault_free_update_completes op resume now s a relation m1 now_a nr nw :
  startable op (Manifests.data_epoch a) s → candidate_operation (coordinator s) = None →
  Manifests.get_active (manifests (db s)) = Some a → Manifests.parent_data_epoch a = None →
  active_relation_epoch (db s) = Ok relation → Manifests.activate_relations relation nr (manifests (db s)) = Ok m1 →
  ∃ s1, begin_hot_update_candidate json no_faults op resume now s = (Ok (Manifests.data_epoch a + 1), s1) ∧
    ∀ l, ∃ s3, activate_hot_update_candidate true op now_a nr nw (perform_all l s1).2 = (Ok (), s3).
Proof.
  intros Hs Hc Ha Hp Hrel Hm1. destruct (begin_fault_free op resume now s a Hs Hc Ha Hp) as (s1 & Hb & Hr1).
  exists s1. split; [done|]. intros l. destruct (perform_all l s1) as [done s2] eqn:Hl. cbn.
  destruct (begin_perform _ _ _ _ _ _ _ _ _ _ _ Hs Hc Hb Hl) as (_ & Hs2 & _ & Hcs & _ & _ & Hcand).
  destruct (perform_all_simulates _ _ _ _ Hl) as [_ [(_ & _ & _ & Hr2) _]]. rewrite Hr1 in Hr2.
  unfold activate_hot_update_candidate, active_relation_epoch, Manifests.project_meta. rewrite Hcs, Hcand, Hr2. cbn.
  unfold active_relation_epoch, Manifests.project_meta in Hrel. rewrite Hrel.
  destruct (activate_relations_same relation nr _ (manifests (db s2)) m1 Hr2 Hm1) as [m2 Hm2].
  destruct Hs2 as [[Hrows _] _ _ [He _] (r & Hr & Hst & _ & Hd & _) _].
  pose proof (Manifests.activate_succeeds (epoch (coordinator s2)) relation op None now_a nr nw _ m2 Hrows Hm2) as Hok.
  unfold activate_project_manifest, transaction. destruct (Manifests.activate _ _ _ _ _ _ _ _) as [[m' s']|] eqn:Hact.
  - cbn. by eexists.
  - discriminate Hok. intros r0. rewrite Hr. intros [= <-]. rewrite Hd, Hst. split; [lia|done].
Qed.
End sessions.

(** ** Examples *)

Abbreviation begin_demo f := (begin_hot_update_candidate demo_json f "hot" false 3 indexed).

(** A new version of one file; the other is removed. *)
Definition demo_work : list Work :=
  [PrepareBm25 true true ["./a.rs"]; StoreParsed true 4 [demo_parsed "a.rs" "rust2021"];
   PrepareEmbedding false true "a.rs"; RegisterDeletedFiles true true true ["b.py"]].

Abbreviation worked := (perform_all demo_work (begin_demo no_faults).2).
Abbreviation activated := (activate_hot_update_candidate true "hot" 5 5 5 worked.2).

Example demo_publishes :
  map (λ p, language <$> published (db (indexed)) p) ["a.rs"; "b.py"] = [Some "rust"; Some "python"] ∧
  map (λ p, language <$> published (db activated.2) p) ["a.rs"; "b.py"] = [Some "rust2021"; None].
Proof. split; vm_compute; reflexivity. Qed.

Lemma indexed_startable op : op ≠ "full" → startable op 1 indexed.
Proof.
  intros Hne. split.
  - split; [Manifests.rows_ok_compute|]. intros r Hr. vm_compute in Hr.
    apply list_elem_of_singleton in Hr as ->. cbn. split; [lia|discriminate].
  - destruct (Manifests.get_active (manifests (db indexed))) as [a|] eqn:Ha; [|vm_compute in Ha; discriminate Ha].
    exists a. vm_compute in Ha. injection Ha as <-. split_and!; [done|done|]. cbn. discriminate.
  - vm_compute. by split.
  - apply Manifests.newest_None. intros r Hr. vm_compute in Hr. apply list_elem_of_singleton in Hr as ->.
    apply bool_decide_eq_false. cbn. congruence.
Qed.

Lemma demo_begins : begin_demo no_faults = (Ok 2, (begin_demo no_faults).2).
Proof. apply demo_run. vm_compute. reflexivity. Qed.

Lemma demo_works : perform_all demo_work (begin_demo no_faults).2 = (worked.1, worked.2).
Proof. apply surjective_pairing. Qed.

Lemma demo_activates : activate_hot_update_candidate true "hot" 5 5 5 worked.2 = (Ok (), activated.2).
Proof. apply demo_run. vm_compute. reflexivity. Qed.

Theorem hot_update_publishes_changes_witness :
  language <$> published (db activated.2) "a.rs" = Some "rust2021" ∧ published (db activated.2) "b.py" = None ∧
  startable "next" 2 activated.2.
Proof.
  destruct (hot_update_publishes_changes demo_json no_faults "hot" false 3 indexed 2 _ demo_work _ _ true 5 5 5 _ 1
    (indexed_startable "hot" ltac:(discriminate)) eq_refl demo_begins demo_works demo_activates)
    as (_ & _ & _ & _ & Hp & Hnext).
  change (batch (coordinator indexed)) with 0 in *. rewrite !Hp. split; [vm_compute; reflexivity|].
  split; [vm_compute; reflexivity|]. apply Hnext; [|vm_compute; reflexivity|vm_compute; reflexivity].
  assert (Hall : map_Forall (λ p _, p ∈ hidden (overlay_of 0 worked.1)) (own (overlay_of 0 worked.1))).
  { apply (bool_decide_unpack _). vm_compute. exact I. }
  intros path [d Hd] _. exact (Hall path d Hd).
Defined.

Abbreviation failed := (fail_hot_update_candidate true true "hot" "stopped" worked.2).

Lemma demo_fails : fail_hot_update_candidate true true "hot" "stopped" worked.2 = (Ok (), failed.2).
Proof. apply demo_run. vm_compute. reflexivity. Qed.

Theorem failed_update_changes_nothing_witness :
  published (db failed.2) "b.py" = published (db indexed) "b.py" ∧ startable "next" 1 failed.2.
Proof.
  destruct (failed_update_changes_nothing demo_json no_faults "hot" false 3 indexed 2 _ demo_work _ _ true true "stopped" _ 1
    (indexed_startable "hot" ltac:(discriminate)) eq_refl demo_begins demo_works demo_fails) as (_ & Hp & _ & Hnext).
  split; [apply Hp|]. apply Hnext. vm_compute. reflexivity.
Defined.

Abbreviation deleted := (register_deleted_files true true true ["a.rs"] worked.2).
Abbreviation kept := (activate_hot_update_candidate true "hot" 5 5 5 deleted.2).

Lemma demo_deletes : register_deleted_files true true true ["a.rs"] worked.2 = (Ok (), deleted.2).
Proof. apply demo_run. vm_compute. reflexivity. Qed.

Lemma demo_keeps : activate_hot_update_candidate true "hot" 5 5 5 deleted.2 = (Ok (), kept.2).
Proof. apply demo_run. vm_compute. reflexivity. Qed.

Theorem stored_then_deleted_stays_visible_witness :
  ∃ d, published (db kept.2) "a.rs" = Some d ∧ language d = "rust2021".
Proof.
  assert (Ho : language <$> own (overlay_of 0 worked.1) !! "a.rs" = Some "rust2021") by (vm_compute; reflexivity).
  apply fmap_Some in Ho as (d & Hown & Hd). exists d. split; [|symmetry; exact Hd].
  assert (Hin : "a.rs" ∈ map normalize_project_path ["a.rs"]) by (vm_compute; left).
  exact (proj2 (stored_then_deleted_stays_visible demo_json no_faults "hot" false 3 indexed 2 _ demo_work _ _ ["a.rs"] "a.rs" d
    _ true 5 5 5 _ 1 (indexed_startable "hot" ltac:(discriminate)) eq_refl demo_begins demo_works Hown Hin demo_deletes demo_keeps)).
Defined.

Theorem failed_adoption_blocks_candidate_witness :
  let f := {| adopt_read := false; active_read := true; overrides_read := true; compact_rows := true; compact_stores := true;
              compact_finish := true; stores_cleared := true; register := true; fail_manifest := true |} in
  let s1 := (begin_hot_update_candidate demo_json f "hot" true 3 indexed).2 in
  db s1 = db indexed ∧ begin_hot_update_candidate demo_json no_faults "hot" true 4 s1 = (Ok 1, s1).
Proof.
  intros f s1. destruct (failed_adoption_blocks_candidate demo_json f no_faults "hot" "other" true 3 4 indexed
    eq_refl eq_refl ltac:(discriminate)) as (_ & Hdb & Hb & _). split; [exact Hdb|exact Hb].
Defined.

Theorem fault_free_update_completes_witness :
  ∃ s1, begin_demo no_faults = (Ok 2, s1) ∧
    ∃ s3, activate_hot_update_candidate true "hot" 5 5 5 (perform_all demo_work s1).2 = (Ok (), s3).
Proof.
  destruct (Manifests.get_active (manifests (db indexed))) as [a|] eqn:Ha; [|vm_compute in Ha; discriminate Ha].
  assert (He : Manifests.data_epoch a = 1 ∧ Manifests.parent_data_epoch a = None).
  { pose proof Ha as Ha'. vm_compute in Ha'. injection Ha' as <-. done. }
  destruct He as [He Hp].
  destruct (fault_free_update_completes demo_json "hot" false 3 indexed a 0 (manifests (db indexed)) 5 5 5) as (s1 & Hb & Hall).
  - rewrite He. by apply indexed_startable.
  - reflexivity.
  - exact Ha.
  - exact Hp.
  - vm_compute. reflexivity.
  - reflexivity.
  - rewrite He in Hb. exists s1. split; [exact Hb|exact (Hall demo_work)].
Defined.
End GenerationSessions.
