(* ===== verification/GenerationGc.v ===== *)
(** * Garbage collection of generations

    Models the cleanup plan of the publication manifests and its application
    (crates/infra/cce-storage-metadb-sqlite/src/repo/project_index_manifest_repo.rs,
    [generation_gc_plan] and [apply_generation_gc]) and [gc_generations] of the
    coordinator (storage_coordinator/generation/gc.rs). *)

From S2P Require Import Prelude RelationEpochs Manifests GenerationTables Generations.
From stdpp Require Import base numbers countable gmap fin_maps strings.
From Stdlib Require Import ZArith Lia.

#[local] Open Scope Z_scope.
#[local] Open Scope result_scope.

Module GenerationGc.
Import GenerationTables Generations.

Record GenerationGcPlan := {
  stale_publication_epochs : list Z;
  stale_data_epochs : list Z;
  stale_relation_epochs : list Z;
  protected_data_epochs : list Z;
  protected_relation_epochs : list Z
}.

Definition empty_plan : GenerationGcPlan :=
  {| stale_publication_epochs := []; stale_data_epochs := []; stale_relation_epochs := [];
     protected_data_epochs := []; protected_relation_epochs := [] |}.

(** [if !list.contains(&x) { list.push(x) }]. *)
Definition push_new (x : Z) (l : list Z) : list Z := if bool_decide (x ∈ l) then l else l ++ [x].
Definition push_positive (x : Z) (l : list Z) : list Z := if 0 <? x then push_new x l else l.

Section gc.
Context {SnapshotDelta : Type}.
Abbreviation Db := (@Generations.Db SnapshotDelta).
Abbreviation State := (@Generations.State SnapshotDelta).
Abbreviation Store := (@Manifests.Store SnapshotDelta).

(** The ancestors of a kept generation, at most two of them. *)
Fixpoint protect_ancestors (depth : nat) (ancestor : option Z) (m : Store) (l : list Z) : list Z :=
  match depth, ancestor with
  | S depth, Some epoch =>
      if epoch <=? 0 then l
      else protect_ancestors depth (Manifests.parent_data_epoch_of epoch m) m (push_new epoch l)
  | _, _ => l
  end.

Definition keep_row (r : Manifests.Row) (m : Store) (plan : GenerationGcPlan) : GenerationGcPlan :=
  let x := Manifests.manifest r in
  {| stale_publication_epochs := stale_publication_epochs plan;
     stale_data_epochs := stale_data_epochs plan;
     stale_relation_epochs := stale_relation_epochs plan;
     protected_data_epochs :=
       protect_ancestors 2 (Manifests.parent_data_epoch x) m
         (push_positive (Manifests.data_epoch x) (protected_data_epochs plan));
     protected_relation_epochs := push_positive (Manifests.relation_epoch x) (protected_relation_epochs plan) |}.

Definition drop_row (r : Manifests.Row) (plan : GenerationGcPlan) : GenerationGcPlan :=
  let x := Manifests.manifest r in
  {| stale_publication_epochs := stale_publication_epochs plan ++ [Manifests.publication_epoch x];
     stale_data_epochs := push_positive (Manifests.data_epoch x) (stale_data_epochs plan);
     stale_relation_epochs := push_positive (Manifests.relation_epoch x) (stale_relation_epochs plan);
     protected_data_epochs := protected_data_epochs plan;
     protected_relation_epochs := protected_relation_epochs plan |}.

Section plan.
(** Whether the checkpoint of an operation is in progress. *)
Context (checkpoint_active : string → bool) (keep_active_generations : nat) (stale_before : Z).

Definition keeps (active_count : nat) (r : Manifests.Row) : bool :=
  match Manifests.state (Manifests.manifest r) with
  | Manifests.Active => (active_count <? Nat.max keep_active_generations 1)%nat
  | Manifests.Building =>
      checkpoint_active (Manifests.operation_id (Manifests.manifest r)) || (stale_before <=? Manifests.created_at r)
  | Manifests.Failed => stale_before <=? Manifests.created_at r
  end.

(** The manifests, newest first. *)
Fixpoint scan (rows : list Manifests.Row) (m : Store) (active_count : nat) (plan : GenerationGcPlan) : GenerationGcPlan :=
  match rows with
  | [] => plan
  | r :: rows =>
      let count := match Manifests.state (Manifests.manifest r) with Manifests.Active => S active_count | _ => active_count end in
      scan rows m count (if keeps active_count r then keep_row r m plan else drop_row r plan)
  end.
End plan.

(** The epochs the metadata names. *)
Definition protect_meta (key : string) (m : Store) (l : list Z) : result (list Z) RelationEpochs.StorageError :=
  v <-? RelationEpochs.meta_get_int_optional key (Manifests.project_meta m);
  Ok (match v with Some v => push_positive v l | None => l end).

(** The chain of deltas down from the active relation epoch; [fuel] bounds the
    turns, and [None] means that it is not done. *)
Fixpoint protect_chain (fuel : nat) (current : Z) (s : RelationEpochs.Store) (l : list Z) : option (list Z) :=
  match fuel with
  | O => None
  | S fuel =>
      let l := push_new current l in
      match RelationEpochs.base_epoch <$> RelationEpochs.deltas (SnapshotDelta := SnapshotDelta) s !! current with
      | None => Some l
      | Some base => if (base <=? 0) || (base =? current) then Some l else protect_chain fuel base s l
      end
  end.

Definition protect_relations (m : Store) (l : list Z) : option (result (list Z) RelationEpochs.StorageError) :=
  match RelationEpochs.meta_get_int_optional "active_relation_epoch" (Manifests.project_meta m) with
  | Err e => Some (Err e)
  | Ok (Some current) =>
      if 0 <? current
      then Ok <$> protect_chain (S (size (RelationEpochs.deltas (Manifests.relations m)))) current (Manifests.relations m) l
      else Some (Ok l)
  | Ok None => Some (Ok l)
  end.

(** Old relation manifests nothing protects. *)
Definition stale_relations (stale_before : Z) (m : Store) (protected stale : list Z) : list Z :=
  foldl (λ stale x,
    if (0 <? x.1) && bool_decide (x.1 ∉ protected) && (RelationEpochs.created_at x.2 <? stale_before)
    then push_new x.1 stale else stale)
    stale (map_to_list (RelationEpochs.manifests (Manifests.relations m))).

Definition retain_unprotected (protected stale : list Z) : list Z := filter (λ e, e ∉ protected) stale.

Definition generation_gc_plan (checkpoint_active : string → bool) (keep_active_generations : nat) (stale_before : Z)
    (m : Store) : option (result GenerationGcPlan RelationEpochs.StorageError) :=
  let plan := scan checkpoint_active keep_active_generations stale_before (rev (Manifests.publications m)) m 0 empty_plan in
  match (l1 <-? protect_meta "active_epoch" m (protected_data_epochs plan); protect_meta "epoch" m l1) with
  | Err e => Some (Err e)
  | Ok data =>
      protected ← protect_relations m (protected_relation_epochs plan);
      Some match protected with
      | Err e => Err e
      | Ok relations =>
          Ok {| stale_publication_epochs := stale_publication_epochs plan;
                stale_data_epochs := retain_unprotected data (stale_data_epochs plan);
                stale_relation_epochs :=
                  retain_unprotected relations (stale_relations stale_before m relations (stale_relation_epochs plan));
                protected_data_epochs := data;
                protected_relation_epochs := relations |}
      end
  end.

Definition delete_publications (epochs : list Z) (m : Store) : Store :=
  Manifests.with_publications (filter (λ r, Manifests.publication r ∉ epochs) (Manifests.publications m)) m.

Definition apply_generation_gc (plan : GenerationGcPlan) (d : Db) : Db :=
  let d1 := foldl (λ d e, {| tables := clear_candidate_rows e (tables d);
                             manifests := Manifests.clear_generation e (manifests d) |}) d (stale_data_epochs plan) in
  let m2 := delete_publications (stale_publication_epochs plan) (manifests d1) in
  let m3 := Manifests.with_relations
              (RelationEpochs.delete_manifests (λ x, x.1 ∈ stale_relation_epochs plan) (Manifests.relations m2)) m2 in
  with_manifests m3 d1.

(** Reading the plan, cleaning the external stores and applying the plan, each of
    which may fail. *)
Definition gc_generations (plan_read stores_ok ok : bool) (checkpoint_active : string → bool)
    (keep_active_generations : nat) (stale_before : Z) (s : State) : option (result () OrchestratorError * State) :=
  if plan_read then
    plan ← generation_gc_plan checkpoint_active keep_active_generations stale_before (manifests (db s));
    Some match plan with
    | Err e => (Err (Storage e), s)
    | Ok plan => if stores_ok then transaction ok (λ d, Ok (apply_generation_gc plan d)) s else (Err Index, s)
    end
  else Some (Err (Storage RelationEpochs.Query), s).

Definition KEEP_ACTIVE_GENERATIONS : nat := 2.
Definition STALE_AFTER_SECS : Z := 60 * 60.

Definition gc_stale_generations (plan_read stores_ok ok : bool) (checkpoint_active : string → bool) (now : Z) (s : State) :
    option (result () OrchestratorError * State) :=
  gc_generations plan_read stores_ok ok checkpoint_active KEEP_ACTIVE_GENERATIONS (now - STALE_AFTER_SECS) s.

(** ** The plan *)

Lemma elem_of_push_new x y l : x ∈ push_new y l ↔ x = y ∨ x ∈ l.
Proof. unfold push_new. case_bool_decide; rewrite ?elem_of_app, ?list_elem_of_singleton; [|tauto]. split; [tauto|]. by intros [->|]. Qed.

Lemma elem_of_push_positive x y l : x ∈ push_positive y l ↔ (x = y ∧ 0 < y) ∨ x ∈ l.
Proof. unfold push_positive. destruct (Z.ltb_spec 0 y); [rewrite elem_of_push_new|]; intuition lia. Qed.

Lemma protect_ancestors_keeps n a m l x : x ∈ l → x ∈ protect_ancestors n a m l.
Proof.
  revert a l. induction n as [|n IH]; intros [e|] l Hx; cbn; try done. destruct (e <=? 0); [done|].
  apply IH, elem_of_push_new. by right.
Qed.

Lemma protect_ancestors_first n e m l : 0 < e → e ∈ protect_ancestors (S n) (Some e) m l.
Proof.
  intros He. cbn. rewrite (proj2 (Z.leb_gt _ _)) by done. apply protect_ancestors_keeps, elem_of_push_new. by left.
Qed.

(** Only rows that are scanned become stale, and what is protected stays so. *)
Lemma plan_scan_spec ck keep stale rows m count plan :
  let plan' := scan ck keep stale rows m count plan in
  (∀ x, x ∈ protected_data_epochs plan → x ∈ protected_data_epochs plan') ∧
  (∀ x, x ∈ stale_publication_epochs plan' →
     x ∈ stale_publication_epochs plan ∨ ∃ r, r ∈ rows ∧ Manifests.publication r = x) ∧
  (∀ x, x ∈ stale_data_epochs plan' →
     x ∈ stale_data_epochs plan ∨ ∃ r, r ∈ rows ∧ Manifests.data_epoch (Manifests.manifest r) = x ∧ 0 < x).
Proof.
  revert count plan. induction rows as [|r rows IH]; intros count plan; cbn; [auto|].
  set (plan1 := if keeps _ _ _ _ _ then _ else _). match goal with |- context [scan _ _ _ _ _ ?c plan1] => destruct (IH c plan1) as (Hp & Hs & Hd) end. clear IH.
  assert (H1 : (∀ x, x ∈ protected_data_epochs plan → x ∈ protected_data_epochs plan1) ∧
    (∀ x, x ∈ stale_publication_epochs plan1 → x ∈ stale_publication_epochs plan ∨ x = Manifests.publication r) ∧
    (∀ x, x ∈ stale_data_epochs plan1 →
       x ∈ stale_data_epochs plan ∨ (x = Manifests.data_epoch (Manifests.manifest r) ∧ 0 < x))).
  { subst plan1. destruct (keeps _ _ _ _ _); cbn -[protect_ancestors]; split_and!; auto.
    - intros x Hx. apply protect_ancestors_keeps, elem_of_push_positive. by right.
    - intros x [?| ->%list_elem_of_singleton]%elem_of_app; auto.
    - intros x [[-> ?]|?]%elem_of_push_positive; auto. }
  destruct H1 as (Hp1 & Hs1 & Hd1). split_and!; [auto|..].
  - intros x [[?|Hx]%Hs1|(r' & Hr' & Hx)]%Hs; [by left|right..].
    + exists r. split; [left|done]. + exists r'. split; [by right|done].
  - intros x [[?|[Hx ?]]%Hd1|(r' & Hr' & Hx)]%Hd; [by left|right..].
    + exists r. split; [left|done]. + exists r'. split; [by right|done].
Qed.

Lemma scan_app ck keep stale l1 l2 m plan :
  (∀ r, r ∈ l1 → Manifests.in_state Manifests.Active r = false) →
  scan ck keep stale (l1 ++ l2) m 0 plan = scan ck keep stale l2 m 0 (scan ck keep stale l1 m 0 plan).
Proof.
  revert plan. induction l1 as [|r l1 IH]; intros plan Hl; cbn; [done|].
  assert (Hr : Manifests.state (Manifests.manifest r) ≠ Manifests.Active).
  { eapply bool_decide_eq_false, Hl. left. }
  destruct (Manifests.state (Manifests.manifest r)); [|done|]; apply IH; intros r' Hr'; apply Hl; by right.
Qed.

(** The newest active publication is kept, and its data and parent protected. *)
Lemma scan_keeps_active ck keep stale m r :
  Manifests.rows_ok m → Manifests.newest (Manifests.in_state Manifests.Active) m = Some r →
  let plan := scan ck keep stale (rev (Manifests.publications m)) m 0 empty_plan in
  Manifests.publication r ∉ stale_publication_epochs plan ∧
  (0 < Manifests.data_epoch (Manifests.manifest r) → Manifests.data_epoch (Manifests.manifest r) ∈ protected_data_epochs plan) ∧
  (∀ p, Manifests.parent_data_epoch (Manifests.manifest r) = Some p → 0 < p → p ∈ protected_data_epochs plan).
Proof.
  intros Hm Hn plan. destruct (last_filter_Some _ _ _ Hn) as (l1 & l2 & Hl & Hno). rewrite Forall_forall in Hno.
  pose proof (Manifests.newest_spec _ _ _ Hm Hn) as (_ & Hact%Manifests.in_state_true & _).
  pose proof (Manifests.rows_sorted m Hm) as Hsort.
  subst plan. rewrite Hl, rev_app_distr. cbn [rev]. rewrite <- app_assoc. cbn [app].
  rewrite scan_app by (intros x Hx; apply not_true_is_false, Hno; by rewrite list_elem_of_In, <- in_rev, <- list_elem_of_In in Hx).
  set (plan0 := scan ck keep stale (rev l2) m 0 empty_plan). cbn [scan].
  assert (Hk : keeps ck keep stale 0 r = true) by (unfold keeps; rewrite Hact; apply Nat.ltb_lt; lia).
  rewrite Hk, Hact.
  destruct (plan_scan_spec ck keep stale (rev l2) m 0 empty_plan) as (_ & Hs0 & _). fold plan0 in Hs0.
  destruct (plan_scan_spec ck keep stale (rev l1) m 1 (keep_row r m plan0)) as (Hp & Hs & _). split_and!.
  - rewrite Hl in Hsort. intros [H0|(x & Hx & He)]%Hs; [destruct (Hs0 _ H0) as [Hn0|(x & Hx & He)]|];
      [by apply not_elem_of_nil in Hn0|rewrite list_elem_of_In, <- in_rev, <- list_elem_of_In in Hx..].
    + apply StronglySorted_app_1_r in Hsort. apply StronglySorted_inv in Hsort as [_ Hlt]. rewrite Forall_forall in Hlt.
      specialize (Hlt x Hx). lia.
    + pose proof (StronglySorted_app_1_elem_of _ _ _ x r Hsort Hx ltac:(left)) as Hlt. cbn in Hlt. lia.
  - intros Hd. apply Hp. cbn -[protect_ancestors]. apply protect_ancestors_keeps, elem_of_push_positive. by left.
  - intros p Hpar Hpos. apply Hp. cbn -[protect_ancestors]. rewrite Hpar. by apply protect_ancestors_first.
Qed.

Lemma protect_meta_keeps key m l l' : protect_meta key m l = Ok l' → ∀ x, x ∈ l → x ∈ l'.
Proof.
  unfold protect_meta. destruct (RelationEpochs.meta_get_int_optional _ _) as [[v|]|]; cbn; [|by intros [= <-]|done]. intros [= <-] x Hx.
  apply elem_of_push_positive. by right.
Qed.

(** What a plan is made of. *)
Lemma gc_plan_Ok ck keep stale m plan :
  generation_gc_plan ck keep stale m = Some (Ok plan) →
  let scanned := scan ck keep stale (rev (Manifests.publications m)) m 0 empty_plan in
  stale_publication_epochs plan = stale_publication_epochs scanned ∧
  (∀ x, x ∈ stale_data_epochs plan → x ∈ stale_data_epochs scanned ∧ x ∉ protected_data_epochs scanned) ∧
  (∀ x, x ∈ stale_relation_epochs plan → x ∉ protected_relation_epochs plan) ∧
  protect_relations m (protected_relation_epochs scanned) = Some (Ok (protected_relation_epochs plan)).
Proof.
  intros Hp scanned. unfold generation_gc_plan in Hp. fold scanned in Hp.
  destruct (protect_meta "active_epoch" m (protected_data_epochs scanned)) as [l1|] eqn:H1; cbn in Hp; [|done].
  destruct (protect_meta "epoch" m l1) as [l2|] eqn:H2; cbn in Hp; [|done].
  destruct (protect_relations m (protected_relation_epochs scanned)) as [[l3|]|] eqn:H3; cbn in Hp; try done.
  injection Hp as <-. cbn. split_and!; [done|..|done].
  - intros x [Hx ?]%list_elem_of_filter. split; [done|]. intros Hs. apply Hx.
    by eapply protect_meta_keeps, protect_meta_keeps.
  - intros x [Hx _]%list_elem_of_filter. done.
Qed.

Lemma clear_generations_keeps l (d : Db) :
  let d' := foldl (λ d e, {| tables := clear_candidate_rows e (tables d);
                             manifests := Manifests.clear_generation e (manifests d) |}) d l in
  (∀ k, k.1 ∉ l → files (tables d') !! k = files (tables d) !! k) ∧
  (∀ k, k.1.1 ∉ l → chunks (tables d') !! k = chunks (tables d) !! k) ∧
  (∀ k, k.1 ∉ l → Manifests.overrides (manifests d') !! k = Manifests.overrides (manifests d) !! k) ∧
  Manifests.publications (manifests d') = Manifests.publications (manifests d) ∧
  Manifests.relations (manifests d') = Manifests.relations (manifests d).
Proof.
  revert d. induction l as [|e l IH]; intros d; cbn; [done|].
  match goal with |- context [foldl _ ?d1 l] => destruct (IH d1) as (Hf & Hc & Ho & Hp & Hr) end.
  split_and!; [intros k [Hk Hl]%not_elem_of_cons..|done|done].
  - rewrite Hf by done. cbn [tables]. rewrite clear_candidate_rows_files. by rewrite (proj2 (Z.eqb_neq _ _)).
  - rewrite Hc by done. cbn [tables]. rewrite clear_candidate_rows_chunks. by rewrite (proj2 (Z.eqb_neq _ _)).
  - rewrite Ho by done. cbn [manifests]. rewrite clear_generation_overrides. by destruct (decide (k.1 = e)).
Qed.

(** Applying a plan removes the generations and publications it lists. *)
Lemma apply_gc_spec plan (d : Db) :
  let d' := apply_generation_gc plan d in
  (∀ k, k.1 ∉ stale_data_epochs plan → files (tables d') !! k = files (tables d) !! k) ∧
  (∀ k, k.1.1 ∉ stale_data_epochs plan → chunks (tables d') !! k = chunks (tables d) !! k) ∧
  (∀ k, k.1 ∉ stale_data_epochs plan →
     Manifests.overrides (manifests d') !! k = Manifests.overrides (manifests d) !! k) ∧
  Manifests.publications (manifests d') =
    filter (λ r, Manifests.publication r ∉ stale_publication_epochs plan) (Manifests.publications (manifests d)) ∧
  Manifests.relations (manifests d') =
    RelationEpochs.delete_manifests (λ x, x.1 ∈ stale_relation_epochs plan) (Manifests.relations (manifests d)).
Proof.
  destruct (clear_generations_keeps (stale_data_epochs plan) d) as (Hf & Hc & Ho & Hp & Hr).
  unfold apply_generation_gc. cbv zeta. cbn [with_manifests tables manifests Manifests.with_relations Manifests.overrides
    Manifests.publications Manifests.relations delete_publications Manifests.with_publications].
  split_and!; [done|done|done|by rewrite Hp|by rewrite Hr].
Qed.

(** ** The relation epochs *)

Lemma protect_chain_keeps fuel cur s l l' : protect_chain fuel cur s l = Some l' → cur ∈ l' ∧ ∀ x, x ∈ l → x ∈ l'.
Proof.
  revert cur l. induction fuel as [|fuel IH]; intros cur l; cbn; [done|].
  assert (Hcur : cur ∈ push_new cur l ∧ ∀ x, x ∈ l → x ∈ push_new cur l).
  { split; [|intros x ?]; apply elem_of_push_new; auto. }
  destruct (RelationEpochs.base_epoch <$> _) as [base|]; [|by intros [= <-]].
  destruct (_ || _); [intros [= <-]; exact Hcur|]. intros [_ Hl]%IH. destruct Hcur as [H1 H2]. auto.
Qed.

(** Every link of the chain of an epoch is protected. *)
Lemma protect_chain_linked fuel cur b path s l l' :
  RelationEpochs.store_ok s → RelationEpochs.linked (SnapshotDelta := SnapshotDelta) s cur b path →
  protect_chain fuel cur s l = Some l' → b ∈ l' ∧ ∀ x, x ∈ path.*1 → x ∈ l'.
Proof.
  intros Hs Hl. revert fuel l. induction Hl as [b m Hm Hst|d m row b path Hm Hst Hd Hl IH]; intros fuel l Hp.
  - split; [exact (proj1 (protect_chain_keeps _ _ _ _ _ Hp))|]. intros x Hx. by apply not_elem_of_nil in Hx.
  - pose proof (proj1 (protect_chain_keeps _ _ _ _ _ Hp)) as Hin. destruct fuel as [|fuel]; [done|]. cbn in Hp.
    rewrite Hd in Hp. cbn in Hp. destruct (RelationEpochs.deltas_reference s Hs d row Hd) as (_ & [mb Hmb] & Hlt). unfold RelationEpochs.below in Hlt.
    pose proof (RelationEpochs.epochs_positive s Hs _ _ Hmb) as Hpos.
    rewrite (proj2 (Z.leb_gt _ _)), (proj2 (Z.eqb_neq _ _)) in Hp by lia. cbn in Hp.
    destruct (IH _ _ Hp) as [Hb Hpath]. split; [done|]. intros x. rewrite fmap_app, elem_of_app.
    intros [?| ->%list_elem_of_singleton]; [by apply Hpath|done].
Qed.

Lemma linked_head s e b path :
  RelationEpochs.linked (SnapshotDelta := SnapshotDelta) s e b path →
  ∃ m, RelationEpochs.manifests s !! e = Some m ∧ (e = b ∨ e ∈ path.*1).
Proof.
  intros [b0 m Hm _|d m row b0 path0 Hm _ _ _]; exists m; split; [done|by left|done|right].
  rewrite fmap_app. apply elem_of_app. right. left.
Qed.

(** A chain none of whose epochs is deleted stays. *)
Lemma linked_delete (gone : list Z) s e b path :
  RelationEpochs.linked (SnapshotDelta := SnapshotDelta) s e b path → b ∉ gone → (∀ x, x ∈ path.*1 → x ∉ gone) →
  RelationEpochs.linked (RelationEpochs.delete_manifests (λ x, x.1 ∈ gone) s) e b path.
Proof.
  assert (Hkeep : ∀ x m, RelationEpochs.manifests s !! x = Some m → x ∉ gone →
    RelationEpochs.manifests (RelationEpochs.delete_manifests (λ x, x.1 ∈ gone) s) !! x = Some m).
  { intros x m Hm Hx. by apply map_lookup_filter_Some. }
  intros Hl. induction Hl as [b m Hm Hst|d m row b path Hm Hst Hd Hl IH]; intros Hb Hpath.
  - apply (RelationEpochs.linked_base _ b m); auto.
  - assert (Hdg : d ∉ gone). { apply Hpath. rewrite fmap_app. apply elem_of_app. right. left. }
    assert (Hpg : ∀ x, x ∈ path.*1 → x ∉ gone). { intros x Hx. apply Hpath. rewrite fmap_app. apply elem_of_app. by left. }
    assert (Hbase : ∃ mb, RelationEpochs.manifests s !! RelationEpochs.base_epoch row = Some mb ∧ RelationEpochs.base_epoch row ∉ gone).
    { destruct (linked_head _ _ _ _ Hl) as (mb & Hmb & [Heq|Hin]); exists mb; (split; [done|]); [by rewrite Heq|by apply Hpg]. }
    destruct Hbase as (mb & Hmb & Hbg).
    apply (RelationEpochs.linked_delta _ d m row b path); [auto|done| |auto].
    apply map_lookup_filter_Some. split; [done|]. cbn. split; eexists; by apply Hkeep.
Qed.

(** ** What the collection keeps *)

Lemma protect_chain_ends fuel cur s l :
  RelationEpochs.store_ok (SnapshotDelta := SnapshotDelta) s →
  (size (filter (λ x, (x.1 ≤ cur)%Z) (RelationEpochs.deltas s)) < fuel)%nat → is_Some (protect_chain fuel cur s l).
Proof.
  intros Hs. revert cur l. induction fuel as [|fuel IH]; intros cur l Hf; [lia|]. cbn.
  destruct (RelationEpochs.deltas s !! cur) as [row|] eqn:Hd; cbn; [|by eexists]. destruct (_ || _); [by eexists|].
  apply IH. pose proof (RelationEpochs.fewer_deltas s cur row Hs Hd). lia.
Qed.

Lemma gc_plan_ends ck keep stale (m : Store) :
  RelationEpochs.store_ok (Manifests.relations m) → is_Some (generation_gc_plan ck keep stale m).
Proof.
  intros Hs. unfold generation_gc_plan, protect_relations. destruct (_ <-? _; _) as [data|]; [|by eexists].
  destruct (RelationEpochs.meta_get_int_optional _ _) as [[cur|]|]; try by eexists. destruct (0 <? cur); [|by eexists].
  match goal with |- context [protect_chain ?f cur ?s ?l] =>
    destruct (protect_chain_ends f cur s l Hs (RelationEpochs.deltas_fuel s cur)) as [l' ->] end. by eexists.
Qed.

Lemma gc_generations_Ok pr so ok ck keep stale (s s' : State) :
  gc_generations pr so ok ck keep stale s = Some (Ok (), s') →
  ∃ plan, generation_gc_plan ck keep stale (manifests (db s)) = Some (Ok plan) ∧ db s' = apply_generation_gc plan (db s) ∧
    coordinator s' = coordinator s.
Proof.
  unfold gc_generations. destruct pr; [|done]. destruct (generation_gc_plan _ _ _ _) as [[plan|]|]; cbn; [|done..].
  destruct so; [|done]. unfold transaction. destruct ok; [|done]. intros [= <-]. by exists plan.
Qed.

(** C5. A collection keeps what is published: the active manifest, the files of its
    generation as the queries see them, and the chain of relation epochs the
    metadata names with all its links. *)
Theorem gc_keeps_published pr so ok ck keep stale (s s' : State) a :
  gen_ok (db s) → Manifests.get_active (manifests (db s)) = Some a →
  gc_generations pr so ok ck keep stale s = Some (Ok (), s') →
  Manifests.get_active (manifests (db s')) = Some a ∧ gen_ok (db s') ∧
  (∀ path, published (db s') path = published (db s) path) ∧
  (∀ e b path, RelationEpochs.store_ok (Manifests.relations (manifests (db s))) →
     active_relation_epoch (db s) = Ok e → RelationEpochs.linked (Manifests.relations (manifests (db s))) e b path →
     RelationEpochs.linked (Manifests.relations (manifests (db s'))) e b path).
Proof.
  intros Hok Ha Hgc. destruct (gc_generations_Ok _ _ _ _ _ _ _ _ Hgc) as (plan & Hplan & -> & _).
  destruct (gc_plan_Ok _ _ _ _ _ Hplan) as (Hpub & Hdata & Hrel & Hprel).
  destruct (apply_gc_spec plan (db s)) as (Hf & _ & Ho & Hpubs & Hrels). set (d' := apply_generation_gc plan (db s)) in *.
  destruct (get_active_row _ _ (gen_rows _ Hok) Ha) as (r & Hra & Hr & _ & Hn).
  destruct (scan_keeps_active ck keep stale _ r (gen_rows _ Hok) Hn) as (Hnp & Hnd & Hnpar).
  assert (Hok' : gen_ok d').
  { destruct Hok as [Hrows Hpar]. split.
    - apply (Manifests.rows_ok_same (Manifests.with_publications
        (filter (λ r, Manifests.publication r ∉ stale_publication_epochs plan) (Manifests.publications (manifests (db s)))) (manifests (db s))));
        [done|by apply Manifests.rows_ok_filter].
    - intros x. rewrite Hpubs. intros [_ Hx]%list_elem_of_filter. by apply Hpar. }
  assert (Ha' : Manifests.get_active (manifests d') = Some a).
  { unfold Manifests.get_active. rewrite (proj2 (Manifests.newest_Some _ _ r (gen_rows _ Hok'))); [by rewrite <- Hra|].
    destruct (Manifests.newest_spec _ _ _ (gen_rows _ Hok) Hn) as (_ & Hp & Hmax). rewrite Hpubs. split_and!; [|done|].
    - apply list_elem_of_filter. by rewrite Hpub.
    - intros x [_ Hx]%list_elem_of_filter. by apply Hmax. }
  split_and!; [done|done| |].
  - assert (Hstale : ∀ e, e = Manifests.data_epoch a ∨ Manifests.parent_data_epoch a = Some e → e ∉ stale_data_epochs plan).
    { intros e He Hst. destruct (Hdata _ Hst) as [Hst' Hnp']. apply Hnp'.
      assert (0 < e).
      { destruct (proj2 (proj2 (plan_scan_spec ck keep stale (rev (Manifests.publications (manifests (db s)))) (manifests (db s)) 0
          empty_plan)) e Hst') as [Hn0|(x & _ & _ & ?)]; [by apply not_elem_of_nil in Hn0|done]. }
      rewrite Hra in Hnd, Hnpar. destruct He as [->|He]; [by apply Hnd|by apply (Hnpar e)]. }
    apply (published_frame (db s) d' a); try done.
    + intros e path He. by rewrite Hf by by apply Hstale.
    + intros path. apply Ho. cbn. apply Hstale. by left.
  - intros e b path Hs He Hl. rewrite Hrels. destruct (linked_head _ _ _ _ Hl) as (me & Hme & _).
    pose proof (RelationEpochs.epochs_positive _ Hs _ _ Hme) as Hpos.
    assert (Hprot : b ∈ protected_relation_epochs plan ∧ ∀ x, x ∈ path.*1 → x ∈ protected_relation_epochs plan).
    { unfold active_relation_epoch in He. unfold protect_relations in Hprel.
      destruct (RelationEpochs.meta_get_int_optional _ _) as [[cur|]|]; cbn in He; try done; injection He as He; [subst cur|lia].
      rewrite (proj2 (Z.ltb_lt _ _)) in Hprel by done.
      destruct (protect_chain _ _ _ _) as [l'|] eqn:Hc; cbn in Hprel; [|done]. injection Hprel as <-.
      exact (protect_chain_linked _ _ _ _ _ _ _ Hs Hl Hc). }
    destruct Hprot as [Hb Hpath]. apply linked_delete; [done| |].
    + intros Hst. by apply (Hrel _ Hst).
    + intros x Hx Hst. by apply (Hrel _ Hst), Hpath.
Qed.

(** C34. The rows of a generation no manifest lists are never collected, whatever the
    retention: a generation that was kept as a parent while its own manifest was
    dropped stays in the tables for ever. *)
Theorem unlisted_generation_is_never_collected pr so ok ck keep stale (s s' : State) e :
  (∀ r, r ∈ Manifests.publications (manifests (db s)) → Manifests.data_epoch (Manifests.manifest r) ≠ e) →
  gc_generations pr so ok ck keep stale s = Some (Ok (), s') →
  (∀ path, files (tables (db s')) !! (e, path) = files (tables (db s)) !! (e, path)) ∧
  (∀ path id, chunks (tables (db s')) !! (e, path, id) = chunks (tables (db s)) !! (e, path, id)) ∧
  (∀ r, r ∈ Manifests.publications (manifests (db s')) → Manifests.data_epoch (Manifests.manifest r) ≠ e).
Proof.
  intros He Hgc. destruct (gc_generations_Ok _ _ _ _ _ _ _ _ Hgc) as (plan & Hplan & -> & _).
  destruct (gc_plan_Ok _ _ _ _ _ Hplan) as (_ & Hdata & _). destruct (apply_gc_spec plan (db s)) as (Hf & Hc & _ & Hpubs & _).
  assert (Hn : e ∉ stale_data_epochs plan).
  { intros [Hst _]%Hdata. destruct (proj2 (proj2 (plan_scan_spec ck keep stale (rev (Manifests.publications (manifests (db s))))
      (manifests (db s)) 0 empty_plan)) e Hst) as [Hn0|(x & Hx & Hxe & _)]; [by apply not_elem_of_nil in Hn0|].
    rewrite list_elem_of_In, <- in_rev, <- list_elem_of_In in Hx. by apply (He x). }
  split_and!; [intros path; by apply Hf|intros path id; by apply Hc|].
  intros r. rewrite Hpubs. intros [_ Hr]%list_elem_of_filter. by apply He.
Qed.

(** A collection ends: the chain of relation epochs is walked down to its base. *)
Theorem gc_ends pr so ok ck keep stale (s : State) :
  RelationEpochs.store_ok (Manifests.relations (manifests (db s))) → is_Some (gc_generations pr so ok ck keep stale s).
Proof.
  intros Hs. unfold gc_generations. destruct pr; [|by eexists].
  destruct (gc_plan_ends ck keep stale (manifests (db s)) Hs) as [[plan|err] ->]; cbn; by eexists.
Qed.
End gc.

(** ** Examples *)

(** A generation over a parent, collected with one active publication to keep. *)
Abbreviation collect s := (gc_generations (SnapshotDelta := unit) true true true (λ _, false) 1 100 s).

Definition after {A} (x : option (result () OrchestratorError * A)) (d : A) : A :=
  match x with Some (_, s) => s | None => d end.

Lemma demo_collects {A} (x : option (result () OrchestratorError * A)) d :
  from_option (λ r, is_ok r.1) false x = true → x = Some (Ok (), after x d).
Proof. by destruct x as [[[[]|] s]|]. Qed.

Lemma unregistered_ok : gen_ok (db unregistered).
Proof.
  split; [Manifests.rows_ok_compute|]. intros r Hr. vm_compute in Hr.
  repeat (apply elem_of_cons in Hr as [->|Hr]; [cbn; split; [lia|intros p Hp; try discriminate Hp; injection Hp as <-; lia]|]).
  by apply not_elem_of_nil in Hr.
Qed.

Theorem gc_keeps_published_witness :
  ∃ a, Manifests.get_active (manifests (db (after (collect unregistered) unregistered))) = Some a ∧ Manifests.data_epoch a = 2 ∧
    published (db (after (collect unregistered) unregistered)) "b.py" = published (db unregistered) "b.py".
Proof.
  assert (Hc : collect unregistered = Some (Ok (), after (collect unregistered) unregistered)).
  { apply demo_collects. vm_compute. reflexivity. }
  assert (Ha : Manifests.data_epoch <$> Manifests.get_active (manifests (db unregistered)) = Some 2) by (vm_compute; reflexivity).
  apply fmap_Some in Ha as (a & Ha & Hd). exists a.
  destruct (gc_keeps_published true true true (λ _, false) 1 100 unregistered _ a unregistered_ok Ha Hc) as (Ha' & _ & Hp & _).
  split; [exact Ha'|]. split; [symmetry; exact Hd|]. apply Hp.
Defined.

(** The first collection drops the manifest of the parent and keeps its files; the
    second, with any retention, keeps them again. *)
Theorem unlisted_generation_is_never_collected_witness :
  let s1 := after (collect unregistered) unregistered in
  language ∘ file_data <$> files (tables (db s1)) !! (1, "b.py") = Some "python" ∧
  language ∘ file_data <$> files (tables (db (after (collect s1) s1))) !! (1, "b.py") = Some "python".
Proof.
  intros s1. assert (H1 : language ∘ file_data <$> files (tables (db s1)) !! (1, "b.py") = Some "python") by (vm_compute; reflexivity).
  split; [exact H1|].
  assert (Hc : collect s1 = Some (Ok (), after (collect s1) s1)) by (apply demo_collects; vm_compute; reflexivity).
  assert (He : ∀ r, r ∈ Manifests.publications (manifests (db s1)) → Manifests.data_epoch (Manifests.manifest r) ≠ 1).
  { apply (proj1 (Forall_forall _ _)), (bool_decide_unpack _). vm_compute. exact I. }
  destruct (unlisted_generation_is_never_collected true true true (λ _, false) 1 100 s1 _ 1 He Hc) as (Hf & _).
  rewrite Hf. exact H1.
Defined.

Theorem gc_ends_witness : is_Some (collect unregistered).
Proof.
  apply gc_ends. assert (He : Manifests.relations (manifests (db unregistered)) =
    RelationEpochs.with_meta (RelationEpochs.project_meta (Manifests.relations (manifests (db unregistered)))) RelationEpochs.empty_store)
    by reflexivity.
  rewrite He. destruct (RelationEpochs.store_ok_empty (SnapshotDelta := unit) (R := RelationEpochs.below)) as [H1 H2 H3 H4 H5]. by split.
Defined.
End GenerationGc.
