(* ===== verification/Debounce.v ===== *)
(** The global debounce timer of hot updates
    (crates/app/cce-orchestrator/src/hot_update/debounce.rs).

    [Debounce] models [DebounceState] and the lock-protected [GlobalDebounce]
    around it, including the read-locked fast path of [should_update]. *)

From S2P Require Import Prelude.

Module Debounce.

Record DebounceConfig := {
  pending_interval : Duration;
  max_wait_time : Duration;
}.

Definition config_default : DebounceConfig :=
  {| pending_interval := from_secs 30; max_wait_time := from_secs 300 |}.

Definition config_new (pending_interval_secs max_wait_time_secs : Z) : DebounceConfig :=
  {| pending_interval := from_secs pending_interval_secs;
     max_wait_time := from_secs max_wait_time_secs |}.

Definition with_pending_interval (c : DebounceConfig) (secs : Z) : DebounceConfig :=
  {| pending_interval := from_secs secs; max_wait_time := max_wait_time c |}.

Definition with_max_wait_time (c : DebounceConfig) (secs : Z) : DebounceConfig :=
  {| pending_interval := pending_interval c; max_wait_time := from_secs secs |}.

Record DebounceConfigBuilder := {
  builder_pending_interval : option Z;
  builder_max_wait_time : option Z;
}.

Definition builder_new : DebounceConfigBuilder :=
  {| builder_pending_interval := None; builder_max_wait_time := None |}.

Definition build (b : DebounceConfigBuilder) : DebounceConfig :=
  let config := config_default in
  let config := match builder_pending_interval b with
                | Some secs => with_pending_interval config secs
                | None => config
                end in
  match builder_max_wait_time b with
  | Some secs => with_max_wait_time config secs
  | None => config
  end.

(** ** The state behind the lock *)

Record DebounceState := {
  last_trigger : Instant;
  has_pending_changes : bool;
  pending_since : option Instant;
  config : DebounceConfig;
  is_first_check : bool;
}.

Definition new (now : Instant) (c : DebounceConfig) : DebounceState :=
  {| last_trigger := now; has_pending_changes := false; pending_since := None;
     config := c; is_first_check := true |}.

Definition reset (now : Instant) (st : DebounceState) : DebounceState :=
  {| last_trigger := now; has_pending_changes := false; pending_since := None;
     config := config st; is_first_check := is_first_check st |}.

Definition mark_changes (now : Instant) (st : DebounceState) : DebounceState :=
  {| last_trigger := last_trigger st; has_pending_changes := true;
     pending_since := match pending_since st with
                      | None => Some now
                      | Some t => Some t
                      end;
     config := config st; is_first_check := is_first_check st |}.

Definition clear_first_check (st : DebounceState) : DebounceState :=
  {| last_trigger := last_trigger st; has_pending_changes := has_pending_changes st;
     pending_since := pending_since st; config := config st; is_first_check := false |}.

(** The three clock readings a full check may make: in [mark_changes], for the
    comparisons, and in [reset]. *)
Record readings := { at_mark : Instant; at_check : Instant; at_reset : Instant }.

Definition should_update_state (r : readings) (cache_miss force : bool)
    (st : DebounceState) : bool * DebounceState :=
  if force then (true, reset (at_reset r) st)
  else
    let first := is_first_check st in
    let st := if first then clear_first_check st else st in
    if first && cache_miss then (true, reset (at_reset r) st)
    else
      let st := if cache_miss then mark_changes (at_mark r) st else st in
      if negb (has_pending_changes st) then (false, st)
      else
        let now := at_check r in
        let elapsed := duration_since now (last_trigger st) in
        let overdue := match pending_since st with
                       | Some since =>
                           max_wait_time (config st) <=? duration_since now since
                       | None => false
                       end in
        if overdue then (true, reset (at_reset r) st)
        else if pending_interval (config st) <=? elapsed
        then (true, reset (at_reset r) st)
        else (false, st).

Definition time_until_next (now : Instant) (st : DebounceState) : Duration :=
  if negb (has_pending_changes st) then from_secs u64_max
  else
    let elapsed := duration_since now (last_trigger st) in
    if pending_interval (config st) <=? elapsed then from_secs 0
    else pending_interval (config st) - elapsed.

(** ** [GlobalDebounce]: the methods, each one critical section *)

(** The read-locked fast path: [true] when it answers [false] on its own. *)
Definition fast_path_negative (now : Instant) (cache_miss force : bool)
    (st : DebounceState) : bool :=
  if negb force && negb cache_miss then
    if negb (has_pending_changes st) then true
    else if duration_since now (last_trigger st) <? pending_interval (config st) then
      match pending_since st with
      | Some since => duration_since now since <? max_wait_time (config st)
      | None => true
      end
    else false
  else false.

Definition should_update (at_fast : Instant) (r : readings) (cache_miss force : bool)
    (st : DebounceState) : bool * DebounceState :=
  if fast_path_negative at_fast cache_miss force st then (false, st)
  else should_update_state r cache_miss force st.

Definition force_next (now : Instant) (st : DebounceState) : DebounceState :=
  {| last_trigger := now - pending_interval (config st) - from_secs 1;
     has_pending_changes := has_pending_changes st; pending_since := pending_since st;
     config := config st; is_first_check := is_first_check st |}.

Definition should_process (now at_rst : Instant) (st : DebounceState)
    : bool * DebounceState :=
  if negb (has_pending_changes st) then (false, st)
  else
    match pending_since st with
    | None => (false, st)
    | Some since =>
        let pending_duration := duration_since now since in
        if (pending_interval (config st) <=? pending_duration)
           || (max_wait_time (config st) <=? pending_duration)
        then (true, reset at_rst st)
        else (false, st)
    end.

Definition set_config (c : DebounceConfig) (st : DebounceState) : DebounceState :=
  {| last_trigger := last_trigger st; has_pending_changes := has_pending_changes st;
     pending_since := pending_since st; config := c; is_first_check := is_first_check st |}.

(** [wait_for_next]: how long the caller sleeps. *)
Definition wait_for_next (now : Instant) (st : DebounceState) : option Duration :=
  let duration := time_until_next now st in
  if from_secs 0 <? duration then Some duration else None.

(** ** The timer as a transition system *)

Inductive step (st : DebounceState) : DebounceState → Prop :=
| step_should_update at_fast r cache_miss force :
    step st (should_update at_fast r cache_miss force st).2
| step_mark now : step st (mark_changes now st)
| step_reset now : step st (reset now st)
| step_force_next now : step st (force_next now st)
| step_should_process now at_rst : step st (should_process now at_rst st).2
| step_set_config c : step st (set_config c st).

Definition init (st : DebounceState) : Prop := ∃ now c, st = new now c.

(** A change is pending exactly when its arrival time is known. *)
Definition inv (st : DebounceState) : Prop :=
  has_pending_changes st = true ↔ is_Some (pending_since st).

Lemma should_update_state_inv r cm f st :
  inv st → inv (should_update_state r cm f st).2.
Proof.
  unfold inv, should_update_state. intros [H1 H2].
  destruct st as [lt hp ps c fc]; simpl in *.
  destruct f, cm, fc, hp, ps as [t|]; simpl in *; repeat case_match; simpl;
    split; intros; eauto; try done; by apply H2 || by destruct (H1 eq_refl).
Qed.

#[export] Instance debounce_invariant : StepInvariant init step inv.
Proof.
  split.
  - intros st (now & c & ->). unfold inv; simpl. split; [done|]. by intros [].
  - intros st st' Hi Hstep. destruct Hstep; simpl.
    + unfold should_update. case_match; [done|]. by apply should_update_state_inv.
    + unfold inv; simpl. split; [|done]. intros _. case_match; eauto.
    + unfold inv; simpl. split; [done|]. by intros [].
    + done.
    + unfold should_process. repeat (case_match; simplify_eq/=); try done.
      unfold inv; simpl. split; [done|]. by intros [].
    + done.
Qed.

(** The effect of the fast path is invisible except for the startup flag. *)
Definition same_but_first_check (st st' : DebounceState) : Prop :=
  clear_first_check st = clear_first_check st'.

(** The read-locked fast path of [should_update] is an exact shortcut: taken
    at the instant of the full check it gives the same answer as the
    write-locked check, and leaves the same state up to the startup flag,
    which the shortcut does not consume. *)
Theorem fast_path_agrees_with_full_check r cache_miss force st
    (Hr : reachable init step st) :
  (should_update (at_check r) r cache_miss force st).1 =
    (should_update_state r cache_miss force st).1 ∧
  same_but_first_check (should_update (at_check r) r cache_miss force st).2
    (should_update_state r cache_miss force st).2.
Proof.
  apply (invariant_reachable init step inv) in Hr as [Hp _].
  unfold should_update. destruct (fast_path_negative _ _ _ _) eqn:Ef; [|done].
  unfold fast_path_negative in Ef. destruct force, cache_miss; simpl in Ef; try done.
  unfold should_update_state, same_but_first_check. rewrite andb_false_r.
  destruct st as [lt hp ps c fc]; simpl in *.
  destruct hp, fc; simpl in *; try done; repeat (case_match; simplify_eq/=); bool_to_prop;
    try done; try lia; destruct Hp as [? Hp]; done.
Qed.

Lemma fast_path_agrees_with_full_check_witness :
  let st := mark_changes 50 (new 0 (config_new 30 300)) in
  let r := {| at_mark := 60; at_check := 60; at_reset := 61 |} in
  (should_update 60 r false false st).1 = false ∧
  same_but_first_check (should_update 60 r false false st).2
    (should_update_state r false false st).2.
Proof.
  intros st r. apply (fast_path_agrees_with_full_check r false false st).
  exists (new 0 (config_new 30 300)). split; [by eexists _, _|].
  eapply rtc_l; [apply (step_mark _ 50)|]. apply rtc_refl.
Defined.

(** Whether the check has a change to consider, and since when. *)
Definition considered_since (r : readings) (cache_miss : bool) (st : DebounceState)
    : option Instant :=
  match pending_since st with
  | Some t => Some t
  | None => if cache_miss then Some (at_mark r) else None
  end.

Ltac decide_trigger :=
  first [ by left | by right; left
        | right; right; eexists; split; [done|]; first [left; lia | right; lia] ].

(** The full decision of a reachable timer: an update is triggered exactly
    when it is forced, when the first check after startup sees a cache miss,
    or when a change is considered that either waited [max_wait_time] or finds
    [pending_interval] elapsed since the last trigger. A trigger resets the
    timer, so that no change waits longer than [max_wait_time] past the next
    check; without a trigger the oldest pending time is kept. *)
Theorem should_update_decision r cache_miss force st (Hr : reachable init step st) :
  let b := (should_update_state r cache_miss force st).1 in
  let st' := (should_update_state r cache_miss force st).2 in
  (b = true ↔
    force = true ∨ (is_first_check st = true ∧ cache_miss = true) ∨
    ∃ since, considered_since r cache_miss st = Some since ∧
      (max_wait_time (config st) ≤ duration_since (at_check r) since ∨
       pending_interval (config st) ≤ duration_since (at_check r) (last_trigger st))) ∧
  (b = true → has_pending_changes st' = false ∧ pending_since st' = None ∧
              last_trigger st' = at_reset r) ∧
  (b = false → pending_since st' = considered_since r cache_miss st ∧
               last_trigger st' = last_trigger st).
Proof.
  apply (invariant_reachable init step inv) in Hr as [Hp Hs].
  destruct st as [lt hp ps c fc]; unfold should_update_state, considered_since; simpl in *.
  destruct force; simpl; [by split; [split; [left|]|split]|].
  destruct hp; [destruct Hp as [since Hps]; [done|]; subst ps|
                destruct ps; [by discriminate Hs|]];
    destruct fc, cache_miss; simpl;
    repeat (case_match; simplify_eq/=); bool_to_prop;
    (split; [split; [intros Hb|]|split; [done|done]]); try done;
    try solve [decide_trigger];
    intros Htrigger; exfalso; destruct Htrigger as [?|[[??]|(s & ? & [?|?])]];
    simplify_eq/=; try done; lia.
Qed.

Lemma should_update_decision_witness :
  let st := mark_changes 50 (new 0 (config_new 30 300)) in
  let r := {| at_mark := 0; at_check := from_secs 30; at_reset := from_secs 31 |} in
  (should_update_state r false false st).1 = true.
Proof.
  intros st r.
  apply (should_update_decision r false false st).
  - exists (new 0 (config_new 30 300)). split; [by eexists _, _|].
    eapply rtc_l; [apply (step_mark _ 50)|]. apply rtc_refl.
  - right; right. exists 50. split; [reflexivity|]. right. by vm_compute.
Defined.

(** [force_next] is documented to force an update on the next check, but the
    two checks disagree about it: [should_process] (the check of the event
    loop) never looks at what it sets, and [should_update] obeys it only when a
    change is already pending. *)
Theorem force_next_only_moves_last_trigger now t at_rst st (Hr : reachable init step st) :
  (should_process t at_rst (force_next now st)).1 = (should_process t at_rst st).1 ∧
  (∀ r, has_pending_changes st = false →
        (should_update_state r false false (force_next now st)).1 = false) ∧
  (∀ r, has_pending_changes st = true → 0 ≤ pending_interval (config st) →
        now ≤ at_check r →
        (should_update_state r false false (force_next now st)).1 = true).
Proof.
  apply (invariant_reachable init step inv) in Hr as [Hp _].
  destruct st as [lt hp ps c fc]; unfold should_update_state, should_process; simpl in *.
  repeat split; intros; subst; simpl; rewrite ?andb_false_r; simpl.
  - repeat (case_match; simplify_eq/=); done.
  - by destruct fc.
  - destruct Hp as [since ->]; [done|]. destruct fc; simpl;
      repeat (case_match; simplify_eq/=); bool_to_prop; try done;
      unfold duration_since, sat_sub, from_secs, nanos_per_sec in *; lia.
Qed.

Lemma force_next_only_moves_last_trigger_witness :
  let st := mark_changes 50 (new 0 (config_new 30 300)) in
  (should_process 60 61 (force_next 55 st)).1 = false ∧
  (should_update_state {| at_mark := 60; at_check := 60; at_reset := 61 |}
     false false (force_next 55 st)).1 = true.
Proof.
  intros st.
  assert (Hr : reachable init step st).
  { exists (new 0 (config_new 30 300)). split; [by eexists _, _|].
    eapply rtc_l; [apply (step_mark _ 50)|]. apply rtc_refl. }
  destruct (force_next_only_moves_last_trigger 55 60 61 st Hr) as (H1 & _ & H3).
  split; [rewrite H1; reflexivity|]. apply H3; [reflexivity|by vm_compute|by vm_compute].
Defined.

End Debounce.
