(* ===== verification/WatchQueue.v ===== *)
(** The bounded queue of file-watch changes
    (crates/app/cce-orchestrator/src/hot_update/watch_change_queue.rs), the
    coalescing of a drained batch ([coalesce_pending_changes] of
    hot_update/coordinator/change_merger.rs) and the way a hot-update operation
    consumes the queue (hot_update/operation_runtime.rs).

    A path is an element of any countable type with decidable equality:
    [PathBuf] compares by components, which is the equality meant here. *)

From S2P Require Import Prelude.

Module WatchQueue.

Section paths.
Context {Path : Type} `{Countable Path}.

Definition DEFAULT_WATCH_CHANGE_CAPACITY : nat := 4096.

Record WatchChangeQueue := {
  entries : list (Path * bool);
  capacity : nat;
  needs_full_rescan : bool;
}.

Definition new (c : nat) : WatchChangeQueue :=
  {| entries := []; capacity := c; needs_full_rescan := false |}.

Definition with_default_capacity : WatchChangeQueue := new DEFAULT_WATCH_CHANGE_CAPACITY.

Definition set_entries (l : list (Path * bool)) (q : WatchChangeQueue) : WatchChangeQueue :=
  {| entries := l; capacity := capacity q; needs_full_rescan := needs_full_rescan q |}.

Definition set_rescan (b : bool) (q : WatchChangeQueue) : WatchChangeQueue :=
  {| entries := entries q; capacity := capacity q; needs_full_rescan := b |}.

(** [iter_mut().find(..)] followed by [existing.1 = is_deletion]. *)
Fixpoint update_flag (p : Path) (d : bool) (l : list (Path * bool))
    : option (list (Path * bool)) :=
  match l with
  | [] => None
  | (p', d') :: l' =>
      if decide (p' = p) then Some ((p', d) :: l')
      else (λ l'', (p', d') :: l'') <$> update_flag p d l'
  end.

Definition insert_inner (p : Path) (d : bool) (q : WatchChangeQueue) : WatchChangeQueue :=
  match update_flag p d (entries q) with
  | Some l => set_entries l q
  | None =>
      if (capacity q <=? length (entries q))%nat then set_rescan true q
      else set_entries (entries q ++ [(p, d)]) q
  end.

Definition push (p : Path) (d : bool) (q : WatchChangeQueue) : WatchChangeQueue :=
  if needs_full_rescan q then q else insert_inner p d q.

(** The rescan flag is tested once per batch: an overflow inside the batch does
    not stop the loop. *)
Definition extend (incoming : list (Path * bool)) (q : WatchChangeQueue) : WatchChangeQueue :=
  if needs_full_rescan q then q
  else foldl (λ q '(p, d), insert_inner p d q) q incoming.

Definition take (q : WatchChangeQueue) : list (Path * bool) * WatchChangeQueue :=
  (entries q, set_entries [] (set_rescan false q)).

Definition mark_full_rescan (q : WatchChangeQueue) : WatchChangeQueue := set_rescan true q.
Definition len (q : WatchChangeQueue) : nat := length (entries q).
Definition is_empty (q : WatchChangeQueue) : bool :=
  match entries q with [] => true | _ => false end.
Definition clear (q : WatchChangeQueue) : WatchChangeQueue := set_entries [] q.

(** ** Coalescing a drained batch

    The first loop records the first occurrences in [order] and the last flag
    of each path in a hash map; the second empties the map in order. *)
Definition coalesce_scan (pending : list (Path * bool)) : list Path * gmap Path bool :=
  foldl (λ '(order, flags) '(p, d),
           (if decide (is_Some (flags !! p)) then order else order ++ [p],
            <[p:=d]> flags))
        ([], ∅) pending.

Fixpoint coalesce_emit (order : list Path) (flags : gmap Path bool) : list (Path * bool) :=
  match order with
  | [] => []
  | p :: order' => (p, default false (flags !! p)) :: coalesce_emit order' (delete p flags)
  end.

Definition coalesce_pending_changes (pending : list (Path * bool)) : list (Path * bool) :=
  let '(order, flags) := coalesce_scan pending in coalesce_emit order flags.

(** ** Producers and the consumer *)

Inductive op :=
| OpPush (p : Path) (d : bool)
| OpExtend (l : list (Path * bool))
| OpMark.

Definition apply_op (o : op) (q : WatchChangeQueue) : WatchChangeQueue :=
  match o with
  | OpPush p d => push p d q
  | OpExtend l => extend l q
  | OpMark => mark_full_rescan q
  end.

Definition run (os : list op) (q : WatchChangeQueue) : WatchChangeQueue :=
  foldl (λ q o, apply_op o q) q os.

Definition op_events (o : op) : list (Path * bool) :=
  match o with
  | OpPush p d => [(p, d)]
  | OpExtend l => l
  | OpMark => []
  end.

Definition is_mark (o : op) : bool := match o with OpMark => true | _ => false end.

(** A hot-update operation reads the flag, then takes the queue. The two steps
    are separate critical sections: [between] are the producer steps that the
    event loop runs after the read and before the take. *)
Definition consume (between : list op) (q : WatchChangeQueue)
    : bool * list (Path * bool) * WatchChangeQueue :=
  let needs := needs_full_rescan q in
  let q1 := run between q in
  let '(pending_paths, q2) := take q1 in
  (needs, coalesce_pending_changes pending_paths, q2).

(** ** Insertion keeps order and updates in place *)

(** The specification of one event: update the flag of a known path in place,
    append an unknown path. *)
Definition upsert (l : list (Path * bool)) (e : Path * bool) : list (Path * bool) :=
  match update_flag e.1 e.2 l with
  | Some l' => l'
  | None => l ++ [e]
  end.

Definition keys (l : list (Path * bool)) : list Path := map fst l.

Lemma update_flag_Some p d l l' :
  update_flag p d l = Some l' → keys l' = keys l ∧ p ∈ keys l ∧ (p, d) ∈ l'.
Proof.
  revert l'. induction l as [|[p' d'] l IH]; intros l'; simpl; [done|].
  case_decide as E.
  - intros [= <-]. subst p'. simpl. repeat split; left.
  - destruct (update_flag p d l) as [l''|]; [|done]. intros [= <-].
    destruct (IH l'' eq_refl) as (Hk & Hin & Hd). unfold keys in *; simpl.
    rewrite Hk. repeat split; by right.
Qed.

Lemma update_flag_None p d l : update_flag p d l = None ↔ p ∉ keys l.
Proof.
  induction l as [|[p' d'] l IH]; simpl; [by split; [intros _ []%elem_of_nil|]|].
  rewrite not_elem_of_cons. case_decide as E; [naive_solver|].
  destruct (update_flag p d l); naive_solver.
Qed.

Lemma upsert_keys l e :
  keys (upsert l e) = if decide (e.1 ∈ keys l) then keys l else keys l ++ [e.1].
Proof.
  unfold upsert. destruct e as [p d]; simpl. destruct (update_flag p d l) as [l'|] eqn:E.
  - apply update_flag_Some in E as (-> & Hin & _). by rewrite decide_True.
  - apply update_flag_None in E. rewrite decide_False by done.
    unfold keys. by rewrite map_app.
Qed.

Lemma upsert_NoDup l e : NoDup (keys l) → NoDup (keys (upsert l e)).
Proof.
  rewrite upsert_keys. case_decide; [done|]. intros. apply NoDup_app.
  repeat split; [done| |apply NoDup_singleton]. set_solver.
Qed.

Lemma upsert_length_ge l e : (length l ≤ length (upsert l e))%nat.
Proof.
  rewrite <- !(length_map fst). fold (keys l) (keys (upsert l e)). rewrite upsert_keys.
  case_decide; [done|]. rewrite length_app. lia.
Qed.

Lemma foldl_upsert_length_ge l k : (length l ≤ length (foldl upsert l k))%nat.
Proof.
  revert l. induction k as [|e k IH]; intros l; simpl; [done|].
  etrans; [apply (upsert_length_ge l e)|apply IH].
Qed.

(** ** Coalescing is a fold of [upsert] *)

Definition emit (order : list Path) (flags : gmap Path bool) : list (Path * bool) :=
  map (λ p, (p, default false (flags !! p))) order.

Lemma coalesce_emit_map order flags :
  NoDup order → coalesce_emit order flags = emit order flags.
Proof.
  revert flags. induction order as [|p order IH]; intros flags Hnd; simpl; [done|].
  apply NoDup_cons in Hnd as [Hp Hnd]. rewrite IH by done. f_equal.
  unfold emit. apply map_ext_in. intros x Hx%list_elem_of_In.
  rewrite lookup_delete_ne by set_solver. done.
Qed.

Lemma coalesce_scan_snoc l p d :
  coalesce_scan (l ++ [(p, d)]) =
    (if decide (is_Some ((coalesce_scan l).2 !! p)) then (coalesce_scan l).1
     else (coalesce_scan l).1 ++ [p],
     <[p:=d]> (coalesce_scan l).2).
Proof.
  unfold coalesce_scan. rewrite foldl_app. simpl.
  by destruct (foldl _ _ l) as [order flags].
Qed.

Lemma coalesce_scan_keys l :
  NoDup (coalesce_scan l).1 ∧ ∀ p, p ∈ (coalesce_scan l).1 ↔ is_Some ((coalesce_scan l).2 !! p).
Proof.
  induction l as [|[p d] l [Hnd Hin]] using rev_ind.
  { split; [constructor|]. intros p. simpl. rewrite lookup_empty, elem_of_nil.
    split; [done|by intros []]. }
  rewrite coalesce_scan_snoc. simpl. split.
  - case_decide; [done|]. apply NoDup_app. repeat split; [done| |apply NoDup_singleton].
    intros x Hx. rewrite list_elem_of_singleton. intros ->. by apply Hin in Hx.
  - intros x. destruct (decide (x = p)) as [->|Hne].
    + rewrite lookup_insert_eq. split; [done|]. intros _.
      case_decide; [by apply Hin|]. set_solver.
    + rewrite lookup_insert_ne by done. case_decide; rewrite <- Hin; set_solver.
Qed.

Lemma keys_emit order flags : keys (emit order flags) = order.
Proof. unfold keys, emit. rewrite map_map. simpl. apply map_id. Qed.

Lemma emit_insert_fresh p d order flags :
  p ∉ order → emit order (<[p:=d]> flags) = emit order flags.
Proof.
  intros Hp. unfold emit. apply map_ext_in. intros x Hx%list_elem_of_In.
  rewrite lookup_insert_ne; [done|]. by intros ->.
Qed.

Lemma update_flag_emit p d order flags :
  NoDup order → p ∈ order →
  update_flag p d (emit order flags) = Some (emit order (<[p:=d]> flags)).
Proof.
  induction order as [|x order IH]; intros Hnd Hp; [by apply elem_of_nil in Hp|].
  apply NoDup_cons in Hnd as [Hx Hnd]. simpl. destruct (decide (x = p)) as [->|Hne].
  - rewrite lookup_insert_eq. simpl. by rewrite <- (emit_insert_fresh p d).
  - apply elem_of_cons in Hp as [?|Hp]; [congruence|].
    rewrite IH by done. simpl. by rewrite lookup_insert_ne by done.
Qed.

Lemma coalesce_snoc l e :
  coalesce_pending_changes (l ++ [e]) = upsert (coalesce_pending_changes l) e.
Proof.
  destruct e as [p d]. unfold coalesce_pending_changes. rewrite coalesce_scan_snoc.
  destruct (coalesce_scan_keys l) as [Hnd Hin].
  pose proof (coalesce_scan_keys (l ++ [(p, d)])) as [Hnd' _].
  rewrite coalesce_scan_snoc in Hnd'.
  destruct (coalesce_scan l) as [order flags]; simpl in *.
  rewrite !coalesce_emit_map by done. unfold upsert; simpl.
  destruct (decide (is_Some (flags !! p))) as [Hs|Hs].
  - by rewrite update_flag_emit by (by apply Hin || done).
  - assert (Hp : p ∉ order) by (by rewrite Hin).
    rewrite (proj2 (update_flag_None p d (emit order flags))) by by rewrite keys_emit.
    rewrite <- (emit_insert_fresh p d order) by done.
    unfold emit. rewrite map_app. simpl. by rewrite lookup_insert_eq.
Qed.

Lemma coalesce_upsert l : coalesce_pending_changes l = foldl upsert [] l.
Proof.
  induction l as [|e l IH] using rev_ind; [done|].
  by rewrite coalesce_snoc, IH, foldl_app.
Qed.

Lemma coalesce_keys_NoDup l : NoDup (keys (coalesce_pending_changes l)).
Proof.
  induction l as [|e l IH] using rev_ind; [constructor|].
  rewrite coalesce_snoc. by apply upsert_NoDup.
Qed.

(** ** The queue follows the specification until it overflows *)

Lemma insert_inner_upsert p d q :
  insert_inner p d q =
    if decide (length (upsert (entries q) (p, d)) ≤ capacity q ∨ p ∈ keys (entries q))%nat
    then set_entries (upsert (entries q) (p, d)) q else set_rescan true q.
Proof.
  unfold insert_inner, upsert; simpl. destruct (update_flag p d (entries q)) as [l|] eqn:E.
  - apply update_flag_Some in E as (_ & Hin & _). by rewrite decide_True by by right.
  - apply update_flag_None in E. rewrite length_app; simpl.
    destruct (Nat.leb_spec (capacity q) (length (entries q))).
    + rewrite decide_False; [done|]. intros [?|?]; [lia|done].
    + rewrite decide_True; [done|]. left. lia.
Qed.

Lemma insert_inner_capacity p d q : capacity (insert_inner p d q) = capacity q.
Proof. unfold insert_inner. by repeat case_match. Qed.

(** [q] stores the outcome of the events [ev], given whether a full rescan was
    requested explicitly. *)
Definition tracks (cap : nat) (marked : bool) (ev : list (Path * bool))
    (q : WatchChangeQueue) : Prop :=
  capacity q = cap ∧
  (needs_full_rescan q = false →
     entries q = foldl upsert [] ev ∧ (length (foldl upsert [] ev) ≤ cap)%nat) ∧
  (needs_full_rescan q = true → marked = true ∨ (cap < length (foldl upsert [] ev))%nat) ∧
  (marked = true → needs_full_rescan q = true).

Lemma tracks_insert cap m ev q p d :
  tracks cap m ev q → tracks cap m (ev ++ [(p, d)]) (insert_inner p d q).
Proof.
  intros (Hcap & Hfree & Hover & Hm). unfold tracks.
  rewrite insert_inner_capacity, foldl_app. simpl.
  pose proof (upsert_length_ge (foldl upsert [] ev) (p, d)) as Hge.
  rewrite insert_inner_upsert. split; [done|].
  destruct (needs_full_rescan q) eqn:En.
  - assert (m = true ∨ (cap < length (foldl upsert [] ev))%nat) as Ho by auto.
    case_decide; simpl; rewrite ?En; repeat split; try done; intros;
      destruct Ho; auto; right; lia.
  - destruct Hfree as [He Hl]; [done|]. rewrite He, Hcap. case_decide as Hd; simpl.
    + rewrite En. repeat split; try done.
      destruct Hd as [Hd|Hd]; [done|].
      rewrite <- (length_map fst). fold (keys (upsert (foldl upsert [] ev) (p, d))).
      rewrite upsert_keys, decide_True by done. unfold keys. by rewrite length_map.
    + repeat split; try done. intros _. right. apply Decidable.not_or in Hd. lia.
Qed.

Lemma tracks_insert_all cap m ev q l :
  tracks cap m ev q → tracks cap m (ev ++ l) (foldl (λ q '(p, d), insert_inner p d q) q l).
Proof.
  revert ev q. induction l as [|[p d] l IH]; intros ev q Ht; simpl; [by rewrite app_nil_r|].
  rewrite cons_middle, app_assoc. by apply IH, tracks_insert.
Qed.

(** Once flagged, a queue keeps its flag and only the event count grows. *)
Lemma tracks_flagged cap m ev q l :
  needs_full_rescan q = true → tracks cap m ev q → tracks cap m (ev ++ l) q.
Proof.
  intros En (Hcap & _ & Hover & Hm).
  unfold tracks. rewrite En. rewrite foldl_app.
  repeat split; try done. intros _. destruct (Hover En) as [?|?]; [by left|right].
  pose proof (foldl_upsert_length_ge (foldl upsert [] ev) l). lia.
Qed.

Lemma tracks_op cap m ev q o :
  tracks cap m ev q → tracks cap (m || is_mark o) (ev ++ op_events o) (apply_op o q).
Proof.
  intros Ht. destruct o as [p d|l|]; simpl; rewrite ?orb_false_r, ?orb_true_r.
  - unfold push. destruct (needs_full_rescan q) eqn:En;
      [by apply tracks_flagged|by apply tracks_insert].
  - unfold extend. destruct (needs_full_rescan q) eqn:En;
      [by apply tracks_flagged|by apply tracks_insert_all].
  - rewrite app_nil_r. destruct Ht as (Hcap & _ & _ & _). unfold tracks; simpl.
    repeat split; auto; done.
Qed.

Definition events (os : list op) : list (Path * bool) := concat (map op_events os).

Lemma tracks_run cap os : tracks cap (existsb is_mark os) (events os) (run os (new cap)).
Proof.
  unfold events, run. induction os as [|o os IH] using rev_ind.
  { simpl. unfold tracks; simpl. repeat split; try done; lia. }
  rewrite foldl_app, map_app, concat_app, existsb_app. simpl.
  rewrite app_nil_r, orb_false_r. by apply tracks_op.
Qed.

(** ** Properties *)

(** The first occurrence of each path, in order. *)
Fixpoint first_occurrences (l : list Path) : list Path :=
  match l with
  | [] => []
  | p :: l' => p :: retain (λ x, bool_decide (x ≠ p)) (first_occurrences l')
  end.

(** The flag of the last event on a path. *)
Definition last_flag (p : Path) (l : list (Path * bool)) : option bool :=
  foldl (λ acc e, if decide (e.1 = p) then Some e.2 else acc) None l.

Lemma first_occurrences_in p l : p ∈ first_occurrences l ↔ p ∈ l.
Proof.
  induction l as [|x l IH]; simpl; [done|].
  rewrite !elem_of_cons, elem_of_retain, IH, bool_decide_eq_true.
  destruct (decide (p = x)); tauto.
Qed.

Lemma first_occurrences_snoc l p :
  first_occurrences (l ++ [p]) =
    if decide (p ∈ l) then first_occurrences l else first_occurrences l ++ [p].
Proof.
  induction l as [|x l IH].
  { destruct (decide (p ∈ [])) as [Hin|_]; [by apply elem_of_nil in Hin|done]. }
  cbn [app first_occurrences]. rewrite IH. destruct (decide (p ∈ l)) as [Hin|Hin].
  - rewrite decide_True by by right. done.
  - rewrite retain_app. cbn [retain]. destruct (decide (p = x)) as [->|Hne].
    + rewrite bool_decide_eq_false_2, app_nil_r by naive_solver.
      by rewrite decide_True by left.
    + rewrite bool_decide_eq_true_2 by done.
      rewrite decide_False; [done|]. by intros [?|?]%elem_of_cons.
Qed.

Lemma elem_of_update_flag x b p d l l' :
  NoDup (keys l) → update_flag p d l = Some l' →
  (x, b) ∈ l' ↔ (x = p ∧ b = d) ∨ (x ≠ p ∧ (x, b) ∈ l).
Proof.
  revert l'. induction l as [|[p' d'] l IH]; intros l' Hnd; simpl; [done|].
  unfold keys in Hnd; simpl in Hnd. apply NoDup_cons in Hnd as [Hp' Hnd].
  assert (Hfst : ∀ c, (p', c) ∉ l).
  { intros c Hc. apply Hp'. apply list_elem_of_fmap. by exists (p', c). }
  case_decide as E.
  - intros [= <-]. subst p'. rewrite !elem_of_cons. split.
    + intros [[= -> ->]|Hin]; [by left|]. destruct (decide (x = p)) as [->|]; [|auto].
      by apply Hfst in Hin.
    + intros [[-> ->]|[Hne [[= -> ->]|Hin]]]; [by left|done|by right].
  - destruct (update_flag p d l) as [l''|]; [|done]. intros [= <-].
    rewrite !elem_of_cons, (IH l'') by done. split.
    + intros [[= -> ->]|[?|[??]]]; auto.
    + intros [?|[Hne [?|?]]]; auto.
Qed.

Lemma elem_of_upsert x b p d l :
  NoDup (keys l) →
  (x, b) ∈ upsert l (p, d) ↔ (x = p ∧ b = d) ∨ (x ≠ p ∧ (x, b) ∈ l).
Proof.
  intros Hnd. unfold upsert; simpl. destruct (update_flag p d l) as [l'|] eqn:E.
  - by apply elem_of_update_flag.
  - apply update_flag_None in E. rewrite elem_of_app, list_elem_of_singleton.
    destruct (decide (x = p)) as [->|Hne]; [|split; [intros [?|[= -> ->]]|]; tauto].
    split; [|intros [[_ ->]|[? _]]; [by right|done]].
    intros [Hin|[= ->]]; [|by left].
    exfalso. apply E, list_elem_of_fmap. by exists (p, b).
Qed.

Lemma coalesce_keys l :
  keys (coalesce_pending_changes l) = first_occurrences (map fst l).
Proof.
  induction l as [|[p d] l IH] using rev_ind; [done|].
  rewrite coalesce_snoc, map_app. simpl. rewrite first_occurrences_snoc.
  rewrite upsert_keys, IH. simpl.
  destruct (decide (p ∈ map fst l)) as [Hin|Hin]; by rewrite ?decide_True, ?decide_False
    by by rewrite first_occurrences_in.
Qed.

Lemma coalesce_keys_in p l : p ∈ keys (coalesce_pending_changes l) ↔ p ∈ keys l.
Proof. by rewrite coalesce_keys, first_occurrences_in. Qed.

Lemma coalesce_id k : NoDup (keys k) → coalesce_pending_changes k = k.
Proof.
  rewrite coalesce_upsert. induction k as [|[p d] k IH] using rev_ind; [done|].
  unfold keys. rewrite map_app. intros (Hnd & Hd & _)%NoDup_app.
  rewrite foldl_app. simpl. rewrite IH by done. unfold upsert. simpl.
  rewrite (proj2 (update_flag_None p d k)); [done|].
  intros Hin. apply (Hd p Hin). by left.
Qed.

Lemma coalesce_last_flag l p d :
  (p, d) ∈ coalesce_pending_changes l ↔ last_flag p l = Some d.
Proof.
  revert p d. induction l as [|[x b] l IH] using rev_ind; intros p d;
    [by rewrite elem_of_nil|].
  rewrite coalesce_snoc. rewrite elem_of_upsert by apply coalesce_keys_NoDup.
  unfold last_flag. rewrite foldl_app. simpl. fold (last_flag p l).
  rewrite IH. destruct (decide (x = p)) as [->|Hne]; naive_solver.
Qed.

(** Coalescing keeps one entry per path, in the order of the first events,
    with the deletion flag of the last event, and coalescing again changes
    nothing. *)
Theorem coalesce_first_order_last_flag l :
  map fst (coalesce_pending_changes l) = first_occurrences (map fst l) ∧
  (∀ p d, (p, d) ∈ coalesce_pending_changes l ↔ last_flag p l = Some d) ∧
  coalesce_pending_changes (coalesce_pending_changes l) = coalesce_pending_changes l.
Proof.
  split; [exact (coalesce_keys l)|]. split; [exact (coalesce_last_flag l)|].
  apply coalesce_id, coalesce_keys_NoDup.
Qed.

(** C24. Between two drains the bounded queue is the coalescing of everything
    pushed, or it asks for a full rescan: after any sequence of pushes,
    batches and explicit rescan requests on an empty queue, the rescan flag is
    set exactly when a rescan was requested or more than [capacity] distinct
    paths arrived, and while it is clear the entries are the coalesced events. *)
Theorem queue_coalesces_or_rescans os cap :
  let q := run os (new cap) in
  (needs_full_rescan q = true ↔
     existsb is_mark os = true ∨
     (cap < length (coalesce_pending_changes (events os)))%nat) ∧
  (needs_full_rescan q = false →
     entries q = coalesce_pending_changes (events os) ∧ (len q ≤ cap)%nat).
Proof.
  intros q. destruct (tracks_run cap os) as (_ & Hfree & Hover & Hm).
  fold q in Hfree, Hover, Hm.
  rewrite coalesce_upsert. split.
  - split; [apply Hover|]. intros [?|?]; [by apply Hm|].
    destruct (needs_full_rescan q); [done|]. destruct Hfree; [done|]. lia.
  - intros En. destruct (Hfree En) as [He Hl]. unfold len. by rewrite He.
Qed.

(** Consuming the queue is lossless when nothing runs between the read of
    the rescan flag and the take: the batch is the coalescing of all events or
    a rescan is due, and the queue restarts empty. It is not lossless
    otherwise: when an event for a new path overflows the queue between the
    two steps, or the event loop requests a rescan there, the operation sees
    no rescan, the batch misses the event, and the take clears the flag. *)
Theorem flag_read_before_take_loses_events os cap :
  (let '(needs, batch, q2) := consume [] (run os (new cap)) in
   q2 = new cap ∧ (needs = false → batch = coalesce_pending_changes (events os))) ∧
  (∀ q p d, needs_full_rescan q = false → p ∉ keys (entries q) →
     (capacity q ≤ len q)%nat →
     let '(needs, batch, q2) := consume [OpPush p d] q in
     needs = false ∧ p ∉ map fst batch ∧ q2 = new (capacity q)) ∧
  (∀ q, needs_full_rescan q = false →
     let '(needs, _, q2) := consume [OpMark] q in
     needs = false ∧ q2 = new (capacity q)).
Proof.
  split; [|split].
  - simpl. destruct (tracks_run cap os) as (Hcap & Hfree & _).
    split; [unfold set_entries, set_rescan; simpl; by rewrite Hcap|].
    intros En. destruct (Hfree En) as [-> _]. rewrite <- coalesce_upsert.
    apply coalesce_id, coalesce_keys_NoDup.
  - intros q p d En Hp Hcap. simpl. unfold push. rewrite En. unfold insert_inner.
    rewrite (proj2 (update_flag_None p d _)) by done.
    rewrite (proj2 (Nat.leb_le _ _)) by done. simpl.
    split; [done|]. split; [|done]. by rewrite coalesce_keys_in.
  - intros q En. simpl. done.
Qed.

End paths.

Arguments WatchChangeQueue Path : clear implicits.
Arguments op Path : clear implicits.

Lemma queue_coalesces_or_rescans_witness :
  let q := run [OpPush "a" false; OpExtend [("b", false); ("a", true)]]
             (new (Path := string) 2) in
  entries q = [("a", true); ("b", false)]%string.
Proof.
  intros q. destruct (queue_coalesces_or_rescans
    [OpPush "a"%string false; OpExtend [("b"%string, false); ("a"%string, true)]] 2)
    as [_ H]. apply H. reflexivity.
Defined.

Lemma flag_read_before_take_loses_events_witness :
  let q := push "a" false (new (Path := string) 1) in
  let '(needs, batch, q2) := consume [OpPush "b" false] q in
  needs = false ∧ "b"%string ∉ map fst batch ∧ q2 = new 1.
Proof.
  intros q. destruct (flag_read_before_take_loses_events (Path := string) [] 1) as (_ & H & _).
  apply (H q "b"%string false); [reflexivity| |reflexivity].
  intros Hin. apply elem_of_cons in Hin as [?|Hin]; [done|]. by apply elem_of_nil in Hin.
Defined.

End WatchQueue.
