(* ===== verification/ModeSwitch.v ===== *)
(** Switching between file watching and periodic scanning
    (crates/app/cce-orchestrator/src/hot_update/mode_switch.rs and the mode of
    hot_update/state.rs), with the decision [check_and_update_mode] of
    hot_update/coordinator/change_merger.rs that drives it. *)

From S2P Require Import Prelude.

Module ModeSwitch.

Inductive HotUpdateMode := PeriodicScan | FileWatch.

#[export] Instance HotUpdateMode_eq_dec : EqDecision HotUpdateMode.
Proof. solve_decision. Defined.

Record ModeSwitchConfig := {
  storm_threshold : Z;
  storm_duration_secs : Z;
  recovery_threshold : Z;
  recovery_duration_secs : Z;
  degraded_scan_interval_secs : Z;
}.

Definition config_default : ModeSwitchConfig :=
  {| storm_threshold := 100; storm_duration_secs := 10; recovery_threshold := 50;
     recovery_duration_secs := 30; degraded_scan_interval_secs := 30 |}.

Record ModeStateMachine := {
  current_mode : HotUpdateMode;
  mode_since : Instant;
  config : ModeSwitchConfig;
  event_timestamps : list Instant;
  window_size_secs : Z;
  storm_exceeded_since : option Instant;
  recovery_below_since : option Instant;
}.

Definition new (now : Instant) (c : ModeSwitchConfig) : ModeStateMachine :=
  {| current_mode := FileWatch; mode_since := now; config := c; event_timestamps := [];
     window_size_secs := 1; storm_exceeded_since := None; recovery_below_since := None |}.

Definition new_default (now : Instant) : ModeStateMachine := new now config_default.

(** Field assignments. *)
Definition set_timestamps (l : list Instant) (m : ModeStateMachine) : ModeStateMachine :=
  {| current_mode := current_mode m; mode_since := mode_since m; config := config m;
     event_timestamps := l; window_size_secs := window_size_secs m;
     storm_exceeded_since := storm_exceeded_since m;
     recovery_below_since := recovery_below_since m |}.

Definition set_storm_since (s : option Instant) (m : ModeStateMachine) : ModeStateMachine :=
  {| current_mode := current_mode m; mode_since := mode_since m; config := config m;
     event_timestamps := event_timestamps m; window_size_secs := window_size_secs m;
     storm_exceeded_since := s; recovery_below_since := recovery_below_since m |}.

Definition set_recovery_since (s : option Instant) (m : ModeStateMachine)
    : ModeStateMachine :=
  {| current_mode := current_mode m; mode_since := mode_since m; config := config m;
     event_timestamps := event_timestamps m; window_size_secs := window_size_secs m;
     storm_exceeded_since := storm_exceeded_since m; recovery_below_since := s |}.

Definition enter_mode (mode : HotUpdateMode) (now : Instant) (m : ModeStateMachine)
    : ModeStateMachine :=
  {| current_mode := mode; mode_since := now; config := config m; event_timestamps := [];
     window_size_secs := window_size_secs m; storm_exceeded_since := None;
     recovery_below_since := None |}.

(** [event_timestamps.len()], the rate the checks look at. *)
Definition current_event_rate (m : ModeStateMachine) : Z :=
  Z.of_nat (length (event_timestamps m)).

Definition record_event_and_check_storm (now : Instant) (m : ModeStateMachine)
    : bool * ModeStateMachine :=
  let pushed := event_timestamps m ++ [now] in
  let window_start := now - from_secs (window_size_secs m) in
  let m' := set_timestamps (retain (λ ts, window_start <? ts) pushed) m in
  (storm_threshold (config m') <? current_event_rate m', m').

Definition should_degrade (now : Instant) (m : ModeStateMachine) : bool * ModeStateMachine :=
  if decide (current_mode m ≠ FileWatch) then (false, m)
  else if storm_threshold (config m) <? current_event_rate m then
    let m := match storm_exceeded_since m with
             | None => set_storm_since (Some now) m
             | Some _ => m
             end in
    match storm_exceeded_since m with
    | Some since =>
        (from_secs (storm_duration_secs (config m)) <=? duration_since now since, m)
    | None => (false, m)
    end
  else (false, set_storm_since None m).

Definition should_recover (event_rate : Z) (now : Instant) (m : ModeStateMachine)
    : bool * ModeStateMachine :=
  if decide (current_mode m ≠ PeriodicScan) then (false, m)
  else if event_rate <? recovery_threshold (config m) then
    let m := match recovery_below_since m with
             | None => set_recovery_since (Some now) m
             | Some _ => m
             end in
    match recovery_below_since m with
    | Some since =>
        (from_secs (recovery_duration_secs (config m)) <=? duration_since now since, m)
    | None => (false, m)
    end
  else (false, set_recovery_since None m).

Definition switch_to_periodic_scan (now : Instant) (m : ModeStateMachine)
    : ModeStateMachine := enter_mode PeriodicScan now m.

Definition switch_to_file_watch (now : Instant) (m : ModeStateMachine)
    : ModeStateMachine := enter_mode FileWatch now m.

Definition time_in_mode (now : Instant) (m : ModeStateMachine) : Duration :=
  duration_since now (mode_since m).

Definition reset (now : Instant) (m : ModeStateMachine) : ModeStateMachine :=
  enter_mode FileWatch now m.

(** The mode decision of the coordinator: one check of the current mode, and
    the switch it asks for. [now] is read by the check and [now'] by the
    switch; [stop_ok] is the outcome of [stop_watch], whose error leaves the
    switch to periodic scanning before the machine is touched. (The other
    switch moves the machine before anything in it can fail.) *)
Definition check_and_update_mode (stop_ok : bool) (now now' : Instant)
    (m : ModeStateMachine) : ModeStateMachine :=
  match current_mode m with
  | FileWatch =>
      let '(degrade, m') := should_degrade now m in
      if degrade && stop_ok then switch_to_periodic_scan now' m' else m'
  | PeriodicScan =>
      let '(recover, m') := should_recover (current_event_rate m) now m in
      if recover then switch_to_file_watch now' m' else m'
  end.

(** ** The machine as a transition system *)

Inductive step (m : ModeStateMachine) : ModeStateMachine → Prop :=
| step_record now : step m (record_event_and_check_storm now m).2
| step_should_degrade now : step m (should_degrade now m).2
| step_should_recover rate now : step m (should_recover rate now m).2
| step_check stop_ok now now' : step m (check_and_update_mode stop_ok now now' m)
| step_periodic now : step m (switch_to_periodic_scan now m)
| step_watch now : step m (switch_to_file_watch now m)
| step_reset now : step m (reset now m).

Definition init (m : ModeStateMachine) : Prop := ∃ now c, m = new now c.

(** A storm is only timed while watching and a recovery only while scanning;
    the recorded events lie in one window. *)
Definition inv (m : ModeStateMachine) : Prop :=
  window_size_secs m = 1 ∧
  (is_Some (storm_exceeded_since m) → current_mode m = FileWatch) ∧
  (is_Some (recovery_below_since m) → current_mode m = PeriodicScan) ∧
  (∃ last, Forall (λ ts, last - from_secs 1 < ts) (event_timestamps m)).

Lemma enter_mode_inv mode now m : inv m → inv (enter_mode mode now m).
Proof.
  intros (Hw & _). unfold inv; simpl. repeat split; try done; try by intros [].
  by exists 0.
Qed.

Lemma should_degrade_frame now m :
  let m' := (should_degrade now m).2 in
  current_mode m' = current_mode m ∧ config m' = config m ∧
  event_timestamps m' = event_timestamps m ∧ window_size_secs m' = window_size_secs m ∧
  recovery_below_since m' = recovery_below_since m.
Proof. unfold should_degrade. by repeat (case_match; simplify_eq/=). Qed.

Lemma should_recover_frame rate now m :
  let m' := (should_recover rate now m).2 in
  current_mode m' = current_mode m ∧ config m' = config m ∧
  event_timestamps m' = event_timestamps m ∧ window_size_secs m' = window_size_secs m ∧
  storm_exceeded_since m' = storm_exceeded_since m.
Proof. unfold should_recover. by repeat (case_match; simplify_eq/=). Qed.

Lemma should_degrade_storm now m :
  is_Some (storm_exceeded_since (should_degrade now m).2) →
  is_Some (storm_exceeded_since m) ∨ current_mode m = FileWatch.
Proof.
  unfold should_degrade. case_decide as E; [by left|]. intros _. right.
  destruct (current_mode m); naive_solver.
Qed.

Lemma should_recover_recovery rate now m :
  is_Some (recovery_below_since (should_recover rate now m).2) →
  is_Some (recovery_below_since m) ∨ current_mode m = PeriodicScan.
Proof.
  unfold should_recover. case_decide as E; [by left|]. intros _. right.
  destruct (current_mode m); naive_solver.
Qed.

Lemma should_degrade_inv now m : inv m → inv (should_degrade now m).2.
Proof.
  intros (Hw & Hs & Hr & Ht). destruct (should_degrade_frame now m) as (Em & _ & Et & Ew & Er).
  unfold inv. rewrite Em, Et, Ew, Er.
  repeat split; auto. intros [?|?]%should_degrade_storm; auto.
Qed.

Lemma should_recover_inv rate now m : inv m → inv (should_recover rate now m).2.
Proof.
  intros (Hw & Hs & Hr & Ht).
  destruct (should_recover_frame rate now m) as (Em & _ & Et & Ew & Er).
  unfold inv. rewrite Em, Et, Ew, Er.
  repeat split; auto. intros [?|?]%should_recover_recovery; auto.
Qed.

#[export] Instance mode_invariant : StepInvariant init step inv.
Proof.
  split.
  - intros m (now & c & ->). unfold inv; simpl. repeat split; try by intros []. by exists 0.
  - intros m m' Hi Hstep. destruct Hstep as [now|now|rate now|ok now now'|now|now|now];
      try by apply enter_mode_inv.
    + destruct Hi as (Hw & Hs & Hr & _). unfold inv; simpl. repeat split; auto.
      exists now. rewrite Hw. apply Forall_forall.
      intros ts [_ Hts]%elem_of_retain. by apply Z.ltb_lt.
    + by apply should_degrade_inv.
    + by apply should_recover_inv.
    + unfold check_and_update_mode. destruct (current_mode m).
      * pose proof (should_recover_inv (current_event_rate m) now m Hi) as Hi'.
        destruct (should_recover _ _ _) as [[] m']; [by apply enter_mode_inv|done].
      * pose proof (should_degrade_inv now m Hi) as Hi'.
        destruct (should_degrade _ _) as [[] m'], ok; simpl; done || by apply enter_mode_inv.
Qed.

(** ** Watching: events and degradation checks *)

Inductive obs := Rec (t : Instant) | Chk (t : Instant).

(** Run a sequence of events and checks, logging the time of every check and
    the rate it saw. *)
Definition observe (s : ModeStateMachine * list (Instant * Z)) (o : obs)
    : ModeStateMachine * list (Instant * Z) :=
  let '(m, log) := s in
  match o with
  | Rec t => ((record_event_and_check_storm t m).2, log)
  | Chk t => ((should_degrade t m).2, log ++ [(t, current_event_rate m)])
  end.

Definition watch (os : list obs) (m : ModeStateMachine)
    : ModeStateMachine * list (Instant * Z) := foldl observe (m, []) os.

(** [since] starts the maximal final run of checks above the threshold. *)
Definition storm_run (th : Z) (log : list (Instant * Z)) (since : Instant) : Prop :=
  ∃ before r after, log = before ++ (since, r) :: after ∧
    Forall (λ e, th < e.2) ((since, r) :: after) ∧
    (∀ e, last before = Some e → e.2 ≤ th).

Definition storm_tracked (c : ModeSwitchConfig) (s : ModeStateMachine * list (Instant * Z))
    : Prop :=
  current_mode s.1 = FileWatch ∧ config s.1 = c ∧
  (∀ since, storm_exceeded_since s.1 = Some since → storm_run (storm_threshold c) s.2 since) ∧
  (storm_exceeded_since s.1 = None →
     ∀ e, last s.2 = Some e → e.2 ≤ storm_threshold c).

Lemma storm_run_extend th log since t r :
  storm_run th log since → th < r → storm_run th (log ++ [(t, r)]) since.
Proof.
  intros (before & r0 & after & -> & Hf & Hb) Hr.
  exists before, r0, (after ++ [(t, r)]). rewrite <- app_assoc. split; [done|].
  split; [|done]. rewrite app_comm_cons. apply Forall_app. split; [done|]. by apply Forall_singleton.
Qed.

Lemma storm_run_start th log t r :
  (∀ e, last log = Some e → e.2 ≤ th) → th < r → storm_run th (log ++ [(t, r)]) t.
Proof.
  intros Hb Hr. exists log, r, []. split; [done|]. split; [|done]. by apply Forall_singleton.
Qed.

Lemma storm_run_inj th log s1 s2 : storm_run th log s1 → storm_run th log s2 → s1 = s2.
Proof.
  intros (b1 & r1 & a1 & -> & Hf1 & Hb1) (b2 & r2 & a2 & Heq & Hf2 & Hb2).
  destruct (decide (length b1 = length b2)) as [Hl|Hl].
  { apply app_inj_1 in Heq as [_ Heq]; [|done]. by simplify_eq. }
  exfalso. assert (length b1 < length b2 ∨ length b2 < length b1)%nat as [Hlt|Hlt] by lia.
  - destruct b2 as [|y b2] using rev_ind; [simpl in *; lia|]. clear IHb2.
    rewrite length_app in *; simpl in *. specialize (Hb2 y ltac:(by rewrite last_snoc)).
    rewrite <- app_assoc in Heq. simpl in Heq.
    assert (y ∈ (s1, r1) :: a1) as Hy.
    { apply list_elem_of_lookup. exists (length b2 - length b1)%nat.
      rewrite <- (lookup_app_r b1) by lia. rewrite Heq.
      by rewrite lookup_app_r, Nat.sub_diag by lia. }
    rewrite Forall_forall in Hf1. specialize (Hf1 y Hy). lia.
  - destruct b1 as [|y b1] using rev_ind; [simpl in *; lia|]. clear IHb1.
    rewrite length_app in *; simpl in *. specialize (Hb1 y ltac:(by rewrite last_snoc)).
    rewrite <- app_assoc in Heq. simpl in Heq.
    assert (y ∈ (s2, r2) :: a2) as Hy.
    { apply list_elem_of_lookup. exists (length b1 - length b2)%nat.
      rewrite <- (lookup_app_r b2) by lia. rewrite <- Heq.
      by rewrite lookup_app_r, Nat.sub_diag by lia. }
    rewrite Forall_forall in Hf2. specialize (Hf2 y Hy). lia.
Qed.

Lemma observe_tracked c s o : storm_tracked c s → storm_tracked c (observe s o).
Proof.
  destruct s as [m log]. intros (Hm & Hc & Hs & Hn); simpl in *.
  destruct o as [t|t]; simpl; [done|].
  destruct (should_degrade_frame t m) as (Em & Ec & _).
  unfold storm_tracked; simpl. rewrite Em, Ec. split; [done|]. split; [done|].
  unfold should_degrade. rewrite decide_False by (intros []; done).
  rewrite Hc. case_match eqn:Er; bool_to_prop.
  - destruct (storm_exceeded_since m) as [s|] eqn:Es; simpl; rewrite ?Es; simpl;
      (split; [|congruence]); intros s' Hs'; simplify_eq/=.
    + by apply storm_run_extend; [apply Hs|].
    + by apply storm_run_start; [apply Hn|].
  - simpl. split; [done|]. intros _ e. rewrite last_snoc. by intros [= <-].
Qed.

Lemma watch_tracked c t0 os : storm_tracked c (watch os (new t0 c)).
Proof.
  induction os as [|o os IH] using rev_ind; unfold watch in *.
  - unfold storm_tracked; simpl. repeat split; done.
  - rewrite foldl_app. simpl. by apply observe_tracked.
Qed.

(** Degradation to periodic scanning needs a sustained storm: after any
    interleaving of file events and checks on a fresh machine, the next check
    reports a storm exactly when the maximal run of consecutive checks above
    [storm_threshold] ending with it started at least [storm_duration_secs]
    ago. A single check below the threshold restarts the clock. *)
Theorem degrades_iff_sustained_storm os now t0 c :
  let m := (watch os (new t0 c)).1 in
  let log := (watch os (new t0 c)).2 in
  (should_degrade now m).1 = true ↔
    ∃ since, storm_run (storm_threshold c) (log ++ [(now, current_event_rate m)]) since ∧
      from_secs (storm_duration_secs c) ≤ duration_since now since.
Proof.
  pose proof (watch_tracked c t0 os) as Ht. pose proof (observe_tracked c _ (Chk now) Ht) as Ht'.
  destruct (watch os (new t0 c)) as [m log]; simpl in *.
  destruct Ht as (Hm & Hc & _). destruct Ht' as (_ & _ & Hs' & Hn'); simpl in *.
  unfold should_degrade in *. rewrite decide_False in * by (intros []; done).
  rewrite Hc in *. destruct (storm_threshold c <? current_event_rate m) eqn:Er; bool_to_prop.
  - destruct (storm_exceeded_since m) as [s|] eqn:Es; simpl in *; rewrite ?Es in *; simpl in *;
      rewrite ?Hc; rewrite Z.leb_le; (split; [intros Hd; eexists; split; [by apply Hs'|done]|]);
      intros (s' & Hrun & Hd).
    + by rewrite (storm_run_inj _ _ s s' (Hs' s ltac:(congruence)) Hrun).
    + by pose proof (storm_run_inj _ _ now s' (Hs' now ltac:(congruence)) Hrun) as <-.
  - simpl. split; [done|]. intros (s & (before & r & after & Heq & Hf & _) & _).
    exfalso. assert ((now, current_event_rate m) ∈ (s, r) :: after) as Hin.
    { apply (f_equal last) in Heq. rewrite last_snoc in Heq.
      rewrite last_app_cons in Heq. symmetry in Heq.
      by apply last_Some_elem_of in Heq. }
    rewrite Forall_forall in Hf. specialize (Hf _ Hin). simpl in Hf. lia.
Qed.

(** The rate is only refreshed by events: once a burst has pushed the
    window above the threshold and the events stop, the machine keeps the
    burst's rate. Two checks [storm_duration_secs] apart then report a storm
    and switch to periodic scanning, although not a single event lies in the
    window of the second check. *)
Theorem stale_window_degrades_after_silence m t1 t2 t3
    (Hmode : current_mode m = FileWatch) (Hnone : storm_exceeded_since m = None)
    (Hburst : storm_threshold (config m) < current_event_rate m)
    (Hlater : from_secs (storm_duration_secs (config m)) ≤ duration_since t2 t1)
    (Hshort : 0 < storm_duration_secs (config m))
    (Hsilent : Forall (λ ts, ts ≤ t2 - from_secs (window_size_secs m)) (event_timestamps m)) :
  let m1 := check_and_update_mode true t1 t1 m in
  let m2 := check_and_update_mode true t2 t3 m1 in
  current_mode m1 = FileWatch ∧ current_mode m2 = PeriodicScan ∧
  retain (λ ts, t2 - from_secs (window_size_secs m) <? ts) (event_timestamps m1) = [].
Proof.
  intros m1 m2. unfold m2, m1. clear m1 m2.
  apply Z.ltb_lt in Hburst as Hb. apply Z.leb_le in Hlater as Hl.
  unfold check_and_update_mode at 1 3 4. rewrite Hmode. unfold should_degrade at 1 2 3.
  rewrite decide_False by (intros []; done).
  rewrite Hb, Hnone. simpl.
  assert ((from_secs (storm_duration_secs (config m)) <=? duration_since t1 t1) = false) as Hz.
  { apply Z.leb_gt. unfold duration_since, sat_sub, from_secs, nanos_per_sec. lia. }
  rewrite Hz. unfold check_and_update_mode; simpl. rewrite Hmode. unfold should_degrade; simpl.
  rewrite Hmode. rewrite decide_False by (intros []; done). unfold current_event_rate in *; simpl.
  rewrite Hb, Hl. simpl. split; [done|]. split; [done|].
  apply retain_none. intros ts Hts. apply Z.ltb_ge.
  rewrite Forall_forall in Hsilent. by apply Hsilent.
Qed.

(** A burst of 101 files saved at one moment on a fresh machine. *)
Definition burst : ModeStateMachine :=
  Nat.iter 101 (λ m, (record_event_and_check_storm (from_secs 5) m).2) (new_default 0).

Lemma stale_window_degrades_after_silence_witness :
  let m1 := check_and_update_mode true (from_secs 6) (from_secs 6) burst in
  let m2 := check_and_update_mode true (from_secs 16) (from_secs 16) m1 in
  current_mode m1 = FileWatch ∧ current_mode m2 = PeriodicScan ∧
  retain (λ ts, from_secs 16 - from_secs (window_size_secs burst) <? ts)
    (event_timestamps m1) = [].
Proof.
  apply (stale_window_degrades_after_silence burst (from_secs 6) (from_secs 16) (from_secs 16)).
  - vm_compute. reflexivity.
  - vm_compute. reflexivity.
  - vm_compute. reflexivity.
  - vm_compute. discriminate.
  - vm_compute. reflexivity.
  - apply (bool_decide_unpack _). vm_compute. exact I.
Defined.

End ModeSwitch.
