(* ===== verification/Watcher.v ===== *)
(** * The file watcher

    Models crates/app/cce-orchestrator/src/hot_update/watcher/: the watch
    configuration (config.rs), the events (event.rs), and the runner that
    filters them and sends them to the hot update (coordinator.rs). The events
    of the file-system library are given by what the code asks of them;
    whether a path is a directory now is a parameter. *)

From S2P Require Import Prelude Str FsPath Glob Languages BuildSystem ModeSwitch.
From Stdlib Require Import ZArith Lia.
#[local] Open Scope Z_scope.

Module Watcher.
Import Str FsPath Glob.
#[local] Open Scope result_scope.

(** ** Configuration *)

Record WatchConfig := {
  event_threshold : Z;
  fallback_interval_secs : Z;
  verification_interval_secs : Z;
  extensions : list str;
  ignore_patterns : list str;
  compiled_globs : list Glob;
  watch_config_files : bool;
  max_event_buffer : Z;
  storm_duration_secs : Z;
  recovery_threshold : Z;
  recovery_duration_secs : Z
}.

Definition default_ignore_patterns : list str :=
  map lit ["**/node_modules/**"; "**/target/**"; "**/.git/**"; "**/dist/**"; "**/build/**"; "**/.idea/**";
           "**/.vscode/**"; "**/__pycache__/**"; "**/.venv/**"; "**/venv/**"].

Definition default_extensions : list str :=
  map lit ["rs"; "js"; "ts"; "jsx"; "tsx"; "py"; "java"; "go"; "c"; "cpp"; "h"; "hpp"; "cs"; "rb"; "php"; "kt";
           "kts"; "swift"; "vue"; "svelte"; "html"; "css"; "scss"; "json"; "yaml"; "yml"; "toml"; "md"; "txt";
           "log"; "ini"; "xml"; "csv"; "rst"; "adoc"; "proto"; "graphql"; "thrift"; "avsc"].

(** [map(Glob::new).collect::<Result<..>>()] *)
Fixpoint compile_globs (patterns : list str) : result (list Glob) str :=
  match patterns with
  | [] => Ok []
  | p :: patterns =>
      g <-? glob_new p;
      gs <-? compile_globs patterns;
      Ok (g :: gs)
  end.

(** The globs of the default patterns; the code expects all to compile. *)
Definition default_globs : list Glob :=
  match compile_globs default_ignore_patterns with Ok gs => gs | Err _ => [] end.

Definition default_config : WatchConfig :=
  {| event_threshold := 100; fallback_interval_secs := 30; verification_interval_secs := 600;
     extensions := default_extensions; ignore_patterns := default_ignore_patterns;
     compiled_globs := default_globs; watch_config_files := true; max_event_buffer := 1000;
     storm_duration_secs := 10; recovery_threshold := 50; recovery_duration_secs := 30 |}.

Definition with_extensions (exts : list str) : WatchConfig :=
  {| event_threshold := 100; fallback_interval_secs := 30; verification_interval_secs := 600;
     extensions := exts; ignore_patterns := default_ignore_patterns;
     compiled_globs := default_globs; watch_config_files := true; max_event_buffer := 1000;
     storm_duration_secs := 10; recovery_threshold := 50; recovery_duration_secs := 30 |}.

Definition with_ignore_patterns (patterns : list str) : result WatchConfig str :=
  gs <-? compile_globs patterns;
  Ok {| event_threshold := 100; fallback_interval_secs := 30; verification_interval_secs := 600;
        extensions := default_extensions; ignore_patterns := patterns;
        compiled_globs := gs; watch_config_files := true; max_event_buffer := 1000;
        storm_duration_secs := 10; recovery_threshold := 50; recovery_duration_secs := 30 |}.

Definition with_params (threshold fallback verification : Z) (exts patterns : list str) (watch_config : bool)
    (max_buffer storm recovery recovery_duration : Z) : result WatchConfig str :=
  gs <-? compile_globs patterns;
  Ok {| event_threshold := threshold; fallback_interval_secs := fallback;
        verification_interval_secs := verification;
        extensions := if bool_decide (exts = []) then default_extensions else exts;
        ignore_patterns := patterns; compiled_globs := gs; watch_config_files := watch_config;
        max_event_buffer := max_buffer; storm_duration_secs := storm; recovery_threshold := recovery;
        recovery_duration_secs := recovery_duration |}.

Definition should_watch_extension (c : WatchConfig) (ext : str) : bool :=
  existsb (λ candidate, eq_ignore_ascii_case candidate ext) (extensions c).

Definition should_ignore_path (c : WatchConfig) (p : Path) : bool :=
  existsb (λ g, is_match g p) (compiled_globs c).

Definition to_mode_switch_config (c : WatchConfig) : ModeSwitch.ModeSwitchConfig :=
  {| ModeSwitch.storm_threshold := event_threshold c;
     ModeSwitch.storm_duration_secs := storm_duration_secs c;
     ModeSwitch.recovery_threshold := recovery_threshold c;
     ModeSwitch.recovery_duration_secs := recovery_duration_secs c;
     ModeSwitch.degraded_scan_interval_secs := fallback_interval_secs c |}.

(** ** Events *)

Inductive FileEventType := Created | Modified | Deleted | RenamedFrom | RenamedTo | ConfigModified.

Record FileEvent := {
  path : Path;
  event_type : FileEventType;
  timestamp : DateTime;
  previous_path : option Path
}.

Definition file_event (p : Path) (t : FileEventType) (now : DateTime) : FileEvent :=
  {| path := p; event_type := t; timestamp := now; previous_path := None |}.
Definition created (p : Path) (now : DateTime) : FileEvent := file_event p Created now.
Definition modified (p : Path) (now : DateTime) : FileEvent := file_event p Modified now.
Definition deleted (p : Path) (now : DateTime) : FileEvent := file_event p Deleted now.
Definition config_modified (p : Path) (now : DateTime) : FileEvent := file_event p ConfigModified now.
Definition renamed (from to : Path) (now : DateTime) : FileEvent :=
  {| path := to; event_type := RenamedTo; timestamp := now; previous_path := Some from |}.

Inductive WatchEvent :=
| FileCreated (p : Path)
| FileChanged (p : Path)
| FileDeleted (p : Path)
| FileRenamed (from to : Path)
| DirCreated (p : Path)
| DirDeleted (p : Path)
| ConfigChanged (p : Path)
| AnyEvent.

Definition event_path (e : WatchEvent) : option Path :=
  match e with
  | FileCreated p | FileChanged p | FileDeleted p | DirCreated p | DirDeleted p | ConfigChanged p => Some p
  | FileRenamed _ to => Some to
  | AnyEvent => None
  end.
Definition is_file_event (e : WatchEvent) : bool :=
  match e with FileCreated _ | FileChanged _ | FileDeleted _ | FileRenamed _ _ => true | _ => false end.
Definition is_dir_event (e : WatchEvent) : bool :=
  match e with DirCreated _ | DirDeleted _ => true | _ => false end.
Definition is_config_event (e : WatchEvent) : bool :=
  match e with ConfigChanged _ => true | _ => false end.

Definition to_file_event (e : WatchEvent) (now : DateTime) : option FileEvent :=
  match e with
  | FileCreated p => Some (created p now)
  | FileChanged p => Some (modified p now)
  | FileDeleted p => Some (deleted p now)
  | FileRenamed from to => Some (renamed from to now)
  | _ => None
  end.

(** The kinds of events the library reports, as far as they are told apart. *)
Inductive RenameMode := RenameBoth | RenameFrom | RenameTo | RenameAny | RenameOther.
Inductive EventKind :=
| CreateKind (folder : bool)
| ModifyName (mode : RenameMode)
| ModifyOther
| RemoveKind (folder : bool)
| OtherKind.
Record NotifyEvent := { kind : EventKind; paths : list Path }.

(** The name is taken as text; a file without a name is no manifest. *)
Definition is_config_file (p : Path) : bool :=
  match file_name p with Some n => BuildSystem.is_build_config_name n | None => false end.

Definition convert_notify_event (is_dir : Path → bool) (e : NotifyEvent) : option WatchEvent :=
  match paths e with
  | [] => None
  | path :: rest =>
      match kind e with
      | CreateKind folder =>
          if folder || is_dir path then Some (DirCreated path)
          else if is_config_file path then Some (ConfigChanged path)
          else Some (FileCreated path)
      | ModifyName RenameFrom => Some (FileDeleted path)
      | ModifyName RenameTo => Some (FileCreated path)
      | ModifyName (RenameBoth | RenameAny | RenameOther) =>
          match rest with to :: _ => Some (FileRenamed path to) | [] => None end
      | ModifyOther =>
          if is_config_file path then Some (ConfigChanged path) else Some (FileChanged path)
      | RemoveKind folder =>
          if folder || is_dir path then Some (DirDeleted path) else Some (FileDeleted path)
      | OtherKind => Some AnyEvent
      end
  end.

(** ** The runner *)

Record WatchStats := {
  total_events : Z;
  file_events : Z;
  dir_events : Z;
  config_events : Z;
  filtered_events : Z
}.

(** The counters of [WatchMetrics] the runner writes. *)
Record Metrics := {
  m_events : Z;
  m_file_events : Z;
  m_dir_events : Z;
  m_config_events : Z;
  m_filtered : Z;
  m_forwarded : Z;
  m_failed : Z
}.

(** The bounded channel to the hot update, the shared overflow flag, and the
    counters. *)
Record Runner := {
  channel : list FileEvent;
  capacity : nat;
  closed : bool;
  watch_event_overflow : bool;
  stats : WatchStats;
  metrics : option Metrics
}.

Inductive WatchError := SendEvent (path : str).

Definition incr (z : Z) : Z := wrap64 (z + 1).

Definition count_stats (e : WatchEvent) (s : WatchStats) : WatchStats :=
  let s := {| total_events := incr (total_events s); file_events := file_events s; dir_events := dir_events s;
              config_events := config_events s; filtered_events := filtered_events s |} in
  if is_file_event e then
    {| total_events := total_events s; file_events := incr (file_events s); dir_events := dir_events s;
       config_events := config_events s; filtered_events := filtered_events s |}
  else if is_dir_event e then
    {| total_events := total_events s; file_events := file_events s; dir_events := incr (dir_events s);
       config_events := config_events s; filtered_events := filtered_events s |}
  else if is_config_event e then
    {| total_events := total_events s; file_events := file_events s; dir_events := dir_events s;
       config_events := incr (config_events s); filtered_events := filtered_events s |}
  else s.

Definition count_metrics (e : WatchEvent) (m : Metrics) : Metrics :=
  {| m_events := incr (m_events m);
     m_file_events := if is_file_event e then incr (m_file_events m) else m_file_events m;
     m_dir_events := if is_dir_event e then incr (m_dir_events m) else m_dir_events m;
     m_config_events := if is_config_event e then incr (m_config_events m) else m_config_events m;
     m_filtered := m_filtered m; m_forwarded := m_forwarded m; m_failed := m_failed m |}.

Definition count_filtered_stats (s : WatchStats) : WatchStats :=
  {| total_events := total_events s; file_events := file_events s; dir_events := dir_events s;
     config_events := config_events s; filtered_events := incr (filtered_events s) |}.
Definition record_filtered (m : Metrics) : Metrics :=
  {| m_events := m_events m; m_file_events := m_file_events m; m_dir_events := m_dir_events m;
     m_config_events := m_config_events m; m_filtered := incr (m_filtered m); m_forwarded := m_forwarded m;
     m_failed := m_failed m |}.
Definition record_forwarded (m : Metrics) : Metrics :=
  {| m_events := m_events m; m_file_events := m_file_events m; m_dir_events := m_dir_events m;
     m_config_events := m_config_events m; m_filtered := m_filtered m; m_forwarded := incr (m_forwarded m);
     m_failed := m_failed m |}.
Definition record_failed (m : Metrics) : Metrics :=
  {| m_events := m_events m; m_file_events := m_file_events m; m_dir_events := m_dir_events m;
     m_config_events := m_config_events m; m_filtered := m_filtered m; m_forwarded := m_forwarded m;
     m_failed := incr (m_failed m) |}.

Definition with_counters (s : WatchStats) (m : option Metrics) (r : Runner) : Runner :=
  {| channel := channel r; capacity := capacity r; closed := closed r;
     watch_event_overflow := watch_event_overflow r; stats := s; metrics := m |}.
Definition with_channel (l : list FileEvent) (r : Runner) : Runner :=
  {| channel := l; capacity := capacity r; closed := closed r;
     watch_event_overflow := watch_event_overflow r; stats := stats r; metrics := metrics r |}.
Definition set_overflow (r : Runner) : Runner :=
  {| channel := channel r; capacity := capacity r; closed := closed r; watch_event_overflow := true;
     stats := stats r; metrics := metrics r |}.

Definition map_metrics (f : Metrics → Metrics) (r : Runner) : Runner :=
  with_counters (stats r) (f <$> metrics r) r.

(** [try_send] fails on a closed channel before it looks for room. *)
Definition send_file_event (e : FileEvent) (r : Runner) : result unit WatchError * Runner :=
  if closed r then (Err (SendEvent (to_str (path e))), map_metrics record_failed r)
  else if (length (channel r) <? capacity r)%nat then (Ok tt, with_channel (channel r ++ [e]) r)
  else (Ok tt, set_overflow (map_metrics record_failed r)).

Definition should_process (c : WatchConfig) (e : WatchEvent) : bool :=
  match event_path e with
  | None => false
  | Some p =>
      if should_ignore_path c p then false
      else if is_file_event e && match extension p with
                                 | Some ext => negb (should_watch_extension c ext)
                                 | None => false
                                 end
      then false
      else if watch_config_files c && is_config_file p then true
      else true
  end.

(** Sending with the [?] behind it, then counting it as forwarded. *)
Definition forward (e : FileEvent) (r : Runner) : result unit WatchError * Runner :=
  match send_file_event e r with
  | (Ok _, r) => (Ok tt, map_metrics record_forwarded r)
  | (Err err, r) => (Err err, r)
  end.

Definition handle_event (c : WatchConfig) (e : WatchEvent) (now now' : DateTime) (r : Runner)
    : result unit WatchError * Runner :=
  let r := with_counters (count_stats e (stats r)) (count_metrics e <$> metrics r) r in
  if negb (should_process c e) then
    (Ok tt, with_counters (count_filtered_stats (stats r)) (record_filtered <$> metrics r) r)
  else
    match e with
    | FileCreated p => forward (created p now) r
    | FileChanged p => forward (modified p now) r
    | FileDeleted p => forward (deleted p now) r
    | FileRenamed from to =>
        match send_file_event (deleted from now) r with
        | (Err err, r) => (Err err, r)
        | (Ok _, r) =>
            match send_file_event (created to now') r with
            | (Err err, r) => (Err err, r)
            | (Ok _, r) => (Ok tt, map_metrics record_forwarded (map_metrics record_forwarded r))
            end
        end
    | ConfigChanged p => forward (config_modified p now) r
    | DirCreated _ | DirDeleted _ | AnyEvent => (Ok tt, r)
    end.

(** The loop over the events the library reports; an error is logged. *)
Fixpoint run (c : WatchConfig) (events : list (WatchEvent * DateTime * DateTime)) (r : Runner) : Runner :=
  match events with
  | [] => r
  | (e, now, now') :: events => run c events (handle_event c e now now' r).2
  end.

(** ** The default patterns *)

Definition ignored_names : list string :=
  ["node_modules"; "target"; ".git"; "dist"; "build"; ".idea"; ".vscode"; "__pycache__"; ".venv"; "venv"].

Definition marker (n : string) : str := lit n ++ [slash].

Lemma default_globs_are :
  default_globs =
  map (λ n, {| tokens := [Recursive; Literal (marker n); Recursive]; is_recursive := true;
               is_anchored := false |}) ignored_names.
Proof. vm_compute. reflexivity. Qed.

Lemma in_language_contains m s : in_language [Recursive; Literal m; Recursive] s ↔ contains m s = true.
Proof.
  rewrite contains_spec, in_language_cons. split.
  - intros (a & b & -> & _ & H). apply in_language_cons in H as (? & c & -> & -> & _). by exists a, c.
  - intros (a & b & ->). exists a, (m ++ b). split_and!; [done..|]. apply in_language_cons.
    exists m, b. split_and!; [done..|]. apply in_language_cons. exists b, [].
    rewrite app_nil_r. split_and!; [done..|by apply in_language_nil].
Qed.

Lemma default_ignores_spec p :
  path_ok p →
  should_ignore_path default_config p = true ↔
  ∃ n, n ∈ ignored_names ∧ contains (marker n) (path_text p) = true.
Proof.
  intros Hp. unfold should_ignore_path. cbn [compiled_globs default_config]. rewrite default_globs_are.
  rewrite existsb_exists. setoid_rewrite <- list_elem_of_In. setoid_rewrite list_elem_of_fmap. split.
  - intros (g & (n & -> & Hn) & Hm). exists n. split; [done|]. apply is_match_spec in Hm; [|done].
    destruct Hm as [Hm|(_ & Hl & _)]; [by apply in_language_contains|]. cbn [tokens] in Hl.
    destruct (Hl (marker n)); [right; by left|]. apply elem_of_app. right. by left.
  - intros (n & Hn & Hc). eexists. split; [by exists n|]. apply is_match_spec; [done|]. left.
    by apply in_language_contains.
Qed.

Lemma join_contains (l1 l2 : list str) x :
  l2 ≠ [] → ∃ a b, join [slash] (l1 ++ x :: l2) = a ++ (x ++ [slash]) ++ b.
Proof.
  intros Hne. induction l1 as [|y l1 IH].
  - exists [], (join [slash] l2). destruct l2 as [|z l2]; [done|].
    change (join [slash] ([] ++ x :: z :: l2)) with (x ++ [slash] ++ join [slash] (z :: l2)).
    by rewrite <- app_assoc.
  - destruct IH as (a & b & E). destruct (l1 ++ x :: l2) as [|z l] eqn:El; [by destruct l1|].
    exists (y ++ [slash] ++ a), b. change (join [slash] ((y :: l1) ++ x :: l2)) with
      (join [slash] (y :: (l1 ++ x :: l2))). rewrite El.
    change (join [slash] (y :: z :: l)) with (y ++ [slash] ++ join [slash] (z :: l)).
    by rewrite E, <- !app_assoc.
Qed.

Lemma ignored_name_no_backslash n : n ∈ ignored_names → Forall (λ c, (c =? backslash) = false) (marker n).
Proof.
  assert (H : Forall (λ n, Forall (λ c, (c =? backslash) = false) (marker n)) ignored_names)
    by (apply (bool_decide_unpack _); vm_compute; exact I).
  rewrite Forall_forall in H. apply H.
Qed.

(** The default patterns look at the absolute path and do not stop at the
    borders of names: below a directory whose name ends in one of the ignored
    names, the project's own directories included, no event is processed. *)
Theorem project_below_ignored_name_is_not_watched e root ns before pre n after :
  path_ok {| absolute := true; names := names root ++ ns |} → ns ≠ [] → n ∈ ignored_names →
  names root = before ++ (pre ++ lit n) :: after →
  event_path e = Some {| absolute := true; names := names root ++ ns |} →
  should_process default_config e = false.
Proof.
  intros Hp Hns Hn Hroot He. unfold should_process. rewrite He.
  assert (Hig : should_ignore_path default_config {| absolute := true; names := names root ++ ns |} = true);
    [|by rewrite Hig].
  apply default_ignores_spec; [done|]. exists n. split; [done|]. apply contains_spec.
  unfold path_text, to_str. cbn [absolute names]. rewrite Hroot, <- app_assoc. cbn [app].
  destruct (join_contains before (after ++ ns) (pre ++ lit n)) as (a & b & E); [by destruct after, ns|].
  exists (replace (λ c, c =? backslash) [slash] ([slash] ++ a ++ pre)), (replace (λ c, c =? backslash) [slash] b).
  rewrite <- (replace_none (λ c, c =? backslash) [slash] (marker n)) by (by apply ignored_name_no_backslash).
  rewrite <- !replace_app. f_equal. rewrite E. unfold marker. cbn [app]. by rewrite <- !app_assoc.
Qed.

(** ** Delivery *)

(** What an event asks the hot update to do. *)
Definition deliveries (c : WatchConfig) (e : WatchEvent) (now now' : DateTime) : list FileEvent :=
  if negb (should_process c e) then []
  else match e with
       | FileCreated p => [created p now]
       | FileChanged p => [modified p now]
       | FileDeleted p => [deleted p now]
       | FileRenamed from to => [deleted from now; created to now']
       | ConfigChanged p => [config_modified p now]
       | _ => []
       end.

Definition all_deliveries (c : WatchConfig) (events : list (WatchEvent * DateTime * DateTime)) : list FileEvent :=
  events ≫= λ '(e, now, now'), deliveries c e now now'.

(** Nothing of [sent] is lost without the overflow flag. *)
Definition delivered (sent : list FileEvent) (r r' : Runner) : Prop :=
  closed r' = closed r ∧ capacity r' = capacity r ∧
  (watch_event_overflow r = true → watch_event_overflow r' = true) ∧
  (channel r `prefix_of` channel r') ∧
  ((length (channel r) ≤ capacity r)%nat → (length (channel r') ≤ capacity r')%nat) ∧
  (watch_event_overflow r' = true ∨ channel r' = channel r ++ sent).

Lemma delivered_nothing r r' :
  closed r' = closed r → capacity r' = capacity r → watch_event_overflow r' = watch_event_overflow r →
  channel r' = channel r → delivered [] r r'.
Proof.
  intros H1 H2 H3 H4. split_and!; [done|done|congruence|by rewrite H4|congruence|right].
  by rewrite app_nil_r.
Qed.

Lemma delivered_counters sent s m r r' : delivered sent (with_counters s m r) r' → delivered sent r r'.
Proof. done. Qed.

Lemma delivered_metrics sent f r r' : delivered sent r r' → delivered sent r (map_metrics f r').
Proof. done. Qed.

Lemma delivered_app l k r r1 r2 : delivered l r r1 → delivered k r1 r2 → delivered (l ++ k) r r2.
Proof.
  intros (H1 & H2 & H3 & H4 & H5 & H6) (K1 & K2 & K3 & K4 & K5 & K6). split_and!; [congruence|congruence|auto| |auto|].
  - by etrans.
  - destruct K6 as [?|K6]; [by left|]. destruct H6 as [H6|H6]; [left; by apply K3|].
    right. by rewrite K6, H6, app_assoc.
Qed.

Lemma send_delivered e r :
  closed r = false → ∃ r', send_file_event e r = (Ok tt, r') ∧ delivered [e] r r'.
Proof.
  intros Hc. unfold send_file_event. rewrite Hc. destruct (Nat.ltb_spec (length (channel r)) (capacity r)).
  - eexists. split; [done|]. split_and!; try done; simpl; [by eexists|rewrite length_app; simpl; lia|by right].
  - eexists. split; [done|]. split_and!; try done; simpl. by left.
Qed.

Lemma forward_delivered e r :
  closed r = false → ∃ r', forward e r = (Ok tt, r') ∧ delivered [e] r r'.
Proof.
  intros Hc. unfold forward. destruct (send_delivered e r Hc) as (r' & -> & Hd).
  eexists. split; [done|]. by apply delivered_metrics.
Qed.

Lemma handle_delivered c e now now' r :
  closed r = false →
  ∃ r', handle_event c e now now' r = (Ok tt, r') ∧ delivered (deliveries c e now now') r r'.
Proof.
  intros Hc. unfold handle_event, deliveries.
  destruct (negb (should_process c e)); [eexists; split; [done|by apply delivered_nothing]|].
  set (r0 := with_counters _ _ r). assert (Hc0 : closed r0 = false) by done.
  destruct e as [p|p|p|from to|p|p|p|];
    try (destruct (forward_delivered (file_event p Created now) r0 Hc0) as (r' & E & Hd); by exists r');
    try (destruct (forward_delivered (file_event p Modified now) r0 Hc0) as (r' & E & Hd); by exists r');
    try (destruct (forward_delivered (file_event p Deleted now) r0 Hc0) as (r' & E & Hd); by exists r');
    try (destruct (forward_delivered (file_event p ConfigModified now) r0 Hc0) as (r' & E & Hd); by exists r');
    try (eexists; split; [done|by apply delivered_nothing]).
  destruct (send_delivered (deleted from now) r0 Hc0) as (r1 & -> & H1).
  destruct (send_delivered (created to now') r1) as (r2 & -> & H2); [by destruct H1 as (-> & _)|].
  eexists. split; [done|]. do 2 apply delivered_metrics.
  by apply (delivered_app [deleted from now] [created to now'] r r1).
Qed.

(** C25. While the hot update listens, either everything the processed events ask
    for is in the channel, in order, or the overflow flag demands a full
    rescan; the channel keeps its bound. *)
Theorem events_delivered_or_rescan c events r :
  closed r = false → delivered (all_deliveries c events) r (run c events r).
Proof.
  revert r. induction events as [|[[e now] now'] events IH]; intros r Hc; cbn [run].
  - split_and!; try done. right. by rewrite app_nil_r.
  - destruct (handle_delivered c e now now' r Hc) as (r1 & -> & H1). cbn [snd].
    apply (delivered_app _ _ r r1); [done|]. apply IH. by destruct H1 as (-> & _).
Qed.

(** An event is filtered by the path it leads to: renaming a file to a name
    that is not watched sends nothing, so the old path stays in the index,
    although deleting it would be sent. *)
Theorem rename_out_of_scope_is_lost c from to now now' r :
  closed r = false → should_process c (FileDeleted from) = true → should_process c (FileCreated to) = false →
  deliveries c (FileDeleted from) now now' = [deleted from now] ∧
  let r' := (handle_event c (FileRenamed from to) now now' r).2 in
  channel r' = channel r ∧ watch_event_overflow r' = watch_event_overflow r.
Proof.
  intros Hc Hfrom Hto. split; [unfold deliveries; by rewrite Hfrom|].
  unfold handle_event. assert (should_process c (FileRenamed from to) = false) as -> by done. done.
Qed.

(** ** Examples *)

Definition demo_runner : Runner :=
  {| channel := []; capacity := 2; closed := false; watch_event_overflow := false;
     stats := {| total_events := 0; file_events := 0; dir_events := 0; config_events := 0; filtered_events := 0 |};
     metrics := None |}.

Definition in_project (ns : list string) : Path :=
  {| absolute := true; names := map lit (["home"; "me"; "proj"] ++ ns) |}.

Example should_process_examples :
  should_process default_config (FileChanged (in_project ["src"; "main.RS"])) = true ∧
  should_process default_config (FileChanged (in_project ["src"; "main.o"])) = false ∧
  should_process default_config (FileChanged (in_project ["target"; "a.rs"])) = false ∧
  should_process default_config (FileChanged (in_project ["checkout_build"; "a.rs"])) = false ∧
  convert_notify_event (λ _, false) {| kind := ModifyName RenameAny; paths := [in_project ["a.rs"]] |} = None.
Proof. by vm_compute. Qed.

Theorem project_below_ignored_name_is_not_watched_witness :
  should_process default_config
    (FileChanged {| absolute := true; names := map lit ["home"; "rebuild"; "proj"; "main.rs"] |}) = false.
Proof.
  apply (project_below_ignored_name_is_not_watched _
    {| absolute := true; names := map lit ["home"; "rebuild"; "proj"] |} [lit "main.rs"]
    [lit "home"] (lit "re") "build" [lit "proj"]).
  - apply (bool_decide_unpack _). vm_compute. exact I.
  - done.
  - apply (bool_decide_unpack _). vm_compute. exact I.
  - reflexivity.
  - reflexivity.
Defined.

Theorem events_delivered_or_rescan_witness :
  let events := [(FileChanged (in_project ["a.rs"]), 1, 1); (DirDeleted (in_project ["b"]), 2, 2);
                 (FileRenamed (in_project ["c.rs"]) (in_project ["d.rs"]), 3, 4)] in
  delivered (all_deliveries default_config events) demo_runner (run default_config events demo_runner) ∧
  watch_event_overflow (run default_config events demo_runner) = true.
Proof. split; [by apply events_delivered_or_rescan|by vm_compute]. Defined.

Theorem rename_out_of_scope_is_lost_witness :
  channel (handle_event default_config (FileRenamed (in_project ["a.rs"]) (in_project ["target"; "a.rs"])) 1 1
    demo_runner).2 = [].
Proof.
  apply (rename_out_of_scope_is_lost default_config (in_project ["a.rs"]) (in_project ["target"; "a.rs"]) 1 1
    demo_runner); vm_compute; reflexivity.
Defined.

End Watcher.
