(* ===== verification/StateTracker.v ===== *)
(** The update state tracker (crates/app/cce-orchestrator/src/index_state_tracker/):
    the per-file update states of one project, their version counter, and the
    durable projection of them in the checkpoint database. Every operation of
    mod.rs, file_states.rs, dead_letters.rs, operations.rs and phases.rs is
    modelled; a database transaction carries its outcome as an argument. *)

From S2P Require Import Prelude IndexState.

Module StateTracker.
Import IndexState.

Definition i64_max : Z := 2 ^ 63 - 1.

Inductive StateTrackerError :=
| StateNotFound (file : string)
| DatabaseBindBusy
| VersionMismatch (file : string) (expected found : Z)
| InvalidTransition (file : string) (module : ModuleType) (from to : ModuleUpdateState).

(** [serde_json] on [FileUpdateState]: serialization may fail, and a row that
    was serialized reads back as the state it was written from. *)
Class StateJson (Json : Type) := {
  to_json : FileUpdateState → option Json;
  from_json : Json → option FileUpdateState;
}.

Class StateJsonLaws (Json : Type) `{!StateJson Json} := {
  to_json_total : ∀ s, is_Some (to_json s);
  json_roundtrip : ∀ s j, to_json s = Some j → from_json j = Some s;
}.

Section tracker.
Context {Json : Type} `{!StateJson Json}.

(** The table [index_state_projection]: (project_id, operation_id, file_path)
    is its key; [version] and [state_json] are the columns that are read. *)
Abbreviation projection := (gmap (Z * string * string) (Z * Json)).

Record UpdateStateTracker := {
  project_id : Z;
  states : gmap string FileUpdateState;
  version_counter : Z;
  current_operation_id : option string;
  database : option projection;
}.

Definition new (project : Z) : UpdateStateTracker :=
  {| project_id := project; states := ∅; version_counter := 0;
     current_operation_id := None; database := None |}.

(** Field assignments. *)
Definition set_states (m : gmap string FileUpdateState) (tr : UpdateStateTracker)
    : UpdateStateTracker :=
  {| project_id := project_id tr; states := m; version_counter := version_counter tr;
     current_operation_id := current_operation_id tr; database := database tr |}.

Definition set_counter (c : Z) (tr : UpdateStateTracker) : UpdateStateTracker :=
  {| project_id := project_id tr; states := states tr; version_counter := c;
     current_operation_id := current_operation_id tr; database := database tr |}.

Definition set_operation (o : option string) (tr : UpdateStateTracker) : UpdateStateTracker :=
  {| project_id := project_id tr; states := states tr; version_counter := version_counter tr;
     current_operation_id := o; database := database tr |}.

Definition set_db (db : option projection) (tr : UpdateStateTracker) : UpdateStateTracker :=
  {| project_id := project_id tr; states := states tr; version_counter := version_counter tr;
     current_operation_id := current_operation_id tr; database := db |}.

(** [lock_ok] is the outcome of [try_write]. *)
Definition set_database (lock_ok : bool) (db : projection) (tr : UpdateStateTracker)
    : result unit StateTrackerError * UpdateStateTracker :=
  if lock_ok then (Ok (), set_db (Some db) tr) else (Err DatabaseBindBusy, tr).

(** ** The durable projection *)

Definition operation_key (tr : UpdateStateTracker) : string :=
  default "state" (current_operation_id tr).

Definition upsert_row (key : Z * string * string) (v : Z) (j : Json) (db : projection)
    : projection :=
  match db !! key with
  | None => <[key := (v, j)]> db
  | Some (v0, _) => if v0 <=? v then <[key := (v, j)]> db else db
  end.

Definition persist_state (tx_ok : bool) (s : FileUpdateState) (tr : UpdateStateTracker)
    : UpdateStateTracker :=
  match database tr with
  | None => tr
  | Some db =>
      match to_json s with
      | None => tr
      | Some j =>
          if version s <=? i64_max then
            if tx_ok then
              set_db (Some (upsert_row (project_id tr, operation_key tr, file_path s)
                              (version s) j db)) tr
            else tr
          else tr
      end
  end.

Definition delete_persisted_state (tx_ok : bool) (path : string) (tr : UpdateStateTracker)
    : UpdateStateTracker :=
  match database tr with
  | None => tr
  | Some db =>
      if tx_ok then set_db (Some (delete (project_id tr, operation_key tr, path) db)) tr
      else tr
  end.

(** One row of the recovery query: the state to restore, if it is compatible. *)
Definition row_state (project : Z) (op : string) (row : (Z * string * string) * (Z * Json))
    : option (string * FileUpdateState) :=
  let '((pr, o, path), (raw_version, j)) := row in
  if decide (pr = project ∧ o = op) then
    if 0 <=? raw_version then
      match from_json j with
      | Some s =>
          if decide (IndexState.project_id s = project ∧ version s = raw_version)
          then Some (path, s) else None
      | None => None
      end
    else None
  else None.

Definition load_row (project : Z) (op : string) (acc : gmap string FileUpdateState * Z)
    (row : (Z * string * string) * (Z * Json)) : gmap string FileUpdateState * Z :=
  match row_state project op row with
  | Some (path, s) => (<[path := s]> acc.1, Z.max acc.2 (version s))
  | None => acc
  end.

Definition load_projection (read_ok : bool) (db : projection) (project : Z) (op : string)
    : gmap string FileUpdateState * Z :=
  if read_ok then foldl (load_row project op) (∅, 0) (map_to_list db) else (∅, 0).

Definition restore_operation (read_ok : bool) (op : string) (tr : UpdateStateTracker)
    : UpdateStateTracker :=
  match database tr with
  | None => tr
  | Some db =>
      let '(restored, max_version) := load_projection read_ok db (project_id tr) op in
      if decide (restored = ∅) then tr
      else set_operation (Some op) (set_counter max_version (set_states restored tr))
  end.

(** ** Per-file operations (file_states.rs) *)

Definition get_state (path : string) (tr : UpdateStateTracker) : option FileUpdateState :=
  states tr !! path.

Definition has_state (path : string) (tr : UpdateStateTracker) : bool :=
  bool_decide (is_Some (states tr !! path)).

(** Update the state of a known file and persist it. *)
Definition modify (tx_ok : bool) (path : string) (f : FileUpdateState → FileUpdateState)
    (tr : UpdateStateTracker) : result unit StateTrackerError * UpdateStateTracker :=
  match states tr !! path with
  | Some s =>
      let s' := f s in
      (Ok (), persist_state tx_ok s' (set_states (<[path := s']> (states tr)) tr))
  | None => (Err (StateNotFound path), tr)
  end.

Definition update_module_state (tx_ok : bool) (t : readings) (path : string)
    (m : ModuleType) (st : ModuleUpdateState) :=
  modify tx_ok path (IndexState.update_module_state t m st).

Definition mark_success (tx_ok : bool) (t : readings) (path : string) (m : ModuleType) :=
  modify tx_ok path (mark_module_success t m).

Definition mark_failed (tx_ok : bool) (t : readings) (path : string) (m : ModuleType)
    (f : TrackerFailure) :=
  modify tx_ok path (mark_module_failed t m f).

Definition check_version (path : string) (expected : Z) (tr : UpdateStateTracker)
    : result bool StateTrackerError :=
  match states tr !! path with
  | Some s =>
      if version s =? expected then Ok true
      else if expected <? version s then Ok false
      else Err (VersionMismatch path expected (version s))
  | None => Ok true
  end.

Definition file_states (tr : UpdateStateTracker) : list FileUpdateState :=
  (map_to_list (states tr)).*2.

Definition pending_of (now : DateTime) (ps : string * FileUpdateState)
    : list (string * ModuleType * DateTime) :=
  omap (λ '(m, r), match state r with
                   | Retrying next => if next <=? now then Some (ps.1, m, next) else None
                   | _ => None
                   end) (map_to_list (module_states ps.2)).

Definition get_pending_retries (now : DateTime) (tr : UpdateStateTracker)
    : list (string * ModuleType * DateTime) :=
  concat (map (pending_of now) (map_to_list (states tr))).

Definition get_updating_files (tr : UpdateStateTracker) : list FileUpdateState :=
  retain IndexState.is_updating (file_states tr).

Definition is_resumable (s : FileUpdateState) : bool :=
  match checkpoint s with Some _ => true | None => false end &&
  negb (all_success s) && negb (existsb (λ r, is_dead_letter (state r)) (values s)).

Definition get_resumable_files (tr : UpdateStateTracker) : list FileUpdateState :=
  retain is_resumable (file_states tr).

Definition in_phase (p : IndexPhase) (s : FileUpdateState) : bool :=
  match checkpoint s with Some c => bool_decide (phase c = p) | None => false end.

Definition get_files_in_phase (p : IndexPhase) (tr : UpdateStateTracker)
    : list FileUpdateState := retain (in_phase p) (file_states tr).

Definition remove_state (tx_ok : bool) (path : string) (tr : UpdateStateTracker)
    : bool * UpdateStateTracker :=
  let tr' := set_states (delete path (states tr)) tr in
  match states tr !! path with
  | Some _ => (true, delete_persisted_state tx_ok path tr')
  | None => (false, tr')
  end.

Definition file_count (tr : UpdateStateTracker) : nat := size (states tr).

Definition all_complete (tr : UpdateStateTracker) : bool :=
  if decide (states tr = ∅) then true else forallb all_success (file_states tr).

(** ** Dead letters (dead_letters.rs) *)

Definition unacknowledged_dead (r : ModuleUpdateRecord) : bool :=
  is_dead_letter (state r) && negb (acknowledged r).

Definition get_dead_letters (tr : UpdateStateTracker) : list FileUpdateState :=
  retain (λ s, existsb unacknowledged_dead (values s)) (file_states tr).

(** The records the acknowledging loop touches. *)
Definition ack_target (module : option ModuleType) (m : ModuleType)
    (r : ModuleUpdateRecord) : bool :=
  unacknowledged_dead r &&
  match module with None => true | Some target => bool_decide (m = target) end.

Definition acknowledge_dead_letter (now : DateTime) (path : string)
    (module : option ModuleType) (tr : UpdateStateTracker)
    : result Z StateTrackerError * UpdateStateTracker :=
  match states tr !! path with
  | None => (Err (StateNotFound path), tr)
  | Some s =>
      let updated := count_if (λ '(m, r), ack_target module m r)
                       (map_to_list (module_states s)) in
      let ms := map_imap (λ m r, Some (if ack_target module m r
                                       then record_acknowledged r else r))
                  (module_states s) in
      (Ok updated,
       set_states (<[path := set_updated now (set_modules ms s)]> (states tr)) tr)
  end.

Definition reset_dead_letter (now : DateTime) (path : string) (m : ModuleType)
    (tr : UpdateStateTracker) : result unit StateTrackerError * UpdateStateTracker :=
  match states tr !! path with
  | None => (Err (StateNotFound path), tr)
  | Some s =>
      match module_states s !! m with
      | None => (Err (StateNotFound path), tr)
      | Some r =>
          if negb (is_dead_letter (state r)) then (Err (StateNotFound path), tr)
          else
            let ms := <[m := record_reset r]> (module_states s) in
            (Ok (), set_states (<[path := set_updated now (set_modules ms s)]> (states tr)) tr)
      end
  end.

Definition truncate_candidate (s : FileUpdateState) : bool :=
  match module_states s !! Embedding with
  | Some r => is_truncate_candidate r && negb (acknowledged r)
  | None => false
  end.

Definition get_truncate_retry_candidates (tr : UpdateStateTracker) : list FileUpdateState :=
  retain truncate_candidate (file_states tr).

Definition set_module_truncated (tx_ok : bool) (now : DateTime) (path : string)
    (m : ModuleType) :=
  modify tx_ok path (IndexState.set_module_truncated now m).

(** ** Operations (operations.rs) *)

Definition start_full_index_for_operation (op : string) (tr : UpdateStateTracker)
    : UpdateStateTracker :=
  set_operation (Some op) (set_counter 0 (set_states ∅ tr)).

(** [format_id] renders the operation id from the clock reading. *)
Definition start_full_index (format_id : DateTime → string) (now : DateTime)
    (tr : UpdateStateTracker) : string * UpdateStateTracker :=
  let op := format_id now in (op, start_full_index_for_operation op tr).

(** The critical section of the version counter. *)
Definition next_version (tr : UpdateStateTracker) : Z * UpdateStateTracker :=
  let c := wrap64 (version_counter tr + 1) in (c, set_counter c tr).

Definition store_state (s : FileUpdateState) (tr : UpdateStateTracker) : UpdateStateTracker :=
  set_states (<[file_path s := s]> (states tr)) tr.

(** A file of a batch with the clock readings and transaction outcome its
    processing meets. *)
Record batch_file := { bf_path : string; bf_now : DateTime; bf_now' : DateTime; bf_tx : bool }.

Definition create_batch_file (batch_index total_batches batch_size : Z) (root_dir : string)
    (acc : list FileUpdateState * UpdateStateTracker) (f : batch_file)
    : list FileUpdateState * UpdateStateTracker :=
  let '(created, tr) := acc in
  let '(v, tr) := next_version tr in
  let s := for_full_index (bf_now f) (bf_now' f) (bf_path f) v (project_id tr)
             total_batches batch_size root_dir in
  let s := set_checkpoint (checkpoint_set_batch batch_index <$> checkpoint s) s in
  (created ++ [s], persist_state (bf_tx f) s (store_state s tr)).

Definition create_full_index_batch (files : list batch_file)
    (batch_index total_batches batch_size : Z) (root_dir : string)
    (tr : UpdateStateTracker) : list FileUpdateState * UpdateStateTracker :=
  foldl (create_batch_file batch_index total_batches batch_size root_dir) ([], tr) files.

Definition create_update (tx_ok : bool) (now : DateTime) (path : string)
    (c : FileChangeType) (tr : UpdateStateTracker) : FileUpdateState * UpdateStateTracker :=
  let '(v, tr) := next_version tr in
  let s := IndexState.new now path v c (project_id tr) in
  (s, persist_state tx_ok s (store_state s tr)).

(** ** Phases and maintenance (phases.rs) *)

Definition update_checkpoint (tx_ok : bool) (now : DateTime) (path : string)
    (c : Checkpoint) :=
  modify tx_ok path (IndexState.update_checkpoint now c).

Definition phase_file (p : IndexPhase) (m : gmap string FileUpdateState) (f : batch_file)
    : gmap string FileUpdateState :=
  match m !! bf_path f with
  | Some s =>
      let s := set_checkpoint (checkpoint_set_phase p (bf_now f) <$> checkpoint s) s in
      <[bf_path f := set_updated (bf_now' f) s]> m
  | None => m
  end.

Definition persist_all (changed : list (FileUpdateState * bool)) (tr : UpdateStateTracker)
    : UpdateStateTracker :=
  foldl (λ tr '(s, tx_ok), persist_state tx_ok s tr) tr changed.

Definition mark_phase_complete (files : list batch_file) (p : IndexPhase)
    (tr : UpdateStateTracker) : UpdateStateTracker :=
  let m := foldl (phase_file p) (states tr) files in
  let changed := omap (λ f, (λ s, (s, bf_tx f)) <$> m !! bf_path f) files in
  persist_all changed (set_states m tr).

(** [(now - updated_at).to_std()] fails on a negative span. *)
Definition is_expired (now : DateTime) (max_age : Duration) (s : FileUpdateState) : bool :=
  all_success s &&
  (if 0 <=? now - updated_at s then max_age <=? now - updated_at s else false).

Definition cleanup_completed (tx_ok : string → bool) (now : DateTime) (max_age : Duration)
    (tr : UpdateStateTracker) : nat * UpdateStateTracker :=
  let to_remove := (retain (λ ps, is_expired now max_age ps.2)
                      (map_to_list (states tr))).*1 in
  let m := foldl (λ m p, delete p m) (states tr) to_remove in
  (length to_remove,
   foldl (λ tr p, delete_persisted_state (tx_ok p) p tr) (set_states m tr) to_remove).

Record UpdateStateStats := { total_files : nat; fully_updated : nat }.

Definition get_stats (tr : UpdateStateTracker) : UpdateStateStats :=
  {| total_files := size (states tr);
     fully_updated := length (retain all_success (file_states tr)) |}.

Definition op_key (s : FileUpdateState) : string :=
  match operation_type s with
  | Full _ _ _ => "full"
  | Hot trigger => "hot_" +:+ trigger_str trigger
  | Incremental _ => "incremental"
  end.

(** [*map.entry(k).or_insert(0) += 1] *)
Definition bump `{Countable K} (k : K) (m : gmap K Z) : gmap K Z :=
  <[k := default 0 (m !! k) + 1]> m.

Record IndexStateReport := {
  operation_breakdown : gmap string Z;
  dead_letters : list string;
  updating_files : list string;
  resumable_files : list string;
  phase_distribution : gmap IndexPhase Z;
}.

Definition get_report (tr : UpdateStateTracker) : IndexStateReport :=
  let count '((ops, phases) : gmap string Z * gmap IndexPhase Z) s :=
    (bump (op_key s) ops,
     match checkpoint s with Some c => bump (phase c) phases | None => phases end) in
  let '(ops, phases) := foldl count (∅, ∅) (file_states tr) in
  {| operation_breakdown := ops;
     dead_letters := file_path <$> get_dead_letters tr;
     updating_files := file_path <$> get_updating_files tr;
     resumable_files := file_path <$> get_resumable_files tr;
     phase_distribution := phases |}.

Definition has_issues (r : IndexStateReport) : bool :=
  negb (bool_decide (dead_letters r = [])).

(** ** The tracker as a transition system *)

Inductive op :=
| OpCreate (tx_ok : bool) (now : DateTime) (path : string) (c : FileChangeType)
| OpBatch (files : list batch_file) (batch_index total_batches batch_size : Z)
    (root_dir : string)
| OpUpdateModule (tx_ok : bool) (t : readings) (path : string) (m : ModuleType)
    (st : ModuleUpdateState)
| OpSuccess (tx_ok : bool) (t : readings) (path : string) (m : ModuleType)
| OpFailed (tx_ok : bool) (t : readings) (path : string) (m : ModuleType)
    (f : TrackerFailure)
| OpTruncated (tx_ok : bool) (now : DateTime) (path : string) (m : ModuleType)
| OpCheckpoint (tx_ok : bool) (now : DateTime) (path : string) (c : Checkpoint)
| OpPhase (files : list batch_file) (p : IndexPhase)
| OpRemove (tx_ok : bool) (path : string)
| OpCleanup (tx_ok : string → bool) (now : DateTime) (max_age : Duration)
| OpAcknowledge (now : DateTime) (path : string) (module : option ModuleType)
| OpReset (now : DateTime) (path : string) (m : ModuleType)
| OpStart (operation_id : string)
| OpRestore (read_ok : bool) (operation_id : string)
| OpBind (lock_ok : bool) (db : projection).

Definition apply_op (o : op) (tr : UpdateStateTracker) : UpdateStateTracker :=
  match o with
  | OpCreate tx now path c => (create_update tx now path c tr).2
  | OpBatch files i n k root => (create_full_index_batch files i n k root tr).2
  | OpUpdateModule tx t path m st => (update_module_state tx t path m st tr).2
  | OpSuccess tx t path m => (mark_success tx t path m tr).2
  | OpFailed tx t path m f => (mark_failed tx t path m f tr).2
  | OpTruncated tx now path m => (set_module_truncated tx now path m tr).2
  | OpCheckpoint tx now path c => (update_checkpoint tx now path c tr).2
  | OpPhase files p => mark_phase_complete files p tr
  | OpRemove tx path => (remove_state tx path tr).2
  | OpCleanup tx now age => (cleanup_completed tx now age tr).2
  | OpAcknowledge now path module => (acknowledge_dead_letter now path module tr).2
  | OpReset now path m => (reset_dead_letter now path m tr).2
  | OpStart o => start_full_index_for_operation o tr
  | OpRestore ok o => restore_operation ok o tr
  | OpBind ok db => (set_database ok db tr).2
  end.

Definition run (os : list op) (tr : UpdateStateTracker) : UpdateStateTracker :=
  foldl (λ tr o, apply_op o tr) tr os.

(** Files an operation creates a version for. *)
Definition creations (o : op) : Z :=
  match o with
  | OpCreate _ _ _ _ => 1
  | OpBatch files _ _ _ _ => Z.of_nat (length files)
  | _ => 0
  end.

(** Rows written by [persist_state]: keyed by the path of the state they hold. *)
Definition db_wf (db : projection) : Prop :=
  ∀ pr o p v j s, db !! (pr, o, p) = Some (v, j) → from_json j = Some s →
    file_path s = p ∧ complete_modules s ∧ v ≤ i64_max.

Definition op_ok (o : op) (tr : UpdateStateTracker) : Prop :=
  version_counter tr + creations o ≤ i64_max ∧
  match o with OpBind _ db => db_wf db | _ => True end.

Definition step (tr tr' : UpdateStateTracker) : Prop :=
  ∃ o, op_ok o tr ∧ tr' = apply_op o tr.

Definition init (tr : UpdateStateTracker) : Prop := ∃ project, tr = new project.

Definition state_ok (project counter : Z) (p : string) (s : FileUpdateState) : Prop :=
  file_path s = p ∧ IndexState.project_id s = project ∧
  0 ≤ version s ≤ counter ∧ complete_modules s.

Definition inv (tr : UpdateStateTracker) : Prop :=
  (∀ p s, states tr !! p = Some s → state_ok (project_id tr) (version_counter tr) p s) ∧
  0 ≤ version_counter tr ≤ i64_max ∧
  (∀ db, database tr = Some db → db_wf db).

(** ** Frames *)

Definition same_but_db (tr tr' : UpdateStateTracker) : Prop :=
  project_id tr' = project_id tr ∧ states tr' = states tr ∧
  version_counter tr' = version_counter tr ∧
  current_operation_id tr' = current_operation_id tr.

#[local] Instance same_but_db_preorder : PreOrder same_but_db.
Proof. split; [done|]. intros a b c (?&?&?&?) (?&?&?&?). repeat split; congruence. Qed.

Lemma persist_frame ok s tr : same_but_db tr (persist_state ok s tr).
Proof. unfold persist_state. split_cases. Qed.

Lemma delete_persisted_frame ok p tr : same_but_db tr (delete_persisted_state ok p tr).
Proof. unfold delete_persisted_state. split_cases. Qed.

Lemma persist_all_frame l tr : same_but_db tr (persist_all l tr).
Proof.
  revert tr. induction l as [|[s ok] l IH]; intros tr; simpl; [done|].
  etrans; [apply (persist_frame ok s)|apply IH].
Qed.

Lemma delete_all_frame ok l tr :
  same_but_db tr (foldl (λ tr p, delete_persisted_state (ok p) p tr) tr l).
Proof.
  revert tr. induction l as [|p l IH]; intros tr; simpl; [done|].
  etrans; [apply (delete_persisted_frame (ok p) p)|apply IH].
Qed.

Lemma inv_same tr tr' :
  same_but_db tr tr' → (∀ db, database tr' = Some db → db_wf db) → inv tr → inv tr'.
Proof. intros (Ep & Es & Ec & _) Hdb (H1 & H2 & _). unfold inv. by rewrite Ep, Es, Ec. Qed.

Lemma db_wf_delete k db : db_wf db → db_wf (delete k db).
Proof. intros H pr o p v j s [_ Hk]%lookup_delete_Some. by apply (H _ _ _ _ _ _ Hk). Qed.

Lemma delete_persisted_inv ok p tr : inv tr → inv (delete_persisted_state ok p tr).
Proof.
  intros Hi. eapply inv_same; [apply delete_persisted_frame| |done].
  destruct Hi as (_ & _ & Hdb). unfold delete_persisted_state.
  destruct (database tr) as [db|] eqn:E; [|by rewrite E].
  destruct ok; simpl; [|by rewrite E]. intros ? [= <-]. by apply db_wf_delete, Hdb.
Qed.

Lemma delete_all_inv ok l tr :
  inv tr → inv (foldl (λ tr p, delete_persisted_state (ok p) p tr) tr l).
Proof. revert tr. induction l; intros tr Hi; simpl; [done|]. by apply IHl, delete_persisted_inv. Qed.

Lemma set_states_inv m tr :
  (∀ p s, m !! p = Some s → state_ok (project_id tr) (version_counter tr) p s) →
  inv tr → inv (set_states m tr).
Proof. intros Hm (_ & Hc & Hdb). by split. Qed.

Lemma insert_state_inv p s tr :
  state_ok (project_id tr) (version_counter tr) p s → inv tr →
  inv (set_states (<[p := s]> (states tr)) tr).
Proof.
  intros Hs Hi. apply set_states_inv; [|done]. intros q s' Hq.
  apply lookup_insert_Some in Hq as [[<- <-]|[_ Hq]]; [done|]. by apply Hi.
Qed.

Lemma delete_state_inv p tr : inv tr → inv (set_states (delete p (states tr)) tr).
Proof.
  intros Hi. apply set_states_inv; [|done].
  intros q s [_ Hq]%lookup_delete_Some. by apply Hi.
Qed.

(** ** The invariant *)

Section laws.
Context `{!StateJsonLaws Json}.

Lemma upsert_wf pr o s j db :
  db_wf db → to_json s = Some j → complete_modules s → version s ≤ i64_max →
  db_wf (upsert_row (pr, o, file_path s) (version s) j db).
Proof.
  intros Hdb Hj Hm Hv.
  assert (db_wf (<[(pr, o, file_path s) := (version s, j)]> db)) as Hins.
  { intros pr' o' p' v' j' s' Hl Hs'.
    apply lookup_insert_Some in Hl as [[? ?]|[_ Hl]]; [|by apply (Hdb _ _ _ _ _ _ Hl)].
    simplify_eq. rewrite (json_roundtrip _ _ Hj) in Hs'. by simplify_eq. }
  unfold upsert_row. destruct (db !! _) as [[v0 j0]|]; [|done]. by destruct (v0 <=? version s).
Qed.

Lemma persist_inv ok s tr : complete_modules s → inv tr → inv (persist_state ok s tr).
Proof.
  intros Hm Hi. eapply inv_same; [apply persist_frame| |done].
  destruct Hi as (_ & _ & Hdb). unfold persist_state.
  destruct (database tr) as [db|] eqn:E; [|by rewrite E].
  destruct (to_json s) as [j|] eqn:Ej; [|by rewrite E].
  destruct (version s <=? i64_max) eqn:Ev; [|by rewrite E].
  destruct ok; simpl; [|by rewrite E]. bool_to_prop.
  intros ? [= <-]. apply upsert_wf; auto.
Qed.

Lemma persist_all_inv l tr :
  Forall (λ e, complete_modules e.1) l → inv tr → inv (persist_all l tr).
Proof.
  revert tr. induction l as [|[s ok] l IH]; intros tr Hl Hi; simpl; [done|].
  apply Forall_cons in Hl as [Hs Hl]. by apply IH, persist_inv.
Qed.

Lemma modify_inv ok p f tr :
  (∀ s, state_ok (project_id tr) (version_counter tr) p s →
        state_ok (project_id tr) (version_counter tr) p (f s)) →
  inv tr → inv (modify ok p f tr).2.
Proof.
  intros Hf Hi. unfold modify. destruct (states tr !! p) as [s|] eqn:E; [|done].
  assert (state_ok (project_id tr) (version_counter tr) p (f s)) as Hs
    by by apply Hf, Hi.
  apply persist_inv; [apply Hs|]. by apply insert_state_inv.
Qed.

Lemma with_module_state_ok pr c p m now f s :
  state_ok pr c p s → state_ok pr c p (with_module m now f s).
Proof.
  intros (Hp & Hpr & Hv & Hm). destruct (with_module_frame m now f s) as (E1 & E2 & E3 & _).
  unfold state_ok. rewrite E1, E2, E3. repeat split; try done; try lia.
  by apply with_module_complete.
Qed.

Lemma next_version_inv tr :
  inv tr → version_counter tr + 1 ≤ i64_max →
  (next_version tr).1 = version_counter tr + 1 ∧ inv (next_version tr).2.
Proof.
  intros (Hs & Hc & Hdb) Hle. unfold next_version; simpl.
  assert (wrap64 (version_counter tr + 1) = version_counter tr + 1) as Hw.
  { apply wrap64_small. unfold i64_max, u64_max in *. lia. }
  rewrite Hw. split; [done|]. split; [|split; [simpl; lia|done]].
  intros p s Hp. destruct (Hs p s Hp) as (? & ? & ? & ?). repeat split; try done; simpl; lia.
Qed.

Lemma store_persist_inv ok s tr :
  inv tr → state_ok (project_id tr) (version_counter tr) (file_path s) s →
  inv (persist_state ok s (store_state s tr)).
Proof.
  intros Hi Hs. apply persist_inv; [apply Hs|]. by apply insert_state_inv.
Qed.

Lemma create_update_inv ok now p c tr :
  inv tr → version_counter tr + 1 ≤ i64_max → inv (create_update ok now p c tr).2.
Proof.
  intros Hi Hle. destruct (next_version_inv tr Hi Hle) as [Hv Hi'].
  unfold create_update. destruct (next_version tr) as [v tr'] eqn:E; simpl in *.
  apply store_persist_inv; [done|]. unfold next_version in E. simplify_eq/=.
  destruct Hi as (_ & ? & _). repeat split; simpl; try lia. apply with_operation_type_complete.
Qed.

Lemma create_batch_file_inv i n k root acc f :
  inv acc.2 → version_counter acc.2 + 1 ≤ i64_max →
  inv (create_batch_file i n k root acc f).2 ∧
  version_counter (create_batch_file i n k root acc f).2 = version_counter acc.2 + 1.
Proof.
  destruct acc as [created tr]. intros Hi Hle; simpl in *.
  destruct (next_version_inv tr Hi Hle) as [Hv Hi']. simpl in Hv, Hi'.
  split; [|by rewrite (proj1 (proj2 (proj2 (persist_frame _ _ _)))); simpl].
  apply store_persist_inv; [done|]. destruct Hi as (_ & ? & _).
  repeat split; simpl; try lia. apply with_operation_type_complete.
Qed.

Lemma create_batch_inv i n k root files acc :
  inv acc.2 → version_counter acc.2 + Z.of_nat (length files) ≤ i64_max →
  inv (foldl (create_batch_file i n k root) acc files).2.
Proof.
  revert acc. induction files as [|f files IH]; intros acc Hi Hle; [done|].
  cbn [length] in Hle. cbn [foldl].
  destruct (create_batch_file_inv i n k root acc f) as [Hi' Hc]; [done|lia|].
  apply IH; [done|]. rewrite Hc. lia.
Qed.

Lemma phase_files_ok pr c p files m :
  (∀ q s, m !! q = Some s → state_ok pr c q s) →
  ∀ q s, foldl (phase_file p) m files !! q = Some s → state_ok pr c q s.
Proof.
  revert m. induction files as [|f files IH]; intros m Hm; [done|]. cbn [foldl].
  apply IH. intros q s. unfold phase_file. destruct (m !! bf_path f) as [s0|] eqn:E; [|apply Hm].
  intros [[<- <-]|[_ Hq]]%lookup_insert_Some; [|by apply Hm]. by apply (Hm _ _ E).
Qed.

Lemma mark_phase_inv files p tr : inv tr → inv (mark_phase_complete files p tr).
Proof.
  intros Hi. unfold mark_phase_complete.
  assert (∀ q s, foldl (phase_file p) (states tr) files !! q = Some s →
    state_ok (project_id tr) (version_counter tr) q s) as Hm.
  { apply phase_files_ok. apply Hi. }
  apply persist_all_inv; [|by apply set_states_inv].
  apply Forall_forall. intros [s ok] ([f] & _ & Hf)%list_elem_of_omap.
  destruct (_ !! _) as [s'|] eqn:E; simplify_eq/=. by apply (Hm _ _ E).
Qed.

Lemma delete_files_inv l tr :
  inv tr → inv (set_states (foldl (λ m p, delete p m) (states tr) l) tr).
Proof.
  intros Hi. apply set_states_inv; [|done]. induction l as [|p l IH] using rev_ind; simpl.
  - apply Hi.
  - intros q s. rewrite foldl_app; simpl. intros [_ Hq]%lookup_delete_Some. by apply IH.
Qed.

Lemma acknowledge_inv now p module tr :
  inv tr → inv (acknowledge_dead_letter now p module tr).2.
Proof.
  intros Hi. unfold acknowledge_dead_letter. destruct (states tr !! p) as [s|] eqn:E; [|done].
  apply insert_state_inv; [|done]. destruct Hi as (Hs & _). destruct (Hs _ _ E) as (?&?&?&Hm).
  repeat split; simpl; try done; try lia. intros m. simpl. rewrite map_lookup_imap.
  destruct (Hm m) as [r ->]. simpl. by eexists.
Qed.

Lemma reset_inv now p m tr : inv tr → inv (reset_dead_letter now p m tr).2.
Proof.
  intros Hi. unfold reset_dead_letter. destruct (states tr !! p) as [s|] eqn:E; [|done].
  destruct (module_states s !! m) as [r|] eqn:Er; [|done].
  destruct (negb _); [done|]. apply insert_state_inv; [|done].
  destruct Hi as (Hs & _). destruct (Hs _ _ E) as (?&?&?&Hm).
  repeat split; simpl; try done; try lia. intros m'. simpl.
  destruct (decide (m' = m)) as [->|Hne]; [rewrite lookup_insert_eq; by eexists|].
  by rewrite lookup_insert_ne.
Qed.

(** Loading the projection: the compatible rows of the operation, and the
    largest of their versions. *)
Lemma row_state_Some pr o row p s :
  row_state pr o row = Some (p, s) ↔
  ∃ j, row = ((pr, o, p), (version s, j)) ∧ from_json j = Some s ∧
       IndexState.project_id s = pr ∧ 0 ≤ version s.
Proof.
  destruct row as [[[pr' o'] p'] [v j]]. unfold row_state. split.
  - intros H. split_cases. bool_to_prop. destruct_and!. simplify_eq. by exists j.
  - intros (j' & ? & Hj & Hp & Hv). simplify_eq. rewrite decide_True by done.
    destruct (0 <=? version s) eqn:Ev; bool_to_prop; [|lia]. by rewrite Hj, decide_True.
Qed.

Lemma load_rows_lookup pr o l p s :
  NoDup l.*1 →
  (foldl (load_row pr o) (∅, 0) l).1 !! p = Some s ↔
  ∃ row, row ∈ l ∧ row_state pr o row = Some (p, s).
Proof.
  induction l as [|row l IH] using rev_ind; intros Hn.
  { simpl. rewrite lookup_empty. split; [done|]. by intros (? & []%not_elem_of_nil & _). }
  rewrite fmap_app, NoDup_app in Hn. destruct Hn as (Hn & Hdis & _).
  specialize (IH Hn). rewrite foldl_app. cbn [foldl]. unfold load_row at 1.
  destruct (row_state pr o row) as [[p0 s0]|] eqn:E; cbn [fst]; setoid_rewrite elem_of_app;
    setoid_rewrite list_elem_of_singleton.
  - destruct (decide (p0 = p)) as [->|Hne].
    + rewrite lookup_insert_eq. split; [intros [= <-]; exists row; auto|].
      intros (row' & [Hin| ->] & Hrow'); [|congruence].
      apply row_state_Some in E as (j & -> & _). apply row_state_Some in Hrow' as (j' & -> & _).
      destruct (Hdis (pr, o, p)); [|by left]. by apply (list_elem_of_fmap_2 fst) in Hin.
    + rewrite lookup_insert_ne by done. rewrite IH. split; [naive_solver|].
      intros (row' & [Hin| ->] & Hrow'); [by exists row'|congruence].
  - rewrite IH. split; [naive_solver|].
    intros (row' & [Hin| ->] & Hrow'); [by exists row'|congruence].
Qed.

Lemma load_rows_versions pr o l acc :
  0 ≤ acc.2 ∧ (∀ p s, acc.1 !! p = Some s → version s ≤ acc.2) →
  0 ≤ (foldl (load_row pr o) acc l).2 ∧
  ∀ p s, (foldl (load_row pr o) acc l).1 !! p = Some s →
         version s ≤ (foldl (load_row pr o) acc l).2.
Proof.
  revert acc. induction l as [|row l IH]; intros acc H; [done|]. cbn [foldl]. apply IH.
  unfold load_row. destruct (row_state pr o row) as [[p0 s0]|]; [|done]. simpl.
  destruct H as [H0 Hle]. split; [lia|].
  intros p s [[<- <-]|[_ Hp]]%lookup_insert_Some; [lia|]. apply Hle in Hp. lia.
Qed.

Lemma load_rows_limit pr o l acc B :
  (∀ row p s, row ∈ l → row_state pr o row = Some (p, s) → version s ≤ B) →
  acc.2 ≤ B → (foldl (load_row pr o) acc l).2 ≤ B.
Proof.
  revert acc. induction l as [|row l IH]; intros acc Hrows Hacc; [done|]. cbn [foldl]. apply IH.
  - intros row' p s Hin. apply Hrows. by right.
  - unfold load_row. destruct (row_state pr o row) as [[p0 s0]|] eqn:E; [|done].
    assert (version s0 ≤ B) by (apply (Hrows row p0 s0); [left|done]). simpl. lia.
Qed.

Lemma load_projection_lookup db pr o p s :
  (load_projection true db pr o).1 !! p = Some s ↔
  ∃ j, db !! (pr, o, p) = Some (version s, j) ∧ from_json j = Some s ∧
       IndexState.project_id s = pr ∧ 0 ≤ version s.
Proof.
  unfold load_projection. rewrite load_rows_lookup by apply NoDup_fst_map_to_list. split.
  - intros (row & Hin & (j & -> & Hj)%row_state_Some). exists j.
    by apply elem_of_map_to_list in Hin.
  - intros (j & Hdb & Hj). exists ((pr, o, p), (version s, j)).
    split; [by apply elem_of_map_to_list|]. apply row_state_Some. by exists j.
Qed.

Lemma load_projection_bound db pr o :
  db_wf db →
  0 ≤ (load_projection true db pr o).2 ≤ i64_max ∧
  ∀ p s, (load_projection true db pr o).1 !! p = Some s →
         version s ≤ (load_projection true db pr o).2.
Proof.
  intros Hwf. unfold load_projection.
  destruct (load_rows_versions pr o (map_to_list db) (∅, 0)) as [H0 Hle].
  { split; [simpl; lia|]. intros p s. simpl. by rewrite lookup_empty. }
  split; [|done]. split; [done|]. apply load_rows_limit; [|simpl; unfold i64_max; lia].
  intros row p s Hin (j & -> & Hj & _)%row_state_Some. apply elem_of_map_to_list in Hin.
  by apply (Hwf _ _ _ _ _ _ Hin Hj).
Qed.

Lemma restore_inv ok o tr : inv tr → inv (restore_operation ok o tr).
Proof.
  intros Hi. unfold restore_operation. destruct (database tr) as [db|] eqn:E; [|done].
  destruct Hi as (Hs & Hc & Hdb). pose proof (Hdb db E) as Hwf.
  destruct ok; [|simpl; by rewrite decide_True].
  pose proof (load_projection_lookup db (project_id tr) o) as Hl.
  pose proof (load_projection_bound db (project_id tr) o Hwf) as [Hb Hle].
  destruct (load_projection _ _ _ _) as [restored mx]; simpl in *.
  case_decide; [done|]. split; [|by split]. simpl. intros p s Hp.
  pose proof (Hle p s Hp) as Hv. apply Hl in Hp as (j & Hrow & Hj & Hpr & H0).
  destruct (Hwf _ _ _ _ _ _ Hrow Hj) as (? & ? & _). by repeat split.
Qed.

#[export] Instance tracker_invariant : StepInvariant init step inv.
Proof.
  split.
  { intros tr [pr ->]. split; [|split; [simpl; unfold i64_max; lia|done]].
    intros p s. simpl. by rewrite lookup_empty. }
  intros tr tr' Hi ([] & [Hle Hok] & ->); simpl in *.
  - by apply create_update_inv.
  - by apply create_batch_inv.
  - apply modify_inv; [|done]. intros s. apply with_module_state_ok.
  - apply modify_inv; [|done]. intros s. apply with_module_state_ok.
  - apply modify_inv; [|done]. intros s. apply with_module_state_ok.
  - apply modify_inv; [|done]. intros s. apply with_module_state_ok.
  - by apply modify_inv.
  - by apply mark_phase_inv.
  - unfold remove_state. destruct (states tr !! path).
    + by apply delete_persisted_inv, delete_state_inv.
    + by apply delete_state_inv.
  - by apply delete_all_inv, delete_files_inv.
  - by apply acknowledge_inv.
  - by apply reset_inv.
  - split; [|split; [simpl; unfold i64_max; lia|apply Hi]].
    intros p s. simpl. by rewrite lookup_empty.
  - by apply restore_inv.
  - destruct lock_ok; [|done]. destruct Hi as (? & ? & _). split; [done|]. split; [done|].
    simpl. by intros ? [= <-].
Qed.

(** ** Memory and durable projection in step *)

Definition row_synced (s : option FileUpdateState) (row : option (Z * Json)) : Prop :=
  match s with
  | Some s => ∃ j, to_json s = Some j ∧ row = Some (version s, j)
  | None => row = None
  end.

(** A row that the next persisted state of the file may overwrite. *)
Definition row_behind (s : option FileUpdateState) (row : option (Z * Json)) : Prop :=
  match s, row with
  | Some s, Some (v, _) => v ≤ version s
  | _, _ => True
  end.

Definition synced_except (X : string → Prop) (o : string) (tr : UpdateStateTracker) : Prop :=
  current_operation_id tr = Some o ∧
  ∃ db, database tr = Some db ∧
    ∀ p, (¬ X p → row_synced (states tr !! p) (db !! (project_id tr, o, p))) ∧
         row_behind (states tr !! p) (db !! (project_id tr, o, p)).

Definition synced : string → UpdateStateTracker → Prop := synced_except (λ _, False).

Lemma synced_behind s row : row_synced s row → row_behind s row.
Proof. destruct s as [s|]; [|done]. intros (j & _ & ->). simpl. lia. Qed.

Lemma synced_except_mono (X Y : string → Prop) o tr :
  (∀ p, X p → Y p) → synced_except X o tr → synced_except Y o tr.
Proof.
  intros HXY (Ho & db & Hdb & H). split; [done|]. exists db. split; [done|].
  intros p. destruct (H p) as [H1 H2]. split; [|done]. auto.
Qed.

Definition version_le (s s' : option FileUpdateState) : Prop :=
  match s, s' with Some s, Some s' => version s ≤ version s' | _, _ => True end.

Lemma set_states_unsyncs (X : string → Prop) o m tr :
  (∀ p, ¬ X p → m !! p = states tr !! p) →
  (∀ p, version_le (states tr !! p) (m !! p)) →
  synced o tr → synced_except X o (set_states m tr).
Proof.
  intros Hm Hv (Ho & db & Hdb & H). split; [done|]. exists db. split; [done|]. intros p.
  destruct (H p) as [Hs _]. specialize (Hs id). simpl. split.
  - intros Hp. by rewrite Hm.
  - specialize (Hv p). destruct (states tr !! p) as [s|].
    + destruct Hs as (j & _ & ->). by destruct (m !! p).
    + simpl in Hs. rewrite Hs. by destruct (m !! p).
Qed.

Lemma persist_syncs X o s tr :
  states tr !! file_path s = Some s → version s ≤ i64_max →
  synced_except X o tr →
  synced_except (λ q, X q ∧ q ≠ file_path s) o (persist_state true s tr).
Proof.
  intros Hs Hv (Ho & db & Hdb & H).
  destruct (to_json_total s) as [j Hj].
  unfold persist_state, operation_key. rewrite Hdb, Hj, Ho.
  destruct (version s <=? i64_max) eqn:E; [|bool_to_prop; lia]. simpl.
  split; [done|]. eexists. split; [done|]. simpl.
  assert (upsert_row (project_id tr, o, file_path s) (version s) j db =
          <[(project_id tr, o, file_path s) := (version s, j)]> db) as ->.
  { destruct (H (file_path s)) as [_ Hb]. rewrite Hs in Hb. unfold upsert_row.
    destruct (db !! _) as [[v0 j0]|]; [|done]. simpl in Hb.
    destruct (v0 <=? version s) eqn:E'; [done|bool_to_prop; lia]. }
  intros q. destruct (decide (q = file_path s)) as [->|Hne].
  - rewrite lookup_insert_eq, Hs. split; [|simpl; lia]. intros _. by exists j.
  - rewrite lookup_insert_ne by congruence. destruct (H q) as [H1 H2]. split; [|done].
    intros HX. apply H1. tauto.
Qed.

Lemma delete_syncs X o p tr :
  states tr !! p = None → synced_except X o tr →
  synced_except (λ q, X q ∧ q ≠ p) o (delete_persisted_state true p tr).
Proof.
  intros Hs (Ho & db & Hdb & H). unfold delete_persisted_state, operation_key.
  rewrite Hdb, Ho. simpl. split; [done|]. eexists. split; [done|]. simpl. intros q.
  destruct (decide (q = p)) as [->|Hne].
  - by rewrite lookup_delete_eq, Hs.
  - rewrite lookup_delete_ne by congruence. destruct (H q) as [H1 H2]. split; [|done].
    intros HX. apply H1. tauto.
Qed.

Lemma synced_except_frame X o tr tr' :
  states tr' = states tr → project_id tr' = project_id tr →
  current_operation_id tr' = current_operation_id tr → database tr' = database tr →
  synced_except X o tr → synced_except X o tr'.
Proof. intros E1 E2 E3 E4. unfold synced_except. by rewrite E1, E2, E3, E4. Qed.

(** Inserting one state and persisting it. *)
Lemma store_persist_synced o s tr :
  version_le (states tr !! file_path s) (Some s) → version s ≤ i64_max →
  synced o tr → synced o (persist_state true s (store_state s tr)).
Proof.
  intros Hle Hv Hs. eapply synced_except_mono; last apply (persist_syncs (λ q, q = file_path s)).
  - by intros p [-> ?].
  - apply lookup_insert_eq.
  - done.
  - apply set_states_unsyncs; [| |done].
    + intros p Hp. by apply lookup_insert_ne.
    + intros p. destruct (decide (p = file_path s)) as [->|Hne];
        [by rewrite lookup_insert_eq|].
      rewrite lookup_insert_ne by done. destruct (states tr !! p); simpl; [lia|done].
Qed.

Lemma modify_synced o p f tr :
  (∀ s, file_path (f s) = file_path s ∧ version (f s) = version s) →
  inv tr → synced o tr → synced o (modify true p f tr).2.
Proof.
  intros Hf (Hi & Hc & _) Hs. unfold modify. destruct (states tr !! p) as [s|] eqn:E; [|done].
  destruct (Hf s) as [Hp Hv]. destruct (Hi p s E) as (Hfp & _ & Hvs & _).
  assert (p = file_path (f s)) as Heq by congruence.
  replace (set_states (<[p:=f s]> (states tr)) tr) with (store_state (f s) tr)
    by (unfold store_state; by rewrite Heq).
  apply store_persist_synced; [|lia|done]. rewrite <- Heq, E. simpl. lia.
Qed.

Lemma next_version_synced o tr : synced o tr → synced o (next_version tr).2.
Proof. by apply synced_except_frame. Qed.

Lemma create_update_synced o now p c tr :
  inv tr → version_counter tr + 1 ≤ i64_max →
  synced o tr → synced o (create_update true now p c tr).2.
Proof.
  intros Hi Hle Hs. destruct (next_version_inv tr Hi Hle) as [Hv _].
  pose proof (next_version_synced o tr Hs) as Hs'.
  unfold create_update. destruct (next_version tr) as [v tr'] eqn:E; simpl in *.
  apply store_persist_synced; [|simpl; lia|done]. unfold next_version in E. simplify_eq/=.
  destruct (states tr !! p) as [s|] eqn:Ep; simpl; [|done].
  destruct Hi as (Hi & _). destruct (Hi _ _ Ep) as (_ & _ & ? & _). lia.
Qed.

Lemma create_batch_synced o i n k root files acc :
  Forall (λ f, bf_tx f = true) files →
  inv acc.2 → version_counter acc.2 + Z.of_nat (length files) ≤ i64_max →
  synced o acc.2 → synced o (foldl (create_batch_file i n k root) acc files).2.
Proof.
  revert acc. induction files as [|f files IH]; intros acc Htx Hi Hle Hs; [done|].
  apply Forall_cons in Htx as [Hf Htx]. cbn [length] in Hle. cbn [foldl].
  destruct (create_batch_file_inv i n k root acc f) as [Hi' Hc]; [done|lia|].
  apply IH; [done|done|rewrite Hc; lia|].
  destruct acc as [created tr]; simpl in *.
  destruct (next_version_inv tr Hi ltac:(lia)) as [Hv _]. simpl in Hv. rewrite Hf.
  apply store_persist_synced; [|simpl; lia|by apply (next_version_synced o tr)]. simpl.
  destruct (states tr !! bf_path f) as [s|] eqn:Ep; simpl; [|done].
  destruct Hi as (Hi & _). destruct (Hi _ _ Ep) as (_ & _ & ? & _). lia.
Qed.

Lemma persist_all_synced o l : ∀ X tr,
  (∀ e, e ∈ l → e.2 = true ∧ states tr !! file_path e.1 = Some e.1 ∧ version e.1 ≤ i64_max) →
  synced_except X o tr →
  synced_except (λ q, X q ∧ ∀ e, e ∈ l → file_path e.1 ≠ q) o (persist_all l tr).
Proof.
  induction l as [|[s ok] l IH]; intros X tr Hl Hs; simpl.
  - eapply synced_except_mono; [|done]. intros q HX. split; [done|]. by intros e []%not_elem_of_nil.
  - destruct (Hl (s, ok)) as (Hok & Hst & Hv); [by left|]. simpl in *. subst ok.
    eapply synced_except_mono; last apply (IH (λ q, X q ∧ q ≠ file_path s)).
    + intros q [[HX Hne] Hall]. split; [done|].
      intros e [->|He]%elem_of_cons; [by simpl|by apply Hall].
    + intros e He. rewrite (proj1 (proj2 (persist_frame true s tr))). apply Hl. by right.
    + by apply persist_syncs.
Qed.

Definition same_file (a b : option FileUpdateState) : Prop :=
  match a with
  | Some s => ∃ s', b = Some s' ∧ file_path s' = file_path s ∧ version s' = version s
  | None => b = None
  end.

Lemma phase_file_lookup p m f q : same_file (m !! q) (phase_file p m f !! q).
Proof.
  unfold phase_file. destruct (m !! bf_path f) as [s|] eqn:E.
  - destruct (decide (bf_path f = q)) as [<-|Hne].
    + rewrite lookup_insert_eq, E. by eexists.
    + rewrite lookup_insert_ne by done. unfold same_file. destruct (m !! q); eauto.
  - unfold same_file. destruct (m !! q); eauto.
Qed.

Lemma phase_files_lookup p files m q : same_file (m !! q) (foldl (phase_file p) m files !! q).
Proof.
  revert m. induction files as [|f files IH]; intros m; cbn [foldl].
  { unfold same_file. destruct (m !! q); eauto. }
  specialize (IH (phase_file p m f)). pose proof (phase_file_lookup p m f q) as Hf.
  unfold same_file in *. destruct (m !! q) as [s|].
  - destruct Hf as (s' & Hs' & Hp & Hv). rewrite Hs' in IH.
    destruct IH as (s'' & ? & ? & ?). exists s''. split; [done|]. split; congruence.
  - by rewrite Hf in IH.
Qed.

Lemma phase_files_other p files m q :
  q ∉ bf_path <$> files → foldl (phase_file p) m files !! q = m !! q.
Proof.
  revert m. induction files as [|f files IH]; intros m Hq; [done|]. cbn [foldl].
  rewrite fmap_cons, not_elem_of_cons in Hq. destruct Hq as [Hne Hq].
  rewrite IH by done. unfold phase_file. destruct (m !! bf_path f); [|done].
  by rewrite lookup_insert_ne.
Qed.

Lemma mark_phase_synced o files p tr :
  Forall (λ f, bf_tx f = true) files → inv tr →
  synced o tr → synced o (mark_phase_complete files p tr).
Proof.
  intros Htx Hi Hs. unfold mark_phase_complete.
  pose proof (phase_files_lookup p files (states tr)) as Hm. unfold same_file in Hm.
  pose proof (phase_files_other p files (states tr)) as Hother.
  set (m := foldl (phase_file p) (states tr) files) in *.
  eapply synced_except_mono;
    last apply (persist_all_synced o _ (λ q, q ∈ bf_path <$> files ∧ is_Some (m !! q))).
  - intros q [[Hq [s Hms]] Hall]. apply list_elem_of_fmap in Hq as (f & -> & Hf).
    apply (Hall (s, bf_tx f)).
    + apply list_elem_of_omap. exists f. by rewrite Hms.
    + specialize (Hm (bf_path f)). destruct (states tr !! bf_path f) as [s0|] eqn:E; [|congruence].
      destruct Hm as (s' & ? & Hp & _). destruct Hi as (Hi & _).
      destruct (Hi _ _ E) as (? & _). simpl. congruence.
  - intros e (f & Hf & He)%list_elem_of_omap. destruct (m !! bf_path f) as [s|] eqn:E; [|done].
    simplify_eq/=. rewrite Forall_forall in Htx. split; [by apply Htx|].
    specialize (Hm (bf_path f)). destruct (states tr !! bf_path f) as [s0|] eqn:E0; [|congruence].
    destruct Hm as (s' & Hs' & Hp & Hv). simplify_eq. destruct Hi as (Hi & Hc & _).
    destruct (Hi _ _ E0) as (Hfp & _ & ? & _). rewrite Hp, Hfp. split; [done|]. lia.
  - apply set_states_unsyncs; [| |done].
    + intros q Hq. destruct (decide (q ∈ bf_path <$> files)) as [Hin|Hin]; [|by apply Hother].
      specialize (Hm q). destruct (states tr !! q); [|done].
      destruct Hm as (s' & Hs' & _). destruct Hq. split; [done|]. by eexists.
    + intros q. specialize (Hm q). destruct (states tr !! q); [|done].
      destruct Hm as (s' & -> & _ & Hv). simpl. lia.
Qed.

Lemma remove_synced o p tr : synced o tr → synced o (remove_state true p tr).2.
Proof.
  intros Hs. unfold remove_state. destruct (states tr !! p) as [s|] eqn:E; simpl.
  - eapply synced_except_mono; last apply (delete_syncs (λ q, q = p)).
    + by intros q [-> ?].
    + apply lookup_delete_eq.
    + apply set_states_unsyncs; [| |done].
      * intros q Hq. by apply lookup_delete_ne.
      * intros q. destruct (decide (q = p)) as [->|Hne].
        -- rewrite lookup_delete_eq. by destruct (states tr !! p).
        -- rewrite lookup_delete_ne by done. destruct (states tr !! q); simpl; [lia|done].
  - rewrite delete_id by done. by apply (synced_except_frame _ _ tr).
Qed.

Lemma delete_files_lookup (l : list string) (m : gmap string FileUpdateState) q :
  foldl (λ m p, delete p m) m l !! q = if decide (q ∈ l) then None else m !! q.
Proof.
  revert m. induction l as [|p l IH]; intros m; cbn [foldl].
  { rewrite decide_False by apply not_elem_of_nil. done. }
  rewrite IH. destruct (decide (q = p)) as [->|Hne].
  - rewrite lookup_delete_eq. rewrite (decide_True (P := p ∈ p :: l)) by left. by case_decide.
  - rewrite lookup_delete_ne by done.
    destruct (decide (q ∈ l)) as [Hin|Hin].
    + rewrite decide_True; [done|by right].
    + rewrite decide_False; [done|]. by intros [->|?]%elem_of_cons.
Qed.

Lemma delete_all_synced o ok l : ∀ X tr,
  (∀ p, ok p = true) → (∀ p, p ∈ l → states tr !! p = None) →
  synced_except X o tr →
  synced_except (λ q, X q ∧ q ∉ l) o
    (foldl (λ tr p, delete_persisted_state (ok p) p tr) tr l).
Proof.
  induction l as [|p l IH]; intros X tr Hok Hl Hs; cbn [foldl].
  - eapply synced_except_mono; [|done]. intros q HX. split; [done|]. apply not_elem_of_nil.
  - eapply synced_except_mono; last apply (IH (λ q, X q ∧ q ≠ p)).
    + intros q [[HX Hne] Hall]. split; [done|]. by apply not_elem_of_cons.
    + done.
    + intros p' Hp'. rewrite (proj1 (proj2 (delete_persisted_frame (ok p) p tr))).
      apply Hl. by right.
    + rewrite Hok. apply delete_syncs; [apply Hl; by left|done].
Qed.

Lemma cleanup_synced o ok now age tr :
  (∀ p, ok p = true) → synced o tr → synced o (cleanup_completed ok now age tr).2.
Proof.
  intros Hok Hs. unfold cleanup_completed. simpl.
  set (l := (retain _ _).*1).
  eapply synced_except_mono; last apply (delete_all_synced o ok l (λ q, q ∈ l)).
  - by intros q [? ?].
  - done.
  - intros p Hp. simpl. by rewrite delete_files_lookup, decide_True.
  - apply set_states_unsyncs; [| |done].
    + intros q Hq. by rewrite delete_files_lookup, decide_False.
    + intros q. rewrite delete_files_lookup. case_decide; destruct (states tr !! q); simpl;
        done || lia.
Qed.

(** Operations that write through, with every transaction committed. *)
Definition durable (o : op) : Prop :=
  match o with
  | OpCreate tx _ _ _ | OpUpdateModule tx _ _ _ _ | OpSuccess tx _ _ _
  | OpFailed tx _ _ _ _ | OpTruncated tx _ _ _ | OpCheckpoint tx _ _ _
  | OpRemove tx _ => tx = true
  | OpBatch files _ _ _ _ | OpPhase files _ => Forall (λ f, bf_tx f = true) files
  | OpCleanup tx _ _ => ∀ p, tx p = true
  | OpAcknowledge _ _ _ | OpReset _ _ _ | OpStart _ | OpRestore _ _ | OpBind _ _ => False
  end.

Lemma with_module_same_file m now f s :
  file_path (with_module m now f s) = file_path s ∧ version (with_module m now f s) = version s.
Proof. by destruct (with_module_frame m now f s) as (? & _ & ? & _). Qed.

Lemma durable_synced op o tr :
  durable op → inv tr → version_counter tr + creations op ≤ i64_max →
  synced o tr → synced o (apply_op op tr).
Proof.
  intros Hd Hi Hle Hs. destruct op; simpl in *; try done; subst.
  - by apply create_update_synced.
  - by apply create_batch_synced.
  - apply modify_synced; [|done|done]. intros s. apply with_module_same_file.
  - apply modify_synced; [|done|done]. intros s. apply with_module_same_file.
  - apply modify_synced; [|done|done]. intros s. apply with_module_same_file.
  - apply modify_synced; [|done|done]. intros s. apply with_module_same_file.
  - by apply modify_synced.
  - by apply mark_phase_synced.
  - by apply remove_synced.
  - by apply cleanup_synced.
Qed.

Lemma modify_frame ok p f tr :
  project_id (modify ok p f tr).2 = project_id tr ∧
  version_counter (modify ok p f tr).2 = version_counter tr.
Proof.
  unfold modify. destruct (states tr !! p); [|done]. simpl.
  by destruct (persist_frame ok (f f0) (set_states (<[p:=f f0]> (states tr)) tr)) as (? & _ & ? & _).
Qed.

Lemma create_batch_frame i n k root files acc :
  inv acc.2 → version_counter acc.2 + Z.of_nat (length files) ≤ i64_max →
  let tr' := (foldl (create_batch_file i n k root) acc files).2 in
  project_id tr' = project_id acc.2 ∧
  version_counter tr' = version_counter acc.2 + Z.of_nat (length files).
Proof.
  revert acc. induction files as [|f files IH]; intros acc Hi Hle; cbn [foldl length].
  { simpl. split; [done|lia]. }
  cbn [length] in Hle.
  destruct (create_batch_file_inv i n k root acc f) as [Hi' Hc]; [done|lia|].
  destruct (IH (create_batch_file i n k root acc f)) as [Ep Ec]; [done|rewrite Hc; lia|].
  cbn zeta in *. rewrite Ep, Ec, Hc. split; [|lia]. destruct acc as [created tr]. simpl.
  by rewrite (proj1 (persist_frame _ _ _)).
Qed.

Lemma durable_frame op tr :
  durable op → inv tr → version_counter tr + creations op ≤ i64_max →
  project_id (apply_op op tr) = project_id tr ∧
  version_counter (apply_op op tr) = version_counter tr + creations op.
Proof.
  intros Hd Hi Hle. destruct op; simpl in *; try done; rewrite ?Z.add_0_r;
    try apply modify_frame.
  - destruct (next_version_inv tr Hi Hle) as [Hv _]. simpl in Hv.
    destruct (persist_frame tx_ok (IndexState.new now path (wrap64 (version_counter tr + 1)) c
      (project_id tr)) (store_state (IndexState.new now path (wrap64 (version_counter tr + 1)) c
      (project_id tr)) (set_counter (wrap64 (version_counter tr + 1)) tr))) as (-> & _ & -> & _).
    simpl. by rewrite Hv.
  - by apply create_batch_frame.
  - unfold mark_phase_complete.
    by destruct (persist_all_frame (omap (λ f, (λ s, (s, bf_tx f)) <$>
      foldl (phase_file p) (states tr) files !! bf_path f) files)
      (set_states (foldl (phase_file p) (states tr) files) tr)) as (-> & _ & -> & _).
  - unfold remove_state. destruct (states tr !! path); [|done]. simpl.
    by destruct (delete_persisted_frame tx_ok path (set_states (delete path (states tr)) tr))
      as (-> & _ & -> & _).
  - unfold cleanup_completed. simpl. set (l := (retain _ _).*1).
    by destruct (delete_all_frame tx_ok l (set_states (foldl (λ m p, delete p m) (states tr) l) tr))
      as (-> & _ & -> & _).
Qed.

(** Every operation of a sequence is admissible where it runs. *)
Fixpoint all_ok (os : list op) (tr : UpdateStateTracker) : Prop :=
  match os with
  | [] => True
  | o :: os => op_ok o tr ∧ all_ok os (apply_op o tr)
  end.

Lemma run_cons o os tr : run (o :: os) tr = run os (apply_op o tr).
Proof. done. Qed.

Lemma run_reachable os tr :
  all_ok os tr → reachable init step tr → reachable init step (run os tr).
Proof.
  revert tr. induction os as [|o os IH]; intros tr Hok Hr; [done|].
  destruct Hok as [Ho Hok]. apply IH; [done|]. destruct Hr as (tr0 & Hi & Hs).
  exists tr0. split; [done|]. eapply rtc_r; [done|]. by exists o.
Qed.

Definition total_creations (os : list op) : Z := foldr (λ o n, creations o + n) 0 os.

Lemma creations_nonneg o : 0 ≤ creations o.
Proof. destruct o; simpl; lia. Qed.

Lemma total_creations_nonneg os : 0 ≤ total_creations os.
Proof. induction os as [|o os IH]; simpl; [lia|]. pose proof (creations_nonneg o). lia. Qed.

Lemma run_durable os o tr :
  Forall durable os → inv tr → version_counter tr + total_creations os ≤ i64_max →
  synced o tr →
  inv (run os tr) ∧ synced o (run os tr) ∧ project_id (run os tr) = project_id tr.
Proof.
  revert tr. induction os as [|op os IH]; intros tr Hd Hi Hle Hs; [done|].
  apply Forall_cons in Hd as [Hop Hd]. cbn [total_creations foldr] in Hle.
  fold (total_creations os) in Hle. pose proof (total_creations_nonneg os).
  assert (version_counter tr + creations op ≤ i64_max) as Hle1 by lia.
  destruct (durable_frame op tr Hop Hi Hle1) as [Ep Ec].
  destruct (IH (apply_op op tr)) as (? & ? & E); [done| |lia|by apply durable_synced|].
  - apply (invariant_step (init := init) (step := step) tr); [done|].
    exists op. split; [split; [done|]|done]. by destruct op.
  - split; [done|]. split; [done|]. unfold run in *. cbn [foldl]. congruence.
Qed.

Lemma restore_synced o tr :
  inv tr → synced o tr →
  ∃ db, database tr = Some db ∧
    let tr' := restore_operation true o (set_db (Some db) (new (project_id tr))) in
    states tr' = states tr ∧ 0 ≤ version_counter tr' ∧
    (∀ p s, states tr' !! p = Some s → version s ≤ version_counter tr').
Proof.
  intros (Hi & Hc & Hdb) (Ho & db & E & Hs). exists db. split; [done|].
  pose proof (load_projection_bound db (project_id tr) o (Hdb db E)) as [Hb Hle].
  assert ((load_projection true db (project_id tr) o).1 = states tr) as Heq.
  { apply map_eq. intros p. apply option_eq. intros s. rewrite load_projection_lookup.
    destruct (Hs p) as [Hp _]. specialize (Hp id). split.
    - intros (j & Hrow & Hj & _). rewrite Hrow in Hp.
      destruct (states tr !! p) as [s'|] eqn:Es; [|done]. destruct Hp as (j' & Hj' & Heq).
      simplify_eq. apply json_roundtrip in Hj'. congruence.
    - intros Es. rewrite Es in Hp. destruct Hp as (j & Hj & Hrow). exists j.
      destruct (Hi _ _ Es) as (_ & ? & ? & _). repeat split; try done; [|lia].
      by apply json_roundtrip. }
  unfold restore_operation. cbn [database set_db project_id new].
  destruct (load_projection _ _ _ _) as [restored mx].
  simpl in *. subst restored. case_decide as Hemp; simpl.
  - rewrite Hemp. split; [done|]. split; [done|]. intros p s. by rewrite lookup_empty.
  - split; [done|]. by split; [apply Hb|].
Qed.

(** ** Properties *)

(** Version control: an update created on a reachable tracker carries a
    version above that of every state the tracker holds, replaces exactly its
    file's state, and from then on a holder of an older version of the file is
    turned away, the holder of the new version accepted, and a version never
    handed out reported as a mismatch. *)
Theorem update_supersedes tr ok now p c (Hr : reachable init step tr)
    (Hle : version_counter tr + 1 ≤ i64_max) :
  let s := (create_update ok now p c tr).1 in
  let tr' := (create_update ok now p c tr).2 in
  (∀ q s0, states tr !! q = Some s0 →
     file_path s0 = q ∧ complete_modules s0 ∧ version s0 < version s) ∧
  states tr' = <[p := s]> (states tr) ∧
  (∀ v, check_version p v tr' =
        if v =? version s then Ok true
        else if v <? version s then Ok false
        else Err (VersionMismatch p v (version s))).
Proof.
  pose proof (invariant_reachable init step inv tr Hr) as Hi.
  destruct (next_version_inv tr Hi Hle) as [Hv _]. simpl in Hv.
  unfold create_update; simpl. rewrite Hv.
  set (s := IndexState.new now p (version_counter tr + 1) c (project_id tr)).
  destruct (persist_frame ok s (store_state s (set_counter (version_counter tr + 1) tr)))
    as (_ & Es & _).
  split; [|split; [by rewrite Es|]].
  - intros q s0 Hq. destruct Hi as (Hi & _). destruct (Hi q s0 Hq) as (? & _ & ? & ?).
    split; [done|]. split; [done|]. lia.
  - intros v. unfold check_version. rewrite Es. simpl. rewrite lookup_insert_eq. simpl.
    by rewrite Z.eqb_sym.
Qed.

(** C3. Durability: after a full index was started on an operation without
    durable rows, any sequence of batch creations, updates, module results,
    checkpoints, phase changes, removals and clean-ups whose transactions
    commit leaves a projection from which a fresh tracker of the same project
    restores exactly the same file states, with a version counter that no
    restored state exceeds. *)
Theorem restart_restores_states tr db o os (Hr : reachable init step tr)
    (Hdb : database tr = Some db) (Hfresh : ∀ p, db !! (project_id tr, o, p) = None)
    (Hos : Forall durable os) (Hlen : total_creations os ≤ i64_max) :
  let tr1 := run os (start_full_index_for_operation o tr) in
  ∃ db1, database tr1 = Some db1 ∧
    let tr2 := restore_operation true o (set_db (Some db1) (new (project_id tr))) in
    states tr2 = states tr1 ∧
    (∀ p s, states tr2 !! p = Some s → version s ≤ version_counter tr2).
Proof.
  intros tr1. pose proof (invariant_reachable init step inv tr Hr) as Hi.
  assert (inv (start_full_index_for_operation o tr)) as Hi0.
  { apply (invariant_step (init := init) (step := step) tr); [done|].
    exists (OpStart o). split; [|done]. split; [|done]. simpl. destruct Hi as (_ & ? & _). lia. }
  destruct (run_durable os o (start_full_index_for_operation o tr)) as (Hi1 & Hs1 & Ep);
    [done|done|done| |].
  - split; [done|]. exists db. split; [done|]. intros p. simpl. by rewrite lookup_empty, Hfresh.
  - destruct (restore_synced o tr1 Hi1 Hs1) as (db1 & E1 & Hst & _ & Hle).
    exists db1. split; [done|]. unfold tr1 in *. rewrite Ep in *. by split.
Qed.

Lemma file_states_elem tr s : s ∈ file_states tr ↔ ∃ p, states tr !! p = Some s.
Proof.
  unfold file_states. rewrite list_elem_of_fmap. split.
  - intros ([p s'] & -> & Hin%elem_of_map_to_list). by exists p.
  - intros [p Hp]. exists (p, s). split; [done|]. by apply elem_of_map_to_list.
Qed.

Lemma dead_letters_elem tr s :
  s ∈ get_dead_letters tr ↔
  (∃ p, states tr !! p = Some s) ∧
  ∃ m r, module_states s !! m = Some r ∧ unacknowledged_dead r = true.
Proof.
  unfold get_dead_letters. rewrite elem_of_retain, file_states_elem, existsb_exists.
  split; intros [Hp H]; (split; [done|]).
  - destruct H as (r & Hin & Hr). apply list_elem_of_In, values_elem in Hin as [m Hm].
    by exists m, r.
  - destruct H as (m & r & Hm & Hr). exists r. split; [|done].
    apply list_elem_of_In, values_elem. by exists m.
Qed.

(** Acknowledging every dead letter of a file takes the file off the list
    of dead letters, but only in memory: the acknowledgement is not written to
    the projection, so a tracker restored after a restart lists the file
    again. *)
Theorem acknowledgement_is_not_durable tr o now p s (Hr : reachable init step tr)
    (Hs : synced o tr) (Hp : states tr !! p = Some s) (Hdead : s ∈ get_dead_letters tr) :
  let tr1 := (acknowledge_dead_letter now p None tr).2 in
  (∀ s1, states tr1 !! p = Some s1 → s1 ∉ get_dead_letters tr1) ∧
  ∃ db, database tr1 = Some db ∧
    s ∈ get_dead_letters (restore_operation true o (set_db (Some db) (new (project_id tr1)))).
Proof.
  pose proof (invariant_reachable init step inv tr Hr) as Hi.
  unfold acknowledge_dead_letter. rewrite Hp. cbn [snd]. split.
  - intros s1. simpl. rewrite lookup_insert_eq. intros [= <-].
    rewrite dead_letters_elem. intros (_ & m & r & Hm & Hd). simpl in Hm.
    rewrite map_lookup_imap in Hm. destruct (module_states s !! m) as [r0|]; [|done].
    simpl in Hm. unfold ack_target in Hm. rewrite andb_true_r in Hm.
    destruct (unacknowledged_dead r0) eqn:E; simplify_eq; [|congruence].
    unfold unacknowledged_dead in Hd. simpl in Hd. by rewrite andb_false_r in Hd.
  - destruct (restore_synced o tr Hi Hs) as (db & Hdb & Hst & _). exists db.
    split; [done|]. cbn [project_id set_states]. rewrite dead_letters_elem, Hst.
    by apply dead_letters_elem.
Qed.

Lemma pending_retries_elem now tr p m t :
  (p, m, t) ∈ get_pending_retries now tr →
  ∃ s r, states tr !! p = Some s ∧ module_states s !! m = Some r ∧
         state r = Retrying t ∧ t ≤ now.
Proof.
  unfold get_pending_retries. intros Hin. apply list_elem_of_In, in_concat in Hin as (l & Hl & Hin).
  apply in_map_iff in Hl as ([p' s] & <- & Hps). apply list_elem_of_In in Hin, Hps.
  apply elem_of_map_to_list in Hps. apply list_elem_of_omap in Hin as ([m' r] & Hmr & Heq).
  apply elem_of_map_to_list in Hmr. exists s, r. simpl in *.
  destruct (state r) eqn:E; try done. destruct (next_attempt <=? now) eqn:El; [|done].
  bool_to_prop. by simplify_eq.
Qed.

(** Resetting a dead letter succeeds exactly on a dead-lettered module
    and makes it [Failed] with its retry budget still spent. The retry queries
    only look at [Retrying] modules: no query of pending retries at any time,
    and no list of modules to retry, contains the module; the reset is not
    written to the projection either. *)
Theorem reset_dead_letter_is_never_retried now p m tr s r (Hp : states tr !! p = Some s)
    (Hm : module_states s !! m = Some r) :
  let res := reset_dead_letter now p m tr in
  (is_ok res.1 = is_dead_letter (state r)) ∧
  (is_ok res.1 = true →
     ∃ s', states res.2 !! p = Some s' ∧
       state (get_module_state s' m) = Failed ∧
       retry_count (get_module_state s' m) = retry_count r ∧
       (∀ later t, (p, m, t) ∉ get_pending_retries later res.2) ∧
       (∀ t, (m, t) ∉ get_modules_to_retry s')) ∧
  database res.2 = database tr.
Proof.
  intros res. subst res. unfold reset_dead_letter. rewrite Hp, Hm.
  destruct (is_dead_letter (state r)) eqn:E; [|by split; [|split]].
  simpl. split; [done|]. split; [|done]. intros _.
  eexists. split; [apply lookup_insert_eq|]. unfold get_module_state. simpl.
  rewrite lookup_insert_eq. split; [done|]. split; [done|]. split.
  - intros later t (s' & r' & Hs' & Hr' & Hst & _)%pending_retries_elem. simpl in Hs'.
    rewrite lookup_insert_eq in Hs'. simplify_eq/=. rewrite lookup_insert_eq in Hr'. by simplify_eq.
  - intros t Hin. apply list_elem_of_omap in Hin as ([m' r'] & Hin & Heq).
    apply elem_of_map_to_list in Hin. simpl in Hin. destruct (state r') eqn:Es; simplify_eq/=.
    rewrite lookup_insert_eq in Hin. by simplify_eq.
Qed.

Lemma upsert_row_ge (k : Z * string * string) (v : Z) (j : Json) (db : projection) :
  ∃ (v' : Z) (j' : Json), upsert_row k v j db !! k = Some (v', j') ∧ v ≤ v'.
Proof.
  unfold upsert_row. destruct (db !! k) as [[v0 j0]|] eqn:E.
  - destruct (v0 <=? v) eqn:Ev; bool_to_prop.
    + exists v, j. rewrite lookup_insert_eq. split; [done|lia].
    + exists v0, j0. split; [done|lia].
  - exists v, j. rewrite lookup_insert_eq. split; [done|lia].
Qed.

Lemma upsert_row_stale (k : Z * string * string) (v : Z) (j : Json) (v0 : Z) (j0 : Json) (db : projection) :
  db !! k = Some (v0, j0) → v < v0 → upsert_row k v j db = db.
Proof. intros Hk Hv. unfold upsert_row. rewrite Hk. by apply Z.leb_gt in Hv as ->. Qed.

(** The second half of [create_update]: store the state and persist it. *)
Definition commit_update (s : FileUpdateState) (tr : UpdateStateTracker)
    : UpdateStateTracker := persist_state true s (store_state s tr).

(** [create_update] takes its version and stores its state under two
    separate locks. When two updates of one file interleave so that the one
    with the older version stores last, the tracker ends up holding the older
    version, the holder of the newer one gets a version mismatch, and the
    durable row, which is guarded by the version, disagrees with the state in
    memory. *)
Theorem interleaved_updates_regress tr db p now_a now_b c_a c_b (Hdb : database tr = Some db)
    (H0 : 0 ≤ version_counter tr) (Hle : version_counter tr + 2 ≤ i64_max) :
  let va := (next_version tr).1 in
  let tr1 := (next_version tr).2 in
  let vb := (next_version tr1).1 in
  let tr2 := (next_version tr1).2 in
  let sa := IndexState.new now_a p va c_a (project_id tr) in
  let sb := IndexState.new now_b p vb c_b (project_id tr) in
  let tr' := commit_update sa (commit_update sb tr2) in
  va < vb ∧ states tr' !! p = Some sa ∧
  check_version p vb tr' = Err (VersionMismatch p vb va) ∧
  ∃ db' v j, database tr' = Some db' ∧
    db' !! (project_id tr, operation_key tr, p) = Some (v, j) ∧ vb ≤ v.
Proof.
  assert (wrap64 (version_counter tr + 1) = version_counter tr + 1) as Ha.
  { apply wrap64_small. unfold i64_max, u64_max in *. lia. }
  assert (wrap64 (version_counter tr + 1 + 1) = version_counter tr + 2) as Hb.
  { rewrite wrap64_small; unfold i64_max, u64_max in *; lia. }
  unfold next_version. cbn [fst snd version_counter set_counter]. rewrite Ha, Hb.
  set (sa := IndexState.new now_a p _ c_a _). set (sb := IndexState.new now_b p _ c_b _).
  set (tr2 := set_counter _ (set_counter _ tr)).
  assert (∀ tr0, states (commit_update sa tr0) !! p = Some sa) as Hst.
  { intros tr0. unfold commit_update.
    rewrite (proj1 (proj2 (persist_frame true sa (store_state sa tr0)))). apply lookup_insert_eq. }
  split; [lia|]. split; [apply Hst|]. split.
  { unfold check_version. rewrite Hst. simpl.
    destruct (version_counter tr + 1 =? version_counter tr + 2) eqn:E1; bool_to_prop; [lia|].
    destruct (version_counter tr + 2 <? version_counter tr + 1) eqn:E2; bool_to_prop; [lia|done]. }
  destruct (to_json_total sa) as [ja Hja], (to_json_total sb) as [jb Hjb].
  unfold commit_update, persist_state at 2. simpl. rewrite Hdb, Hjb.
  assert (version_counter tr + 2 <=? i64_max = true) as -> by (by apply Z.leb_le).
  unfold persist_state. simpl. rewrite Hja.
  assert (version_counter tr + 1 <=? i64_max = true) as -> by (apply Z.leb_le; lia).
  simpl. unfold operation_key; simpl.
  destruct (upsert_row_ge (project_id tr, default "state" (current_operation_id tr), p)
    (version_counter tr + 2) jb db) as (v & j & Hrow & Hv).
  eexists _, v, j. split; [done|]. split; [|done].
  by rewrite (upsert_row_stale _ _ _ v j) by (done || lia).
Qed.

End laws.

End tracker.
Arguments UpdateStateTracker Json : clear implicits.
Arguments op Json : clear implicits.

(** ** Witnesses: the identity as serialization *)

#[local] Instance identity_json : StateJson FileUpdateState :=
  {| to_json := Some; from_json := Some |}.

#[local] Instance identity_json_laws : StateJsonLaws FileUpdateState.
Proof. split; [by eexists|by intros ? ? [= ->]]. Qed.

Definition fresh : UpdateStateTracker FileUpdateState := new 7.
Definition bound : UpdateStateTracker FileUpdateState := (set_database true ∅ fresh).2.

Lemma fresh_reachable : reachable (init (Json := FileUpdateState)) step fresh.
Proof. exists fresh. split; [by exists 7|constructor]. Qed.

Lemma bound_reachable : reachable (init (Json := FileUpdateState)) step bound.
Proof.
  exists fresh. split; [by exists 7|]. apply rtc_once. exists (OpBind true ∅).
  split; [|done]. split; [vm_compute; discriminate|]. intros pr o p v j s. by rewrite lookup_empty.
Qed.

Lemma update_supersedes_witness :
  let s := (create_update true 0 "a.rs" Modified fresh).1 in
  let tr' := (create_update true 0 "a.rs" Modified fresh).2 in
  (∀ q s0, states fresh !! q = Some s0 →
     file_path s0 = q ∧ complete_modules s0 ∧ version s0 < version s) ∧
  states tr' = <["a.rs" := s]> (states fresh) ∧
  (∀ v, check_version "a.rs" v tr' =
        if v =? version s then Ok true
        else if v <? version s then Ok false
        else Err (VersionMismatch "a.rs" v (version s))).
Proof.
  apply (update_supersedes fresh true 0 "a.rs" Modified fresh_reachable).
  vm_compute. discriminate.
Defined.

Definition indexing : list (op FileUpdateState) :=
  [OpBatch [{| bf_path := "a.rs"; bf_now := 0; bf_now' := 0; bf_tx := true |};
            {| bf_path := "b.rs"; bf_now := 1; bf_now' := 1; bf_tx := true |}] 0 1 2 "/p";
   OpFailed true (at_time 2) "a.rs" Embedding (permanent "too long");
   OpRemove true "b.rs"].

Lemma restart_restores_states_witness :
  let tr1 := run indexing (start_full_index_for_operation "full_1" bound) in
  ∃ db1, database tr1 = Some db1 ∧
    let tr2 := restore_operation true "full_1" (set_db (Some db1) (new (project_id bound))) in
    states tr2 = states tr1 ∧
    (∀ p s, states tr2 !! p = Some s → version s ≤ version_counter tr2).
Proof.
  apply (restart_restores_states bound ∅ "full_1" indexing bound_reachable eq_refl).
  - intros p. apply lookup_empty.
  - repeat constructor.
  - vm_compute. discriminate.
Defined.


Definition indexed : UpdateStateTracker FileUpdateState :=
  run (OpStart "full_1" :: indexing) bound.

Lemma indexed_reachable : reachable (init (Json := FileUpdateState)) step indexed.
Proof.
  apply run_reachable; [|exact bound_reachable].
  repeat (split; [split; [vm_compute; discriminate|exact I]|]). exact I.
Qed.

Lemma indexed_synced : synced "full_1" indexed.
Proof.
  unfold indexed. rewrite run_cons.
  apply (run_durable indexing "full_1" (start_full_index_for_operation "full_1" bound)).
  - repeat constructor.
  - split; [|split; [vm_compute; split; discriminate|]].
    + intros p s. simpl. by rewrite lookup_empty.
    + intros db [= <-] pr o p v j s. by rewrite lookup_empty.
  - vm_compute. discriminate.
  - split; [done|]. exists ∅. split; [done|]. intros p. simpl. by rewrite !lookup_empty.
Qed.

Definition too_long : FileUpdateState := default sample_file (states indexed !! "a.rs").

Lemma acknowledgement_is_not_durable_witness :
  let tr1 := (acknowledge_dead_letter 3 "a.rs" None indexed).2 in
  (∀ s1, states tr1 !! "a.rs" = Some s1 → s1 ∉ get_dead_letters tr1) ∧
  ∃ db, database tr1 = Some db ∧
    too_long ∈ get_dead_letters
      (restore_operation true "full_1" (set_db (Some db) (new (project_id tr1)))).
Proof.
  apply (acknowledgement_is_not_durable indexed "full_1" 3 "a.rs" too_long
           indexed_reachable indexed_synced).
  - vm_compute. reflexivity.
  - apply dead_letters_elem. split; [exists "a.rs"; vm_compute; reflexivity|].
    exists Embedding. eexists. split; vm_compute; reflexivity.
Defined.

Lemma reset_dead_letter_is_never_retried_witness :
  let res := reset_dead_letter 4 "a.rs" Embedding indexed in
  (is_ok res.1 = is_dead_letter (state (get_module_state too_long Embedding))) ∧
  (is_ok res.1 = true →
     ∃ s', states res.2 !! "a.rs" = Some s' ∧
       state (get_module_state s' Embedding) = Failed ∧
       retry_count (get_module_state s' Embedding) =
         retry_count (get_module_state too_long Embedding) ∧
       (∀ later t, ("a.rs", Embedding, t) ∉ get_pending_retries later res.2) ∧
       (∀ t, (Embedding, t) ∉ get_modules_to_retry s')) ∧
  database res.2 = database indexed.
Proof.
  apply (reset_dead_letter_is_never_retried 4 "a.rs" Embedding indexed too_long
           (get_module_state too_long Embedding)).
  - vm_compute. reflexivity.
  - vm_compute. reflexivity.
Defined.

Lemma interleaved_updates_regress_witness :
  let va := (next_version bound).1 in
  let tr1 := (next_version bound).2 in
  let vb := (next_version tr1).1 in
  let tr2 := (next_version tr1).2 in
  let sa := IndexState.new 0 "a.rs" va Modified (project_id bound) in
  let sb := IndexState.new 1 "a.rs" vb Deleted (project_id bound) in
  let tr' := commit_update sa (commit_update sb tr2) in
  va < vb ∧ states tr' !! "a.rs" = Some sa ∧
  check_version "a.rs" vb tr' = Err (VersionMismatch "a.rs" vb va) ∧
  ∃ db' v j, database tr' = Some db' ∧
    db' !! (project_id bound, operation_key bound, "a.rs") = Some (v, j) ∧ vb ≤ v.
Proof.
  apply (interleaved_updates_regress bound ∅ "a.rs" 0 1 Modified Deleted).
  - reflexivity.
  - vm_compute. discriminate.
  - vm_compute. discriminate.
Defined.

End StateTracker.
