(* ===== verification/CheckpointStore.v ===== *)
(** The checkpoint tables
    (crates/infra/cce-storage-metadb-sqlite/src/repo/checkpoint_repo.rs over
    schema/checkpoint.rs, with the records of cce-storage-common and
    [OperationKind] of cce-types): operation, batch, file and work-unit
    checkpoints as tables in row-id order, every statement of the repository,
    and the constraints of the schema. *)

From S2P Require Import Prelude.

(** The text of a timestamp column: [DateTime::to_rfc3339],
    [DateTime::parse_from_rfc3339] and the text comparison of the database. *)
Class Rfc3339 (Stamp : Type) := {
  to_rfc3339 : DateTime → Stamp;
  parse_from_rfc3339 : Stamp → option DateTime;
  text_ltb : Stamp → Stamp → bool;
}.

(** The instants of the years 0 to 9999, which the format can express. *)
Definition in_rfc3339 (t : DateTime) : Prop :=
  from_secs (-62167219200) ≤ t < from_secs 253402300800.

(** A written timestamp reads back. *)
Class Rfc3339Laws (Stamp : Type) `{!Rfc3339 Stamp} := {
  rfc3339_roundtrip : ∀ t, in_rfc3339 t → parse_from_rfc3339 (to_rfc3339 t) = Some t;
}.

Module CheckpointStore.

(** ** Operation kinds and statuses *)

Inductive OperationKind := FullIndex | HotUpdate | Incremental | ConfigChange.

#[export] Instance OperationKind_eq_dec : EqDecision OperationKind.
Proof. solve_decision. Defined.

Definition kind_as_str (k : OperationKind) : string :=
  match k with
  | FullIndex => "full_index" | HotUpdate => "hot_update"
  | Incremental => "incremental" | ConfigChange => "config_change"
  end.

Definition kind_from_str (s : string) : result OperationKind string :=
  if bool_decide (s ∈ ["full_index"; "full"; "FullIndexing"]) then Ok FullIndex
  else if bool_decide (s ∈ ["hot_update"; "hot"; "HotUpdate"]) then Ok HotUpdate
  else if bool_decide (s ∈ ["incremental"; "IncrementalUpdate"]) then Ok Incremental
  else if bool_decide (s ∈ ["config_change"; "ConfigChange"]) then Ok ConfigChange
  else Err ("Unknown operation kind: " +:+ s).

Inductive CheckpointStatus := InProgress | Completed | Failed.

#[export] Instance CheckpointStatus_eq_dec : EqDecision CheckpointStatus.
Proof. solve_decision. Defined.

Definition status_as_str (s : CheckpointStatus) : string :=
  match s with
  | InProgress => "in_progress" | Completed => "completed" | Failed => "failed"
  end.

Definition status_from_str (s : string) : result CheckpointStatus unit :=
  if bool_decide (s = "in_progress") then Ok InProgress
  else if bool_decide (s = "completed") then Ok Completed
  else if bool_decide (s = "failed") then Ok Failed
  else Err ().

Inductive WorkUnitStatus := Pending | Running | Committed | WorkFailed.

#[export] Instance WorkUnitStatus_eq_dec : EqDecision WorkUnitStatus.
Proof. solve_decision. Defined.

Definition work_status_as_str (s : WorkUnitStatus) : string :=
  match s with
  | Pending => "pending" | Running => "running"
  | Committed => "committed" | WorkFailed => "failed"
  end.

Definition work_status_from_str (s : string) : result WorkUnitStatus unit :=
  if bool_decide (s = "pending") then Ok Pending
  else if bool_decide (s = "running") then Ok Running
  else if bool_decide (s = "committed") then Ok Committed
  else if bool_decide (s = "failed") then Ok WorkFailed
  else Err ().

(** The errors the checkpoint code raises; the text of a driver error is dropped. *)
Inductive StorageError :=
| Insert (table : string)
| Update (table : string)
| Delete (table : string)
| Query
| Validation (message : string)
| NotFound (message : string)
| Sqlite
| Connection (message : string).

Section store.
Context {Stamp : Type} `{!Rfc3339 Stamp}.

(** ** Records *)

Record CheckpointRecord := {
  id : option Z;
  project_id : Z;
  operation_id : string;
  operation_type : string;
  root_dir : string;
  total_files : Z;
  batch_size : Z;
  current_batch_index : Z;
  current_phase : string;
  file_list_hash : option string;
  created_at : Stamp;
  updated_at : Stamp;
  last_error : option string;
  failure_count : Z;
  status : CheckpointStatus;
  active_flag : bool;
  priority : Z;
  last_heartbeat : option Stamp;
  failed_at : option Stamp;
}.

Record BatchCheckpointRecord := {
  b_id : option Z;
  b_operation_id : string;
  b_batch_index : Z;
  first_file : string;
  last_file : string;
  file_count : Z;
  processed_files : Z;
  failed_files : Z;
  entities_extracted : Z;
  relations_found : Z;
  chunks_generated : Z;
  vectors_stored : Z;
  start_time : Stamp;
  end_time : option Stamp;
  duration_ms : option Z;
  b_created_at : Stamp;
  b_updated_at : Stamp;
}.

Record FileCheckpointRecord := {
  f_id : option Z;
  f_operation_id : string;
  f_batch_index : Z;
  file_path : string;
  file_id : option Z;
  language : option string;
  file_size : option Z;
  content_hash : option string;
  parsed_data : option (list Z);
  parse_error : option string;
  summary_data : option (list Z);
  embedding_count : Z;
  bm25_doc_id : option string;
  export_path : option string;
  render_fingerprint : option string;
  module_progress : option string;
  f_created_at : Stamp;
  f_updated_at : Stamp;
}.

Record WorkUnitCheckpointRecord := {
  w_id : option Z;
  w_project_id : Z;
  w_operation_id : string;
  stage : string;
  target_epoch : Z;
  work_unit_hash : string;
  w_status : WorkUnitStatus;
  item_count : Z;
  w_created_at : Stamp;
  w_updated_at : Stamp;
}.

(** The tables, each in row-id order, with the [AUTOINCREMENT] counters.
    Batch and file rows carry their [project_id] column beside the record. *)
Record Store := {
  checkpoints : list CheckpointRecord;
  batches : list (Z * BatchCheckpointRecord);
  files : list (Z * FileCheckpointRecord);
  work_units : list WorkUnitCheckpointRecord;
  checkpoint_seq : Z;
  batch_seq : Z;
  file_seq : Z;
  work_unit_seq : Z;
}.

Definition empty_store : Store :=
  {| checkpoints := []; batches := []; files := []; work_units := [];
     checkpoint_seq := 0; batch_seq := 0; file_seq := 0; work_unit_seq := 0 |}.

(** Table assignments. *)
Definition set_checkpoints (l : list CheckpointRecord) (db : Store) : Store :=
  {| checkpoints := l; batches := batches db; files := files db;
     work_units := work_units db; checkpoint_seq := checkpoint_seq db;
     batch_seq := batch_seq db; file_seq := file_seq db; work_unit_seq := work_unit_seq db |}.

Definition set_batches (l : list (Z * BatchCheckpointRecord)) (db : Store) : Store :=
  {| checkpoints := checkpoints db; batches := l; files := files db;
     work_units := work_units db; checkpoint_seq := checkpoint_seq db;
     batch_seq := batch_seq db; file_seq := file_seq db; work_unit_seq := work_unit_seq db |}.

Definition set_files (l : list (Z * FileCheckpointRecord)) (db : Store) : Store :=
  {| checkpoints := checkpoints db; batches := batches db; files := l;
     work_units := work_units db; checkpoint_seq := checkpoint_seq db;
     batch_seq := batch_seq db; file_seq := file_seq db; work_unit_seq := work_unit_seq db |}.

Definition set_work_units (l : list WorkUnitCheckpointRecord) (db : Store) : Store :=
  {| checkpoints := checkpoints db; batches := batches db; files := files db;
     work_units := l; checkpoint_seq := checkpoint_seq db;
     batch_seq := batch_seq db; file_seq := file_seq db; work_unit_seq := work_unit_seq db |}.

(** Appending a row advances the table's counter. *)
Definition append_checkpoint (r : CheckpointRecord) (db : Store) : Store :=
  {| checkpoints := checkpoints db ++ [r]; batches := batches db; files := files db;
     work_units := work_units db; checkpoint_seq := checkpoint_seq db + 1;
     batch_seq := batch_seq db; file_seq := file_seq db; work_unit_seq := work_unit_seq db |}.

Definition append_batch (r : Z * BatchCheckpointRecord) (db : Store) : Store :=
  {| checkpoints := checkpoints db; batches := batches db ++ [r]; files := files db;
     work_units := work_units db; checkpoint_seq := checkpoint_seq db;
     batch_seq := batch_seq db + 1; file_seq := file_seq db;
     work_unit_seq := work_unit_seq db |}.

Definition append_file (r : Z * FileCheckpointRecord) (db : Store) : Store :=
  {| checkpoints := checkpoints db; batches := batches db; files := files db ++ [r];
     work_units := work_units db; checkpoint_seq := checkpoint_seq db;
     batch_seq := batch_seq db; file_seq := file_seq db + 1;
     work_unit_seq := work_unit_seq db |}.

Definition append_work_unit (r : WorkUnitCheckpointRecord) (db : Store) : Store :=
  {| checkpoints := checkpoints db; batches := batches db; files := files db;
     work_units := work_units db ++ [r]; checkpoint_seq := checkpoint_seq db;
     batch_seq := batch_seq db; file_seq := file_seq db;
     work_unit_seq := work_unit_seq db + 1 |}.

(** ** Statements *)

(** [UPDATE t SET .. WHERE p]: every matching row is rewritten unless one of
    the rewritten rows violates a constraint, which fails the statement. The
    number of affected rows comes with the new table. *)
Definition update_rows {A} (p : A → bool) (f : A → A) (ok : A → bool) (l : list A)
    : option (list A * Z) :=
  if forallb (λ r, negb (p r) || ok (f r)) l
  then Some (map (λ r, if p r then f r else r) l, count_if p l)
  else None.

(** [SELECT .. LIMIT 1] *)
Definition first_row {A} (p : A → bool) (l : list A) : option A := head (retain p l).

(** [ORDER BY]: a stable insertion sort for a strict order on the column. *)
Fixpoint insert_by {A} (lt : A → A → bool) (x : A) (l : list A) : list A :=
  match l with
  | [] => [x]
  | y :: l' => if lt y x then y :: insert_by lt x l' else x :: l
  end.

Definition sort_by {A} (lt : A → A → bool) (l : list A) : list A := foldr (insert_by lt) [] l.

Definition of_operation (project : Z) (op : string) (r : CheckpointRecord) : bool :=
  bool_decide (project_id r = project) && bool_decide (operation_id r = op).

(** The [CHECK] constraints of the table [checkpoint]; its other checks hold
    by the types of the columns. *)
Definition checkpoint_ok (r : CheckpointRecord) : bool :=
  (0 <=? current_batch_index r) && (0 <? batch_size r) &&
  (0 <=? priority r) && (priority r <=? 3).

(** ** Operation checkpoints *)

(** The row the INSERT writes: [last_error] and [failure_count] are not among
    its columns and take their defaults. *)
Definition inserted_checkpoint (rowid project : Z) (c : CheckpointRecord)
    : CheckpointRecord :=
  {| id := Some rowid; project_id := project; operation_id := operation_id c;
     operation_type := operation_type c; root_dir := root_dir c;
     total_files := total_files c; batch_size := batch_size c;
     current_batch_index := current_batch_index c; current_phase := current_phase c;
     file_list_hash := file_list_hash c; created_at := created_at c;
     updated_at := updated_at c; last_error := None; failure_count := 0;
     status := status c; active_flag := active_flag c; priority := priority c;
     last_heartbeat := last_heartbeat c; failed_at := failed_at c |}.

Definition create_checkpoint (project : Z) (c : CheckpointRecord) (db : Store)
    : result (Z * Store) StorageError :=
  let rowid := checkpoint_seq db + 1 in
  let row := inserted_checkpoint rowid project c in
  if existsb (of_operation project (operation_id c)) (checkpoints db) then
    Err (Insert "checkpoint")
  else if checkpoint_ok row then Ok (rowid, append_checkpoint row db)
  else Err (Insert "checkpoint").

Definition get_checkpoint (project : Z) (op : string) (db : Store)
    : option CheckpointRecord :=
  first_row (of_operation project op) (checkpoints db).

Definition update_where (p : CheckpointRecord → bool)
    (f : CheckpointRecord → CheckpointRecord) (db : Store)
    : result (Z * Store) StorageError :=
  match update_rows p f checkpoint_ok (checkpoints db) with
  | Some (l, n) => Ok (n, set_checkpoints l db)
  | None => Err (Update "checkpoint")
  end.

Definition is_terminal_status (s : CheckpointStatus) : bool :=
  match s with Completed | Failed => true | InProgress => false end.

Definition set_status (now : DateTime) (s : CheckpointStatus) (r : CheckpointRecord)
    : CheckpointRecord :=
  {| id := id r; project_id := project_id r; operation_id := operation_id r;
     operation_type := operation_type r; root_dir := root_dir r;
     total_files := total_files r; batch_size := batch_size r;
     current_batch_index := current_batch_index r; current_phase := current_phase r;
     file_list_hash := file_list_hash r; created_at := created_at r;
     updated_at := to_rfc3339 now; last_error := last_error r;
     failure_count := failure_count r; status := s;
     active_flag := negb (is_terminal_status s); priority := priority r;
     last_heartbeat := last_heartbeat r; failed_at := failed_at r |}.

Definition update_checkpoint_status (now : DateTime) (project : Z) (op : string)
    (s : CheckpointStatus) (db : Store) : result (Z * Store) StorageError :=
  update_where (of_operation project op) (set_status now s) db.

Definition set_batch_index (now : DateTime) (i : Z) (r : CheckpointRecord)
    : CheckpointRecord :=
  {| id := id r; project_id := project_id r; operation_id := operation_id r;
     operation_type := operation_type r; root_dir := root_dir r;
     total_files := total_files r; batch_size := batch_size r;
     current_batch_index := i; current_phase := current_phase r;
     file_list_hash := file_list_hash r; created_at := created_at r;
     updated_at := to_rfc3339 now; last_error := last_error r;
     failure_count := failure_count r; status := status r;
     active_flag := active_flag r; priority := priority r;
     last_heartbeat := last_heartbeat r; failed_at := failed_at r |}.

Definition update_current_batch_index (now : DateTime) (project : Z) (op : string) (i : Z)
    (db : Store) : result (Z * Store) StorageError :=
  update_where (of_operation project op) (set_batch_index now i) db.

(** The SET list of [update_checkpoint]. *)
Definition overwrite (now : DateTime) (c r : CheckpointRecord) : CheckpointRecord :=
  {| id := id r; project_id := project_id r; operation_id := operation_id r;
     operation_type := operation_type c; root_dir := root_dir c;
     total_files := total_files c; batch_size := batch_size c;
     current_batch_index := current_batch_index c; current_phase := current_phase c;
     file_list_hash := file_list_hash c; created_at := created_at r;
     updated_at := to_rfc3339 now; last_error := last_error c;
     failure_count := failure_count c; status := status c;
     active_flag := active_flag c; priority := priority c;
     last_heartbeat := last_heartbeat c; failed_at := failed_at c |}.

Definition update_checkpoint (now : DateTime) (project : Z) (c : CheckpointRecord)
    (db : Store) : result (Z * Store) StorageError :=
  update_where (of_operation project (operation_id c)) (overwrite now c) db.

(** The queries that do not select [failed_at] report it as absent. *)
Definition without_failed_at (r : CheckpointRecord) : CheckpointRecord :=
  {| id := id r; project_id := project_id r; operation_id := operation_id r;
     operation_type := operation_type r; root_dir := root_dir r;
     total_files := total_files r; batch_size := batch_size r;
     current_batch_index := current_batch_index r; current_phase := current_phase r;
     file_list_hash := file_list_hash r; created_at := created_at r;
     updated_at := updated_at r; last_error := last_error r;
     failure_count := failure_count r; status := status r;
     active_flag := active_flag r; priority := priority r;
     last_heartbeat := last_heartbeat r; failed_at := None |}.

Definition in_progress (project : Z) (r : CheckpointRecord) : bool :=
  bool_decide (project_id r = project) && bool_decide (status r = InProgress).

Definition get_latest_incomplete_by_type (project : Z) (kind root : string) (db : Store)
    : option CheckpointRecord :=
  let rows := retain (λ r, in_progress project r && bool_decide (operation_type r = kind) &&
                           bool_decide (root_dir r = root)) (checkpoints db) in
  without_failed_at <$> head (sort_by (λ a b, text_ltb (created_at b) (created_at a)) rows).

Definition get_unfinished_operations (project : Z) (db : Store) : list CheckpointRecord :=
  without_failed_at <$>
    sort_by (λ a b, text_ltb (created_at a) (created_at b))
      (retain (in_progress project) (checkpoints db)).

Definition validate_checkpoint (c : CheckpointRecord) : result unit StorageError :=
  if bool_decide (operation_id c = "") then
    Err (Validation "checkpoint operation_id is empty")
  else if negb (bool_decide (operation_type c ∈ ["full_index"; "hot_update"; "incremental"]))
  then Err (Validation ("Invalid operation_type: " +:+ operation_type c))
  else if bool_decide (current_phase c = "") then
    Err (Validation "checkpoint current_phase is empty")
  else match parse_from_rfc3339 (created_at c) with
       | None => Err (Validation "Invalid created_at timestamp")
       | Some _ =>
           match parse_from_rfc3339 (updated_at c) with
           | None => Err (Validation "Invalid updated_at timestamp")
           | Some _ => Ok ()
           end
       end.

(** ** The active operation *)

Definition is_active (project : Z) (r : CheckpointRecord) : bool :=
  bool_decide (project_id r = project) && active_flag r.

Definition get_active_checkpoint (project : Z) (db : Store) : option CheckpointRecord :=
  without_failed_at <$> first_row (is_active project) (checkpoints db).

(** Assignments of the active flag, the priority and the heartbeat. *)
Definition set_activity (now : DateTime) (active : bool) (prio : Z)
    (heartbeat : option Stamp) (r : CheckpointRecord) : CheckpointRecord :=
  {| id := id r; project_id := project_id r; operation_id := operation_id r;
     operation_type := operation_type r; root_dir := root_dir r;
     total_files := total_files r; batch_size := batch_size r;
     current_batch_index := current_batch_index r; current_phase := current_phase r;
     file_list_hash := file_list_hash r; created_at := created_at r;
     updated_at := to_rfc3339 now; last_error := last_error r;
     failure_count := failure_count r; status := status r;
     active_flag := active; priority := prio;
     last_heartbeat := heartbeat; failed_at := failed_at r |}.

Definition set_active_flag (now : DateTime) (project : Z) (op : string) (prio : Z)
    (db : Store) : result (Z * Store) StorageError :=
  update_where (of_operation project op)
    (set_activity now true prio (Some (to_rfc3339 now))) db.

Definition clear_active_flag (now : DateTime) (project : Z) (op : string) (db : Store)
    : result (Z * Store) StorageError :=
  update_where (of_operation project op)
    (λ r, set_activity now false (priority r) (last_heartbeat r) r) db.

Definition update_heartbeat (now : DateTime) (project : Z) (op : string) (db : Store)
    : result (Z * Store) StorageError :=
  match update_where (λ r, of_operation project op r && active_flag r)
          (λ r, set_activity now true (priority r) (Some (to_rfc3339 now)) r) db with
  | Ok (n, db') =>
      if n =? 0 then Err (NotFound ("Active checkpoint not found: " +:+ op)) else Ok (n, db')
  | Err e => Err e
  end.

Definition is_stale (cutoff : Stamp) (r : CheckpointRecord) : bool :=
  match last_heartbeat r with None => true | Some h => text_ltb h cutoff end.

(** [now] is read for the cutoff and [now'] for the update. *)
Definition cleanup_stale_active (now now' : DateTime) (project stale_threshold_secs : Z)
    (db : Store) : result (Z * Store) StorageError :=
  let cutoff := to_rfc3339 (now - from_secs stale_threshold_secs) in
  update_where (λ r, is_active project r && is_stale cutoff r)
    (λ r, set_activity now' false (priority r) (last_heartbeat r) r) db.

(** ** Batch checkpoints *)

Definition of_batch (project : Z) (op : string) (i : Z) (r : Z * BatchCheckpointRecord)
    : bool :=
  bool_decide (r.1 = project) && bool_decide (b_operation_id r.2 = op) &&
  bool_decide (b_batch_index r.2 = i).

(** The referenced rows of the foreign keys. *)
Definition has_checkpoint (project : Z) (op : string) (db : Store) : bool :=
  existsb (of_operation project op) (checkpoints db).

Definition has_batch (project : Z) (op : string) (i : Z) (db : Store) : bool :=
  existsb (of_batch project op i) (batches db).

Definition with_batch_id (rowid : Z) (b : BatchCheckpointRecord) : BatchCheckpointRecord :=
  {| b_id := Some rowid; b_operation_id := b_operation_id b;
     b_batch_index := b_batch_index b; first_file := first_file b;
     last_file := last_file b; file_count := file_count b;
     processed_files := processed_files b; failed_files := failed_files b;
     entities_extracted := entities_extracted b; relations_found := relations_found b;
     chunks_generated := chunks_generated b; vectors_stored := vectors_stored b;
     start_time := start_time b; end_time := end_time b; duration_ms := duration_ms b;
     b_created_at := b_created_at b; b_updated_at := b_updated_at b |}.

Definition insert_batch_checkpoint (project : Z) (b : BatchCheckpointRecord) (db : Store)
    : result (Z * Store) StorageError :=
  let rowid := batch_seq db + 1 in
  if has_batch project (b_operation_id b) (b_batch_index b) db then
    Err (Insert "checkpoint_batch")
  else if has_checkpoint project (b_operation_id b) db then
    Ok (rowid, append_batch (project, with_batch_id rowid b) db)
  else Err (Insert "checkpoint_batch").

Definition get_batch_checkpoint (project : Z) (op : string) (i : Z) (db : Store)
    : option BatchCheckpointRecord :=
  snd <$> first_row (of_batch project op i) (batches db).

(** ** File checkpoints *)

Definition of_file (project : Z) (op path : string) (r : Z * FileCheckpointRecord) : bool :=
  bool_decide (r.1 = project) && bool_decide (f_operation_id r.2 = op) &&
  bool_decide (file_path r.2 = path).

(** [COALESCE(?, col)] *)
Definition coalesce {A} (new old : option A) : option A :=
  match new with Some _ => new | None => old end.

(** The SET list of the UPDATE branch; [embedding_count] is never NULL. *)
Definition merge_file (now : DateTime) (f r : FileCheckpointRecord) : FileCheckpointRecord :=
  {| f_id := f_id r; f_operation_id := f_operation_id r; f_batch_index := f_batch_index f;
     file_path := file_path r; file_id := file_id r;
     language := coalesce (language f) (language r);
     file_size := coalesce (file_size f) (file_size r);
     content_hash := coalesce (content_hash f) (content_hash r);
     parsed_data := coalesce (parsed_data f) (parsed_data r);
     parse_error := coalesce (parse_error f) (parse_error r);
     summary_data := coalesce (summary_data f) (summary_data r);
     embedding_count := embedding_count f;
     bm25_doc_id := coalesce (bm25_doc_id f) (bm25_doc_id r);
     export_path := coalesce (export_path f) (export_path r);
     render_fingerprint := coalesce (render_fingerprint f) (render_fingerprint r);
     module_progress := coalesce (module_progress f) (module_progress r);
     f_created_at := f_created_at r; f_updated_at := to_rfc3339 now |}.

Definition inserted_file (rowid : Z) (now now' : DateTime) (f : FileCheckpointRecord)
    : FileCheckpointRecord :=
  {| f_id := Some rowid; f_operation_id := f_operation_id f;
     f_batch_index := f_batch_index f; file_path := file_path f; file_id := file_id f;
     language := language f; file_size := file_size f; content_hash := content_hash f;
     parsed_data := parsed_data f; parse_error := parse_error f;
     summary_data := summary_data f; embedding_count := embedding_count f;
     bm25_doc_id := bm25_doc_id f; export_path := export_path f;
     render_fingerprint := render_fingerprint f; module_progress := module_progress f;
     f_created_at := to_rfc3339 now; f_updated_at := to_rfc3339 now' |}.

Definition upsert_file_checkpoint (now now' : DateTime) (project : Z)
    (f : FileCheckpointRecord) (db : Store) : result (unit * Store) StorageError :=
  let p := of_file project (f_operation_id f) (file_path f) in
  let parent r := has_batch r.1 (f_operation_id r.2) (f_batch_index r.2) db in
  if existsb p (files db) then
    match update_rows p (λ r, (r.1, merge_file now f r.2)) parent (files db) with
    | Some (l, _) => Ok ((), set_files l db)
    | None => Err (Insert "checkpoint_file")
    end
  else
    let row := (project, inserted_file (file_seq db + 1) now now' f) in
    if parent row then Ok ((), append_file row db) else Err (Insert "checkpoint_file").

Definition get_file_checkpoint (project : Z) (op path : string) (db : Store)
    : option FileCheckpointRecord :=
  snd <$> first_row (of_file project op path) (files db).

Definition by_path (a b : FileCheckpointRecord) : bool :=
  String.ltb (file_path a) (file_path b).

Definition get_batch_files (project : Z) (op : string) (i : Z) (db : Store)
    : list FileCheckpointRecord :=
  sort_by by_path
    (snd <$> retain (λ r, bool_decide (r.1 = project) && bool_decide (f_operation_id r.2 = op) &&
                          bool_decide (f_batch_index r.2 = i)) (files db)).

Definition get_failed_files (project : Z) (op : string) (db : Store)
    : list (string * string) :=
  omap (λ r, (λ err, (file_path r, err)) <$> parse_error r)
    (sort_by by_path
       (snd <$> retain (λ r, bool_decide (r.1 = project) &&
                             bool_decide (f_operation_id r.2 = op) &&
                             bool_decide (is_Some (parse_error r.2))) (files db))).

Definition file_of_operation (project : Z) (op : string) (r : Z * FileCheckpointRecord)
    : bool :=
  bool_decide (r.1 = project) && bool_decide (f_operation_id r.2 = op).

Definition without_progress (now : DateTime) (r : FileCheckpointRecord)
    : FileCheckpointRecord :=
  {| f_id := f_id r; f_operation_id := f_operation_id r; f_batch_index := f_batch_index r;
     file_path := file_path r; file_id := file_id r; language := language r;
     file_size := file_size r; content_hash := content_hash r;
     parsed_data := parsed_data r; parse_error := parse_error r;
     summary_data := summary_data r; embedding_count := embedding_count r;
     bm25_doc_id := bm25_doc_id r; export_path := export_path r;
     render_fingerprint := render_fingerprint r; module_progress := None;
     f_created_at := f_created_at r; f_updated_at := to_rfc3339 now |}.

Definition clear_module_progress (now : DateTime) (project : Z) (op : string) (db : Store)
    : Z * Store :=
  let p r := file_of_operation project op r && bool_decide (is_Some (module_progress r.2)) in
  (count_if p (files db),
   set_files (map (λ r, if p r then (r.1, without_progress now r.2) else r) (files db)) db).

(** ** Work units *)

Definition of_unit (project : Z) (op st hash : string) (r : WorkUnitCheckpointRecord)
    : bool :=
  bool_decide (w_project_id r = project) && bool_decide (w_operation_id r = op) &&
  bool_decide (stage r = st) && bool_decide (work_unit_hash r = hash).

Definition set_unit (rowid : option Z) (s : WorkUnitStatus) (u : Stamp)
    (r : WorkUnitCheckpointRecord) : WorkUnitCheckpointRecord :=
  {| w_id := rowid; w_project_id := w_project_id r; w_operation_id := w_operation_id r;
     stage := stage r; target_epoch := target_epoch r; work_unit_hash := work_unit_hash r;
     w_status := s; item_count := item_count r; w_created_at := w_created_at r;
     w_updated_at := u |}.

Definition insert_work_unit (r : WorkUnitCheckpointRecord) (db : Store)
    : result (Z * Store) StorageError :=
  let rowid := work_unit_seq db + 1 in
  if existsb (of_unit (w_project_id r) (w_operation_id r) (stage r) (work_unit_hash r))
       (work_units db) then Err (Insert "work_unit_checkpoint")
  else if has_checkpoint (w_project_id r) (w_operation_id r) db then
    Ok (rowid, append_work_unit (set_unit (Some rowid) (w_status r) (w_updated_at r) r) db)
  else Err (Insert "work_unit_checkpoint").

Definition update_work_unit_status (now : DateTime) (project : Z) (op st hash : string)
    (s : WorkUnitStatus) (db : Store) : Store :=
  set_work_units
    (map (λ r, if of_unit project op st hash r then set_unit (w_id r) s (to_rfc3339 now) r
               else r) (work_units db)) db.

Definition get_work_units (project : Z) (op st : string) (db : Store)
    : list WorkUnitCheckpointRecord :=
  retain (λ r, bool_decide (w_project_id r = project) && bool_decide (w_operation_id r = op) &&
               bool_decide (stage r = st)) (work_units db).

Definition get_work_unit_by_hash (project : Z) (op st hash : string) (db : Store)
    : option WorkUnitCheckpointRecord :=
  first_row (of_unit project op st hash) (work_units db).

(** ** Deletion, with the cascades of the foreign keys *)

Definition delete_checkpoint_files_by_operation_id (project : Z) (op : string) (db : Store)
    : Z * Store :=
  (count_if (file_of_operation project op) (files db),
   set_files (retain (λ r, negb (file_of_operation project op r)) (files db)) db).

Definition batch_of_operation (project : Z) (op : string) (r : Z * BatchCheckpointRecord)
    : bool :=
  bool_decide (r.1 = project) && bool_decide (b_operation_id r.2 = op).

Definition unit_of_operation (project : Z) (op : string) (r : WorkUnitCheckpointRecord)
    : bool :=
  bool_decide (w_project_id r = project) && bool_decide (w_operation_id r = op).

(** Rows whose referenced row is gone go with it. *)
Definition cascade_files (db : Store) : Store :=
  set_files (retain (λ r, has_batch r.1 (f_operation_id r.2) (f_batch_index r.2) db)
               (files db)) db.

Definition cascade_batches (db : Store) : Store :=
  set_batches (retain (λ r, has_checkpoint r.1 (b_operation_id r.2) db) (batches db)) db.

Definition cascade_units (db : Store) : Store :=
  set_work_units (retain (λ r, has_checkpoint (w_project_id r) (w_operation_id r) db)
                    (work_units db)) db.

Definition delete_checkpoint_batches_by_operation_id (project : Z) (op : string)
    (db : Store) : Z * Store :=
  (count_if (batch_of_operation project op) (batches db),
   cascade_files
     (set_batches (retain (λ r, negb (batch_of_operation project op r)) (batches db)) db)).

Definition delete_work_units_by_operation_id (project : Z) (op : string) (db : Store)
    : Z * Store :=
  (count_if (unit_of_operation project op) (work_units db),
   set_work_units (retain (λ r, negb (unit_of_operation project op r)) (work_units db)) db).

Definition is_expired (project : Z) (cutoff : Stamp) (r : CheckpointRecord) : bool :=
  bool_decide (project_id r = project) && is_terminal_status (status r) &&
  text_ltb (updated_at r) cutoff && negb (active_flag r).

(** For a time to live that chrono can represent; beyond it the cast wraps or
    the subtraction panics. *)
Definition delete_expired_checkpoints (now : DateTime) (project ttl_seconds : Z)
    (db : Store) : Z * Store :=
  let cutoff := to_rfc3339 (now - from_secs ttl_seconds) in
  (count_if (is_expired project cutoff) (checkpoints db),
   cascade_files (cascade_batches (cascade_units
     (set_checkpoints (retain (λ r, negb (is_expired project cutoff r)) (checkpoints db)) db)))).

(** ** The tables as a transition system *)

Inductive statement :=
| SCreate (project : Z) (c : CheckpointRecord)
| SStatus (now : DateTime) (project : Z) (op : string) (s : CheckpointStatus)
| SBatchIndex (now : DateTime) (project : Z) (op : string) (i : Z)
| SUpdate (now : DateTime) (project : Z) (c : CheckpointRecord)
| SSetActive (now : DateTime) (project : Z) (op : string) (prio : Z)
| SClearActive (now : DateTime) (project : Z) (op : string)
| SHeartbeat (now : DateTime) (project : Z) (op : string)
| SCleanup (now now' : DateTime) (project threshold : Z)
| SInsertBatch (project : Z) (b : BatchCheckpointRecord)
| SUpsertFile (now now' : DateTime) (project : Z) (f : FileCheckpointRecord)
| SClearProgress (now : DateTime) (project : Z) (op : string)
| SInsertUnit (r : WorkUnitCheckpointRecord)
| SUnitStatus (now : DateTime) (project : Z) (op st hash : string) (s : WorkUnitStatus)
| SDeleteFiles (project : Z) (op : string)
| SDeleteBatches (project : Z) (op : string)
| SDeleteUnits (project : Z) (op : string)
| SDeleteExpired (now : DateTime) (project ttl : Z).

(** A failed statement leaves the tables alone. *)
Definition after {A} (r : result (A * Store) StorageError) (db : Store) : Store :=
  match r with Ok (_, db') => db' | Err _ => db end.

Definition exec (s : statement) (db : Store) : Store :=
  match s with
  | SCreate pr c => after (create_checkpoint pr c db) db
  | SStatus now pr op st => after (update_checkpoint_status now pr op st db) db
  | SBatchIndex now pr op i => after (update_current_batch_index now pr op i db) db
  | SUpdate now pr c => after (update_checkpoint now pr c db) db
  | SSetActive now pr op prio => after (set_active_flag now pr op prio db) db
  | SClearActive now pr op => after (clear_active_flag now pr op db) db
  | SHeartbeat now pr op => after (update_heartbeat now pr op db) db
  | SCleanup now now' pr th => after (cleanup_stale_active now now' pr th db) db
  | SInsertBatch pr b => after (insert_batch_checkpoint pr b db) db
  | SUpsertFile now now' pr f => after (upsert_file_checkpoint now now' pr f db) db
  | SClearProgress now pr op => (clear_module_progress now pr op db).2
  | SInsertUnit r => after (insert_work_unit r db) db
  | SUnitStatus now pr op st h s => update_work_unit_status now pr op st h s db
  | SDeleteFiles pr op => (delete_checkpoint_files_by_operation_id pr op db).2
  | SDeleteBatches pr op => (delete_checkpoint_batches_by_operation_id pr op db).2
  | SDeleteUnits pr op => (delete_work_units_by_operation_id pr op db).2
  | SDeleteExpired now pr ttl => (delete_expired_checkpoints now pr ttl db).2
  end.

Definition step (db db' : Store) : Prop := ∃ s, db' = exec s db.
Definition init (db : Store) : Prop := db = empty_store.

(** Keys and references of the tables. *)
Definition ckey (r : CheckpointRecord) : Z * string := (project_id r, operation_id r).
Definition bkey (r : Z * BatchCheckpointRecord) : Z * string * Z :=
  (r.1, b_operation_id r.2, b_batch_index r.2).
Definition bparent (r : Z * BatchCheckpointRecord) : Z * string := (r.1, b_operation_id r.2).
Definition fkey (r : Z * FileCheckpointRecord) : Z * string * string :=
  (r.1, f_operation_id r.2, file_path r.2).
Definition fparent (r : Z * FileCheckpointRecord) : Z * string * Z :=
  (r.1, f_operation_id r.2, f_batch_index r.2).
Definition ukey (r : WorkUnitCheckpointRecord) : Z * string * string * string :=
  (w_project_id r, w_operation_id r, stage r, work_unit_hash r).
Definition uparent (r : WorkUnitCheckpointRecord) : Z * string :=
  (w_project_id r, w_operation_id r).

(** The schema: unique keys, checks and referential integrity. *)
Definition wf (db : Store) : Prop :=
  (NoDup (map ckey (checkpoints db)) ∧ Forall (λ r, checkpoint_ok r = true) (checkpoints db)) ∧
  (NoDup (map bkey (batches db)) ∧ Forall (λ r, bparent r ∈ map ckey (checkpoints db)) (batches db)) ∧
  (NoDup (map fkey (files db)) ∧ Forall (λ r, fparent r ∈ map bkey (batches db)) (files db)) ∧
  (NoDup (map ukey (work_units db)) ∧
   Forall (λ r, uparent r ∈ map ckey (checkpoints db)) (work_units db)).

(** ** Rows and keys *)

Lemma existsb_key {A K} `{EqDecision K} (p : A → bool) (key : A → K) k l :
  (∀ r, p r = true ↔ key r = k) → existsb p l = true ↔ k ∈ map key l.
Proof.
  intros Hp. rewrite existsb_exists, list_elem_of_fmap. split.
  - intros (r & Hin & Hr). exists r. split; [symmetry; by apply Hp|by apply list_elem_of_In].
  - intros (r & -> & Hin). exists r. split; [by apply list_elem_of_In|by apply Hp].
Qed.

Lemma of_operation_key pr op r : of_operation pr op r = true ↔ ckey r = (pr, op).
Proof. unfold of_operation, ckey. rewrite andb_true_iff, !bool_decide_eq_true. naive_solver. Qed.

Lemma of_batch_key pr op i r : of_batch pr op i r = true ↔ bkey r = (pr, op, i).
Proof. unfold of_batch, bkey. rewrite !andb_true_iff, !bool_decide_eq_true. naive_solver. Qed.

Lemma of_file_key pr op path r : of_file pr op path r = true ↔ fkey r = (pr, op, path).
Proof. unfold of_file, fkey. rewrite !andb_true_iff, !bool_decide_eq_true. naive_solver. Qed.

Lemma of_unit_key pr op st h r : of_unit pr op st h r = true ↔ ukey r = (pr, op, st, h).
Proof. unfold of_unit, ukey. rewrite !andb_true_iff, !bool_decide_eq_true. naive_solver. Qed.

Lemma has_checkpoint_key pr op db :
  has_checkpoint pr op db = true ↔ (pr, op) ∈ map ckey (checkpoints db).
Proof. apply existsb_key. apply of_operation_key. Qed.

Lemma has_batch_key pr op i db :
  has_batch pr op i db = true ↔ (pr, op, i) ∈ map bkey (batches db).
Proof. apply existsb_key. apply of_batch_key. Qed.

Lemma update_rows_spec {A} (p : A → bool) f ok l l' n :
  update_rows p f ok l = Some (l', n) →
  l' = map (λ r, if p r then f r else r) l ∧ n = count_if p l ∧
  ∀ r, r ∈ l → p r = true → ok (f r) = true.
Proof.
  unfold update_rows. destruct (forallb _ l) eqn:E; [|done]. intros [= <- <-].
  split; [done|]. split; [done|]. intros r Hin Hp. rewrite forallb_forall in E.
  apply list_elem_of_In, E in Hin. by rewrite Hp in Hin.
Qed.

Lemma map_key_update {A K} (key : A → K) (p : A → bool) f l :
  (∀ r, key (f r) = key r) → map key (map (λ r, if p r then f r else r) l) = map key l.
Proof.
  intros Hf. rewrite map_map. apply map_ext. intros r. by destruct (p r).
Qed.

Lemma NoDup_map_retain {A K} (key : A → K) (p : A → bool) l :
  NoDup (map key l) → NoDup (map key (retain p l)).
Proof. intros Hn. eapply sublist_NoDup; [exact Hn|]. apply sublist_map, retain_sublist. Qed.

Lemma Forall_retain {A} (P : A → Prop) (p : A → bool) l : Forall P l → Forall P (retain p l).
Proof. rewrite !Forall_forall. intros H r [Hr _]%elem_of_retain. auto. Qed.

Lemma NoDup_map_snoc {A K} (key : A → K) l r :
  NoDup (map key l) → key r ∉ map key l → NoDup (map key (l ++ [r])).
Proof.
  intros Hn Hr. rewrite map_app, NoDup_app. simpl. split; [done|]. split; [|apply NoDup_singleton].
  intros k Hk ->%list_elem_of_singleton. done.
Qed.

(** An UPDATE of checkpoint rows that keeps their keys keeps the schema. *)
Lemma update_where_wf p f db n db' :
  (∀ r, ckey (f r) = ckey r) → update_where p f db = Ok (n, db') → wf db → wf db'.
Proof.
  intros Hf Hu ((Hn & Hok) & Hb & Hfi & Hw). unfold update_where in Hu.
  destruct (update_rows _ _ _ _) as [[l m]|] eqn:E; simplify_eq.
  apply update_rows_spec in E as (-> & _ & Hnew). unfold wf. simpl.
  rewrite !(map_key_update ckey) by done. split; [split; [done|]|done].
  rewrite Forall_forall in *. intros r (r0 & -> & Hr0)%list_elem_of_fmap.
  destruct (p r0) eqn:Ep; auto.
Qed.

Lemma after_update_where_wf p f db :
  (∀ r, ckey (f r) = ckey r) → wf db → wf (after (update_where p f db) db).
Proof.
  intros Hf Hw. destruct (update_where p f db) as [[n db']|] eqn:E; simpl; [|done].
  by eapply update_where_wf.
Qed.

Lemma create_checkpoint_wf pr c db : wf db → wf (after (create_checkpoint pr c db) db).
Proof.
  intros ((Hn & Hok) & (Hb & Hbp) & Hfi & (Hu & Hup)). unfold create_checkpoint.
  destruct (existsb _ _) eqn:E; [by repeat split; destruct_and!|].
  destruct (checkpoint_ok _) eqn:Ec; [|by repeat split; destruct_and!].
  set (row := inserted_checkpoint _ _ _) in *. unfold wf; simpl. split; [split|split; [split|split]].
  - apply NoDup_map_snoc; [done|]. intros Hin.
    apply not_true_iff_false in E. apply E. by apply has_checkpoint_key.
  - apply Forall_app. split; [done|]. by apply Forall_singleton.
  - done.
  - eapply Forall_impl; [exact Hbp|]. intros r Hr. rewrite map_app. apply elem_of_app. by left.
  - done.
  - split; [done|]. eapply Forall_impl; [exact Hup|]. intros r Hr. rewrite map_app.
    apply elem_of_app. by left.
Qed.

Lemma insert_batch_wf pr b db : wf db → wf (after (insert_batch_checkpoint pr b db) db).
Proof.
  intros (Hc & (Hb & Hbp) & (Hf & Hfp) & Hu). unfold insert_batch_checkpoint.
  destruct (has_batch _ _ _ _) eqn:E; [done|]. destruct (has_checkpoint _ _ _) eqn:Ec; [|done].
  unfold wf; simpl. split; [done|]. split; [split|split; [split|done]].
  - apply NoDup_map_snoc; [done|]. intros Hin. apply has_batch_key in Hin. simpl in Hin. congruence.
  - apply Forall_app. split; [done|]. apply Forall_singleton. by apply has_checkpoint_key in Ec.
  - done.
  - eapply Forall_impl; [exact Hfp|]. intros r Hr. rewrite map_app. apply elem_of_app. by left.
Qed.

Lemma upsert_file_wf now now' pr f db :
  wf db → wf (after (upsert_file_checkpoint now now' pr f db) db).
Proof.
  intros (Hc & Hb & (Hf & Hfp) & Hu). unfold upsert_file_checkpoint.
  destruct (existsb _ _) eqn:E.
  - destruct (update_rows _ _ _ _) as [[l n]|] eqn:Eu; [|done]. simpl.
    apply update_rows_spec in Eu as (-> & _ & Hok). unfold wf; simpl.
    split; [done|]. split; [done|]. split; [|done]. split; [by rewrite map_key_update|].
    rewrite Forall_forall in *. intros r (r0 & -> & Hr0)%list_elem_of_fmap.
    destruct (of_file _ _ _ r0) eqn:Ep; [|auto]. by apply has_batch_key, Hok.
  - destruct (has_batch _ _ _ _) eqn:Eb; [|done]. unfold wf; simpl.
    split; [done|]. split; [done|]. split; [|done]. split.
    + apply NoDup_map_snoc; [done|]. intros Hin. apply not_true_iff_false in E. apply E.
      by apply (existsb_key _ fkey (pr, f_operation_id f, file_path f)); [apply of_file_key|].
    + apply Forall_app. split; [done|]. apply Forall_singleton. by apply has_batch_key in Eb.
Qed.

Lemma insert_unit_wf r db : wf db → wf (after (insert_work_unit r db) db).
Proof.
  intros (Hc & Hb & Hf & (Hu & Hup)). unfold insert_work_unit.
  destruct (existsb _ _) eqn:E; [done|]. destruct (has_checkpoint _ _ _) eqn:Ec; [|done].
  unfold wf; simpl. split; [done|]. split; [done|]. split; [done|]. split.
  - apply NoDup_map_snoc; [done|]. intros Hin. apply not_true_iff_false in E. apply E.
    by apply (existsb_key _ ukey (ukey r)); [apply of_unit_key|].
  - apply Forall_app. split; [done|]. apply Forall_singleton. by apply has_checkpoint_key in Ec.
Qed.

Lemma delete_expired_wf now pr ttl db :
  wf db → wf (delete_expired_checkpoints now pr ttl db).2.
Proof.
  intros ((Hc & Hok) & (Hb & Hbp) & (Hf & Hfp) & (Hu & Hup)). unfold wf; simpl.
  split; [split; [by apply NoDup_map_retain|by apply Forall_retain]|].
  split; [split; [by apply NoDup_map_retain|]|].
  { apply Forall_forall. intros r [_ Hr]%elem_of_retain. by apply has_checkpoint_key in Hr. }
  split; [split; [by apply NoDup_map_retain|]|split; [by apply NoDup_map_retain|]].
  - apply Forall_forall. intros r [_ Hr]%elem_of_retain. by apply has_batch_key in Hr.
  - apply Forall_forall. intros r [_ Hr]%elem_of_retain. by apply has_checkpoint_key in Hr.
Qed.

#[export] Instance store_invariant : StepInvariant init step wf.
Proof.
  split; [intros db ->; unfold wf; simpl; repeat split; constructor|].
  intros db db' Hw [s ->]. pose proof Hw as (Hc & (Hb & Hbp) & (Hf & Hfp) & (Hu & Hup)).
  destruct s; cbn [exec]; try by apply after_update_where_wf.
  - by apply create_checkpoint_wf.
  - unfold update_heartbeat. destruct (update_where _ _ _) as [[n db']|] eqn:E; [|done].
    destruct (n =? 0); [done|]. simpl. by eapply update_where_wf; [|exact E|].
  - by apply insert_batch_wf.
  - by apply upsert_file_wf.
  - unfold wf; simpl. split; [done|]. split; [done|]. split; [|done].
    split; [by rewrite map_key_update|]. rewrite Forall_forall in *.
    intros r (r0 & -> & Hr0)%list_elem_of_fmap. case_match; by apply (Hfp r0).
  - by apply insert_unit_wf.
  - unfold wf; simpl. split; [done|]. split; [done|]. split; [done|].
    split; [by rewrite map_key_update|]. rewrite Forall_forall in *.
    intros r (r0 & -> & Hr0)%list_elem_of_fmap. case_match; by apply (Hup r0).
  - unfold wf; simpl. split; [done|]. split; [done|]. split; [|done].
    split; [by apply NoDup_map_retain|by apply Forall_retain].
  - unfold wf; simpl. split; [done|].
    split; [split; [by apply NoDup_map_retain|by apply Forall_retain]|].
    split; [split; [by apply NoDup_map_retain|]|done].
    apply Forall_forall. intros r [_ Hr]%elem_of_retain. by apply has_batch_key in Hr.
  - unfold wf; simpl. split; [done|]. split; [done|]. split; [done|].
    split; [by apply NoDup_map_retain|by apply Forall_retain].
  - by apply delete_expired_wf.
Qed.

Lemma sort_by_perm {A} (lt : A → A → bool) (l : list A) : sort_by lt l ≡ₚ l.
Proof.
  induction l as [|y l IH]; [done|]. simpl. rewrite <- IH at 2.
  generalize (sort_by lt l). intros k. induction k as [|z k IHk]; simpl; [done|].
  destruct (lt z y); [|done]. rewrite IHk. apply Permutation_swap.
Qed.

Lemma elem_of_sort_by {A} (lt : A → A → bool) (l : list A) x : x ∈ sort_by lt l ↔ x ∈ l.
Proof. by rewrite sort_by_perm. Qed.

(** ** Reading rows back *)

Lemma first_row_Some {A} (p : A → bool) l r : first_row p l = Some r → r ∈ l ∧ p r = true.
Proof.
  unfold first_row. destruct (retain p l) as [|x k] eqn:E; [done|]. intros [= ->].
  apply elem_of_retain. rewrite E. by left.
Qed.

(** Rows of a unique key. *)
Lemma first_row_unique {A K} `{EqDecision K} (key : A → K) (p : A → bool) k l r :
  (∀ r, p r = true ↔ key r = k) → NoDup (map key l) →
  first_row p l = Some r ↔ r ∈ l ∧ key r = k.
Proof.
  intros Hp Hn. split.
  { intros [Hin Hr]%first_row_Some. split; [done|by apply Hp]. }
  intros [Hin Hk]. unfold first_row. induction l as [|x l IH]; [by apply not_elem_of_nil in Hin|].
  simpl in *. apply NoDup_cons in Hn as [Hx Hn]. destruct (p x) eqn:E.
  - apply Hp in E. apply elem_of_cons in Hin as [->|Hin]; [done|].
    destruct Hx. rewrite E, <- Hk. by apply list_elem_of_fmap_2.
  - apply elem_of_cons in Hin as [->|Hin]; [|by apply IH].
    apply Hp in Hk. congruence.
Qed.

Lemma first_row_None {A} (p : A → bool) l : existsb p l = false → first_row p l = None.
Proof.
  unfold first_row. induction l as [|x l IH]; simpl; [done|].
  intros [Hx Hl]%orb_false_iff. rewrite Hx. by apply IH.
Qed.

Lemma first_row_snoc {A} (p : A → bool) l r :
  first_row p (l ++ [r]) =
  match first_row p l with Some x => Some x | None => if p r then Some r else None end.
Proof.
  unfold first_row. rewrite retain_app. simpl. destruct (retain p l); [by destruct (p r)|done].
Qed.

Lemma first_row_update {A} (p q : A → bool) f l :
  (∀ r, q (f r) = q r) →
  first_row q (map (λ r, if p r then f r else r) l) =
  (λ r, if p r then f r else r) <$> first_row q l.
Proof.
  intros Hf. unfold first_row. induction l as [|x l IH]; simpl; [done|].
  assert (q (if p x then f x else x) = q x) as -> by (destruct (p x); auto).
  by destruct (q x).
Qed.

(** Rewriting the row of one operation. *)
Lemma update_operation_spec pr op (f : CheckpointRecord → CheckpointRecord) db :
  (∀ r, ckey (f r) = ckey r) →
  (∀ r, r ∈ checkpoints db → of_operation pr op r = true → checkpoint_ok (f r) = true) →
  ∃ db', update_where (of_operation pr op) f db =
           Ok (count_if (of_operation pr op) (checkpoints db), db') ∧
    checkpoints db' = map (λ r, if of_operation pr op r then f r else r) (checkpoints db) ∧
    ∀ pr' op', get_checkpoint pr' op' db' =
      (λ r, if bool_decide ((pr', op') = (pr, op)) then f r else r) <$>
        get_checkpoint pr' op' db.
Proof.
  intros Hkey Hok. unfold update_where, update_rows. rewrite (proj2 (forallb_forall _ _)).
  2: { intros r Hr%list_elem_of_In. destruct (of_operation pr op r) eqn:E; [|done]. by apply Hok. }
  eexists. split; [done|]. split; [done|]. intros pr' op'. unfold get_checkpoint. simpl.
  rewrite first_row_update.
  2: { intros r. apply eq_true_iff_eq. by rewrite !of_operation_key, Hkey. }
  destruct (first_row _ _) as [r|] eqn:E; [|done]. simpl. f_equal.
  apply first_row_Some in E as [_ E%of_operation_key]. case_bool_decide as Hd.
  - simplify_eq. by rewrite (proj2 (of_operation_key _ _ _)).
  - destruct (of_operation pr op r) eqn:Er; [|done]. apply of_operation_key in Er. congruence.
Qed.

(** ** What is recorded for an operation *)

(** The rows of an operation in the four tables. *)
Definition recorded (pr : Z) (op : string) (db : Store) :=
  (retain (of_operation pr op) (checkpoints db), retain (batch_of_operation pr op) (batches db),
   retain (file_of_operation pr op) (files db), retain (unit_of_operation pr op) (work_units db)).

(** The operation a statement is about; the two maintenance statements are
    about the operations of a project. *)
Definition addressee (s : statement) : option (Z * string) :=
  match s with
  | SCreate pr c | SUpdate _ pr c => Some (pr, operation_id c)
  | SStatus _ pr op _ | SBatchIndex _ pr op _ | SSetActive _ pr op _ | SClearActive _ pr op
  | SHeartbeat _ pr op | SClearProgress _ pr op | SUnitStatus _ pr op _ _ _
  | SDeleteFiles pr op | SDeleteBatches pr op | SDeleteUnits pr op => Some (pr, op)
  | SInsertBatch pr b => Some (pr, b_operation_id b)
  | SUpsertFile _ _ pr f => Some (pr, f_operation_id f)
  | SInsertUnit r => Some (w_project_id r, w_operation_id r)
  | SCleanup _ _ _ _ | SDeleteExpired _ _ _ => None
  end.

(** An operation still running or active, or touched since the cutoff. *)
Definition not_expired (cutoff : Stamp) (r : CheckpointRecord) : Prop :=
  status r = InProgress ∨ active_flag r = true ∨ text_ltb (updated_at r) cutoff = false.

(** An operation that is not active, or whose heartbeat is recent. *)
Definition not_stale (cutoff : Stamp) (r : CheckpointRecord) : Prop :=
  active_flag r = false ∨ ∃ h, last_heartbeat r = Some h ∧ text_ltb h cutoff = false.

(** A statement about another operation, or maintenance that does not select
    this one. *)
Definition leaves_alone (pr : Z) (op : string) (o : option CheckpointRecord) (s : statement)
    : Prop :=
  match s with
  | SCleanup now _ p threshold =>
      p = pr → ∀ r, o = Some r → not_stale (to_rfc3339 (now - from_secs threshold)) r
  | SDeleteExpired now p ttl =>
      p = pr → ∀ r, o = Some r → not_expired (to_rfc3339 (now - from_secs ttl)) r
  | _ => addressee s ≠ Some (pr, op)
  end.

Lemma recorded_checkpoint pr op db db' :
  recorded pr op db' = recorded pr op db → get_checkpoint pr op db' = get_checkpoint pr op db.
Proof. unfold recorded, get_checkpoint, first_row. by intros [= -> _ _ _]. Qed.

Lemma retain_rewritten {A} (q p : A → bool) f l :
  (∀ r, q (f r) = q r) → (∀ r, r ∈ l → q r = true → p r = false) →
  retain q (map (λ r, if p r then f r else r) l) = retain q l.
Proof.
  intros Hf. induction l as [|x l IH]; simpl; intros Hp; [done|].
  assert (retain q (map (λ r, if p r then f r else r) l) = retain q l) as ->.
  { apply IH. intros r Hr. apply Hp. by right. }
  assert (q (if p x then f x else x) = q x) as -> by (destruct (p x); auto).
  destruct (q x) eqn:E; [|done]. by rewrite (Hp x ltac:(by left) E).
Qed.

Lemma retain_retained {A} (q p : A → bool) l :
  (∀ r, r ∈ l → q r = true → p r = true) → retain q (retain p l) = retain q l.
Proof.
  induction l as [|x l IH]; simpl; intros Hp; [done|].
  assert (retain q (retain p l) = retain q l) as Hl by (apply IH; intros r Hr; apply Hp; by right).
  destruct (p x) eqn:Ep; simpl; rewrite Hl; [done|]. destruct (q x) eqn:E; [|done].
  rewrite (Hp x ltac:(by left) E) in Ep. done.
Qed.

Lemma retain_snoc_other {A} (q : A → bool) l r : q r = false → retain q (l ++ [r]) = retain q l.
Proof. intros Hr. rewrite retain_app. simpl. rewrite Hr. apply app_nil_r. Qed.

Lemma other_operation pr op pr' op' r :
  (pr', op') ≠ (pr, op) → of_operation pr op r = true → of_operation pr' op' r = false.
Proof.
  intros Hne Hr. apply not_true_iff_false. rewrite of_operation_key in *. congruence.
Qed.

Lemma update_where_recorded pr op p f db :
  (∀ r, ckey (f r) = ckey r) →
  (∀ r, r ∈ checkpoints db → of_operation pr op r = true → p r = false) →
  recorded pr op (after (update_where p f db) db) = recorded pr op db.
Proof.
  intros Hf Hp. destruct (update_where p f db) as [[n db']|] eqn:E; [|done]. unfold update_where in E.
  destruct (update_rows _ _ _ _) as [[l m]|] eqn:Eu; simplify_eq.
  apply update_rows_spec in Eu as (-> & _ & _). unfold recorded. simpl. f_equal; f_equal; f_equal.
  apply retain_rewritten; [|done]. intros r. apply eq_true_iff_eq. by rewrite !of_operation_key, Hf.
Qed.

(** The row of an operation, which is unique. *)
Lemma checkpoint_row pr op db r :
  wf db → r ∈ checkpoints db → of_operation pr op r = true → get_checkpoint pr op db = Some r.
Proof.
  intros [[Hn _] _] Hr Ho. apply (first_row_unique ckey _ (pr, op)); [apply of_operation_key|done|].
  split; [done|]. by apply of_operation_key.
Qed.

(** Deleting expired operations keeps what is recorded for the others and
    deletes everything recorded for an expired one. *)
Lemma delete_expired_recorded now p ttl pr op db :
  wf db →
  (∀ r, r ∈ checkpoints db → of_operation pr op r = true →
     is_expired p (to_rfc3339 (now - from_secs ttl)) r = false) →
  recorded pr op (delete_expired_checkpoints now p ttl db).2 = recorded pr op db.
Proof.
  intros Hw Hr. pose proof Hw as (Hc & (Hb & Hbp) & (Hf & Hfp) & (Hu & Hup)).
  rewrite Forall_forall in Hbp. rewrite Forall_forall in Hfp. rewrite Forall_forall in Hup.
  set (x := is_expired p (to_rfc3339 (now - from_secs ttl))) in *.
  assert (Hck : ∀ k, k ∈ map ckey (checkpoints db) → k = (pr, op) →
    k ∈ map ckey (retain (λ r, negb (x r)) (checkpoints db))).
  { intros k (r & -> & Hin)%list_elem_of_fmap Hk. apply list_elem_of_fmap_2, elem_of_retain.
    split; [done|]. by rewrite (Hr r Hin) by by apply of_operation_key. }
  assert (Hb' : ∀ r, r ∈ batches db → bparent r = (pr, op) →
    existsb (of_operation r.1 (b_operation_id r.2)) (retain (λ r, negb (x r)) (checkpoints db)) = true).
  { intros r Hin Hk. apply (existsb_key _ ckey (bparent r)); [apply of_operation_key|]. auto. }
  unfold recorded, delete_expired_checkpoints. simpl. unfold has_checkpoint, has_batch. simpl. fold x.
  f_equal; [f_equal; [f_equal|]|]; apply retain_retained.
  - intros r Hin Ho. by rewrite (Hr r Hin Ho).
  - intros r Hin Ho. apply Hb'; [done|]. unfold batch_of_operation in Ho.
    apply andb_true_iff in Ho as [H1%bool_decide_eq_true H2%bool_decide_eq_true].
    unfold bparent. congruence.
  - intros r Hin Ho. unfold file_of_operation in Ho.
    apply andb_true_iff in Ho as [H1%bool_decide_eq_true H2%bool_decide_eq_true].
    apply (existsb_key _ bkey (fparent r)); [apply of_batch_key|].
    specialize (Hfp r Hin). apply list_elem_of_fmap in Hfp as (b & Hk & Hbin). rewrite Hk.
    apply list_elem_of_fmap_2, elem_of_retain. split; [done|]. apply Hb'; [done|].
    unfold fparent, bkey, bparent in *. congruence.
  - intros r Hin Ho. unfold unit_of_operation in Ho.
    apply andb_true_iff in Ho as [H1%bool_decide_eq_true H2%bool_decide_eq_true].
    apply (existsb_key _ ckey (uparent r)); [apply of_operation_key|].
    apply Hck; [auto|]. unfold uparent. congruence.
Qed.

Lemma delete_expired_all now pr ttl op db r :
  wf db → get_checkpoint pr op db = Some r →
  ¬ not_expired (to_rfc3339 (now - from_secs ttl)) r →
  recorded pr op (delete_expired_checkpoints now pr ttl db).2 = ([], [], [], []).
Proof.
  intros Hw Hg Hx. pose proof (first_row_Some _ _ _ Hg) as [Hin Ho].
  set (x := is_expired pr (to_rfc3339 (now - from_secs ttl))).
  assert (Hxr : x r = true).
  { unfold x, is_expired. apply of_operation_key in Ho. unfold ckey in Ho. simplify_eq.
    rewrite (bool_decide_true _ eq_refl). unfold not_expired in Hx.
    destruct (status r), (active_flag r), (text_ltb _ _); simpl; tauto. }
  assert (Hck : ∀ q, q ∈ retain (λ r, negb (x r)) (checkpoints db) → of_operation pr op q = false).
  { intros q [Hq Hn]%elem_of_retain. destruct (of_operation pr op q) eqn:E; [|done].
    pose proof (checkpoint_row _ _ _ _ Hw Hq E) as Hg'. rewrite Hg in Hg'. injection Hg' as <-.
    by rewrite Hxr in Hn. }
  assert (Hne : existsb (of_operation pr op) (retain (λ r, negb (x r)) (checkpoints db)) = false).
  { apply not_true_iff_false. intros (q & Hq%list_elem_of_In & Hoq)%existsb_exists.
    by rewrite (Hck q Hq) in Hoq. }
  assert (Hkey : ∀ a b, bool_decide (a = pr) && bool_decide (b = op) = true → a = pr ∧ b = op).
  { intros a b [? ?]%andb_true_iff. by rewrite !bool_decide_eq_true in *. }
  unfold recorded, delete_expired_checkpoints. simpl. unfold has_checkpoint, has_batch. simpl. fold x.
  f_equal; [f_equal; [f_equal|]|]; apply retain_none.
  - done.
  - intros b [_ Hb]%elem_of_retain. destruct (batch_of_operation pr op b) eqn:E; [|done].
    apply Hkey in E as [E1 E2]. by rewrite E1, E2, Hne in Hb.
  - intros f [_ Hf]%elem_of_retain. destruct (file_of_operation pr op f) eqn:E; [|done].
    apply Hkey in E as [E1 E2].
    apply existsb_exists in Hf as (b & [_ Hb]%list_elem_of_In%elem_of_retain & Hk%of_batch_key).
    unfold bkey in Hk. injection Hk as Hk1 Hk2 _. rewrite Hk1, Hk2, E1, E2 in Hb.
    by pose proof (eq_trans (eq_sym Hne) Hb).
  - intros u [_ Hu]%elem_of_retain. destruct (unit_of_operation pr op u) eqn:E; [|done].
    apply Hkey in E as [E1 E2]. by rewrite E1, E2, Hne in Hu.
Qed.

Lemma rewrite_files_recorded pr op p f db :
  (∀ r, file_of_operation pr op (f r) = file_of_operation pr op r) →
  (∀ r, r ∈ files db → file_of_operation pr op r = true → p r = false) →
  recorded pr op (set_files (map (λ r, if p r then f r else r) (files db)) db) = recorded pr op db.
Proof.
  intros Hf Hp. unfold recorded. cbn [checkpoints batches files work_units set_files].
  by rewrite (retain_rewritten _ p f).
Qed.

Lemma delete_batches_recorded pr op pr' op' db :
  wf db → Some (pr', op') ≠ Some (pr, op) →
  recorded pr op (delete_checkpoint_batches_by_operation_id pr' op' db).2 = recorded pr op db.
Proof.
  intros (_ & _ & [_ Hfp] & _) Hne. rewrite Forall_forall in Hfp. unfold recorded.
  cbn [delete_checkpoint_batches_by_operation_id snd set_files cascade_files set_batches
       checkpoints batches files work_units].
  assert (Hb : ∀ r, batch_of_operation pr op r = true → batch_of_operation pr' op' r = false).
  { intros r. unfold batch_of_operation. intros [->%bool_decide_eq_true ->%bool_decide_eq_true]%andb_true_iff.
    apply not_true_iff_false. rewrite andb_true_iff, !bool_decide_eq_true. intros [-> ->]. done. }
  rewrite (retain_retained (batch_of_operation pr op)) by (intros r _ Hr; by rewrite Hb).
  rewrite (retain_retained (file_of_operation pr op)); [done|].
  intros r Hin Hr. apply andb_true_iff in Hr as [H1%bool_decide_eq_true H2%bool_decide_eq_true].
  apply (existsb_key _ bkey (fparent r)); [apply of_batch_key|].
  specialize (Hfp r Hin). apply list_elem_of_fmap in Hfp as (b & Hk & Hbin). rewrite Hk.
  apply list_elem_of_fmap_2, elem_of_retain. split; [done|]. rewrite Hb; [done|].
  unfold batch_of_operation, fparent, bkey in *. injection Hk as <- <- _.
  by rewrite H1, H2, !bool_decide_eq_true_2.
Qed.

(** A statement that leaves an operation alone changes nothing recorded for it. *)
Lemma exec_recorded pr op s db :
  wf db → leaves_alone pr op (get_checkpoint pr op db) s →
  recorded pr op (exec s db) = recorded pr op db.
Proof.
  intros Hw Hs.
  assert (Hother : ∀ f pr' op', (∀ r, ckey (f r) = ckey r) → Some (pr', op') ≠ Some (pr, op) →
    recorded pr op (after (update_where (of_operation pr' op') f db) db) = recorded pr op db).
  { intros f pr' op' Hf Hne. apply update_where_recorded; [done|]. intros r _. apply other_operation. congruence. }
  assert (Hsnd : ∀ pr' op' a b, Some (pr', op') ≠ Some (pr, op) →
    bool_decide (a = pr) && bool_decide (b = op) = true →
    bool_decide (a = pr') && bool_decide (b = op') = false).
  { intros pr' op' a b Hne [->%bool_decide_eq_true ->%bool_decide_eq_true]%andb_true_iff.
    apply not_true_iff_false. rewrite andb_true_iff, !bool_decide_eq_true. intros [-> ->]. done. }
  assert (Hrow : ∀ pr' op', Some (pr', op') ≠ Some (pr, op) →
    bool_decide (pr' = pr) && bool_decide (op' = op) = false).
  { intros pr' op' Hne. apply not_true_iff_false. rewrite andb_true_iff, !bool_decide_eq_true.
    intros [-> ->]. done. }
  destruct s; cbn [exec]; simpl in Hs; try by apply Hother.
  - unfold create_checkpoint. destruct (existsb _ _); [done|]. destruct (checkpoint_ok _); [|done].
    unfold recorded. cbn [after append_checkpoint checkpoints batches files work_units].
    rewrite retain_snoc_other; [done|]. by apply Hrow.
  - unfold update_heartbeat.
    set (r := update_where _ _ _). assert (recorded pr op (after r db) = recorded pr op db) as Hr.
    { apply update_where_recorded; [done|]. intros q _ Hq.
      rewrite (other_operation pr op) by congruence. done. }
    destruct r as [[n db']|e]; [|done]. by destruct (n =? 0).
  - apply update_where_recorded; [done|]. intros r Hr Ho.
    unfold is_active. destruct (decide (project_id r = project)) as [Hp|Hp];
      [|by rewrite bool_decide_eq_false_2].
    assert (project = pr) as Hpr by (apply of_operation_key in Ho; unfold ckey in Ho; congruence).
    destruct (Hs Hpr r (checkpoint_row _ _ _ _ Hw Hr Ho)) as [->|(h & Hh & Ht)];
      [by rewrite andb_false_r|]. unfold is_stale. by rewrite Hh, Ht, andb_false_r.
  - unfold insert_batch_checkpoint. destruct (has_batch _ _ _ _); [done|].
    destruct (has_checkpoint _ _ _); [|done].
    unfold recorded. cbn [after append_batch checkpoints batches files work_units].
    rewrite (retain_snoc_other (batch_of_operation pr op)); [done|]. by apply Hrow.
  - unfold upsert_file_checkpoint. destruct (existsb _ _).
    + destruct (update_rows _ _ _ _) as [[l m]|] eqn:Eu; [|done].
      apply update_rows_spec in Eu as (-> & _ & _). cbn [after].
      apply (rewrite_files_recorded pr op _ (λ r, (r.1, merge_file now f r.2))); [done|].
      intros r _ Hr. unfold of_file.
      by rewrite (Hsnd project (f_operation_id f) r.1 (f_operation_id r.2) Hs Hr).
    + destruct (has_batch _ _ _ _); [|done].
      unfold recorded. cbn [after append_file checkpoints batches files work_units].
      rewrite (retain_snoc_other (file_of_operation pr op)); [done|]. by apply Hrow.
  - unfold clear_module_progress.
    apply (rewrite_files_recorded pr op _ (λ r, (r.1, without_progress now r.2))); [done|].
    intros r _ Hr. unfold file_of_operation in *. by rewrite (Hsnd project op0 _ _ Hs Hr).
  - unfold insert_work_unit. destruct (existsb _ _); [done|]. destruct (has_checkpoint _ _ _); [|done].
    unfold recorded. cbn [after append_work_unit checkpoints batches files work_units].
    rewrite (retain_snoc_other (unit_of_operation pr op)); [done|]. by apply Hrow.
  - unfold recorded. cbn [update_work_unit_status set_work_units checkpoints batches files work_units].
    rewrite (retain_rewritten (unit_of_operation pr op)); [done|done|].
    intros r _ Hr. unfold of_unit. by rewrite (Hsnd project op0 _ _ Hs Hr).
  - unfold recorded. cbn [delete_checkpoint_files_by_operation_id snd set_files checkpoints batches files work_units].
    rewrite (retain_retained (file_of_operation pr op)); [done|].
    intros r _ Hr. unfold file_of_operation in *. by rewrite (Hsnd project op0 _ _ Hs Hr).
  - by apply delete_batches_recorded.
  - unfold recorded. cbn [delete_work_units_by_operation_id snd set_work_units checkpoints batches files work_units].
    rewrite (retain_retained (unit_of_operation pr op)); [done|].
    intros r _ Hr. unfold unit_of_operation in *. by rewrite (Hsnd project op0 _ _ Hs Hr).
  - apply delete_expired_recorded; [done|]. intros r Hr Ho. unfold is_expired.
    destruct (decide (project_id r = project)) as [Hp|Hp]; [|by rewrite bool_decide_eq_false_2].
    assert (project = pr) as Hpr by (apply of_operation_key in Ho; unfold ckey in Ho; congruence).
    destruct (Hs Hpr r (checkpoint_row _ _ _ _ Hw Hr Ho)) as [E|[E|E]]; rewrite E;
      by rewrite ?andb_false_r.
Qed.

Lemma recorded_sequence pr op ss : ∀ db,
  wf db → Forall (leaves_alone pr op (get_checkpoint pr op db)) ss →
  recorded pr op (foldl (λ db s, exec s db) db ss) = recorded pr op db.
Proof.
  induction ss as [|s ss IH]; intros db Hw Hss; [done|]. apply Forall_cons in Hss as [Hs Hss].
  pose proof (exec_recorded pr op s db Hw Hs) as Hr. cbn [foldl]. rewrite <- Hr. apply IH.
  - eapply invariant_step; [exact Hw|]. by exists s.
  - by rewrite (recorded_checkpoint pr op db).
Qed.

(** The schema holds in every reachable database. *)
Lemma schema_holds db (Hr : reachable init step db) : wf db.
Proof. exact (invariant_reachable init step wf db Hr). Qed.

(** C13. What the tables hold for an operation (its row and its batches,
    files and work units, in order) is changed by no statement about another
    operation or another project, by no clearing of stale active flags while it
    is inactive or its heartbeat is recent, and by no expiry while it is running,
    active or touched since the cutoff, in any sequence of such statements from
    any reachable database; the expiry of its project deletes everything the
    tables hold for it as soon as it is finished, inactive and older than the
    cutoff. *)
Theorem other_statements_leave_operation pr op ss db (Hdb : reachable init step db)
    (Hss : Forall (leaves_alone pr op (get_checkpoint pr op db)) ss) :
  let db' := foldl (λ db s, exec s db) db ss in
  recorded pr op db' = recorded pr op db ∧
  ∀ now ttl r, get_checkpoint pr op db' = Some r →
    let after_expiry := recorded pr op (delete_expired_checkpoints now pr ttl db').2 in
    (not_expired (to_rfc3339 (now - from_secs ttl)) r → after_expiry = recorded pr op db) ∧
    (¬ not_expired (to_rfc3339 (now - from_secs ttl)) r → after_expiry = ([], [], [], [])).
Proof.
  intros db'. pose proof (invariant_reachable init step wf db Hdb) as Hw.
  pose proof (recorded_sequence pr op ss db Hw Hss) as Hr. split; [exact Hr|].
  assert (wf db') as Hw'.
  { clear Hr Hss. subst db'. revert db Hdb Hw. induction ss as [|s ss IH]; intros db Hdb Hw; [done|].
    apply IH; [|eapply invariant_step; [exact Hw|by exists s]].
    destruct Hdb as (d0 & Hi & Hd). exists d0. split; [done|]. eapply rtc_r; [exact Hd|by exists s]. }
  intros now ttl r Hg. split; intros Hx; [|by eapply delete_expired_all].
  rewrite <- Hr. apply (exec_recorded pr op (SDeleteExpired now pr ttl) db' Hw').
  intros _ r' Hg'. rewrite Hg in Hg'. by injection Hg' as <-.
Qed.

(** A created operation checkpoint reads back as it was written, with a
    fresh row id, no error and no failures counted (whatever the record said);
    every other operation reads as before, and the operation cannot be created
    a second time. *)
Theorem created_checkpoint_reads_back pr c db rowid db'
    (Hc : create_checkpoint pr c db = Ok (rowid, db')) :
  get_checkpoint pr (operation_id c) db = None ∧
  get_checkpoint pr (operation_id c) db' = Some (inserted_checkpoint rowid pr c) ∧
  (∀ pr' op, (pr', op) ≠ (pr, operation_id c) →
     get_checkpoint pr' op db' = get_checkpoint pr' op db) ∧
  (∀ c', operation_id c' = operation_id c →
     create_checkpoint pr c' db' = Err (Insert "checkpoint")).
Proof.
  unfold create_checkpoint in Hc. destruct (existsb _ _) eqn:E; [done|].
  destruct (checkpoint_ok _) eqn:Ec; simplify_eq.
  assert (get_checkpoint pr (operation_id c) db = None) as Hnone by by apply first_row_None.
  set (row := inserted_checkpoint _ pr c) in *.
  assert (of_operation pr (operation_id c) row = true) as Hrow by by apply of_operation_key.
  unfold get_checkpoint in *. simpl. split; [done|]. split; [|split].
  - by rewrite first_row_snoc, Hnone, Hrow.
  - intros pr' op Hne. rewrite first_row_snoc.
    destruct (first_row (of_operation pr' op) (checkpoints db)); [done|].
    destruct (of_operation pr' op row) eqn:Eo; [|done]. apply of_operation_key in Eo. unfold ckey in Eo; simpl in Eo.
    by destruct Hne.
  - intros c' Hid. unfold create_checkpoint. simpl. rewrite existsb_app, Hid. simpl.
    by rewrite Hrow, orb_true_r.
Qed.

(** A record that only touches columns that cannot be NULL. *)
Definition only_counts (f : FileCheckpointRecord) : Prop :=
  language f = None ∧ file_size f = None ∧ content_hash f = None ∧ parsed_data f = None ∧
  parse_error f = None ∧ summary_data f = None ∧ bm25_doc_id f = None ∧
  export_path f = None ∧ render_fingerprint f = None.

(** Writing a file checkpoint that exists merges it into its row: a column
    the writer leaves NULL keeps its value, so a write of [module_progress]
    alone preserves the parsed data, the summary and the fingerprints. The
    embedding count cannot be NULL and is overwritten by every such write. *)
Theorem file_upsert_merges now now' pr f db r
    (Hf : get_file_checkpoint pr (f_operation_id f) (file_path f) db = Some r)
    (Hb : has_batch pr (f_operation_id f) (f_batch_index f) db = true) :
  ∃ db', upsert_file_checkpoint now now' pr f db = Ok ((), db') ∧
    get_file_checkpoint pr (f_operation_id f) (file_path f) db' = Some (merge_file now f r) ∧
    (∀ op path, (op, path) ≠ (f_operation_id f, file_path f) →
       get_file_checkpoint pr op path db' = get_file_checkpoint pr op path db) ∧
    (only_counts f →
       language (merge_file now f r) = language r ∧
       content_hash (merge_file now f r) = content_hash r ∧
       parsed_data (merge_file now f r) = parsed_data r ∧
       summary_data (merge_file now f r) = summary_data r ∧
       render_fingerprint (merge_file now f r) = render_fingerprint r ∧
       embedding_count (merge_file now f r) = embedding_count f).
Proof.
  unfold get_file_checkpoint in Hf |- *. unfold upsert_file_checkpoint.
  destruct (first_row _ _) as [[pr0 r0]|] eqn:E; simplify_eq/=.
  pose proof (first_row_Some _ _ _ E) as [Hin Hp].
  assert (existsb (of_file pr (f_operation_id f) (file_path f)) (files db) = true) as ->.
  { apply existsb_exists. exists (pr0, r). split; [by apply list_elem_of_In|done]. }
  assert (∀ q : Z * FileCheckpointRecord, of_file pr (f_operation_id f) (file_path f) q = true →
    q.1 = pr ∧ f_operation_id q.2 = f_operation_id f) as Hq.
  { intros q Hq%of_file_key. unfold fkey in Hq. by simplify_eq. }
  unfold update_rows. rewrite (proj2 (forallb_forall _ _)).
  2: { intros q _. destruct (of_file _ _ _ q) eqn:Eq; [|done]. simpl.
       destruct (Hq q Eq) as [-> ->]. done. }
  eexists. split; [done|]. cbn [files set_files].
  assert (∀ op path q, of_file pr op path (q.1, merge_file now f q.2) = of_file pr op path q) as Hkey.
  { intros op path q. apply eq_true_iff_eq. by rewrite !of_file_key. }
  split; [|split].
  - rewrite first_row_update by done. rewrite E. cbn. by rewrite Hp.
  - intros op path Hne. rewrite first_row_update by done.
    destruct (first_row (of_file pr op path) (files db)) as [q|] eqn:Eq; [|done]. cbn.
    apply first_row_Some in Eq as [_ Hq'].
    destruct (of_file pr (f_operation_id f) (file_path f) q) eqn:Ef; [|done].
    apply of_file_key in Hq', Ef. unfold fkey in *. destruct Hne. congruence.
  - intros (E1 & _ & E2 & E3 & _ & E4 & _ & _ & E5). simpl. by rewrite E1, E2, E3, E4, E5.
Qed.

(** ** Names *)

Lemma kind_roundtrip k : kind_from_str (kind_as_str k) = Ok k.
Proof. by destruct k. Qed.

Lemma status_roundtrip s : status_from_str (status_as_str s) = Ok s.
Proof. by destruct s. Qed.

Lemma work_status_roundtrip s : work_status_from_str (work_status_as_str s) = Ok s.
Proof. by destruct s. Qed.

(** Validation against the operation kinds: a checkpoint of a known kind,
    with an operation id, a phase and timestamps as the repository writes
    them, is accepted unless its kind is a configuration change, which is
    rejected although it is a kind the repository stores and parses. *)
Theorem validation_rejects_config_changes k c t u
    (Hk : operation_type c = kind_as_str k) (Hid : operation_id c ≠ "")
    (Hphase : current_phase c ≠ "") (Hc : created_at c = to_rfc3339 t)
    (Hu : updated_at c = to_rfc3339 u) (Ht : in_rfc3339 t) (Hv : in_rfc3339 u)
    `{!Rfc3339Laws Stamp} :
  kind_from_str (operation_type c) = Ok k ∧
  validate_checkpoint c =
    match k with
    | ConfigChange => Err (Validation "Invalid operation_type: config_change")
    | _ => Ok ()
    end.
Proof.
  rewrite Hk. split; [apply kind_roundtrip|]. unfold validate_checkpoint.
  rewrite (bool_decide_false (operation_id c = "")), (bool_decide_false (current_phase c = "")) by done.
  rewrite Hk, Hc, Hu, !rfc3339_roundtrip by done. by destruct k.
Qed.

End store.
Arguments CheckpointRecord Stamp : clear implicits.
Arguments BatchCheckpointRecord Stamp : clear implicits.
Arguments FileCheckpointRecord Stamp : clear implicits.
Arguments WorkUnitCheckpointRecord Stamp : clear implicits.
Arguments Store Stamp : clear implicits.

(** ** Witnesses: instants as timestamps *)

#[local] Instance instant_stamps : Rfc3339 Z :=
  {| to_rfc3339 := λ t, t; parse_from_rfc3339 := Some; text_ltb := Z.ltb |}.

#[local] Instance instant_stamps_laws : Rfc3339Laws Z.
Proof. by split. Qed.

Definition sample_checkpoint (op kind : string) : CheckpointRecord Z :=
  {| id := None; project_id := 7; operation_id := op; operation_type := kind;
     root_dir := "/p"; total_files := 2; batch_size := 2; current_batch_index := 0;
     current_phase := "Scanning"; file_list_hash := None; created_at := 0; updated_at := 0;
     last_error := Some "old"; failure_count := 3; status := InProgress; active_flag := false;
     priority := 3; last_heartbeat := Some 0; failed_at := None |}.

Definition sample_batch : BatchCheckpointRecord Z :=
  {| b_id := None; b_operation_id := "op"; b_batch_index := 0; first_file := "a.rs";
     last_file := "b.rs"; file_count := 2; processed_files := 0; failed_files := 0;
     entities_extracted := 0; relations_found := 0; chunks_generated := 0;
     vectors_stored := 0; start_time := 1; end_time := None; duration_ms := None;
     b_created_at := 1; b_updated_at := 1 |}.

Definition sample_file (embeddings : Z) (parsed : option (list Z)) (progress : option string)
    : FileCheckpointRecord Z :=
  {| f_id := None; f_operation_id := "op"; f_batch_index := 0; file_path := "a.rs";
     file_id := None; language := None; file_size := None; content_hash := None;
     parsed_data := parsed; parse_error := None; summary_data := None;
     embedding_count := embeddings; bm25_doc_id := None; export_path := None;
     render_fingerprint := None; module_progress := progress;
     f_created_at := 2; f_updated_at := 2 |}.

Definition sample_store : Store Z :=
  foldl (λ db s, exec s db) empty_store
    [SCreate 7 (sample_checkpoint "op" "full_index"); SInsertBatch 7 sample_batch;
     SUpsertFile 2 2 7 (sample_file 12 (Some [1; 2]) None)].

Lemma sample_store_reachable : reachable init step sample_store.
Proof.
  exists empty_store. split; [done|]. unfold sample_store. cbn [foldl].
  eapply rtc_l; [eexists; reflexivity|]. eapply rtc_l; [eexists; reflexivity|].
  eapply rtc_once. eexists; reflexivity.
Qed.

(** Another operation of the project is created, finished and expired. *)
Definition other_statements : list (@statement Z) :=
  [SCreate 7 (sample_checkpoint "op2" "incremental"); SStatus 5 7 "op2" Completed;
   SStatus 6 8 "op" Failed; SDeleteExpired 9 7 0; SDeleteFiles 7 "op2"].

Lemma other_statements_leave_operation_witness :
  Forall (leaves_alone 7 "op" (get_checkpoint 7 "op" sample_store)) other_statements ∧
  recorded 7 "op" (foldl (λ db s, exec s db) sample_store other_statements) =
    recorded 7 "op" sample_store.
Proof.
  assert (Forall (leaves_alone 7 "op" (get_checkpoint 7 "op" sample_store)) other_statements) as Hss.
  { unfold other_statements.
    repeat (constructor;
      [first [discriminate
             | intros _ r Hr; left; vm_compute in Hr; by injection Hr as <-]|]).
    constructor. }
  split; [exact Hss|].
  exact (proj1 (other_statements_leave_operation 7 "op" other_statements sample_store
                  sample_store_reachable Hss)).
Defined.

Lemma created_checkpoint_reads_back_witness :
  let c := sample_checkpoint "op2" "incremental" in
  let db' := after (create_checkpoint 7 c sample_store) sample_store in
  get_checkpoint 7 (operation_id c) sample_store = None ∧
  get_checkpoint 7 (operation_id c) db' = Some (inserted_checkpoint 2 7 c) ∧
  (∀ pr' op, (pr', op) ≠ (7, operation_id c) →
     get_checkpoint pr' op db' = get_checkpoint pr' op sample_store) ∧
  (∀ c', operation_id c' = operation_id c →
     create_checkpoint 7 c' db' = Err (Insert "checkpoint")).
Proof.
  apply (created_checkpoint_reads_back 7 (sample_checkpoint "op2" "incremental") sample_store 2).
  vm_compute. reflexivity.
Defined.

Definition progress_write : FileCheckpointRecord Z := sample_file 0 None (Some "{}").
Definition stored_file : FileCheckpointRecord Z :=
  default progress_write (get_file_checkpoint 7 "op" "a.rs" sample_store).

Lemma file_upsert_merges_witness :
  ∃ db', upsert_file_checkpoint 3 3 7 progress_write sample_store = Ok ((), db') ∧
    get_file_checkpoint 7 "op" "a.rs" db' = Some (merge_file 3 progress_write stored_file) ∧
    (∀ op path, (op, path) ≠ ("op", "a.rs") →
       get_file_checkpoint 7 op path db' = get_file_checkpoint 7 op path sample_store) ∧
    (only_counts progress_write →
       language (merge_file 3 progress_write stored_file) = language stored_file ∧
       content_hash (merge_file 3 progress_write stored_file) = content_hash stored_file ∧
       parsed_data (merge_file 3 progress_write stored_file) = parsed_data stored_file ∧
       summary_data (merge_file 3 progress_write stored_file) = summary_data stored_file ∧
       render_fingerprint (merge_file 3 progress_write stored_file) =
         render_fingerprint stored_file ∧
       embedding_count (merge_file 3 progress_write stored_file) =
         embedding_count progress_write).
Proof.
  apply (file_upsert_merges 3 3 7 progress_write sample_store stored_file).
  - vm_compute. reflexivity.
  - vm_compute. reflexivity.
Defined.

Lemma validation_rejects_config_changes_witness :
  kind_from_str "config_change" = Ok ConfigChange ∧
  validate_checkpoint (sample_checkpoint "op3" "config_change") =
    Err (Validation "Invalid operation_type: config_change").
Proof.
  apply (validation_rejects_config_changes ConfigChange
           (sample_checkpoint "op3" "config_change") 0 0); try done;
    unfold in_rfc3339, from_secs, nanos_per_sec; lia.
Defined.

End CheckpointStore.
