(* ===== verification/CheckpointManager.v ===== *)
(** The checkpoint manager
    (crates/app/cce-orchestrator/src/operation/checkpoint/mod.rs): the
    transactions over the checkpoint tables that the operation runtime calls. *)

From S2P Require Import Prelude CheckpointStore.

Module CheckpointManager.
Import CheckpointStore.
#[local] Existing Instance instant_stamps.

Section manager.
Context {Stamp : Type} `{!Rfc3339 Stamp}.

(** A manager of the project [project]; the connection is always available, a
    transaction carries whether the driver lets it begin, run and commit. *)
Context (project : Z).

Abbreviation DB := (Store Stamp).

(** [new_for_project]; [None] is the failed assertion. *)
Definition new_for_project (p : Z) : option Z := if 0 <? p then Some p else None.

Definition transaction {A} (tx_ok : bool) (f : DB → result (A * DB) StorageError) (db : DB)
    : result A StorageError * DB :=
  if tx_ok then
    match f db with
    | Ok (a, db') => (Ok a, db')
    | Err e => (Err e, db)
    end
  else (Err Sqlite, db).

(** A statement outside of a transaction. *)
Definition statement_alone {A} (io_ok : bool) (e : StorageError) (f : DB → A * DB) (db : DB)
    : result A StorageError * DB :=
  if io_ok then (Ok (f db).1, (f db).2) else (Err e, db).

Definition discard {A} (r : result (A * DB) StorageError) : result (unit * DB) StorageError :=
  match r with Ok (_, db) => Ok ((), db) | Err e => Err e end.

(** A query: it may fail without a result. *)
Definition query {A} (io_ok : bool) (a : A) : result A StorageError :=
  if io_ok then Ok a else Err Query.

(** ** Creating *)

Record CreateCheckpointParams := {
  p_operation_id : string;
  p_operation_type : OperationKind;
  p_root_dir : string;
  p_total_files : Z;
  p_batch_size : Z;
  p_file_list_hash : string;
}.

Definition kind_priority (k : OperationKind) : Z :=
  match k with FullIndex => 3 | Incremental => 2 | HotUpdate => 1 | ConfigChange => 1 end.

Definition new_record (now : DateTime) (p : CreateCheckpointParams)
    : CheckpointRecord Stamp :=
  {| id := None; project_id := project; operation_id := p_operation_id p;
     operation_type := kind_as_str (p_operation_type p); root_dir := p_root_dir p;
     total_files := p_total_files p; batch_size := p_batch_size p;
     current_batch_index := 0; current_phase := "Scanning";
     file_list_hash := Some (p_file_list_hash p); created_at := to_rfc3339 now;
     updated_at := to_rfc3339 now; last_error := None; failure_count := 0;
     status := InProgress; active_flag := false;
     priority := kind_priority (p_operation_type p);
     last_heartbeat := Some (to_rfc3339 now); failed_at := None |}.

Definition create_checkpoint (tx_ok : bool) (now : DateTime) (p : CreateCheckpointParams)
    (db : DB) : result (CheckpointRecord Stamp) StorageError * DB :=
  let checkpoint := new_record now p in
  let '(r, db') := transaction tx_ok (CheckpointStore.create_checkpoint project checkpoint) db in
  (match r with Ok _ => Ok checkpoint | Err e => Err e end, db').

Definition new_batch (t1 t2 t3 : DateTime) (op : string) (i : Z) (first last : string)
    (count : Z) : BatchCheckpointRecord Stamp :=
  {| b_id := None; b_operation_id := op; b_batch_index := i; first_file := first;
     last_file := last; file_count := count; processed_files := 0; failed_files := 0;
     entities_extracted := 0; relations_found := 0; chunks_generated := 0;
     vectors_stored := 0; start_time := to_rfc3339 t1; end_time := None;
     duration_ms := None; b_created_at := to_rfc3339 t2; b_updated_at := to_rfc3339 t3 |}.

Definition create_batch_checkpoint (tx_ok : bool) (t1 t2 t3 : DateTime) (op : string) (i : Z)
    (first last : string) (count : Z) (db : DB)
    : result (BatchCheckpointRecord Stamp) StorageError * DB :=
  let batch := new_batch t1 t2 t3 op i first last count in
  let '(r, db') := transaction tx_ok (insert_batch_checkpoint project batch) db in
  (match r with Ok _ => Ok batch | Err e => Err e end, db').

(** In memory only: the record is written by [save_file_checkpoint]. *)
Definition create_file_checkpoint (t1 t2 : DateTime) (op : string) (i : Z) (path : string)
    : FileCheckpointRecord Stamp :=
  {| f_id := None; f_operation_id := op; f_batch_index := i; file_path := path;
     file_id := None; language := None; file_size := None; content_hash := None;
     parsed_data := None; parse_error := None; summary_data := None; embedding_count := 0;
     bm25_doc_id := None; export_path := None; render_fingerprint := None;
     module_progress := None; f_created_at := to_rfc3339 t1; f_updated_at := to_rfc3339 t2 |}.

Definition save_file_checkpoint (tx_ok : bool) (now now' : DateTime)
    (f : FileCheckpointRecord Stamp) : DB → result unit StorageError * DB :=
  transaction tx_ok (upsert_file_checkpoint now now' project f).

(** ** Reading *)

Definition get_file_checkpoint (io_ok : bool) (op path : string) (db : DB) :=
  query io_ok (CheckpointStore.get_file_checkpoint project op path db).

Definition get_checkpoint (io_ok : bool) (op : string) (db : DB) :=
  query io_ok (CheckpointStore.get_checkpoint project op db).

Definition get_batch_files (io_ok : bool) (op : string) (i : Z) (db : DB) :=
  query io_ok (CheckpointStore.get_batch_files project op i db).

Definition get_batch_checkpoint (io_ok : bool) (op : string) (i : Z) (db : DB) :=
  query io_ok (CheckpointStore.get_batch_checkpoint project op i db).

Definition get_failed_files (io_ok : bool) (op : string) (db : DB) :=
  query io_ok (CheckpointStore.get_failed_files project op db).

Definition get_unfinished_operations (io_ok : bool) (db : DB) :=
  query io_ok (CheckpointStore.get_unfinished_operations project db).

Definition validate_and_recover_checkpoint (io_ok : bool) (k : OperationKind)
    (root : string) (db : DB) : result (option (CheckpointRecord Stamp)) StorageError :=
  match query io_ok (get_latest_incomplete_by_type project (kind_as_str k) root db) with
  | Err e => Err e
  | Ok None => Ok None
  | Ok (Some c) =>
      match validate_checkpoint c with
      | Ok _ => Ok (Some c)
      | Err e => Err e
      end
  end.

(** ** Updating *)

Definition update_checkpoint_status (tx_ok : bool) (now : DateTime) (op : string)
    (s : CheckpointStatus) : DB → result unit StorageError * DB :=
  transaction tx_ok (λ db, discard (CheckpointStore.update_checkpoint_status now project op s db)).

Definition update_current_batch_index (tx_ok : bool) (now : DateTime) (op : string) (i : Z)
    : DB → result unit StorageError * DB :=
  transaction tx_ok (λ db, discard (CheckpointStore.update_current_batch_index now project op i db)).

(** The assignments of the two terminal transitions. *)
Definition completed_record (now : DateTime) (c : CheckpointRecord Stamp)
    : CheckpointRecord Stamp :=
  {| id := id c; project_id := project_id c; operation_id := operation_id c;
     operation_type := operation_type c; root_dir := root_dir c;
     total_files := total_files c; batch_size := batch_size c;
     current_batch_index := current_batch_index c; current_phase := current_phase c;
     file_list_hash := file_list_hash c; created_at := created_at c;
     updated_at := to_rfc3339 now; last_error := last_error c;
     failure_count := failure_count c; status := Completed;
     active_flag := active_flag c; priority := priority c;
     last_heartbeat := last_heartbeat c; failed_at := failed_at c |}.

Definition failed_record (now now' : DateTime) (error : string) (c : CheckpointRecord Stamp)
    : CheckpointRecord Stamp :=
  {| id := id c; project_id := project_id c; operation_id := operation_id c;
     operation_type := operation_type c; root_dir := root_dir c;
     total_files := total_files c; batch_size := batch_size c;
     current_batch_index := current_batch_index c; current_phase := current_phase c;
     file_list_hash := file_list_hash c; created_at := created_at c;
     updated_at := to_rfc3339 now; last_error := Some error;
     failure_count := failure_count c; status := Failed;
     active_flag := false; priority := priority c;
     last_heartbeat := last_heartbeat c; failed_at := Some (to_rfc3339 now') |}.

(** Rewrite the checkpoint of an operation inside one transaction; an unknown
    operation is skipped. *)
Definition rewrite (tx_ok : bool) (now : DateTime) (op : string)
    (f : CheckpointRecord Stamp → CheckpointRecord Stamp) (db : DB)
    : result unit StorageError * DB :=
  transaction tx_ok (λ db,
    match CheckpointStore.get_checkpoint project op db with
    | Some c => discard (update_checkpoint now project (f c) db)
    | None => Ok ((), db)
    end) db.

Definition mark_operation_completed (tx_ok : bool) (now now' : DateTime) (op : string)
    : DB → result unit StorageError * DB :=
  rewrite tx_ok now' op (completed_record now).

Definition mark_operation_failed (tx_ok : bool) (now now' now'' : DateTime)
    (op error : string) : DB → result unit StorageError * DB :=
  rewrite tx_ok now'' op (failed_record now now' error).

(** ** Deleting *)

Definition delete_checkpoint_files_by_operation_id (io_ok : bool) (op : string) :=
  statement_alone io_ok (Delete "checkpoint_file")
    (CheckpointStore.delete_checkpoint_files_by_operation_id project op).

Definition delete_checkpoint_batches_by_operation_id (io_ok : bool) (op : string) :=
  statement_alone io_ok (Delete "checkpoint_batch")
    (CheckpointStore.delete_checkpoint_batches_by_operation_id project op).

Definition delete_work_units_by_operation_id (io_ok : bool) (op : string) :=
  statement_alone io_ok (Delete "work_unit_checkpoint")
    (CheckpointStore.delete_work_units_by_operation_id project op).

Definition clear_module_progress (io_ok : bool) (now : DateTime) (op : string) :=
  statement_alone io_ok (Update "checkpoint_file")
    (CheckpointStore.clear_module_progress now project op).

(** ** Work units *)

(** The message of the mismatch names the two projects. *)
Definition project_mismatch : StorageError := Validation "project_id mismatch".

Definition insert_work_unit (tx_ok : bool) (r : WorkUnitCheckpointRecord Stamp) (db : DB)
    : result Z StorageError * DB :=
  if negb (w_project_id r =? project) then (Err project_mismatch, db)
  else transaction tx_ok (CheckpointStore.insert_work_unit r) db.

Fixpoint insert_all (rs : list (WorkUnitCheckpointRecord Stamp)) (db : DB)
    : result (unit * DB) StorageError :=
  match rs with
  | [] => Ok ((), db)
  | r :: rs =>
      match CheckpointStore.insert_work_unit r db with
      | Ok (_, db') => insert_all rs db'
      | Err e => Err e
      end
  end.

Definition insert_work_units (tx_ok : bool) (rs : list (WorkUnitCheckpointRecord Stamp))
    (db : DB) : result unit StorageError * DB :=
  if bool_decide (rs = []) then (Ok (), db)
  else if existsb (λ r, negb (w_project_id r =? project)) rs then (Err project_mismatch, db)
  else transaction tx_ok (insert_all rs) db.

Definition update_work_unit_status (tx_ok : bool) (now : DateTime) (op st hash : string)
    (s : WorkUnitStatus) : DB → result unit StorageError * DB :=
  transaction tx_ok
    (λ db, Ok ((), CheckpointStore.update_work_unit_status now project op st hash s db)).

(** Each statement of the loop reads the clock. *)
Definition update_work_unit_statuses (tx_ok : bool) (op st : string)
    (hashes : list (string * DateTime)) (s : WorkUnitStatus) (db : DB)
    : result unit StorageError * DB :=
  if bool_decide (hashes = []) then (Ok (), db)
  else transaction tx_ok (λ db,
    Ok ((), foldl (λ db '(hash, now),
              CheckpointStore.update_work_unit_status now project op st hash s db) db hashes)) db.

Definition get_work_units (io_ok : bool) (op st : string) (db : DB) :=
  query io_ok (CheckpointStore.get_work_units project op st db).

Definition get_work_unit_by_hash (io_ok : bool) (op st hash : string) (db : DB) :=
  query io_ok (CheckpointStore.get_work_unit_by_hash project op st hash db).

(** ** Terminal checkpoints *)

Lemma update_checkpoint_spec (now : DateTime) (c : CheckpointRecord Stamp) (db : DB)
    (r : CheckpointRecord Stamp) :
  get_checkpoint true (operation_id c) db = Ok (Some r) → wf db →
  checkpoint_ok c = true →
  ∃ db', update_checkpoint now project c db = Ok (count_if (of_operation project (operation_id c)) (checkpoints db), db') ∧
    CheckpointStore.get_checkpoint project (operation_id c) db' = Some (overwrite now c r) ∧
    checkpoints db' = map (λ r, if of_operation project (operation_id c) r then overwrite now c r
                                else r) (checkpoints db) ∧
    (∀ pr op, (pr, op) ≠ (project, operation_id c) →
       CheckpointStore.get_checkpoint pr op db' = CheckpointStore.get_checkpoint pr op db).
Proof.
  unfold get_checkpoint, query. intros [= Hr] Hwf Hok.
  destruct (update_operation_spec project (operation_id c) (overwrite now c) db)
    as (db' & Hup & Hrows & Hget); [done|done|].
  exists db'. split; [exact Hup|]. split; [|split; [exact Hrows|]].
  - by rewrite Hget, Hr, bool_decide_true.
  - intros pr op Hne. rewrite Hget, bool_decide_false by done.
    by destruct (CheckpointStore.get_checkpoint pr op db).
Qed.

Lemma unfinished_elem (pr : Z) (db : DB) (c : CheckpointRecord Stamp) :
  c ∈ CheckpointStore.get_unfinished_operations pr db ↔
  ∃ r, r ∈ checkpoints db ∧ in_progress pr r = true ∧ c = without_failed_at r.
Proof.
  unfold CheckpointStore.get_unfinished_operations. rewrite list_elem_of_fmap.
  setoid_rewrite elem_of_sort_by. setoid_rewrite elem_of_retain. naive_solver.
Qed.

Lemma rewrite_spec (now : DateTime) (op : string)
    (f : CheckpointRecord Stamp → CheckpointRecord Stamp) (db : DB) (r : CheckpointRecord Stamp) :
  wf db → CheckpointStore.get_checkpoint project op db = Some r →
  (operation_id (f r) = op) → checkpoint_ok (f r) = true →
  (rewrite true now op f db).1 = Ok () ∧ wf (rewrite true now op f db).2 ∧
  CheckpointStore.get_checkpoint project op (rewrite true now op f db).2 =
    Some (overwrite now (f r) r) ∧
  (∀ pr op', (pr, op') ≠ (project, op) →
     CheckpointStore.get_checkpoint pr op' (rewrite true now op f db).2 =
     CheckpointStore.get_checkpoint pr op' db) ∧
  (status (f r) ≠ InProgress → ∀ c,
     c ∈ CheckpointStore.get_unfinished_operations project (rewrite true now op f db).2 →
     operation_id c ≠ op).
Proof.
  intros Hwf Hr Hop Hok. unfold rewrite, transaction. rewrite Hr.
  destruct (update_checkpoint_spec now (f r) db r) as (db' & Hup & Hget & Hrows & Hother);
    [by rewrite Hop; unfold get_checkpoint; rewrite Hr|done|done|].
  rewrite Hup. rewrite Hop in *. simpl. split; [done|]. split.
  { apply (update_where_wf (of_operation project op) (overwrite now (f r)) db
      (count_if (of_operation project op) (checkpoints db))); [done| |done].
    by rewrite <- Hup, <- Hop. }
  split; [done|]. split; [done|].
  intros Hst c (r0 & Hin & Hp & ->)%unfinished_elem Heq. simpl in Heq.
  rewrite Hrows in Hin. apply list_elem_of_fmap in Hin as (r1 & -> & Hin).
  unfold in_progress in Hp. apply andb_true_iff in Hp as [Hpr Hs].
  apply bool_decide_eq_true in Hpr, Hs.
  destruct (of_operation project op r1) eqn:E; [done|].
  apply not_true_iff_false in E. apply E. apply of_operation_key. unfold ckey. congruence.
Qed.

Lemma stored_ok (db : DB) (op : string) (r : CheckpointRecord Stamp) :
  wf db → CheckpointStore.get_checkpoint project op db = Some r →
  operation_id r = op ∧ checkpoint_ok r = true.
Proof.
  intros ((_ & Hok) & _) [Hin Hp]%first_row_Some. apply of_operation_key in Hp.
  split; [by injection Hp|]. rewrite Forall_forall in Hok. auto.
Qed.

Lemma mark_failed_spec (db : DB) (op : string) (r : CheckpointRecord Stamp)
    (t1 t2 t3 : DateTime) (error : string) :
  let res := mark_operation_failed true t1 t2 t3 op error db in
  wf db → CheckpointStore.get_checkpoint project op db = Some r →
  res = (Ok (), res.2) ∧ wf res.2 ∧
  (∃ r', CheckpointStore.get_checkpoint project op res.2 = Some r' ∧ status r' = Failed ∧
         last_error r' = Some error ∧ active_flag r' = false) ∧
  (∀ pr op', (pr, op') ≠ (project, op) →
     CheckpointStore.get_checkpoint pr op' res.2 = CheckpointStore.get_checkpoint pr op' db).
Proof.
  intros res Hwf Hr. destruct (stored_ok db op r Hwf Hr) as [Hid Hok].
  destruct (rewrite_spec t3 op (failed_record t1 t2 error) db r) as (H1 & H2 & H3 & H4 & _);
    try done.
  split; [by apply injective_projections|]. split; [done|].
  split; [eexists; split; [exact H3|done]|exact H4].
Qed.

Lemma mark_completed_spec (db : DB) (op : string) (r : CheckpointRecord Stamp)
    (t1 t2 : DateTime) :
  let res := mark_operation_completed true t1 t2 op db in
  wf db → CheckpointStore.get_checkpoint project op db = Some r →
  res = (Ok (), res.2) ∧
  (∃ r', CheckpointStore.get_checkpoint project op res.2 = Some r' ∧ status r' = Completed ∧
         active_flag r' = active_flag r) ∧
  (∀ pr op', (pr, op') ≠ (project, op) →
     CheckpointStore.get_checkpoint pr op' res.2 = CheckpointStore.get_checkpoint pr op' db).
Proof.
  intros res Hwf Hr. destruct (stored_ok db op r Hwf Hr) as [Hid Hok].
  destruct (rewrite_spec t2 op (completed_record t1) db r) as (H1 & _ & H3 & H4 & _); try done.
  split; [by apply injective_projections|].
  split; [eexists; split; [exact H3|done]|exact H4].
Qed.

(** ** The unfinished operations *)

Lemma unfinished_stored (db : DB) (c : CheckpointRecord Stamp) :
  wf db → c ∈ CheckpointStore.get_unfinished_operations project db →
  ∃ r, CheckpointStore.get_checkpoint project (operation_id c) db = Some r ∧
       status r = InProgress ∧ c = without_failed_at r.
Proof.
  intros ((Hn & _) & _) (r & Hin & Hp & ->)%unfinished_elem. exists r.
  unfold in_progress in Hp. apply andb_true_iff in Hp as [Hpr Hs].
  apply bool_decide_eq_true in Hpr, Hs. split; [|done].
  apply (first_row_unique ckey _ (project, operation_id r)); [|done|].
  - intros. apply of_operation_key.
  - split; [done|]. unfold ckey. by rewrite Hpr.
Qed.

Lemma unfinished_nodup (db : DB) :
  wf db → NoDup (map operation_id (CheckpointStore.get_unfinished_operations project db)).
Proof.
  intros ((Hn & _) & _). unfold CheckpointStore.get_unfinished_operations.
  rewrite sort_by_perm, <- list_fmap_compose.
  apply (NoDup_fmap_1 (λ op, (project, op))). rewrite <- list_fmap_compose.
  assert (∀ l, (λ op, (project, op)) ∘ (operation_id ∘ without_failed_at) <$>
            retain (in_progress project) l = map ckey (retain (in_progress project) l)) as ->.
  { intros l. apply list_fmap_ext. intros _ r Hr%list_elem_of_lookup_2.
    apply elem_of_retain in Hr as [_ [Hp _]%andb_true_iff]. apply bool_decide_eq_true in Hp.
    unfold ckey. simpl. by rewrite Hp. }
  by apply NoDup_map_retain.
Qed.

(** Marking an operation completed or failed takes it off the list of
    unfinished operations that recovery replays and leaves every other
    operation as it was. A failed operation loses its active flag and records
    the error; a completed one keeps the flag as it is, so the flag has to be
    cleared separately. *)
Theorem terminal_operations_not_replayed (db : DB) (op : string)
    (r : CheckpointRecord Stamp) (t1 t2 t3 : DateTime) (error : string)
    (Hr : reachable init step db)
    (Hget : CheckpointStore.get_checkpoint project op db = Some r) :
  let completed := mark_operation_completed true t1 t2 op db in
  let failed := mark_operation_failed true t1 t2 t3 op error db in
  completed.1 = Ok () ∧ failed.1 = Ok () ∧
  (∀ c, c ∈ CheckpointStore.get_unfinished_operations project completed.2 ∨
        c ∈ CheckpointStore.get_unfinished_operations project failed.2 → operation_id c ≠ op) ∧
  (∀ pr op', (pr, op') ≠ (project, op) →
     CheckpointStore.get_checkpoint pr op' completed.2 = CheckpointStore.get_checkpoint pr op' db ∧
     CheckpointStore.get_checkpoint pr op' failed.2 = CheckpointStore.get_checkpoint pr op' db) ∧
  (∃ c, CheckpointStore.get_checkpoint project op completed.2 = Some c ∧
        status c = Completed ∧ active_flag c = active_flag r) ∧
  (∃ c, CheckpointStore.get_checkpoint project op failed.2 = Some c ∧
        status c = Failed ∧ active_flag c = false ∧ last_error c = Some error ∧
        failed_at c = Some (to_rfc3339 t2)).
Proof.
  pose proof (invariant_reachable init step wf db Hr) as Hwf.
  destruct (stored_ok db op r Hwf Hget) as [Hid Hok].
  destruct (rewrite_spec t2 op (completed_record t1) db r) as (Hc1 & _ & Hc2 & Hc3 & Hc4); try done.
  destruct (rewrite_spec t3 op (failed_record t1 t2 error) db r) as (Hf1 & _ & Hf2 & Hf3 & Hf4);
    try done.
  split; [done|]. split; [done|]. split.
  { intros c [Hc|Hc]; [by apply Hc4|by apply Hf4]. }
  split; [intros; split; [by apply Hc3|by apply Hf3]|].
  split; [eexists; split; [exact Hc2|done]|]. eexists. by split; [exact Hf2|].
Qed.

(** ** Batches of work units *)

Lemma insert_all_spec (rs : list (WorkUnitCheckpointRecord Stamp)) (db db' : DB) :
  insert_all rs db = Ok ((), db') →
  length (work_units db') = (length (work_units db) + length rs)%nat ∧
  (∀ r, r ∈ work_units db → r ∈ work_units db') ∧
  (∀ r, r ∈ rs → ukey r ∈ map ukey (work_units db')).
Proof.
  revert db. induction rs as [|r rs IH]; intros db; simpl.
  { intros [= <-]. split; [lia|]. split; [done|]. by intros ? ?%not_elem_of_nil. }
  destruct (CheckpointStore.insert_work_unit r db) as [[rowid db1]|] eqn:E; [|done].
  intros H. destruct (IH db1 H) as (Hl & Hold & Hnew). clear IH.
  unfold CheckpointStore.insert_work_unit in E.
  destruct (existsb _ _); [done|]. destruct (has_checkpoint _ _ _); [|done]. simplify_eq.
  simpl in *. rewrite length_app in Hl. simpl in Hl. split; [lia|]. split.
  - intros x Hx. apply Hold, elem_of_app. by left.
  - intros x [->|Hx]%elem_of_cons; [|by apply Hnew].
    apply list_elem_of_fmap. eexists. split; [|apply Hold, elem_of_app; right; by left]. done.
Qed.

(** A batch of work units is written all or nothing: on success every unit
    of the batch is in the table and no unit is lost; on any error, a foreign
    project, a duplicate, a missing operation or a failing transaction, the
    database is exactly as before. *)
Theorem work_unit_batches_are_atomic (tx_ok : bool)
    (rs : list (WorkUnitCheckpointRecord Stamp)) (db : DB) :
  let res := insert_work_units tx_ok rs db in
  match res.1 with
  | Ok _ => (∀ r, r ∈ work_units db → r ∈ work_units res.2) ∧
            (∀ r, r ∈ rs → ukey r ∈ map ukey (work_units res.2) ∧ w_project_id r = project)
  | Err _ => res.2 = db
  end.
Proof.
  unfold insert_work_units. case_bool_decide as Hnil; simpl.
  { split; [done|]. subst. by intros ? ?%not_elem_of_nil. }
  destruct (existsb _ rs) eqn:E; simpl; [done|].
  unfold transaction. destruct tx_ok; simpl; [|done].
  destruct (insert_all rs db) as [[[] db']|] eqn:Ei; simpl; [|done].
  apply insert_all_spec in Ei as (_ & Hold & Hnew). split; [done|].
  intros r Hr. split; [by apply Hnew|].
  destruct (w_project_id r =? project) eqn:Ep; [by apply Z.eqb_eq|].
  exfalso. apply not_true_iff_false in E. apply E, existsb_exists.
  exists r. split; [by apply list_elem_of_In|]. by rewrite Ep.
Qed.

End manager.

Lemma terminal_operations_not_replayed_witness :
  let r := inserted_checkpoint 1 7 (sample_checkpoint "op" "full_index") in
  let completed := mark_operation_completed 7 true 5 6 "op" sample_store in
  let failed := mark_operation_failed 7 true 5 6 7 "op" "disk full" sample_store in
  completed.1 = Ok () ∧ failed.1 = Ok () ∧
  (∀ c, c ∈ CheckpointStore.get_unfinished_operations 7 completed.2 ∨
        c ∈ CheckpointStore.get_unfinished_operations 7 failed.2 → operation_id c ≠ "op") ∧
  (∀ pr op', (pr, op') ≠ (7, "op") →
     CheckpointStore.get_checkpoint pr op' completed.2 =
       CheckpointStore.get_checkpoint pr op' sample_store ∧
     CheckpointStore.get_checkpoint pr op' failed.2 =
       CheckpointStore.get_checkpoint pr op' sample_store) ∧
  (∃ c, CheckpointStore.get_checkpoint 7 "op" completed.2 = Some c ∧
        status c = Completed ∧ active_flag c = active_flag r) ∧
  (∃ c, CheckpointStore.get_checkpoint 7 "op" failed.2 = Some c ∧
        status c = Failed ∧ active_flag c = false ∧ last_error c = Some "disk full" ∧
        failed_at c = Some (to_rfc3339 6)).
Proof.
  apply (terminal_operations_not_replayed 7 sample_store "op"
           (inserted_checkpoint 1 7 (sample_checkpoint "op" "full_index")) 5 6 7 "disk full"
           sample_store_reachable).
  vm_compute. reflexivity.
Defined.

End CheckpointManager.
