(* ===== verification/OperationQueue.v ===== *)
(** The operation queue
    (crates/app/cce-orchestrator/src/operation/queue.rs): the bounded priority
    queue of pending operations and the single active slot, whose flag is kept
    in the checkpoint table. *)

From Stdlib Require Import Sorted.
From S2P Require Import Prelude CheckpointStore CheckpointManager.

Module OperationQueue.
Import CheckpointStore.
#[local] Existing Instance instant_stamps.

Definition MAX_PENDING_OPERATIONS : nat := 64.

Inductive OperationPriority := PFullIndex | PIncremental | PHotUpdate.

#[export] Instance OperationPriority_eq_dec : EqDecision OperationPriority.
Proof. solve_decision. Defined.

Definition as_i32 (p : OperationPriority) : Z :=
  match p with PFullIndex => 3 | PIncremental => 2 | PHotUpdate => 1 end.

Definition from_i32 (z : Z) : option OperationPriority :=
  if z =? 1 then Some PHotUpdate
  else if z =? 2 then Some PIncremental
  else if z =? 3 then Some PFullIndex
  else None.

Section queue.
Context {Stamp : Type} `{!Rfc3339 Stamp}.

Abbreviation DB := (Store Stamp).

Record PendingOperation := {
  p_project_id : Z;
  p_operation_id : string;
  p_operation_type : OperationKind;
  p_priority : OperationPriority;
  p_root_dir : string;
  p_created_at : Stamp;
  p_status : string;
}.

Record ActiveOperation := {
  a_project_id : Z;
  a_operation_id : string;
  a_operation_type : OperationKind;
  a_priority : OperationPriority;
  a_started_at : Stamp;
  a_root_dir : string;
}.

Definition to_pending (a : ActiveOperation) : PendingOperation :=
  {| p_project_id := a_project_id a; p_operation_id := a_operation_id a;
     p_operation_type := a_operation_type a; p_priority := a_priority a;
     p_root_dir := a_root_dir a; p_created_at := a_started_at a; p_status := "active" |}.

Record OperationQueue := {
  project : Z;
  active : option ActiveOperation;
  pending : list PendingOperation;
}.

(** [None] is the failed assertion. *)
Definition new_for_project (p : Z) : option OperationQueue :=
  if 0 <? p then Some {| project := p; active := None; pending := [] |} else None.

Definition set_active (a : option ActiveOperation) (q : OperationQueue) : OperationQueue :=
  {| project := project q; active := a; pending := pending q |}.

Definition set_pending (l : list PendingOperation) (q : OperationQueue) : OperationQueue :=
  {| project := project q; active := active q; pending := l |}.

(** ** Loading the persisted operation *)

Definition active_of_record (r : CheckpointRecord Stamp) : result ActiveOperation StorageError :=
  match kind_from_str (operation_type r) with
  | Err e => Err (Validation ("Invalid operation_type: " +:+ e))
  | Ok k =>
      match from_i32 (priority r) with
      | None => Err (Validation "Invalid priority value")
      | Some p =>
          Ok {| a_project_id := project_id r; a_operation_id := operation_id r;
                a_operation_type := k; a_priority := p; a_started_at := created_at r;
                a_root_dir := root_dir r |}
      end
  end.

Definition load_persisted_active (io_ok : bool) (q : OperationQueue) (db : DB)
    : result (option ActiveOperation) StorageError * OperationQueue :=
  if io_ok then
    match get_active_checkpoint (project q) db with
    | None => (Ok None, q)
    | Some r =>
        match active_of_record r with
        | Ok a => (Ok (Some a), set_active (Some a) q)
        | Err e => (Err e, q)
        end
    end
  else (Err Query, q).

(** ** Enqueueing *)

Definition same_request (a b : PendingOperation) : bool :=
  bool_decide (p_operation_type a = p_operation_type b) &&
  bool_decide (p_root_dir a = p_root_dir b).

Definition higher (a b : PendingOperation) : bool :=
  as_i32 (p_priority b) <? as_i32 (p_priority a).

Definition insert_by_priority (op : PendingOperation) (l : list PendingOperation)
    : list PendingOperation :=
  match position (higher op) l with
  | Some idx => insert_at idx op l
  | None => l ++ [op]
  end.

Definition drop_over_capacity (l : list PendingOperation) : list PendingOperation :=
  if (MAX_PENDING_OPERATIONS <? length l)%nat then
    match last l with
    | None => l
    | Some b =>
        match position (λ op, bool_decide (p_priority op = p_priority b)) l with
        | None => l
        | Some dropped_pos => remove_at dropped_pos l
        end
    end
  else l.

Definition new_op (now : DateTime) (p : Z) (op : string) (k : OperationKind) (root : string)
    (prio : OperationPriority) : PendingOperation :=
  {| p_project_id := p; p_operation_id := op; p_operation_type := k; p_priority := prio;
     p_root_dir := root; p_created_at := to_rfc3339 now; p_status := "pending" |}.

Definition enqueue (now : DateTime) (op : string) (k : OperationKind) (root : string)
    (prio : OperationPriority) (q : OperationQueue) : OperationQueue :=
  let new := new_op now (project q) op k root prio in
  let deduped := retain (λ o, negb (same_request o new)) (pending q) in
  set_pending (drop_over_capacity (insert_by_priority new deduped)) q.

(** ** Dequeueing

    The reservation of the active slot, the transaction and the rollback are
    separate critical sections. *)

Definition activate (now : DateTime) (p : Z) (op : PendingOperation) : ActiveOperation :=
  {| a_project_id := p; a_operation_id := p_operation_id op;
     a_operation_type := p_operation_type op; a_priority := p_priority op;
     a_started_at := to_rfc3339 now; a_root_dir := p_root_dir op |}.

Definition dequeue_reserve (now : DateTime) (q : OperationQueue)
    : option (PendingOperation * OperationQueue) :=
  match active q with
  | Some _ => None
  | None =>
      match pending q with
      | [] => None
      | next :: rest =>
          Some (next, {| project := project q;
                         active := Some (activate now (project q) next);
                         pending := rest |})
      end
  end.

Definition dequeue_persist (tx_ok : bool) (now : DateTime) (p : Z) (next : PendingOperation)
    : DB → result unit StorageError * DB :=
  CheckpointManager.transaction tx_ok (λ db,
    CheckpointManager.discard
      (set_active_flag now p (p_operation_id next) (as_i32 (p_priority next)) db)).

Definition dequeue_rollback (next : PendingOperation) (q : OperationQueue) : OperationQueue :=
  {| project := project q; active := None; pending := next :: pending q |}.

(** The whole call, when nothing else touches the queue meanwhile. *)
Definition dequeue (tx_ok : bool) (now now' : DateTime) (q : OperationQueue) (db : DB)
    : result (option PendingOperation) StorageError * OperationQueue * DB :=
  match dequeue_reserve now q with
  | None => (Ok None, q, db)
  | Some (next, q') =>
      match dequeue_persist tx_ok now' (project q) next db with
      | (Ok _, db') => (Ok (Some next), q', db')
      | (Err e, db') => (Err e, dequeue_rollback next q', db')
      end
  end.

(** ** The active operation *)

Definition heartbeat (io_ok : bool) (now : DateTime) (op : string) (q : OperationQueue)
    (db : DB) : result unit StorageError * DB :=
  if io_ok then
    match update_heartbeat now (project q) op db with
    | Ok (_, db') => (Ok (), db')
    | Err e => (Err e, db)
    end
  else (Err (Update "checkpoint"), db).

Definition clear_flag (tx_ok : bool) (now : DateTime) (p : Z) (op : string)
    : DB → result unit StorageError * DB :=
  CheckpointManager.transaction tx_ok (λ db,
    CheckpointManager.discard (clear_active_flag now p op db)).

(** The slot is taken before the transaction. *)
Definition complete_active (tx_ok : bool) (now : DateTime) (q : OperationQueue) (db : DB)
    : result (option ActiveOperation) StorageError * OperationQueue * DB :=
  match active q with
  | None => (Ok None, q, db)
  | Some completed =>
      let q' := set_active None q in
      match clear_flag tx_ok now (project q) (a_operation_id completed) db with
      | (Ok _, db') => (Ok (Some completed), q', db')
      | (Err e, db') => (Err e, q', db')
      end
  end.

Definition is_operation (op : string) (a : option ActiveOperation) : bool :=
  match a with Some a => bool_decide (a_operation_id a = op) | None => false end.

Definition clear_active_by_operation (tx_ok : bool) (now : DateTime) (op : string)
    (q : OperationQueue) (db : DB) : result unit StorageError * OperationQueue * DB :=
  let q' := if is_operation op (active q) then set_active None q else q in
  let '(r, db') := clear_flag tx_ok now (project q) op db in
  (r, q', db').

Definition get_active (q : OperationQueue) : option ActiveOperation := active q.
Definition peek_pending (q : OperationQueue) : list PendingOperation := pending q.

Definition queue_size (q : OperationQueue) : nat :=
  (match active q with Some _ => 1 | None => 0 end + length (pending q))%nat.

Definition cancel_pending (op : string) (q : OperationQueue)
    : option PendingOperation * OperationQueue :=
  match position (λ o, bool_decide (p_operation_id o = op)) (pending q) with
  | Some pos => (pending q !! pos, set_pending (remove_at pos (pending q)) q)
  | None => (None, q)
  end.

Definition clear_pending (q : OperationQueue) : OperationQueue := set_pending [] q.

Definition active_of_kind (k : OperationKind) (q : OperationQueue) : bool :=
  match active q with Some a => bool_decide (a_operation_type a = k) | None => false end.

Definition has_active_full_index (q : OperationQueue) : bool := active_of_kind FullIndex q.

Definition has_pending_hot_update (q : OperationQueue) : bool :=
  if active_of_kind HotUpdate q then true
  else existsb (λ o, bool_decide (p_operation_type o = HotUpdate)) (pending q).

(** [query_ok] is the outcome of the query that follows the update. *)
Definition cleanup_stale_operations (io_ok query_ok : bool) (now now' : DateTime)
    (stale_threshold_secs : Z) (q : OperationQueue) (db : DB)
    : result Z StorageError * OperationQueue * DB :=
  if io_ok then
    match cleanup_stale_active now now' (project q) stale_threshold_secs db with
    | Err e => (Err e, q, db)
    | Ok (cleared, db') =>
        if 0 <? cleared then
          if query_ok then
            let db_active := get_active_checkpoint (project q) db' in
            let q' :=
              match active q with
              | None => q
              | Some mem =>
                  if match db_active with
                     | Some r => bool_decide (operation_id r = a_operation_id mem)
                     | None => false
                     end
                  then q else set_active None q
              end in
            (Ok cleared, q', db')
          else (Err Query, q, db')
        else (Ok cleared, q, db')
    end
  else (Err (Update "checkpoint"), q, db).

(** ** The queue as a transition system *)

Inductive call :=
| CLoad (io_ok : bool)
| CEnqueue (now : DateTime) (op : string) (k : OperationKind) (root : string)
    (prio : OperationPriority)
| CDequeue (tx_ok : bool) (now now' : DateTime)
| CHeartbeat (io_ok : bool) (now : DateTime) (op : string)
| CComplete (tx_ok : bool) (now : DateTime)
| CClearActive (tx_ok : bool) (now : DateTime) (op : string)
| CCancel (op : string)
| CClearPending
| CCleanup (io_ok query_ok : bool) (now now' : DateTime) (secs : Z).

Definition run (c : call) (s : OperationQueue * DB) : OperationQueue * DB :=
  let '(q, db) := s in
  match c with
  | CLoad io_ok => ((load_persisted_active io_ok q db).2, db)
  | CEnqueue now op k root prio => (enqueue now op k root prio q, db)
  | CDequeue tx_ok now now' => let '(_, q', db') := dequeue tx_ok now now' q db in (q', db')
  | CHeartbeat io_ok now op => (q, (heartbeat io_ok now op q db).2)
  | CComplete tx_ok now => let '(_, q', db') := complete_active tx_ok now q db in (q', db')
  | CClearActive tx_ok now op =>
      let '(_, q', db') := clear_active_by_operation tx_ok now op q db in (q', db')
  | CCancel op => ((cancel_pending op q).2, db)
  | CClearPending => (clear_pending q, db)
  | CCleanup io_ok query_ok now now' secs =>
      let '(_, q', db') := cleanup_stale_operations io_ok query_ok now now' secs q db in (q', db')
  end.

Definition step (s s' : OperationQueue * DB) : Prop := ∃ c, s' = run c s.
Definition init (s : OperationQueue * DB) : Prop := ∃ p, new_for_project p = Some s.1.

(** Descending priority, one request per kind and root, bounded. *)
Definition not_higher (a b : PendingOperation) : Prop :=
  as_i32 (p_priority b) ≤ as_i32 (p_priority a).

Definition request (o : PendingOperation) : OperationKind * string :=
  (p_operation_type o, p_root_dir o).

Definition queue_ok (q : OperationQueue) : Prop :=
  StronglySorted not_higher (pending q) ∧ NoDup (map request (pending q)) ∧
  (length (pending q) ≤ MAX_PENDING_OPERATIONS)%nat.

(** ** Lists *)

Lemma sorted_sublist {A} (R : A → A → Prop) (l k : list A) :
  l `sublist_of` k → StronglySorted R k → StronglySorted R l.
Proof.
  induction 1 as [|x l k Hs IH|x l k Hs IH]; intros Hk; [constructor| |].
  - apply StronglySorted_inv in Hk as [Hk Hx]. constructor; [by apply IH|].
    rewrite Forall_forall in *. intros y Hy. apply Hx.
    by eapply elem_of_submseteq; [|apply sublist_submseteq].
  - apply StronglySorted_inv in Hk as [Hk _]. by apply IH.
Qed.

Lemma sorted_app {A} (R : A → A → Prop) (l k : list A) :
  StronglySorted R l → StronglySorted R k → (∀ x y, x ∈ l → y ∈ k → R x y) →
  StronglySorted R (l ++ k).
Proof.
  induction 1 as [|x l Hl IH Hx]; intros Hk HR; [done|]. simpl. constructor.
  - apply IH; [done|]. intros. apply HR; [by right|done].
  - rewrite Forall_app. split; [done|]. apply Forall_forall. intros. apply HR; [by left|done].
Qed.

Lemma remove_at_sublist {A} i (l : list A) : remove_at i l `sublist_of` l.
Proof.
  revert i. induction l as [|x l IH]; intros [|i]; simpl; try constructor; done.
Qed.

Lemma higher_spec (a b : PendingOperation) :
  higher a b = true ↔ as_i32 (p_priority b) < as_i32 (p_priority a).
Proof. apply Z.ltb_lt. Qed.

Lemma not_higher_spec (a b : PendingOperation) :
  higher a b = false ↔ as_i32 (p_priority a) ≤ as_i32 (p_priority b).
Proof. apply Z.ltb_ge. Qed.

(** The place of a new operation in an ordered queue. *)
Definition keep_before (op : PendingOperation) (l : list PendingOperation) :=
  retain (λ o, negb (higher op o)) l.
Definition keep_after (op : PendingOperation) (l : list PendingOperation) :=
  retain (higher op) l.

Lemma insert_by_priority_split (op : PendingOperation) (l : list PendingOperation) :
  StronglySorted not_higher l →
  insert_by_priority op l = keep_before op l ++ op :: keep_after op l ∧
  l = keep_before op l ++ keep_after op l.
Proof.
  intros Hs. unfold insert_by_priority, keep_before, keep_after.
  destruct (position (higher op) l) as [i|] eqn:E.
  - apply position_Some in E as (l1 & x & l2 & -> & <- & Hx & Hl1).
    rewrite insert_at_app, !retain_app.
    assert (∀ y, y ∈ x :: l2 → higher op y = true) as Hl2.
    { intros y [->|Hy]%elem_of_cons; [done|]. apply higher_spec in Hx. apply higher_spec.
      eapply sorted_sublist in Hs; [|apply (sublist_inserts_l l1), (reflexivity (x :: l2))].
      apply StronglySorted_inv in Hs as [_ Hs]. rewrite Forall_forall in Hs.
      specialize (Hs y Hy). unfold not_higher in Hs. lia. }
    rewrite (retain_all _ l1), (retain_none _ (x :: l2)), (retain_none _ l1),
      (retain_all _ (x :: l2)), app_nil_r; [done| | | |]; intros y Hy.
    + by apply Hl2.
    + by apply Hl1.
    + by rewrite Hl2.
    + by rewrite Hl1.
  - assert (∀ y, y ∈ l → higher op y = false) as Hl by by apply position_None.
    rewrite retain_all, retain_none, app_nil_r; [done| |]; intros y Hy; by rewrite Hl.
Qed.

Lemma insert_sorted (op : PendingOperation) (l : list PendingOperation) :
  StronglySorted not_higher l → StronglySorted not_higher (insert_by_priority op l).
Proof.
  intros Hs. destruct (insert_by_priority_split op l Hs) as [-> _].
  assert (∀ y, y ∈ keep_after op l → as_i32 (p_priority y) < as_i32 (p_priority op)) as Ha.
  { intros y [_ Hy]%elem_of_retain. by apply higher_spec. }
  assert (∀ y, y ∈ keep_before op l → as_i32 (p_priority op) ≤ as_i32 (p_priority y)) as Hb.
  { intros y [_ Hy]%elem_of_retain. apply not_higher_spec. by apply negb_true_iff. }
  apply sorted_app; [by eapply sorted_sublist; [apply retain_sublist|]| |].
  - constructor; [by eapply sorted_sublist; [apply retain_sublist|]|].
    apply Forall_forall. intros y Hy. specialize (Ha y Hy). unfold not_higher. lia.
  - intros x y Hx [->|Hy]%elem_of_cons; unfold not_higher; [by apply Hb|].
    specialize (Ha y Hy). specialize (Hb x Hx). lia.
Qed.

Lemma insert_length (op : PendingOperation) (l : list PendingOperation) :
  length (insert_by_priority op l) = S (length l).
Proof.
  unfold insert_by_priority. destruct (position _ l) as [i|] eqn:E.
  - apply position_Some in E as (l1 & x & l2 & -> & <- & _). rewrite insert_at_app, !length_app.
    simpl. lia.
  - rewrite length_app. simpl. lia.
Qed.

(** What the capacity check removes from an ordered queue: the oldest of the
    operations of the lowest priority. *)
Lemma drop_over_capacity_spec (l : list PendingOperation) :
  StronglySorted not_higher l → (MAX_PENDING_OPERATIONS < length l)%nat →
  ∃ before dropped after,
    l = before ++ dropped :: after ∧ drop_over_capacity l = before ++ after ∧
    (∀ o, o ∈ before → as_i32 (p_priority dropped) < as_i32 (p_priority o)) ∧
    (∀ o, o ∈ after → p_priority o = p_priority dropped).
Proof.
  intros Hs Hlen. unfold drop_over_capacity. rewrite (proj2 (Nat.ltb_lt _ _) Hlen).
  destruct l as [|b k _] using rev_ind; [simpl in Hlen; lia|]. rewrite last_snoc.
  destruct (position _ (k ++ [b])) as [i|] eqn:E.
  2: { apply position_None with (y := b) in E; [|apply elem_of_app; right; by left].
       by rewrite bool_decide_true in E. }
  apply position_Some in E as (l1 & x & l2 & Hl & <- & Hx & Hl1).
  apply bool_decide_eq_true in Hx. rewrite Hl in *. exists l1, x, l2.
  rewrite remove_at_app. split; [done|]. split; [done|].
  assert (∀ o, o ∈ l1 ++ x :: l2 → as_i32 (p_priority b) ≤ as_i32 (p_priority o)) as Hlow.
  { rewrite <- Hl in Hs |- *. intros o [Ho|Ho%list_elem_of_singleton]%elem_of_app; [|by subst].
    clear -Hs Ho. induction k as [|y k IH]; [by apply not_elem_of_nil in Ho|].
    apply StronglySorted_inv in Hs as [Hs Hy]. apply elem_of_cons in Ho as [->|Ho]; [|by apply IH].
    rewrite Forall_forall in Hy. apply Hy, elem_of_app. right. by left. }
  split.
  - intros o Ho. specialize (Hl1 o Ho). apply bool_decide_eq_false in Hl1.
    assert (as_i32 (p_priority b) ≤ as_i32 (p_priority o)) by (apply Hlow, elem_of_app; by left).
    rewrite Hx. destruct (p_priority o), (p_priority b); simpl in *; try lia; done.
  - intros o Ho. eapply sorted_sublist in Hs; [|apply (sublist_inserts_l l1), (reflexivity (x :: l2))].
    apply StronglySorted_inv in Hs as [_ Hs]. rewrite Forall_forall in Hs.
    specialize (Hs o Ho). unfold not_higher in Hs.
    assert (as_i32 (p_priority b) ≤ as_i32 (p_priority o))
      by (apply Hlow, elem_of_app; right; by right).
    rewrite Hx in *. destruct (p_priority o), (p_priority b); simpl in *; try lia; done.
Qed.

Lemma drop_over_capacity_sublist (l : list PendingOperation) :
  drop_over_capacity l `sublist_of` l.
Proof.
  unfold drop_over_capacity. destruct (_ <? _)%nat; [|done].
  destruct (last l); [|done]. destruct (position _ l); [|done]. apply remove_at_sublist.
Qed.

Lemma drop_over_capacity_length (l : list PendingOperation) :
  StronglySorted not_higher l → (length l ≤ S MAX_PENDING_OPERATIONS)%nat →
  (length (drop_over_capacity l) ≤ MAX_PENDING_OPERATIONS)%nat.
Proof.
  intros Hs Hl. destruct (decide (MAX_PENDING_OPERATIONS < length l)%nat) as [H|H].
  - destruct (drop_over_capacity_spec l Hs H) as (l1 & x & l2 & E & -> & _).
    rewrite E, length_app in Hl. simpl in Hl. rewrite length_app. lia.
  - unfold drop_over_capacity. rewrite (proj2 (Nat.ltb_ge _ _)) by lia. lia.
Qed.

(** ** The queue invariant *)

Lemma request_neq (o new : PendingOperation) :
  same_request o new = false ↔ request o ≠ request new.
Proof.
  unfold same_request, request. rewrite andb_false_iff, !bool_decide_eq_false.
  destruct (decide (p_operation_type o = p_operation_type new)); naive_solver congruence.
Qed.

Lemma insert_keeps_requests (new : PendingOperation) (l : list PendingOperation) :
  StronglySorted not_higher l → NoDup (map request l) →
  (∀ o, o ∈ l → request o ≠ request new) →
  NoDup (map request (insert_by_priority new l)).
Proof.
  intros Hs Hn Hnew. destruct (insert_by_priority_split new l Hs) as [-> El].
  assert (keep_before new l ++ new :: keep_after new l ≡ₚ new :: l) as ->.
  { rewrite El at 3. by rewrite Permutation_middle. }
  simpl. constructor; [|done]. intros (o & Ho & Hin)%list_elem_of_fmap. by apply (Hnew o Hin).
Qed.

Lemma smaller_queue_ok (q q' : OperationQueue) :
  pending q' `sublist_of` pending q → queue_ok q → queue_ok q'.
Proof.
  intros Hl (Hs & Hn & Hlen). split; [by eapply sorted_sublist|]. split.
  - by eapply sublist_NoDup; [|by apply sublist_map].
  - apply sublist_length in Hl. lia.
Qed.

(** The queue an enqueued operation is inserted into. *)
Definition others (new : PendingOperation) (q : OperationQueue) : list PendingOperation :=
  retain (λ o, negb (same_request o new)) (pending q).

Lemma others_ok (new : PendingOperation) (q : OperationQueue) :
  queue_ok q →
  StronglySorted not_higher (others new q) ∧ NoDup (map request (others new q)) ∧
  (length (others new q) ≤ MAX_PENDING_OPERATIONS)%nat ∧
  (∀ o, o ∈ others new q → request o ≠ request new).
Proof.
  intros (Hs & Hn & Hlen). unfold others. pose proof (retain_sublist (λ o, negb (same_request o new)) (pending q)) as Hsub.
  split; [by eapply sorted_sublist|]. split; [by eapply sublist_NoDup; [|by apply sublist_map]|].
  split; [apply sublist_length in Hsub; lia|].
  intros o [_ Ho%negb_true_iff]%elem_of_retain. by apply request_neq.
Qed.

Lemma enqueue_ok now op k root prio (q : OperationQueue) :
  queue_ok q → queue_ok (enqueue now op k root prio q).
Proof.
  intros Hq. set (new := new_op now (project q) op k root prio).
  destruct (others_ok new q Hq) as (Hs & Hn & Hlen & Hnew).
  pose proof (insert_sorted new _ Hs) as Hs'.
  unfold enqueue. fold new. fold (others new q). unfold queue_ok. cbn [pending set_pending].
  split; [by eapply sorted_sublist; [apply drop_over_capacity_sublist|]|]. split.
  - eapply sublist_NoDup; [|apply sublist_map, drop_over_capacity_sublist].
    by apply insert_keeps_requests.
  - apply drop_over_capacity_length; [done|]. rewrite insert_length. lia.
Qed.

Lemma reserve_spec now (q : OperationQueue) next q' :
  dequeue_reserve now q = Some (next, q') →
  active q = None ∧ pending q = next :: pending q' ∧ project q' = project q ∧
  active q' = Some (activate now (project q) next).
Proof.
  unfold dequeue_reserve. destruct (active q); [done|]. destruct (pending q) eqn:E; [done|].
  intros [= -> <-]. done.
Qed.

Lemma rollback_reserve now (q : OperationQueue) next q' :
  dequeue_reserve now q = Some (next, q') → dequeue_rollback next q' = q.
Proof.
  intros (Ha & Hp & Hpr & _)%reserve_spec. unfold dequeue_rollback.
  destruct q as [p a l]; simpl in *. by subst.
Qed.

Lemma dequeue_ok tx_ok now now' (q : OperationQueue) (db : DB) :
  queue_ok q → queue_ok (dequeue tx_ok now now' q db).1.2.
Proof.
  intros Hq. unfold dequeue. destruct (dequeue_reserve now q) as [[next q']|] eqn:E; [|done].
  destruct (dequeue_persist _ _ _ _ _) as [[u|e] db']; simpl.
  - apply reserve_spec in E as (_ & Hp & _). apply (smaller_queue_ok q); [|done].
    rewrite Hp. by constructor.
  - by rewrite (rollback_reserve now q).
Qed.

#[export] Instance queue_ok_invariant :
  StepInvariant init step (λ s : OperationQueue * DB, queue_ok s.1).
Proof.
  split.
  - intros [q db] [p Hp]. unfold new_for_project in Hp. destruct (0 <? p); [|done].
    simplify_eq/=. split; [constructor|]. split; [constructor|]. simpl. lia.
  - intros [q db] s' Hq [c ->]. cbn [fst] in Hq.
    destruct c; cbn [run].
    + unfold load_persisted_active. destruct io_ok; [|done].
      destruct (get_active_checkpoint _ _); [|done]. by destruct (active_of_record _).
    + by apply enqueue_ok.
    + pose proof (dequeue_ok tx_ok now now' q db Hq) as H. by destruct (dequeue _ _ _ _ _) as [[? ?] ?].
    + done.
    + unfold complete_active. destruct (active q); [|done].
      by destruct (clear_flag _ _ _ _ _) as [[?|?] ?].
    + unfold clear_active_by_operation. destruct (clear_flag _ _ _ _ _) as [? ?].
      by destruct (is_operation _ _).
    + unfold cancel_pending. destruct (position _ _) as [i|]; [|done].
      apply (smaller_queue_ok q); [|done]. apply remove_at_sublist.
    + apply (smaller_queue_ok q); [|done]. apply sublist_nil_l.
    + unfold cleanup_stale_operations. destruct io_ok; [|done].
      destruct (cleanup_stale_active _ _ _ _ _) as [[n db']|]; [|done].
      destruct (0 <? n); [|done]. destruct query_ok; [|done]. cbn.
      destruct (active q); [|done]. by destruct (match get_active_checkpoint _ _ with Some _ => _ | None => _ end).
Qed.

Lemma split_unique {A} (x : A) (l1 l2 k1 k2 : list A) :
  x ∉ l1 → x ∉ k1 → l1 ++ x :: l2 = k1 ++ x :: k2 → l1 = k1 ∧ l2 = k2.
Proof.
  revert k1. induction l1 as [|y l1 IH]; intros [|z k1] Hl Hk E; simplify_eq/=;
    try done; try set_solver.
  apply not_elem_of_cons in Hl as [_ Hl], Hk as [_ Hk].
  by destruct (IH k1 Hl Hk) as [-> ->].
Qed.

(** Which operations the capacity check can drop right after an insertion. *)
Lemma new_operation_kept (new dropped : PendingOperation) (l before after : list PendingOperation) :
  new ∉ l → l = keep_before new l ++ keep_after new l →
  keep_before new l ++ new :: keep_after new l = before ++ dropped :: after →
  (∀ o, o ∈ before → as_i32 (p_priority dropped) < as_i32 (p_priority o)) →
  (∀ o, o ∈ after → p_priority o = p_priority dropped) →
  new ∈ before ++ after ↔ ¬ (∀ o, o ∈ l → as_i32 (p_priority new) < as_i32 (p_priority o)).
Proof.
  intros Hnew El E Hb Ha.
  assert (∀ o, o ∈ before ++ dropped :: after ↔ o = new ∨ o ∈ l) as Hin.
  { intros o. rewrite <- E. rewrite El at 3. rewrite !elem_of_app, elem_of_cons. tauto. }
  assert (dropped = new → keep_before new l = before ∧ keep_after new l = after) as Hsplit.
  { intros ->. apply (split_unique new); [| |done].
    - intros H. apply Hnew. rewrite El. apply elem_of_app. by left.
    - intros H. specialize (Hb new H). lia. }
  assert (dropped = new ∨ dropped ∈ l) as Hd
    by (apply Hin, elem_of_app; right; by left).
  rewrite elem_of_app. split.
  - intros Hn Hall. destruct Hd as [->|Hd].
    + destruct (Hsplit eq_refl) as [<- <-]. apply Hnew. rewrite El. by apply elem_of_app.
    + specialize (Hall dropped Hd). destruct Hn as [Hn|Hn].
      * specialize (Hb new Hn). lia.
      * specialize (Ha new Hn). rewrite Ha in Hall. lia.
  - intros Hnot. pose proof (proj2 (Hin new) (or_introl eq_refl)) as Hn.
    rewrite elem_of_app, elem_of_cons in Hn. destruct Hn as [Hn|[<-|Hn]]; [by left| |by right].
    destruct Hnot. intros o Ho. destruct (Hsplit eq_refl) as [Hkb Hka].
    rewrite El in Ho. apply elem_of_app in Ho as [Ho|Ho]; [apply Hb; by rewrite <- Hkb|].
    pose proof (proj1 (elem_of_retain _ _ _) Ho) as [_ Hlt%higher_spec]. rewrite Hka in Ho.
    rewrite (Ha o Ho) in Hlt. lia.
Qed.

Lemma enqueue_with_room now op k root prio (q : OperationQueue) :
  let new := new_op now (project q) op k root prio in
  queue_ok q → (length (others new q) < MAX_PENDING_OPERATIONS)%nat →
  pending (enqueue now op k root prio q) =
    keep_before new (others new q) ++ new :: keep_after new (others new q).
Proof.
  intros new Hq Hlen. destruct (others_ok new q Hq) as (Hs & _).
  unfold enqueue. fold new. fold (others new q). cbn [pending set_pending].
  unfold drop_over_capacity. rewrite insert_length, (proj2 (Nat.ltb_ge _ _)) by lia.
  by destruct (insert_by_priority_split new _ Hs) as [-> _].
Qed.

Lemma enqueue_keeps_new now op k root prio (q : OperationQueue) :
  let new := new_op now (project q) op k root prio in
  queue_ok q → (length (others new q) < MAX_PENDING_OPERATIONS)%nat →
  new ∈ pending (enqueue now op k root prio q).
Proof.
  intros new Hq Hlen. rewrite enqueue_with_room by done. apply elem_of_app. right. by left.
Qed.

(** After any sequence of complete calls, whatever the outcome of their
    transactions, the pending operations are in descending priority, at most
    one per kind and root directory, and at most 64. *)
Theorem pending_queue_ordered_and_bounded (q : OperationQueue) (db : DB)
    (Hr : reachable init step (q, db)) : queue_ok q.
Proof. exact (invariant_reachable init step _ (q, db) Hr). Qed.

(** C28. Enqueueing places the new operation behind every pending operation of
    at least its priority and before the lower ones, after dropping the request
    of the same kind and root that it replaces. When that makes 65, the oldest
    operation of the lowest priority goes, and the new operation is itself the
    one dropped exactly when all the others have a higher priority. *)
Theorem enqueue_is_bounded_priority_insert now op k root prio (q : OperationQueue)
    (Hq : queue_ok q) :
  let new := new_op now (project q) op k root prio in
  let full := keep_before new (others new q) ++ new :: keep_after new (others new q) in
  let q' := enqueue now op k root prio q in
  others new q = keep_before new (others new q) ++ keep_after new (others new q) ∧
  ((length (others new q) < 64)%nat → pending q' = full) ∧
  (length (others new q) = 64%nat → ∃ before dropped after,
     full = before ++ dropped :: after ∧ pending q' = before ++ after ∧
     (∀ o, o ∈ before → as_i32 (p_priority dropped) < as_i32 (p_priority o)) ∧
     (∀ o, o ∈ after → p_priority o = p_priority dropped)) ∧
  (new ∈ pending q' ↔
     ¬ (length (others new q) = 64%nat ∧
        ∀ o, o ∈ others new q → as_i32 prio < as_i32 (p_priority o))).
Proof.
  intros new full q'. destruct (others_ok new q Hq) as (Hs & _ & Hlen & Hnew).
  destruct (insert_by_priority_split new _ Hs) as [Ei El]. fold full in Ei.
  pose proof (insert_sorted new _ Hs) as Hs'. pose proof (insert_length new (others new q)) as Hl'.
  assert (pending q' = drop_over_capacity (insert_by_priority new (others new q))) as -> by done.
  rewrite Ei in *. unfold MAX_PENDING_OPERATIONS in Hlen.
  assert ((length (others new q) < 64)%nat → drop_over_capacity full = full) as Hsmall.
  { intros Hlt. unfold drop_over_capacity. rewrite (proj2 (Nat.ltb_ge _ _)); [done|].
    unfold MAX_PENDING_OPERATIONS. lia. }
  assert (new ∈ full) as Hin by (apply elem_of_app; right; by left).
  split; [done|]. split; [done|]. split.
  { intros H64. apply drop_over_capacity_spec; [done|]. unfold MAX_PENDING_OPERATIONS. lia. }
  destruct (decide (length (others new q) = 64)%nat) as [H64|H64].
  2: { rewrite Hsmall by lia. split; [intros _ [? _]; done|done]. }
  destruct (drop_over_capacity_spec full) as (l1 & x & l2 & E & -> & Hb & Ha);
    [done|unfold MAX_PENDING_OPERATIONS; lia|].
  rewrite (new_operation_kept new x (others new q)); [naive_solver| |done..].
  intros Hin'. by apply (Hnew new).
Qed.

(** A request that arrives between the reservation of a dequeue and its
    rollback ends up behind the operation that is put back: the rolled-back
    operation is dequeued first again even if the new one has a higher
    priority, and if the new one is for the same kind and root the queue then
    holds both. *)
Theorem interrupted_rollback_breaks_order now now' t op k root prio
    (q : OperationQueue) next q1
    (Hq : queue_ok q) (Hres : dequeue_reserve now q = Some (next, q1))
    (Hroom : (length (pending q1) < 64)%nat) :
  let new := new_op now' (project q) op k root prio in
  let q' := dequeue_rollback next (enqueue now' op k root prio q1) in
  (∃ q2, dequeue_reserve t q' = Some (next, q2) ∧ new ∈ pending q2) ∧
  (as_i32 (p_priority next) < as_i32 prio → ¬ StronglySorted not_higher (pending q')) ∧
  (request next = (k, root) → ¬ NoDup (map request (pending q'))).
Proof.
  intros new q'. pose proof (reserve_spec _ _ _ _ Hres) as (_ & Hp & Hpr & _).
  assert (queue_ok q1) as Hq1 by (apply (smaller_queue_ok q); [rewrite Hp; by constructor|done]).
  assert (new ∈ pending (enqueue now' op k root prio q1)) as Hin.
  { unfold new. rewrite <- Hpr. apply enqueue_keeps_new; [done|].
    eapply Nat.le_lt_trans; [apply retain_length|done]. }
  split; [by eexists|]. split.
  - intros Hlt [_ Hall]%StronglySorted_inv. rewrite Forall_forall in Hall.
    specialize (Hall new Hin). unfold not_higher in Hall. simpl in Hall. lia.
  - intros Hreq [Hn _]%NoDup_cons. apply Hn. rewrite Hreq.
    by apply (list_elem_of_fmap_2 request _ new).
Qed.

(** ** The active flag *)

Lemma update_nothing (p : CheckpointRecord Stamp → bool) f (db : DB) :
  existsb p (checkpoints db) = false → update_where p f db = Ok (0, db).
Proof.
  intros Hp. unfold update_where, update_rows.
  assert (∀ r, r ∈ checkpoints db → p r = false) as Hall.
  { intros r Hr. destruct (p r) eqn:E; [|done]. apply not_true_iff_false in Hp. destruct Hp.
    apply existsb_exists. exists r. split; [by apply list_elem_of_In|done]. }
  rewrite (proj2 (forallb_forall _ _)).
  2: { intros r Hr%list_elem_of_In. by rewrite Hall. }
  assert (∀ l, (∀ r, r ∈ l → p r = false) →
    map (λ r, if p r then f r else r) l = l ∧ count_if p l = 0) as Hl.
  { induction l as [|r l IH]; intros Hr; [done|]. simpl. rewrite (Hr r) by by left.
    destruct IH as [-> ->]; [|done]. intros. apply Hr. by right. }
  destruct (Hl _ Hall) as [-> ->]. by destruct db.
Qed.

Lemma first_row_absent {A} (p : A → bool) (l : list A) :
  first_row p l = None → existsb p l = false.
Proof.
  unfold first_row. induction l as [|x l IH]; [done|]. simpl. destruct (p x); [done|apply IH].
Qed.

Lemma create_inactive pr (c : CheckpointRecord Stamp) db :
  active_flag c = false → get_active_checkpoint pr db = None →
  get_active_checkpoint pr
    (CheckpointManager.transaction true (create_checkpoint pr c) db).2 = None ∧
  existsb (λ r, of_operation pr (operation_id c) r && active_flag r)
    (checkpoints (CheckpointManager.transaction true (create_checkpoint pr c) db).2) = false.
Proof.
  unfold get_active_checkpoint. intros Hc Hdb.
  destruct (first_row (is_active pr) (checkpoints db)) eqn:E; [done|]. apply first_row_absent in E.
  assert (∀ op, existsb (λ r, of_operation pr op r && active_flag r) (checkpoints db) = false) as Ho.
  { intros op. apply not_true_iff_false. intros (r & Hr & H)%existsb_exists.
    apply not_true_iff_false in E. apply E, existsb_exists. exists r. split; [done|].
    unfold is_active, of_operation in *. destruct (bool_decide (project_id r = pr)); [|done].
    by apply andb_true_iff in H as [_ ->]. }
  unfold CheckpointManager.transaction, create_checkpoint.
  destruct (existsb (of_operation pr (operation_id c)) (checkpoints db)); simpl.
  { split; [by rewrite first_row_None|apply Ho]. }
  destruct (checkpoint_ok _); simpl; [|split; [by rewrite first_row_None|apply Ho]].
  rewrite existsb_app, Ho. simpl. rewrite Hc, andb_false_r. split; [|done].
  rewrite first_row_snoc, first_row_None by done. unfold is_active. simpl. by rewrite Hc, andb_false_r.
Qed.

(** An operation that is dequeued before its checkpoint exists, as the
    runtime does, is never active in the database: the flag update touches no
    row, the checkpoint is created afterwards with the flag cleared, every
    heartbeat of the running operation reports that it was not found, and a
    restarted queue does not load it. *)
Theorem activation_before_checkpoint_is_lost now now' t1 t2 (q : OperationQueue) next q1
    (db : DB) params
    (Hres : dequeue_reserve now q = Some (next, q1))
    (Hnew : get_checkpoint (project q) (p_operation_id next) db = None)
    (Hidle : get_active_checkpoint (project q) db = None)
    (Hid : CheckpointManager.p_operation_id params = p_operation_id next) :
  dequeue true now now' q db = (Ok (Some next), q1, db) ∧
  let db' := (CheckpointManager.create_checkpoint (project q) true t1 params db).2 in
  get_active_checkpoint (project q) db' = None ∧
  heartbeat true t2 (p_operation_id next) q1 db' =
    (Err (NotFound ("Active checkpoint not found: " +:+ p_operation_id next)), db') ∧
  (∀ restarted, project restarted = project q →
     load_persisted_active true restarted db' = (Ok None, restarted)).
Proof.
  pose proof (reserve_spec _ _ _ _ Hres) as (_ & _ & Hpr & _). split.
  { unfold dequeue. rewrite Hres. unfold dequeue_persist, CheckpointManager.transaction, set_active_flag.
    rewrite update_nothing; [done|]. by apply first_row_absent. }
  intros db'.
  assert (db' = (CheckpointManager.transaction true (create_checkpoint (project q)
      (CheckpointManager.new_record (project q) t1 params)) db).2) as Edb.
  { unfold db', CheckpointManager.create_checkpoint.
    by destruct (CheckpointManager.transaction _ _ _). }
  destruct (create_inactive (project q) (CheckpointManager.new_record (project q) t1 params) db)
    as [Ha Hn]; [done|done|].
  rewrite <- Edb in Ha, Hn. simpl in Hn. rewrite Hid in Hn. split; [done|]. split.
  - unfold heartbeat, update_heartbeat. rewrite Hpr, update_nothing by done. done.
  - intros r Hr. unfold load_persisted_active. by rewrite Hr, Ha.
Qed.

(** The two transactions on the active flag, in a well-formed database. *)
Lemma activity_spec p op (f : CheckpointRecord Stamp → CheckpointRecord Stamp) (db : DB) :
  wf db → (∀ r, ckey (f r) = ckey r) →
  (∀ r, checkpoint_ok r = true → checkpoint_ok (f r) = true) →
  ∃ db', CheckpointManager.transaction true (λ db,
           CheckpointManager.discard (update_where (of_operation p op) f db)) db = (Ok (), db') ∧
    wf db' ∧ ∀ p' op', get_checkpoint p' op' db' =
      (λ r, if bool_decide ((p', op') = (p, op)) then f r else r) <$> get_checkpoint p' op' db.
Proof.
  intros Hwf Hkey Hok.
  destruct (update_operation_spec p op f db) as (db' & E & _ & Hget); [done| |].
  { intros r Hin _. destruct Hwf as ((_ & Hall) & _). rewrite Forall_forall in Hall. auto. }
  exists db'. unfold CheckpointManager.transaction. rewrite E. split; [done|].
  split; [by eapply update_where_wf|done].
Qed.

Lemma dequeue_persist_spec now p next (db : DB) :
  wf db →
  ∃ db', dequeue_persist true now p next db = (Ok (), db') ∧ wf db' ∧
    ∀ p' op', get_checkpoint p' op' db' =
      (λ r, if bool_decide ((p', op') = (p, p_operation_id next))
            then set_activity now true (as_i32 (p_priority next)) (Some (to_rfc3339 now)) r
            else r) <$> get_checkpoint p' op' db.
Proof.
  intros Hwf. apply activity_spec; [done|done|]. intros r Hok. unfold checkpoint_ok in *.
  bool_to_prop. simpl. rewrite !andb_true_iff, !Z.leb_le, Z.ltb_lt.
  destruct (p_priority next); simpl; lia.
Qed.

Lemma clear_flag_spec now p op (db : DB) :
  wf db →
  ∃ db', clear_flag true now p op db = (Ok (), db') ∧ wf db' ∧
    ∀ p' op', get_checkpoint p' op' db' =
      (λ r, if bool_decide ((p', op') = (p, op))
            then set_activity now false (priority r) (last_heartbeat r) r
            else r) <$> get_checkpoint p' op' db.
Proof. intros Hwf. by apply activity_spec. Qed.

(** When the transaction of a completion fails, the slot is free but the
    checkpoint keeps its active flag; the next operation is dequeued, and the
    database then has two active operations of the project. *)
Theorem failed_completion_leaves_two_active now t t' (q : OperationQueue) a next rest
    (db : DB) r rn
    (Hdb : reachable CheckpointStore.init CheckpointStore.step db)
    (Ha : active q = Some a) (Hp : pending q = next :: rest)
    (Hr : get_checkpoint (project q) (a_operation_id a) db = Some r)
    (Hflag : active_flag r = true)
    (Hn : get_checkpoint (project q) (p_operation_id next) db = Some rn)
    (Hne : a_operation_id a ≠ p_operation_id next) :
  let q' := set_active None q in
  complete_active false now q db = (Err Sqlite, q', db) ∧
  ∃ q2 db', dequeue true t t' q' db = (Ok (Some next), q2, db') ∧
    active q2 = Some (activate t (project q) next) ∧
    active_flag <$> get_checkpoint (project q) (a_operation_id a) db' = Some true ∧
    active_flag <$> get_checkpoint (project q) (p_operation_id next) db' = Some true.
Proof.
  intros q'. split; [unfold complete_active; by rewrite Ha|].
  unfold dequeue, dequeue_reserve, q'. cbn [active pending set_active]. rewrite Hp.
  cbn [project set_active].
  destruct (dequeue_persist_spec t' (project q) next db) as (db' & -> & _ & Hget).
  { exact (invariant_reachable CheckpointStore.init CheckpointStore.step wf db Hdb). }
  eexists _, _. split; [done|]. split; [done|].
  rewrite !Hget, Hr, Hn, bool_decide_false, bool_decide_true by congruence. simpl.
  by rewrite Hflag.
Qed.

End queue.
Arguments PendingOperation Stamp : clear implicits.
Arguments ActiveOperation Stamp : clear implicits.
Arguments OperationQueue Stamp : clear implicits.

(** ** Witnesses *)

Definition empty_queue : OperationQueue Z := {| project := 7; active := None; pending := [] |}.

(** One hot update waiting. *)
Definition hot_queue : OperationQueue Z := enqueue 1 "hot_1" HotUpdate "/p" PHotUpdate empty_queue.

Lemma hot_queue_reachable : reachable init step (hot_queue, sample_store).
Proof.
  exists (empty_queue, sample_store). split; [by exists 7|]. apply rtc_once.
  by exists (CEnqueue 1 "hot_1" HotUpdate "/p" PHotUpdate).
Qed.

Lemma hot_queue_ok : queue_ok hot_queue.
Proof. exact (invariant_reachable init step _ _ hot_queue_reachable). Qed.

(** The hot update reserved. *)
Definition hot_operation : PendingOperation Z := new_op 1 7 "hot_1" HotUpdate "/p" PHotUpdate.
Definition reserved_queue : OperationQueue Z :=
  {| project := 7; active := Some (activate 2 7 hot_operation); pending := [] |}.

Lemma pending_queue_ordered_and_bounded_witness : queue_ok hot_queue.
Proof. exact (pending_queue_ordered_and_bounded hot_queue sample_store hot_queue_reachable). Defined.

Lemma enqueue_is_bounded_priority_insert_witness :
  let new := new_op 3 7 "full_1" FullIndex "/p" PFullIndex in
  let q' := enqueue 3 "full_1" FullIndex "/p" PFullIndex hot_queue in
  pending q' = [new; hot_operation].
Proof.
  destruct (enqueue_is_bounded_priority_insert 3 "full_1" FullIndex "/p" PFullIndex hot_queue
              hot_queue_ok) as (_ & H & _).
  intros new q'. unfold q'. rewrite H; [reflexivity|]. vm_compute. lia.
Defined.

Lemma interrupted_rollback_breaks_order_witness :
  let new := new_op 3 7 "full_1" FullIndex "/p" PFullIndex in
  let q' := dequeue_rollback hot_operation
              (enqueue 3 "full_1" FullIndex "/p" PFullIndex reserved_queue) in
  (∃ q2, dequeue_reserve 4 q' = Some (hot_operation, q2) ∧ new ∈ pending q2) ∧
  (as_i32 (p_priority hot_operation) < as_i32 PFullIndex →
     ¬ StronglySorted not_higher (pending q')) ∧
  (request hot_operation = (FullIndex, "/p") → ¬ NoDup (map request (pending q'))).
Proof.
  apply (interrupted_rollback_breaks_order 2 3 4 "full_1" FullIndex "/p" PFullIndex hot_queue
           hot_operation reserved_queue hot_queue_ok).
  - reflexivity.
  - vm_compute. lia.
Defined.

Definition hot_params : CheckpointManager.CreateCheckpointParams :=
  {| CheckpointManager.p_operation_id := "hot_1"; CheckpointManager.p_operation_type := HotUpdate;
     CheckpointManager.p_root_dir := "/p"; CheckpointManager.p_total_files := 0;
     CheckpointManager.p_batch_size := 1; CheckpointManager.p_file_list_hash := "" |}.

Lemma activation_before_checkpoint_is_lost_witness :
  dequeue true 2 3 hot_queue sample_store = (Ok (Some hot_operation), reserved_queue, sample_store) ∧
  let db' := (CheckpointManager.create_checkpoint 7 true 4 hot_params sample_store).2 in
  get_active_checkpoint 7 db' = None ∧
  heartbeat true 5 "hot_1" reserved_queue db' =
    (Err (NotFound ("Active checkpoint not found: " +:+ "hot_1")), db') ∧
  (∀ restarted, project restarted = 7 →
     load_persisted_active true restarted db' = (Ok None, restarted)).
Proof.
  apply (activation_before_checkpoint_is_lost 2 3 4 5 hot_queue hot_operation reserved_queue
           sample_store hot_params); vm_compute; reflexivity.
Defined.

(** A full index running with its flag set, and a hot update with a checkpoint. *)
Definition busy_store : Store Z :=
  exec (SSetActive 2 7 "op" 3) (exec (SCreate 7 (sample_checkpoint "hot_1" "hot_update")) sample_store).

Definition full_active : ActiveOperation Z :=
  {| a_project_id := 7; a_operation_id := "op"; a_operation_type := FullIndex;
     a_priority := PFullIndex; a_started_at := 2; a_root_dir := "/p" |}.

Definition busy_queue : OperationQueue Z :=
  {| project := 7; active := Some full_active; pending := [hot_operation] |}.

Definition read_checkpoint (op : string) (db : Store Z) : CheckpointRecord Z :=
  default (sample_checkpoint "" "") (get_checkpoint 7 op db).

Lemma busy_store_reachable : reachable CheckpointStore.init CheckpointStore.step busy_store.
Proof.
  destruct sample_store_reachable as (s0 & H0 & Hs). exists s0. split; [done|].
  transitivity sample_store; [exact Hs|].
  eapply rtc_l; [eexists; reflexivity|]. apply rtc_once. eexists. reflexivity.
Qed.

Lemma failed_completion_leaves_two_active_witness :
  complete_active false 3 busy_queue busy_store =
    (Err Sqlite, set_active None busy_queue, busy_store) ∧
  ∃ q2 db', dequeue true 4 5 (set_active None busy_queue) busy_store =
              (Ok (Some hot_operation), q2, db') ∧
    active q2 = Some (activate 4 7 hot_operation) ∧
    active_flag <$> get_checkpoint 7 "op" db' = Some true ∧
    active_flag <$> get_checkpoint 7 "hot_1" db' = Some true.
Proof.
  apply (failed_completion_leaves_two_active 3 4 5 busy_queue full_active hot_operation []
           busy_store (read_checkpoint "op" busy_store) (read_checkpoint "hot_1" busy_store)
           busy_store_reachable); try (vm_compute; reflexivity). done.
Defined.

End OperationQueue.
