(* ===== verification/Coordinator.v ===== *)
(** The operation coordinator
    (crates/app/cce-orchestrator/src/operation/coordinator.rs, with the phases
    of context.rs and the artifact cleanup and integrity check of recovery.rs):
    requests, scheduling, completion, and the recovery of unfinished
    operations at startup. *)

From stdpp Require Import pretty.
From S2P Require Import Prelude CheckpointStore CheckpointManager OperationQueue.

Module Coordinator.
Import CheckpointStore OperationQueue.
#[local] Existing Instance instant_stamps.

Inductive OperationPhase := Queued | Active | Paused | PhaseCompleted | PhaseFailed.

Definition phase_as_str (p : OperationPhase) : string :=
  match p with
  | Queued => "queued" | Active => "active" | Paused => "paused"
  | PhaseCompleted => "completed" | PhaseFailed => "failed"
  end.

Definition is_terminal (p : OperationPhase) : bool :=
  match p with PhaseCompleted | PhaseFailed => true | _ => false end.

Inductive InitializationPhase :=
| Preparing | LoadingPersisted | CleaningStale | RecoveringUnfinished | InitCompleted | InitFailed.

Definition init_phase_as_str (p : InitializationPhase) : string :=
  match p with
  | Preparing => "preparing" | LoadingPersisted => "loading_persisted"
  | CleaningStale => "cleaning_stale" | RecoveringUnfinished => "recovering_unfinished"
  | InitCompleted => "completed" | InitFailed => "failed"
  end.

(** [error] is the prefix of the message and the error it formats. *)
Record InitializationResult := {
  final_phase : InitializationPhase;
  loaded_count : Z;
  cleaned_count : Z;
  recovered_count : Z;
  duration_ms : Z;
  details : list string;
  error : option (string * StorageError);
}.

(** The configuration of a coordinator; its queue and the database are the
    state the operations pass along. *)
Record OperationCoordinator := {
  project_id : Z;
  recovery_manager : bool;
  heartbeat_timeout_secs : Z;
  recovery_freshness_secs : option Z;
}.

Inductive ConfigError := InvalidProjectId (project : Z).

Section coordinator.
Context {Stamp : Type} `{!Rfc3339 Stamp}.

Abbreviation DB := (Store Stamp).
Abbreviation Queue := (OperationQueue Stamp).

Definition coordinator_for (recovery : bool) (p : Z)
    : result (OperationCoordinator * Queue) ConfigError :=
  if p <=? 0 then Err (InvalidProjectId p)
  else match OperationQueue.new_for_project p with
       | Some q =>
           Ok ({| project_id := p; recovery_manager := recovery;
                  heartbeat_timeout_secs := 300; recovery_freshness_secs := None |}, q)
       | None => Err (InvalidProjectId p)
       end.

Definition new_for_project := coordinator_for false.
Definition with_recovery_for_project := coordinator_for true.

Definition with_heartbeat_timeout (secs : Z) (c : OperationCoordinator) : OperationCoordinator :=
  {| project_id := project_id c; recovery_manager := recovery_manager c;
     heartbeat_timeout_secs := secs; recovery_freshness_secs := recovery_freshness_secs c |}.

Definition with_recovery_freshness (secs : Z) (c : OperationCoordinator) : OperationCoordinator :=
  {| project_id := project_id c; recovery_manager := recovery_manager c;
     heartbeat_timeout_secs := heartbeat_timeout_secs c; recovery_freshness_secs := Some secs |}.

(** ** Requests and scheduling *)

Definition request_full_index (now : DateTime) (op root : string) (q : Queue) : Queue :=
  if has_active_full_index q then q else enqueue now op FullIndex root PFullIndex q.

Definition request_hot_update (now : DateTime) (op root : string) (q : Queue) : Queue :=
  enqueue now op HotUpdate root PHotUpdate q.

Definition request_incremental (now : DateTime) (op root : string) (q : Queue) : Queue :=
  enqueue now op Incremental root PIncremental q.

Definition can_execute_next (q : Queue) : bool :=
  match get_active q with
  | Some a => negb (bool_decide (a_operation_type a = FullIndex))
  | None => true
  end.

Definition execute_next_operation (tx_ok : bool) (now now' : DateTime) (q : Queue) (db : DB)
    : result (option (PendingOperation Stamp)) StorageError * Queue * DB :=
  if can_execute_next q then dequeue tx_ok now now' q db else (Ok None, q, db).

Definition coordinator_heartbeat (io_ok : bool) (now : DateTime) (op : string) (q : Queue) (db : DB)
    : result unit StorageError * DB := heartbeat io_ok now op q db.

Definition get_active_operation (q : Queue) : option (ActiveOperation Stamp) := get_active q.

Definition queue_stats (q : Queue)
    : option (ActiveOperation Stamp) * list (PendingOperation Stamp) :=
  (get_active q, peek_pending q).

(** One observation of the queue size and of the elapsed time per turn of the
    loop; [None] while it still polls. *)
Fixpoint wait_for_completion (timeout_secs : Z) (turns : list (nat * Duration))
    : option (result unit StorageError) :=
  match turns with
  | [] => None
  | (size, elapsed) :: turns =>
      if (size =? 0)%nat then Some (Ok ())
      else if from_secs timeout_secs <? elapsed then
        Some (Err (Connection ("Operation completion timeout after " +:+ pretty timeout_secs +:+
                               " seconds")))
      else wait_for_completion timeout_secs turns
  end.

(** ** Completion *)

(** Each deletion is attempted only if the ones before it succeeded. *)
Definition cleanup_operation_artifacts (io1 io2 io3 : bool) (p : Z) (op : string) (db : DB)
    : result unit StorageError * DB :=
  match CheckpointManager.delete_checkpoint_files_by_operation_id p io1 op db with
  | (Err e, db) => (Err e, db)
  | (Ok _, db) =>
      match CheckpointManager.delete_checkpoint_batches_by_operation_id p io2 op db with
      | (Err e, db) => (Err e, db)
      | (Ok _, db) =>
          match CheckpointManager.delete_work_units_by_operation_id p io3 op db with
          | (Err e, db) => (Err e, db)
          | (Ok _, db) => (Ok (), db)
          end
      end
  end.

(** The outcomes and clock readings of one completion. *)
Record CompletionEnv := {
  clear_ok : bool; mark_ok : bool; files_ok : bool; batches_ok : bool; units_ok : bool;
  t_clear : DateTime; t_mark : DateTime; t_mark' : DateTime;
}.

Definition complete_operation (c : OperationCoordinator) (e : CompletionEnv) (q : Queue) (db : DB)
    : result (option (ActiveOperation Stamp)) StorageError * Queue * DB :=
  match complete_active (clear_ok e) (t_clear e) q db with
  | (Err err, q, db) => (Err err, q, db)
  | (Ok None, q, db) => (Ok None, q, db)
  | (Ok (Some completed), q, db) =>
      let op := a_operation_id completed in
      match CheckpointManager.mark_operation_completed (project_id c) (mark_ok e) (t_mark e)
              (t_mark' e) op db with
      | (Err err, db) => (Err err, q, db)
      | (Ok _, db) =>
          let db :=
            if recovery_manager c then
              (cleanup_operation_artifacts (files_ok e) (batches_ok e) (units_ok e)
                 (project_id c) op db).2
            else db in
          (Ok (Some completed), q, db)
      end
  end.

(** ** Recovery *)

Definition as_i64 (z : Z) : Z := if z <? 2 ^ 63 then z else z - 2 ^ 64.

(** [chrono::Duration::num_seconds] truncates towards zero. *)
Definition num_seconds (d : Z) : Z := Z.quot d nanos_per_sec.

Definition is_stale_for_recovery (c : OperationCoordinator) (now : DateTime)
    (r : CheckpointRecord Stamp) : bool :=
  match recovery_freshness_secs c with
  | None => false
  | Some freshness =>
      match parse_from_rfc3339 (updated_at r) with
      | None => true
      | Some u => as_i64 freshness <? num_seconds (now - u)
      end
  end.

Definition recovery_priority (k : OperationKind) : OperationPriority :=
  match k with
  | FullIndex => PFullIndex | Incremental => PIncremental
  | HotUpdate => PHotUpdate | ConfigChange => PHotUpdate
  end.

(** The clock readings and the transaction outcome of one turn of the loop. *)
Record Turn := {
  t_check : DateTime; t_fail : DateTime; t_fail' : DateTime; t_fail'' : DateTime;
  fail_ok : bool; t_enqueue : DateTime;
}.

Definition skipped_reason : string := "stale recovery skipped".

Fixpoint recover_loop (c : OperationCoordinator) (env : nat → Turn) (i : nat)
    (unfinished : list (CheckpointRecord Stamp)) (count : Z) (q : Queue) (db : DB)
    : result Z StorageError * Queue * DB :=
  match unfinished with
  | [] => (Ok count, q, db)
  | r :: rest =>
      let t := env i in
      if is_stale_for_recovery c (t_check t) r then
        match CheckpointManager.mark_operation_failed (project_id c) (fail_ok t) (t_fail t)
                (t_fail' t) (t_fail'' t) (operation_id r) skipped_reason db with
        | (Ok _, db') => recover_loop c env (S i) rest count q db'
        | (Err e, db') => (Err e, q, db')
        end
      else
        match kind_from_str (operation_type r) with
        | Err e => (Err (Validation ("Invalid operation_type: " +:+ e)), q, db)
        | Ok k =>
            if bool_decide (k ∈ [HotUpdate; ConfigChange]) then
              recover_loop c env (S i) rest count q db
            else
              recover_loop c env (S i) rest (wrap32 (count + 1))
                (enqueue (t_enqueue t) (operation_id r) k (root_dir r) (recovery_priority k) q) db
        end
  end.

Definition recover_unfinished_operations (c : OperationCoordinator) (io_ok : bool)
    (env : nat → Turn) (q : Queue) (db : DB) : result Z StorageError * Queue * DB :=
  match CheckpointManager.get_unfinished_operations (project_id c) io_ok db with
  | Err e => (Err e, q, db)
  | Ok unfinished => recover_loop c env 0 unfinished 0 q db
  end.

(** [get_checkpoint] failing counts as no checkpoint. *)
Definition get_operation_phase (c : OperationCoordinator) (io_ok : bool) (op : string)
    (q : Queue) (db : DB) : result OperationPhase StorageError :=
  if is_operation op (get_active q) then Ok Active
  else if existsb (λ o, bool_decide (p_operation_id o = op)) (peek_pending q) then Ok Queued
  else match CheckpointManager.get_checkpoint (project_id c) io_ok op db with
       | Ok (Some r) =>
           match status r with
           | Completed => Ok PhaseCompleted
           | Failed => Ok PhaseFailed
           | InProgress => Ok Active
           end
       | _ => Err (NotFound ("Operation not found: " +:+ op))
       end.

(** The operation id only selects the kind and the root; [validate_and_recover]
    then looks at the newest unfinished checkpoint of that kind and root. *)
Definition validate_checkpoint_integrity (c : OperationCoordinator) (io_ok io_ok' : bool)
    (op : string) (db : DB) : result bool StorageError :=
  match CheckpointManager.get_checkpoint (project_id c) io_ok op db with
  | Err e => Err e
  | Ok None => Ok false
  | Ok (Some r) =>
      match kind_from_str (operation_type r) with
      | Err _ => Ok false
      | Ok k =>
          match CheckpointManager.validate_and_recover_checkpoint (project_id c) io_ok' k
                  (root_dir r) db with
          | Ok (Some _) => Ok true
          | Ok None => Ok false
          | Err e => Err e
          end
      end
  end.

(** ** Startup *)

(** The outcomes and clock readings of one startup. *)
Record StartupEnv := {
  load_ok : bool; cleanup_ok : bool; cleanup_query_ok : bool; t_cutoff : DateTime;
  t_cleanup : DateTime; unfinished_ok : bool; turns : nat → Turn; elapsed : Duration;
}.

Definition run_cleanup (c : OperationCoordinator) (e : StartupEnv) (q : Queue) (db : DB)
    : result Z StorageError * Queue * DB :=
  cleanup_stale_operations (cleanup_ok e) (cleanup_query_ok e) (t_cutoff e) (t_cleanup e)
    (heartbeat_timeout_secs c) q db.

Definition initialize (c : OperationCoordinator) (e : StartupEnv) (q : Queue) (db : DB)
    : result Z StorageError * Queue * DB :=
  match load_persisted_active (load_ok e) q db with
  | (Err err, q) => (Err err, q, db)
  | (Ok _, q) =>
      match run_cleanup c e q db with
      | (Err err, q, db) => (Err err, q, db)
      | (Ok _, q, db) => recover_unfinished_operations c (unfinished_ok e) (turns e) q db
      end
  end.

Definition loaded_detail (a : option (ActiveOperation Stamp)) : string :=
  match a with
  | Some a => "✓ Loaded active operation: " +:+ a_operation_id a +:+ " (type: " +:+
              kind_as_str (a_operation_type a) +:+ ")"
  | None => "✓ No persisted active operations found"
  end.

Definition cleaned_detail (n timeout : Z) : string :=
  if 0 <? n then "✓ Cleaned " +:+ pretty n +:+ " stale operations (timeout: " +:+
                 pretty timeout +:+ "s)"
  else "✓ No stale operations to clean".

Definition recovered_detail (n : Z) : string :=
  if 0 <? n then "✓ Recovered " +:+ pretty n +:+ " unfinished operations"
  else "✓ No unfinished operations to recover".

Definition tracked (e : StartupEnv) (phase : InitializationPhase) (loaded cleaned recovered : Z)
    (log : list string) (err : option (string * StorageError)) : InitializationResult :=
  {| final_phase := phase; loaded_count := wrap32 loaded; cleaned_count := wrap32 cleaned;
     recovered_count := wrap32 recovered; duration_ms := elapsed e / 1000000;
     details := log; error := err |}.

Definition initialize_with_tracking (c : OperationCoordinator) (e : StartupEnv) (q : Queue)
    (db : DB) : result InitializationResult StorageError * Queue * DB :=
  match load_persisted_active (load_ok e) q db with
  | (Err err, q) =>
      (Ok (tracked e InitFailed 0 0 0 []
             (Some ("Failed to load persisted operations: ", err))), q, db)
  | (Ok a, q) =>
      let loaded := match a with Some _ => 1 | None => 0 end in
      let log := [loaded_detail a] in
      match run_cleanup c e q db with
      | (Err err, q, db) =>
          (Ok (tracked e InitFailed loaded 0 0 log
                 (Some ("Failed to clean stale operations: ", err))), q, db)
      | (Ok cleaned, q, db) =>
          let log := log ++ [cleaned_detail cleaned (heartbeat_timeout_secs c)] in
          match recover_unfinished_operations c (unfinished_ok e) (turns e) q db with
          | (Err err, q, db) =>
              (Ok (tracked e InitFailed loaded cleaned 0 log
                     (Some ("Failed to recover unfinished operations: ", err))), q, db)
          | (Ok recovered, q, db) =>
              (Ok (tracked e InitCompleted loaded cleaned recovered
                     (log ++ [recovered_detail recovered]) None), q, db)
          end
      end
  end.

(** ** What recovery replays *)

(** The fresh full and incremental operations of a list of unfinished ones,
    each with the instant it is enqueued at. *)
Fixpoint fresh_requests (c : OperationCoordinator) (env : nat → Turn) (i : nat)
    (l : list (CheckpointRecord Stamp))
    : list (DateTime * CheckpointRecord Stamp * OperationKind) :=
  match l with
  | [] => []
  | r :: rest =>
      (if is_stale_for_recovery c (t_check (env i)) r then []
       else match kind_from_str (operation_type r) with
            | Ok k => if bool_decide (k ∈ [HotUpdate; ConfigChange]) then []
                      else [(t_enqueue (env i), r, k)]
            | Err _ => []
            end) ++ fresh_requests c env (S i) rest
  end.

Definition replay (q : Queue) (x : DateTime * CheckpointRecord Stamp * OperationKind) : Queue :=
  let '(t, r, k) := x in enqueue t (operation_id r) k (root_dir r) (recovery_priority k) q.

(** The operations found stale at their turn. *)
Definition stale_turn (c : OperationCoordinator) (env : nat → Turn) (i : nat)
    (l : list (CheckpointRecord Stamp)) (op : string) : Prop :=
  ∃ j r, l !! j = Some r ∧ operation_id r = op ∧
         is_stale_for_recovery c (t_check (env (i + j)%nat)) r = true.

Definition marked_failed (p : Z) (op : string) (db : DB) : Prop :=
  ∃ r, get_checkpoint p op db = Some r ∧ status r = Failed ∧
       last_error r = Some skipped_reason ∧ active_flag r = false.

Lemma stale_turn_cons c env i r rest op :
  stale_turn c env i (r :: rest) op ↔
  (operation_id r = op ∧ is_stale_for_recovery c (t_check (env i)) r = true) ∨
  stale_turn c env (S i) rest op.
Proof.
  split.
  - intros (j & r' & Hl & Hop & Hs). destruct j as [|j]; simplify_eq/=.
    + left. split; [done|]. by rewrite Nat.add_0_r in Hs.
    + right. exists j, r'. split; [done|]. split; [done|]. by rewrite Nat.add_succ_r in Hs.
  - intros [[Hop Hs]|(j & r' & Hl & Hop & Hs)].
    + exists 0%nat, r. by rewrite Nat.add_0_r.
    + exists (S j), r'. by rewrite Nat.add_succ_r.
Qed.

Lemma stale_turn_member c env i l op : stale_turn c env i l op → op ∈ map operation_id l.
Proof.
  intros (j & r & Hl & <- & _). apply list_elem_of_fmap_2. by eapply list_elem_of_lookup_2.
Qed.

Lemma wrap32_add_l a b : wrap32 (wrap32 a + b) = wrap32 (a + b).
Proof. unfold wrap32. apply Zplus_mod_idemp_l. Qed.

(** The effect of the loop on the checkpoints. *)
Definition recovered (c : OperationCoordinator) (env : nat → Turn) (i : nat)
    (l : list (CheckpointRecord Stamp)) (db db' : DB) : Prop :=
  (∀ op, stale_turn c env i l op → marked_failed (project_id c) op db') ∧
  (∀ pr op, (pr = project_id c → ¬ stale_turn c env i l op) →
     get_checkpoint pr op db' = get_checkpoint pr op db).

Lemma recovered_skip c env i r rest (db db' : DB) :
  is_stale_for_recovery c (t_check (env i)) r = false →
  recovered c env (S i) rest db db' → recovered c env i (r :: rest) db db'.
Proof.
  intros Es [Hst Hun]. split.
  - intros op [[_ ?]|Hop]%stale_turn_cons; [congruence|by apply Hst].
  - intros pr op Hn. apply Hun. intros Hpr Hop. apply (Hn Hpr), stale_turn_cons. by right.
Qed.

Lemma recovered_fail c env i r rest (db db1 db' : DB) :
  is_stale_for_recovery c (t_check (env i)) r = true →
  operation_id r ∉ map operation_id rest →
  marked_failed (project_id c) (operation_id r) db1 →
  (∀ pr op, (pr, op) ≠ (project_id c, operation_id r) →
     get_checkpoint pr op db1 = get_checkpoint pr op db) →
  recovered c env (S i) rest db1 db' → recovered c env i (r :: rest) db db'.
Proof.
  intros Es Hr (rf & Hrf & Hfail) Hother [Hst Hun]. split.
  - intros op [[<- _]|Hop]%stale_turn_cons; [|by apply Hst].
    exists rf. split; [|done]. rewrite Hun; [done|].
    intros _ Hx. by apply Hr, (stale_turn_member _ _ _ _ _ Hx).
  - intros pr op Hn. rewrite Hun.
    + apply Hother. intros [= -> ->]. apply (Hn eq_refl), stale_turn_cons. by left.
    + intros Hpr Hop. apply (Hn Hpr), stale_turn_cons. by right.
Qed.

Section loop.
Context (c : OperationCoordinator) (env : nat → Turn).
Hypothesis transactions_succeed : ∀ i, fail_ok (env i) = true.

Lemma recover_loop_spec l : ∀ i count (q : Queue) (db : DB),
  wf db → NoDup (map operation_id l) →
  (∀ r, r ∈ l → is_Some (get_checkpoint (project_id c) (operation_id r) db)) →
  (∀ r, r ∈ l → is_ok (kind_from_str (operation_type r)) = true) →
  ∃ db',
    recover_loop c env i l (wrap32 count) q db =
      (Ok (wrap32 (count + Z.of_nat (length (fresh_requests c env i l)))),
       foldl replay q (fresh_requests c env i l), db') ∧
    wf db' ∧ recovered c env i l db db'.
Proof.
  induction l as [|r rest IH]; intros i count q db Hwf Hnd Hrow Hkind.
  { exists db. simpl. rewrite Z.add_0_r. split; [done|]. split; [done|]. split; [|done].
    by intros op (j & r & Hl & _). }
  apply NoDup_cons in Hnd as [Hr Hnd]. cbn [recover_loop fresh_requests].
  assert (∀ r, r ∈ rest → is_ok (kind_from_str (operation_type r)) = true) as Hkind'
    by (intros; apply Hkind; by right).
  destruct (is_stale_for_recovery c (t_check (env i)) r) eqn:Es.
  - destruct (Hrow r ltac:(by left)) as [r0 Hr0].
    destruct (CheckpointManager.mark_failed_spec (project_id c) db (operation_id r) r0
      (t_fail (env i)) (t_fail' (env i)) (t_fail'' (env i)) skipped_reason Hwf Hr0)
      as (Em & Hwf1 & Hfail & Hother).
    rewrite transactions_succeed, Em. cbn [app].
    edestruct (IH (S i) count q) as (db' & E & Hwf' & Hrec); [exact Hwf1|done| |done|].
    { intros r1 Hr1. rewrite Hother; [apply Hrow; by right|]. intros [= Heq]. apply Hr.
      rewrite <- Heq. by apply list_elem_of_fmap_2. }
    exists db'. split; [exact E|]. split; [done|]. by eapply recovered_fail.
  - assert (∀ r, r ∈ rest → is_Some (get_checkpoint (project_id c) (operation_id r) db)) as Hrow'
      by (intros; apply Hrow; by right).
    pose proof (Hkind r ltac:(by left)) as Hk.
    destruct (kind_from_str (operation_type r)) as [k|]; [|done]. case_bool_decide as Hhot.
    + destruct (IH (S i) count q db) as (db' & E & Hwf' & Hrec); [done..|].
      exists db'. split; [exact E|]. split; [done|by apply recovered_skip].
    + rewrite wrap32_add_l.
      destruct (IH (S i) (count + 1) (replay q (t_enqueue (env i), r, k)) db)
        as (db' & E & Hwf' & Hrec); [done..|].
      exists db'. split; [|split; [done|by apply recovered_skip]].
      cbn [app length foldl replay] in *. rewrite E.
      by rewrite Nat2Z.inj_succ, <- Z.add_1_l, Z.add_assoc.
Qed.
End loop.

(** C4. Recovery at startup enqueues exactly the unfinished full and
    incremental operations that are inside the freshness window, in the order of
    the query and with the priority of their kind, and counts them. Every unfinished
    operation outside of the window is marked failed with its flag cleared, so
    that no later restart finds it unfinished, and no other checkpoint
    changes. *)
Theorem recovery_replays_fresh_operations (c : OperationCoordinator) (env : nat → Turn)
    (q : Queue) (db : DB)
    (Hdb : reachable CheckpointStore.init CheckpointStore.step db)
    (Hok : ∀ i, fail_ok (env i) = true)
    (Hkind : ∀ r, r ∈ get_unfinished_operations (project_id c) db →
               is_ok (kind_from_str (operation_type r)) = true) :
  let unfinished := get_unfinished_operations (project_id c) db in
  let fresh := fresh_requests c env 0 unfinished in
  ∃ db',
    recover_unfinished_operations c true env q db =
      (Ok (wrap32 (Z.of_nat (length fresh))), foldl replay q fresh, db') ∧
    (∀ op, stale_turn c env 0 unfinished op →
       marked_failed (project_id c) op db' ∧
       ∀ r, r ∈ get_unfinished_operations (project_id c) db' → operation_id r ≠ op) ∧
    (∀ pr op, (pr = project_id c → ¬ stale_turn c env 0 unfinished op) →
       get_checkpoint pr op db' = get_checkpoint pr op db).
Proof.
  intros unfinished fresh.
  pose proof (invariant_reachable CheckpointStore.init CheckpointStore.step wf db Hdb) as Hwf.
  destruct (recover_loop_spec c env Hok unfinished 0 0 q db) as (db' & E & Hwf' & Hst & Hun);
    [done|by apply CheckpointManager.unfinished_nodup| |done|].
  { intros r Hr. destruct (CheckpointManager.unfinished_stored _ _ _ Hwf Hr) as (r0 & -> & _).
    by eexists. }
  exists db'. split; [exact E|]. split; [|done]. intros op Hop. split; [by apply Hst|].
  intros r Hr <-. destruct (Hst _ Hop) as (r1 & Hr1 & Hs & _).
  destruct (CheckpointManager.unfinished_stored _ _ _ Hwf' Hr) as (r2 & Hr2 & Hs2 & _).
  congruence.
Qed.

Lemma recover_loop_range c env l i count (q : Queue) (db : DB) :
  match (recover_loop c env i l (wrap32 count) q db).1.1 with
  | Ok n => wrap32 n = n
  | Err _ => True
  end.
Proof.
  revert i count q db. induction l as [|r rest IH]; intros i count q db; simpl.
  { unfold wrap32. apply Z.mod_mod. lia. }
  destruct (is_stale_for_recovery _ _ _).
  - destruct (CheckpointManager.mark_operation_failed _ _ _ _ _ _ _ _) as [[u|e] db1]; [apply IH|done].
  - destruct (kind_from_str _); [|done]. case_bool_decide; apply IH.
Qed.

(** [initialize_with_tracking] leaves the queue and the database as
    [initialize] does and never fails: where [initialize] returns a count, it
    reports completion with that count and one log line per phase; where
    [initialize] fails, it reports the failure with the same error and no
    recovered operation. *)
Theorem tracking_agrees_with_initialize (c : OperationCoordinator) (e : StartupEnv)
    (q : Queue) (db : DB) :
  let plain := initialize c e q db in
  let tracking := initialize_with_tracking c e q db in
  tracking.1.2 = plain.1.2 ∧ tracking.2 = plain.2 ∧
  ∃ res, tracking.1.1 = Ok res ∧
    match plain.1.1 with
    | Ok n => final_phase res = InitCompleted ∧ error res = None ∧ recovered_count res = n ∧
              length (details res) = 3%nat
    | Err err => final_phase res = InitFailed ∧ (∃ prefix, error res = Some (prefix, err)) ∧
                 recovered_count res = 0
    end.
Proof.
  unfold initialize, initialize_with_tracking.
  destruct (load_persisted_active _ _ _) as [[a|err] q1]; cbn.
  2: { split; [done|]. split; [done|]. eexists. split; [done|]. cbn. eauto. }
  destruct (run_cleanup _ _ _ _) as [[[n|err] q2] db2]; cbn.
  2: { split; [done|]. split; [done|]. eexists. split; [done|]. cbn. eauto. }
  pose proof (λ l, recover_loop_range c (turns e) l 0 0 q2 db2) as Hrange.
  unfold recover_unfinished_operations. destruct (CheckpointManager.get_unfinished_operations _ _ _) as [l|err]; cbn.
  2: { split; [done|]. split; [done|]. eexists. split; [done|]. cbn. eauto. }
  specialize (Hrange l). cbn in Hrange.
  destruct (recover_loop _ _ _ _ _ _ _) as [[[m|err] q3] db3]; cbn in *;
    (split; [done|]; split; [done|]; eexists; split; [done|]; cbn; eauto).
Qed.

Lemma cleanup_keeps_checkpoints io1 io2 io3 p op (db : DB) pr op' :
  get_checkpoint pr op' (cleanup_operation_artifacts io1 io2 io3 p op db).2 =
  get_checkpoint pr op' db.
Proof. by destruct io1, io2, io3. Qed.

(** Completing the active operation, when its transactions commit. *)
Lemma complete_operation_spec (c : OperationCoordinator) e (q : Queue) (db : DB) a r :
  wf db → clear_ok e = true → mark_ok e = true → project q = project_id c →
  active q = Some a → get_checkpoint (project_id c) (a_operation_id a) db = Some r →
  ∃ db', complete_operation c e q db = (Ok (Some a), set_active None q, db') ∧
    (∃ r', get_checkpoint (project_id c) (a_operation_id a) db' = Some r' ∧
           status r' = Completed ∧ active_flag r' = false) ∧
    ∀ op, op ≠ a_operation_id a →
      get_checkpoint (project_id c) op db' = get_checkpoint (project_id c) op db.
Proof.
  intros Hwf Hc Hm Hp Ha Hr. unfold complete_operation, complete_active. rewrite Ha, Hc, Hm, Hp.
  destruct (clear_flag_spec (t_clear e) (project_id c) (a_operation_id a) db Hwf)
    as (db1 & -> & Hwf1 & Hget). cbn [fst snd].
  assert (get_checkpoint (project_id c) (a_operation_id a) db1 =
    Some (set_activity (t_clear e) false (priority r) (last_heartbeat r) r)) as Hr1
    by by rewrite Hget, Hr, bool_decide_true.
  destruct (CheckpointManager.mark_completed_spec (project_id c) db1 (a_operation_id a) _
    (t_mark e) (t_mark' e) Hwf1 Hr1) as (-> & Hdone & Hother).
  assert (∀ pr op db2, get_checkpoint pr op
      (if recovery_manager c
       then (cleanup_operation_artifacts (files_ok e) (batches_ok e) (units_ok e) (project_id c)
               (a_operation_id a) db2).2
       else db2) = get_checkpoint pr op db2) as Hck
    by (intros; destruct (recovery_manager c); [apply cleanup_keeps_checkpoints|done]).
  eexists. split; [done|]. split; [|intros op Hop]; rewrite ?Hck.
  { destruct Hdone as (r' & ? & ? & ?). by exists r'. }
  rewrite Hother, Hget, bool_decide_false by congruence.
  by destruct (get_checkpoint (project_id c) op db).
Qed.

(** A hot update that requests its slot and dequeues may be given another
    operation: whatever request was waiting at the head of the queue, such as a
    full index that was rejected while another operation ran, is dequeued
    instead, while the caller's own operation stays pending. Completing the
    caller's work then marks the other operation completed, although nobody
    ran it, and leaves the caller's checkpoint as it was. *)
Theorem acquired_operation_may_be_another (c : OperationCoordinator) now t t' op root
    (q : Queue) other rest (db : DB) e r
    (Hdb : reachable CheckpointStore.init CheckpointStore.step db)
    (Hq : queue_ok q) (Hroom : (length (pending q) < 64)%nat)
    (Hproject : project q = project_id c) (Hidle : active q = None)
    (Hhead : pending q = other :: rest) (Hother : request other ≠ (HotUpdate, root))
    (Hne : p_operation_id other ≠ op)
    (Hr : get_checkpoint (project_id c) (p_operation_id other) db = Some r)
    (Hclear : clear_ok e = true) (Hmark : mark_ok e = true) :
  let own := new_op now (project q) op HotUpdate root PHotUpdate in
  ∃ q1 db1 q2 db2,
    execute_next_operation true t t' (request_hot_update now op root q) db =
      (Ok (Some other), q1, db1) ∧
    own ∈ pending q1 ∧
    complete_operation c e q1 db1 = (Ok (Some (activate t (project q) other)), q2, db2) ∧
    (∃ r', get_checkpoint (project_id c) (p_operation_id other) db2 = Some r' ∧
           status r' = Completed) ∧
    get_checkpoint (project_id c) op db2 = get_checkpoint (project_id c) op db.
Proof.
  intros own.
  pose proof (invariant_reachable CheckpointStore.init CheckpointStore.step wf db Hdb) as Hwf.
  set (q0 := request_hot_update now op root q).
  assert (∃ l, pending q0 = other :: l ∧ own ∈ l) as (l & Hl & Hown).
  { unfold q0, request_hot_update. rewrite enqueue_with_room;
      [|done|eapply Nat.le_lt_trans; [apply retain_length|done]].
    fold own. unfold others, keep_before. rewrite Hhead. simpl.
    rewrite (proj2 (request_neq other own) Hother). simpl.
    assert (higher own other = false) as ->
      by (apply not_higher_spec; simpl; by destruct (p_priority other)).
    simpl. eexists. split; [done|]. apply elem_of_app. right. by left. }
  assert (active q0 = None ∧ project q0 = project q) as [Ha Hp] by done.
  set (q1 := {| project := project q; active := Some (activate t (project q) other);
                pending := l |}).
  assert (dequeue_reserve t q0 = Some (other, q1)) as Hres
    by (unfold dequeue_reserve; by rewrite Ha, Hl, Hp).
  destruct (dequeue_persist_spec t' (project q) other db Hwf) as (db1 & Hper & Hwf1 & Hget).
  destruct (complete_operation_spec c e q1 db1
    (activate t (project q) other)
    (set_activity t' true (as_i32 (p_priority other)) (Some (to_rfc3339 t')) r))
    as (db2 & Hcomp & (r' & Hr' & Hst & _) & Hrest); try done.
  { rewrite Hget, <- Hproject, bool_decide_true by done. rewrite Hproject. simpl. by rewrite Hr. }
  exists q1, db1, (set_active None q1), db2. split; [|split; [exact Hown|split; [exact Hcomp|split; [by exists r'|]]]].
  - unfold execute_next_operation, can_execute_next, get_active, dequeue.
    fold q0. by rewrite Ha, Hres, Hp, Hper.
  - rewrite Hrest, Hget, bool_decide_false by (simpl; congruence).
    by destruct (get_checkpoint (project_id c) op db).
Qed.

End coordinator.

(** ** Witnesses *)

Definition sample_coordinator : OperationCoordinator :=
  {| project_id := 7; recovery_manager := true; heartbeat_timeout_secs := 300;
     recovery_freshness_secs := Some 3600 |}.

Definition sample_turns (i : nat) : Turn :=
  {| t_check := from_secs 7200; t_fail := from_secs 7200; t_fail' := from_secs 7200;
     t_fail'' := from_secs 7200; fail_ok := true; t_enqueue := from_secs 7200 |}.

(** A full index last written two hours ago and a fresh incremental update. *)
Definition fresh_checkpoint : CheckpointRecord Z :=
  {| id := None; CheckpointStore.project_id := 7; operation_id := "inc_1";
     operation_type := "incremental"; root_dir := "/p"; total_files := 1; batch_size := 1;
     current_batch_index := 0; current_phase := "Scanning"; file_list_hash := None;
     created_at := from_secs 7000; updated_at := from_secs 7000; last_error := None;
     failure_count := 0; status := InProgress; active_flag := false; priority := 2;
     last_heartbeat := None; failed_at := None |}.

Definition restart_store : Store Z := exec (SCreate 7 fresh_checkpoint) sample_store.

Lemma restart_store_reachable : reachable CheckpointStore.init CheckpointStore.step restart_store.
Proof.
  destruct sample_store_reachable as (s0 & H0 & Hs). exists s0. split; [done|].
  eapply rtc_r; [exact Hs|]. eexists. reflexivity.
Qed.

Lemma recovery_replays_fresh_operations_witness :
  ∃ db', recover_unfinished_operations sample_coordinator true sample_turns empty_queue
           restart_store =
           (Ok 1, enqueue (from_secs 7200) "inc_1" Incremental "/p" PIncremental empty_queue, db') ∧
         marked_failed 7 "op" db'.
Proof.
  destruct (recovery_replays_fresh_operations sample_coordinator sample_turns empty_queue
              restart_store restart_store_reachable) as (db' & E & Hst & _).
  - reflexivity.
  - vm_compute. intros r Hr.
    repeat (apply elem_of_cons in Hr as [->|Hr]; [reflexivity|]). by apply not_elem_of_nil in Hr.
  - exists db'. split; [rewrite E; vm_compute; reflexivity|].
    apply (Hst "op"). exists 0%nat, (without_failed_at (read_checkpoint "op" restart_store)).
    vm_compute. repeat split.
Defined.

(** A full index that was rejected earlier and is still waiting. *)
Definition waiting_queue : OperationQueue Z :=
  request_full_index 1 "op" "/p" empty_queue.

Definition waiting_operation : PendingOperation Z := new_op 1 7 "op" FullIndex "/p" PFullIndex.

Lemma waiting_queue_ok : queue_ok waiting_queue.
Proof.
  apply enqueue_ok. split; [constructor|]. split; [constructor|]. simpl. unfold MAX_PENDING_OPERATIONS. lia.
Qed.

Definition sample_completion : CompletionEnv :=
  {| clear_ok := true; mark_ok := true; files_ok := true; batches_ok := true; units_ok := true;
     t_clear := 5; t_mark := 6; t_mark' := 7 |}.

Lemma acquired_operation_may_be_another_witness :
  ∃ q1 db1 q2 db2,
    execute_next_operation true 3 4 (request_hot_update 2 "hot_1" "/p" waiting_queue) sample_store =
      (Ok (Some waiting_operation), q1, db1) ∧
    new_op 2 7 "hot_1" HotUpdate "/p" PHotUpdate ∈ pending q1 ∧
    complete_operation sample_coordinator sample_completion q1 db1 =
      (Ok (Some (activate 3 7 waiting_operation)), q2, db2) ∧
    (∃ r', get_checkpoint 7 "op" db2 = Some r' ∧ status r' = Completed) ∧
    get_checkpoint 7 "hot_1" db2 = get_checkpoint 7 "hot_1" sample_store.
Proof.
  apply (acquired_operation_may_be_another sample_coordinator 2 3 4 "hot_1" "/p" waiting_queue
           waiting_operation [] sample_store sample_completion (read_checkpoint "op" sample_store)
           sample_store_reachable waiting_queue_ok); try (vm_compute; reflexivity).
  - vm_compute. lia.
  - done.
  - done.
Defined.

End Coordinator.
