(* ===== verification/Admission.v ===== *)
(** * Admission control of the remote server

    Models crates/app/cce-admission: tokens kept as digests (token.rs), the
    configuration read from the environment and its validation (config.rs),
    the scope of a token (context.rs), the counters (metrics.rs), and the
    middleware that authenticates, limits and scopes every request
    (middleware.rs). *)

From S2P Require Import Prelude Str.
From stdpp Require Import sorting.
From Stdlib Require Import ZArith Lia.
#[local] Open Scope Z_scope.

Module Admission.
Import Str.

Abbreviation digest := (list Z).

Definition is_char (c d : char) : bool := d =? c.

(** ** Tokens *)

Definition MIN_TOKEN_LEN : nat := 16.
Definition FINGERPRINT_BYTES : nat := 4.

(** [diff |= left[i] ^ right[i]] over the 32 bytes. *)
Definition equal_hashes (left right : digest) : bool :=
  foldl (λ diff i, Z.lor diff (Z.lxor (left !!! i) (right !!! i))) 0 (seq 0 32) =? 0.

Record TokenEntry := {
  token : str;
  projects : list Z;
  quota_bytes : option Z;
}.

Record StoredToken := {
  hash : digest;
  stored_fingerprint : str;
  stored_projects : list Z;
  stored_quota : option Z;
}.

(** ** Scope *)

Record AdmissionContext := {
  context_fingerprint : str;
  context_projects : list Z;
  context_quota : option Z;
  is_admin : bool;
}.

Definition new_context (f : str) (ps : list Z) (q : option Z) : AdmissionContext :=
  {| context_fingerprint := f; context_projects := ps; context_quota := q; is_admin := false |}.
Definition new_admin (f : str) (ps : list Z) (q : option Z) : AdmissionContext :=
  {| context_fingerprint := f; context_projects := ps; context_quota := q; is_admin := true |}.

Definition allows_project (c : AdmissionContext) (project_id : Z) : bool :=
  if is_admin c && bool_decide (context_projects c = []) then true
  else bool_decide (project_id ∈ context_projects c).

(** [path.split('?').next()] *)
Definition before_query (path : str) : str := List.hd path (split_on (is_char 63) path).

Definition is_gateway_path (path : str) : bool := contains (lit "/ingest/") (before_query path).

Definition allows_path (c : AdmissionContext) (path : str) : bool :=
  if is_admin c then true else is_gateway_path path.

Definition is_loopback_host (to_lowercase : str → str) (host : str) : bool :=
  let normalized := to_lowercase (trim host) in
  bool_decide (normalized ∈ map lit ["127.0.0.1"; "::1"; "[::1]"; "localhost"]).

Definition requires_admission (to_lowercase : str → str) (host : str) : bool :=
  negb (is_loopback_host to_lowercase host).

Definition is_public_path (path : str) (prefixes : list str) : bool :=
  existsb (λ prefix, bool_decide (path = prefix) || starts_with (prefix ++ lit "/") path) prefixes.

Definition i64_min : Z := - 2 ^ 63.
Definition i64_max : Z := 2 ^ 63 - 1.

Definition project_id_from_path (path : str) : option Z :=
  match Prelude.retain (λ s, negb (bool_decide (s = [])))
          (split_on (is_char 47) (before_query path)) with
  | api :: project :: segment :: _ =>
      if decide (api = lit "api" ∧ project = lit "project") then parse_signed i64_min i64_max segment
      else None
  | _ => None
  end.

(** The first pair without an equals sign ends the search. *)
Fixpoint project_id_from_pairs (pairs : list str) : option Z :=
  match pairs with
  | [] => None
  | item :: pairs =>
      match split_once (is_char 61) item with
      | None => None
      | Some (key, value) =>
          if decide (key = lit "project_id") then parse_signed i64_min i64_max value
          else project_id_from_pairs pairs
      end
  end.

Definition project_id_from_query (query : option str) : option Z :=
  q ← query; project_id_from_pairs (split_on (is_char 38) q).

(** ** Configuration *)

Inductive AdmissionError := Config (reason : string).

Record AdmissionConfig := {
  enabled : bool;
  tokens : list TokenEntry;
  management_tokens : list TokenEntry;
  public_path_prefixes : list str;
  rate_limit_per_min : Z;
  max_body_bytes : Z;
  request_timeout_secs : Z;
  cors_allowed_origins : list str;
}.

Definition default_public_paths : list str := [lit "/api/health"].
Definition default_rate_limit : Z := 600.
Definition default_max_body_bytes : Z := 8 * 1024 * 1024.
Definition default_request_timeout_secs : Z := 300.

Definition default_config : AdmissionConfig :=
  {| enabled := false; tokens := []; management_tokens := [];
     public_path_prefixes := default_public_paths; rate_limit_per_min := default_rate_limit;
     max_body_bytes := default_max_body_bytes;
     request_timeout_secs := default_request_timeout_secs; cors_allowed_origins := [] |}.

Definition is_configured (c : AdmissionConfig) : bool :=
  enabled c && (negb (bool_decide (length (tokens c) = 0%nat))
                || negb (bool_decide (length (management_tokens c) = 0%nat))).

(** The trimmed, nonempty items of a list separated by a character. *)
Definition items (sep : char) (raw : str) : list str :=
  Prelude.retain (λ s, negb (bool_decide (s = []))) (map trim (split_on (is_char sep) raw)).

Fixpoint parse_projects (parts : list str) : result (list Z) AdmissionError :=
  match parts with
  | [] => Ok []
  | part :: parts =>
      match parse_signed i64_min i64_max part with
      | None => Err (Config "admission token projects must be integer ids")
      | Some i =>
          match parse_projects parts with Ok ids => Ok (i :: ids) | Err e => Err e end
      end
  end.

(** [dedup()] drops repeated neighbours. *)
Fixpoint dedup (l : list Z) : list Z :=
  match l with
  | x :: l' =>
      match l' with
      | y :: _ => if x =? y then dedup l' else x :: dedup l'
      | [] => [x]
      end
  | [] => []
  end.

Definition parse_quota (quota_part : str) : result Z AdmissionError :=
  match parse_unsigned u64_max (trim quota_part) with
  | None => Err (Config "admission token quota must be a positive byte count")
  | Some quota =>
      if quota =? 0 then Err (Config "admission token quota must be positive") else Ok quota
  end.

(** The scope of an entry: its quota and the text of its projects. *)
Definition parse_scope (scope : option str) : result (option Z * option str) AdmissionError :=
  match scope with
  | None => Ok (None, None)
  | Some scope =>
      match split_once (is_char 58) scope with
      | Some (projects_part, quota_part) =>
          match parse_quota quota_part with
          | Ok quota => Ok (Some quota, Some projects_part)
          | Err e => Err e
          end
      | None => Ok (None, Some scope)
      end
  end.

Definition parse_token_item (item : str) : result TokenEntry AdmissionError :=
  let '(value, scope) :=
    match split_once (is_char 64) item with
    | Some (value, scope) => (trim value, Some scope)
    | None => (item, None)
    end in
  if decide (value = []) then Err (Config "admission token value must not be empty")
  else match parse_scope scope with
       | Err e => Err e
       | Ok (quota, scope) =>
           match parse_projects (match scope with Some s => items 44 s | None => [] end) with
           | Err e => Err e
           | Ok ids => Ok {| token := value; projects := dedup (merge_sort Z.le ids);
                             quota_bytes := quota |}
           end
       end.

Fixpoint parse_token_items (l : list str) : result (list TokenEntry) AdmissionError :=
  match l with
  | [] => Ok []
  | item :: l =>
      match parse_token_item item with
      | Err e => Err e
      | Ok entry =>
          match parse_token_items l with Ok entries => Ok (entry :: entries) | Err e => Err e end
      end
  end.

Definition parse_token_env (raw : str) : result (list TokenEntry) AdmissionError :=
  match parse_token_items (items 59 raw) with
  | Err e => Err e
  | Ok [] => Err (Config "CCE_ADMISSION_TOKENS holds no usable entries")
  | Ok entries => Ok entries
  end.

(** The variables of the process environment that are set. *)
Record Environment := {
  CCE_ADMISSION_TOKENS : option str;
  CCE_MANAGEMENT_TOKENS : option str;
  CCE_ADMISSION_PUBLIC_PATHS : option str;
  CCE_ADMISSION_RATE_LIMIT_PER_MIN : option str;
  CCE_ADMISSION_MAX_BODY_BYTES : option str;
  CCE_ADMISSION_REQUEST_TIMEOUT_SECS : option str;
  CCE_ADMISSION_CORS_ORIGINS : option str;
}.

Definition nonblank (v : option str) : option str :=
  s ← v; if decide (trim s = []) then None else Some s.

Definition tokens_from (v : option str) : result (list TokenEntry) AdmissionError :=
  match v with Some raw => parse_token_env raw | None => Ok [] end.

(** A numeric variable: absent, or a number of its width. *)
Definition number_from (hi default : Z) (reason : string) (v : option str)
    : result Z AdmissionError :=
  match v with
  | None => Ok default
  | Some raw =>
      match parse_unsigned hi (trim raw) with
      | Some n => Ok n
      | None => Err (Config reason)
      end
  end.

(** ** Metrics *)

Record AdmissionMetrics := {
  admitted : Z;
  auth_rejections : Z;
  scope_rejections : Z;
  rate_rejections : Z;
  body_rejections : Z;
  quota_rejections : Z;
}.

Definition new_metrics : AdmissionMetrics :=
  {| admitted := 0; auth_rejections := 0; scope_rejections := 0; rate_rejections := 0;
     body_rejections := 0; quota_rejections := 0 |}.

Definition record_admitted (m : AdmissionMetrics) : AdmissionMetrics :=
  {| admitted := wrap64 (admitted m + 1); auth_rejections := auth_rejections m;
     scope_rejections := scope_rejections m; rate_rejections := rate_rejections m;
     body_rejections := body_rejections m; quota_rejections := quota_rejections m |}.

Definition record_auth_rejection (m : AdmissionMetrics) : AdmissionMetrics :=
  {| admitted := admitted m; auth_rejections := wrap64 (auth_rejections m + 1);
     scope_rejections := scope_rejections m; rate_rejections := rate_rejections m;
     body_rejections := body_rejections m; quota_rejections := quota_rejections m |}.

Definition record_scope_rejection (m : AdmissionMetrics) : AdmissionMetrics :=
  {| admitted := admitted m; auth_rejections := auth_rejections m;
     scope_rejections := wrap64 (scope_rejections m + 1); rate_rejections := rate_rejections m;
     body_rejections := body_rejections m; quota_rejections := quota_rejections m |}.

Definition record_rate_rejection (m : AdmissionMetrics) : AdmissionMetrics :=
  {| admitted := admitted m; auth_rejections := auth_rejections m;
     scope_rejections := scope_rejections m; rate_rejections := wrap64 (rate_rejections m + 1);
     body_rejections := body_rejections m; quota_rejections := quota_rejections m |}.

Definition record_body_rejection (m : AdmissionMetrics) : AdmissionMetrics :=
  {| admitted := admitted m; auth_rejections := auth_rejections m;
     scope_rejections := scope_rejections m; rate_rejections := rate_rejections m;
     body_rejections := wrap64 (body_rejections m + 1); quota_rejections := quota_rejections m |}.

Definition record_quota_rejection (m : AdmissionMetrics) : AdmissionMetrics :=
  {| admitted := admitted m; auth_rejections := auth_rejections m;
     scope_rejections := scope_rejections m; rate_rejections := rate_rejections m;
     body_rejections := body_rejections m; quota_rejections := wrap64 (quota_rejections m + 1) |}.

(** ** Rate limiting *)

Definition RATE_WINDOW : Duration := from_secs 60.

Record RateBucket := {
  window_start : Instant;
  count : Z;
}.

Record AdmissionGate := {
  store : list StoredToken;
  admin_store : list StoredToken;
  public_prefixes : list str;
  rate_limit : Z;
  max_body : Z;
  timeout_secs : Z;
  allowed_origins : list str;
  buckets : gmap digest RateBucket;
  metrics : AdmissionMetrics;
}.

Definition set_buckets (b : gmap digest RateBucket) (g : AdmissionGate) : AdmissionGate :=
  {| store := store g; admin_store := admin_store g; public_prefixes := public_prefixes g;
     rate_limit := rate_limit g; max_body := max_body g; timeout_secs := timeout_secs g;
     allowed_origins := allowed_origins g; buckets := b; metrics := metrics g |}.

Definition update_metrics (f : AdmissionMetrics → AdmissionMetrics) (g : AdmissionGate)
    : AdmissionGate :=
  {| store := store g; admin_store := admin_store g; public_prefixes := public_prefixes g;
     rate_limit := rate_limit g; max_body := max_body g; timeout_secs := timeout_secs g;
     allowed_origins := allowed_origins g; buckets := buckets g; metrics := f (metrics g) |}.

Definition check_rate (now : Instant) (token_hash : digest) (g : AdmissionGate)
    : bool * AdmissionGate :=
  if rate_limit g =? 0 then (true, g)
  else
    let bucket := default {| window_start := now; count := 0 |} (buckets g !! token_hash) in
    let bucket :=
      if RATE_WINDOW <=? duration_since now (window_start bucket)
      then {| window_start := now; count := 0 |} else bucket in
    let n := sat_add32 (count bucket) 1 in
    (n <=? rate_limit g,
     set_buckets (<[token_hash := {| window_start := window_start bucket; count := n |}]>
                    (buckets g)) g).

(** ** Requests *)

Inductive Method := GET | OPTIONS | OtherMethod.

Inductive StatusCode :=
| UNAUTHORIZED | FORBIDDEN | TOO_MANY_REQUESTS | PAYLOAD_TOO_LARGE | REQUEST_TIMEOUT.

(** A header is present when its value reads as text. *)
Record Request {Body : Type} := {
  path : str;
  query : option str;
  authorization : option str;
  x_api_token : option str;
  content_type : option str;
  origin : option str;
  method : Method;
  body : Body;
}.
Arguments Request : clear implicits.

Definition nonempty (s : str) : option str := if decide (s = []) then None else Some s.

Section middleware.
Context {Body : Type}.

(** A request is passed on, with the context it was given, or rejected. *)
Inductive Response :=
| Passed (context : option AdmissionContext) (r : Request Body)
| Rejected (status : StatusCode) (code : string).

Definition bearer_token (value : str) : option str :=
  '(scheme, t) ← split_once (is_char 32) value;
  if eq_ignore_ascii_case scheme (lit "bearer") then nonempty (trim t) else None.

Definition presented_token (r : Request Body) : option str :=
  match authorization r ≫= bearer_token with
  | Some t => Some t
  | None => v ← x_api_token r; nonempty (trim v)
  end.

(** SHA-256, hexadecimal text, the buffering of a body up to a limit, a body of
    given bytes, and the [project_id] of a JSON document are libraries'. *)
Context (sha256 : list Z → digest) (hex_encode : list Z → str)
  (to_bytes : Body → Z → option (list Z)) (from_bytes : list Z → Body)
  (json_project_id : list Z → option Z).

Definition hash_token (t : str) : digest := sha256 (as_bytes t).
Definition fingerprint (h : digest) : str := hex_encode (take FINGERPRINT_BYTES h).

Definition stored_token (entry : TokenEntry) : StoredToken :=
  let h := hash_token (token entry) in
  {| hash := h; stored_fingerprint := fingerprint h; stored_projects := projects entry;
     stored_quota := quota_bytes entry |}.

Definition from_entries (entries : list TokenEntry) : list StoredToken := map stored_token entries.

Definition authenticate (entries : list StoredToken) (presented : str) : option StoredToken :=
  if (length (as_bytes presented) <? MIN_TOKEN_LEN)%nat then None
  else head (Prelude.retain (λ e, equal_hashes (hash e) (hash_token presented)) entries).

(** *** Validation and loading *)

Fixpoint validate_entries (entries : list TokenEntry) (seen : list digest)
    : result unit AdmissionError :=
  match entries with
  | [] => Ok tt
  | entry :: entries =>
      if (length (as_bytes (token entry)) <? MIN_TOKEN_LEN)%nat then
        Err (Config "every admission token must be at least 16 characters")
      else if existsb (λ i, i <=? 0) (projects entry) then
        Err (Config "admission token projects must hold positive project ids")
      else
        let h := hash_token (token entry) in
        if existsb (λ known, equal_hashes known h) seen then
          Err (Config "duplicate admission token value")
        else validate_entries entries (seen ++ [h])
  end.

Definition validate (c : AdmissionConfig) : result unit AdmissionError :=
  if negb (enabled c) then Ok tt
  else if bool_decide (length (tokens c) = 0%nat) && bool_decide (length (management_tokens c) = 0%nat)
  then Err (Config "admission is enabled but no tokens are configured")
  else
    match validate_entries (tokens c ++ management_tokens c) [] with
    | Err e => Err e
    | Ok _ =>
        if existsb (λ p, bool_decide (p = [])) (public_path_prefixes c) then
          Err (Config "admission public path prefixes must not be empty")
        else Ok tt
    end.

Definition from_env (env : Environment) : result AdmissionConfig AdmissionError :=
  let gateway := nonblank (CCE_ADMISSION_TOKENS env) in
  let management := nonblank (CCE_MANAGEMENT_TOKENS env) in
  match gateway, management with
  | None, None => Ok default_config
  | _, _ =>
    (ts <-? tokens_from gateway;
     ms <-? tokens_from management;
     let prefixes :=
       match CCE_ADMISSION_PUBLIC_PATHS env with
       | Some raw => match items 44 raw with [] => default_public_paths | ps => ps end
       | None => default_public_paths
       end in
     limit <-? number_from u32_max default_rate_limit
       "CCE_ADMISSION_RATE_LIMIT_PER_MIN must be a non-negative integer"
       (CCE_ADMISSION_RATE_LIMIT_PER_MIN env);
     max <-? number_from usize_max default_max_body_bytes
       "CCE_ADMISSION_MAX_BODY_BYTES must be a non-negative integer"
       (CCE_ADMISSION_MAX_BODY_BYTES env);
     let max := if max =? 0 then default_max_body_bytes else max in
     timeout <-? number_from u64_max default_request_timeout_secs
       "CCE_ADMISSION_REQUEST_TIMEOUT_SECS must be a non-negative integer"
       (CCE_ADMISSION_REQUEST_TIMEOUT_SECS env);
     let origins :=
       match CCE_ADMISSION_CORS_ORIGINS env with Some raw => items 44 raw | None => [] end in
     let config :=
       {| enabled := true; tokens := ts; management_tokens := ms;
          public_path_prefixes := prefixes; rate_limit_per_min := limit; max_body_bytes := max;
          request_timeout_secs := timeout; cors_allowed_origins := origins |} in
     _ <-? validate config;
     Ok config)%result
  end.

(** *** The gate *)

Definition new_gate (c : AdmissionConfig) (m : AdmissionMetrics) : AdmissionGate :=
  {| store := from_entries (tokens c); admin_store := from_entries (management_tokens c);
     public_prefixes := public_path_prefixes c; rate_limit := rate_limit_per_min c;
     max_body := max_body_bytes c; timeout_secs := request_timeout_secs c;
     allowed_origins := cors_allowed_origins c; buckets := ∅; metrics := m |}.

Definition is_empty (g : AdmissionGate) : bool :=
  bool_decide (length (store g) = 0%nat) && bool_decide (length (admin_store g) = 0%nat).

(** The stored token of a request and whether it is a management token. *)
Definition find_entry (t : str) (g : AdmissionGate) : option (StoredToken * bool) :=
  match authenticate (admin_store g) t with
  | Some entry => Some (entry, true)
  | None => entry ← authenticate (store g) t; Some (entry, false)
  end.

Definition context_of (entry : StoredToken) (admin : bool) : AdmissionContext :=
  (if admin then new_admin else new_context)
    (stored_fingerprint entry) (stored_projects entry) (stored_quota entry).

(** Whether the body is read for its project. *)
Definition buffers_body (r : Request Body) : bool :=
  match content_type r with
  | Some ct => starts_with (lit "application/json") ct && negb (match method r with GET => true | _ => false end)
  | None => false
  end.

Definition set_body (b : Body) (r : Request Body) : Request Body :=
  {| path := path r; query := query r; authorization := authorization r;
     x_api_token := x_api_token r; content_type := content_type r; origin := origin r;
     method := method r; body := b |}.

Definition body_project (bytes : list Z) : option Z :=
  if decide (bytes = []) then None else json_project_id bytes.

(** The projects of the body and the request with its body put back, unless
    the body is too long. *)
Definition read_body (r : Request Body) (limit : Z) : option (list Z * Request Body) :=
  if buffers_body r then
    bytes ← to_bytes (body r) limit;
    Some (option_list (body_project bytes), set_body (from_bytes bytes) r)
  else Some ([], r).

Definition admission_middleware (now : Instant) (r : Request Body) (g : AdmissionGate)
    : Response * AdmissionGate :=
  if is_public_path (path r) (public_prefixes g) then (Passed None r, g)
  else
    match presented_token r with
    | None => (Rejected UNAUTHORIZED "AUTH_REQUIRED", update_metrics record_auth_rejection g)
    | Some t =>
      match find_entry t g with
      | None => (Rejected UNAUTHORIZED "AUTH_REQUIRED", update_metrics record_auth_rejection g)
      | Some (entry, admin) =>
        let context := context_of entry admin in
        if negb (allows_path context (path r)) then
          (Rejected FORBIDDEN "PROJECT_FORBIDDEN", update_metrics record_scope_rejection g)
        else
          let '(within, g) := check_rate now (hash entry) g in
          if negb within then
            (Rejected TOO_MANY_REQUESTS "RATE_LIMITED", update_metrics record_rate_rejection g)
          else
            let candidates := option_list (project_id_from_path (path r))
                              ++ option_list (project_id_from_query (query r)) in
            match read_body r (max_body g) with
            | None =>
                (Rejected PAYLOAD_TOO_LARGE "BODY_TOO_LARGE", update_metrics record_body_rejection g)
            | Some (more, r) =>
                if existsb (λ p, negb (allows_project context p)) (candidates ++ more) then
                  (Rejected FORBIDDEN "PROJECT_FORBIDDEN", update_metrics record_scope_rejection g)
                else (Passed (Some context) r, update_metrics record_admitted g)
            end
      end
    end.

(** *** Timeouts and origins *)

(** [timed d] is the outcome of the rest of the server when it answers within
    the duration; [run] is its outcome without a bound. *)
Definition timeout_middleware {R} (run : R) (timed : Duration → option R) (g : AdmissionGate)
    : result R StatusCode :=
  if timeout_secs g =? 0 then Ok run
  else match timed (from_secs (timeout_secs g)) with
       | Some response => Ok response
       | None => Err REQUEST_TIMEOUT
       end.

Inductive CorsOutcome :=
| Untouched
| OriginForbidden
| Preflight (allowed : str)
| WithOrigin (allowed : str).

Definition cors_middleware (r : Request Body) (g : AdmissionGate) : CorsOutcome :=
  match origin r with
  | None => Untouched
  | Some o =>
      if negb (existsb (λ a, bool_decide (a = o)) (allowed_origins g)) then OriginForbidden
      else match method r with OPTIONS => Preflight o | _ => WithOrigin o end
  end.

End middleware.

(** ** Rates *)

(** Requests of tokens at instants, and whether each is within the budget. *)
Fixpoint run_checks (requests : list (digest * Instant)) (g : AdmissionGate)
    : list (digest * bool) * AdmissionGate :=
  match requests with
  | [] => ([], g)
  | (h, now) :: requests =>
      let '(b, g) := check_rate now h g in
      let '(l, g) := run_checks requests g in ((h, b) :: l, g)
  end.

Definition accepted (h : digest) (l : list (digest * bool)) : Z :=
  count_if (λ p, bool_decide (p.1 = h) && p.2) l.

(** What a check makes of the bucket of its token. *)
Definition next_bucket (now : Instant) (o : option RateBucket) : RateBucket :=
  let b := default {| window_start := now; count := 0 |} o in
  let b := if RATE_WINDOW <=? duration_since now (window_start b)
           then {| window_start := now; count := 0 |} else b in
  {| window_start := window_start b; count := sat_add32 (count b) 1 |}.

Lemma check_rate_limited now h g :
  rate_limit g ≠ 0 →
  check_rate now h g =
    (count (next_bucket now (buckets g !! h)) <=? rate_limit g,
     set_buckets (<[h := next_bucket now (buckets g !! h)]> (buckets g)) g).
Proof. intros Hl. unfold check_rate. apply Z.eqb_neq in Hl as ->. done. Qed.

Lemma check_rate_frame now h g :
  rate_limit (check_rate now h g).2 = rate_limit g ∧
  ∀ h', h' ≠ h → buckets (check_rate now h g).2 !! h' = buckets g !! h'.
Proof.
  unfold check_rate. destruct (rate_limit g =? 0); simpl; [done|]. split; [done|].
  intros h' Hne. by rewrite lookup_insert_ne.
Qed.

Lemma run_checks_cons h now requests g :
  (run_checks ((h, now) :: requests) g).1 =
    (h, (check_rate now h g).1) :: (run_checks requests (check_rate now h g).2).1.
Proof. simpl. destruct (check_rate now h g) as [b g']. simpl. by destruct (run_checks requests g'). Qed.

(** A token that was limited gets into a new window: a check 60 seconds after
    the start of its window is accepted. *)
Lemma accepted_in_new_window now h g :
  0 ≤ rate_limit g → (∀ b, buckets g !! h = Some b → window_start b + RATE_WINDOW ≤ now) →
  (check_rate now h g).1 = true.
Proof.
  intros Hl Hb. destruct (decide (rate_limit g = 0)) as [H0|H0].
  { unfold check_rate. by rewrite H0. }
  rewrite check_rate_limited by done. simpl. apply Z.leb_le. unfold next_bucket. simpl.
  assert (0 < RATE_WINDOW) as HW by done.
  destruct (buckets g !! h) as [b|]; simpl.
  - specialize (Hb b eq_refl). rewrite (proj2 (Z.leb_le _ _)); simpl; [unfold sat_add32, u32_max; lia|].
    unfold duration_since, sat_sub. lia.
  - destruct (_ <=? _); simpl; unfold sat_add32, u32_max; lia.
Qed.

(** A rejection leaves the start of the window where it was. *)
Lemma rejection_keeps_window now h g :
  0 ≤ rate_limit g → (check_rate now h g).1 = false →
  ∃ b b', buckets g !! h = Some b ∧ buckets (check_rate now h g).2 !! h = Some b' ∧
    window_start b' = window_start b.
Proof.
  intros Hl Hf. destruct (decide (rate_limit g = 0)) as [H0|H0].
  { unfold check_rate in Hf. by rewrite H0 in Hf. }
  rewrite check_rate_limited in Hf |- * by done. simpl in *. rewrite lookup_insert_eq.
  apply Z.leb_gt in Hf. unfold next_bucket in *.
  destruct (buckets g !! h) as [b|]; simpl in *.
  - exists b. eexists. split_and!; [done..|]. simpl. destruct (_ <=? _); simpl in *; [|done].
    unfold sat_add32, u32_max in Hf. lia.
  - destruct (_ <=? _); simpl in Hf; unfold sat_add32, u32_max in Hf; lia.
Qed.

Lemma run_checks_progress h t requests g :
  0 ≤ rate_limit g → (∀ b, buckets g !! h = Some b → window_start b ≤ t) →
  (∃ now, (h, now) ∈ requests ∧ t + RATE_WINDOW ≤ now) →
  (h, true) ∈ (run_checks requests g).1.
Proof.
  revert g. induction requests as [|[h' now'] requests IH]; intros g Hl Hb (now & Hin & Hnow);
    [by apply elem_of_nil in Hin|].
  rewrite run_checks_cons. destruct (check_rate_frame now' h' g) as [Hlim Hframe].
  destruct (decide (h' = h)) as [->|Hne].
  - destruct (check_rate now' h g).1 eqn:Ec; [by left|]. right. apply IH.
    + by rewrite Hlim.
    + destruct (rejection_keeps_window now' h g Hl Ec) as (b & b' & Eb & Eb' & Hs).
      intros b'' Hb''. rewrite Eb' in Hb''. injection Hb'' as <-. rewrite Hs. by apply Hb.
    + apply elem_of_cons in Hin as [[= ->]|Hin]; [|by exists now].
      rewrite accepted_in_new_window in Ec; [done|done|]. intros b Eb. specialize (Hb b Eb). lia.
  - right. apply IH.
    + by rewrite Hlim.
    + intros b. rewrite Hframe by done. apply Hb.
    + exists now. split; [|done]. apply elem_of_cons in Hin as [[= -> _]|Hin]; done.
Qed.

(** How many more requests can be accepted before [t0] + 60 seconds. *)
Definition allowance (limit : Z) (t0 : Instant) (o : option RateBucket) : Z :=
  match o with
  | None => limit
  | Some b => Z.max 0 (limit - count b) + (if window_start b <? t0 then limit else 0)
  end.

Definition count_ok (o : option RateBucket) : Prop :=
  match o with Some b => 0 ≤ count b ≤ u32_max | None => True end.

Lemma allowance_step limit t0 now o :
  0 < limit < u32_max → t0 ≤ now < t0 + RATE_WINDOW → count_ok o →
  let b := next_bucket now o in
  count_ok (Some b) ∧
  (if count b <=? limit then 1 else 0) + allowance limit t0 (Some b) ≤ allowance limit t0 o.
Proof.
  intros Hl Ht Ho. cbv zeta. assert (0 < RATE_WINDOW) as HW by done.
  unfold next_bucket, count_ok, allowance in *. cbn [count window_start].
  destruct o as [b|]; simpl.
  - destruct (Z.leb_spec RATE_WINDOW (duration_since now (window_start b))) as [Hw|Hw];
      cbn [count window_start]; unfold duration_since, sat_sub in Hw; unfold sat_add32, u32_max in *.
    + split; [lia|]. destruct (Z.leb_spec (Z.min (0 + 1) (2 ^ 32 - 1)) limit);
        destruct (Z.ltb_spec now t0), (Z.ltb_spec (window_start b) t0); lia.
    + split; [lia|]. destruct (Z.leb_spec (Z.min (count b + 1) (2 ^ 32 - 1)) limit);
        destruct (Z.ltb_spec (window_start b) t0); lia.
  - unfold duration_since, sat_sub. rewrite Z.sub_diag. rewrite (proj2 (Z.leb_gt _ _)) by (simpl; lia).
    cbn [count window_start]. unfold sat_add32, u32_max in *. split; [lia|].
    destruct (Z.leb_spec (Z.min (0 + 1) (2 ^ 32 - 1)) limit), (Z.ltb_spec now t0); lia.
Qed.

Lemma run_checks_allowance h t0 requests g :
  0 < rate_limit g < u32_max → count_ok (buckets g !! h) →
  Forall (λ p, t0 ≤ p.2 < t0 + RATE_WINDOW) requests →
  accepted h (run_checks requests g).1 ≤ allowance (rate_limit g) t0 (buckets g !! h).
Proof.
  intros Hl Hok Hts. revert g Hl Hok.
  induction Hts as [|[h' now] requests Hnow Hts IH]; intros g Hl Hok.
  { simpl. unfold accepted, allowance. simpl. destruct (buckets g !! h); [|lia].
    destruct (_ <? _); lia. }
  rewrite run_checks_cons. unfold accepted in *. cbn [count_if fst snd].
  destruct (check_rate_frame now h' g) as [Hlim Hframe]. simpl in Hnow.
  specialize (IH (check_rate now h' g).2). rewrite Hlim in IH.
  destruct (decide (h' = h)) as [->|Hne].
  - rewrite bool_decide_true by done. simpl.
    rewrite check_rate_limited in IH |- * by lia.
    cbn [fst snd buckets set_buckets rate_limit] in *. rewrite lookup_insert_eq in IH.
    destruct (allowance_step (rate_limit g) t0 now (buckets g !! h)) as [Hok' Hstep]; [done..|].
    specialize (IH Hl Hok'). destruct (count (next_bucket now (buckets g !! h)) <=? rate_limit g); lia.
  - rewrite bool_decide_false by done. simpl. rewrite Hframe in IH by done. specialize (IH Hl Hok). lia.
Qed.

(** ** Digests *)

Lemma foldl_lor_zero (f : nat → Z) (l : list nat) d :
  foldl (λ diff i, Z.lor diff (f i)) d l = 0 ↔ d = 0 ∧ ∀ i, i ∈ l → f i = 0.
Proof.
  revert d. induction l as [|i l IH]; intros d; simpl; [set_solver|].
  rewrite IH, Z.lor_eq_0_iff. setoid_rewrite elem_of_cons. naive_solver.
Qed.

Lemma equal_hashes_spec left right :
  length left = 32%nat → length right = 32%nat → equal_hashes left right = true ↔ left = right.
Proof.
  intros Hl Hr. unfold equal_hashes. rewrite Z.eqb_eq, foldl_lor_zero.
  split; [|intros ->; split; [done|]; intros i _; apply Z.lxor_nilpotent].
  intros [_ H]. apply list_eq_same_length with 32%nat; [done..|].
  intros i x y Hi Hx Hy. apply list_lookup_total_correct in Hx as <-.
  apply list_lookup_total_correct in Hy as <-. apply Z.lxor_eq. apply H.
  apply elem_of_seq. lia.
Qed.

(** ** Parsed entries *)

Lemma dedup_sorted l : StronglySorted Z.le l → StronglySorted Z.lt (dedup l) ∧ ∀ x, x ∈ dedup l ↔ x ∈ l.
Proof.
  induction l as [|x l IH]; [by repeat constructor|]. intros [Hl Hx]%StronglySorted_inv.
  destruct (IH Hl) as [Hs Hin]. destruct l as [|y l]; [split; [by repeat constructor|done]|].
  change (dedup (x :: y :: l)) with (if x =? y then dedup (y :: l) else x :: dedup (y :: l)).
  destruct (Z.eqb_spec x y) as [->|Hne].
  - split; [done|]. intros z. rewrite Hin. set_solver.
  - split; [|intros z; rewrite !(elem_of_cons _ z x), Hin; done]. constructor; [done|].
    apply Forall_forall. intros z Hz%Hin.
    apply StronglySorted_inv in Hl as [_ Hl]. rewrite Forall_forall in Hl, Hx.
    assert (x ≤ y) by (apply Hx; by left). apply elem_of_cons in Hz as [->|Hz]; [lia|].
    specialize (Hl z Hz). lia.
Qed.

(** A parsed entry has a token, strictly increasing projects and a positive
    quota. *)
Record entry_ok (e : TokenEntry) : Prop := {
  entry_token : token e ≠ [];
  entry_projects : StronglySorted Z.lt (projects e);
  entry_quota : ∀ q, quota_bytes e = Some q → 0 < q ≤ u64_max;
}.

Lemma parse_scope_quota scope q s :
  parse_scope scope = Ok (Some q, s) → 0 < q ≤ u64_max.
Proof.
  unfold parse_scope. destruct scope as [scope|]; [|done].
  destruct (split_once _ scope) as [[a b]|]; [|done]. unfold parse_quota.
  destruct (parse_unsigned u64_max (trim b)) as [n|] eqn:En; [|done].
  destruct (Z.eqb_spec n 0); [done|]. intros [= <- _]. apply parse_unsigned_range in En. lia.
Qed.

Lemma parse_token_item_ok item e : parse_token_item item = Ok e → entry_ok e.
Proof.
  unfold parse_token_item.
  destruct (match split_once _ item with Some (v, s) => _ | None => _ end) as [value scope].
  destruct (decide (value = [])) as [|Hv]; [done|].
  destruct (parse_scope scope) as [[quota sc]|] eqn:Es; [|done].
  destruct (parse_projects _) as [ids|]; [|done]. intros [= <-]. split; simpl; [done| |].
  - apply dedup_sorted, StronglySorted_merge_sort; apply _.
  - intros q ->. by eapply parse_scope_quota.
Qed.

Lemma parse_token_env_ok raw entries :
  parse_token_env raw = Ok entries → entries ≠ [] ∧ Forall entry_ok entries.
Proof.
  unfold parse_token_env. intros H.
  assert (parse_token_items (items 59 raw) = Ok entries ∧ entries ≠ []) as [Hp Hne].
  { destruct (parse_token_items _) as [[|e es]|]; [done| |done]. by injection H as <-. }
  split; [done|]. revert entries Hp H Hne. induction (items 59 raw) as [|item l IH]; intros entries; simpl.
  { intros [= <-]. done. }
  destruct (parse_token_item item) as [e|] eqn:Ee; [|done].
  destruct (parse_token_items l) as [es|]; [|done]. intros [= <-] _ _.
  constructor; [by eapply parse_token_item_ok|]. destruct es; [done|]. by apply IH.
Qed.

Lemma tokens_from_ok v entries : tokens_from v = Ok entries → Forall entry_ok entries.
Proof.
  unfold tokens_from. destruct v; [|intros [= <-]; done]. intros H. by apply parse_token_env_ok in H as [_ H].
Qed.

(** ** Authentication and validation *)

Section validation.
Context (sha256 : list Z → digest).
(** A SHA-256 digest has 32 bytes. *)
Context (sha256_length : ∀ m, length (sha256 m) = 32%nat).

Abbreviation hash_token := (hash_token sha256).
Abbreviation validate := (validate sha256).
Abbreviation from_env := (from_env sha256).

Lemma equal_tokens a b : equal_hashes (hash_token a) (hash_token b) = true ↔ hash_token a = hash_token b.
Proof. apply equal_hashes_spec; apply sha256_length. Qed.

Lemma validate_entries_spec entries seen :
  Forall (λ h, length h = 32%nat) seen →
  validate_entries sha256 entries seen = Ok tt ↔
  Forall (λ e, (MIN_TOKEN_LEN ≤ length (as_bytes (token e)))%nat ∧ Forall (λ i, 0 < i) (projects e)) entries ∧
  NoDup (map (λ e, hash_token (token e)) entries) ∧
  ∀ e, e ∈ entries → hash_token (token e) ∉ seen.
Proof.
  revert seen. induction entries as [|e entries IH]; intros seen Hseen; simpl.
  { split; [intros _; split_and!; [done|constructor|]; intros e He; by apply elem_of_nil in He|done]. }
  rewrite Forall_cons, NoDup_cons. setoid_rewrite elem_of_cons.
  destruct (Nat.ltb_spec (length (as_bytes (token e))) MIN_TOKEN_LEN) as [Hlen|Hlen].
  { split; [done|]. intros [[[Hl _] _] _]. lia. }
  destruct (existsb (λ i, i <=? 0) (projects e)) eqn:Ep.
  { split; [done|]. intros [[[_ Hp] _] _]. apply existsb_exists in Ep as (i & Hi%list_elem_of_In & Hi').
    rewrite Forall_forall in Hp. specialize (Hp i Hi). apply Z.leb_le in Hi'. lia. }
  assert (Forall (λ i, 0 < i) (projects e)) as Hp.
  { apply Forall_forall. intros i Hi. apply Z.nle_gt. intros Hle.
    assert (existsb (λ i, i <=? 0) (projects e) = true) as Hex; [|congruence].
    apply existsb_exists. exists i. split; [by apply list_elem_of_In|by apply Z.leb_le]. }
  assert (Hknown : existsb (λ known, equal_hashes known (hash_token (token e))) seen = true ↔
    hash_token (token e) ∈ seen).
  { rewrite existsb_exists. setoid_rewrite <- list_elem_of_In. rewrite Forall_forall in Hseen. split.
    - intros (k & Hk & He). apply equal_hashes_spec in He as <-; [done|by apply Hseen|apply sha256_length].
    - intros Hk. exists (hash_token (token e)). split; [done|]. by apply equal_tokens. }
  destruct (existsb _ seen).
  { split; [done|]. intros (_ & _ & Hn). exfalso. by apply (Hn e (or_introl eq_refl)), Hknown. }
  assert (hash_token (token e) ∉ seen) as Hns by (intros Hk; by apply Hknown in Hk).
  rewrite IH by (apply Forall_app; split; [done|by repeat constructor; apply sha256_length]).
  setoid_rewrite elem_of_app. setoid_rewrite list_elem_of_singleton.
  assert (hash_token (token e) ∉ map (λ e, hash_token (token e)) entries ↔
    ∀ e', e' ∈ entries → hash_token (token e') ≠ hash_token (token e)) as ->.
  { rewrite list_elem_of_fmap. naive_solver. }
  naive_solver.
Qed.

Record config_valid (c : AdmissionConfig) : Prop := {
  valid_some : tokens c ++ management_tokens c ≠ [];
  valid_tokens : Forall (λ e, (MIN_TOKEN_LEN ≤ length (as_bytes (token e)))%nat ∧
                              Forall (λ i, 0 < i) (projects e)) (tokens c ++ management_tokens c);
  valid_distinct : NoDup (map (λ e, hash_token (token e)) (tokens c ++ management_tokens c));
  valid_prefixes : Forall (λ p, p ≠ []) (public_path_prefixes c);
}.

Lemma validate_spec c : validate c = Ok tt ↔ (enabled c = true → config_valid c).
Proof.
  unfold Admission.validate. destruct (enabled c); simpl; [|done].
  assert (Hempty : bool_decide (length (tokens c) = 0%nat) && bool_decide (length (management_tokens c) = 0%nat) = true
    ↔ tokens c ++ management_tokens c = []).
  { rewrite andb_true_iff, !bool_decide_eq_true, app_nil. by rewrite !length_zero_iff_nil. }
  destruct (_ && _).
  { split; [done|]. intros H. destruct (H eq_refl) as [[] _ _ _]. by apply Hempty. }
  pose proof (validate_entries_spec (tokens c ++ management_tokens c) [] (Forall_nil_2 _)) as He.
  assert (Hpre : existsb (λ p, bool_decide (p = [])) (public_path_prefixes c) = true ↔
    ¬ Forall (λ p, p ≠ []) (public_path_prefixes c)).
  { rewrite Forall_forall, existsb_exists. setoid_rewrite <- list_elem_of_In.
    setoid_rewrite bool_decide_eq_true. split; [naive_solver|]. intros Hn.
    destruct (decide (([] : str) ∈ public_path_prefixes c)) as [Hin|Hin]; [by exists []|].
    destruct Hn. by intros p Hp ->. }
  destruct (validate_entries _ _ _) as [[]|e].
  - destruct (proj1 He eq_refl) as (H1 & H2 & _).
    destruct (existsb _ _).
    + split; [done|]. intros H. exfalso. by apply (proj1 Hpre eq_refl), (valid_prefixes _ (H eq_refl)).
    + split; [|done]. intros _ _. split; [|done..|].
      * intros Hn. by apply Hempty in Hn.
      * destruct (decide (Forall (λ p, p ≠ []) (public_path_prefixes c))) as [|Hn]; [done|].
        by apply Hpre in Hn.
  - split; [done|]. intros H. destruct (H eq_refl) as [_ H1 H2 _].
    assert (Err (A := unit) e = Ok tt); [|done]. apply He. split_and!; [done..|].
    intros e' _. apply not_elem_of_nil.
Qed.

(** A configuration passes validation exactly when admission is disabled or it
    has a token, every token has at least 16 bytes and positive projects, no
    two tokens share a digest, and no public prefix is empty. *)
Theorem validation_accepts_exactly (c : AdmissionConfig) :
  validate c = Ok tt ↔ (enabled c = true → config_valid c).
Proof. apply validate_spec. Qed.

(** Whatever the environment holds, loading fails or gives a configuration that
    is enabled exactly when a token variable is set and not blank, is valid,
    has a positive body limit, and whose entries have strictly increasing
    projects and positive quotas. *)
Theorem loaded_configuration_is_valid (env : Environment) :
  match from_env env with
  | Err _ => nonblank (CCE_ADMISSION_TOKENS env) ≠ None ∨ nonblank (CCE_MANAGEMENT_TOKENS env) ≠ None
  | Ok c =>
      (enabled c = true ↔
        nonblank (CCE_ADMISSION_TOKENS env) ≠ None ∨ nonblank (CCE_MANAGEMENT_TOKENS env) ≠ None) ∧
      (enabled c = true → config_valid c) ∧
      (0 < max_body_bytes c ≤ usize_max) ∧ (0 ≤ rate_limit_per_min c ≤ u32_max) ∧
      Forall entry_ok (tokens c ++ management_tokens c)
  end.
Proof.
  assert (Hnum : ∀ hi d reason v n, 0 ≤ d ≤ hi → number_from hi d reason v = Ok n → 0 ≤ n ≤ hi).
  { intros hi d reason v n Hd. unfold number_from. destruct v as [raw|]; [|by intros [= <-]].
    destruct (parse_unsigned hi (trim raw)) eqn:E; [|done]. intros [= <-]. by apply parse_unsigned_range in E. }
  unfold Admission.from_env. set (gw := nonblank _). set (mg := nonblank _).
  assert (Hsome : (gw = None ∧ mg = None) ∨ (gw ≠ None ∨ mg ≠ None)) by (destruct gw, mg; auto).
  destruct Hsome as [[-> ->]|Hsome].
  { simpl. split_and!; try done. split; [done|]. by intros [|]. }
  match goal with |- context [result_bind ?a ?b] => set (body := result_bind a b) end.
  assert (match gw, mg with None, None => Ok default_config | _, _ => body end = body) as ->
    by (destruct gw, mg; try done; by destruct Hsome).
  subst body. destruct (tokens_from gw) as [ts|] eqn:Et; [|done].
  destruct (tokens_from mg) as [ms|] eqn:Em; [|done]. cbn [result_bind].
  destruct (number_from u32_max _ _ _) as [limit|] eqn:El; [|done]. cbn [result_bind].
  destruct (number_from usize_max _ _ _) as [mx|] eqn:Ex; [|done]. cbn [result_bind].
  destruct (number_from u64_max _ _ _) as [timeout|] eqn:Eto; [|done]. cbn [result_bind].
  match goal with |- context [Admission.validate sha256 ?c] => set (cfg := c) end.
  destruct (Admission.validate sha256 cfg) as [[]|] eqn:Ev; [|done]. cbn [result_bind].
  apply validate_spec in Ev; [|done]. split_and!.
  - done.
  - done.
  - subst cfg. simpl. apply Hnum in Ex; [|by vm_compute]. destruct (Z.eqb_spec mx 0); [by vm_compute|lia].
  - subst cfg. simpl. apply Hnum in Ex; [|by vm_compute]. destruct (Z.eqb_spec mx 0); [by vm_compute|lia].
  - subst cfg. simpl. apply Hnum in El; [lia|by vm_compute].
  - subst cfg. simpl. apply Hnum in El; [lia|by vm_compute].
  - subst cfg. simpl. apply Forall_app. split; by eapply tokens_from_ok.
Qed.

End validation.

(** ** Outcomes *)

Section outcomes.
Context {Body : Type}.
Context (sha256 : list Z → digest) (to_bytes : Body → Z → option (list Z))
  (from_bytes : list Z → Body) (json_project_id : list Z → option Z).

Abbreviation admission_middleware :=
  (admission_middleware sha256 to_bytes from_bytes json_project_id).

(** Every request on a path that is not public adds one to exactly one counter,
    the one of its outcome. *)
Theorem every_request_is_counted (now : Instant) (r : Request Body) (g : AdmissionGate) :
  let '(response, g') := admission_middleware now r g in
  metrics g' =
    match response with
    | Passed None _ => metrics g
    | Passed (Some _) _ => record_admitted (metrics g)
    | Rejected UNAUTHORIZED _ => record_auth_rejection (metrics g)
    | Rejected FORBIDDEN _ => record_scope_rejection (metrics g)
    | Rejected TOO_MANY_REQUESTS _ => record_rate_rejection (metrics g)
    | Rejected PAYLOAD_TOO_LARGE _ => record_body_rejection (metrics g)
    | Rejected REQUEST_TIMEOUT _ => metrics g
    end.
Proof.
  unfold Admission.admission_middleware.
  destruct (is_public_path _ _); [done|]. destruct (presented_token r) as [t|]; [|done].
  destruct (find_entry sha256 t g) as [[entry admin]|]; [|done].
  destruct (negb (allows_path _ _)); [done|].
  assert (metrics (check_rate now (hash entry) g).2 = metrics g) as Hm.
  { unfold check_rate. by destruct (rate_limit g =? 0). }
  destruct (check_rate now (hash entry) g) as [within g1]. simpl in Hm.
  destruct (negb within); [by rewrite <- Hm|].
  destruct (read_body _ _ _ r (max_body g1)) as [[ps r']|]; [|by rewrite <- Hm].
  destruct (existsb _ _); by rewrite <- Hm.
Qed.

Definition set_query (q : option str) (r : Request Body) : Request Body :=
  {| path := path r; query := q; authorization := authorization r;
     x_api_token := x_api_token r; content_type := content_type r; origin := origin r;
     method := method r; body := body r |}.

Definition with_query (q : option str) (response : @Response Body) : @Response Body :=
  match response with Passed c r => Passed c (set_query q r) | Rejected s code => Rejected s code end.

Lemma valueless_query (a q : str) :
  Forall (λ c, is_char 61 c = false ∧ is_char 38 c = false) a →
  project_id_from_query (Some (a ++ 38 :: q)) = None.
Proof.
  intros Ha. unfold project_id_from_query. simpl.
  rewrite split_on_app_sep by (done || by eapply Forall_impl; [exact Ha|intros c []]).
  simpl. rewrite split_once_none; [done|]. by eapply Forall_impl; [exact Ha|intros c []].
Qed.

Lemma read_body_query q r limit :
  read_body to_bytes from_bytes json_project_id (set_query q r) limit =
  (λ p, (p.1, set_query q p.2)) <$> read_body to_bytes from_bytes json_project_id r limit.
Proof.
  unfold read_body. change (buffers_body (set_query q r)) with (buffers_body r).
  destruct (buffers_body r); [|done]. simpl. by destruct (to_bytes (body r) limit).
Qed.

(** A first query parameter without a value hides every project named after it:
    the request is treated as if it had no query at all. *)
Theorem valueless_parameter_hides_project (a q : str) (now : Instant) (r : Request Body)
    (g : AdmissionGate) :
  Forall (λ c, is_char 61 c = false ∧ is_char 38 c = false) a →
  let hidden := Some (a ++ 38 :: q) in
  let '(response, g') := admission_middleware now (set_query None r) g in
  admission_middleware now (set_query hidden r) g = (with_query hidden response, g').
Proof.
  intros Ha. cbv zeta. unfold Admission.admission_middleware.
  change (path (set_query ?q r)) with (path r).
  change (presented_token (set_query ?q r)) with (presented_token r).
  change (query (set_query ?q r)) with q. rewrite valueless_query by done.
  change (project_id_from_query None) with (None : option Z).
  destruct (is_public_path _ _); [done|]. destruct (presented_token r) as [t|]; [|done].
  destruct (find_entry sha256 t g) as [[entry admin]|]; [|done].
  destruct (negb (allows_path _ _)); [done|].
  destruct (check_rate now (hash entry) g) as [within g1].
  destruct (negb within); [done|]. rewrite !read_body_query.
  destruct (read_body _ _ _ r (max_body g1)) as [[ps r']|]; [|done]. simpl.
  by destruct (existsb _ _).
Qed.

End outcomes.

Section proofs.
Context {Body : Type}.
Context (sha256 : list Z → digest) (hex_encode : list Z → str)
  (to_bytes : Body → Z → option (list Z)) (from_bytes : list Z → Body)
  (json_project_id : list Z → option Z).
(** A SHA-256 digest has 32 bytes. *)
Context (sha256_length : ∀ m, length (sha256 m) = 32%nat).

Abbreviation hash_token := (hash_token sha256).
Abbreviation stored_token := (stored_token sha256 hex_encode).
Abbreviation from_entries := (from_entries sha256 hex_encode).
Abbreviation admission_middleware :=
  (admission_middleware sha256 to_bytes from_bytes json_project_id).

Lemma authenticate_spec entries t s :
  authenticate sha256 (from_entries entries) t = Some s →
  ∃ e, e ∈ entries ∧ s = stored_token e ∧ hash_token (token e) = hash_token t ∧
    (MIN_TOKEN_LEN ≤ length (as_bytes t))%nat.
Proof.
  unfold authenticate. destruct (Nat.ltb_spec (length (as_bytes t)) MIN_TOKEN_LEN); [done|].
  intros Hs. assert (s ∈ Prelude.retain (λ e, equal_hashes (hash e) (hash_token t)) (from_entries entries))
    as Hin by (destruct (Prelude.retain _ _); [done|injection Hs as ->; by left]).
  apply elem_of_retain in Hin as [Hin He]. apply list_elem_of_fmap in Hin as (e & -> & Hin).
  exists e. split_and!; [done..| |done]. by apply (equal_tokens sha256 sha256_length).
Qed.

(** *** The projects a request names *)

Definition named_projects (r : Request Body) (limit : Z) : list Z :=
  option_list (project_id_from_path (path r)) ++ option_list (project_id_from_query (query r))
  ++ (if buffers_body r then
        match to_bytes (body r) limit with
        | Some bytes => option_list (body_project json_project_id bytes)
        | None => []
        end
      else []).

Lemma read_body_projects r limit ps r' :
  read_body to_bytes from_bytes json_project_id r limit = Some (ps, r') →
  (option_list (project_id_from_path (path r)) ++ option_list (project_id_from_query (query r))) ++ ps =
  named_projects r limit.
Proof.
  unfold read_body, named_projects. rewrite <- app_assoc. destruct (buffers_body r).
  - destruct (to_bytes (body r) limit); simpl; [|done]. by intros [= <- _].
  - by intros [= <- _].
Qed.

Lemma find_entry_spec es ms g t entry admin :
  store g = from_entries es → admin_store g = from_entries ms →
  find_entry sha256 t g = Some (entry, admin) →
  ∃ e, e ∈ (if admin then ms else es) ∧ entry = stored_token e ∧
    hash_token (token e) = hash_token t ∧ (MIN_TOKEN_LEN ≤ length (as_bytes t))%nat.
Proof.
  intros Hes Hms. unfold find_entry. rewrite Hes, Hms.
  destruct (authenticate sha256 (from_entries ms) t) as [s|] eqn:Em.
  - intros [= <- <-]. by apply authenticate_spec.
  - intros (s & Es & [= <- <-])%bind_Some. by apply authenticate_spec.
Qed.

Lemma context_is_admin entry admin : is_admin (context_of entry admin) = admin.
Proof. by destruct admin. Qed.

(** *** Requests that name a project

    Stated on the text of the request: the number after [/api/project/] in the
    path, the value of the first parameter [project_id] of the query with only
    parameters of the form [key=value] before it, and the number a JSON body
    gives. *)
Definition slashes (s : str) : Prop := Forall (eq 47) s.

Inductive names_project (r : Request Body) (limit : Z) : Z → Prop :=
  | named_in_path lead sep1 sep2 id rest tail p :
      slashes lead → slashes sep1 → sep1 ≠ [] → slashes sep2 → sep2 ≠ [] →
      path r = lead ++ lit "api" ++ sep1 ++ lit "project" ++ sep2 ++ id ++ rest ++ tail →
      47 ∉ id → 63 ∉ id → 63 ∉ rest → (rest = [] ∨ ∃ s, rest = 47 :: s) → (tail = [] ∨ ∃ s, tail = 63 :: s) →
      parse_signed i64_min i64_max id = Some p → names_project r limit p
  | named_in_query keyed value more p :
      Forall (λ kv : str * str, 38 ∉ kv.1 ∧ 61 ∉ kv.1 ∧ 38 ∉ kv.2 ∧ kv.1 ≠ lit "project_id") keyed → 38 ∉ value →
      query r = Some (join (lit "&") (map (λ kv : str * str, kv.1 ++ 61 :: kv.2) keyed ++
                                      (lit "project_id=" ++ value) :: more)) →
      parse_signed i64_min i64_max value = Some p → names_project r limit p
  | named_in_body ct bytes p :
      content_type r = Some (lit "application/json" ++ ct) → method r ≠ GET →
      to_bytes (body r) limit = Some bytes → bytes ≠ [] → json_project_id bytes = Some p →
      names_project r limit p.

Lemma not_sep c a : c ∉ a → Forall (λ x, is_char c x = false) a.
Proof.
  intros Hc. apply Forall_forall. intros x Hx. unfold is_char. apply Z.eqb_neq. by intros ->.
Qed.

Definition segments (s : str) : list str :=
  Prelude.retain (λ s, negb (bool_decide (s = []))) (split_on (is_char 47) s).

Lemma segments_slashes s t : slashes s → segments (s ++ t) = segments t.
Proof. induction 1 as [|c s <- Hs IH]; [done|]. exact IH. Qed.

Lemma segments_cons a t :
  a ≠ [] → 47 ∉ a → (t = [] ∨ ∃ s, t = 47 :: s) → segments (a ++ t) = a :: segments t.
Proof.
  intros Hne Ha%not_sep Ht. unfold segments.
  assert (Hk : ∀ l, Prelude.retain (λ s, negb (bool_decide (s = []))) (a :: l) =
                 a :: Prelude.retain (λ s, negb (bool_decide (s = []))) l).
  { intros l. simpl. by rewrite bool_decide_eq_false_2. }
  destruct Ht as [->|[s ->]].
  - rewrite app_nil_r, split_on_none by done. by rewrite Hk.
  - rewrite split_on_app_sep by done. by rewrite Hk.
Qed.

Lemma before_query_app a t : 63 ∉ a → (t = [] ∨ ∃ s, t = 63 :: s) → before_query (a ++ t) = a.
Proof.
  intros Ha%not_sep [->|[s ->]]; unfold before_query.
  - by rewrite app_nil_r, split_on_none.
  - by rewrite split_on_app_sep.
Qed.

Lemma slashes_no_query s : slashes s → 63 ∉ s.
Proof. intros Hs Hin. by apply (proj1 (Forall_forall _ _) Hs) in Hin. Qed.

Lemma slashes_start s t : slashes s → s ≠ [] → s ++ t = [] ∨ ∃ u, s ++ t = 47 :: u.
Proof. intros [|c u <- Hu]; [done|]. right. by eexists. Qed.

Lemma path_project lead sep1 sep2 id rest tail p :
  slashes lead → slashes sep1 → sep1 ≠ [] → slashes sep2 → sep2 ≠ [] →
  47 ∉ id → 63 ∉ id → 63 ∉ rest → (rest = [] ∨ ∃ s, rest = 47 :: s) → (tail = [] ∨ ∃ s, tail = 63 :: s) →
  parse_signed i64_min i64_max id = Some p →
  project_id_from_path (lead ++ lit "api" ++ sep1 ++ lit "project" ++ sep2 ++ id ++ rest ++ tail) = Some p.
Proof.
  intros Hl H1 Hn1 H2 Hn2 Hi Hq Hr Hrest Htail Hp.
  assert (id ≠ []) as Hne by (by intros ->). unfold project_id_from_path. rewrite !app_assoc.
  rewrite before_query_app; [|..|done].
  2:{ rewrite !not_elem_of_app. split_and!; first [done|compute_done|by apply slashes_no_query]. }
  rewrite <- !app_assoc. fold (segments (lead ++ lit "api" ++ sep1 ++ lit "project" ++ sep2 ++ id ++ rest)).
  rewrite segments_slashes by done.
  rewrite segments_cons; [|by vm_compute|by compute_done|by apply slashes_start].
  rewrite segments_slashes by done.
  rewrite segments_cons; [|by vm_compute|by compute_done|by apply slashes_start].
  rewrite segments_slashes by done. rewrite segments_cons by done. by rewrite decide_True.
Qed.

Lemma split_once_at a b : 61 ∉ a → split_once (is_char 61) (a ++ 61 :: b) = Some (a, b).
Proof.
  intros Ha%not_sep. induction Ha as [|x a Hx Ha IH]; simpl; [done|]. by rewrite Hx, IH.
Qed.

Lemma query_project keyed value more p :
  Forall (λ kv : str * str, 38 ∉ kv.1 ∧ 61 ∉ kv.1 ∧ 38 ∉ kv.2 ∧ kv.1 ≠ lit "project_id") keyed → 38 ∉ value →
  parse_signed i64_min i64_max value = Some p →
  project_id_from_query (Some (join (lit "&") (map (λ kv : str * str, kv.1 ++ 61 :: kv.2) keyed ++
                                              (lit "project_id=" ++ value) :: more))) = Some p.
Proof.
  intros Hk Hv Hp. unfold project_id_from_query. cbn [mbind option_bind].
  induction Hk as [|[k v] keyed (Hk & Hk' & Hkv & Hne) Hks IH]; cbn [map app].
  - assert (split_on (is_char 38) (join (lit "&") ((lit "project_id=" ++ value) :: more)) =
      (lit "project_id" ++ 61 :: value) ::
      tail (split_on (is_char 38) (join (lit "&") ((lit "project_id=" ++ value) :: more)))) as ->.
    { assert (Forall (λ x, is_char 38 x = false) (lit "project_id=" ++ value)) as Hall
        by (apply Forall_app; split; [by repeat constructor|by apply not_sep]).
      destruct more as [|m more]; cbn [join].
      - by rewrite split_on_none.
      - change (lit "&" ++ ?x) with (38 :: x). by rewrite split_on_app_sep. }
    cbn [project_id_from_pairs]. rewrite split_once_at by (by compute_done).
    by rewrite decide_True.
  - assert (∃ m l, map (λ kv : str * str, kv.1 ++ 61 :: kv.2) keyed ++ (lit "project_id=" ++ value) :: more = m :: l)
      as (m & l & E) by (destruct keyed; by eexists _, _).
    rewrite E in IH |- *. cbn [join]. change (lit "&" ++ ?x) with (38 :: x).
    rewrite split_on_app_sep; [|apply not_sep, not_elem_of_app; split; [done|]; by apply not_elem_of_cons|done].
    cbn [project_id_from_pairs fst snd]. rewrite split_once_at by done. by rewrite decide_False.
Qed.

(** The middleware looks for every project a request names. *)
Lemma named_is_checked r limit p : names_project r limit p → p ∈ named_projects r limit.
Proof.
  unfold named_projects. intros H. rewrite !elem_of_app.
  destruct H as [lead s1 s2 id rest tl p Hl H1 Hn1 H2 Hn2 -> ? ? ? ? ? Hp|keyed v more p Hk Hv -> Hp|ct bytes p Hc Hm Hb Hn Hp].
  - left. rewrite (path_project lead s1 s2 id rest tl p) by done. by left.
  - right. left. rewrite (query_project keyed v more p) by done. by left.
  - right. right. unfold buffers_body. rewrite Hc, (proj2 (starts_with_spec _ _)) by (by eexists).
    rewrite Hb. unfold body_project. rewrite decide_False, Hp by done. destruct (method r); [done|by left..].
Qed.


End proofs.

(** A token that keeps sending requests gets one accepted in every stretch of 60
    seconds: when its window began at or before [t], a run of requests of
    any tokens that has a request of it at [t] + 60 s or later has an accepted
    one of it. *)
Theorem limited_token_is_admitted_again (h : digest) (t : Instant)
    (requests : list (digest * Instant)) (g : AdmissionGate) :
  0 ≤ rate_limit g → (∀ b, buckets g !! h = Some b → window_start b ≤ t) →
  (∃ now, (h, now) ∈ requests ∧ t + RATE_WINDOW ≤ now) →
  (h, true) ∈ (run_checks requests g).1.
Proof. apply run_checks_progress. Qed.

(** C40. Within 60 seconds at most twice the budget of requests of a token is
    accepted, whatever the other tokens send and whatever window was open, as
    long as the budget is limited and below [u32::MAX]. *)
Theorem rate_budget_bounds_requests (h : digest) (t0 : Instant)
    (requests : list (digest * Instant)) (g : AdmissionGate) :
  0 < rate_limit g < u32_max → count_ok (buckets g !! h) →
  Forall (λ p, t0 ≤ p.2 < t0 + RATE_WINDOW) requests →
  accepted h (run_checks requests g).1 ≤ 2 * rate_limit g.
Proof.
  intros Hl Hok Hts. etransitivity; [by apply (run_checks_allowance h t0)|].
  unfold allowance, count_ok in *. destruct (buckets g !! h) as [b|]; [|lia].
  destruct (_ <? _); lia.
Qed.

(** *** Examples *)

Definition demo_sha256 (m : list Z) : digest := take 32 (m ++ replicate 32 0).
Definition demo_to_bytes (b : list Z) (limit : Z) : option (list Z) :=
  if Z.of_nat (length b) <=? limit then Some b else None.

Lemma demo_sha256_length m : length (demo_sha256 m) = 32%nat.
Proof. unfold demo_sha256. rewrite length_take, length_app, length_replicate. lia. Qed.

Definition demo_entry : TokenEntry :=
  {| token := lit "alpha-token-value-1"; projects := [3]; quota_bytes := None |}.

Definition demo_config : AdmissionConfig :=
  {| enabled := true; tokens := []; management_tokens := [demo_entry];
     public_path_prefixes := default_public_paths; rate_limit_per_min := 2;
     max_body_bytes := default_max_body_bytes; request_timeout_secs := 300;
     cors_allowed_origins := [] |}.

Definition demo_gate : AdmissionGate := new_gate demo_sha256 id demo_config new_metrics.

Definition demo_request (q : option str) : Request (list Z) :=
  {| path := lit "/api/search"; query := q; authorization := Some (lit "Bearer alpha-token-value-1");
     x_api_token := None; content_type := None; origin := None; method := GET; body := [] |}.

Definition demo_middleware := admission_middleware demo_sha256 demo_to_bytes id (λ _, None).

Definition passes {Body} (response : @Response Body) : bool :=
  match response with Passed _ _ => true | Rejected _ _ => false end.


(** A management token for project 3 reaches project 9 behind a parameter
    without a value. *)
Theorem valueless_parameter_hides_project_witness :
  passes (demo_middleware 0 (demo_request (Some (lit "x&project_id=9"))) demo_gate).1 = true.
Proof.
  pose proof (valueless_parameter_hides_project demo_sha256 demo_to_bytes id (λ _, None)
    (lit "x") (lit "project_id=9") 0 (demo_request None) demo_gate) as H.
  assert (Ha : Forall (λ c, is_char 61 c = false ∧ is_char 38 c = false) (lit "x"))
    by (repeat constructor).
  specialize (H Ha). cbv zeta in H. unfold demo_middleware.
  destruct (admission_middleware demo_sha256 demo_to_bytes id (λ _, None) 0
    (set_query None (demo_request None)) demo_gate) as [response g'] eqn:E.
  change (demo_request (Some (lit "x&project_id=9")))
    with (set_query (Some (lit "x" ++ 38 :: lit "project_id=9")) (demo_request None)).
  rewrite H. vm_compute in E. injection E as <- _. reflexivity.
Defined.

Theorem validation_accepts_exactly_witness : validate demo_sha256 demo_config = Ok tt.
Proof.
  apply (validation_accepts_exactly demo_sha256 demo_sha256_length). intros _. split.
  - discriminate.
  - repeat constructor.
  - simpl. constructor; [apply not_elem_of_nil|constructor].
  - repeat constructor. discriminate.
Defined.

Definition demo_env : Environment :=
  {| CCE_ADMISSION_TOKENS := Some (lit "alpha-token-value-1@2, 1,2:1048576; beta-token-value-22");
     CCE_MANAGEMENT_TOKENS := None; CCE_ADMISSION_PUBLIC_PATHS := Some (lit " , ");
     CCE_ADMISSION_RATE_LIMIT_PER_MIN := None; CCE_ADMISSION_MAX_BODY_BYTES := Some (lit "0");
     CCE_ADMISSION_REQUEST_TIMEOUT_SECS := None; CCE_ADMISSION_CORS_ORIGINS := None |}.

Theorem loaded_configuration_is_valid_witness :
  match from_env demo_sha256 demo_env with
  | Ok c => map projects (tokens c) = [[1; 2]; []] ∧ 0 < max_body_bytes c
  | Err _ => False
  end.
Proof.
  pose proof (loaded_configuration_is_valid demo_sha256 demo_sha256_length demo_env) as H.
  destruct (from_env demo_sha256 demo_env) as [c|] eqn:E.
  - split; [|apply H]. vm_compute in E. injection E as <-. reflexivity.
  - vm_compute in E. discriminate E.
Defined.

Definition demo_digest : digest := hash_token demo_sha256 (lit "alpha-token-value-1").
Definition limited_gate : AdmissionGate :=
  set_buckets {[ demo_digest := {| window_start := 0; count := 2 |} ]} demo_gate.

Theorem limited_token_is_admitted_again_witness :
  (check_rate (from_secs 59) demo_digest limited_gate).1 = false ∧
  (demo_digest, true) ∈ (run_checks [(demo_digest, from_secs 59); (demo_digest, from_secs 60)] limited_gate).1.
Proof.
  split; [vm_compute; reflexivity|].
  apply (limited_token_is_admitted_again demo_digest 0).
  - vm_compute. discriminate.
  - intros b Hb. vm_compute in Hb. injection Hb as <-. vm_compute. discriminate.
  - exists (from_secs 60). split; [right; by left|]. vm_compute. discriminate.
Defined.

(** The bound is met: four requests with a budget of two, around the end of a
    window. *)
Definition boundary_requests : list (digest * Instant) :=
  [(demo_digest, from_secs 59); (demo_digest, from_secs 59);
   (demo_digest, from_secs 60); (demo_digest, from_secs 60); (demo_digest, from_secs 61)].

Definition open_gate : AdmissionGate :=
  set_buckets {[ demo_digest := {| window_start := 0; count := 0 |} ]} demo_gate.

Theorem rate_budget_bounds_requests_witness :
  accepted demo_digest (run_checks boundary_requests open_gate).1 = 4 ∧
  accepted demo_digest (run_checks boundary_requests open_gate).1 ≤ 2 * rate_limit open_gate.
Proof.
  split; [vm_compute; reflexivity|].
  apply (rate_budget_bounds_requests demo_digest (from_secs 59)).
  - vm_compute. split; reflexivity.
  - vm_compute. split; discriminate.
  - repeat constructor; vm_compute; discriminate.
Defined.

End Admission.
